(* ===== verification/_CoqProject ===== *)
-Q . S2P
Prelude.v
Utf8.v
Bitfield.v
Message.v
Handshake.v
Wire.v
Bencode.v
Metainfo.v
Layout.v
Priority.v
Storage.v
Picker.v
Download.v
PeerStates.v
Choke.v
UtpHeader.v
UtpDelay.v
UtpConn.v
Routing.v
Text.v
Identity.v
Value.v
Krpc.v
Lookup.v
DhtStore.v
DhtNode.v
IpFilter.v
UdpTracker.v
ExtHandshake.v
Metadata.v
MetadataTransfer.v
Peers.v
Pex.v
Registry.v
Pipeline.v
AllowedFast.v
PeerHandler.v
PeerTasks.v
PeerSwarm.v
PeerSafe.v
PeerFlaws.v
Rc4.v
Mse.v
Float.v
Rate.v
Session.v
SessionQueue.v
SessionSafe.v
SessionView.v
Resume.v
Magnet.v
Announce.v
Webseed.v
Lsd.v
FormText.v
Auth.v
SyncCache.v
Requests.v
Qbit.v
Api.v
PortMap.v
Inlet.v
Watch.v
