(* ===== verification/Prelude.v ===== *)
(** * BitRev: a verification development of the BitTorrent client

    ** The program

    [crates/bit_rev] is a BitTorrent client library in Rust.  A [.torrent] file
    is checked and decoded ([file.rs]) and laid out as a list of files in one
    address space of pieces ([torrent.rs], [utils.rs]).  A session
    ([session.rs]) runs one task per peer ([peer_connection.rs]).  Peers are
    reached over TCP or over uTP ([utp/]), exchange a handshake
    ([handshake.rs]) and then length-prefixed messages ([message.rs],
    [protocol.rs]).  All peer tasks of a torrent share one download state
    ([TorrentDownloadedState] in [peer_connection.rs]), which picks pieces with
    the availability counters and file priorities ([picker.rs],
    [priority.rs]), hands out blocks, and collects the received ones until a
    piece is complete and verified; then it is written to the files through
    the storage with its read cache ([storage/mod.rs]), from which blocks are
    uploaded too.  Peers are found through trackers ([tracker.rs],
    [protocol_udp.rs]), the DHT ([dht/]), the local network ([lsd.rs]) and peer
    exchange; addresses on the IP filter ([ip_filter.rs]) are refused.  Pieces can
    also come from HTTP servers ([webseed.rs]), and a torrent can be named by a
    magnet link ([magnet.rs]).  Peers that speak the extension protocol ([extension/]) exchange
    addresses ([ut_pex.rs]) and the metainfo itself ([ut_metadata.rs]), so that a
    torrent can start from its info hash.  A connection may be encrypted ([mse/]).
    The session keeps the torrents in a queue with limits ([session.rs],
    [rate.rs]), with categories and tags ([library.rs]), adds the files of a watched
    directory, asks routers for its port ([nat.rs]), and writes what it needs to go on
    after a restart to resume files ([resume.rs]).  [crates/server] is the HTTP server
    of the daemon, with two interfaces over the session.

    ** Conventions

    - A [w]-bit unsigned integer is a [Z]; wrap-around ([wrap64] and the like),
      saturation ([sat_add], [sat_sub]) and checked operations are written where
      the source has them.  [usize] has 64 bits.  The range predicates
      ([is_u32], ...) are hypotheses of a theorem only where the Rust type of an
      argument gives them.
    - A byte string is a [list Z] with [wf_bytes].
    - A definition whose source could panic (an index, a slice, an [expect], a
      checked overflow) returns an [option] with [None] for the panic.  Fallible
      code returns [result].  So [Some (Err e)] is an error value, and the
      theorems that a function never panics say that it is [Some].
    - Mutation is state passing; an operation done under a lock is one
      function.  Where two tasks or threads can interleave, the steps between which
      the lock is released are separate functions: a write or a read of the storage is
      a state ([Storage.Writing], [Storage.Reading]) that goes on by one system call at
      a time, and the choice and the reservation of [pick] are two steps.
    - An [await] ends a step.  The tasks of a peer are program counters with the
      local variables that outlive the [await] (PeerTasks), the waits of the session
      are entries of its list of tasks (Session: [Task]; adding a torrent is cut at
      each of its waits, and [add_magnet] and [add_torrent_meta] are the compositions
      of the parts for the case that nothing comes in between), and the handshake of the
      encryption layer is a process that asks for bytes ([Mse]); the steps of
      different tasks interleave in any order.
    - [f64] is the binary64 of the Standard Library's specification floats (Float).
    - Instants and durations are nanoseconds; an operation that reads the clock
      takes the value as an argument.
    - Code outside the repository is an argument with its documented contract:
      SHA-1; the serde decoder (in Metainfo as a function, for dynamic values as
      [from_bytes] with the class [BencodeLib]: it reads back what is written
      canonically and yields values of the right ranges); the random choices in
      Picker and Choke (classes [SliceRandom] and [GenRange]); the random bytes
      in Routing, tokens and transaction ids; the order in which a hash map is
      visited (class [HashOrder]: some order of its entries); the name resolver,
      the network and the clock of the UDP tracker (a script of replies).

    ** The files

    - Prelude: this file; integers, results, slices, segments of byte strings,
      socket addresses, the order of byte arrays.
    - Utf8: [String::from_utf8_lossy], used by the handshake.
    - Bitfield ([bitfield.rs]): [Bitfield] as a set of piece indices.
    - Message ([message.rs]): [Message], [serialize], [read], block requests and
      [validate_request], the storm counters.
    - Handshake ([handshake.rs]): [Handshake], [serialize], [from_bytes], the
      reserved bits.
    - Wire ([protocol.rs]): [Protocol::read] and [decode_frame] on a stream of
      bytes, [complete_handshake].
    - Bencode ([file.rs]): the hand-written scanners [check_bencode_depth],
      [skip_bencode] and [info_dict_range], the re-encoding that keeps the info
      dictionary, percent encoding.
    - Metainfo ([file.rs], [torrent.rs]): the metainfo records,
      [validate_torrent_file], [TorrentMeta::from_bytes], [Torrent::new].
    - Layout ([utils.rs]): piece bounds, block sizes, [map_piece_to_files].
    - Priority ([priority.rs]): file and piece priorities, [file_have_bytes].
    - Storage ([storage/mod.rs]): [write_piece], [read_block] and the cache.
    - Picker ([picker.rs]): [Availability], [select_piece],
      [select_sequential], the verified counter.
    - Download ([peer_connection.rs], first part): [PieceWorkState] and
      [TorrentDownloadedState] with every operation: [pick], [release], chunks
      and assembly, the endgame assignments, priorities, counters.
    - PeerStates ([peer_state.rs]): the state of each connected peer, the hash
      failures and the bans.
    - Choke ([choke.rs], [apply_choke] of [session.rs]): the choice of the
      unchoked peers, the transitions, and the round of the choke loop.
    - UtpHeader, UtpDelay, UtpConn ([utp/header.rs], [delay.rs], [conn.rs]): the
      packets, the LEDBAT window and timers, and the connection state machine
      with its receive and send halves.
    - Routing ([dht/routing.rs]): the Kademlia routing table.
    - Text: the character and line functions of the standard library the parsers
      use.  Identity ([identity.rs]): the version strings and the peer id.
    - Value ([serde_bencode::Value] as the sources use it): dynamic values, the
      hand-written encoders, and the interface to the decoder ([BencodeLib]).
    - Krpc ([dht/krpc.rs]): the DHT messages; Lookup ([dht/lookup.rs]): one
      iterative lookup; DhtStore ([dht/announce.rs], [dht/token.rs]): announced
      peers and write tokens; DhtNode ([dht/mod.rs]): the actor with all its
      handlers and timers over the four and the routing table.
    - IpFilter ([ip_filter.rs]): the three list formats, merging, the search.
    - UdpTracker ([protocol_udp.rs]): packets, URLs, and the exchange with its
      retries and deadlines.
    - Peers ([peer.rs], [discovery.rs]): compact and dictionary peer lists, which
      sources a private torrent allows.
    - ExtHandshake, Metadata, Pex ([extension/handshake.rs], [ut_metadata.rs],
      [ut_pex.rs]): the extended handshake, the exchange of metadata (store and
      connection side), the exchange of peers.  MetadataTransfer: two clients
      connected to each other.
    - Registry ([extension/registry.rs]): the trait [Extension] as a class, of
      which the two extensions are instances, the registry, and the session of a
      connection, written against the class.
    - Pipeline, AllowedFast, PeerHandler, PeerTasks, PeerSwarm
      ([peer_connection.rs], second part, [allowed_fast.rs], the spawning of peers
      and the writer of pieces in [session.rs]): the request pipeline, the
      allowed-fast set, the handler of every message of a peer, the requester, the
      uploader and the ticker of a connection, and all connections of a torrent
      over one download state and one storage.  PeerSafe has the invariants of the
      swarm, PeerFlaws what the code gets wrong.
    - Rc4, Mse ([mse/]): the cipher and the stream of bytes after the handshake; both
      sides of the handshake, the policy and the connector.
    - Float: the arithmetic of [f64] with its conversions.
    - Rate ([rate.rs]): the token bucket, the limits of the session, the schedule.
    - Session ([session.rs], [library.rs]): the torrents and pending torrents with
      their state, the queue, and every operation of the session in a small state
      monad with effects.  SessionQueue: the queue.  SessionSafe: every sequence of
      operations.  SessionView: the snapshots and statistics.
    - Resume ([resume.rs], [session.rs]): resume files, from writing to restoring.
    - Magnet ([magnet.rs]): magnet links, with the text form of socket addresses.
    - Announce ([tracker.rs], [tracker_peers.rs], [file.rs]): the announce URL, the
      answers of trackers, and the announce loop of one tracker as a state machine.
    - Webseed ([webseed.rs]): the requests to an HTTP server, the way of a fetched
      piece into the download state, and the task of a URL with its jobs.
    - Lsd ([lsd.rs]): the datagrams of local discovery, the limit per address, and the
      announce loop.
    - FormText, Auth, SyncCache, Requests, Qbit, Api ([crates/server]): the texts of
      forms; sessions, login and the middleware; the changes that clients poll; requests
      as programs over the session, which other tasks use at the same time; the
      handlers of the qBittorrent interface ([qbittorrent.rs]) and of the native one
      ([api.rs]) as such programs.
    - PortMap ([nat.rs], [spawn_nat] of [session.rs]): the three mapping protocols as
      instances of one class over the gateways, and the task that maps, renews and
      gives back.
    - Inlet ([session.rs], [transport/], [tracker_peers.rs]): how peers get in, from an
      accepted socket through the encryption and the handshake to a torrent, and from
      an address to a dialled connection.
    - Watch ([library.rs], [session.rs]): the file of categories, and the watched
      directory with its file system.

    ** What the theorems show

    - The downloaded data is right.  Download: every reachable state satisfies
      [wf_download]; [pick] chooses an eligible piece of the highest priority (in a
      sequential download, the first), reserves it if it is still free, and goes round
      again only when another task was faster; the blocks requested for a piece tile
      it; when the chunks cover a piece, the assembled buffer is exact, in
      whatever order they arrived; the endgame gives a block to at most two
      peers; a priority change withdraws exactly the unwanted pieces; the
      reported counts are exact.  Storage: writing and reading refine an
      overwrite and a slice of one flat array, across files and with the cache, when
      nothing comes in between; the single system calls of several of them are
      interleaved in PeerSafe.
    - Peer input is handled safely.  Message, Handshake, Wire, UtpHeader and
      Bencode: decoders never panic, bound what they accept, are inverse to the
      encoders, and accept only canonical encodings; the nesting guard bounds
      the recursion of the scanners to 32 calls; validated metainfo has no path
      that leaves the download directory; the info hash covers the exact bytes
      of the file.
    - The transport is reliable.  UtpConn: the receiver delivers the byte stream
      in order under reordering, duplication and sequence wrap-around, without exactly
      the segments that did not fit its buffer; the in-flight accounting, the window and the timeouts stay in their bounds.
    - The choices are good.  Picker: the counters are exact and the choice is
      rarest first.  Priority: a piece has the highest priority of its files.
      Routing: the buckets always partition the id space, insertion evicts only
      bad nodes, and [closest] returns the nodes of least distance in order.
    - Peers are treated as intended.  Choke: the regular slots go to the best
      interested peers, a round sends one message per change, and the number of
      unchoked peers is bounded.  PeerStates: a ban holds for its hour.
    - The DHT node serves strangers safely.  DhtNode: no datagram, command or
      tick makes it panic or loop, its tables stay within their bounds, a peer is
      announced only with a token of its own address, answers to no query are
      ignored.  Lookup: a contact is asked once, every lookup ends, and its
      result is the eight closest contacts.  Krpc, DhtStore: round trips, ranges
      and exact contents.
    - Peers are found and filtered as intended.  IpFilter: the search over merged
      ranges is equivalent to scanning the lines of the file.  UdpTracker: an
      announce ends in bounded time and returns only the answer to its own
      request, though not before a name lookup that takes longer than its limit.  Pex: a
      peer that applies the updates comes to know exactly the connected peers, with at
      most 50 changes of a kind in a message and a minute between two.  Metadata:
      whatever peers send, metadata is complete only with the right hash, and a piece is
      asked of one peer at a time; between two clients the transfer completes if the
      parser takes the raw bytes and the one that serves ticks.  Announce: the announces a tracker sees follow the
      protocol, whatever it answers.  Lsd: two clients on one network find each other.
      Magnet: a printed link parses back to the same magnet.
      Inlet: an incoming peer is admitted exactly when the filter, the encryption policy,
      its torrent, the bans and the limits allow it; the addresses dialled are exactly
      the allowed ones; a peer dialled with encryption reaches the other side.
    - Web seeds are as safe as peers.  Webseed: a server that has the files gives
      exactly the pieces; whatever it answers, only verified pieces are sent on, the
      requests are paced, failures are counted, and no reservation is left behind unless
      the task panics.
    - The swarm is safe.  PeerSafe: whatever the peers send and however the tasks and
      the system calls of the storage threads interleave, nothing panics, only verified
      pieces are written, a piece on disk is as it was or right unless its write is
      under way or broke off, the upload queues stay short, and the requests read stay
      inside the torrent.
    - Encryption is transparent.  Mse: two clients agree on a method and end up with
      matching streams, however the network cuts the bytes.  Rc4: a reader gets the
      bytes the writer wrote, and of a buffer under way a prefix, with partial reads and
      writes and with errors.
    - The session does what it is told.  SessionQueue: an evaluation of the queue
      starts exactly the torrents their place and the limits allow, and repeating it
      changes nothing; moves are exact.  SessionSafe: the visible state of a torrent
      agrees with what its tasks may do, categories exist (unless one is removed while a
      torrent is being added to it), and a paused torrent stays paused.  Resume: a file
      is written atomically, and a torrent comes back after a restart with its pieces,
      the settings that are saved and its place in the queue.  PortMap: every
      mapping is given back, once, however the gateways answer.  Watch: a file is added
      once, none is lost, and the categories are read back as written.
    - The server does what requests say, for those who may ask.  Auth: a request passes
      exactly with a session that was opened with the password and used within a day.
      Qbit: a request does one operation for each torrent it names, and one that is
      refused as bad does nothing.  SyncCache: what clients keep by polling is what the
      session has.  All that requests do is a run of the operations of SessionSafe
      ([Requests.performs_run]), so the invariants there hold.
    - Some theorems show where the code falls short of its intention:
      [Storage.write_piece_race], [UtpConn.full_buffer_loses_segment],
      [Choke.optimistic_mark_leaks], [Metainfo.negative_length_accepted],
      [DhtNode.slow_lookup_never_announces], [Lookup.dead_contacts_block_announce],
      [IpFilter.mapped_address_not_blocked], [Metadata.wrong_size_blocks_metadata],
      [Metadata.mismatch_stalls], [Metadata.metadata_piece_refused],
      [Registry.serve_limit_bypassed], [PeerFlaws.unverified_piece_served],
      [PeerFlaws.have_without_bitfield_lost], [PeerFlaws.stray_byte_blocks_piece],
      [PeerFlaws.timed_out_pipeline_stalls], [Mse.early_payload_garbled],
      [SessionSafe.user_pause_lost], [SessionSafe.removed_magnet_returns],
      [SessionSafe.removed_category_named], [SessionSafe.added_twice_replaces],
      [Announce.failing_tracker_hammered], [Announce.seed_announces_completed],
      [Announce.queued_torrent_announces], [Webseed.retry_after_kills_seed],
      [Webseed.failure_releases_other], [Webseed.leftover_wastes_fetch],
      [Webseed.single_entry_directory], [Lsd.lsd_starves_torrents],
      [SyncCache.sync_tags_stale], [SyncCache.rid_reused_after_restart],
      [Qbit.preferences_applied_in_part], [Qbit.limit_update_lost],
      [Api.files_set_in_part], [Api.pending_priority_grows],
      [Watch.partial_file_never_added], [Watch.replaced_file_ignored] and, as conditions
      the caller has to ensure, [Routing.replace_inv].

    ** Fuel

    A loop that is not structural has fuel, and a theorem shows that the fuel
    given is enough.  The byte scanners of Bencode take one unit per byte, since
    each round consumes one ([bencode_scans_terminate]); the second number of
    [skip_bencode] is the depth of the call stack, for which 32 is enough behind
    the guard ([depth_guard_bounds_stack]).  [decode_extensions] takes the length
    of the datagram (each extension has two bytes at least).  [pick] needs one round
    when no other task comes in between ([pick_reserves]); with other tasks its rounds
    are a list in [pick_correct].  [blocks_from] takes
    [len / 16384 + 1] rounds.  [send_data] takes one more than the bytes to send,
    and [drain_reorder] the size of the reorder buffer.  [insert_loop] takes 161,
    because every round but the last makes the prefix of the own bucket longer
    and it has at most 160 bits.  [drive_loop] of DhtNode takes 2, because a
    lookup either sends queries or is finished in the second round.  The scanner
    that [md_parse_message] calls needs 33 stack frames behind the guard, a
    hypothesis on [stack] where it is used.  [exchange] of MetadataTransfer takes
    one round per piece.  The rounds of the UDP tracker are a list in the source
    too.  The loop of AllowedFast ends when enough different pieces were drawn, which
    depends on the digests: its theorems hold for every fuel, and for those that end.
    [read_until] of Mse takes one unit per byte it may read, and the loops that skip
    padding one per byte of it.  [unique_loop] of Watch takes one more than the number
    of paths, since every round but the last finds another taken name.

    ** What is not modelled

    Sockets, listeners, timers and wakers, and the multiplexer of uTP over one UDP
    socket: what arrives and when is the input of a step.  File-system calls other than
    positional reads and writes, the atomic write of resume files and what the watched
    directory does; the system calls that allocate files ([allocate.rs]); serde and the
    digests; the loading of configuration records; the HTTP library under the handlers
    of the server, its stream of events and static pages, the command line and the test
    kits.  A round of the choke loop is taken as atomic, and so is what a method of the
    session does between two waits.  The HTTP clients of trackers and web seeds are
    functions from requests to answers, and so are the gateways of PortMap; the race of
    two transports is a choice of who answers first. *)

From stdpp Require Export base list gmap strings sorting fin_maps fin_sets.
From Stdlib Require Export ZArith Lia.

Declare Scope bitrev_scope.
Delimit Scope bitrev_scope with bitrev.
Open Scope bitrev_scope.
Open Scope Z_scope.

(** ** Machine integers

    An unsigned [w]-bit integer is a [Z] in [[0, 2^w)].  Arithmetic that the
    source performs with wrap-around, saturation or a check is written out with
    the functions below; [usize] has 64 bits. *)

Abbreviation u8 := Z (only parsing).
Abbreviation u16 := Z (only parsing).
Abbreviation u32 := Z (only parsing).
Abbreviation u64 := Z (only parsing).
Abbreviation u128 := Z (only parsing).
Abbreviation usize := Z (only parsing).
Abbreviation i64 := Z (only parsing).
(** Instants and durations are counts of nanoseconds. *)
Abbreviation Instant := Z (only parsing).
Abbreviation Duration := Z (only parsing).

Definition U8_MAX : Z := 255.
Definition U16_MAX : Z := 65535.
Definition U32_MAX : Z := 4294967295.
Definition U64_MAX : Z := 18446744073709551615.
Definition U128_MAX : Z := 340282366920938463463374607431768211455.

Definition is_u8 (z : Z) : Prop := 0 <= z <= U8_MAX.
Definition is_u16 (z : Z) : Prop := 0 <= z <= U16_MAX.
Definition is_u32 (z : Z) : Prop := 0 <= z <= U32_MAX.
Definition is_u64 (z : Z) : Prop := 0 <= z <= U64_MAX.
Definition is_u128 (z : Z) : Prop := 0 <= z <= U128_MAX.

Definition wrap8 (z : Z) : Z := z mod 256.
Definition wrap16 (z : Z) : Z := z mod 65536.
Definition wrap32 (z : Z) : Z := z mod 4294967296.
Definition wrap64 (z : Z) : Z := z mod 18446744073709551616.

(** Two's-complement wrap-around of [i64]. *)
Definition I64_MAX : Z := 9223372036854775807.
Definition is_i64 (z : Z) : Prop := - I64_MAX - 1 <= z <= I64_MAX.
Definition wrap_i64 (z : Z) : Z :=
  (z + 9223372036854775808) mod 18446744073709551616 - 9223372036854775808.

(** [a.saturating_sub(b)] and [a.saturating_add(b)] on unsigned integers. *)
Definition sat_sub (a b : Z) : Z := Z.max 0 (a - b).
Definition sat_add (max a b : Z) : Z := Z.min max (a + b).

(** [Instant::saturating_duration_since]. *)
Definition since (now earlier : Instant) : Duration := Z.max 0 (now - earlier).

Definition secs (n : Z) : Duration := n * 1000000000.
Definition millis (n : Z) : Duration := n * 1000000.

Lemma wrap8_range z : is_u8 (wrap8 z).
Proof. unfold is_u8, wrap8, U8_MAX. pose proof (Z.mod_pos_bound z 256). lia. Qed.
Lemma wrap16_range z : is_u16 (wrap16 z).
Proof. unfold is_u16, wrap16, U16_MAX. pose proof (Z.mod_pos_bound z 65536). lia. Qed.
Lemma wrap32_range z : is_u32 (wrap32 z).
Proof. unfold is_u32, wrap32, U32_MAX. pose proof (Z.mod_pos_bound z 4294967296). lia. Qed.
Lemma wrap64_range z : is_u64 (wrap64 z).
Proof.
  unfold is_u64, wrap64, U64_MAX.
  pose proof (Z.mod_pos_bound z 18446744073709551616). lia.
Qed.

Lemma wrap8_small z : is_u8 z -> wrap8 z = z.
Proof. unfold is_u8, wrap8, U8_MAX. intros. apply Z.mod_small. lia. Qed.
Lemma wrap16_small z : is_u16 z -> wrap16 z = z.
Proof. unfold is_u16, wrap16, U16_MAX. intros. apply Z.mod_small. lia. Qed.
Lemma wrap32_small z : is_u32 z -> wrap32 z = z.
Proof. unfold is_u32, wrap32, U32_MAX. intros. apply Z.mod_small. lia. Qed.
Lemma wrap64_small z : is_u64 z -> wrap64 z = z.
Proof. unfold is_u64, wrap64, U64_MAX. intros. apply Z.mod_small. lia. Qed.

Lemma wrap_i64_small z : is_i64 z -> wrap_i64 z = z.
Proof.
  unfold is_i64, wrap_i64, I64_MAX. intros. rewrite Z.mod_small by lia. lia.
Qed.

Create HintDb bitrev discriminated.
Create Rewrite HintDb lens.
#[export] Hint Resolve wrap8_range wrap16_range wrap32_range wrap64_range : bitrev.

(** Unfold the range predicates and close the goal with [lia]. *)
Ltac ranges :=
  unfold is_u8, is_u16, is_u32, is_u64, is_u128, is_i64, I64_MAX,
    U8_MAX, U16_MAX, U32_MAX, U64_MAX, U128_MAX, sat_sub, sat_add, since in *; lia.

(** Case analysis on the boolean comparison a goal is stuck on. *)
Ltac case_cmp :=
  match goal with
  | |- context [?a <? ?b] => destruct (Z.ltb_spec a b)
  | |- context [?a <=? ?b] => destruct (Z.leb_spec a b)
  | |- context [?a =? ?b] => destruct (Z.eqb_spec a b)
  end.
Ltac case_cmp_in H :=
  match type of H with
  | context [?a <? ?b] => destruct (Z.ltb_spec a b)
  | context [?a <=? ?b] => destruct (Z.leb_spec a b)
  | context [?a =? ?b] => destruct (Z.eqb_spec a b)
  end.

(** ** Bit operations on bytes *)

Lemma u8_log2 z : is_u8 z -> Z.log2 z < 8.
Proof.
  intros Hz. destruct (decide (z = 0)) as [->|]; [done|]. apply Z.log2_lt_pow2; ranges.
Qed.

Lemma u8_of_log2 z : 0 <= z -> Z.log2 z < 8 -> is_u8 z.
Proof.
  intros Hz Hl. destruct (decide (z = 0)) as [->|]; [ranges|].
  assert (z < 2 ^ 8) by (apply Z.log2_lt_pow2; lia). ranges.
Qed.

Lemma is_u8_lor a b : is_u8 a -> is_u8 b -> is_u8 (Z.lor a b).
Proof.
  intros Ha Hb. apply u8_of_log2; [apply Z.lor_nonneg; ranges|].
  rewrite Z.log2_lor by ranges. by apply Z.max_lub_lt; apply u8_log2.
Qed.

Lemma is_u8_lxor a b : is_u8 a -> is_u8 b -> is_u8 (Z.lxor a b).
Proof.
  intros Ha Hb. apply u8_of_log2; [apply Z.lxor_nonneg; ranges|].
  apply Z.le_lt_trans with (Z.max (Z.log2 a) (Z.log2 b)); [apply Z.log2_lxor; ranges|].
  by apply Z.max_lub_lt; apply u8_log2.
Qed.

Lemma is_u8_land a b : is_u8 a -> is_u8 b -> is_u8 (Z.land a b).
Proof.
  intros Ha Hb. apply u8_of_log2; [apply Z.land_nonneg; left; ranges|].
  apply Z.le_lt_trans with (Z.min (Z.log2 a) (Z.log2 b)); [apply Z.log2_land; ranges|].
  apply Z.min_lt_iff. left. by apply u8_log2.
Qed.

(** ** Results

    [Result<A, E>] of the source.  A definition whose source can panic returns
    an [option] of its result: [None] is the panic. *)

Inductive result (A E : Type) : Type :=
| Ok (a : A)
| Err (e : E).
Arguments Ok {A E} a.
Arguments Err {A E} e.

Notation "'let!' x ':=' c 'in' k" :=
  (match c with Ok x => k | Err e => Err e end)
  (at level 10, x pattern, c at level 200, k at level 200,
   format "'let!'  x  ':='  c  'in' '//' k") : bitrev_scope.

(** [option::ok_or]. *)
Definition ok_or {A E} (o : option A) (e : E) : result A E :=
  match o with Some a => Ok a | None => Err e end.

Definition is_ok {A E} (r : result A E) : bool :=
  match r with Ok _ => true | Err _ => false end.

(** ** Byte strings *)

Abbreviation bytes := (list Z) (only parsing).

Definition wf_bytes (bs : bytes) : Prop := Forall is_u8 bs.

(** The slice [&l[a..b]] of a list when [a <= b <= l.len()]; [None] (a panic)
    otherwise. *)
Definition slice {A} (l : list A) (a b : nat) : option (list A) :=
  if (a <=? b)%nat && (b <=? length l)%nat then Some (take (b - a) (drop a l)) else None.

(** Big-endian encoding [z.to_be_bytes()] on [n] bytes and its inverse
    [from_be_bytes]. *)
Fixpoint be_bytes (n : nat) (z : Z) : bytes :=
  match n with
  | O => []
  | S n' => be_bytes n' (z / 256) ++ [z mod 256]
  end.

Definition of_be (bs : bytes) : Z := fold_left (fun acc b => acc * 256 + b) bs 0.

Lemma length_be_bytes n z : length (be_bytes n z) = n.
Proof.
  revert z; induction n as [|n IH]; intros z; simpl; [done|].
  rewrite length_app, IH; simpl; lia.
Qed.

Lemma be_bytes_wf n z : wf_bytes (be_bytes n z).
Proof.
  revert z; induction n as [|n IH]; intros z; simpl; [constructor|].
  apply Forall_app; split; [apply IH|].
  constructor; [apply wrap8_range|constructor].
Qed.

Lemma of_be_snoc bs b : of_be (bs ++ [b]) = of_be bs * 256 + b.
Proof. unfold of_be. by rewrite fold_left_app. Qed.

Lemma of_be_bytes n z : of_be (be_bytes n z) = z mod 256 ^ Z.of_nat n.
Proof.
  revert z; induction n as [|n IH]; intros z.
  { simpl. rewrite Z.mod_1_r. done. }
  change (be_bytes (S n) z) with (be_bytes n (z / 256) ++ [z mod 256]).
  rewrite of_be_snoc, IH, Nat2Z.inj_succ, Z.pow_succ_r by lia.
  rewrite (Z.rem_mul_r z 256) by lia. lia.
Qed.

Lemma be_bytes_of_be bs :
  wf_bytes bs -> be_bytes (length bs) (of_be bs) = bs.
Proof.
  induction bs as [|b bs IH] using rev_ind; intros Hwf; [done|].
  apply Forall_app in Hwf as [Hbs Hb]. inversion_clear Hb as [|? ? Hb' _].
  rewrite length_app, Nat.add_comm, of_be_snoc. simpl.
  unfold is_u8, U8_MAX in Hb'.
  rewrite (Z.div_add_l _ 256), (Z.div_small b), Z.add_0_r, IH by (done || lia).
  by rewrite Z.add_comm, Z.mod_add, Z.mod_small by lia.
Qed.

Lemma of_be_range bs : wf_bytes bs -> 0 <= of_be bs < 256 ^ Z.of_nat (length bs).
Proof.
  intros Hwf. rewrite <- (be_bytes_of_be bs) at 1 2 by done.
  rewrite of_be_bytes. apply Z.mod_pos_bound, Z.pow_pos_nonneg; lia.
Qed.

(** Fixed-width decoders and their round trips. *)
Lemma of_be_bytes_u16 z : is_u16 z -> of_be (be_bytes 2 z) = z.
Proof. intros. rewrite of_be_bytes. apply Z.mod_small. ranges. Qed.
Lemma of_be_bytes_u32 z : is_u32 z -> of_be (be_bytes 4 z) = z.
Proof. intros. rewrite of_be_bytes. apply Z.mod_small. ranges. Qed.
Lemma of_be_bytes_u64 z : is_u64 z -> of_be (be_bytes 8 z) = z.
Proof. intros. rewrite of_be_bytes. apply Z.mod_small. ranges. Qed.
Lemma of_be_bytes_u128 z : is_u128 z -> of_be (be_bytes 16 z) = z.
Proof. intros. rewrite of_be_bytes. apply Z.mod_small. ranges. Qed.

#[global] Opaque be_bytes.
#[global] Arguments of_be : simpl never.

#[export] Hint Rewrite length_be_bytes @length_app @length_take @length_drop : lens.

(** ** Slices of concatenations *)

Lemma slice_total {A} (l : list A) a b :
  (a <= b <= length l)%nat -> slice l a b = Some (take (b - a) (drop a l)).
Proof.
  intros [H1 H2]. unfold slice.
  by rewrite (proj2 (Nat.leb_le _ _) H1), (proj2 (Nat.leb_le _ _) H2).
Qed.

Lemma slice_Some {A} (l : list A) a b s :
  slice l a b = Some s -> (a <= b <= length l)%nat /\ s = take (b - a) (drop a l).
Proof.
  unfold slice.
  destruct (Nat.leb_spec a b), (Nat.leb_spec b (length l)); simpl; intros; simplify_eq; auto.
Qed.

Lemma slice_app {A} (p m s : list A) a b :
  a = length p -> b = (length p + length m)%nat -> slice (p ++ m ++ s) a b = Some m.
Proof.
  intros -> ->. rewrite slice_total by (rewrite !length_app; lia).
  rewrite drop_app_length. replace (_ + _ - _)%nat with (length m) by lia.
  by rewrite take_app_length.
Qed.

Lemma slice_full {A} (l : list A) n : n = length l -> slice l 0 n = Some l.
Proof. intros ->. rewrite slice_total by lia. by rewrite Nat.sub_0_r, drop_0, firstn_all. Qed.

Lemma slice_prefix {A} (l k : list A) n : n = length l -> slice (l ++ k) 0 n = Some l.
Proof. intros ->. apply (slice_app [] l k); simpl; lia. Qed.

Lemma slice_suffix {A} (l k : list A) a n :
  a = length l -> n = (length l + length k)%nat -> slice (l ++ k) a n = Some k.
Proof.
  intros. rewrite <- (app_nil_r k) at 1. by apply slice_app.
Qed.

Lemma slice_length {A} (l s : list A) a b : slice l a b = Some s -> length s = (b - a)%nat.
Proof. intros [? ->]%slice_Some. rewrite length_take, length_drop. lia. Qed.

Lemma slice_wf (l s : bytes) a b : wf_bytes l -> slice l a b = Some s -> wf_bytes s.
Proof. intros ? [_ ->]%slice_Some. by apply Forall_take, Forall_drop. Qed.

Lemma slice_join {A} (l s t : list A) a b c :
  slice l a b = Some s -> slice l b c = Some t -> slice l a c = Some (s ++ t).
Proof.
  intros [? ->]%slice_Some [? ->]%slice_Some. rewrite slice_total by lia. f_equal.
  replace (c - a)%nat with ((b - a) + (c - b))%nat by lia.
  rewrite <- take_take_drop, drop_drop. do 3 f_equal. lia.
Qed.

Lemma slice_prefix_of {A} (l s : list A) n : slice l 0 n = Some s -> s `prefix_of` l.
Proof. intros [_ ->]%slice_Some. rewrite drop_0. apply prefix_take. Qed.

Lemma be_of_slice (l s : bytes) a b n :
  wf_bytes l -> slice l a b = Some s -> n = (b - a)%nat -> be_bytes n (of_be s) = s.
Proof.
  intros Hwf Hs ->. rewrite <- (slice_length _ _ _ _ Hs).
  apply be_bytes_of_be. by eapply slice_wf.
Qed.

Lemma of_be_slice_range (l s : bytes) a b :
  wf_bytes l -> slice l a b = Some s -> 0 <= of_be s < 256 ^ Z.of_nat (b - a).
Proof.
  intros Hwf Hs. rewrite <- (slice_length _ _ _ _ Hs).
  apply of_be_range. by eapply slice_wf.
Qed.

Lemma of_be_slice_u16 (l s : bytes) a b :
  wf_bytes l -> slice l a b = Some s -> (b - a = 2)%nat -> is_u16 (of_be s).
Proof. intros ? Hs E. apply of_be_slice_range in Hs; [|done]. rewrite E in Hs. ranges. Qed.
Lemma of_be_slice_u32 (l s : bytes) a b :
  wf_bytes l -> slice l a b = Some s -> (b - a = 4)%nat -> is_u32 (of_be s).
Proof. intros ? Hs E. apply of_be_slice_range in Hs; [|done]. rewrite E in Hs. ranges. Qed.

#[global] Arguments slice : simpl never.

(** ** Segments

    [seg a b l] is the elements of [l] at positions [a <= i < b]; positions
    beyond the end are empty. *)
Definition seg {A} (a b : nat) (l : list A) : list A := take (b - a) (drop a l).

Lemma length_seg {A} a b (l : list A) : length (seg a b l) = (Nat.min b (length l) - a)%nat.
Proof. unfold seg. rewrite length_take, length_drop. lia. Qed.

Lemma seg_app {A} a b (l k : list A) :
  seg a b (l ++ k) = seg a b l ++ seg (a - length l) (b - length l) k.
Proof.
  unfold seg. rewrite drop_app, take_app, length_drop. do 2 f_equal. lia.
Qed.

Lemma seg_nil {A} a b : seg a b ([] : list A) = [].
Proof. unfold seg. by rewrite drop_nil, take_nil. Qed.

Lemma seg_empty {A} a b (l : list A) :
  (b <= a)%nat \/ (length l <= a)%nat -> seg a b l = [].
Proof.
  unfold seg. intros [H|H].
  - by replace (b - a)%nat with 0%nat by lia.
  - by rewrite drop_ge, take_nil by done.
Qed.

Lemma seg_seg {A} a b c d (l : list A) :
  (c <= d)%nat -> (d <= b - a)%nat -> seg c d (seg a b l) = seg (a + c) (a + d) l.
Proof.
  intros. unfold seg. rewrite skipn_firstn_comm, drop_drop, take_take.
  f_equal. lia.
Qed.

Lemma seg_clip {A} a b (l : list A) : seg a (Nat.min b (length l)) l = seg a b l.
Proof.
  unfold seg. destruct (Nat.min_spec b (length l)) as [[? ->]|[? ->]]; [done|].
  rewrite !take_ge; [done|rewrite length_drop; lia..].
Qed.

Lemma seg_join {A} a b c (l : list A) :
  (a <= b <= c)%nat -> seg a b l ++ seg b c l = seg a c l.
Proof.
  intros. unfold seg. replace (c - a)%nat with ((b - a) + (c - b))%nat by lia.
  rewrite <- (take_take_drop (drop a l)), drop_drop. do 3 f_equal. lia.
Qed.

Lemma filter_all {A} (P : A -> Prop) `{!forall x, Decision (P x)} (l : list A) :
  Forall P l -> filter P l = l.
Proof.
  induction 1 as [|x l Hx _ IH]; [done|]. by rewrite filter_cons_True, IH.
Qed.

Lemma filter_none {A} (P : A -> Prop) `{!forall x, Decision (P x)} (l : list A) :
  Forall (fun x => ~ P x) l -> filter P l = [].
Proof. induction 1; [done|]. by rewrite filter_cons_False. Qed.

Lemma filter_drop {A} (P : A -> Prop) `{!forall x, Decision (P x)} n (l : list A) :
  Forall (fun x => ~ P x) (take n l) -> Forall P (drop n l) -> filter P l = drop n l.
Proof.
  intros H1 H2. rewrite <- (take_drop n l) at 1. by rewrite filter_app, filter_none, filter_all.
Qed.

Lemma slice_seg {A} (l : list A) a b :
  (a <= b <= length l)%nat -> slice l a b = Some (seg a b l).
Proof. apply slice_total. Qed.

Lemma seg_app_full {A} (l k : list A) n : n = length l -> seg 0 n (l ++ k) = l.
Proof. intros ->. unfold seg. by rewrite drop_0, Nat.sub_0_r, take_app_length. Qed.

(** [splice a b x l] replaces the elements of [l] at [a <= i < b] by [x]. *)
Definition splice {A} (a b : nat) (x l : list A) : list A := take a l ++ x ++ drop b l.

Lemma splice_app {A} a b (x y c k : list A) :
  (a <= b)%nat -> length x = (Nat.min b (length c) - a)%nat ->
  length y = (Nat.min (b - length c) (length k) - (a - length c))%nat ->
  splice a b x c ++ splice (a - length c) (b - length c) y k = splice a b (x ++ y) (c ++ k).
Proof.
  intros Hab Hx Hy. unfold splice. rewrite take_app, drop_app.
  destruct (decide (b <= length c)%nat).
  - replace (a - length c)%nat with 0%nat in * by lia.
    replace (b - length c)%nat with 0%nat in * by lia.
    destruct y; [|simpl in Hy; lia]. rewrite drop_0. simpl. by rewrite !app_nil_r, <- !app_assoc.
  - rewrite (drop_ge c) by lia. destruct (decide (a <= length c)%nat).
    + replace (a - length c)%nat with 0%nat in * by lia. simpl.
      by rewrite !app_nil_r, <- !app_assoc.
    + destruct x; [|simpl in Hx; lia]. simpl. by rewrite app_nil_r, <- !app_assoc.
Qed.

Lemma splice_none {A} a b (l : list A) :
  (a <= b)%nat -> (length l <= a)%nat \/ b = 0%nat -> splice a b [] l = l.
Proof.
  unfold splice. intros ? [?| ->]; simpl.
  - by rewrite take_ge, drop_ge, app_nil_r by lia.
  - by replace a with 0%nat by lia.
Qed.

Lemma length_splice {A} a b (x l : list A) :
  (a <= b)%nat -> length x = (Nat.min b (length l) - a)%nat ->
  length (splice a b x l) = length l.
Proof. intros. unfold splice. rewrite !length_app, length_take, length_drop. lia. Qed.

Lemma seg_splice_same {A} a b (x l : list A) :
  (a <= b <= length l)%nat -> length x = (b - a)%nat -> seg a b (splice a b x l) = x.
Proof.
  intros. unfold seg, splice. rewrite drop_app_length' by (rewrite length_take; lia).
  by rewrite take_app_length'.
Qed.

Lemma seg_splice_disjoint {A} a b c d (x l : list A) :
  (a <= b <= length l)%nat -> length x = (b - a)%nat -> (b <= c \/ d <= a)%nat ->
  seg c d (splice a b x l) = seg c d l.
Proof.
  intros Hab Hx H. apply list_eq. intros k. unfold seg, splice.
  destruct (decide (k < d - c)%nat);
    [|by rewrite !lookup_ge_None_2 by (rewrite length_take; lia)].
  rewrite !lookup_take_lt, !lookup_drop by done. destruct H.
  - rewrite lookup_app_r, lookup_app_r, lookup_drop by (rewrite length_take; lia).
    f_equal. rewrite length_take. lia.
  - by rewrite lookup_app_l, lookup_take_lt by (rewrite ?length_take; lia).
Qed.

Lemma insert_middle {A} (l k : list A) n x y :
  n = length l -> <[n := y]> (l ++ x :: k) = l ++ y :: k.
Proof. intros ->. by rewrite insert_app_r_alt, Nat.sub_diag by lia. Qed.

(** Reduce an option bind whose first half is known, and nothing else. *)
Ltac red_bind := cbn [mbind option_bind].

(** [iter().position(p)]. *)
Fixpoint position {A} (p : A -> bool) (l : list A) : option nat :=
  match l with
  | [] => None
  | x :: l' => if p x then Some 0%nat else S <$> position p l'
  end.

Lemma position_Some {A} (p : A -> bool) l n :
  position p l = Some n <->
  (exists b, l !! n = Some b /\ p b = true) /\
  (forall q b, (q < n)%nat -> l !! q = Some b -> p b = false).
Proof.
  revert n. induction l as [|b l IH]; intros n; cbn [position].
  { split; [done|]. intros [(? & ? & _) _]. by rewrite lookup_nil in *. }
  destruct (p b) eqn:Ep.
  - split.
    + intros [= <-]. split; [by exists b|]. intros; lia.
    + intros [_ H]. destruct n as [|n]; [done|]. rewrite (H O b) in Ep; [done|lia|done].
  - destruct n as [|n].
    + split; [by destruct (position p l)|]. intros [(? & [= ->] & ?) _]. congruence.
    + transitivity (position p l = Some n).
      { destruct (position p l); simpl; split; congruence. }
      rewrite IH. simpl. split; intros [H1 H2]; (split; [done|]); intros q c Hq Hc.
      * destruct q; [simpl in Hc; congruence|]. eapply (H2 q); [lia|done].
      * eapply (H2 (S q)); [lia|done].
Qed.

Lemma position_split {A} (p : A -> bool) l i :
  position p l = Some i ->
  exists l1 x l2, l = l1 ++ x :: l2 /\ length l1 = i /\ p x = true /\ Forall (fun y => p y = false) l1.
Proof.
  revert i. induction l as [|y l IH]; intros i; cbn; [done|]. destruct (p y) eqn:E.
  - intros [= <-]. by exists [], y, l.
  - destruct (position p l) as [j|]; cbn; [|done]. intros [= <-].
    destruct (IH j eq_refl) as (l1 & x & l2 & -> & <- & ? & ?).
    exists (y :: l1), x, l2. auto.
Qed.

Lemma position_None {A} (p : A -> bool) l : position p l = None -> Forall (fun y => p y = false) l.
Proof.
  induction l as [|y l IH]; cbn; [done|]. destruct (p y) eqn:E; [done|].
  destruct (position p l); [done|]. auto.
Qed.

(** ** Sorted lists *)

Lemma StronglySorted_app_inv {A} (R : A -> A -> Prop) l k :
  StronglySorted R (l ++ k) ->
  StronglySorted R l /\ forall x y, x ∈ l -> y ∈ k -> R x y.
Proof.
  induction l as [|z l IH]; cbn; intros Hs; [split; [constructor|by intros x y ?%not_elem_of_nil]|].
  inversion_clear Hs as [|? ? Hs' Hall]. destruct (IH Hs') as [Hl Hx].
  apply Forall_app in Hall as [H1 H2]. split; [by constructor|].
  intros x y [->|Hin]%elem_of_cons Hy; [|by apply Hx]. rewrite Forall_forall in H2. auto.
Qed.

(** ** Network addresses

    [SocketAddr] with the ordering Rust derives: IPv4 before IPv6, then the
    fields in order. *)

Inductive IpAddr :=
| IpV4 (ip : u32)
| IpV6 (ip : u128).

Inductive SocketAddr :=
| V4 (ip : u32) (port : u16)
| V6 (ip : u128) (port : u16) (flowinfo scope_id : u32).

#[export] Instance IpAddr_eq_dec : EqDecision IpAddr.
Proof. solve_decision. Defined.
#[export] Instance SocketAddr_eq_dec : EqDecision SocketAddr.
Proof. solve_decision. Defined.

#[export] Program Instance SocketAddr_countable : Countable SocketAddr :=
  inj_countable'
    (fun a => match a with
              | V4 ip port => inl (ip, port)
              | V6 ip port f s => inr (ip, port, f, s) end)
    (fun s => match s with
              | inl (ip, port) => V4 ip port
              | inr (ip, port, f, s) => V6 ip port f s end) _.
Next Obligation. by intros []. Qed.

Definition addr_ip (a : SocketAddr) : IpAddr :=
  match a with V4 ip _ => IpV4 ip | V6 ip _ _ _ => IpV6 ip end.
Definition addr_port (a : SocketAddr) : u16 :=
  match a with V4 _ p => p | V6 _ p _ _ => p end.

(** Lexicographic comparison of integer lists, the order Rust gives to arrays,
    slices and derived records. *)
Fixpoint cmp_list (a b : list Z) : comparison :=
  match a, b with
  | [], [] => Eq
  | [], _ => Lt
  | _, [] => Gt
  | x :: a', y :: b' => match x ?= y with Eq => cmp_list a' b' | c => c end
  end.

Definition addr_key (a : SocketAddr) : list Z :=
  match a with
  | V4 ip port => [0; ip; port]
  | V6 ip port f s => [1; ip; port; f; s]
  end.

Definition addr_cmp (a b : SocketAddr) : comparison := cmp_list (addr_key a) (addr_key b).
Definition addr_leb (a b : SocketAddr) : bool :=
  match addr_cmp a b with Gt => false | _ => true end.

Lemma cmp_list_Eq a b : cmp_list a b = Eq -> a = b.
Proof.
  revert b. induction a as [|x a IH]; intros [|y b]; cbn; try done.
  destruct (Z.compare_spec x y) as [->| |]; [|done|done]. by intros ->%IH.
Qed.

Lemma cmp_list_antisym a b : cmp_list b a = CompOpp (cmp_list a b).
Proof.
  revert b. induction a as [|x a IH]; intros [|y b]; cbn; try done.
  rewrite (Z.compare_antisym x y). destruct (x ?= y); cbn; auto.
Qed.

Lemma cmp_list_le_trans a b c : cmp_list a b <> Gt -> cmp_list b c <> Gt -> cmp_list a c <> Gt.
Proof.
  revert b c. induction a as [|x a IH]; intros [|y b] [|z c]; cbn; try done.
  destruct (Z.compare_spec x y), (Z.compare_spec y z), (Z.compare_spec x z);
    subst; try done; try lia. apply IH.
Qed.

(** On byte strings of one length the order is that of the big-endian integers. *)
Lemma of_be_cons x bs : of_be (x :: bs) = x * 256 ^ Z.of_nat (length bs) + of_be bs.
Proof.
  induction bs as [|b bs IH] using rev_ind; [unfold of_be; cbn; lia|].
  rewrite app_comm_cons, !of_be_snoc, IH, length_app. cbn [length].
  rewrite Nat2Z.inj_add, Z.pow_add_r by lia. change (256 ^ Z.of_nat 1) with 256. lia.
Qed.

Lemma cmp_list_of_be a b :
  length a = length b -> wf_bytes a -> wf_bytes b -> cmp_list a b = (of_be a ?= of_be b).
Proof.
  revert b. induction a as [|x a IH]; intros [|y b] Hl Ha Hb; try done.
  injection Hl as Hl. inversion_clear Ha as [|? ? Hx Ha']. inversion_clear Hb as [|? ? Hy Hb'].
  cbn [cmp_list]. rewrite !of_be_cons, Hl, IH by done.
  pose proof (of_be_range a Ha') as Ra. pose proof (of_be_range b Hb') as Rb. rewrite Hl in Ra.
  set (P := 256 ^ Z.of_nat (length b)) in *. set (A := of_be a) in *. set (B := of_be b) in *.
  symmetry. destruct (Z.compare_spec x y) as [->|Hlt|Hgt].
  - destruct (Z.compare_spec A B); [apply Z.compare_eq_iff|apply Z.compare_lt_iff|
      apply Z.compare_gt_iff]; lia.
  - apply Z.compare_lt_iff. nia.
  - apply Z.compare_gt_iff. nia.
Qed.

(** The bits of an integer in two parts. *)
Lemma testbit_two_parts x a m k :
  0 <= a < 2 ^ m -> 0 <= m -> 0 <= k ->
  Z.testbit (x * 2 ^ m + a) k = if k <? m then Z.testbit a k else Z.testbit x (k - m).
Proof.
  intros Ha Hm Hk. case_cmp.
  - rewrite <- (Z.mod_pow2_bits_low (x * 2 ^ m + a) m k) by lia.
    by rewrite Z.add_comm, Z.mod_add, Z.mod_small by lia.
  - replace k with ((k - m) + m) at 1 by lia. rewrite <- Z.div_pow2_bits by lia.
    by rewrite Z.div_add_l, Z.div_small, Z.add_0_r by lia.
Qed.

Lemma zip_lxor_wf a b : wf_bytes a -> wf_bytes b -> wf_bytes (zip_with Z.lxor a b).
Proof.
  intros Ha. revert b. induction Ha as [|x a Hx _ IH]; intros [|y b] Hb; cbn; try by constructor.
  inversion_clear Hb. constructor; [by apply is_u8_lxor|by apply IH].
Qed.

Lemma of_be_xor a b :
  length a = length b -> wf_bytes a -> wf_bytes b ->
  of_be (zip_with Z.lxor a b) = Z.lxor (of_be a) (of_be b).
Proof.
  revert b. induction a as [|x a IH]; intros [|y b] Hl Ha Hb; try done.
  injection Hl as Hl. inversion_clear Ha as [|? ? Hx Ha']. inversion_clear Hb as [|? ? Hy Hb'].
  cbn [zip_with]. rewrite !of_be_cons, length_zip_with, Hl, Nat.min_id.
  pose proof (zip_lxor_wf a b Ha' Hb') as Hz.
  pose proof (of_be_range a Ha') as Ra. pose proof (of_be_range b Hb') as Rb.
  pose proof (of_be_range _ Hz) as Rz. rewrite length_zip_with, Hl, Nat.min_id in Rz.
  rewrite Hl in Ra. rewrite IH in * by done. revert Ra Rb Rz.
  replace (256 ^ Z.of_nat (length b)) with (2 ^ (8 * Z.of_nat (length b)))
    by (rewrite Z.pow_mul_r by lia; done).
  intros Ra Rb Rz. apply Z.bits_inj'. intros k Hk.
  rewrite Z.lxor_spec, !testbit_two_parts by (done || lia). by case_cmp; rewrite Z.lxor_spec.
Qed.

(** The order Rust gives to socket addresses. *)
Definition addr_le (a b : SocketAddr) : Prop := addr_leb a b = true.

#[export] Instance addr_le_dec a b : Decision (addr_le a b).
Proof. unfold addr_le. apply _. Defined.

Lemma addr_key_inj a b : addr_key a = addr_key b -> a = b.
Proof. destruct a, b; cbn; intros; congruence. Qed.

#[export] Instance addr_le_trans : Transitive addr_le.
Proof.
  intros a b c. unfold addr_le, addr_leb, addr_cmp. intros H1 H2.
  pose proof (cmp_list_le_trans (addr_key a) (addr_key b) (addr_key c)) as H.
  destruct (cmp_list (addr_key a) (addr_key b)), (cmp_list (addr_key b) (addr_key c)),
    (cmp_list (addr_key a) (addr_key c)); try done; exfalso; by apply H.
Qed.

#[export] Instance addr_le_total : Total addr_le.
Proof.
  intros a b. unfold addr_le, addr_leb, addr_cmp. rewrite (cmp_list_antisym (addr_key a)).
  destruct (cmp_list _ _); cbn; auto.
Qed.

(** ** Hash maps

    The traversal of a [HashMap] visits every entry once, in an order that is not
    specified: definitions that traverse one take the traversal as an argument. *)
Class HashOrder {A V : Type} `{Countable A} (iter : gmap A V -> list (A * V)) : Prop :=
  iter_perm m : iter m ≡ₚ map_to_list m.

#[export] Instance map_to_list_order {A V : Type} `{Countable A} :
  HashOrder (map_to_list (K := A) (A := V) (M := gmap A V)).
Proof. intros m. reflexivity. Qed.

(** [iter().min_by_key(key)]: the first of the least. *)
Definition min_by_key {A} (key : A -> Z) (l : list A) : option A :=
  match l with
  | [] => None
  | x :: l => Some (fold_left (fun best y => if key y <? key best then y else best) l x)
  end.

Lemma min_by_key_in {A} (key : A -> Z) l x : min_by_key key l = Some x -> x ∈ l.
Proof.
  destruct l as [|y l]; [done|]. cbn. intros [= <-]. revert y.
  induction l as [|z l IH]; intros y; cbn; [left|].
  destruct (key z <? key y); [right; apply IH|].
  specialize (IH y). apply elem_of_cons in IH as [->|IH]; [left|right; by right].
Qed.
