(* ===== verification/Utf8.v ===== *)
(** * Lossy UTF-8 decoding (Rust's [String::from_utf8_lossy])

    Strings are their UTF-8 bytes.  [utf8_lossy] replaces every maximal invalid
    prefix of a sequence by U+FFFD, as [core::str::Utf8Chunks] does. *)

From S2P Require Import Prelude.

Definition within (lo hi b : u8) : bool := (lo <=? b) && (b <=? hi).
Definition utf8_cont (b : u8) : bool := within 128 191 b.

(** First byte of a two-byte sequence. *)
Definition utf8_lead2 (b : u8) : bool := within 194 223 b.

(** First two bytes of a three-byte sequence. *)
Definition utf8_lead3 (b0 b1 : u8) : bool :=
  ((b0 =? 224) && within 160 191 b1) || (within 225 236 b0 && utf8_cont b1) ||
  ((b0 =? 237) && within 128 159 b1) || (within 238 239 b0 && utf8_cont b1).

(** First two bytes of a four-byte sequence. *)
Definition utf8_lead4 (b0 b1 : u8) : bool :=
  ((b0 =? 240) && within 144 191 b1) || (within 241 243 b0 && utf8_cont b1) ||
  ((b0 =? 244) && within 128 143 b1).

Definition REPLACEMENT : bytes := [239; 191; 189].

Fixpoint utf8_lossy (l : bytes) : bytes :=
  match l with
  | [] => []
  | b0 :: l1 =>
      if b0 <? 128 then b0 :: utf8_lossy l1
      else match l1 with
      | [] => REPLACEMENT
      | b1 :: l2 =>
          if utf8_lead2 b0 && utf8_cont b1 then b0 :: b1 :: utf8_lossy l2
          else if utf8_lead3 b0 b1 then
            match l2 with
            | b2 :: l3 =>
                if utf8_cont b2 then b0 :: b1 :: b2 :: utf8_lossy l3
                else REPLACEMENT ++ utf8_lossy l2
            | [] => REPLACEMENT
            end
          else if utf8_lead4 b0 b1 then
            match l2 with
            | b2 :: l3 =>
                if utf8_cont b2 then
                  match l3 with
                  | b3 :: l4 =>
                      if utf8_cont b3 then b0 :: b1 :: b2 :: b3 :: utf8_lossy l4
                      else REPLACEMENT ++ utf8_lossy l3
                  | [] => REPLACEMENT
                  end
                else REPLACEMENT ++ utf8_lossy l2
            | [] => REPLACEMENT
            end
          else REPLACEMENT ++ utf8_lossy l1
      end
  end.

Definition is_ascii (b : u8) : Prop := 0 <= b < 128.

Lemma utf8_lossy_ascii l : Forall is_ascii l -> utf8_lossy l = l.
Proof.
  induction 1 as [|b l Hb _ IH]; [done|]. simpl.
  rewrite (proj2 (Z.ltb_lt b 128)) by (unfold is_ascii in Hb; lia). by rewrite IH.
Qed.
