(* ===== verification/Bitfield.v ===== *)
(** * Piece bitfields (crates/bit_rev/src/bitfield.rs)

    The bytes of a bitfield, the operations of [Bitfield], and the laws that
    make it a set of piece indices: bit [i] of the wire format is bit
    [7 - i mod 8] of byte [i / 8]. *)

From S2P Require Import Prelude.

Record Bitfield := mkBitfield { bf_bytes : bytes }.

#[export] Instance Bitfield_eq_dec : EqDecision Bitfield.
Proof. solve_decision. Defined.

Definition bf_new (bs : bytes) : Bitfield := mkBitfield bs.

Definition with_piece_count (count : nat) : Bitfield :=
  mkBitfield (replicate ((count + 7) / 8)%nat 0).

Definition has_piece (bf : Bitfield) (index : nat) : bool :=
  let byte_index := (index / 8)%nat in
  let offset := Z.of_nat (index mod 8) in
  match bf_bytes bf !! byte_index with
  | None => false
  | Some b => negb (Z.land (Z.shiftr b (7 - offset)) 1 =? 0)
  end.

Definition set_piece (bf : Bitfield) (index : nat) : Bitfield :=
  let byte_index := (index / 8)%nat in
  let offset := Z.of_nat (index mod 8) in
  match bf_bytes bf !! byte_index with
  | None => bf
  | Some b =>
      let new_char := Z.lor b (wrap8 (Z.shiftl 1 (7 - offset))) in
      mkBitfield (<[byte_index := new_char]> (bf_bytes bf))
  end.

Definition filled (piece_count : nat) : Bitfield :=
  fold_left set_piece (seq 0 piece_count) (with_piece_count piece_count).

Definition bf_is_empty (bf : Bitfield) : bool := forallb (fun x => x =? 0) (bf_bytes bf).

(** ** Laws *)

Definition wf_bitfield (bf : Bitfield) : Prop := wf_bytes (bf_bytes bf).

(** The capacity of a bitfield in bits. *)
Definition capacity (bf : Bitfield) : nat := 8 * length (bf_bytes bf).

Lemma land_shiftr_1 x k :
  0 <= k -> negb (Z.land (Z.shiftr x k) 1 =? 0) = Z.testbit x k.
Proof.
  intros Hk. change 1 with (Z.ones 1). rewrite Z.land_ones by lia.
  rewrite Z.shiftr_div_pow2 by lia. change (2 ^ 1) with 2.
  rewrite <- Z.testbit_spec' by lia. by destruct (Z.testbit x k).
Qed.

Lemma index_offset (index : nat) : 0 <= 7 - Z.of_nat (index mod 8) < 8.
Proof. pose proof (Nat.mod_upper_bound index 8). lia. Qed.

Lemma has_piece_testbit bf index :
  has_piece bf index =
  match bf_bytes bf !! (index / 8)%nat with
  | None => false
  | Some b => Z.testbit b (7 - Z.of_nat (index mod 8))
  end.
Proof.
  unfold has_piece. destruct (_ !! _); [|done].
  apply land_shiftr_1, index_offset.
Qed.

Lemma wrap8_shiftl_1 k : 0 <= k < 8 -> wrap8 (Z.shiftl 1 k) = 2 ^ k.
Proof.
  intros. rewrite Z.shiftl_1_l. apply wrap8_small. unfold is_u8, U8_MAX.
  assert (2 ^ k <= 2 ^ 7) by (apply Z.pow_le_mono_r; lia). lia.
Qed.

Lemma has_piece_range bf index : has_piece bf index = true -> (index < capacity bf)%nat.
Proof.
  unfold has_piece, capacity. destruct (_ !! _) eqn:E; [|done]. intros _.
  apply lookup_lt_Some in E. pose proof (Nat.div_mod_eq index 8).
  pose proof (Nat.mod_upper_bound index 8). lia.
Qed.

Lemma lookup_byte_in_range (bs : bytes) index :
  (index < 8 * length bs)%nat <-> is_Some (bs !! (index / 8)%nat).
Proof.
  rewrite lookup_lt_is_Some. split; intros.
  - apply Nat.Div0.div_lt_upper_bound; lia.
  - pose proof (Nat.div_mod_eq index 8). pose proof (Nat.mod_upper_bound index 8). lia.
Qed.

Lemma has_set_piece bf i j :
  has_piece (set_piece bf i) j =
  (bool_decide (i = j /\ (i < capacity bf)%nat) || has_piece bf j)%bool.
Proof.
  unfold set_piece. destruct (bf_bytes bf !! (i / 8)%nat) as [b|] eqn:Eb; last first.
  { rewrite bool_decide_false; [done|]. intros [_ Hi].
    apply lookup_byte_in_range in Hi as [? Hi]. congruence. }
  assert (Hi : (i < capacity bf)%nat).
  { apply lookup_byte_in_range. rewrite Eb. by eexists. }
  rewrite !has_piece_testbit. cbn [bf_bytes]. rewrite list_lookup_insert.
  pose proof (index_offset i) as Hoi. pose proof (index_offset j) as Hoj.
  rewrite wrap8_shiftl_1 by done.
  destruct (decide (i / 8 = j / 8)%nat) as [Hdiv|Hdiv].
  - rewrite decide_True by (split; [done|]; by eapply lookup_lt_Some).
    rewrite <- Hdiv, Eb, Z.lor_spec, Z.pow2_bits_eqb by lia.
    pose proof (Nat.div_mod_eq i 8). pose proof (Nat.div_mod_eq j 8).
    case_bool_decide as Hij.
    + destruct Hij as [-> _]. rewrite Z.eqb_refl. by rewrite orb_true_r.
    + rewrite (proj2 (Z.eqb_neq _ _)), orb_false_r; [done|].
      intros E. apply Hij. split; [|done]. lia.
  - rewrite decide_False by (by intros [? _]).
    rewrite bool_decide_false by (intros [-> _]; by apply Hdiv). done.
Qed.

Lemma set_piece_capacity bf i : capacity (set_piece bf i) = capacity bf.
Proof.
  unfold set_piece, capacity. destruct (_ !! _); [|done]. simpl.
  by rewrite length_insert.
Qed.

Lemma set_piece_wf bf i : wf_bitfield bf -> wf_bitfield (set_piece bf i).
Proof.
  unfold wf_bitfield, wf_bytes, set_piece. intros Hwf.
  destruct (_ !! _) as [b|] eqn:E; [|done]. simpl.
  apply Forall_insert; [done|].
  apply is_u8_lor; [by eapply Forall_lookup_1|apply wrap8_range].
Qed.

Lemma has_with_piece_count n i : has_piece (with_piece_count n) i = false.
Proof.
  rewrite has_piece_testbit. simpl.
  destruct (_ !! _) as [b|] eqn:E; [|done].
  apply lookup_replicate in E as [-> _]. apply Z.testbit_0_l.
Qed.

Lemma fold_set_piece l bf j :
  has_piece (fold_left set_piece l bf) j =
  (bool_decide (j ∈ l /\ (j < capacity bf)%nat) || has_piece bf j)%bool.
Proof.
  revert bf; induction l as [|i l IH]; intros bf; cbn [fold_left].
  - by rewrite bool_decide_false by set_solver.
  - rewrite IH, set_piece_capacity, has_set_piece, orb_assoc. f_equal.
    repeat case_bool_decide; set_solver.
Qed.

Lemma capacity_with_piece_count n : (n <= capacity (with_piece_count n))%nat.
Proof.
  unfold capacity, with_piece_count. cbn [bf_bytes]. rewrite length_replicate.
  pose proof (Nat.div_mod_eq (n + 7) 8). pose proof (Nat.mod_upper_bound (n + 7) 8). lia.
Qed.

Lemma has_filled n i : has_piece (filled n) i = (i <? n)%nat.
Proof.
  unfold filled. rewrite fold_set_piece, has_with_piece_count, orb_false_r.
  pose proof (capacity_with_piece_count n).
  destruct (Nat.ltb_spec i n); [apply bool_decide_true|apply bool_decide_false];
    rewrite elem_of_seq; lia.
Qed.

Lemma byte_zero_bits b : is_u8 b -> (forall k, 0 <= k < 8 -> Z.testbit b k = false) -> b = 0.
Proof.
  unfold is_u8, U8_MAX. intros Hb H. apply Z.bits_inj_0. intros k.
  destruct (Z.neg_nonneg_cases k); [by apply Z.testbit_neg_r|].
  destruct (decide (k < 8)); [apply H; lia|].
  destruct (Z.eq_dec b 0) as [->|]; [apply Z.testbit_0_l|].
  apply Z.bits_above_log2; [lia|].
  apply Z.lt_le_trans with 8; [apply Z.log2_lt_pow2|]; lia.
Qed.

(** [is_empty] holds iff no piece is present. *)
Lemma bf_is_empty_spec bf :
  wf_bitfield bf -> bf_is_empty bf = true <-> forall i, has_piece bf i = false.
Proof.
  intros Hwf. unfold bf_is_empty. rewrite forallb_forall. split.
  - intros H i. rewrite has_piece_testbit. destruct (_ !! _) as [b|] eqn:E; [|done].
    apply list_elem_of_lookup_2, list_elem_of_In, H in E.
    apply Z.eqb_eq in E as ->. apply Z.testbit_0_l.
  - intros H x Hx. apply Z.eqb_eq.
    apply list_elem_of_In, list_elem_of_lookup in Hx as [n Hn].
    apply byte_zero_bits; [by eapply Forall_lookup_1|]. intros k Hk.
    specialize (H (8 * n + Z.to_nat (7 - k))%nat).
    rewrite has_piece_testbit in H.
    rewrite Nat.mul_comm, Nat.div_add_l, Nat.div_small, Nat.add_0_r, Hn in H by lia.
    rewrite Nat.add_comm, Nat.Div0.mod_add, Nat.mod_small in H by lia.
    by replace (7 - Z.of_nat (Z.to_nat (7 - k))) with k in H by lia.
Qed.

(** ** Refinement to finite sets of piece indices *)

Definition pieces (bf : Bitfield) : gset nat :=
  list_to_set (filter (fun i => has_piece bf i = true) (seq 0 (capacity bf))).

Lemma elem_of_pieces bf i : i ∈ pieces bf <-> has_piece bf i = true.
Proof.
  unfold pieces. rewrite elem_of_list_to_set, list_elem_of_filter, elem_of_seq.
  split; [by intros [? _]|]. intros H. split; [done|].
  apply has_piece_range in H. lia.
Qed.

(** [set_piece] adds exactly its index to the set of pieces the bitfield
    stands for, and an index beyond the allocated bytes changes nothing. *)
Theorem pieces_set_piece bf i :
  pieces (set_piece bf i) =
  if (i <? capacity bf)%nat then {[i]} ∪ pieces bf else pieces bf.
Proof.
  apply set_eq. intros j.
  rewrite elem_of_pieces, has_set_piece, orb_true_iff, bool_decide_eq_true.
  destruct (Nat.ltb_spec i (capacity bf)).
  - rewrite elem_of_union, elem_of_singleton, elem_of_pieces. naive_solver.
  - rewrite elem_of_pieces. split; [|by right]. intros [[_ ?]|?]; [lia|done].
Qed.

(** [filled n] stands for exactly the pieces below [n]; the spare bits of
    the last byte stay clear. *)
Lemma pieces_filled n : pieces (filled n) = set_seq 0 n.
Proof.
  apply set_eq. intros i. rewrite elem_of_pieces, has_filled, elem_of_set_seq.
  rewrite Nat.ltb_lt. lia.
Qed.
