(* ===== verification/Message.v ===== *)
(** * Peer wire messages (crates/bit_rev/src/message.rs)

    The message types, their encoding [serialize] and decoding [read], the
    block requests with their validation, and the request-storm counters.
    Every slice and index of the source that could panic is a [slice] or a
    lookup that yields [None]; [read_never_panics] shows that none does. *)

From S2P Require Import Prelude.

(** ** Data *)

Inductive MessageId :=
| MsgChoke | MsgUnchoke | MsgInterested | MsgNotInterested | MsgHave | MsgBitfield
| MsgRequest | MsgPiece | MsgCancel | MsgPort | MsgSuggestPiece | MsgHaveAll
| MsgHaveNone | MsgRejectRequest | MsgAllowedFast | MsgExtended | MsgHashRequest
| MsgHashes | MsgHashReject.

#[export] Instance MessageId_eq_dec : EqDecision MessageId.
Proof. solve_decision. Defined.

(** The discriminants ([id as u8]). *)
Definition id_code (id : MessageId) : u8 :=
  match id with
  | MsgChoke => 0 | MsgUnchoke => 1 | MsgInterested => 2 | MsgNotInterested => 3
  | MsgHave => 4 | MsgBitfield => 5 | MsgRequest => 6 | MsgPiece => 7 | MsgCancel => 8
  | MsgPort => 9 | MsgSuggestPiece => 13 | MsgHaveAll => 14 | MsgHaveNone => 15
  | MsgRejectRequest => 16 | MsgAllowedFast => 17 | MsgExtended => 20
  | MsgHashRequest => 21 | MsgHashes => 22 | MsgHashReject => 23
  end.

Record PieceChunk := mkPieceChunk {
  pc_index : u32; pc_start : u32; pc_length : u32; pc_data : bytes }.

#[export] Instance PieceChunk_eq_dec : EqDecision PieceChunk.
Proof. solve_decision. Defined.

Inductive Message :=
| Choke
| Unchoke
| Interested
| NotInterested
| Have (index : u32)
| MBitfield (payload : bytes)
| Request (payload : bytes)
| Piece (chunk : PieceChunk)
| Cancel (payload : bytes)
| Port (port : u16)
| SuggestPiece (index : u32)
| HaveAll
| HaveNone
| RejectRequest (index begin length : u32)
| AllowedFast (index : u32)
| Extended (ext_id : u8) (payload : bytes)
| HashRequest
| Hashes (payload : bytes)
| HashReject
| KeepAlive.

#[export] Instance Message_eq_dec : EqDecision Message.
Proof. solve_decision. Defined.

Record MessageInner := mkMessageInner { mi_id : MessageId; mi_payload : bytes }.

Inductive DecodeError :=
| Truncated
| UnknownId (id : u8)
| InvalidLengthPrefix.

(** ** Block requests *)

Record BlockRequest := mkBlockRequest { br_index : u32; br_begin : u32; br_length : u32 }.

#[export] Instance BlockRequest_eq_dec : EqDecision BlockRequest.
Proof. solve_decision. Defined.
#[export] Program Instance BlockRequest_countable : Countable BlockRequest :=
  inj_countable' (fun r => (br_index r, br_begin r, br_length r))
    (fun '(i, b, l) => mkBlockRequest i b l) _.
Next Obligation. by intros []. Qed.

Definition br_from_payload (payload : bytes) : option BlockRequest :=
  if (length payload <? 12)%nat then None
  else
    i ← slice payload 0 4;
    b ← slice payload 4 8;
    l ← slice payload 8 12;
    Some (mkBlockRequest (of_be i) (of_be b) (of_be l)).

Definition br_to_payload (r : BlockRequest) : bytes :=
  be_bytes 4 (br_index r) ++ be_bytes 4 (br_begin r) ++ be_bytes 4 (br_length r).

Inductive RequestError := MissingPiece | InvalidLength | OutOfBounds.

Definition MAX_INCOMING_REQUEST_LENGTH : u32 := 128 * 1024.

(** [u32::checked_add]. *)
Definition checked_add_u32 (a b : u32) : option u32 :=
  if a + b <=? U32_MAX then Some (a + b) else None.

Definition validate_request (req : BlockRequest) (piece_length : u32) (have_piece : bool)
  : result unit RequestError :=
  if negb have_piece then Err MissingPiece
  else if (br_length req =? 0) || (MAX_INCOMING_REQUEST_LENGTH <? br_length req)
  then Err InvalidLength
  else match checked_add_u32 (br_begin req) (br_length req) with
       | Some e => if e <=? piece_length then Ok () else Err OutOfBounds
       | None => Err OutOfBounds
       end.

Definition format_request (index start length : u32) : Message :=
  Request (br_to_payload (mkBlockRequest index start length)).
Definition format_cancel (index start length : u32) : Message :=
  Cancel (br_to_payload (mkBlockRequest index start length)).
Definition format_piece (index begin : u32) (data : bytes) : Message :=
  Piece (mkPieceChunk index begin (wrap32 (Z.of_nat (length data))) data).
Definition format_have (index : u32) : Message := Have index.
Definition format_reject_request (index begin length : u32) : Message :=
  RejectRequest index begin length.
Definition format_extended (ext_id : u8) (payload : bytes) : Message :=
  Extended ext_id payload.

Definition is_fast_extension (m : Message) : bool :=
  match m with
  | SuggestPiece _ | HaveAll | HaveNone | RejectRequest _ _ _ | AllowedFast _ => true
  | _ => false
  end.

Definition is_extended (m : Message) : bool :=
  match m with Extended _ _ => true | _ => false end.

(** ** Request storms *)

Definition MAX_UPLOAD_QUEUE : nat := 8.
Definition MAX_CHOKED_REQUESTS : u32 := 8.
Definition MAX_QUEUE_OVERFLOWS : u32 := 3.

Inductive RequestStormError := StormChoked | StormQueue.

Record RequestStorm := mkRequestStorm { choked_requests : u32; queue_overflows : u32 }.

Definition storm_default : RequestStorm := mkRequestStorm 0 0.

Definition on_choked_request (s : RequestStorm) : RequestStorm * result unit RequestStormError :=
  let c := sat_add U32_MAX (choked_requests s) 1 in
  (mkRequestStorm c (queue_overflows s),
   if MAX_CHOKED_REQUESTS <? c then Err StormChoked else Ok ()).

Definition on_queue_overflow (s : RequestStorm) : RequestStorm * result unit RequestStormError :=
  let c := sat_add U32_MAX (queue_overflows s) 1 in
  (mkRequestStorm (choked_requests s) c,
   if MAX_QUEUE_OVERFLOWS <? c then Err StormQueue else Ok ()).

Definition reset_choked (s : RequestStorm) : RequestStorm :=
  mkRequestStorm 0 (queue_overflows s).

(** ** Encoding *)

(** The id and payload of a message; [None] for the keep-alive, which has
    neither. *)
Definition encode_parts (m : Message) : option (MessageId * bytes) :=
  match m with
  | Choke => Some (MsgChoke, [])
  | Unchoke => Some (MsgUnchoke, [])
  | Interested => Some (MsgInterested, [])
  | NotInterested => Some (MsgNotInterested, [])
  | Have index => Some (MsgHave, be_bytes 4 index)
  | MBitfield payload => Some (MsgBitfield, payload)
  | Request payload => Some (MsgRequest, payload)
  | Piece p =>
      Some (MsgPiece, be_bytes 4 (pc_index p) ++ be_bytes 4 (pc_start p) ++ pc_data p)
  | Cancel payload => Some (MsgCancel, payload)
  | Port port => Some (MsgPort, be_bytes 2 port)
  | SuggestPiece index => Some (MsgSuggestPiece, be_bytes 4 index)
  | HaveAll => Some (MsgHaveAll, [])
  | HaveNone => Some (MsgHaveNone, [])
  | RejectRequest i b l => Some (MsgRejectRequest, br_to_payload (mkBlockRequest i b l))
  | AllowedFast index => Some (MsgAllowedFast, be_bytes 4 index)
  | Extended ext_id payload => Some (MsgExtended, ext_id :: payload)
  | HashRequest => Some (MsgHashRequest, [])
  | Hashes payload => Some (MsgHashes, payload)
  | HashReject => Some (MsgHashReject, [])
  | KeepAlive => None
  end.

Definition serialize (msg : option Message) : bytes :=
  match msg with
  | None => []
  | Some m =>
      match encode_parts m with
      | None => [0; 0; 0; 0]
      | Some (id, payload) =>
          let len := wrap32 (Z.of_nat (length payload + 1)) in
          be_bytes 4 len ++ [id_code id] ++ payload
      end
  end.

(** ** Decoding *)

(** [From<MessageInner> for Message]; [None] is a panic. *)
Definition message_from_inner (inner : MessageInner) : option Message :=
  let payload := mi_payload inner in
  match mi_id inner with
  | MsgChoke => Some Choke
  | MsgUnchoke => Some Unchoke
  | MsgInterested => Some Interested
  | MsgNotInterested => Some NotInterested
  | MsgHave => b ← slice payload 0 4; Some (Have (of_be b))
  | MsgBitfield => Some (MBitfield payload)
  | MsgRequest => b ← slice payload 0 12; Some (Request b)
  | MsgPiece =>
      index ← slice payload 0 4;
      start ← slice payload 4 8;
      data ← slice payload 8 (length payload);
      Some (Piece (mkPieceChunk (of_be index) (of_be start)
                     (wrap32 (Z.of_nat (length data))) data))
  | MsgCancel => b ← slice payload 0 12; Some (Cancel b)
  | MsgPort => b ← slice payload 0 2; Some (Port (of_be b))
  | MsgSuggestPiece => b ← slice payload 0 4; Some (SuggestPiece (of_be b))
  | MsgHaveAll => Some HaveAll
  | MsgHaveNone => Some HaveNone
  | MsgRejectRequest =>
      req ← br_from_payload payload;
      Some (RejectRequest (br_index req) (br_begin req) (br_length req))
  | MsgAllowedFast => b ← slice payload 0 4; Some (AllowedFast (of_be b))
  | MsgExtended =>
      e ← payload !! 0%nat;
      rest ← slice payload 1 (length payload);
      Some (Extended e rest)
  | MsgHashRequest => Some HashRequest
  | MsgHashes => Some (Hashes payload)
  | MsgHashReject => Some HashReject
  end.

Definition id_of_u8 (id : u8) : option MessageId :=
  match id with
  | 0 => Some MsgChoke | 1 => Some MsgUnchoke | 2 => Some MsgInterested
  | 3 => Some MsgNotInterested | 4 => Some MsgHave | 5 => Some MsgBitfield
  | 6 => Some MsgRequest | 7 => Some MsgPiece | 8 => Some MsgCancel | 9 => Some MsgPort
  | 13 => Some MsgSuggestPiece | 14 => Some MsgHaveAll | 15 => Some MsgHaveNone
  | 16 => Some MsgRejectRequest | 17 => Some MsgAllowedFast | 20 => Some MsgExtended
  | 21 => Some MsgHashRequest | 22 => Some MsgHashes | 23 => Some MsgHashReject
  | _ => None
  end.

(** The least payload length [read] accepts for an id. *)
Definition min_payload (id : MessageId) : nat :=
  match id with
  | MsgHave | MsgSuggestPiece | MsgAllowedFast => 4
  | MsgPort => 2
  | MsgRequest | MsgCancel | MsgRejectRequest => 12
  | MsgPiece => 8
  | MsgExtended => 1
  | _ => 0
  end%nat.

(** [message::read]: [None] is a panic, [Some] the returned result. *)
Definition read (length_buf message_buf : bytes) : option (result Message DecodeError) :=
  if negb (length length_buf =? 4)%nat then Some (Err InvalidLengthPrefix)
  else
    let len := of_be length_buf in
    if len =? 0 then Some (Ok KeepAlive)
    else
      let len := Z.to_nat len in
      if (length message_buf =? 0)%nat || (length message_buf <? len)%nat
      then Some (Err Truncated)
      else
        id ← message_buf !! 0%nat;
        payload ← slice message_buf 1 len;
        match id_of_u8 id with
        | None => Some (Err (UnknownId id))
        | Some mid =>
            if (length payload <? min_payload mid)%nat then Some (Err Truncated)
            else m ← message_from_inner (mkMessageInner mid payload); Some (Ok m)
        end.

(** ** Well-formed messages: what Rust's types guarantee of a [Message] *)

Definition wf_message (m : Message) : Prop :=
  match m with
  | Have i | SuggestPiece i | AllowedFast i => is_u32 i
  | MBitfield p | Hashes p => True
  | Request p | Cancel p => length p = 12%nat
  | Piece c =>
      is_u32 (pc_index c) /\ is_u32 (pc_start c) /\
      pc_length c = wrap32 (Z.of_nat (length (pc_data c)))
  | Port p => is_u16 p
  | RejectRequest i b l => is_u32 i /\ is_u32 b /\ is_u32 l
  | _ => True
  end.

(** The frame fits the 32-bit length prefix. *)
Definition frame_fits (m : Message) : Prop :=
  match encode_parts m with
  | None => True
  | Some (_, payload) => Z.of_nat (length payload) + 1 <= U32_MAX
  end.

(** ** Lemmas on the two halves of the codec *)

Lemma id_of_id_code id : id_of_u8 (id_code id) = Some id.
Proof. by destruct id. Qed.

Lemma id_code_of_id z id : id_of_u8 z = Some id -> id_code id = z.
Proof. unfold id_of_u8. intros. repeat case_match; simplify_eq; done. Qed.

Lemma id_code_u8 id : is_u8 (id_code id).
Proof. destruct id; simpl; ranges. Qed.

Ltac slices := rewrite ?slice_total by (simpl in *; lia).

Lemma br_from_payload_total payload :
  (12 <= length payload)%nat -> is_Some (br_from_payload payload).
Proof.
  intros H. unfold br_from_payload. rewrite (proj2 (Nat.ltb_ge _ _)) by lia.
  slices. red_bind. by eexists.
Qed.

Lemma br_from_to_payload r rest :
  is_u32 (br_index r) -> is_u32 (br_begin r) -> is_u32 (br_length r) ->
  br_from_payload (br_to_payload r ++ rest) = Some r.
Proof.
  intros Hi Hb Hl. unfold br_from_payload, br_to_payload.
  rewrite (proj2 (Nat.ltb_ge _ _)) by (rewrite !length_app, !length_be_bytes; lia).
  rewrite <- !app_assoc.
  rewrite slice_prefix by (by rewrite length_be_bytes). red_bind.
  rewrite (slice_app (be_bytes 4 (br_index r)) (be_bytes 4 (br_begin r)) _ 4 8) by (rewrite !length_be_bytes; done). red_bind.
  rewrite app_assoc.
  rewrite (slice_app (be_bytes 4 (br_index r) ++ be_bytes 4 (br_begin r)))
    by (rewrite length_app, !length_be_bytes; done).
  red_bind. rewrite !of_be_bytes_u32 by done. by destruct r.
Qed.

Lemma message_from_inner_total id payload :
  (min_payload id <= length payload)%nat ->
  is_Some (message_from_inner (mkMessageInner id payload)).
Proof.
  intros H. unfold message_from_inner; cbn [mi_id mi_payload].
  destruct id; simpl in H; slices; red_bind; try by eexists.
  - destruct (br_from_payload_total payload H) as [r ->]. by eexists.
  - destruct payload as [|e p]; simpl in H; [lia|]. by eexists.
Qed.

(** Decoding undoes encoding, on the id and payload. *)
Lemma message_from_encode m id payload :
  wf_message m -> encode_parts m = Some (id, payload) ->
  message_from_inner (mkMessageInner id payload) = Some m /\
  (min_payload id <= length payload)%nat.
Proof.
  intros Hwf Henc.
  destruct m; simpl in *; simplify_eq/=; unfold message_from_inner; cbn [mi_id mi_payload];
    rewrite ?length_app, ?length_be_bytes; try (split; [done|lia]).
  - rewrite slice_full by (by rewrite length_be_bytes). red_bind.
    by rewrite of_be_bytes_u32.
  - rewrite slice_full by done. split; [done|lia].
  - destruct Hwf as (Hi & Hs & Hl). destruct chunk as [i s l d]; simpl in *.
    rewrite slice_prefix by (by rewrite length_be_bytes). red_bind.
    rewrite (slice_app (be_bytes 4 i) (be_bytes 4 s) _ 4 8) by (rewrite !length_be_bytes; done). red_bind.
    rewrite app_assoc, slice_suffix by (rewrite ?length_app, !length_be_bytes; lia). red_bind.
    rewrite !of_be_bytes_u32 by done. rewrite <- Hl. split; [done|lia].
  - rewrite slice_full by done. split; [done|lia].
  - rewrite slice_full by (by rewrite length_be_bytes). red_bind.
    by rewrite of_be_bytes_u16.
  - rewrite slice_full by (by rewrite length_be_bytes). red_bind.
    by rewrite of_be_bytes_u32.
  - destruct Hwf as (Hi & Hb & Hl).
    rewrite <- (app_nil_r (br_to_payload _)), br_from_to_payload by done. red_bind.
    split; [done|]. unfold br_to_payload. rewrite !length_app, !length_be_bytes. simpl. lia.
  - rewrite slice_full by (by rewrite length_be_bytes). red_bind.
    by rewrite of_be_bytes_u32.
  - rewrite slice_total by (simpl; lia). simpl. rewrite Nat.sub_0_r, drop_0, firstn_all.
    split; [done|lia].
Qed.

(** [read] on a complete frame with extra bytes behind it. *)
Lemma read_frame id payload rest :
  Z.of_nat (length payload) + 1 <= U32_MAX ->
  read (be_bytes 4 (wrap32 (Z.of_nat (length payload + 1)))) ([id_code id] ++ payload ++ rest) =
  if (length payload <? min_payload id)%nat then Some (Err Truncated)
  else m ← message_from_inner (mkMessageInner id payload); Some (Ok m).
Proof.
  intros Hfit. unfold read. rewrite length_be_bytes. simpl negb. cbv iota.
  rewrite wrap32_small by ranges. rewrite of_be_bytes_u32 by ranges.
  rewrite (proj2 (Z.eqb_neq _ _)) by lia.
  cbn zeta. rewrite Nat2Z.id. rewrite !length_app. cbn [length].
  rewrite (proj2 (Nat.eqb_neq _ _)), (proj2 (Nat.ltb_ge _ _)) by lia.
  cbn [orb]. simpl lookup. rewrite slice_app by (simpl; lia). cbn [mbind option_bind].
  by rewrite id_of_id_code.
Qed.

(** ** Theorems *)

(** Decoding a serialized message gives the message back, for every
    message whose fields have their Rust types and whose frame fits the 32-bit
    length prefix, whatever bytes follow the frame in the buffer. *)
Theorem read_serialize m rest :
  wf_message m -> frame_fits m ->
  read (take 4 (serialize (Some m))) (drop 4 (serialize (Some m)) ++ rest) = Some (Ok m).
Proof.
  intros Hwf Hfit. unfold serialize. unfold frame_fits in Hfit.
  destruct (encode_parts m) as [[id payload]|] eqn:Henc.
  - destruct (message_from_encode _ _ _ Hwf Henc) as [Hm Hmin].
    rewrite take_app_length' by (by rewrite length_be_bytes).
    rewrite drop_app_length' by (by rewrite length_be_bytes).
    rewrite <- app_assoc, read_frame by done.
    rewrite (proj2 (Nat.ltb_ge _ _)) by lia. by rewrite Hm.
  - destruct m; simplify_eq/=. done.
Qed.

(** On every length buffer and every message buffer, however short, long or
    malformed, all slices and indexings of [read] are in range. *)
Lemma read_total length_buf message_buf :
  wf_bytes length_buf -> is_Some (read length_buf message_buf).
Proof.
  intros Hwf. pose proof (of_be_range _ Hwf). unfold read.
  case_match; [by eexists|].
  destruct (Z.eqb_spec (of_be length_buf) 0) as [|Hne]; [by eexists|].
  cbn zeta. case_match eqn:Hlen; [by eexists|].
  apply orb_false_iff in Hlen as [Hnil Hlen].
  apply Nat.eqb_neq in Hnil. apply Nat.ltb_ge in Hlen.
  destruct message_buf as [|id p]; [done|]. cbn [lookup list_lookup]. red_bind.
  rewrite slice_total by (cbn [length] in *; lia). red_bind.
  destruct (id_of_u8 id) as [mid|]; [|by eexists].
  case_match eqn:Hmin; [by eexists|]. apply Nat.ltb_ge in Hmin.
  destruct (message_from_inner_total mid _ Hmin) as [m ->]. by eexists.
Qed.

Lemma br_from_payload_canonical payload r :
  wf_bytes payload -> br_from_payload payload = Some r ->
  is_u32 (br_index r) /\ is_u32 (br_begin r) /\ is_u32 (br_length r) /\
  br_to_payload r `prefix_of` payload.
Proof.
  intros Hwf. unfold br_from_payload. case_match; [done|].
  destruct (slice payload 0 4) as [i|] eqn:Ei; [|done]. red_bind.
  destruct (slice payload 4 8) as [b|] eqn:Eb; [|done]. red_bind.
  destruct (slice payload 8 12) as [l|] eqn:El; [|done]. red_bind.
  intros ?; simplify_eq; simpl.
  split_and!; [by eapply of_be_slice_u32..|].
  unfold br_to_payload; simpl.
  rewrite (be_of_slice _ _ _ _ 4 Hwf Ei), (be_of_slice _ _ _ _ 4 Hwf Eb),
    (be_of_slice _ _ _ _ 4 Hwf El) by done.
  eapply slice_prefix_of, slice_join; [done|]. by eapply slice_join.
Qed.

(** The payload of the canonical encoding of a decoded message is a prefix of
    the payload it was decoded from. *)
Lemma message_from_inner_canonical id payload m :
  wf_bytes payload ->
  message_from_inner (mkMessageInner id payload) = Some m ->
  wf_message m /\
  exists canon, encode_parts m = Some (id, canon) /\ canon `prefix_of` payload.
Proof.
  intros Hwf. unfold message_from_inner; cbn [mi_id mi_payload].
  assert (Hone : forall n s, slice payload 0 n = Some s ->
    be_bytes n (of_be s) `prefix_of` payload).
  { intros n s Hs. rewrite (be_of_slice _ _ _ _ n Hwf Hs) by lia. by eapply slice_prefix_of. }
  destruct id; intros Hm; simplify_eq;
    try (split; [done|]; eexists; split; [done|]; (apply prefix_nil || done));
    try (destruct (slice payload 0 _) as [s|] eqn:Es; [|done]; simplify_eq/=;
         split; [first [by eapply of_be_slice_u32 | by eapply of_be_slice_u16
                       | by eapply slice_length in Es]
                |eexists; split; [done|]; eauto using slice_prefix_of]; fail).
  - destruct (slice payload 0 4) as [i|] eqn:Ei; [|done]. revert Hm; red_bind.
    destruct (slice payload 4 8) as [b|] eqn:Eb; [|done]. red_bind.
    destruct (slice payload 8 _) as [d|] eqn:Ed; [|done]. red_bind.
    intros ?; simplify_eq; simpl.
    split; [split_and!; [by eapply of_be_slice_u32..|done]|].
    eexists; split; [done|].
    rewrite (be_of_slice _ _ _ _ 4 Hwf Ei), (be_of_slice _ _ _ _ 4 Hwf Eb) by done.
    eapply slice_prefix_of, slice_join; [done|]. by eapply slice_join.
  - destruct (br_from_payload payload) as [r|] eqn:Er; [|done]. simplify_eq/=.
    destruct (br_from_payload_canonical _ _ Hwf Er) as (?&?&?&?). destruct r; simpl in *.
    eauto 6.
  - destruct payload as [|e p]; [done|]. revert Hm. cbn [lookup list_lookup]. red_bind.
    rewrite slice_total by (simpl; lia). red_bind. intros ?; simplify_eq.
    split; [done|]. eexists; split; [done|]. simpl. by rewrite Nat.sub_0_r, drop_0, firstn_all.
Qed.

(** Unless it is the keep-alive, a decoded message is well formed and its
    canonical encoding is the received frame up to trailing payload bytes,
    which [read] ignores. *)
Lemma read_canonical length_buf id body m :
  wf_bytes (id :: body) ->
  read length_buf (id :: body) = Some (Ok m) -> m <> KeepAlive ->
  wf_message m /\
  exists mid canon,
    encode_parts m = Some (mid, canon) /\ id_code mid = id /\
    canon `prefix_of` body /\ (length canon < Z.to_nat (of_be length_buf))%nat.
Proof.
  intros Hwf Hread Hka. revert Hread. unfold read. cbn zeta.
  case_match; [done|]. case_match; [by intros; simplify_eq|]. case_match; [done|].
  cbn [lookup list_lookup]. red_bind.
  destruct (slice (id :: body) 1 _) as [payload|] eqn:Es; [|done]. red_bind.
  destruct (id_of_u8 id) as [mid|] eqn:Eid; [|done]. case_match; [done|].
  destruct (message_from_inner _) as [m'|] eqn:Em; [|done]. intros ?; simplify_eq/=.
  pose proof (slice_length _ _ _ _ Es) as Hl.
  apply message_from_inner_canonical in Em as [? (canon & Henc & Hpre)];
    [|by eapply slice_wf].
  split; [done|]. exists mid, canon. split_and!; [done|by apply id_code_of_id| |].
  - apply slice_Some in Es as [? ->]. etrans; [done|]. cbn [drop].
    rewrite drop_0. apply prefix_take.
  - apply prefix_length in Hpre. apply slice_Some in Es as [? _]. lia.
Qed.

(** [validate_request] accepts a block request exactly when we have the
    piece, the length is between 1 and 128 KiB and the block ends within the
    piece; a [begin + length] that overflows [u32] is out of bounds. *)
Theorem validate_request_ok req piece_length have_piece :
  is_u32 piece_length ->
  validate_request req piece_length have_piece = Ok () <->
  have_piece = true /\ br_length req <> 0 /\ br_length req <= MAX_INCOMING_REQUEST_LENGTH /\
  br_begin req + br_length req <= piece_length.
Proof.
  intros Hu. unfold validate_request, checked_add_u32.
  destruct have_piece; simpl; [|split; [done|by intros [? _]]].
  repeat (case_cmp; simpl); split; intros; simplify_eq; try done; ranges.
Qed.
