(* ===== verification/Handshake.v ===== *)
(** * BitTorrent handshake (crates/bit_rev/src/handshake.rs)

    The 49 + pstrlen byte handshake: construction, reserved-bit capabilities,
    [serialize], [read] and [from_bytes].  Arrays ([reserved], [info_hash],
    [peer_id]) are byte lists whose length is part of [wf_handshake]. *)

From S2P Require Import Prelude Utf8 Bitfield.

Definition FAST_EXTENSION_FLAG : u8 := 4.
Definition EXTENSION_PROTOCOL_FLAG : u8 := 16.
Definition DHT_FLAG : u8 := 1.
Definition MAX_PSTR_LEN : nat := 19.

Record Handshake := mkHandshake {
  pstr : bytes; reserved : bytes; info_hash : bytes; peer_id : bytes }.

#[export] Instance Handshake_eq_dec : EqDecision Handshake.
Proof. solve_decision. Defined.

Record HandshakeCapabilities := mkCaps {
  fast_extension : bool; extension_protocol : bool; dht : bool }.

Inductive HandshakeError :=
| ProtocolLengthCantBeZero
| InvalidProtocolLength
| BufferTooShort.

(** "BitTorrent protocol". *)
Definition PSTR : bytes :=
  [66; 105; 116; 84; 111; 114; 114; 101; 110; 116; 32; 112; 114; 111; 116; 111; 99; 111; 108].

Definition handshake_new (ih pid : bytes) : Handshake :=
  mkHandshake PSTR (replicate 8 0) ih pid.

Definition set_reserved (f : bytes -> bytes) (h : Handshake) : Handshake :=
  mkHandshake (pstr h) (f (reserved h)) (info_hash h) (peer_id h).

(** [self.reserved[i] |= flag] and [self.reserved[i] & flag != 0]. *)
Definition or_reserved (i : nat) (flag : u8) (h : Handshake) : Handshake :=
  set_reserved (fun r => <[i := Z.lor (nth i r 0) flag]> r) h.
Definition test_reserved (i : nat) (flag : u8) (h : Handshake) : bool :=
  negb (Z.land (nth i (reserved h) 0) flag =? 0).

Definition supports_fast_extension : Handshake -> bool := test_reserved 7 FAST_EXTENSION_FLAG.
Definition enable_fast_extension : Handshake -> Handshake := or_reserved 7 FAST_EXTENSION_FLAG.
Definition supports_extension_protocol : Handshake -> bool :=
  test_reserved 5 EXTENSION_PROTOCOL_FLAG.
Definition enable_extension_protocol : Handshake -> Handshake :=
  or_reserved 5 EXTENSION_PROTOCOL_FLAG.
Definition supports_dht : Handshake -> bool := test_reserved 7 DHT_FLAG.
Definition enable_dht : Handshake -> Handshake := or_reserved 7 DHT_FLAG.

Definition outgoing (ih pid : bytes) : Handshake :=
  enable_extension_protocol (enable_fast_extension (handshake_new ih pid)).

Definition capabilities (h : Handshake) : HandshakeCapabilities :=
  mkCaps (supports_fast_extension h) (supports_extension_protocol h) (supports_dht h).

Definition reserved_bit (h : Handshake) (index : nat) : bool :=
  if (64 <=? index)%nat then false
  else
    let byte_index := (index / 8)%nat in
    let offset := Z.of_nat (index mod 8) in
    negb (Z.land (Z.shiftr (nth byte_index (reserved h) 0) (7 - offset)) 1 =? 0).

Definition set_reserved_bit (h : Handshake) (index : nat) : Handshake :=
  if (64 <=? index)%nat then h
  else
    let byte_index := (index / 8)%nat in
    let offset := Z.of_nat (index mod 8) in
    or_reserved byte_index (wrap8 (Z.shiftl 1 (7 - offset))) h.

Definition handshake_serialize (h : Handshake) : bytes :=
  [wrap8 (Z.of_nat (length (pstr h)))] ++ pstr h ++ reserved h ++ info_hash h ++ peer_id h.

(** [Handshake::read]; [None] is a panic. *)
Definition handshake_read (protocol_str_len : nat) (buf : bytes)
  : option (result Handshake HandshakeError) :=
  if (protocol_str_len =? 0)%nat then Some (Err ProtocolLengthCantBeZero)
  else if (length buf <? protocol_str_len + 48)%nat then Some (Err BufferTooShort)
  else
    p ← slice buf 0 protocol_str_len;
    let reserved_start := protocol_str_len in
    let info_start := (reserved_start + 8)%nat in
    let peer_start := (info_start + 20)%nat in
    r ← slice buf reserved_start info_start;
    i ← slice buf info_start peer_start;
    d ← slice buf peer_start (peer_start + 20);
    Some (Ok (mkHandshake (utf8_lossy p) r i d)).

(** [Handshake::from_bytes]; [None] is a panic. *)
Definition handshake_from_bytes (buf : bytes) : option (result Handshake HandshakeError) :=
  match buf with
  | [] => Some (Err BufferTooShort)
  | first :: rest =>
      let pstrlen := Z.to_nat first in
      if (pstrlen =? 0)%nat then Some (Err ProtocolLengthCantBeZero)
      else if (MAX_PSTR_LEN <? pstrlen)%nat then Some (Err InvalidProtocolLength)
      else
        let needed := (pstrlen + 48)%nat in
        if (length rest <? needed)%nat then Some (Err BufferTooShort)
        else b ← slice rest 0 needed; handshake_read pstrlen b
  end.

(** ** Well-formedness: the array lengths and a protocol string that fits *)

Record wf_handshake (h : Handshake) : Prop := {
  wf_reserved : length (reserved h) = 8%nat;
  wf_info_hash : length (info_hash h) = 20%nat;
  wf_peer_id : length (peer_id h) = 20%nat;
  wf_reserved_bytes : wf_bytes (reserved h) }.

Definition ascii_pstr (h : Handshake) : Prop :=
  (1 <= length (pstr h) <= MAX_PSTR_LEN)%nat /\ Forall is_ascii (pstr h).

Lemma handshake_new_wf ih pid :
  length ih = 20%nat -> length pid = 20%nat -> wf_handshake (handshake_new ih pid).
Proof. intros. split; simpl; auto. repeat constructor; discriminate. Qed.

Lemma set_reserved_bit_wf h i : wf_handshake h -> wf_handshake (set_reserved_bit h i).
Proof.
  intros [H1 H2 H3 H4]. unfold set_reserved_bit. case_match; [by split|].
  unfold or_reserved, set_reserved.
  split; cbn [reserved info_hash peer_id]; [by rewrite length_insert|done..|].
  apply Forall_insert; [done|]. apply is_u8_lor; [|apply wrap8_range].
  destruct (nth_in_or_default (i / 8) (reserved h) 0) as [Hin|E]; [|rewrite E; ranges].
  unfold wf_bytes in H4. rewrite Forall_forall in H4. apply H4. by apply list_elem_of_In.
Qed.

(** The reserved bits are a 64-bit bitfield. *)
Lemma reserved_bit_bitfield h i :
  wf_handshake h -> reserved_bit h i = has_piece (bf_new (reserved h)) i.
Proof.
  intros [H1 _ _ _]. unfold reserved_bit. destruct (Nat.leb_spec 64 i) as [Hi|Hi].
  - symmetry. apply not_true_is_false. intros H%has_piece_range.
    unfold capacity, bf_new in H. cbn [bf_bytes] in H. lia.
  - unfold has_piece, bf_new. cbn [bf_bytes].
    destruct (proj1 (lookup_byte_in_range (reserved h) i)) as [b Hb]; [lia|].
    rewrite Hb. by rewrite (nth_lookup_Some _ _ _ _ Hb).
Qed.

Lemma set_reserved_bit_bitfield h i :
  wf_handshake h ->
  bf_new (reserved (set_reserved_bit h i)) = set_piece (bf_new (reserved h)) i.
Proof.
  intros [H1 _ _ _]. unfold set_reserved_bit. destruct (Nat.leb_spec 64 i) as [Hi|Hi].
  - unfold set_piece, bf_new. cbn [bf_bytes].
    destruct (reserved h !! _) eqn:E; [|done]. exfalso.
    assert (i < 8 * length (reserved h))%nat by (apply lookup_byte_in_range; by rewrite E).
    lia.
  - unfold set_piece, bf_new. cbn [bf_bytes].
    destruct (proj1 (lookup_byte_in_range (reserved h) i)) as [b Hb]; [lia|].
    rewrite Hb. unfold or_reserved, set_reserved. cbn [reserved]. by rewrite (nth_lookup_Some _ _ _ _ Hb).
Qed.

(** ** Theorems *)

(** Setting a reserved bit makes exactly that bit readable and keeps the
    other 63; indices from 64 on are ignored. *)
Lemma reserved_bit_set h i j :
  wf_handshake h ->
  reserved_bit (set_reserved_bit h i) j =
  (bool_decide (i = j /\ (i < 64)%nat) || reserved_bit h j)%bool.
Proof.
  intros Hwf. rewrite !reserved_bit_bitfield by auto using set_reserved_bit_wf.
  rewrite set_reserved_bit_bitfield by done. rewrite has_set_piece.
  unfold capacity, bf_new. cbn [bf_bytes]. by rewrite (wf_reserved _ Hwf).
Qed.


(** [read] on a complete body. *)
Lemma handshake_read_body h rest :
  wf_handshake h -> (1 <= length (pstr h))%nat ->
  handshake_read (length (pstr h)) (pstr h ++ reserved h ++ info_hash h ++ peer_id h ++ rest) =
  Some (Ok (mkHandshake (utf8_lossy (pstr h)) (reserved h) (info_hash h) (peer_id h))).
Proof.
  intros [Hr Hi Hp _] Hl. unfold handshake_read.
  rewrite (proj2 (Nat.eqb_neq _ _)) by lia.
  rewrite (proj2 (Nat.ltb_ge _ _)) by (rewrite !length_app; lia).
  rewrite slice_prefix by done. red_bind. cbn zeta.
  rewrite (slice_app (pstr h) (reserved h) _ (length (pstr h))) by lia. red_bind.
  rewrite app_assoc, (slice_app (pstr h ++ reserved h) (info_hash h) _ (length (pstr h) + 8))
    by (rewrite ?length_app; lia). red_bind.
  rewrite (app_assoc (pstr h ++ reserved h)),
    (slice_app ((pstr h ++ reserved h) ++ info_hash h) (peer_id h))
    by (rewrite ?length_app; lia). done.
Qed.

(** [from_bytes] recovers every handshake with an ASCII protocol string of 1 to
    19 bytes from its serialization, ignoring bytes behind it. *)
Lemma handshake_from_bytes_serialize h rest :
  wf_handshake h -> ascii_pstr h ->
  handshake_from_bytes (handshake_serialize h ++ rest) = Some (Ok h).
Proof.
  intros Hwf [Hlen Hascii]. unfold handshake_from_bytes, handshake_serialize.
  unfold MAX_PSTR_LEN in *. cbn [app].
  rewrite wrap8_small, Nat2Z.id by ranges.
  rewrite (proj2 (Nat.eqb_neq _ _)), (proj2 (Nat.ltb_ge _ _)) by lia.
  pose proof Hwf as [Hr Hi Hp _].
  rewrite (proj2 (Nat.ltb_ge _ _)) by (rewrite !length_app; lia).
  rewrite slice_prefix by (rewrite !length_app; lia). red_bind.
  rewrite <- (app_nil_r (peer_id h)), handshake_read_body by (done || lia).
  rewrite utf8_lossy_ascii by done. by destruct h.
Qed.

(** Parsing an arbitrary buffer never panics, and it fails exactly on the
    documented cases: an empty buffer or one shorter than [49 + pstrlen] bytes,
    a zero [pstrlen], or a [pstrlen] above 19 (before anything is copied). *)
Theorem handshake_from_bytes_cases buf :
  wf_bytes buf ->
  match buf with
  | [] => handshake_from_bytes buf = Some (Err BufferTooShort)
  | n :: rest =>
      (n = 0 /\ handshake_from_bytes buf = Some (Err ProtocolLengthCantBeZero)) \/
      (19 < n /\ handshake_from_bytes buf = Some (Err InvalidProtocolLength)) \/
      (1 <= n <= 19 /\ Z.of_nat (length rest) < n + 48 /\
         handshake_from_bytes buf = Some (Err BufferTooShort)) \/
      (1 <= n <= 19 /\ n + 48 <= Z.of_nat (length rest) /\
         exists h, handshake_from_bytes buf = Some (Ok h) /\
                   length (reserved h) = 8%nat /\ length (info_hash h) = 20%nat /\
                   length (peer_id h) = 20%nat)
  end.
Proof.
  intros Hwf. destruct buf as [|n rest]; [done|].
  inversion_clear Hwf as [|? ? Hn Hrest]. unfold is_u8, U8_MAX in Hn.
  unfold handshake_from_bytes, MAX_PSTR_LEN. cbn zeta.
  destruct (Nat.eqb_spec (Z.to_nat n) 0); [left; split; [lia|done]|].
  destruct (Nat.ltb_spec 19 (Z.to_nat n)); [right; left; split; [lia|done]|].
  destruct (Nat.ltb_spec (length rest) (Z.to_nat n + 48));
    [right; right; left; split; [lia|split; [lia|done]]|].
  right; right; right. split; [lia|split; [lia|]].
  rewrite slice_total by lia. red_bind. rewrite Nat.sub_0_r, drop_0.
  unfold handshake_read. rewrite (proj2 (Nat.eqb_neq _ _)) by lia.
  rewrite (proj2 (Nat.ltb_ge _ _)) by (rewrite length_take; lia).
  rewrite !slice_total by (rewrite length_take; lia). red_bind.
  eexists; split; [done|]. simpl.
  rewrite !length_take, !length_drop, !length_take. lia.
Qed.

(** An outgoing handshake advertises the fast extension and the extension
    protocol; [enable_dht] adds the DHT flag and keeps both. *)
Lemma outgoing_capabilities ih pid :
  capabilities (outgoing ih pid) = mkCaps true true false /\
  capabilities (enable_dht (outgoing ih pid)) = mkCaps true true true.
Proof. done. Qed.
