(* ===== verification/Wire.v ===== *)
(** * Framing on a peer stream (crates/bit_rev/src/protocol.rs)

    A stream is the list of bytes the peer sends before it closes the
    connection; a read that wants more bytes than are left meets the end of
    file.  Timeouts and socket errors are the environment's and do not occur on
    such a stream.  [protocol_read] is [Protocol::read], [decode_frame] the
    buffer version, [complete_handshake] the handshake exchange. *)

From S2P Require Import Prelude Utf8 Bitfield Message Handshake.

Definition MAX_MESSAGE_LEN : u32 := 2 * 1024 * 1024.

Inductive Frame :=
| FKeepAlive
| FMessage (m : Message)
| FUnknown (id : u8)
| FEof.

Inductive ProtocolError :=
| PEHandshake (e : HandshakeError)
| PETimeout
| PEIo
| InfoHashIsNotEqual
| MessageTooLarge (length : u32)
| PETruncated
| PEIdle
| PEHandshakeIdle.

Definition frame_from_parts (length_buf msg_bytes : bytes)
  : option (result Frame ProtocolError) :=
  r ← read length_buf msg_bytes;
  Some (match r with
        | Ok KeepAlive => Ok FKeepAlive
        | Ok msg => Ok (FMessage msg)
        | Err (UnknownId id) => Ok (FUnknown id)
        | Err (Truncated | InvalidLengthPrefix) => Err PETruncated
        end).

Definition decode_frame (buf : bytes) : option (result Frame ProtocolError) :=
  if (length buf <? 4)%nat then Some (Err PETruncated)
  else
    length_buf ← slice buf 0 4;
    let len := of_be length_buf in
    if len =? 0 then Some (Ok FKeepAlive)
    else if MAX_MESSAGE_LEN <? len then Some (Err (MessageTooLarge len))
    else
      let need := (4 + Z.to_nat len)%nat in
      if (length buf <? need)%nat then Some (Err PETruncated)
      else body ← slice buf 4 need; frame_from_parts length_buf body.

(** [read_exact] on the stream: the bytes and the rest, or the end of file. *)
Definition read_exact (n : nat) (stream : bytes) : option (bytes * bytes) :=
  if (n <=? length stream)%nat then Some (take n stream, drop n stream) else None.

(** [Protocol::read]: the frame and the rest of the stream; [None] is a
    panic. *)
Definition protocol_read (piece_count : option nat) (stream : bytes)
  : option (result (Frame * bytes) ProtocolError) :=
  match read_exact 4 stream with
  | None => Some (Ok (FEof, stream))
  | Some (length_buf, stream) =>
      let len := of_be length_buf in
      if len =? 0 then Some (Ok (FKeepAlive, stream))
      else if MAX_MESSAGE_LEN <? len then Some (Err (MessageTooLarge len))
      else
        match read_exact 1 stream with
        | None => Some (Err PETruncated)
        | Some (id_buf, stream) =>
            let id := nth 0 id_buf 0 in
            let remaining := (Z.to_nat len - 1)%nat in
            let too_large :=
              (id =? id_code MsgBitfield) &&
              match piece_count with
              | Some count => ((count + 7) / 8 <? remaining)%nat
              | None => false
              end in
            if too_large then Some (Err (MessageTooLarge len))
            else
              match read_exact remaining stream with
              | None => Some (Err PETruncated)
              | Some (body, stream) =>
                  r ← frame_from_parts length_buf (id :: body);
                  Some (match r with Ok f => Ok (f, stream) | Err e => Err e end)
              end
        end
  end.

Definition read_handshake_body (stream : bytes)
  : option (result (Handshake * bytes) ProtocolError) :=
  match read_exact 1 stream with
  | None => Some (Err PEIo)
  | Some (len_buf, stream) =>
      let protocol_str_len := Z.to_nat (nth 0 len_buf 0) in
      if (protocol_str_len =? 0)%nat then Some (Err (PEHandshake ProtocolLengthCantBeZero))
      else if (MAX_PSTR_LEN <? protocol_str_len)%nat
      then Some (Err (PEHandshake InvalidProtocolLength))
      else
        match read_exact (protocol_str_len + 48) stream with
        | None => Some (Err PEIo)
        | Some (body, stream) =>
            r ← handshake_read protocol_str_len body;
            Some (match r with Ok h => Ok (h, stream) | Err e => Err (PEHandshake e) end)
        end
  end.

(** [Protocol::complete_handshake]: the bytes written to the peer, and the
    result of reading the peer's reply. *)
Definition complete_handshake (own_hash own_id : bytes) (advertise_dht : bool) (stream : bytes)
  : bytes * option (result (Handshake * bytes) ProtocolError) :=
  let hs := outgoing own_hash own_id in
  let hs := if advertise_dht then enable_dht hs else hs in
  (handshake_serialize hs,
   r ← read_handshake_body stream;
   Some (match r with
         | Ok (h, rest) =>
             if bool_decide (info_hash h = own_hash) then Ok (h, rest)
             else Err InfoHashIsNotEqual
         | Err e => Err e
         end)).

(** [Protocol::recv_bitfield]. *)
Definition recv_bitfield (piece_count : option nat) (stream : bytes)
  : option (result (bytes * bytes) ProtocolError) :=
  r ← protocol_read piece_count stream;
  Some (match r with
        | Ok (FMessage (MBitfield b), rest) => Ok (b, rest)
        | Ok (_, rest) => Ok ([], rest)
        | Err e => Err e
        end).

(** The deadline of [Protocol::read_with_idle] and the error it reports when
    the deadline passes at [now] without a frame. *)
Definition idle_deadline (idle handshake_to_first : Duration)
    (last_inbound handshake_at : Instant) (seen_first : bool) : Instant :=
  let idle_at := last_inbound + idle in
  let first_at := handshake_at + handshake_to_first in
  if seen_first then idle_at else Z.min first_at idle_at.

Definition idle_error (handshake_to_first : Duration)
    (handshake_at now : Instant) (seen_first : bool) : ProtocolError :=
  let first_at := handshake_at + handshake_to_first in
  if negb seen_first && (first_at <=? now) then PEHandshakeIdle else PEIdle.

(** ** Lemmas *)

Lemma read_exact_app n (a b : bytes) : n = length a -> read_exact n (a ++ b) = Some (a, b).
Proof.
  intros ->. unfold read_exact. rewrite (proj2 (Nat.leb_le _ _)) by (rewrite length_app; lia).
  by rewrite take_app_length, drop_app_length.
Qed.

(** What a message looks like once framed. *)
Definition frame_of (m : Message) : Frame :=
  match m with KeepAlive => FKeepAlive | _ => FMessage m end.

(** The limits [Protocol::read] puts on a message: the 2 MiB frame limit, and a
    bitfield no longer than the torrent needs. *)
Definition within_limits (piece_count : option nat) (m : Message) : Prop :=
  match encode_parts m with
  | None => True
  | Some (id, payload) =>
      Z.of_nat (length payload) + 1 <= MAX_MESSAGE_LEN /\
      match id, piece_count with
      | MsgBitfield, Some count => (length payload <= (count + 7) / 8)%nat
      | _, _ => True
      end
  end.

Lemma frame_from_parts_encode m id payload :
  wf_message m -> encode_parts m = Some (id, payload) ->
  Z.of_nat (length payload) + 1 <= U32_MAX ->
  frame_from_parts (be_bytes 4 (wrap32 (Z.of_nat (length payload + 1)))) (id_code id :: payload)
  = Some (Ok (frame_of m)).
Proof.
  intros Hwf Henc Hfit. unfold frame_from_parts.
  destruct (message_from_encode _ _ _ Hwf Henc) as [Hm Hmin].
  pose proof (read_frame id payload [] Hfit) as Hr.
  rewrite app_nil_r in Hr. cbn [app] in Hr. rewrite Hr.
  rewrite (proj2 (Nat.ltb_ge _ _)), Hm by lia. red_bind.
  destruct m; simpl in Henc; simplify_eq; done.
Qed.

Lemma protocol_read_serialize piece_count m rest :
  wf_message m -> within_limits piece_count m ->
  protocol_read piece_count (serialize (Some m) ++ rest) = Some (Ok (frame_of m, rest)).
Proof.
  intros Hwf Hlim. unfold serialize. unfold within_limits in Hlim.
  destruct (encode_parts m) as [[id payload]|] eqn:Henc; last first.
  { destruct m; simpl in Henc; simplify_eq. done. }
  destruct Hlim as [Hlen Hbf]. unfold MAX_MESSAGE_LEN in Hlen.
  unfold protocol_read. rewrite <- !app_assoc.
  rewrite read_exact_app by (by rewrite length_be_bytes). cbn zeta.
  rewrite wrap32_small, of_be_bytes_u32 by ranges.
  rewrite (proj2 (Z.eqb_neq _ _)), (proj2 (Z.ltb_ge _ _)) by (unfold MAX_MESSAGE_LEN; lia).
  rewrite (read_exact_app 1 [id_code id]) by done. cbn [nth].
  rewrite Nat2Z.id. replace (length payload + 1 - 1)%nat with (length payload) by lia.
  assert (Hcond : (id_code id =? id_code MsgBitfield) &&
    match piece_count with
    | Some count => ((count + 7) / 8 <? length payload)%nat | None => false end = false).
  { destruct id; simpl; try done. destruct piece_count; [|done]. by apply Nat.ltb_ge. }
  rewrite Hcond, read_exact_app by done.
  rewrite <- (wrap32_small (Z.of_nat (length payload + 1))) by ranges.
  by rewrite (frame_from_parts_encode m) by (done || ranges).
Qed.

(** Read [n] frames in a row. *)
Fixpoint read_frames (n : nat) (piece_count : option nat) (stream : bytes)
  : option (result (list Frame * bytes) ProtocolError) :=
  match n with
  | O => Some (Ok ([], stream))
  | S n =>
      r ← protocol_read piece_count stream;
      match r with
      | Err e => Some (Err e)
      | Ok (f, rest) =>
          r' ← read_frames n piece_count rest;
          Some (match r' with Ok (fs, rest') => Ok (f :: fs, rest') | Err e => Err e end)
      end
  end.

(** ** Theorems *)

(** C40: a peer that writes any sequence of well-formed messages within the
    limits is read back message by message: the reader returns exactly their
    frames in order, consumes exactly their bytes and stays in sync with what
    follows. *)
Theorem stream_roundtrip piece_count (ms : list Message) rest :
  Forall (fun m => wf_message m /\ within_limits piece_count m) ms ->
  read_frames (length ms) piece_count (concat (map (fun m => serialize (Some m)) ms) ++ rest)
  = Some (Ok (map frame_of ms, rest)).
Proof.
  induction 1 as [|m ms [Hwf Hlim] _ IH]; [done|]. cbn [map concat length read_frames].
  rewrite <- app_assoc, protocol_read_serialize by done. red_bind. by rewrite IH.
Qed.

Lemma stream_roundtrip_witness :
  read_frames 3 (Some 9%nat)
    (concat (map (fun m => serialize (Some m)) [MBitfield [255; 128]; KeepAlive; Have 3]) ++ [1])
  = Some (Ok ([FMessage (MBitfield [255; 128]); FKeepAlive; FMessage (Have 3)], [1])).
Proof.
  apply (stream_roundtrip (Some 9%nat) [MBitfield [255; 128]; KeepAlive; Have 3] [1]).
  repeat constructor; vm_compute; try done; discriminate.
Defined.

(** No stream makes the reader panic or hold more than [MAX_MESSAGE_LEN]
    bytes of a frame: a length prefix above the limit, or a bitfield longer
    than the torrent's piece count needs, is refused before the body is read. *)
Theorem protocol_read_bounded piece_count stream :
  wf_bytes stream ->
  exists r, protocol_read piece_count stream = Some r /\
  match r with
  | Ok (FMessage m, _) =>
      forall id payload, encode_parts m = Some (id, payload) ->
        Z.of_nat (length payload) < MAX_MESSAGE_LEN /\
        (id = MsgBitfield -> forall count, piece_count = Some count ->
           (length payload <= (count + 7) / 8)%nat)
  | _ => True
  end.
Proof.
  intros Hwf. unfold protocol_read, read_exact.
  destruct (Nat.leb_spec 4 (length stream)) as [H4|]; [|by eexists].
  assert (Hwl : wf_bytes (take 4 stream)) by by apply Forall_take.
  assert (Hws : wf_bytes (drop 4 stream)) by by apply Forall_drop.
  pose proof (of_be_range _ Hwl) as Hlr.
  set (lb := take 4 stream) in *. set (s := drop 4 stream) in *. cbn zeta.
  destruct (Z.eqb_spec (of_be lb) 0) as [|Hne]; [by eexists|].
  destruct (Z.ltb_spec MAX_MESSAGE_LEN (of_be lb)) as [|Hmax]; [by eexists|].
  destruct s as [|id s]; [by eexists|]. cbn [length Nat.leb take drop nth].
  rewrite drop_0. destruct (_ && _) eqn:Hbf; [by eexists|].
  destruct (Nat.leb_spec (Z.to_nat (of_be lb) - 1) (length s)) as [Hlen|]; [|by eexists].
  set (body := take _ s). unfold frame_from_parts.
  inversion_clear Hws as [|? ? Hid Hs].
  assert (Hwb : wf_bytes (id :: body)) by (constructor; [done|by apply Forall_take]).
  destruct (read_total lb (id :: body) Hwl) as [r Hr]. rewrite Hr. red_bind.
  eexists; split; [done|]. destruct r as [m|[]]; try done.
  destruct (decide (m = KeepAlive)) as [->|Hka]; [done|].
  destruct (read_canonical _ _ _ _ Hwb Hr Hka) as (_ & mid & canon & Henc & Hcode & Hpre & Hlt).
  destruct m; try done; intros id' p' Henc'; simplify_eq;
    (split; [lia|]); intros -> count ->; apply andb_false_iff in Hbf as [Hbf|Hbf];
    try (by rewrite Z.eqb_refl in Hbf); apply Nat.ltb_ge in Hbf; lia.
Qed.

(** [decode_frame] never panics, and a message it returns is well formed
    and is what the buffer starts with: the four length bytes, the id byte and
    then the canonical payload of the message. *)
Theorem decode_frame_sound buf :
  wf_bytes buf ->
  exists r, decode_frame buf = Some r /\
  match r with
  | Ok (FMessage m) =>
      wf_message m /\
      exists id payload,
        encode_parts m = Some (id, payload) /\
        take 4 buf ++ [id_code id] ++ payload `prefix_of` buf
  | _ => True
  end.
Proof.
  intros Hwf. unfold decode_frame.
  destruct (Nat.ltb_spec (length buf) 4) as [|H4]; [by eexists|].
  assert (Hwl : wf_bytes (take 4 buf)) by by apply Forall_take.
  pose proof (of_be_range _ Hwl) as Hlr.
  rewrite slice_total by lia. red_bind. rewrite drop_0. cbn [Nat.sub]. cbn zeta.
  destruct (Z.eqb_spec (of_be (take 4 buf)) 0) as [|Hne]; [by eexists|].
  case_match; [by eexists|].
  destruct (Nat.ltb_spec (length buf) (4 + Z.to_nat (of_be (take 4 buf)))); [by eexists|].
  rewrite slice_total by lia. red_bind. replace (4 + _ - 4)%nat with
    (Z.to_nat (of_be (take 4 buf))) by lia.
  destruct (drop 4 buf) as [|id body] eqn:Ed.
  { apply (f_equal length) in Ed. rewrite length_drop in Ed. simpl in Ed. lia. }
  destruct (Z.to_nat (of_be (take 4 buf))) as [|n] eqn:En; [lia|]. cbn [take].
  unfold frame_from_parts.
  assert (Hwd : wf_bytes (id :: body)) by (rewrite <- Ed; by apply Forall_drop).
  destruct (read_total (take 4 buf) (id :: take n body) Hwl) as [r Hr].
  rewrite Hr. red_bind. eexists; split; [done|].
  destruct r as [m|[]]; try done.
  destruct (decide (m = KeepAlive)) as [->|Hka]; [done|].
  destruct (read_canonical (take 4 buf) id (take n body) m) as
    (Hwm & mid & canon & Henc & Hcode & Hpre & _); [|done..|].
  { inversion_clear Hwd. constructor; [done|]. by apply Forall_take. }
  assert (Hfin : wf_message m /\ exists id payload,
    encode_parts m = Some (id, payload) /\ take 4 buf ++ [id_code id] ++ payload `prefix_of` buf).
  { split; [done|]. exists mid, canon. split; [done|].
    rewrite <- (take_drop 4 buf) at 2. apply prefix_app. rewrite Ed, Hcode.
    apply prefix_cons. etrans; [done|]. apply prefix_take. }
  by destruct m.
Qed.

Lemma read_handshake_body_serialize h rest :
  wf_handshake h -> ascii_pstr h ->
  read_handshake_body (handshake_serialize h ++ rest) = Some (Ok (h, rest)).
Proof.
  intros Hwf [Hlen Hascii]. pose proof Hwf as [Hr Hi Hp _]. unfold MAX_PSTR_LEN in Hlen.
  unfold read_handshake_body, handshake_serialize. rewrite <- app_assoc.
  rewrite (read_exact_app 1 [_]) by done. cbn [nth].
  rewrite wrap8_small, Nat2Z.id by ranges.
  rewrite (proj2 (Nat.eqb_neq _ _)), (proj2 (Nat.ltb_ge _ _)) by (unfold MAX_PSTR_LEN; lia).
  rewrite read_exact_app by (rewrite !length_app; lia).
  rewrite <- (app_nil_r (peer_id h)), handshake_read_body by (done || lia). red_bind.
  rewrite utf8_lossy_ascii by done. by destruct h.
Qed.

(** Against a peer that sends a well-formed handshake, the exchange
    succeeds with that handshake exactly when both sides name the same torrent,
    and what we write announces our info hash with the fast extension and the
    extension protocol, and the DHT exactly when asked to. *)
Theorem complete_handshake_ok own_hash own_id advertise_dht h rest :
  wf_handshake h -> ascii_pstr h ->
  snd (complete_handshake own_hash own_id advertise_dht (handshake_serialize h ++ rest)) =
    Some (if bool_decide (info_hash h = own_hash)
          then Ok (h, rest) else Err InfoHashIsNotEqual) /\
  (length own_hash = 20%nat -> length own_id = 20%nat ->
   exists ours,
     handshake_from_bytes
       (fst (complete_handshake own_hash own_id advertise_dht (handshake_serialize h ++ rest)))
       = Some (Ok ours) /\
     info_hash ours = own_hash /\ peer_id ours = own_id /\
     capabilities ours = mkCaps true true advertise_dht).
Proof.
  intros Hwf Hp. unfold complete_handshake. cbn [fst snd]. split.
  - rewrite read_handshake_body_serialize by done. red_bind. by case_bool_decide.
  - intros Hh Hi.
    exists (if advertise_dht then enable_dht (outgoing own_hash own_id)
            else outgoing own_hash own_id).
    split; [|by destruct advertise_dht].
    rewrite <- (app_nil_r (handshake_serialize _)).
    apply handshake_from_bytes_serialize; destruct advertise_dht;
      split; try done; try (unfold MAX_PSTR_LEN; simpl; lia); repeat constructor; discriminate.
Qed.
