(* ===== verification/Bencode.v ===== *)
(** * The bencode scanners of crates/bit_rev/src/file.rs

    The nesting guard [check_bencode_depth] that runs before the serde decoder,
    the recursive [skip_bencode], the search for the raw [info] dictionary, and
    the re-encoding that keeps its bytes.  The main theorems: the guard really
    bounds the recursion, the scanners terminate, and re-encoding preserves the
    bytes the info hash covers. *)

From S2P Require Import Prelude.

Definition MAX_BENCODE_DEPTH : nat := 32.

Inductive BencodeError :=
| TooDeep | TruncatedString | InvalidLength | LengthOverflow | Truncated
| TruncatedInteger | TruncatedList | InvalidBencode | NotADict | MissingInfo.

(** ** Standard library: digits and [parse::<usize>] *)

Definition is_ascii_digit (b : u8) : bool := (48 <=? b) && (b <=? 57).

Fixpoint parse_digits (acc : Z) (s : bytes) : option usize :=
  match s with
  | [] => Some acc
  | b :: rest =>
      if is_ascii_digit b then
        let acc := acc * 10 + (b - 48) in
        if acc <=? U64_MAX then parse_digits acc rest else None
      else None
  end.

(** [str::from_utf8(s).ok().and_then(|s| s.parse::<usize>().ok())]: an optional
    plus sign and at least one digit; anything else, invalid UTF-8 included, is
    refused, and so is a value above [usize::MAX]. *)
Definition parse_usize (s : bytes) : option usize :=
  let digits := match s with b :: rest => if b =? 43 then rest else s | [] => [] end in
  match digits with [] => None | _ => parse_digits 0 digits end.

(** [while i < data.len() && p(data[i]) { i += 1 }]. *)
Fixpoint prefix_len (p : u8 -> bool) (l : bytes) : nat :=
  match l with
  | b :: rest => if p b then S (prefix_len p rest) else O
  | [] => O
  end.
Definition skip_while (p : u8 -> bool) (data : bytes) (i : nat) : nat :=
  (i + prefix_len p (drop i data))%nat.

(** ** The nesting guard

    The loop of [check_bencode_depth]; [None] only when the fuel runs out, which
    [depth_loop_total] excludes. *)

Fixpoint depth_loop (fuel : nat) (data : bytes) (i depth : nat)
  : option (result unit BencodeError) :=
  match fuel with
  | O => None
  | S fuel =>
      match data !! i with
      | None => Some (Ok ())
      | Some b =>
          if (b =? 100) || (b =? 108) then
            let depth := S depth in
            if (MAX_BENCODE_DEPTH <? depth)%nat then Some (Err TooDeep)
            else depth_loop fuel data (S i) depth
          else if b =? 101 then depth_loop fuel data (S i) (depth - 1)
          else if b =? 105 then
            let j := skip_while (fun b => negb (b =? 101)) data (S i) in
            depth_loop fuel data (if (j <? length data)%nat then S j else j) depth
          else if is_ascii_digit b then
            let j := skip_while is_ascii_digit data i in
            if decide (data !! j = Some 58) then
              let len := default 0 (parse_usize (seg i j data)) in
              depth_loop fuel data (Z.to_nat (sat_add U64_MAX (Z.of_nat j + 1) len)) depth
            else depth_loop fuel data j depth
          else depth_loop fuel data (S i) depth
      end
  end.

Definition check_bencode_depth (data : bytes) : option (result unit BencodeError) :=
  depth_loop (S (length data)) data 0 0.

(** ** Skipping values

    [data[i..]] is only taken with [i < data.len()]. *)

Definition parse_bencode_byte_string (data : bytes) (i : nat)
  : result (bytes * nat) BencodeError :=
  let! p := ok_or (position (Z.eqb 58) (drop i data)) TruncatedString in
  let colon := (i + p)%nat in
  let! len := ok_or (parse_usize (seg i colon data)) InvalidLength in
  let start := S colon in
  if U64_MAX <? Z.of_nat start + len then Err LengthOverflow
  else if Z.of_nat (length data) <? Z.of_nat start + len then Err TruncatedString
  else
    let stop := (start + Z.to_nat len)%nat in
    Ok (seg start stop data, stop).

(** The loop over the items of a list or dict. *)
Fixpoint skip_items (skip : nat -> option (result nat BencodeError)) (fuel : nat)
    (data : bytes) (j : nat) : option (result nat BencodeError) :=
  match fuel with
  | O => None
  | S fuel =>
      match data !! j with
      | None => Some (Err TruncatedList)
      | Some b =>
          if b =? 101 then Some (Ok (S j))
          else
            r ← skip j;
            match r with
            | Err e => Some (Err e)
            | Ok j' => skip_items skip fuel data j'
            end
      end
  end.

(** [stack] bounds the number of active calls; [None] is a call beyond it. *)
Fixpoint skip_bencode (stack : nat) (data : bytes) (i : nat)
  : option (result nat BencodeError) :=
  match stack with
  | O => None
  | S stack =>
      match data !! i with
      | None => Some (Err Truncated)
      | Some b =>
          if b =? 105 then
            Some (let! p := ok_or (position (Z.eqb 101) (drop (S i) data)) TruncatedInteger in
                  Ok (S (S i + p)))
          else if (b =? 108) || (b =? 100) then
            skip_items (skip_bencode stack data) (length data) data (S i)
          else if is_ascii_digit b then
            Some (let! (_, stop) := parse_bencode_byte_string data i in Ok stop)
          else Some (Err InvalidBencode)
      end
  end.

Definition INFO_KEY : bytes := [105; 110; 102; 111].

Fixpoint info_loop (fuel stack : nat) (data : bytes) (i : nat)
  : option (result (nat * nat) BencodeError) :=
  match fuel with
  | O => None
  | S fuel =>
      match data !! i with
      | None => Some (Err MissingInfo)
      | Some b =>
          if b =? 101 then Some (Err MissingInfo)
          else
            match parse_bencode_byte_string data i with
            | Err e => Some (Err e)
            | Ok (key, after_key) =>
                r ← skip_bencode stack data after_key;
                match r with
                | Err e => Some (Err e)
                | Ok value_end =>
                    if decide (key = INFO_KEY) then Some (Ok (after_key, value_end))
                    else info_loop fuel stack data value_end
                end
            end
      end
  end.

Definition info_dict_range (stack : nat) (data : bytes)
  : option (result (nat * nat) BencodeError) :=
  if decide (head data = Some 100) then info_loop (length data) stack data 1
  else Some (Err NotADict).

Definition raw_info_dict (stack : nat) (data : bytes) : option (result bytes BencodeError) :=
  r ← info_dict_range stack data;
  match r with
  | Err e => Some (Err e)
  | Ok (s, e) => b ← slice data s e; Some (Ok b)
  end.

Definition wrap_info_dict (info_bytes : bytes) : bytes :=
  [100; 52; 58; 105; 110; 102; 111] ++ info_bytes ++ [101].

(** [encoded] is what [ser::to_bytes(torrent_file)] gave. *)
Definition encode_torrent_preserving_info (stack : nat) (encoded : option bytes)
    (info_bytes : bytes) : option bytes :=
  match encoded with
  | None => Some (wrap_info_dict info_bytes)
  | Some encoded =>
      r ← info_dict_range stack encoded;
      match r with
      | Err _ => Some (wrap_info_dict info_bytes)
      | Ok (s, e) =>
          cur ← slice encoded s e;
          if decide (cur = info_bytes) then Some encoded
          else
            a ← slice encoded 0 s;
            b ← slice encoded e (length encoded);
            Some (a ++ info_bytes ++ b)
      end
  end.

(** ** Scanning lemmas *)

Lemma prefix_len_max p l n :
  (forall q, (q < n)%nat -> exists b, l !! q = Some b /\ p b = true) ->
  (forall b, l !! n = Some b -> p b = false) -> prefix_len p l = n.
Proof.
  revert n. induction l as [|b l IH]; intros n H1 H2.
  { destruct n; [done|]. destruct (H1 O) as (? & [=] & _). lia. }
  simpl. destruct n as [|n].
  - by rewrite (H2 b).
  - destruct (H1 O) as (? & [= <-] & ->); [lia|]. f_equal. apply IH.
    + intros q Hq. apply (H1 (S q)). lia.
    + apply H2.
Qed.

Lemma prefix_len_le p l : (prefix_len p l <= length l)%nat.
Proof. induction l as [|b l IH]; simpl; [lia|]. destruct (p b); simpl; lia. Qed.

Lemma skip_while_ge p data i : (i <= skip_while p data i)%nat.
Proof. unfold skip_while. lia. Qed.

Lemma parse_digits_all acc s v : parse_digits acc s = Some v -> Forall (fun b => is_ascii_digit b = true) s.
Proof.
  revert acc. induction s as [|b s IH]; intros acc; simpl; [constructor|].
  destruct (is_ascii_digit b) eqn:E; [|done]. case_cmp; [|done].
  intros Hd%IH. by constructor.
Qed.

(** A parsed length is an optional plus sign and a run of digits. *)
Lemma parse_usize_shape s v :
  parse_usize s = Some v ->
  exists digits, digits <> [] /\ Forall (fun b => is_ascii_digit b = true) digits /\
                 parse_digits 0 digits = Some v /\ (s = digits \/ s = 43 :: digits).
Proof.
  unfold parse_usize. destruct s as [|b s]; [done|].
  destruct (Z.eqb_spec b 43) as [->|].
  - destruct s as [|c s]; [done|]. intros H. exists (c :: s).
    split; [done|]. split; [by eapply parse_digits_all|]. auto.
  - intros H. exists (b :: s). split; [done|]. split; [by eapply parse_digits_all|]. auto.
Qed.

Lemma parse_digits_nonneg acc s v : 0 <= acc -> parse_digits acc s = Some v -> 0 <= v.
Proof.
  revert acc. induction s as [|b s IH]; intros acc Hacc; simpl; [by intros [= <-]|].
  destruct (is_ascii_digit b) eqn:E; [|done]. unfold is_ascii_digit in E.
  case_cmp; [|done]. apply IH. lia.
Qed.

Lemma parse_usize_nonneg s v : parse_usize s = Some v -> 0 <= v.
Proof. intros (ds & _ & _ & H & _)%parse_usize_shape. by eapply parse_digits_nonneg in H. Qed.

(** What a successful string parse says about the bytes. *)
Lemma parse_string_spec data i s stop :
  parse_bencode_byte_string data i = Ok (s, stop) ->
  exists colon len,
    (i < colon)%nat /\ data !! colon = Some 58 /\
    (forall q b, (i <= q < colon)%nat -> data !! q = Some b -> b <> 58) /\
    parse_usize (seg i colon data) = Some len /\ 0 <= len /\
    Z.of_nat (S colon) + len <= U64_MAX /\
    stop = (S colon + Z.to_nat len)%nat /\ (stop <= length data)%nat /\
    s = seg (S colon) stop data.
Proof.
  unfold parse_bencode_byte_string. destruct (position _ _) as [p|] eqn:Ep; [|done].
  cbn [ok_or]. destruct (parse_usize _) as [len|] eqn:El; [|done]. cbn [ok_or].
  case_cmp; [done|]. case_cmp; [done|]. intros [= <- <-].
  pose proof (parse_usize_nonneg _ _ El).
  apply position_Some in Ep as [(b & Hb & Eb) Hq]. rewrite lookup_drop in Hb.
  assert (b = 58) as -> by lia.
  exists (i + p)%nat, len. split_and!; try (done || lia).
  - destruct p; [|lia]. rewrite Nat.add_0_r, seg_empty in El by lia. done.
  - intros q c Hqr Hc ->. specialize (Hq (q - i)%nat 58). rewrite lookup_drop in Hq.
    replace (i + (q - i))%nat with q in Hq by lia. destruct (58 =? 58) eqn:E; [|lia].
    assert (true = false) by (apply Hq; [lia|done]). done.
Qed.

Lemma parse_string_intro data i colon len :
  (i < colon)%nat -> data !! colon = Some 58 ->
  (forall q b, (i <= q < colon)%nat -> data !! q = Some b -> b <> 58) ->
  parse_usize (seg i colon data) = Some len -> 0 <= len ->
  Z.of_nat (S colon) + len <= U64_MAX -> (S colon + Z.to_nat len <= length data)%nat ->
  parse_bencode_byte_string data i =
  Ok (seg (S colon) (S colon + Z.to_nat len) data, (S colon + Z.to_nat len)%nat).
Proof.
  intros Hi Hc Hq Hl Hl0 Hm Hlen. unfold parse_bencode_byte_string.
  rewrite (proj2 (position_Some (Z.eqb 58) (drop i data) (colon - i)%nat)).
  - cbn [ok_or]. replace (i + (colon - i))%nat with colon by lia. rewrite Hl. cbn [ok_or].
    by rewrite !(proj2 (Z.ltb_ge _ _)) by lia.
  - split.
    + exists 58. rewrite lookup_drop. by replace (i + (colon - i))%nat with colon by lia.
    + intros q b Hlt Hb. rewrite lookup_drop in Hb. specialize (Hq (i + q)%nat b).
      destruct (Z.eqb_spec 58 b) as [<-|]; [|done]. exfalso. apply Hq; [lia|done|done].
Qed.

Lemma parse_string_progress data i s stop :
  parse_bencode_byte_string data i = Ok (s, stop) -> (i < stop <= length data)%nat.
Proof. intros (colon & len & ? & _ & _ & _ & _ & _ & -> & ? & _)%parse_string_spec. lia. Qed.

(** ** The guard follows the skipper *)

(** Scanning from [(i, k)] accepts. *)
Definition guard_ok (data : bytes) (i k : nat) : Prop :=
  exists fuel, depth_loop fuel data i k = Some (Ok ()).

(** One step of the guard, by the byte at [i]. *)
Ltac guard_step H :=
  let f := fresh "f" in
  destruct H as [[|f] H]; [done|]; cbn [depth_loop] in H.

Lemma guard_open data i k b :
  guard_ok data i k -> data !! i = Some b -> (b =? 108) || (b =? 100) = true ->
  guard_ok data (S i) (S k) /\ (S k <= MAX_BENCODE_DEPTH)%nat.
Proof.
  intros H Hb Eb. guard_step H. rewrite Hb, orb_comm, Eb in H.
  destruct (Nat.ltb_spec MAX_BENCODE_DEPTH (S k)); [done|]. split; [by eexists|lia].
Qed.

Lemma guard_close data i k : guard_ok data i (S k) -> data !! i = Some 101 -> guard_ok data (S i) k.
Proof.
  intros H Hb. guard_step H. rewrite Hb in H. simpl in H. rewrite Nat.sub_0_r in H. by eexists.
Qed.

(** The step of the guard over an integer, and over a string: it lands behind it. *)
Lemma depth_loop_int f data i k p :
  data !! i = Some 105 -> position (Z.eqb 101) (drop (S i) data) = Some p ->
  depth_loop (S f) data i k = depth_loop f data (S (S i + p)) k.
Proof.
  intros Hb [(b & Hl & Eb) Hq]%position_Some. cbn [depth_loop]. rewrite Hb.
  cbn [orb Z.eqb Pos.eqb]. unfold skip_while.
  rewrite (prefix_len_max _ _ p).
  - rewrite lookup_drop in Hl. pose proof (lookup_lt_Some _ _ _ Hl).
    by rewrite (proj2 (Nat.ltb_lt _ _)) by lia.
  - intros q Hlt. assert (is_Some (drop (S i) data !! q)) as [c Hc].
    { apply lookup_lt_is_Some. apply lookup_lt_Some in Hl. lia. }
    exists c. split; [done|]. rewrite Z.eqb_sym, (Hq q c) by done. done.
  - intros c Hc. rewrite Hl in Hc. injection Hc as ->. by rewrite Z.eqb_sym, Eb.
Qed.

Lemma depth_loop_digits f data i k colon len :
  (i < colon)%nat -> data !! colon = Some 58 ->
  Forall (fun b => is_ascii_digit b = true) (seg i colon data) ->
  parse_digits 0 (seg i colon data) = Some len -> Z.of_nat (S colon) + len <= U64_MAX ->
  depth_loop (S f) data i k = depth_loop f data (S colon + Z.to_nat len) k.
Proof.
  intros Hi Hc Hd Hl Hm.
  pose proof (lookup_lt_Some _ _ _ Hc) as Hlen.
  assert (Hat : forall q, (q < colon - i)%nat ->
    exists b, drop i data !! q = Some b /\ is_ascii_digit b = true).
  { intros q Hq. destruct (lookup_lt_is_Some_2 data (i + q)%nat) as [b Hb]; [lia|].
    exists b. rewrite lookup_drop. split; [done|]. rewrite Forall_lookup in Hd.
    apply (Hd q). unfold seg. by rewrite lookup_take_lt, lookup_drop by done. }
  assert (Hskip : skip_while is_ascii_digit data i = colon).
  { unfold skip_while. rewrite (prefix_len_max _ _ (colon - i)); [lia|done|].
    intros b. rewrite lookup_drop. replace (i + (colon - i))%nat with colon by lia.
    rewrite Hc. by intros [= <-]. }
  destruct (Hat O) as (b & Hb & Eb); [lia|]. rewrite lookup_drop, Nat.add_0_r in Hb.
  assert (Hpu : parse_usize (seg i colon data) = Some len).
  { destruct (seg i colon data) as [|c rest] eqn:Es; [by rewrite <- length_zero_iff_nil, length_seg in Es; lia|].
    unfold parse_usize. apply Forall_cons in Hd as [Hcd _]. unfold is_ascii_digit in Hcd.
    by rewrite (proj2 (Z.eqb_neq _ _)) by lia. }
  cbn [depth_loop]. rewrite Hb, Hskip, Eb, Hpu, (decide_True _ _ Hc).
  unfold is_ascii_digit in Eb. rewrite !(proj2 (Z.eqb_neq b _)) by lia.
  cbn [orb default id]. pose proof (parse_usize_nonneg _ _ Hpu).
  unfold sat_add. f_equal. lia.
Qed.

Lemma guard_int data i k p :
  data !! i = Some 105 -> position (Z.eqb 101) (drop (S i) data) = Some p ->
  guard_ok data i k <-> guard_ok data (S (S i + p)) k.
Proof.
  intros Hb Hp. split; intros [f H].
  - destruct f as [|f]; [done|]. exists f. by rewrite (depth_loop_int f) with (p := p) in H.
  - exists (S f). by rewrite (depth_loop_int f) with (p := p).
Qed.

(** From a run of digits up to a colon the guard jumps over the string. *)
Lemma guard_digits data i k colon len :
  (i < colon)%nat -> data !! colon = Some 58 ->
  Forall (fun b => is_ascii_digit b = true) (seg i colon data) ->
  parse_digits 0 (seg i colon data) = Some len -> Z.of_nat (S colon) + len <= U64_MAX ->
  guard_ok data i k <-> guard_ok data (S colon + Z.to_nat len) k.
Proof.
  intros Hi Hc Hd Hl Hm. split; intros [f H].
  - destruct f as [|f]; [done|]. exists f. by rewrite (depth_loop_digits f _ _ _ colon len) in H.
  - exists (S f). by rewrite (depth_loop_digits f _ _ _ colon len).
Qed.

Lemma guard_string data i k s stop :
  parse_bencode_byte_string data i = Ok (s, stop) -> guard_ok data i k <-> guard_ok data stop k.
Proof.
  intros (colon & len & Hi & Hc & Hq & Hl & Hl0 & Hm & -> & Hend & _)%parse_string_spec.
  apply parse_usize_shape in Hl as (ds & Hne & Hd & Hp & [E|E]).
  - rewrite <- E in *. by apply guard_digits.
  - assert (Hseg : seg (S i) colon data = ds).
    { unfold seg in *. replace (colon - i)%nat with (S (colon - S i)) in E by lia.
      destruct (drop i data) as [|x r] eqn:Ed; [done|]. simpl in E. injection E as -> <-.
      by rewrite <- Nat.add_1_r, <- drop_drop, Ed. }
    assert (Hb : data !! i = Some 43).
    { unfold seg in E. replace (colon - i)%nat with (S (colon - S i)) in E by lia.
      destruct (drop i data) as [|x r] eqn:Ed; [done|]. simpl in E. injection E as -> _.
      rewrite <- (Nat.add_0_r i), <- lookup_drop, Ed. done. }
    rewrite <- (guard_digits data (S i) k colon len); try by rewrite ?Hseg.
    + split; [intros H; guard_step H; rewrite Hb in H; simpl in H; by eexists|].
      intros [f H]. exists (S f). cbn [depth_loop]. by rewrite Hb.
    + destruct (decide (S i = colon)) as [<-|]; [by rewrite seg_empty in Hseg by lia; subst|lia].
Qed.

(** ** Progress, termination and the depth bound *)

Lemma skip_items_progress skip fuel data j j' :
  (forall x y, skip x = Some (Ok y) -> (x < y <= length data)%nat) ->
  skip_items skip fuel data j = Some (Ok j') -> (j < j' <= length data)%nat.
Proof.
  intros Hskip. revert j. induction fuel as [|fuel IH]; intros j; [done|]. cbn [skip_items].
  destruct (data !! j) as [b|] eqn:Eb; [|done]. apply lookup_lt_Some in Eb.
  case_cmp; [intros [= <-]; lia|].
  destruct (skip j) as [[x|]|] eqn:Es; cbn [mbind option_bind]; try done.
  apply Hskip in Es. intros ?%IH. lia.
Qed.

Lemma skip_progress stack data i j :
  skip_bencode stack data i = Some (Ok j) -> (i < j <= length data)%nat.
Proof.
  revert i j. induction stack as [|stack IH]; intros i j; [done|]. cbn [skip_bencode].
  destruct (data !! i) as [b|] eqn:Eb; [|done].
  destruct (b =? 105).
  { destruct (position _ _) as [p|] eqn:Ep; [|done]. cbn [ok_or]. intros [= <-].
    apply position_Some in Ep as [(c & Hc & _) _]. rewrite lookup_drop in Hc.
    apply lookup_lt_Some in Hc. lia. }
  destruct (_ || _); [intros H; apply skip_items_progress in H; [lia|apply IH]|].
  destruct (is_ascii_digit b); [|done].
  destruct (parse_bencode_byte_string data i) as [[s stop]|] eqn:Ep; [|done].
  apply parse_string_progress in Ep. by intros [= <-].
Qed.

(** A loop over items returns when every call it can make does. *)
Lemma skip_items_total (Inv : nat -> Prop) skip fuel data j :
  (forall x y, skip x = Some (Ok y) -> (x < y <= length data)%nat) ->
  (forall x, Inv x -> (x < length data)%nat -> is_Some (skip x)) ->
  (forall x y, Inv x -> skip x = Some (Ok y) -> Inv y) ->
  Inv j -> (length data < fuel + j)%nat -> (0 < fuel)%nat ->
  is_Some (skip_items skip fuel data j).
Proof.
  intros Hpr Htot Hinv. revert j. induction fuel as [|fuel IH]; intros j Hj Hf Hpos; [lia|].
  cbn [skip_items]. destruct (data !! j) as [b|] eqn:Eb; [|by eexists].
  apply lookup_lt_Some in Eb. case_cmp; [by eexists|].
  destruct (Htot j Hj Eb) as [r Er]. rewrite Er. cbn [mbind option_bind].
  destruct r as [j'|]; [|by eexists]. pose proof (Hpr _ _ Er). apply IH; [by eapply Hinv|lia|].
  destruct fuel; lia.
Qed.

(** Without any guard the recursion still ends: a stack of the length of the
    data is enough. *)
Lemma skip_total stack data i :
  (length data <= stack + i)%nat -> (0 < stack)%nat -> is_Some (skip_bencode stack data i).
Proof.
  revert i. induction stack as [|stack IH]; intros i Hs Hpos; [lia|]. cbn [skip_bencode].
  destruct (data !! i) as [b|] eqn:Eb; [|by eexists]. apply lookup_lt_Some in Eb.
  destruct (b =? 105); [by eexists|].
  destruct (_ || _); [|by destruct (is_ascii_digit b); eexists].
  apply (skip_items_total (fun x => i < x)%nat); [apply skip_progress| | |lia|lia|lia].
  - intros x Hx Hlt. apply IH; lia.
  - intros x y Hx Hy. apply skip_progress in Hy. lia.
Qed.

Lemma guard_items skip fuel data j j' k :
  (forall x y k, guard_ok data x k -> skip x = Some (Ok y) -> guard_ok data y k) ->
  guard_ok data j (S k) -> skip_items skip fuel data j = Some (Ok j') -> guard_ok data j' k.
Proof.
  intros Hskip. revert j. induction fuel as [|fuel IH]; intros j Hg; [done|]. cbn [skip_items].
  destruct (data !! j) as [b|] eqn:Eb; [|done].
  destruct (Z.eqb_spec b 101) as [->|]; [intros [= <-]; by apply guard_close|].
  destruct (skip j) as [[x|]|] eqn:Es; cbn [mbind option_bind]; try done.
  apply IH. by eapply Hskip.
Qed.

Lemma guard_skip stack data i j k :
  guard_ok data i k -> skip_bencode stack data i = Some (Ok j) -> guard_ok data j k.
Proof.
  revert i j k. induction stack as [|stack IH]; intros i j k Hg; [done|]. cbn [skip_bencode].
  destruct (data !! i) as [b|] eqn:Eb; [|done].
  destruct (Z.eqb_spec b 105) as [->|].
  { destruct (position _ _) as [p|] eqn:Ep; [|done]. cbn [ok_or]. intros [= <-].
    by apply (guard_int _ _ _ _ Eb Ep). }
  destruct (_ || _) eqn:Eo.
  { destruct (guard_open _ _ _ _ Hg Eb Eo) as [Hg' _]. apply guard_items; [|done].
    intros. by eapply IH. }
  destruct (is_ascii_digit b); [|done].
  destruct (parse_bencode_byte_string data i) as [[s stop]|] eqn:Ep; [|done].
  intros [= <-]. by apply (guard_string _ _ _ _ _ Ep).
Qed.

(** Conversely, where a skip with few frames gets through, the guard does. *)
Lemma guard_items_back skip fuel data j j' k :
  (forall x y, guard_ok data y (S k) -> skip x = Some (Ok y) -> guard_ok data x (S k)) ->
  guard_ok data j' k -> skip_items skip fuel data j = Some (Ok j') -> guard_ok data j (S k).
Proof.
  intros Hskip Hg. revert j. induction fuel as [|fuel IH]; intros j; [done|]. cbn [skip_items].
  destruct (data !! j) as [b|] eqn:Eb; [|done].
  destruct (Z.eqb_spec b 101) as [->|].
  { intros [= <-]. destruct Hg as [f Hf]. exists (S f). cbn [depth_loop]. rewrite Eb. cbn.
    by rewrite Nat.sub_0_r. }
  destruct (skip j) as [[x|]|] eqn:Es; cbn [mbind option_bind]; try done.
  intros H%IH. by eapply Hskip.
Qed.

Lemma guard_skip_back stack data i j k :
  (stack + k <= MAX_BENCODE_DEPTH)%nat ->
  guard_ok data j k -> skip_bencode stack data i = Some (Ok j) -> guard_ok data i k.
Proof.
  revert i j k. induction stack as [|stack IH]; intros i j k Hk Hg; [done|]. cbn [skip_bencode].
  destruct (data !! i) as [b|] eqn:Eb; [|done].
  destruct (Z.eqb_spec b 105) as [->|].
  { destruct (position _ _) as [p|] eqn:Ep; [|done]. cbn [ok_or]. intros [= <-].
    by apply (guard_int _ _ _ _ Eb Ep). }
  destruct (_ || _) eqn:Eo.
  { intros Hs.
    assert (Hg' : guard_ok data (S i) (S k)).
    { eapply guard_items_back; [|exact Hg|exact Hs]. intros x y Hy Hx. eapply IH; [|exact Hy|exact Hx]. lia. }
    destruct Hg' as [f Hf]. exists (S f). cbn [depth_loop]. rewrite Eb, orb_comm, Eo.
    by rewrite (proj2 (Nat.ltb_ge _ _)) by lia. }
  destruct (is_ascii_digit b); [|done].
  destruct (parse_bencode_byte_string data i) as [[s stop]|] eqn:Ep; [|done].
  intros [= <-]. by apply (guard_string _ _ _ _ _ Ep).
Qed.

(** Where the guard stands at depth [k], the skipper needs at most
    [33 - k] frames. *)
Lemma skip_bounded stack data i k :
  guard_ok data i k -> (k <= MAX_BENCODE_DEPTH)%nat ->
  (MAX_BENCODE_DEPTH < stack + k)%nat -> is_Some (skip_bencode stack data i).
Proof.
  revert i k. induction stack as [|stack IH]; intros i k Hg Hk Hs; [lia|]. cbn [skip_bencode].
  destruct (data !! i) as [b|] eqn:Eb; [|by eexists].
  destruct (b =? 105); [by eexists|].
  destruct (_ || _) eqn:Eo; [|by destruct (is_ascii_digit b); eexists].
  destruct (guard_open _ _ _ _ Hg Eb Eo) as [Hg' Hk']. apply lookup_lt_Some in Eb.
  apply (skip_items_total (fun x => guard_ok data x (S k) /\ i < x)%nat);
    [apply skip_progress| | |split; [done|lia]|lia|lia].
  - intros x [Hx _] _. apply (IH _ (S k)); [done|lia|lia].
  - intros x y [Hx Hlt] Hy. pose proof (skip_progress _ _ _ _ Hy). split; [|lia].
    by eapply guard_skip.
Qed.

(** The dictionary loop returns when every call it makes does. *)
Lemma info_loop_total (Inv : nat -> Prop) fuel stack data i :
  (forall x, Inv x -> is_Some (skip_bencode stack data x)) ->
  (forall x s y, Inv x -> parse_bencode_byte_string data x = Ok (s, y) -> Inv y) ->
  (forall x y, Inv x -> skip_bencode stack data x = Some (Ok y) -> Inv y) ->
  Inv i -> (length data < fuel + i)%nat -> (0 < fuel)%nat ->
  is_Some (info_loop fuel stack data i).
Proof.
  intros Htot Hstr Hskip. revert i. induction fuel as [|fuel IH]; intros i Hi Hf Hpos; [lia|].
  cbn [info_loop]. destruct (data !! i) as [b|] eqn:Eb; [|by eexists].
  apply lookup_lt_Some in Eb. case_cmp; [by eexists|].
  destruct (parse_bencode_byte_string data i) as [[key ak]|] eqn:Ep; [|by eexists].
  pose proof (Hstr _ _ _ Hi Ep) as Hak. apply parse_string_progress in Ep.
  destruct (Htot _ Hak) as [r Er]. rewrite Er. cbn [mbind option_bind].
  destruct r as [ve|]; [|by eexists]. destruct (decide _); [by eexists|].
  pose proof (skip_progress _ _ _ _ Er). apply IH; [by eapply Hskip|lia|destruct fuel; lia].
Qed.

Lemma head_lookup {A} (l : list A) : head l = l !! 0%nat.
Proof. by destruct l. Qed.

(** The nesting guard bounds the scanner's stack: on any input
    [check_bencode_depth] accepts, the search for the info dictionary returns (a
    range or an error) with at most 32 nested calls of [skip_bencode], however
    long the input is. *)
Theorem depth_guard_bounds_stack data :
  check_bencode_depth data = Some (Ok ()) -> is_Some (info_dict_range 32 data).
Proof.
  intros H. unfold info_dict_range. destruct (decide _) as [Hh|]; [|by eexists].
  rewrite head_lookup in Hh.
  assert (Hg : guard_ok data 0 0) by by eexists.
  destruct (guard_open _ _ _ _ Hg Hh eq_refl) as [Hg1 _]. apply lookup_lt_Some in Hh.
  apply (info_loop_total (fun x => guard_ok data x 1)); [| | |done|lia|lia].
  - intros x Hx. by apply (skip_bounded _ _ _ 1); unfold MAX_BENCODE_DEPTH; [|lia|lia].
  - intros x s y Hx Hy. by apply (guard_string _ _ _ _ _ Hy).
  - intros x y Hx Hy. by eapply guard_skip.
Qed.

Lemma depth_loop_total data fuel i k :
  Z.of_nat (length data) <= U64_MAX -> (length data < fuel + i)%nat -> (0 < fuel)%nat ->
  is_Some (depth_loop fuel data i k).
Proof.
  intros Hlen. revert i k. induction fuel as [|fuel IH]; intros i k Hf Hpos; [lia|].
  cbn [depth_loop]. destruct (data !! i) as [b|] eqn:Eb; [|by eexists].
  pose proof (lookup_lt_Some _ _ _ Eb).
  assert (Hnext : forall j k, (i < j)%nat -> is_Some (depth_loop fuel data j k)).
  { intros j k' Hj. apply IH; [lia|destruct fuel; lia]. }
  destruct (_ || _); [case_match; [by eexists|apply Hnext; lia]|].
  destruct (b =? 101); [apply Hnext; lia|]. destruct (b =? 105).
  { apply Hnext. pose proof (skip_while_ge (fun b => negb (b =? 101)) data (S i)).
    case_match; lia. }
  destruct (is_ascii_digit b) eqn:Ed; [|apply Hnext; lia].
  pose proof (skip_while_ge is_ascii_digit data i). destruct (decide _).
  - apply Hnext. assert (0 <= default 0 (parse_usize (seg i (skip_while is_ascii_digit data i) data))).
    { destruct (parse_usize _) eqn:E; [by apply parse_usize_nonneg in E|simpl; lia]. }
    ranges.
  - apply Hnext. unfold skip_while. rewrite (drop_S _ _ _ Eb). simpl. rewrite Ed. lia.
Qed.

(** ** The guard does not look back *)

Lemma skip_while_shift p (pre d : bytes) i :
  skip_while p (pre ++ d) (length pre + i) = (length pre + skip_while p d i)%nat.
Proof. unfold skip_while. rewrite drop_app_add. lia. Qed.

Lemma depth_loop_shift pre d fuel i i' k :
  Z.of_nat (length (pre ++ d)) <= U64_MAX ->
  (i = length pre + i' \/ length (pre ++ d) <= i /\ length d <= i')%nat ->
  depth_loop fuel (pre ++ d) i k = depth_loop fuel d i' k.
Proof.
  intros Hl. revert i i' k. induction fuel as [|fuel IH]; intros i i' k Hi; [done|]. cbn [depth_loop].
  destruct Hi as [->|[H1 H2]]; [|by rewrite !lookup_ge_None_2].
  rewrite lookup_app_r by lia. replace (length pre + i' - length pre)%nat with i' by lia.
  destruct (d !! i') as [b|] eqn:Eb; [|done]. pose proof (lookup_lt_Some _ _ _ Eb) as Hb.
  assert (Hnext : forall j j' k, (j = length pre + j')%nat -> depth_loop fuel (pre ++ d) j k = depth_loop fuel d j' k).
  { intros j j' k' ->. apply IH. by left. }
  destruct (_ || _); [case_match; [done|]; apply Hnext; lia|].
  destruct (b =? 101); [apply Hnext; lia|]. destruct (b =? 105).
  { rewrite <- Nat.add_succ_r, skip_while_shift, length_app.
    destruct (Nat.ltb_spec (skip_while (fun b => negb (b =? 101)) d (S i')) (length d));
      [rewrite (proj2 (Nat.ltb_lt _ _)) by lia|rewrite (proj2 (Nat.ltb_ge _ _)) by lia]; apply Hnext; lia. }
  destruct (is_ascii_digit b); [|apply Hnext; lia]. rewrite skip_while_shift.
  set (j := skip_while is_ascii_digit d i').
  assert (Hlk : (pre ++ d) !! (length pre + j)%nat = d !! j).
  { rewrite lookup_app_r by lia. f_equal. lia. }
  rewrite Hlk. destruct (decide (d !! j = Some 58)) as [Hc|]; [|by apply Hnext].
  apply lookup_lt_Some in Hc.
  assert (seg (length pre + i') (length pre + j) (pre ++ d) = seg i' j d) as ->.
  { unfold seg. rewrite drop_app_add. f_equal. lia. }
  set (len := default 0 (parse_usize (seg i' j d))).
  assert (Hlen : 0 <= len).
  { subst len. destruct (parse_usize _) as [v|] eqn:E; [by apply parse_usize_nonneg in E|done]. }
  rewrite length_app in Hl. unfold sat_add. apply IH. rewrite length_app.
  destruct (Z.le_gt_cases (Z.of_nat (length pre + j) + 1 + len) U64_MAX); [left|right]; lia.
Qed.

Lemma guard_shift pre d k :
  Z.of_nat (length (pre ++ d)) <= U64_MAX -> guard_ok (pre ++ d) (length pre) k <-> guard_ok d 0 k.
Proof.
  intros Hl. unfold guard_ok. split; intros [f H]; exists f;
    [rewrite (depth_loop_shift pre d f (length pre) 0) in H|rewrite (depth_loop_shift pre d f (length pre) 0)];
    first [done|left; lia].
Qed.

Lemma depth_loop_det f f' data i k r r' :
  depth_loop f data i k = Some r -> depth_loop f' data i k = Some r' -> r = r'.
Proof.
  revert f' i k. induction f as [|f IH]; intros [|f'] i k; try done. cbn [depth_loop].
  repeat case_match; try congruence; eauto.
Qed.

(** The verdict is the guard's. *)
Lemma check_guard data :
  Z.of_nat (length data) <= U64_MAX ->
  exists r, check_bencode_depth data = Some r /\ (is_ok r = true <-> guard_ok data 0 0).
Proof.
  intros Hl. destruct (depth_loop_total data (S (length data)) 0 0) as [r Er]; [done|lia|lia|].
  exists r. split; [done|]. split.
  - destruct r as [[]|]; [|done]. intros _. by eexists.
  - intros [f H]. by rewrite (depth_loop_det _ _ _ _ _ _ _ Er H).
Qed.

Lemma info_dict_range_total stack data :
  (length data <= stack + 1)%nat -> (0 < stack)%nat -> is_Some (info_dict_range stack data).
Proof.
  intros Hs Hpos. unfold info_dict_range. destruct (decide _) as [Hh|]; [|by eexists].
  rewrite head_lookup in Hh. apply lookup_lt_Some in Hh.
  apply (info_loop_total (fun x => 1 <= x)%nat); [| | |lia|lia|lia].
  - intros x Hx. apply skip_total; lia.
  - intros x s y Hx Hy. apply parse_string_progress in Hy. lia.
  - intros x y Hx Hy. apply skip_progress in Hy. lia.
Qed.

(** Every scan terminates, on hostile input too: the guard always returns a
    verdict within its fuel, and the search for the info dictionary returns with
    a stack no deeper than the input is long. (A byte slice is at most
    [usize::MAX] long.) *)
Theorem bencode_scans_terminate data :
  Z.of_nat (length data) <= U64_MAX ->
  is_Some (check_bencode_depth data) /\ is_Some (info_dict_range (length data) data).
Proof.
  intros Hlen. split.
  - apply depth_loop_total; lia.
  - destruct data as [|b data]; [by eexists|]. apply info_dict_range_total; simpl; lia.
Qed.

(** ** Locality: a scan reads only the value it skips *)

(** [n] bytes of [data] at [i] are those of [data'] at [i']. *)
Definition agree (data : bytes) (i : nat) (data' : bytes) (i' n : nat) : Prop :=
  (i' + n <= length data')%nat /\ forall x, (x < n)%nat -> data !! (i + x)%nat = data' !! (i' + x)%nat.

Lemma agree_sub data i data' i' n a m :
  agree data i data' i' n -> (a + m <= n)%nat -> agree data (i + a) data' (i' + a) m.
Proof.
  intros [Hl H] Hm. split; [lia|]. intros x Hx. rewrite <- !Nat.add_assoc. apply H. lia.
Qed.

Lemma agree_at data i data' i' n x :
  agree data i data' i' n -> (i <= x < i + n)%nat -> data' !! (i' + (x - i))%nat = data !! x.
Proof.
  intros [_ H] Hx. rewrite <- (H (x - i)%nat) by lia. f_equal. lia.
Qed.

Lemma agree_seg data i data' i' n a b :
  agree data i data' i' n -> (i <= a)%nat -> (b <= i + n)%nat ->
  seg (i' + (a - i)) (i' + (b - i)) data' = seg a b data.
Proof.
  intros H Ha Hb. apply list_eq. intros x. unfold seg.
  destruct (decide (x < b - a)%nat).
  - rewrite !lookup_take_lt, !lookup_drop by lia.
    rewrite <- (agree_at data i data' i' n (a + x)) by (done || lia). f_equal. lia.
  - rewrite !lookup_ge_None_2; [done|rewrite length_take; lia|rewrite length_take; lia].
Qed.

Section Locality.
Context (data data' : bytes) (Hmax : Z.of_nat (length data') <= U64_MAX).

Lemma parse_string_ext i i' s stop :
  parse_bencode_byte_string data i = Ok (s, stop) -> agree data i data' i' (stop - i) ->
  parse_bencode_byte_string data' i' = Ok (s, (i' + (stop - i))%nat).
Proof using Hmax.
  intros (colon & len & Hi & Hc & Hq & Hl & Hl0 & Hm & -> & Hend & ->)%parse_string_spec Hag.
  pose proof Hag as [Hlen _].
  rewrite (parse_string_intro data' i' (i' + (colon - i)) len); try lia.
  - replace (S (i' + (colon - i)))%nat with (i' + (S colon - i))%nat by lia.
    replace (i' + (S colon - i) + Z.to_nat len)%nat
      with (i' + (S colon + Z.to_nat len - i))%nat by lia.
    by rewrite (agree_seg _ _ _ _ _ (S colon) (S colon + Z.to_nat len) Hag) by lia.
  - by rewrite (agree_at _ _ _ _ _ colon Hag) by lia.
  - intros q b Hqr Hb. apply (Hq (i + (q - i'))%nat b); [lia|].
    rewrite <- (agree_at _ _ _ _ _ (i + (q - i'))%nat Hag) by lia. rewrite <- Hb. f_equal. lia.
  - rewrite <- Hl. f_equal.
    rewrite <- (agree_seg _ _ _ _ _ i colon Hag) by lia. f_equal. lia.
Qed.

Lemma skip_items_ext skip skip' fuel fuel' j j' stop :
  (forall x y, skip x = Some (Ok y) -> (x < y <= length data)%nat) ->
  (forall x x' y, skip x = Some (Ok y) -> agree data x data' x' (y - x) ->
     skip' x' = Some (Ok (x' + (y - x))%nat)) ->
  skip_items skip fuel data j = Some (Ok stop) -> agree data j data' j' (stop - j) ->
  (stop - j <= fuel')%nat -> skip_items skip' fuel' data' j' = Some (Ok (j' + (stop - j))%nat).
Proof using.
  intros Hpr Hskip. revert j j' fuel'.
  induction fuel as [|fuel IH]; intros j j' fuel' H Hag Hf; [done|].
  assert (Hj := skip_items_progress _ _ _ _ _ Hpr H). cbn [skip_items] in H.
  destruct fuel' as [|fuel']; [lia|]. cbn [skip_items].
  assert (Hat := agree_at _ _ _ _ _ j Hag ltac:(lia)).
  rewrite Nat.sub_diag, Nat.add_0_r in Hat. rewrite Hat.
  destruct (data !! j) as [b|]; [|done].
  destruct (b =? 101).
  { injection H as <-. do 2 f_equal. lia. }
  destruct (skip j) as [[x|]|] eqn:Es; cbn [mbind option_bind] in H; try done.
  pose proof (Hpr _ _ Es). pose proof (skip_items_progress _ _ _ _ _ Hpr H).
  assert (Hx : agree data j data' j' (x - j)).
  { pose proof (agree_sub _ _ _ _ _ 0 (x - j) Hag) as Hs. rewrite !Nat.add_0_r in Hs.
    apply Hs. lia. }
  rewrite (Hskip _ _ _ Es Hx). cbn [mbind option_bind].
  rewrite (IH _ (j' + (x - j))%nat _ H); [do 2 f_equal; lia| |lia].
  pose proof (agree_sub _ _ _ _ _ (x - j) (stop - x) Hag ltac:(lia)) as Hs.
  by replace (j + (x - j))%nat with x in Hs by lia.
Qed.

Lemma skip_ext stack i i' stop :
  skip_bencode stack data i = Some (Ok stop) -> agree data i data' i' (stop - i) ->
  skip_bencode stack data' i' = Some (Ok (i' + (stop - i))%nat).
Proof using Hmax.
  revert i i' stop. induction stack as [|stack IH]; intros i i' stop H Hag; [done|].
  assert (Hp := skip_progress _ _ _ _ H). cbn [skip_bencode] in H |- *.
  assert (Hat := agree_at _ _ _ _ _ i Hag ltac:(lia)).
  rewrite Nat.sub_diag, Nat.add_0_r in Hat. rewrite Hat.
  destruct (data !! i) as [b|]; [|done]. destruct (b =? 105).
  { destruct (position _ _) as [p|] eqn:Ep; [|done]. cbn [ok_or] in H. injection H as <-.
    apply position_Some in Ep as [(c & Hc & Ec) Hq].
    rewrite (proj2 (position_Some _ _ p)); [cbn [ok_or]; do 2 f_equal; lia|]. split.
    - exists c. rewrite lookup_drop in *. split; [|done]. rewrite <- Hc.
      rewrite <- (agree_at _ _ _ _ _ (S i + p) Hag) by lia. f_equal. lia.
    - intros q d Hqp Hd. apply (Hq q); [done|]. rewrite lookup_drop in *. rewrite <- Hd.
      rewrite <- (agree_at _ _ _ _ _ (S i + q) Hag) by lia. f_equal. lia. }
  destruct (_ || _).
  { assert (Hs := agree_sub _ _ _ _ _ 1 (stop - S i) Hag ltac:(lia)).
    rewrite !Nat.add_1_r in Hs. destruct Hag as [Hlen _].
    pose proof (skip_items_progress _ _ _ _ _ (skip_progress stack data) H).
    rewrite (skip_items_ext (skip_bencode stack data) (skip_bencode stack data')
      (length data) (length data') (S i) (S i') stop (skip_progress stack data) (IH) H Hs);
      [do 2 f_equal; lia|lia]. }
  destruct (is_ascii_digit b); [|done].
  destruct (parse_bencode_byte_string data i) as [[s stop']|] eqn:Ep; [|done].
  injection H as ->. by rewrite (parse_string_ext _ _ _ _ Ep Hag).
Qed.
End Locality.

(** ** Re-encoding keeps the info bytes *)

Lemma info_loop_bounds fuel stack data i s e :
  info_loop fuel stack data i = Some (Ok (s, e)) -> (i < s < e)%nat /\ (e <= length data)%nat.
Proof.
  revert i. induction fuel as [|fuel IH]; intros i; [done|]. cbn [info_loop].
  destruct (data !! i) as [b|]; [|done]. destruct (b =? 101); [done|].
  destruct (parse_bencode_byte_string data i) as [[key ak]|] eqn:Ep; [|done].
  apply parse_string_progress in Ep.
  destruct (skip_bencode stack data ak) as [[ve|]|] eqn:Es; cbn [mbind option_bind]; try done.
  apply skip_progress in Es. destruct (decide _); [intros [= <- <-]; lia|].
  intros H%IH. lia.
Qed.

Lemma info_loop_splice fuel fuel' stack data out i s e e' :
  Z.of_nat (length out) <= U64_MAX ->
  info_loop fuel stack data i = Some (Ok (s, e)) -> agree data 0 out 0 s ->
  skip_bencode stack out s = Some (Ok e') -> (s - i <= fuel')%nat ->
  info_loop fuel' stack out i = Some (Ok (s, e')).
Proof.
  intros Hmax. revert i fuel'. induction fuel as [|fuel IH]; intros i fuel' H Hag Hskip Hf; [done|].
  assert (Hb := info_loop_bounds _ _ _ _ _ _ H). cbn [info_loop] in H.
  destruct fuel' as [|fuel']; [lia|]. cbn [info_loop].
  assert (Hat : out !! i = data !! i).
  { rewrite <- (agree_at _ _ _ _ _ i Hag) by lia. f_equal. lia. }
  rewrite Hat. destruct (data !! i) as [b|]; [|done]. destruct (b =? 101); [done|].
  destruct (parse_bencode_byte_string data i) as [[key ak]|] eqn:Ep; [|done].
  pose proof (parse_string_progress _ _ _ _ Ep) as Hp.
  destruct (skip_bencode stack data ak) as [[ve|]|] eqn:Es; cbn [mbind option_bind] in H; try done.
  pose proof (skip_progress _ _ _ _ Es) as Hs.
  assert (Hak : (ak <= s)%nat).
  { destruct (decide _) in H; [injection H as <- <-; lia|apply info_loop_bounds in H; lia]. }
  rewrite (parse_string_ext data out Hmax i i _ _ Ep)
    by (apply (agree_sub _ 0 _ 0 s i); [done|lia]).
  replace (i + (ak - i))%nat with ak by lia.
  destruct (decide (key = INFO_KEY)) as [->|Hne].
  - injection H as -> <-. by rewrite Hskip.
  - pose proof (info_loop_bounds _ _ _ _ _ _ H).
    rewrite (skip_ext data out Hmax stack ak ak ve Es)
      by (apply (agree_sub _ 0 _ 0 s ak); [done|lia]).
    cbn [mbind option_bind].
    replace (ak + (ve - ak))%nat with ve by lia. apply IH; [done|done|done|lia].
Qed.

Lemma agree_middle (pre x post : bytes) : agree x 0 (pre ++ x ++ post) (length pre) (length x).
Proof.
  split; [rewrite !length_app; lia|]. intros k Hk.
  rewrite lookup_app_r by lia. rewrite lookup_app_l by lia. f_equal. lia.
Qed.

Lemma agree_prefix (pre post post' : bytes) : agree (pre ++ post) 0 (pre ++ post') 0 (length pre).
Proof.
  split; [rewrite !length_app; lia|]. intros k Hk. by rewrite !lookup_app_l by lia.
Qed.

Section Preserve.
Context (stack : nat) (info : bytes).
(** [info] is one complete bencode value. *)
Context (Hinfo : skip_bencode stack info 0 = Some (Ok (length info))).

Lemma skip_spliced pre post :
  Z.of_nat (length (pre ++ info ++ post)) <= U64_MAX ->
  skip_bencode stack (pre ++ info ++ post) (length pre) =
  Some (Ok (length pre + length info)%nat).
Proof using Hinfo.
  intros Hmax. rewrite (skip_ext info _ Hmax stack 0 (length pre) (length info) Hinfo);
    rewrite Nat.sub_0_r; [done|apply agree_middle].
Qed.

Lemma raw_info_splice enc s e :
  info_dict_range stack enc = Some (Ok (s, e)) ->
  Z.of_nat (length (take s enc ++ info ++ drop e enc)) <= U64_MAX ->
  raw_info_dict stack (take s enc ++ info ++ drop e enc) = Some (Ok info).
Proof using Hinfo.
  unfold info_dict_range, raw_info_dict. destruct (decide (head enc = Some 100)) as [Hh|]; [|done].
  intros H Hmax. pose proof (info_loop_bounds _ _ _ _ _ _ H) as Hb.
  set (out := take s enc ++ info ++ drop e enc) in *.
  assert (Hls : length (take s enc) = s) by (rewrite length_take; lia).
  assert (Hho : head out = Some 100).
  { unfold out. destruct enc as [|x enc]; [done|]. destruct s; [lia|done]. }
  unfold info_dict_range. rewrite (decide_True _ _ Hho).
  rewrite (info_loop_splice (length enc) (length out) stack enc out 1 s e (s + length info)); try done.
  - cbn [mbind option_bind].
    rewrite slice_seg by (unfold out; rewrite !length_app; lia).
    cbn [mbind option_bind]. do 2 f_equal. unfold seg, out.
    rewrite drop_app_length' by done. by rewrite take_app_length' by lia.
  - rewrite <- (take_drop s enc) at 1. rewrite <- Hls at 3. apply agree_prefix.
  - rewrite <- Hls at 1. unfold out. rewrite skip_spliced by done. by rewrite Hls.
  - unfold out. rewrite !length_app. lia.
Qed.

Lemma raw_info_wrap :
  Z.of_nat (length (wrap_info_dict info)) <= U64_MAX ->
  raw_info_dict stack (wrap_info_dict info) = Some (Ok info).
Proof using Hinfo.
  intros Hmax. unfold raw_info_dict, info_dict_range. rewrite decide_True by done.
  set (out := wrap_info_dict info) in *.
  destruct (length out) as [|fuel] eqn:El; [by unfold out, wrap_info_dict in El|].
  cbn [info_loop]. replace (out !! 1%nat) with (Some 52) by done. cbn [Z.eqb Pos.eqb].
  assert (Hl : (7 <= length out)%nat) by (unfold out, wrap_info_dict; rewrite length_app; simpl; lia).
  rewrite (parse_string_intro out 1 2 4); try (done || lia).
  - change (S 2 + Z.to_nat 4)%nat with 7%nat.
    assert (Hsk : skip_bencode stack out 7 = Some (Ok (7 + length info)%nat)).
    { apply (skip_spliced [100; 52; 58; 105; 110; 102; 111] [101]).
      fold (wrap_info_dict info). fold out. lia. }
    rewrite Hsk. cbn [mbind option_bind]. rewrite decide_True by done. cbn [mbind option_bind].
    rewrite slice_seg by (unfold out, wrap_info_dict; rewrite !length_app; simpl; lia).
    cbn [mbind option_bind]. do 2 f_equal. unfold out, wrap_info_dict, seg.
    rewrite (drop_app_length' [100; 52; 58; 105; 110; 102; 111]) by done.
    by rewrite take_app_length' by lia.
  - intros q b Hq. assert (q = 1%nat) as -> by lia. by intros [= <-].
Qed.
End Preserve.

(** The range found is the value right after a key [info]. *)
Lemma info_loop_key fuel stack data i s e :
  info_loop fuel stack data i = Some (Ok (s, e)) ->
  skip_bencode stack data s = Some (Ok e) /\
  exists a, (a + 4)%nat = s /\ seg a s data = INFO_KEY.
Proof.
  revert i. induction fuel as [|fuel IH]; intros i; [done|]. cbn [info_loop].
  destruct (data !! i) as [b|]; [|done]. destruct (b =? 101); [done|].
  destruct (parse_bencode_byte_string data i) as [[key ak]|] eqn:Ep; [|done].
  destruct (skip_bencode stack data ak) as [[ve|]|] eqn:Es; cbn [mbind option_bind]; try done.
  destruct (decide (key = INFO_KEY)) as [->|]; [|apply IH].
  intros [= <- <-]. split; [done|].
  apply parse_string_spec in Ep as (colon & len & _ & _ & _ & _ & Hl & _ & Hak & Hlen & Hseg).
  exists (S colon). split; [|done].
  apply (f_equal length) in Hseg. rewrite length_seg in Hseg. simpl in Hseg. lia.
Qed.

Lemma raw_info_dict_exact stack data info :
  raw_info_dict stack data = Some (Ok info) ->
  exists pre post,
    data = pre ++ INFO_KEY ++ info ++ post /\
    skip_bencode stack data (length (pre ++ INFO_KEY)) =
      Some (Ok (length (pre ++ INFO_KEY) + length info)%nat).
Proof.
  unfold raw_info_dict, info_dict_range. destruct (decide (head data = Some 100)) as [Hh|]; [|done].
  destruct (info_loop _ _ _ _) as [[[s e]|]|] eqn:E; cbn [mbind option_bind]; try done.
  pose proof (info_loop_bounds _ _ _ _ _ _ E) as Hb.
  apply info_loop_key in E as (Hskip & a & Ha & Hkey).
  rewrite slice_seg by lia. cbn [mbind option_bind]. intros [= <-].
  exists (take a data), (drop e data).
  assert (Hla : length (take a data ++ INFO_KEY) = s).
  { rewrite length_app, length_take. simpl. lia. }
  rewrite Hla, length_seg. split; [|rewrite Hskip; do 2 f_equal; lia].
  rewrite <- Hkey. replace (take a data) with (seg 0 a data)
    by (unfold seg; by rewrite drop_0, Nat.sub_0_r).
  replace (drop e data) with (seg e (length data) data)
    by (unfold seg; rewrite take_ge; [done|rewrite length_drop; lia]).
  rewrite !seg_join by lia. unfold seg. by rewrite drop_0, Nat.sub_0_r, firstn_all.
Qed.

(** Re-encoding a torrent keeps the bytes its info hash covers: whatever the
    serializer produced (nothing, a dictionary with another [info] value, or one
    without), the info dictionary found in the output is exactly [info], for
    every [info] that is one complete bencode value. *)
Theorem encode_preserves_info stack encoded info :
  skip_bencode stack info 0 = Some (Ok (length info)) ->
  (length (default [] encoded) <= stack)%nat ->
  Z.of_nat (length (default [] encoded) + length info + 8) <= U64_MAX ->
  exists out,
    encode_torrent_preserving_info stack encoded info = Some out /\
    raw_info_dict stack out = Some (Ok info).
Proof.
  intros Hinfo Hstack Hmax. destruct encoded as [enc|]; cbn [default id] in *.
  2: { eexists. split; [done|]. apply raw_info_wrap; [done|].
       unfold wrap_info_dict. rewrite !length_app. simpl length in *. lia. }
  unfold encode_torrent_preserving_info.
  assert (0 < stack)%nat by (destruct stack; [done|lia]).
  destruct (info_dict_range_total stack enc) as [r Er]; [lia|lia|].
  rewrite Er. cbn [mbind option_bind]. destruct r as [[s e]|].
  2: { eexists. split; [done|]. apply raw_info_wrap; [done|].
       unfold wrap_info_dict. rewrite !length_app. simpl length. lia. }
  assert (Hb : (s < e <= length enc)%nat).
  { unfold info_dict_range in Er. destruct (decide _); [|done]. apply info_loop_bounds in Er. lia. }
  rewrite (slice_seg enc s e) by lia. cbn [mbind option_bind]. destruct (decide (seg s e enc = info)) as [<-|Hne].
  - eexists. split; [done|]. unfold raw_info_dict. rewrite Er. cbn [mbind option_bind].
    by rewrite slice_seg by lia.
  - rewrite !slice_seg by lia. cbn [mbind option_bind]. eexists. split; [done|].
    replace (seg 0 s enc) with (take s enc) by (unfold seg; by rewrite drop_0, Nat.sub_0_r).
    replace (seg e (length enc) enc) with (drop e enc)
      by (unfold seg; rewrite take_ge; [done|rewrite length_drop; lia]).
    apply raw_info_splice; [done|done|].
    rewrite !length_app, length_take, length_drop. lia.
Qed.

(** ** Percent encoding *)

Definition URL_UNRESERVED_HEX : bytes :=
  [48; 49; 50; 51; 52; 53; 54; 55; 56; 57; 65; 66; 67; 68; 69; 70].

Definition is_unreserved (b : u8) : bool :=
  is_ascii_digit b || ((97 <=? b) && (b <=? 122)) || ((65 <=? b) && (b <=? 90)) ||
  (b =? 45) || (b =? 46) || (b =? 95) || (b =? 126).

(** The characters pushed for one byte; a hex index is below 16. *)
Definition url_encode_byte (b : u8) : bytes :=
  if is_unreserved b then [b]
  else [37; default 0 (URL_UNRESERVED_HEX !! Z.to_nat (Z.shiftr b 4));
            default 0 (URL_UNRESERVED_HEX !! Z.to_nat (Z.land b 15))].

Fixpoint url_encode_bytes (content : bytes) : bytes :=
  match content with
  | [] => []
  | b :: rest => url_encode_byte b ++ url_encode_bytes rest
  end.

(** The decoder a tracker applies (RFC 3986, section 2.1). *)
Definition hex_value (c : u8) : option Z :=
  if is_ascii_digit c then Some (c - 48)
  else if (65 <=? c) && (c <=? 70) then Some (c - 55)
  else if (97 <=? c) && (c <=? 102) then Some (c - 87)
  else None.

Fixpoint url_decode (s : bytes) : option bytes :=
  match s with
  | [] => Some []
  | c :: rest =>
      if c =? 37 then
        match rest with
        | h :: l :: rest =>
            h ← hex_value h; l ← hex_value l; out ← url_decode rest; Some (16 * h + l :: out)
        | _ => None
        end
      else out ← url_decode rest; Some (c :: out)
  end.

Lemma url_encode_byte_cases b :
  is_u8 b ->
  (is_unreserved b = true /\ url_encode_byte b = [b]) \/
  exists h l, url_encode_byte b = [37; h; l] /\
    hex_value h = Some (b / 16) /\ hex_value l = Some (b mod 16) /\
    is_unreserved h = true /\ is_unreserved l = true.
Proof.
  intros Hb. unfold url_encode_byte. destruct (is_unreserved b); [by left|right].
  eexists _, _. split; [done|].
  rewrite Z.shiftr_div_pow2 by lia. change (Z.land b 15) with (Z.land b (Z.ones 4)).
  rewrite Z.land_ones by lia. change (2 ^ 4) with 16.
  assert (Hhex : forall d, 0 <= d < 16 ->
    hex_value (default 0 (URL_UNRESERVED_HEX !! Z.to_nat d)) = Some d /\
    is_unreserved (default 0 (URL_UNRESERVED_HEX !! Z.to_nat d)) = true).
  { intros d Hd. assert (Hin : d ∈ (map Z.of_nat (seq 0 16))).
    { apply list_elem_of_fmap. exists (Z.to_nat d). split; [lia|]. apply elem_of_seq. lia. }
    clear Hd. revert d Hin. apply Forall_forall. vm_compute. repeat constructor. }
  assert (0 <= b / 16 < 16) by (unfold is_u8, U8_MAX in Hb; split; [apply Z.div_pos|apply Z.div_lt_upper_bound]; lia).
  pose proof (Z.mod_pos_bound b 16). naive_solver lia.
Qed.

(** Percent encoding is exact: the decoder of RFC 3986 gives back every byte
    string, and the encoding has only unreserved characters and percent signs,
    so it never ends a query parameter early. *)
Lemma url_encode_decodes content :
  wf_bytes content ->
  url_decode (url_encode_bytes content) = Some content /\
  Forall (fun c => is_unreserved c = true \/ c = 37) (url_encode_bytes content).
Proof.
  induction 1 as [|b content Hb _ [IH1 IH2]]; [by split; [|constructor]|].
  cbn [url_encode_bytes]. destruct (url_encode_byte_cases b Hb)
    as [[Hu ->]|(h & l & -> & Hh & Hl & Hhu & Hlu)]; cbn [app].
  - split; [|constructor; [by left|done]]. cbn [url_decode].
    destruct (Z.eqb_spec b 37) as [->|]; [done|]. by rewrite IH1.
  - split; [|repeat (constructor; [auto|]); done]. cbn [url_decode Z.eqb Pos.eqb].
    rewrite Hh, Hl, IH1. cbn [mbind option_bind]. do 2 f_equal. pose proof (Z.div_mod b 16). lia.
Qed.

