(* ===== verification/Metainfo.v ===== *)
(** * Torrent metainfo (crates/bit_rev/src/file.rs, torrent.rs)

    The metainfo records, their validation, and the construction of the
    [Torrent] layout (one offset per file).  Strings are UTF-8 byte lists.
    SHA-1 and the bencode (de)serializer come from third-party crates and are
    parameters of the definitions that use them. *)

From S2P Require Import Prelude Bencode.

(** ** Metainfo records *)

Record File := mkFile { f_path : list bytes; f_length : i64; f_md5sum : option bytes }.

Record Info := mkInfo {
  i_name : bytes;
  i_pieces : bytes;
  i_piece_length : i64;
  i_md5sum : option bytes;
  i_length : option i64;
  i_files : option (list File);
  i_private : option u8;
  i_path : option (list bytes);
  i_root_hash : option bytes }.

Definition info_is_private (i : Info) : bool :=
  match i_private i with Some flag => negb (flag =? 0) | None => false end.

Record TorrentFile := mkTorrentFile {
  tf_info : Info;
  tf_announce : option bytes;
  tf_nodes : option (list (bytes * i64));
  tf_encoding : option bytes;
  tf_httpseeds : option (list bytes);
  tf_url_list : option (list bytes);
  tf_announce_list : option (list (list bytes));
  tf_creation_date : option i64;
  tf_comment : option bytes;
  tf_created_by : option bytes }.

Record TorrentMeta := mkTorrentMeta {
  tm_torrent_file : TorrentFile;
  tm_info_hash : bytes;
  tm_piece_hashes : list bytes;
  tm_info_bytes : bytes }.

(** ** Validation *)

Inductive MetaError :=
| PieceLengthNotPositive
| PiecesNotMultipleOf20
| LengthFilesConflict
| EmptyFilePath
| UnsafeComponent (component : bytes)
| BadBencode
| MissingLength.

Definition DOTDOT : bytes := [46; 46].

Definition path_component_is_safe (component : bytes) : bool :=
  if bool_decide (component = []) || bool_decide (component = DOTDOT) then false
  else if existsb (Z.eqb 47) component || existsb (Z.eqb 92) component then false
  else if (2 <=? length component)%nat && (nth 1 component 0 =? 58) then false
  else true.

Fixpoint validate_components (path : list bytes) : result unit MetaError :=
  match path with
  | [] => Ok ()
  | c :: rest =>
      if negb (path_component_is_safe c) then Err (UnsafeComponent c)
      else validate_components rest
  end.

Definition validate_file_path (path : list bytes) : result unit MetaError :=
  match path with
  | [] => Err EmptyFilePath
  | _ => validate_components path
  end.

Fixpoint validate_files (files : list File) : result unit MetaError :=
  match files with
  | [] => Ok ()
  | f :: rest => let! _ := validate_file_path (f_path f) in validate_files rest
  end.

Definition validate_torrent_file (t : TorrentFile) : result unit MetaError :=
  let info := tf_info t in
  if i_piece_length info <=? 0 then Err PieceLengthNotPositive
  else if negb ((length (i_pieces info) mod 20 =? 0)%nat) then Err PiecesNotMultipleOf20
  else match i_length info, i_files info with
       | Some _, None => Ok ()
       | None, Some files => validate_files files
       | _, _ => Err LengthFilesConflict
       end.

(** ** Building [TorrentMeta] *)

(** [as_chunks::<n>().0]: the complete chunks of [n] elements. *)
Fixpoint chunks_fuel {A} (fuel n : nat) (l : list A) : list (list A) :=
  match fuel with
  | O => []
  | S fuel =>
      if (length l <? n)%nat then [] else take n l :: chunks_fuel fuel n (drop n l)
  end.
Definition as_chunks {A} (n : nat) (l : list A) : list (list A) :=
  if (n =? 0)%nat then [] else chunks_fuel (length l) n l.

Definition from_validated (t : TorrentFile) (hash info_bytes : bytes) : TorrentMeta :=
  mkTorrentMeta t hash (as_chunks 20 (i_pieces (tf_info t))) info_bytes.

Section Build.
(** [crate::utils::sha1_digest] and the [serde_bencode] crate. *)
Variable sha1_digest : bytes -> bytes.
Variable ser_info : Info -> option bytes.
Variable de_info : bytes -> option Info.
Variable de_torrent : bytes -> option TorrentFile.

Definition depth_ok (data : bytes) : bool :=
  match check_bencode_depth data with Some (Ok _) => true | _ => false end.

Definition meta_new (t : TorrentFile) : result TorrentMeta MetaError :=
  let! _ := validate_torrent_file t in
  let! info_bytes := ok_or (ser_info (tf_info t)) BadBencode in
  Ok (from_validated t (sha1_digest info_bytes) info_bytes).

Definition from_parsed (t : TorrentFile) (info_hash : bytes) : TorrentMeta :=
  from_validated t info_hash (default [] (ser_info (tf_info t))).

Definition from_info_bytes (info_bytes : bytes) : result TorrentMeta MetaError :=
  if negb (depth_ok info_bytes) then Err BadBencode
  else
    let! info := ok_or (de_info info_bytes) BadBencode in
    let t := mkTorrentFile info None None None None None None None None None in
    let! _ := validate_torrent_file t in
    Ok (from_validated t (sha1_digest info_bytes) info_bytes).

(** [file::from_bytes]; the guard has bounded the stack of the search to 32. *)
Definition meta_from_bytes (content : bytes) : result TorrentMeta MetaError :=
  if negb (depth_ok content) then Err BadBencode
  else
    let! t := ok_or (de_torrent content) BadBencode in
    let! _ := validate_torrent_file t in
    match raw_info_dict 32 content with
    | Some (Ok info_bytes) => Ok (from_validated t (sha1_digest info_bytes) info_bytes)
    | _ => Err BadBencode
    end.
End Build.

(** ** The [Torrent] layout (torrent.rs) *)

Record TorrentFileInfo := mkTFI { tfi_path : list bytes; tfi_length : i64; tfi_offset : i64 }.

Record Torrent := mkTorrent {
  t_info_hash : bytes;
  t_piece_hashes : list bytes;
  t_piece_length : i64;
  t_length : i64;
  t_files : list TorrentFileInfo;
  t_name : bytes;
  t_private : bool }.

(** The loop over the file list: each file starts at the running total. *)
Fixpoint layout_files (files : list File) (total : i64) : i64 * list TorrentFileInfo :=
  match files with
  | [] => (total, [])
  | f :: rest =>
      let '(total', out) := layout_files rest (wrap_i64 (total + f_length f)) in
      (total', mkTFI (f_path f) (f_length f) total :: out)
  end.

Definition torrent_new (meta : TorrentMeta) : result Torrent MetaError :=
  let info := tf_info (tm_torrent_file meta) in
  let! (total_length, files) :=
    match i_files info with
    | Some file_list => Ok (layout_files file_list 0)
    | None =>
        match i_length info with
        | Some len => Ok (len, [mkTFI [i_name info] len 0])
        | None => Err MissingLength
        end
    end in
  Ok (mkTorrent (tm_info_hash meta) (tm_piece_hashes meta) (i_piece_length info)
        total_length files (i_name info) (info_is_private info)).

(** ** Well-formed layouts *)

(** Files follow each other without gaps, from [off] on. *)
Fixpoint contiguous (off : Z) (files : list TorrentFileInfo) : Prop :=
  match files with
  | [] => True
  | f :: rest => tfi_offset f = off /\ 0 <= tfi_length f /\ contiguous (off + tfi_length f) rest
  end.

Definition total_len (files : list TorrentFileInfo) : Z :=
  fold_right (fun f acc => tfi_length f + acc) 0 files.

Record wf_torrent (t : Torrent) : Prop := {
  wf_piece_length : 0 < t_piece_length t <= I64_MAX;
  wf_contiguous : contiguous 0 (t_files t);
  wf_total : t_length t = total_len (t_files t);
  wf_length : t_length t <= I64_MAX }.

(** ** Lemmas *)

Lemma total_len_nonneg off files : contiguous off files -> 0 <= total_len files.
Proof.
  revert off; induction files as [|f files IH]; simpl; intros off H; [lia|].
  destruct H as (_ & ? & ?%IH). lia.
Qed.

Definition sum_lengths (files : list File) : Z :=
  fold_right (fun f acc => f_length f + acc) 0 files.

Lemma sum_lengths_nonneg files :
  Forall (fun f => 0 <= f_length f) files -> 0 <= sum_lengths files.
Proof. induction 1; simpl; lia. Qed.

Lemma layout_files_spec files total :
  Forall (fun f => 0 <= f_length f) files -> 0 <= total ->
  total + sum_lengths files <= I64_MAX ->
  let '(total', out) := layout_files files total in
  total' = total + sum_lengths files /\ contiguous total out /\ total_len out = sum_lengths files /\
  map tfi_length out = map f_length files.
Proof.
  intros Hf. revert total. induction Hf as [|f files Hlen Hf IH]; intros total Ht Hsum; simpl.
  - split; [|done]. simpl. lia.
  - pose proof (sum_lengths_nonneg _ Hf). simpl in Hsum.
    rewrite wrap_i64_small by ranges. specialize (IH (total + f_length f)).
    destruct (layout_files files _) as [total' out]. simpl.
    destruct IH as (-> & ? & -> & ->); [lia..|]. split_and!; [lia|done..].
Qed.

Lemma chunks_fuel_lengths {A} fuel n (l : list A) :
  Forall (fun c => length c = n) (chunks_fuel fuel n l).
Proof.
  revert l; induction fuel as [|fuel IH]; intros l; simpl; [constructor|].
  destruct (Nat.ltb_spec (length l) n); [constructor|].
  constructor; [|apply IH]. rewrite length_take. lia.
Qed.

Lemma chunks_fuel_concat {A} fuel n (l : list A) :
  (0 < n)%nat -> (length l <= fuel)%nat -> (length l mod n = 0)%nat ->
  concat (chunks_fuel fuel n l) = l.
Proof.
  intros Hn. revert l; induction fuel as [|fuel IH]; intros l Hl Hmod; simpl.
  - destruct l; [done|simpl in Hl; lia].
  - destruct (Nat.ltb_spec (length l) n) as [Hlt|Hge].
    + rewrite Nat.mod_small in Hmod by lia. destruct l; [done|simpl in Hmod; lia].
    + simpl. rewrite IH, take_drop; [done| |].
      * rewrite length_drop. lia.
      * rewrite length_drop. replace (length l) with (length l - n + 1 * n)%nat in Hmod by lia.
        by rewrite Nat.Div0.mod_add in Hmod.
Qed.

(** ** What validation guarantees *)

Definition safe_component (c : bytes) : Prop :=
  c <> [] /\ c <> DOTDOT /\ (47 ∉ c) /\ (92 ∉ c).

Lemma existsb_eqb_elem (x : Z) l : existsb (Z.eqb x) l = false <-> x ∉ l.
Proof.
  induction l as [|y l IH]; simpl; [set_solver|].
  rewrite orb_false_iff, IH, not_elem_of_cons, Z.eqb_neq. done.
Qed.

Lemma path_component_is_safe_spec c :
  path_component_is_safe c = true -> safe_component c.
Proof.
  unfold path_component_is_safe, safe_component.
  destruct (bool_decide (c = [])) eqn:E1; [done|].
  destruct (bool_decide (c = DOTDOT)) eqn:E2; [done|]. simpl.
  destruct (existsb (Z.eqb 47) c) eqn:E3; [done|].
  destruct (existsb (Z.eqb 92) c) eqn:E4; [done|].
  apply bool_decide_eq_false in E1, E2. apply existsb_eqb_elem in E3, E4. done.
Qed.

Lemma validate_components_safe path :
  validate_components path = Ok () -> Forall safe_component path.
Proof.
  induction path as [|c path IH]; simpl; [by constructor|].
  destruct (path_component_is_safe c) eqn:E; simpl; [|done].
  intros H. constructor; [by apply path_component_is_safe_spec|auto].
Qed.

Lemma validate_files_safe files :
  validate_files files = Ok () ->
  Forall (fun f => f_path f <> [] /\ Forall safe_component (f_path f)) files.
Proof.
  induction files as [|f files IH]; simpl; [by constructor|].
  destruct (validate_file_path (f_path f)) as [[]|] eqn:E; [|done]. intros H.
  constructor; [|auto]. unfold validate_file_path in E.
  destruct (f_path f) eqn:Ef; [done|]. split; [done|]. by apply validate_components_safe.
Qed.

(** Validated metainfo has a positive piece length, 20-byte piece hashes
    that together are exactly the [pieces] string, exactly one of [length] and
    [files], and only non-empty file paths whose components cannot leave the
    download directory: none is empty, [..], or contains a slash or backslash. *)
Theorem validated_metainfo t hash info_bytes :
  validate_torrent_file t = Ok () ->
  let info := tf_info t in
  let meta := from_validated t hash info_bytes in
  0 < i_piece_length info /\
  Forall (fun h => length h = 20%nat) (tm_piece_hashes meta) /\
  concat (tm_piece_hashes meta) = i_pieces info /\
  (is_Some (i_length info) <-> i_files info = None) /\
  (forall files, i_files info = Some files ->
     Forall (fun f => f_path f <> [] /\ Forall safe_component (f_path f)) files).
Proof.
  unfold validate_torrent_file, from_validated. cbn zeta. intros H.
  case_cmp_in H; [done|].
  destruct (Nat.eqb_spec (length (i_pieces (tf_info t)) mod 20) 0); [|done].
  simpl in H. cbn [tm_piece_hashes]. unfold as_chunks; cbn [Nat.eqb].
  split_and!; [lia|apply chunks_fuel_lengths|by apply chunks_fuel_concat; [lia|done|]|..].
  - destruct (i_length (tf_info t)), (i_files (tf_info t)); try done.
  - intros files Hfiles. rewrite Hfiles in H.
    destruct (i_length (tf_info t)); [done|]. by apply validate_files_safe.
Qed.

Definition example_files : list File :=
  [mkFile [[97]; [98]] 30 None; mkFile [[99]] 0 None; mkFile [[100]] 25 None].
Definition example_torrent_file : TorrentFile :=
  mkTorrentFile
    (mkInfo [116] (replicate 60 7) 20 None None (Some example_files) None None None)
    None None None None None None None None None.

(** The lengths metainfo declares are non-negative and their sum fits [i64].
    Validation does not check this; see [negative_length_accepted]. *)
Definition lengths_fit (info : Info) : Prop :=
  match i_files info with
  | Some files =>
      Forall (fun f => 0 <= f_length f) files /\ sum_lengths files <= I64_MAX
  | None => match i_length info with Some l => 0 <= l <= I64_MAX | None => True end
  end.

Lemma torrent_new_wf meta :
  let info := tf_info (tm_torrent_file meta) in
  validate_torrent_file (tm_torrent_file meta) = Ok () -> lengths_fit info ->
  i_piece_length info <= I64_MAX ->
  exists t, torrent_new meta = Ok t /\ wf_torrent t /\
    t_piece_length t = i_piece_length info /\ t_piece_hashes t = tm_piece_hashes meta /\
    map tfi_length (t_files t) =
      match i_files info with
      | Some files => map f_length files
      | None => option_list (i_length info)
      end.
Proof.
  cbn zeta. unfold validate_torrent_file, lengths_fit, torrent_new. cbn zeta.
  intros H Hfit Hpl. case_cmp_in H; [done|].
  destruct (negb _); [done|]. destruct (i_files _) as [files|].
  - destruct Hfit as [Hnn Hsum].
    pose proof (layout_files_spec files 0 Hnn ltac:(lia) ltac:(lia)) as Hl.
    destruct (layout_files files 0) as [total out]. destruct Hl as (-> & ? & ? & ?).
    eexists; split; [done|]. split; [|done]. split; simpl; try done; lia.
  - destruct (i_length _) as [l|]; [|done]. simpl.
    eexists; split; [done|]. split; [|done]. split; simpl; try done; lia.
Qed.

(** A single-file torrent with a negative length passes validation and yields a
    torrent of negative length. *)
Definition negative_meta : TorrentMeta :=
  from_validated
    (mkTorrentFile (mkInfo [116] (replicate 20 7) 16384 None (Some (-1)) None None None None)
       None None None None None None None None None) [] [].

(** Validation accepts a metainfo that declares a negative length, and
    [Torrent::new] builds a torrent of length -1 from it. *)
Theorem negative_length_accepted :
  validate_torrent_file (tm_torrent_file negative_meta) = Ok () /\
  exists t, torrent_new negative_meta = Ok t /\ t_length t = -1.
Proof. split; [by vm_compute|]. eexists. split; [by vm_compute|done]. Qed.

(** The info hash covers the exact bytes of the file: when [from_bytes]
    accepts a .torrent, its metainfo passed validation, the kept [info_bytes] are
    a contiguous part of the file right after the key [info], they are one
    complete bencode value, and the info hash is their SHA-1 digest, whatever
    the serde decoder made of them. *)
Theorem from_bytes_info_exact sha1_digest de_torrent content m :
  meta_from_bytes sha1_digest de_torrent content = Ok m ->
  validate_torrent_file (tm_torrent_file m) = Ok () /\
  tm_info_hash m = sha1_digest (tm_info_bytes m) /\
  exists pre post,
    content = pre ++ INFO_KEY ++ tm_info_bytes m ++ post /\
    skip_bencode 32 content (length (pre ++ INFO_KEY)) =
      Some (Ok (length (pre ++ INFO_KEY) + length (tm_info_bytes m))%nat).
Proof.
  unfold meta_from_bytes. destruct (negb _); [done|].
  destruct (de_torrent content) as [t|]; [|done]. cbn [ok_or].
  destruct (validate_torrent_file t) as [[]|] eqn:Ev; [|done].
  destruct (raw_info_dict 32 content) as [[info|]|] eqn:Er; try done.
  intros [= <-]. split; [done|]. split; [done|]. cbn [from_validated tm_info_bytes].
  by apply raw_info_dict_exact.
Qed.
