(* ===== verification/Layout.v ===== *)
(** * Piece layout (crates/bit_rev/src/utils.rs)

    Which bytes of which file a piece covers, and the piece and block sizes.
    [usize] arithmetic wraps at 64 bits as it does in a
    release build; on a well-formed torrent nothing wraps. *)

From S2P Require Import Prelude Metainfo.

Definition BLOCK_SIZE : u32 := 16384.

Definition calculate_bounds_for_piece (t : Torrent) (index : usize) : usize * usize :=
  let start := wrap64 (index * wrap64 (t_piece_length t)) in
  let end_ := wrap64 (start + wrap64 (t_piece_length t)) in
  let torrent_length := wrap64 (t_length t) in
  if torrent_length <? end_ then (start, torrent_length) else (start, end_).

Definition calculate_piece_size (t : Torrent) (index : usize) : usize :=
  let '(start, end_) := calculate_bounds_for_piece t index in
  wrap64 (end_ - start).

Definition calculate_block_size (piece_length requested : u32) : u32 :=
  if wrap32 (piece_length - requested) <? BLOCK_SIZE
  then wrap32 (piece_length - requested) else BLOCK_SIZE.

Record PieceFileMapping := mkMapping {
  pm_file_index : nat; pm_file_offset : usize; pm_length : usize }.

(** The loop of [map_piece_to_files] over the files from number [idx] on. *)
Fixpoint map_files (piece_start piece_end : usize) (idx : nat) (files : list TorrentFileInfo)
  : list PieceFileMapping :=
  match files with
  | [] => []
  | file :: rest =>
      let file_start := wrap64 (tfi_offset file) in
      let file_end := wrap64 (file_start + wrap64 (tfi_length file)) in
      if (piece_start <? file_end) && (file_start <? piece_end) then
        let overlap_start := Z.max piece_start file_start in
        let overlap_end := Z.min piece_end file_end in
        mkMapping idx (overlap_start - file_start) (overlap_end - overlap_start)
          :: map_files piece_start piece_end (S idx) rest
      else map_files piece_start piece_end (S idx) rest
  end.

Definition map_piece_to_files (t : Torrent) (piece_index : usize) : list PieceFileMapping :=
  let '(piece_start, piece_end) := calculate_bounds_for_piece t piece_index in
  map_files piece_start piece_end 0 (t_files t).

(** ** Bounds on a well-formed torrent *)

(** [index] names a piece that starts inside the torrent. *)
Definition piece_in_range (t : Torrent) (index : Z) : Prop :=
  0 <= index /\ index * t_piece_length t < t_length t.

Lemma calculate_bounds_wf t index :
  wf_torrent t -> piece_in_range t index ->
  calculate_bounds_for_piece t index =
  (index * t_piece_length t, Z.min (t_length t) ((index + 1) * t_piece_length t)).
Proof.
  intros [Hpl Hc Ht Hl] [H0 Hi]. pose proof (total_len_nonneg _ _ Hc).
  unfold calculate_bounds_for_piece. cbn zeta.
  rewrite (wrap64_small (t_piece_length t)), (wrap64_small (t_length t)) by ranges.
  rewrite (wrap64_small (index * _)) by (split; [|ranges]; nia).
  rewrite wrap64_small by (split; [|ranges]; nia).
  case_cmp; f_equal; lia.
Qed.

Lemma calculate_piece_size_wf t index :
  wf_torrent t -> piece_in_range t index ->
  calculate_piece_size t index =
  Z.min (t_length t) ((index + 1) * t_piece_length t) - index * t_piece_length t /\
  0 < calculate_piece_size t index <= t_piece_length t.
Proof.
  intros Hwf Hi. unfold calculate_piece_size. rewrite calculate_bounds_wf by done.
  destruct Hwf as [Hpl Hc Ht Hl], Hi as [H0 Hi].
  rewrite wrap64_small by (split; ranges). lia.
Qed.

(** ** File contents and the bytes a list of mappings selects *)

(** The contents of the files match their declared lengths. *)
Definition sized (files : list TorrentFileInfo) (cs : list bytes) : Prop :=
  Forall2 (fun f c => tfi_length f = Z.of_nat (length c)) files cs.

Definition mapping_bytes (cs : list bytes) (mp : PieceFileMapping) : bytes :=
  let a := Z.to_nat (pm_file_offset mp) in
  seg a (a + Z.to_nat (pm_length mp)) (default [] (cs !! pm_file_index mp)).

Definition mapped_bytes (cs : list bytes) (mps : list PieceFileMapping) : bytes :=
  concat (map (mapping_bytes cs) mps).

(** Every mapping lies inside its file. *)
Definition mapping_ok (cs : list bytes) (mp : PieceFileMapping) : Prop :=
  0 <= pm_file_offset mp /\ 0 <= pm_length mp /\
  exists c, cs !! pm_file_index mp = Some c /\
            pm_file_offset mp + pm_length mp <= Z.of_nat (length c).

(** The overlap of a piece with one file, in file coordinates. *)
Lemma overlap_seg (ps pe off : Z) (c : bytes) :
  0 <= off -> ps < off + Z.of_nat (length c) -> off < pe -> ps <= pe ->
  let os := Z.max ps off in
  let oe := Z.min pe (off + Z.of_nat (length c)) in
  seg (Z.to_nat (os - off)) (Z.to_nat (os - off) + Z.to_nat (oe - os)) c =
  seg (Z.to_nat (ps - off)) (Z.to_nat (pe - off)) c.
Proof.
  intros. cbn zeta. rewrite <- (seg_clip _ (Z.to_nat (pe - off))).
  f_equal; lia.
Qed.

Lemma wrap64_nonneg_small z : 0 <= z <= I64_MAX -> wrap64 z = z.
Proof. intros. apply wrap64_small. ranges. Qed.

Lemma map_files_bytes (ps pe : Z) files cs pre off :
  contiguous off files -> 0 <= off -> off + total_len files <= I64_MAX ->
  sized files cs -> 0 <= ps <= pe ->
  mapped_bytes (pre ++ cs) (map_files ps pe (length pre) files) =
    seg (Z.to_nat (ps - off)) (Z.to_nat (pe - off)) (concat cs) /\
  Forall (mapping_ok (pre ++ cs)) (map_files ps pe (length pre) files).
Proof.
  intros Hc Hoff Htot Hs Hp. revert off pre Hc Hoff Htot.
  induction Hs as [|f c files cs Hlen Hs IH]; intros off pre Hc Hoff Htot.
  { simpl. rewrite seg_nil. split; [done|constructor]. }
  destruct Hc as (Ho & Hl & Hc). simpl in Htot.
  pose proof (total_len_nonneg _ _ Hc).
  specialize (IH (off + tfi_length f) (pre ++ [c]) Hc ltac:(lia) ltac:(lia)).
  rewrite length_app, Nat.add_comm in IH. cbn [length Nat.add] in IH.
  rewrite <- app_assoc in IH. cbn [app] in IH. destruct IH as [IH IHok].
  cbn [map_files concat]. rewrite Ho, (wrap64_nonneg_small off) by lia.
  rewrite (wrap64_nonneg_small (tfi_length f)), (wrap64_nonneg_small (off + tfi_length f)) by lia.
  rewrite seg_app.
  replace (Z.to_nat (ps - off) - length c)%nat with (Z.to_nat (ps - (off + tfi_length f))) by lia.
  replace (Z.to_nat (pe - off) - length c)%nat with (Z.to_nat (pe - (off + tfi_length f))) by lia.
  rewrite <- IH.
  assert (Hlook : (pre ++ c :: cs) !! length pre = Some c) by by apply list_lookup_middle.
  destruct (Z.ltb_spec ps (off + tfi_length f)) as [H1|H1],
    (Z.ltb_spec off pe) as [H2|H2]; cbn [andb].
  - split.
    + cbn [mapped_bytes map concat]. f_equal. unfold mapping_bytes. cbn.
      rewrite Hlook. cbn [default]. rewrite Hlen in *.
      apply overlap_seg; lia.
    + constructor; [|done]. unfold mapping_ok. cbn. split; [lia|]. split; [lia|].
      exists c. split; [done|]. lia.
  - rewrite (seg_empty _ _ c) by lia. done.
  - rewrite (seg_empty _ _ c) by lia. done.
  - rewrite (seg_empty _ _ c) by lia. done.
Qed.

(** The bytes a piece covers, in the concatenation of all files. *)
Lemma map_piece_bytes t cs index :
  wf_torrent t -> sized (t_files t) cs -> piece_in_range t index ->
  let '(s, e) := calculate_bounds_for_piece t index in
  mapped_bytes cs (map_piece_to_files t index) = seg (Z.to_nat s) (Z.to_nat e) (concat cs) /\
  Forall (mapping_ok cs) (map_piece_to_files t index) /\ 0 <= s <= e /\ e <= t_length t.
Proof.
  intros Hwf Hs Hi. unfold map_piece_to_files. rewrite calculate_bounds_wf by done.
  pose proof Hwf as [Hpl Hc Ht Hl]. pose proof Hi as [H0 Hin].
  set (e := Z.min _ _). assert (0 <= index * t_piece_length t <= e) by (split; nia).
  destruct (map_files_bytes (index * t_piece_length t) e (t_files t) cs [] 0) as [Hb Hok];
    try (done || lia).
  cbn [app length] in *. rewrite !Z.sub_0_r in Hb. split_and!; try done; lia.
Qed.

Lemma concat_sized files cs :
  sized files cs -> total_len files = Z.of_nat (length (concat cs)).
Proof.
  induction 1 as [|f c files cs Hlen _ IH]; simpl; [done|].
  rewrite length_app. lia.
Qed.
