(* ===== verification/Priority.v ===== *)
(** * File priorities (crates/bit_rev/src/priority.rs)

    Per-file priorities, the priority of a piece (the highest among the files
    it overlaps), the first and last pieces of each wanted file, and how many
    bytes of a file the verified pieces cover. *)

From S2P Require Import Prelude Metainfo Layout.

Inductive FilePriority := Skip | Low | Normal | High.

#[export] Instance FilePriority_eq_dec : EqDecision FilePriority.
Proof. solve_decision. Defined.

(** [self as u8], which is also the derived order. *)
Definition prio_rank (p : FilePriority) : Z :=
  match p with Skip => 0 | Low => 1 | Normal => 2 | High => 3 end.

Definition prio_default : FilePriority := Normal.

Definition prio_from_resume (value : i64) : FilePriority :=
  match value with 0 => Skip | 1 => Low | 2 => Normal | 3 => High | _ => Normal end.
Definition prio_to_resume (p : FilePriority) : i64 := prio_rank p.
Definition decode_list (values : list i64) : list FilePriority := map prio_from_resume values.
Definition encode_list (values : list FilePriority) : list i64 := map prio_to_resume values.
Definition prio_from_u8 (value : u8) : FilePriority :=
  match value with 0 => Skip | 1 => Low | 3 => High | _ => Normal end.

Definition normalize_file_priorities (file_count : nat) (given : list FilePriority)
  : list FilePriority :=
  fold_left (fun out ip => <[fst ip := snd ip]> out)
    (imap pair (take file_count given)) (replicate file_count Normal).

(** [file_prios.get(i).copied().unwrap_or(Normal)]. *)
Definition prio_of (file_prios : list FilePriority) (i : nat) : FilePriority :=
  default Normal (file_prios !! i).

(** [Iterator::max] on priorities: the last of the greatest. *)
Definition prio_max (a b : FilePriority) : FilePriority :=
  if prio_rank a <=? prio_rank b then b else a.

Definition piece_priority (t : Torrent) (file_prios : list FilePriority) (piece_index : usize)
  : FilePriority :=
  match map_piece_to_files t piece_index with
  | [] => Normal
  | m :: mappings =>
      fold_left prio_max (map (fun m => prio_of file_prios (pm_file_index m)) mappings)
        (prio_of file_prios (pm_file_index m))
  end.

(** The loop of [first_last_wanted_pieces] from file number [i] on. *)
Fixpoint first_last_loop (piece_length : u64) (file_prios : list FilePriority) (i : nat)
    (files : list TorrentFileInfo) (out : list u32) : list u32 :=
  match files with
  | [] => out
  | file :: rest =>
      if (tfi_length file <=? 0) || bool_decide (prio_of file_prios i = Skip)
      then first_last_loop piece_length file_prios (S i) rest out
      else
        let offset := wrap64 (Z.max (tfi_offset file) 0) in
        let len := wrap64 (tfi_length file) in
        let first := wrap32 (offset / piece_length) in
        let last := wrap32 (wrap64 (offset + len - 1) / piece_length) in
        let out := if bool_decide (first ∈ out) then out else out ++ [first] in
        let out :=
          if negb (last =? first) && negb (bool_decide (last ∈ out))
          then out ++ [last] else out in
        first_last_loop piece_length file_prios (S i) rest out
  end.

Definition first_last_wanted_pieces (t : Torrent) (file_prios : list FilePriority) : list u32 :=
  if t_piece_length t <=? 0 then []
  else first_last_loop (wrap64 (t_piece_length t)) file_prios 0 (t_files t) [].

Record FilePieceOverlap := mkOverlap { fo_piece : u32; fo_length : usize }.

Definition file_piece_mappings (t : Torrent) (file_index : nat) : list FilePieceOverlap :=
  match t_files t !! file_index with
  | None => []
  | Some file =>
      if (tfi_length file <=? 0) || (t_piece_length t <=? 0) then []
      else
        let piece_length := wrap64 (t_piece_length t) in
        let start := wrap64 (Z.max (tfi_offset file) 0) in
        let end_ := wrap64 (start + wrap64 (tfi_length file)) in
        let first := start / piece_length in
        let last := wrap64 (end_ - 1) / piece_length in
        let last := Z.min last (sat_sub (Z.of_nat (length (t_piece_hashes t))) 1) in
        flat_map
          (fun piece =>
             map (fun mp => mkOverlap (wrap32 piece) (pm_length mp))
               (filter (fun mp => pm_file_index mp = file_index) (map_piece_to_files t piece)))
          (seqZ first (last - first + 1))
  end.

Definition file_have_bytes (t : Torrent) (file_index : nat) (has_piece : u32 -> bool) : u64 :=
  match t_files t !! file_index with
  | None => 0
  | Some file =>
      if tfi_length file <=? 0 then 0
      else
        let have :=
          fold_left (fun have o => if has_piece (fo_piece o) then wrap64 (have + fo_length o) else have)
            (file_piece_mappings t file_index) 0 in
        Z.min have (wrap64 (tfi_length file))
  end.

(** ** Lemmas *)

Lemma prio_from_to_resume p : prio_from_resume (prio_to_resume p) = p.
Proof. by destruct p. Qed.

Lemma decode_encode_list ps : decode_list (encode_list ps) = ps.
Proof.
  unfold decode_list, encode_list. rewrite map_map.
  rewrite (map_ext _ id) by apply prio_from_to_resume. apply map_id.
Qed.

Lemma prio_rank_inj a b : prio_rank a = prio_rank b -> a = b.
Proof. by destruct a, b. Qed.

Lemma prio_max_rank a b : prio_rank (prio_max a b) = Z.max (prio_rank a) (prio_rank b).
Proof. unfold prio_max. case_cmp; lia. Qed.

Lemma fold_prio_max_le l a b :
  (b = a \/ b ∈ l) -> prio_rank b <= prio_rank (fold_left prio_max l a).
Proof.
  revert a b; induction l as [|x l IH]; intros a b; simpl.
  - intros [->|[]%elem_of_nil]; lia.
  - intros Hb. pose proof (IH (prio_max a x) (prio_max a x) (or_introl eq_refl)) as H.
    rewrite prio_max_rank in H. destruct Hb as [->|[->|Hb]%elem_of_cons]; [lia..|].
    apply IH. by right.
Qed.

Lemma fold_prio_max_in l a : fold_left prio_max l a = a \/ fold_left prio_max l a ∈ l.
Proof.
  revert a; induction l as [|x l IH]; intros a; simpl; [by left|].
  destruct (IH (prio_max a x)) as [->|H]; [|right; by apply list_elem_of_further].
  unfold prio_max. case_cmp; [right; left|by left].
Qed.

(** A piece's priority is the highest priority of the files it overlaps, so
    it is skipped only when every one of those files is skipped; a piece that
    overlaps no file is normal. *)
Lemma piece_priority_max t file_prios index :
  let overlapping := map pm_file_index (map_piece_to_files t index) in
  let p := piece_priority t file_prios index in
  (overlapping = [] -> p = Normal) /\
  (overlapping <> [] ->
     p ∈ map (prio_of file_prios) overlapping /\
     (forall i, i ∈ overlapping -> prio_rank (prio_of file_prios i) <= prio_rank p) /\
     (p = Skip <-> forall i, i ∈ overlapping -> prio_of file_prios i = Skip)).
Proof.
  cbn zeta. unfold piece_priority. destruct (map_piece_to_files t index) as [|m ms]; [done|].
  split; [done|]. intros _. cbn [map].
  set (l := map (fun m => prio_of file_prios (pm_file_index m)) ms).
  set (a := prio_of file_prios (pm_file_index m)).
  assert (Hl : map (prio_of file_prios) (map pm_file_index ms) = l) by by rewrite map_map.
  assert (Hin : fold_left prio_max l a ∈ a :: l).
  { destruct (fold_prio_max_in l a) as [->|H]; [left|by right]. }
  assert (Hle : forall i, i ∈ pm_file_index m :: map pm_file_index ms ->
    prio_rank (prio_of file_prios i) <= prio_rank (fold_left prio_max l a)).
  { intros i Hi. apply fold_prio_max_le. apply elem_of_cons in Hi as [->|Hi]; [by left|].
    right. rewrite <- Hl. by apply list_elem_of_fmap_2. }
  split; [|split; [done|]].
  - change (prio_of file_prios (pm_file_index m)) with a. by rewrite Hl.
  - split.
    + intros Hskip i Hi. apply prio_rank_inj.
      specialize (Hle i Hi). rewrite Hskip in Hle.
      destruct (prio_of file_prios i); simpl in *; lia.
    + intros Hall. revert Hin. generalize (fold_left prio_max l a). intros p Hin.
      rewrite <- Hl in Hin. apply elem_of_cons in Hin as [->|Hin].
      * apply Hall. left.
      * apply list_elem_of_fmap in Hin as (i & -> & Hi). apply Hall. by right.
Qed.

(** ** Covered bytes of a file *)

Lemma filter_map_files (ps pe : Z) i files idx :
  filter (fun mp => pm_file_index mp = i) (map_files ps pe idx files) =
  if (idx <=? i)%nat
  then match files !! (i - idx)%nat with Some f => map_files ps pe i [f] | None => [] end
  else [].
Proof.
  revert idx; induction files as [|f files IH]; intros idx.
  - simpl. by destruct (_ <=? _)%nat.
  - cbn [map_files].
    assert (Hrest : filter (fun mp => pm_file_index mp = i) (map_files ps pe (S idx) files) =
      if (idx =? i)%nat then []
      else if (idx <=? i)%nat
      then match (f :: files) !! (i - idx)%nat with
           | Some f => map_files ps pe i [f] | None => [] end else []).
    { rewrite IH. destruct (Nat.eqb_spec idx i) as [->|Hne].
      - by rewrite (proj2 (Nat.leb_gt _ _)) by lia.
      - destruct (Nat.leb_spec (S idx) i), (Nat.leb_spec idx i); try lia; [|done].
        by replace (i - idx)%nat with (S (i - S idx)) by lia. }
    destruct (Nat.eqb_spec idx i) as [Heq|Hne].
    + subst idx. rewrite (proj2 (Nat.leb_le i i)), Nat.sub_diag by lia. cbn [lookup list_lookup].
      cbn [map_files]. destruct (_ && _); [|done].
      rewrite filter_cons_True by done. by rewrite Hrest.
    + destruct (_ && _); [rewrite filter_cons_False by done|]; by rewrite Hrest.
Qed.

Lemma contiguous_lookup off files k f :
  contiguous off files -> files !! k = Some f ->
  off <= tfi_offset f /\ 0 <= tfi_length f /\
  tfi_offset f + tfi_length f <= off + total_len files.
Proof.
  revert off k; induction files as [|g files IH]; intros off k Hc Hk; [done|].
  destruct Hc as (Ho & Hl & Hc). pose proof (total_len_nonneg _ _ Hc).
  destruct k as [|k]; simpl in Hk; simplify_eq; simpl; [lia|].
  destruct (IH _ _ Hc Hk). lia.
Qed.

(** The one mapping of an overlapping piece into file [i]. *)
Lemma file_overlap t i f p :
  wf_torrent t -> t_files t !! i = Some f -> piece_in_range t p ->
  p * t_piece_length t < tfi_offset f + tfi_length f ->
  tfi_offset f < (p + 1) * t_piece_length t -> 0 < tfi_length f ->
  filter (fun mp => pm_file_index mp = i) (map_piece_to_files t p) =
  [mkMapping i (Z.max (p * t_piece_length t) (tfi_offset f) - tfi_offset f)
     (Z.min ((p + 1) * t_piece_length t) (tfi_offset f + tfi_length f) -
      Z.max (p * t_piece_length t) (tfi_offset f))].
Proof.
  intros Hwf Hf Hp H1 H2 Hlen. pose proof Hwf as [Hpl Hc Ht Hl].
  destruct (contiguous_lookup _ _ _ _ Hc Hf) as (Ho & _ & He).
  unfold map_piece_to_files. rewrite calculate_bounds_wf by done.
  rewrite filter_map_files, (proj2 (Nat.leb_le _ _)), Nat.sub_0_r, Hf by lia.
  cbn [map_files]. rewrite (wrap64_nonneg_small (tfi_offset f)) by lia.
  rewrite (wrap64_nonneg_small (tfi_length f)), wrap64_nonneg_small by lia.
  rewrite (proj2 (Z.ltb_lt _ _)), (proj2 (Z.ltb_lt _ _)) by lia. cbn [andb].
  do 3 f_equal; lia.
Qed.

(** The number of bytes at positions [a <= b < a + n] whose piece we have. *)
Definition covered (piece_length : Z) (has : u32 -> bool) (a n : Z) : Z :=
  Z.of_nat (length (filter (fun b => has (b / piece_length) = true) (seqZ a n))).

Lemma covered_app pl has a n k :
  0 <= n -> 0 <= k -> covered pl has a (n + k) = covered pl has a n + covered pl has (a + n) k.
Proof.
  intros. unfold covered. rewrite seqZ_app by lia. rewrite filter_app, length_app. lia.
Qed.

Lemma covered_const pl has p a n :
  (forall b, a <= b < a + n -> b / pl = p) -> 0 <= n ->
  covered pl has a n = if has p then n else 0.
Proof.
  intros Hb Hn. unfold covered.
  assert (Hext : filter (fun b => has (b / pl) = true) (seqZ a n) =
                 if has p then seqZ a n else []).
  { assert (HF : Forall (fun b => b / pl = p) (seqZ a n)).
    { apply Forall_forall. intros b Hin%elem_of_seqZ. by apply Hb. }
    induction HF as [|b l Hpb _ IH]; [by destruct (has p)|].
    rewrite filter_cons. rewrite Hpb, IH. by destruct (has p). }
  rewrite Hext. destruct (has p); [rewrite length_seqZ; lia|done].
Qed.

Lemma div_in_piece b p pl : 0 < pl -> p * pl <= b < (p + 1) * pl -> b / pl = p.
Proof. intros. symmetry. apply Z.div_unique with (b - p * pl); lia. Qed.

(** Accumulating the overlaps of the first [n] pieces of a file counts the
    covered bytes up to the end of the last of them. *)
Lemma have_loop t i f (has : u32 -> bool) n :
  wf_torrent t -> t_files t !! i = Some f -> 0 < tfi_length f ->
  t_length t <= U32_MAX * t_piece_length t ->
  let pl := t_piece_length t in
  let fs := tfi_offset f in
  let fe := fs + tfi_length f in
  let first := fs / pl in
  (first + Z.of_nat n - 1) * pl < fe ->
  fold_left (fun have o => if has (fo_piece o) then wrap64 (have + fo_length o) else have)
    (flat_map
       (fun piece => map (fun mp => mkOverlap (wrap32 piece) (pm_length mp))
          (filter (fun mp => pm_file_index mp = i) (map_piece_to_files t piece)))
       (seqZ first (Z.of_nat n))) 0
  = covered pl has fs (Z.max fs (Z.min ((first + Z.of_nat n) * pl) fe) - fs).
Proof.
  intros Hwf Hf Hlen Hcnt. cbn zeta. pose proof Hwf as [Hpl Hc Ht Hl].
  destruct (contiguous_lookup _ _ _ _ Hc Hf) as (Ho & _ & He).
  set (pl := t_piece_length t) in *. set (fs := tfi_offset f) in *.
  set (fe := fs + tfi_length f) in *. set (first := fs / pl).
  assert (Hfirst : first * pl <= fs < (first + 1) * pl).
  { unfold first. pose proof (Z.div_mod fs pl). pose proof (Z.mod_pos_bound fs pl). nia. }
  induction n as [|n IH]; intros Hn.
  - simpl. rewrite Z.max_l by lia. by rewrite Z.sub_diag.
  - rewrite Nat2Z.inj_succ, <- Z.add_1_r, seqZ_app by lia.
    rewrite flat_map_app, fold_left_app, IH by nia. clear IH.
    set (p := first + Z.of_nat n) in *.
    assert (Hp : piece_in_range t p) by (split; [unfold p; nia|fold pl; nia]).
    replace (seqZ p 1) with [p] by (unfold seqZ; simpl; f_equal; lia).
    cbn [flat_map]. rewrite app_nil_r.
    rewrite (file_overlap t i f p) by (try done; fold pl fs; nia).
    cbn [map fold_left fo_piece fo_length pm_length]. fold pl fs fe.
    rewrite wrap32_small by (split; [destruct Hp; lia|]; destruct Hp; nia).
    set (E := Z.max fs (Z.min (p * pl) fe)).
    set (E' := Z.max fs (Z.min ((first + (Z.of_nat n + 1)) * pl) fe)).
    assert (HE : E = Z.max (p * pl) fs) by (unfold E; lia).
    assert (HE' : E' = Z.min ((p + 1) * pl) fe) by (unfold E', p; nia).
    assert (Hle : fs <= E <= E') by (rewrite HE, HE'; nia).
    replace (E' - fs) with ((E - fs) + (E' - E)) by lia.
    rewrite covered_app by lia. replace (fs + (E - fs)) with E by lia.
    rewrite (covered_const pl has p E) by
      (try (intros; apply div_in_piece); rewrite ?HE, ?HE' in *; nia).
    rewrite <- HE, <- HE'. destruct (has p); [|lia].
    apply wrap64_small. unfold covered.
    assert (HF : (length (filter (fun b => has (b / pl)%Z = true) (seqZ fs (E - fs))) <=
      length (seqZ fs (E - fs)))%nat) by apply length_filter.
    rewrite length_seqZ in HF. ranges.
Qed.

(** The piece hashes cover the torrent, and there are at most [u32::MAX]
    pieces. *)
Definition piece_count_ok (t : Torrent) : Prop :=
  let n := Z.of_nat (length (t_piece_hashes t)) in
  (n - 1) * t_piece_length t < t_length t <= n * t_piece_length t /\ n <= U32_MAX.

(** [file_have_bytes] is exact: it counts the bytes of the file that lie in
    a piece we have, each once; so it is the file's length when every piece is
    there and 0 when none is. *)
Theorem file_have_bytes_exact t i f (has : u32 -> bool) :
  wf_torrent t -> piece_count_ok t -> t_files t !! i = Some f ->
  file_have_bytes t i has = covered (t_piece_length t) has (tfi_offset f) (tfi_length f).
Proof.
  intros Hwf Hcnt Hf. unfold file_have_bytes, file_piece_mappings. rewrite Hf.
  pose proof Hwf as [Hpl Hc Ht Hl].
  destruct (contiguous_lookup _ _ _ _ Hc Hf) as (Ho & Hlen0 & He).
  destruct (Z.leb_spec (tfi_length f) 0) as [H0|Hlen].
  { unfold covered. by replace (tfi_length f) with 0 by lia. }
  rewrite (proj2 (Z.leb_gt _ _)) by lia. cbn [orb]. cbn zeta.
  rewrite (wrap64_nonneg_small (t_piece_length t)), (Z.max_l (tfi_offset f)) by lia.
  rewrite (wrap64_nonneg_small (tfi_offset f)), (wrap64_nonneg_small (tfi_length f)) by lia.
  rewrite (wrap64_nonneg_small (tfi_offset f + tfi_length f)) by lia.
  rewrite (wrap64_nonneg_small (tfi_offset f + tfi_length f - 1)) by lia.
  destruct Hcnt as [Hn Hn32]. set (n := Z.of_nat (length (t_piece_hashes t))) in *.
  set (pl := t_piece_length t) in *. set (fs := tfi_offset f) in *.
  set (fe := fs + tfi_length f) in *.
  assert (Hlast : (fe - 1) / pl * pl <= fe - 1 < ((fe - 1) / pl + 1) * pl).
  { pose proof (Z.div_mod (fe - 1) pl). pose proof (Z.mod_pos_bound (fe - 1) pl). nia. }
  assert (Hfl : fs / pl <= (fe - 1) / pl) by (apply Z.div_le_mono; lia).
  rewrite (Z.min_l ((fe - 1) / pl)) by (unfold sat_sub; nia).
  replace ((fe - 1) / pl - fs / pl + 1)
    with (Z.of_nat (Z.to_nat ((fe - 1) / pl - fs / pl + 1))) by lia.
  rewrite (have_loop t i f has) by (try done; fold pl fs fe; nia).
  fold pl fs fe. rewrite Z2Nat.id by lia.
  replace (fs / pl + ((fe - 1) / pl - fs / pl + 1)) with ((fe - 1) / pl + 1) by lia.
  rewrite (Z.min_r (((fe - 1) / pl + 1) * pl)), Z.max_r by lia.
  replace (fe - fs) with (tfi_length f) by lia. apply Z.min_l.
  unfold covered.
  assert (HF : (length (filter (fun b => has (b / pl)%Z = true) (seqZ fs (tfi_length f))) <=
    length (seqZ fs (tfi_length f)))%nat) by apply length_filter.
  rewrite length_seqZ in HF. lia.
Qed.

Definition example_torrent : Torrent :=
  mkTorrent [] (replicate 3 []) 20 55
    [mkTFI [[97]] 30 0; mkTFI [[99]] 0 30; mkTFI [[100]] 25 30] [116] false.

Lemma example_torrent_wf : wf_torrent example_torrent.
Proof. split; simpl; ranges. Qed.
