(* ===== verification/Storage.v ===== *)
(** * Piece storage (crates/bit_rev/src/storage/mod.rs)

    The files of a torrent with the positional reads and writes of a piece
    split over them, and the LRU piece cache.  A file is its content; disk
    errors are the environment's, except reading past the end of a file, which
    [read_at] reports.  The main theorems show that storage refines one flat
    byte array: the concatenation of the files. *)

From S2P Require Import Prelude Metainfo Layout Priority.

Inductive StorageError :=
| StIo
| PieceOutOfRange (index : u32)
| BlockOutOfBounds (index begin length : u32)
| DestinationExists (path : bytes).

(** ** The piece cache *)

Record PieceCache := mkCache {
  c_capacity : nat; c_map : gmap Z bytes; c_order : list u32 }.

Definition cache_new (capacity : nat) : PieceCache := mkCache capacity ∅ [].

Definition retain_ne (index : u32) (order : list u32) : list u32 :=
  filter (fun i => i <> index) order.

Definition cache_lookup (c : PieceCache) (index : u32) : option bytes * PieceCache :=
  match c_map c !! index with
  | None => (None, c)
  | Some v => (Some v, mkCache (c_capacity c) (c_map c) (retain_ne index (c_order c) ++ [index]))
  end.

Definition cache_insert (c : PieceCache) (index : u32) (data : bytes) : PieceCache :=
  if (c_capacity c =? 0)%nat then c
  else
    let '(m, order) :=
      match c_map c !! index with
      | Some _ => (c_map c, retain_ne index (c_order c))
      | None =>
          if (c_capacity c <=? size (c_map c))%nat then
            match c_order c with
            | old :: order' => (delete old (c_map c), order')
            | [] => (c_map c, c_order c)
            end
          else (c_map c, c_order c)
      end in
    mkCache (c_capacity c) (<[index := data]> m) (order ++ [index]).

Definition cache_remove (c : PieceCache) (index : u32) : PieceCache :=
  mkCache (c_capacity c) (delete index (c_map c)) (retain_ne index (c_order c)).

(** ** Positional I/O on a file's content *)

(** [write_at]: overwrite from [offset] on, filling a gap with zeros. *)
Definition write_at (file : bytes) (buf : bytes) (offset : nat) : bytes :=
  take offset file ++ replicate (offset - length file) 0 ++ buf ++
  drop (offset + length buf) file.

(** [read_at]: [n] bytes from [offset], [None] when the file ends before. *)
Definition read_at (file : bytes) (n offset : nat) : option bytes :=
  if (n =? 0)%nat then Some []
  else if (offset + n <=? length file)%nat then Some (seg offset (offset + n) file)
  else None.

(** [write_mapped]; [None] is a panic (slice or file index out of range). *)
Fixpoint write_mapped (files : list bytes) (mappings : list PieceFileMapping) (buf : bytes)
    (buf_offset : nat) : option (list bytes) :=
  match mappings with
  | [] => Some files
  | mp :: rest =>
      let len := Z.to_nat (pm_length mp) in
      s ← slice buf buf_offset (buf_offset + len);
      files' ←
        match s with
        | [] => Some files
        | _ =>
            file ← files !! pm_file_index mp;
            Some (<[pm_file_index mp := write_at file s (Z.to_nat (pm_file_offset mp))]> files)
        end;
      write_mapped files' rest buf (buf_offset + len)
  end.

(** [read_mapped]; [None] is a panic, [Some None] a read past the end of a
    file. *)
Fixpoint read_mapped (files : list bytes) (mappings : list PieceFileMapping)
    (window_start window_end piece_offset : nat) (out : bytes) : option (option bytes) :=
  match mappings with
  | [] => Some (Some out)
  | mp :: rest =>
      let map_start := piece_offset in
      let map_end := (piece_offset + Z.to_nat (pm_length mp))%nat in
      let overlap_start := Nat.max map_start window_start in
      let overlap_end := Nat.min map_end window_end in
      if (overlap_start <? overlap_end)%nat then
        file ← files !! pm_file_index mp;
        let file_offset := (Z.to_nat (pm_file_offset mp) + (overlap_start - map_start))%nat in
        match read_at file (overlap_end - overlap_start) file_offset with
        | None => Some None
        | Some chunk => read_mapped files rest window_start window_end map_end (out ++ chunk)
        end
      else read_mapped files rest window_start window_end map_end out
  end.

(** ** Storage *)

Record Storage := mkStorage {
  s_torrent : Torrent; s_files : list bytes; s_cache : PieceCache; s_cache_capacity : nat }.

Definition set_files (st : Storage) (files : list bytes) : Storage :=
  mkStorage (s_torrent st) files (s_cache st) (s_cache_capacity st).
Definition set_cache (st : Storage) (c : PieceCache) : Storage :=
  mkStorage (s_torrent st) (s_files st) c (s_cache_capacity st).

Definition check_piece_index (st : Storage) (index : u32) : result unit StorageError :=
  if Z.of_nat (length (t_piece_hashes (s_torrent st))) <=? index
  then Err (PieceOutOfRange index) else Ok ().

Definition cache_put (st : Storage) (index : u32) (data : bytes) : Storage :=
  if (s_cache_capacity st =? 0)%nat then st
  else set_cache st (cache_insert (s_cache st) index data).

Definition invalidate_cache (st : Storage) (index : u32) : Storage :=
  if (s_cache_capacity st =? 0)%nat then st
  else set_cache st (cache_remove (s_cache st) index).

(** [Storage::cache_get]; [None] is a panic of the slice. *)
Definition cache_get (st : Storage) (index : u32) (begin len : nat)
  : option (option bytes * Storage) :=
  if (s_cache_capacity st =? 0)%nat then Some (None, st)
  else
    let '(hit, c) := cache_lookup (s_cache st) index in
    match hit with
    | None => Some (None, set_cache st c)
    | Some piece => b ← slice piece begin (begin + len); Some (Some b, set_cache st c)
    end.

(** How [open] grows a file. *)
Inductive Preallocate := Sparse | Full | Off.

(** [StorageFile::allocate]: a file is only ever extended, with zeros. *)
Definition allocate (file : bytes) (len : u64) (mode : Preallocate) : bytes :=
  match mode with
  | Off => file
  | Sparse | Full =>
      if (len =? 0) || (len <=? Z.of_nat (length file)) then file
      else file ++ replicate (Z.to_nat len - length file) 0
  end.

(** [open_sync]: [disk i] is what is on disk under the path of file [i], created
    empty when it is missing. *)
Definition storage_open (t : Torrent) (disk : nat -> option bytes) (mode : Preallocate)
    (capacity : nat) : Storage :=
  let files :=
    imap (fun i f => allocate (default [] (disk i)) (Z.max 0 (tfi_length f)) mode) (t_files t) in
  mkStorage t files (cache_new capacity) capacity.

(** [Storage::write_piece]; [None] is a panic. *)
Definition write_piece (st : Storage) (index : u32) (buf : bytes)
  : option (result unit StorageError * Storage) :=
  match check_piece_index st index with
  | Err e => Some (Err e, st)
  | Ok _ =>
      let expected := calculate_piece_size (s_torrent st) index in
      if negb (Z.of_nat (length buf) =? expected)
      then Some (Err (BlockOutOfBounds index 0 (wrap32 (Z.of_nat (length buf)))), st)
      else
        let mappings := map_piece_to_files (s_torrent st) index in
        let st := invalidate_cache st index in
        files ← write_mapped (s_files st) mappings buf 0;
        Some (Ok (), set_files st files)
  end.

(** [Storage::read_block]; [None] is a panic. *)
Definition read_block (st : Storage) (index begin len : u32)
  : option (result bytes StorageError * Storage) :=
  match check_piece_index st index with
  | Err e => Some (Err e, st)
  | Ok _ =>
      let piece_size := calculate_piece_size (s_torrent st) index in
      if (len =? 0) || (piece_size <? sat_add U64_MAX begin len)
      then Some (Err (BlockOutOfBounds index begin len), st)
      else
        let b := Z.to_nat begin in
        let l := Z.to_nat len in
        '(hit, st) ← cache_get st index b l;
        match hit with
        | Some data => Some (Ok data, st)
        | None =>
            let mappings := map_piece_to_files (s_torrent st) index in
            r ← (if (0 <? s_cache_capacity st)%nat
                 then read_mapped (s_files st) mappings 0 (Z.to_nat piece_size) 0 []
                 else read_mapped (s_files st) mappings b (b + l) 0 []);
            match r with
            | None => Some (Err StIo, st)
            | Some piece =>
                if (0 <? s_cache_capacity st)%nat then
                  out ← slice piece b (b + l);
                  Some (Ok out, cache_put st index piece)
                else Some (Ok piece, st)
            end
        end
  end.

(** ** The operations among other tasks

    Both operations hand the positional I/O to a blocking thread and wait for it.  Their
    steps: what is done before, one system call at a time, and what is done after.  A
    range of a file shrinks by the bytes a call has transferred. *)

Definition advance (n : nat) (mp : PieceFileMapping) : PieceFileMapping :=
  mkMapping (pm_file_index mp) (pm_file_offset mp + Z.of_nat n) (pm_length mp - Z.of_nat n).

Definition shrink (n : nat) (mp : PieceFileMapping) (rest : list PieceFileMapping) : list PieceFileMapping :=
  if Z.of_nat n =? pm_length mp then rest else advance n mp :: rest.

(** A write under way: the bytes of the buffer from [wg_offset] on are still to be written. *)
Record Writing := mkWriting { wg_index : u32; wg_buf : bytes; wg_ranges : list PieceFileMapping; wg_offset : nat }.

Definition write_begin (st : Storage) (index : u32) (buf : bytes) : result Writing StorageError * Storage :=
  match check_piece_index st index with
  | Err e => (Err e, st)
  | Ok _ =>
      if negb (Z.of_nat (length buf) =? calculate_piece_size (s_torrent st) index)
      then (Err (BlockOutOfBounds index 0 (wrap32 (Z.of_nat (length buf)))), st)
      else (Ok (mkWriting index buf (map_piece_to_files (s_torrent st) index) 0), invalidate_cache st index)
  end.

(** One [positional_write] that takes at most [n] bytes; taking none is an error.
    [None] is a panic, [Some None] an error. *)
Definition write_some (st : Storage) (n : nat) (w : Writing) : option (option (Writing * Storage)) :=
  match wg_ranges w with
  | [] => Some (Some (w, st))
  | mp :: rest =>
      s ← slice (wg_buf w) (wg_offset w) (wg_offset w + Z.to_nat (pm_length mp));
      match s with
      | [] => Some (Some (mkWriting (wg_index w) (wg_buf w) rest (wg_offset w), st))
      | _ =>
          file ← s_files st !! pm_file_index mp;
          let n := Nat.min n (length s) in
          if (n =? 0)%nat then Some None
          else Some (Some (mkWriting (wg_index w) (wg_buf w) (shrink n mp rest) (wg_offset w + n),
                 set_files st (<[pm_file_index mp := write_at file (take n s) (Z.to_nat (pm_file_offset mp))]> (s_files st))))
      end
  end.

(** A read under way: the ranges still to be read, and what has been read. *)
Record Reading := mkReading { rg_ranges : list PieceFileMapping; rg_out : bytes }.

Inductive ReadStart := ReadFails (e : StorageError) | ReadHit (data : bytes) | ReadFiles (r : Reading).

(** What a window of the piece covers of the files. *)
Fixpoint read_ranges (mappings : list PieceFileMapping) (window_start window_end piece_offset : nat) : list PieceFileMapping :=
  match mappings with
  | [] => []
  | mp :: rest =>
      let map_start := piece_offset in
      let map_end := (piece_offset + Z.to_nat (pm_length mp))%nat in
      let overlap_start := Nat.max map_start window_start in
      let overlap_end := Nat.min map_end window_end in
      let rest := read_ranges rest window_start window_end map_end in
      if (overlap_start <? overlap_end)%nat
      then mkMapping (pm_file_index mp) (pm_file_offset mp + Z.of_nat (overlap_start - map_start)) (Z.of_nat (overlap_end - overlap_start)) :: rest
      else rest
  end.

Definition read_begin (st : Storage) (index begin len : u32) : option (ReadStart * Storage) :=
  match check_piece_index st index with
  | Err e => Some (ReadFails e, st)
  | Ok _ =>
      let piece_size := calculate_piece_size (s_torrent st) index in
      if (len =? 0) || (piece_size <? sat_add U64_MAX begin len)
      then Some (ReadFails (BlockOutOfBounds index begin len), st)
      else
        let b := Z.to_nat begin in
        let l := Z.to_nat len in
        '(hit, st) ← cache_get st index b l;
        match hit with
        | Some data => Some (ReadHit data, st)
        | None =>
            let mappings := map_piece_to_files (s_torrent st) index in
            Some (ReadFiles (mkReading (if (0 <? s_cache_capacity st)%nat then read_ranges mappings 0 (Z.to_nat piece_size) 0
                                        else read_ranges mappings b (b + l) 0) []), st)
        end
  end.

(** One [positional_read] that gives at most [n] bytes; none is an error. *)
Definition read_some (st : Storage) (n : nat) (r : Reading) : option (option Reading) :=
  match rg_ranges r with
  | [] => Some (Some r)
  | mp :: rest =>
      file ← s_files st !! pm_file_index mp;
      let at' := Z.to_nat (pm_file_offset mp) in
      let n := Nat.min (Nat.min n (Z.to_nat (pm_length mp))) (length file - at') in
      if (n =? 0)%nat then Some None
      else Some (Some (mkReading (shrink n mp rest) (rg_out r ++ seg at' (at' + n) file)))
  end.

(** The thread has read everything. *)
Definition read_end (st : Storage) (index begin len : u32) (piece : bytes) : option (bytes * Storage) :=
  let b := Z.to_nat begin in
  let l := Z.to_nat len in
  if (0 <? s_cache_capacity st)%nat then
    out ← slice piece b (b + l);
    Some (out, cache_put st index piece)
  else Some (piece, st).

(** ** Reading through mappings *)

Lemma length_mapping_bytes cs mp :
  mapping_ok cs mp -> length (mapping_bytes cs mp) = Z.to_nat (pm_length mp).
Proof.
  intros (H1 & H2 & c & Hc & Hle). unfold mapping_bytes. rewrite Hc. cbn.
  rewrite length_seg. lia.
Qed.

Lemma read_mapped_spec files mps ws we po out :
  Forall (mapping_ok files) mps -> (ws <= we)%nat ->
  read_mapped files mps ws we po out =
  Some (Some (out ++ seg (ws - po) (we - po) (mapped_bytes files mps))).
Proof.
  intros Hok Hw. revert po out.
  induction Hok as [|mp mps Hmp Hok IH]; intros po out.
  { cbn. by rewrite seg_nil, app_nil_r. }
  cbn [read_mapped mapped_bytes map concat].
  change (concat (map (mapping_bytes files) mps)) with (mapped_bytes files mps).
  rewrite seg_app, (length_mapping_bytes _ _ Hmp).
  replace (ws - po - Z.to_nat (pm_length mp))%nat
    with (ws - (po + Z.to_nat (pm_length mp)))%nat by lia.
  replace (we - po - Z.to_nat (pm_length mp))%nat
    with (we - (po + Z.to_nat (pm_length mp)))%nat by lia.
  pose proof (length_mapping_bytes _ _ Hmp) as Hlen.
  destruct Hmp as (H1 & H2 & c & Hc & Hle).
  destruct (Nat.ltb_spec (Nat.max po ws) (Nat.min (po + Z.to_nat (pm_length mp)) we)).
  - rewrite Hc. cbn [mbind option_bind]. unfold read_at.
    rewrite (proj2 (Nat.eqb_neq _ _)), (proj2 (Nat.leb_le _ _)) by lia.
    rewrite IH, <- app_assoc. do 4 f_equal.
    rewrite <- (seg_clip (ws - po) (we - po)), Hlen.
    unfold mapping_bytes. rewrite Hc. cbn [default]. rewrite seg_seg by lia. f_equal; lia.
  - rewrite IH. do 3 f_equal. rewrite (seg_empty (ws - po)); [done|]. lia.
Qed.

(** ** Writing through mappings *)

Lemma write_at_splice c s a b :
  (a <= length c)%nat -> (a <= b)%nat -> length s = (Nat.min b (length c) - a)%nat ->
  write_at c s a = splice a b s c.
Proof.
  intros. unfold write_at, splice. replace (a - length c)%nat with 0%nat by lia. simpl.
  do 2 f_equal. destruct (decide (b <= length c)%nat); [f_equal; lia|].
  rewrite !drop_ge by lia. done.
Qed.

(** One file of the loop: its content is spliced, the buffer advances by the
    overlap. *)
Lemma write_mapped_step (ps pe : Z) f files c cs pre off buf bo :
  tfi_offset f = off -> 0 <= tfi_length f -> 0 <= off -> off + tfi_length f <= I64_MAX ->
  tfi_length f = Z.of_nat (length c) -> 0 <= ps <= pe ->
  let a := Z.to_nat (ps - off) in
  let b := Z.to_nat (pe - off) in
  let n := (Nat.min b (length c) - a)%nat in
  (bo + n <= length buf)%nat ->
  write_mapped (pre ++ c :: cs) (map_files ps pe (length pre) (f :: files)) buf bo =
  write_mapped (pre ++ splice a b (seg bo (bo + n) buf) c :: cs)
    (map_files ps pe (S (length pre)) files) buf (bo + n).
Proof.
  intros Ho Hl Hoff Htot Hlen Hp a b n Hbuf.
  assert (Hx : length (seg bo (bo + n) buf) = n) by (rewrite length_seg; lia).
  cbn [map_files]. rewrite Ho, (wrap64_nonneg_small off) by lia.
  rewrite (wrap64_nonneg_small (tfi_length f)), (wrap64_nonneg_small (off + tfi_length f)) by lia.
  destruct (Z.ltb_spec ps (off + tfi_length f)) as [H1|H1],
    (Z.ltb_spec off pe) as [H2|H2]; cbn [andb].
  2-4: replace n with 0%nat by (unfold n, a, b; lia);
       rewrite (seg_empty bo), splice_none, Nat.add_0_r by (unfold a, b; lia); done.
  cbn [write_mapped pm_length pm_file_index pm_file_offset].
  replace (Z.to_nat (Z.min pe (off + tfi_length f) - Z.max ps off)) with n
    by (unfold n, a, b; lia).
  replace (Z.to_nat (Z.max ps off - off)) with a by (unfold a; lia).
  assert (Hab : (a <= b)%nat) by (unfold a, b; lia).
  assert (Hac : (a <= length c)%nat) by (unfold a; lia).
  rewrite slice_seg by (clearbody n; lia). cbn [mbind option_bind].
  assert (Hlook : (pre ++ c :: cs) !! length pre = Some c) by by apply list_lookup_middle.
  destruct (seg bo (bo + n) buf) as [|x xs] eqn:Es.
  - cbn [mbind option_bind]. do 3 f_equal. symmetry. simpl in Hx.
    assert (Hn : n = (Nat.min b (length c) - a)%nat) by done. clearbody n a b.
    destruct (decide (length c <= a)%nat); [by apply splice_none; [|left]|].
    unfold splice. simpl. replace b with a by lia. by rewrite take_drop.
  - rewrite Hlook. cbn [mbind option_bind]. rewrite insert_middle by done.
    by rewrite (write_at_splice c _ a b).
Qed.

Lemma write_mapped_files (ps pe : Z) files cs pre off buf bo :
  contiguous off files -> 0 <= off -> off + total_len files <= I64_MAX ->
  sized files cs -> 0 <= ps <= pe ->
  let a := Z.to_nat (ps - off) in
  let b := Z.to_nat (pe - off) in
  let n := length (seg a b (concat cs)) in
  (bo + n <= length buf)%nat ->
  exists cs',
    write_mapped (pre ++ cs) (map_files ps pe (length pre) files) buf bo = Some (pre ++ cs') /\
    sized files cs' /\ concat cs' = splice a b (seg bo (bo + n) buf) (concat cs).
Proof.
  intros Hc Hoff Htot Hs Hp. cbn zeta. revert off pre bo Hc Hoff Htot.
  induction Hs as [|f c files cs Hlen Hs IH]; intros off pre bo Hc Hoff Htot Hbuf.
  { exists []. simpl. split_and!; [done|constructor|].
    rewrite seg_nil. unfold splice. rewrite take_nil, drop_nil, app_nil_r. simpl.
    by rewrite seg_empty by lia. }
  destruct Hc as (Ho & Hl & Hc). cbn [total_len fold_right] in Htot.
  change (fold_right _ 0 files) with (total_len files) in Htot.
  pose proof (total_len_nonneg _ _ Hc).
  cbn [concat] in Hbuf |- *. rewrite seg_app, length_app, !length_seg in *.
  rewrite (write_mapped_step _ _ _ _ _ _ _ off) by (done || lia).
  set (a := Z.to_nat (ps - off)) in *. set (b := Z.to_nat (pe - off)) in *.
  assert (Ha' : Z.to_nat (ps - (off + tfi_length f)) = (a - length c)%nat) by (unfold a; lia).
  assert (Hb' : Z.to_nat (pe - (off + tfi_length f)) = (b - length c)%nat) by (unfold b; lia).
  assert (Hab : (a <= b)%nat) by (unfold a, b; lia).
  set (n1 := (Nat.min b (length c) - a)%nat) in *.
  set (n2 := (Nat.min (b - length c) (length (concat cs)) - (a - length c))%nat) in *.
  set (c' := splice a b (seg bo (bo + n1) buf) c).
  assert (Hl1 : length (seg bo (bo + n1) buf) = n1) by (rewrite length_seg; clearbody n1; lia).
  assert (Hlc' : length c' = length c) by (by apply length_splice).
  destruct (IH (off + tfi_length f) (pre ++ [c']) (bo + n1)%nat) as (cs' & Hw' & Hs' & Hcat);
    [done|lia|lia|rewrite Ha', Hb', length_seg; fold n2; clearbody n1 n2; lia|].
  rewrite length_app, Nat.add_comm, <- !app_assoc in Hw'. cbn [length Nat.add app] in Hw'.
  exists (c' :: cs'). split; [done|]. split; [constructor; [by rewrite Hlc'|done]|].
  cbn [concat]. rewrite Hcat, Ha', Hb', length_seg. fold n2. unfold c'.
  rewrite splice_app; [|done|done|rewrite length_seg; fold n2; clearbody n1 n2; lia].
  rewrite seg_join, Nat.add_assoc by (clearbody n1 n2; lia). done.
Qed.

(** ** The cache *)

(** [c_order] lists the cached pieces once each, oldest use first, and at most
    [c_capacity] of them. *)
Record wf_cache (c : PieceCache) : Prop := {
  wfc_nodup : NoDup (c_order c);
  wfc_order : forall i, i ∈ c_order c <-> is_Some (c_map c !! i);
  wfc_size : (length (c_order c) <= c_capacity c)%nat }.

Lemma elem_retain_ne i j order : i ∈ retain_ne j order <-> i <> j /\ i ∈ order.
Proof. unfold retain_ne. by rewrite list_elem_of_filter. Qed.

Lemma retain_ne_notin i order : i ∉ order -> retain_ne i order = order.
Proof. intros H. apply filter_all, Forall_forall. by intros x Hx ->. Qed.

Lemma length_retain_ne i order :
  NoDup order -> i ∈ order -> S (length (retain_ne i order)) = length order.
Proof.
  induction 1 as [|x order Hx _ IH]; [by intros ?%not_elem_of_nil|].
  rewrite elem_of_cons. unfold retain_ne. intros [->|Hi].
  - rewrite filter_cons_False by tauto. simpl. f_equal. f_equal. by apply retain_ne_notin.
  - rewrite filter_cons_True by (intros ->; done). simpl. f_equal. by apply IH.
Qed.

Lemma length_retain_ne_le i order : (length (retain_ne i order) <= length order)%nat.
Proof. apply length_filter. Qed.

Lemma wf_cache_new n : wf_cache (cache_new n).
Proof.
  split; simpl; [constructor| |lia]. intros i. rewrite lookup_empty.
  split; [by intros ?%not_elem_of_nil|by intros [? ?]].
Qed.

Lemma size_order c : wf_cache c -> size (c_map c) = length (c_order c).
Proof.
  intros [Hn Ho Hs]. rewrite <- size_dom, <- (size_list_to_set (C := gset Z)) by done.
  f_equal. apply set_eq. intros i. by rewrite elem_of_dom, elem_of_list_to_set, Ho.
Qed.

Lemma cache_lookup_spec c i hit c' :
  wf_cache c -> cache_lookup c i = (hit, c') ->
  hit = c_map c !! i /\ wf_cache c' /\ c_map c' = c_map c /\ c_capacity c' = c_capacity c.
Proof.
  intros [Hn Ho Hs]. unfold cache_lookup.
  destruct (c_map c !! i) as [v|] eqn:E; intros [= <- <-]; [|done].
  assert (Hi : i ∈ c_order c) by (apply Ho; eauto).
  split_and!; [done| |done|done]. split; simpl.
  - apply NoDup_app. split_and!; [by apply NoDup_filter| |apply NoDup_singleton].
    intros x [Hx _]%elem_retain_ne ->%list_elem_of_singleton. done.
  - intros j. rewrite elem_of_app, elem_retain_ne, list_elem_of_singleton, Ho.
    destruct (decide (j = i)) as [->|]; [rewrite E; naive_solver|naive_solver].
  - rewrite length_app. simpl. pose proof (length_retain_ne i _ Hn Hi). lia.
Qed.

Lemma cache_remove_spec c i :
  wf_cache c -> wf_cache (cache_remove c i) /\ c_map (cache_remove c i) = delete i (c_map c).
Proof.
  intros [Hn Ho Hs]. split; [|done]. split; simpl.
  - by apply NoDup_filter.
  - intros j. rewrite elem_retain_ne, Ho. destruct (decide (j = i)) as [->|].
    + rewrite lookup_delete_eq. split; [tauto|by intros [? ?]].
    + rewrite lookup_delete_ne by done. tauto.
  - pose proof (length_retain_ne_le i (c_order c)). lia.
Qed.


Lemma cache_insert_spec c i data :
  wf_cache c -> (0 < c_capacity c)%nat ->
  wf_cache (cache_insert c i data) /\
  c_capacity (cache_insert c i data) = c_capacity c /\
  c_map (cache_insert c i data) !! i = Some data /\
  forall j, j <> i -> forall v, c_map (cache_insert c i data) !! j = Some v -> c_map c !! j = Some v.
Proof.
  intros Hwf Hcap. pose proof (size_order _ Hwf) as Hsz. destruct Hwf as [Hn Ho Hs].
  unfold cache_insert. rewrite (proj2 (Nat.eqb_neq _ _)) by lia.
  assert (Hgen : forall m order,
    NoDup order -> i ∉ order -> (forall j, j <> i -> j ∈ order <-> is_Some (m !! j)) ->
    (length order < c_capacity c)%nat -> m ⊆ c_map c ->
    let c' := mkCache (c_capacity c) (<[i := data]> m) (order ++ [i]) in
    wf_cache c' /\ c_capacity c' = c_capacity c /\ c_map c' !! i = Some data /\
    forall j, j <> i -> forall v, c_map c' !! j = Some v -> c_map c !! j = Some v).
  { intros m order Hno Hi Hord Hlen Hsub. split_and!; simpl; [split; simpl|done| |].
    - apply NoDup_app. split_and!; [done| |apply NoDup_singleton].
      by intros x Hx ->%list_elem_of_singleton.
    - intros j. rewrite elem_of_app, list_elem_of_singleton. destruct (decide (j = i)) as [->|Hj].
      + rewrite lookup_insert_eq. split; eauto.
      + rewrite lookup_insert_ne by done. rewrite <- Hord by done. naive_solver.
    - rewrite length_app. simpl. lia.
    - by rewrite lookup_insert_eq.
    - intros j Hj v. rewrite lookup_insert_ne by done. intros Hv. by eapply lookup_weaken. }
  destruct (c_map c !! i) as [v|] eqn:E.
  { assert (Hi : i ∈ c_order c) by (apply Ho; eauto).
    apply Hgen; [by apply NoDup_filter|by rewrite elem_retain_ne; intros []| | |done].
    - intros j Hj. rewrite elem_retain_ne, Ho. tauto.
    - pose proof (length_retain_ne _ _ Hn Hi). lia. }
  assert (Hi : i ∉ c_order c) by (rewrite Ho, E; by intros [? ?]).
  destruct (Nat.leb_spec (c_capacity c) (size (c_map c))); [|apply Hgen; try done; lia].
  destruct (c_order c) as [|old order] eqn:Eo; [simpl in *; lia|].
  apply NoDup_cons in Hn as [Hold Hn]. apply Hgen; [done|set_solver| |simpl in *; lia|apply delete_subseteq].
  intros j Hj. destruct (decide (j = old)) as [->|Hjo].
  - rewrite lookup_delete_eq. split; [done|by intros [? ?]].
  - rewrite lookup_delete_ne, <- Ho by done. rewrite elem_of_cons. naive_solver.
Qed.

(** ** Storage refines a flat byte array *)

Definition flat (st : Storage) : bytes := concat (s_files st).

(** The first byte of a piece and the byte after its last. *)
Definition piece_from (t : Torrent) (i : Z) : nat := Z.to_nat (i * t_piece_length t).
Definition piece_to (t : Torrent) (i : Z) : nat :=
  Z.to_nat (Z.min (t_length t) ((i + 1) * t_piece_length t)).

Definition valid_piece (t : Torrent) (i : Z) : Prop :=
  0 <= i < Z.of_nat (length (t_piece_hashes t)).

(** Every cached piece is what the files hold. *)
Definition coherent (st : Storage) : Prop :=
  forall i v, c_map (s_cache st) !! i = Some v ->
    valid_piece (s_torrent st) i /\
    v = seg (piece_from (s_torrent st) i) (piece_to (s_torrent st) i) (flat st).

Record wf_storage (st : Storage) : Prop := {
  ws_torrent : wf_torrent (s_torrent st);
  ws_pieces : piece_count_ok (s_torrent st);
  ws_sized : sized (t_files (s_torrent st)) (s_files st);
  ws_cache : wf_cache (s_cache st);
  ws_capacity : c_capacity (s_cache st) = s_cache_capacity st;
  ws_coherent : coherent st }.

(** Opening gives well-formed storage when no file on disk is longer than the
    torrent declares; what was on disk stays a prefix of the file. *)
Lemma storage_open_wf t disk mode n :
  wf_torrent t -> piece_count_ok t -> mode <> Off ->
  (forall i f, t_files t !! i = Some f ->
     Z.of_nat (length (default [] (disk i))) <= tfi_length f) ->
  wf_storage (storage_open t disk mode n).
Proof.
  intros Ht Hp Hm Hd. split; try done; [|apply wf_cache_new].
  apply Forall2_same_length_lookup_2; cbn [storage_open s_files s_torrent].
  - by rewrite length_imap.
  - intros i f c Hf Hc. rewrite list_lookup_imap, Hf in Hc. injection Hc as <-.
    specialize (Hd i f Hf). unfold allocate. rewrite Z.max_r by lia.
    destruct mode; [| |done]; (destruct (Z.eqb_spec (tfi_length f) 0);
      [simpl; lia|destruct (Z.leb_spec (tfi_length f) (Z.of_nat (length (default [] (disk i)))));
        [simpl; lia|cbn [orb]; rewrite length_app, length_replicate; lia]]).
Qed.

Section Pieces.
Context (st : Storage) (Hst : wf_storage st).
Local Abbreviation t := (s_torrent st).

Lemma valid_in_range i : valid_piece t i -> piece_in_range t i.
Proof using Hst.
  destruct Hst as [[Hpl Hc Ht Hl] [Hp _] _ _ _ _]. intros [H0 Hi]. split; [done|].
  unfold piece_count_ok in Hp. nia.
Qed.

Lemma piece_span i :
  valid_piece t i ->
  calculate_bounds_for_piece t i = (Z.of_nat (piece_from t i), Z.of_nat (piece_to t i)) /\
  calculate_piece_size t i = Z.of_nat (piece_to t i - piece_from t i) /\
  (piece_from t i < piece_to t i <= length (flat st))%nat.
Proof using Hst.
  intros Hi. apply valid_in_range in Hi. destruct Hst as [Hwf Hp Hs _ _ _].
  pose proof (concat_sized _ _ Hs) as Hlen. rewrite <- (wf_total _ Hwf) in Hlen.
  rewrite calculate_bounds_wf by done.
  destruct (calculate_piece_size_wf _ _ Hwf Hi) as [-> Hpos].
  destruct Hwf as [Hpl Hc Ht Hl], Hi as [H0 Hi]. unfold piece_from, piece_to, flat.
  assert (0 <= i * t_piece_length t) by nia.
  split_and!; [f_equal; lia|lia|lia|lia].
Qed.

Lemma piece_disjoint i j :
  valid_piece t i -> valid_piece t j -> i <> j ->
  (piece_to t i <= piece_from t j)%nat \/ (piece_to t j <= piece_from t i)%nat.
Proof using Hst.
  destruct Hst as [[Hpl Hc Ht Hl] _ _ _ _ _]. intros [Hi _] [Hj _] Hne.
  unfold piece_from, piece_to.
  destruct (Z.lt_total i j) as [H|[H|H]]; [left|done|right].
  - assert ((i + 1) * t_piece_length t <= j * t_piece_length t) by nia. lia.
  - assert ((j + 1) * t_piece_length t <= i * t_piece_length t) by nia. lia.
Qed.
End Pieces.

Lemma check_piece_index_spec st i :
  0 <= i ->
  (check_piece_index st i = Ok () /\ valid_piece (s_torrent st) i) \/
  (check_piece_index st i = Err (PieceOutOfRange i) /\ ~ valid_piece (s_torrent st) i).
Proof.
  intros. unfold check_piece_index, valid_piece. case_cmp; [right|left]; split; (done || lia).
Qed.

Lemma invalidate_cache_wf st i :
  wf_storage st ->
  wf_storage (invalidate_cache st i) /\
  c_map (s_cache (invalidate_cache st i)) !! i = None /\
  s_torrent (invalidate_cache st i) = s_torrent st /\
  s_files (invalidate_cache st i) = s_files st.
Proof.
  intros Hst. pose proof Hst as [Hw Hp Hs Hc Hcap Hco]. unfold invalidate_cache.
  destruct (Nat.eqb_spec (s_cache_capacity st) 0) as [E|E].
  - split_and!; try done. destruct (c_map (s_cache st) !! i) eqn:Ei; [|done].
    assert (Hin : i ∈ c_order (s_cache st)) by (apply (wfc_order _ Hc); eauto).
    pose proof (wfc_size _ Hc). destruct (c_order _); [by apply not_elem_of_nil in Hin|simpl in *; lia].
  - destruct (cache_remove_spec (s_cache st) i Hc) as [Hwf Hmap].
    split_and!; try done; [|cbn [set_cache s_cache]; rewrite Hmap; apply lookup_delete_eq].
    split; try done. intros j v. cbn [set_cache s_cache s_torrent]. rewrite Hmap.
    intros [_ Hj]%lookup_delete_Some. by apply Hco.
Qed.

(** Storing a piece of the flat array, as [write_piece] does after its checks. *)
Lemma write_valid_piece st i buf :
  wf_storage st -> valid_piece (s_torrent st) i ->
  Z.of_nat (length buf) = calculate_piece_size (s_torrent st) i ->
  let t := s_torrent st in
  exists st',
    write_piece st i buf = Some (Ok (), st') /\ wf_storage st' /\ s_torrent st' = t /\
    flat st' = splice (piece_from t i) (piece_to t i) buf (flat st).
Proof.
  intros Hst Hi Hlen. cbn zeta. destruct (piece_span _ Hst _ Hi) as (Hb & Hsz & Hrange).
  unfold write_piece.
  destruct (check_piece_index_spec st i) as [[-> _]|[_ []]]; [by destruct Hi| |done].
  rewrite Hlen, Z.eqb_refl. cbn [negb].
  destruct (invalidate_cache_wf st i Hst) as (Hst1 & Hnone & Ht1 & Hf1).
  pose proof Hst1 as [Hw1 Hp1 Hs1 Hc1 Hcap1 Hco1]. rewrite Hf1, Ht1 in *.
  pose proof Hw1 as [Hpl Hc Htot Hl].
  unfold map_piece_to_files. rewrite Hb.
  destruct (write_mapped_files (Z.of_nat (piece_from (s_torrent st) i))
    (Z.of_nat (piece_to (s_torrent st) i))
    (t_files (s_torrent st)) (s_files st) [] 0 buf 0) as (cs' & Hwr & Hs' & Hcat); try (done || lia).
  { rewrite length_seg. fold (flat st). lia. }
  cbn [app length] in Hwr. rewrite Hwr. cbn [mbind option_bind].
  fold (flat st) in Hcat. rewrite !Z.sub_0_r, !Nat2Z.id, length_seg, Nat.add_0_l in Hcat.
  replace (seg 0 _ buf) with buf in Hcat
    by (unfold seg; rewrite drop_0, take_ge; [done|lia]).
  eexists. split; [done|]. split; [|split; [by cbn [set_files s_torrent]|done]].
  split; cbn [set_files s_torrent s_files s_cache s_cache_capacity]; rewrite ?Ht1; try done.
  intros j v. cbn [set_files s_torrent s_files s_cache s_cache_capacity]. intros Hv.
  destruct (decide (j = i)) as [->|Hne]; [by rewrite Hnone in Hv|].
  apply Hco1 in Hv as [Hj ->]. rewrite Ht1 in *. split; [done|].
  unfold flat at 2. cbn [set_files s_files]. rewrite Hcat, seg_splice_disjoint; try lia.
  - unfold flat. by rewrite Hf1.
  - by apply (piece_disjoint st).
Qed.

Lemma write_piece_error st i buf :
  0 <= i ->
  ~ (valid_piece (s_torrent st) i /\
     Z.of_nat (length buf) = calculate_piece_size (s_torrent st) i) ->
  exists e, write_piece st i buf = Some (Err e, st).
Proof.
  intros Hi Hn. unfold write_piece. destruct (check_piece_index_spec st i Hi) as [[-> Hv]|[-> _]];
    [|by eexists].
  destruct (Z.eqb_spec (Z.of_nat (length buf)) (calculate_piece_size (s_torrent st) i));
    [by destruct Hn|by eexists].
Qed.

Lemma set_cache_wf st c :
  wf_storage st -> wf_cache c -> c_capacity c = c_capacity (s_cache st) ->
  (forall i v, c_map c !! i = Some v ->
     c_map (s_cache st) !! i = Some v \/
     valid_piece (s_torrent st) i /\
     v = seg (piece_from (s_torrent st) i) (piece_to (s_torrent st) i) (flat st)) ->
  wf_storage (set_cache st c).
Proof.
  intros [Hw Hp Hs Hc Hcap Hco] Hwf Hcap' Hsub. split; try done.
  - simpl. congruence.
  - intros i v Hv. destruct (Hsub i v Hv) as [H|H]; [by apply Hco in H|done].
Qed.

(** A lookup in the cache answers with the files' bytes. *)
Lemma cache_get_spec st i b l :
  wf_storage st -> valid_piece (s_torrent st) i ->
  let t := s_torrent st in
  (0 < l)%nat -> (b + l <= piece_to t i - piece_from t i)%nat ->
  exists hit st',
    cache_get st i b l = Some (hit, st') /\ wf_storage st' /\ s_torrent st' = t /\
    s_files st' = s_files st /\ s_cache_capacity st' = s_cache_capacity st /\
    (hit = None \/ hit = Some (seg (piece_from t i + b) (piece_from t i + b + l) (flat st))).
Proof.
  intros Hst Hi t Hl Hb. subst t. unfold cache_get.
  destruct (Nat.eqb_spec (s_cache_capacity st) 0); [by exists None, st; eauto 10|].
  destruct (cache_lookup (s_cache st) i) as [hit c] eqn:E.
  destruct (cache_lookup_spec _ _ _ _ (ws_cache _ Hst) E) as (-> & Hwf & Hmap & Hcap).
  assert (Hst' : wf_storage (set_cache st c)).
  { apply set_cache_wf; try done. intros j v. rewrite Hmap. auto. }
  destruct (c_map (s_cache st) !! i) as [v|] eqn:Ei; [|by eexists _, _; eauto 10].
  apply (ws_coherent _ Hst) in Ei as [_ ->].
  destruct (piece_span _ Hst _ Hi) as (_ & _ & Hspan).
  rewrite slice_seg by (rewrite length_seg; lia). cbn [mbind option_bind].
  rewrite seg_seg by lia. rewrite Nat.add_assoc. eexists _, _. eauto 10.
Qed.

Lemma cache_put_wf st i v :
  wf_storage st -> valid_piece (s_torrent st) i ->
  v = seg (piece_from (s_torrent st) i) (piece_to (s_torrent st) i) (flat st) ->
  wf_storage (cache_put st i v) /\ s_files (cache_put st i v) = s_files st /\
  s_torrent (cache_put st i v) = s_torrent st.
Proof.
  intros Hst Hi Hv. unfold cache_put. destruct (Nat.eqb_spec (s_cache_capacity st) 0); [done|].
  split; [|done]. pose proof (ws_capacity _ Hst).
  destruct (cache_insert_spec (s_cache st) i v (ws_cache _ Hst)) as (Hwf & Hcap & Hat & Hoth);
    [lia|].
  apply set_cache_wf; try done. intros j w Hw. destruct (decide (j = i)) as [->|Hne].
  - rewrite Hat in Hw. injection Hw as <-. by right.
  - left. by eapply Hoth.
Qed.

Lemma read_valid_block st i begin len :
  wf_storage st -> valid_piece (s_torrent st) i -> is_u32 begin -> is_u32 len ->
  0 < len -> begin + len <= calculate_piece_size (s_torrent st) i ->
  let from := (piece_from (s_torrent st) i + Z.to_nat begin)%nat in
  exists st',
    read_block st i begin len = Some (Ok (seg from (from + Z.to_nat len) (flat st)), st') /\
    wf_storage st' /\ s_torrent st' = s_torrent st /\ s_files st' = s_files st.
Proof.
  intros Hst Hi Hbu Hlu Hlen Hend. cbn zeta.
  destruct (piece_span _ Hst _ Hi) as (Hb & Hsz & Hspan).
  assert (Hin : (Z.to_nat begin + Z.to_nat len <=
                 piece_to (s_torrent st) i - piece_from (s_torrent st) i)%nat) by ranges.
  unfold read_block. destruct (check_piece_index_spec st i) as [[-> _]|[_ []]];
    [by destruct Hi| |done].
  rewrite (proj2 (Z.eqb_neq _ _)), (proj2 (Z.ltb_ge _ _)) by (unfold sat_add in *; ranges).
  cbn [orb].
  destruct (cache_get_spec st i (Z.to_nat begin) (Z.to_nat len) Hst Hi)
    as (hit & st1 & -> & Hst1 & Ht1 & Hf1 & Hc1 & Hhit); [lia|done|].
  cbn [mbind option_bind]. destruct Hhit as [->| ->]; [|by eexists].
  assert (Hflat : flat st1 = flat st) by (unfold flat; by rewrite Hf1).
  rewrite Hsz, Nat2Z.id, Hf1, Ht1.
  pose proof (map_piece_bytes (s_torrent st) (s_files st) i (ws_torrent _ Hst) (ws_sized _ Hst)
    (valid_in_range _ Hst _ Hi)) as Hmp.
  rewrite Hb, !Nat2Z.id in Hmp. destruct Hmp as (Hmb & Hok & _). fold (flat st) in Hmb.
  destruct (Nat.ltb_spec 0 (s_cache_capacity st1)) as [Hcap|Hcap].
  - rewrite read_mapped_spec, Hmb by (done || lia). cbn [mbind option_bind app].
    rewrite !Nat.sub_0_r, seg_seg, Nat.add_0_r by lia.
    replace (piece_from (s_torrent st) i + (piece_to (s_torrent st) i - piece_from (s_torrent st) i))%nat
      with (piece_to (s_torrent st) i) by lia.
    rewrite slice_seg by (rewrite length_seg; lia). cbn [mbind option_bind].
    rewrite seg_seg by lia. rewrite Nat.add_assoc.
    destruct (cache_put_wf st1 i (seg (piece_from (s_torrent st) i) (piece_to (s_torrent st) i)
      (flat st))) as (? & Hpf & Hpt); [done|by rewrite Ht1|by rewrite Ht1, Hflat|].
    eexists. split; [reflexivity|]. by rewrite Hpf, Hpt.
  - rewrite read_mapped_spec, Hmb by (done || lia). cbn [mbind option_bind app].
    rewrite !Nat.sub_0_r, seg_seg by lia. rewrite Nat.add_assoc. by eexists.
Qed.

(** The errors of [read_block]. *)
Lemma read_block_range st i begin len :
  is_u32 i -> ~ valid_piece (s_torrent st) i -> read_block st i begin len = Some (Err (PieceOutOfRange i), st).
Proof.
  intros Hi Hv. unfold read_block. destruct (check_piece_index_spec st i) as [[_ ?]|[-> _]]; [ranges|done|done].
Qed.

Lemma read_block_bounds st i begin len :
  wf_storage st -> is_u32 i -> is_u32 begin -> is_u32 len -> valid_piece (s_torrent st) i ->
  len = 0 \/ calculate_piece_size (s_torrent st) i < begin + len ->
  read_block st i begin len = Some (Err (BlockOutOfBounds i begin len), st).
Proof.
  intros Hst Hi Hb Hl Hv Hbad. unfold read_block.
  destruct (check_piece_index_spec st i) as [[-> _]|[_ []]]; [ranges| |done].
  destruct (piece_span _ Hst _ Hv) as (_ & Hsz & Hsp). destruct (Z.eqb_spec len 0); [done|]. cbn [orb].
  destruct Hbad as [?|Hbad]; [lia|]. by rewrite (proj2 (Z.ltb_lt _ _)) by ranges.
Qed.

(** Reading and writing always return, and keep the storage well formed. *)
Lemma read_block_total st i begin len :
  wf_storage st -> is_u32 i -> is_u32 begin -> is_u32 len ->
  exists r st', read_block st i begin len = Some (r, st') /\ wf_storage st'.
Proof.
  intros Hst Hi Hb Hl. destruct (decide (valid_piece (s_torrent st) i)) as [Hv|Hv]; [|eauto using read_block_range].
  destruct (decide (len = 0 \/ calculate_piece_size (s_torrent st) i < begin + len)) as [Hbad|Hok]; [eauto using read_block_bounds|].
  destruct (read_valid_block st i begin len) as (st' & E & Hst' & _); [done..|ranges|lia|eauto].
Qed.

Lemma write_piece_total st i buf :
  wf_storage st -> 0 <= i -> exists r st', write_piece st i buf = Some (r, st') /\ wf_storage st'.
Proof.
  intros Hst Hi. destruct (decide (valid_piece (s_torrent st) i /\ Z.of_nat (length buf) = calculate_piece_size (s_torrent st) i)) as [[Hv Hl]|Hn].
  - destruct (write_valid_piece st i buf Hst Hv Hl) as (st' & E & Hst' & _). eauto.
  - destruct (write_piece_error st i buf Hi Hn) as [e E]. eauto.
Qed.

(** C5: writing a piece never panics and refines writing to a flat array (the
    concatenation of the files): with a valid index and a buffer of exactly the
    piece's size it overwrites the piece's bytes and nothing else, across as
    many files as the piece spans; with any other arguments it returns an error
    and changes nothing. The storage invariant (file lengths, cache within its
    capacity and coherent with the files) is preserved. *)
Theorem write_piece_refines st i buf :
  wf_storage st -> is_u32 i ->
  let t := s_torrent st in
  exists r st',
    write_piece st i buf = Some (r, st') /\ wf_storage st' /\ s_torrent st' = t /\
    if decide (valid_piece t i /\ Z.of_nat (length buf) = calculate_piece_size t i)
    then r = Ok () /\ flat st' = splice (piece_from t i) (piece_to t i) buf (flat st)
    else is_ok r = false /\ st' = st.
Proof.
  intros Hst Hi. cbn zeta. destruct (decide _) as [[Hv Hl]|Hn].
  - destruct (write_valid_piece st i buf Hst Hv Hl) as (st' & ? & ? & ? & ?). eauto 10.
  - destruct (write_piece_error st i buf) as [e He]; [ranges|done|]. eauto 10.
Qed.

Definition example_storage : Storage :=
  storage_open example_torrent (fun i => mjoin ([Some (replicate 30 1); None; Some [2; 2]] !! i)) Sparse 2.

Lemma example_storage_wf : wf_storage example_storage.
Proof.
  apply storage_open_wf; [apply example_torrent_wf|unfold piece_count_ok; simpl; ranges|done|].
  intros [|[|[|i]]] f [= <-]; simpl; lia.
Qed.

Lemma write_piece_refines_witness :
  exists r st',
    write_piece example_storage 1 (replicate 20 7) = Some (r, st') /\ wf_storage st' /\
    s_torrent st' = s_torrent example_storage /\
    if decide (valid_piece (s_torrent example_storage) 1 /\
               20 = calculate_piece_size (s_torrent example_storage) 1)
    then r = Ok () /\
         flat st' = splice (piece_from (s_torrent example_storage) 1)
                      (piece_to (s_torrent example_storage) 1) (replicate 20 7)
                      (flat example_storage)
    else is_ok r = false /\ st' = example_storage.
Proof.
  apply (write_piece_refines example_storage 1 (replicate 20 7)).
  - apply example_storage_wf.
  - ranges.
Defined.

(** C6: reading a block never panics, never changes the files, and returns
    exactly the bytes of the flat array at the block's position, whether it is
    served from the cache or from the files; a bad piece index, an empty block
    or one reaching past the end of the piece is an error. *)
Theorem read_block_refines st i begin len :
  wf_storage st -> is_u32 i -> is_u32 begin -> is_u32 len ->
  let t := s_torrent st in
  let from := (piece_from t i + Z.to_nat begin)%nat in
  exists r st',
    read_block st i begin len = Some (r, st') /\ wf_storage st' /\
    s_torrent st' = t /\ s_files st' = s_files st /\
    r = if decide (valid_piece t i) then
          if (0 <? len) && (begin + len <=? calculate_piece_size t i)
          then Ok (seg from (from + Z.to_nat len) (flat st))
          else Err (BlockOutOfBounds i begin len)
        else Err (PieceOutOfRange i).
Proof.
  intros Hst Hi Hb Hl. cbn zeta. destruct (decide _) as [Hv|Hv].
  - destruct (Z.ltb_spec 0 len), (Z.leb_spec (begin + len) (calculate_piece_size (s_torrent st) i));
      cbn [andb].
    1: destruct (read_valid_block st i begin len) as (st' & ? & ? & ? & ?); try done; eauto 10.
    all: exists (Err (BlockOutOfBounds i begin len)), st; split_and!; try done; apply read_block_bounds; try done; ranges.
  - exists (Err (PieceOutOfRange i)), st. split_and!; try done. by apply read_block_range.
Qed.

Lemma read_block_refines_witness :
  exists r st',
    read_block example_storage 1 5 10 = Some (r, st') /\ wf_storage st' /\
    s_torrent st' = s_torrent example_storage /\ s_files st' = s_files example_storage /\
    r = if decide (valid_piece (s_torrent example_storage) 1) then
          if (0 <? 10) && (5 + 10 <=? calculate_piece_size (s_torrent example_storage) 1)
          then Ok (seg (piece_from (s_torrent example_storage) 1 + Z.to_nat 5)
                     (piece_from (s_torrent example_storage) 1 + Z.to_nat 5 + Z.to_nat 10)
                     (flat example_storage))
          else Err (BlockOutOfBounds 1 5 10)
        else Err (PieceOutOfRange 1).
Proof.
  apply (read_block_refines example_storage 1 5 10).
  - apply example_storage_wf.
  - ranges.
  - ranges.
  - ranges.
Defined.

(** A written piece reads back: after a successful [write_piece] of piece
    [i], a block of [i] is the same block of the buffer, and a block of any
    other piece is what it was before the write. *)
Theorem read_after_write st i buf j begin len st' :
  wf_storage st -> is_u32 i -> valid_piece (s_torrent st) j -> is_u32 begin -> is_u32 len ->
  0 < len -> begin + len <= calculate_piece_size (s_torrent st) j ->
  write_piece st i buf = Some (Ok (), st') ->
  let b := Z.to_nat begin in
  fst <$> read_block st' j begin len =
  if decide (i = j) then Some (Ok (seg b (b + Z.to_nat len) buf))
  else fst <$> read_block st j begin len.
Proof.
  intros Hst Hi Hj Hb Hl Hlen Hend Hw. cbn zeta.
  destruct (decide (valid_piece (s_torrent st) i /\
    Z.of_nat (length buf) = calculate_piece_size (s_torrent st) i)) as [[Hv Hbuf]|Hn].
  2: { destruct (write_piece_error st i buf) as [e He]; [ranges|done|congruence]. }
  destruct (write_valid_piece st i buf Hst Hv Hbuf) as (st1 & Hw' & Hst' & Ht & Hflat).
  rewrite Hw in Hw'. injection Hw' as <-.
  destruct (read_valid_block st j begin len) as (? & -> & _); try done.
  destruct (read_valid_block st' j begin len) as (? & -> & _); try by rewrite ?Ht.
  rewrite Hflat, Ht. cbn [fmap option_fmap option_map fst].
  destruct (piece_span _ Hst _ Hj) as (_ & Hszj & Hspj).
  destruct (piece_span _ Hst _ Hv) as (_ & Hszi & Hspi).
  destruct (decide (i = j)) as [->|Hne].
  - do 2 f_equal. rewrite <- Nat.add_assoc, <- (seg_seg _ (piece_to (s_torrent st) j)) by ranges.
    by rewrite seg_splice_same by lia.
  - do 2 f_equal. apply seg_splice_disjoint; [lia|lia|].
    destruct (piece_disjoint _ Hst _ _ Hv Hj Hne); [left; lia|right; ranges].
Qed.

(** [write_piece] drops the cached piece before the blocking write, not
    after it, so the two orders of a concurrent read are not equivalent: a
    [read_block] that runs between the two steps leaves the old bytes in the
    cache, and after the write every read of the piece returns them. *)
Theorem write_piece_race :
  let buf := replicate 20 7 in
  exists st1 st2,
    (* the write's first step *)
    st1 = invalidate_cache example_storage 1 /\
    (* a read of the same piece *)
    (snd <$> read_block st1 1 0 20) = Some st2 /\
    (* the write's second step, then another read *)
    (files ← write_mapped (s_files st2) (map_piece_to_files (s_torrent st2) 1) buf 0;
     fst <$> read_block (set_files st2 files) 1 0 20) =
    fst <$> read_block example_storage 1 0 20 /\
    (* without the read in between the write is seen *)
    (files ← write_mapped (s_files st1) (map_piece_to_files (s_torrent st1) 1) buf 0;
     fst <$> read_block (set_files st1 files) 1 0 20) = Some (Ok buf) /\
    fst <$> read_block example_storage 1 0 20 <> Some (Ok buf).
Proof.
  eexists _, _. split; [done|]. split; [vm_compute; reflexivity|].
  split; [vm_compute; reflexivity|]. split; [vm_compute; reflexivity|].
  vm_compute. congruence.
Qed.

(** ** Interleaved operations *)

(** What holds of the storage whatever the tasks do: the files have their lengths, and
    the cache is within its capacity and holds pieces of their size.  The bytes of a
    cached piece may be old ones (see [write_piece_race]). *)
Record wf_disk (st : Storage) : Prop := {
  wk_torrent : wf_torrent (s_torrent st);
  wk_pieces : piece_count_ok (s_torrent st);
  wk_sized : sized (t_files (s_torrent st)) (s_files st);
  wk_cache : wf_cache (s_cache st);
  wk_capacity : c_capacity (s_cache st) = s_cache_capacity st;
  wk_cached i v : c_map (s_cache st) !! i = Some v ->
    valid_piece (s_torrent st) i /\ length v = (piece_to (s_torrent st) i - piece_from (s_torrent st) i)%nat }.

(** The bytes of a piece in the files. *)
Definition piece_bytes (st : Storage) (i : Z) : bytes := seg (piece_from (s_torrent st) i) (piece_to (s_torrent st) i) (flat st).

(** A range of a file inside a piece. *)
Definition range_ok (t : Torrent) (i : Z) (mp : PieceFileMapping) : Prop :=
  0 <= pm_file_offset mp /\ 0 <= pm_length mp /\
  exists f, t_files t !! pm_file_index mp = Some f /\ pm_file_offset mp + pm_length mp <= tfi_length f /\
    Z.of_nat (piece_from t i) <= tfi_offset f + pm_file_offset mp /\
    tfi_offset f + pm_file_offset mp + pm_length mp <= Z.of_nat (piece_to t i).

Definition ranges_length (mps : list PieceFileMapping) : nat := sum_list (map (fun mp => Z.to_nat (pm_length mp)) mps).

(** The same files with an empty cache. *)
Definition bare (st : Storage) : Storage := mkStorage (s_torrent st) (s_files st) (cache_new (s_cache_capacity st)) (s_cache_capacity st).

Lemma wf_bare st : wf_disk st -> wf_storage (bare st).
Proof. intros []. split; try done. apply wf_cache_new. Qed.

Lemma disk_piece_span st i :
  wf_disk st -> valid_piece (s_torrent st) i ->
  calculate_bounds_for_piece (s_torrent st) i = (Z.of_nat (piece_from (s_torrent st) i), Z.of_nat (piece_to (s_torrent st) i)) /\
  calculate_piece_size (s_torrent st) i = Z.of_nat (piece_to (s_torrent st) i - piece_from (s_torrent st) i) /\
  (piece_from (s_torrent st) i < piece_to (s_torrent st) i <= length (flat st))%nat.
Proof. intros Hst. apply (piece_span (bare st)). by apply wf_bare. Qed.

Lemma wf_storage_disk st : wf_storage st -> wf_disk st.
Proof.
  intros Hst. pose proof Hst as [Hw Hp Hs Hc Hcap Hco]. split; try done. intros i v Hv. apply Hco in Hv as [Hi ->].
  split; [done|]. destruct (piece_span _ Hst _ Hi) as (_ & _ & ?). rewrite length_seg. lia.
Qed.

Lemma contiguous_offset files cs off k f :
  contiguous off files -> sized files cs -> files !! k = Some f -> tfi_offset f = off + Z.of_nat (length (concat (take k cs))).
Proof.
  intros Hc Hs. revert off k Hc. induction Hs as [|g c files cs Hl _ IH]; intros off k Hc Hk; [done|]. destruct Hc as (Ho & Hg & Hc).
  destruct k as [|k]; [injection Hk as <-; cbn; lia|]. cbn [take concat]. rewrite length_app, (IH _ _ Hc Hk). lia.
Qed.

Lemma map_files_ranges (t : Torrent) i ps pe k files off :
  contiguous off files -> 0 <= off -> off + total_len files <= I64_MAX -> (forall j f, files !! j = Some f -> t_files t !! (k + j)%nat = Some f) ->
  ps = Z.of_nat (piece_from t i) -> pe = Z.of_nat (piece_to t i) -> ps <= pe ->
  Forall (range_ok t i) (map_files ps pe k files).
Proof.
  intros Hc Hoff Htot Hk -> -> Hp. revert off k Hc Hoff Htot Hk. induction files as [|f files IH]; intros off k Hc Hoff Htot Hk; [constructor|].
  destruct Hc as (Ho & Hl & Hc).
  cbn [total_len fold_right] in Htot. change (fold_right _ 0 files) with (total_len files) in Htot. pose proof (total_len_nonneg _ _ Hc).
  assert (Hrest : Forall (range_ok t i) (map_files (Z.of_nat (piece_from t i)) (Z.of_nat (piece_to t i)) (S k) files)).
  { apply (IH (off + tfi_length f)); [done|lia|lia|]. intros j g Hg. rewrite Nat.add_succ_comm. by apply Hk. }
  cbn [map_files]. rewrite Ho, (wrap64_nonneg_small off), (wrap64_nonneg_small (tfi_length f)), (wrap64_nonneg_small (off + tfi_length f)) by lia.
  destruct (_ && _) eqn:E; [|done]. apply andb_true_iff in E as [E1%Z.ltb_lt E2%Z.ltb_lt]. constructor; [|done].
  unfold range_ok. cbn [pm_file_offset pm_length pm_file_index]. split; [lia|]. split; [lia|].
  exists f. split; [rewrite <- (Nat.add_0_r k); by apply Hk|]. lia.
Qed.

Lemma piece_ranges st i :
  wf_disk st -> valid_piece (s_torrent st) i -> Forall (range_ok (s_torrent st) i) (map_piece_to_files (s_torrent st) i).
Proof.
  intros Hst Hi. destruct (disk_piece_span st i Hst Hi) as (E & _ & Hsp). unfold map_piece_to_files. rewrite E.
  destruct (wk_torrent _ Hst) as [? Hc ? ?]. apply (map_files_ranges _ _ _ _ _ _ 0); [done|lia|lia|done|done|done|lia].
Qed.

Lemma range_file st i mp :
  wf_disk st -> range_ok (s_torrent st) i mp ->
  exists c, s_files st !! pm_file_index mp = Some c /\ (Z.to_nat (pm_file_offset mp) + Z.to_nat (pm_length mp) <= length c)%nat /\
    (piece_from (s_torrent st) i <= length (concat (take (pm_file_index mp) (s_files st))) + Z.to_nat (pm_file_offset mp))%nat /\
    (length (concat (take (pm_file_index mp) (s_files st))) + Z.to_nat (pm_file_offset mp) + Z.to_nat (pm_length mp) <= piece_to (s_torrent st) i)%nat.
Proof.
  intros Hst (H0 & H1 & f & Hf & Hle & Hfrom & Hto). pose proof (wk_sized _ Hst) as Hs.
  destruct (Forall2_lookup_l _ _ _ _ _ Hs Hf) as (c & Hc & Hlen). exists c. split; [done|].
  rewrite (contiguous_offset _ (s_files st) 0 _ _ (wf_contiguous _ (wk_torrent _ Hst)) Hs Hf) in *. lia.
Qed.

(** Writing into a file is writing into the flat array. *)
Lemma write_at_flat cs k c s o :
  cs !! k = Some c -> (o + length s <= length c)%nat ->
  let p := (length (concat (take k cs)) + o)%nat in
  concat (<[k := write_at c s o]> cs) = splice p (p + length s) s (concat cs) /\ length (write_at c s o) = length c.
Proof.
  intros Hk Ho p. assert (E : write_at c s o = splice o (o + length s) s c).
  { apply write_at_splice; lia. }
  rewrite E. split; [|apply length_splice; lia].
  pose proof (take_drop_middle _ _ _ Hk) as Hcs. rewrite <- Hcs at 2.
  rewrite (insert_take_drop cs k _) by (by eapply lookup_lt_Some). rewrite !concat_app. cbn [concat].
  subst p. generalize (concat (take k cs)) as a. generalize (concat (drop (S k) cs)) as d. intros d a.
  unfold splice. rewrite <- Nat.add_assoc, take_app_add, drop_app_add, take_app_le, drop_app_le by lia. by rewrite !app_assoc.
Qed.

Definition same_disk (st st' : Storage) : Prop :=
  s_torrent st' = s_torrent st /\ s_files st' = s_files st /\ s_cache_capacity st' = s_cache_capacity st.

Lemma set_cache_disk st c :
  wf_disk st -> wf_cache c -> c_capacity c = c_capacity (s_cache st) ->
  (forall i v, c_map c !! i = Some v -> c_map (s_cache st) !! i = Some v \/
     valid_piece (s_torrent st) i /\ length v = (piece_to (s_torrent st) i - piece_from (s_torrent st) i)%nat) ->
  wf_disk (set_cache st c).
Proof.
  intros [Hw Hp Hs Hc Hcap Hco] Hwf Hcap' Hsub. split; try done.
  - cbn. congruence.
  - intros i v Hv. destruct (Hsub i v Hv) as [H|H]; [by apply Hco in H|done].
Qed.

Lemma set_files_disk st files : wf_disk st -> sized (t_files (s_torrent st)) files -> wf_disk (set_files st files).
Proof. by intros [] Hs. Qed.

Lemma invalidate_cache_disk st i : wf_disk st -> wf_disk (invalidate_cache st i) /\ same_disk st (invalidate_cache st i).
Proof.
  intros Hst. unfold invalidate_cache. destruct (_ =? 0)%nat; [done|]. split; [|done].
  destruct (cache_remove_spec (s_cache st) i (wk_cache _ Hst)) as [Hwf Hmap]. apply set_cache_disk; try done.
  intros j v. rewrite Hmap. intros [_ ?]%lookup_delete_Some. by left.
Qed.

(** *** Writing *)

Definition writing_ok (st : Storage) (w : Writing) : Prop :=
  valid_piece (s_torrent st) (wg_index w) /\ Forall (range_ok (s_torrent st) (wg_index w)) (wg_ranges w) /\
  exists files, write_mapped (s_files st) (wg_ranges w) (wg_buf w) (wg_offset w) = Some files /\
    seg (piece_from (s_torrent st) (wg_index w)) (piece_to (s_torrent st) (wg_index w)) (concat files) = wg_buf w.

Lemma write_begin_ok st i buf :
  wf_disk st -> 0 <= i ->
  match write_begin st i buf with
  | (Err _, st') => st' = st
  | (Ok w, st') => wf_disk st' /\ same_disk st st' /\ writing_ok st' w /\ wg_index w = i /\ wg_buf w = buf
  end.
Proof.
  intros Hst Hi. unfold write_begin. destruct (check_piece_index_spec st i Hi) as [[Ec Hv]|[Ec _]]; rewrite Ec; [|done].
  destruct (Z.eqb_spec (Z.of_nat (length buf)) (calculate_piece_size (s_torrent st) i)) as [El|El]; cbn [negb]; [|done].
  destruct (invalidate_cache_disk st i Hst) as [Hd (Ht & Hf & Hc)]. split; [done|]. split; [done|]. split; [|done].
  split; cbn [wg_index wg_ranges wg_buf wg_offset]; rewrite Ht; [done|]. split; [by apply piece_ranges|].
  destruct (write_valid_piece (bare st) i buf (wf_bare _ Hst) Hv El) as (st' & E & _ & _ & Hflat). cbn [bare s_torrent] in Hflat.
  unfold write_piece in E. change (check_piece_index (bare st) i) with (check_piece_index st i) in E. rewrite Ec in E.
  cbn [bare s_torrent] in E. rewrite El, Z.eqb_refl in E. cbn [negb] in E.
  assert (Hfi : s_files (invalidate_cache (bare st) i) = s_files st) by (unfold invalidate_cache; by destruct (_ =? 0)%nat).
  fold (bare st) in E. rewrite Hfi in E. rewrite Hf.
  destruct (write_mapped (s_files st) (map_piece_to_files (s_torrent st) i) buf 0) as [files|] eqn:Em; [|done]. injection E as <-.
  exists files. split; [done|]. unfold flat in Hflat. cbn [set_files s_files] in Hflat. rewrite Hflat.
  destruct (disk_piece_span st i Hst Hv) as (_ & Hsz & Hsp). apply seg_splice_same; [|lia]. unfold flat in Hsp. cbn. lia.
Qed.

Lemma write_at_inside c s o : (o + length s <= length c)%nat -> write_at c s o = take o c ++ s ++ drop (o + length s) c.
Proof. intros. unfold write_at. by replace (o - length c)%nat with 0%nat by lia. Qed.

Lemma write_at_twice c a b o : (o + length (a ++ b) <= length c)%nat -> write_at (write_at c a o) b (o + length a) = write_at c (a ++ b) o.
Proof.
  rewrite length_app. intros H. assert (Hl : length (write_at c a o) = length c).
  { rewrite write_at_inside by lia. rewrite !length_app, length_take, length_drop. lia. }
  rewrite (write_at_inside (write_at c a o)) by lia. rewrite !(write_at_inside c) by (rewrite ?length_app; lia).
  assert (Ht : length (take o c) = o) by (rewrite length_take; lia).
  rewrite (app_assoc (take o c) a), take_app_length', drop_app_ge by (rewrite length_app; lia).
  rewrite drop_drop, !length_app, Ht, <- !app_assoc. do 4 f_equal. lia.
Qed.

(** A call that takes part of a range leaves the rest of the write as it was. *)
Lemma write_mapped_part files mp rest buf off s file n :
  slice buf off (off + Z.to_nat (pm_length mp)) = Some s -> files !! pm_file_index mp = Some file ->
  0 <= pm_file_offset mp -> (Z.to_nat (pm_file_offset mp) + length s <= length file)%nat ->
  (0 < n <= length s)%nat ->
  write_mapped files (mp :: rest) buf off =
  write_mapped (<[pm_file_index mp := write_at file (take n s) (Z.to_nat (pm_file_offset mp))]> files) (shrink n mp rest) buf (off + n).
Proof.
  intros Hs Hf Ho Hle Hn. pose proof (slice_length _ _ _ _ Hs) as Hlen.
  cbn [write_mapped]. rewrite Hs. cbn [mbind option_bind]. 
  assert (Hm : forall A (P Q : A), match s with [] => P | _ => Q end = Q) by (intros; destruct s; [cbn in Hn; lia|done]).
  rewrite Hm, Hf. cbn [mbind option_bind]. unfold shrink. destruct (Z.eqb_spec (Z.of_nat n) (pm_length mp)) as [E|E].
  - rewrite take_ge by lia. by replace n with (Z.to_nat (pm_length mp)) by lia.
  - cbn [write_mapped advance pm_length pm_file_index pm_file_offset].
    replace (off + n + Z.to_nat (pm_length mp - Z.of_nat n))%nat with (off + Z.to_nat (pm_length mp))%nat by lia.
    assert (Hd : slice buf (off + n) (off + Z.to_nat (pm_length mp)) = Some (drop n s)).
    { apply slice_Some in Hs as [? Hs]. rewrite slice_total by lia. rewrite Hs, skipn_firstn_comm, drop_drop. do 2 f_equal. lia. }
    rewrite Hd. cbn [mbind option_bind]. 
    assert (Hm' : forall A (P Q : A), match drop n s with [] => P | _ => Q end = Q).
    { intros. destruct (drop n s) eqn:Ey; [|done]. apply (f_equal length) in Ey. rewrite length_drop in Ey. cbn in Ey. lia. }
    rewrite Hm', list_lookup_insert_eq by (by eapply lookup_lt_Some). cbn [mbind option_bind]. rewrite list_insert_insert_eq.
    replace (Z.to_nat (pm_file_offset mp + Z.of_nat n)) with (Z.to_nat (pm_file_offset mp) + length (take n s))%nat by (rewrite length_take; lia).
    by rewrite write_at_twice, take_drop by (rewrite take_drop; lia).
Qed.

Lemma shrink_ok t i n mp rest :
  0 <= pm_length mp -> Z.of_nat n <= pm_length mp -> range_ok t i mp -> Forall (range_ok t i) rest -> Forall (range_ok t i) (shrink n mp rest).
Proof.
  intros Hl Hn (H0 & H1 & f & Hf & H2 & H3 & H4) Hr. unfold shrink. destruct (_ =? _); [done|]. constructor; [|done].
  unfold range_ok, advance. cbn [pm_file_offset pm_length pm_file_index]. split; [lia|]. split; [lia|]. exists f. split; [done|]. lia.
Qed.

(** A step of a write changes no other piece, and ends in the piece of the buffer. *)
Lemma write_some_ok st n w :
  wf_disk st -> writing_ok st w ->
  exists r, write_some st n w = Some r /\
    forall w' st', r = Some (w', st') ->
      wf_disk st' /\ writing_ok st' w' /\ wg_index w' = wg_index w /\ wg_buf w' = wg_buf w /\ s_torrent st' = s_torrent st /\
      s_cache_capacity st' = s_cache_capacity st /\
      forall j, valid_piece (s_torrent st) j -> j <> wg_index w -> piece_bytes st' j = piece_bytes st j.
Proof.
  intros Hst Hw. pose proof Hw as (Hv & Hr & files & Em & Hb). unfold write_some. destruct (wg_ranges w) as [|mp rest] eqn:Er.
  { eexists. split; [done|]. intros w' st' [= <- <-]. by split_and!. }
  apply Forall_cons in Hr as [Hmp Hr]. destruct (slice (wg_buf w) (wg_offset w) (wg_offset w + Z.to_nat (pm_length mp))) as [s|] eqn:Es.
  2: { cbn [write_mapped] in Em. by rewrite Es in Em. }
  pose proof (slice_length _ _ _ _ Es) as Hls. cbn [mbind option_bind]. destruct (decide (s = [])) as [->|Hs0].
  { eexists. split; [done|]. intros w' st' [= <- <-]. split; [done|]. split; [|done]. split; [done|]. split; [done|].
    exists files. split; [|done]. cbn [write_mapped] in Em. rewrite Es in Em. cbn [mbind option_bind] in Em.
    cbn [wg_ranges wg_buf wg_offset]. cbn [length] in Hls. by replace (wg_offset w + Z.to_nat (pm_length mp))%nat with (wg_offset w) in Em by lia. }
  assert (Hm : forall A (P Q : A), match s with [] => P | _ => Q end = Q) by (intros; by destruct s). rewrite Hm.
  destruct (range_file st _ _ Hst Hmp) as (file & Hf & Hle & Hfrom & Hto). rewrite Hf. cbn [mbind option_bind].
  destruct (Nat.eqb_spec (Nat.min n (length s)) 0) as [En|En]; [by eexists|]. set (k := Nat.min n (length s)) in *.
  eexists. split; [done|]. intros w' st' [= <- <-].
  assert (Hk : (0 < k <= length s)%nat) by (unfold k in *; lia).
  rewrite (write_mapped_part _ _ _ _ _ s file k Es Hf) in Em by (destruct Hmp; lia).
  destruct (write_at_flat (s_files st) (pm_file_index mp) file (take k s) (Z.to_nat (pm_file_offset mp)) Hf) as [Hflat Hlen];
    [rewrite length_take; lia|].
  cbn [set_files s_torrent s_cache_capacity wg_index wg_buf].
  split; [|split; [|split; [done|split; [done|split; [done|split; [done|]]]]]].
  - apply set_files_disk; [done|]. pose proof (wk_sized _ Hst) as Hsz. apply Forall2_same_length_lookup_2.
    + rewrite length_insert. by eapply Forall2_length.
    + intros j f c Hj Hc. apply list_lookup_insert_Some in Hc as [(<- & <- & _)|[_ Hc]].
      * rewrite Hlen. by eapply (Forall2_lookup_lr _ _ _ _ _ _ Hsz).
      * by eapply (Forall2_lookup_lr _ _ _ _ _ _ Hsz).
  - split; [done|]. split; [cbn [wg_ranges wg_index set_files s_torrent]; apply shrink_ok; [by destruct Hmp as (_ & ? & _)|destruct Hmp as (_ & ? & _); lia|done..]|].
    by exists files.
  - intros j Hj Hne'. unfold piece_bytes, flat. cbn [set_files s_files s_torrent]. rewrite Hflat. rewrite length_take in *.
    destruct (disk_piece_span st j Hst Hj) as (_ & _ & Hspj). destruct (disk_piece_span st _ Hst Hv) as (_ & _ & Hspw).
    pose proof (piece_disjoint (bare st) (wf_bare _ Hst) j (wg_index w) Hj Hv Hne') as Hdis. cbn [bare s_torrent] in Hdis.
    apply seg_splice_disjoint; [unfold flat in *; lia|rewrite length_take; lia|lia].
Qed.

Lemma writing_done st w : writing_ok st w -> wg_ranges w = [] -> piece_bytes st (wg_index w) = wg_buf w.
Proof. intros (_ & _ & files & Em & Hb) E. rewrite E in Em. by injection Em as <-. Qed.

(** *** Reading *)

Definition reading_ok (t : Torrent) (capacity : nat) (i begin len : u32) (r : Reading) : Prop :=
  valid_piece t i /\ (0 < Z.to_nat len)%nat /\ (Z.to_nat begin + Z.to_nat len <= piece_to t i - piece_from t i)%nat /\
  Forall (range_ok t i) (rg_ranges r) /\
  (length (rg_out r) + ranges_length (rg_ranges r) = if (0 <? capacity)%nat then piece_to t i - piece_from t i else Z.to_nat len)%nat.

Lemma read_ranges_ok t i mps ws we po :
  Forall (range_ok t i) mps ->
  Forall (range_ok t i) (read_ranges mps ws we po) /\
  ranges_length (read_ranges mps ws we po) = (Nat.min (po + ranges_length mps) we - Nat.max po ws)%nat.
Proof.
  intros H. revert po. induction H as [|mp mps (H0 & H1 & f & Hf & H2 & H3 & H4) _ IH]; intros po; [split; [constructor|cbn; lia]|].
  cbn [read_ranges]. destruct (IH (po + Z.to_nat (pm_length mp))%nat) as [IH1 IH2].
  change (ranges_length (mp :: mps)) with (Z.to_nat (pm_length mp) + ranges_length mps)%nat.
  destruct (Nat.ltb_spec (Nat.max po ws) (Nat.min (po + Z.to_nat (pm_length mp)) we)) as [Hlt|Hge].
  - split.
    + constructor; [|done]. unfold range_ok. cbn [pm_file_offset pm_length pm_file_index]. split; [lia|]. split; [lia|]. exists f. split; [done|]. lia.
    + match goal with |- ranges_length (?a :: ?l) = _ => change (ranges_length (a :: l)) with (Z.to_nat (pm_length a) + ranges_length l)%nat end.
      rewrite IH2. cbn [pm_length]. lia.
  - split; [done|]. rewrite IH2. lia.
Qed.

Lemma mapped_bytes_length cs mps : Forall (mapping_ok cs) mps -> length (mapped_bytes cs mps) = ranges_length mps.
Proof.
  induction 1 as [|mp mps H _ IH]; [done|]. change (mapped_bytes cs (mp :: mps)) with (mapping_bytes cs mp ++ mapped_bytes cs mps).
  change (ranges_length (mp :: mps)) with (Z.to_nat (pm_length mp) + ranges_length mps)%nat. by rewrite length_app, (length_mapping_bytes _ _ H), IH.
Qed.

Lemma piece_ranges_length st i :
  wf_disk st -> valid_piece (s_torrent st) i ->
  ranges_length (map_piece_to_files (s_torrent st) i) = (piece_to (s_torrent st) i - piece_from (s_torrent st) i)%nat.
Proof.
  intros Hst Hi. destruct (disk_piece_span st i Hst Hi) as (Eb & _ & Hsp).
  pose proof (map_piece_bytes (s_torrent st) (s_files st) i (wk_torrent _ Hst) (wk_sized _ Hst) (valid_in_range _ (wf_bare _ Hst) _ Hi)) as H.
  rewrite Eb in H. destruct H as (H1 & H2 & _). rewrite <- (mapped_bytes_length _ _ H2), H1, length_seg. unfold flat in Hsp. lia.
Qed.

Lemma cache_get_disk st i b l :
  wf_disk st -> valid_piece (s_torrent st) i -> (b + l <= piece_to (s_torrent st) i - piece_from (s_torrent st) i)%nat ->
  exists hit st', cache_get st i b l = Some (hit, st') /\ wf_disk st' /\ same_disk st st'.
Proof.
  intros Hst Hi Hb. unfold cache_get. destruct (Nat.eqb_spec (s_cache_capacity st) 0); [by exists None, st|].
  destruct (cache_lookup (s_cache st) i) as [hit c] eqn:E.
  destruct (cache_lookup_spec _ _ _ _ (wk_cache _ Hst) E) as (-> & Hwf & Hmap & Hcap).
  assert (Hst' : wf_disk (set_cache st c)) by (apply set_cache_disk; try done; intros j v; rewrite Hmap; auto).
  destruct (c_map (s_cache st) !! i) as [v|] eqn:Ei; [|by eexists _, _]. apply (wk_cached _ Hst) in Ei as [_ Hl].
  rewrite slice_total by lia. by eexists _, _.
Qed.

Lemma cache_put_disk st i v :
  wf_disk st -> valid_piece (s_torrent st) i -> length v = (piece_to (s_torrent st) i - piece_from (s_torrent st) i)%nat ->
  wf_disk (cache_put st i v) /\ same_disk st (cache_put st i v).
Proof.
  intros Hst Hi Hv. unfold cache_put. destruct (Nat.eqb_spec (s_cache_capacity st) 0); [done|]. split; [|done].
  pose proof (wk_capacity _ Hst). destruct (cache_insert_spec (s_cache st) i v (wk_cache _ Hst)) as (Hwf & Hcap & Hat & Hoth); [lia|].
  apply set_cache_disk; try done. intros j w Hw. destruct (decide (j = i)) as [->|Hne]; [|left; by eapply Hoth].
  rewrite Hat in Hw. injection Hw as <-. by right.
Qed.

Lemma read_begin_ok st i begin len :
  wf_disk st -> is_u32 i -> is_u32 begin -> is_u32 len ->
  exists r st', read_begin st i begin len = Some (r, st') /\ wf_disk st' /\ same_disk st st' /\
    match r with ReadFiles r => reading_ok (s_torrent st) (s_cache_capacity st) i begin len r | _ => True end.
Proof.
  intros Hst Hi Hb Hl. unfold read_begin. destruct (check_piece_index_spec st i) as [[-> Hv]|[-> _]]; [ranges| |by eexists _, _].
  destruct (disk_piece_span st i Hst Hv) as (Eb & Es & Hsp). rewrite Es. destruct (_ || _) eqn:Ec; [by eexists _, _|].
  apply orb_false_iff in Ec as [E1%Z.eqb_neq E2%Z.ltb_ge].
  assert (Hin : (Z.to_nat begin + Z.to_nat len <= piece_to (s_torrent st) i - piece_from (s_torrent st) i)%nat) by (unfold sat_add in E2; ranges).
  destruct (cache_get_disk st i (Z.to_nat begin) (Z.to_nat len) Hst Hv Hin) as (hit & st' & -> & Hst' & Ht & Hf & Hc). cbn [mbind option_bind].
  destruct hit as [data|]; [by eexists _, _|]. rewrite Ht, Hc, Nat2Z.id. eexists _, _. split; [done|]. split; [done|]. split; [done|].
  pose proof (piece_ranges st i Hst Hv) as Hr. pose proof (piece_ranges_length st i Hst Hv) as Hpl.
  split; [done|]. split; [ranges|]. split; [done|]. cbn [rg_ranges rg_out length].
  destruct (Nat.ltb_spec 0 (s_cache_capacity st)).
  - destruct (read_ranges_ok _ _ _ 0 (piece_to (s_torrent st) i - piece_from (s_torrent st) i) 0 Hr) as [H1 H2]. split; [done|]. rewrite H2. lia.
  - destruct (read_ranges_ok _ _ _ (Z.to_nat begin) (Z.to_nat begin + Z.to_nat len) 0 Hr) as [H1 H2]. split; [done|]. rewrite H2. lia.
Qed.

Lemma read_some_ok st n i begin len r :
  wf_disk st -> reading_ok (s_torrent st) (s_cache_capacity st) i begin len r ->
  exists o, read_some st n r = Some o /\ forall r', o = Some r' -> reading_ok (s_torrent st) (s_cache_capacity st) i begin len r'.
Proof.
  intros Hst Hr. pose proof Hr as (Hv & Hl & Hin & Hf & Hlen). unfold read_some. destruct (rg_ranges r) as [|mp rest] eqn:Er.
  { eexists. split; [done|]. by intros r' [= <-]. }
  apply Forall_cons in Hf as [Hmp Hf]. destruct (range_file st _ _ Hst Hmp) as (file & Hfile & Hle & _ & _). rewrite Hfile. cbn [mbind option_bind].
  set (k := Nat.min (Nat.min n _) _). destruct (Nat.eqb_spec k 0) as [Ek|Ek]; [by eexists|]. eexists. split; [done|]. intros r' [= <-].
  destruct Hmp as (H0 & H1 & Hrest). assert (Hk : (k <= Z.to_nat (pm_length mp))%nat) by (unfold k; lia).
  split; [done|]. split; [done|]. split; [done|]. cbn [rg_ranges rg_out]. split; [apply shrink_ok; [lia|lia|done|done]|].
  change (ranges_length (mp :: rest)) with (Z.to_nat (pm_length mp) + ranges_length rest)%nat in Hlen.
  rewrite length_app, length_seg. unfold shrink. destruct (Z.eqb_spec (Z.of_nat k) (pm_length mp)).
  - unfold k in *. lia.
  - change (ranges_length (advance k mp :: rest)) with (Z.to_nat (pm_length mp - Z.of_nat k) + ranges_length rest)%nat. unfold k in *. lia.
Qed.

Lemma read_end_ok st i begin len r :
  wf_disk st -> reading_ok (s_torrent st) (s_cache_capacity st) i begin len r -> rg_ranges r = [] ->
  exists data st', read_end st i begin len (rg_out r) = Some (data, st') /\ wf_disk st' /\ same_disk st st'.
Proof.
  intros Hst (Hv & Hl & Hin & _ & Hlen) E. rewrite E in Hlen. cbn [ranges_length map sum_list] in Hlen. change (sum_list []) with 0%nat in Hlen.
  unfold read_end. destruct (Nat.ltb_spec 0 (s_cache_capacity st)); [|by eexists _, _].
  rewrite slice_total by lia. cbn [mbind option_bind].
  destruct (cache_put_disk st i (rg_out r) Hst Hv) as [H1 H2]; [lia|]. by eexists _, _.
Qed.

(** *** With nobody else about, the steps are the operations *)

Lemma write_piece_steps st i buf :
  write_piece st i buf =
  match write_begin st i buf with
  | (Err e, st') => Some (Err e, st')
  | (Ok w, st') => files ← write_mapped (s_files st') (wg_ranges w) (wg_buf w) (wg_offset w); Some (Ok (), set_files st' files)
  end.
Proof. unfold write_piece, write_begin. destruct (check_piece_index st i); [|done]. by destruct (negb _). Qed.

Fixpoint read_all (files : list bytes) (ranges : list PieceFileMapping) (out : bytes) : option (option bytes) :=
  match ranges with
  | [] => Some (Some out)
  | mp :: rest =>
      file ← files !! pm_file_index mp;
      match read_at file (Z.to_nat (pm_length mp)) (Z.to_nat (pm_file_offset mp)) with
      | None => Some None
      | Some chunk => read_all files rest (out ++ chunk)
      end
  end.

Lemma read_mapped_ranges files mps ws we po out :
  Forall (fun mp => 0 <= pm_file_offset mp) mps -> read_mapped files mps ws we po out = read_all files (read_ranges mps ws we po) out.
Proof.
  intros H. revert po out. induction H as [|mp mps H0 _ IH]; intros po out; [done|]. cbn [read_mapped read_ranges].
  destruct (_ <? _)%nat; [|apply IH]. cbn [read_all pm_file_index pm_length pm_file_offset]. rewrite Nat2Z.id.
  replace (Z.to_nat (pm_file_offset mp + Z.of_nat (Nat.max po ws - po))) with (Z.to_nat (pm_file_offset mp) + (Nat.max po ws - po))%nat by lia.
  destruct (files !! _); [|done]. cbn [mbind option_bind]. destruct (read_at _ _ _); [apply IH|done].
Qed.

Lemma read_block_steps st i begin len :
  Forall (fun mp => 0 <= pm_file_offset mp) (map_piece_to_files (s_torrent st) i) ->
  read_block st i begin len =
  '(r, st') ← read_begin st i begin len;
  match r with
  | ReadFails e => Some (Err e, st')
  | ReadHit data => Some (Ok data, st')
  | ReadFiles r =>
      piece ← read_all (s_files st') (rg_ranges r) (rg_out r);
      match piece with
      | None => Some (Err StIo, st')
      | Some piece => '(data, st') ← read_end st' i begin len piece; Some (Ok data, st')
      end
  end.
Proof.
  intros Hm. unfold read_block, read_begin. destruct (check_piece_index st i); [|done]. destruct (_ || _); [done|].
  assert (Ht : forall hit st', cache_get st i (Z.to_nat begin) (Z.to_nat len) = Some (hit, st') -> s_torrent st' = s_torrent st).
  { intros hit st'. unfold cache_get. destruct (_ =? 0)%nat; [by intros [= _ <-]|]. destruct (cache_lookup _ _) as [[v|] c].
    - destruct (slice _ _ _); [by intros [= _ <-]|done].
    - by intros [= _ <-]. }
  destruct (cache_get _ _ _ _) as [[[data|] st']|] eqn:E; [done| |done]. cbn [mbind option_bind]. rewrite (Ht _ _ eq_refl).
  unfold read_end. destruct (0 <? s_cache_capacity st')%nat; rewrite read_mapped_ranges by done; cbn [rg_ranges rg_out];
    (destruct (read_all _ _ _) as [[piece|]|]; [|done..]); cbn [mbind option_bind]; [|done]. by destruct (slice piece _ _).
Qed.
