(* ===== verification/Picker.v ===== *)
(** * Piece selection (crates/bit_rev/src/picker.rs)

    The availability counters, the rarest-first and the sequential choice, and
    the verified counter.  The random choice of the [rand] crate is an argument
    with its documented contract as a class. *)

From S2P Require Import Prelude Bitfield.

Definition BOOTSTRAP_VERIFIED : usize := 4.
Definition MAX_BLOCK_REQUESTERS : nat := 2.

(** [SliceRandom::choose] with the generator's state fixed: an element of a
    non-empty slice, [None] on the empty one. *)
Class SliceRandom (choose : list u32 -> option u32) : Prop := {
  choose_nil : choose [] = None;
  choose_elem l : l <> [] -> exists x, choose l = Some x /\ x ∈ l }.

#[export] Instance head_random : SliceRandom head.
Proof.
  split; [done|]. intros [|x l] H; [done|]. exists x. split; [done|]. left.
Qed.

(** ** Availability *)

Record Availability := mkAvailability { counts : list u16 }.

Definition saturating_inc (c : u16) : u16 := sat_add U16_MAX c 1.
Definition saturating_dec (c : u16) : u16 := sat_sub c 1.

Definition availability_new (piece_count : nat) : Availability :=
  mkAvailability (replicate piece_count 0).

Definition av_count (av : Availability) (index : u32) : u16 :=
  default 0 (counts av !! Z.to_nat index).

Definition add_bitfield (av : Availability) (bf : Bitfield) : Availability :=
  mkAvailability (imap (fun i c => if has_piece bf i then saturating_inc c else c) (counts av)).

Definition remove_bitfield (av : Availability) (bf : Bitfield) : Availability :=
  mkAvailability (imap (fun i c => if has_piece bf i then saturating_dec c else c) (counts av)).

Definition add_have (av : Availability) (index : u32) : Availability :=
  mkAvailability (alter saturating_inc (Z.to_nat index) (counts av)).

Definition add_have_all (av : Availability) : Availability :=
  mkAvailability (map saturating_inc (counts av)).

(** ** Selection *)

(** The loop over the candidates: the least availability so far and the
    candidates that have it. *)
Fixpoint rarest_loop (av : Availability) (candidates : list u32) (best_avail : u16)
    (best : list u32) : u16 * list u32 :=
  match candidates with
  | [] => (best_avail, best)
  | index :: rest =>
      let avail := av_count av index in
      if avail <? best_avail then rarest_loop av rest avail [index]
      else if avail =? best_avail then rarest_loop av rest best_avail (best ++ [index])
      else rarest_loop av rest best_avail best
  end.

(** The first of [prefer] that is a candidate. *)
Definition first_preferred (candidates prefer : list u32) : option u32 :=
  head (filter (fun index => index ∈ candidates) prefer).

Definition select_piece (choose : list u32 -> option u32) (candidates prefer : list u32)
    (av : Availability) (verified bootstrap_until : usize) : option u32 :=
  match candidates with
  | [] => None
  | _ =>
      if verified <? bootstrap_until then choose candidates
      else
        match first_preferred candidates prefer with
        | Some index => Some index
        | None => choose (snd (rarest_loop av candidates U16_MAX []))
        end
  end.

(** [Iterator::min]. *)
Definition min_of (l : list u32) : option u32 :=
  match l with [] => None | x :: rest => Some (fold_left Z.min rest x) end.

Definition select_sequential (candidates prefer : list u32) : option u32 :=
  match candidates with
  | [] => None
  | _ =>
      match first_preferred candidates prefer with
      | Some index => Some index
      | None => min_of candidates
      end
  end.

(** ** The verified counter *)

Definition verified_inc (n : usize) : usize := wrap64 (n + 1).
Definition verified_dec (n : usize) : usize := sat_sub n 1.

(** ** Availability counts the peers that have a piece *)

(** How many of the bitfields have piece [i]. *)
Definition holders (bfs : list Bitfield) (i : nat) : nat :=
  length (filter (fun bf => has_piece bf i = true) bfs).

(** [av] is exact for the peers whose bitfields are [bfs]. *)
Definition tracks (av : Availability) (bfs : list Bitfield) : Prop :=
  forall i c, counts av !! i = Some c -> c = Z.of_nat (holders bfs i).

Lemma holders_le bfs i : (holders bfs i <= length bfs)%nat.
Proof. apply length_filter. Qed.

Lemma holders_cons bf bfs i :
  holders (bf :: bfs) i = ((if has_piece bf i then 1 else 0) + holders bfs i)%nat.
Proof.
  unfold holders. destruct (has_piece bf i) eqn:E.
  - by rewrite filter_cons_True.
  - rewrite filter_cons_False; [done|by rewrite E].
Qed.

Lemma holders_perm bfs bfs' i : bfs ≡ₚ bfs' -> holders bfs i = holders bfs' i.
Proof. intros H. unfold holders. by rewrite H. Qed.

Lemma tracks_new n : tracks (availability_new n) [].
Proof. intros i c. simpl. by intros [-> _]%lookup_replicate. Qed.

Lemma add_bitfield_tracks av bf bfs :
  tracks av bfs -> Z.of_nat (length bfs) < U16_MAX -> tracks (add_bitfield av bf) (bf :: bfs).
Proof.
  intros H Hlen i c. cbn [add_bitfield counts]. rewrite list_lookup_imap.
  destruct (counts av !! i) as [c0|] eqn:E; [|done]. intros [= <-].
  apply H in E. rewrite holders_cons. pose proof (holders_le bfs i).
  destruct (has_piece bf i); unfold saturating_inc; ranges.
Qed.

Lemma remove_bitfield_tracks av bf bfs :
  tracks av (bf :: bfs) -> tracks (remove_bitfield av bf) bfs.
Proof.
  intros H i c. cbn [remove_bitfield counts]. rewrite list_lookup_imap.
  destruct (counts av !! i) as [c0|] eqn:E; [|done]. intros [= <-].
  apply H in E. rewrite holders_cons in E.
  destruct (has_piece bf i); unfold saturating_dec; ranges.
Qed.

Lemma add_have_tracks av bf bfs i :
  tracks av (bf :: bfs) -> has_piece bf (Z.to_nat i) = false ->
  (Z.to_nat i < capacity bf)%nat -> Z.of_nat (length bfs) < U16_MAX ->
  tracks (add_have av i) (set_piece bf (Z.to_nat i) :: bfs).
Proof.
  intros H Hno Hcap Hlen j c. cbn [add_have counts]. rewrite holders_cons, has_set_piece.
  destruct (decide (Z.to_nat i = j)) as [<-|Hne].
  - rewrite list_lookup_alter_eq. destruct (counts av !! Z.to_nat i) as [c0|] eqn:E; [|done].
    intros [= <-]. apply H in E. rewrite holders_cons, Hno in E.
    rewrite bool_decide_true by done. cbn [orb]. pose proof (holders_le bfs (Z.to_nat i)).
    unfold saturating_inc. ranges.
  - rewrite list_lookup_alter_ne by done. rewrite bool_decide_false by tauto. cbn [orb].
    intros Hc. apply H in Hc. by rewrite holders_cons in Hc.
Qed.

(** What the peer handlers do to the counters: a peer connects with its
    bitfield, sends a new bitfield, announces a piece, or disconnects. *)
Inductive swarm_step : Availability * list Bitfield -> Availability * list Bitfield -> Prop :=
| swarm_join av bfs bf :
    Z.of_nat (length bfs) < U16_MAX ->
    swarm_step (av, bfs) (add_bitfield av bf, bf :: bfs)
| swarm_replace av bfs bf bfs' bf' :
    bfs ≡ₚ bf :: bfs' ->
    swarm_step (av, bfs) (add_bitfield (remove_bitfield av bf) bf', bf' :: bfs')
| swarm_have av bfs bf bfs' i :
    bfs ≡ₚ bf :: bfs' -> has_piece bf (Z.to_nat i) = false -> (Z.to_nat i < capacity bf)%nat ->
    swarm_step (av, bfs) (add_have av i, set_piece bf (Z.to_nat i) :: bfs')
| swarm_leave av bfs bf bfs' :
    bfs ≡ₚ bf :: bfs' -> swarm_step (av, bfs) (remove_bitfield av bf, bfs').

Lemma tracks_perm av bfs bfs' : bfs ≡ₚ bfs' -> tracks av bfs -> tracks av bfs'.
Proof. intros Hp H i c Hc. rewrite <- (holders_perm _ _ i Hp). by apply H. Qed.

(** The availability counters are exact: whatever peers join, replace their
    bitfield, announce pieces and leave, each counter is the number of connected
    peers that have the piece (as long as no more than [u16::MAX] are connected,
    so that saturation never loses a count). *)
Theorem availability_exact n s :
  rtc swarm_step (availability_new n, []) s -> tracks (fst s) (snd s).
Proof.
  intros H. enough (tracks (fst s) (snd s) /\ Z.of_nat (length (snd s)) <= U16_MAX) by tauto.
  remember (availability_new n, []) as s0 eqn:E0.
  assert (Hinv : tracks (fst s0) (snd s0) /\ Z.of_nat (length (snd s0)) <= U16_MAX).
  { subst. split; [apply tracks_new|simpl; ranges]. }
  clear E0. induction H as [s|s1 s2 s3 Hstep _ IH]; [done|]. apply IH. clear IH.
  destruct Hstep as [av bfs bf Hlen|av bfs bf bfs' bf' Hp|av bfs bf bfs' i Hp Hno Hcap|av bfs bf bfs' Hp];
    cbn [fst snd] in *; destruct Hinv as [Ht Hl].
  - split; [by apply add_bitfield_tracks|simpl; lia].
  - rewrite (Permutation_length Hp) in Hl. simpl in Hl. split; [|simpl; lia].
    apply add_bitfield_tracks; [|lia]. apply remove_bitfield_tracks. by eapply tracks_perm.
  - rewrite (Permutation_length Hp) in Hl. simpl in Hl. split; [|simpl; lia].
    apply add_have_tracks; try done; [by eapply tracks_perm|lia].
  - rewrite (Permutation_length Hp) in Hl. simpl in Hl. split; [|lia].
    apply remove_bitfield_tracks. by eapply tracks_perm.
Qed.

(** ** Rarest first *)

Lemma rarest_loop_spec av candidates best_avail best :
  let '(a, l) := rarest_loop av candidates best_avail best in
  a <= best_avail /\
  (forall i, i ∈ candidates -> a <= av_count av i) /\
  (a = best_avail \/ exists i, i ∈ candidates /\ av_count av i = a) /\
  (forall i, i ∈ l <-> (i ∈ best /\ a = best_avail) \/ (i ∈ candidates /\ av_count av i = a)).
Proof.
  revert best_avail best. induction candidates as [|x rest IH]; intros ba best; cbn [rarest_loop].
  { split; [lia|]. split; [by intros i ?%not_elem_of_nil|]. split; [by left|]. intros i.
    rewrite elem_of_nil. naive_solver. }
  assert (Hcons : forall P : u32 -> Prop, (forall i, i ∈ x :: rest -> P i) <-> P x /\ forall i, i ∈ rest -> P i).
  { intros P. setoid_rewrite elem_of_cons. naive_solver. }
  destruct (Z.ltb_spec (av_count av x) ba) as [Hlt|Hge]; [|destruct (Z.eqb_spec (av_count av x) ba)].
  - specialize (IH (av_count av x) [x]). destruct (rarest_loop _ _ _ _) as [a l].
    destruct IH as (Ha & Hmin & Hatt & Hin). rewrite Hcons. setoid_rewrite elem_of_cons.
    split_and!; [lia|lia|done| |].
    + right. destruct Hatt as [->|(i & ? & ?)]; eauto.
    + intros i. rewrite Hin, list_elem_of_singleton. split; [|naive_solver lia].
      intros [[-> ->]|[? ?]]; auto.
  - specialize (IH ba (best ++ [x])). destruct (rarest_loop _ _ _ _) as [a l].
    destruct IH as (Ha & Hmin & Hatt & Hin). rewrite Hcons. setoid_rewrite elem_of_cons.
    split_and!; [done|lia|done|naive_solver|].
    intros i. rewrite Hin, elem_of_app, list_elem_of_singleton. naive_solver.
  - specialize (IH ba best). destruct (rarest_loop _ _ _ _) as [a l].
    destruct IH as (Ha & Hmin & Hatt & Hin). rewrite Hcons. setoid_rewrite elem_of_cons.
    split_and!; [done|lia|done|naive_solver|].
    intros i. rewrite Hin. naive_solver lia.
Qed.

Lemma first_preferred_Some candidates prefer i :
  first_preferred candidates prefer = Some i -> i ∈ prefer /\ i ∈ candidates.
Proof.
  unfold first_preferred. destruct (filter _ _) as [|x l] eqn:E; [done|]. intros [= <-].
  assert (H : x ∈ filter (fun index => index ∈ candidates) prefer) by (rewrite E; left).
  by apply list_elem_of_filter in H as [? ?].
Qed.

Lemma first_preferred_None candidates prefer i :
  first_preferred candidates prefer = None -> i ∈ prefer -> i ∉ candidates.
Proof.
  unfold first_preferred. destruct (filter _ _) as [|x l] eqn:E; [|done]. intros _ Hi Hc.
  assert (H : i ∈ filter (fun index => index ∈ candidates) prefer) by by apply list_elem_of_filter.
  rewrite E in H. by apply not_elem_of_nil in H.
Qed.

(** Every counter is a [u16]. *)
Definition wf_availability (av : Availability) : Prop := Forall is_u16 (counts av).

Lemma av_count_u16 av i : wf_availability av -> is_u16 (av_count av i).
Proof.
  unfold wf_availability. intros H. unfold av_count. destruct (_ !! _) eqn:E; [|simpl; ranges].
  rewrite Forall_lookup in H. by eapply H.
Qed.

(** The candidates the rarest-first loop keeps are those of least count, and
    there is one. *)
Lemma rarest_kept av candidates :
  wf_availability av -> candidates <> [] ->
  let l := snd (rarest_loop av candidates U16_MAX []) in
  l <> [] /\
  forall i, i ∈ l <->
    i ∈ candidates /\ forall j, j ∈ candidates -> av_count av i <= av_count av j.
Proof.
  intros Hav Hne. pose proof (rarest_loop_spec av candidates U16_MAX []) as H.
  destruct (rarest_loop av candidates U16_MAX []) as [a l]. destruct H as (Ha & Hmin & Hatt & Hin).
  cbn [snd]. assert (Hex : exists i, i ∈ candidates /\ av_count av i = a).
  { destruct Hatt as [->|?]; [|done]. destruct candidates as [|x rest]; [done|].
    exists x. split; [left|]. pose proof (Hmin x ltac:(left)).
    pose proof (av_count_u16 av x Hav). ranges. }
  destruct Hex as (m & Hm & Em). split.
  - intros ->. apply (not_elem_of_nil m), Hin. by right.
  - intros i. rewrite Hin, elem_of_nil. split.
    + intros [[[] _]|[Hi <-]]. split; [done|]. by apply Hmin.
    + intros [Hi Hleast]. right. split; [done|]. specialize (Hleast m Hm). specialize (Hmin i Hi). lia.
Qed.

(** The piece choice is total and right: from any non-empty candidate list
    it returns a candidate; once the bootstrap is over it is the first preferred
    piece among the candidates, and when there is none a candidate of least
    availability, whatever the random generator does. *)
Theorem select_piece_rarest choose `{!SliceRandom choose} candidates prefer av verified boot :
  wf_availability av -> candidates <> [] ->
  exists i,
    select_piece choose candidates prefer av verified boot = Some i /\ i ∈ candidates /\
    (boot <= verified ->
     first_preferred candidates prefer = Some i \/
     ((forall p, p ∈ prefer -> p ∉ candidates) /\
      forall j, j ∈ candidates -> av_count av i <= av_count av j)).
Proof.
  intros Hav Hne. unfold select_piece. destruct candidates as [|x rest] eqn:Ec; [done|].
  rewrite <- Ec in *. case_cmp.
  { destruct (choose_elem candidates Hne) as (i & -> & Hi). exists i. split_and!; [done|done|lia]. }
  destruct (first_preferred candidates prefer) as [i|] eqn:Ep.
  { exists i. split; [done|]. split; [by apply first_preferred_Some in Ep as [_ ?]|auto]. }
  destruct (rarest_kept av candidates Hav Hne) as [Hl Hkept].
  destruct (choose_elem _ Hl) as (i & -> & Hi). apply Hkept in Hi as [Hi Hleast].
  exists i. split; [done|]. split; [done|]. intros _. right. split; [|done].
  intros p Hp. by eapply first_preferred_None.
Qed.

Lemma select_piece_in choose `{!SliceRandom choose} candidates prefer av verified boot :
  wf_availability av -> candidates <> [] ->
  exists i, select_piece choose candidates prefer av verified boot = Some i /\ i ∈ candidates.
Proof.
  intros Hav Hne. unfold select_piece. destruct candidates as [|x rest] eqn:Ec; [done|].
  rewrite <- Ec in *. case_cmp; [by apply choose_elem|].
  destruct (first_preferred candidates prefer) as [i|] eqn:Ep.
  { exists i. by apply first_preferred_Some in Ep as [_ ?]. }
  destruct (rarest_kept av candidates Hav Hne) as [Hl Hkept].
  destruct (choose_elem _ Hl) as (i & -> & [Hi _]%Hkept). by exists i.
Qed.

Lemma fold_min_spec rest x :
  (fold_left Z.min rest x = x \/ fold_left Z.min rest x ∈ rest) /\
  forall j, j ∈ x :: rest -> fold_left Z.min rest x <= j.
Proof.
  revert x. induction rest as [|y rest IH]; intros x; cbn [fold_left].
  { split; [by left|]. intros j [->|?%not_elem_of_nil]%elem_of_cons; [lia|done]. }
  destruct (IH (Z.min x y)) as [Hin Hle]. split.
  - destruct Hin as [E|?]; [|right; by apply list_elem_of_further].
    rewrite E. destruct (Z.min_spec x y) as [[_ ->]|[_ ->]]; [by left|right; left].
  - intros j. rewrite !elem_of_cons. intros [->|[->|Hj]].
    + etrans; [apply Hle; left|lia].
    + etrans; [apply Hle; left|lia].
    + apply Hle. by apply list_elem_of_further.
Qed.

(** Sequential mode: the first preferred candidate, else the lowest one. *)
Lemma select_sequential_spec candidates prefer :
  candidates <> [] ->
  exists i, select_sequential candidates prefer = Some i /\ i ∈ candidates /\
    (first_preferred candidates prefer = Some i \/
     first_preferred candidates prefer = None /\ forall j, j ∈ candidates -> i <= j).
Proof.
  intros Hne. unfold select_sequential. destruct candidates as [|x rest] eqn:Ec; [done|].
  rewrite <- Ec in *. destruct (first_preferred candidates prefer) as [i|] eqn:Ep.
  { exists i. split; [done|]. split; [by apply first_preferred_Some in Ep as [_ ?]|by left]. }
  subst candidates. destruct (fold_min_spec rest x) as [Hin Hle].
  exists (fold_left Z.min rest x). split; [done|]. split; [|by right].
  destruct Hin as [->|?]; [left|by apply list_elem_of_further].
Qed.
