(* ===== verification/Download.v ===== *)
(** * The download state (crates/bit_rev/src/peer_connection.rs, 74-896)

    [TorrentDownloadedState]: the pieces with their received chunks and
    reservations, the endgame block assignments, priorities and counters that
    all peer handlers of a torrent share.  Every operation is a function on the
    state; the locks of the source make each of them atomic.  The random
    generator is the [choose] argument of [pick] and the clock the [now]
    argument of the operations that read it; the [Notify] and [Semaphore]
    wake-ups carry no data and are left out. *)

From S2P Require Import Prelude Bitfield Message Metainfo Layout Priority Picker.

Definition ENDGAME_REREQUEST_AFTER : Duration := millis 100.

Abbreviation PeerAddr := SocketAddr.

(** ** Data *)

Record PieceWork := mkPieceWork { pw_index : u32; pw_length : u32; pw_hash : bytes }.

Record Chunk := mkChunk {
  ch_index : u32; ch_start : u32; ch_length : u32; ch_buf : bytes; ch_peer : PeerAddr }.

Record PieceWorkState := mkPiece {
  piece_work : PieceWork;
  chuncks : list Chunk;
  downloaded : bool;
  reserved : option PeerAddr;
  write_claimed : bool }.

Definition piece_new (w : PieceWork) : PieceWorkState := mkPiece w [] false None false.

Record BlockAssignment := mkAssignment { requesters : list PeerAddr; first_at : Instant }.

Record FileSpan := mkSpan { span_offset : u64; span_length : u64 }.

Record DownloadState := mkDownload {
  dl_pieces : list PieceWorkState;
  dl_availability : Availability;
  dl_bootstrap_until : usize;
  dl_verified : usize;
  dl_assignments : gmap BlockRequest BlockAssignment;
  dl_duplicate_bytes : u64;
  dl_sequential : bool;
  dl_file_priorities : list FilePriority;
  dl_piece_priority : list u8;
  dl_piece_files : list (list nat);
  dl_file_spans : list FileSpan;
  dl_piece_length : u64;
  dl_first_last : list u32 }.

(** ** Field updates *)

Definition set_chunks (l : list Chunk) (p : PieceWorkState) : PieceWorkState :=
  mkPiece (piece_work p) l (downloaded p) (reserved p) (write_claimed p).
Definition set_downloaded_flag (d : bool) (p : PieceWorkState) : PieceWorkState :=
  mkPiece (piece_work p) (chuncks p) d (reserved p) (write_claimed p).
Definition set_reserved (r : option PeerAddr) (p : PieceWorkState) : PieceWorkState :=
  mkPiece (piece_work p) (chuncks p) (downloaded p) r (write_claimed p).
Definition set_write_claimed (w : bool) (p : PieceWorkState) : PieceWorkState :=
  mkPiece (piece_work p) (chuncks p) (downloaded p) (reserved p) w.

Definition set_pieces (l : list PieceWorkState) (st : DownloadState) : DownloadState :=
  mkDownload l (dl_availability st) (dl_bootstrap_until st) (dl_verified st) (dl_assignments st)
    (dl_duplicate_bytes st) (dl_sequential st) (dl_file_priorities st) (dl_piece_priority st)
    (dl_piece_files st) (dl_file_spans st) (dl_piece_length st) (dl_first_last st).
Definition set_availability (a : Availability) (st : DownloadState) : DownloadState :=
  mkDownload (dl_pieces st) a (dl_bootstrap_until st) (dl_verified st) (dl_assignments st)
    (dl_duplicate_bytes st) (dl_sequential st) (dl_file_priorities st) (dl_piece_priority st)
    (dl_piece_files st) (dl_file_spans st) (dl_piece_length st) (dl_first_last st).
Definition set_verified (n : usize) (st : DownloadState) : DownloadState :=
  mkDownload (dl_pieces st) (dl_availability st) (dl_bootstrap_until st) n (dl_assignments st)
    (dl_duplicate_bytes st) (dl_sequential st) (dl_file_priorities st) (dl_piece_priority st)
    (dl_piece_files st) (dl_file_spans st) (dl_piece_length st) (dl_first_last st).
Definition set_assignments (m : gmap BlockRequest BlockAssignment) (st : DownloadState)
  : DownloadState :=
  mkDownload (dl_pieces st) (dl_availability st) (dl_bootstrap_until st) (dl_verified st) m
    (dl_duplicate_bytes st) (dl_sequential st) (dl_file_priorities st) (dl_piece_priority st)
    (dl_piece_files st) (dl_file_spans st) (dl_piece_length st) (dl_first_last st).
Definition set_duplicate_bytes (n : u64) (st : DownloadState) : DownloadState :=
  mkDownload (dl_pieces st) (dl_availability st) (dl_bootstrap_until st) (dl_verified st)
    (dl_assignments st) n (dl_sequential st) (dl_file_priorities st) (dl_piece_priority st)
    (dl_piece_files st) (dl_file_spans st) (dl_piece_length st) (dl_first_last st).
Definition set_bootstrap_until (n : usize) (st : DownloadState) : DownloadState :=
  mkDownload (dl_pieces st) (dl_availability st) n (dl_verified st)
    (dl_assignments st) (dl_duplicate_bytes st) (dl_sequential st) (dl_file_priorities st)
    (dl_piece_priority st) (dl_piece_files st) (dl_file_spans st) (dl_piece_length st)
    (dl_first_last st).
(** The selection settings: mode, priorities and first/last pieces. *)
Definition set_selection (seq : bool) (prios : list FilePriority) (pp : list u8)
    (fl : list u32) (st : DownloadState) : DownloadState :=
  mkDownload (dl_pieces st) (dl_availability st) (dl_bootstrap_until st) (dl_verified st)
    (dl_assignments st) (dl_duplicate_bytes st) seq prios pp
    (dl_piece_files st) (dl_file_spans st) (dl_piece_length st) fl.
Definition set_content (pf : list (list nat)) (spans : list FileSpan) (plen : u64)
    (st : DownloadState) : DownloadState :=
  mkDownload (dl_pieces st) (dl_availability st) (dl_bootstrap_until st) (dl_verified st)
    (dl_assignments st) (dl_duplicate_bytes st) (dl_sequential st) (dl_file_priorities st)
    (dl_piece_priority st) pf spans plen (dl_first_last st).

Definition get_piece (st : DownloadState) (index : u32) : option PieceWorkState :=
  dl_pieces st !! Z.to_nat index.
Definition update_piece (index : u32) (f : PieceWorkState -> PieceWorkState)
    (st : DownloadState) : DownloadState :=
  set_pieces (alter f (Z.to_nat index) (dl_pieces st)) st.

(** ** Construction and selection settings *)

Definition count_downloaded (l : list PieceWorkState) : nat :=
  length (filter (fun p => downloaded p = true) l).

Definition with_seed (pieces : list PieceWorkState) : DownloadState :=
  mkDownload pieces (availability_new (length pieces)) BOOTSTRAP_VERIFIED
    (Z.of_nat (count_downloaded pieces)) ∅ 0 false []
    (replicate (length pieces) (prio_rank Normal)) [] [] 0 [].

Definition piece_prio (st : DownloadState) (index : u32) : FilePriority :=
  match dl_piece_priority st !! Z.to_nat index with
  | Some slot => prio_from_u8 slot
  | None => Normal
  end.

Definition wanted (st : DownloadState) (index : u32) : bool :=
  (index <? Z.of_nat (length (dl_pieces st))) && negb (bool_decide (piece_prio st index = Skip)).

(** [recompute_piece_priority]: one slot per piece of [piece_files]. *)
Definition files_priority (prios : list FilePriority) (files : list nat) : FilePriority :=
  match files with
  | [] => Normal
  | f :: rest => fold_left prio_max (map (prio_of prios) rest) (prio_of prios f)
  end.
Definition recompute_piece_priority (st : DownloadState) (prios : list FilePriority) : list u8 :=
  imap (fun i slot =>
          match dl_piece_files st !! i with
          | Some files => prio_rank (files_priority prios files)
          | None => slot
          end) (dl_piece_priority st).

(** The loop of [refresh_first_last] from file number [i] on. *)
Fixpoint spans_loop (piece_length : u64) (prios : list FilePriority) (i : nat)
    (spans : list FileSpan) (out : list u32) : list u32 :=
  match spans with
  | [] => out
  | sp :: rest =>
      if (span_length sp =? 0) || bool_decide (prio_of prios i = Skip)
      then spans_loop piece_length prios (S i) rest out
      else
        let first := wrap32 (span_offset sp / piece_length) in
        let last := wrap32 (wrap64 (span_offset sp + span_length sp - 1) / piece_length) in
        let out := if bool_decide (first ∈ out) then out else out ++ [first] in
        let out :=
          if negb (last =? first) && negb (bool_decide (last ∈ out))
          then out ++ [last] else out in
        spans_loop piece_length prios (S i) rest out
  end.
Definition refresh_first_last (st : DownloadState) (prios : list FilePriority) : list u32 :=
  if dl_piece_length st =? 0 then []
  else spans_loop (dl_piece_length st) prios 0 (dl_file_spans st) [].

(** ** Blocks of a piece

    [while offset < length { .. offset += block }], the loop all users of a
    piece's blocks share; [blocks_total] shows the fuel is enough. *)
Fixpoint blocks_from (fuel : nat) (index len offset : u32) : list BlockRequest :=
  match fuel with
  | O => []
  | S fuel =>
      if offset <? len then
        let l := calculate_block_size len offset in
        mkBlockRequest index offset l :: blocks_from fuel index len (wrap32 (offset + l))
      else []
  end.
Definition piece_blocks (w : PieceWork) : list BlockRequest :=
  blocks_from (S (Z.to_nat (pw_length w / BLOCK_SIZE))) (pw_index w) (pw_length w) 0.

(** The cancels for one assignment. *)
Definition assignment_cancels (e : BlockRequest * BlockAssignment) : list (PeerAddr * BlockRequest) :=
  map (fun p => (p, fst e)) (requesters (snd e)).

Definition push_cancel (peer : PeerAddr) (cancels : list (PeerAddr * BlockRequest))
    (req : BlockRequest) : list (PeerAddr * BlockRequest) :=
  if bool_decide ((peer, req) ∈ cancels) then cancels else cancels ++ [(peer, req)].

(** The loop of [unwant_skipped] over the pieces from number [i] on. *)
Fixpoint unwant_loop (want : u32 -> bool) (i : nat) (pieces : list PieceWorkState)
    (m : gmap BlockRequest BlockAssignment) (cancels : list (PeerAddr * BlockRequest))
  : list PieceWorkState * gmap BlockRequest BlockAssignment * list (PeerAddr * BlockRequest) :=
  match pieces with
  | [] => ([], m, cancels)
  | p :: rest =>
      let index := Z.of_nat i in
      if want index || downloaded p then
        let '(ps, m, cancels) := unwant_loop want (S i) rest m cancels in
        (p :: ps, m, cancels)
      else
        let p' := set_write_claimed false (set_chunks [] (set_reserved None p)) in
        let dropped := filter (fun e => br_index (fst e) = index) (map_to_list m) in
        let m := filter (fun e => br_index (fst e) <> index) m in
        let cancels := cancels ++ flat_map assignment_cancels dropped in
        let cancels :=
          match reserved p with
          | None => cancels
          | Some peer =>
              fold_left (push_cancel peer)
                (blocks_from (S (Z.to_nat (pw_length (piece_work p) / BLOCK_SIZE))) index
                   (pw_length (piece_work p)) 0) cancels
          end in
        let '(ps, m, cancels) := unwant_loop want (S i) rest m cancels in
        (p' :: ps, m, cancels)
  end.
Definition unwant_skipped (st : DownloadState)
  : list (PeerAddr * BlockRequest) * DownloadState :=
  let '(ps, m, cancels) := unwant_loop (wanted st) 0 (dl_pieces st) (dl_assignments st) [] in
  (cancels, set_assignments m (set_pieces ps st)).

Definition apply_file_priorities (st : DownloadState) (priorities : list FilePriority)
  : list (PeerAddr * BlockRequest) * DownloadState :=
  let file_count :=
    match dl_file_spans st with [] => length priorities | spans => length spans end in
  let prios := normalize_file_priorities file_count priorities in
  unwant_skipped
    (set_selection (dl_sequential st) prios (recompute_piece_priority st prios)
       (refresh_first_last st prios) st).

Definition set_file_priority (st : DownloadState) (file_index : nat) (prio : FilePriority)
  : option (list (PeerAddr * BlockRequest) * DownloadState) :=
  let prios := dl_file_priorities st in
  if (length prios <=? file_index)%nat then None
  else Some (apply_file_priorities st (<[file_index := prio]> prios)).

Definition set_sequential (seq : bool) (st : DownloadState) : DownloadState :=
  set_selection seq (dl_file_priorities st) (dl_piece_priority st) (dl_first_last st) st.

Definition install_content (st : DownloadState) (t : Torrent) (seq : bool)
    (priorities : list FilePriority) : list (PeerAddr * BlockRequest) * DownloadState :=
  let piece_files :=
    map (fun i => map pm_file_index (map_piece_to_files t (Z.of_nat i)))
      (List.seq 0 (length (dl_pieces st))) in
  let spans :=
    map (fun f => mkSpan (Z.max (tfi_offset f) 0) (Z.max (tfi_length f) 0)) (t_files t) in
  let st := set_content piece_files spans (Z.max (t_piece_length t) 0) st in
  apply_file_priorities (set_sequential seq st) priorities.

(** ** Statistics *)

(** The pieces with their numbers, as [iter().enumerate()]. *)
Definition numbered (l : list PieceWorkState) : list (u32 * PieceWorkState) :=
  imap (fun i p => (Z.of_nat i, p)) l.
Definition sum_lengths (l : list (u32 * PieceWorkState)) : u64 :=
  fold_right (fun ip acc => pw_length (piece_work (snd ip)) + acc) 0 l.

Definition is_complete (st : DownloadState) : bool :=
  negb (length (dl_pieces st) =? 0)%nat &&
  forallb (fun ip => downloaded (snd ip) || negb (wanted st (fst ip))) (numbered (dl_pieces st)).
Definition wanted_total_bytes (st : DownloadState) : u64 :=
  sum_lengths (filter (fun ip => wanted st (fst ip) = true) (numbered (dl_pieces st))).
Definition wanted_have_bytes (st : DownloadState) : u64 :=
  sum_lengths (filter (fun ip => wanted st (fst ip) && downloaded (snd ip) = true)
    (numbered (dl_pieces st))).
Definition left_bytes (st : DownloadState) : u64 :=
  sum_lengths (filter (fun ip => wanted st (fst ip) && negb (downloaded (snd ip)) = true)
    (numbered (dl_pieces st))).
Definition downloaded_bytes (st : DownloadState) : u64 :=
  sum_lengths (filter (fun ip => downloaded (snd ip) = true) (numbered (dl_pieces st))).
Definition have_count (st : DownloadState) : u32 := wrap32 (Z.of_nat (count_downloaded (dl_pieces st))).
Definition dl_has_piece (st : DownloadState) (index : u32) : bool :=
  match get_piece st index with Some p => downloaded p | None => false end.
Definition missing_pieces (st : DownloadState) : list u32 :=
  map fst (filter (fun ip => downloaded (snd ip) = false) (numbered (dl_pieces st))).
Definition our_bitfield (st : DownloadState) : Bitfield :=
  fold_left (fun bf (ip : u32 * PieceWorkState) =>
               if downloaded (snd ip) then set_piece bf (Z.to_nat (fst ip)) else bf)
    (numbered (dl_pieces st)) (with_piece_count (length (dl_pieces st))).

(** ** Marking pieces *)

Definition mark_downloaded (st : DownloadState) (index : u32) : DownloadState :=
  match get_piece st index with
  | None => st
  | Some p =>
      let st' := update_piece index (set_downloaded_flag true) st in
      if downloaded p then st' else set_verified (verified_inc (dl_verified st')) st'
  end.

Definition mark_all_downloaded (st : DownloadState) : DownloadState :=
  fold_left (fun st i => mark_downloaded st (Z.of_nat i)) (List.seq 0 (length (dl_pieces st))) st.

(** [remove_downloaded] walks all pieces and resets the ones that carry the
    index. *)
Fixpoint remove_loop (index : u32) (l : list PieceWorkState) (verified : usize)
  : list PieceWorkState * usize :=
  match l with
  | [] => ([], verified)
  | p :: rest =>
      if pw_index (piece_work p) =? index then
        let p' := set_downloaded_flag false (set_write_claimed false (set_chunks [] p)) in
        let verified := if downloaded p then verified_dec verified else verified in
        let '(rest', verified) := remove_loop index rest verified in (p' :: rest', verified)
      else let '(rest', verified) := remove_loop index rest verified in (p :: rest', verified)
  end.
Definition remove_downloaded (st : DownloadState) (index : u32) : DownloadState :=
  let '(l, v) := remove_loop index (dl_pieces st) (dl_verified st) in
  set_verified v (set_pieces l st).

Definition clear_all_downloaded (st : DownloadState) : DownloadState :=
  fold_left (fun st i => remove_downloaded st (Z.of_nat i)) (List.seq 0 (length (dl_pieces st))) st.

Definition clear_piece_chunks (st : DownloadState) (index : u32) : DownloadState :=
  update_piece index (set_chunks []) st.

Definition claim_write (st : DownloadState) (index : u32) : bool * DownloadState :=
  match get_piece st index with
  | None => (false, st)
  | Some p => (negb (write_claimed p), update_piece index (set_write_claimed true) st)
  end.

(** ** Reservations *)

Definition try_reserve_piece (st : DownloadState) (index : u32) (peer : PeerAddr)
  : option DownloadState :=
  match get_piece st index with
  | None => None
  | Some p =>
      if negb (wanted st index) || downloaded p then None
      else
        match reserved p with
        | Some _ => None
        | None => Some (update_piece index (set_reserved (Some peer)) st)
        end
  end.

Fixpoint reserve_first_available (st : DownloadState) (peer : PeerAddr) (candidates : list u32)
  : option (u32 * DownloadState) :=
  match candidates with
  | [] => None
  | index :: rest =>
      match try_reserve_piece st index peer with
      | Some st' => Some (index, st')
      | None => reserve_first_available st peer rest
      end
  end.

(** Drop the reservation and, unless the piece is complete, its chunks. *)
Definition unreserve (clear : bool) (p : PieceWorkState) : PieceWorkState :=
  let p' := set_reserved None p in
  if clear && negb (downloaded p) then set_chunks [] p' else p'.

Definition release_piece (st : DownloadState) (index : u32) : DownloadState :=
  update_piece index (unreserve true) st.

Definition release_peer_reservations (st : DownloadState) (peer : PeerAddr) (clear_chunks : bool)
  : DownloadState :=
  set_pieces
    (map (fun p => if decide (reserved p = Some peer) then unreserve clear_chunks p else p)
       (dl_pieces st)) st.

Definition release_reservation (st : DownloadState) (index : u32) (peer : PeerAddr)
  : bool * DownloadState :=
  match get_piece st index with
  | None => (false, st)
  | Some p =>
      if decide (reserved p = Some peer) then (true, update_piece index (unreserve true) st)
      else (false, st)
  end.

Definition snub_release (st : DownloadState) (peer : PeerAddr) : DownloadState :=
  release_peer_reservations st peer false.

(** ** Picking a piece *)

Definition in_endgame (st : DownloadState) : bool :=
  let missing :=
    filter (fun p => downloaded p = false /\ wanted st (pw_index (piece_work p)) = true)
      (dl_pieces st) in
  let held := filter (fun p => is_Some (reserved p)) missing in
  (0 <? length missing)%nat && (length missing =? length held)%nat.

Definition candidates (st : DownloadState) (peer_has : Bitfield) : list u32 :=
  map fst
    (filter (fun ip => downloaded (snd ip) = false /\ reserved (snd ip) = None /\
                       has_piece peer_has (Z.to_nat (fst ip)) = true /\ wanted st (fst ip) = true)
       (numbered (dl_pieces st))).

(** The highest priority of the candidates. *)
Definition top_band (st : DownloadState) (cands : list u32) : FilePriority :=
  match cands with
  | [] => Normal
  | c :: rest => fold_left prio_max (map (piece_prio st) rest) (piece_prio st c)
  end.

(** The choice one round of [pick] makes among non-empty candidates. *)
Definition pick_choice (choose : list u32 -> option u32) (st : DownloadState)
    (cands prefer : list u32) : option u32 :=
  if dl_sequential st then
    select_sequential cands (filter (fun i => i ∈ cands) (dl_first_last st) ++ prefer)
  else
    let band := top_band st cands in
    select_piece choose (filter (fun i => piece_prio st i = band) cands) prefer
      (dl_availability st) (dl_verified st) (dl_bootstrap_until st).

(** [pick] retries when another handler reserved the choice in between; [None]
    when the fuel runs out. *)
Fixpoint pick (fuel : nat) (choose : list u32 -> option u32) (st : DownloadState)
    (peer : PeerAddr) (peer_has : Bitfield) (prefer : list u32)
  : option (option u32 * DownloadState) :=
  match fuel with
  | O => None
  | S fuel =>
      match candidates st peer_has with
      | [] => Some (None, st)
      | cands =>
          match pick_choice choose st cands prefer with
          | None => Some (None, st)
          | Some index =>
              match try_reserve_piece st index peer with
              | Some st' => Some (Some index, st')
              | None => pick fuel choose st peer peer_has prefer
              end
          end
      end
  end.

(** The same among other tasks: one round of the loop reads the state, and reserves its
    choice in a later one; [None] when it is still trying at the end of the rounds. *)
Record Round := mkRound { rd_choose : list u32 -> option u32; rd_seen : DownloadState; rd_found : DownloadState }.

Definition pick_select (choose : list u32 -> option u32) (st : DownloadState) (peer_has : Bitfield) (prefer : list u32) : option u32 :=
  match candidates st peer_has with [] => None | cands => pick_choice choose st cands prefer end.

Fixpoint pick_rounds (rounds : list Round) (peer : PeerAddr) (peer_has : Bitfield) (prefer : list u32) : option (option u32 * DownloadState) :=
  match rounds with
  | [] => None
  | r :: rounds =>
      match pick_select (rd_choose r) (rd_seen r) peer_has prefer with
      | None => Some (None, rd_seen r)
      | Some index =>
          match try_reserve_piece (rd_found r) index peer with
          | Some st' => Some (Some index, st')
          | None => pick_rounds rounds peer peer_has prefer
          end
      end
  end.

(** ** Block assignments *)

Definition assign_block (st : DownloadState) (now : Instant) (req : BlockRequest) (peer : PeerAddr)
  : bool * DownloadState :=
  match dl_assignments st !! req with
  | Some entry =>
      if bool_decide (peer ∈ requesters entry) then (false, st)
      else if (MAX_BLOCK_REQUESTERS <=? length (requesters entry))%nat then (false, st)
      else
        (true, set_assignments
           (<[req := mkAssignment (requesters entry ++ [peer]) (first_at entry)]>
              (dl_assignments st)) st)
  | None => (true, set_assignments (<[req := mkAssignment [peer] now]> (dl_assignments st)) st)
  end.

(** Whether the endgame may request a block from [peer] too. *)
Definition endgame_open (st : DownloadState) (now : Instant) (peer : PeerAddr) (req : BlockRequest)
  : bool :=
  match dl_assignments st !! req with
  | None => true
  | Some entry =>
      negb (bool_decide (peer ∈ requesters entry)) &&
      negb (MAX_BLOCK_REQUESTERS <=? length (requesters entry))%nat &&
      (ENDGAME_REREQUEST_AFTER <=? since now (first_at entry))
  end.

Fixpoint endgame_piece (st : DownloadState) (now : Instant) (peer : PeerAddr) (limit : nat)
    (received : list u32) (blocks found : list BlockRequest) : list BlockRequest :=
  match blocks with
  | [] => found
  | req :: rest =>
      if (limit <=? length found)%nat then found
      else
        endgame_piece st now peer limit received rest
          (if negb (bool_decide (br_begin req ∈ received)) && endgame_open st now peer req
           then found ++ [req] else found)
  end.

Fixpoint endgame_loop (st : DownloadState) (now : Instant) (peer : PeerAddr) (peer_has : Bitfield)
    (limit : nat) (pieces : list PieceWorkState) (found : list BlockRequest) : list BlockRequest :=
  match pieces with
  | [] => found
  | p :: rest =>
      if (limit <=? length found)%nat then found
      else if downloaded p || negb (wanted st (pw_index (piece_work p))) ||
              negb (bool_decide (is_Some (reserved p))) ||
              negb (has_piece peer_has (Z.to_nat (pw_index (piece_work p))))
      then endgame_loop st now peer peer_has limit rest found
      else
        endgame_loop st now peer peer_has limit rest
          (endgame_piece st now peer limit (map ch_start (chuncks p))
             (piece_blocks (piece_work p)) found)
  end.
Definition endgame_blocks (st : DownloadState) (now : Instant) (peer : PeerAddr)
    (peer_has : Bitfield) (limit : nat) : list BlockRequest :=
  if (limit =? 0)%nat || negb (in_endgame st) then []
  else endgame_loop st now peer peer_has limit (dl_pieces st) [].

(** The other requesters of the block, to cancel. *)
Definition note_block_received (st : DownloadState) (req : BlockRequest) (peer : PeerAddr)
  : list PeerAddr * DownloadState :=
  match dl_assignments st !! req with
  | None => ([], st)
  | Some entry =>
      (filter (fun p => p <> peer) (requesters entry),
       set_assignments (delete req (dl_assignments st)) st)
  end.

Definition drop_requester (peer : PeerAddr) (entry : BlockAssignment) : option BlockAssignment :=
  match filter (fun p => p <> peer) (requesters entry) with
  | [] => None
  | l => Some (mkAssignment l (first_at entry))
  end.
Definition unassign_peer_blocks (st : DownloadState) (peer : PeerAddr) : DownloadState :=
  set_assignments (omap (drop_requester peer) (dl_assignments st)) st.

Definition remove_reserved (st : DownloadState) (peer : PeerAddr) : DownloadState :=
  unassign_peer_blocks (release_peer_reservations st peer true) peer.

(** ** Availability *)

Definition apply_peer_bitfield (st : DownloadState) (previous next : Bitfield) : DownloadState :=
  set_availability (add_bitfield (remove_bitfield (dl_availability st) previous) next) st.

Definition apply_peer_have (st : DownloadState) (bf : Bitfield) (index : u32)
  : bool * Bitfield * DownloadState :=
  let i := Z.to_nat index in
  if has_piece bf i then (false, bf, st)
  else (true, set_piece bf i, set_availability (add_have (dl_availability st) index) st).

Definition remove_peer_availability (st : DownloadState) (bf : Bitfield) : DownloadState :=
  set_availability (remove_bitfield (dl_availability st) bf) st.

(** ** Chunks *)

(** Index of the first piece that carries [index]. *)
Definition find_piece (st : DownloadState) (index : u32) : option (nat * PieceWorkState) :=
  list_find (fun p => pw_index (piece_work p) = index) (dl_pieces st).

Definition set_chuncks (st : DownloadState) (index start : u32) (buf : bytes) (peer : PeerAddr)
  : bool * DownloadState :=
  match find_piece st index with
  | None => (false, st)
  | Some (i, p) =>
      if bool_decide (start ∈ map ch_start (chuncks p)) then
        (false, set_duplicate_bytes (wrap64 (dl_duplicate_bytes st + Z.of_nat (length buf))) st)
      else
        let c := mkChunk index start (wrap32 (Z.of_nat (length buf))) buf peer in
        (true, set_pieces (<[i := set_chunks (chuncks p ++ [c]) p]> (dl_pieces st)) st)
  end.

Definition piece_contributors (st : DownloadState) (index : u32) : list PeerAddr :=
  match get_piece st index with
  | None => []
  | Some p =>
      fold_left (fun peers c => if bool_decide (ch_peer c ∈ peers) then peers else peers ++ [ch_peer c])
        (chuncks p) []
  end.

(** [sort_unstable] on [(start, length)] pairs. *)
Definition span_le (a b : u32 * u32) : Prop :=
  fst a < fst b \/ (fst a = fst b /\ snd a <= snd b).
#[export] Instance span_le_dec a b : Decision (span_le a b).
Proof. unfold span_le. apply _. Defined.

Fixpoint cover_loop (spans : list (u32 * u32)) (covered : u32) : option u32 :=
  match spans with
  | [] => Some covered
  | (start, len) :: rest =>
      if negb (start =? covered) then None else cover_loop rest (sat_add U32_MAX covered len)
  end.
Definition piece_chunks_cover (p : PieceWorkState) : bool :=
  match cover_loop (merge_sort span_le (map (fun c => (ch_start c, ch_length c)) (chuncks p))) 0 with
  | None => false
  | Some covered => covered =? pw_length (piece_work p)
  end.

Definition set_downloaded_if_all_chunks (st : DownloadState) (index : u32)
  : option PieceWorkState * DownloadState :=
  match get_piece st index with
  | None => (None, st)
  | Some p =>
      if downloaded p || negb (piece_chunks_cover p) then (None, st)
      else
        let st := update_piece index (set_downloaded_flag true) st in
        (get_piece st index, set_verified (verified_inc (dl_verified st)) st)
  end.

(** Copy one chunk into the buffer when it fits. *)
Definition place_chunk (buf : bytes) (c : Chunk) : bytes :=
  let start := Z.to_nat (ch_start c) in
  let stop := (start + length (ch_buf c))%nat in
  if (stop <=? length buf)%nat then splice start stop (ch_buf c) buf else buf.
Definition chunk_to_buf (p : PieceWorkState) : bytes :=
  fold_left place_chunk (chuncks p) (replicate (Z.to_nat (pw_length (piece_work p))) 0).

(** ** The invariant *)

Record piece_ok (i : nat) (p : PieceWorkState) : Prop := {
  po_index : pw_index (piece_work p) = Z.of_nat i;
  po_length : is_u32 (pw_length (piece_work p));
  po_starts : NoDup (map ch_start (chuncks p));
  po_chunks : Forall (fun c => is_u32 (ch_start c) /\
                               ch_length c = wrap32 (Z.of_nat (length (ch_buf c)))) (chuncks p) }.

(** A block is requested from one or two different peers. *)
Definition assignment_ok (e : BlockAssignment) : Prop :=
  NoDup (requesters e) /\ (1 <= length (requesters e) <= MAX_BLOCK_REQUESTERS)%nat.

Definition pieces_ok (l : list PieceWorkState) : Prop :=
  forall i p, l !! i = Some p -> piece_ok i p.

Record wf_download (st : DownloadState) : Prop := {
  wd_pieces : pieces_ok (dl_pieces st);
  wd_count : Z.of_nat (length (dl_pieces st)) <= U32_MAX;
  wd_verified : dl_verified st = Z.of_nat (count_downloaded (dl_pieces st));
  wd_avail : wf_availability (dl_availability st);
  wd_assign : map_Forall (fun _ e => assignment_ok e) (dl_assignments st) }.

(** *** Pieces *)

Lemma count_downloaded_le l : (count_downloaded l <= length l)%nat.
Proof. apply length_filter. Qed.

Lemma count_downloaded_cons p l :
  count_downloaded (p :: l) = ((if downloaded p then 1 else 0) + count_downloaded l)%nat.
Proof.
  unfold count_downloaded. destruct (downloaded p) eqn:E.
  - by rewrite filter_cons_True.
  - rewrite filter_cons_False; [done|by rewrite E].
Qed.

(** Changing one piece changes the count by its flag. *)
Lemma count_downloaded_alter f i l p :
  l !! i = Some p ->
  (count_downloaded (alter f i l) + (if downloaded p then 1 else 0) =
   count_downloaded l + (if downloaded (f p) then 1 else 0))%nat.
Proof.
  revert i. induction l as [|x l IH]; intros i; [done|]. destruct i as [|i].
  - intros [= ->]. change (alter f 0%nat (p :: l)) with (f p :: l).
    rewrite !count_downloaded_cons. lia.
  - intros H. change (alter f (S i) (x :: l)) with (x :: alter f i l).
    rewrite !count_downloaded_cons. specialize (IH i H). lia.
Qed.

Lemma count_downloaded_insert i l p q :
  l !! i = Some p -> downloaded q = downloaded p ->
  count_downloaded (<[i := q]> l) = count_downloaded l.
Proof.
  intros Hp Hd. revert i Hp. induction l as [|x l IH]; intros [|i]; [done|done| |].
  - intros [= ->]. simpl. by rewrite !count_downloaded_cons, Hd.
  - intros Hp. simpl. rewrite !count_downloaded_cons. by rewrite (IH i Hp).
Qed.

Lemma pieces_ok_alter f i l :
  pieces_ok l -> (forall p, l !! i = Some p -> piece_ok i (f p)) -> pieces_ok (alter f i l).
Proof.
  intros H Hf j p. destruct (decide (i = j)) as [<-|Hne].
  - rewrite list_lookup_alter_eq. destruct (l !! i) eqn:E; [|done]. intros [= <-]. by apply Hf.
  - rewrite list_lookup_alter_ne by done. apply H.
Qed.

Lemma alter_same {A} (f : A -> A) i (l : list A) : l !! i = None -> alter f i l = l.
Proof. intros H. apply list_eq. intros j. destruct (decide (i = j)) as [<-|?].
  - by rewrite list_lookup_alter_eq, H.
  - by rewrite list_lookup_alter_ne.
Qed.

(** Field updates that keep a piece well formed. *)
Lemma piece_ok_flags i p d r w :
  piece_ok i p -> piece_ok i (mkPiece (piece_work p) (chuncks p) d r w).
Proof. by intros []. Qed.
Lemma piece_ok_cleared i p d r w : piece_ok i p -> piece_ok i (mkPiece (piece_work p) [] d r w).
Proof. intros []. split; [done|done|constructor|constructor]. Qed.
Lemma piece_ok_unreserve i p b : piece_ok i p -> piece_ok i (unreserve b p).
Proof.
  intros H. unfold unreserve. destruct (b && _).
  - by apply (piece_ok_cleared i p).
  - by apply piece_ok_flags.
Qed.
#[export] Hint Resolve piece_ok_flags piece_ok_cleared piece_ok_unreserve : bitrev.

(** Replacing the pieces by ones with the same flags. *)
Lemma set_pieces_wf st l :
  wf_download st -> pieces_ok l -> length l = length (dl_pieces st) ->
  count_downloaded l = count_downloaded (dl_pieces st) -> wf_download (set_pieces l st).
Proof. intros [] ? Hl Hc. split; cbn [set_pieces dl_pieces]; rewrite ?Hl, ?Hc; done. Qed.

Lemma update_piece_wf st index f :
  wf_download st -> (forall i p, piece_ok i p -> piece_ok i (f p)) ->
  (forall p, downloaded (f p) = downloaded p) -> wf_download (update_piece index f st).
Proof.
  intros Hst Hf Hd. apply set_pieces_wf; [done| |apply length_alter|].
  - apply pieces_ok_alter; [apply Hst|]. intros p Hp. apply Hf. by apply (wd_pieces _ Hst).
  - destruct (dl_pieces st !! Z.to_nat index) as [p|] eqn:E.
    + pose proof (count_downloaded_alter f _ _ _ E) as H. rewrite Hd in H. lia.
    + by rewrite alter_same.
Qed.

(** Setting the flag of a piece that was not downloaded adds one to the
    counter. *)
Lemma mark_piece_wf st index p :
  wf_download st -> get_piece st index = Some p -> downloaded p = false ->
  let st' := update_piece index (set_downloaded_flag true) st in
  wf_download (set_verified (verified_inc (dl_verified st')) st').
Proof.
  intros Hst Hp Hd. unfold get_piece in Hp. pose proof Hst as [Hps Hn Hv Ha Hm].
  pose proof (count_downloaded_alter (set_downloaded_flag true) _ _ _ Hp) as Hc.
  rewrite Hd in Hc. cbn [set_downloaded_flag downloaded] in Hc.
  pose proof (count_downloaded_le (dl_pieces st)).
  pose proof (count_downloaded_le (alter (set_downloaded_flag true) (Z.to_nat index) (dl_pieces st))) as Hle.
  rewrite length_alter in Hle.
  split; cbn [set_verified update_piece set_pieces dl_pieces dl_verified dl_availability dl_assignments];
    try done.
  - apply pieces_ok_alter; [done|]. intros q Hq. apply piece_ok_flags. by apply Hps.
  - by rewrite length_alter.
  - unfold verified_inc. rewrite Hv, wrap64_small by ranges. lia.
Qed.

(** *** Marking *)

Lemma mark_downloaded_wf st index : wf_download st -> wf_download (mark_downloaded st index).
Proof.
  intros Hst. unfold mark_downloaded. destruct (get_piece st index) as [p|] eqn:Ep; [|done].
  destruct (downloaded p) eqn:Ed; [|by eapply mark_piece_wf].
  apply set_pieces_wf; [done| |apply length_alter|].
  - apply pieces_ok_alter; [apply Hst|]. intros q Hq. apply piece_ok_flags. by apply Hst.
  - pose proof (count_downloaded_alter (set_downloaded_flag true) _ _ _ Ep) as H.
    rewrite Ed in H. cbn [set_downloaded_flag downloaded] in H. lia.
Qed.

Lemma set_downloaded_wf st index :
  wf_download st -> wf_download (snd (set_downloaded_if_all_chunks st index)).
Proof.
  intros Hst. unfold set_downloaded_if_all_chunks.
  destruct (get_piece st index) as [p|] eqn:Ep; [|done].
  destruct (downloaded p) eqn:Ed; [done|]. cbn [orb].
  destruct (piece_chunks_cover p); [|done]. by eapply mark_piece_wf.
Qed.

(** Only the piece with the index changes. *)
Lemma remove_loop_spec index l v k :
  (forall i p, l !! i = Some p -> piece_ok (k + i) p) ->
  Z.of_nat (count_downloaded l) <= v ->
  let '(l', v') := remove_loop index l v in
  (forall i p, l' !! i = Some p -> piece_ok (k + i) p) /\ length l' = length l /\
  v' - Z.of_nat (count_downloaded l') = v - Z.of_nat (count_downloaded l) /\
  (forall i p, l !! i = Some p -> pw_index (piece_work p) <> index -> l' !! i = Some p).
Proof.
  revert v k. induction l as [|p l IH]; intros v k Hok Hv; cbn [remove_loop].
  { split_and!; [done|done|lia|done]. }
  rewrite count_downloaded_cons in Hv.
  assert (Hok' : forall i q, l !! i = Some q -> piece_ok (S k + i) q).
  { intros i q Hq. specialize (Hok (S i) q Hq). by replace (S k + i)%nat with (k + S i)%nat by lia. }
  assert (Hp : piece_ok (k + 0) p) by by apply Hok.
  destruct (Z.eqb_spec (pw_index (piece_work p)) index) as [He|He].
  - specialize (IH (if downloaded p then verified_dec v else v) (S k) Hok').
    destruct (remove_loop index l _) as [l' v'].
    destruct IH as (H1 & H2 & H3 & H4).
    { unfold verified_dec. destruct (downloaded p); ranges. }
    split_and!.
    + intros [|i] q; [intros [= <-]; by apply (piece_ok_cleared _ p)|]. intros Hq.
      replace (k + S i)%nat with (S k + i)%nat by lia. by apply H1.
    + simpl. lia.
    + rewrite !count_downloaded_cons. cbn [set_downloaded_flag downloaded].
      unfold verified_dec in *. destruct (downloaded p); ranges.
    + intros [|i] q; [by intros [= <-]|apply H4].
  - specialize (IH v (S k) Hok' ltac:(lia)). destruct (remove_loop index l v) as [l' v'].
    destruct IH as (H1 & H2 & H3 & H4). split_and!.
    + intros [|i] q; [by intros [= <-]|]. intros Hq.
      replace (k + S i)%nat with (S k + i)%nat by lia. by apply H1.
    + simpl. lia.
    + rewrite !count_downloaded_cons. lia.
    + intros [|i] q; [done|apply H4].
Qed.

Lemma remove_downloaded_wf st index : wf_download st -> wf_download (remove_downloaded st index).
Proof.
  intros [Hps Hn Hv Ha Hm]. unfold remove_downloaded.
  pose proof (remove_loop_spec index (dl_pieces st) (dl_verified st) 0 Hps ltac:(lia)) as H.
  destruct (remove_loop _ _ _) as [l v]. destruct H as (H1 & H2 & H3 & _).
  split; try done; cbn [set_verified set_pieces dl_pieces dl_verified]; lia.
Qed.

Lemma fold_wf {A} (f : DownloadState -> A -> DownloadState) (l : list A) st :
  (forall st a, wf_download st -> wf_download (f st a)) ->
  wf_download st -> wf_download (fold_left f l st).
Proof. intros Hf. revert st. induction l as [|a l IH]; intros st Hst; simpl; auto. Qed.

(** *** Reservations *)

Lemma try_reserve_wf st index peer st' :
  wf_download st -> try_reserve_piece st index peer = Some st' -> wf_download st'.
Proof.
  intros Hst. unfold try_reserve_piece. destruct (get_piece st index) as [p|]; [|done].
  destruct (_ || _); [done|]. destruct (reserved p); [done|]. intros [= <-].
  apply update_piece_wf; [done|intros; by apply piece_ok_flags|done].
Qed.

Lemma pick_wf fuel choose st peer peer_has prefer r st' :
  wf_download st -> pick fuel choose st peer peer_has prefer = Some (r, st') -> wf_download st'.
Proof.
  intros Hst. induction fuel as [|fuel IH]; [done|]. cbn [pick].
  destruct (candidates st peer_has) as [|c cs]; [by intros [= <- <-]|].
  destruct (pick_choice _ _ _ _) as [i|]; [|by intros [= <- <-]].
  destruct (try_reserve_piece st i peer) eqn:E; [|done]. intros [= <- <-].
  by eapply try_reserve_wf.
Qed.

Lemma downloaded_unreserve b p : downloaded (unreserve b p) = downloaded p.
Proof. unfold unreserve. by destruct (b && _). Qed.

Lemma release_peer_reservations_wf st peer b :
  wf_download st -> wf_download (release_peer_reservations st peer b).
Proof.
  intros Hst. apply set_pieces_wf; [done| |apply length_map|].
  - intros i p. rewrite list_lookup_fmap. destruct (dl_pieces st !! i) as [q|] eqn:E; [|done].
    intros [= <-]. apply (wd_pieces _ Hst) in E. case_decide; [by apply piece_ok_unreserve|done].
  - induction (dl_pieces st) as [|p l IH]; [done|]. cbn [map].
    rewrite !count_downloaded_cons, IH. case_decide; [by rewrite downloaded_unreserve|done].
Qed.

(** *** Assignments *)

Lemma set_assignments_wf st m :
  wf_download st -> map_Forall (fun _ e => assignment_ok e) m -> wf_download (set_assignments m st).
Proof. by intros [] ?. Qed.

Lemma assign_block_wf st now req peer :
  wf_download st -> wf_download (snd (assign_block st now req peer)).
Proof.
  intros Hst. unfold assign_block. pose proof (wd_assign _ Hst) as Hm.
  destruct (dl_assignments st !! req) as [e|] eqn:E.
  - case_bool_decide as Hin; [done|]. destruct (Nat.leb_spec MAX_BLOCK_REQUESTERS (length (requesters e)));
      [done|]. apply set_assignments_wf; [done|]. apply map_Forall_insert_2; [|done].
    destruct (Hm _ _ E) as [Hnd Hlen]. split; cbn [requesters].
    + apply NoDup_app. split_and!; [done| |apply NoDup_singleton].
      by intros x Hx ->%list_elem_of_singleton.
    + rewrite length_app. simpl. lia.
  - apply set_assignments_wf; [done|]. apply map_Forall_insert_2; [|done].
    split; [apply NoDup_singleton|]. unfold MAX_BLOCK_REQUESTERS. simpl. lia.
Qed.

Lemma note_block_received_wf st req peer :
  wf_download st -> wf_download (snd (note_block_received st req peer)).
Proof.
  intros Hst. unfold note_block_received. destruct (_ !! _); [|done].
  apply set_assignments_wf; [done|]. apply map_Forall_delete, Hst.
Qed.

Lemma unassign_peer_blocks_wf st peer : wf_download st -> wf_download (unassign_peer_blocks st peer).
Proof.
  intros Hst. apply set_assignments_wf; [done|]. intros req e.
  rewrite lookup_omap. destruct (dl_assignments st !! req) as [e0|] eqn:E; [|done].
  apply (wd_assign _ Hst) in E as [Hnd Hlen]. cbn [mbind option_bind]. unfold drop_requester.
  pose proof (NoDup_filter (fun p => p <> peer) _ Hnd) as Hnd'.
  assert (Hle : (length (filter (fun p => p <> peer) (requesters e0)) <= length (requesters e0))%nat)
    by apply length_filter.
  destruct (filter _ _) as [|x l]; [done|]. intros [= <-]. split; [done|].
  cbn [requesters length] in *. lia.
Qed.

(** *** Chunks *)

Lemma set_chuncks_wf st index start buf peer :
  wf_download st -> is_u32 start -> wf_download (snd (set_chuncks st index start buf peer)).
Proof.
  intros Hst Hs. unfold set_chuncks. destruct (find_piece st index) as [[i p]|] eqn:E; [|done].
  apply list_find_Some in E as (Ei & _ & _). case_bool_decide as Hin; [by destruct Hst|].
  pose proof (wd_pieces _ Hst _ _ Ei) as [H1 H2 H3 H4].
  cbn [snd]. apply set_pieces_wf; [done| |apply length_insert|].
  - intros j q. destruct (decide (i = j)) as [<-|Hne].
    + rewrite list_lookup_insert_eq by by eapply lookup_lt_Some. intros [= <-].
      split; try done; cbn [set_chunks chuncks].
      * rewrite map_app. apply NoDup_app. split_and!; [done| |apply NoDup_singleton].
        by intros x Hx ->%list_elem_of_singleton.
      * apply Forall_app. split; [done|]. by repeat constructor; simpl; ranges.
    + rewrite list_lookup_insert_ne by done. apply Hst.
  - by apply (count_downloaded_insert _ _ p).
Qed.

(** *** Dropping unwanted pieces *)

(** What the loop over the pieces from number [k] on does. *)
Record unwant_result (want : u32 -> bool) (k : nat) (l l' : list PieceWorkState)
    (m m' : gmap BlockRequest BlockAssignment)
    (cs cs' : list (PeerAddr * BlockRequest)) : Prop := {
  ur_length : length l' = length l;
  ur_kept i p : l !! i = Some p -> want (Z.of_nat (k + i)) = true \/ downloaded p = true ->
    l' !! i = Some p;
  ur_dropped i p : l !! i = Some p -> want (Z.of_nat (k + i)) = false -> downloaded p = false ->
    l' !! i = Some (mkPiece (piece_work p) [] false None false) /\
    (forall req e, m' !! req = Some e -> br_index req <> Z.of_nat (k + i)) /\
    (forall req e peer, m !! req = Some e -> br_index req = Z.of_nat (k + i) ->
       peer ∈ requesters e -> (peer, req) ∈ cs') /\
    (forall peer req, reserved p = Some peer ->
       req ∈ blocks_from (S (Z.to_nat (pw_length (piece_work p) / BLOCK_SIZE)))
               (Z.of_nat (k + i)) (pw_length (piece_work p)) 0 -> (peer, req) ∈ cs');
  ur_sub : m' ⊆ m;
  ur_map req e : m !! req = Some e ->
    m' !! req = Some e \/
    exists i p, l !! i = Some p /\ want (Z.of_nat (k + i)) = false /\ downloaded p = false /\
                br_index req = Z.of_nat (k + i);
  ur_grow c : c ∈ cs -> c ∈ cs' }.

Lemma push_cancel_elem peer cs req c :
  c ∈ push_cancel peer cs req <-> c ∈ cs \/ c = (peer, req).
Proof.
  unfold push_cancel. case_bool_decide; [naive_solver|].
  by rewrite elem_of_app, list_elem_of_singleton.
Qed.

Lemma fold_push_cancel peer reqs cs c :
  c ∈ fold_left (push_cancel peer) reqs cs <->
  c ∈ cs \/ exists req, req ∈ reqs /\ c = (peer, req).
Proof.
  revert cs. induction reqs as [|r reqs IH]; intros cs; cbn [fold_left].
  - setoid_rewrite elem_of_nil. naive_solver.
  - rewrite IH, push_cancel_elem. setoid_rewrite elem_of_cons. naive_solver.
Qed.

Lemma unwant_loop_spec want k l m cs :
  let '(l', m', cs') := unwant_loop want k l m cs in unwant_result want k l l' m m' cs cs'.
Proof.
  revert k m cs. induction l as [|p l IH]; intros k m cs; cbn [unwant_loop].
  { split; try done. auto. }
  destruct (want (Z.of_nat k) || downloaded p) eqn:Ew.
  - specialize (IH (S k) m cs). destruct (unwant_loop _ _ _ _ _) as [[l' m'] cs'].
    destruct IH as [H1 H2 H3 H4 H5 H6].
    split; [simpl; lia| | |done| |done].
    + intros [|i] q; [done|]. rewrite Nat.add_succ_r. apply H2.
    + intros [|i] q; [|rewrite Nat.add_succ_r; apply H3].
      intros [= <-] Hw Hd. rewrite Nat.add_0_r in Hw. by rewrite Hw, Hd in Ew.
    + intros req e He. destruct (H5 req e He) as [?|(i & q & ? & ? & ? & ?)]; [by left|right].
      exists (S i), q. by rewrite Nat.add_succ_r.
  - apply orb_false_iff in Ew as [Hw Hd].
    set (cs1 := match reserved p with None => _ | Some _ => _ end).
    set (m1 := filter (fun e => br_index (fst e) <> Z.of_nat k) m).
    specialize (IH (S k) m1 cs1).
    destruct (unwant_loop want (S k) l m1 cs1) as [[l' m'] cs'] eqn:Eu.
    destruct IH as [H1 H2 H3 H4 H5 H6].
    assert (Hm1 : forall req e, m1 !! req = Some e <-> m !! req = Some e /\ br_index req <> Z.of_nat k).
    { intros req e. unfold m1. by rewrite map_lookup_filter_Some. }
    assert (Hcs0 : forall c, c ∈ cs ++ flat_map assignment_cancels
      (filter (fun e => br_index (fst e) = Z.of_nat k) (map_to_list m)) -> c ∈ cs1).
    { intros c Hc. unfold cs1. destruct (reserved p); [|done]. apply fold_push_cancel. by left. }
    split; [simpl; lia| | | | |].
    + intros [|i] q; [|rewrite Nat.add_succ_r; apply H2].
      intros [= <-]. rewrite Nat.add_0_r, Hw, Hd. by intros [?|?].
    + intros [|i] q.
      * intros [= <-] _ _. rewrite Nat.add_0_r. split_and!; [by rewrite <- Hd| | |].
        -- intros req e He. apply (lookup_weaken _ m1) in He; [|done]. by apply Hm1 in He as [_ ?].
        -- intros req e peer He Hi Hp. apply H6, Hcs0, elem_of_app. right.
           apply list_elem_of_In, in_flat_map. exists (req, e).
           split; [apply list_elem_of_In, list_elem_of_filter; split; [done|by apply elem_of_map_to_list]|].
           apply list_elem_of_In, list_elem_of_fmap. by exists peer.
        -- intros peer req Hr Hreq. apply H6. unfold cs1. rewrite Hr. apply fold_push_cancel.
           right. by exists req.
      * intros Hq. rewrite Nat.add_succ_r. intros Hwq Hdq.
        destruct (H3 i q Hq Hwq Hdq) as (G1 & G2 & G3 & G4). split_and!; try done.
        intros req e peer He Hi. apply (G3 req e); [|done]. apply Hm1. split; [done|]. rewrite Hi. lia.
    + etrans; [apply H4|]. apply map_filter_subseteq.
    + intros req e He. destruct (decide (br_index req = Z.of_nat k)) as [Hk|Hk].
      * right. exists 0%nat, p. rewrite Nat.add_0_r. by split_and!.
      * destruct (H5 req e) as [?|(i & q & ? & ? & ? & ?)]; [by apply Hm1|by left|right].
        exists (S i), q. by rewrite Nat.add_succ_r.
    + intros c Hc. apply H6, Hcs0, elem_of_app. by left.
Qed.

Lemma unwant_skipped_wf st : wf_download st -> wf_download (snd (unwant_skipped st)).
Proof.
  intros Hst. pose proof Hst as [Hps Hn Hv Ha Hm]. unfold unwant_skipped.
  pose proof (unwant_loop_spec (wanted st) 0 (dl_pieces st) (dl_assignments st) []) as H.
  destruct (unwant_loop _ _ _ _ _) as [[l' m'] cs']. destruct H as [H1 H2 H3 H4 H5 H6]. cbn [snd].
  apply set_assignments_wf; [apply set_pieces_wf; [done| |done|]|].
  - intros i p Hp. destruct (lookup_lt_is_Some_2 (dl_pieces st) i) as [q Hq].
    { rewrite <- H1. by eapply lookup_lt_Some. }
    destruct (decide (wanted st (Z.of_nat (0 + i)) = true \/ downloaded q = true)) as [Hk|Hk].
    + rewrite (H2 i q Hq Hk) in Hp. injection Hp as <-. by apply Hps.
    + destruct (H3 i q Hq) as [E _]; [by apply not_true_iff_false; tauto..|].
      rewrite E in Hp. injection Hp as <-. by apply piece_ok_cleared, Hps.
  - assert (Hcount : forall l l', length l' = length l ->
      (forall i p, l !! i = Some p -> exists p', l' !! i = Some p' /\ downloaded p' = downloaded p) ->
      count_downloaded l' = count_downloaded l).
    { clear. induction l as [|p l IH]; intros [|p' l'] Hl H; try done.
      destruct (H O p eq_refl) as (q & [= <-] & Hd). rewrite !count_downloaded_cons, Hd.
      f_equal. apply IH; [by injection Hl|]. intros i x Hx. by apply (H (S i)). }
    apply Hcount; [done|]. intros i p Hp.
    destruct (decide (wanted st (Z.of_nat (0 + i)) = true \/ downloaded p = true)) as [Hk|Hk].
    + exists p. split; [by apply H2|done].
    + assert (Hd : downloaded p = false) by (apply not_true_iff_false; tauto).
      destruct (H3 i p Hp) as [E _]; [by apply not_true_iff_false; tauto|done|].
      eexists. by split; [apply E|].
  - intros req e He. eapply Hm, lookup_weaken; done.
Qed.

Lemma set_selection_wf st seq prios pp fl :
  wf_download st -> wf_download (set_selection seq prios pp fl st).
Proof. by intros []. Qed.

Lemma apply_file_priorities_wf st prios :
  wf_download st -> wf_download (snd (apply_file_priorities st prios)).
Proof. intros Hst. by apply unwant_skipped_wf, set_selection_wf. Qed.

(** *** Availability *)

Lemma imap_u16 (f : nat -> u16 -> u16) l :
  Forall is_u16 l -> (forall i c, is_u16 c -> is_u16 (f i c)) -> Forall is_u16 (imap f l).
Proof.
  rewrite !Forall_lookup. intros H Hf i c. rewrite list_lookup_imap.
  destruct (l !! i) eqn:E; [|done]. intros [= <-]. eauto.
Qed.

Lemma add_bitfield_wf av bf : wf_availability av -> wf_availability (add_bitfield av bf).
Proof.
  intros H. apply imap_u16; [done|]. intros i c Hc. unfold saturating_inc.
  destruct (has_piece bf i); ranges.
Qed.
Lemma remove_bitfield_wf av bf : wf_availability av -> wf_availability (remove_bitfield av bf).
Proof.
  intros H. apply imap_u16; [done|]. intros i c Hc. unfold saturating_dec.
  destruct (has_piece bf i); ranges.
Qed.
Lemma add_have_wf av i : wf_availability av -> wf_availability (add_have av i).
Proof.
  unfold wf_availability. intros H. cbn [add_have counts]. apply Forall_alter; [done|].
  intros c _ Hc. unfold saturating_inc. ranges.
Qed.

Lemma set_availability_wf st av :
  wf_download st -> wf_availability av -> wf_download (set_availability av st).
Proof. by intros [] ?. Qed.

(** ** Reachable states *)

(** The operations that change the state, as the handlers, the verifier and the
    session call them. *)
Inductive dl_step : DownloadState -> DownloadState -> Prop :=
| st_install st t seq prios : dl_step st (snd (install_content st t seq prios))
| st_priorities st prios : dl_step st (snd (apply_file_priorities st prios))
| st_file_priority st i prio r : set_file_priority st i prio = Some r -> dl_step st (snd r)
| st_sequential st b : dl_step st (set_sequential b st)
| st_bootstrap st n : dl_step st (set_bootstrap_until n st)
| st_mark st i : dl_step st (mark_downloaded st i)
| st_mark_all st : dl_step st (mark_all_downloaded st)
| st_all_chunks st i : dl_step st (snd (set_downloaded_if_all_chunks st i))
| st_remove st i : dl_step st (remove_downloaded st i)
| st_remove_all st : dl_step st (clear_all_downloaded st)
| st_clear_chunks st i : dl_step st (clear_piece_chunks st i)
| st_claim st i : dl_step st (snd (claim_write st i))
| st_reserve st i peer st' : try_reserve_piece st i peer = Some st' -> dl_step st st'
| st_pick st fuel choose peer has prefer r st' :
    pick fuel choose st peer has prefer = Some (r, st') -> dl_step st st'
| st_release st i : dl_step st (release_piece st i)
| st_release_own st i peer : dl_step st (snd (release_reservation st i peer))
| st_snub st peer : dl_step st (snub_release st peer)
| st_disconnect st peer : dl_step st (remove_reserved st peer)
| st_assign st now req peer : dl_step st (snd (assign_block st now req peer))
| st_received st req peer : dl_step st (snd (note_block_received st req peer))
| st_chunk st i start buf peer :
    is_u32 start -> dl_step st (snd (set_chuncks st i start buf peer))
| st_bitfield st prev next : dl_step st (apply_peer_bitfield st prev next)
| st_have st bf i : dl_step st (snd (apply_peer_have st bf i))
| st_peer_gone st bf : dl_step st (remove_peer_availability st bf).

Lemma dl_step_wf st st' : wf_download st -> dl_step st st' -> wf_download st'.
Proof.
  intros Hst Hstep. destruct Hstep as
    [st t seq prios|st prios|st i prio r H|st b|st n|st i|st|st i|st i|st|st i|st i
    |st i peer st' H|st fuel choose peer has prefer r st' H|st i|st i peer|st peer|st peer
    |st now req peer|st req peer|st i start buf peer H|st prev next|st bf i|st bf].
  - apply apply_file_priorities_wf, set_selection_wf. by destruct Hst.
  - by apply apply_file_priorities_wf.
  - unfold set_file_priority in H. destruct (_ <=? _)%nat; [done|]. injection H as <-.
    by apply apply_file_priorities_wf.
  - by apply set_selection_wf.
  - by destruct Hst.
  - by apply mark_downloaded_wf.
  - apply fold_wf; [|done]. intros. by apply mark_downloaded_wf.
  - by apply set_downloaded_wf.
  - by apply remove_downloaded_wf.
  - apply fold_wf; [|done]. intros. by apply remove_downloaded_wf.
  - apply update_piece_wf; [done|intros; by apply piece_ok_cleared|done].
  - unfold claim_write. destruct (get_piece st i); [|done].
    apply update_piece_wf; [done|intros; by apply piece_ok_flags|done].
  - by eapply try_reserve_wf.
  - by eapply pick_wf.
  - apply update_piece_wf; [done|intros; by apply piece_ok_unreserve|apply downloaded_unreserve].
  - unfold release_reservation. destruct (get_piece st i); [|done]. destruct (decide _); [|done].
    apply update_piece_wf; [done|intros; by apply piece_ok_unreserve|apply downloaded_unreserve].
  - by apply release_peer_reservations_wf.
  - by apply unassign_peer_blocks_wf, release_peer_reservations_wf.
  - by apply assign_block_wf.
  - by apply note_block_received_wf.
  - by apply set_chuncks_wf.
  - apply set_availability_wf; [done|]. apply add_bitfield_wf, remove_bitfield_wf, Hst.
  - unfold apply_peer_have. destruct (has_piece bf (Z.to_nat i)); [done|].
    apply set_availability_wf; [done|]. apply add_have_wf, Hst.
  - apply set_availability_wf; [done|]. apply remove_bitfield_wf, Hst.
Qed.

(** C2: whatever sequence of operations the peer handlers, the verifier and the
    session perform, from any initial set of pieces: the verified counter is the
    number of downloaded pieces, no block is assigned to more than two peers or
    twice to one, piece numbers match their position, and the chunks kept for a
    piece have pairwise different starts and their true lengths. *)
Theorem download_invariant pieces st :
  pieces_ok pieces -> Z.of_nat (length pieces) <= U32_MAX ->
  rtc dl_step (with_seed pieces) st -> wf_download st.
Proof.
  intros Hp Hn Hr. assert (Hinit : wf_download (with_seed pieces)).
  { split; try done. apply Forall_replicate. ranges. }
  revert Hinit. clear Hp Hn. induction Hr as [st|a b c Hstep _ IH]; [done|].
  intros Hst. apply IH. by eapply dl_step_wf.
Qed.

Definition example_piece (i len : Z) : PieceWorkState := piece_new (mkPieceWork i len []).
Definition example_pieces : list PieceWorkState := [example_piece 0 20000; example_piece 1 5].
Definition example_peer : PeerAddr := V4 167772161 6881.
Definition example_download : DownloadState := with_seed example_pieces.

Lemma example_pieces_ok : pieces_ok example_pieces.
Proof.
  intros [|[|i]] p; [intros [= <-]|intros [= <-]|done]; split; simpl;
    (done || constructor || ranges).
Qed.

Lemma download_invariant_witness :
  wf_download (mark_downloaded (snd (set_chuncks example_download 1 0 [1; 2; 3; 4; 5] example_peer)) 1).
Proof.
  apply (download_invariant example_pieces).
  - apply example_pieces_ok.
  - vm_compute. congruence.
  - eapply rtc_l; [apply (st_chunk _ 1 0 [1; 2; 3; 4; 5] example_peer); ranges|]. apply rtc_once, st_mark.
Defined.

(** ** Picking *)

Lemma elem_numbered l i p : (i, p) ∈ numbered l <-> 0 <= i /\ l !! Z.to_nat i = Some p.
Proof.
  unfold numbered. rewrite list_elem_of_lookup. split.
  - intros [n Hn]. rewrite list_lookup_imap in Hn. destruct (l !! n) eqn:E; [|done].
    injection Hn as <- <-. rewrite Nat2Z.id. split; [lia|done].
  - intros [Hi Hp]. exists (Z.to_nat i). rewrite list_lookup_imap, Hp. simpl.
    by rewrite Z2Nat.id by lia.
Qed.

(** A piece [peer] can be asked for: missing, free, wanted and offered. *)
Definition eligible (st : DownloadState) (peer_has : Bitfield) (i : u32) : Prop :=
  0 <= i /\ has_piece peer_has (Z.to_nat i) = true /\ wanted st i = true /\
  exists p, get_piece st i = Some p /\ downloaded p = false /\ reserved p = None.

Lemma elem_candidates st peer_has i :
  i ∈ candidates st peer_has <-> eligible st peer_has i.
Proof.
  unfold candidates, eligible, get_piece. rewrite list_elem_of_fmap. split.
  - intros ([j p] & -> & H). apply list_elem_of_filter in H as [(? & ? & ? & ?) Hn].
    apply elem_numbered in Hn as [? ?]. simpl in *. eauto 10.
  - intros (Hi & Hh & Hw & p & Hp & Hd & Hr). exists (i, p). split; [done|].
    apply list_elem_of_filter. split; [done|]. by apply elem_numbered.
Qed.

Lemma top_band_spec st c cs :
  (exists i, i ∈ c :: cs /\ piece_prio st i = top_band st (c :: cs)) /\
  forall i, i ∈ c :: cs -> prio_rank (piece_prio st i) <= prio_rank (top_band st (c :: cs)).
Proof.
  cbn [top_band]. split.
  - destruct (fold_prio_max_in (map (piece_prio st) cs) (piece_prio st c)) as [E|E].
    + exists c. rewrite E. split; [left|done].
    + apply list_elem_of_fmap in E as (i & -> & Hi). exists i. split; [by right|done].
  - intros i Hi. apply fold_prio_max_le. apply elem_of_cons in Hi as [->|Hi]; [by left|].
    right. by apply list_elem_of_fmap_2.
Qed.

Lemma pick_choice_spec choose `{!SliceRandom choose} st c cs prefer :
  wf_download st ->
  exists i, pick_choice choose st (c :: cs) prefer = Some i /\ i ∈ c :: cs /\
    (dl_sequential st = false ->
     forall j, j ∈ c :: cs -> prio_rank (piece_prio st j) <= prio_rank (piece_prio st i)).
Proof.
  intros Hst. unfold pick_choice. destruct (dl_sequential st).
  - destruct (select_sequential_spec (c :: cs) (filter (fun i => i ∈ c :: cs) (dl_first_last st) ++ prefer))
      as (i & -> & Hi & _); [done|]. by exists i.
  - destruct (top_band_spec st c cs) as [(b & Hb & Eb) Hmax].
    destruct (select_piece_in choose (filter (fun i => piece_prio st i = top_band st (c :: cs)) (c :: cs))
      prefer (dl_availability st) (dl_verified st) (dl_bootstrap_until st)) as (i & -> & Hi).
    + apply Hst.
    + intros E. apply (not_elem_of_nil b). rewrite <- E. by apply list_elem_of_filter.
    + apply list_elem_of_filter in Hi as [Ei Hi]. exists i. split; [done|]. split; [done|].
      intros _ j Hj. rewrite Ei. by apply Hmax.
Qed.

(** One round of [pick] with candidates: the choice is free, so it is reserved. *)
Lemma pick_reserves choose `{!SliceRandom choose} st peer peer_has prefer fuel c cs :
  wf_download st -> candidates st peer_has = c :: cs ->
  exists i, pick (S fuel) choose st peer peer_has prefer = Some (Some i, update_piece i (set_reserved (Some peer)) st) /\
    eligible st peer_has i /\
    (dl_sequential st = false -> forall j, j ∈ c :: cs -> prio_rank (piece_prio st j) <= prio_rank (piece_prio st i)).
Proof.
  intros Hst Ec. cbn [pick]. rewrite Ec. destruct (pick_choice_spec choose st c cs prefer Hst) as (i & -> & Hi & Hmax).
  rewrite <- Ec in Hi. apply elem_candidates in Hi. destruct (Hi) as (Hi0 & Hh & Hw & p & Hp & Hd & Hr).
  exists i. unfold try_reserve_piece. rewrite Hp, Hw, Hd, Hr. by cbn [negb orb].
Qed.

(** With nobody else about, the rounds are those of [pick]. *)
Lemma pick_alone fuel choose st peer peer_has prefer :
  pick fuel choose st peer peer_has prefer = pick_rounds (replicate fuel (mkRound choose st st)) peer peer_has prefer.
Proof.
  induction fuel as [|fuel IH]; [done|]. cbn [pick replicate pick_rounds rd_choose rd_seen rd_found]. unfold pick_select.
  destruct (candidates st peer_has); [done|]. destruct (pick_choice _ _ _ _); [|done]. by destruct (try_reserve_piece _ _ _).
Qed.

(** Which piece is the one to ask a peer for.  In a sequential download the first of the
    first and last pieces of the files and of the pieces preferred that is free, and else
    the free piece of least index; in the others a free piece of the highest priority,
    and, once enough pieces are verified, among these the first that is preferred, and
    else one that the fewest peers have. *)
Definition best (st : DownloadState) (peer_has : Bitfield) (prefer : list u32) (i : u32) : Prop :=
  eligible st peer_has i /\
  if dl_sequential st then
    (exists before after, dl_first_last st ++ prefer = before ++ i :: after /\ forall j, j ∈ before -> ~ eligible st peer_has j) \/
    (forall j, j ∈ dl_first_last st ++ prefer -> ~ eligible st peer_has j) /\ forall j, eligible st peer_has j -> i <= j
  else
    (forall j, eligible st peer_has j -> prio_rank (piece_prio st j) <= prio_rank (piece_prio st i)) /\
    let equal j := eligible st peer_has j /\ piece_prio st j = piece_prio st i in
    (dl_bootstrap_until st <= dl_verified st ->
     (exists before after, prefer = before ++ i :: after /\ forall j, j ∈ before -> ~ equal j) \/
     (forall j, j ∈ prefer -> ~ equal j) /\ forall j, equal j -> av_count (dl_availability st) i <= av_count (dl_availability st) j).

Lemma filter_prefix (P : u32 -> Prop) `{!forall x, Decision (P x)} l i rest :
  filter P l = i :: rest -> exists before after, l = before ++ i :: after /\ forall j, j ∈ before -> ~ P j.
Proof.
  induction l as [|x l IH]; [done|]. rewrite filter_cons. case_decide as Hx.
  - intros [= -> _]. exists [], l. split; [done|]. by intros j ?%not_elem_of_nil.
  - intros (before & after & -> & Hb)%IH. exists (x :: before), after. split; [done|]. intros j [->|Hj]%elem_of_cons; [done|by apply Hb].
Qed.

Lemma first_preferred_first cands prefer i :
  first_preferred cands prefer = Some i -> exists before after, prefer = before ++ i :: after /\ forall j, j ∈ before -> j ∉ cands.
Proof. unfold first_preferred. destruct (filter _ _) as [|x l] eqn:E; [done|]. intros [= <-]. by eapply filter_prefix. Qed.

Lemma first_preferred_filter cands l prefer :
  first_preferred cands (filter (fun i => i ∈ cands) l ++ prefer) = first_preferred cands (l ++ prefer).
Proof.
  unfold first_preferred. rewrite !filter_app. do 2 f_equal. induction l as [|x l IH]; [done|].
  rewrite (filter_cons _ x l). case_decide as Hx; [|done]. by rewrite filter_cons, decide_True, IH.
Qed.

Lemma select_sequential_best cands l prefer :
  cands <> [] ->
  exists i, select_sequential cands (filter (fun i => i ∈ cands) l ++ prefer) = Some i /\ i ∈ cands /\
    ((exists before after, l ++ prefer = before ++ i :: after /\ forall j, j ∈ before -> j ∉ cands) \/
     (forall j, j ∈ l ++ prefer -> j ∉ cands) /\ forall j, j ∈ cands -> i <= j).
Proof.
  intros Hne. destruct (select_sequential_spec cands (filter (fun i => i ∈ cands) l ++ prefer) Hne) as (i & -> & Hi & H).
  exists i. split; [done|]. split; [done|]. rewrite first_preferred_filter in H. destruct H as [H|[H1 H2]].
  - left. by apply first_preferred_first.
  - right. split; [|done]. intros j Hj. by eapply first_preferred_None.
Qed.

Lemma pick_select_spec choose `{!SliceRandom choose} st peer_has prefer :
  wf_download st ->
  match pick_select choose st peer_has prefer with
  | Some i => best st peer_has prefer i
  | None => forall i, ~ eligible st peer_has i
  end.
Proof.
  intros Hst. unfold pick_select, best. destruct (candidates st peer_has) as [|c cs] eqn:Ec.
  { intros i Hi. apply elem_candidates in Hi. rewrite Ec in Hi. by apply not_elem_of_nil in Hi. }
  assert (He : forall i, i ∈ c :: cs <-> eligible st peer_has i) by (intros i; rewrite <- Ec; apply elem_candidates).
  unfold pick_choice. destruct (dl_sequential st).
  - destruct (select_sequential_best (c :: cs) (dl_first_last st) prefer) as (i & -> & Hi & H); [done|]. split; [by apply He|].
    destruct H as [(before & after & E & H)|[H1 H2]].
    + left. exists before, after. split; [done|]. intros j Hj. rewrite <- He. by apply H.
    + right. split; intros j; rewrite <- He; [apply H1|apply H2].
  - destruct (top_band_spec st c cs) as [(b & Hb & Eb) Hmax]. set (band := filter _ _).
    assert (Hband : forall j, j ∈ band <-> piece_prio st j = top_band st (c :: cs) /\ j ∈ c :: cs) by (intros j; unfold band; by rewrite list_elem_of_filter).
    destruct (select_piece_rarest choose band prefer (dl_availability st) (dl_verified st) (dl_bootstrap_until st)) as (i & -> & Hi & H).
    { apply Hst. }
    { intros E. apply (not_elem_of_nil b). rewrite <- E. by apply Hband. }
    apply Hband in Hi as [Ei Hi]. split; [by apply He|]. split; [intros j Hj; rewrite Ei; by apply Hmax, He|].
    assert (Hb' : forall j, j ∈ band <-> eligible st peer_has j /\ piece_prio st j = piece_prio st i) by (intros j; rewrite Hband, He, Ei; tauto).
    intros Hboot. destruct (H Hboot) as [Hf|[H1 H2]].
    + left. destruct (first_preferred_first _ _ _ Hf) as (before & after & E & Hno). exists before, after. split; [done|].
      intros j Hj. rewrite <- Hb'. by apply Hno.
    + right. split; intros j; rewrite <- Hb'; [apply H1|apply H2].
Qed.

(** The piece is missing, wanted and reserved by nobody. *)
Definition free_piece (st : DownloadState) (i : u32) : Prop :=
  wanted st i = true /\ exists p, get_piece st i = Some p /\ downloaded p = false /\ reserved p = None.

Lemma try_reserve_free st i peer :
  match try_reserve_piece st i peer with
  | Some st' => free_piece st i /\ st' = update_piece i (set_reserved (Some peer)) st
  | None => ~ free_piece st i
  end.
Proof.
  unfold try_reserve_piece, free_piece. destruct (get_piece st i) as [p|]; [|by intros (_ & p & ? & _)].
  destruct (wanted st i); cbn [negb orb]; [|by intros [? _]].
  destruct (downloaded p) eqn:Ed; [by intros (_ & q & [= <-] & ? & _); congruence|].
  destruct (reserved p) eqn:Er; [intros (_ & q & [= <-] & _ & ?); congruence|]. split; [|done]. split; [done|]. by exists p.
Qed.

(** The rounds among the steps of other tasks, from a state on. *)
Inductive interleaved : DownloadState -> list Round -> Prop :=
| il_nil st : interleaved st []
| il_round st choose seen found rounds :
    SliceRandom choose -> rtc dl_step st seen -> rtc dl_step seen found -> interleaved found rounds ->
    interleaved st (mkRound choose seen found :: rounds).


(** Another peer reserves piece 0 between the choice of the first round and its
    reservation; the second round takes piece 1. *)
Definition example_taken : DownloadState := update_piece 0 (set_reserved (Some (V4 1 1))) example_download.


(** ** Assembling a piece *)

(** The spans follow each other from [a] to [b]. *)
Fixpoint tiles (a : Z) (spans : list (Z * Z)) (b : Z) : Prop :=
  match spans with
  | [] => a = b
  | (s, n) :: rest => s = a /\ 0 <= n /\ tiles (a + n) rest b
  end.

Lemma tiles_bounds a spans b :
  tiles a spans b -> a <= b /\ forall s n, (s, n) ∈ spans -> a <= s /\ 0 <= n /\ s + n <= b.
Proof.
  revert a. induction spans as [|[s n] spans IH]; intros a; cbn [tiles].
  { intros ->. split; [lia|]. by intros s n ?%not_elem_of_nil. }
  intros (-> & Hn & H). destruct (IH _ H) as [Hab Hin]. split; [lia|].
  intros s' n' [[= -> ->]|Hs]%elem_of_cons; [lia|]. specialize (Hin _ _ Hs). lia.
Qed.

Lemma tiles_disjoint a spans b s n s' n' :
  tiles a spans b -> (s, n) ∈ spans -> (s', n') ∈ spans -> s < s' -> s + n <= s'.
Proof.
  revert a. induction spans as [|[t m] spans IH]; intros a; cbn [tiles].
  { by intros _ ?%not_elem_of_nil. }
  intros (-> & Hm & H) Hs Hs' Hlt. destruct (tiles_bounds _ _ _ H) as [_ Hb].
  apply elem_of_cons in Hs as [[= -> ->]|Hs], Hs' as [[= -> ->]|Hs'].
  - lia.
  - specialize (Hb _ _ Hs'). lia.
  - specialize (Hb _ _ Hs). lia.
  - by eapply IH.
Qed.

Lemma tiles_cover a spans b k :
  tiles a spans b -> a <= k < b -> exists s n, (s, n) ∈ spans /\ s <= k < s + n.
Proof.
  revert a. induction spans as [|[s n] spans IH]; intros a; cbn [tiles]; [lia|].
  intros (-> & Hn & H) Hk. destruct (decide (k < a + n)).
  - exists a, n. split; [left|lia].
  - destruct (IH _ H) as (s & m & Hs & Hr); [lia|]. exists s, m. split; [by right|done].
Qed.

Lemma cover_loop_le spans cov r :
  Forall (fun sn => 0 <= snd sn) spans -> cov <= U32_MAX ->
  cover_loop spans cov = Some r -> cov <= r.
Proof.
  intros H. revert cov. induction H as [|[s n] spans Hn _ IH]; intros cov Hc; cbn [cover_loop].
  { intros [= <-]. lia. }
  destruct (negb _); [done|]. intros Hr. apply IH in Hr; [|ranges]. simpl in Hn. ranges.
Qed.

Lemma cover_loop_tiles spans cov r :
  Forall (fun sn => 0 <= snd sn) spans -> cov <= U32_MAX -> r < U32_MAX ->
  cover_loop spans cov = Some r -> tiles cov spans r.
Proof.
  intros H. revert cov. induction H as [|[s n] spans Hn Hf IH]; intros cov Hc Hr; cbn [cover_loop tiles].
  { by intros [= <-]. }
  destruct (Z.eqb_spec s cov) as [->|]; [|done]. cbn [negb]. intros Hl. simpl in Hn.
  assert (Hle : sat_add U32_MAX cov n <= r) by (by apply (cover_loop_le spans); [|ranges|]).
  split; [done|]. split; [done|].
  replace (cov + n) with (sat_add U32_MAX cov n) by ranges. apply IH; [ranges|done|done].
Qed.

Lemma tiles_cover_loop spans cov r :
  0 <= cov -> r <= U32_MAX -> tiles cov spans r -> cover_loop spans cov = Some r.
Proof.
  revert cov. induction spans as [|[s n] spans IH]; intros cov Hc Hr; cbn [cover_loop tiles].
  { by intros ->. }
  intros (-> & Hn & H). rewrite Z.eqb_refl. cbn [negb].
  destruct (tiles_bounds _ _ _ H) as [Hb _].
  replace (sat_add U32_MAX cov n) with (cov + n) by ranges. apply IH; [lia|done|done].
Qed.

#[export] Instance span_le_total : Total span_le.
Proof. intros [a b] [c d]. unfold span_le. simpl. lia. Qed.
#[export] Instance span_le_trans : Transitive span_le.
Proof. intros [a b] [c d] [e f]. unfold span_le. simpl. lia. Qed.
#[export] Instance span_le_antisymm : AntiSymm eq span_le.
Proof. intros [a b] [c d]. unfold span_le. simpl. intros. f_equal; lia. Qed.

Definition chunk_span (c : Chunk) : Z * Z := (ch_start c, ch_length c).

(** *** Placing chunks *)

Definition chunk_stop (c : Chunk) : nat := (Z.to_nat (ch_start c) + length (ch_buf c))%nat.

Lemma length_place_chunk buf c : length (place_chunk buf c) = length buf.
Proof.
  unfold place_chunk. destruct (Nat.leb_spec (Z.to_nat (ch_start c) + length (ch_buf c)) (length buf)); [|done].
  apply length_splice; lia.
Qed.

Lemma place_chunk_disjoint buf c a b :
  (chunk_stop c <= a \/ b <= Z.to_nat (ch_start c))%nat ->
  seg a b (place_chunk buf c) = seg a b buf.
Proof.
  unfold place_chunk, chunk_stop. intros H.
  destruct (Nat.leb_spec (Z.to_nat (ch_start c) + length (ch_buf c)) (length buf)); [|done].
  apply seg_splice_disjoint; lia.
Qed.

Lemma place_chunks_disjoint cs buf a b :
  (forall c, c ∈ cs -> (chunk_stop c <= a \/ b <= Z.to_nat (ch_start c))%nat) ->
  seg a b (fold_left place_chunk cs buf) = seg a b buf.
Proof.
  revert buf. induction cs as [|c cs IH]; intros buf H; [done|]. cbn [fold_left].
  rewrite IH; [apply place_chunk_disjoint, H; left|]. intros c' Hc'. apply H. by right.
Qed.

Lemma length_place_chunks cs buf : length (fold_left place_chunk cs buf) = length buf.
Proof.
  revert buf. induction cs as [|c cs IH]; intros buf; [done|]. cbn [fold_left].
  by rewrite IH, length_place_chunk.
Qed.

(** Chunks that fit, start apart and do not overlap all end up in the buffer. *)
Lemma place_chunks_at cs buf c :
  NoDup (map ch_start cs) -> Forall (fun c => 0 <= ch_start c) cs ->
  (forall c, c ∈ cs -> (chunk_stop c <= length buf)%nat) ->
  (forall c c', c ∈ cs -> c' ∈ cs -> ch_start c < ch_start c' ->
     (chunk_stop c <= Z.to_nat (ch_start c'))%nat) ->
  c ∈ cs -> seg (Z.to_nat (ch_start c)) (chunk_stop c) (fold_left place_chunk cs buf) = ch_buf c.
Proof.
  revert buf. induction cs as [|x cs IH]; intros buf Hnd H0 Hfit Hdis Hc; [by apply not_elem_of_nil in Hc|].
  cbn [map fold_left] in *. apply NoDup_cons in Hnd as [Hx Hnd]. apply Forall_cons in H0 as [Hx0 H0].
  apply elem_of_cons in Hc as [->|Hc].
  - rewrite place_chunks_disjoint.
    + assert (Hf := Hfit x ltac:(left)). unfold place_chunk, chunk_stop in *.
      rewrite (proj2 (Nat.leb_le _ _)) by lia. apply seg_splice_same; lia.
    + intros c' Hc'. rewrite Forall_forall in H0. specialize (H0 c' Hc').
      assert (ch_start c' <> ch_start x) by (intros E; apply Hx; rewrite <- E; by apply list_elem_of_fmap_2).
      destruct (Z.lt_total (ch_start c') (ch_start x)) as [Hlt|[?|Hlt]]; [left|done|right].
      * by apply Hdis; [right|left|].
      * by apply Hdis; [left|right|].
  - apply IH; try done.
    + intros c' Hc'. rewrite length_place_chunk. apply Hfit. by right.
    + intros c1 c2 H1 H2. by apply Hdis; right.
Qed.

(** C4: when [piece_chunks_cover] says a piece is complete, the assembled buffer
    is exact: it has the piece's length, every received chunk is at its own
    position in it, unspoilt by the others, in whatever order the chunks
    arrived, and every byte of it comes from a chunk. *)
Theorem assembled_piece_exact i p :
  piece_ok i p -> pw_length (piece_work p) < U32_MAX ->
  Forall (fun c => Z.of_nat (length (ch_buf c)) <= U32_MAX) (chuncks p) ->
  piece_chunks_cover p = true ->
  length (chunk_to_buf p) = Z.to_nat (pw_length (piece_work p)) /\
  (forall c, c ∈ chuncks p ->
     seg (Z.to_nat (ch_start c)) (chunk_stop c) (chunk_to_buf p) = ch_buf c) /\
  (forall k, (k < length (chunk_to_buf p))%nat ->
     exists c, c ∈ chuncks p /\ (Z.to_nat (ch_start c) <= k < chunk_stop c)%nat).
Proof.
  intros [_ Hlen Hnd Hok] Hmax Hsz Hcov. unfold piece_chunks_cover in Hcov.
  change (map _ (chuncks p)) with (map chunk_span (chuncks p)) in Hcov.
  destruct (cover_loop _ 0) as [cov|] eqn:Ec; [|done]. apply Z.eqb_eq in Hcov as ->.
  assert (Hperm : forall sn, sn ∈ merge_sort span_le (map chunk_span (chuncks p)) <->
    exists c, c ∈ chuncks p /\ sn = chunk_span c).
  { intros sn. rewrite merge_sort_Permutation, list_elem_of_fmap. naive_solver. }
  rewrite Forall_forall in Hok, Hsz.
  assert (Hch : forall c, c ∈ chuncks p -> is_u32 (ch_start c) /\ ch_length c = Z.of_nat (length (ch_buf c))).
  { intros c Hc. destruct (Hok c Hc) as [? ->]. specialize (Hsz c Hc). rewrite wrap32_small by ranges. done. }
  apply cover_loop_tiles in Ec; [|apply Forall_forall; intros sn (c & Hc & ->)%Hperm;
    destruct (Hch c Hc) as [_ E]; simpl; lia|ranges|done].
  destruct (tiles_bounds _ _ _ Ec) as [_ Hb].
  assert (Hl : length (chunk_to_buf p) = Z.to_nat (pw_length (piece_work p))).
  { unfold chunk_to_buf. by rewrite length_place_chunks, length_replicate. }
  split; [done|]. split.
  - intros c Hc. apply place_chunks_at; try done.
    + apply Forall_forall. intros c' Hc'. destruct (Hch c' Hc'). ranges.
    + intros c' Hc'. destruct (Hch c' Hc') as [Hs Hn]. unfold chunk_stop. rewrite length_replicate.
      destruct (Hb (ch_start c') (ch_length c')) as (? & ? & ?); [apply Hperm; by exists c'|]. ranges.
    + intros c1 c2 H1 H2 Hlt. destruct (Hch c1 H1) as [Hs1 Hn1], (Hch c2 H2) as [Hs2 _].
      unfold chunk_stop. pose proof (tiles_disjoint _ _ _ (ch_start c1) (ch_length c1) (ch_start c2)
        (ch_length c2) Ec) as Hd.
      specialize (Hd ltac:(apply Hperm; by exists c1) ltac:(apply Hperm; by exists c2) Hlt). ranges.
  - intros k Hk. destruct (tiles_cover _ _ _ (Z.of_nat k) Ec) as (s & n & Hs & Hr); [lia|].
    apply Hperm in Hs as (c & Hc & [= -> ->]). exists c. split; [done|].
    destruct (Hch c Hc) as [Hs' Hn]. unfold chunk_stop. ranges.
Qed.

Lemma assembled_piece_exact_witness :
  let p := mkPiece (mkPieceWork 0 5 [])
             [mkChunk 0 2 3 [3; 4; 5] example_peer; mkChunk 0 0 2 [1; 2] example_peer] false None false in
  length (chunk_to_buf p) = 5%nat /\
  (forall c, c ∈ chuncks p ->
     seg (Z.to_nat (ch_start c)) (chunk_stop c) (chunk_to_buf p) = ch_buf c) /\
  (forall k, (k < length (chunk_to_buf p))%nat ->
     exists c, c ∈ chuncks p /\ (Z.to_nat (ch_start c) <= k < chunk_stop c)%nat).
Proof.
  apply (assembled_piece_exact 0).
  - split; simpl; [done|ranges| |repeat constructor; vm_compute; congruence].
    apply NoDup_cons. split; [|apply NoDup_singleton]. by intros ?%list_elem_of_singleton.
  - vm_compute. reflexivity.
  - repeat constructor; vm_compute; congruence.
  - vm_compute. reflexivity.
Defined.

(** ** The blocks of a piece *)

Definition block_span (r : BlockRequest) : Z * Z := (br_begin r, br_length r).

Lemma calculate_block_size_spec len offset :
  is_u32 len -> 0 <= offset < len ->
  calculate_block_size len offset = Z.min BLOCK_SIZE (len - offset).
Proof.
  intros Hl Ho. unfold calculate_block_size. rewrite wrap32_small by ranges. case_cmp; lia.
Qed.

(** With enough fuel the blocks tile the rest of the piece. *)
Lemma blocks_from_tiles fuel index len offset :
  is_u32 len -> 0 <= offset <= len -> len - offset <= Z.of_nat fuel * BLOCK_SIZE ->
  tiles offset (map block_span (blocks_from fuel index len offset)) len /\
  Forall (fun r => br_index r = index /\ offset <= br_begin r /\ 0 < br_length r <= BLOCK_SIZE)
    (blocks_from fuel index len offset).
Proof.
  intros Hl. revert offset. induction fuel as [|fuel IH]; intros offset Ho Hf; cbn [blocks_from].
  { split; [simpl; unfold BLOCK_SIZE in *; lia|constructor]. }
  destruct (Z.ltb_spec offset len) as [Hlt|Hge]; [|split; [simpl; lia|constructor]].
  rewrite calculate_block_size_spec by (done || lia). unfold BLOCK_SIZE in *.
  rewrite wrap32_small by ranges.
  destruct (IH (offset + Z.min 16384 (len - offset))) as [Ht Hall]; [lia|lia|].
  split; [cbn [map tiles block_span br_begin br_length]; split_and!; [done|lia|done]|].
  constructor; [simpl; lia|]. eapply Forall_impl; [done|]. cbn beta. lia.
Qed.

Lemma blocks_fuel len : 0 <= len -> len <= Z.of_nat (S (Z.to_nat (len / BLOCK_SIZE))) * BLOCK_SIZE.
Proof.
  intros. unfold BLOCK_SIZE. pose proof (Z.div_pos len 16384). pose proof (Z.mod_pos_bound len 16384).
  pose proof (Z.div_mod len 16384). lia.
Qed.

Lemma piece_blocks_spec w :
  is_u32 (pw_length w) ->
  tiles 0 (map block_span (piece_blocks w)) (pw_length w) /\
  Forall (fun r => br_index r = pw_index w /\ 0 <= br_begin r /\ 0 < br_length r <= BLOCK_SIZE)
    (piece_blocks w).
Proof.
  intros Hl. apply blocks_from_tiles; [done|ranges|]. rewrite Z.sub_0_r. apply blocks_fuel. ranges.
Qed.

Lemma tiles_sorted a spans b :
  tiles a spans b -> Forall (fun sn => 0 < snd sn) spans -> StronglySorted span_le spans.
Proof.
  revert a. induction spans as [|[s n] spans IH]; intros a; cbn [tiles]; [constructor|].
  intros (-> & Hn & H) [Hp Hf]%Forall_cons. simpl in Hp. constructor; [by eapply IH|].
  destruct (tiles_bounds _ _ _ H) as [_ Hb]. apply Forall_forall. intros [s' n'] Hs.
  specialize (Hb _ _ Hs). left. simpl. lia.
Qed.

(** Requesting the blocks of a piece and receiving each of them once
    completes it: the blocks have at most 16 KiB and tile the piece without gaps
    or overlaps, and chunks with exactly these spans, in any order, are
    recognised as complete by [piece_chunks_cover]. *)
Theorem blocks_complete_piece p :
  is_u32 (pw_length (piece_work p)) ->
  let blocks := piece_blocks (piece_work p) in
  tiles 0 (map block_span blocks) (pw_length (piece_work p)) /\
  Forall (fun r => br_index r = pw_index (piece_work p) /\ 0 < br_length r <= BLOCK_SIZE) blocks /\
  (map chunk_span (chuncks p) ≡ₚ map block_span blocks -> piece_chunks_cover p = true).
Proof.
  intros Hl. cbn zeta. destruct (piece_blocks_spec _ Hl) as [Ht Hall]. split; [done|]. split.
  { eapply Forall_impl; [done|]. cbn beta. tauto. }
  intros Hperm. unfold piece_chunks_cover. change (map _ (chuncks p)) with (map chunk_span (chuncks p)).
  rewrite (StronglySorted_unique span_le (merge_sort span_le _) (map block_span (piece_blocks (piece_work p)))).
  - rewrite (tiles_cover_loop _ _ (pw_length (piece_work p))); [lia|lia|ranges|done].
  - apply StronglySorted_merge_sort; apply _.
  - eapply tiles_sorted; [done|]. apply Forall_fmap. eapply Forall_impl; [done|]. simpl. tauto.
  - by rewrite merge_sort_Permutation.
Qed.

(** ** Endgame *)

(** A request the endgame may send to [peer]: a missing block of a wanted,
    reserved piece the peer has, which the assignment table still accepts. *)
Definition endgame_request (st : DownloadState) (now : Instant) (peer : PeerAddr)
    (peer_has : Bitfield) (req : BlockRequest) : Prop :=
  fst (assign_block st now req peer) = true /\
  exists i p, dl_pieces st !! i = Some p /\ downloaded p = false /\
    wanted st (pw_index (piece_work p)) = true /\ is_Some (reserved p) /\
    has_piece peer_has (Z.to_nat (pw_index (piece_work p))) = true /\
    req ∈ piece_blocks (piece_work p) /\ br_begin req ∉ map ch_start (chuncks p).

Lemma endgame_open_assigns st now peer req :
  endgame_open st now peer req = true -> fst (assign_block st now req peer) = true.
Proof.
  unfold endgame_open, assign_block. destruct (_ !! _) as [e|]; [|done].
  case_bool_decide; [done|]. destruct (_ <=? _)%nat; [done|]. done.
Qed.

Lemma endgame_piece_spec st now peer limit received blocks found :
  (length found <= limit)%nat ->
  let out := endgame_piece st now peer limit received blocks found in
  (length out <= limit)%nat /\
  forall req, req ∈ out -> (req ∈ found) \/
    (req ∈ blocks /\ (br_begin req ∉ received) /\ endgame_open st now peer req = true).
Proof.
  revert found. induction blocks as [|r blocks IH]; intros found Hl; cbn [endgame_piece]; [auto|].
  destruct (Nat.leb_spec limit (length found)) as [Hf|Hf]; [auto|].
  destruct (negb (bool_decide (br_begin r ∈ received)) && endgame_open st now peer r) eqn:E.
  - apply andb_true_iff in E as [E1 E2]. apply negb_true_iff, bool_decide_eq_false in E1.
    destruct (IH (found ++ [r])) as [Hlen Hin]; [rewrite length_app; simpl; lia|]. split; [done|].
    intros req Hreq. apply Hin in Hreq as [[?|Hr%list_elem_of_singleton]%elem_of_app|(? & ? & ?)].
    + by left.
    + subst req. right. split; [left|done].
    + right. split; [by right|done].
  - destruct (IH found Hl) as [Hlen Hin]. split; [done|].
    intros req Hreq. apply Hin in Hreq as [?|(? & ? & ?)]; [by left|right]. split; [by right|done].
Qed.

Lemma endgame_loop_spec st now peer peer_has limit pieces found :
  (forall p, p ∈ pieces -> p ∈ dl_pieces st) -> (length found <= limit)%nat ->
  Forall (endgame_request st now peer peer_has) found ->
  let out := endgame_loop st now peer peer_has limit pieces found in
  (length out <= limit)%nat /\ Forall (endgame_request st now peer peer_has) out.
Proof.
  revert found. induction pieces as [|p pieces IH]; intros found Hsub Hl Hf; cbn [endgame_loop]; [done|].
  destruct (limit <=? length found)%nat; [done|].
  assert (Hsub' : forall q, q ∈ pieces -> q ∈ dl_pieces st) by (intros; apply Hsub; by right).
  destruct (downloaded p || _ || _ || _) eqn:E; [by apply IH|].
  rewrite !orb_false_iff, !negb_false_iff, bool_decide_eq_true in E. destruct E as [[[Hd Hw] Hr] Hh].
  destruct (endgame_piece_spec st now peer limit (map ch_start (chuncks p))
    (piece_blocks (piece_work p)) found Hl) as [Hlen Hin].
  apply IH; [done|done|]. apply Forall_forall. intros req Hreq.
  apply Hin in Hreq as [Hreq|(Hb & Hn & Ho)]; [by rewrite Forall_forall in Hf; apply Hf|].
  assert (Hp : p ∈ dl_pieces st) by (apply Hsub; left).
  apply list_elem_of_lookup in Hp as [i Hi].
  split; [by apply endgame_open_assigns|]. exists i, p. done.
Qed.

(** The endgame never asks for too much: at most [limit] requests, each for
    a block that is still missing from a wanted piece the peer has and someone
    reserved, and each accepted by the assignment table, so no block is ever
    requested from a third peer or twice from one; outside the endgame there are
    none. *)
Theorem endgame_blocks_sound st now peer peer_has limit :
  let out := endgame_blocks st now peer peer_has limit in
  (length out <= limit)%nat /\
  Forall (endgame_request st now peer peer_has) out /\
  (in_endgame st = false -> out = []).
Proof.
  cbn zeta. unfold endgame_blocks. destruct ((limit =? 0)%nat || negb (in_endgame st)) eqn:E.
  { simpl. split; [lia|]. split; [constructor|done]. }
  apply orb_false_iff in E as [_ E]. apply negb_false_iff in E. rewrite E.
  destruct (endgame_loop_spec st now peer peer_has limit (dl_pieces st) []) as [Hl Hf];
    [done|simpl; lia|constructor|]. done.
Qed.

(** ** Changing priorities *)

(** A priority change withdraws exactly the pieces that are no longer wanted:
    each such piece that is not downloaded loses its reservation, its chunks and
    every block assignment, and a cancel is returned for each block requested
    from each peer and for each block of the piece its reserving peer was asked
    for; wanted and downloaded pieces and their assignments stay as they were. *)
Theorem priorities_withdraw st prios cancels st' :
  apply_file_priorities st prios = (cancels, st') ->
  forall i p, dl_pieces st !! i = Some p ->
  if wanted st' (Z.of_nat i) || downloaded p then
    dl_pieces st' !! i = Some p /\
    (forall req, br_index req = Z.of_nat i -> dl_assignments st' !! req = dl_assignments st !! req)
  else
    dl_pieces st' !! i = Some (mkPiece (piece_work p) [] false None false) /\
    (forall req, br_index req = Z.of_nat i -> dl_assignments st' !! req = None) /\
    (forall req e peer, dl_assignments st !! req = Some e -> br_index req = Z.of_nat i ->
       peer ∈ requesters e -> (peer, req) ∈ cancels) /\
    (forall peer req, reserved p = Some peer -> pw_index (piece_work p) = Z.of_nat i ->
       req ∈ piece_blocks (piece_work p) -> (peer, req) ∈ cancels).
Proof.
  unfold apply_file_priorities. set (st1 := set_selection _ _ _ _ st). unfold unwant_skipped.
  pose proof (unwant_loop_spec (wanted st1) 0 (dl_pieces st1) (dl_assignments st1) []) as H.
  destruct (unwant_loop _ _ _ _ _) as [[l' m'] cs']. destruct H as [H1 H2 H3 H4 H5 _].
  intros [= <- <-] i p Hp.
  assert (Hw : wanted (set_assignments m' (set_pieces l' st1)) (Z.of_nat i) = wanted st1 (Z.of_nat i)).
  { unfold wanted. cbn [set_assignments set_pieces dl_pieces]. by rewrite H1. }
  rewrite Hw. cbn [set_assignments set_pieces dl_pieces dl_assignments] in *.
  destruct (wanted st1 (Z.of_nat i) || downloaded p) eqn:E.
  - apply orb_true_iff in E. split; [by apply H2|]. intros req Hreq.
    destruct (dl_assignments st !! req) as [e|] eqn:Er.
    + destruct (H5 req e Er) as [?|(j & q & Hq & Hwq & Hdq & Hj)]; [done|].
      rewrite Hreq in Hj. apply Nat2Z.inj in Hj. cbn [Nat.add] in Hj, Hwq. subst j.
      change (dl_pieces st1) with (dl_pieces st) in Hq. rewrite Hp in Hq. injection Hq as ->.
      destruct E; congruence.
    + destruct (m' !! req) as [e|] eqn:Em; [|done].
      apply (lookup_weaken _ (dl_assignments st1)) in Em; [|done].
      change (dl_assignments st1) with (dl_assignments st) in Em. congruence.
  - apply orb_false_iff in E as [Ew Ed]. destruct (H3 i p Hp Ew Ed) as (G1 & G2 & G3 & G4).
    split_and!; [done| |by apply G3|].
    + intros req Hreq. destruct (m' !! req) as [e|] eqn:Em; [|done]. by apply G2 in Em.
    + intros peer req Hr Hi Hreq. apply G4; [done|]. unfold piece_blocks in Hreq. by rewrite Hi in Hreq.
Qed.

Definition example_busy : DownloadState :=
  snd (assign_block
         (update_piece 1 (set_reserved (Some example_peer))
            (snd (install_content example_download example_torrent false [Normal; Normal; Normal])))
         0 (mkBlockRequest 1 0 5) example_peer).

(** ** What we advertise and report *)

Lemma fold_our_bitfield (l : list (u32 * PieceWorkState)) bf i :
  has_piece
    (fold_left (fun bf (ip : u32 * PieceWorkState) =>
                  if downloaded (snd ip) then set_piece bf (Z.to_nat (fst ip)) else bf) l bf) i =
  (existsb (fun ip => downloaded (snd ip) && (Z.to_nat (fst ip) =? i)%nat && (i <? capacity bf)%nat) l
   || has_piece bf i)%bool.
Proof.
  revert bf. induction l as [|[j p] l IH]; intros bf; cbn [fold_left existsb fst snd]; [done|].
  rewrite IH. destruct (downloaded p); cbn [andb].
  - rewrite set_piece_capacity, has_set_piece.
    destruct (Nat.eqb_spec (Z.to_nat j) i) as [->|Hne], (Nat.ltb_spec i (capacity bf)); cbn [andb].
    + rewrite bool_decide_true by done. by rewrite !orb_true_r.
    + rewrite bool_decide_false by lia. done.
    + rewrite bool_decide_false by lia. done.
    + rewrite bool_decide_false by lia. done.
  - done.
Qed.

Lemma sum_lengths_cons (P : u32 * PieceWorkState -> bool) ip l :
  sum_lengths (filter (fun ip => P ip = true) (ip :: l)) =
  (if P ip then pw_length (piece_work (snd ip)) else 0) +
  sum_lengths (filter (fun ip => P ip = true) l).
Proof.
  destruct (P ip) eqn:E.
  - by rewrite filter_cons_True.
  - rewrite filter_cons_False; [lia|by rewrite E].
Qed.

Lemma sum_lengths_filter (P Q : u32 * PieceWorkState -> bool) l :
  sum_lengths (filter (fun ip => P ip = true) l) =
  sum_lengths (filter (fun ip => P ip && Q ip = true) l) +
  sum_lengths (filter (fun ip => P ip && negb (Q ip) = true) l).
Proof.
  induction l as [|ip l IH]; [done|].
  rewrite (sum_lengths_cons P), (sum_lengths_cons (fun ip => P ip && Q ip)),
    (sum_lengths_cons (fun ip => P ip && negb (Q ip))), IH.
  destruct (P ip), (Q ip); cbn [andb negb]; lia.
Qed.

(** What the client tells others is exact: the bitfield it advertises has
    precisely the downloaded pieces, and the reported byte counts agree (wanted
    = have + left), with nothing left exactly when every wanted piece of
    positive length is downloaded. *)
Theorem reported_state_exact st :
  wf_download st ->
  (forall i, has_piece (our_bitfield st) i = dl_has_piece st (Z.of_nat i)) /\
  wanted_total_bytes st = wanted_have_bytes st + left_bytes st /\
  (left_bytes st = 0 <->
   forall i p, dl_pieces st !! i = Some p -> wanted st (Z.of_nat i) = true ->
     0 < pw_length (piece_work p) -> downloaded p = true).
Proof.
  intros Hst. split; [|split].
  - intros i. unfold our_bitfield. rewrite fold_our_bitfield, has_with_piece_count, orb_false_r.
    pose proof (capacity_with_piece_count (length (dl_pieces st))) as Hcap.
    unfold dl_has_piece, get_piece. rewrite Nat2Z.id. apply eq_true_iff_eq. rewrite existsb_exists. split.
    + intros ([j p] & Hin & H). apply list_elem_of_In, elem_numbered in Hin as [Hj Hp]. simpl in H.
      apply andb_true_iff in H as [[Hd E]%andb_true_iff _]. apply Nat.eqb_eq in E as <-. by rewrite Hp.
    + destruct (dl_pieces st !! i) as [p|] eqn:Ep; [|done]. intros Hd. exists (Z.of_nat i, p).
      split; [apply list_elem_of_In, elem_numbered; rewrite Nat2Z.id; split; [lia|done]|].
      simpl. rewrite Hd, Nat2Z.id, Nat.eqb_refl. apply lookup_lt_Some in Ep.
      apply (proj2 (Nat.ltb_lt _ _)). lia.
  - apply (sum_lengths_filter (fun ip => wanted st (fst ip)) (fun ip => downloaded (snd ip))).
  - unfold left_bytes. set (l := filter _ (numbered (dl_pieces st))).
    assert (Hnn : Forall (fun ip => 0 <= pw_length (piece_work (snd ip))) l).
    { apply Forall_forall. intros [i p] Hin. apply list_elem_of_filter in Hin as [_ Hin].
      apply elem_numbered in Hin as [_ Hp]. apply (wd_pieces _ Hst) in Hp as [_ Hlen _ _]. simpl. ranges. }
    assert (Hsum : sum_lengths l = 0 <-> Forall (fun ip => pw_length (piece_work (snd ip)) = 0) l).
    { clear -Hnn. induction Hnn as [|ip l Hp Hf IH]; simpl; [done|].
      assert (0 <= sum_lengths l) by (clear -Hf; induction Hf as [|x l Hx _ IH]; cbn beta in *; unfold sum_lengths in *; simpl in *; lia).
      rewrite Forall_cons, <- IH. unfold sum_lengths in *. lia. }
    rewrite Hsum, Forall_forall. split.
    + intros H i p Hp Hw Hlen. destruct (downloaded p) eqn:Ed; [done|].
      specialize (H (Z.of_nat i, p)). simpl in H. rewrite H in Hlen; [lia|].
      apply list_elem_of_filter. simpl. rewrite Hw, Ed. split; [done|].
      apply elem_numbered. rewrite Nat2Z.id. split; [lia|done].
    + intros H [i p] Hin. apply list_elem_of_filter in Hin as [Hc Hin].
      apply elem_numbered in Hin as [Hi Hp]. simpl in Hc |- *.
      apply andb_true_iff in Hc as [Hw Hd]. specialize (H (Z.to_nat i) p Hp).
      rewrite Z2Nat.id in H by lia. destruct (decide (0 < pw_length (piece_work p))) as [Hlt|Hlt].
      * rewrite (H Hw Hlt) in Hd. done.
      * apply (wd_pieces _ Hst) in Hp as [_ Hlen _ _]. ranges.
Qed.
