(* ===== verification/PeerStates.v ===== *)
(** * Connected peers and bans (crates/bit_rev/src/peer_state.rs)

    [PeerStates]: the state kept per connected peer, the hash failures counted
    per address and the bans with their expiry.  The clock is the [now] argument.
    The sending half of a peer's writer channel is modelled by whether there is
    one; what is sent is the list of requests an operation returns. *)

From S2P Require Import Prelude Bitfield Message.

Definition BAN_TTL : Duration := secs (60 * 60).
Definition HASH_FAILURE_BAN_THRESHOLD : u32 := 3.

(** [message.rs] *)
Inductive WriterRequest :=
| WriteMessage (m : Message)
| Disconnect.

Record PeerLiveStats := mkStats {
  bytes_downloaded : u64;
  bytes_uploaded : u64;
  st_am_choking : bool;
  st_peer_interested : bool;
  st_am_interested : bool;
  st_peer_choking : bool;
  download_cancels : list BlockRequest }.

Record PeerState := mkPeerState {
  peer_interested : bool;
  ps_bitfield : Bitfield;
  am_choking : bool;
  am_interested : bool;
  peer_choking : bool;
  connected_at : Instant;
  last_unchoked : option Instant;
  is_optimistic : bool;
  fast_extension : bool;
  extension_protocol : bool;
  peer_allowed_fast : gset u32;
  our_allowed_fast : gset u32;
  suggested_pieces : list u32;
  ps_hash_failures : u32;
  snubbed : bool;
  encrypted : bool;
  utp : bool;
  outgoing_conn : bool;
  stats : PeerLiveStats;
  writer_tx : bool }.

Definition stats_default : PeerLiveStats := mkStats 0 0 true false false true [].

Definition live_unwired (now : Instant) : PeerState :=
  mkPeerState false (bf_new []) true false true now None false false false ∅ ∅ [] 0
    false false false false stats_default false.

(** Record updates: the fields the operations assign. *)
Definition set_stats (st : PeerLiveStats) (s : PeerState) : PeerState :=
  mkPeerState (peer_interested s) (ps_bitfield s) (am_choking s) (am_interested s)
    (peer_choking s) (connected_at s) (last_unchoked s) (is_optimistic s) (fast_extension s)
    (extension_protocol s) (peer_allowed_fast s) (our_allowed_fast s) (suggested_pieces s)
    (ps_hash_failures s) (snubbed s) (encrypted s) (utp s) (outgoing_conn s) st (writer_tx s).

Definition set_writer_tx (w : bool) (s : PeerState) : PeerState :=
  mkPeerState (peer_interested s) (ps_bitfield s) (am_choking s) (am_interested s)
    (peer_choking s) (connected_at s) (last_unchoked s) (is_optimistic s) (fast_extension s)
    (extension_protocol s) (peer_allowed_fast s) (our_allowed_fast s) (suggested_pieces s)
    (ps_hash_failures s) (snubbed s) (encrypted s) (utp s) (outgoing_conn s) (stats s) w.

(** The choke flags of a peer. *)
Definition set_flags (pi amc ami pc : bool) (lu : option Instant) (opt snub : bool)
    (s : PeerState) : PeerState :=
  mkPeerState pi (ps_bitfield s) amc ami pc (connected_at s) lu opt (fast_extension s)
    (extension_protocol s) (peer_allowed_fast s) (our_allowed_fast s) (suggested_pieces s)
    (ps_hash_failures s) snub (encrypted s) (utp s) (outgoing_conn s) (stats s) (writer_tx s).

Definition set_state_failures (n : u32) (s : PeerState) : PeerState :=
  mkPeerState (peer_interested s) (ps_bitfield s) (am_choking s) (am_interested s)
    (peer_choking s) (connected_at s) (last_unchoked s) (is_optimistic s) (fast_extension s)
    (extension_protocol s) (peer_allowed_fast s) (our_allowed_fast s) (suggested_pieces s)
    n (snubbed s) (encrypted s) (utp s) (outgoing_conn s) (stats s) (writer_tx s).

Definition live (now : Instant) : PeerState := set_writer_tx true (live_unwired now).

(** A flag is kept in the state and, for the tasks that share it, in the stats. *)
Definition set_peer_interested (v : bool) (s : PeerState) : PeerState :=
  let t := stats s in
  set_stats (mkStats (bytes_downloaded t) (bytes_uploaded t) (st_am_choking t) v
               (st_am_interested t) (st_peer_choking t) (download_cancels t))
    (set_flags v (am_choking s) (am_interested s) (peer_choking s) (last_unchoked s)
       (is_optimistic s) (snubbed s) s).

Definition set_am_interested (v : bool) (s : PeerState) : PeerState :=
  let t := stats s in
  set_stats (mkStats (bytes_downloaded t) (bytes_uploaded t) (st_am_choking t)
               (st_peer_interested t) v (st_peer_choking t) (download_cancels t))
    (set_flags (peer_interested s) (am_choking s) v (peer_choking s) (last_unchoked s)
       (is_optimistic s) (snubbed s) s).

Definition set_am_choking (v : bool) (s : PeerState) : PeerState :=
  let t := stats s in
  set_stats (mkStats (bytes_downloaded t) (bytes_uploaded t) v (st_peer_interested t)
               (st_am_interested t) (st_peer_choking t) (download_cancels t))
    (set_flags (peer_interested s) v (am_interested s) (peer_choking s) (last_unchoked s)
       (is_optimistic s) (snubbed s) s).

Definition set_peer_choking (v : bool) (s : PeerState) : PeerState :=
  let t := stats s in
  set_stats (mkStats (bytes_downloaded t) (bytes_uploaded t) (st_am_choking t)
               (st_peer_interested t) (st_am_interested t) v (download_cancels t))
    (set_flags (peer_interested s) (am_choking s) (am_interested s) v (last_unchoked s)
       (is_optimistic s) (snubbed s) s).

Definition set_snubbed (v : bool) (s : PeerState) : PeerState :=
  set_flags (peer_interested s) (am_choking s) (am_interested s) (peer_choking s)
    (last_unchoked s) (is_optimistic s) v s.

(** The [added.f] bits of the peer exchange. *)
Definition pex_flags (s : PeerState) (piece_count : nat) : u8 :=
  let flags := 0 in
  let flags := if encrypted s then Z.lor flags 1 else flags in
  let flags :=
    if (0 <? piece_count)%nat && forallb (has_piece (ps_bitfield s)) (seq 0 piece_count)
    then Z.lor flags 2 else flags in
  let flags := if utp s then Z.lor flags 4 else flags in
  if outgoing_conn s then Z.lor flags 16 else flags.

(** ** The peers of a torrent *)

Record PeerStates := mkPeerStates {
  states : gmap SocketAddr PeerState;
  hash_failures : gmap SocketAddr u32;
  banned : gmap SocketAddr Instant }.

Definition peer_states_new : PeerStates := mkPeerStates ∅ ∅ ∅.

Definition set_states (m : gmap SocketAddr PeerState) (ps : PeerStates) : PeerStates :=
  mkPeerStates m (hash_failures ps) (banned ps).

Definition purge_expired_bans (now : Instant) (ps : PeerStates) : PeerStates :=
  mkPeerStates (states ps) (hash_failures ps) (filter (fun e => now < e.2) (banned ps)).

Definition is_banned (now : Instant) (peer : SocketAddr) (ps : PeerStates) : bool * PeerStates :=
  let ps := purge_expired_bans now ps in
  (bool_decide (is_Some (banned ps !! peer)), ps).

Definition banned_count (now : Instant) (ps : PeerStates) : nat * PeerStates :=
  let ps := purge_expired_bans now ps in (size (banned ps), ps).

Definition add_if_not_seen (now : Instant) (peer : SocketAddr) (ps : PeerStates)
    : bool * PeerStates :=
  let '(b, ps) := is_banned now peer ps in
  if b then (false, ps)
  else match states ps !! peer with
       | Some _ => (false, ps)
       | None => (true, set_states (<[peer := live_unwired now]> (states ps)) ps)
       end.

Definition insert_live (now : Instant) (peer : SocketAddr) (ps : PeerStates)
    : bool * PeerStates :=
  let '(b, ps) := is_banned now peer ps in
  if b then (false, ps)
  else match states ps !! peer with
       | Some s =>
           if writer_tx s then (false, ps)
           else (true, set_states (<[peer := live now]> (states ps)) ps)
       | None => (true, set_states (<[peer := live now]> (states ps)) ps)
       end.

(** The requests sent to the writers come with the result. *)
Definition ban (now : Instant) (peer : SocketAddr) (ps : PeerStates)
    : list (SocketAddr * WriterRequest) * PeerStates :=
  let ps := mkPeerStates (states ps) (hash_failures ps) (<[peer := now + BAN_TTL]> (banned ps)) in
  match states ps !! peer with
  | Some s => (if writer_tx s then [(peer, Disconnect)] else [], ps)
  | None => ([], ps)
  end.

Definition get_hash_failures (peer : SocketAddr) (ps : PeerStates) : u32 :=
  default 0 (hash_failures ps !! peer).

Definition increment_failures (peer : SocketAddr) (ps : PeerStates) : u32 * PeerStates :=
  let count := sat_add U32_MAX (default 0 (hash_failures ps !! peer)) 1 in
  (count, mkPeerStates (alter (set_state_failures count) peer (states ps))
            (<[peer := count]> (hash_failures ps)) (banned ps)).

Definition record_hash_failure (now : Instant) (peer : SocketAddr) (sole_contributor : bool)
    (ps : PeerStates) : bool * list (SocketAddr * WriterRequest) * PeerStates :=
  let '(count, ps) := increment_failures peer ps in
  if sole_contributor then
    let '(sent, ps) := ban now peer ps in (true, sent, ps)
  else if HASH_FAILURE_BAN_THRESHOLD <=? count then
    let '(sent, ps) := ban now peer ps in (true, sent, ps)
  else (false, [], ps).

(** [states.remove] when a connection ends. *)
Definition remove_peer (peer : SocketAddr) (ps : PeerStates) : PeerStates :=
  set_states (delete peer (states ps)) ps.

(** ** Sequences of operations *)

Inductive ps_op :=
| OpAdd (now : Instant) (peer : SocketAddr)
| OpLive (now : Instant) (peer : SocketAddr)
| OpFail (now : Instant) (peer : SocketAddr) (sole_contributor : bool)
| OpPurge (now : Instant)
| OpUpdate (peer : SocketAddr) (f : PeerState -> PeerState)
| OpRemove (peer : SocketAddr).

Definition ps_exec (ps : PeerStates) (op : ps_op) : PeerStates :=
  match op with
  | OpAdd now peer => snd (add_if_not_seen now peer ps)
  | OpLive now peer => snd (insert_live now peer ps)
  | OpFail now peer sole => snd (record_hash_failure now peer sole ps)
  | OpPurge now => purge_expired_bans now ps
  | OpUpdate peer f => set_states (alter f peer (states ps)) ps
  | OpRemove peer => remove_peer peer ps
  end.

Definition ps_run (ops : list ps_op) (ps : PeerStates) : PeerStates := fold_left ps_exec ops ps.

(** The operation happens in the hour that starts at [t]. *)
Definition op_within (t : Instant) (op : ps_op) : Prop :=
  match op with
  | OpAdd now _ | OpLive now _ | OpFail now _ _ | OpPurge now => t <= now < t + BAN_TTL
  | OpUpdate _ _ | OpRemove _ => True
  end.

(** How many hash failures of [peer] the operations record. *)
Definition failure_of (peer : SocketAddr) (op : ps_op) : Z :=
  match op with OpFail _ p _ => if decide (p = peer) then 1 else 0 | _ => 0 end.

Definition failures_of (peer : SocketAddr) (ops : list ps_op) : Z :=
  foldr (fun op n => failure_of peer op + n) 0 ops.

Lemma add_banned now peer ps :
  banned (snd (add_if_not_seen now peer ps)) = banned (purge_expired_bans now ps) /\
  hash_failures (snd (add_if_not_seen now peer ps)) = hash_failures ps.
Proof. unfold add_if_not_seen. cbn. case_bool_decide; [done|]. by destruct (states ps !! peer). Qed.

Lemma live_banned now peer ps :
  banned (snd (insert_live now peer ps)) = banned (purge_expired_bans now ps) /\
  hash_failures (snd (insert_live now peer ps)) = hash_failures ps.
Proof.
  unfold insert_live. cbn. case_bool_decide; [done|].
  destruct (states ps !! peer) as [s|]; [|done]. by destruct (writer_tx s).
Qed.

Lemma ban_effect now peer ps :
  banned (snd (ban now peer ps)) = <[peer := now + BAN_TTL]> (banned ps) /\
  hash_failures (snd (ban now peer ps)) = hash_failures ps.
Proof. unfold ban. cbn. by destruct (states ps !! peer). Qed.

Lemma fail_effect now peer sole ps :
  let out := record_hash_failure now peer sole ps in
  hash_failures (snd out) =
    <[peer := sat_add U32_MAX (default 0 (hash_failures ps !! peer)) 1]> (hash_failures ps) /\
  banned (snd out) =
    if fst (fst out) then <[peer := now + BAN_TTL]> (banned ps) else banned ps.
Proof.
  unfold record_hash_failure, increment_failures. cbn zeta beta iota.
  set (ps1 := mkPeerStates _ _ _). pose proof (ban_effect now peer ps1) as [Hb Hh].
  destruct (ban now peer ps1) as [sent ps2]. cbn [fst snd] in *.
  destruct sole; cbn [fst snd]; [by rewrite Hh, Hb|]. case_cmp; cbn [fst snd]; [by rewrite Hh, Hb|done].
Qed.

(** [peer] is banned during the whole hour that starts at [t]. *)
Definition banned_from (t : Instant) (peer : SocketAddr) (ps : PeerStates) : Prop :=
  exists u, banned ps !! peer = Some u /\ t + BAN_TTL <= u.

Lemma purge_keeps t now peer ps :
  now < t + BAN_TTL -> banned_from t peer ps -> banned_from t peer (purge_expired_bans now ps).
Proof.
  intros Hn (u & Hu & Hle). exists u. split; [|done]. cbn.
  apply map_lookup_filter_Some. split; [done|]. cbn. lia.
Qed.

Lemma ps_exec_keeps_ban t peer ps op :
  op_within t op -> banned_from t peer ps -> banned_from t peer (ps_exec ps op).
Proof.
  intros Hop Hb. destruct op as [now p|now p|now p sole|now|p f|p]; cbn [op_within ps_exec] in *; [| | | |done|done].
  - apply (purge_keeps t now) in Hb; [|lia]. destruct Hb as (u & ? & ?). exists u.
    by rewrite (proj1 (add_banned now p ps)).
  - apply (purge_keeps t now) in Hb; [|lia]. destruct Hb as (u & ? & ?). exists u.
    by rewrite (proj1 (live_banned now p ps)).
  - destruct Hb as (u & Hu & Hle). unfold banned_from.
    rewrite (proj2 (fail_effect now p sole ps)). destruct (fst (fst _)); [|by exists u].
    destruct (decide (p = peer)) as [->|].
    + exists (now + BAN_TTL). rewrite lookup_insert_eq. split; [done|lia].
    + exists u. by rewrite lookup_insert_ne.
  - apply purge_keeps; [lia|done].
Qed.

Lemma ps_run_keeps_ban t peer ops ps :
  Forall (op_within t) ops -> banned_from t peer ps -> banned_from t peer (ps_run ops ps).
Proof.
  intros Hops. revert ps. induction Hops as [|op ops Hop _ IH]; intros ps Hb; cbn; [done|].
  apply IH. by apply ps_exec_keeps_ban.
Qed.

Lemma banned_now t now peer ps :
  banned_from t peer ps -> now < t + BAN_TTL -> fst (is_banned now peer ps) = true.
Proof.
  intros Hb Hn. apply (purge_keeps t now) in Hb as (u & Hu & _); [|done].
  apply bool_decide_eq_true. eauto.
Qed.

Lemma ps_exec_failures ps op peer :
  get_hash_failures peer ps <= U32_MAX ->
  get_hash_failures peer (ps_exec ps op) =
    Z.min U32_MAX (get_hash_failures peer ps + failure_of peer op).
Proof.
  intros Hle. destruct op as [now p|now p|now p sole|now|p f|p]; cbn [ps_exec failure_of];
    [unfold get_hash_failures in *; rewrite (proj2 (add_banned now p ps)); lia
    |unfold get_hash_failures in *; rewrite (proj2 (live_banned now p ps)); lia
    | |cbn; unfold get_hash_failures in *; cbn; lia..].
  unfold get_hash_failures in *. rewrite (proj1 (fail_effect now p sole ps)).
  case_decide as Hp.
  - subst p. rewrite lookup_insert_eq. cbn [from_option Datatypes.id]. done.
  - rewrite lookup_insert_ne by done. lia.
Qed.

Lemma failures_of_nonneg peer ops : 0 <= failures_of peer ops.
Proof.
  induction ops as [|op ops IH]; [done|].
  change (failures_of peer (op :: ops)) with (failure_of peer op + failures_of peer ops).
  unfold failure_of. destruct op; try lia. case_decide; lia.
Qed.

Lemma failures_count ops ps peer :
  get_hash_failures peer ps <= U32_MAX ->
  get_hash_failures peer (ps_run ops ps) =
    Z.min U32_MAX (get_hash_failures peer ps + failures_of peer ops).
Proof.
  revert ps. induction ops as [|op ops IH]; intros ps Hle; [cbn; lia|].
  change (ps_run (op :: ops) ps) with (ps_run ops (ps_exec ps op)).
  change (failures_of peer (op :: ops)) with (failure_of peer op + failures_of peer ops).
  rewrite IH, ps_exec_failures by (rewrite ?ps_exec_failures; lia).
  pose proof (failures_of_nonneg peer ops). lia.
Qed.

(** C28: a ban holds: when a hash failure bans a peer, then for an hour, whatever
    else happens in that time, the peer counts as banned, every attempt to add
    or connect it is refused, and no such attempt changes the connected peers;
    after the hour the ban is gone. *)
Theorem ban_enforced t peer sole ps sent ps1 ops now :
  record_hash_failure t peer sole ps = (true, sent, ps1) ->
  Forall (op_within t) ops -> t <= now < t + BAN_TTL ->
  let ps2 := ps_run ops ps1 in
  fst (is_banned now peer ps2) = true /\
  fst (add_if_not_seen now peer ps2) = false /\
  states (snd (add_if_not_seen now peer ps2)) = states ps2 /\
  fst (insert_live now peer ps2) = false /\
  states (snd (insert_live now peer ps2)) = states ps2 /\
  fst (is_banned (t + BAN_TTL) peer ps1) = false.
Proof.
  intros Hf Hops Hn ps2. pose proof (fail_effect t peer sole ps) as [_ Hb].
  rewrite Hf in Hb. cbn in Hb.
  assert (Hban : fst (is_banned now peer ps2) = true).
  { eapply banned_now; [|apply Hn]. apply ps_run_keeps_ban; [done|].
    exists (t + BAN_TTL). rewrite Hb, lookup_insert_eq. split; [done|lia]. }
  unfold add_if_not_seen, insert_live. destruct (is_banned now peer ps2) as [b ps3] eqn:E.
  cbn in Hban. subst b. injection E as _ <-. split_and!; try done.
  apply bool_decide_eq_false. cbn. rewrite Hb.
  intros [u [Hu Hlt]%map_lookup_filter_Some]. rewrite lookup_insert_eq in Hu.
  injection Hu as <-. cbn in Hlt. lia.
Qed.

(** A peer is banned for a corrupt piece exactly when it sent all of it or it
    is its third: the failures counted since the start decide, whatever else
    happened. *)
Lemma third_failure_bans ops now peer sole :
  fst (fst (record_hash_failure now peer sole (ps_run ops peer_states_new))) =
  (sole || (3 <=? failures_of peer ops + 1)).
Proof.
  pose proof (failures_count ops peer_states_new peer ltac:(done)) as Hc.
  pose proof (failures_of_nonneg peer ops). unfold get_hash_failures in Hc.
  unfold record_hash_failure, increment_failures. rewrite Hc. cbn zeta beta iota.
  change (default 0 (hash_failures peer_states_new !! peer)) with 0.
  destruct (ban now peer _) as [sent ps']. destruct sole; [done|]. cbn [orb].
  unfold HASH_FAILURE_BAN_THRESHOLD.
  destruct (Z.leb_spec 3 (failures_of peer ops + 1)); case_cmp; try done; exfalso; ranges.
Qed.

Lemma ban_enforced_witness :
  let p := V4 2130706433 6881 in
  let ps1 := snd (record_hash_failure 5 p true peer_states_new) in
  fst (insert_live 10 p (ps_run [OpLive 7 p; OpAdd 8 p; OpRemove p] ps1)) = false.
Proof.
  intros p ps1.
  destruct (ban_enforced 5 p true peer_states_new [] ps1 [OpLive 7 p; OpAdd 8 p; OpRemove p] 10)
    as (_ & _ & _ & H & _); [reflexivity| | |exact H].
  - repeat constructor; cbn; unfold BAN_TTL, secs; lia.
  - unfold BAN_TTL, secs. lia.
Defined.
