(* ===== verification/Choke.v ===== *)
(** * Choking (crates/bit_rev/src/choke.rs, session.rs [apply_choke])

    The choice of the peers to unchoke, the transitions between two choices, and
    the round of the choke loop that applies them to the peer states.  The
    random generator is an argument with its documented contract as a class. *)

From S2P Require Import Prelude Bitfield Message PeerStates.

Definition REGULAR_UNCHOKE_SLOTS : nat := 3.
Definition OPTIMISTIC_INTERVAL : Duration := secs 30.
Definition NEW_PEER_BIAS_WINDOW : Duration := secs 60.

Inductive ChokeAction := ActChoke | ActUnchoke.

Record ChokePeer := mkChokePeer {
  cp_addr : SocketAddr;
  cp_interested : bool;
  cp_unchoked : bool;
  cp_download_bytes : u64;
  cp_last_unchoked : option Instant;
  cp_connected_at : Instant;
  cp_optimistic : bool }.

(** [rng.gen_range(0..n)] with the generator's state fixed. *)
Class GenRange (gen : nat -> nat) : Prop :=
  gen_range_lt n : (0 < n)%nat -> (gen n < n)%nat.

#[export] Instance gen_first : GenRange (fun _ => 0%nat).
Proof. intros n Hn. exact Hn. Qed.

(** ** The choice *)

(** The order while seeding: the longest not unchoked first. *)
Definition seed_cmp (a b : ChokePeer) : comparison :=
  match cp_last_unchoked a, cp_last_unchoked b with
  | None, None => addr_cmp (cp_addr a) (cp_addr b)
  | None, Some _ => Lt
  | Some _, None => Gt
  | Some ta, Some tb =>
      match ta ?= tb with Eq => addr_cmp (cp_addr a) (cp_addr b) | c => c end
  end.

(** The order while leeching: the most downloaded from first. *)
Definition leech_cmp (a b : ChokePeer) : comparison :=
  match cp_download_bytes b ?= cp_download_bytes a with
  | Eq => addr_cmp (cp_addr a) (cp_addr b)
  | c => c
  end.

Definition rank_le (seeding : bool) (a b : ChokePeer) : Prop :=
  (if seeding then seed_cmp a b else leech_cmp a b) <> Gt.

#[export] Instance rank_le_dec seeding a b : Decision (rank_le seeding a b).
Proof. unfold rank_le. apply _. Defined.

Definition ticket_weight (now : Instant) (p : ChokePeer) : nat :=
  if since now (cp_connected_at p) <? NEW_PEER_BIAS_WINDOW then 3 else 1.

Definition tickets (now : Instant) (candidates : list ChokePeer) : list nat :=
  mjoin (imap (fun i p => replicate (ticket_weight now p) i) candidates).

(** The outer [None] is the panic of an index outside its vector. *)
Definition pick_optimistic_peer (gen : nat -> nat) (candidates : list ChokePeer) (now : Instant)
    : option (option SocketAddr) :=
  match candidates with
  | [] => Some None
  | _ =>
      let ts := tickets now candidates in
      chosen ← ts !! gen (length ts);
      p ← candidates !! chosen;
      Some (Some (cp_addr p))
  end.

(** The interested peers in rank order. *)
Definition ranked (peers : list ChokePeer) (seeding : bool) : list ChokePeer :=
  merge_sort (rank_le seeding) (filter (fun p => cp_interested p = true) peers).

Definition regular_slots (interested : list ChokePeer) : gset SocketAddr :=
  list_to_set (map cp_addr (take REGULAR_UNCHOKE_SLOTS interested)).

Definition keep_optimistic (unchoked : gset SocketAddr) (peer : ChokePeer) : gset SocketAddr :=
  if cp_optimistic peer && negb (bool_decide (cp_addr peer ∈ unchoked))
  then {[cp_addr peer]} ∪ unchoked else unchoked.

Definition select_unchoked (gen : nat -> nat) (peers : list ChokePeer)
    (seeding pick_optimistic : bool) (now : Instant) : option (gset SocketAddr) :=
  let interested := ranked peers seeding in
  let unchoked := regular_slots interested in
  if pick_optimistic then
    let remaining := filter (fun p => cp_addr p ∉ unchoked) interested in
    picked ← pick_optimistic_peer gen remaining now;
    Some (match picked with Some addr => {[addr]} ∪ unchoked | None => unchoked end)
  else Some (fold_left keep_optimistic interested unchoked).

(** ** Transitions *)

Definition choke_transitions (previous next : gset SocketAddr) : list (SocketAddr * ChokeAction) :=
  let chokes := merge_sort addr_le (elements (previous ∖ next)) in
  let unchokes := merge_sort addr_le (elements (next ∖ previous)) in
  map (fun addr => (addr, ActChoke)) chokes ++ map (fun addr => (addr, ActUnchoke)) unchokes.

(** ** A round of the choke loop *)

Definition snapshot (addr : SocketAddr) (s : PeerState) : ChokePeer :=
  mkChokePeer addr (st_peer_interested (stats s)) (negb (st_am_choking (stats s)))
    (bytes_downloaded (stats s)) (last_unchoked s) (connected_at s) (is_optimistic s).

(** [bytes_downloaded.swap(0)]. *)
Definition reset_downloaded (s : PeerState) : PeerState :=
  let t := stats s in
  set_stats (mkStats 0 (bytes_uploaded t) (st_am_choking t) (st_peer_interested t)
               (st_am_interested t) (st_peer_choking t) (download_cancels t)) s.

Definition set_optimistic (v : bool) (s : PeerState) : PeerState :=
  set_flags (peer_interested s) (am_choking s) (am_interested s) (peer_choking s)
    (last_unchoked s) v (snubbed s) s.

Definition set_last_unchoked (t : option Instant) (s : PeerState) : PeerState :=
  set_flags (peer_interested s) (am_choking s) (am_interested s) (peer_choking s)
    t (is_optimistic s) (snubbed s) s.

(** The new state of a peer for one action. *)
Definition act_on (now : Instant) (regular : gset SocketAddr) (addr : SocketAddr)
    (action : ChokeAction) (s : PeerState) : PeerState :=
  match action with
  | ActChoke => set_optimistic false (set_am_choking true s)
  | ActUnchoke =>
      set_optimistic (negb (bool_decide (addr ∈ regular)))
        (set_last_unchoked (Some now) (set_am_choking false s))
  end.

Definition act_message (action : ChokeAction) : Message :=
  match action with ActChoke => Choke | ActUnchoke => Unchoke end.

Definition apply_action (now : Instant) (regular : gset SocketAddr)
    (acc : gmap SocketAddr PeerState * list (SocketAddr * WriterRequest))
    (act : SocketAddr * ChokeAction) : gmap SocketAddr PeerState * list (SocketAddr * WriterRequest) :=
  let '(m, sent) := acc in
  let '(addr, action) := act in
  match m !! addr with
  | None => (m, sent)
  | Some s =>
      (<[addr := act_on now regular addr action s]> m,
       if writer_tx s then sent ++ [(addr, WriteMessage (act_message action))] else sent)
  end.

(** The states, the new [last_optimistic], and the requests sent to the writers;
    [None] is a panic.  [gen] and [gen'] are the generator at the two calls. *)
Definition apply_choke (gen gen' : nat -> nat) (m : gmap SocketAddr PeerState) (seeding : bool)
    (last_optimistic : Instant) (reset_rates : bool) (now : Instant)
    : option (gmap SocketAddr PeerState * Instant * list (SocketAddr * WriterRequest)) :=
  let pick_optimistic := OPTIMISTIC_INTERVAL <=? since now last_optimistic in
  let snapshots := map (fun e => snapshot e.1 e.2) (map_to_list m) in
  let m := if reset_rates then reset_downloaded <$> m else m in
  let previous := list_to_set (map cp_addr (filter (fun p => cp_unchoked p = true) snapshots)) in
  next ← select_unchoked gen snapshots seeding pick_optimistic now;
  let last_optimistic := if pick_optimistic then now else last_optimistic in
  regular ← select_unchoked gen' snapshots seeding false now;
  let '(m, sent) := fold_left (apply_action now regular) (choke_transitions previous next) (m, []) in
  Some (m, last_optimistic, sent).

(** [choke_all_peers], run while the torrent is paused: the states after it and the
    requests to the writers, in the order the map is traversed. *)
Definition choke_one (s : PeerState) : PeerState :=
  if negb (st_am_choking (stats s)) then set_optimistic false (set_am_choking true s) else s.

Definition choked (m : gmap SocketAddr PeerState) : gmap SocketAddr PeerState := choke_one <$> m.

Definition choke_request (e : SocketAddr * PeerState) : option (SocketAddr * WriterRequest) :=
  if negb (st_am_choking (stats e.2)) && writer_tx e.2 then Some (e.1, WriteMessage Choke) else None.

Definition choke_all_peers (iter : gmap SocketAddr PeerState -> list (SocketAddr * PeerState)) (m : gmap SocketAddr PeerState)
    : gmap SocketAddr PeerState * list (SocketAddr * WriterRequest) :=
  (choked m, omap choke_request (iter m)).

(** The [Interested] message of a peer ([peer_connection.rs]): a complete torrent
    unchokes it at once. *)
Definition on_interested (complete : bool) (s : PeerState) : PeerState :=
  let s := set_peer_interested true s in
  if complete && st_am_choking (stats s) then set_am_choking false s else s.

(** ** The orders *)

(** Both ranks compare keys lexicographically. *)
Definition rank_key (seeding : bool) (p : ChokePeer) : list Z :=
  (if seeding then match cp_last_unchoked p with None => [0] | Some t => [1; t] end
   else [- cp_download_bytes p]) ++ addr_key (cp_addr p).

Lemma rank_le_key seeding a b :
  rank_le seeding a b <-> cmp_list (rank_key seeding a) (rank_key seeding b) <> Gt.
Proof.
  unfold rank_le, rank_key. destruct seeding.
  - unfold seed_cmp, addr_cmp. by destruct (cp_last_unchoked a), (cp_last_unchoked b).
  - unfold leech_cmp, addr_cmp. cbn. by rewrite <- Z.compare_opp.
Qed.

#[export] Instance rank_le_trans seeding : Transitive (rank_le seeding).
Proof. intros a b c. rewrite !rank_le_key. apply cmp_list_le_trans. Qed.

#[export] Instance rank_le_total seeding : Total (rank_le seeding).
Proof.
  intros a b. rewrite !rank_le_key, (cmp_list_antisym (rank_key seeding a)).
  destruct (cmp_list _ _); cbn; auto.
Qed.

(** ** The choice *)

(** [r] has at least the claim of [p] to a regular slot. *)
Definition at_least_as_good (seeding : bool) (r p : ChokePeer) : Prop :=
  if seeding then
    match cp_last_unchoked r, cp_last_unchoked p with
    | None, _ => True
    | Some _, None => False
    | Some a, Some b => a <= b
    end
  else cp_download_bytes p <= cp_download_bytes r.

Lemma rank_le_good seeding r p : rank_le seeding r p -> at_least_as_good seeding r p.
Proof.
  unfold rank_le, at_least_as_good, seed_cmp, leech_cmp. destruct seeding.
  - destruct (cp_last_unchoked r) as [a|], (cp_last_unchoked p) as [b|]; try done.
    destruct (Z.compare_spec a b); intros; done || lia.
  - destruct (Z.compare_spec (cp_download_bytes p) (cp_download_bytes r)); intros; done || lia.
Qed.

Lemma elem_tickets now cs i : i ∈ tickets now cs -> (i < length cs)%nat.
Proof.
  unfold tickets. intros (l & Hi & Hl)%list_elem_of_join.
  apply elem_of_lookup_imap in Hl as (j & p & -> & Hj). apply elem_of_replicate in Hi as [-> _].
  by apply lookup_lt_Some in Hj.
Qed.

Lemma tickets_nonempty now c cs : (0 < length (tickets now (c :: cs)))%nat.
Proof.
  unfold tickets. cbn [imap mjoin list_join]. rewrite length_app, length_replicate.
  unfold ticket_weight. case_cmp; lia.
Qed.

Lemma pick_optimistic_spec gen `{!GenRange gen} cs now :
  (cs = [] /\ pick_optimistic_peer gen cs now = Some None) \/
  exists p, p ∈ cs /\ pick_optimistic_peer gen cs now = Some (Some (cp_addr p)).
Proof.
  destruct cs as [|c cs]; [by left|right]. unfold pick_optimistic_peer.
  pose proof (gen_range_lt _ (tickets_nonempty now c cs)) as Hlt.
  apply lookup_lt_is_Some_2 in Hlt as [i Hi]. rewrite Hi. red_bind.
  apply list_elem_of_lookup_2, elem_tickets in Hi.
  apply lookup_lt_is_Some_2 in Hi as [p Hp]. rewrite Hp. exists p.
  split; [by eapply list_elem_of_lookup_2|done].
Qed.

Lemma fold_keep_optimistic l u a :
  a ∈ fold_left keep_optimistic l u <->
  a ∈ u \/ exists p, p ∈ l /\ cp_optimistic p = true /\ cp_addr p = a.
Proof.
  revert u. induction l as [|q l IH]; intros u; cbn.
  { split; [auto|]. intros [?|(p & []%not_elem_of_nil & _)]. done. }
  rewrite IH. unfold keep_optimistic. setoid_rewrite elem_of_cons.
  destruct (cp_optimistic q) eqn:Eq; cbn.
  - case_bool_decide as Hin; cbn; [|rewrite elem_of_union, elem_of_singleton].
    + split; [|naive_solver]. intros [?|(p & ? & ? & ?)]; [auto|right; eauto].
    + split; [|naive_solver]. intros [[->|?]|(p & ? & ? & ?)]; [right; eauto|auto|right; eauto].
  - split; [|naive_solver congruence]. intros [?|(p & ? & ? & ?)]; [auto|right; eauto].
Qed.

Lemma ranked_perm peers seeding :
  ranked peers seeding ≡ₚ filter (fun p => cp_interested p = true) peers.
Proof. apply merge_sort_Permutation. Qed.

Lemma NoDup_fmap_inj {A B} (f : A -> B) (l : list A) x y :
  NoDup (f <$> l) -> x ∈ l -> y ∈ l -> f x = f y -> x = y.
Proof.
  intros Hnd [i Hi]%list_elem_of_lookup [j Hj]%list_elem_of_lookup E.
  assert (i = j) as <- by (eapply NoDup_lookup; [exact Hnd|rewrite list_lookup_fmap, Hi; done|
    rewrite list_lookup_fmap, Hj; cbn; congruence]).
  congruence.
Qed.

Lemma rank_key_addr seeding a b : rank_key seeding a = rank_key seeding b -> cp_addr a = cp_addr b.
Proof.
  unfold rank_key. intros E. apply addr_key_inj. destruct seeding.
  - destruct (cp_last_unchoked a), (cp_last_unchoked b); cbn in E; congruence.
  - cbn in E. congruence.
Qed.

(** The order in which the map of peers is traversed does not matter. *)
Lemma select_traversal gen peers peers' seeding pick now :
  NoDup (cp_addr <$> peers) -> peers ≡ₚ peers' ->
  select_unchoked gen peers seeding pick now = select_unchoked gen peers' seeding pick now.
Proof.
  intros Hnd Hp. unfold select_unchoked. enough (E : ranked peers seeding = ranked peers' seeding)
    by by rewrite E.
  apply (StronglySorted_unique_strong (rank_le seeding)).
  - intros a b Ha Hb Hab Hba.
    assert (In : forall q, q ∈ ranked peers seeding -> q ∈ peers).
    { intros q. rewrite ranked_perm. by intros [_ ?]%list_elem_of_filter. }
    assert (In' : b ∈ peers).
    { rewrite Hp. rewrite ranked_perm in Hb. by apply list_elem_of_filter in Hb as [_ ?]. }
    eapply (NoDup_fmap_inj cp_addr); [done|by apply In|done|].
    apply (rank_key_addr seeding), cmp_list_Eq. rewrite !rank_le_key in *.
    rewrite (cmp_list_antisym (rank_key seeding a)) in Hba. by destruct (cmp_list _ _).
  - apply StronglySorted_merge_sort; apply _.
  - apply StronglySorted_merge_sort; apply _.
  - by rewrite !ranked_perm, Hp.
Qed.

(** The regular slots and the others. *)
Lemma ranked_split peers seeding :
  let reg := take REGULAR_UNCHOKE_SLOTS (ranked peers seeding) in
  let rest := drop REGULAR_UNCHOKE_SLOTS (ranked peers seeding) in
  reg ++ rest ≡ₚ filter (fun p => cp_interested p = true) peers /\
  forall r p, r ∈ reg -> p ∈ rest -> rank_le seeding r p.
Proof.
  cbn zeta. rewrite take_drop. split; [apply ranked_perm|].
  apply (StronglySorted_app_inv (rank_le seeding)). rewrite take_drop.
  apply StronglySorted_merge_sort; apply _.
Qed.

(** Without the regular peers the ranked ones are the rest. *)
Lemma not_regular peers seeding :
  NoDup (cp_addr <$> peers) ->
  filter (fun p => cp_addr p ∉ regular_slots (ranked peers seeding)) (ranked peers seeding) =
  drop REGULAR_UNCHOKE_SLOTS (ranked peers seeding).
Proof.
  intros Hnd. assert (Hr : NoDup (cp_addr <$> ranked peers seeding)).
  { rewrite ranked_perm. eapply sublist_NoDup; [done|]. apply fmap_sublist, sublist_filter. }
  unfold regular_slots. set (l := ranked peers seeding) in *.
  rewrite <- (take_drop REGULAR_UNCHOKE_SLOTS l), fmap_app in Hr.
  apply NoDup_app in Hr as (_ & Hdis & _). apply filter_drop; rewrite Forall_forall.
  - intros p Hp Hn. apply Hn. rewrite elem_of_list_to_set. by apply list_elem_of_fmap_2.
  - intros p Hp. rewrite elem_of_list_to_set. intros Hin.
    apply (Hdis (cp_addr p)); [done|]. by apply list_elem_of_fmap_2.
Qed.

(** The outcome in terms of the regular slots and the rest. *)
Lemma select_outcome gen `{!GenRange gen} peers seeding pick now :
  NoDup (cp_addr <$> peers) ->
  let reg := take REGULAR_UNCHOKE_SLOTS (ranked peers seeding) in
  let rest := drop REGULAR_UNCHOKE_SLOTS (ranked peers seeding) in
  exists u, select_unchoked gen peers seeding pick now = Some u /\
    if pick
    then exists lucky, u = list_to_set (cp_addr <$> (reg ++ lucky)) /\
           (forall p, p ∈ lucky -> p ∈ rest) /\ length lucky = Nat.min 1 (length rest)
    else forall a, a ∈ u <-> a ∈ cp_addr <$> reg \/
           exists p, p ∈ rest /\ cp_optimistic p = true /\ cp_addr p = a.
Proof.
  intros Hnd reg rest. unfold select_unchoked. destruct pick.
  - rewrite not_regular by done. fold rest.
    destruct (pick_optimistic_spec gen rest now) as [[Hr ->]|(p & Hp & ->)]; red_bind;
      (eexists; split; [done|]).
    + exists []. rewrite app_nil_r, Hr. split_and!; [done| |done]. by intros ? ?%not_elem_of_nil.
    + exists [p]. split_and!.
      * rewrite fmap_app, list_to_set_app_L. cbn. unfold regular_slots, reg. set_solver.
      * by intros ? ->%list_elem_of_singleton.
      * destruct rest; [by apply not_elem_of_nil in Hp|done].
  - eexists. split; [done|]. intros a. rewrite fold_keep_optimistic.
    unfold regular_slots. rewrite elem_of_list_to_set. fold reg.
    split; [intros [?|(p & Hp & Ho & <-)]; [by left|]|].
    + rewrite <- (take_drop REGULAR_UNCHOKE_SLOTS (ranked peers seeding)) in Hp.
      apply elem_of_app in Hp as [Hp|Hp]; [left; by apply list_elem_of_fmap_2|right; eauto].
    + intros [?|(p & Hp & Ho & <-)]; [by left|right]. exists p. split; [|done].
      rewrite <- (take_drop REGULAR_UNCHOKE_SLOTS (ranked peers seeding)).
      apply elem_of_app. by right.
Qed.

(** ** Transitions *)

Lemma elem_transitions prev next a act :
  (a, act) ∈ choke_transitions prev next <->
  match act with ActChoke => a ∈ prev ∖ next | ActUnchoke => a ∈ next ∖ prev end.
Proof.
  unfold choke_transitions. rewrite elem_of_app, !list_elem_of_fmap.
  setoid_rewrite merge_sort_Permutation. setoid_rewrite elem_of_elements.
  destruct act; naive_solver.
Qed.

Lemma transitions_NoDup prev next : NoDup (choke_transitions prev next).*1.
Proof.
  unfold choke_transitions. rewrite fmap_app, <- !list_fmap_compose.
  change (fst ∘ (fun addr : SocketAddr => (addr, ?a))) with (@id SocketAddr).
  rewrite !list_fmap_id, !merge_sort_Permutation. apply NoDup_app.
  split; [apply NoDup_elements|]. split; [|apply NoDup_elements].
  intros a. rewrite !elem_of_elements. set_solver.
Qed.

(** ** Applying the transitions *)

(** The request an action sends, if the peer has a writer. *)
Definition action_sends (m : gmap SocketAddr PeerState) (act : SocketAddr * ChokeAction)
    : list (SocketAddr * WriterRequest) :=
  match m !! act.1 with
  | Some s => if writer_tx s then [(act.1, WriteMessage (act_message act.2))] else []
  | None => []
  end.

Lemma apply_action_alter now regular m sent a act :
  apply_action now regular (m, sent) (a, act) =
  (alter (act_on now regular a act) a m, sent ++ action_sends m (a, act)).
Proof.
  unfold apply_action, action_sends. cbn [fst snd]. destruct (m !! a) as [s|] eqn:E.
  - rewrite <- (insert_id m a s) at 2 by done. rewrite alter_insert_eq.
    by destruct (writer_tx s); rewrite ?app_nil_r.
  - rewrite app_nil_r. f_equal. apply map_eq. intros i. destruct (decide (i = a)) as [->|].
    + by rewrite lookup_alter_eq, E.
    + by rewrite lookup_alter_ne.
Qed.

Lemma action_sends_alter (f : PeerState -> PeerState) a m acts :
  a ∉ acts.*1 -> acts ≫= action_sends (alter f a m) = acts ≫= action_sends m.
Proof.
  induction acts as [|[b act] acts IH]; intros Hn; [done|].
  rewrite fmap_cons, not_elem_of_cons in Hn. destruct Hn as [Hb Hn]. cbn [mbind list_bind].
  f_equal; [|by apply IH]. unfold action_sends. cbn. by rewrite lookup_alter_ne.
Qed.

Lemma fold_actions now regular acts m sent :
  NoDup acts.*1 ->
  let out := fold_left (apply_action now regular) acts (m, sent) in
  (forall a act, (a, act) ∈ acts -> out.1 !! a = act_on now regular a act <$> m !! a) /\
  (forall a, a ∉ acts.*1 -> out.1 !! a = m !! a) /\
  out.2 = sent ++ acts ≫= action_sends m.
Proof.
  revert m sent. induction acts as [|[a act] acts IH]; intros m sent Hnd.
  { cbn. split_and!; [by intros ? ? ?%not_elem_of_nil|done|by rewrite app_nil_r]. }
  rewrite fmap_cons in Hnd. inversion_clear Hnd as [|? ? Hn Hnd'].
  change (fold_left ?f ((a, act) :: acts) ?x) with (fold_left f acts (f x (a, act))).
  rewrite apply_action_alter.
  destruct (IH (alter (act_on now regular a act) a m) (sent ++ action_sends m (a, act)) Hnd')
    as (H1 & H2 & H3). split_and!.
  - intros b act' [[= -> ->]|Hin]%elem_of_cons.
    + rewrite H2 by done. apply lookup_alter_eq.
    + rewrite (H1 b act') by done. rewrite lookup_alter_ne; [done|].
      intros ->. apply Hn. by apply (list_elem_of_fmap_2 fst) in Hin.
  - intros b Hb. rewrite fmap_cons, not_elem_of_cons in Hb. destruct Hb as [Hb1 Hb2].
    rewrite H2 by done. by apply lookup_alter_ne.
  - rewrite H3, action_sends_alter by done. cbn. by rewrite <- app_assoc.
Qed.

(** ** The peers we unchoke *)

Definition unchoked_addrs (m : gmap SocketAddr PeerState) : gset SocketAddr :=
  dom (filter (fun e => st_am_choking (stats e.2) = false) m).

Definition optimistic_addrs (m : gmap SocketAddr PeerState) : gset SocketAddr :=
  dom (filter (fun e => is_optimistic e.2 = true) m).

Lemma elem_unchoked m a :
  a ∈ unchoked_addrs m <-> exists s, m !! a = Some s /\ st_am_choking (stats s) = false.
Proof.
  unfold unchoked_addrs. rewrite elem_of_dom. unfold is_Some.
  setoid_rewrite map_lookup_filter_Some. done.
Qed.

Lemma elem_optimistic m a :
  a ∈ optimistic_addrs m <-> exists s, m !! a = Some s /\ is_optimistic s = true.
Proof.
  unfold optimistic_addrs. rewrite elem_of_dom. unfold is_Some.
  setoid_rewrite map_lookup_filter_Some. done.
Qed.

Definition snapshots (m : gmap SocketAddr PeerState) : list ChokePeer :=
  map (fun e => snapshot e.1 e.2) (map_to_list m).

Lemma elem_snapshots m p :
  p ∈ snapshots m <-> exists a s, m !! a = Some s /\ p = snapshot a s.
Proof.
  unfold snapshots. rewrite list_elem_of_fmap. split.
  - intros ([a s] & -> & H%elem_of_map_to_list). eauto.
  - intros (a & s & H%elem_of_map_to_list & ->). by exists (a, s).
Qed.

Lemma snapshots_NoDup m : NoDup (cp_addr <$> snapshots m).
Proof.
  unfold snapshots. rewrite <- list_fmap_compose. apply (NoDup_fst_map_to_list m).
Qed.

Lemma previous_unchoked m :
  list_to_set (map cp_addr (filter (fun p => cp_unchoked p = true) (snapshots m)))
  = unchoked_addrs m.
Proof.
  apply set_eq. intros a. rewrite elem_of_list_to_set, list_elem_of_fmap, elem_unchoked.
  setoid_rewrite list_elem_of_filter. setoid_rewrite elem_snapshots. split.
  - intros (p & -> & Hc & b & s & Hs & ->). exists s. split; [done|]. cbn in Hc.
    by apply negb_true_iff in Hc.
  - intros (s & Hs & Hc). exists (snapshot a s). split; [done|]. split; [cbn; by rewrite Hc|].
    eauto.
Qed.

(** A state and what it becomes in a round. *)
Definition maybe_reset (reset_rates : bool) (s : PeerState) : PeerState :=
  if reset_rates then reset_downloaded s else s.

Lemma size_union_le (X Y : gset SocketAddr) : (size (X ∪ Y) <= size X + size Y)%nat.
Proof.
  rewrite size_union_alt. pose proof (subseteq_size (Y ∖ X) Y ltac:(set_solver)). lia.
Qed.

Lemma size_list_to_set_le (l : list SocketAddr) :
  (size (list_to_set l : gset SocketAddr) <= length l)%nat.
Proof.
  induction l as [|a l IH]; cbn [list_to_set length]; [by rewrite size_empty|].
  etrans; [apply size_union_le|]. rewrite size_singleton. lia.
Qed.

(** A choice names interested peers, at most four in an optimistic round and
    otherwise three and the optimistic ones. *)
Lemma select_bound gen `{!GenRange gen} m seeding pick now u :
  select_unchoked gen (snapshots m) seeding pick now = Some u ->
  (forall a, a ∈ u -> exists s, m !! a = Some s /\ st_peer_interested (stats s) = true) /\
  (size u <= if pick then 4 else 3 + size (optimistic_addrs m))%nat.
Proof.
  intros Hu. destruct (select_outcome gen (snapshots m) seeding pick now (snapshots_NoDup m))
    as (u' & Hu' & Hout). rewrite Hu in Hu'. injection Hu' as <-.
  pose proof (ranked_split (snapshots m) seeding) as [Hperm _].
  set (reg := take _ _) in *. set (rest := drop _ _) in *.
  assert (Hdom : forall p, p ∈ reg ++ rest ->
    exists s, m !! cp_addr p = Some s /\ st_peer_interested (stats s) = true).
  { intros p. rewrite Hperm. intros [Hi Hp]%list_elem_of_filter.
    apply elem_snapshots in Hp as (a & s & Hs & ->). by exists s. }
  assert (Hreg : (length reg <= 3)%nat).
  { unfold reg. rewrite length_take. unfold REGULAR_UNCHOKE_SLOTS. lia. }
  setoid_rewrite elem_of_app in Hdom. destruct pick.
  - destruct Hout as (lucky & -> & Hl & Hlen). split.
    + intros a. rewrite elem_of_list_to_set, list_elem_of_fmap.
      intros (p & -> & [Hp|Hp]%elem_of_app); auto.
    + etrans; [apply size_list_to_set_le|]. rewrite length_fmap, length_app. lia.
  - split.
    + intros a [(p & -> & Hp)%list_elem_of_fmap|(p & Hp & _ & <-)]%Hout; auto.
    + etrans; [apply (subseteq_size _ (list_to_set (cp_addr <$> reg) ∪ optimistic_addrs m))|].
      * intros a [Ha|(p & Hp & Ho & <-)]%Hout; [apply elem_of_union_l; by apply elem_of_list_to_set|].
        apply elem_of_union_r, elem_optimistic.
        assert (Hin : p ∈ reg ++ rest) by (apply elem_of_app; by right).
        rewrite Hperm in Hin. apply list_elem_of_filter in Hin as [_ Hin].
        apply elem_snapshots in Hin as (a & s & Hs & ->). by exists s.
      * etrans; [apply size_union_le|]. pose proof (size_list_to_set_le (cp_addr <$> reg)) as Hs.
        rewrite length_fmap in Hs. lia.
Qed.

(** What a round does to the peer at [a]. *)
Lemma apply_choke_outcome gen gen' `{!GenRange gen, !GenRange gen'} m seeding last reset now :
  let pick := OPTIMISTIC_INTERVAL <=? since now last in
  exists next regular m' sent,
    select_unchoked gen (snapshots m) seeding pick now = Some next /\
    select_unchoked gen' (snapshots m) seeding false now = Some regular /\
    apply_choke gen gen' m seeding last reset now = Some (m', if pick then now else last, sent) /\
    sent = choke_transitions (unchoked_addrs m) next ≫= action_sends m /\
    forall a, m' !! a =
      (fun s => let s := maybe_reset reset s in
        if decide (a ∈ unchoked_addrs m ∖ next) then act_on now regular a ActChoke s
        else if decide (a ∈ next ∖ unchoked_addrs m) then act_on now regular a ActUnchoke s
        else s) <$> m !! a.
Proof.
  intros pick.
  destruct (select_outcome gen (snapshots m) seeding pick now (snapshots_NoDup m)) as (next & Hn & _).
  destruct (select_outcome gen' (snapshots m) seeding false now (snapshots_NoDup m)) as (reg & Hr & _).
  unfold apply_choke. fold pick. fold (snapshots m). rewrite previous_unchoked, Hn, Hr. red_bind.
  set (m1 := if reset then reset_downloaded <$> m else m).
  pose proof (fold_actions now reg (choke_transitions (unchoked_addrs m) next) m1 []
    (transitions_NoDup _ _)) as (H1 & H2 & H3).
  destruct (fold_left _ _ _) as [m' sent]. cbn [fst snd] in *.
  exists next, reg, m', sent. split_and!; try done.
  - rewrite H3. cbn [app]. apply list_bind_ext; [|done]. intros [a act].
    unfold action_sends, m1. cbn. destruct reset; [|done]. rewrite lookup_fmap.
    by destruct (m !! a).
  - intros a. assert (Hm1 : m1 !! a = maybe_reset reset <$> m !! a).
    { unfold m1, maybe_reset. destruct reset; [by rewrite lookup_fmap|by rewrite option_fmap_id]. }
    case_decide as Hc; [|case_decide as Hu].
    + rewrite (H1 a ActChoke) by by apply elem_transitions. rewrite Hm1. by destruct (m !! a).
    + rewrite (H1 a ActUnchoke) by by apply elem_transitions. rewrite Hm1. by destruct (m !! a).
    + rewrite H2, Hm1; [by destruct (m !! a)|].
      intros ([b act] & -> & Hin)%list_elem_of_fmap. apply elem_transitions in Hin.
      destruct act; done.
Qed.

(** ** Reachable choke states *)

(** The optimistic peers are unchoked, and at most four carry the mark. *)
Definition choke_inv (m : gmap SocketAddr PeerState) : Prop :=
  optimistic_addrs m ⊆ unchoked_addrs m /\ (size (optimistic_addrs m) <= 4)%nat.

Lemma apply_choke_inv gen gen' `{!GenRange gen, !GenRange gen'} m seeding last reset now :
  choke_inv m ->
  let pick := OPTIMISTIC_INTERVAL <=? since now last in
  exists next m' sent,
    select_unchoked gen (snapshots m) seeding pick now = Some next /\
    apply_choke gen gen' m seeding last reset now = Some (m', if pick then now else last, sent) /\
    sent = choke_transitions (unchoked_addrs m) next ≫= action_sends m /\
    unchoked_addrs m' = next /\ choke_inv m'.
Proof.
  intros [Hsub Hsize] pick.
  destruct (apply_choke_outcome gen gen' m seeding last reset now)
    as (next & regular & m' & sent & Hn & Hr & Ha & Hs & Hm). fold pick in Hn, Ha.
  destruct (select_bound gen m seeding pick now next Hn) as [Hint Hbound].
  assert (Hchoking : forall s, st_am_choking (stats (maybe_reset reset s)) = st_am_choking (stats s))
    by by destruct reset.
  assert (Hopt : forall s, is_optimistic (maybe_reset reset s) = is_optimistic s)
    by by destruct reset.
  assert (Hun : unchoked_addrs m' = next).
  { apply set_eq. intros a. rewrite elem_unchoked, Hm.
    destruct (m !! a) as [s|] eqn:E; cbn.
    - assert (Hprev : a ∈ unchoked_addrs m <-> st_am_choking (stats s) = false).
      { rewrite elem_unchoked. rewrite E. naive_solver. }
      destruct (decide (a ∈ unchoked_addrs m)) as [Hp|Hp], (decide (a ∈ next)) as [Hx|Hx].
      + rewrite !decide_False by (rewrite elem_of_difference; tauto). split; [done|]. intros _. eexists. split; [done|].
        rewrite Hchoking. tauto.
      + rewrite decide_True by (rewrite elem_of_difference; tauto). split; [|done]. intros (s' & [= <-] & Hc). done.
      + rewrite decide_False, decide_True by (rewrite elem_of_difference; tauto). split; [done|]. intros _. by eexists.
      + rewrite !decide_False by (rewrite elem_of_difference; tauto). split; [|done]. intros (s' & [= <-] & Hc).
        rewrite Hchoking in Hc. tauto.
    - split; [by intros (s & ? & _)|]. intros (s & Hs' & _)%Hint. congruence. }
  assert (Hopt' : forall a, a ∈ optimistic_addrs m' ->
    a ∈ next /\ (a ∈ optimistic_addrs m \/ a ∉ regular)).
  { intros a (s' & Hs' & Ho)%elem_optimistic. rewrite Hm in Hs'.
    destruct (m !! a) as [s|] eqn:E; [|done]. cbn in Hs'. injection Hs' as <-.
    destruct (decide (a ∈ unchoked_addrs m ∖ next)) as [|Hc]; [done|].
    case_decide as Hx; cbn in Ho.
    - apply negb_true_iff, bool_decide_eq_false in Ho. split; [set_solver|by right].
    - rewrite Hopt in Ho. assert (a ∈ optimistic_addrs m) by (apply elem_optimistic; eauto).
      split; [set_solver|by left]. }
  exists next, m', sent. split_and!; try done. split; [rewrite Hun; intros a Ha'; by apply Hopt'|].
  destruct pick.
  - etrans; [apply (subseteq_size _ next); intros a Ha'; by apply Hopt'|done].
  - assert (regular = next) as -> by (cbn in Hn, Hr; congruence).
    etrans; [apply (subseteq_size _ (optimistic_addrs m))|done]. intros a Ha'.
    apply Hopt' in Ha' as [? [?|?]]; done.
Qed.

(** The steps of the choke loop and of the tasks that share the peer states. *)
Inductive ch_step : gmap SocketAddr PeerState * Instant -> gmap SocketAddr PeerState * Instant -> Prop :=
| StepRound gen gen' m last seeding reset now out :
    GenRange gen -> GenRange gen' ->
    apply_choke gen gen' m seeding last reset now = Some out -> ch_step (m, last) out.1
| StepPaused iter m last : ch_step (m, last) ((choke_all_peers iter m).1, last)
| StepConnected m last a now wired :
    ch_step (m, last) (<[a := if wired : bool then live now else live_unwired now]> m, last)
| StepDied m last a : ch_step (m, last) (delete a m, last)
| StepInterested m last a complete : ch_step (m, last) (alter (on_interested complete) a m, last)
| StepUpdate m last a f :
    (forall s, st_am_choking (stats (f s)) = st_am_choking (stats s) /\
               is_optimistic (f s) = is_optimistic s) ->
    ch_step (m, last) (alter f a m, last).

(** A step that marks no peer and chokes no marked one. *)
Lemma choke_inv_weaken m m' :
  choke_inv m ->
  (forall a s', m' !! a = Some s' -> is_optimistic s' = true ->
    exists s, m !! a = Some s /\ is_optimistic s = true /\
      (st_am_choking (stats s) = false -> st_am_choking (stats s') = false)) ->
  choke_inv m'.
Proof.
  intros [Hsub Hsize] H. split.
  - intros a (s' & Hs' & Ho')%elem_optimistic. destruct (H a s' Hs' Ho') as (s & Hs & Ho & Hc).
    apply elem_unchoked. exists s'. split; [done|]. apply Hc.
    assert (Hin : a ∈ optimistic_addrs m) by (apply elem_optimistic; eauto).
    apply Hsub, elem_unchoked in Hin as (s2 & Hs2 & ?). congruence.
  - etrans; [apply (subseteq_size _ (optimistic_addrs m))|done].
    intros a (s' & Hs' & Ho')%elem_optimistic. destruct (H a s' Hs' Ho') as (s & Hs & Ho & _).
    apply elem_optimistic. eauto.
Qed.

(** The same for a change of one peer. *)
Lemma choke_inv_alter m a f :
  choke_inv m ->
  (forall s, is_optimistic (f s) = true -> is_optimistic s = true /\
    (st_am_choking (stats s) = false -> st_am_choking (stats (f s)) = false)) ->
  choke_inv (alter f a m).
Proof.
  intros Hi Hf. eapply choke_inv_weaken; [done|]. intros b s' Hb Ho.
  destruct (decide (b = a)) as [->|].
  - rewrite lookup_alter_eq in Hb. destruct (m !! a) as [s|]; [|done]. injection Hb as <-.
    exists s. split; [done|]. by apply Hf.
  - rewrite lookup_alter_ne in Hb by done. eauto.
Qed.

Lemma ch_step_inv c c' : ch_step c c' -> choke_inv c.1 -> choke_inv c'.1.
Proof.
  intros Hs Hi. destruct Hs as [gen gen' m last seeding reset now out ? ? Ha|iter m last|m last a now wired
    |m last a|m last a complete|m last a f Hf]; cbn [fst] in *.
  - destruct (apply_choke_inv gen gen' m seeding last reset now Hi)
      as (next & m' & sent & _ & Ha' & _ & _ & Hi').
    rewrite Ha in Ha'. by injection Ha' as ->.
  - eapply choke_inv_weaken; [done|]. intros a s' Hl Ho. unfold choke_all_peers, choked in Hl. cbn [fst] in Hl.
    rewrite lookup_fmap in Hl. destruct (m !! a) as [s|]; [|done]. injection Hl as <-.
    exists s. unfold choke_one in *. destruct (st_am_choking (stats s)); by cbn in *.
  - eapply choke_inv_weaken; [done|]. intros b s' Hl Ho. destruct (decide (a = b)) as [->|].
    + rewrite lookup_insert_eq in Hl. injection Hl as <-. by destruct wired.
    + rewrite lookup_insert_ne in Hl by done. eauto.
  - eapply choke_inv_weaken; [done|]. intros b s' [_ Hl]%lookup_delete_Some Ho. eauto.
  - apply choke_inv_alter; [done|]. intros s. unfold on_interested.
    destruct (complete && _); cbn; auto.
  - apply choke_inv_alter; [done|]. intros s. destruct (Hf s) as [-> ->]. auto.
Qed.

Lemma ch_reach_inv m0 c : rtc ch_step (∅, m0) c -> choke_inv c.1.
Proof.
  intros H. assert (H0 : choke_inv ((∅ : gmap SocketAddr PeerState), m0).1).
  { cbn. unfold choke_inv, optimistic_addrs. rewrite map_filter_empty, dom_empty_L, size_empty.
    split; [set_solver|lia]. }
  revert H0. induction H as [|c1 c2 c3 Hs _ IH]; eauto using ch_step_inv.
Qed.

Lemma sends_sublist m acts : (acts ≫= action_sends m).*1 `sublist_of` acts.*1.
Proof.
  induction acts as [|[a act] acts IH]; [done|]. cbn [mbind list_bind]. rewrite fmap_app, fmap_cons.
  unfold action_sends at 1. cbn. destruct (m !! a) as [s|]; [destruct (writer_tx s)|]; cbn.
  - by apply sublist_skip.
  - by apply sublist_cons.
  - by apply sublist_cons.
Qed.

(** The message a peer gets for the change of its state. *)
Definition change_message (before after : gset SocketAddr) (a : SocketAddr) : option Message :=
  if decide (a ∈ before ∖ after) then Some Choke
  else if decide (a ∈ after ∖ before) then Some Unchoke else None.

Lemma elem_sends m before after a r :
  (a, r) ∈ choke_transitions before after ≫= action_sends m <->
  exists s msg, m !! a = Some s /\ writer_tx s = true /\
    change_message before after a = Some msg /\ r = WriteMessage msg.
Proof.
  rewrite list_elem_of_bind. unfold change_message. split.
  - intros ([b act] & Hr & Hact). unfold action_sends in Hr. cbn in Hr.
    destruct (m !! b) as [s|] eqn:E; [|by apply not_elem_of_nil in Hr].
    destruct (writer_tx s) eqn:Ew; [|by apply not_elem_of_nil in Hr].
    apply list_elem_of_singleton in Hr. injection Hr as -> ->. apply elem_transitions in Hact.
    exists s. destruct act; [rewrite decide_True by done|rewrite decide_False, decide_True by set_solver];
      eauto.
  - intros (s & msg & E & Ew & Hc & ->). case_decide as H1; [|case_decide as H2; [|done]];
      injection Hc as <-; [exists (a, ActChoke)|exists (a, ActUnchoke)]; rewrite elem_transitions;
      (split; [|done]); unfold action_sends; cbn; rewrite E, Ew; apply list_elem_of_singleton; done.
Qed.

(** What a message does to the set of unchoked peers. *)
Definition transit (u : gset SocketAddr) (act : SocketAddr * ChokeAction) : gset SocketAddr :=
  match act.2 with ActChoke => u ∖ {[act.1]} | ActUnchoke => {[act.1]} ∪ u end.

Lemma fold_transitions acts u a :
  NoDup acts.*1 ->
  a ∈ fold_left transit acts u <->
  (a, ActUnchoke) ∈ acts \/ (~ ((a, ActChoke) ∈ acts) /\ a ∈ u).
Proof.
  revert u. induction acts as [|[b act] acts IH]; intros u Hnd; cbn [fold_left].
  { rewrite !elem_of_nil. tauto. }
  rewrite fmap_cons in Hnd. inversion_clear Hnd as [|? ? Hn Hnd'].
  rewrite IH by done. rewrite !elem_of_cons. unfold transit. cbn [fst snd].
  assert (Hb : forall act', (b, act') ∉ acts).
  { intros act' Hin. apply Hn. by apply (list_elem_of_fmap_2 fst) in Hin. }
  pose proof (Hb ActChoke). pose proof (Hb ActUnchoke).
  destruct (decide (a = b)) as [->|Hne]; destruct act; set_solver.
Qed.

Lemma requests_sublist l : (omap choke_request l).*1 `sublist_of` l.*1.
Proof.
  induction l as [|[a s] l IH]; [done|]. cbn. unfold choke_request at 1. cbn. destruct (_ && _); cbn; [by apply sublist_skip|by apply sublist_cons].
Qed.

(** Pausing chokes every peer, and tells the ones that were not choked, once each. *)
Lemma choke_all_exact iter `{!HashOrder iter} m :
  let '(m', sent) := choke_all_peers iter m in
  unchoked_addrs m' = ∅ /\ optimistic_addrs m' ⊆ optimistic_addrs m /\ NoDup sent.*1 /\
  forall a r, (a, r) ∈ sent <-> r = WriteMessage Choke /\ a ∈ unchoked_addrs m /\ exists s, m !! a = Some s /\ writer_tx s = true.
Proof.
  cbn. split_and!.
  - apply set_eq. intros a. rewrite elem_unchoked. unfold choked. rewrite lookup_fmap. split; [|set_solver].
    intros (s & Hs & Hc). destruct (m !! a) as [s0|]; [|done]. injection Hs as <-. unfold choke_one in Hc.
    by destruct (st_am_choking (stats s0)) eqn:E; [cbn in Hc; congruence|].
  - intros a. rewrite !elem_optimistic. unfold choked. rewrite lookup_fmap. intros (s & Hs & Ho).
    destruct (m !! a) as [s0|]; [|done]. injection Hs as <-. exists s0. split; [done|].
    unfold choke_one in Ho. by destruct (st_am_choking (stats s0)).
  - assert (Hnd : NoDup (iter m).*1) by (rewrite (iter_perm m); apply NoDup_fst_map_to_list).
    eapply sublist_NoDup; [exact Hnd|apply requests_sublist].
  - intros a r. rewrite list_elem_of_omap, elem_unchoked. unfold choke_request. split.
    + intros ([b s] & Hin & Hr). rewrite (iter_perm m) in Hin. apply elem_of_map_to_list in Hin. cbn in *.
      destruct (st_am_choking (stats s)) eqn:Ec, (writer_tx s) eqn:Ew; cbn in Hr; try done. injection Hr as <- <-. eauto 8.
    + intros (-> & (s & Hs & Hc) & s' & Hs' & Hw). assert (s' = s) as -> by congruence. exists (a, s). cbn. rewrite Hc, Hw.
      split; [|done]. rewrite (iter_perm m). by apply elem_of_map_to_list.
Qed.

(** ** Properties *)

(** The peers to unchoke are chosen as intended, whatever the random
    generator does: up to three interested peers have the regular slots, none of
    the other interested peers downloaded more to us (or, when we seed, has
    waited longer); in an optimistic round exactly one more interested peer is
    added if there is one, otherwise the interested peers marked optimistic stay;
    nobody else is unchoked. *)
Theorem select_unchoked_correct gen `{!GenRange gen} peers seeding pick now :
  NoDup (cp_addr <$> peers) ->
  exists u reg rest, select_unchoked gen peers seeding pick now = Some u /\
    reg ++ rest ≡ₚ filter (fun p => cp_interested p = true) peers /\
    length reg = Nat.min 3 (length (reg ++ rest)) /\
    (forall r p, r ∈ reg -> p ∈ rest -> at_least_as_good seeding r p) /\
    if pick
    then exists lucky, u = list_to_set (cp_addr <$> (reg ++ lucky)) /\
           (forall p, p ∈ lucky -> p ∈ rest) /\ length lucky = Nat.min 1 (length rest)
    else forall a, a ∈ u <-> a ∈ cp_addr <$> reg \/
           exists p, p ∈ rest /\ cp_optimistic p = true /\ cp_addr p = a.
Proof.
  intros Hnd. destruct (select_outcome gen peers seeding pick now Hnd) as (u & Hu & Hout).
  destruct (ranked_split peers seeding) as [Hp Hr].
  exists u, (take REGULAR_UNCHOKE_SLOTS (ranked peers seeding)),
    (drop REGULAR_UNCHOKE_SLOTS (ranked peers seeding)). split_and!; try done.
  - rewrite take_drop, length_take. done.
  - intros r p ? ?. apply rank_le_good. by apply Hr.
Qed.

(** The transitions are exact: applied to the previously unchoked peers they
    give the next ones, no peer occurs twice, so each change is announced once
    and nothing else is, and chokes come before unchokes, each in address
    order. *)
Theorem choke_transitions_exact previous next :
  let acts := choke_transitions previous next in
  fold_left transit acts previous = next /\
  NoDup acts.*1 /\
  exists chokes unchokes,
    acts = map (fun a => (a, ActChoke)) chokes ++ map (fun a => (a, ActUnchoke)) unchokes /\
    StronglySorted addr_le chokes /\ StronglySorted addr_le unchokes.
Proof.
  intros acts. split_and!; [|apply transitions_NoDup|].
  - apply set_eq. intros a. rewrite fold_transitions by apply transitions_NoDup.
    unfold acts. rewrite !elem_transitions, !elem_of_difference.
    destruct (decide (a ∈ previous)), (decide (a ∈ next)); tauto.
  - do 2 eexists. split; [done|]. split; apply StronglySorted_merge_sort; apply _.
Qed.

(** C27: in every state the choke loop and the peer tasks can reach, a round of
    the loop does not panic, unchokes only interested peers, at most four of them
    in an optimistic round and at most seven otherwise, and sends each connected
    peer whose state changes exactly one message, and no other message. *)
Theorem choke_round_bounded gen gen' `{!GenRange gen, !GenRange gen'} t0 m last seeding reset now :
  rtc ch_step (∅, t0) (m, last) ->
  let pick := OPTIMISTIC_INTERVAL <=? since now last in
  exists m' sent,
    apply_choke gen gen' m seeding last reset now = Some (m', if pick then now else last, sent) /\
    (forall a, a ∈ unchoked_addrs m' ->
      exists s, m !! a = Some s /\ st_peer_interested (stats s) = true) /\
    (size (unchoked_addrs m') <= if pick then 4 else 7)%nat /\
    NoDup sent.*1 /\
    forall a r, (a, r) ∈ sent <->
      exists s msg, m !! a = Some s /\ writer_tx s = true /\
        change_message (unchoked_addrs m) (unchoked_addrs m') a = Some msg /\ r = WriteMessage msg.
Proof.
  intros Hreach pick. apply ch_reach_inv in Hreach as Hi. cbn [fst] in Hi.
  destruct (apply_choke_inv gen gen' m seeding last reset now Hi)
    as (next & m' & sent & Hn & Ha & Hs & Hu & _).
  destruct (select_bound gen m seeding _ now next Hn) as [Hint Hb]. fold pick in Ha, Hb.
  exists m', sent. rewrite Hu. split_and!; try done.
  - destruct pick; [done|]. destruct Hi as [_ Hi]. lia.
  - rewrite Hs. eapply sublist_NoDup; [|apply sends_sublist]. apply transitions_NoDup.
  - intros a r. rewrite Hs. apply elem_sends.
Qed.

(** ** More than one optimistic peer *)

#[export] Instance gen_last : GenRange (fun n => (n - 1)%nat).
Proof. intros n Hn. cbn. lia. Qed.

Definition peer_addr (n : Z) : SocketAddr := V4 n 6881.

(** [n] bytes arrive from a peer. *)
Definition credit (n : u64) (s : PeerState) : PeerState :=
  let t := stats s in
  set_stats (mkStats (wrap64 (bytes_downloaded t + n)) (bytes_uploaded t) (st_am_choking t)
               (st_peer_interested t) (st_am_interested t) (st_peer_choking t)
               (download_cancels t)) s.

Definition join (m : gmap SocketAddr PeerState) (n : Z) : gmap SocketAddr PeerState :=
  alter (on_interested false) (peer_addr n) (<[peer_addr n := live 0]> m).

Definition pay (m : gmap SocketAddr PeerState) (e : Z * Z) : gmap SocketAddr PeerState :=
  alter (credit e.2) (peer_addr e.1) m.

(** A round of the loop while leeching, at the given second. *)
Definition leech_round (gen : nat -> nat) (second : Z) (c : gmap SocketAddr PeerState * Instant)
    : gmap SocketAddr PeerState * Instant :=
  match apply_choke gen gen c.1 false c.2 true (secs second) with
  | Some out => out.1
  | None => c
  end.

Lemma join_reach c m n : rtc ch_step c (m, c.2) -> rtc ch_step c (join m n, c.2).
Proof.
  intros H. eapply rtc_r; [eapply rtc_r; [exact H|]|].
  - apply (StepConnected m c.2 (peer_addr n) 0 true).
  - apply StepInterested.
Qed.

Lemma pay_reach c m last e : rtc ch_step c (m, last) -> rtc ch_step c (pay m e, last).
Proof. intros H. eapply rtc_r; [exact H|]. by apply StepUpdate. Qed.

Lemma leech_reach gen `{!GenRange gen} second c c0 :
  rtc ch_step c0 c -> rtc ch_step c0 (leech_round gen second c).
Proof.
  intros H. unfold leech_round. destruct c as [m last]. cbn [fst snd].
  destruct (apply_choke _ _ _ _ _ _ _) as [out|] eqn:E; [|done].
  eapply rtc_r; [exact H|]. by eapply StepRound.
Qed.

Definition pays (l : list (Z * Z)) (c : gmap SocketAddr PeerState * Instant)
    : gmap SocketAddr PeerState * Instant := (fold_left pay l c.1, c.2).

Lemma pays_reach c0 l c : rtc ch_step c0 c -> rtc ch_step c0 (pays l c).
Proof.
  unfold pays. destruct c as [m last]. cbn [fst snd]. revert m.
  induction l as [|e l IH]; intros m H; cbn; [done|]. apply IH. by apply pay_reach.
Qed.

(** Five interested peers; 4 becomes the optimistic one, then earns a regular
    slot while 5 becomes the optimistic one, then loses the regular slot. *)
Definition leak_state : gmap SocketAddr PeerState * Instant :=
  leech_round (fun n => n - 1)%nat 71
    (pays [(1, 10); (2, 10); (3, 10)]
      (leech_round (fun n => n - 1)%nat 61
        (pays [(4, 100); (1, 50); (2, 40)]
          (leech_round (fun _ => 0%nat) 31
            (pays [(1, 50); (2, 40); (3, 30)] (fold_left join [1; 2; 3; 4; 5] ∅, 0)))))).

Lemma leak_reach : rtc ch_step (∅, 0) leak_state.
Proof.
  unfold leak_state. do 3 (apply leech_reach; [apply _|]; apply pays_reach).
  cbn [fold_left]. change 0 with ((∅ : gmap SocketAddr PeerState), 0).2 at 2.
  do 5 apply join_reach. apply rtc_refl.
Qed.

(** The optimistic mark outlives the optimistic slot: a peer that earns a
    regular slot while it is the optimistic one keeps the mark, so a round can
    leave five peers unchoked although there are three regular slots and one
    optimistic one. *)
Theorem optimistic_mark_leaks :
  rtc ch_step (∅, 0) leak_state /\ size (unchoked_addrs leak_state.1) = 5%nat /\
  size (optimistic_addrs leak_state.1) = 2%nat.
Proof.
  split; [apply leak_reach|split; vm_compute; reflexivity].
Qed.

(** Four peers, one of them not interested. *)
Definition sample_peers : list ChokePeer :=
  [mkChokePeer (peer_addr 1) true false 10 None 0 false;
   mkChokePeer (peer_addr 2) false true 90 None 0 false;
   mkChokePeer (peer_addr 3) true false 20 None 0 false;
   mkChokePeer (peer_addr 4) true false 30 (Some 5) 0 true].

Lemma choke_round_bounded_witness :
  exists m' sent,
    apply_choke (fun _ => 0%nat) (fun _ => 0%nat) leak_state.1 false leak_state.2 true (secs 72) =
      Some (m', leak_state.2, sent) /\ (size (unchoked_addrs m') <= 7)%nat.
Proof.
  assert (Hr : rtc ch_step (∅, 0) (leak_state.1, leak_state.2)).
  { rewrite <- surjective_pairing. apply leak_reach. }
  destruct (choke_round_bounded (fun _ => 0%nat) (fun _ => 0%nat) 0 leak_state.1 leak_state.2
    false true (secs 72) Hr) as (m' & sent & Ha & _ & Hb & _).
  assert (E : (OPTIMISTIC_INTERVAL <=? since (secs 72) leak_state.2) = false) by (vm_compute; reflexivity).
  rewrite E in Ha, Hb. exists m', sent. split; [exact Ha|exact Hb].
Defined.
