(* ===== verification/UtpHeader.v ===== *)
(** * uTP packets (crates/bit_rev/src/utp/header.rs)

    The version-1 header with its extension chain, and the selective-ack mask.
    Decoding and encoding are inverse to each other. *)

From S2P Require Import Prelude.

Definition HEADER_LEN : nat := 20.
Definition VERSION : u8 := 1.
Definition EXT_SELECTIVE_ACK : u8 := 1.
Definition MAX_EXTENSION_BYTES : nat := 64.

Inductive PacketType := Data | Fin | State | Reset | Syn.

#[export] Instance PacketType_eq_dec : EqDecision PacketType.
Proof. solve_decision. Defined.

Definition type_code (t : PacketType) : u8 :=
  match t with Data => 0 | Fin => 1 | State => 2 | Reset => 3 | Syn => 4 end.

Definition from_u4 (n : u8) : option PacketType :=
  if n =? 0 then Some Data else if n =? 1 then Some Fin else if n =? 2 then Some State
  else if n =? 3 then Some Reset else if n =? 4 then Some Syn else None.

Definition consumes_seq (t : PacketType) : bool :=
  match t with Data | Fin | Syn => true | State | Reset => false end.

Record Extension := mkExtension { ext_ty : u8; ext_data : bytes }.

Record Packet := mkPacket {
  p_ty : PacketType; p_version : u8; p_connection_id : u16; p_timestamp : u32;
  p_timestamp_diff : u32; p_wnd_size : u32; p_seq_nr : u16; p_ack_nr : u16;
  p_extensions : list Extension; p_payload : bytes }.

Inductive UtpDecodeError := TooShort | BadVersion | BadType | BadExtension.

Definition packet_new (ty : PacketType) (connection_id seq_nr ack_nr : u16) : Packet :=
  mkPacket ty VERSION connection_id 0 0 0 seq_nr ack_nr [] [].

Definition selective_ack (p : Packet) : option bytes :=
  ext_data ∘ snd <$> list_find (fun e => ext_ty e = EXT_SELECTIVE_ACK) (p_extensions p).

(** ** Encoding *)

Definition first_ty (exts : list Extension) : u8 :=
  match exts with e :: _ => ext_ty e | [] => 0 end.

Fixpoint encode_extensions (exts : list Extension) : bytes :=
  match exts with
  | [] => []
  | e :: rest =>
      [first_ty rest; wrap8 (Z.of_nat (length (ext_data e)))] ++ ext_data e ++
      encode_extensions rest
  end.

Definition packet_encode (p : Packet) : bytes :=
  [Z.lor (wrap8 (Z.shiftl (type_code (p_ty p)) 4)) (Z.land (p_version p) 15);
   first_ty (p_extensions p)] ++
  be_bytes 2 (p_connection_id p) ++ be_bytes 4 (p_timestamp p) ++
  be_bytes 4 (p_timestamp_diff p) ++ be_bytes 4 (p_wnd_size p) ++
  be_bytes 2 (p_seq_nr p) ++ be_bytes 2 (p_ack_nr p) ++
  encode_extensions (p_extensions p) ++ p_payload p.

(** ** Decoding *)

(** The loop over the extension chain; [None] is a panic or exhausted fuel. *)
Fixpoint decode_extensions (fuel : nat) (buf : bytes) (ty : u8) (offset ext_bytes : nat)
    (acc : list Extension) : option (result (list Extension * nat) UtpDecodeError) :=
  if ty =? 0 then Some (Ok (acc, offset))
  else
    match fuel with
    | O => None
    | S fuel =>
        if (length buf <? offset + 2)%nat then Some (Err BadExtension)
        else
          next ← buf !! offset;
          len ← buf !! (offset + 1)%nat;
          let len := Z.to_nat len in
          let offset := (offset + 2)%nat in
          if (length buf <? offset + len)%nat then Some (Err BadExtension)
          else
            let ext_bytes := (ext_bytes + (2 + len))%nat in
            if (MAX_EXTENSION_BYTES <? ext_bytes)%nat then Some (Err BadExtension)
            else
              data ← slice buf offset (offset + len);
              decode_extensions fuel buf next (offset + len) ext_bytes
                (acc ++ [mkExtension ty data])
    end.

Definition packet_decode (buf : bytes) : option (result Packet UtpDecodeError) :=
  if (length buf <? HEADER_LEN)%nat then Some (Err TooShort)
  else
    type_ver ← buf !! 0%nat;
    let version := Z.land type_ver 15 in
    if negb (version =? VERSION) then Some (Err BadVersion)
    else
      match from_u4 (Z.shiftr type_ver 4) with
      | None => Some (Err BadType)
      | Some ty =>
          ext ← buf !! 1%nat;
          cid ← slice buf 2 4; ts ← slice buf 4 8; td ← slice buf 8 12; wnd ← slice buf 12 16;
          seq ← slice buf 16 18; ack ← slice buf 18 20;
          r ← decode_extensions (length buf) buf ext HEADER_LEN 0 [];
          match r with
          | Err e => Some (Err e)
          | Ok (exts, offset) =>
              payload ← slice buf offset (length buf);
              Some (Ok (mkPacket ty version (of_be cid) (of_be ts) (of_be td) (of_be wnd)
                          (of_be seq) (of_be ack) exts payload))
          end
      end.

(** ** Selective acks

    Bit 0 of the mask is [ack_nr + 2]. *)

Definition sack_dist (ack_nr seq : u16) : u16 := wrap16 (seq - wrap16 (ack_nr + 2)).

(** [(mask.len() as u16).saturating_mul(8)]. *)
Definition sack_bits (mask : bytes) : u16 := Z.min U16_MAX (wrap16 (Z.of_nat (length mask)) * 8).

Definition sack_contains (mask : bytes) (ack_nr seq : u16) : bool :=
  let dist := sack_dist ack_nr seq in
  match mask !! Z.to_nat (dist / 8) with
  | None => false
  | Some b => (dist <? sack_bits mask) && negb (Z.land b (Z.shiftl 1 (dist mod 8)) =? 0)
  end.

Definition sack_set (mask : bytes) (ack_nr seq : u16) : bytes :=
  let dist := sack_dist ack_nr seq in
  if dist <? sack_bits mask then
    alter (fun slot => Z.lor slot (Z.shiftl 1 (dist mod 8))) (Z.to_nat (dist / 8)) mask
  else mask.

(** ** Well-formed packets *)

(** A proper extension, and the bytes an extension takes in the chain. *)
Definition ext_ok (e : Extension) : Prop :=
  1 <= ext_ty e <= U8_MAX /\ wf_bytes (ext_data e) /\ (length (ext_data e) <= 255)%nat.
Definition ext_bytes_of (exts : list Extension) : nat :=
  fold_right (fun e acc => (2 + length (ext_data e) + acc)%nat) 0%nat exts.

Record wf_packet (p : Packet) : Prop := {
  wp_version : p_version p = VERSION;
  wp_cid : is_u16 (p_connection_id p);
  wp_ts : is_u32 (p_timestamp p);
  wp_td : is_u32 (p_timestamp_diff p);
  wp_wnd : is_u32 (p_wnd_size p);
  wp_seq : is_u16 (p_seq_nr p);
  wp_ack : is_u16 (p_ack_nr p);
  wp_exts : Forall ext_ok (p_extensions p);
  wp_ext_bytes : (ext_bytes_of (p_extensions p) <= MAX_EXTENSION_BYTES)%nat;
  wp_payload : wf_bytes (p_payload p) }.

Lemma length_encode_extensions exts : length (encode_extensions exts) = ext_bytes_of exts.
Proof.
  induction exts as [|e exts IH]; [done|]. cbn [encode_extensions ext_bytes_of fold_right].
  fold (ext_bytes_of exts). rewrite !length_app, IH. simpl. lia.
Qed.

(** ** The extension loop *)

Lemma decode_extensions_encode exts fuel pre post eb acc :
  Forall ext_ok exts -> (eb + ext_bytes_of exts <= MAX_EXTENSION_BYTES)%nat ->
  (length exts <= fuel)%nat ->
  decode_extensions fuel (pre ++ encode_extensions exts ++ post) (first_ty exts) (length pre) eb acc =
  Some (Ok (acc ++ exts, (length pre + ext_bytes_of exts)%nat)).
Proof.
  intros Hok. revert fuel pre eb acc. induction Hok as [|e exts He Hok IH]; intros fuel pre eb acc Heb Hf.
  { destruct fuel; cbn; by rewrite app_nil_r, Nat.add_0_r. }
  destruct He as (Hty & Hwf & Hlen). destruct fuel as [|fuel]; [simpl in Hf; lia|].
  cbn [ext_bytes_of fold_right] in Heb. fold (ext_bytes_of exts) in Heb.
  cbn [decode_extensions first_ty encode_extensions]. rewrite (proj2 (Z.eqb_neq _ _)) by lia.
  rewrite wrap8_small by ranges. set (buf := pre ++ _).
  assert (Hl : length buf = (length pre + (2 + length (ext_data e) + ext_bytes_of exts) + length post)%nat).
  { unfold buf. rewrite !length_app, length_encode_extensions. simpl. lia. }
  rewrite (proj2 (Nat.ltb_ge _ _)) by lia.
  assert (H0 : buf !! length pre = Some (first_ty exts)) by (unfold buf; by rewrite lookup_app_r, Nat.sub_diag by lia).
  assert (H1 : buf !! (length pre + 1)%nat = Some (Z.of_nat (length (ext_data e)))).
  { unfold buf. rewrite lookup_app_r by lia. by replace (length pre + 1 - length pre)%nat with 1%nat by lia. }
  rewrite H0, H1. red_bind. rewrite Nat2Z.id, (proj2 (Nat.ltb_ge _ _)) by lia.
  rewrite (proj2 (Nat.ltb_ge MAX_EXTENSION_BYTES _)) by lia.
  set (hd := [first_ty exts; Z.of_nat (length (ext_data e))]) in *.
  assert (Hbuf : buf = (pre ++ hd) ++ ext_data e ++ encode_extensions exts ++ post).
  { unfold buf. by rewrite <- !app_assoc. }
  assert (Hph : length (pre ++ hd) = (length pre + 2)%nat) by (rewrite length_app; done).
  rewrite Hbuf, (slice_app (pre ++ hd) (ext_data e)) by lia. red_bind.
  rewrite app_assoc. replace (length pre + 2 + length (ext_data e))%nat
    with (length ((pre ++ hd) ++ ext_data e)) by (rewrite length_app; lia).
  rewrite IH by (cbn [length] in Hf; lia). rewrite length_app, Hph, <- app_assoc. simpl.
  do 3 f_equal; [by destruct e|lia].
Qed.

Lemma decode_extensions_sound fuel buf ty offset eb acc out off' :
  wf_bytes buf -> 0 <= ty <= U8_MAX -> (offset <= length buf)%nat ->
  decode_extensions fuel buf ty offset eb acc = Some (Ok (out, off')) ->
  exists exts, out = acc ++ exts /\ first_ty exts = ty /\ Forall ext_ok exts /\
    off' = (offset + ext_bytes_of exts)%nat /\ (off' <= length buf)%nat /\
    seg offset off' buf = encode_extensions exts /\
    (exts = [] \/ (eb + ext_bytes_of exts <= MAX_EXTENSION_BYTES)%nat).
Proof.
  intros Hwf. revert ty offset eb acc. induction fuel as [|fuel IH]; intros ty offset eb acc Hty Hoff;
    cbn [decode_extensions]; destruct (Z.eqb_spec ty 0) as [->|Hne].
  1,3: intros [= <- <-]; exists []; rewrite app_nil_r, seg_empty by lia; simpl; rewrite Nat.add_0_r; auto 10.
  { done. }
  destruct (Nat.ltb_spec (length buf) (offset + 2)); [done|].
  destruct (buf !! offset) as [next|] eqn:En; [|done]. red_bind.
  destruct (buf !! (offset + 1)%nat) as [len|] eqn:El; [|done]. red_bind.
  assert (Hby : forall i b, buf !! i = Some b -> is_u8 b) by by apply Forall_lookup.
  pose proof (Hby _ _ En) as Hn. pose proof (Hby _ _ El) as Hl.
  destruct (Nat.ltb_spec (length buf) (offset + 2 + Z.to_nat len)); [done|].
  destruct (Nat.ltb_spec MAX_EXTENSION_BYTES (eb + (2 + Z.to_nat len))); [done|].
  destruct (slice buf (offset + 2) (offset + 2 + Z.to_nat len)) as [data|] eqn:Ed; [|done]. red_bind.
  intros Hr. apply IH in Hr as (exts & -> & Hft & Hok & -> & Hle & Hseg & Hb); [|done|lia].
  pose proof (slice_length _ _ _ _ Ed) as Hdl.
  assert (Hdata : data = seg (offset + 2) (offset + 2 + Z.to_nat len) buf).
  { rewrite slice_seg in Ed by lia. by injection Ed. }
  exists (mkExtension ty data :: exts). cbn [ext_bytes_of fold_right ext_data] in *.
  fold (ext_bytes_of exts) in *. split_and!.
  - by rewrite <- app_assoc.
  - done.
  - constructor; [|done]. split; [simpl; lia|]. split; [by eapply slice_wf|simpl; ranges].
  - lia.
  - lia.
  - cbn [encode_extensions ext_data]. rewrite Hft.
    rewrite wrap8_small by (rewrite Hdl; ranges). rewrite Hdl.
    replace (Z.of_nat (offset + 2 + Z.to_nat len - (offset + 2))) with len by ranges.
    rewrite <- Hseg, Hdata.
    replace [next; len] with (seg offset (offset + 2) buf).
    + rewrite !seg_join by lia. f_equal.
    + unfold seg. rewrite (drop_S _ _ _ En), Nat.add_1_r in *. rewrite (drop_S _ _ _ El).
      by replace (offset + 2 - offset)%nat with 2%nat by lia.
  - right. destruct Hb as [->|Hb]; simpl in *; lia.
Qed.

Lemma decode_extensions_total fuel buf ty offset eb acc :
  wf_bytes buf -> (offset <= length buf)%nat -> (length buf < fuel + offset)%nat ->
  is_Some (decode_extensions fuel buf ty offset eb acc).
Proof.
  intros Hwf. revert ty offset eb acc. induction fuel as [|fuel IH]; intros ty offset eb acc Ho Hf; [lia|].
  cbn [decode_extensions]. destruct (ty =? 0); [by eexists|].
  destruct (Nat.ltb_spec (length buf) (offset + 2)); [by eexists|].
  destruct (lookup_lt_is_Some_2 buf offset) as [next En]; [lia|].
  destruct (lookup_lt_is_Some_2 buf (offset + 1)) as [len El]; [lia|]. rewrite En, El. red_bind.
  destruct (Nat.ltb_spec (length buf) (offset + 2 + Z.to_nat len)); [by eexists|].
  destruct (_ <? _)%nat; [by eexists|]. rewrite slice_seg by lia. red_bind. apply IH; lia.
Qed.

(** ** Headers *)

Lemma type_nibbles ty :
  let b := Z.lor (wrap8 (Z.shiftl (type_code ty) 4)) (Z.land VERSION 15) in
  is_u8 b /\ Z.land b 15 = VERSION /\ from_u4 (Z.shiftr b 4) = Some ty.
Proof. destruct ty; vm_compute; (split; [split; congruence|done]). Qed.

Lemma from_u4_inv n ty : from_u4 n = Some ty -> n = type_code ty.
Proof. unfold from_u4. repeat (case_cmp; [by intros [= <-]|]). done. Qed.

Lemma type_byte_inv b ty :
  is_u8 b -> Z.land b 15 = VERSION -> from_u4 (Z.shiftr b 4) = Some ty ->
  b = Z.lor (wrap8 (Z.shiftl (type_code ty) 4)) (Z.land VERSION 15).
Proof.
  intros Hb Hv Ht%from_u4_inv. change 15 with (Z.ones 4) in Hv. rewrite Z.land_ones in Hv by lia.
  rewrite Z.shiftr_div_pow2 in Ht by lia. change (2 ^ 4) with 16 in *.
  rewrite (Z.div_mod b 16), Hv, Ht by lia. by destruct ty.
Qed.

(** The fixed part of an encoded header. *)
Lemma header_slices (b0 b1 : u8) (cid ts td wnd seq ack rest : bytes) :
  length cid = 2%nat -> length ts = 4%nat -> length td = 4%nat -> length wnd = 4%nat ->
  length seq = 2%nat -> length ack = 2%nat ->
  let buf := [b0; b1] ++ cid ++ ts ++ td ++ wnd ++ seq ++ ack ++ rest in
  slice buf 2 4 = Some cid /\ slice buf 4 8 = Some ts /\ slice buf 8 12 = Some td /\
  slice buf 12 16 = Some wnd /\ slice buf 16 18 = Some seq /\ slice buf 18 20 = Some ack.
Proof.
  intros H1 H2 H3 H4 H5 H6. cbn zeta.
  destruct cid as [|? [|? []]]; try done. destruct ts as [|? [|? [|? [|? []]]]]; try done.
  destruct td as [|? [|? [|? [|? []]]]]; try done. destruct wnd as [|? [|? [|? [|? []]]]]; try done.
  destruct seq as [|? [|? []]]; try done. destruct ack as [|? [|? []]]; done.
Qed.

(** A uTP packet survives the wire: decoding the encoding of any well-formed
    packet (version 1, at most 64 bytes of extensions) gives back the packet, its
    extension chain and its payload. *)
Theorem packet_roundtrip p : wf_packet p -> packet_decode (packet_encode p) = Some (Ok p).
Proof.
  intros [Hv Hc Ht Htd Hw Hs Ha He Heb Hp]. unfold packet_decode.
  destruct (header_slices (Z.lor (wrap8 (Z.shiftl (type_code (p_ty p)) 4)) (Z.land (p_version p) 15))
    (first_ty (p_extensions p)) (be_bytes 2 (p_connection_id p)) (be_bytes 4 (p_timestamp p))
    (be_bytes 4 (p_timestamp_diff p)) (be_bytes 4 (p_wnd_size p)) (be_bytes 2 (p_seq_nr p))
    (be_bytes 2 (p_ack_nr p)) (encode_extensions (p_extensions p) ++ p_payload p))
    as (S1 & S2 & S3 & S4 & S5 & S6); try apply length_be_bytes.
  fold (packet_encode p) in S1, S2, S3, S4, S5, S6.
  set (pre := [Z.lor (wrap8 (Z.shiftl (type_code (p_ty p)) 4)) (Z.land (p_version p) 15);
    first_ty (p_extensions p)] ++ be_bytes 2 (p_connection_id p) ++ be_bytes 4 (p_timestamp p) ++
    be_bytes 4 (p_timestamp_diff p) ++ be_bytes 4 (p_wnd_size p) ++ be_bytes 2 (p_seq_nr p) ++
    be_bytes 2 (p_ack_nr p)).
  assert (Henc : packet_encode p = pre ++ encode_extensions (p_extensions p) ++ p_payload p).
  { unfold packet_encode, pre. by rewrite <- !app_assoc. }
  assert (Hpre : length pre = HEADER_LEN).
  { unfold pre. rewrite !length_app, !length_be_bytes. done. }
  assert (Hlen : length (packet_encode p) =
    (HEADER_LEN + ext_bytes_of (p_extensions p) + length (p_payload p))%nat).
  { rewrite Henc, !length_app, length_encode_extensions, Hpre. lia. }
  rewrite (proj2 (Nat.ltb_ge _ _)) by lia.
  change (packet_encode p !! 0%nat) with
    (Some (Z.lor (wrap8 (Z.shiftl (type_code (p_ty p)) 4)) (Z.land (p_version p) 15))).
  change (packet_encode p !! 1%nat) with (Some (first_ty (p_extensions p))). red_bind.
  rewrite Hv. destruct (type_nibbles (p_ty p)) as (_ & -> & ->). rewrite Z.eqb_refl. cbn [negb].
  rewrite S1, S2, S3, S4, S5, S6. red_bind. rewrite Henc at 2. rewrite <- Hpre.
  rewrite decode_extensions_encode; [|done|simpl; lia|].
  - red_bind. rewrite Hpre, Henc, app_assoc.
    rewrite slice_suffix by (rewrite ?length_app, ?length_encode_extensions; lia). red_bind.
    rewrite !of_be_bytes_u16, !of_be_bytes_u32 by done. rewrite <- Hv. by destruct p.
  - rewrite Hlen. clear. induction (p_extensions p) as [|e l IH]; simpl in *; lia.
Qed.

Definition example_packet : Packet :=
  mkPacket Data 1 7 1000 20 65535 3 2 [mkExtension 1 [0; 0; 0; 1]; mkExtension 2 []] [104; 105].

Lemma example_packet_wf : wf_packet example_packet.
Proof.
  split; simpl; try done; try ranges.
  - repeat constructor; simpl; ranges || lia.
  - unfold MAX_EXTENSION_BYTES. lia.
  - repeat constructor; ranges.
Qed.

(** Decoding a uTP datagram never panics, and what it accepts is canonical:
    the packet is well formed (at most 64 bytes of extensions) and encoding it
    gives exactly the received bytes. *)
Theorem packet_decode_canonical buf :
  wf_bytes buf ->
  exists r, packet_decode buf = Some r /\
    match r with Ok p => wf_packet p /\ packet_encode p = buf | Err _ => True end.
Proof.
  intros Hwf. unfold packet_decode. destruct (Nat.ltb_spec (length buf) HEADER_LEN) as [|Hlen]; [by eexists|].
  unfold HEADER_LEN in Hlen.
  destruct (lookup_lt_is_Some_2 buf 0) as [b0 E0]; [lia|].
  destruct (lookup_lt_is_Some_2 buf 1) as [b1 E1]; [lia|]. rewrite E0, E1. red_bind.
  destruct (Z.eqb_spec (Z.land b0 15) VERSION) as [Hver|]; [|by eexists]. cbn [negb].
  destruct (from_u4 (Z.shiftr b0 4)) as [ty|] eqn:Ety; [|by eexists].
  assert (Hby : forall i b, buf !! i = Some b -> is_u8 b) by by apply Forall_lookup.
  rewrite !slice_seg by lia. red_bind.
  destruct (decode_extensions_total (length buf) buf b1 HEADER_LEN 0 []) as [r Er];
    [done|unfold HEADER_LEN; lia|unfold HEADER_LEN; lia|]. rewrite Er. red_bind.
  destruct r as [[exts off]|]; [|by eexists].
  apply decode_extensions_sound in Er as (exts' & -> & Hft & Hok & Hoff & Hle & Hseg & Hb);
    [|done|apply (Hby _ _ E1)|unfold HEADER_LEN; lia].
  rewrite slice_seg by lia. red_bind. eexists. split; [done|]. cbn [app].
  assert (Hsl : forall a b, wf_bytes (seg a b buf)).
  { intros a b. unfold seg. by apply Forall_take, Forall_drop. }
  assert (Hu : forall a b n, (b - a = n)%nat -> (b <= length buf)%nat ->
    be_bytes n (of_be (seg a b buf)) = seg a b buf /\ 0 <= of_be (seg a b buf) < 256 ^ Z.of_nat n).
  { intros a b n Hn Hb'. assert (length (seg a b buf) = n) as <- by (rewrite length_seg; lia).
    split; [by apply be_bytes_of_be|by apply of_be_range]. }
  destruct (Hu 2 4 2)%nat as [B1 R1]; [lia|lia|]. destruct (Hu 4 8 4)%nat as [B2 R2]; [lia|lia|].
  destruct (Hu 8 12 4)%nat as [B3 R3]; [lia|lia|]. destruct (Hu 12 16 4)%nat as [B4 R4]; [lia|lia|].
  destruct (Hu 16 18 2)%nat as [B5 R5]; [lia|lia|]. destruct (Hu 18 20 2)%nat as [B6 R6]; [lia|lia|].
  split.
  - split; cbn [p_version p_connection_id p_timestamp p_timestamp_diff p_wnd_size p_seq_nr p_ack_nr
      p_extensions p_payload]; try done; try ranges.
    destruct Hb as [->|Hb]; [simpl; lia|simpl in Hb; lia].
  - unfold packet_encode. cbn [p_ty p_version p_connection_id p_timestamp p_timestamp_diff p_wnd_size
      p_seq_nr p_ack_nr p_extensions p_payload].
    rewrite B1, B2, B3, B4, B5, B6, Hver, <- (type_byte_inv b0 ty) by (done || apply (Hby _ _ E0)).
    rewrite Hft, <- Hseg. replace [b0; b1] with (seg 0 2 buf).
    + rewrite Hoff in *. unfold HEADER_LEN in *. rewrite !seg_join by lia.
      unfold seg. by rewrite drop_0, Nat.sub_0_r, firstn_all.
    + unfold seg. rewrite (drop_S _ _ _ E0), (drop_S _ _ _ E1). done.
Qed.

(** ** Selective-ack masks *)

Lemma sack_dist_range ack seq : is_u16 (sack_dist ack seq).
Proof. apply wrap16_range. Qed.

(** Testing one bit with a shifted 1. *)
Lemma land_shift_testbit b k : 0 <= k -> negb (Z.land b (Z.shiftl 1 k) =? 0) = Z.testbit b k.
Proof.
  intros Hk. rewrite Z.shiftl_1_l. destruct (Z.testbit b k) eqn:E.
  - apply negb_true_iff, Z.eqb_neq. intros H. apply (f_equal (fun z => Z.testbit z k)) in H.
    rewrite Z.land_spec, E, Z.pow2_bits_true, Z.bits_0 in H by lia. done.
  - apply negb_false_iff, Z.eqb_eq, Z.bits_inj'. intros j Hj. rewrite Z.land_spec, Z.bits_0.
    destruct (decide (j = k)) as [->|]; [by rewrite E|]. by rewrite Z.pow2_bits_false, andb_false_r by lia.
Qed.

(** Setting a sequence number in the mask makes exactly that number present. *)
Lemma sack_contains_set mask ack s s' :
  sack_contains (sack_set mask ack s) ack s' =
  ((sack_dist ack s' =? sack_dist ack s) && (sack_dist ack s <? sack_bits mask)
   && bool_decide (is_Some (mask !! Z.to_nat (sack_dist ack s / 8)))
   || sack_contains mask ack s')%bool.
Proof.
  unfold sack_set. pose proof (sack_dist_range ack s) as Hd. pose proof (sack_dist_range ack s') as Hd'.
  set (d := sack_dist ack s) in *. set (d' := sack_dist ack s') in *.
  destruct (Z.ltb_spec d (sack_bits mask)) as [Hlt|Hge]; [|by rewrite andb_false_r].
  rewrite andb_true_r. unfold sack_contains. fold d'.
  set (m' := alter _ _ mask).
  assert (Hbits : sack_bits m' = sack_bits mask) by (unfold sack_bits, m'; by rewrite length_alter).
  rewrite Hbits. unfold m'. destruct (decide (Z.to_nat (d / 8) = Z.to_nat (d' / 8))) as [E|E].
  - rewrite <- E, list_lookup_alter_eq. destruct (mask !! Z.to_nat (d / 8)) as [b|]; [|by rewrite andb_false_r].
    rewrite bool_decide_true by by eexists. cbn [fmap option_fmap option_map].
    pose proof (Z.mod_pos_bound d 8). pose proof (Z.mod_pos_bound d' 8).
    pose proof (Z.div_mod d 8). pose proof (Z.div_mod d' 8).
    assert (d / 8 = d' / 8) by (apply Z2Nat.inj; [apply Z.div_pos; ranges|apply Z.div_pos; ranges|done]).
    rewrite !land_shift_testbit, Z.lor_spec, Z.shiftl_1_l, Z.pow2_bits_eqb, andb_true_r by lia.
    destruct (Z.eqb_spec d' d) as [->|Hne].
    + rewrite Z.eqb_refl, orb_true_r. by rewrite (proj2 (Z.ltb_lt _ _)) by lia.
    + rewrite (proj2 (Z.eqb_neq (d mod 8) (d' mod 8))) by lia. by rewrite orb_false_r.
  - rewrite list_lookup_alter_ne by done.
    rewrite (proj2 (Z.eqb_neq d' d)) by (intros ->; done). done.
Qed.
