(* ===== verification/UtpDelay.v ===== *)
(** * uTP congestion control and timers (crates/bit_rev/src/utp/delay.rs)

    The base-delay history, the LEDBAT window and the RTT estimator, with the
    bounds that keep the window and the retransmission timeout sane.  All
    divisions on signed numbers truncate towards zero, as in the source. *)

From S2P Require Import Prelude.

Definition TARGET_DELAY_US : u32 := 100000.
Definition MAX_CWND_INCREASE_BYTES_PER_RTT : u32 := 3000.
Definition BASE_DELAY_BUCKETS : nat := 13.
Definition BASE_DELAY_BUCKET : Duration := secs 60.
Definition MIN_RTO : Duration := millis 500.
Definition MAX_RTO : Duration := secs 60.
Definition DEFAULT_RTO : Duration := millis 1000.

(** ** Base delay *)

Record BaseDelay := mkBaseDelay { bd_buckets : list u32; bd_current : nat; bd_last_rotate : Instant }.

Definition base_delay_new (now : Instant) : BaseDelay :=
  mkBaseDelay (replicate BASE_DELAY_BUCKETS U32_MAX) 0 now.

(** One round of the rotation loop. *)
Definition rotate (b : BaseDelay) : BaseDelay :=
  let current := ((bd_current b + 1) mod BASE_DELAY_BUCKETS)%nat in
  mkBaseDelay (<[current := U32_MAX]> (bd_buckets b)) current (bd_last_rotate b + BASE_DELAY_BUCKET).

(** The loop runs once per full minute since the last rotation. *)
Definition rotations (b : BaseDelay) (now : Instant) : nat :=
  Z.to_nat (since now (bd_last_rotate b) / BASE_DELAY_BUCKET).

Definition on_sample (b : BaseDelay) (delay_us : u32) (now : Instant) : BaseDelay :=
  let b := Nat.iter (rotations b now) rotate b in
  mkBaseDelay (alter (fun cur => if delay_us <? cur then delay_us else cur) (bd_current b)
                 (bd_buckets b)) (bd_current b) (bd_last_rotate b).

Definition base_min (b : BaseDelay) : u32 :=
  match bd_buckets b with [] => 0 | x :: rest => fold_left Z.min rest x end.

Definition queuing_delay (b : BaseDelay) (our_delay_us : u32) : u32 :=
  let base := base_min b in
  if base =? U32_MAX then 0 else sat_sub our_delay_us base.

(** ** LEDBAT *)

Record Ledbat := mkLedbat { cwnd : u32; min_cwnd : u32; max_cwnd : u32 }.

Definition ledbat_new (mss : u32) : Ledbat :=
  mkLedbat (Z.max (Z.min U32_MAX (mss * 2)) mss) (Z.max mss 1) (1024 * 1024).

(** [i64::clamp]; the source's assertion [min <= max] is part of [wf_ledbat]. *)
Definition clamp (x lo hi : Z) : Z := Z.max lo (Z.min hi x).

Definition on_ack (l : Ledbat) (bytes_acked queuing_delay_us : u32) : Ledbat :=
  if bytes_acked =? 0 then l
  else
    let off_target := TARGET_DELAY_US - queuing_delay_us in
    let scaled := Z.quot (wrap_i64 (MAX_CWND_INCREASE_BYTES_PER_RTT * off_target)) TARGET_DELAY_US in
    let increment := Z.quot (wrap_i64 (scaled * bytes_acked)) (Z.max (cwnd l) 1) in
    let next := wrap_i64 (cwnd l + increment) in
    mkLedbat (wrap32 (clamp next (min_cwnd l) (max_cwnd l))) (min_cwnd l) (max_cwnd l).

Definition on_loss (l : Ledbat) : Ledbat :=
  mkLedbat (Z.max (cwnd l / 2) (min_cwnd l)) (min_cwnd l) (max_cwnd l).

Definition clamp_to_peer (l : Ledbat) (peer_wnd : u32) : u32 :=
  if peer_wnd =? 0 then min_cwnd l else Z.max (Z.min (cwnd l) peer_wnd) (min_cwnd l).

(** ** RTT estimation *)

Record RttEstimator := mkRtt { srtt : option Duration; rttvar : Duration; rto : Duration }.

Definition rtt_new : RttEstimator := mkRtt None 0 DEFAULT_RTO.

Definition rtt_update (r : RttEstimator) (sample : Duration) : RttEstimator :=
  let '(s, v) :=
    match srtt r with
    | None => (sample, sample / 2)
    | Some s => ((s * 7 + sample) / 8, (rttvar r * 3 + Z.abs (s - sample)) / 4)
    end in
  mkRtt (Some s) v (clamp (s + v * 4) MIN_RTO MAX_RTO).

Definition rtt_backoff (r : RttEstimator) : RttEstimator :=
  mkRtt (srtt r) (rttvar r) (Z.min (rto r * 2) MAX_RTO).

(** ** Bounds *)

Definition wf_ledbat (l : Ledbat) : Prop :=
  1 <= min_cwnd l /\ min_cwnd l <= cwnd l <= max_cwnd l /\ max_cwnd l <= 1024 * 1024.

Definition wf_rtt (r : RttEstimator) : Prop := MIN_RTO <= rto r <= MAX_RTO.

Lemma ledbat_new_wf mss : 1 <= mss <= 512 * 1024 -> wf_ledbat (ledbat_new mss).
Proof. intros. unfold wf_ledbat, ledbat_new. simpl. ranges. Qed.

Lemma clamp_range x lo hi : lo <= hi -> lo <= clamp x lo hi <= hi.
Proof. unfold clamp. lia. Qed.

Lemma on_ack_range l n q : wf_ledbat l -> wf_ledbat (on_ack l n q).
Proof.
  intros Hwf. pose proof Hwf as (H1 & H2 & H3). unfold on_ack. destruct (n =? 0); [done|].
  cbv zeta. set (next := wrap_i64 (cwnd l + _)).
  pose proof (clamp_range next (min_cwnd l) (max_cwnd l) ltac:(lia)).
  unfold wf_ledbat. cbn [cwnd min_cwnd max_cwnd]. rewrite wrap32_small by ranges. lia.
Qed.

Lemma on_loss_range l : wf_ledbat l -> wf_ledbat (on_loss l).
Proof.
  intros (H1 & H2 & H3). unfold wf_ledbat, on_loss. cbn [cwnd min_cwnd max_cwnd].
  pose proof (Z.div_le_upper_bound (cwnd l) 2 (cwnd l)). lia.
Qed.

Lemma rtt_update_range r s : wf_rtt (rtt_update r s).
Proof.
  unfold rtt_update. destruct (match srtt r with None => _ | Some _ => _ end) as [a b].
  apply clamp_range. vm_compute. congruence.
Qed.

Lemma rtt_backoff_range r : wf_rtt r -> wf_rtt (rtt_backoff r).
Proof. unfold wf_rtt, rtt_backoff, MIN_RTO, MAX_RTO, millis, secs. simpl. lia. Qed.

(** No step of the window update overflows [i64], so the wraps are the identity. *)
Lemma on_ack_no_overflow l n q :
  wf_ledbat l -> is_u32 n -> is_u32 q -> n <> 0 ->
  cwnd (on_ack l n q) =
  clamp (cwnd l + Z.quot (Z.quot (3000 * (100000 - q)) 100000 * n) (cwnd l)) (min_cwnd l) (max_cwnd l).
Proof.
  intros (H1 & H2 & H3) Hn Hq Hz. unfold on_ack. rewrite (proj2 (Z.eqb_neq _ _)) by done. cbv zeta.
  unfold MAX_CWND_INCREASE_BYTES_PER_RTT, TARGET_DELAY_US. cbn [cwnd].
  rewrite (wrap_i64_small (3000 * _)) by ranges. rewrite Z.max_l by lia.
  set (s := Z.quot (3000 * (100000 - q)) 100000).
  assert (Hs : -128849019 <= s <= 3000).
  { unfold s. pose proof (Z.quot_le_mono (3000 * (100000 - q)) (3000 * 100000) 100000 ltac:(lia) ltac:(ranges)).
    pose proof (Z.quot_le_mono (3000 * (100000 - U32_MAX)) (3000 * (100000 - q)) 100000 ltac:(lia) ltac:(ranges)) as Hlo.
    vm_compute (3000 * (100000 - U32_MAX) ÷ 100000) in Hlo. vm_compute (3000 * 100000 ÷ 100000) in H. lia. }
  assert (Hsn : - 600000000000000000 <= s * n <= 12884901885000) by (unfold is_u32, U32_MAX in Hn; nia).
  rewrite (wrap_i64_small (s * n)) by ranges.
  assert (Hqt : Z.abs (Z.quot (s * n) (cwnd l)) <= Z.abs (s * n)).
  { rewrite <- Z.quot_abs by lia. destruct (decide (s * n = 0)) as [->|]; [by rewrite Z.quot_0_l by lia|].
    rewrite (Z.abs_eq (cwnd l)) by lia. rewrite Z.quot_div_nonneg by lia.
    apply Z.div_le_upper_bound; nia. }
  rewrite wrap_i64_small by ranges. rewrite wrap32_small; [done|].
  pose proof (clamp_range (cwnd l + Z.quot (s * n) (cwnd l)) (min_cwnd l) (max_cwnd l) ltac:(lia)). ranges.
Qed.
