(* ===== verification/UtpConn.v ===== *)
(** * uTP connections (crates/bit_rev/src/utp/conn.rs)

    The per-connection state machine: the handshake states, the receive half
    (in-order delivery with a reorder buffer), the send half (window, in-flight
    queue, retransmission, fast retransmit) and the timer.  The fields of the
    source's [Conn] are grouped into the two halves; the wakers carry no data.
    [now] is the instant passed to an operation, [clock] a later read of the
    clock inside it, [ts] the microsecond timestamp of the packets it builds. *)

From S2P Require Import Prelude UtpHeader UtpDelay.

Definition MSS : nat := 1372.
Definition MAX_UDP : nat := 1400.
Definition RECV_BUF_MAX : usize := 1024 * 1024.
Definition SEND_BUF_MAX : usize := 1024 * 1024.
Definition REORDER_MAX : Z := 256.
Definition MAX_RETRANSMITS : u32 := 10.
Definition IDLE_TIMEOUT : Duration := secs 60.
Definition KEEPALIVE : Duration := secs 15.

(** ** State *)

Inductive ConnState := SynSent | SynRecv | Connected | Closed | WasReset.
#[export] Instance ConnState_eq_dec : EqDecision ConnState.
Proof. solve_decision. Defined.

Inductive ErrorKind := ConnectionReset | TimedOut.

Record InFlight := mkInFlight {
  if_seq : u16; if_payload : bytes; if_ty : PacketType; if_sent_at : Instant;
  if_transmits : u32; if_sacked : bool }.

Inductive RecvSlot := SlotData (data : bytes) | SlotFin.

Record RecvHalf := mkRecvHalf {
  ack_nr : u16;
  ack_valid : bool;
  recv_buf : bytes;
  reorder : gmap Z RecvSlot;
  need_ack : bool;
  read_eof : bool }.

Record SendHalf := mkSendHalf {
  next_seq : u16;
  peer_wnd : u32;
  send_buf : bytes;
  in_flight : list InFlight;
  in_flight_bytes : usize;
  rtt : RttEstimator;
  cc : Ledbat;
  last_queuing : u32;
  last_ack : u16;
  dup_acks : u8;
  write_shutdown : bool;
  fin_sent : bool;
  fin_seq : u16;
  fin_acked : bool }.

Record Conn := mkConn {
  remote : SocketAddr;
  recv_id : u16;
  send_id : u16;
  cstate : ConnState;
  rcv : RecvHalf;
  snd_ : SendHalf;
  last_our_delay : u32;
  their_timestamp : u32;
  have_their_ts : bool;
  last_recv : Instant;
  stream_dropped : bool;
  want_reset : bool;
  error : option ErrorKind;
  retransmits : u64;
  packets_sent : u64;
  packets_recv : u64 }.

(** Field updates. *)
Definition set_ack_nr (v : u16) (r : RecvHalf) : RecvHalf :=
mkRecvHalf v (ack_valid r) (recv_buf r) (reorder r) (need_ack r) (read_eof r).
Definition set_ack_valid (v : bool) (r : RecvHalf) : RecvHalf :=
mkRecvHalf (ack_nr r) v (recv_buf r) (reorder r) (need_ack r) (read_eof r).
Definition set_recv_buf (v : bytes) (r : RecvHalf) : RecvHalf :=
mkRecvHalf (ack_nr r) (ack_valid r) v (reorder r) (need_ack r) (read_eof r).
Definition set_reorder (v : gmap Z RecvSlot) (r : RecvHalf) : RecvHalf :=
mkRecvHalf (ack_nr r) (ack_valid r) (recv_buf r) v (need_ack r) (read_eof r).
Definition set_need_ack (v : bool) (r : RecvHalf) : RecvHalf :=
mkRecvHalf (ack_nr r) (ack_valid r) (recv_buf r) (reorder r) v (read_eof r).
Definition set_read_eof (v : bool) (r : RecvHalf) : RecvHalf :=
mkRecvHalf (ack_nr r) (ack_valid r) (recv_buf r) (reorder r) (need_ack r) v.
Definition set_next_seq (v : u16) (r : SendHalf) : SendHalf :=
mkSendHalf v (peer_wnd r) (send_buf r) (in_flight r) (in_flight_bytes r) (rtt r) (cc r)
    (last_queuing r) (last_ack r) (dup_acks r) (write_shutdown r) (fin_sent r) (fin_seq r)
    (fin_acked r).
Definition set_peer_wnd (v : u32) (r : SendHalf) : SendHalf :=
mkSendHalf (next_seq r) v (send_buf r) (in_flight r) (in_flight_bytes r) (rtt r) (cc r)
    (last_queuing r) (last_ack r) (dup_acks r) (write_shutdown r) (fin_sent r) (fin_seq r)
    (fin_acked r).
Definition set_send_buf (v : bytes) (r : SendHalf) : SendHalf :=
mkSendHalf (next_seq r) (peer_wnd r) v (in_flight r) (in_flight_bytes r) (rtt r) (cc r)
    (last_queuing r) (last_ack r) (dup_acks r) (write_shutdown r) (fin_sent r) (fin_seq r)
    (fin_acked r).
Definition set_in_flight (v : list InFlight) (r : SendHalf) : SendHalf :=
mkSendHalf (next_seq r) (peer_wnd r) (send_buf r) v (in_flight_bytes r) (rtt r) (cc r)
    (last_queuing r) (last_ack r) (dup_acks r) (write_shutdown r) (fin_sent r) (fin_seq r)
    (fin_acked r).
Definition set_in_flight_bytes (v : usize) (r : SendHalf) : SendHalf :=
mkSendHalf (next_seq r) (peer_wnd r) (send_buf r) (in_flight r) v (rtt r) (cc r) (last_queuing
    r) (last_ack r) (dup_acks r) (write_shutdown r) (fin_sent r) (fin_seq r) (fin_acked r).
Definition set_rtt (v : RttEstimator) (r : SendHalf) : SendHalf :=
mkSendHalf (next_seq r) (peer_wnd r) (send_buf r) (in_flight r) (in_flight_bytes r) v (cc r)
    (last_queuing r) (last_ack r) (dup_acks r) (write_shutdown r) (fin_sent r) (fin_seq r)
    (fin_acked r).
Definition set_cc (v : Ledbat) (r : SendHalf) : SendHalf :=
mkSendHalf (next_seq r) (peer_wnd r) (send_buf r) (in_flight r) (in_flight_bytes r) (rtt r) v
    (last_queuing r) (last_ack r) (dup_acks r) (write_shutdown r) (fin_sent r) (fin_seq r)
    (fin_acked r).
Definition set_last_queuing (v : u32) (r : SendHalf) : SendHalf :=
mkSendHalf (next_seq r) (peer_wnd r) (send_buf r) (in_flight r) (in_flight_bytes r) (rtt r) (cc
    r) v (last_ack r) (dup_acks r) (write_shutdown r) (fin_sent r) (fin_seq r) (fin_acked r).
Definition set_last_ack (v : u16) (r : SendHalf) : SendHalf :=
mkSendHalf (next_seq r) (peer_wnd r) (send_buf r) (in_flight r) (in_flight_bytes r) (rtt r) (cc
    r) (last_queuing r) v (dup_acks r) (write_shutdown r) (fin_sent r) (fin_seq r) (fin_acked
    r).
Definition set_dup_acks (v : u8) (r : SendHalf) : SendHalf :=
mkSendHalf (next_seq r) (peer_wnd r) (send_buf r) (in_flight r) (in_flight_bytes r) (rtt r) (cc
    r) (last_queuing r) (last_ack r) v (write_shutdown r) (fin_sent r) (fin_seq r) (fin_acked
    r).
Definition set_write_shutdown (v : bool) (r : SendHalf) : SendHalf :=
mkSendHalf (next_seq r) (peer_wnd r) (send_buf r) (in_flight r) (in_flight_bytes r) (rtt r) (cc
    r) (last_queuing r) (last_ack r) (dup_acks r) v (fin_sent r) (fin_seq r) (fin_acked r).
Definition set_fin_sent (v : bool) (r : SendHalf) : SendHalf :=
mkSendHalf (next_seq r) (peer_wnd r) (send_buf r) (in_flight r) (in_flight_bytes r) (rtt r) (cc
    r) (last_queuing r) (last_ack r) (dup_acks r) (write_shutdown r) v (fin_seq r) (fin_acked
    r).
Definition set_fin_seq (v : u16) (r : SendHalf) : SendHalf :=
mkSendHalf (next_seq r) (peer_wnd r) (send_buf r) (in_flight r) (in_flight_bytes r) (rtt r) (cc
    r) (last_queuing r) (last_ack r) (dup_acks r) (write_shutdown r) (fin_sent r) v (fin_acked
    r).
Definition set_fin_acked (v : bool) (r : SendHalf) : SendHalf :=
mkSendHalf (next_seq r) (peer_wnd r) (send_buf r) (in_flight r) (in_flight_bytes r) (rtt r) (cc
    r) (last_queuing r) (last_ack r) (dup_acks r) (write_shutdown r) (fin_sent r) (fin_seq r) v.
Definition set_cstate (v : ConnState) (r : Conn) : Conn :=
mkConn (remote r) (recv_id r) (send_id r) v (rcv r) (snd_ r) (last_our_delay r) (their_timestamp
    r) (have_their_ts r) (last_recv r) (stream_dropped r) (want_reset r) (error r) (retransmits
    r) (packets_sent r) (packets_recv r).
Definition set_rcv (v : RecvHalf) (r : Conn) : Conn :=
mkConn (remote r) (recv_id r) (send_id r) (cstate r) v (snd_ r) (last_our_delay r)
    (their_timestamp r) (have_their_ts r) (last_recv r) (stream_dropped r) (want_reset r) (error
    r) (retransmits r) (packets_sent r) (packets_recv r).
Definition set_snd_ (v : SendHalf) (r : Conn) : Conn :=
mkConn (remote r) (recv_id r) (send_id r) (cstate r) (rcv r) v (last_our_delay r)
    (their_timestamp r) (have_their_ts r) (last_recv r) (stream_dropped r) (want_reset r) (error
    r) (retransmits r) (packets_sent r) (packets_recv r).
Definition set_last_our_delay (v : u32) (r : Conn) : Conn :=
mkConn (remote r) (recv_id r) (send_id r) (cstate r) (rcv r) (snd_ r) v (their_timestamp r)
    (have_their_ts r) (last_recv r) (stream_dropped r) (want_reset r) (error r) (retransmits r)
    (packets_sent r) (packets_recv r).
Definition set_their_timestamp (v : u32) (r : Conn) : Conn :=
mkConn (remote r) (recv_id r) (send_id r) (cstate r) (rcv r) (snd_ r) (last_our_delay r) v
    (have_their_ts r) (last_recv r) (stream_dropped r) (want_reset r) (error r) (retransmits r)
    (packets_sent r) (packets_recv r).
Definition set_have_their_ts (v : bool) (r : Conn) : Conn :=
mkConn (remote r) (recv_id r) (send_id r) (cstate r) (rcv r) (snd_ r) (last_our_delay r)
    (their_timestamp r) v (last_recv r) (stream_dropped r) (want_reset r) (error r) (retransmits
    r) (packets_sent r) (packets_recv r).
Definition set_last_recv (v : Instant) (r : Conn) : Conn :=
mkConn (remote r) (recv_id r) (send_id r) (cstate r) (rcv r) (snd_ r) (last_our_delay r)
    (their_timestamp r) (have_their_ts r) v (stream_dropped r) (want_reset r) (error r)
    (retransmits r) (packets_sent r) (packets_recv r).
Definition set_stream_dropped (v : bool) (r : Conn) : Conn :=
mkConn (remote r) (recv_id r) (send_id r) (cstate r) (rcv r) (snd_ r) (last_our_delay r)
    (their_timestamp r) (have_their_ts r) (last_recv r) v (want_reset r) (error r) (retransmits
    r) (packets_sent r) (packets_recv r).
Definition set_want_reset (v : bool) (r : Conn) : Conn :=
mkConn (remote r) (recv_id r) (send_id r) (cstate r) (rcv r) (snd_ r) (last_our_delay r)
    (their_timestamp r) (have_their_ts r) (last_recv r) (stream_dropped r) v (error r)
    (retransmits r) (packets_sent r) (packets_recv r).
Definition set_error (v : option ErrorKind) (r : Conn) : Conn :=
mkConn (remote r) (recv_id r) (send_id r) (cstate r) (rcv r) (snd_ r) (last_our_delay r)
    (their_timestamp r) (have_their_ts r) (last_recv r) (stream_dropped r) (want_reset r) v
    (retransmits r) (packets_sent r) (packets_recv r).
Definition set_retransmits (v : u64) (r : Conn) : Conn :=
mkConn (remote r) (recv_id r) (send_id r) (cstate r) (rcv r) (snd_ r) (last_our_delay r)
    (their_timestamp r) (have_their_ts r) (last_recv r) (stream_dropped r) (want_reset r) (error
    r) v (packets_sent r) (packets_recv r).
Definition set_packets_sent (v : u64) (r : Conn) : Conn :=
mkConn (remote r) (recv_id r) (send_id r) (cstate r) (rcv r) (snd_ r) (last_our_delay r)
    (their_timestamp r) (have_their_ts r) (last_recv r) (stream_dropped r) (want_reset r) (error
    r) (retransmits r) v (packets_recv r).
Definition set_packets_recv (v : u64) (r : Conn) : Conn :=
mkConn (remote r) (recv_id r) (send_id r) (cstate r) (rcv r) (snd_ r) (last_our_delay r)
    (their_timestamp r) (have_their_ts r) (last_recv r) (stream_dropped r) (want_reset r) (error
    r) (retransmits r) (packets_sent r) v.

Definition on_rcv (f : RecvHalf -> RecvHalf) (c : Conn) : Conn := set_rcv (f (rcv c)) c.
Definition on_snd (f : SendHalf -> SendHalf) (c : Conn) : Conn := set_snd_ (f (snd_ c)) c.

(** ** Construction *)

Definition conn_new (remote : SocketAddr) (recv_id send_id iss : u16) (now : Instant) : Conn :=
  mkConn remote recv_id send_id SynSent
    (mkRecvHalf 0 false [] ∅ false false)
    (mkSendHalf iss U32_MAX [] [] 0 rtt_new (ledbat_new (Z.of_nat MSS)) 0 0 0 false false 0 false)
    0 0 false now false false None 0 0 0.

Definition initiator := conn_new.

Definition acceptor (remote : SocketAddr) (recv_id send_id iss syn_seq : u16) (now : Instant) : Conn :=
  let c := conn_new remote recv_id send_id iss now in
  set_cstate SynRecv
    (on_rcv (fun r => set_need_ack true (set_ack_valid true (set_ack_nr syn_seq r))) c).

Definition is_dead (c : Conn) : bool :=
  match cstate c with Closed | WasReset => true | _ => false end.
Definition is_open (c : Conn) : bool :=
  match cstate c with SynSent | SynRecv | Connected => true | _ => false end.

Definition fail (kind : ErrorKind) (c : Conn) : Conn :=
  on_rcv (set_read_eof true) (set_error (Some kind) (set_cstate WasReset c)).

(** ** Packets *)

Definition recv_window (c : Conn) : u32 :=
  wrap32 (sat_sub RECV_BUF_MAX (Z.of_nat (length (recv_buf (rcv c))))).
Definition send_window (s : SendHalf) : usize := clamp_to_peer (cc s) (peer_wnd s).

Definition connection_id_for (c : Conn) (ty : PacketType) : u16 :=
  match ty with Syn => recv_id c | _ => send_id c end.

(** The keys of the [BTreeMap] in order; only membership matters for the mask. *)
Definition sack_mask (c : Conn) : option bytes :=
  let r := rcv c in
  if decide (reorder r = ∅) then None
  else
    let mask :=
      fold_left (fun mask seq => if sack_dist (ack_nr r) seq <? 32 then sack_set mask (ack_nr r) seq else mask)
        (map fst (map_to_list (reorder r))) [0; 0; 0; 0] in
    if forallb (fun b => b =? 0) mask then None else Some mask.

Definition make_packet (c : Conn) (ts : u32) (ty : PacketType) (seq : u16) (payload : bytes) : Packet :=
  let exts :=
    match ty with
    | Syn => []
    | _ => match sack_mask c with Some mask => [mkExtension EXT_SELECTIVE_ACK mask] | None => [] end
    end in
  mkPacket ty VERSION (connection_id_for c ty) ts
    (if have_their_ts c then wrap32 (ts - their_timestamp c) else 0)
    (recv_window c) seq (ack_nr (rcv c)) exts payload.

Definition count_sent (c : Conn) : Conn := set_packets_sent (packets_sent c + 1) c.

Definition track_inflight (seq : u16) (ty : PacketType) (payload : bytes) (now : Instant) (s : SendHalf)
  : SendHalf :=
  set_in_flight (in_flight s ++ [mkInFlight seq payload ty now 1 false])
    (set_in_flight_bytes (in_flight_bytes s + Z.of_nat (length payload)) s).

Definition take_syn (c : Conn) (now : Instant) (ts : u32) : Packet * Conn :=
  let seq := next_seq (snd_ c) in
  let c := on_snd (set_next_seq (wrap16 (seq + 1))) c in
  (make_packet c ts Syn seq [], count_sent (on_snd (track_inflight seq Syn [] now) c)).

Definition take_syn_ack (c : Conn) (ts : u32) : Packet * Conn :=
  let c := count_sent (on_rcv (set_need_ack false) c) in
  (make_packet c ts State (next_seq (snd_ c)) [], c).

(** ** The receive half *)

Definition commit_slot (slot : RecvSlot) (r : RecvHalf) : RecvHalf :=
  match slot with
  | SlotData data =>
      if Z.of_nat (length (recv_buf r) + length data) <=? RECV_BUF_MAX
      then set_recv_buf (recv_buf r ++ data) r else r
  | SlotFin => set_read_eof true r
  end.

(** The loop that commits the segments the reorder buffer holds next; it ends
    because each round removes one. *)
Fixpoint drain_reorder (fuel : nat) (r : RecvHalf) : RecvHalf :=
  match fuel with
  | O => r
  | S fuel =>
      let next := wrap16 (ack_nr r + 1) in
      match reorder r !! next with
      | None => r
      | Some item =>
          drain_reorder fuel
            (set_ack_nr next (commit_slot item (set_reorder (delete next (reorder r)) r)))
      end
  end.

Definition recv_segment (seq : u16) (slot : RecvSlot) (r : RecvHalf) : RecvHalf :=
  if negb (ack_valid r) then r
  else
    let expected := wrap16 (ack_nr r + 1) in
    let r :=
      if seq =? expected then
        let r := set_ack_nr seq (commit_slot slot r) in
        drain_reorder (size (reorder r)) r
      else
        let dist := wrap16 (seq - ack_nr r) in
        if (1 <=? dist) && (dist <=? REORDER_MAX) &&
           (Z.of_nat (size (reorder r)) <? REORDER_MAX)
        then
          match reorder r !! seq with
          | Some _ => r
          | None => set_reorder (<[seq := slot]> (reorder r)) r
          end
        else r in
    set_need_ack true r.

(** ** The send half *)

Definition seq_le (a b : u16) : bool := wrap16 (b - a) <? 32768.

Definition syn_acked (s : SendHalf) : bool :=
  negb (existsb (fun p => bool_decide (if_ty p = Syn)) (in_flight s)).

(** The loop that pops acknowledged packets; also the bytes acknowledged and
    whether any packet was. *)
Fixpoint ack_loop (flight : list InFlight) (ack : u16) (now : Instant) (s : SendHalf)
    (acked_bytes : u32) (newly : bool) : SendHalf * u32 * bool :=
  match flight with
  | [] => (set_in_flight [] s, acked_bytes, newly)
  | pkt :: rest =>
      if seq_le (if_seq pkt) ack then
        let s :=
          if (if_transmits pkt =? 1) && (if_sent_at pkt <=? now)
          then set_rtt (rtt_update (rtt s) (now - if_sent_at pkt)) s else s in
        let s := if decide (if_ty pkt = Fin) then set_fin_acked true s else s in
        let n := Z.of_nat (length (if_payload pkt)) in
        let s := set_in_flight_bytes (sat_sub (in_flight_bytes s) n) s in
        ack_loop rest ack now s (wrap32 (acked_bytes + n)) true
      else (set_in_flight flight s, acked_bytes, newly)
  end.

Definition resend_at (clock : Instant) (s : SendHalf) (p : InFlight) : InFlight :=
  mkInFlight (if_seq p) (if_payload p) (if_ty p) (clock - rto (rtt s)) (if_transmits p) (if_sacked p).

Definition mark_fast_retransmit (clock : Instant) (s : SendHalf) : SendHalf :=
  match in_flight s with
  | [] => s
  | pkt :: rest => set_in_flight (resend_at clock s pkt :: rest) s
  end.

Definition set_sacked (p : InFlight) : InFlight :=
  mkInFlight (if_seq p) (if_payload p) (if_ty p) (if_sent_at p) (if_transmits p) true.

(** Force a resend of the first packet with number [next] unless it is sacked. *)
Fixpoint resend_hole (clock : Instant) (s : SendHalf) (next : u16) (flight : list InFlight)
  : list InFlight :=
  match flight with
  | [] => []
  | p :: rest =>
      if if_seq p =? next then (if if_sacked p then p else resend_at clock s p) :: rest
      else p :: resend_hole clock s next rest
  end.

Definition apply_sack (ack : u16) (mask : bytes) (clock : Instant) (s : SendHalf) : SendHalf :=
  let flight := map (fun p => if sack_contains mask ack (if_seq p) then set_sacked p else p) (in_flight s) in
  set_in_flight (resend_hole clock s (wrap16 (ack + 1)) flight) s.

Definition process_ack (ack : u16) (sack : option bytes) (now clock : Instant) (s : SendHalf)
  : SendHalf :=
  let '(s, acked_bytes, newly) := ack_loop (in_flight s) ack now s 0 false in
  let s :=
    if newly then
      set_last_ack ack
        (set_dup_acks 0
           (set_cc (on_ack (cc s) (Z.max acked_bytes (Z.of_nat HEADER_LEN)) (last_queuing s)) s))
    else if negb (length (in_flight s) =? 0)%nat && (ack =? last_ack s) then
      let s := set_dup_acks (sat_add U8_MAX (dup_acks s) 1) s in
      if 3 <=? dup_acks s then set_dup_acks 0 (mark_fast_retransmit clock s) else s
    else set_last_ack ack s in
  match sack with Some mask => apply_sack ack mask clock s | None => s end.

(** ** Flushing *)

(** The data loop: segments of at most [MSS] while the window has room. Each
    round sends at least a byte, so the length of the buffer is enough fuel. *)
Fixpoint send_data (fuel : nat) (window : usize) (c : Conn) (now : Instant) (ts : u32)
    (out : list Packet) : list Packet * Conn :=
  match fuel with
  | O => (out, c)
  | S fuel =>
      let s := snd_ c in
      if negb (in_flight_bytes s <? window) || (length (send_buf s) =? 0)%nat ||
         negb (bool_decide (cstate c = Connected \/ cstate c = SynRecv))
      then (out, c)
      else
        let space := Z.max (sat_sub window (in_flight_bytes s)) 1 in
        let n := Nat.min (Nat.min (length (send_buf s)) MSS) (Z.to_nat space) in
        let payload := take n (send_buf s) in
        let seq := next_seq s in
        let c := on_snd (fun s => set_next_seq (wrap16 (seq + 1)) (set_send_buf (drop n (send_buf s)) s)) c in
        let pkt := make_packet c ts Data seq payload in
        let c := count_sent (on_snd (track_inflight seq Data payload now) c) in
        let c := on_rcv (set_need_ack false) c in
        send_data fuel window c now ts (out ++ [pkt])
  end.

Definition send_fin (c : Conn) (now : Instant) (ts : u32) (out : list Packet) : list Packet * Conn :=
  let s := snd_ c in
  if write_shutdown s && (length (send_buf s) =? 0)%nat && negb (fin_sent s) &&
     bool_decide (cstate c = Connected \/ cstate c = SynRecv)
  then
    let seq := next_seq s in
    let c := on_snd (fun s => set_fin_seq seq (set_fin_sent true (set_next_seq (wrap16 (seq + 1)) s))) c in
    let pkt := make_packet c ts Fin seq [] in
    let c := on_rcv (set_need_ack false) (count_sent (on_snd (track_inflight seq Fin [] now) c)) in
    (out ++ [pkt], c)
  else (out, c).

Definition send_ack (c : Conn) (ts : u32) (out : list Packet) : list Packet * Conn :=
  if need_ack (rcv c) && (length out =? 0)%nat then
    let c := count_sent (on_rcv (set_need_ack false) c) in
    (out ++ [make_packet c ts State (next_seq (snd_ c)) []], c)
  else (out, c).

Definition close_if_done (c : Conn) : Conn :=
  if read_eof (rcv c) && fin_acked (snd_ c) then set_cstate Closed c else c.

(** Resend the oldest packet when it timed out; [None] when it was sent too
    often and the connection failed. *)
Definition retransmit (c : Conn) (now : Instant) (ts : u32) : option (list Packet * Conn) * Conn :=
  let s := snd_ c in
  match in_flight s with
  | [] => (Some ([], c), c)
  | pkt :: rest =>
      if rto (rtt s) <=? since now (if_sent_at pkt) then
        if MAX_RETRANSMITS <=? if_transmits pkt then
          (None, fail TimedOut (on_snd (set_in_flight rest) c))
        else
          let pkt' := mkInFlight (if_seq pkt) (if_payload pkt) (if_ty pkt) now
                        (if_transmits pkt + 1) (if_sacked pkt) in
          let c := on_snd (fun s => set_cc (on_loss (cc s)) (set_rtt (rtt_backoff (rtt s))
                                      (set_in_flight (pkt' :: rest) s))) c in
          let c := set_retransmits (retransmits c + 1) c in
          let rebuilt := make_packet c ts (if_ty pkt) (if_seq pkt) (if_payload pkt) in
          let c := count_sent c in
          (Some ([rebuilt], c), c)
      else (Some ([], c), c)
  end.

Definition flush (c : Conn) (now : Instant) (ts : u32) : list Packet * Conn :=
  if is_dead c then ([], c)
  else
    let c := if stream_dropped c && negb (fin_sent (snd_ c)) then set_want_reset true c else c in
    if want_reset c then
      let c := count_sent (set_cstate WasReset c) in
      ([make_packet c ts Reset (next_seq (snd_ c)) []], c)
    else
      match retransmit c now ts with
      | (None, c) => ([], c)
      | (Some (out, c), _) =>
          let '(out, c) :=
            send_data (S (length (send_buf (snd_ c)))) (send_window (snd_ c)) c now ts out in
          let '(out, c) := send_fin c now ts out in
          let '(out, c) := send_ack c ts out in
          (out, close_if_done c)
      end.

(** ** Incoming packets *)

Definition syn_complete (seq_nr : u16) (r : RecvHalf) : RecvHalf :=
  set_ack_valid true (set_ack_nr (wrap16 (seq_nr - 1)) r).

(** The [match pkt.ty] of [on_packet], after the acks were processed. *)
Definition on_typed (c : Conn) (pkt : Packet) : Conn :=
  match p_ty pkt with
  | State =>
      if bool_decide (cstate c = SynSent) && syn_acked (snd_ c) then
        set_cstate Connected (on_rcv (fun r => set_need_ack true (syn_complete (p_seq_nr pkt) r)) c)
      else if decide (cstate c = SynRecv) then set_cstate Connected c
      else c
  | Data =>
      let c :=
        if decide (cstate c = SynSent) then
          set_cstate Connected (on_rcv (syn_complete (p_seq_nr pkt)) c)
        else if decide (cstate c = SynRecv) then set_cstate Connected c
        else c in
      on_rcv (recv_segment (p_seq_nr pkt) (SlotData (p_payload pkt))) c
  | Fin =>
      let c :=
        if decide (cstate c = SynRecv \/ cstate c = SynSent) then
          let c := set_cstate Connected c in
          if ack_valid (rcv c) then c else on_rcv (syn_complete (p_seq_nr pkt)) c
        else c in
      on_rcv (recv_segment (p_seq_nr pkt) SlotFin) c
  | Syn | Reset => c
  end.

Definition on_packet (c : Conn) (pkt : Packet) (now clock : Instant) (ts : u32) : list Packet * Conn :=
  if is_dead c then ([], c)
  else
    let c := set_last_recv now (set_packets_recv (packets_recv c + 1) c) in
    if decide (p_ty pkt = Reset) then ([], fail ConnectionReset c)
    else
      let c := on_snd (set_peer_wnd (p_wnd_size pkt)) c in
      let c := set_have_their_ts true (set_their_timestamp (p_timestamp pkt) c) in
      let c := if p_timestamp_diff pkt =? 0 then c else set_last_our_delay (p_timestamp_diff pkt) c in
      if decide (p_ty pkt = Syn) then
        if decide (cstate c = SynRecv) then flush (on_rcv (set_need_ack true) c) now ts
        else ([], c)
      else
        let c := on_snd (process_ack (p_ack_nr pkt) (selective_ack pkt) now clock) c in
        let c := close_if_done (on_typed c pkt) in
        flush c now ts.

Definition on_timer (c : Conn) (now : Instant) (ts : u32) : list Packet * Conn :=
  if is_dead c then ([], c)
  else if IDLE_TIMEOUT <=? since now (last_recv c) then
    let c := fail TimedOut c in
    ([make_packet c ts Reset (next_seq (snd_ c)) []], c)
  else
    let '(packets, c) := flush c now ts in
    if (length packets =? 0)%nat && (length (in_flight (snd_ c)) =? 0)%nat &&
       (KEEPALIVE <=? since now (last_recv c)) && is_open c
    then
      let c := count_sent c in
      ([make_packet c ts State (next_seq (snd_ c)) []], c)
    else (packets, c).

Definition next_deadline (c : Conn) : Instant :=
  let idle := last_recv c + IDLE_TIMEOUT in
  let keep := last_recv c + KEEPALIVE in
  let r := match in_flight (snd_ c) with p :: _ => if_sent_at p + rto (rtt (snd_ c)) | [] => keep end in
  Z.min r (Z.min keep idle).

(** ** The stream *)

(** [poll_read] with [n] bytes of room: the bytes read, or end of stream. *)
Inductive PollRead := ReadBytes (data : bytes) | ReadEof | ReadErr | ReadPending.
Definition poll_read (c : Conn) (n : nat) : PollRead * Conn :=
  match recv_buf (rcv c) with
  | [] => if read_eof (rcv c) then (ReadEof, c) else if is_dead c then (ReadErr, c) else (ReadPending, c)
  | buf =>
      let k := Nat.min (length buf) n in
      (ReadBytes (take k buf), on_rcv (set_recv_buf (drop k buf)) c)
  end.

(** [poll_write]: the number of bytes taken, [None] when it must wait. *)
Definition poll_write (c : Conn) (buf : bytes) : result (option nat) unit * Conn :=
  if write_shutdown (snd_ c) || is_dead c then (Err (), c)
  else if SEND_BUF_MAX <=? Z.of_nat (length (send_buf (snd_ c))) then (Ok None, c)
  else
    let n := Z.to_nat (Z.min (Z.of_nat (length buf))
                         (SEND_BUF_MAX - Z.of_nat (length (send_buf (snd_ c))))) in
    (Ok (Some n), on_snd (fun s => set_send_buf (send_buf s ++ take n buf) s) c).

Definition poll_shutdown (c : Conn) : bool * Conn :=
  let c := on_snd (set_write_shutdown true) c in
  ((fin_sent (snd_ c) && (length (send_buf (snd_ c)) =? 0)%nat) || is_dead c, c).

(** The driver records the queuing delay of the socket's history before it
    hands a packet to [on_packet]. *)
Definition record_queuing (c : Conn) (b : BaseDelay) (pkt : Packet) (now : Instant) : Conn * BaseDelay :=
  if p_timestamp_diff pkt =? 0 then (c, b)
  else
    let b := on_sample b (p_timestamp_diff pkt) now in
    (on_snd (set_last_queuing (queuing_delay b (p_timestamp_diff pkt))) c, b).

(** [Drop for UtpStream], on the last user's handle. *)
Definition stream_drop (c : Conn) : Conn :=
  let c := set_stream_dropped true c in
  if negb (fin_sent (snd_ c)) && negb (is_dead c) then set_want_reset true c else c.

(** ** In-order delivery *)

Section InOrder.
(** What the peer sends: segment [n] has number [base + n] and the content
    [content n]. *)
Context (base : u16) (content : nat -> RecvSlot).

Definition seq_of (n : nat) : u16 := wrap16 (base + Z.of_nat n).

Definition slot_data (slot : RecvSlot) : bytes :=
  match slot with SlotData data => data | SlotFin => [] end.

(** The byte stream of the first [k] segments, and whether they end it. *)
Fixpoint stream (k : nat) : bytes :=
  match k with O => [] | S k => stream k ++ slot_data (content k) end.
Fixpoint ended (k : nat) : bool :=
  match k with
  | O => false
  | S k => ended k || match content k with SlotFin => true | SlotData _ => false end
  end.

(** The byte stream without the segments in [lost]. *)
Fixpoint kept (lost : gset nat) (k : nat) : bytes :=
  match k with
  | O => []
  | S k => kept lost k ++ (if decide (k ∈ lost) then [] else slot_data (content k))
  end.

(** Segment [k] is lost when its bytes do not fit the receive buffer: what is kept of
    the segments before it, less what was read. *)
Definition lose (got : bytes) (k : nat) (lost : gset nat) : gset nat :=
  match content k with
  | SlotData data =>
      if decide (Z.of_nat (length (kept lost k)) - Z.of_nat (length got) + Z.of_nat (length data) <= RECV_BUF_MAX)
      then lost else {[k]} ∪ lost
  | SlotFin => lost
  end.

(** The same of [m] segments from [k] on. *)
Fixpoint lose_from (got : bytes) (m k : nat) (lost : gset nat) : gset nat :=
  match m with O => lost | S m => lose_from got m (S k) (lose got k lost) end.

(** The first [k] segments were acknowledged: [got] was read, the rest of what was
    kept is in the receive buffer, and the reorder buffer holds segments from [k] up
    to [bound]. *)
Record delivered (k bound : nat) (got : bytes) (lost : gset nat) (r : RecvHalf) : Prop := {
  dv_valid : ack_valid r = true;
  dv_ack : is_u16 (ack_nr r) /\ wrap16 (ack_nr r + 1) = seq_of k;
  dv_lost : forall n, n ∈ lost -> (n < k)%nat;
  dv_stream : got ++ recv_buf r = kept lost k;
  dv_eof : read_eof r = ended k;
  dv_reorder s slot : reorder r !! s = Some slot ->
    exists n, (k <= n < bound)%nat /\ s = seq_of n /\ slot = content n }.

Lemma seq_of_S n : seq_of (S n) = wrap16 (seq_of n + 1).
Proof.
  unfold seq_of, wrap16. rewrite Nat2Z.inj_succ, <- Z.add_1_r, Z.add_assoc.
  by rewrite Z.add_mod_idemp_l.
Qed.

Lemma seq_of_range n : is_u16 (seq_of n).
Proof. apply wrap16_range. Qed.

Lemma kept_none lost k : (forall n, (n < k)%nat -> n ∉ lost) -> kept lost k = stream k.
Proof.
  induction k as [|k IH]; intros H; [done|]. cbn [kept stream]. rewrite IH by (intros n Hn; apply H; lia).
  by rewrite decide_False by (apply H; lia).
Qed.

Lemma kept_lower lost lost' k :
  (forall n, (n < k)%nat -> n ∈ lost <-> n ∈ lost') -> kept lost k = kept lost' k.
Proof.
  induction k as [|k IH]; intros H; [done|]. cbn [kept]. rewrite IH by (intros n Hn; apply H; lia).
  f_equal. specialize (H k ltac:(lia)). by destruct (decide (k ∈ lost)), (decide (k ∈ lost')); try tauto.
Qed.

(** Numbers closer than half the sequence space identify segments. *)
Lemma seq_dist a b : wrap16 (seq_of a - seq_of b) = wrap16 (Z.of_nat a - Z.of_nat b).
Proof.
  unfold seq_of, wrap16. rewrite <- Zminus_mod. f_equal. lia.
Qed.

Lemma seq_of_inj a b :
  - 32768 <= Z.of_nat a - Z.of_nat b <= 32768 -> seq_of a = seq_of b -> a = b.
Proof.
  intros Hd He. pose proof (seq_dist a b) as H. rewrite He, Z.sub_diag in H.
  unfold wrap16 in H. rewrite Z.mod_0_l in H by lia.
  symmetry in H. apply Z.mod_divide in H as [q Hq]; [|lia]. lia.
Qed.

Lemma ack_from_next r k :
  is_u16 (ack_nr r) -> wrap16 (ack_nr r + 1) = seq_of k ->
  forall n, wrap16 (seq_of n - ack_nr r) = wrap16 (Z.of_nat n - Z.of_nat k + 1).
Proof.
  intros Hr He n. rewrite <- (Z.add_simpl_r (seq_of n - ack_nr r) 1).
  replace (seq_of n - ack_nr r + 1 - 1) with ((seq_of n - (ack_nr r + 1)) + 1) by lia.
  unfold wrap16 at 1. rewrite <- Z.add_mod_idemp_l, <- Zminus_mod_idemp_r by lia.
  change ((ack_nr r + 1) mod 65536) with (wrap16 (ack_nr r + 1)). rewrite He.
  change ((seq_of n - seq_of k) mod 65536) with (wrap16 (seq_of n - seq_of k)).
  rewrite seq_dist. unfold wrap16. by rewrite Z.add_mod_idemp_l by lia.
Qed.

(** Committing segment [k] delivers it, or loses it. *)
Lemma commit_delivers k got lost r :
  (forall n, n ∈ lost -> (n < k)%nat) -> got ++ recv_buf r = kept lost k -> read_eof r = ended k ->
  let r' := commit_slot (content k) r in
  (forall n, n ∈ lose got k lost -> (n < S k)%nat) /\
  got ++ recv_buf r' = kept (lose got k lost) (S k) /\ read_eof r' = ended (S k) /\
  ack_valid r' = ack_valid r /\ reorder r' = reorder r.
Proof.
  intros Hl Hs He. cbn [ended]. unfold commit_slot, lose. pose proof (f_equal length Hs) as Hlen. rewrite length_app in Hlen.
  assert (Hk : k ∉ lost) by (intros Hin; apply Hl in Hin; lia).
  destruct (content k) as [data|] eqn:Ec; cbn [slot_data].
  - destruct (Z.leb_spec (Z.of_nat (length (recv_buf r) + length data)) RECV_BUF_MAX).
    + rewrite decide_True by lia. cbn [set_recv_buf recv_buf read_eof ack_valid reorder kept]. rewrite decide_False, Ec by done. cbn [slot_data].
      rewrite app_assoc, Hs, orb_false_r. split_and!; try done. intros n Hn. apply Hl in Hn. lia.
    + rewrite decide_False by lia. cbn [kept]. rewrite decide_True, app_nil_r, orb_false_r by set_solver. split_and!; try done.
      * intros n [->%elem_of_singleton|Hn%Hl]%elem_of_union; lia.
      * rewrite Hs. apply kept_lower. intros n Hn. split; [set_solver|]. intros [->%elem_of_singleton|?]%elem_of_union; [lia|done].
  - cbn [set_read_eof recv_buf read_eof ack_valid reorder kept]. rewrite decide_False, Ec, orb_true_r by done. cbn [slot_data]. rewrite app_nil_r.
    split_and!; try done. intros n Hn. apply Hl in Hn. lia.
Qed.

(** Advancing past segment [k]. *)
Lemma advance_delivers k bound got lost r :
  ack_valid r = true -> (forall n, n ∈ lost -> (n < k)%nat) -> got ++ recv_buf r = kept lost k -> read_eof r = ended k ->
  (forall s slot, reorder r !! s = Some slot ->
     exists n, (k < n < bound)%nat /\ s = seq_of n /\ slot = content n) ->
  delivered (S k) bound got (lose got k lost) (set_ack_nr (seq_of k) (commit_slot (content k) r)).
Proof.
  intros Hv Hl Hs He Hr. destruct (commit_delivers k got lost r) as (Hl' & Hs' & He' & Hv' & Hre); try done.
  split; cbn [set_ack_nr ack_valid ack_nr recv_buf read_eof reorder]; try done.
  - by rewrite Hv'.
  - split; [apply seq_of_range|]. by rewrite seq_of_S.
  - intros s slot Hsl. rewrite Hre in Hsl. destruct (Hr _ _ Hsl) as (n & Hn & ? & ?).
    exists n. split; [lia|done].
Qed.

(** Without segment [k] the entries are beyond it. *)
Lemma entries_beyond k bound r (m : gmap Z RecvSlot) :
  (forall s slot, reorder r !! s = Some slot ->
     exists n, (k <= n < bound)%nat /\ s = seq_of n /\ slot = content n) ->
  m ⊆ reorder r -> m !! seq_of k = None ->
  forall s slot, m !! s = Some slot ->
    exists n, (k < n < bound)%nat /\ s = seq_of n /\ slot = content n.
Proof.
  intros Hr Hsub Hnone s slot Hs. destruct (Hr s slot) as (n & Hn & -> & ->); [by eapply lookup_weaken|].
  exists n. split; [|done]. assert (n <> k) by (intros ->; by rewrite Hnone in Hs). lia.
Qed.

Lemma drain_delivers bound fuel k got lost r :
  delivered k bound got lost r -> (k <= bound <= k + 256)%nat ->
  (size (reorder r) <= fuel)%nat ->
  exists k', (k <= k' <= bound)%nat /\ delivered k' bound got (lose_from got (k' - k) k lost) (drain_reorder fuel r) /\
             reorder (drain_reorder fuel r) !! seq_of k' = None.
Proof.
  revert k lost r. induction fuel as [|fuel IH]; intros k lost r Hd Hbd Hsz.
  { assert (reorder r = ∅) as He by (apply map_size_empty_inv; lia).
    exists k. split; [lia|]. rewrite Nat.sub_diag. cbn [drain_reorder lose_from]. split; [done|]. by rewrite He. }
  pose proof Hd as [Hv [Har Hak] Hl Hs He Hr]. cbn [drain_reorder]. rewrite Hak.
  destruct (reorder r !! seq_of k) as [item|] eqn:Ei; [|exists k; rewrite Nat.sub_diag; split; [lia|done]].
  destruct (Hr _ _ Ei) as (n & Hn & Heq & ->). apply seq_of_inj in Heq; [|lia]. subst n.
  set (r1 := set_ack_nr _ _).
  assert (Hre : reorder r1 = delete (seq_of k) (reorder r)).
  { unfold r1, commit_slot. destruct (content k); [by case_match|done]. }
  destruct (IH (S k) (lose got k lost) r1) as (k' & Hk & Hd' & Hn'); [|lia| |].
  - apply advance_delivers; cbn [set_reorder ack_valid recv_buf read_eof reorder]; try done.
    apply (entries_beyond k bound r); [done|apply delete_subseteq|apply lookup_delete_eq].
  - rewrite Hre, map_size_delete, Ei. lia.
  - exists k'. split; [lia|]. split; [|done]. by replace (k' - k)%nat with (S (k' - S k)) by lia.
Qed.

(** The receive half between operations. *)
Definition rx_ok (k : nat) (got : bytes) (lost : gset nat) (r : RecvHalf) : Prop :=
  delivered k (k + 256) got lost r /\ reorder r !! seq_of k = None.

Lemma rx_ok_need_ack k got lost r b : rx_ok k got lost r -> rx_ok k got lost (set_need_ack b r).
Proof. intros [[? ? ? ? ? ?] ?]. split; [|done]. by split. Qed.

(** Distances seen by a receiver that expects segment [k]. *)
Lemma reorder_window k n :
  -32768 <= Z.of_nat n - Z.of_nat k < 32767 -> n <> k ->
  1 <= wrap16 (Z.of_nat n - Z.of_nat k + 1) <= REORDER_MAX -> (k < n < k + 256)%nat.
Proof.
  intros Hn Hne [Hd1 Hd2]. unfold REORDER_MAX, wrap16 in *. destruct (decide (n <= k)%nat) as [Hle|Hgt].
  - destruct (decide (Z.of_nat n - Z.of_nat k + 1 = 0)) as [E0|E0]; [by rewrite E0 in Hd1|].
    rewrite <- (Z.mod_unique (Z.of_nat n - Z.of_nat k + 1) 65536 (-1)
      (Z.of_nat n - Z.of_nat k + 65537)) in Hd2 by lia. lia.
  - rewrite Z.mod_small in Hd1, Hd2 by lia. lia.
Qed.

Lemma recv_segment_delivers k got lost r n :
  rx_ok k got lost r -> -32768 <= Z.of_nat n - Z.of_nat k < 32767 ->
  exists k', (k <= k' <= k + 256)%nat /\ rx_ok k' got (lose_from got (k' - k) k lost) (recv_segment (seq_of n) (content n) r).
Proof.
  intros [Hd Hnone] Hn. pose proof Hd as [Hv [Har Hak] Hl Hs He Hr].
  unfold recv_segment. rewrite Hv, Hak. cbn [negb].
  destruct (Z.eqb_spec (seq_of n) (seq_of k)) as [E|E].
  - apply seq_of_inj in E; [|lia]. subst n.
    assert (Hadv : delivered (S k) (k + 256) got (lose got k lost) (set_ack_nr (seq_of k) (commit_slot (content k) r))).
    { apply advance_delivers; try done. by apply (entries_beyond k (k + 256) r). }
    destruct (drain_delivers (k + 256) (size (reorder (set_ack_nr (seq_of k) (commit_slot (content k) r))))
      _ _ _ _ Hadv) as (k' & Hk & Hd' & Hn'); [lia|lia|].
    exists k'. split; [lia|]. apply rx_ok_need_ack. replace (k' - k)%nat with (S (k' - S k)) by lia. split; [|done].
    destruct Hd' as [? ? ? ? ? Hr']. split; try done. intros s slot Hsl.
    destruct (Hr' _ _ Hsl) as (m & Hm & ? & ?). exists m. split; [lia|done].
  - exists k. split; [lia|]. rewrite Nat.sub_diag. cbn [lose_from]. apply rx_ok_need_ack. rewrite (ack_from_next r k Har Hak n).
    destruct (_ && _ && _) eqn:Ec; [|done].
    assert (Hkn : (k < n < k + 256)%nat).
    { apply reorder_window; [done|by intros ->|]. apply andb_true_iff in Ec as [[? ?]%andb_true_iff _]. lia. }
    destruct (reorder r !! seq_of n) as [x|] eqn:Ex; [done|].
    split; [split; cbn [set_reorder ack_valid ack_nr recv_buf read_eof reorder]; try done|].
    + intros s slot. destruct (decide (s = seq_of n)) as [->|Hne].
      * rewrite lookup_insert_eq. intros [= <-]. exists n. split; [lia|done].
      * rewrite lookup_insert_ne by done. apply Hr.
    + cbn [set_reorder reorder]. rewrite lookup_insert_ne by done. done.
Qed.

(** How far an operation moved the acknowledged number. *)
Definition advanced (r r' : RecvHalf) : nat := Z.to_nat (wrap16 (ack_nr r' - ack_nr r)).

Lemma advanced_spec k k' b b' got got' lost lost' r r' :
  delivered k b got lost r -> delivered k' b' got' lost' r' -> (k <= k' <= k + 256)%nat ->
  (k + advanced r r')%nat = k'.
Proof.
  intros [_ [_ H1] _ _ _ _] [_ [_ H2] _ _ _ _] Hk. unfold advanced.
  replace (ack_nr r' - ack_nr r) with ((ack_nr r' + 1) - (ack_nr r + 1)) by lia.
  unfold wrap16. rewrite Zminus_mod. fold (wrap16 (ack_nr r' + 1)) (wrap16 (ack_nr r + 1)).
  rewrite H1, H2. fold (wrap16 (seq_of k' - seq_of k)). rewrite seq_dist.
  unfold wrap16. rewrite Z.mod_small by lia. lia.
Qed.

(** What happens to the receive half, next to what the application has read, the
    number of segments acknowledged so far and those of them that were lost: a
    segment arrives (in any order, again and again, but not 2^15 segments early or
    late), which acknowledges [advanced] segments and loses those of them that do not
    fit, or the application reads. *)
Inductive rx_step : nat * bytes * gset nat * RecvHalf -> nat * bytes * gset nat * RecvHalf -> Prop :=
| rx_segment k got lost r n :
    -32768 <= Z.of_nat n - Z.of_nat k < 32767 ->
    let r' := recv_segment (seq_of n) (content n) r in
    rx_step (k, got, lost, r) ((k + advanced r r')%nat, got, lose_from got (advanced r r') k lost, r')
| rx_read k got lost r m :
    rx_step (k, got, lost, r) (k, got ++ take m (recv_buf r), lost, set_recv_buf (drop m (recv_buf r)) r).

Lemma rx_step_ok k got lost r k' got' lost' r' :
  rx_ok k got lost r -> rx_step (k, got, lost, r) (k', got', lost', r') -> rx_ok k' got' lost' r'.
Proof.
  intros Hok Hstep. inversion Hstep as [k0 got0 lost0 r0 n Hn r1|]; subst.
  - destruct (recv_segment_delivers k got' lost r n) as (k1 & Hk & Hok'); try done.
    destruct Hok as [Hd _]. pose proof Hok' as [Hd' _].
    pose proof (advanced_spec k k1 _ _ _ _ _ _ _ _ Hd Hd' Hk) as <-.
    by rewrite Nat.add_comm, Nat.add_sub, Nat.add_comm in Hok'.
  - destruct Hok as [[? ? ? Hs ? ?] ?]. split; [|done]. split; try done.
    cbn [set_recv_buf recv_buf]. by rewrite <- app_assoc, take_drop.
Qed.
End InOrder.

(** C13: a uTP receiver delivers the byte stream in order: whatever order the
    segments arrive in, however often each (though not 2^15 segments early or late),
    with up to 255 of them held back for reordering, and across wrap-arounds of the
    16-bit sequence numbers, the bytes the application has read followed by those in
    the receive buffer are the first [k] segments in sending order, where [k] counts
    the segments acknowledged, without exactly those that did not fit the receive
    buffer when their turn came; when all of them did, it is the whole stream.  The
    end of the stream is reported exactly when a FIN is among the [k]. *)
Theorem recv_in_order base content r0 k got lost r :
  is_u16 base -> ack_valid r0 = true -> ack_nr r0 = wrap16 (base - 1) -> recv_buf r0 = [] ->
  reorder r0 = ∅ -> read_eof r0 = false ->
  rtc (rx_step base content) (0%nat, [], ∅, r0) (k, got, lost, r) ->
  got ++ recv_buf r = kept content lost k /\ (lost = ∅ -> got ++ recv_buf r = stream content k) /\
  read_eof r = ended content k /\ wrap16 (ack_nr r + 1) = seq_of base k.
Proof.
  intros Hb Hv Ha Hbuf Hre He Hr.
  assert (Hinit : rx_ok base content 0 [] ∅ r0).
  { split; [|by rewrite Hre]. split; [done| |by intros n ?%not_elem_of_empty|by rewrite Hbuf|by rewrite He|by rewrite Hre].
    rewrite Ha. split; [apply wrap16_range|]. unfold seq_of, wrap16.
    rewrite Z.add_mod_idemp_l by lia. f_equal. lia. }
  enough (Hok : rx_ok base content k got lost r).
  { destruct Hok as [[_ [_ ?] _ Hs ? _] _]. split_and!; try done. intros ->. rewrite Hs. apply kept_none. set_solver. }
  remember (0%nat, [], ∅, r0) as a eqn:Ea. remember (k, got, lost, r) as z eqn:Ez.
  assert (Hgen : rx_ok base content (a.1.1.1) (a.1.1.2) (a.1.2) a.2) by by subst.
  clear Ea Hinit. assert (Hz : rx_ok base content (z.1.1.1) (z.1.1.2) (z.1.2) z.2).
  { induction Hr as [|[[[k1 g1] l1] r1] [[[k2 g2] l2] r2] z Hstep _ IH]; [done|]. apply IH; [done|].
    by eapply rx_step_ok. }
  by subst z.
Qed.

Lemma recv_in_order_witness :
  let content := fun n => if (n =? 2)%nat then SlotFin else SlotData [Z.of_nat n; 7] in
  let r0 := mkRecvHalf 65534 true [] ∅ false false in
  let r1 := recv_segment (seq_of 65535 1) (content 1%nat) r0 in
  let r2 := recv_segment (seq_of 65535 0) (content 0%nat) r1 in
  [] ++ recv_buf r2 = kept content ∅ (0 + advanced r0 r1 + advanced r1 r2) /\
  (∅ = (∅ : gset nat) -> [] ++ recv_buf r2 = stream content (0 + advanced r0 r1 + advanced r1 r2)) /\
  read_eof r2 = ended content (0 + advanced r0 r1 + advanced r1 r2) /\
  wrap16 (ack_nr r2 + 1) = seq_of 65535 (0 + advanced r0 r1 + advanced r1 r2).
Proof.
  intros content r0 r1 r2.
  apply (recv_in_order 65535 content r0); [ranges|done|done|done|done|done|].
  assert (E1 : advanced r0 r1 = 0%nat) by (vm_compute; reflexivity).
  assert (E2 : advanced r1 r2 = 2%nat) by (vm_compute; reflexivity).
  assert (E3 : lose_from content [] 2 0 ∅ = ∅) by (vm_compute; reflexivity).
  pose proof (rx_segment 65535 content 0 [] ∅ r0 1 ltac:(lia)) as S1. cbv zeta in S1. fold r1 in S1. rewrite E1 in S1.
  pose proof (rx_segment 65535 content 0 [] ∅ r1 0 ltac:(lia)) as S2. cbv zeta in S2. fold r2 in S2. rewrite E2, E3 in S2.
  rewrite E1, E2. eapply rtc_l; [exact S1|]. eapply rtc_once. exact S2.
Defined.

(** A segment that does not fit the receive buffer is acknowledged and
    lost: it advances the acknowledged number (so the peer never resends it)
    while none of its bytes reach the application. The sender of this code does
    run into it: with the peer's window closed it still sends a full minimum
    window. *)
Theorem full_buffer_loses_segment r data :
  ack_valid r = true -> reorder r = ∅ ->
  RECV_BUF_MAX < Z.of_nat (length (recv_buf r) + length data) ->
  let r' := recv_segment (wrap16 (ack_nr r + 1)) (SlotData data) r in
  ack_nr r' = wrap16 (ack_nr r + 1) /\ recv_buf r' = recv_buf r /\ need_ack r' = true /\
  (forall l, wf_ledbat l -> min_cwnd l = Z.of_nat MSS -> clamp_to_peer l 0 = Z.of_nat MSS).
Proof.
  intros Hv Hre Hfull. cbn zeta. unfold recv_segment. rewrite Hv, Z.eqb_refl. cbn [negb].
  unfold commit_slot. rewrite (proj2 (Z.leb_gt _ _)) by lia.
  cbn [set_ack_nr reorder]. rewrite Hre, map_size_empty. cbn [drain_reorder].
  split_and!; try done.
Qed.

(** ** Invariants of the connection *)

Definition flight_bytes (l : list InFlight) : Z :=
  fold_right (fun p acc => Z.of_nat (length (if_payload p)) + acc) 0 l.

Definition flight_ok (p : InFlight) : Prop :=
  1 <= if_transmits p <= MAX_RETRANSMITS /\ (length (if_payload p) <= MSS)%nat.

Record wf_send (s : SendHalf) : Prop := {
  ws_bytes : in_flight_bytes s = flight_bytes (in_flight s);
  ws_flight : Forall flight_ok (in_flight s);
  ws_cc : wf_ledbat (cc s) /\ min_cwnd (cc s) = Z.of_nat MSS;
  ws_rtt : wf_rtt (rtt s) }.

(** A live connection has a well-formed send half. *)
Definition wf_conn (c : Conn) : Prop := is_dead c = false -> wf_send (snd_ c).

Definition packet_small (p : Packet) : Prop := (length (packet_encode p) <= MAX_UDP)%nat.

Lemma flight_bytes_app l k : flight_bytes (l ++ k) = flight_bytes l + flight_bytes k.
Proof. induction l as [|p l IH]; simpl; [done|]. unfold flight_bytes in *. lia. Qed.

Lemma flight_bytes_nonneg l : 0 <= flight_bytes l.
Proof. induction l as [|p l IH]; simpl; [done|]. unfold flight_bytes in *. lia. Qed.

(** *** Packets fit a datagram *)

Lemma sack_mask_length c mask : sack_mask c = Some mask -> length mask = 4%nat.
Proof.
  unfold sack_mask. destruct (decide _); [done|]. cbv zeta.
  set (m := fold_left _ _ _).
  assert (Hm : length m = 4%nat).
  { unfold m. generalize (map fst (map_to_list (reorder (rcv c)))). intros l.
    assert (H4 : length [0; 0; 0; 0] = 4%nat) by done. revert H4. generalize [0; 0; 0; 0].
    induction l as [|x l IH]; intros acc Hacc; [done|]. cbn [fold_left]. apply IH.
    destruct (_ <? 32); [|done]. unfold sack_set. destruct (_ <? _); [by rewrite length_alter|done]. }
  clearbody m. destruct (forallb _ m); [done|]. by intros [= <-].
Qed.

Lemma make_packet_small c ts ty seq payload :
  (length payload <= MSS)%nat -> packet_small (make_packet c ts ty seq payload).
Proof.
  intros Hp. unfold packet_small, packet_encode, MAX_UDP, MSS in *.
  rewrite !length_app, !length_be_bytes, length_encode_extensions.
  cbn [make_packet p_payload p_extensions length].
  assert (He : forall exts, (exts = [] \/ exists mask, exts = [mkExtension EXT_SELECTIVE_ACK mask] /\
    length mask = 4%nat) -> (ext_bytes_of exts <= 6)%nat).
  { intros exts [->|(mask & -> & Hm)]; simpl; lia. }
  match goal with |- context [ext_bytes_of ?e] => specialize (He e) end.
  assert (ext_bytes_of (p_extensions (make_packet c ts ty seq payload)) <= 6)%nat; [|simpl in *; lia].
  apply He. destruct ty; [..|by left];
    (destruct (sack_mask c) as [mask|] eqn:E;
     [right; exists mask; split; [done|by eapply sack_mask_length]|by left]).
Qed.

(** *** Acknowledgements *)

Lemma ack_loop_wf flight ack now s n newly s' n' newly' :
  ack_loop flight ack now s n newly = (s', n', newly') ->
  in_flight_bytes s = flight_bytes flight -> Forall flight_ok flight ->
  wf_ledbat (cc s) /\ min_cwnd (cc s) = Z.of_nat MSS -> wf_rtt (rtt s) -> wf_send s'.
Proof.
  revert s n newly. induction flight as [|p flight IH]; intros s n newly; cbn [ack_loop].
  { intros [= <- _ _] ? ? ? ?. by split. }
  destruct (seq_le (if_seq p) ack).
  - intros H Hb [_ Hf]%Forall_cons Hc Hr. eapply IH; [exact H| |done| |].
    + cbn [flight_bytes fold_right] in Hb. fold (flight_bytes flight) in Hb.
      pose proof (flight_bytes_nonneg flight).
      destruct (decide _), (_ && _); cbn [set_in_flight_bytes set_fin_acked set_rtt in_flight_bytes]; ranges.
    + by destruct (decide _), (_ && _).
    + destruct (decide _), (_ && _); cbn [set_in_flight_bytes set_fin_acked set_rtt rtt]; try done;
        apply rtt_update_range.
  - intros [= <- _ _] ? ? ? ?. by split.
Qed.

Lemma flight_bytes_map f l :
  (forall p, length (if_payload (f p)) = length (if_payload p)) ->
  flight_bytes (map f l) = flight_bytes l.
Proof. intros H. induction l as [|p l IH]; simpl; [done|]. unfold flight_bytes in *. rewrite H. lia. Qed.

Lemma resend_hole_wf clock s next l :
  flight_bytes (resend_hole clock s next l) = flight_bytes l /\
  (Forall flight_ok l -> Forall flight_ok (resend_hole clock s next l)).
Proof.
  induction l as [|p l [IH1 IH2]]; [done|]. cbn [resend_hole]. destruct (if_seq p =? next).
  - split; [by destruct (if_sacked p)|]. intros [Hp Hl]%Forall_cons. by destruct (if_sacked p); constructor.
  - split; [cbn [flight_bytes fold_right] in *; unfold flight_bytes in *; lia|].
    intros [Hp Hl]%Forall_cons. constructor; auto.
Qed.

Lemma apply_sack_wf ack mask clock s : wf_send s -> wf_send (apply_sack ack mask clock s).
Proof.
  intros [H1 H2 H3 H4]. unfold apply_sack.
  set (l := map _ (in_flight s)). destruct (resend_hole_wf clock s (wrap16 (ack + 1)) l) as [R1 R2].
  split; cbn [set_in_flight in_flight_bytes in_flight cc rtt]; try done.
  - rewrite R1. unfold l. rewrite flight_bytes_map; [done|]. intros p. by destruct (sack_contains _ _ _).
  - apply R2. apply Forall_fmap. eapply Forall_impl; [done|]. intros p Hp. simpl.
    by destruct (sack_contains _ _ _).
Qed.

Lemma mark_fast_retransmit_wf clock s : wf_send s -> wf_send (mark_fast_retransmit clock s).
Proof.
  intros [H1 H2 H3 H4]. unfold mark_fast_retransmit. destruct (in_flight s) as [|p rest] eqn:E.
  { by split; rewrite ?E. }
  split; cbn [set_in_flight in_flight_bytes in_flight cc rtt]; [done| |done|done].
  apply Forall_cons in H2 as [? ?]. by constructor.
Qed.

Lemma process_ack_wf ack sack now clock s : wf_send s -> wf_send (process_ack ack sack now clock s).
Proof.
  intros [H1 H2 H3 H4]. unfold process_ack.
  destruct (ack_loop (in_flight s) ack now s 0 false) as [[s1 n] newly] eqn:E.
  apply ack_loop_wf in E; [|done|done|done|done]. cbv zeta.
  match goal with |- wf_send (match sack with Some _ => apply_sack _ _ _ ?x | None => _ end) => set (s2 := x) end.
  assert (Hs2 : wf_send s2).
  { unfold s2. destruct newly; [|destruct (_ && _); [destruct (3 <=? _)|]].
    - destruct E as [? ? [? ?] ?]. split; try done. split; [by apply on_ack_range|].
      cbn [set_last_ack set_dup_acks set_cc cc]. unfold on_ack. by destruct (_ =? 0).
    - assert (Hm : wf_send (mark_fast_retransmit clock (set_dup_acks (sat_add U8_MAX (dup_acks s1) 1) s1)))
        by (apply mark_fast_retransmit_wf; by destruct E).
      by destruct Hm.
    - by destruct E.
    - by destruct E. }
  destruct sack; [by apply apply_sack_wf|done].
Qed.

(** *** Flushing *)

Lemma track_inflight_wf seq ty payload now s :
  wf_send s -> (length payload <= MSS)%nat -> wf_send (track_inflight seq ty payload now s).
Proof.
  intros [H1 H2 H3 H4] Hp. split; cbn [track_inflight set_in_flight set_in_flight_bytes in_flight
    in_flight_bytes cc rtt]; try done.
  - rewrite flight_bytes_app. simpl. lia.
  - apply Forall_app. split; [done|]. constructor; [|constructor]. split; [unfold MAX_RETRANSMITS; simpl; lia|done].
Qed.

(** What one stage of a flush guarantees: the send half stays well formed, only
    small packets are added, the connection's state is kept, and new data stays
    inside the window. *)
Definition stage_ok (c : Conn) (out : list Packet) (c' : Conn) (out' : list Packet) : Prop :=
  wf_send (snd_ c') /\ cstate c' = cstate c /\ Forall packet_small out'.

Lemma send_data_ok fuel window c now ts out out' c' :
  send_data fuel window c now ts out = (out', c') ->
  wf_send (snd_ c) -> Forall packet_small out ->
  stage_ok c out c' out' /\
  in_flight_bytes (snd_ c') <= Z.max (in_flight_bytes (snd_ c)) window.
Proof.
  revert c out. induction fuel as [|fuel IH]; intros c out; cbn [send_data].
  { intros [= <- <-] ? ?. split; [done|lia]. }
  destruct (_ || _ || _) eqn:E; [intros [= <- <-] ? ?; split; [done|lia]|].
  apply orb_false_iff in E as [[E1 E2]%orb_false_iff _]. apply negb_false_iff, Z.ltb_lt in E1.
  apply Nat.eqb_neq in E2. intros H Hwf Hout.
  set (n := Nat.min (Nat.min (length (send_buf (snd_ c))) MSS)
    (Z.to_nat (Z.max (sat_sub window (in_flight_bytes (snd_ c))) 1))) in *.
  assert (Hn : (n <= MSS)%nat /\ (0 < n)%nat /\ Z.of_nat n <= window - in_flight_bytes (snd_ c)).
  { unfold n, MSS. ranges. }
  assert (Hl : length (take n (send_buf (snd_ c))) = n) by (rewrite length_take; lia).
  apply IH in H as [[Hwf' [Hst Hout']] Hw].
  - split; [split; [done|split; [done|done]]|].
    cbn [set_rcv on_rcv count_sent set_packets_sent on_snd set_snd_ snd_ track_inflight set_in_flight
      set_in_flight_bytes set_next_seq set_send_buf in_flight_bytes] in Hw. rewrite Hl in Hw. lia.
  - cbn [set_rcv on_rcv count_sent set_packets_sent on_snd set_snd_ snd_].
    apply track_inflight_wf; [|lia]. by destruct Hwf.
  - apply Forall_app. split; [done|]. constructor; [|constructor]. apply make_packet_small. lia.
Qed.

Lemma send_fin_ok c now ts out out' c' :
  send_fin c now ts out = (out', c') -> wf_send (snd_ c) -> Forall packet_small out ->
  stage_ok c out c' out' /\ in_flight_bytes (snd_ c') = in_flight_bytes (snd_ c).
Proof.
  unfold send_fin. intros H Hwf Hout. destruct (_ && _ && _ && _); injection H as <- <-; [|done].
  split; [split; [|split; [done|]]|].
  - cbn [set_rcv on_rcv count_sent set_packets_sent on_snd set_snd_ snd_].
    apply track_inflight_wf; [by destruct Hwf|simpl; lia].
  - apply Forall_app. split; [done|]. constructor; [|constructor]. apply make_packet_small. simpl. lia.
  - cbn [set_rcv on_rcv count_sent set_packets_sent on_snd set_snd_ snd_ track_inflight set_in_flight
      set_in_flight_bytes in_flight_bytes set_fin_seq set_fin_sent set_next_seq length]. lia.
Qed.

Lemma send_ack_ok c ts out out' c' :
  send_ack c ts out = (out', c') -> wf_send (snd_ c) -> Forall packet_small out ->
  stage_ok c out c' out' /\ in_flight_bytes (snd_ c') = in_flight_bytes (snd_ c).
Proof.
  unfold send_ack. intros H Hwf Hout. destruct (_ && _); injection H as <- <-; [|done].
  split; [|done]. split; [done|]. split; [done|].
  apply Forall_app. split; [done|]. constructor; [|constructor]. apply make_packet_small. simpl. lia.
Qed.

Lemma on_loss_window l w : wf_ledbat l -> clamp_to_peer (on_loss l) w <= clamp_to_peer l w.
Proof.
  intros (H1 & H2 & _). unfold clamp_to_peer, on_loss. cbn [cwnd min_cwnd]. destruct (w =? 0); [lia|].
  pose proof (Z.div_le_upper_bound (cwnd l) 2 (cwnd l)). lia.
Qed.

Lemma retransmit_ok c now ts r c1 :
  retransmit c now ts = (r, c1) -> wf_send (snd_ c) ->
  match r with
  | None => is_dead c1 = true
  | Some (out, c') =>
      stage_ok c [] c' out /\ in_flight_bytes (snd_ c') = in_flight_bytes (snd_ c) /\
      send_window (snd_ c') <= send_window (snd_ c)
  end.
Proof.
  unfold retransmit. intros H Hwf. destruct (in_flight (snd_ c)) as [|pkt rest] eqn:E.
  { injection H as <- <-. split; [done|]. split; [done|lia]. }
  destruct (rto (rtt (snd_ c)) <=? since now (if_sent_at pkt));
    [|injection H as <- <-; split; [done|]; split; [done|lia]].
  destruct Hwf as [H1 H2 [H3 H3'] H4]. rewrite E in H1, H2. apply Forall_cons in H2 as [[Ht Hp] Hf].
  destruct (Z.leb_spec MAX_RETRANSMITS (if_transmits pkt)); injection H as <- <-; [done|].
  split; [|split; [done|by apply on_loss_window]]. split; [|split; [done|]].
  - split; cbn [count_sent set_packets_sent set_retransmits on_snd set_snd_ snd_ set_cc set_rtt
      set_in_flight in_flight in_flight_bytes cc rtt].
    + done.
    + constructor; [|done]. split; [simpl; lia|done].
    + split; [by apply on_loss_range|done].
    + by apply rtt_backoff_range.
  - constructor; [|constructor]. by apply make_packet_small.
Qed.

Lemma close_if_done_wf c : wf_conn c -> wf_conn (close_if_done c).
Proof. intros H. unfold close_if_done. by destruct (_ && _). Qed.

Lemma close_if_done_snd c : snd_ (close_if_done c) = snd_ c.
Proof. unfold close_if_done. by destruct (read_eof (rcv c) && fin_acked (snd_ c)). Qed.

Lemma flush_ok c now ts out c' :
  flush c now ts = (out, c') -> wf_conn c ->
  wf_conn c' /\ Forall packet_small out /\
  (is_dead c' = false ->
   in_flight_bytes (snd_ c') <= Z.max (in_flight_bytes (snd_ c)) (send_window (snd_ c))).
Proof.
  unfold flush. destruct (is_dead c) eqn:Ed.
  { intros [= <- <-] H. split; [done|]. split; [constructor|by rewrite Ed]. }
  intros H Hwf. specialize (Hwf Ed).
  set (c1 := if stream_dropped c && negb (fin_sent (snd_ c)) then set_want_reset true c else c) in H.
  assert (Hc1 : snd_ c1 = snd_ c /\ cstate c1 = cstate c) by (unfold c1; by destruct (_ && _)).
  destruct Hc1 as [Hs1 Hst1]. destruct (want_reset c1).
  { injection H as <- <-. split; [done|]. split; [|done].
    constructor; [|constructor]. apply make_packet_small. simpl. lia. }
  assert (Hwf1 : wf_send (snd_ c1)) by by rewrite Hs1.
  destruct (retransmit c1 now ts) as [[[o1 c2]|] c2'] eqn:E; apply retransmit_ok in E; [|done| |done].
  2: { injection H as <- <-. split; [by intros Hx; rewrite E in Hx|]. split; [constructor|by rewrite E]. }
  destruct E as [(W2 & S2 & P2) [B2 D2]].
  destruct (send_data _ _ c2 now ts o1) as [o3 c3] eqn:E3. apply send_data_ok in E3 as [(W3 & S3 & P3) B3]; [|done|done].
  destruct (send_fin c3 now ts o3) as [o4 c4] eqn:E4. apply send_fin_ok in E4 as [(W4 & S4 & P4) B4]; [|done|done].
  destruct (send_ack c4 ts o4) as [o5 c5] eqn:E5. apply send_ack_ok in E5 as [(W5 & S5 & P5) B5]; [|done|done].
  injection H as <- <-. split; [by apply close_if_done_wf; intros _|]. split; [done|].
  intros _. rewrite close_if_done_snd, B5, B4. etrans; [apply B3|]. rewrite Hs1 in *. lia.
Qed.

(** *** Every operation *)

Lemma wf_conn_dead c : is_dead c = true -> wf_conn c.
Proof. unfold wf_conn. congruence. Qed.

Lemma wf_conn_send c : wf_send (snd_ c) -> wf_conn c.
Proof. by intros ? _. Qed.

Lemma on_typed_snd c pkt : snd_ (on_typed c pkt) = snd_ c.
Proof. unfold on_typed. destruct (p_ty pkt); repeat case_match; try done; repeat case_decide; done. Qed.

Lemma on_packet_ok c pkt now clock ts out c' :
  on_packet c pkt now clock ts = (out, c') -> wf_conn c -> wf_conn c' /\ Forall packet_small out.
Proof.
  unfold on_packet. destruct (is_dead c) eqn:Ed; [by intros [= <- <-]|].
  intros H Hwf. specialize (Hwf Ed). destruct (decide (p_ty pkt = Reset)).
  { injection H as <- <-. split; [by apply wf_conn_dead|constructor]. }
  cbv zeta in H. set (c1 := if p_timestamp_diff pkt =? 0 then _ else _) in H.
  assert (Hs1 : wf_send (snd_ c1)) by (unfold c1; destruct (_ =? 0); by destruct Hwf).
  destruct (decide (p_ty pkt = Syn)).
  - destruct (decide (cstate c1 = SynRecv)); 
      [|injection H as <- <-; split; [by apply wf_conn_send|constructor]].
    apply flush_ok in H as (? & ? & _); [done|]. by apply wf_conn_send.
  - apply flush_ok in H as (? & ? & _); [done|]. apply close_if_done_wf. intros _.
    rewrite on_typed_snd. by apply process_ack_wf.
Qed.

Lemma on_timer_ok c now ts out c' :
  on_timer c now ts = (out, c') -> wf_conn c -> wf_conn c' /\ Forall packet_small out.
Proof.
  assert (Hone : forall c ty seq, Forall packet_small [make_packet c ts ty seq []]).
  { intros. constructor; [|constructor]. apply make_packet_small. simpl. lia. }
  unfold on_timer. destruct (is_dead c) eqn:Ed; [by intros [= <- <-]|].
  destruct (_ <=? _); [intros [= <- <-] _; split; [by apply wf_conn_dead|apply Hone]|].
  destruct (flush c now ts) as [packets c1] eqn:E. intros H Hwf.
  apply flush_ok in E as (Hc1 & Hp & _); [|done].
  destruct (_ && _ && _ && _); injection H as <- <-; [|done]. split; [|apply Hone]. exact Hc1.
Qed.

(** The operations of a connection: packets and timers from the driver, reads,
    writes, shutdown and drop from the stream. *)
Inductive conn_step : Conn -> list Packet -> Conn -> Prop :=
| cs_syn c now ts p c' : is_dead c = false -> take_syn c now ts = (p, c') -> conn_step c [p] c'
| cs_syn_ack c ts p c' : take_syn_ack c ts = (p, c') -> conn_step c [p] c'
| cs_packet c pkt now clock ts out c' :
    on_packet c pkt now clock ts = (out, c') -> conn_step c out c'
| cs_timer c now ts out c' : on_timer c now ts = (out, c') -> conn_step c out c'
| cs_flush c now ts out c' : flush c now ts = (out, c') -> conn_step c out c'
| cs_read c n r c' : poll_read c n = (r, c') -> conn_step c [] c'
| cs_write c buf r c' : poll_write c buf = (r, c') -> conn_step c [] c'
| cs_shutdown c r c' : poll_shutdown c = (r, c') -> conn_step c [] c'
| cs_queuing c b pkt now c' b' : record_queuing c b pkt now = (c', b') -> conn_step c [] c'
| cs_drop c : conn_step c [] (stream_drop c).

Lemma conn_step_ok c out c' : conn_step c out c' -> wf_conn c -> wf_conn c' /\ Forall packet_small out.
Proof.
  assert (Hone : forall c ts ty seq, Forall packet_small [make_packet c ts ty seq []]).
  { intros. constructor; [|constructor]. apply make_packet_small. simpl. lia. }
  intros Hstep Hwf. destruct Hstep as [c now ts p c' Hd H|c ts p c' H|c pkt now clock ts out c' H
    |c now ts out c' H|c now ts out c' H|c n r c' H|c buf r c' H|c r c' H|c b pkt now c' b' H|c].
  - injection H as <- <-. split; [|apply Hone]. intros _. cbn [count_sent set_packets_sent on_snd set_snd_ snd_].
    apply track_inflight_wf; [by destruct (Hwf Hd)|simpl; lia].
  - injection H as <- <-. split; [exact Hwf|apply Hone].
  - by eapply on_packet_ok.
  - by eapply on_timer_ok.
  - apply flush_ok in H as (? & ? & _); done.
  - split; [|constructor]. unfold poll_read in H. repeat case_match; by injection H as <- <-.
  - split; [|constructor]. unfold poll_write in H. destruct (_ || _); [by injection H as <- <-|].
    destruct (_ <=? _); injection H as <- <-; [done|]. intros Hd. by destruct (Hwf Hd).
  - injection H as <- <-. split; [|constructor]. intros Hd. by destruct (Hwf Hd).
  - split; [|constructor]. unfold record_queuing in H. destruct (_ =? 0); injection H as <- <-; [done|].
    intros Hd. by destruct (Hwf Hd).
  - split; [|constructor]. unfold stream_drop. intros Hd. destruct (_ && _); by apply Hwf.
Qed.

(** Connections reachable from a fresh one. *)
Inductive conn_reach : Conn -> Prop :=
| cr_initiator remote rid sid iss now : conn_reach (initiator remote rid sid iss now)
| cr_acceptor remote rid sid iss syn now : conn_reach (acceptor remote rid sid iss syn now)
| cr_step c out c' : conn_reach c -> conn_step c out c' -> conn_reach c'.

Lemma conn_reach_wf c : conn_reach c -> wf_conn c.
Proof.
  assert (Hnew : forall remote rid sid iss now, wf_send (snd_ (conn_new remote rid sid iss now))).
  { intros. by split. }
  induction 1 as [remote rid sid iss now|remote rid sid iss syn now|c out c' _ IH Hstep].
  - intros _. apply Hnew.
  - intros _. apply (Hnew remote rid sid iss now).
  - by apply conn_step_ok in Hstep as [? _].
Qed.

(** C14: in every reachable live connection, whatever packets arrive, the number
    of bytes in flight is exact, every unacknowledged packet carries at most one
    MSS and was sent at most ten times, the congestion window is between one MSS
    and 1 MiB and the retransmission timeout between 0.5 and 60 seconds; every
    packet any operation sends fits a 1400-byte datagram; and a flush never sends
    data beyond the send window. *)
Theorem utp_connection_safe c out c' :
  conn_reach c -> conn_step c out c' ->
  (is_dead c' = false -> wf_send (snd_ c')) /\
  Forall (fun p => (length (packet_encode p) <= MAX_UDP)%nat) out /\
  (forall now ts, is_dead (snd (flush c now ts)) = false ->
     in_flight_bytes (snd_ (snd (flush c now ts))) <=
     Z.max (in_flight_bytes (snd_ c)) (send_window (snd_ c))).
Proof.
  intros Hr Hstep. apply conn_reach_wf in Hr. destruct (conn_step_ok _ _ _ Hstep Hr) as [H1 H2].
  split; [done|]. split; [done|]. intros now ts. destruct (flush c now ts) as [o c1] eqn:E.
  by apply flush_ok in E as (_ & _ & ?).
Qed.

Definition example_conn : Conn := initiator (V4 167772161 6881) 10 11 65535 0.

Lemma utp_connection_safe_witness :
  (is_dead (snd (take_syn example_conn 0 5)) = false -> wf_send (snd_ (snd (take_syn example_conn 0 5)))) /\
  Forall (fun p => (length (packet_encode p) <= MAX_UDP)%nat) [fst (take_syn example_conn 0 5)] /\
  (forall now ts, is_dead (snd (flush example_conn now ts)) = false ->
     in_flight_bytes (snd_ (snd (flush example_conn now ts))) <=
     Z.max (in_flight_bytes (snd_ example_conn)) (send_window (snd_ example_conn))).
Proof.
  apply utp_connection_safe.
  - apply cr_initiator.
  - apply (cs_syn _ 0 5); reflexivity.
Defined.
