(* ===== verification/Routing.v ===== *)
(** * The DHT routing table (crates/bit_rev/src/dht/routing.rs)

    Node ids as 160-bit strings with the prefix and distance functions, the
    nodes and their status, buckets and their split, and the operations of
    [RoutingTable].  The invariant says that the buckets partition the id space,
    which is what the [expect] in [bucket_index] relies on. *)

From S2P Require Import Prelude.

Definition NODE_ID_LEN : nat := 20.
Definition K : nat := 8.
Definition NODE_TIMEOUT : Duration := secs (15 * 60).
Definition BAD_FAILS : u8 := 2.

Abbreviation NodeId := bytes (only parsing).

Record CompactNode := mkCompactNode { cn_id : NodeId; cn_addr : SocketAddr }.

(** ** Id bits *)

(** [u8::leading_zeros]. *)
Definition leading_zeros8 (x : u8) : u32 := if x =? 0 then 8 else 7 - Z.log2 x.

Definition xor_distance (a b : NodeId) : NodeId := zip_with Z.lxor a b.

Definition cmp_xor (a b target : NodeId) : comparison :=
  cmp_list (xor_distance a target) (xor_distance b target).

(** The loop of [matching_prefix_bits]. *)
Fixpoint matching_loop (a b : NodeId) : u32 :=
  match a, b with
  | x :: a', y :: b' =>
      let d := Z.lxor x y in
      if d =? 0 then 8 + matching_loop a' b' else leading_zeros8 d
  | _, _ => 0
  end.

Definition matching_prefix_bits (a b : NodeId) : u32 := Z.min (matching_loop a b) 160.

(** The byte update of [set_bit]. *)
Definition put_bit (b : u8) (shift : Z) (value : bool) : u8 :=
  if value then Z.lor b (Z.shiftl 1 shift) else Z.land b (Z.lxor 255 (Z.shiftl 1 shift)).

(** [None] is the panic of an index outside the id. *)
Definition set_bit (id : NodeId) (bit : u8) (value : bool) : option NodeId :=
  let byte := Z.to_nat (bit / 8) in
  let shift := 7 - bit mod 8 in
  match id !! byte with
  | None => None
  | Some b =>
      Some (<[byte := put_bit b shift value]> id)
  end.

(** The byte update of [copy_prefix]: the first [rem] bits are those of [f]. *)
Definition mix_byte (t f : u8) (rem : u8) : u8 :=
  let mask := Z.lxor 255 (Z.shiftl 1 (8 - rem) - 1) in
  Z.lor (Z.land t (Z.lxor 255 mask)) (Z.land f mask).

(** [None] is the panic of a range outside the ids. *)
Definition copy_prefix (from to : NodeId) (prefix_len : u8) : option NodeId :=
  if prefix_len =? 0 then Some to
  else
    let full := Z.to_nat (prefix_len / 8) in
    src ← slice from 0 full;
    _ ← slice to 0 full;
    let to := src ++ drop full to in
    let rem := prefix_len mod 8 in
    if 0 <? rem then
      t ← to !! full;
      f ← from !! full;
      Some (<[full := mix_byte t f rem]> to)
    else Some to.

(** ** Nodes *)

Inductive NodeStatus := Good | Questionable | Bad.

#[export] Instance NodeStatus_eq_dec : EqDecision NodeStatus.
Proof. solve_decision. Defined.

Record Node := mkNode {
  n_id : NodeId;
  n_addr : SocketAddr;
  n_last_response : option Instant;
  n_last_query : option Instant;
  n_fails : u8;
  n_ever_responded : bool }.

Definition node_new (id : NodeId) (addr : SocketAddr) (now : Instant) : Node :=
  mkNode id addr None (Some now) 0 false.

Definition from_compact (node : CompactNode) (now : Instant) : Node :=
  node_new (cn_id node) (cn_addr node) now.

Definition contact (n : Node) : CompactNode := mkCompactNode (n_id n) (n_addr n).

(** [opt.is_some_and(|t| now.saturating_duration_since(t) < NODE_TIMEOUT)]. *)
Definition recent (now : Instant) (t : option Instant) : bool :=
  match t with Some t => since now t <? NODE_TIMEOUT | None => false end.

Definition status (n : Node) (now : Instant) : NodeStatus :=
  if BAD_FAILS <=? n_fails n then Bad
  else
    let responded_recently := recent now (n_last_response n) in
    let queried_recently := recent now (n_last_query n) in
    if responded_recently || (n_ever_responded n && queried_recently) then Good
    else Questionable.

Definition on_response (now : Instant) (n : Node) : Node :=
  mkNode (n_id n) (n_addr n) (Some now) (n_last_query n) 0 true.

Definition on_query (now : Instant) (n : Node) : Node :=
  mkNode (n_id n) (n_addr n) (n_last_response n) (Some now) (n_fails n) (n_ever_responded n).

Definition on_timeout (n : Node) : Node :=
  mkNode (n_id n) (n_addr n) (n_last_response n) (n_last_query n)
    (sat_add U8_MAX (n_fails n) 1) (n_ever_responded n).

Definition set_addr (addr : SocketAddr) (n : Node) : Node :=
  mkNode (n_id n) addr (n_last_response n) (n_last_query n) (n_fails n) (n_ever_responded n).

(** ** Buckets *)

Record Bucket := mkBucket {
  prefix_len : u8;
  b_prefix : NodeId;
  b_nodes : list Node;
  last_changed : Instant }.

Definition covers (b : Bucket) (id : NodeId) : bool :=
  prefix_len b <=? matching_prefix_bits (b_prefix b) id.

Definition is_stale (b : Bucket) (now : Instant) : bool :=
  NODE_TIMEOUT <=? since now (last_changed b).

(** [random_id] with the random bytes [fill]. *)
Definition random_id (b : Bucket) (fill : NodeId) : option NodeId :=
  copy_prefix (b_prefix b) fill (prefix_len b).

Definition set_nodes (nodes : list Node) (b : Bucket) : Bucket :=
  mkBucket (prefix_len b) (b_prefix b) nodes (last_changed b).

Definition touch (now : Instant) (b : Bucket) : Bucket :=
  mkBucket (prefix_len b) (b_prefix b) (b_nodes b) now.

Definition split (b : Bucket) (now : Instant) : option (Bucket * Bucket) :=
  left_prefix ← set_bit (b_prefix b) (prefix_len b) false;
  right_prefix ← set_bit (b_prefix b) (prefix_len b) true;
  let next := prefix_len b + 1 in
  if U8_MAX <? next then None
  else
    let lhs := mkBucket next left_prefix [] now in
    let rhs := mkBucket next right_prefix [] now in
    Some (set_nodes (filter (fun n => covers lhs (n_id n) = true) (b_nodes b)) lhs,
          set_nodes (filter (fun n => covers lhs (n_id n) = false) (b_nodes b)) rhs).

(** ** The table *)

Inductive InsertResult :=
| Added
| Updated
| SplitBucket
| Replaced
| Dropped
| NeedPing (addr : SocketAddr) (replacement : CompactNode).

Record RoutingTable := mkRoutingTable { rt_id : NodeId; buckets : list Bucket }.

Definition routing_new (id : NodeId) (now : Instant) : RoutingTable :=
  mkRoutingTable id [mkBucket 0 (replicate NODE_ID_LEN 0) [] now].

Definition nodes (t : RoutingTable) : list Node := buckets t ≫= b_nodes.

Definition rt_len (t : RoutingTable) : nat := length (nodes t).

Definition rt_is_empty (t : RoutingTable) : bool :=
  forallb (fun b => match b_nodes b with [] => true | _ => false end) (buckets t).

Definition good_contacts (t : RoutingTable) (now : Instant) : list CompactNode :=
  map contact (filter (fun n => status n now = Good) (nodes t)).

Definition good_len (t : RoutingTable) (now : Instant) : nat :=
  length (filter (fun n => status n now = Good) (nodes t)).

(** [stale_buckets] with the random bytes of its calls of [random_id]. *)
Definition stale_buckets (t : RoutingTable) (now : Instant) (fill : Bucket -> NodeId)
    : list (option NodeId) :=
  map (fun b => random_id b (fill b))
    (filter (fun b => is_stale b now = true /\ b_nodes b <> []) (buckets t)).

Definition find (t : RoutingTable) (id : NodeId) : option Node :=
  head (filter (fun n => n_id n = id) (nodes t)).

(** [None] is the panic of [expect]. *)
Definition bucket_index (t : RoutingTable) (id : NodeId) : option nat :=
  position (fun b => covers b id) (buckets t).

(** Mutation of the first node that satisfies [p], in bucket order; [None] when
    there is none.  [g] is applied to the bucket of the node. *)
Fixpoint modify_first (p : Node -> bool) (f : Node -> Node) (g : Bucket -> Bucket)
    (bs : list Bucket) : option (list Bucket) :=
  match bs with
  | [] => None
  | b :: bs' =>
      match position p (b_nodes b) with
      | Some pos => Some (g (set_nodes (alter f pos (b_nodes b)) b) :: bs')
      | None => (b ::.) <$> modify_first p f g bs'
      end
  end.

(** [find_mut] followed by the mutation [f] of the node it finds. *)
Definition find_mut (id : NodeId) (f : Node -> Node) (t : RoutingTable) : option RoutingTable :=
  mkRoutingTable (rt_id t) <$> modify_first (fun n => bool_decide (n_id n = id)) f (fun b => b) (buckets t).

(** [bucket_mut_for] followed by [last_changed = now]; [None] is the panic. *)
Definition touch_bucket_for (id : NodeId) (now : Instant) (t : RoutingTable)
    : option RoutingTable :=
  idx ← bucket_index t id;
  Some (mkRoutingTable (rt_id t) (alter (touch now) idx (buckets t))).

(** [n.last_response.or(n.last_query)], the key of the oldest questionable node. *)
Definition ping_key (n : Node) : option Instant :=
  match n_last_response n with Some t => Some t | None => n_last_query n end.

(** The order of [Option<Instant>]: [None] first. *)
Definition opt_ltb (a b : option Instant) : bool :=
  match a, b with
  | None, Some _ => true
  | Some x, Some y => x <? y
  | _, None => false
  end.

(** [iter().min_by_key(ping_key)]: the first of the least. *)
Definition min_by_ping_key (l : list Node) : option Node :=
  match l with
  | [] => None
  | n :: l' =>
      Some (fold_left (fun best m => if opt_ltb (ping_key m) (ping_key best) then m else best) l' n)
  end.

Definition set_buckets (bs : list Bucket) (t : RoutingTable) : RoutingTable :=
  mkRoutingTable (rt_id t) bs.

(** The end of the loop body of [insert], for a full bucket that is not split. *)
Definition insert_full (t : RoutingTable) (idx : nat) (bucket : Bucket) (node : CompactNode)
    (now : Instant) : RoutingTable * InsertResult :=
  match position (fun n => bool_decide (status n now = Bad)) (b_nodes bucket) with
  | Some pos =>
      let bucket :=
        touch now (set_nodes (<[pos := from_compact node now]> (b_nodes bucket)) bucket) in
      (set_buckets (<[idx := bucket]> (buckets t)) t, Replaced)
  | None =>
      match min_by_ping_key
              (filter (fun n => status n now = Questionable) (b_nodes bucket)) with
      | Some n => (t, NeedPing (n_addr n) node)
      | None => (t, Dropped)
      end
  end.

(** The loop of [insert]; [None] is a panic or the end of the fuel. *)
Fixpoint insert_loop (fuel : nat) (t : RoutingTable) (node : CompactNode) (now : Instant)
    : option (RoutingTable * InsertResult) :=
  match fuel with
  | O => None
  | S fuel =>
      idx ← bucket_index t (cn_id node);
      bucket ← buckets t !! idx;
      let our_bucket := covers bucket (rt_id t) in
      if (length (b_nodes bucket) <? K)%nat then
        let bucket := touch now (set_nodes (b_nodes bucket ++ [from_compact node now]) bucket) in
        Some (set_buckets (<[idx := bucket]> (buckets t)) t, Added)
      else if our_bucket && (prefix_len bucket <? 160) then
        '(lhs, rhs) ← split bucket now;
        insert_loop fuel
          (set_buckets (take idx (buckets t) ++ lhs :: rhs :: drop (S idx) (buckets t)) t)
          node now
      else
        Some (insert_full t idx bucket node now)
  end.

(** Every round but the last splits the bucket of the own id, whose prefix has
    at most 160 bits. *)
Definition insert_fuel : nat := 161.

Definition insert (t : RoutingTable) (node : CompactNode) (now : Instant)
    : option (RoutingTable * InsertResult) :=
  if decide (cn_id node = rt_id t) then Some (t, Dropped)
  else
    match cn_addr node with
    | V6 _ _ _ _ => Some (t, Dropped)
    | V4 _ _ =>
        match find_mut (cn_id node)
                (fun n => on_response now (set_addr (cn_addr node) n)) t with
        | Some t => t ← touch_bucket_for (cn_id node) now t; Some (t, Updated)
        | None => insert_loop insert_fuel t node now
        end
    end.

Definition replace (t : RoutingTable) (old : SocketAddr) (new : CompactNode) (now : Instant)
    : RoutingTable * bool :=
  match modify_first (fun n => bool_decide (n_addr n = old))
          (fun _ => from_compact new now) (touch now) (buckets t) with
  | Some bs => (set_buckets bs t, true)
  | None => (t, false)
  end.

Definition seen_query (t : RoutingTable) (id : NodeId) (addr : SocketAddr) (now : Instant)
    : option RoutingTable :=
  match find_mut id (fun n => on_query now (set_addr addr n)) t with
  | Some t => Some t
  | None => fst <$> insert t (mkCompactNode id addr) now
  end.

Definition seen_response (t : RoutingTable) (id : NodeId) (addr : SocketAddr) (now : Instant)
    : option RoutingTable :=
  match find_mut id (fun n => on_response now (set_addr addr n)) t with
  | Some t => touch_bucket_for id now t
  | None =>
      let node := on_response now (node_new id addr now) in
      '(t, _) ← insert t (contact node) now;
      Some (default t (find_mut id (on_response now) t))
  end.

Definition timed_out (t : RoutingTable) (addr : SocketAddr) : RoutingTable :=
  match modify_first (fun n => bool_decide (n_addr n = addr)) on_timeout (fun b => b)
          (buckets t) with
  | Some bs => set_buckets bs t
  | None => t
  end.

(** [a] is not farther from [target] than [b]. *)
Definition closer_eq (target a b : NodeId) : Prop := cmp_xor a b target <> Gt.

#[export] Instance closer_eq_dec target a b : Decision (closer_eq target a b).
Proof. unfold closer_eq. apply _. Defined.

Definition closest (t : RoutingTable) (target : NodeId) (count : nat) : list CompactNode :=
  map contact
    (take count (merge_sort (fun a b => closer_eq target (n_id a) (n_id b)) (nodes t))).

(** One node of [load]. *)
Definition load_node (now : Instant) (t : RoutingTable) (node : CompactNode)
    : option RoutingTable :=
  match find_mut (cn_id node) (on_response now) t with
  | Some t => Some t
  | None =>
      let stored := on_response now (from_compact node now) in
      '(t, _) ← insert t (contact stored) now;
      Some (default t (find_mut (n_id stored) (on_response now) t))
  end.

(** [load] of a file whose id and compact nodes decode to [id] and [stored]. *)
Definition load_table (id : NodeId) (stored : list CompactNode) (now : Instant)
    : option RoutingTable :=
  foldl (fun acc node => t ← acc; load_node now t node) (Some (routing_new id now)) stored.

(** ** The bits of an id *)

Definition wf_id (id : NodeId) : Prop := length id = NODE_ID_LEN /\ wf_bytes id.

(** Bit [i] of an id, the most significant first. *)
Definition id_bit (id : NodeId) (i : nat) : bool :=
  Z.testbit (default 0 (id !! (i / 8)%nat)) (7 - Z.of_nat (i mod 8)).

Lemma id_bit_cons_lt x id i : (i < 8)%nat -> id_bit (x :: id) i = Z.testbit x (7 - Z.of_nat i).
Proof. intros. unfold id_bit. by rewrite Nat.div_small, Nat.mod_small by done. Qed.

Lemma id_bit_cons_ge x id i : id_bit (x :: id) (8 + i) = id_bit id i.
Proof.
  unfold id_bit. replace (8 + i)%nat with (i + 1 * 8)%nat by lia.
  rewrite Nat.div_add, Nat.Div0.mod_add by lia.
  by replace (i / 8 + 1)%nat with (S (i / 8)) by lia.
Qed.

Lemma byte_bit_high x k : is_u8 x -> 8 <= k -> Z.testbit x k = false.
Proof.
  intros Hx Hk. destruct (decide (x = 0)) as [->|]; [apply Z.testbit_0_l|].
  apply Z.bits_above_log2; [ranges|].
  apply Z.lt_le_trans with 8; [|done]. apply Z.log2_lt_pow2; ranges.
Qed.

(** [leading_zeros] of the difference of two bytes is the number of equal
    leading bits. *)
Lemma leading_zeros_diff x y n :
  is_u8 x -> is_u8 y -> Z.lxor x y <> 0 ->
  n <= leading_zeros8 (Z.lxor x y) <->
  forall i, (i < 8)%nat -> Z.of_nat i < n -> Z.testbit x (7 - Z.of_nat i) = Z.testbit y (7 - Z.of_nat i).
Proof.
  intros Hx Hy Hd. unfold leading_zeros8. case_cmp; [done|].
  pose proof (is_u8_lxor x y Hx Hy) as Hu. set (d := Z.lxor x y) in *.
  assert (Hl : 0 <= Z.log2 d < 8).
  { split; [apply Z.log2_nonneg|]. apply Z.log2_lt_pow2; ranges. }
  split.
  - intros Hn i Hi Hin. apply xorb_eq. rewrite <- Z.lxor_spec.
    apply Z.bits_above_log2; [ranges|]. fold d. lia.
  - intros H'. destruct (decide (n <= 7 - Z.log2 d)) as [|Hn]; [done|exfalso].
    specialize (H' (Z.to_nat (7 - Z.log2 d)) ltac:(lia) ltac:(lia)).
    replace (7 - Z.of_nat (Z.to_nat (7 - Z.log2 d))) with (Z.log2 d) in H' by lia.
    assert (Hb : Z.testbit d (Z.log2 d) = true) by (apply Z.bit_log2; ranges).
    unfold d in Hb at 1. rewrite Z.lxor_spec, H', xorb_nilpotent in Hb. done.
Qed.

Lemma matching_loop_spec a b n :
  length a = length b -> wf_bytes a -> wf_bytes b -> n <= 8 * Z.of_nat (length a) ->
  n <= matching_loop a b <-> forall i, Z.of_nat i < n -> id_bit a i = id_bit b i.
Proof.
  revert b n. induction a as [|x a IH]; intros [|y b] n Hlen Ha Hb Hn; try done.
  cbn in Hlen, Hn. inversion_clear Ha. inversion_clear Hb. cbn [matching_loop].
  destruct (Z.eqb_spec (Z.lxor x y) 0) as [Hd|Hd].
  - apply Z.lxor_eq in Hd as <-.
    transitivity (n - 8 <= matching_loop a b); [lia|]. rewrite IH by (done || lia).
    split; intros H' i Hi.
    + destruct (decide (i < 8)%nat); [by rewrite !id_bit_cons_lt|].
      replace i with (8 + (i - 8))%nat by lia. rewrite !id_bit_cons_ge. apply H'. lia.
    + rewrite <- (id_bit_cons_ge x a), <- (id_bit_cons_ge x b). apply H'. lia.
  - rewrite leading_zeros_diff by done. split; intros H' i.
    + intros Hi. destruct (decide (i < 8)%nat) as [|Hge]; [rewrite !id_bit_cons_lt by done; auto|].
      exfalso. apply Hd. apply Z.bits_inj'. intros k Hk. rewrite Z.testbit_0_l, Z.lxor_spec.
      destruct (decide (k < 8)); [|by rewrite !byte_bit_high by (done || lia)].
      specialize (H' (Z.to_nat (7 - k)) ltac:(lia) ltac:(lia)).
      replace (7 - Z.of_nat (Z.to_nat (7 - k))) with k in H' by lia.
      rewrite H'. apply xorb_nilpotent.
    + intros Hi Hin. rewrite <- (id_bit_cons_lt x a), <- (id_bit_cons_lt y b) by done. by apply H'.
Qed.

(** A bucket covers the ids that agree with its prefix on its first bits. *)
Lemma covers_spec b id :
  wf_id (b_prefix b) -> wf_id id -> prefix_len b <= 160 ->
  covers b id = true <-> forall i, Z.of_nat i < prefix_len b -> id_bit (b_prefix b) i = id_bit id i.
Proof.
  intros [Hl Hw] [Hl' Hw'] Hp. unfold covers, matching_prefix_bits. rewrite Z.leb_le.
  assert (8 * Z.of_nat (length (b_prefix b)) = 160) by (by rewrite Hl).
  rewrite <- matching_loop_spec by (congruence || done || lia). lia.
Qed.

Lemma testbit_put_bit b s v k :
  0 <= s < 8 -> 0 <= k < 8 -> Z.testbit (put_bit b s v) k = if k =? s then v else Z.testbit b k.
Proof.
  intros Hs Hk. unfold put_bit. rewrite Z.shiftl_1_l.
  destruct v; rewrite ?Z.lor_spec, ?Z.land_spec, ?Z.lxor_spec, Z.pow2_bits_eqb by lia.
  - rewrite (Z.eqb_sym s). by destruct (k =? s), (Z.testbit b k).
  - change 255 with (Z.ones 8). rewrite Z.ones_spec_low by lia.
    rewrite (Z.eqb_sym s). by destruct (k =? s), (Z.testbit b k).
Qed.

Lemma put_bit_u8 b s v : is_u8 b -> 0 <= s < 8 -> is_u8 (put_bit b s v).
Proof.
  intros Hb Hs. assert (Hp : is_u8 (Z.shiftl 1 s)).
  { rewrite Z.shiftl_1_l. pose proof (Z.pow_pos_nonneg 2 s).
    pose proof (Z.pow_le_mono_r 2 s 7). ranges. }
  assert (is_u8 255) by ranges.
  unfold put_bit. destruct v; auto using is_u8_lor, is_u8_land, is_u8_lxor.
Qed.

Lemma set_bit_spec id bit v :
  wf_id id -> 0 <= bit < 160 ->
  exists id', set_bit id bit v = Some id' /\ wf_id id' /\
    forall i, id_bit id' i = if decide (Z.of_nat i = bit) then v else id_bit id i.
Proof.
  intros [Hl Hw] Hb. unfold set_bit.
  assert (Hlt : (Z.to_nat (bit / 8) < length id)%nat).
  { rewrite Hl. assert (bit / 8 < 20) by (apply Z.div_lt_upper_bound; lia).
    pose proof (Z.div_pos bit 8). unfold NODE_ID_LEN. lia. }
  destruct (lookup_lt_is_Some_2 _ _ Hlt) as [b E]. rewrite E.
  set (byte := Z.to_nat (bit / 8)) in *. set (s := 7 - bit mod 8).
  pose proof (Z.mod_pos_bound bit 8 ltac:(lia)) as Hm.
  pose proof (Z.div_mod bit 8 ltac:(lia)) as Hdm.
  eexists. split; [done|]. split.
  - split; [by rewrite length_insert|]. apply Forall_insert; [done|].
    apply put_bit_u8; [|unfold s; lia]. by eapply Forall_lookup_1 in Hw.
  - intros i. unfold id_bit. pose proof (Nat.div_mod_eq i 8) as Hi.
    pose proof (Nat.mod_upper_bound i 8 ltac:(lia)).
    assert (Z.to_nat (bit / 8) = byte) by done.
    destruct (decide (byte = (i / 8)%nat)) as [Hbi|Hne].
    + rewrite <- Hbi, list_lookup_insert_eq, E by done. cbn [from_option Datatypes.id].
      rewrite testbit_put_bit by (unfold s; lia).
      destruct (Z.eqb_spec (7 - Z.of_nat (i mod 8)) s) as [Hs|Hs]; unfold s in Hs;
        case_decide; done || lia.
    + rewrite list_lookup_insert_ne by done. case_decide; [|done]. lia.
Qed.

Lemma testbit_mix_byte t f rem k :
  0 < rem < 8 -> 0 <= k < 8 ->
  Z.testbit (mix_byte t f rem) k = if 8 - rem <=? k then Z.testbit f k else Z.testbit t k.
Proof.
  intros Hr Hk. unfold mix_byte. rewrite Z.shiftl_1_l.
  replace (2 ^ (8 - rem) - 1) with (Z.ones (8 - rem)) by (rewrite Z.ones_equiv; lia).
  rewrite Z.lor_spec, !Z.land_spec, !Z.lxor_spec. change 255 with (Z.ones 8).
  rewrite (Z.ones_spec_low 8) by lia. case_cmp.
  - rewrite Z.ones_spec_high by lia. by destruct (Z.testbit t k), (Z.testbit f k).
  - rewrite Z.ones_spec_low by lia. by destruct (Z.testbit t k), (Z.testbit f k).
Qed.

Lemma mix_byte_u8 t f rem : is_u8 t -> is_u8 f -> 0 < rem < 8 -> is_u8 (mix_byte t f rem).
Proof.
  intros Ht Hf Hr. unfold mix_byte. assert (is_u8 (Z.shiftl 1 (8 - rem) - 1)).
  { rewrite Z.shiftl_1_l. pose proof (Z.pow_pos_nonneg 2 (8 - rem)).
    pose proof (Z.pow_le_mono_r 2 (8 - rem) 7). ranges. }
  assert (is_u8 255) by ranges. auto using is_u8_lor, is_u8_land, is_u8_lxor.
Qed.

(** [copy_prefix] takes the first bits from [from] and the others from [to]. *)
Lemma copy_prefix_spec from to n :
  wf_id from -> wf_id to -> 0 <= n <= 160 ->
  exists id, copy_prefix from to n = Some id /\ wf_id id /\
    forall i, Z.of_nat i < n -> id_bit id i = id_bit from i.
Proof.
  intros [Lf Wf] [Lt Wt] Hn. unfold copy_prefix. destruct (Z.eqb_spec n 0); [exists to; split; [done|]; split; [done|intros; lia]|].
  pose proof (Z.div_mod n 8 ltac:(lia)) as Hdm. pose proof (Z.mod_pos_bound n 8 ltac:(lia)) as Hm.
  set (full := Z.to_nat (n / 8)). assert (Hfull : Z.of_nat full = n / 8) by (unfold full; lia).
  unfold NODE_ID_LEN in *.
  rewrite !slice_total by lia. red_bind. rewrite drop_0, Nat.sub_0_r.
  set (to1 := take full from ++ drop full to).
  assert (L1 : length to1 = 20%nat).
  { unfold to1. rewrite length_app, length_take, length_drop. lia. }
  assert (W1 : wf_bytes to1) by (apply Forall_app; split; [by apply Forall_take|by apply Forall_drop]).
  assert (Hlow : forall j, (j < full)%nat -> to1 !! j = from !! j).
  { intros j Hj. unfold to1. rewrite lookup_app_l by (rewrite length_take; lia).
    by apply lookup_take_lt. }
  case_cmp.
  - destruct (lookup_lt_is_Some_2 to1 full ltac:(lia)) as [t Et].
    destruct (lookup_lt_is_Some_2 from full ltac:(lia)) as [f Ef]. rewrite Et, Ef. red_bind.
    eexists. split; [done|]. split.
    { split; [by rewrite length_insert|]. apply Forall_insert; [done|].
      apply mix_byte_u8; [by eapply Forall_lookup_1 in W1|by eapply Forall_lookup_1 in Wf|lia]. }
    intros i Hi. unfold id_bit. pose proof (Nat.div_mod_eq i 8).
    pose proof (Nat.mod_upper_bound i 8 ltac:(lia)).
    destruct (decide (i / 8 = full)%nat) as [Hif|Hne].
    + rewrite Hif, list_lookup_insert_eq, Ef by lia. cbn [from_option Datatypes.id].
      rewrite testbit_mix_byte by lia. case_cmp; [done|]. lia.
    + rewrite list_lookup_insert_ne, Hlow by lia. done.
  - exists to1. split_and!; try done. intros i Hi. unfold id_bit.
    pose proof (Nat.div_mod_eq i 8). pose proof (Nat.mod_upper_bound i 8 ltac:(lia)).
    by rewrite Hlow by lia.
Qed.

(** ** The invariant *)

Record wf_bucket (own : NodeId) (b : Bucket) : Prop := {
  wb_prefix : wf_id (b_prefix b);
  wb_len : 0 <= prefix_len b <= 160;
  wb_size : (length (b_nodes b) <= K)%nat;
  wb_nodes : forall n, n ∈ b_nodes b ->
    wf_id (n_id n) /\ covers b (n_id n) = true /\ n_id n <> own }.

(** How many buckets cover [id]. *)
Definition cover_count (bs : list Bucket) (id : NodeId) : nat :=
  length (filter (fun b => covers b id = true) bs).

Record table_inv (t : RoutingTable) : Prop := {
  ti_id : wf_id (rt_id t);
  ti_buckets : Forall (wf_bucket (rt_id t)) (buckets t);
  ti_partition : forall id, wf_id id -> cover_count (buckets t) id = 1%nat;
  ti_unique : NoDup (n_id <$> nodes t);
  ti_depth : forall b, b ∈ buckets t -> covers b (rt_id t) = true ->
    prefix_len b + 1 = Z.of_nat (length (buckets t)) }.

(** The half of a bucket covers the ids of the bucket with that next bit. *)
Lemma covers_child own b now p' v ns id :
  wf_bucket own b -> prefix_len b < 160 -> wf_id id ->
  set_bit (b_prefix b) (prefix_len b) v = Some p' ->
  covers (mkBucket (prefix_len b + 1) p' ns now) id =
    covers b id && eqb (id_bit id (Z.to_nat (prefix_len b))) v.
Proof.
  intros Hb Hlt Hid Hset. pose proof (wb_len _ _ Hb) as Hlen.
  destruct (set_bit_spec (b_prefix b) (prefix_len b) v) as (p & E & Hp & Hbits);
    [apply Hb|lia|]. rewrite Hset in E. injection E as <-.
  apply eq_bool_prop_intro. rewrite andb_True, !Is_true_true.
  rewrite (covers_spec b) by (apply Hb || done || lia).
  rewrite covers_spec by (cbn; done || lia). cbn [prefix_len b_prefix]. rewrite eqb_true_iff.
  split.
  - intros H. split.
    + intros i Hi. rewrite <- H by lia. rewrite Hbits, decide_False by lia. done.
    + rewrite <- H by lia. rewrite Hbits, decide_True by lia. done.
  - intros [H Hv] i Hi. rewrite Hbits. case_decide as Hd.
    + rewrite <- Hv. f_equal. lia.
    + apply H. lia.
Qed.

Lemma filter_bool_split {A} (f : A -> bool) (l : list A) :
  filter (fun x => f x = true) l ++ filter (fun x => f x = false) l ≡ₚ l.
Proof.
  induction l as [|x l IH]; [done|]. destruct (f x) eqn:E.
  - rewrite filter_cons_True, filter_cons_False by congruence. cbn. by rewrite IH.
  - rewrite filter_cons_False, filter_cons_True by congruence.
    by rewrite <- Permutation_middle, IH.
Qed.

Lemma split_spec own b now :
  wf_bucket own b -> prefix_len b < 160 ->
  exists l r, split b now = Some (l, r) /\ wf_bucket own l /\ wf_bucket own r /\
    prefix_len l = prefix_len b + 1 /\ prefix_len r = prefix_len b + 1 /\
    b_nodes l ++ b_nodes r ≡ₚ b_nodes b /\
    (forall id, wf_id id -> covers l id = covers b id && negb (id_bit id (Z.to_nat (prefix_len b)))) /\
    (forall id, wf_id id -> covers r id = covers b id && id_bit id (Z.to_nat (prefix_len b))).
Proof.
  intros Hb Hlt. pose proof (wb_len _ _ Hb) as Hlen. unfold split.
  destruct (set_bit_spec (b_prefix b) (prefix_len b) false) as (pl & El & Hpl & _); [apply Hb|lia|].
  destruct (set_bit_spec (b_prefix b) (prefix_len b) true) as (pr & Er & Hpr & _); [apply Hb|lia|].
  rewrite El, Er. red_bind. unfold U8_MAX. case_cmp; [lia|].
  set (nl := filter _ (b_nodes b)). set (nr := filter _ (b_nodes b)).
  assert (Hl : forall ns id, wf_id id -> covers (mkBucket (prefix_len b + 1) pl ns now) id =
    covers b id && negb (id_bit id (Z.to_nat (prefix_len b)))).
  { intros. erewrite covers_child by done. by destruct (id_bit _ _). }
  assert (Hr : forall ns id, wf_id id -> covers (mkBucket (prefix_len b + 1) pr ns now) id =
    covers b id && id_bit id (Z.to_nat (prefix_len b))).
  { intros. erewrite covers_child by done. by destruct (id_bit _ _). }
  assert (Hsub : forall P `{!forall n : Node, Decision (P n)},
    (length (filter P (b_nodes b)) <= K)%nat).
  { intros. etrans; [apply length_filter|apply Hb]. }
  do 2 eexists. split; [done|]. repeat split_and!; try done.
  - split; cbn; [done|lia|apply Hsub|]. intros n [Hc Hn]%list_elem_of_filter.
    destruct (wb_nodes _ _ Hb n Hn) as (? & ? & ?). done.
  - split; [done|cbn; lia|apply Hsub|]. intros n [Hc Hn]%list_elem_of_filter.
    destruct (wb_nodes _ _ Hb n Hn) as (Hw & Hcov & ?). split; [done|]. split; [|done].
    rewrite Hl in Hc by done. unfold set_nodes. rewrite Hr by done. rewrite Hcov in *. by destruct (id_bit _ _).
  - apply (filter_bool_split (fun n => covers (mkBucket (prefix_len b + 1) pl [] now) (n_id n))).
  - intros. by apply Hl.
  - intros. by apply Hr.
Qed.

Lemma cover_count_app bs bs' id : cover_count (bs ++ bs') id = (cover_count bs id + cover_count bs' id)%nat.
Proof. unfold cover_count. by rewrite filter_app, length_app. Qed.

Lemma cover_count_cons b bs id :
  cover_count (b :: bs) id = (Nat.b2n (covers b id) + cover_count bs id)%nat.
Proof. unfold cover_count. rewrite filter_cons. by destruct (covers b id). Qed.

Lemma nodes_app bs bs' : (bs ++ bs') ≫= b_nodes = (bs ≫= b_nodes) ++ (bs' ≫= b_nodes).
Proof. apply bind_app. Qed.

(** The buckets cover the id space: [bucket_index] does not panic. *)
Lemma bucket_index_total t id :
  table_inv t -> wf_id id ->
  exists l1 b l2, bucket_index t id = Some (length l1) /\ buckets t = l1 ++ b :: l2 /\
    covers b id = true.
Proof.
  intros Ht Hid. unfold bucket_index. destruct (position _ _) as [i|] eqn:E.
  - apply position_split in E as (l1 & b & l2 & -> & <- & ? & ?). by exists l1, b, l2.
  - exfalso. apply position_None in E. pose proof (ti_partition _ Ht id Hid) as Hc.
    unfold cover_count in Hc. destruct (filter _ (buckets t)) as [|b l] eqn:F; [done|].
    assert (Hb : b ∈ filter (fun b => covers b id = true) (buckets t)) by (rewrite F; left).
    apply list_elem_of_filter in Hb as [Hb Hin]. rewrite Forall_forall in E.
    rewrite E in Hb by done. done.
Qed.

(** Buckets that stand for the same part of the id space. *)
Definition same_range (b b' : Bucket) : Prop :=
  prefix_len b' = prefix_len b /\ b_prefix b' = b_prefix b.

Lemma same_range_covers b b' id : same_range b b' -> covers b' id = covers b id.
Proof. intros [H1 H2]. unfold covers. by rewrite H1, H2. Qed.

Lemma same_range_refl b : same_range b b.
Proof. done. Qed.
#[local] Hint Resolve same_range_refl : bitrev.

Lemma same_ranges_refl bs : Forall2 same_range bs bs.
Proof. induction bs; constructor; auto with bitrev. Qed.

Lemma same_ranges_one l1 b b' l2 :
  same_range b b' -> Forall2 same_range (l1 ++ b :: l2) (l1 ++ b' :: l2).
Proof. intros. apply Forall2_app; [apply same_ranges_refl|]. constructor; [done|apply same_ranges_refl]. Qed.

Lemma same_ranges_count bs bs' id :
  Forall2 same_range bs bs' -> cover_count bs' id = cover_count bs id.
Proof.
  induction 1 as [|b b' bs bs' H _ IH]; [done|].
  by rewrite !cover_count_cons, IH, (same_range_covers b b').
Qed.

Lemma inv_update t bs' :
  table_inv t -> Forall2 same_range (buckets t) bs' -> Forall (wf_bucket (rt_id t)) bs' ->
  NoDup (n_id <$> (bs' ≫= b_nodes)) -> table_inv (set_buckets bs' t).
Proof.
  intros Ht Hr Hb Hn. split; cbn [rt_id buckets set_buckets]; try done; [apply Ht|..].
  - intros. rewrite (same_ranges_count (buckets t)) by done. by apply Ht.
  - intros b' Hin Hc. apply list_elem_of_lookup in Hin as [i Hi].
    destruct (Forall2_lookup_r _ _ _ _ _ Hr Hi) as (b & Hbi & Hs).
    rewrite (same_range_covers b) in Hc by done. destruct Hs as [-> _].
    rewrite (ti_depth _ Ht b) by (done || by eapply list_elem_of_lookup_2).
    f_equal. by eapply Forall2_length.
Qed.

(** Change the nodes of one bucket. *)
Lemma inv_one t l1 b b' l2 :
  table_inv t -> buckets t = l1 ++ b :: l2 -> same_range b b' ->
  (wf_bucket (rt_id t) b -> wf_bucket (rt_id t) b') ->
  NoDup (n_id <$> ((l1 ++ b' :: l2) ≫= b_nodes)) -> table_inv (set_buckets (l1 ++ b' :: l2) t).
Proof.
  intros Ht E Hs Hw Hn. apply inv_update; [done| |..|done].
  - rewrite E. by apply same_ranges_one.
  - pose proof (ti_buckets _ Ht) as Hb. rewrite E in Hb.
    apply Forall_app in Hb as [H1 [H2 H3]%Forall_cons]. apply Forall_app. auto.
Qed.

Lemma modify_first_Some p f g bs bs' :
  modify_first p f g bs = Some bs' ->
  exists l1 b l2 n1 n n2, bs = l1 ++ b :: l2 /\ b_nodes b = n1 ++ n :: n2 /\ p n = true /\
    bs' = l1 ++ g (set_nodes (n1 ++ f n :: n2) b) :: l2.
Proof.
  revert bs'. induction bs as [|b bs IH]; intros bs'; cbn; [done|].
  destruct (position p (b_nodes b)) as [pos|] eqn:E.
  - intros [= <-]. apply position_split in E as (n1 & n & n2 & E & <- & ? & _).
    exists [], b, bs, n1, n, n2. split_and!; try done.
    by rewrite E, alter_app_r_alt, Nat.sub_diag by lia.
  - destruct (modify_first p f g bs) as [bs''|]; cbn; [|done]. intros [= <-].
    destruct (IH bs'' eq_refl) as (l1 & b' & l2 & n1 & n & n2 & -> & ? & ? & ->).
    exists (b :: l1), b', l2, n1, n, n2. done.
Qed.

Lemma modify_first_None p f g bs :
  modify_first p f g bs = None -> Forall (fun n => p n = false) (bs ≫= b_nodes).
Proof.
  induction bs as [|b bs IH]; cbn; [done|].
  destruct (position p (b_nodes b)) as [pos|] eqn:E; [done|].
  destruct (modify_first p f g bs); [done|]. intros _.
  apply Forall_app. split; [by apply position_None|auto].
Qed.

(** A change of one node that keeps its id keeps the invariant. *)
Lemma modify_inv t p f g bs' :
  table_inv t -> (forall n, n_id (f n) = n_id n) ->
  (forall b, same_range b (g b) /\ b_nodes (g b) = b_nodes b) ->
  modify_first p f g (buckets t) = Some bs' ->
  table_inv (set_buckets bs' t) /\
  exists n1 n n2, nodes t = n1 ++ n :: n2 /\ p n = true /\ bs' ≫= b_nodes = n1 ++ f n :: n2.
Proof.
  intros Ht Hf Hg (l1 & b & l2 & n1 & n & n2 & E & En & Hp & ->)%modify_first_Some.
  destruct (Hg (set_nodes (n1 ++ f n :: n2) b)) as [[Hl Hx] Hgn]. cbn in Hl, Hx, Hgn.
  assert (Hnodes : nodes t = ((l1 ≫= b_nodes) ++ n1) ++ n :: n2 ++ (l2 ≫= b_nodes)).
  { unfold nodes. rewrite E, nodes_app. cbn. by rewrite En, <- !app_assoc. }
  assert (Hnodes' : (l1 ++ g (set_nodes (n1 ++ f n :: n2) b) :: l2) ≫= b_nodes
    = ((l1 ≫= b_nodes) ++ n1) ++ f n :: n2 ++ (l2 ≫= b_nodes)).
  { rewrite nodes_app. cbn. by rewrite Hgn, <- !app_assoc. }
  split; [|eauto 10].
  eapply inv_one; [done|done|by split|..].
  - intros Hb. split; rewrite ?Hl, ?Hx; [apply Hb..| |].
    + rewrite Hgn. pose proof (wb_size _ _ Hb) as Hs. rewrite En in Hs.
      rewrite !length_app in *. cbn in *. lia.
    + rewrite Hgn. intros m Hm. pose proof (wb_nodes _ _ Hb) as Hns. rewrite En in Hns.
      rewrite (same_range_covers b) by done.
      apply elem_of_app in Hm as [Hm|[->|Hm]%elem_of_cons]; [| |];
        rewrite ?Hf; apply Hns; set_solver.
  - rewrite Hnodes'. pose proof (ti_unique _ Ht) as Hu. rewrite Hnodes in Hu.
    rewrite fmap_app, fmap_cons in *. by rewrite Hf.
Qed.

Lemma find_mut_Some id f t t' :
  table_inv t -> (forall n, n_id (f n) = n_id n) -> find_mut id f t = Some t' ->
  table_inv t' /\ rt_id t' = rt_id t /\
  exists n1 n n2, nodes t = n1 ++ n :: n2 /\ n_id n = id /\ nodes t' = n1 ++ f n :: n2.
Proof.
  intros Ht Hf. unfold find_mut. destruct (modify_first _ _ _ _) as [bs'|] eqn:E; cbn; [|done].
  intros [= <-]. apply modify_inv in E as [Hi (n1 & n & n2 & ? & Hp & ?)]; [|done..].
  apply bool_decide_eq_true in Hp. split; [done|]. split; [done|]. by exists n1, n, n2.
Qed.

Lemma find_mut_None id f t : find_mut id f t = None -> id ∉ n_id <$> nodes t.
Proof.
  unfold find_mut. destruct (modify_first _ _ _ _) as [bs'|] eqn:E; cbn; [done|]. intros _.
  apply modify_first_None in E. rewrite Forall_forall in E.
  intros (n & -> & Hn)%list_elem_of_fmap. specialize (E n Hn).
  by rewrite bool_decide_eq_false in E.
Qed.

Lemma touch_bucket_inv t id now :
  table_inv t -> wf_id id ->
  exists t', touch_bucket_for id now t = Some t' /\ table_inv t' /\ rt_id t' = rt_id t /\
    nodes t' = nodes t.
Proof.
  intros Ht Hid. destruct (bucket_index_total t id Ht Hid) as (l1 & b & l2 & E & Eb & _).
  unfold touch_bucket_for. rewrite E. red_bind. rewrite Eb, alter_app_r_alt, Nat.sub_diag by lia.
  cbn [alter list_alter].
  assert (Hn : (l1 ++ touch now b :: l2) ≫= b_nodes = nodes t).
  { unfold nodes. rewrite Eb, !nodes_app. done. }
  eexists. split; [done|]. split; [|done].
  eapply inv_one; [done|done|done| |rewrite Hn; apply Ht].
  intros Hb. split; apply Hb.
Qed.

Lemma inv_split t l1 b l2 l r now :
  table_inv t -> buckets t = l1 ++ b :: l2 -> covers b (rt_id t) = true -> prefix_len b < 160 ->
  split b now = Some (l, r) ->
  let t' := set_buckets (l1 ++ l :: r :: l2) t in table_inv t' /\ nodes t' ≡ₚ nodes t.
Proof.
  intros Ht E Hown Hlt Hsplit t'. pose proof (ti_buckets _ Ht) as Hall. rewrite E in Hall.
  apply Forall_app in Hall as [Hw1 [Hwb Hw2]%Forall_cons].
  destruct (split_spec _ b now Hwb Hlt) as (l' & r' & E' & Hl & Hr & Hpl & Hpr & Hn & Hcl & Hcr).
  rewrite Hsplit in E'. injection E' as <- <-.
  assert (Hnodes : nodes t' ≡ₚ nodes t).
  { unfold nodes, t'. cbn. rewrite E, !nodes_app. cbn. by rewrite <- Hn, <- app_assoc. }
  split; [|done]. split; cbn [rt_id buckets set_buckets t'].
  - apply Ht.
  - apply Forall_app. auto.
  - intros id Hid. rewrite <- (ti_partition _ Ht id Hid), E.
    rewrite !cover_count_app, !cover_count_cons, Hcl, Hcr by done.
    destruct (covers b id), (id_bit _ _); cbn; lia.
  - change (NoDup (n_id <$> nodes t')). rewrite Hnodes. apply Ht.
  - pose proof (ti_partition _ Ht _ (ti_id _ Ht)) as Hc.
    rewrite E, cover_count_app, cover_count_cons, Hown in Hc. cbn in Hc.
    pose proof (ti_depth _ Ht b) as Hd. rewrite E, length_app in Hd. cbn in Hd.
    assert (Hno : forall c bs, cover_count bs (rt_id t) = 0%nat -> c ∈ bs -> covers c (rt_id t) = true -> False).
    { intros c bs Hz Hin Hcov. unfold cover_count in Hz. apply length_zero_iff_nil in Hz.
      assert (Hin' : c ∈ filter (fun b => covers b (rt_id t) = true) bs)
        by by apply list_elem_of_filter.
      rewrite Hz in Hin'. by apply not_elem_of_nil in Hin'. }
    rewrite length_app. cbn. specialize (Hd ltac:(set_solver) Hown).
    intros c [Hin|[->|[->|Hin]%elem_of_cons]%elem_of_cons]%elem_of_app Hcov; try lia;
      exfalso; eapply Hno; [|done|done|..|done|done]; lia.
Qed.

(** ** Insertion *)

Lemma opt_ltb_trans a b c : opt_ltb a b = false -> opt_ltb b c = false -> opt_ltb a c = false.
Proof. destruct a, b, c; cbn; try done. rewrite !Z.ltb_ge. lia. Qed.

Lemma opt_ltb_asym a b : opt_ltb a b = true -> opt_ltb b a = false.
Proof. destruct a, b; cbn; try done. rewrite Z.ltb_lt, Z.ltb_ge. lia. Qed.

Lemma opt_ltb_irrefl a : opt_ltb a a = false.
Proof. destruct a; cbn; [apply Z.ltb_irrefl|done]. Qed.

Lemma min_by_ping_key_spec l :
  match min_by_ping_key l with
  | Some n => n ∈ l /\ forall m, m ∈ l -> opt_ltb (ping_key m) (ping_key n) = false
  | None => l = []
  end.
Proof.
  destruct l as [|n l]; [done|]. cbn. revert n. induction l as [|m l IH]; intros n; cbn.
  - split; [left|]. intros m ->%list_elem_of_singleton. apply opt_ltb_irrefl.
  - set (best := if opt_ltb (ping_key m) (ping_key n) then m else n).
    destruct (IH best) as [Hin Hmin].
    assert (Hb : opt_ltb (ping_key n) (ping_key best) = false /\
                 opt_ltb (ping_key m) (ping_key best) = false /\ best ∈ [n; m]).
    { unfold best. destruct (opt_ltb _ _) eqn:E.
      - split_and!; [by apply opt_ltb_asym|apply opt_ltb_irrefl|right; left].
      - split_and!; [apply opt_ltb_irrefl|done|left]. }
    destruct Hb as (Hn & Hm & Hbest). set (res := fold_left _ _ _) in *.
    assert (Hres : opt_ltb (ping_key best) (ping_key res) = false) by (apply Hmin; left).
    split.
    { clearbody res best. rewrite !elem_of_cons in *. destruct Hin as [->|]; [|by auto].
      rewrite elem_of_nil in Hbest. tauto. }
    intros x [->|[->|Hx]%elem_of_cons]%elem_of_cons.
    + by eapply opt_ltb_trans.
    + by eapply opt_ltb_trans.
    + apply Hmin. by right.
Qed.

(** What a new id does to a table with nodes [ns]: it is added, it replaces a
    bad node, or the full bucket [b] it belongs to keeps its nodes, none of them
    bad, and the questionable one heard from least recently is to be pinged. *)
Definition insert_effect (ns : list Node) (node : CompactNode) (now : Instant)
    (t' : RoutingTable) (r : InsertResult) : Prop :=
  match r with
  | Added => nodes t' ≡ₚ from_compact node now :: ns
  | Replaced => exists old, old ∈ ns /\ status old now = Bad /\
      old :: nodes t' ≡ₚ from_compact node now :: ns
  | NeedPing addr replacement => nodes t' ≡ₚ ns /\ replacement = node /\
      exists b n, b ∈ buckets t' /\ covers b (cn_id node) = true /\ length (b_nodes b) = K /\
        n ∈ b_nodes b /\ n_addr n = addr /\ status n now = Questionable /\
        forall m, m ∈ b_nodes b -> status m now <> Bad /\
          (status m now = Questionable -> opt_ltb (ping_key m) (ping_key n) = false)
  | Dropped => nodes t' ≡ₚ ns /\
      exists b, b ∈ buckets t' /\ covers b (cn_id node) = true /\ length (b_nodes b) = K /\
        forall m, m ∈ b_nodes b -> status m now = Good
  | Updated | SplitBucket => False
  end.

Lemma insert_effect_perm ns ns' node now t' r :
  ns ≡ₚ ns' -> insert_effect ns node now t' r -> insert_effect ns' node now t' r.
Proof.
  intros Hp. destruct r; cbn; [by rewrite Hp|done|done| |by rewrite Hp|by rewrite Hp].
  intros (old & ? & ? & ?). exists old. by rewrite <- Hp.
Qed.

Lemma swap_middle {A} (l1 l2 : list A) x y : [x] ++ l1 ++ y :: l2 ≡ₚ y :: l1 ++ x :: l2.
Proof.
  cbn. rewrite <- (Permutation_middle l1 l2 x), <- (Permutation_middle l1 l2 y). apply perm_swap.
Qed.

(** The new node put into the covering bucket, with [gone] taken out. *)
Lemma inv_put t l1 b l2 ns gone node now :
  table_inv t -> buckets t = l1 ++ b :: l2 -> covers b (cn_id node) = true ->
  wf_id (cn_id node) -> cn_id node <> rt_id t -> cn_id node ∉ n_id <$> nodes t ->
  gone ++ ns ≡ₚ from_compact node now :: b_nodes b -> (length ns <= K)%nat ->
  let t' := set_buckets (l1 ++ touch now (set_nodes ns b) :: l2) t in
  table_inv t' /\ gone ++ nodes t' ≡ₚ from_compact node now :: nodes t.
Proof.
  intros Ht E Hcov Hw Hne Hnew Hp Hk t'.
  assert (Hnodes : gone ++ nodes t' ≡ₚ from_compact node now :: nodes t).
  { unfold nodes, t'. cbn [buckets set_buckets]. rewrite E, !nodes_app. cbn [mbind list_bind].
    cbn [b_nodes touch set_nodes].
    rewrite (Permutation_app_swap_app gone), (app_assoc gone), Hp. cbn.
    by rewrite <- Permutation_middle. }
  split; [|done]. eapply inv_one; [done|done|done|..].
  - intros Hb. split; cbn; [apply Hb..|done|]. intros n Hn.
    assert (Hin : n ∈ from_compact node now :: b_nodes b).
    { rewrite <- Hp. apply elem_of_app. by right. }
    apply elem_of_cons in Hin as [->|Hin]; [done|]. by apply (wb_nodes _ _ Hb).
  - change (NoDup (n_id <$> nodes t')).
    assert (Hnd : NoDup (n_id <$> (gone ++ nodes t'))).
    { rewrite Hnodes. cbn. constructor; [done|apply Ht]. }
    rewrite fmap_app in Hnd. by apply NoDup_app in Hnd as (_ & _ & ?).
Qed.

Lemma insert_full_spec t l1 b l2 node now :
  table_inv t -> buckets t = l1 ++ b :: l2 -> covers b (cn_id node) = true ->
  wf_id (cn_id node) -> cn_id node <> rt_id t -> cn_id node ∉ n_id <$> nodes t ->
  length (b_nodes b) = K ->
  exists t' r, insert_full t (length l1) b node now = (t', r) /\ table_inv t' /\
    rt_id t' = rt_id t /\ insert_effect (nodes t) node now t' r.
Proof.
  intros Ht E Hcov Hw Hne Hnew Hk. unfold insert_full.
  assert (Hin : b ∈ buckets t) by (rewrite E; apply elem_of_app; right; left).
  destruct (position _ _) as [pos|] eqn:Epos.
  - apply position_split in Epos as (n1 & old & n2 & En & <- & Hbad & _).
    apply bool_decide_eq_true in Hbad. rewrite E, En, !insert_middle by done.
    destruct (inv_put t l1 b l2 (n1 ++ from_compact node now :: n2) [old] node now)
      as [Hi Hn]; try done.
    + rewrite En. apply swap_middle.
    + rewrite <- Hk, En, !length_app. done.
    + do 2 eexists. split; [done|]. split; [done|]. split; [done|]. exists old.
      split; [|done]. unfold nodes. rewrite E, nodes_app. cbn. rewrite En. set_solver.
  - apply position_None in Epos. rewrite Forall_forall in Epos.
    setoid_rewrite bool_decide_eq_false in Epos.
    pose proof (min_by_ping_key_spec
      (filter (fun n => status n now = Questionable) (b_nodes b))) as Hmin.
    destruct (min_by_ping_key _) as [n|].
    + destruct Hmin as [[Hq Hn]%list_elem_of_filter Hmin].
      do 2 eexists. split; [done|]. split; [done|]. split; [done|]. cbn. split; [done|].
      split; [done|]. exists b, n. split_and!; try done. intros m Hm. split; [by apply Epos|].
      intros Hqm. apply Hmin. by apply list_elem_of_filter.
    + do 2 eexists. split; [done|]. split; [done|]. split; [done|]. cbn. split; [done|].
      exists b. split_and!; try done. intros m Hm. specialize (Epos m Hm).
      destruct (status m now) eqn:Es; [done| |done]. exfalso.
      assert (Hm' : m ∈ filter (fun n => status n now = Questionable) (b_nodes b))
        by by apply list_elem_of_filter.
      rewrite Hmin in Hm'. by apply not_elem_of_nil in Hm'.
Qed.

Lemma drop_middle {A} (l1 l2 : list A) x : drop (S (length l1)) (l1 ++ x :: l2) = l2.
Proof. by rewrite cons_middle, app_assoc, drop_app_length' by (rewrite length_app; cbn; lia). Qed.

Lemma insert_loop_spec fuel t node now :
  table_inv t -> wf_id (cn_id node) -> cn_id node <> rt_id t -> cn_id node ∉ n_id <$> nodes t ->
  (162 <= fuel + length (buckets t))%nat -> (length (buckets t) <= 161)%nat ->
  exists t' r, insert_loop fuel t node now = Some (t', r) /\ table_inv t' /\
    rt_id t' = rt_id t /\ insert_effect (nodes t) node now t' r.
Proof.
  revert t. induction fuel as [|fuel IH]; intros t Ht Hw Hne Hnew Hf Hlen; [lia|].
  cbn [insert_loop].
  destruct (bucket_index_total t (cn_id node) Ht Hw) as (l1 & b & l2 & -> & E & Hcov).
  red_bind. rewrite E, list_lookup_middle by done. red_bind.
  pose proof (ti_buckets _ Ht) as Hall. rewrite E in Hall.
  apply Forall_app in Hall as [_ [Hb _]%Forall_cons]. pose proof (wb_size _ _ Hb) as Hk.
  destruct (Nat.ltb_spec (length (b_nodes b)) K) as [Hlt|Hge].
  { rewrite insert_middle by done.
    destruct (inv_put t l1 b l2 (b_nodes b ++ [from_compact node now]) [] node now)
      as [Hi Hn]; try done.
    - by rewrite <- Permutation_cons_append.
    - rewrite length_app. cbn. lia.
    - eauto 10. }
  destruct (covers b (rt_id t) && (prefix_len b <? 160)) eqn:Hs.
  - apply andb_true_iff in Hs as [Hown Hlt]. apply Z.ltb_lt in Hlt.
    destruct (split_spec _ b now Hb Hlt) as (l & r & Es & _). rewrite Es. red_bind.
    rewrite take_app_length, drop_middle.
    destruct (inv_split t l1 b l2 l r now) as [Hi Hn]; try done.
    pose proof (ti_depth _ Ht b) as Hd. rewrite E in Hd, Hf, Hlen.
    rewrite length_app in Hd, Hf, Hlen. cbn in Hd, Hf, Hlen.
    specialize (Hd ltac:(set_solver) Hown).
    destruct (IH (set_buckets (l1 ++ l :: r :: l2) t)) as (t' & res & ? & ? & ? & He); try done.
    + by rewrite Hn.
    + cbn. rewrite length_app. cbn. lia.
    + cbn. rewrite length_app. cbn. lia.
    + exists t', res. split_and!; try done. by eapply insert_effect_perm.
  - destruct (insert_full_spec t l1 b l2 node now) as (t' & r & -> & ?); try done; [lia|].
    by exists t', r.
Qed.

Lemma buckets_bound t : table_inv t -> (1 <= length (buckets t) <= 161)%nat.
Proof.
  intros Ht. destruct (bucket_index_total t (rt_id t) Ht (ti_id _ Ht)) as (l1 & b & l2 & _ & E & Hc).
  pose proof (ti_buckets _ Ht) as Hall. rewrite E in Hall.
  apply Forall_app in Hall as [_ [Hb _]%Forall_cons]. pose proof (wb_len _ _ Hb) as Hlen.
  pose proof (ti_depth _ Ht b ltac:(rewrite E; set_solver) Hc). lia.
Qed.

Lemma nodes_bound t : table_inv t -> (rt_len t <= K * length (buckets t))%nat.
Proof.
  intros Ht. unfold rt_len, nodes. pose proof (ti_buckets _ Ht) as Hall.
  induction Hall as [|b bs Hb _ IH]; cbn [mbind list_bind length]; [lia|].
  rewrite length_app. pose proof (wb_size _ _ Hb). lia.
Qed.

(** The node of an id that is known already. *)
Definition refreshed (t : RoutingTable) (node : CompactNode) (now : Instant) (t' : RoutingTable)
    : Prop :=
  exists n1 n n2, nodes t = n1 ++ n :: n2 /\ n_id n = cn_id node /\
    nodes t' = n1 ++ on_response now (set_addr (cn_addr node) n) :: n2.

Definition is_v4 (a : SocketAddr) : bool := match a with V4 _ _ => true | V6 _ _ _ _ => false end.

Lemma insert_outcome t node now :
  table_inv t -> wf_id (cn_id node) ->
  exists t' r, insert t node now = Some (t', r) /\ table_inv t' /\ rt_id t' = rt_id t /\
    if bool_decide (cn_id node = rt_id t) || negb (is_v4 (cn_addr node)) then t' = t /\ r = Dropped
    else if bool_decide (cn_id node ∈ n_id <$> nodes t) then r = Updated /\ refreshed t node now t'
    else insert_effect (nodes t) node now t' r.
Proof.
  intros Ht Hw. unfold insert. case_decide as Hown.
  { rewrite bool_decide_true by done. by exists t, Dropped. }
  rewrite bool_decide_false by done.
  destruct (cn_addr node) as [ip port|] eqn:Ea; [|by exists t, Dropped]. cbn [orb negb is_v4].
  destruct (find_mut _ _ t) as [t1|] eqn:E.
  - apply find_mut_Some in E as (Hi & Hid & n1 & n & n2 & En & Hn0 & En'); [|done..].
    destruct (touch_bucket_inv t1 (cn_id node) now Hi Hw) as (t2 & -> & ? & ? & Hn). red_bind.
    exists t2, Updated. split_and!; try done; [congruence|].
    rewrite bool_decide_true; [|rewrite En, fmap_app, fmap_cons, <- Hn0; set_solver].
    split; [done|]. exists n1, n, n2. rewrite Ea. by rewrite Hn.
  - pose proof (find_mut_None _ _ _ E) as Hnew. pose proof (buckets_bound t Ht).
    rewrite bool_decide_false by done.
    apply insert_loop_spec; try done; unfold insert_fuel; lia.
Qed.

(** ** Sequences of operations *)

(** [replace] checks neither the range nor the id of the new node: the caller has to
    see to it that the bucket of the old address covers the new id, and that the
    table does not hold it yet. *)
Definition replace_fits (t : RoutingTable) (old : SocketAddr) (new : CompactNode) : Prop :=
  cn_id new <> rt_id t /\ cn_id new ∉ n_id <$> nodes t /\
  forall b n, b ∈ buckets t -> n ∈ b_nodes b -> n_addr n = old -> covers b (cn_id new) = true.

Lemma replace_inv t old new now :
  table_inv t -> wf_id (cn_id new) -> replace_fits t old new -> table_inv (fst (replace t old new now)).
Proof.
  intros Ht Hw (Hne & Hnew & Hcov). unfold replace.
  destruct (modify_first _ _ _ _) as [bs'|] eqn:E; [|done]. cbn [fst].
  apply modify_first_Some in E as (l1 & b & l2 & n1 & n & n2 & E & En & Hp & ->).
  apply bool_decide_eq_true in Hp.
  destruct (inv_put t l1 b l2 (n1 ++ from_compact new now :: n2) [n] new now) as [Hi _]; try done.
  - apply (Hcov b n); [rewrite E; set_solver|rewrite En; set_solver|done].
  - rewrite En. apply swap_middle.
  - pose proof (ti_buckets _ Ht) as Hall. rewrite E in Hall.
    apply Forall_app in Hall as [_ [Hb _]%Forall_cons]. pose proof (wb_size _ _ Hb) as Hs.
    rewrite En in Hs. rewrite !length_app in *. done.
Qed.

Inductive rt_op :=
| OpInsert (node : CompactNode) (now : Instant)
| OpSeenQuery (id : NodeId) (addr : SocketAddr) (now : Instant)
| OpSeenResponse (id : NodeId) (addr : SocketAddr) (now : Instant)
| OpTimedOut (addr : SocketAddr)
| OpLoad (node : CompactNode) (now : Instant)
| OpReplace (old : SocketAddr) (new : CompactNode) (now : Instant).

Definition rt_step (t : RoutingTable) (op : rt_op) : option RoutingTable :=
  match op with
  | OpInsert node now => fst <$> insert t node now
  | OpSeenQuery id addr now => seen_query t id addr now
  | OpSeenResponse id addr now => seen_response t id addr now
  | OpTimedOut addr => Some (timed_out t addr)
  | OpLoad node now => load_node now t node
  | OpReplace old new now => Some (fst (replace t old new now))
  end.

(** The ids of the operations are arrays of 20 bytes. *)
Definition wf_op (op : rt_op) : Prop :=
  match op with
  | OpInsert node _ | OpLoad node _ | OpReplace _ node _ => wf_id (cn_id node)
  | OpSeenQuery id _ _ | OpSeenResponse id _ _ => wf_id id
  | OpTimedOut _ => True
  end.

Fixpoint rt_run (t : RoutingTable) (ops : list rt_op) : option RoutingTable :=
  match ops with
  | [] => Some t
  | op :: ops => t ← rt_step t op; rt_run t ops
  end.

Lemma find_mut_default_inv id f t :
  table_inv t -> (forall n, n_id (f n) = n_id n) -> table_inv (default t (find_mut id f t)).
Proof.
  intros Ht Hf. destruct (find_mut id f t) as [t'|] eqn:E; [|done]. by apply find_mut_Some in E as [].
Qed.

(** What the caller of [replace] has to ensure, when it is called. *)
Definition op_fits (t : RoutingTable) (op : rt_op) : Prop :=
  match op with OpReplace old new _ => replace_fits t old new | _ => True end.

Fixpoint ops_fit (t : RoutingTable) (ops : list rt_op) : Prop :=
  match ops with
  | [] => True
  | op :: ops => op_fits t op /\ match rt_step t op with Some t' => ops_fit t' ops | None => True end
  end.

Lemma rt_step_inv t op :
  table_inv t -> wf_op op -> op_fits t op -> exists t', rt_step t op = Some t' /\ table_inv t'.
Proof.
  intros Ht Hw Hfit. destruct op as [node now|id addr now|id addr now|addr|node now|old new now]; cbn in Hw |- *.
  - destruct (insert_outcome t node now Ht Hw) as (t' & r & -> & ? & _). by exists t'.
  - unfold seen_query. destruct (find_mut _ _ t) as [t1|] eqn:E.
    { apply find_mut_Some in E as []; [by exists t1|done..]. }
    destruct (insert_outcome t (mkCompactNode id addr) now Ht Hw) as (t' & r & -> & ? & _).
    by exists t'.
  - unfold seen_response. destruct (find_mut _ _ t) as [t1|] eqn:E.
    { apply find_mut_Some in E as [Hi _]; [|done..].
      destruct (touch_bucket_inv t1 id now Hi Hw) as (t2 & -> & ? & _). by exists t2. }
    destruct (insert_outcome t (mkCompactNode id addr) now Ht Hw) as (t' & r & E' & ? & _).
    unfold contact. cbn [n_id n_addr on_response node_new]. rewrite E'. red_bind.
    eexists. split; [done|]. by apply find_mut_default_inv.
  - unfold timed_out. destruct (modify_first _ _ _ _) as [bs|] eqn:E; [|by exists t].
    apply modify_inv in E as [? _]; [|done..]. eauto.
  - unfold load_node. destruct (find_mut _ _ t) as [t1|] eqn:E.
    { apply find_mut_Some in E as []; [by exists t1|done..]. }
    destruct (insert_outcome t (mkCompactNode (cn_id node) (cn_addr node)) now Ht Hw)
      as (t' & r & E' & ? & _).
    unfold contact. cbn [n_id n_addr on_response from_compact node_new]. rewrite E'. red_bind.
    eexists. split; [done|]. by apply find_mut_default_inv.
  - eexists. split; [done|]. by apply replace_inv.
Qed.

Lemma wf_zero_id : wf_id (replicate NODE_ID_LEN 0).
Proof. split; [done|]. apply Forall_replicate. ranges. Qed.

Lemma routing_new_inv id now : wf_id id -> table_inv (routing_new id now).
Proof.
  intros Hid. assert (Hc : forall i, wf_id i ->
    covers (mkBucket 0 (replicate NODE_ID_LEN 0) [] now) i = true).
  { intros i Hi. apply covers_spec; cbn; [apply wf_zero_id|done|lia|lia]. }
  split; cbn [rt_id buckets routing_new].
  - done.
  - constructor; [|done]. split; cbn [b_prefix prefix_len b_nodes length];
      [apply wf_zero_id|lia|unfold K; lia|by intros n ?%not_elem_of_nil].
  - intros i Hi. by rewrite cover_count_cons, Hc.
  - constructor.
  - by intros b ->%list_elem_of_singleton _.
Qed.

Lemma rt_run_inv t ops :
  table_inv t -> Forall wf_op ops -> ops_fit t ops -> exists t', rt_run t ops = Some t' /\ table_inv t'.
Proof.
  intros Ht Hops. revert t Ht. induction Hops as [|op ops Hop _ IH]; intros t Ht; cbn; [by exists t|].
  intros [Hf Hfs]. destruct (rt_step_inv t op Ht Hop Hf) as (t1 & E & Ht1). rewrite E in *. red_bind. by apply IH.
Qed.

Lemma ops_fit_app t ops ops' :
  ops_fit t ops -> (forall t', rt_run t ops = Some t' -> ops_fit t' ops') -> ops_fit t (ops ++ ops').
Proof.
  revert t. induction ops as [|op ops IH]; intros t; cbn; [by auto|]. intros [Hf Hfs] H. split; [done|].
  destruct (rt_step t op) as [t'|]; [|done]. by apply IH.
Qed.

(** Only [replace] asks anything of its caller. *)
Lemma ops_fit_others t ops : Forall (fun op => match op with OpReplace _ _ _ => False | _ => True end) ops -> ops_fit t ops.
Proof.
  intros Hops. revert t. induction Hops as [|op ops Hop _ IH]; intros t; cbn; [done|].
  split; [by destruct op|]. by destruct (rt_step t op).
Qed.

(** [load] is the run of its nodes. *)
Lemma load_table_run id stored now :
  load_table id stored now = rt_run (routing_new id now) (map (fun node => OpLoad node now) stored).
Proof.
  unfold load_table. generalize (routing_new id now) as t.
  induction stored as [|node stored IH]; intros t; cbn; [done|].
  destruct (load_node now t node) as [t1|]; cbn; [apply IH|].
  clear. by induction stored.
Qed.

(** ** Distances *)

(** The Kademlia distance of two ids, as an integer. *)
Definition distance (a b : NodeId) : Z := Z.lxor (of_be a) (of_be b).

Lemma cmp_xor_distance a b target :
  wf_id a -> wf_id b -> wf_id target ->
  cmp_xor a b target = (distance a target ?= distance b target).
Proof.
  intros [La Wa] [Lb Wb] [Lt Wt]. unfold cmp_xor, xor_distance, distance.
  rewrite <- !of_be_xor by congruence. apply cmp_list_of_be.
  - rewrite !length_zip_with. congruence.
  - by apply zip_lxor_wf.
  - by apply zip_lxor_wf.
Qed.

#[export] Instance closer_trans {A} (key : A -> NodeId) target :
  Transitive (fun a b => closer_eq target (key a) (key b)).
Proof. intros x y z. apply cmp_list_le_trans. Qed.

#[export] Instance closer_total {A} (key : A -> NodeId) target :
  Total (fun a b => closer_eq target (key a) (key b)).
Proof.
  intros x y. unfold closer_eq, cmp_xor. rewrite (cmp_list_antisym (xor_distance (key x) target)).
  destruct (cmp_list _ _); cbn; auto.
Qed.

Lemma of_be_inj a b :
  length a = length b -> wf_bytes a -> wf_bytes b -> of_be a = of_be b -> a = b.
Proof.
  intros Hl Ha Hb E. rewrite <- (be_bytes_of_be a), <- (be_bytes_of_be b) by done. congruence.
Qed.

Lemma distance_inj a b target :
  wf_id a -> wf_id b -> distance a target = distance b target -> a = b.
Proof.
  intros [La Wa] [Lb Wb] E. apply of_be_inj; [congruence|done|done|].
  unfold distance in E.
  assert (forall x, x = Z.lxor (Z.lxor x (of_be target)) (of_be target)) as Hx.
  { intros x. by rewrite Z.lxor_assoc, Z.lxor_nilpotent, Z.lxor_0_r. }
  rewrite (Hx (of_be a)), (Hx (of_be b)). by rewrite E.
Qed.

Lemma node_wf t n : table_inv t -> n ∈ nodes t -> wf_id (n_id n).
Proof.
  intros Ht (b & Hn & Hb)%list_elem_of_bind. pose proof (ti_buckets _ Ht) as Hall.
  rewrite Forall_forall in Hall. by apply (wb_nodes _ _ (Hall b Hb)).
Qed.

(** With distinct ids the order is strict. *)
Lemma closer_strict t target l :
  table_inv t -> wf_id target -> l ≡ₚ nodes t ->
  StronglySorted (fun a b => closer_eq target (n_id a) (n_id b)) l ->
  StronglySorted (fun a b => distance (n_id a) target < distance (n_id b) target) l.
Proof.
  intros Ht Htg Hp Hs. assert (Hw : forall n, n ∈ l -> wf_id (n_id n)).
  { intros n. rewrite Hp. by apply node_wf. }
  assert (Hnd : NoDup (n_id <$> l)) by (rewrite Hp; apply Ht).
  clear Hp. induction Hs as [|n l Hs IH Hall]; [constructor|].
  inversion_clear Hnd as [|? ? Hn Hnd']. constructor.
  { apply IH; [|done]. intros m Hm. apply Hw. by right. }
  rewrite Forall_forall in *. intros m Hm. specialize (Hall m Hm). unfold closer_eq in Hall.
  assert (wf_id (n_id n)) by (apply Hw; left). assert (wf_id (n_id m)) by (apply Hw; by right).
  rewrite cmp_xor_distance in Hall by done.
  destruct (Z.compare_spec (distance (n_id n) target) (distance (n_id m) target)) as [E| |];
    [|done|done].
  apply distance_inj in E; [|done..]. exfalso. apply Hn. rewrite E. by apply list_elem_of_fmap_2.
Qed.

(** The ids [stale_buckets] looks up lie in their buckets. *)
Lemma random_id_covered own b fill :
  wf_bucket own b -> wf_id fill ->
  exists id, random_id b fill = Some id /\ wf_id id /\ covers b id = true.
Proof.
  intros Hb Hf. pose proof (wb_len _ _ Hb) as Hlen.
  destruct (copy_prefix_spec (b_prefix b) fill (prefix_len b)) as (id & E & Hw & Hbits);
    [apply Hb|done|done|].
  exists id. split; [done|]. split; [done|]. apply covers_spec; [apply Hb|done|lia|].
  intros i Hi. symmetry. by apply Hbits.
Qed.

(** ** Properties *)

(** C29: from an empty table no sequence of insertions, queries, responses,
    timeouts, loaded nodes and replacements - a replacement, which checks nothing
    itself, by a node of the same bucket that the table does not hold - panics or
    runs forever; after it the buckets partition the id space, hold at most 8 nodes each, every node lies in the
    bucket that covers its id, ids are unique and the own id is not among them,
    and there are at most 161 buckets. *)
Theorem routing_invariant id now ops :
  wf_id id -> Forall wf_op ops -> ops_fit (routing_new id now) ops ->
  exists t, rt_run (routing_new id now) ops = Some t /\ table_inv t /\
    (length (buckets t) <= 161)%nat /\ (rt_len t <= 8 * 161)%nat.
Proof.
  intros Hid Hops Hfit. destruct (rt_run_inv _ _ (routing_new_inv id now Hid) Hops Hfit) as (t & ? & Ht).
  exists t. pose proof (buckets_bound t Ht). pose proof (nodes_bound t Ht) as Hn. unfold K in Hn.
  split_and!; done || lia.
Qed.

(** Inserting a node never panics, ends and keeps the invariant: the own id
    and IPv6 addresses are dropped, a known id is refreshed in place, and a new
    one is added, replaces a bad node, or leaves a full bucket without bad nodes
    as it is and names its oldest questionable node for a ping; every node that
    is not bad is still in the table. *)
Theorem insert_correct t node now :
  table_inv t -> wf_id (cn_id node) ->
  exists t' r, insert t node now = Some (t', r) /\ table_inv t' /\
    (if bool_decide (cn_id node = rt_id t) || negb (is_v4 (cn_addr node)) then t' = t /\ r = Dropped
     else if bool_decide (cn_id node ∈ n_id <$> nodes t) then r = Updated /\ refreshed t node now t'
     else insert_effect (nodes t) node now t' r) /\
    (forall n, n ∈ nodes t -> status n now <> Bad -> n_id n ∈ n_id <$> nodes t').
Proof.
  intros Ht Hw. destruct (insert_outcome t node now Ht Hw) as (t' & r & ? & ? & _ & Hr).
  exists t', r. split_and!; try done. intros n Hn Hlive.
  apply (list_elem_of_fmap_2 n_id) in Hn as Hn'.
  destruct (_ || _); [by destruct Hr as [-> _]|]. case_bool_decide.
  - destruct Hr as [_ (n1 & m & n2 & E & _ & ->)]. rewrite E in Hn'.
    rewrite fmap_app, fmap_cons in *. done.
  - destruct r; cbn in Hr; try done.
    + rewrite Hr. by right.
    + destruct Hr as (old & _ & Hbad & Hp).
      assert (Hin : n ∈ old :: nodes t') by (rewrite Hp; by right).
      apply elem_of_cons in Hin as [->|Hin]; [done|]. by apply list_elem_of_fmap_2.
    + destruct Hr as [-> _]. done.
    + destruct Hr as [-> _]. done.
Qed.

(** C30: [closest] returns the [count] nodes of the table (all of them if there
    are fewer) whose ids have the least exclusive-or distance to the target, in
    increasing distance. *)
Theorem closest_correct t target count :
  table_inv t -> wf_id target ->
  exists near far, closest t target count = map contact near /\ near ++ far ≡ₚ nodes t /\
    length near = Nat.min count (rt_len t) /\
    StronglySorted (fun a b => distance (n_id a) target < distance (n_id b) target) near /\
    forall a b, a ∈ near -> b ∈ far -> distance (n_id a) target < distance (n_id b) target.
Proof.
  intros Ht Htg. unfold closest. set (R := fun a b => closer_eq target (n_id a) (n_id b)).
  set (l := merge_sort R (nodes t)).
  assert (Hp : l ≡ₚ nodes t) by apply merge_sort_Permutation.
  assert (Hs : StronglySorted R l) by (apply StronglySorted_merge_sort; unfold R; apply _).
  apply (closer_strict t target l Ht Htg Hp) in Hs.
  rewrite <- (take_drop count l) in Hs. apply StronglySorted_app_inv in Hs as [Hs1 Hs2].
  exists (take count l), (drop count l). split_and!; try done.
  - by rewrite take_drop.
  - rewrite length_take. unfold rt_len. by rewrite Hp.
Qed.

(** ** A table with two buckets *)

Definition sample_id (b : u8) : NodeId := b :: replicate 19 0.

Definition sample_node (b : u8) : CompactNode := mkCompactNode (sample_id b) (V4 (2130706432 + b) 6881).

(** Eight nodes of the upper half, then one of the lower half, the half of the
    own id 0, which splits the bucket. *)
Definition sample_ops : list rt_op :=
  map (fun b => OpInsert (sample_node b) 0) [128; 129; 130; 131; 132; 133; 134; 135; 7].

Definition sample_table : RoutingTable :=
  default (routing_new (sample_id 0) 0) (rt_run (routing_new (sample_id 0) 0) sample_ops).

Lemma sample_id_wf b : is_u8 b -> wf_id (sample_id b).
Proof.
  intros Hb. split; [done|]. constructor; [done|]. apply Forall_replicate. ranges.
Qed.

Lemma sample_ops_wf : Forall wf_op sample_ops.
Proof. repeat (constructor; [apply sample_id_wf; ranges|]). constructor. Qed.

Lemma sample_inv : table_inv sample_table.
Proof.
  unfold sample_table. assert (H0 : wf_id (sample_id 0)) by (apply sample_id_wf; ranges).
  destruct (rt_run_inv _ _ (routing_new_inv _ 0 H0) sample_ops_wf) as (t & -> & ?); [|done].
  by apply ops_fit_others; repeat constructor.
Qed.

(** The same, and a node of the full bucket replaced. *)
Definition sample_replaced : list rt_op := sample_ops ++ [OpReplace (cn_addr (sample_node 128)) (sample_node 136) 5].

Lemma sample_replaced_fit : ops_fit (routing_new (sample_id 0) 0) sample_replaced.
Proof.
  apply ops_fit_app; [by apply ops_fit_others; repeat constructor|].
  intros t Et. assert (t = sample_table) as -> by (unfold sample_table; by rewrite Et). cbn [ops_fit]. split; [|by destruct (rt_step _ _)].
  split_and!.
  - intros E. vm_compute in E. discriminate.
  - apply (bool_decide_unpack _). vm_compute. exact I.
  - assert (H : Forall (fun b => Forall (fun n => n_addr n = cn_addr (sample_node 128) -> covers b (sample_id 136) = true) (b_nodes b)) (buckets sample_table))
      by (apply (bool_decide_unpack _); vm_compute; exact I).
    intros b n Hb Hn. rewrite Forall_forall in H. specialize (H b Hb). rewrite Forall_forall in H. by apply H.
Qed.

Lemma routing_invariant_witness :
  (length ∘ buckets <$> rt_run (routing_new (sample_id 0) 0) sample_replaced) = Some 2%nat /\
  exists t, rt_run (routing_new (sample_id 0) 0) sample_replaced = Some t /\ table_inv t /\
    (length (buckets t) <= 161)%nat /\ (rt_len t <= 8 * 161)%nat.
Proof.
  split; [vm_compute; reflexivity|].
  apply (routing_invariant (sample_id 0) 0 sample_replaced).
  - apply sample_id_wf; ranges.
  - apply Forall_app. split; [apply sample_ops_wf|]. repeat constructor; try (unfold is_u8, U8_MAX; lia). all: vm_compute; split; discriminate.
  - apply sample_replaced_fit.
Defined.

Lemma closest_correct_witness :
  closest sample_table (sample_id 130) 3 =
    [sample_node 130; sample_node 131; sample_node 128] /\
  exists near far, closest sample_table (sample_id 130) 3 = map contact near /\
    near ++ far ≡ₚ nodes sample_table.
Proof.
  split; [vm_compute; reflexivity|].
  destruct (closest_correct sample_table (sample_id 130) 3) as (near & far & H1 & H2 & _);
    [apply sample_inv|apply sample_id_wf; ranges|]. exists near, far. split; assumption.
Defined.
