(* ===== verification/Text.v ===== *)
(** * Strings and slices of the Rust standard library

    A string is the list of its UTF-8 bytes.  Literals are written with [str];
    splitting, trimming and chunking are the functions of [str] and [slice] the
    components below use. *)

From Stdlib Require Import Ascii String.
From S2P Require Import Prelude Utf8.

(** A string literal, [b"..."]. *)
Definition str (s : string) : bytes := map (fun c => Z.of_N (N_of_ascii c)) (list_ascii_of_string s).
#[global] Arguments str s%_string.

(** [slice.as_chunks::<N>().0]: the full chunks, the remainder is dropped. *)
Fixpoint chunk_loop {A} (fuel n : nat) (l : list A) : list (list A) :=
  match fuel with
  | O => []
  | S fuel => if (length l <? n)%nat then [] else take n l :: chunk_loop fuel n (drop n l)
  end.

Definition as_chunks {A} (n : nat) (l : list A) : list (list A) := chunk_loop (length l) n l.

(** [s.split(p)]: the parts between the separators, at least one. *)
Fixpoint split_on (p : u8 -> bool) (s : bytes) : list bytes :=
  match s with
  | [] => [[]]
  | b :: s =>
      if p b then [] :: split_on p s
      else match split_on p s with
           | [] => [[b]]
           | part :: parts => (b :: part) :: parts
           end
  end.

(** ** Text as characters

    Where the source works on characters a string is the list of its code points;
    [utf8_chars] decodes, [None] when the bytes are not UTF-8. *)

Fixpoint utf8_chars (l : bytes) : option (list Z) :=
  match l with
  | [] => Some []
  | b0 :: l1 =>
      if b0 <? 128 then cons b0 <$> utf8_chars l1
      else match l1 with
      | [] => None
      | b1 :: l2 =>
          if utf8_lead2 b0 && utf8_cont b1 then cons ((b0 - 192) * 64 + (b1 - 128)) <$> utf8_chars l2
          else match l2 with
          | [] => None
          | b2 :: l3 =>
              if utf8_lead3 b0 b1 && utf8_cont b2 then
                cons ((b0 - 224) * 4096 + (b1 - 128) * 64 + (b2 - 128)) <$> utf8_chars l3
              else match l3 with
              | [] => None
              | b3 :: l4 =>
                  if utf8_lead4 b0 b1 && utf8_cont b2 && utf8_cont b3 then
                    cons ((b0 - 240) * 262144 + (b1 - 128) * 4096 + (b2 - 128) * 64 + (b3 - 128)) <$> utf8_chars l4
                  else None
              end
          end
      end
  end.

(** The bytes of a character and of a string. *)
Definition utf8_char (c : Z) : bytes :=
  if c <? 128 then [c]
  else if c <? 2048 then [192 + c / 64; 128 + c mod 64]
  else if c <? 65536 then [224 + c / 4096; 128 + (c / 64) mod 64; 128 + c mod 64]
  else [240 + c / 262144; 128 + (c / 4096) mod 64; 128 + (c / 64) mod 64; 128 + c mod 64].
Definition utf8_encode (s : list Z) : bytes := concat (map utf8_char s).

(** [char::is_whitespace]: the Unicode property White_Space. *)
Definition is_whitespace (c : Z) : bool :=
  within 9 13 c || (c =? 32) || (c =? 133) || (c =? 160) || (c =? 5760) || within 8192 8202 c ||
  (c =? 8232) || (c =? 8233) || (c =? 8239) || (c =? 8287) || (c =? 12288).

(** [trim_start_matches(p)], [trim_end_matches(p)] and [trim()]. *)
Fixpoint trim_start (p : Z -> bool) (s : list Z) : list Z :=
  match s with
  | c :: rest => if p c then trim_start p rest else s
  | [] => []
  end.
Definition trim_end (p : Z -> bool) (s : list Z) : list Z := rev (trim_start p (rev s)).
Definition trim (s : list Z) : list Z := trim_end is_whitespace (trim_start is_whitespace s).

(** [trim()] of a string given by its bytes. *)
Definition trim_str (s : bytes) : bytes :=
  match utf8_chars s with Some chars => utf8_encode (trim chars) | None => s end.

(** [s.split_once(c)] *)
Definition split_once (c : Z) (s : list Z) : option (list Z * list Z) :=
  p ← position (Z.eqb c) s; Some (take p s, drop (S p) s).

Fixpoint starts_with (pat s : list Z) : bool :=
  match pat, s with
  | [], _ => true
  | c :: pat, d :: s => (c =? d) && starts_with pat s
  | _, [] => false
  end.

(** [s.split_once(pat)] with a string *)
Fixpoint split_once_str (pat s : list Z) : option (list Z * list Z) :=
  if starts_with pat s then Some ([], drop (length pat) s)
  else match s with
       | [] => None
       | c :: s => '(l, r) ← split_once_str pat s; Some (c :: l, r)
       end.

(** [s.split_whitespace()] *)
Definition split_whitespace (s : list Z) : list (list Z) :=
  List.filter (fun w => match w with [] => false | _ => true end) (split_on is_whitespace s).

Definition strip_suffix (c : Z) (s : list Z) : list Z :=
  match rev s with d :: rest => if d =? c then rev rest else s | [] => s end.

(** [s.lines()]: a carriage return goes with the newline it precedes; nothing
    follows the last newline. *)
Definition lines (s : list Z) : list (list Z) :=
  let parts := split_on (Z.eqb 10) s in
  let terminated := map (strip_suffix 13) (removelast parts) in
  match last parts with
  | Some [] | None => terminated
  | Some rest => terminated ++ [rest]
  end.

(** ** Numbers *)

(** [parse::<uN>()]: an optional plus sign and digits, no overflow. *)
Fixpoint parse_dec (max acc : Z) (s : list Z) : option Z :=
  match s with
  | [] => Some acc
  | c :: s =>
      if within 48 57 c then
        let acc := acc * 10 + (c - 48) in
        if acc <=? max then parse_dec max acc s else None
      else None
  end.
Definition parse_uint (max : Z) (s : list Z) : option Z :=
  let digits := match s with c :: rest => if c =? 43 then rest else s | [] => [] end in
  match digits with [] => None | _ => parse_dec max 0 digits end.

Lemma parse_dec_range max acc s v : 0 <= acc <= max -> parse_dec max acc s = Some v -> 0 <= v <= max.
Proof.
  revert acc. induction s as [|c s IH]; intros acc Ha; cbn [parse_dec]; [by intros [= <-]|].
  unfold within. destruct (_ && _) eqn:Ec; [|done]. destruct (Z.leb_spec (acc * 10 + (c - 48)) max); [|done].
  apply IH. lia.
Qed.

Lemma parse_uint_range max s v : 0 <= max -> parse_uint max s = Some v -> 0 <= v <= max.
Proof. intros Hm. unfold parse_uint. repeat case_match; try done; apply parse_dec_range; lia. Qed.

(** ** Chunks *)

Lemma chunk_loop_concat {A} (n : nat) (cs : list (list A)) fuel rest :
  (0 < n)%nat -> Forall (fun c => length c = n) cs -> (length rest < n)%nat ->
  (length (concat cs) <= fuel)%nat -> chunk_loop fuel n (concat cs ++ rest) = cs.
Proof.
  intros Hn H Hrest. revert fuel. induction H as [|c cs Hc _ IH]; intros fuel Hf.
  - destruct fuel; [done|]. cbn [chunk_loop concat app]. by rewrite (proj2 (Nat.ltb_lt _ _)).
  - cbn [concat] in *. rewrite length_app in Hf. destruct fuel as [|fuel]; [lia|]. cbn [chunk_loop].
    rewrite <- app_assoc, (proj2 (Nat.ltb_ge _ _)) by (rewrite length_app; lia).
    rewrite take_app_length', drop_app_length' by done. f_equal. apply IH. lia.
Qed.

(** Chunking what was put together from chunks, an incomplete one at the end
    aside. *)
Lemma as_chunks_concat {A} (n : nat) (cs : list (list A)) rest :
  (0 < n)%nat -> Forall (fun c => length c = n) cs -> (length rest < n)%nat ->
  as_chunks n (concat cs ++ rest) = cs.
Proof. intros. apply chunk_loop_concat; try done. rewrite length_app. lia. Qed.

Lemma chunk_loop_lengths {A} fuel n (l : list A) : Forall (fun c => length c = n) (chunk_loop fuel n l).
Proof.
  revert l. induction fuel as [|fuel IH]; intros l; [constructor|]. cbn [chunk_loop].
  destruct (Nat.ltb_spec (length l) n); [constructor|]. constructor; [rewrite length_take; lia|apply IH].
Qed.

Lemma as_chunks_lengths {A} n (l : list A) : Forall (fun c => length c = n) (as_chunks n l).
Proof. apply chunk_loop_lengths. Qed.
