(* ===== verification/Identity.v ===== *)
(** * Who the client says it is (crates/bit_rev/src/identity.rs)

    The version in its several spellings and the announce key of a tracker.  The
    random generator's draws are arguments. *)

From S2P Require Import Prelude Bencode Text.

Definition CLIENT_NAME : bytes := str "bitrev".
Definition CLIENT_CODE : bytes := str "BR".
Definition CLIENT_VERSION : bytes := str "0.1.0".

Definition parse_component (part : option bytes) : u32 :=
  match parse_usize (default (str "0") part) with
  | Some v => if v <=? U32_MAX then v else 0
  | None => 0
  end.

Definition azureus_version (version : bytes) : bytes :=
  let core := default version (head (split_on (fun b => (b =? 45) || (b =? 43)) version)) in
  let parts := split_on (Z.eqb 46) core in
  let digit n := 48 + parse_component (parts !! n) mod 10 in
  [digit 0%nat; digit 1%nat; digit 2%nat; 48].

Definition user_agent : bytes := CLIENT_NAME ++ str "/" ++ CLIENT_VERSION.

Definition extension_version : bytes := CLIENT_NAME ++ str " " ++ CLIENT_VERSION.

Definition peer_id_prefix : bytes :=
  str "-" ++ CLIENT_CODE ++ azureus_version CLIENT_VERSION ++ str "-".

(** [utils.rs]: [random] are the twelve bytes drawn. *)
Definition generate_peer_id (random : bytes) : bytes := peer_id_prefix ++ random.

(** ** The announce key *)

Record TrackerIdentity := mkTrackerIdentity { ti_url : bytes; ti_key : u32 }.

Definition switch_url (random_key : u32) (url : bytes) (t : TrackerIdentity) : bool * TrackerIdentity :=
  if decide (url = ti_url t) then (false, t) else (true, mkTrackerIdentity url random_key).

(** Whatever the version string, the Azureus digits are digits: the prefix is
    printable and has its eight bytes. *)
Lemma azureus_version_digits version :
  length (azureus_version version) = 4%nat /\ Forall (fun b => is_ascii_digit b = true) (azureus_version version).
Proof.
  unfold azureus_version. split; [done|]. unfold is_ascii_digit.
  repeat constructor; match goal with |- context [?x mod 10] => pose proof (Z.mod_pos_bound x 10 ltac:(lia)); lia | _ => done end.
Qed.

Lemma generate_peer_id_length random : length random = 12%nat -> length (generate_peer_id random) = 20%nat.
Proof. intros H. unfold generate_peer_id. by rewrite length_app, H. Qed.

(** Tracker identities of different URLs do not share a key unless the generator
    repeats itself. *)
Lemma switch_url_key key url t :
  let '(switched, t') := switch_url key url t in
  ti_url t' = url /\ (switched = true -> ti_key t' = key) /\ (switched = false -> t' = t).
Proof. unfold switch_url. case_decide; cbn; split_and!; done. Qed.
