(* ===== verification/Value.v ===== *)
(** * Bencode values: the trees the encoders write and the decoder reads

    Decimal printing, the tree of [Encoded] values with its canonical encoding
    (dictionary keys sorted), and the [Value] of the bencode library.  The
    library's decoder [serde_bencode::from_bytes] is a parameter of everything
    that decodes; the class [BencodeLib] states what the code relies on, that it
    reads a canonical encoding back, and [parse_bencode] is one decoder that
    does.  The nesting guard and the skipper of [file.rs] accept every canonical
    encoding that is not too deep. *)

From S2P Require Import Prelude Bencode.

(** ** Decimal digits: [to_string] of an integer *)

Fixpoint dec_loop (fuel : nat) (z : Z) (acc : bytes) : bytes :=
  match fuel with
  | O => acc
  | S fuel =>
      let acc := (48 + z mod 10) :: acc in
      if z <? 10 then acc else dec_loop fuel (z / 10) acc
  end.

Definition dec (z : Z) : bytes := dec_loop (S (Z.to_nat (Z.log2 z))) z [].

Definition to_string (z : Z) : bytes := if z <? 0 then 45 :: dec (- z) else dec z.

(** ** Values *)

(** Both trees nest lists and maps: the generated induction principles would
    say nothing about the children. *)
Unset Elimination Schemes.

Inductive Value :=
| VBytes (b : bytes)
| VInt (n : i64)
| VList (l : list Value)
| VDict (d : gmap bytes Value).

Definition dict_bytes (dict : gmap bytes Value) (key : bytes) : option bytes :=
  match dict !! key with Some (VBytes b) => Some b | _ => None end.

Definition dict_int (dict : gmap bytes Value) (key : bytes) : option i64 :=
  match dict !! key with Some (VInt n) => Some n | _ => None end.

Definition dict_dict (dict : gmap bytes Value) (key : bytes) : option (gmap bytes Value) :=
  match dict !! key with Some (VDict d) => Some d | _ => None end.

(** ** The encoders' tree *)

Inductive Encoded :=
| EBytes (b : bytes)
| EInt (n : i64)
| EList (items : list Encoded)
| EDict (pairs : list (bytes * Encoded)).

Set Elimination Schemes.

(** Vectors of bytes compare lexicographically. *)
Definition key_le {A} (a b : bytes * A) : Prop := cmp_list (fst a) (fst b) <> Gt.

#[export] Instance key_le_dec {A} (a b : bytes * A) : Decision (key_le a b).
Proof. unfold key_le. solve_decision. Defined.

Definition encode_bytes (b : bytes) : bytes := to_string (Z.of_nat (length b)) ++ 58 :: b.

Definition encode_int (n : i64) : bytes := 105 :: to_string n ++ [101].

(** A dictionary whose values are encoded already. *)
Definition encode_dict (pairs : list (bytes * bytes)) : bytes :=
  100 :: concat (map (fun p => encode_bytes (fst p) ++ snd p) (merge_sort key_le pairs)) ++ [101].

(** The values of a dictionary are encoded before the pairs are sorted rather
    than after it: the sort looks at the keys only. *)
Fixpoint encode_value (value : Encoded) : bytes :=
  match value with
  | EBytes b => encode_bytes b
  | EInt n => encode_int n
  | EList items => 108 :: concat (map encode_value items) ++ [101]
  | EDict pairs => encode_dict (map (fun p => (fst p, encode_value (snd p))) pairs)
  end.

Fixpoint value_of (value : Encoded) : Value :=
  match value with
  | EBytes b => VBytes b
  | EInt n => VInt n
  | EList items => VList (map value_of items)
  | EDict pairs => VDict (list_to_map (map (fun p => (fst p, value_of (snd p))) pairs))
  end.

Definition tree_dict (pairs : list (bytes * Encoded)) : gmap bytes Value :=
  list_to_map (map (fun p => (fst p, value_of (snd p))) pairs).

(** Integers of 64 bits and dictionaries without repeated keys. *)
Fixpoint wf_encoded (value : Encoded) : Prop :=
  match value with
  | EBytes _ => True
  | EInt n => is_i64 n
  | EList items => foldr (fun e P => wf_encoded e /\ P) True items
  | EDict pairs => NoDup (map fst pairs) /\ foldr (fun p P => wf_encoded (snd p) /\ P) True pairs
  end.

(** How deep the lists and dictionaries nest, a leaf counting one. *)
Fixpoint height (value : Encoded) : nat :=
  match value with
  | EBytes _ | EInt _ => 1
  | EList items => S (foldr (fun e h => Nat.max (height e) h) 0%nat items)
  | EDict pairs => S (foldr (fun p h => Nat.max (height (snd p)) h) 1%nat pairs)
  end.

(** The entry of a key, in the tree. *)
Fixpoint assoc {A} (key : bytes) (pairs : list (bytes * A)) : option A :=
  match pairs with
  | [] => None
  | (k, v) :: pairs => if decide (k = key) then Some v else assoc key pairs
  end.

(** Byte strings hold bytes. *)
Inductive wf_value : Value -> Prop :=
| wf_VBytes b : wf_bytes b -> wf_value (VBytes b)
| wf_VInt n : is_i64 n -> wf_value (VInt n)
| wf_VList l : (forall v, v ∈ l -> wf_value v) -> wf_value (VList l)
| wf_VDict d : (forall k v, d !! k = Some v -> wf_value v) -> wf_value (VDict d).

(** What is relied on of the bencode library: a canonical encoding is read as
    the value it encodes, and the values read have the types of their parts. *)
Class BencodeLib (from_bytes : bytes -> option Value) : Prop := {
  from_bytes_canonical : forall e, wf_encoded e ->
    Z.of_nat (length (encode_value e)) <= U64_MAX -> from_bytes (encode_value e) = Some (value_of e);
  from_bytes_typed : forall s v, wf_bytes s -> from_bytes s = Some v -> wf_value v }.

(** The dictionary of a packet that passes the guard. *)
Definition guarded_dict (from_bytes : bytes -> option Value) (buf : bytes) : option (gmap bytes Value) :=
  guard ← check_bencode_depth buf;
  if negb (is_ok guard) then None
  else value ← from_bytes buf;
       match value with VDict dict => Some dict | _ => None end.

(** ** A reference decoder *)

Definition parse_i64 (s : bytes) : option i64 :=
  match s with
  | b :: rest =>
      if b =? 45 then v ← parse_usize rest; if v <=? I64_MAX + 1 then Some (- v) else None
      else v ← parse_usize s; if v <=? I64_MAX then Some v else None
  | [] => None
  end.

Definition parse_bytes (s : bytes) : option (bytes * bytes) :=
  p ← position (Z.eqb 58) s;
  len ← parse_usize (take p s);
  let rest := drop (S p) s in
  if Z.of_nat (length rest) <? len then None
  else Some (take (Z.to_nat len) rest, drop (Z.to_nat len) rest).

Fixpoint parse_value (fuel : nat) (s : bytes) : option (Value * bytes) :=
  match fuel with
  | O => None
  | S fuel =>
      match s with
      | [] => None
      | b :: rest =>
          if b =? 105 then
            p ← position (Z.eqb 101) rest;
            n ← parse_i64 (take p rest);
            Some (VInt n, drop (S p) rest)
          else if b =? 108 then
            '(l, rest) ← parse_items fuel rest; Some (VList l, rest)
          else if b =? 100 then
            '(d, rest) ← parse_pairs fuel rest; Some (VDict (list_to_map d), rest)
          else '(b, rest) ← parse_bytes s; Some (VBytes b, rest)
      end
  end
with parse_items (fuel : nat) (s : bytes) : option (list Value * bytes) :=
  match fuel with
  | O => None
  | S fuel =>
      if decide (head s = Some 101) then Some ([], tail s)
      else
        '(v, s) ← parse_value fuel s;
        '(l, s) ← parse_items fuel s;
        Some (v :: l, s)
  end
with parse_pairs (fuel : nat) (s : bytes) : option (list (bytes * Value) * bytes) :=
  match fuel with
  | O => None
  | S fuel =>
      if decide (head s = Some 101) then Some ([], tail s)
      else
        '(k, s) ← parse_bytes s;
        '(v, s) ← parse_value fuel s;
        '(l, s) ← parse_pairs fuel s;
        Some ((k, v) :: l, s)
  end.

Definition parse_bencode (s : bytes) : option Value :=
  '(v, rest) ← parse_value (length s) s; if decide (rest = []) then Some v else None.

(** ** Induction over the tree *)

Lemma Encoded_ind (P : Encoded -> Prop) :
  (forall b, P (EBytes b)) -> (forall n, P (EInt n)) ->
  (forall items, Forall P items -> P (EList items)) ->
  (forall pairs, Forall (fun p => P (snd p)) pairs -> P (EDict pairs)) ->
  forall e, P e.
Proof.
  intros Hb Hi Hl Hd. fix IH 1. intros [b|n|items|pairs]; [done|done| |].
  - apply Hl. induction items; constructor; auto.
  - apply Hd. induction pairs as [|[k e] pairs IHp]; constructor; simpl; auto.
Qed.

Lemma foldr_and {A} (Q : A -> Prop) l : foldr (fun x P => Q x /\ P) True l <-> Forall Q l.
Proof. induction l as [|x l IH]; simpl; [by rewrite Forall_nil|]. by rewrite Forall_cons, IH. Qed.

Lemma foldr_max {A} (f : A -> nat) d l n :
  (foldr (fun x h => Nat.max (f x) h) d l <= n)%nat -> (d <= n)%nat /\ Forall (fun x => f x <= n)%nat l.
Proof.
  induction l as [|x l IH]; simpl; intros H; [by rewrite Forall_nil|].
  rewrite Forall_cons. split_and!; [apply IH; lia|lia|apply IH; lia].
Qed.

Lemma dict_assoc pairs key :
  (list_to_map (map (fun p => (fst p, value_of (snd p))) pairs) : gmap bytes Value) !! key =
  value_of <$> assoc key pairs.
Proof.
  induction pairs as [|[k v] pairs IH]; [done|]. cbn [map list_to_map foldr assoc fst snd].
  destruct (decide (k = key)) as [->|Hne]; [apply lookup_insert_eq|]. by rewrite lookup_insert_ne.
Qed.

(** The pairs of a dictionary are written in some order of their own. *)
Lemma encode_dict_perm {A} (f : A -> bytes) (pairs : list (bytes * A)) :
  exists pairs', pairs' ≡ₚ pairs /\
    encode_dict (map (fun p => (fst p, f (snd p))) pairs) =
    100 :: concat (map (fun p => encode_bytes (fst p) ++ f (snd p)) pairs') ++ [101].
Proof.
  destruct (Permutation_map_inv (fun p => (fst p, f (snd p))) pairs
    (merge_sort_Permutation key_le (map (fun p => (fst p, f (snd p))) pairs))) as (pairs' & E & Hp).
  exists pairs'. split; [done|]. unfold encode_dict. rewrite E, map_map. done.
Qed.

(** ** Printing and reading numbers *)

Abbreviation digits s := (Forall (fun b => is_ascii_digit b = true) s) (only parsing).

Lemma log2_div10 z : 10 <= z -> Z.log2 (z / 10) < Z.log2 z.
Proof.
  intros Hz. assert (0 < z / 10) by (apply Z.div_str_pos; lia).
  pose proof (Z.log2_double (z / 10) ltac:(lia)).
  pose proof (Z.log2_le_mono (2 * (z / 10)) z ltac:(pose proof (Z.mul_div_le z 10); lia)). lia.
Qed.

Lemma dec_loop_parse fuel z acc :
  0 <= z <= U64_MAX -> (Z.to_nat (Z.log2 z) < fuel)%nat ->
  parse_digits 0 (dec_loop fuel z acc) = parse_digits z acc.
Proof.
  revert z acc. induction fuel as [|fuel IH]; intros z acc Hz Hf; [lia|]. cbn [dec_loop].
  pose proof (Z.mod_pos_bound z 10 ltac:(lia)). pose proof (Z_div_mod_eq_full z 10).
  assert (Hd : is_ascii_digit (48 + z mod 10) = true) by (unfold is_ascii_digit; lia).
  destruct (Z.ltb_spec z 10).
  - cbn [parse_digits]. rewrite Hd, (proj2 (Z.leb_le _ _)) by (unfold U64_MAX in *; lia).
    f_equal. rewrite Z.mod_small by lia. lia.
  - rewrite IH; [|lia|pose proof (log2_div10 z ltac:(lia)); pose proof (Z.log2_nonneg (z / 10)); lia].
    cbn [parse_digits]. replace (z / 10 * 10 + (48 + z mod 10 - 48)) with z by lia.
    by rewrite Hd, (proj2 (Z.leb_le _ _)) by lia.
Qed.

Lemma dec_loop_digits fuel z acc : 0 <= z -> digits acc -> digits (dec_loop fuel z acc).
Proof.
  revert z acc. induction fuel as [|fuel IH]; intros z acc Hz Ha; [done|]. cbn [dec_loop].
  pose proof (Z.mod_pos_bound z 10 ltac:(lia)). pose proof (Z_div_mod_eq_full z 10).
  assert (Hc : digits ((48 + z mod 10) :: acc)) by (constructor; [unfold is_ascii_digit; lia|done]).
  case_cmp; [done|]. apply IH; [lia|done].
Qed.

Lemma dec_loop_cons fuel z acc : exists c s, dec_loop (S fuel) z acc = c :: s.
Proof.
  revert z acc. induction fuel as [|fuel IH]; intros z acc; cbn [dec_loop].
  - case_cmp; eauto.
  - case_cmp; [eauto|]. apply IH.
Qed.

Lemma dec_digits z : 0 <= z -> digits (dec z).
Proof. intros. by apply dec_loop_digits. Qed.

(** A printed number starts with a digit. *)
Lemma dec_cons z : 0 <= z -> exists c s, dec z = c :: s /\ is_ascii_digit c = true.
Proof.
  intros Hz. destruct (dec_loop_cons (Z.to_nat (Z.log2 z)) z []) as (c & s & E). exists c, s.
  split; [done|]. pose proof (dec_digits z Hz) as Hd. unfold dec in Hd. rewrite E in Hd.
  by apply Forall_cons in Hd as [? _].
Qed.

Lemma parse_usize_digit c s : is_ascii_digit c = true -> parse_usize (c :: s) = parse_digits 0 (c :: s).
Proof. unfold is_ascii_digit, parse_usize. intros H. by rewrite (proj2 (Z.eqb_neq _ _)) by lia. Qed.

Lemma parse_usize_dec z : 0 <= z <= U64_MAX -> parse_usize (dec z) = Some z.
Proof.
  intros Hz. destruct (dec_cons z) as (c & s & E & Hc); [lia|].
  rewrite E, parse_usize_digit, <- E by done. unfold dec. rewrite dec_loop_parse; [done|done|lia].
Qed.

Lemma to_string_nonneg z : 0 <= z -> to_string z = dec z.
Proof. intros. unfold to_string. by rewrite (proj2 (Z.ltb_ge _ _)) by lia. Qed.

(** Printing a signed integer and reading it back. *)
Lemma parse_i64_to_string n : is_i64 n -> parse_i64 (to_string n) = Some n.
Proof.
  unfold is_i64, I64_MAX, to_string. intros Hn. destruct (Z.ltb_spec n 0).
  - unfold parse_i64. rewrite Z.eqb_refl, parse_usize_dec by (unfold U64_MAX; lia). red_bind.
    rewrite (proj2 (Z.leb_le _ _)) by (unfold I64_MAX; lia). f_equal. lia.
  - destruct (dec_cons n) as (c & s & E & Hc); [lia|]. unfold parse_i64. rewrite E.
    unfold is_ascii_digit in Hc. rewrite (proj2 (Z.eqb_neq c 45)) by lia. rewrite <- E.
    rewrite parse_usize_dec by (unfold U64_MAX; lia). red_bind.
    by rewrite (proj2 (Z.leb_le _ _)) by (unfold I64_MAX; lia).
Qed.

(** A byte that is neither a digit nor a minus sign does not occur in it. *)
Lemma to_string_no n x :
  is_ascii_digit x = false -> x <> 45 -> Forall (fun b => Z.eqb x b = false) (to_string n).
Proof.
  intros Hx Hm. assert (Hd : forall s, digits s -> Forall (fun b => Z.eqb x b = false) s).
  { intros s Hs. apply (Forall_impl _ _ _ Hs). intros b Hb. destruct (Z.eqb_spec x b) as [->|]; congruence. }
  unfold to_string. case_cmp; [constructor; [by destruct (Z.eqb_spec x 45)|]|]; apply Hd, dec_digits; lia.
Qed.

Lemma position_first {A} (p : A -> bool) l x k :
  Forall (fun b => p b = false) l -> p x = true -> position p (l ++ x :: k) = Some (length l).
Proof.
  intros Hl Hx. apply position_Some. split.
  - exists x. by rewrite list_lookup_middle.
  - intros q y Hq Hy. rewrite lookup_app_l in Hy by done. rewrite Forall_lookup in Hl. by eapply Hl.
Qed.

(** The length prefix of a byte string, up to its colon. *)
Lemma position_colon z s : position (Z.eqb 58) (to_string z ++ 58 :: s) = Some (length (to_string z)).
Proof. apply position_first; [by apply to_string_no|done]. Qed.

Lemma to_string_cons z : exists c s, to_string z = c :: s /\ (is_ascii_digit c = true \/ c = 45 /\ z < 0).
Proof.
  unfold to_string. destruct (Z.ltb_spec z 0); [eauto 6|].
  destruct (dec_cons z) as (c & s & E & Hc); [lia|]. eauto.
Qed.

Lemma parse_usize_len (b : bytes) :
  Z.of_nat (length b) <= U64_MAX -> parse_usize (to_string (Z.of_nat (length b))) = Some (Z.of_nat (length b)).
Proof. intros. rewrite to_string_nonneg by lia. apply parse_usize_dec. lia. Qed.

Lemma length_encode_bytes b :
  length (encode_bytes b) = (length (to_string (Z.of_nat (length b))) + S (length b))%nat.
Proof. unfold encode_bytes. by rewrite length_app. Qed.

(** ** The skipper gets over canonical encodings *)

Definition skippable (stack : nat) (c : bytes) : Prop :=
  c <> [] /\ head c <> Some 101 /\
  forall pre post, Z.of_nat (length (pre ++ c ++ post)) <= U64_MAX ->
    skip_bencode stack (pre ++ c ++ post) (length pre) = Some (Ok (length pre + length c)%nat).

Lemma lookup_at {A} (pre : list A) x post : (pre ++ x :: post) !! length pre = Some x.
Proof. apply list_lookup_middle. done. Qed.

Lemma drop_at {A} (pre : list A) x post : drop (S (length pre)) (pre ++ x :: post) = post.
Proof. rewrite cons_middle, app_assoc, drop_app_length'; [done|]. rewrite length_app. simpl. lia. Qed.

(** A byte string parses in place. *)
Lemma parse_encode_bytes pre b post :
  Z.of_nat (length (pre ++ encode_bytes b ++ post)) <= U64_MAX ->
  parse_bencode_byte_string (pre ++ encode_bytes b ++ post) (length pre) =
  Ok (b, (length pre + length (encode_bytes b))%nat).
Proof.
  intros Hlen. rewrite !length_app, length_encode_bytes in Hlen.
  assert (Hu : Z.of_nat (length b) <= U64_MAX) by lia. apply parse_usize_len in Hu.
  set (t := to_string (Z.of_nat (length b))) in *.
  assert (Ht : position (Z.eqb 58) (t ++ 58 :: b ++ post) = Some (length t)) by apply position_colon.
  unfold parse_bencode_byte_string. rewrite drop_app_length. unfold encode_bytes. fold t.
  rewrite <- app_assoc. cbn [app]. rewrite Ht. cbn [ok_or].
  unfold seg at 1. rewrite drop_app_length, take_app_length' by lia.
  rewrite Hu. cbn [ok_or].
  rewrite !length_app. cbn [length]. rewrite length_app.
  rewrite !(proj2 (Z.ltb_ge _ _)) by lia. f_equal. f_equal; [|fold t; lia].
  unfold seg. rewrite (app_assoc pre t), <- (length_app pre t), drop_at.
  rewrite take_app_length'; [done|lia].
Qed.

Lemma skippable_bytes b stack : skippable (S stack) (encode_bytes b).
Proof.
  destruct (dec_cons (Z.of_nat (length b))) as (c & s & E & Hc); [lia|].
  assert (Eb : encode_bytes b = c :: s ++ 58 :: b).
  { unfold encode_bytes. by rewrite to_string_nonneg, E by lia. }
  unfold is_ascii_digit in Hc. split_and!; [by rewrite Eb|rewrite Eb; intros [=]; lia|].
  intros pre post Hl. cbn [skip_bencode].
  assert (Hh : (pre ++ encode_bytes b ++ post) !! length pre = Some c) by (rewrite Eb; apply lookup_at).
  rewrite Hh, !(proj2 (Z.eqb_neq c _)) by lia. unfold is_ascii_digit.
  cbn [orb]. rewrite Hc, parse_encode_bytes by done. done.
Qed.

Lemma skippable_int n stack : skippable (S stack) (encode_int n).
Proof.
  unfold encode_int. split_and!; [done|done|]. intros pre post Hl. cbn [skip_bencode app].
  rewrite lookup_at. cbn [Z.eqb Pos.eqb]. rewrite drop_at, <- app_assoc. cbn [app].
  rewrite position_first; [|by apply to_string_no|done]. cbn [ok_or]. do 2 f_equal.
  cbn [length]. rewrite length_app. cbn [length]. lia.
Qed.

Lemma skip_items_chunks stack chunks fuel pre post :
  Forall (skippable stack) chunks -> (length chunks < fuel)%nat ->
  Z.of_nat (length (pre ++ concat chunks ++ 101 :: post)) <= U64_MAX ->
  skip_items (skip_bencode stack (pre ++ concat chunks ++ 101 :: post)) fuel
    (pre ++ concat chunks ++ 101 :: post) (length pre) =
  Some (Ok (S (length pre + length (concat chunks)))%nat).
Proof.
  intros H. revert fuel pre. induction H as [|c chunks (Hne & Hh & Hc) _ IH]; intros fuel pre Hf Hl.
  - destruct fuel as [|fuel]; [simpl in Hf; lia|]. cbn [skip_items concat app]. rewrite lookup_at.
    cbn. by rewrite Nat.add_0_r.
  - destruct fuel as [|fuel]; [simpl in Hf; lia|]. cbn [skip_items concat] in *.
    rewrite <- app_assoc in *. destruct c as [|x c]; [done|].
    assert (Hx : (x =? 101) = false) by (apply Z.eqb_neq; intros ->; by apply Hh).
    cbn [app]. rewrite lookup_at, Hx.
    change (pre ++ x :: c ++ concat chunks ++ 101 :: post) with (pre ++ (x :: c) ++ concat chunks ++ 101 :: post).
    rewrite Hc by done. red_bind. specialize (IH fuel (pre ++ x :: c)).
    rewrite <- app_assoc, !length_app in IH. rewrite IH; [|simpl in *; lia|].
    + cbn [app length]. rewrite ?length_app. cbn [length]. do 2 f_equal. lia.
    + rewrite !length_app in Hl. cbn [app length] in *. rewrite ?length_app in *. cbn [length] in *. lia.
Qed.

Lemma length_concat_ge chunks :
  Forall (fun c : bytes => c <> []) chunks -> (length chunks <= length (concat chunks))%nat.
Proof.
  induction 1 as [|[|x c] chunks Hc _ IH]; simpl; [lia|done|]. rewrite length_app. lia.
Qed.

Lemma skippable_items stack ty chunks :
  (ty =? 108) || (ty =? 100) = true -> Forall (skippable stack) chunks ->
  skippable (S stack) (ty :: concat chunks ++ [101]).
Proof.
  intros Hty H. split_and!; [done|intros [= ->]; done|]. intros pre post Hl.
  assert (E : pre ++ (ty :: concat chunks ++ [101]) ++ post = (pre ++ [ty]) ++ concat chunks ++ 101 :: post)
    by (rewrite <- app_assoc; cbn [app]; by rewrite <- app_assoc).
  rewrite E in *. cbn [skip_bencode]. rewrite <- (app_assoc pre [ty]) at 1. cbn [app]. rewrite lookup_at.
  rewrite Hty. destruct (Z.eqb_spec ty 105) as [->|]; [done|].
  pose proof (skip_items_chunks stack chunks (length ((pre ++ [ty]) ++ concat chunks ++ 101 :: post))
    (pre ++ [ty]) post H) as Hs.
  rewrite (length_app pre [ty]), Nat.add_1_r in Hs. rewrite Hs; [|  |done].
  - cbn [length]. rewrite length_app. cbn [length]. do 2 f_equal. lia.
  - rewrite !length_app. cbn [length].
    pose proof (length_concat_ge chunks ltac:(eapply Forall_impl; [exact H|by intros ? []])). lia.
Qed.

Lemma skippable_canonical e stack : (height e <= stack)%nat -> skippable stack (encode_value e).
Proof.
  revert stack. induction e as [b|n|items IH|pairs IH] using Encoded_ind; intros stack Hs;
    (destruct stack as [|stack]; [simpl in Hs; lia|]).
  - apply skippable_bytes.
  - apply skippable_int.
  - cbn [height] in Hs. apply le_S_n, foldr_max in Hs as [_ Hs].
    apply skippable_items; [done|]. apply Forall_map, Forall_forall. intros e He.
    rewrite Forall_forall in IH, Hs. auto.
  - cbn [height] in Hs. apply le_S_n, foldr_max in Hs as [H1 Hs].
    cbn [encode_value]. destruct (encode_dict_perm encode_value pairs) as (pairs' & Hp & ->).
    replace (concat _) with (concat (concat
      (map (fun p => [encode_bytes (fst p); encode_value (snd p)]) pairs'))).
    + apply skippable_items; [done|]. apply Forall_concat, Forall_map, Forall_forall. intros p Hin.
      rewrite Hp in Hin. rewrite Forall_forall in IH, Hs. constructor; [|constructor; [by auto|done]].
      destruct stack; [lia|]. apply skippable_bytes.
    + clear. induction pairs'; simpl; [done|]. rewrite <- app_assoc. by f_equal; f_equal.
Qed.

(** The guard accepts a canonical encoding that nests no deeper than 32. *)
Lemma guard_canonical e :
  (height e <= MAX_BENCODE_DEPTH)%nat -> Z.of_nat (length (encode_value e)) <= U64_MAX ->
  check_bencode_depth (encode_value e) = Some (Ok ()).
Proof.
  intros Hh Hl. destruct (skippable_canonical e _ Hh) as (_ & _ & Hs).
  specialize (Hs [] []). rewrite app_nil_r in Hs. specialize (Hs Hl). cbn [app length Nat.add] in Hs.
  assert (Hg : guard_ok (encode_value e) 0 0).
  { eapply guard_skip_back; [|  |exact Hs]; [lia|]. exists 1%nat. cbn [depth_loop].
    by rewrite lookup_ge_None_2 by lia. }
  destruct Hg as [f Hf].
  destruct (depth_loop_total (encode_value e) (S (length (encode_value e))) 0 0) as [r Hr];
    [done|lia|lia|]. unfold check_bencode_depth. rewrite Hr. f_equal. symmetry. by eapply depth_loop_det.
Qed.

(** ** The reference decoder reads canonical encodings *)

Lemma parse_bytes_encode b rest :
  Z.of_nat (length b) <= U64_MAX -> parse_bytes (encode_bytes b ++ rest) = Some (b, rest).
Proof.
  intros Hl. unfold parse_bytes, encode_bytes. rewrite <- app_assoc. cbn [app].
  rewrite position_colon. red_bind. rewrite take_app_length, parse_usize_len by done. red_bind.
  rewrite drop_at, length_app, (proj2 (Z.ltb_ge _ _)) by lia.
  by rewrite Nat2Z.id, take_app_length, drop_app_length.
Qed.

Definition reads (c : bytes) (v : Value) : Prop :=
  c <> [] /\ head c <> Some 101 /\
  forall fuel rest, (length c <= fuel)%nat -> parse_value fuel (c ++ rest) = Some (v, rest).

Lemma reads_bytes b : Z.of_nat (length b) <= U64_MAX -> reads (encode_bytes b) (VBytes b).
Proof.
  intros Hl. destruct (skippable_bytes b 0) as (Hne & Hh & _). split_and!; [done|done|].
  intros [|fuel] rest Hf; [destruct (encode_bytes b); [done|simpl in Hf; lia]|].
  destruct (dec_cons (Z.of_nat (length b))) as (c & s & E & Hc); [lia|].
  assert (Eb : encode_bytes b ++ rest = c :: (s ++ 58 :: b) ++ rest).
  { unfold encode_bytes. by rewrite to_string_nonneg, E by lia. }
  cbn [parse_value]. rewrite Eb. unfold is_ascii_digit in Hc. rewrite !(proj2 (Z.eqb_neq c _)) by lia.
  rewrite <- Eb, parse_bytes_encode by done. done.
Qed.

Lemma reads_int n : is_i64 n -> reads (encode_int n) (VInt n).
Proof.
  intros Hn. unfold encode_int. split_and!; [done|done|]. intros [|fuel] rest Hf; [simpl in Hf; lia|].
  cbn [parse_value app Z.eqb Pos.eqb]. rewrite <- app_assoc. cbn [app].
  rewrite position_first; [|by apply to_string_no|done]. red_bind.
  rewrite take_app_length, parse_i64_to_string by done. red_bind. by rewrite drop_at.
Qed.

Lemma parse_items_chunks {A} (enc : A -> bytes) (val : A -> Value) l fuel rest :
  Forall (fun x => reads (enc x) (val x)) l -> (length (concat (map enc l)) < fuel)%nat ->
  parse_items fuel (concat (map enc l) ++ 101 :: rest) = Some (map val l, rest).
Proof.
  intros H. revert fuel. induction H as [|x l (Hne & Hh & Hr) _ IH]; intros [|fuel] Hf;
    [simpl in Hf; lia|done|simpl in Hf; lia|].
  cbn [parse_items map concat] in *. rewrite <- app_assoc. rewrite length_app in Hf.
  destruct (enc x) as [|c s] eqn:Ex; [done|]. rewrite decide_False by done. rewrite <- Ex in *.
  rewrite Ex in Hf. cbn [length] in Hf. rewrite Hr by (rewrite Ex; cbn [length]; lia). red_bind.
  rewrite IH by lia. done.
Qed.

Lemma parse_pairs_chunks (enc : Encoded -> bytes) (val : Encoded -> Value) l fuel rest :
  Forall (fun p => reads (enc (snd p)) (val (snd p)) /\ Z.of_nat (length (fst p)) <= U64_MAX) l ->
  (length (concat (map (fun p => encode_bytes (fst p) ++ enc (snd p)) l)) < fuel)%nat ->
  parse_pairs fuel (concat (map (fun p => encode_bytes (fst p) ++ enc (snd p)) l) ++ 101 :: rest) =
  Some (map (fun p => (fst p, val (snd p))) l, rest).
Proof.
  intros H. revert fuel. induction H as [|[k x] l ((Hne & Hh & Hr) & Hk) _ IH]; intros [|fuel] Hf;
    [simpl in Hf; lia|done|simpl in Hf; lia|].
  cbn [parse_pairs map concat fst snd] in *. rewrite <- !app_assoc. rewrite !length_app in Hf.
  destruct (skippable_bytes k 0) as (Hne' & Hh' & _).
  destruct (encode_bytes k) as [|c s] eqn:Ex; [done|]. rewrite decide_False by done. rewrite <- Ex in *.
  rewrite Ex in Hf. cbn [length] in Hf. rewrite parse_bytes_encode by done. red_bind.
  rewrite Hr by lia. red_bind. rewrite IH by lia. done.
Qed.

Lemma length_concat_elem {A} (l : list (list A)) c : c ∈ l -> (length c <= length (concat l))%nat.
Proof. induction 1; simpl; rewrite length_app; lia. Qed.

Lemma reads_canonical e :
  wf_encoded e -> Z.of_nat (length (encode_value e)) <= U64_MAX -> reads (encode_value e) (value_of e).
Proof.
  induction e as [b|n|items IH|pairs IH] using Encoded_ind; intros Hwf Hl.
  - apply reads_bytes. cbn [encode_value] in Hl. rewrite length_encode_bytes in Hl. lia.
  - by apply reads_int.
  - cbn [wf_encoded encode_value value_of length] in *. apply foldr_and in Hwf. rewrite length_app in Hl.
    split_and!; [done|done|]. intros [|fuel] rest Hf; [simpl in Hf; lia|].
    cbn [parse_value app Z.eqb Pos.eqb]. rewrite <- app_assoc. cbn [app].
    rewrite (parse_items_chunks _ value_of); [done| |cbn [length] in Hf; rewrite length_app in Hf; simpl in Hf; lia].
    apply Forall_forall. intros e He. rewrite Forall_forall in IH, Hwf. apply IH; [done|by apply Hwf|].
    pose proof (length_concat_elem (map encode_value items) (encode_value e)
      ltac:(by apply list_elem_of_fmap_2)). lia.
  - cbn [wf_encoded encode_value value_of] in *. destruct Hwf as [Hnd Hwf]. apply foldr_and in Hwf.
    destruct (encode_dict_perm encode_value pairs) as (pairs' & Hp & E). rewrite E in *. clear E.
    assert (Hmap : list_to_map (map (fun p => (fst p, value_of (snd p))) pairs) =
                   (list_to_map (map (fun p => (fst p, value_of (snd p))) pairs') : gmap bytes Value)).
    { apply list_to_map_proper; [|by rewrite Hp]. change (NoDup (map fst (map (fun p => (fst p, value_of (snd p))) pairs))).
      by rewrite map_map. }
    rewrite Hmap. split_and!; [done|done|]. intros [|fuel] rest Hf; [simpl in Hf; lia|].
    cbn [parse_value app Z.eqb Pos.eqb]. rewrite <- app_assoc. cbn [app].
    cbn [length] in Hf, Hl. rewrite length_app in Hf, Hl.
    rewrite (parse_pairs_chunks encode_value value_of); [done| |simpl in Hf; lia].
    apply Forall_forall. intros p Hin. rewrite Forall_forall in IH, Hwf.
    pose proof (length_concat_elem (map (fun p => encode_bytes (fst p) ++ encode_value (snd p)) pairs') _
      ltac:(by apply list_elem_of_fmap_2)) as Hlen.
    rewrite length_app, length_encode_bytes in Hlen. rewrite Hp in Hin.
    split; [|lia]. apply IH; [done|by apply Hwf|lia].
Qed.

(** What it reads is made of the bytes it reads. *)
Lemma parse_i64_range s n : parse_i64 s = Some n -> is_i64 n.
Proof.
  unfold parse_i64, is_i64, I64_MAX. destruct s as [|b rest]; [done|].
  destruct (b =? 45); destruct (parse_usize _) as [v|] eqn:E; try done; red_bind;
    apply parse_usize_nonneg in E; case_cmp; try done; intros [= <-]; lia.
Qed.

Lemma parse_bytes_wf s b rest : wf_bytes s -> parse_bytes s = Some (b, rest) -> wf_bytes b /\ wf_bytes rest.
Proof.
  intros Hs. unfold parse_bytes. destruct (position _ s); [|done]. red_bind.
  destruct (parse_usize _); [|done]. red_bind. case_cmp; [done|]. intros [= <- <-].
  split; [apply Forall_take|apply Forall_drop]; by apply Forall_drop.
Qed.

Lemma parse_wf fuel s :
  wf_bytes s ->
  (forall v rest, parse_value fuel s = Some (v, rest) -> wf_value v /\ wf_bytes rest) /\
  (forall l rest, parse_items fuel s = Some (l, rest) -> (forall v, v ∈ l -> wf_value v) /\ wf_bytes rest) /\
  (forall l rest, parse_pairs fuel s = Some (l, rest) ->
     (forall k v, (k, v) ∈ l -> wf_value v) /\ wf_bytes rest).
Proof.
  revert s. induction fuel as [|fuel IH]; intros s Hs; [done|]. cbn [parse_value parse_items parse_pairs].
  split_and!.
  - intros v rest. destruct s as [|b s]; [done|]. pose proof Hs as [_ Hs']%Forall_cons.
    destruct (IH s Hs') as (_ & IHl & IHd).
    destruct (b =? 105).
    { destruct (position _ s); [|done]. red_bind. destruct (parse_i64 _) eqn:E; [|done]. red_bind.
      intros [= <- <-]. split; [constructor; by eapply parse_i64_range|by apply Forall_drop]. }
    destruct (b =? 108).
    { destruct (parse_items fuel s) as [[l r]|]; [|done]. red_bind. intros [= <- <-].
      destruct (IHl l r eq_refl). by split; [constructor|]. }
    destruct (b =? 100).
    { destruct (parse_pairs fuel s) as [[l r]|]; [|done]. red_bind. intros [= <- <-].
      destruct (IHd l r eq_refl) as [Hl ?]. split; [constructor|done]. intros k v Hk.
      apply elem_of_list_to_map_2 in Hk. by eapply Hl. }
    destruct (parse_bytes (b :: s)) as [[c r]|] eqn:E; [|done]. red_bind. intros [= <- <-].
    apply parse_bytes_wf in E as [? ?]; [|done]. by split; [constructor|].
  - intros l rest. case_decide.
    { intros [= <- <-]. split; [by intros v ?%not_elem_of_nil|by destruct Hs]. }
    destruct (parse_value fuel s) as [[v r]|] eqn:E; [|done]. red_bind.
    destruct (parse_items fuel r) as [[l' r']|] eqn:E'; [|done]. red_bind. intros [= <- <-].
    apply IH in E as [? ?]; [|done]. apply (IH r) in E' as [? ?]; [|done].
    split; [|done]. intros w [->|?]%elem_of_cons; auto.
  - intros l rest. case_decide.
    { intros [= <- <-]. split; [by intros k v ?%not_elem_of_nil|by destruct Hs]. }
    destruct (parse_bytes s) as [[c r0]|] eqn:E0; [|done]. red_bind. apply parse_bytes_wf in E0 as [_ ?]; [|done].
    destruct (parse_value fuel r0) as [[v r]|] eqn:E; [|done]. red_bind.
    destruct (parse_pairs fuel r) as [[l' r']|] eqn:E'; [|done]. red_bind. intros [= <- <-].
    apply IH in E as [? ?]; [|done]. apply (IH r) in E' as [? ?]; [|done].
    split; [|done]. intros k w [[= -> ->]|?]%elem_of_cons; eauto.
Qed.

#[export] Instance parse_bencode_lib : BencodeLib parse_bencode.
Proof.
  split.
  - intros e Hwf Hl. destruct (reads_canonical e Hwf Hl) as (_ & _ & H). unfold parse_bencode.
    specialize (H (length (encode_value e)) []). rewrite app_nil_r in H. rewrite H by done. done.
  - intros s v Hs. unfold parse_bencode. destruct (parse_value _ s) as [[w r]|] eqn:E; [|done]. red_bind.
    case_decide; [|done]. intros [= <-]. by apply parse_wf in E as [? _].
Qed.

(** ** Lengths *)

Lemma length_dec_loop fuel z acc : (length (dec_loop fuel z acc) <= fuel + length acc)%nat.
Proof.
  revert z acc. induction fuel as [|fuel IH]; intros z acc; [done|]. cbn [dec_loop].
  case_cmp; cbn [length]; [lia|]. etrans; [apply IH|]. cbn [length]. lia.
Qed.

Lemma length_encode_int n : is_i64 n -> (length (encode_int n) <= 70)%nat.
Proof.
  unfold is_i64, I64_MAX. intros Hn. unfold encode_int. cbn [length]. rewrite length_app. cbn [length].
  assert (H : forall z, 0 <= z <= 9223372036854775808 -> (length (dec z) <= 64)%nat).
  { intros z Hz. unfold dec. etrans; [apply length_dec_loop|]. cbn [length].
    pose proof (Z.log2_le_mono z (2 ^ 63) ltac:(lia)) as Hlog. rewrite Z.log2_pow2 in Hlog by lia. lia. }
  unfold to_string. destruct (Z.ltb_spec n 0); cbn [length].
  - pose proof (H (- n) ltac:(lia)). lia.
  - pose proof (H n ltac:(lia)). lia.
Qed.

(** A length prefix has at most 64 digits. *)
Lemma length_encode_bytes_le (b : bytes) :
  Z.of_nat (length b) <= I64_MAX -> (length (encode_bytes b) <= length b + 70)%nat.
Proof.
  intros Hb. rewrite length_encode_bytes. pose proof (length_encode_int (Z.of_nat (length b))) as H.
  unfold encode_int in H. cbn [length] in H. rewrite length_app in H. cbn [length] in H.
  specialize (H ltac:(unfold is_i64 in *; lia)). lia.
Qed.

(** ** Reading a tree back *)

Lemma dict_bytes_tree pairs key :
  dict_bytes (list_to_map (map (fun p => (fst p, value_of (snd p))) pairs)) key =
  match assoc key pairs with Some (EBytes b) => Some b | _ => None end.
Proof. unfold dict_bytes. rewrite dict_assoc. by destruct (assoc key pairs) as [[]|]. Qed.

Lemma dict_int_tree pairs key :
  dict_int (list_to_map (map (fun p => (fst p, value_of (snd p))) pairs)) key =
  match assoc key pairs with Some (EInt n) => Some n | _ => None end.
Proof. unfold dict_int. rewrite dict_assoc. by destruct (assoc key pairs) as [[]|]. Qed.

Lemma dict_dict_tree pairs key :
  dict_dict (list_to_map (map (fun p => (fst p, value_of (snd p))) pairs)) key =
  match assoc key pairs with
  | Some (EDict d) => Some (list_to_map (map (fun p => (fst p, value_of (snd p))) d))
  | _ => None end.
Proof. unfold dict_dict. rewrite dict_assoc. by destruct (assoc key pairs) as [[]|]. Qed.

(** Decide equalities between literals. *)
Ltac literals :=
  repeat match goal with
  | |- context [decide (?a = ?b)] =>
      first [rewrite (decide_True (P := a = b)) by reflexivity
            |rewrite (decide_False (P := a = b)) by (vm_compute; discriminate)]
  end.

(** The guard and the decoder on a dictionary of ours. *)
Lemma guarded_dict_canonical from_bytes `{!BencodeLib from_bytes} pairs :
  wf_encoded (EDict pairs) -> (height (EDict pairs) <= MAX_BENCODE_DEPTH)%nat ->
  Z.of_nat (length (encode_value (EDict pairs))) <= U64_MAX ->
  guarded_dict from_bytes (encode_value (EDict pairs)) = Some (tree_dict pairs).
Proof.
  intros Hw Hh Hl. unfold guarded_dict. rewrite guard_canonical by done. red_bind. cbn [is_ok negb].
  by rewrite from_bytes_canonical.
Qed.

(** The keys of a dictionary written out in the goal are distinct. *)
Ltac distinct_keys := cbn [map fst app]; match goal with |- ?P => apply (bool_decide_eq_true_1 P); vm_compute; reflexivity end.
