(* ===== verification/Krpc.v ===== *)
(** * The DHT's messages (crates/bit_rev/src/dht/krpc.rs)

    Queries, responses and errors, their bencoded form and the parser, the
    compact forms of peers and nodes.  The bencode library's decoder is the
    parameter [from_bytes].  Decoding is total, yields only values that fit
    their types, and inverts encoding. *)

From S2P Require Import Prelude Utf8 Bencode Text Identity Value Routing.

Definition COMPACT_PEER_LEN : nat := 6.
Definition COMPACT_NODE_LEN : nat := 26.
Definition TRANSACTION_ID_LEN : nat := 2.
Definition ERR_PROTOCOL : i64 := 203.
Definition ERR_METHOD : i64 := 204.

Definition client_version : bytes := take 2 CLIENT_CODE ++ take 2 (azureus_version CLIENT_VERSION).

(** ** Messages *)

Inductive Query :=
| QPing (id : NodeId)
| QFindNode (id target : NodeId)
| QGetPeers (id info_hash : NodeId)
| QAnnouncePeer (id info_hash : NodeId) (port : u16) (token : bytes) (implied_port : bool).

Definition query_id (q : Query) : NodeId :=
  match q with
  | QPing id | QFindNode id _ | QGetPeers id _ | QAnnouncePeer id _ _ _ _ => id
  end.

Definition method (q : Query) : bytes :=
  match q with
  | QPing _ => str "ping"
  | QFindNode _ _ => str "find_node"
  | QGetPeers _ _ => str "get_peers"
  | QAnnouncePeer _ _ _ _ _ => str "announce_peer"
  end.

Record Response := mkResponse {
  r_id : NodeId;
  r_nodes : list CompactNode;
  r_values : list SocketAddr;
  r_token : option bytes }.

Record ErrorMsg := mkErrorMsg { code : i64; message : bytes }.

Inductive Payload :=
| PQuery (q : Query)
| PResponse (r : Response)
| PError (e : ErrorMsg).

Record KrpcMessage := mkKrpc {
  transaction_id : bytes;
  payload : Payload;
  version : option bytes }.

Definition krpc_query (t : bytes) (q : Query) : KrpcMessage := mkKrpc t (PQuery q) (Some client_version).
Definition krpc_response (t : bytes) (r : Response) : KrpcMessage :=
  mkKrpc t (PResponse r) (Some client_version).
Definition krpc_error (t : bytes) (code : i64) (message : bytes) : KrpcMessage :=
  mkKrpc t (PError (mkErrorMsg code message)) (Some client_version).

Inductive DecodeError :=
| NotBencode | NotADict | MissingTransaction | MissingType | UnknownType
| MalformedQuery | UnknownMethod | MalformedResponse | MalformedError.

(** ** Compact peers and nodes *)

Definition encode_compact_peer (addr : SocketAddr) : option bytes :=
  match addr with
  | V4 ip port => Some (be_bytes 4 ip ++ be_bytes 2 port)
  | V6 _ _ _ _ => None
  end.

Definition decode_compact_peer (buf : bytes) : option SocketAddr :=
  if negb (length buf =? COMPACT_PEER_LEN)%nat then None
  else Some (V4 (of_be (take 4 buf)) (of_be (drop 4 buf))).

Definition decode_compact_peers (buf : bytes) : list SocketAddr :=
  omap decode_compact_peer (as_chunks COMPACT_PEER_LEN buf).

Definition encode_compact_node (node : CompactNode) : option bytes :=
  peer ← encode_compact_peer (cn_addr node); Some (cn_id node ++ peer).

(** Nodes that have no compact form are left out. *)
Definition encode_compact_nodes (nodes : list CompactNode) : bytes :=
  concat (omap encode_compact_node nodes).

Definition decode_compact_node (chunk : bytes) : option CompactNode :=
  addr ← decode_compact_peer (drop NODE_ID_LEN chunk);
  Some (mkCompactNode (take NODE_ID_LEN chunk) addr).

Definition decode_compact_nodes (buf : bytes) : list CompactNode :=
  omap decode_compact_node (as_chunks COMPACT_NODE_LEN buf).

(** ** Decoding *)

(** [bytes.try_into()] to an array of 20 bytes. *)
Definition dict_id (dict : gmap bytes Value) (key : bytes) : option NodeId :=
  bytes ← dict_bytes dict key;
  if (length bytes =? NODE_ID_LEN)%nat then Some bytes else None.

Definition parse_query (dict : gmap bytes Value) : result Query DecodeError :=
  let! method := ok_or (dict_bytes dict (str "q")) MalformedQuery in
  let! args := ok_or (dict_dict dict (str "a")) MalformedQuery in
  let! id := ok_or (dict_id args (str "id")) MalformedQuery in
  if decide (method = str "ping") then Ok (QPing id)
  else if decide (method = str "find_node") then
    let! target := ok_or (dict_id args (str "target")) MalformedQuery in
    Ok (QFindNode id target)
  else if decide (method = str "get_peers") then
    let! info_hash := ok_or (dict_id args (str "info_hash")) MalformedQuery in
    Ok (QGetPeers id info_hash)
  else if decide (method = str "announce_peer") then
    let! info_hash := ok_or (dict_id args (str "info_hash")) MalformedQuery in
    let! token := ok_or (dict_bytes args (str "token")) MalformedQuery in
    let implied_port := negb (default 0 (dict_int args (str "implied_port")) =? 0) in
    let! port :=
      match dict_int args (str "port") with
      | Some p =>
          if (0 <=? p) && (p <=? U16_MAX) then Ok p
          else if implied_port then Ok 0 else Err MalformedQuery
      | None => if implied_port then Ok 0 else Err MalformedQuery
      end in
    Ok (QAnnouncePeer id info_hash port token implied_port)
  else Err UnknownMethod.

Definition value_peer (item : Value) : option SocketAddr :=
  match item with VBytes b => decode_compact_peer b | _ => None end.

Definition parse_response (dict : gmap bytes Value) : result Response DecodeError :=
  let! r := ok_or (dict_dict dict (str "r")) MalformedResponse in
  let! id := ok_or (dict_id r (str "id")) MalformedResponse in
  let nodes := match dict_bytes r (str "nodes") with
               | Some b => decode_compact_nodes b
               | None => [] end in
  let values := match r !! str "values" with
                | Some (VList list) => omap value_peer list
                | _ => [] end in
  let token := dict_bytes r (str "token") in
  Ok (mkResponse id nodes values token).

Definition parse_error (dict : gmap bytes Value) : result ErrorMsg DecodeError :=
  match dict !! str "e" with
  | Some (VList (VInt n :: VBytes b :: _)) => Ok (mkErrorMsg n (utf8_lossy b))
  | _ => Err MalformedError
  end.

Section Decoder.
Context (from_bytes : bytes -> option Value).

(** [None] only when the nesting guard runs out of fuel, which never happens. *)
Definition decode (buf : bytes) : option (result KrpcMessage DecodeError) :=
  match buf with
  | [] => Some (Err NotBencode)
  | _ =>
      guard ← check_bencode_depth buf;
      Some (
        if negb (is_ok guard) then Err NotBencode
        else
          let! value := ok_or (from_bytes buf) NotBencode in
          match value with
          | VDict dict =>
              let! t := ok_or (dict_bytes dict (str "t")) MissingTransaction in
              match t with
              | [] => Err MissingTransaction
              | _ =>
                  let! y := ok_or (dict_bytes dict (str "y")) MissingType in
                  let version := dict_bytes dict (str "v") in
                  let! payload :=
                    if decide (y = str "q") then let! q := parse_query dict in Ok (PQuery q)
                    else if decide (y = str "r") then let! r := parse_response dict in Ok (PResponse r)
                    else if decide (y = str "e") then let! e := parse_error dict in Ok (PError e)
                    else Err UnknownType in
                  Ok (mkKrpc t payload version)
              end
          | _ => Err NotADict
          end)
  end.

Definition peek_transaction_id (buf : bytes) : option bytes :=
  dict ← guarded_dict from_bytes buf;
  t ← dict_bytes dict (str "t");
  match t with [] => None | _ => Some t end.

Definition peek_is_query (buf : bytes) : bool :=
  match guarded_dict from_bytes buf with
  | Some dict => bool_decide (dict_bytes dict (str "y") = Some (str "q"))
  | None => false
  end.

End Decoder.

(** ** Encoding *)

Definition query_args (q : Query) : list (bytes * Encoded) :=
  match q with
  | QPing id => [(str "id", EBytes id)]
  | QFindNode id target => [(str "id", EBytes id); (str "target", EBytes target)]
  | QGetPeers id info_hash => [(str "id", EBytes id); (str "info_hash", EBytes info_hash)]
  | QAnnouncePeer id info_hash port token implied_port =>
      [(str "id", EBytes id)] ++
      (if implied_port then [(str "implied_port", EInt 1)] else []) ++
      [(str "info_hash", EBytes info_hash); (str "port", EInt port); (str "token", EBytes token)]
  end.

Definition response_args (r : Response) : list (bytes * Encoded) :=
  [(str "id", EBytes (r_id r))] ++
  (match r_nodes r with
   | [] => []
   | _ => [(str "nodes", EBytes (encode_compact_nodes (r_nodes r)))] end) ++
  (match r_token r with Some token => [(str "token", EBytes token)] | None => [] end) ++
  (match r_values r with
   | [] => []
   | _ => [(str "values", EList (map EBytes (omap encode_compact_peer (r_values r))))] end).

Definition version_pair (msg : KrpcMessage) : list (bytes * Encoded) :=
  match version msg with Some v => [(str "v", EBytes v)] | None => [] end.

Definition message_pairs (msg : KrpcMessage) : list (bytes * Encoded) :=
  match payload msg with
  | PQuery q =>
      [(str "a", EDict (query_args q)); (str "q", EBytes (method q));
       (str "t", EBytes (transaction_id msg))] ++ version_pair msg ++ [(str "y", EBytes (str "q"))]
  | PResponse r =>
      [(str "r", EDict (response_args r)); (str "t", EBytes (transaction_id msg))] ++
      version_pair msg ++ [(str "y", EBytes (str "r"))]
  | PError e =>
      [(str "e", EList [EInt (code e); EBytes (message e)]); (str "t", EBytes (transaction_id msg))] ++
      version_pair msg ++ [(str "y", EBytes (str "e"))]
  end.

Definition encode (msg : KrpcMessage) : bytes := encode_value (EDict (message_pairs msg)).

(** The first example packet of BEP-0005. *)
Example encode_ping :
  encode (mkKrpc (str "aa") (PQuery (QPing (str "abcdefghij0123456789"))) None) =
  str "d1:ad2:id20:abcdefghij0123456789e1:q4:ping1:t2:aa1:y1:qe".
Proof. vm_compute. reflexivity. Qed.

(** ** What is encodable *)

Definition is_id (id : NodeId) : Prop := length id = NODE_ID_LEN.

Definition is_v4 (a : SocketAddr) : Prop :=
  match a with V4 ip port => is_u32 ip /\ is_u16 port | V6 _ _ _ _ => False end.

Definition wf_query (q : Query) : Prop :=
  match q with
  | QPing id => is_id id
  | QFindNode id target => is_id id /\ is_id target
  | QGetPeers id info_hash => is_id id /\ is_id info_hash
  | QAnnouncePeer id info_hash port _ _ => is_id id /\ is_id info_hash /\ is_u16 port
  end.

Definition wf_response (r : Response) : Prop :=
  is_id (r_id r) /\ Forall (fun n => is_id (cn_id n) /\ is_v4 (cn_addr n)) (r_nodes r) /\
  Forall is_v4 (r_values r).

(** A [String] holds valid UTF-8, which lossy decoding leaves alone. *)
Definition wf_payload (p : Payload) : Prop :=
  match p with
  | PQuery q => wf_query q
  | PResponse r => wf_response r
  | PError e => is_i64 (code e) /\ utf8_lossy (message e) = message e
  end.

Definition wf_krpc (msg : KrpcMessage) : Prop := transaction_id msg <> [] /\ wf_payload (payload msg).

(** ** The compact codecs *)

Lemma decode_encode_peer a b :
  is_v4 a -> encode_compact_peer a = Some b -> decode_compact_peer b = Some a.
Proof.
  destruct a as [ip port|]; [|done]. intros [Hi Hp] [= <-]. unfold decode_compact_peer.
  rewrite length_app, !length_be_bytes. cbn [Nat.add Nat.eqb negb COMPACT_PEER_LEN].
  rewrite take_app_length', drop_app_length' by (by rewrite length_be_bytes).
  by rewrite of_be_bytes_u32, of_be_bytes_u16.
Qed.

Lemma length_encode_peer a b : encode_compact_peer a = Some b -> length b = COMPACT_PEER_LEN.
Proof. destruct a; [|done]. intros [= <-]. by rewrite length_app, !length_be_bytes. Qed.

Lemma is_v4_encodes a : is_v4 a -> is_Some (encode_compact_peer a).
Proof. destruct a; [eauto|done]. Qed.

(** Encoding a list elementwise and decoding it, when every element goes through. *)
Lemma omap_roundtrip {A B} (enc : A -> option B) (dec : B -> option A) (l : list A) :
  Forall (fun x => exists y, enc x = Some y /\ dec y = Some x) l -> omap dec (omap enc l) = l.
Proof.
  induction 1 as [|x l (y & Ex & Ey) _ IH]; [done|]. simpl. rewrite Ex. simpl. rewrite Ey. by f_equal.
Qed.

Lemma decode_encode_nodes nodes :
  Forall (fun n => is_id (cn_id n) /\ is_v4 (cn_addr n)) nodes ->
  decode_compact_nodes (encode_compact_nodes nodes) = nodes.
Proof.
  intros H. unfold decode_compact_nodes, encode_compact_nodes.
  rewrite <- (app_nil_r (concat _)), as_chunks_concat; [|unfold COMPACT_NODE_LEN; lia| |simpl; unfold COMPACT_NODE_LEN; lia].
  - apply omap_roundtrip. apply (Forall_impl _ _ _ H). intros [id a] [Hid Ha]. cbn [cn_id cn_addr] in *.
    destruct (is_v4_encodes a Ha) as [b Eb]. exists (id ++ b). unfold encode_compact_node. cbn [cn_id cn_addr].
    rewrite Eb. split; [done|]. unfold decode_compact_node.
    rewrite drop_app_length', take_app_length', (decode_encode_peer a b) by done. done.
  - apply Forall_forall. intros b (n & Hn & Eb)%list_elem_of_omap. rewrite Forall_forall in H.
    destruct (H n Hn) as [Hid _]. unfold encode_compact_node in Eb.
    destruct (encode_compact_peer _) as [p|] eqn:Ep; [|done]. injection Eb as <-.
    by rewrite length_app, Hid, (length_encode_peer _ _ Ep).
Qed.

Lemma decode_peer_v4 b a : wf_bytes b -> decode_compact_peer b = Some a -> is_v4 a.
Proof.
  intros Hb. unfold decode_compact_peer. destruct (Nat.eqb_spec (length b) COMPACT_PEER_LEN) as [Hl|]; [|done].
  intros [= <-]. unfold COMPACT_PEER_LEN in Hl. pose proof (of_be_range (take 4 b) (Forall_take _ _ _ Hb)) as H1.
  pose proof (of_be_range (drop 4 b) (Forall_drop _ _ _ Hb)) as H2. rewrite length_take in H1.
  rewrite length_drop in H2. rewrite Hl in *. cbn in H1, H2. unfold is_v4, is_u32, is_u16, U32_MAX, U16_MAX. lia.
Qed.

(** ** Decoding what was encoded *)

Lemma query_height q : (height (EDict (query_args q)) <= 2)%nat.
Proof. destruct q as [| | |id h p t []]; cbn; lia. Qed.

Lemma height_strings (l : list bytes) : (height (EList (map EBytes l)) <= 2)%nat.
Proof. cbn [height]. apply le_n_S. induction l as [|b l IH]; simpl in *; [lia|]. destruct (foldr _ _ _); lia. Qed.

Lemma response_height r : (height (EDict (response_args r)) <= 3)%nat.
Proof.
  pose proof (height_strings (omap encode_compact_peer (r_values r))).
  unfold response_args. destruct (r_nodes r), (r_token r), (r_values r); cbn [app height foldr snd] in *; lia.
Qed.

Lemma message_height msg : (height (EDict (message_pairs msg)) <= MAX_BENCODE_DEPTH)%nat.
Proof.
  unfold MAX_BENCODE_DEPTH, message_pairs, version_pair. destruct (payload msg) as [q|r|e];
    [pose proof (query_height q)|pose proof (response_height r)|];
    destruct (version msg); cbn [app height foldr snd] in *; lia.
Qed.

Lemma query_wf q : wf_query q -> wf_encoded (EDict (query_args q)).
Proof.
  intros H. destruct q as [| | |id h p t []]; (split; [distinct_keys|]); cbn in *; split_and!; try done;
    unfold is_i64, is_u16, U16_MAX, I64_MAX in *; lia.
Qed.

Lemma strings_wf (l : list bytes) : wf_encoded (EList (map EBytes l)).
Proof. cbn [wf_encoded]. apply foldr_and. by apply Forall_map, Forall_true. Qed.

Lemma response_wf r : wf_encoded (EDict (response_args r)).
Proof.
  pose proof (strings_wf (omap encode_compact_peer (r_values r))) as Hs. unfold response_args.
  destruct (r_nodes r), (r_token r), (r_values r); (split; [distinct_keys|]);
    cbn [app foldr snd]; split_and!; done.
Qed.

Lemma message_wf msg : wf_krpc msg -> wf_encoded (EDict (message_pairs msg)).
Proof.
  intros [_ H]. unfold message_pairs, version_pair. destruct (payload msg) as [q|r|e];
    [pose proof (query_wf q H)|pose proof (response_wf r)|destruct H];
    (destruct (version msg); (split; [distinct_keys|]); cbn [app foldr snd]; split_and!; try done).
Qed.

Lemma dict_id_tree pairs key id :
  assoc key pairs = Some (EBytes id) -> is_id id ->
  dict_id (list_to_map (map (fun p => (fst p, value_of (snd p))) pairs)) key = Some id.
Proof.
  intros Ha Hid. unfold dict_id. rewrite dict_bytes_tree, Ha. red_bind. by rewrite Hid.
Qed.

Lemma parse_query_tree q pairs :
  wf_query q -> assoc (str "q") pairs = Some (EBytes (method q)) ->
  assoc (str "a") pairs = Some (EDict (query_args q)) -> parse_query (tree_dict pairs) = Ok q.
Proof.
  intros Hwf Hq Ha. unfold parse_query, tree_dict. rewrite dict_bytes_tree, dict_dict_tree, Hq, Ha. cbn [ok_or].
  destruct q as [id|id target|id h|id h port tok imp]; cbn [wf_query] in Hwf; destruct_and?; cbn [method];
    rewrite (dict_id_tree _ _ id) by (reflexivity || done); cbn [ok_or]; literals; try done;
    rewrite ?dict_bytes_tree, ?dict_int_tree.
  - rewrite (dict_id_tree _ _ target) by (reflexivity || done). done.
  - rewrite (dict_id_tree _ _ h) by (reflexivity || done). done.
  - rewrite (dict_id_tree _ _ h) by (done || (destruct imp; reflexivity)). cbn [ok_or].
    unfold is_u16 in *. destruct imp; cbn [query_args app assoc]; literals; cbn [ok_or from_option Datatypes.id negb Z.eqb];
      rewrite (proj2 (Z.leb_le 0 port)), (proj2 (Z.leb_le port U16_MAX)) by lia; done.
Qed.

Lemma parse_response_tree r pairs :
  wf_response r -> assoc (str "r") pairs = Some (EDict (response_args r)) ->
  parse_response (tree_dict pairs) = Ok r.
Proof.
  intros (Hid & Hn & Hv) Hr. unfold parse_response, tree_dict. rewrite dict_dict_tree, Hr. cbn [ok_or].
  rewrite (dict_id_tree _ _ (r_id r)) by done. cbn [ok_or].
  rewrite !dict_bytes_tree, dict_assoc. destruct r as [id nodes values token]. unfold response_args.
  cbn [r_id r_nodes r_values r_token] in *.
  assert (Hvals : omap value_peer (map value_of (map EBytes (omap encode_compact_peer values))) = values).
  { rewrite map_map. rewrite <- (omap_roundtrip encode_compact_peer decode_compact_peer values) at 2.
    - generalize (omap encode_compact_peer values). intros l. induction l as [|b l IH]; [done|].
      cbn. destruct (decode_compact_peer b); [f_equal|]; exact IH.
    - apply (Forall_impl _ _ _ Hv). intros a Ha. destruct (is_v4_encodes a Ha) as [b Eb].
      exists b. split; [done|]. by apply decode_encode_peer. }
  pose proof (decode_encode_nodes nodes Hn) as Hnodes.
  destruct nodes, token, values; cbn [app assoc]; literals; cbn [fmap option_fmap option_map value_of];
    rewrite ?Hnodes, ?Hvals; done.
Qed.

Lemma parse_error_tree e pairs :
  utf8_lossy (message e) = message e ->
  assoc (str "e") pairs = Some (EList [EInt (code e); EBytes (message e)]) ->
  parse_error (tree_dict pairs) = Ok e.
Proof.
  intros Hu He. unfold parse_error, tree_dict. rewrite dict_assoc, He. cbn. rewrite Hu. by destruct e.
Qed.

(** The KRPC codec round trip: whatever bencode decoder the node uses, as
    long as it reads canonical bencode, decoding an encoded query, response or
    error gives exactly the message back - its transaction id, version, node ids,
    compact nodes and peers, token and ports - and the nesting guard that runs
    first never refuses it. *)
Theorem krpc_roundtrip from_bytes `{!BencodeLib from_bytes} msg :
  wf_krpc msg -> Z.of_nat (length (encode msg)) <= U64_MAX ->
  decode from_bytes (encode msg) = Some (Ok msg).
Proof.
  intros Hwf Hlen. unfold decode.
  assert (Hne : encode msg <> []).
  { destruct (skippable_canonical (EDict (message_pairs msg)) _ (message_height msg)) as [? _]. done. }
  destruct (encode msg) as [|b buf] eqn:Eb; [done|]. rewrite <- Eb in *. clear Hne.
  unfold encode in *. rewrite guard_canonical by (done || apply message_height). red_bind. cbn [is_ok negb].
  rewrite from_bytes_canonical by (done || by apply message_wf). cbn [ok_or value_of].
  destruct msg as [t p v]. destruct Hwf as [Ht Hp]. cbn [transaction_id payload] in *.
  rewrite !dict_bytes_tree. fold (tree_dict (message_pairs (mkKrpc t p v))).
  unfold message_pairs, version_pair. cbn [transaction_id payload version].
  destruct p as [q|r|e], v as [v|]; cbn [app assoc]; literals; cbn [ok_or];
    (destruct t as [|x t]; [done|]); literals.
  1,2: rewrite (parse_query_tree q) by (done || reflexivity); done.
  1,2: rewrite (parse_response_tree r) by (done || reflexivity); done.
  all: rewrite (parse_error_tree e) by (reflexivity || apply Hp); done.
Qed.

(** ** What decoding can yield *)

Definition v4_addr (a : SocketAddr) : Prop := match a with V4 ip port => is_u32 ip /\ is_u16 port | V6 _ _ _ _ => False end.

(** Every field is a value of its type: ids are arrays of 20 bytes, strings are made
    of bytes, ports have 16 bits and addresses are IPv4. *)
Definition typed_query (q : Query) : Prop :=
  match q with
  | QPing id => wf_id id
  | QFindNode id target => wf_id id /\ wf_id target
  | QGetPeers id info_hash => wf_id id /\ wf_id info_hash
  | QAnnouncePeer id info_hash port token _ => wf_id id /\ wf_id info_hash /\ is_u16 port /\ wf_bytes token
  end.

Definition typed_payload (p : Payload) : Prop :=
  match p with
  | PQuery q => typed_query q
  | PResponse r =>
      wf_id (r_id r) /\ Forall (fun n => wf_id (cn_id n) /\ v4_addr (cn_addr n)) (r_nodes r) /\
      Forall v4_addr (r_values r) /\ match r_token r with Some token => wf_bytes token | None => True end
  | PError e => is_i64 (code e)
  end.

Lemma dict_bytes_wf dict key b : wf_value (VDict dict) -> dict_bytes dict key = Some b -> wf_bytes b.
Proof.
  intros Hd. inversion Hd as [| | |d Hall]; subst. unfold dict_bytes.
  destruct (dict !! key) as [[]|] eqn:E; try done. intros [= <-]. apply Hall in E. by inversion E.
Qed.

Lemma dict_dict_wf dict key d : wf_value (VDict dict) -> dict_dict dict key = Some d -> wf_value (VDict d).
Proof.
  intros Hd. inversion Hd as [| | |d' Hall]; subst. unfold dict_dict.
  destruct (dict !! key) as [[]|] eqn:E; try done. intros [= <-]. by apply Hall in E.
Qed.

Lemma dict_list_wf dict key l : wf_value (VDict dict) -> dict !! key = Some (VList l) -> forall v, v ∈ l -> wf_value v.
Proof. intros Hd El. inversion Hd as [| | |d Hall]; subst. apply Hall in El. by inversion El. Qed.

Lemma dict_id_wf dict key id : wf_value (VDict dict) -> dict_id dict key = Some id -> wf_id id.
Proof.
  intros Hd. unfold dict_id. destruct (dict_bytes dict key) as [b|] eqn:E; [|done]. red_bind.
  destruct (Nat.eqb_spec (length b) NODE_ID_LEN); [|done]. intros [= <-]. split; [done|]. by eapply dict_bytes_wf.
Qed.

Lemma decode_peer_typed b a : wf_bytes b -> decode_compact_peer b = Some a -> v4_addr a.
Proof.
  intros Hb. unfold decode_compact_peer. destruct (Nat.eqb_spec (length b) COMPACT_PEER_LEN) as [Hl|]; [|done]. intros [= <-].
  cbn [negb v4_addr]. unfold COMPACT_PEER_LEN in Hl.
  pose proof (of_be_range (take 4 b) ltac:(by apply Forall_take)) as H4.
  pose proof (of_be_range (drop 4 b) ltac:(by apply Forall_drop)) as H2.
  rewrite length_take in H4. rewrite length_drop in H2. rewrite Hl in H4, H2. cbn in H4, H2. ranges.
Qed.

Lemma chunk_loop_wf fuel n (l : bytes) : wf_bytes l -> Forall wf_bytes (chunk_loop fuel n l).
Proof.
  revert l. induction fuel as [|fuel IH]; intros l Hl; [constructor|]. cbn [chunk_loop].
  case_match; constructor; [by apply Forall_take|by apply IH, Forall_drop].
Qed.

Lemma decode_nodes_typed buf :
  wf_bytes buf -> Forall (fun n => wf_id (cn_id n) /\ v4_addr (cn_addr n)) (decode_compact_nodes buf).
Proof.
  intros Hb. apply Forall_forall. intros n (c & Hc & En)%list_elem_of_omap.
  pose proof (as_chunks_lengths COMPACT_NODE_LEN buf) as Hl. rewrite Forall_forall in Hl. specialize (Hl c Hc).
  pose proof (chunk_loop_wf (length buf) COMPACT_NODE_LEN buf Hb) as Hw. rewrite Forall_forall in Hw. specialize (Hw c Hc).
  unfold decode_compact_node in En.
  destruct (decode_compact_peer _) as [a|] eqn:Ea; [|done]. injection En as <-. cbn [cn_id cn_addr].
  split; [|eapply decode_peer_typed; [by apply Forall_drop|exact Ea]].
  split; [rewrite length_take, Hl; done|by apply Forall_take].
Qed.

(** Take apart a chain of fallible steps that ended well. *)
Ltac ok_chain H :=
  repeat match type of H with
  | context [ok_or ?o _] => let E := fresh "E" in destruct o eqn:E; cbn [ok_or] in H; [|done]
  | context [if decide ?P then _ else _] => destruct (decide P)
  end.

Lemma parse_query_typed dict q : wf_value (VDict dict) -> parse_query dict = Ok q -> typed_query q.
Proof.
  intros Hd. unfold parse_query. intros H. ok_chain H; try done.
  4: { match type of H with context [match ?m with Ok _ => _ | Err _ => _ end] =>
         destruct m as [port|] eqn:Ep; [|done] end.
       injection H as <-. pose proof (dict_dict_wf _ _ _ Hd E0) as Ha. cbn [typed_query].
       split_and!; try (by eapply dict_id_wf); [|by eapply dict_bytes_wf].
       destruct (dict_int _ (str "port")) as [p|]; [destruct (_ && _) eqn:Er|];
         repeat (case_match; try done); injection Ep as <-; unfold is_u16, U16_MAX in *; lia. }
  all: injection H as <-; pose proof (dict_dict_wf _ _ _ Hd E0) as Ha; cbn [typed_query]; split_and?; by eapply dict_id_wf.
Qed.

Lemma parse_response_typed dict r : wf_value (VDict dict) -> parse_response dict = Ok r -> typed_payload (PResponse r).
Proof.
  intros Hd. unfold parse_response. intros H. ok_chain H. injection H as <-. cbn [typed_payload r_id r_nodes r_values r_token].
  pose proof (dict_dict_wf _ _ _ Hd E) as Hg.
  split_and!; [by eapply dict_id_wf| | |].
  - destruct (dict_bytes _ (str "nodes")) eqn:En; [|constructor]. apply decode_nodes_typed. by eapply dict_bytes_wf.
  - destruct (_ !! str "values") as [[| |items|]|] eqn:Ev; try constructor.
    apply Forall_forall. intros a (w & Hw & Ew)%list_elem_of_omap. eapply dict_list_wf in Hw; [|exact Hg|exact Ev].
    destruct w; try done. inversion Hw; subst. by eapply decode_peer_typed.
  - destruct (dict_bytes _ (str "token")) eqn:Et; [|done]. by eapply dict_bytes_wf.
Qed.

Lemma parse_error_typed dict e : wf_value (VDict dict) -> parse_error dict = Ok e -> is_i64 (code e).
Proof.
  intros Hd. unfold parse_error. destruct (dict !! str "e") as [[| |l|]|] eqn:E; try done.
  destruct l as [|[|n| |] [|[b| | |] rest]]; try done. intros [= <-]. cbn.
  assert (Hn : wf_value (VInt n)) by (eapply dict_list_wf; [exact Hd|exact E|left]). by inversion Hn.
Qed.

Lemma decode_typed from_bytes `{!BencodeLib from_bytes} buf msg :
  wf_bytes buf -> decode from_bytes buf = Some (Ok msg) ->
  transaction_id msg <> [] /\ wf_bytes (transaction_id msg) /\ typed_payload (payload msg).
Proof.
  intros Hb. unfold decode. destruct buf as [|b buf]; [done|].
  destruct (check_bencode_depth (b :: buf)) as [g|]; [|done]. red_bind. intros [= H].
  destruct (negb (is_ok g)); [done|]. destruct (from_bytes (b :: buf)) as [v|] eqn:Ev; cbn [ok_or] in H; [|done].
  apply from_bytes_typed in Ev; [|done]. destruct v as [| | |dict]; try done.
  destruct (dict_bytes dict (str "t")) as [[|x t]|] eqn:Et; cbn [ok_or] in H; try done.
  pose proof (dict_bytes_wf _ _ _ Ev Et) as Ht. ok_chain H.
  - destruct (parse_query dict) as [q|] eqn:Eq; [|done]. injection H as <-. split_and!; [done|done|]. by eapply parse_query_typed.
  - destruct (parse_response dict) as [r|] eqn:Er; [|done]. injection H as <-. split_and!; [done|done|]. by eapply parse_response_typed.
  - destruct (parse_error dict) as [err|] eqn:Ee; [|done]. injection H as <-. split_and!; [done|done|]. by eapply parse_error_typed.
  - done.
Qed.

Definition ids_wf (p : Payload) : Prop :=
  match p with
  | PQuery q => wf_id (query_id q)
  | PResponse r => wf_id (r_id r) /\ Forall (fun n => wf_id (cn_id n)) (r_nodes r)
  | PError _ => True
  end.

Lemma decode_ids_wf from_bytes `{!BencodeLib from_bytes} buf msg :
  wf_bytes buf -> decode from_bytes buf = Some (Ok msg) -> ids_wf (payload msg).
Proof.
  intros Hb H. destruct (decode_typed from_bytes buf msg Hb H) as (_ & _ & Hp). destruct (payload msg) as [q|r|e]; [| |done].
  - destruct q; cbn in *; tauto.
  - destruct Hp as (Hi & Hn & _). split; [done|]. eapply Forall_impl; [exact Hn|]. by intros n [].
Qed.

(** Decoding always returns. *)
Lemma decode_total from_bytes buf : Z.of_nat (length buf) <= U64_MAX -> is_Some (decode from_bytes buf).
Proof.
  intros Hl. unfold decode. destruct buf as [|b buf]; [by eexists|].
  destruct (depth_loop_total (b :: buf) (S (length (b :: buf))) 0 0) as [g Hg]; [done|lia|lia|].
  unfold check_bencode_depth. rewrite Hg. by eexists.
Qed.

(** C34: hostile packets cannot make the decoder panic, hang or return a malformed
    message: for every packet of bytes [decode] returns, and a decoded message has a
    non-empty transaction id, node ids and info hashes of exactly 20 bytes, 16-bit
    ports, IPv4 addresses with 32 bits only, and an error code of 64 bits. *)
Theorem krpc_decode_typed from_bytes `{!BencodeLib from_bytes} buf :
  wf_bytes buf -> Z.of_nat (length buf) <= U64_MAX ->
  exists r, decode from_bytes buf = Some r /\
    forall msg, r = Ok msg -> transaction_id msg <> [] /\ wf_bytes (transaction_id msg) /\ typed_payload (payload msg).
Proof.
  intros Hb Hl. destruct (decode_total from_bytes buf Hl) as [r E]. exists r. split; [done|].
  intros msg ->. by eapply decode_typed.
Qed.

Lemma krpc_decode_typed_witness :
  exists r, decode parse_bencode (str "d1:rd2:id3:abce1:t2:aa1:y1:re") = Some r /\
    forall msg, r = Ok msg -> transaction_id msg <> [] /\ wf_bytes (transaction_id msg) /\ typed_payload (payload msg).
Proof.
  apply (krpc_decode_typed parse_bencode).
  - repeat (constructor; [vm_compute; split; discriminate|]). constructor.
  - vm_compute. discriminate.
Defined.
