(* ===== verification/Lookup.v ===== *)
(** * Iterative DHT lookups (crates/bit_rev/src/dht/lookup.rs)

    A lookup keeps the contacts it knows of with the state of the query to each,
    asks the closest unknown ones, at most three at a time, and ends when the
    closest ones it knows of have been asked.  The order in which a [HashMap] is
    traversed is not specified: it is an argument of the definitions that
    traverse one. *)

From S2P Require Import Prelude Routing Krpc.

Definition ALPHA : nat := 3.

Inductive LookupKind := FindNode | GetPeers.

#[export] Instance LookupKind_eq_dec : EqDecision LookupKind.
Proof. solve_decision. Defined.

Inductive ContactState := Unknown | Pending | Responded | Failed.

#[export] Instance ContactState_eq_dec : EqDecision ContactState.
Proof. solve_decision. Defined.

Record Contact := mkContact {
  c_node : CompactNode;
  c_state : ContactState;
  c_token : option bytes }.

Record Lookup := mkLookup {
  l_target : NodeId;
  l_kind : LookupKind;
  contacts : gmap SocketAddr Contact;
  seen_ids : gset NodeId;
  l_values : list SocketAddr }.

Definition set_contacts (m : gmap SocketAddr Contact) (l : Lookup) : Lookup :=
  mkLookup (l_target l) (l_kind l) m (seen_ids l) (l_values l).

Definition set_c_state (st : ContactState) (c : Contact) : Contact :=
  mkContact (c_node c) st (c_token c).

Definition add_contact (l : Lookup) (node : CompactNode) : Lookup :=
  if decide (cn_id node ∈ seen_ids l) then l
  else match contacts l !! cn_addr node with
       | Some _ => l
       | None =>
           mkLookup (l_target l) (l_kind l)
             (<[cn_addr node := mkContact node Unknown None]> (contacts l))
             ({[cn_id node]} ∪ seen_ids l) (l_values l)
       end.

Definition lookup_new (target : NodeId) (kind : LookupKind) (seeds : list CompactNode) : Lookup :=
  fold_left add_contact seeds (mkLookup target kind ∅ ∅ []).

Definition lookup_on_timeout (l : Lookup) (addr : SocketAddr) : Lookup :=
  match contacts l !! addr with
  | Some c =>
      if decide (c_state c = Pending)
      then set_contacts (<[addr := set_c_state Failed c]> (contacts l)) l else l
  | None => l
  end.

(** The values of a response that are new, with the lookup's list extended. *)
Fixpoint merge_values (known fresh : list SocketAddr) (values : list SocketAddr)
    : list SocketAddr * list SocketAddr :=
  match values with
  | [] => (known, fresh)
  | a :: rest =>
      if decide (a ∈ known) then merge_values known fresh rest
      else merge_values (known ++ [a]) (fresh ++ [a]) rest
  end.

(** The lookup and the values that were not known before. *)
Definition lookup_on_response (l : Lookup) (from : SocketAddr) (id : NodeId) (response : Response)
    : Lookup * list SocketAddr :=
  let l :=
    match contacts l !! from with
    | Some c =>
        set_contacts
          (<[from := mkContact (mkCompactNode id (cn_addr (c_node c))) Responded
                       (r_token response)]> (contacts l)) l
    | None =>
        mkLookup (l_target l) (l_kind l)
          (<[from := mkContact (mkCompactNode id from) Responded (r_token response)]> (contacts l))
          ({[id]} ∪ seen_ids l) (l_values l)
    end in
  let l := fold_left add_contact (r_nodes response) l in
  let '(known, new_values) := merge_values (l_values l) [] (r_values response) in
  (mkLookup (l_target l) (l_kind l) (contacts l) (seen_ids l) known, new_values).

(** [contacts.values().filter(|c| c.state == st)]. *)
Definition in_state (st : ContactState) (cs : list Contact) : list Contact :=
  filter (fun c => c_state c = st) cs.

Section Traversal.
Context (iter : gmap SocketAddr Contact -> list (SocketAddr * Contact)).

Definition contact_values (l : Lookup) : list Contact := map snd (iter (contacts l)).

Definition sort_contacts (target : NodeId) (cs : list Contact) : list Contact :=
  merge_sort (fun a b => closer_eq target (cn_id (c_node a)) (cn_id (c_node b))) cs.

Definition closest_contacts (l : Lookup) (count : nat) : list Contact :=
  take count (sort_contacts (l_target l) (contact_values l)).

(** The queries to send, with their contacts marked. *)
Definition next_queries (l : Lookup) : list CompactNode * Lookup :=
  let unknown := sort_contacts (l_target l) (in_state Unknown (contact_values l)) in
  let pending := length (in_state Pending (contact_values l)) in
  let want := (ALPHA - pending)%nat in
  let chosen := map c_node (take want unknown) in
  (chosen,
   set_contacts
     (fold_left (fun m node => alter (set_c_state Pending) (cn_addr node) m) chosen (contacts l)) l).

Definition is_done (l : Lookup) : bool :=
  if existsb (fun c => bool_decide (c_state c = Pending)) (contact_values l) then false
  else if existsb (fun c => bool_decide (c_state c = Unknown)) (contact_values l) then
    let closest := closest_contacts l K in
    if existsb (fun c => bool_decide (c_state c = Unknown) || bool_decide (c_state c = Pending)) closest
    then false
    else match last closest with
         | Some worst =>
             negb (existsb
               (fun c => bool_decide (c_state c = Unknown) &&
                  match cmp_xor (cn_id (c_node c)) (cn_id (c_node worst)) (l_target l) with
                  | Lt => true | _ => false end)
               (contact_values l))
         | None => true
         end
  else true.

Definition announce_targets (l : Lookup) : list (CompactNode * bytes) :=
  omap (fun c => token ← c_token c; Some (c_node c, token)) (closest_contacts l K).
End Traversal.

(** ** Sums over the contacts *)

(** The sum of a weight over the contacts. *)
Definition msum (w : Contact -> nat) (m : gmap SocketAddr Contact) : nat :=
  map_fold (fun _ c n => (w c + n)%nat) 0%nat m.

Lemma msum_insert_None w m a c :
  m !! a = None -> msum w (<[a := c]> m) = (w c + msum w m)%nat.
Proof. intros. unfold msum.
  apply (map_fold_insert_L (fun (_ : SocketAddr) c n => (w c + n)%nat) 0%nat a c m);
    [intros; lia|done]. Qed.

Lemma msum_insert_Some w m a c c0 :
  m !! a = Some c0 -> (msum w (<[a := c]> m) + w c0 = w c + msum w m)%nat.
Proof.
  intros H. rewrite <- (insert_delete_id m a c0 H) at 2. rewrite <- insert_delete_eq.
  rewrite !msum_insert_None by apply lookup_delete_eq. lia.
Qed.

Lemma msum_le w k m : (forall c, (w c <= k)%nat) -> (msum w m <= k * size m)%nat.
Proof.
  intros Hw. induction m as [|a c m Hn IH] using map_ind.
  - unfold msum. rewrite map_fold_empty. lia.
  - rewrite msum_insert_None, map_size_insert_None by done. specialize (Hw c). lia.
Qed.

Definition weigh (st : ContactState) (c : Contact) : nat := if decide (c_state c = st) then 1 else 0.

Lemma length_in_state st cs :
  length (in_state st cs) = foldr (fun c n => (weigh st c + n)%nat) 0%nat cs.
Proof.
  induction cs as [|c cs IH]; [done|]. unfold in_state in *. rewrite filter_cons. cbn.
  unfold weigh at 1. case_decide; cbn; by rewrite IH.
Qed.

(** ** The invariant *)

Section Laws.
Context (iter : gmap SocketAddr Contact -> list (SocketAddr * Contact)) `{!HashOrder iter}.

Lemma elem_contact_values l c :
  c ∈ contact_values iter l <-> exists a, contacts l !! a = Some c.
Proof.
  unfold contact_values. rewrite list_elem_of_fmap. setoid_rewrite (iter_perm (contacts l)). split.
  - intros ([a c'] & -> & H%elem_of_map_to_list). by exists a.
  - intros [a H%elem_of_map_to_list]. by exists (a, c).
Qed.

Lemma count_state st l :
  length (in_state st (contact_values iter l)) = msum (weigh st) (contacts l).
Proof.
  rewrite length_in_state. unfold msum. rewrite map_fold_foldr. unfold contact_values.
  assert (Hp : map snd (iter (contacts l)) ≡ₚ map snd (map_to_list (contacts l)))
    by (apply (fmap_Permutation snd), iter_perm).
  transitivity (foldr (fun c n => (weigh st c + n)%nat) 0%nat (map snd (map_to_list (contacts l)))).
  - apply (foldr_permutation_proper eq); [apply _|intros; lia|done].
  - clear. induction (map_to_list (contacts l)) as [|[a c] cs IH]; [done|]. cbn. by rewrite IH.
Qed.

(** Contacts are kept under their own address, at most three are pending, and a
    token comes from a response. *)
Record lookup_inv (l : Lookup) : Prop := {
  li_key : forall a c, contacts l !! a = Some c -> cn_addr (c_node c) = a;
  li_pending : (msum (weigh Pending) (contacts l) <= ALPHA)%nat;
  li_token : forall a c, contacts l !! a = Some c -> c_token c <> None -> c_state c = Responded }.

(** Replacing or adding a contact that is not pending. *)
Lemma lookup_inv_insert l l' a c :
  lookup_inv l -> contacts l' = <[a := c]> (contacts l) -> cn_addr (c_node c) = a ->
  c_state c <> Pending -> (c_token c <> None -> c_state c = Responded) -> lookup_inv l'.
Proof.
  intros Hi E Ha Hp Ht. split; rewrite E.
  - intros b d [[<- <-]|[? ?]]%lookup_insert_Some; [done|by apply Hi].
  - assert (Hw : weigh Pending c = 0%nat) by (unfold weigh; by rewrite decide_False).
    pose proof (li_pending _ Hi). destruct (contacts l !! a) as [c0|] eqn:E0.
    + pose proof (msum_insert_Some (weigh Pending) (contacts l) a c c0 E0). lia.
    + rewrite msum_insert_None by done. lia.
  - intros b d [[<- <-]|[? ?]]%lookup_insert_Some; [done|by apply (li_token _ Hi b)].
Qed.

Lemma add_contact_inv l node : lookup_inv l -> lookup_inv (add_contact l node).
Proof.
  intros Hi. unfold add_contact. case_decide; [done|].
  destruct (contacts l !! cn_addr node) eqn:E; [done|].
  by eapply lookup_inv_insert.
Qed.

Lemma fold_add_inv nodes l : lookup_inv l -> lookup_inv (fold_left add_contact nodes l).
Proof. revert l. induction nodes; cbn; auto using add_contact_inv. Qed.

Lemma lookup_new_inv target kind seeds : lookup_inv (lookup_new target kind seeds).
Proof.
  apply fold_add_inv. split; cbn; [done| |done]. unfold msum. rewrite map_fold_empty. lia.
Qed.

Lemma on_timeout_inv l addr : lookup_inv l -> lookup_inv (lookup_on_timeout l addr).
Proof.
  intros Hi. unfold lookup_on_timeout. destruct (contacts l !! addr) as [c|] eqn:E; [|done].
  case_decide as Hp; [|done]. eapply lookup_inv_insert; [done|done|exact (li_key _ Hi addr c E)|done|].
  cbn. intros Ht. apply (li_token _ Hi addr c E) in Ht. congruence.
Qed.

Lemma on_response_inv l from id r : lookup_inv l -> lookup_inv (fst (lookup_on_response l from id r)).
Proof.
  intros Hi. unfold lookup_on_response. destruct (merge_values _ _ _) as [known fresh]. cbn [fst].
  set (l1 := match contacts l !! from with Some _ => _ | None => _ end).
  assert (H1 : lookup_inv l1).
  { unfold l1. destruct (contacts l !! from) as [c|] eqn:E.
    - eapply lookup_inv_insert; [done|done|exact (li_key _ Hi from c E)|done|done].
    - eapply lookup_inv_insert; [done|done|done|done|done]. }
  apply (fold_add_inv (r_nodes r)) in H1. by split; apply H1.
Qed.

(** ** Queries *)

Definition mark (chosen : list CompactNode) (m : gmap SocketAddr Contact) : gmap SocketAddr Contact :=
  fold_left (fun m node => alter (set_c_state Pending) (cn_addr node) m) chosen m.

Lemma mark_lookup chosen m a :
  mark chosen m !! a =
  if decide (a ∈ map cn_addr chosen) then set_c_state Pending <$> m !! a else m !! a.
Proof.
  revert m. induction chosen as [|n chosen IH]; intros m; [done|].
  change (mark (n :: chosen) m) with (mark chosen (alter (set_c_state Pending) (cn_addr n) m)).
  rewrite IH. cbn [map]. destruct (decide (a = cn_addr n)) as [->|Hne].
  - rewrite lookup_alter_eq. rewrite (decide_True (P := cn_addr n ∈ cn_addr n :: _)) by left.
    case_decide; [|done]. by destruct (m !! cn_addr n).
  - rewrite lookup_alter_ne by done.
    destruct (decide (a ∈ map cn_addr chosen)) as [H|H].
    + by rewrite decide_True by by right.
    + rewrite decide_False; [done|]. by rewrite elem_of_cons; intros [?|?].
Qed.

(** Marking contacts that are all unknown moves their weight. *)
Lemma mark_msum w d1 d2 chosen m :
  NoDup (map cn_addr chosen) ->
  (forall n, n ∈ chosen -> exists c, m !! cn_addr n = Some c /\ c_state c = Unknown) ->
  (forall c, c_state c = Unknown -> (w (set_c_state Pending c) + d1 = w c + d2)%nat) ->
  (msum w (mark chosen m) + d1 * length chosen = msum w m + d2 * length chosen)%nat.
Proof.
  intros Hnd Hall Hw. revert m Hall. induction chosen as [|n chosen IH]; intros m Hall; [cbn; lia|].
  inversion_clear Hnd as [|? ? Hn Hnd'].
  change (mark (n :: chosen) m) with (mark chosen (alter (set_c_state Pending) (cn_addr n) m)).
  destruct (Hall n) as (c & E & Hu); [left|].
  assert (Ha : (msum w (alter (set_c_state Pending) (cn_addr n) m) + d1 = msum w m + d2)%nat).
  { rewrite <- (insert_id m (cn_addr n) c) at 1 by done. rewrite alter_insert_eq.
    pose proof (msum_insert_Some w m (cn_addr n) (set_c_state Pending c) c E) as Hi.
    specialize (Hw c Hu). lia. }
  specialize (IH Hnd' (alter (set_c_state Pending) (cn_addr n) m)). cbn [length].
  assert (Hall' : forall n0, n0 ∈ chosen -> exists c,
    alter (set_c_state Pending) (cn_addr n) m !! cn_addr n0 = Some c /\ c_state c = Unknown).
  { intros n' Hn'. rewrite lookup_alter_ne; [apply Hall; by right|].
    intros E'. apply Hn. rewrite E'. by apply list_elem_of_fmap_2. }
  specialize (IH Hall'). lia.
Qed.

Definition chosen_queries (l : Lookup) : list CompactNode := fst (next_queries iter l).

Lemma next_queries_mark l : snd (next_queries iter l) = set_contacts (mark (chosen_queries l) (contacts l)) l.
Proof. done. Qed.

Lemma sort_contacts_perm target cs : sort_contacts target cs ≡ₚ cs.
Proof. apply merge_sort_Permutation. Qed.

Lemma chosen_elem l n :
  lookup_inv l -> n ∈ chosen_queries l ->
  exists c, contacts l !! cn_addr n = Some c /\ c_state c = Unknown /\ c_node c = n.
Proof.
  intros Hi. unfold chosen_queries, next_queries. cbn [fst].
  intros (c & -> & Hc)%list_elem_of_fmap. apply elem_of_take in Hc as (i & Hc & _).
  apply list_elem_of_lookup_2 in Hc. rewrite sort_contacts_perm in Hc.
  apply list_elem_of_filter in Hc as [Hu [a Ha]%elem_contact_values].
  exists c. by rewrite (li_key _ Hi a c Ha).
Qed.

Lemma contact_addrs_NoDup l : lookup_inv l -> NoDup (map (cn_addr ∘ c_node) (contact_values iter l)).
Proof.
  intros Hi. unfold contact_values. rewrite map_map.
  assert (E : map (fun x => (cn_addr ∘ c_node) x.2) (iter (contacts l)) = map fst (iter (contacts l))).
  { apply map_ext_in. intros [a c] H. apply (li_key _ Hi).
    apply elem_of_map_to_list. rewrite <- (iter_perm (contacts l)). by apply list_elem_of_In. }
  rewrite E. change (NoDup (iter (contacts l)).*1). rewrite (iter_perm (contacts l)).
  apply NoDup_fst_map_to_list.
Qed.

Lemma chosen_NoDup l : lookup_inv l -> NoDup (map cn_addr (chosen_queries l)).
Proof.
  intros Hi. unfold chosen_queries, next_queries. cbn [fst]. rewrite map_map.
  eapply (sublist_NoDup _ ((cn_addr ∘ c_node) <$> sort_contacts (l_target l)
    (in_state Unknown (contact_values iter l)))).
  - rewrite sort_contacts_perm. eapply sublist_NoDup; [by apply contact_addrs_NoDup|].
    apply fmap_sublist, sublist_filter.
  - apply (fmap_sublist (cn_addr ∘ c_node)), sublist_take.
Qed.

Lemma length_chosen l :
  length (chosen_queries l) =
  Nat.min (ALPHA - msum (weigh Pending) (contacts l)) (msum (weigh Unknown) (contacts l)).
Proof.
  unfold chosen_queries, next_queries. cbn [fst]. rewrite length_map, length_take, count_state.
  by rewrite sort_contacts_perm, count_state.
Qed.

(** The chosen contacts go from unknown to pending. *)
Lemma chosen_msum w d1 d2 l :
  lookup_inv l -> (forall c, c_state c = Unknown -> (w (set_c_state Pending c) + d1 = w c + d2)%nat) ->
  (msum w (mark (chosen_queries l) (contacts l)) + d1 * length (chosen_queries l) =
   msum w (contacts l) + d2 * length (chosen_queries l))%nat.
Proof.
  intros Hi Hw. apply mark_msum; [by apply chosen_NoDup| |done].
  intros n Hn. destruct (chosen_elem l n Hi Hn) as (c & ? & ? & _). eauto.
Qed.

Lemma chosen_pending l :
  lookup_inv l ->
  msum (weigh Pending) (mark (chosen_queries l) (contacts l)) =
  (msum (weigh Pending) (contacts l) + length (chosen_queries l))%nat.
Proof.
  intros Hi. assert (H := chosen_msum (weigh Pending) 0 1 l Hi). rewrite Nat.mul_0_l in H. cbn in H.
  rewrite !Nat.add_0_r in H. apply H.
  intros c Hu. unfold weigh. by rewrite decide_True, decide_False by (cbn; congruence).
Qed.

Lemma chosen_unknown l :
  lookup_inv l ->
  (msum (weigh Unknown) (mark (chosen_queries l) (contacts l)) + length (chosen_queries l) =
   msum (weigh Unknown) (contacts l))%nat.
Proof.
  intros Hi. assert (H := chosen_msum (weigh Unknown) 1 0 l Hi). rewrite Nat.mul_0_l in H. cbn in H.
  rewrite !Nat.add_0_r in H. apply H.
  intros c Hu. unfold weigh. by rewrite decide_False, decide_True by (cbn; congruence).
Qed.

(** Asking again at once gives nothing. *)
Lemma next_queries_exhaust l : lookup_inv l -> chosen_queries (snd (next_queries iter l)) = [].
Proof.
  intros Hi. apply length_zero_iff_nil. rewrite length_chosen, next_queries_mark. cbn [contacts set_contacts].
  pose proof (chosen_pending l Hi). pose proof (chosen_unknown l Hi). pose proof (length_chosen l). lia.
Qed.

Lemma next_queries_inv l : lookup_inv l -> lookup_inv (snd (next_queries iter l)).
Proof.
  intros Hi. rewrite next_queries_mark. split; cbn [contacts set_contacts].
  - intros a c. rewrite mark_lookup. case_decide; [|apply Hi].
    destruct (contacts l !! a) as [c0|] eqn:E; [|done]. intros [= <-]. by apply (li_key _ Hi a c0).
  - pose proof (chosen_pending l Hi). rewrite length_chosen in *. pose proof (li_pending _ Hi). lia.
  - intros a c. rewrite mark_lookup. case_decide as Hin.
    + destruct (contacts l !! a) as [c0|] eqn:E; [|done]. intros [= <-]. cbn. intros Ht.
      apply (li_token _ Hi a c0 E) in Ht. exfalso.
      apply list_elem_of_fmap in Hin as (n & -> & Hn).
      destruct (chosen_elem l n Hi Hn) as (c & Hc & Hu & _). congruence.
    + apply Hi.
Qed.

(** A lookup that is not done has a query under way or one to send. *)
Lemma not_done_progress l :
  lookup_inv l -> is_done iter l = false ->
  (0 < msum (weigh Pending) (contacts l))%nat \/ chosen_queries l <> [].
Proof.
  intros Hi Hd. destruct (decide (0 < msum (weigh Pending) (contacts l))%nat) as [|Hp]; [by left|right].
  intros E. assert (L : length (chosen_queries l) = 0%nat) by by rewrite E.
  rewrite length_chosen in L. unfold ALPHA in L.
  assert (Hnone : forall st, msum (weigh st) (contacts l) = 0%nat ->
    existsb (fun c => bool_decide (c_state c = st)) (contact_values iter l) = false).
  { intros st H0. rewrite <- count_state in H0. apply length_zero_iff_nil in H0.
    apply not_true_iff_false. intros (c & Hc & Hs)%existsb_exists.
    apply bool_decide_eq_true in Hs. apply list_elem_of_In in Hc.
    assert (Hin : c ∈ in_state st (contact_values iter l)) by by apply list_elem_of_filter.
    rewrite H0 in Hin. by apply not_elem_of_nil in Hin. }
  unfold is_done in Hd. rewrite (Hnone Pending), (Hnone Unknown) in Hd by lia. done.
Qed.

(** ** Progress *)

(** How far the query to a contact is. *)
Definition gain (c : Contact) : nat :=
  match c_state c with Unknown => 1 | Pending => 2 | Responded | Failed => 3 end.

Lemma gain_range c : (1 <= gain c <= 3)%nat.
Proof. unfold gain. destruct (c_state c); lia. Qed.

Lemma add_contact_gain l node :
  (msum gain (contacts l) <= msum gain (contacts (add_contact l node)))%nat.
Proof.
  unfold add_contact. case_decide; [lia|]. destruct (contacts l !! cn_addr node) eqn:E; [lia|].
  cbn [contacts]. rewrite msum_insert_None by done. lia.
Qed.

Lemma fold_add_gain nodes l :
  (msum gain (contacts l) <= msum gain (contacts (fold_left add_contact nodes l)))%nat.
Proof.
  revert l. induction nodes as [|n nodes IH]; intros l; cbn; [lia|].
  etrans; [apply (add_contact_gain l n)|apply IH].
Qed.

(** The steps that move a lookup on: sending queries, and the answer to or the
    timeout of one under way. *)
Inductive lk_progress : Lookup -> Lookup -> Prop :=
| LkQuery l : chosen_queries l <> [] -> lk_progress l (snd (next_queries iter l))
| LkTimeout l a c : contacts l !! a = Some c -> c_state c = Pending ->
    lk_progress l (lookup_on_timeout l a)
| LkResponse l a c id r : contacts l !! a = Some c -> c_state c = Pending ->
    lk_progress l (fst (lookup_on_response l a id r)).

Lemma lk_progress_gain l l' :
  lookup_inv l -> lk_progress l l' ->
  lookup_inv l' /\ (S (msum gain (contacts l)) <= msum gain (contacts l'))%nat.
Proof.
  intros Hi Hs. destruct Hs as [l Hc|l a c E Hp|l a c id r E Hp].
  - split; [by apply next_queries_inv|]. rewrite next_queries_mark. cbn [contacts set_contacts].
    assert (H := chosen_msum gain 0 1 l Hi). destruct (chosen_queries l); [done|]. cbn [length] in *.
    assert (H' := H ltac:(intros ? Hu; unfold gain; cbn; by rewrite Hu)). lia.
  - split; [by apply on_timeout_inv|]. unfold lookup_on_timeout. rewrite E, decide_True by done.
    cbn [contacts set_contacts].
    pose proof (msum_insert_Some gain (contacts l) a (set_c_state Failed c) c E) as H.
    unfold gain in H at 2 3. cbn in H. rewrite Hp in H. lia.
  - split; [by apply on_response_inv|]. unfold lookup_on_response. rewrite E.
    destruct (merge_values _ _ _) as [known fresh]. cbn [fst contacts].
    etrans; [|apply fold_add_gain]. cbn [contacts set_contacts]. set (c' := mkContact _ _ _).
    pose proof (msum_insert_Some gain (contacts l) a c' c E) as H.
    unfold gain in H at 2 3. cbn in H. rewrite Hp in H. lia.
Qed.

Lemma progress_gain n l l' :
  lookup_inv l -> nsteps lk_progress n l l' ->
  lookup_inv l' /\ (n + msum gain (contacts l) <= msum gain (contacts l'))%nat.
Proof.
  intros Hi Hs. revert Hi. induction Hs as [l|n l1 l2 l3 Hs _ IH]; intros Hi; [done|].
  destruct (lk_progress_gain l1 l2 Hi Hs) as [Hi2 Hg]. destruct (IH Hi2) as [Hi3 Hg3].
  split; [done|lia].
Qed.

Lemma pending_exists m :
  (0 < msum (weigh Pending) m)%nat -> exists a c, m !! a = Some c /\ c_state c = Pending.
Proof.
  induction m as [|a c m Hn IH] using map_ind.
  - unfold msum. rewrite map_fold_empty. lia.
  - rewrite msum_insert_None by done. intros H. destruct (decide (c_state c = Pending)) as [|Hc].
    + exists a, c. by rewrite lookup_insert_eq.
    + unfold weigh in H at 1. rewrite decide_False in H by done.
      destruct (IH ltac:(lia)) as (b & d & Hb & Hd). exists b, d. split; [|done].
      rewrite lookup_insert_ne; [done|]. intros ->. congruence.
Qed.

(** ** Traces *)

Inductive lk_event :=
| EvQuery
| EvTimeout (a : SocketAddr)
| EvResponse (from : SocketAddr) (id : NodeId) (r : Response)
| EvAdd (node : CompactNode).

(** The lookup after an event and the queries it sends. *)
Definition lk_exec (l : Lookup) (ev : lk_event) : Lookup * list CompactNode :=
  match ev with
  | EvQuery => (snd (next_queries iter l), chosen_queries l)
  | EvTimeout a => (lookup_on_timeout l a, [])
  | EvResponse from id r => (fst (lookup_on_response l from id r), [])
  | EvAdd node => (add_contact l node, [])
  end.

Fixpoint lk_run (l : Lookup) (evs : list lk_event) : Lookup * list CompactNode :=
  match evs with
  | [] => (l, [])
  | ev :: evs =>
      let '(l, sent) := lk_exec l ev in
      let '(l, more) := lk_run l evs in (l, sent ++ more)
  end.

(** The contact at [a] has been asked or has answered. *)
Definition asked (l : Lookup) (a : SocketAddr) : Prop :=
  exists c, contacts l !! a = Some c /\ c_state c <> Unknown.

Lemma add_contact_asked l node a : asked l a -> asked (add_contact l node) a.
Proof.
  intros (c & Hc & Hs). unfold add_contact. case_decide; [by exists c|].
  destruct (contacts l !! cn_addr node) eqn:E; [by exists c|]. exists c. split; [|done].
  cbn. rewrite lookup_insert_ne; [done|]. intros E'. rewrite E' in E. congruence.
Qed.

Lemma fold_add_asked nodes l a : asked l a -> asked (fold_left add_contact nodes l) a.
Proof. revert l. induction nodes; cbn; auto using add_contact_asked. Qed.

Lemma insert_asked l l' b c a :
  contacts l' = <[b := c]> (contacts l) -> c_state c <> Unknown -> asked l a -> asked l' a.
Proof.
  intros E Hc (d & Hd & Hs). unfold asked. rewrite E. destruct (decide (b = a)) as [->|].
  - exists c. by rewrite lookup_insert_eq.
  - exists d. by rewrite lookup_insert_ne.
Qed.

Lemma lk_exec_asked l ev a : asked l a -> asked (fst (lk_exec l ev)) a.
Proof.
  intros Ha. destruct ev as [|b|from id r|node]; cbn [lk_exec fst].
  - destruct Ha as (c & Hc & Hs). rewrite next_queries_mark. unfold asked.
    cbn [contacts set_contacts]. rewrite mark_lookup, Hc. case_decide; [|by exists c].
    by exists (set_c_state Pending c).
  - unfold lookup_on_timeout. destruct (contacts l !! b) as [c|] eqn:E; [|done].
    case_decide; [|done]. by eapply insert_asked.
  - unfold lookup_on_response. destruct (merge_values _ _ _) as [known fresh]. cbn [fst].
    set (l1 := match contacts l !! from with Some _ => _ | None => _ end).
    assert (H1 : asked l1 a).
    { unfold l1. destruct (contacts l !! from); by eapply insert_asked. }
    by apply (fold_add_asked (r_nodes r)) in H1.
  - by apply add_contact_asked.
Qed.

Lemma lk_exec_inv l ev : lookup_inv l -> lookup_inv (fst (lk_exec l ev)).
Proof.
  intros Hi. destruct ev; cbn [lk_exec fst];
    auto using next_queries_inv, on_timeout_inv, on_response_inv, add_contact_inv.
Qed.

Lemma lk_exec_sent l ev n :
  lookup_inv l -> n ∈ snd (lk_exec l ev) -> ~ asked l (cn_addr n) /\ asked (fst (lk_exec l ev)) (cn_addr n).
Proof.
  intros Hi. destruct ev; cbn [lk_exec fst snd]; try by intros ?%not_elem_of_nil.
  intros Hn. destruct (chosen_elem l n Hi Hn) as (c & Hc & Hu & _). split.
  - intros (c' & Hc' & Hs). congruence.
  - rewrite next_queries_mark. unfold asked. cbn [contacts set_contacts].
    rewrite mark_lookup, Hc, decide_True by by apply list_elem_of_fmap_2.
    by exists (set_c_state Pending c).
Qed.

Lemma lk_run_sound evs l l' sent :
  lookup_inv l -> lk_run l evs = (l', sent) ->
  lookup_inv l' /\ NoDup (map cn_addr sent) /\
  (forall n, n ∈ sent -> ~ asked l (cn_addr n)) /\ forall a, asked l a -> asked l' a.
Proof.
  revert l l' sent. induction evs as [|ev evs IH]; intros l l' sent Hi; cbn [lk_run].
  { intros [= <- <-]. split_and!; [done|constructor|by intros ? ?%not_elem_of_nil|done]. }
  pose proof (lk_exec_inv l ev Hi) as Hi1. pose proof (fun n => lk_exec_sent l ev n Hi) as Hs.
  pose proof (fun a => lk_exec_asked l ev a) as Ha.
  assert (Hnd : NoDup (map cn_addr (snd (lk_exec l ev)))).
  { destruct ev; cbn; try by constructor. by apply chosen_NoDup. }
  destruct (lk_exec l ev) as [l1 s1]. cbn [fst snd] in *.
  destruct (lk_run l1 evs) as [l2 s2] eqn:E. intros [= <- <-].
  destruct (IH l1 l2 s2 Hi1 E) as (Hi2 & Hnd2 & Hnew & Hkeep). split_and!; [done| | |auto].
  - rewrite map_app. apply NoDup_app. split_and!; [done| |done].
    intros a (n & -> & Hn)%list_elem_of_fmap (n' & Hn' & Hin)%list_elem_of_fmap.
    apply (Hnew n' Hin). rewrite <- Hn'. by apply Hs.
  - intros n [Hn|Hn]%elem_of_app; [by apply Hs|]. intros Has. by apply (Hnew n Hn), Ha.
Qed.
End Laws.

Lemma length_omap_le {A B} (f : A -> option B) (l : list A) : (length (omap f l) <= length l)%nat.
Proof. induction l as [|x l IH]; cbn; [lia|]. destruct (f x); cbn; lia. Qed.

(** ** Properties *)

(** A lookup asks nobody twice and never has more than three queries under
    way, whatever is answered, times out or is learned in whatever order, and in
    whatever order the map is traversed; every contact it asked stays known. *)
Theorem lookup_queries_once iter `{!HashOrder iter} target kind seeds evs l sent :
  lk_run iter (lookup_new target kind seeds) evs = (l, sent) ->
  NoDup (map cn_addr sent) /\
  (length (in_state Pending (contact_values iter l)) <= 3)%nat /\
  forall a c, contacts l !! a = Some c -> cn_addr (c_node c) = a.
Proof.
  intros H. apply lk_run_sound in H as (Hi & Hnd & _); [|done|by apply lookup_new_inv].
  split; [done|]. rewrite count_state by done. by split; apply Hi.
Qed.

(** C33: every lookup ends: with the contacts it learns taken from a finite set of
    addresses, sending queries and the answers to and timeouts of queries under
    way can happen at most three times per address, and when none of them can
    happen any more the lookup is done. *)
Theorem lookup_terminates iter `{!HashOrder iter} (U : gset SocketAddr) target kind seeds n l :
  nsteps (lk_progress iter) n (lookup_new target kind seeds) l -> dom (contacts l) ⊆ U ->
  (n <= 3 * size U)%nat /\
  ((forall l', ~ lk_progress iter l l') -> is_done iter l = true).
Proof.
  intros Hs HU. apply progress_gain in Hs as [Hi Hg]; [|done|by apply lookup_new_inv]. split.
  - pose proof (msum_le gain 3 (contacts l) (fun c => proj2 (gain_range c))) as Hle.
    apply subseteq_size in HU. rewrite size_dom in HU. lia.
  - intros Hstuck. destruct (is_done iter l) eqn:E; [done|exfalso].
    destruct (not_done_progress iter l Hi E) as [Hp|Hc].
    + apply pending_exists in Hp as (a & c & Ha & Hc). eapply Hstuck. by eapply LkTimeout.
    + eapply Hstuck. by apply LkQuery.
Qed.

(** What a finished lookup stands for: no query is under way, the eight known
    contacts closest to the target have all been asked (they answered or failed),
    every contact not asked is at least as far as each of them, and the peers are
    announced to at most eight contacts, each of which answered with the token
    that is used. *)
Theorem lookup_result iter `{!HashOrder iter} l :
  lookup_inv l -> is_done iter l = true ->
  (forall a c, contacts l !! a = Some c -> c_state c <> Pending) /\
  (forall c, c ∈ closest_contacts iter l K -> c_state c = Responded \/ c_state c = Failed) /\
  (forall a u c, contacts l !! a = Some u -> c_state u = Unknown -> c ∈ closest_contacts iter l K ->
    closer_eq (l_target l) (cn_id (c_node c)) (cn_id (c_node u))) /\
  (length (announce_targets iter l) <= 8)%nat /\
  (forall node token, (node, token) ∈ announce_targets iter l ->
    exists c, contacts l !! cn_addr node = Some c /\ c_node c = node /\
      c_state c = Responded /\ c_token c = Some token).
Proof.
  intros Hi Hd. unfold is_done in Hd.
  assert (Hex : forall (p : Contact -> bool) cs, existsb p cs = false -> forall c, c ∈ cs -> p c = false).
  { intros p cs H c Hc. apply not_true_iff_false. intros Hp. apply not_true_iff_false in H.
    apply H, existsb_exists. exists c. by rewrite <- list_elem_of_In. }
  destruct (existsb (fun c => bool_decide (c_state c = Pending)) _) eqn:Ep; [done|].
  assert (Hnp : forall c, c ∈ contact_values iter l -> c_state c <> Pending).
  { intros c Hc. apply (Hex _ _ Ep) in Hc. by apply bool_decide_eq_false in Hc. }
  set (sorted := sort_contacts (l_target l) (contact_values iter l)).
  assert (Hsub : forall c, c ∈ closest_contacts iter l K -> c ∈ contact_values iter l).
  { intros c (i & Hc & _)%elem_of_take. apply list_elem_of_lookup_2 in Hc.
    by rewrite sort_contacts_perm in Hc. }
  assert (Hnu : forall c, c ∈ closest_contacts iter l K -> c_state c <> Unknown).
  { destruct (existsb (fun c => bool_decide (c_state c = Unknown)) _) eqn:Eu.
    - destruct (existsb _ (closest_contacts iter l K)) eqn:Ec; [done|]. intros c Hc.
      apply (Hex _ _ Ec), orb_false_iff in Hc as [Hc _]. by apply bool_decide_eq_false in Hc.
    - intros c Hc%Hsub. apply (Hex _ _ Eu) in Hc. by apply bool_decide_eq_false in Hc. }
  assert (Hsorted : StronglySorted (fun a b => closer_eq (l_target l) (cn_id (c_node a)) (cn_id (c_node b)))
    (take K sorted ++ drop K sorted)).
  { rewrite take_drop. apply StronglySorted_merge_sort; apply (closer_total (fun c => cn_id (c_node c))) ||
      apply (closer_trans (fun c => cn_id (c_node c))). }
  apply StronglySorted_app_inv in Hsorted as [_ Hfar]. split_and!.
  - intros a c Hc. apply Hnp, elem_contact_values; eauto.
  - intros c Hc. pose proof (Hnu c Hc). apply Hsub, Hnp in Hc. destruct (c_state c); auto; done.
  - intros a u c Hu Hus Hc. apply Hfar; [done|].
    assert (Hin : u ∈ take K sorted ++ drop K sorted).
    { rewrite take_drop. unfold sorted. rewrite sort_contacts_perm. apply elem_contact_values; eauto. }
    apply elem_of_app in Hin as [Hin|]; [|done]. by apply Hnu in Hin.
  - unfold announce_targets. etrans; [apply length_omap_le|]. unfold closest_contacts.
    rewrite length_take. unfold K. lia.
  - intros node token (c & Hc & Ht)%list_elem_of_omap. apply Hsub, elem_contact_values in Hc as [a Ha]; [|done].
    destruct (c_token c) as [tk|] eqn:Etk; [|done]. injection Ht as <- ->. exists c.
    rewrite (li_key _ Hi a c Ha). split_and!; try done. apply (li_token _ Hi a c Ha). by rewrite Etk.
Qed.

(** ** Dead contacts *)

Definition answers (b : Z) (nodes : list Z) : lk_event :=
  EvResponse (cn_addr (sample_node b)) (sample_id b)
    (mkResponse (sample_id b) (map sample_node nodes) [] (Some [b])).

Definition fails (b : Z) : lk_event := EvTimeout (cn_addr (sample_node b)).

(** The contacts 1 to 8 are dead; 100 and 101, farther from the target 0, answer
    with tokens. *)
Definition dead_lookup : Lookup * list CompactNode :=
  lk_run map_to_list (lookup_new (sample_id 0) GetPeers (map sample_node [1; 2; 3; 4; 5; 6; 7; 100]))
    [EvQuery; fails 1; fails 2; fails 3; EvQuery; fails 4; fails 5; fails 6; EvQuery;
     answers 100 [8; 101]; EvQuery; fails 7; fails 8; answers 101 []].

(** Failed contacts count among the closest ones: a lookup whose eight closest
    contacts are dead ends with no contact to announce to, although two contacts
    answered it with tokens. *)
Theorem dead_contacts_block_announce :
  let l := fst dead_lookup in
  is_done map_to_list l = true /\ announce_targets map_to_list l = [] /\
  length (in_state Responded (contact_values map_to_list l)) = 2%nat /\
  length (in_state Failed (contact_values map_to_list l)) = 8%nat.
Proof. vm_compute. split_and!; reflexivity. Qed.

Lemma dead_lookup_inv : lookup_inv (fst dead_lookup).
Proof.
  destruct dead_lookup as [l sent] eqn:E. unfold dead_lookup in E.
  apply lk_run_sound in E as [Hi _]; [exact Hi|apply _|apply lookup_new_inv].
Qed.

(** A lookup with one seed that times out. *)
Lemma lookup_terminates_witness :
  exists l, nsteps (lk_progress map_to_list) 2 (lookup_new (sample_id 0) FindNode [sample_node 1]) l /\
    is_done map_to_list l = true /\ (2 <= 3 * size (dom (contacts l) : gset SocketAddr))%nat.
Proof.
  set (l0 := lookup_new (sample_id 0) FindNode [sample_node 1]).
  set (l1 := snd (next_queries map_to_list l0)).
  set (l2 := lookup_on_timeout l1 (cn_addr (sample_node 1))).
  assert (H : nsteps (lk_progress map_to_list) 2 l0 l2).
  { eapply nsteps_l; [apply LkQuery; vm_compute; congruence|].
    eapply nsteps_l; [apply (LkTimeout map_to_list l1 (cn_addr (sample_node 1))
      (mkContact (sample_node 1) Pending None)); vm_compute; reflexivity|]. apply nsteps_O. }
  exists l2. split; [exact H|]. split; [vm_compute; reflexivity|].
  destruct (lookup_terminates map_to_list (dom (contacts l2)) _ _ _ _ _ H) as [H' _]; [reflexivity|exact H'].
Defined.
