(* ===== verification/DhtStore.v ===== *)
(** * Announced peers and tokens (crates/bit_rev/src/dht/announce.rs, token.rs)

    The bounded store of the peers announced to this node, and the tokens that
    tie an announce to the address that asked for it.  The digest is SHA-1 and
    an argument; so are the random secrets. *)

From S2P Require Import Prelude Routing.

Definition ANNOUNCE_TTL : Duration := secs (30 * 60).
Definition MAX_PEERS_PER_HASH : nat := 50.
Definition MAX_ANNOUNCE_HASHES : nat := 1024.

Record PeerEntry := mkPeerEntry { pe_addr : SocketAddr; pe_seen : Instant }.

(** The [peers] map of [AnnounceStore]. *)
Abbreviation AnnounceStore := (gmap NodeId (list PeerEntry)) (only parsing).

Definition fresh (now : Instant) (p : PeerEntry) : Prop := since now (pe_seen p) < ANNOUNCE_TTL.

#[export] Instance fresh_dec now p : Decision (fresh now p).
Proof. unfold fresh. apply _. Defined.

Definition expire (now : Instant) (m : AnnounceStore) : AnnounceStore :=
  filter (fun e => e.2 <> []) (filter (fresh now) <$> m).

(** [existing.seen = now] on the first entry of the address. *)
Fixpoint refresh (addr : SocketAddr) (now : Instant) (l : list PeerEntry) : list PeerEntry :=
  match l with
  | [] => []
  | p :: l' =>
      if decide (pe_addr p = addr) then mkPeerEntry addr now :: l' else p :: refresh addr now l'
  end.

Definition seen_le (a b : PeerEntry) : Prop := pe_seen a <= pe_seen b.

#[export] Instance seen_le_dec a b : Decision (seen_le a b).
Proof. unfold seen_le. apply _. Defined.

Definition announce_list (l : list PeerEntry) (addr : SocketAddr) (now : Instant) : list PeerEntry :=
  if existsb (fun p => bool_decide (pe_addr p = addr)) l then refresh addr now l
  else
    let l := if (MAX_PEERS_PER_HASH <=? length l)%nat then tail (merge_sort seen_le l) else l in
    l ++ [mkPeerEntry addr now].

(** The age of a hash: when its first peer was seen. *)
Definition first_seen (now : Instant) (e : NodeId * list PeerEntry) : Instant :=
  match e.2 with p :: _ => pe_seen p | [] => now end.

Definition announce (iter : AnnounceStore -> list (NodeId * list PeerEntry)) (m : AnnounceStore)
    (info_hash : NodeId) (addr : SocketAddr) (now : Instant) : AnnounceStore :=
  if addr_port addr =? 0 then m
  else
    let m := expire now m in
    let m :=
      if bool_decide (m !! info_hash = None) && (MAX_ANNOUNCE_HASHES <=? size m)%nat then
        match min_by_key (first_seen now) (iter m) with
        | Some oldest => delete oldest.1 m
        | None => m
        end
      else m in
    <[info_hash := announce_list (default [] (m !! info_hash)) addr now]> m.

Definition store_get (m : AnnounceStore) (info_hash : NodeId) (now : Instant)
    : list SocketAddr * AnnounceStore :=
  let m := expire now m in
  (match m !! info_hash with Some l => map pe_addr l | None => [] end, m).

(** ** Tokens *)

Definition TOKEN_ROTATE : Duration := secs (5 * 60).

Record TokenSecrets := mkTokenSecrets {
  tk_current : bytes;
  tk_previous : bytes;
  rotated_at : Instant }.

Definition rotate (now : Instant) (secret : bytes) (s : TokenSecrets) : TokenSecrets :=
  mkTokenSecrets secret (tk_current s) now.

(** [secret] is what the generator gives if the secrets are rotated. *)
Definition maybe_rotate (now : Instant) (secret : bytes) (s : TokenSecrets) : TokenSecrets :=
  if TOKEN_ROTATE <=? since now (rotated_at s) then rotate now secret s else s.

Section Digest.
Context (sha1 : bytes -> bytes).

Definition hash_token (secret : bytes) (ip : IpAddr) : bytes :=
  match ip with
  | IpV4 v4 => sha1 (secret ++ be_bytes 4 v4)
  | IpV6 v6 => sha1 (secret ++ be_bytes 16 v6)
  end.

Definition issue (s : TokenSecrets) (ip : IpAddr) : bytes := hash_token (tk_current s) ip.

Definition validate (s : TokenSecrets) (ip : IpAddr) (token : bytes) : bool :=
  bool_decide (token = hash_token (tk_current s) ip) ||
  bool_decide (token = hash_token (tk_previous s) ip).
End Digest.

(** ** The store *)

Definition wf_entries (l : list PeerEntry) : Prop :=
  l <> [] /\ (length l <= MAX_PEERS_PER_HASH)%nat /\ NoDup (pe_addr <$> l).

Record store_inv (m : AnnounceStore) : Prop := {
  si_size : (size m <= MAX_ANNOUNCE_HASHES)%nat;
  si_lists : forall h l, m !! h = Some l -> wf_entries l }.

Lemma expire_lookup now m h l :
  expire now m !! h = Some l <->
  exists l0, m !! h = Some l0 /\ l = filter (fresh now) l0 /\ l <> [].
Proof.
  unfold expire. rewrite map_lookup_filter_Some, lookup_fmap. cbn. split.
  - intros [E Hne]. destruct (m !! h) as [l0|]; [|done]. injection E as <-. eauto.
  - intros (l0 & E & -> & Hne). by rewrite E.
Qed.

Lemma expire_inv now m : store_inv m -> store_inv (expire now m).
Proof.
  intros Hi. split.
  - etrans; [|apply (si_size _ Hi)]. rewrite <- !(size_dom (D := gset NodeId)). apply subseteq_size.
    intros h [l (l0 & E & _)%expire_lookup]%elem_of_dom. by apply elem_of_dom_2 in E.
  - intros h l (l0 & E & -> & Hne)%expire_lookup. destruct (si_lists _ Hi h l0 E) as (_ & Hl & Hnd).
    split_and!; [done|etrans; [apply length_filter|done]|].
    eapply sublist_NoDup; [done|]. apply fmap_sublist, sublist_filter.
Qed.

Lemma refresh_addrs addr now l : pe_addr <$> refresh addr now l = pe_addr <$> l.
Proof.
  induction l as [|p l IH]; [done|]. cbn [refresh]. case_decide as E; [by rewrite !fmap_cons, E|].
  by rewrite !fmap_cons, IH.
Qed.

Lemma refresh_elem addr now l p :
  p ∈ refresh addr now l -> p = mkPeerEntry addr now \/ p ∈ l.
Proof.
  induction l as [|q l IH]; cbn [refresh]; [by intros ?%not_elem_of_nil|].
  case_decide; rewrite !elem_of_cons; [tauto|]. intros [->|?%IH]; tauto.
Qed.

Lemma refresh_has addr now l :
  addr ∈ pe_addr <$> l -> mkPeerEntry addr now ∈ refresh addr now l.
Proof.
  induction l as [|q l IH]; cbn [refresh]; [by intros ?%not_elem_of_nil|].
  rewrite fmap_cons, elem_of_cons. intros [->|H]; [rewrite decide_True by done; left|].
  case_decide; [left|right; by apply IH].
Qed.

Lemma known_spec addr l :
  existsb (fun p => bool_decide (pe_addr p = addr)) l = true <-> addr ∈ pe_addr <$> l.
Proof.
  rewrite existsb_exists, list_elem_of_fmap. setoid_rewrite bool_decide_eq_true.
  setoid_rewrite list_elem_of_In. naive_solver.
Qed.

(** The entries that remain when the list is full: the oldest is dropped. *)
Definition evict (l : list PeerEntry) : list PeerEntry :=
  if (MAX_PEERS_PER_HASH <=? length l)%nat then tail (merge_sort seen_le l) else l.

Lemma sublist_tail {A} (l : list A) : tail l `sublist_of` l.
Proof. destruct l; [done|]. by apply sublist_cons. Qed.

Lemma evict_spec l :
  (length l <= MAX_PEERS_PER_HASH)%nat -> NoDup (pe_addr <$> l) ->
  (length (evict l) < MAX_PEERS_PER_HASH)%nat /\ NoDup (pe_addr <$> evict l) /\
  forall p, p ∈ evict l -> p ∈ l.
Proof.
  intros Hl Hnd. unfold evict. destruct (Nat.leb_spec MAX_PEERS_PER_HASH (length l)) as [Hfull|].
  - pose proof (merge_sort_Permutation seen_le l) as Hp. split_and!.
    + assert (L : length (merge_sort seen_le l) = length l) by by rewrite Hp.
      unfold MAX_PEERS_PER_HASH in *.
      destruct (merge_sort seen_le l); cbn in *; lia.
    + eapply sublist_NoDup; [|apply fmap_sublist, sublist_tail]. by rewrite Hp.
    + intros p Hin. rewrite <- Hp. destruct (merge_sort seen_le l); [done|by right].
  - split_and!; done.
Qed.

Lemma announce_list_spec l addr now :
  (length l <= MAX_PEERS_PER_HASH)%nat -> NoDup (pe_addr <$> l) ->
  wf_entries (announce_list l addr now) /\
  mkPeerEntry addr now ∈ announce_list l addr now /\
  forall p, p ∈ announce_list l addr now -> p = mkPeerEntry addr now \/ p ∈ l.
Proof.
  intros Hl Hnd. unfold announce_list. destruct (existsb _ l) eqn:E.
  - apply known_spec in E. assert (Hin := refresh_has addr now l E). split_and!.
    + split_and!.
      * intros H. rewrite H in Hin. by apply not_elem_of_nil in Hin.
      * rewrite <- (length_fmap pe_addr), refresh_addrs, length_fmap. done.
      * by rewrite refresh_addrs.
    + done.
    + intros p. apply refresh_elem.
  - fold (evict l). destruct (evict_spec l Hl Hnd) as (He & Hend & Hsub). split_and!.
    + split_and!; [by destruct (evict l)|rewrite length_app; cbn; lia|].
      rewrite fmap_app. apply NoDup_app. split_and!; [done| |apply NoDup_singleton].
      intros a Ha ->%list_elem_of_singleton.
      apply list_elem_of_fmap in Ha as (p & Hp & Hin%Hsub). cbn in Hp.
      apply not_true_iff_false in E. apply E, known_spec. rewrite Hp. by apply list_elem_of_fmap_2.
    + apply elem_of_app. right. by apply list_elem_of_singleton.
    + intros p [Hp|Hp]%elem_of_app; [right; by apply Hsub|left; by apply list_elem_of_singleton in Hp].
Qed.

(** Room for a new hash. *)
Definition make_room (iter : AnnounceStore -> list (NodeId * list PeerEntry)) (info_hash : NodeId)
    (now : Instant) (m : AnnounceStore) : AnnounceStore :=
  if bool_decide (m !! info_hash = None) && (MAX_ANNOUNCE_HASHES <=? size m)%nat then
    match min_by_key (first_seen now) (iter m) with
    | Some oldest => delete oldest.1 m
    | None => m
    end
  else m.

Lemma make_room_spec iter `{!HashOrder iter} h now m :
  store_inv m ->
  store_inv (make_room iter h now m) /\
  (make_room iter h now m !! h = None -> size (make_room iter h now m) < MAX_ANNOUNCE_HASHES)%nat /\
  (forall h' l, make_room iter h now m !! h' = Some l -> m !! h' = Some l) /\
  (is_Some (m !! h) -> make_room iter h now m = m).
Proof.
  intros Hi. unfold make_room. case_bool_decide as Hn; cbn [andb].
  - destruct (Nat.leb_spec MAX_ANNOUNCE_HASHES (size m)) as [Hfull|Hfree].
    + destruct (min_by_key _ (iter m)) as [[k l]|] eqn:E.
      * apply min_by_key_in in E. rewrite (iter_perm m) in E. apply elem_of_map_to_list in E.
        cbn [fst]. assert (Hs : (size (delete k m) < MAX_ANNOUNCE_HASHES)%nat).
        { pose proof (si_size _ Hi). rewrite map_size_delete, E. unfold MAX_ANNOUNCE_HASHES in *. lia. }
        split_and!; [|done| |intros [? ?]; congruence].
        -- split; [lia|]. intros h' l' [_ H]%lookup_delete_Some. by apply (si_lists _ Hi h').
        -- by intros h' l' [_ H]%lookup_delete_Some.
      * exfalso. assert (Hz : iter m = []) by by destruct (iter m).
        pose proof (iter_perm m) as Hp. rewrite Hz in Hp. apply Permutation_nil in Hp.
        apply map_to_list_empty_iff in Hp. rewrite Hp, map_size_empty in Hfull.
        unfold MAX_ANNOUNCE_HASHES in Hfull. lia.
    + by split_and!.
  - split_and!; try done.
Qed.

Lemma announce_unfold iter m h addr now :
  addr_port addr <> 0 ->
  announce iter m h addr now =
  let m1 := make_room iter h now (expire now m) in
  <[h := announce_list (default [] (m1 !! h)) addr now]> m1.
Proof. intros Hp. unfold announce. by rewrite (proj2 (Z.eqb_neq _ _) Hp). Qed.

Lemma announce_spec iter `{!HashOrder iter} m h addr now :
  store_inv m -> addr_port addr <> 0 ->
  let m' := announce iter m h addr now in
  store_inv m' /\
  (exists l, m' !! h = Some l /\ mkPeerEntry addr now ∈ l) /\
  (forall h' l p, m' !! h' = Some l -> p ∈ l ->
    (h' = h /\ p = mkPeerEntry addr now) \/ exists l0, m !! h' = Some l0 /\ p ∈ l0).
Proof.
  intros Hi Hp m'. unfold m'. rewrite announce_unfold by done. cbn zeta.
  destruct (make_room_spec iter h now (expire now m) (expire_inv now m Hi)) as (Hi1 & Hroom & Hsub & _).
  set (m1 := make_room iter h now (expire now m)) in *.
  assert (Hdef : (length (default [] (m1 !! h)) <= MAX_PEERS_PER_HASH)%nat /\
    NoDup (pe_addr <$> default [] (m1 !! h))).
  { destruct (m1 !! h) as [l|] eqn:E; [by apply (si_lists _ Hi1) in E as (_ & ? & ?)|].
    cbn. split; [lia|constructor]. }
  destruct Hdef as [Hd1 Hd2].
  destruct (announce_list_spec (default [] (m1 !! h)) addr now Hd1 Hd2) as (Hwf & Hin & Hel).
  set (l' := announce_list (default [] (m1 !! h)) addr now) in *. split_and!.
  - split.
    + destruct (m1 !! h) as [l|] eqn:E.
      * rewrite map_size_insert, E. apply (si_size _ Hi1).
      * rewrite map_size_insert, E. specialize (Hroom eq_refl). lia.
    + intros h' l [[<- <-]|[_ H]]%lookup_insert_Some; [done|by apply (si_lists _ Hi1 h')].
  - exists l'. by rewrite lookup_insert_eq.
  - assert (Hold : forall h0 l0 p, m1 !! h0 = Some l0 -> p ∈ l0 ->
      exists l1, m !! h0 = Some l1 /\ p ∈ l1).
    { intros h0 l0 p (l1 & E & -> & _)%Hsub%expire_lookup Hp0.
      apply list_elem_of_filter in Hp0 as [_ ?]. eauto. }
    intros h' l p [[<- <-]|[_ H]]%lookup_insert_Some Hpl; [|right; eauto].
    apply Hel in Hpl as [->|Hpl]; [by left|right].
    destruct (m1 !! h) as [l0|] eqn:E; [eauto|by apply not_elem_of_nil in Hpl].
Qed.

(** *** What an announce takes out of the store *)

Lemma min_by_key_le {A} (key : A -> Z) l x y : min_by_key key l = Some x -> y ∈ l -> key x <= key y.
Proof.
  destruct l as [|z l]; [done|]. cbn. intros [= <-].
  assert (H : forall l b, key (fold_left (fun best y => if key y <? key best then y else best) l b) <= key b /\
    forall y, y ∈ l -> key (fold_left (fun best y => if key y <? key best then y else best) l b) <= key y).
  { clear. induction l as [|c l IH]; intros b; cbn [fold_left]; [split; [lia|by intros y ?%not_elem_of_nil]|].
    destruct (IH (if key c <? key b then c else b)) as [H1 H2]. case_cmp; (split; [lia|]);
      intros y [->|Hy]%elem_of_cons; first [by apply H2|lia]. }
  destruct (H l z) as [H1 H2]. intros [->|Hy]%elem_of_cons; [done|by apply H2].
Qed.

(** An entry makes way for an announce of [addr] under the hash [h0]: as the entry
    of the same address, as the oldest of a full list, or with the whole hash whose
    first peer is the oldest when there are 1024 others. *)
Definition displaced (m : AnnounceStore) (now : Instant) (h0 : NodeId) (addr : SocketAddr) (h : NodeId) (e : PeerEntry) : Prop :=
  (h = h0 /\ pe_addr e = addr) \/
  (h = h0 /\ exists l, m !! h = Some l /\ (50 <= length (filter (fresh now) l))%nat /\
     forall e', e' ∈ l -> fresh now e' -> pe_seen e <= pe_seen e') \/
  (h <> h0 /\ expire now m !! h0 = None /\ (1024 <= size (expire now m))%nat /\
     forall h' l l', expire now m !! h = Some l -> expire now m !! h' = Some l' -> first_seen now (h, l) <= first_seen now (h', l')).

Lemma refresh_keeps addr now l e : e ∈ l -> pe_addr e <> addr -> e ∈ refresh addr now l.
Proof.
  induction l as [|p l IH]; [by intros ?%not_elem_of_nil|]. cbn [refresh]. intros [->|He]%elem_of_cons Hne.
  - rewrite decide_False by done. left.
  - case_decide; right; [done|by apply IH].
Qed.

Lemma evict_keeps l e : e ∈ l -> e ∈ evict l \/ ((50 <= length l)%nat /\ forall e', e' ∈ l -> pe_seen e <= pe_seen e').
Proof.
  intros He. unfold evict. destruct (Nat.leb_spec MAX_PEERS_PER_HASH (length l)) as [Hfull|]; [|by left].
  pose proof (merge_sort_Permutation seen_le l) as Hp.
  assert (Hs : StronglySorted seen_le (merge_sort seen_le l)).
  { apply Sorted_StronglySorted; [intros a b c; unfold seen_le; lia|]. apply Sorted_merge_sort. intros a b. unfold seen_le. lia. }
  rewrite <-Hp in He. destruct (merge_sort seen_le l) as [|x xs]; [by apply not_elem_of_nil in He|].
  apply elem_of_cons in He as [->|He]; [right|by left]. split; [done|]. intros e' He'. rewrite <-Hp in He'.
  apply StronglySorted_inv in Hs as [_ Hx]. apply elem_of_cons in He' as [->|He']; [lia|].
  rewrite Forall_forall in Hx. by apply Hx.
Qed.

(** A fresh entry stays in the store, or makes way for the one announced. *)
Lemma announce_keeps iter `{!HashOrder iter} m h0 addr now h l e :
  store_inv m -> m !! h = Some l -> e ∈ l -> fresh now e ->
  (exists l', announce iter m h0 addr now !! h = Some l' /\ e ∈ l') \/ displaced m now h0 addr h e.
Proof.
  intros Hi Hl He Hf. destruct (decide (addr_port addr = 0)) as [E0|Hp]; [left; unfold announce; rewrite E0; eauto|].
  rewrite announce_unfold by done. cbn zeta.
  assert (Hx : expire now m !! h = Some (filter (fresh now) l)).
  { apply expire_lookup. exists l. split_and!; [done|done|]. intros En.
    assert (Hin : e ∈ filter (fresh now) l) by by apply list_elem_of_filter. rewrite En in Hin. by apply not_elem_of_nil in Hin. }
  assert (Hfl : e ∈ filter (fresh now) l) by by apply list_elem_of_filter.
  destruct (decide (h = h0)) as [->|Hne].
  - destruct (make_room_spec iter h0 now (expire now m) (expire_inv now m Hi)) as (_ & _ & _ & ->); [|by rewrite Hx].
    rewrite Hx. cbn [default]. rewrite lookup_insert_eq. destruct (decide (pe_addr e = addr)) as [Ea|Ha]; [right; by left|].
    unfold announce_list. fold (evict (filter (fresh now) l)). destruct (existsb _ _).
    + left. eexists. split; [done|]. by apply refresh_keeps.
    + destruct (evict_keeps _ _ Hfl) as [Hk|[Hfull Hold]].
      * left. eexists. split; [done|]. apply elem_of_app. by left.
      * right. right. left. split; [done|]. exists l. split_and!; [done|done|]. intros e' He' Hf'. apply Hold. by apply list_elem_of_filter.
  - rewrite lookup_insert_ne by done. unfold make_room. case_bool_decide as Hn; cbn [andb]; [|left; rewrite Hx; eauto].
    destruct (Nat.leb_spec MAX_ANNOUNCE_HASHES (size (expire now m))) as [Hfull|]; [|left; rewrite Hx; eauto].
    destruct (min_by_key _ (iter (expire now m))) as [[k lk]|] eqn:E; [|left; rewrite Hx; eauto]. cbn [fst].
    destruct (decide (k = h)) as [->|Hk]; [|left; rewrite lookup_delete_ne, Hx by done; eauto].
    right. right. right. split_and!; [done|done|done|]. intros h' l1 l' E1 E2.
    pose proof (min_by_key_in _ _ _ E) as Hin. rewrite (iter_perm (expire now m)) in Hin. apply elem_of_map_to_list in Hin.
    rewrite Hin in E1. injection E1 as <-. eapply min_by_key_le in E; [exact E|]. rewrite (iter_perm (expire now m)). by apply elem_of_map_to_list.
Qed.

(** ** Sequences of operations *)

Inductive st_op :=
| StAnnounce (info_hash : NodeId) (addr : SocketAddr) (now : Instant)
| StGet (info_hash : NodeId) (now : Instant).

Definition st_exec (iter : AnnounceStore -> list (NodeId * list PeerEntry)) (m : AnnounceStore)
    (op : st_op) : AnnounceStore :=
  match op with
  | StAnnounce h addr now => announce iter m h addr now
  | StGet h now => snd (store_get m h now)
  end.

Definition st_run (iter : AnnounceStore -> list (NodeId * list PeerEntry)) (ops : list st_op)
    (m : AnnounceStore) : AnnounceStore := fold_left (st_exec iter) ops m.

(** Every entry was announced, for its hash, at the time it was seen. *)
Definition announced (ops : list st_op) (m : AnnounceStore) : Prop :=
  forall h l p, m !! h = Some l -> p ∈ l -> StAnnounce h (pe_addr p) (pe_seen p) ∈ ops.

Lemma st_exec_inv iter `{!HashOrder iter} m op ops :
  store_inv m -> announced ops m ->
  store_inv (st_exec iter m op) /\ announced (ops ++ [op]) (st_exec iter m op).
Proof.
  intros Hi Ha. assert (Hold : announced (ops ++ [op]) m).
  { intros h l p Hl Hp. apply elem_of_app. left. by eapply Ha. }
  destruct op as [h addr now|h now]; cbn [st_exec].
  - destruct (decide (addr_port addr = 0)) as [Hp|Hp].
    { unfold announce. by rewrite Hp. }
    destruct (announce_spec iter m h addr now Hi Hp) as (Hi' & _ & Hsub). split; [done|].
    intros h' l p Hl Hin. destruct (Hsub h' l p Hl Hin) as [[-> ->]|(l0 & Hl0 & Hin0)].
    + apply elem_of_app. right. by apply list_elem_of_singleton.
    + by eapply Hold.
  - cbn [store_get snd]. split; [by apply expire_inv|].
    intros h' l p (l0 & E & -> & _)%expire_lookup [_ Hp]%list_elem_of_filter. by eapply Hold.
Qed.

Lemma st_run_inv iter `{!HashOrder iter} ops :
  store_inv (st_run iter ops ∅) /\ announced ops (st_run iter ops ∅).
Proof.
  induction ops as [|op ops IH] using rev_ind.
  { change (st_run iter [] ∅) with (∅ : AnnounceStore). split; [|done].
    split; [rewrite map_size_empty; lia|done]. }
  unfold st_run in *. rewrite fold_left_app. cbn. destruct IH as [Hi Ha]. by apply st_exec_inv.
Qed.

(** A peer just announced is reported for half an hour. *)
Lemma announce_get iter `{!HashOrder iter} m h a t now :
  store_inv m -> addr_port a <> 0 -> since now t < ANNOUNCE_TTL ->
  a ∈ fst (store_get (announce iter m h a t) h now).
Proof.
  intros Hi Hp Hf. destruct (announce_spec iter m h a t Hi Hp) as (_ & (l & Hl & Hin) & _).
  unfold store_get. cbn [fst].
  assert (Hin' : mkPeerEntry a t ∈ filter (fresh now) l) by by apply list_elem_of_filter.
  assert (E : expire now (announce iter m h a t) !! h = Some (filter (fresh now) l)).
  { apply expire_lookup. exists l. split_and!; [done|done|]. intros Hn. rewrite Hn in Hin'.
    by apply not_elem_of_nil in Hin'. }
  rewrite E. by apply (list_elem_of_fmap_2 pe_addr) in Hin'.
Qed.

(** The announce store is bounded and exact: after any sequence of announces
    and requests it holds at most 1024 hashes with at most 50 peers each, none
    twice; a request returns only peers that were announced for that hash in the
    last 30 minutes, and a peer with a port that was just announced is among
    them for 30 minutes. *)
Theorem announce_store_exact iter `{!HashOrder iter} ops h :
  let m := st_run iter ops ∅ in
  (size m <= 1024)%nat /\
  (forall h' l, m !! h' = Some l -> (length l <= 50)%nat /\ NoDup (pe_addr <$> l)) /\
  (forall now a, a ∈ fst (store_get m h now) ->
    exists t, StAnnounce h a t ∈ ops /\ since now t < ANNOUNCE_TTL) /\
  (forall a t now, addr_port a <> 0 -> since now t < ANNOUNCE_TTL ->
    a ∈ fst (store_get (announce iter m h a t) h now)).
Proof.
  intros m. destruct (st_run_inv iter ops) as [Hi Ha]. fold m in Hi, Ha. split_and!.
  - apply Hi.
  - intros h' l Hl. by apply (si_lists _ Hi) in Hl as (_ & ? & ?).
  - intros now a. unfold store_get. cbn [fst].
    destruct (expire now m !! h) as [l|] eqn:E; [|by intros ?%not_elem_of_nil].
    apply expire_lookup in E as (l0 & E & -> & _).
    intros (p & -> & [Hf Hp]%list_elem_of_filter)%list_elem_of_fmap.
    exists (pe_seen p). split; [by eapply Ha|done].
  - intros a t now Hp Hf. by apply announce_get.
Qed.

(** ** Tokens *)

(** The ticks of the node between [t] and [t + TOKEN_ROTATE]. *)
Definition ticks (ts : list (Instant * bytes)) (s : TokenSecrets) : TokenSecrets :=
  fold_left (fun s e => maybe_rotate e.1 e.2 s) ts s.

Lemma ticks_keep ts s t :
  Forall (fun e => t <= e.1 < t + TOKEN_ROTATE) ts -> rotated_at s <= t ->
  tk_current (ticks ts s) = tk_current s \/ tk_previous (ticks ts s) = tk_current s.
Proof.
  intros Hts Hr.
  enough (H : (tk_current (ticks ts s) = tk_current s) \/
    (t <= rotated_at (ticks ts s) /\ tk_previous (ticks ts s) = tk_current s)) by tauto.
  unfold ticks. induction ts as [|[now secret] ts IH] using rev_ind; [by left|].
  apply Forall_app in Hts as [Hts [Hn _]%Forall_cons]. rewrite fold_left_app. cbn [fold_left fst snd].
  set (s' := fold_left _ ts s) in *. unfold maybe_rotate. cbn in Hn.
  destruct (Z.leb_spec TOKEN_ROTATE (since now (rotated_at s'))) as [Hge|]; [|by apply IH].
  destruct (IH Hts) as [<-|[Hs Hp]]; [right; cbn; split; [lia|done]|].
  exfalso. unfold TOKEN_ROTATE, secs in *. ranges.
Qed.

(** A token is good for five minutes at least: however often the node ticks in
    the five minutes after it issued a token to an address, the token is valid
    for that address. *)
Lemma token_window sha1 s ip t ts :
  rotated_at s <= t -> Forall (fun e => t <= e.1 < t + TOKEN_ROTATE) ts ->
  validate sha1 (ticks ts s) ip (issue sha1 s ip) = true.
Proof.
  intros Hr Hts. unfold validate, issue. apply orb_true_iff.
  destruct (ticks_keep ts s t Hts Hr) as [-> | ->]; [left|right]; by apply bool_decide_eq_true.
Qed.
