(* ===== verification/DhtNode.v ===== *)
(** * The DHT node (crates/bit_rev/src/dht/mod.rs)

    [DhtActor] is one task that handles commands, datagrams and ticks one after
    the other.  Its handlers are programs of a small monad: they read and change
    the state, and they emit what leaves the task - datagrams, peers handed to the
    session, writes of dht.dat.  A handler runs at one instant, its argument
    [now]; the random bytes it draws are arguments too, and so are the orders in
    which hash maps are traversed, the digest and the bencode library.

    [None] is a panic of the routing table or a [drive_lookup] that does not
    return; the invariant excludes both. *)

From S2P Require Import Prelude Bencode Text Value Routing Krpc Lookup DhtStore.

Definition QUERY_TIMEOUT : Duration := secs 5.
Definition REANNOUNCE_INTERVAL : Duration := secs (15 * 60).
Definition PERSIST_INTERVAL : Duration := secs (5 * 60).

(** ** State *)

Record DhtStats := mkDhtStats { st_nodes : nat; st_good_nodes : nat }.

Inductive DhtCmd :=
| AddTorrent (info_hash : NodeId) (listen_port : u16) (active : bool)
| RemoveTorrent (info_hash : NodeId)
| SetActive (info_hash : NodeId) (active : bool)
| SetAllActive (active : bool)
| PingNode (addr : SocketAddr)
| Shutdown.

Inductive PendingKind :=
| KPing (replacement : option CompactNode)
| KLookup (lookup_id : u64)
| KAnnounce.

Record Pending := mkPending { p_sent : Instant; p_kind : PendingKind }.

Record TorrentDht := mkTorrentDht {
  listen_port : u16;
  t_active : bool;
  last_announce : Instant;
  t_lookup_id : option u64 }.

Record DhtActor := mkActor {
  table : RoutingTable;
  tokens : TokenSecrets;
  store : gmap NodeId (list PeerEntry);
  pending : gmap (bytes * SocketAddr) Pending;
  lookups : gmap Z Lookup;
  torrents : gmap NodeId TorrentDht;
  next_tid : u16;
  next_lookup : u64;
  has_state_path : bool;
  last_persist : Instant;
  bootstrapped : bool;
  stats : DhtStats;
  watched : list NodeId }.

(** What leaves the task. *)
Inductive Output :=
| OSend (addr : SocketAddr) (msg : KrpcMessage)
| OPeers (info_hash : NodeId) (peers : list SocketAddr)
| OPersist (t : RoutingTable).

Definition set_table v s := mkActor v (tokens s) (store s) (pending s) (lookups s) (torrents s)
  (next_tid s) (next_lookup s) (has_state_path s) (last_persist s) (bootstrapped s) (stats s) (watched s).
Definition set_tokens v s := mkActor (table s) v (store s) (pending s) (lookups s) (torrents s)
  (next_tid s) (next_lookup s) (has_state_path s) (last_persist s) (bootstrapped s) (stats s) (watched s).
Definition set_store v s := mkActor (table s) (tokens s) v (pending s) (lookups s) (torrents s)
  (next_tid s) (next_lookup s) (has_state_path s) (last_persist s) (bootstrapped s) (stats s) (watched s).
Definition set_pending v s := mkActor (table s) (tokens s) (store s) v (lookups s) (torrents s)
  (next_tid s) (next_lookup s) (has_state_path s) (last_persist s) (bootstrapped s) (stats s) (watched s).
Definition set_lookups v s := mkActor (table s) (tokens s) (store s) (pending s) v (torrents s)
  (next_tid s) (next_lookup s) (has_state_path s) (last_persist s) (bootstrapped s) (stats s) (watched s).
Definition set_torrents v s := mkActor (table s) (tokens s) (store s) (pending s) (lookups s) v
  (next_tid s) (next_lookup s) (has_state_path s) (last_persist s) (bootstrapped s) (stats s) (watched s).
Definition set_next_tid v s := mkActor (table s) (tokens s) (store s) (pending s) (lookups s) (torrents s)
  v (next_lookup s) (has_state_path s) (last_persist s) (bootstrapped s) (stats s) (watched s).
Definition set_next_lookup v s := mkActor (table s) (tokens s) (store s) (pending s) (lookups s) (torrents s)
  (next_tid s) v (has_state_path s) (last_persist s) (bootstrapped s) (stats s) (watched s).
Definition set_last_persist v s := mkActor (table s) (tokens s) (store s) (pending s) (lookups s) (torrents s)
  (next_tid s) (next_lookup s) (has_state_path s) v (bootstrapped s) (stats s) (watched s).
Definition set_bootstrapped v s := mkActor (table s) (tokens s) (store s) (pending s) (lookups s) (torrents s)
  (next_tid s) (next_lookup s) (has_state_path s) (last_persist s) v (stats s) (watched s).
Definition set_dht_stats v s := mkActor (table s) (tokens s) (store s) (pending s) (lookups s) (torrents s)
  (next_tid s) (next_lookup s) (has_state_path s) (last_persist s) (bootstrapped s) v (watched s).
Definition set_watched v s := mkActor (table s) (tokens s) (store s) (pending s) (lookups s) (torrents s)
  (next_tid s) (next_lookup s) (has_state_path s) (last_persist s) (bootstrapped s) (stats s) v.

Definition set_active_flag (active : bool) (t : TorrentDht) : TorrentDht :=
  mkTorrentDht (listen_port t) active (last_announce t) (t_lookup_id t).
Definition set_lookup_id (id : option u64) (t : TorrentDht) : TorrentDht :=
  mkTorrentDht (listen_port t) (t_active t) (last_announce t) id.

(** ** The monad of the handlers *)

Definition M (A : Type) : Type := DhtActor -> option (A * DhtActor * list Output).

#[export] Instance M_ret : MRet M := fun A x s => Some (x, s, []).
#[export] Instance M_bind : MBind M := fun A B f c s =>
  match c s with
  | Some (x, s, o) =>
      match f x s with Some (y, s, o') => Some (y, s, o ++ o') | None => None end
  | None => None
  end.

Definition get {A} (f : DhtActor -> A) : M A := fun s => Some (f s, s, []).
Definition put (f : DhtActor -> DhtActor) : M () := fun s => Some ((), f s, []).
Definition emit (o : Output) : M () := fun s => Some ((), s, [o]).
(** A step that can panic. *)
Definition attempt {A} (o : option A) : M A := fun s => match o with Some x => Some (x, s, []) | None => None end.

Definition when (b : bool) (c : M ()) : M () := if b then c else mret ().

Fixpoint for_each {A} (f : A -> M ()) (l : list A) : M () :=
  match l with
  | [] => mret ()
  | x :: l => _ ← f x; for_each f l
  end.

Definition is_nil {A} (l : list A) : bool := match l with [] => true | _ => false end.

(** [SocketAddr::new] *)
Definition socket_addr (ip : IpAddr) (port : u16) : SocketAddr :=
  match ip with IpV4 ip => V4 ip port | IpV6 ip => V6 ip port 0 0 end.

(** ** Sending *)

(** The datagram is [encode msg]; a failed send is only logged. *)
Definition send_msg (addr : SocketAddr) (msg : KrpcMessage) : M () := emit (OSend addr msg).

Definition send_query (now : Instant) (addr : SocketAddr) (query : Query) (kind : PendingKind) : M () :=
  tid ← get next_tid;
  let t := take TRANSACTION_ID_LEN (be_bytes 2 tid) in
  _ ← put (set_next_tid (wrap16 (tid + 1)));
  _ ← put (fun s => set_pending (<[(t, addr) := mkPending now kind]> (pending s)) s);
  send_msg addr (krpc_query t query).

Definition send_ping (now : Instant) (addr : SocketAddr) (replacement : option CompactNode) : M () :=
  t ← get table;
  send_query now addr (QPing (rt_id t)) (KPing replacement).

Definition refresh_stats (now : Instant) : M () :=
  put (fun s => set_dht_stats (mkDhtStats (rt_len (table s)) (good_len (table s) now)) s).

Definition persist : M () :=
  path ← get has_state_path;
  if (path : bool) then t ← get table; emit (OPersist t) else mret ().

(** ** Lookups *)

Definition start_lookup (target : NodeId) (kind : LookupKind) (seeds : list CompactNode) : M u64 :=
  id ← get next_lookup;
  _ ← put (set_next_lookup (wrap64 (id + 1)));
  _ ← put (fun s => set_lookups (<[id := lookup_new target kind seeds]> (lookups s)) s);
  mret id.

Definition start_find_self : M () :=
  b ← get bootstrapped;
  if (b : bool) then mret ()
  else
    _ ← put (set_bootstrapped true);
    t ← get table;
    let id := rt_id t in
    _ ← start_lookup id FindNode (closest t id K);
    mret ().

Definition remove_lookup (id : u64) : M () := put (fun s => set_lookups (delete id (lookups s)) s).

Definition start_get_peers (now : Instant) (info_hash : NodeId) : M () :=
  ts ← get torrents;
  _ ← match (ts : gmap NodeId TorrentDht) !! info_hash with
      | Some t => match t_lookup_id t with Some id => remove_lookup id | None => mret () end
      | None => mret ()
      end;
  st ← get store;
  let '(local, st) := store_get st info_hash now in
  _ ← put (set_store st);
  _ ← when (negb (is_nil local)) (emit (OPeers info_hash local));
  t ← get table;
  lookup_id ← start_lookup info_hash GetPeers (closest t info_hash K);
  put (fun s => set_torrents (alter (set_lookup_id (Some lookup_id)) info_hash (torrents s)) s).

Definition lookup_query (kind : LookupKind) (id target : NodeId) : Query :=
  match kind with FindNode => QFindNode id target | GetPeers => QGetPeers id target end.

Section Node.
Context (sha1 : bytes -> bytes) (from_bytes : bytes -> option Value).
Context (iter_contacts : gmap SocketAddr Contact -> list (SocketAddr * Contact)).
Context (iter_store : gmap NodeId (list PeerEntry) -> list (NodeId * list PeerEntry)).
Context (iter_pending : gmap (bytes * SocketAddr) Pending -> list (bytes * SocketAddr * Pending)).
Context (iter_lookups : gmap Z Lookup -> list (Z * Lookup)).
Context (iter_torrents : gmap NodeId TorrentDht -> list (NodeId * TorrentDht)).

Definition finish_lookup (now : Instant) (lookup_id : u64) : M () :=
  ls ← get lookups;
  match (ls : gmap Z Lookup) !! lookup_id with
  | None => mret ()
  | Some lookup =>
      _ ← remove_lookup lookup_id;
      if negb (bool_decide (l_kind lookup = GetPeers)) then mret ()
      else
        _ ← when (negb (is_nil (l_values lookup))) (emit (OPeers (l_target lookup) (l_values lookup)));
        let info_hash := l_target lookup in
        ts ← get torrents;
        match (ts : gmap NodeId TorrentDht) !! info_hash with
        | None => mret ()
        | Some torrent =>
            if negb (t_active torrent) || (listen_port torrent =? 0) then mret ()
            else
              let port := listen_port torrent in
              t ← get table;
              _ ← for_each (fun target : CompactNode * bytes =>
                      send_query now (cn_addr target.1)
                        (QAnnouncePeer (rt_id t) info_hash port target.2 false) KAnnounce)
                    (announce_targets iter_contacts lookup);
              put (fun s => set_torrents
                     (alter (fun t => mkTorrentDht (listen_port t) (t_active t) now None)
                        info_hash (torrents s)) s)
        end
  end.

(** The loop of [drive_lookup]; out of fuel is [None]. *)
Fixpoint drive_loop (fuel : nat) (now : Instant) (lookup_id : u64) : M () :=
  match fuel with
  | O => attempt None
  | S fuel =>
      ls ← get lookups;
      match (ls : gmap Z Lookup) !! lookup_id with
      | None => mret ()
      | Some lookup =>
          if is_done iter_contacts lookup then finish_lookup now lookup_id
          else
            let '(queries, lookup) := next_queries iter_contacts lookup in
            _ ← put (fun s => set_lookups (<[lookup_id := lookup]> (lookups s)) s);
            if is_nil queries then
              when (is_done iter_contacts lookup) (finish_lookup now lookup_id)
            else
              t ← get table;
              _ ← for_each (fun node => send_query now (cn_addr node)
                      (lookup_query (l_kind lookup) (rt_id t) (l_target lookup)) (KLookup lookup_id))
                    queries;
              drive_loop fuel now lookup_id
      end
  end.

(** One round of queries and one that finds nothing more to send. *)
Definition drive_fuel : nat := 2.
Definition drive_lookup (now : Instant) (lookup_id : u64) : M () := drive_loop drive_fuel now lookup_id.

Definition kick_lookups (now : Instant) : M () :=
  ls ← get lookups;
  for_each (drive_lookup now) (map fst (iter_lookups ls)).

Definition lookup_info_hash (s : DhtActor) (lookup_id : u64) : option NodeId :=
  match list_find (fun e : NodeId * TorrentDht => t_lookup_id e.2 = Some lookup_id)
          (iter_torrents (torrents s)) with
  | Some (_, (h, _)) => Some h
  | None =>
      l ← lookups s !! lookup_id;
      if bool_decide (l_kind l = GetPeers) then Some (l_target l) else None
  end.

(** ** Packets *)

Definition on_lookup_response (now : Instant) (lookup_id : u64) (from : SocketAddr) (response : Response)
    : M () :=
  ls ← get lookups;
  match (ls : gmap Z Lookup) !! lookup_id with
  | None => mret ()
  | Some lookup =>
      let '(lookup, new_values) := lookup_on_response lookup from (r_id response) response in
      _ ← put (fun s => set_lookups (<[lookup_id := lookup]> (lookups s)) s);
      hash ← get (fun s => lookup_info_hash s lookup_id);
      _ ← match hash with
          | Some hash => when (negb (is_nil new_values)) (emit (OPeers hash new_values))
          | None => mret ()
          end;
      drive_lookup now lookup_id
  end.

Definition on_response (now : Instant) (t : bytes) (response : Response) (from : SocketAddr) : M () :=
  ps ← get pending;
  match (ps : gmap (bytes * SocketAddr) Pending) !! (t, from) with
  | None => mret ()
  | Some p =>
      _ ← put (fun s => set_pending (delete (t, from) (pending s)) s);
      tb ← get table;
      tb ← attempt (seen_response tb (r_id response) from now);
      _ ← put (set_table tb);
      _ ← for_each (fun node =>
              tb ← get table;
              r ← attempt (Routing.insert tb node now);
              put (set_table (fst r))) (r_nodes response);
      _ ← refresh_stats now;
      match p_kind p with
      | KPing _ =>
          b ← get bootstrapped;
          tb ← get table;
          when (negb b && negb (rt_is_empty tb)) (_ ← start_find_self; kick_lookups now)
      | KLookup lookup_id => on_lookup_response now lookup_id from response
      | KAnnounce => mret ()
      end
  end.

Definition on_error (t : bytes) (from : SocketAddr) : M () :=
  ps ← get pending;
  match (ps : gmap (bytes * SocketAddr) Pending) !! (t, from) with
  | None => mret ()
  | Some p =>
      _ ← put (fun s => set_pending (delete (t, from) (pending s)) s);
      match p_kind p with
      | KLookup lookup_id =>
          put (fun s => set_lookups (alter (fun l => lookup_on_timeout l from) lookup_id (lookups s)) s)
      | _ => mret ()
      end
  end.

Definition empty_response (id : NodeId) : Response := mkResponse id [] [] None.

Definition answer (now : Instant) (t : bytes) (query : Query) (from : SocketAddr) : M KrpcMessage :=
  tb ← get table;
  let our_id := rt_id tb in
  match query with
  | QPing _ => mret (krpc_response t (empty_response our_id))
  | QFindNode _ target => mret (krpc_response t (mkResponse our_id (closest tb target K) [] None))
  | QGetPeers _ info_hash =>
      tk ← get tokens;
      st ← get store;
      let token := issue sha1 tk (addr_ip from) in
      let '(values, st) := store_get st info_hash now in
      _ ← put (set_store st);
      let nodes := if is_nil values then closest tb info_hash K else [] in
      mret (krpc_response t (mkResponse our_id nodes values (Some token)))
  | QAnnouncePeer _ info_hash port token implied_port =>
      tk ← get tokens;
      if negb (validate sha1 tk (addr_ip from) token) then
        mret (krpc_error t ERR_PROTOCOL (str "bad token"))
      else
        let peer_port := if (implied_port : bool) then addr_port from else port in
        let peer := socket_addr (addr_ip from) peer_port in
        _ ← put (fun s => set_store (announce iter_store (store s) info_hash peer now) s);
        mret (krpc_response t (empty_response our_id))
  end.

Definition on_query (now : Instant) (t : bytes) (query : Query) (from : SocketAddr) : M () :=
  tb ← get table;
  tb ← attempt (seen_query tb (query_id query) from now);
  _ ← put (set_table tb);
  _ ← refresh_stats now;
  reply ← answer now t query from;
  send_msg from reply.

Definition on_packet (now : Instant) (buf : bytes) (from : SocketAddr) : M () :=
  d ← attempt (decode from_bytes buf);
  match d with
  | Ok msg =>
      match payload msg with
      | PQuery q => on_query now (transaction_id msg) q from
      | PResponse r => on_response now (transaction_id msg) r from
      | PError _ => on_error (transaction_id msg) from
      end
  | Err UnknownMethod =>
      match peek_transaction_id from_bytes buf with
      | Some t => send_msg from (krpc_error t ERR_METHOD (str "Method Unknown"))
      | None => mret ()
      end
  | Err _ =>
      if peek_is_query from_bytes buf then
        match peek_transaction_id from_bytes buf with
        | Some t => send_msg from (krpc_error t ERR_PROTOCOL (str "Protocol Error"))
        | None => mret ()
        end
      else mret ()
  end.

(** ** Commands *)

Definition sync_watched : M () :=
  put (fun s => set_watched (map fst (iter_torrents (torrents s))) s).

(** [t.active = active], and the lookup of a torrent that is switched off goes. *)
Definition switch (info_hash : NodeId) (active : bool) : M () :=
  ts ← get torrents;
  match (ts : gmap NodeId TorrentDht) !! info_hash with
  | None => mret ()
  | Some t =>
      let t := set_active_flag active t in
      if active then put (fun s => set_torrents (<[info_hash := t]> (torrents s)) s)
      else
        _ ← put (fun s => set_torrents (<[info_hash := set_lookup_id None t]> (torrents s)) s);
        match t_lookup_id t with Some id => remove_lookup id | None => mret () end
  end.

Definition handle_cmd (now : Instant) (cmd : DhtCmd) : M () :=
  match cmd with
  | AddTorrent info_hash port active =>
      ts ← get torrents;
      _ ← match (ts : gmap NodeId TorrentDht) !! info_hash with
          | Some t => match t_lookup_id t with Some id => remove_lookup id | None => mret () end
          | None => mret ()
          end;
      _ ← put (fun s => set_torrents
             (<[info_hash := mkTorrentDht port active (now - REANNOUNCE_INTERVAL) None]> (torrents s)) s);
      _ ← sync_watched;
      when active (_ ← start_get_peers now info_hash; kick_lookups now)
  | RemoveTorrent info_hash =>
      ts ← get torrents;
      _ ← put (fun s => set_torrents (delete info_hash (torrents s)) s);
      _ ← match (ts : gmap NodeId TorrentDht) !! info_hash with
          | Some t => match t_lookup_id t with Some id => remove_lookup id | None => mret () end
          | None => mret ()
          end;
      sync_watched
  | SetActive info_hash active =>
      _ ← switch info_hash active;
      when active (_ ← start_get_peers now info_hash; kick_lookups now)
  | SetAllActive active =>
      ts ← get torrents;
      _ ← for_each (fun hash => _ ← switch hash active; when active (start_get_peers now hash))
            (map fst (iter_torrents ts));
      when active (kick_lookups now)
  | PingNode addr => send_ping now addr None
  | Shutdown => mret ()
  end.

(** ** Ticks *)

Definition expire_one (now : Instant) (key : bytes * SocketAddr) : M () :=
  ps ← get pending;
  match (ps : gmap (bytes * SocketAddr) Pending) !! key with
  | None => mret ()
  | Some p =>
      _ ← put (fun s => set_pending (delete key (pending s)) s);
      let addr := key.2 in
      _ ← put (fun s => set_table (timed_out (table s) addr) s);
      match p_kind p with
      | KPing (Some node) => put (fun s => set_table (fst (replace (table s) addr node now)) s)
      | KPing None | KAnnounce => mret ()
      | KLookup lookup_id =>
          put (fun s => set_lookups (alter (fun l => lookup_on_timeout l addr) lookup_id (lookups s)) s)
      end
  end.

Definition expire_pending (now : Instant) : M () :=
  ps ← get pending;
  let expired := map fst (filter (fun e : bytes * SocketAddr * Pending =>
                   QUERY_TIMEOUT <= since now (p_sent e.2)) (iter_pending ps)) in
  for_each (expire_one now) expired.

(** [fill] gives the random bytes for the target in each stale bucket. *)
Definition refresh_buckets (now : Instant) (fill : Bucket -> NodeId) : M () :=
  t ← get table;
  for_each (fun target =>
      target ← attempt target;
      t ← get table;
      _ ← start_lookup target FindNode (closest t target K);
      mret ())
    (stale_buckets t now fill).

Definition reannounce (now : Instant) : M () :=
  ts ← get torrents;
  let due := map fst (filter (fun e : NodeId * TorrentDht =>
               t_active e.2 = true /\ REANNOUNCE_INTERVAL <= since now (last_announce e.2))
               (iter_torrents ts)) in
  for_each (start_get_peers now) due.

(** [secret] is drawn if the token secrets rotate. *)
Definition tick (now : Instant) (secret : bytes) (fill : Bucket -> NodeId) : M () :=
  _ ← put (fun s => set_tokens (maybe_rotate now secret (tokens s)) s);
  _ ← expire_pending now;
  b ← get bootstrapped;
  t ← get table;
  _ ← when (negb b && negb (rt_is_empty t)) start_find_self;
  _ ← refresh_buckets now fill;
  _ ← reannounce now;
  last ← get last_persist;
  _ ← when (PERSIST_INTERVAL <=? since now last) (_ ← persist; put (set_last_persist now));
  _ ← refresh_stats now;
  kick_lookups now.

(** ** The task *)

(** [addrs] are the resolved bootstrap addresses, if any are configured. *)
Definition bootstrap (now : Instant) (addrs : list SocketAddr) : M () :=
  t ← get table;
  if rt_is_empty t then for_each (fun addr => send_ping now addr None) addrs
  else _ ← start_find_self; kick_lookups now.

Inductive dht_event :=
| DevBootstrap (now : Instant) (addrs : list SocketAddr)
| DevCmd (now : Instant) (cmd : DhtCmd)
| DevPacket (now : Instant) (buf : bytes) (from : SocketAddr)
| DevTick (now : Instant) (secret : bytes) (fill : Bucket -> NodeId).

Definition dht_step (ev : dht_event) : M () :=
  match ev with
  | DevBootstrap now addrs => bootstrap now addrs
  | DevCmd now cmd => handle_cmd now cmd
  | DevPacket now buf from => on_packet now buf from
  | DevTick now secret fill => tick now secret fill
  end.

(** The state [spawn_on] starts from, with a table made or loaded. *)
Definition actor_new (t : RoutingTable) (tk : TokenSecrets) (path : bool) (now : Instant) : DhtActor :=
  mkActor t tk ∅ ∅ ∅ ∅ 0 0 path now false (mkDhtStats (rt_len t) (good_len t now)) [].
End Node.

(** ** Reasoning about handlers

    [wp c Q s]: from [s] the handler [c] returns, with a result, a state and
    outputs that satisfy [Q]. *)

Definition wp {A} (c : M A) (Q : A -> DhtActor -> list Output -> Prop) (s : DhtActor) : Prop :=
  match c s with Some (x, s', o) => Q x s' o | None => False end.

Lemma wp_ret {A} (x : A) Q s : Q x s [] -> wp (mret x) Q s.
Proof. done. Qed.

Lemma wp_bind {A B} (c : M A) (f : A -> M B) Q s :
  wp c (fun x s' o => wp (f x) (fun y s'' o' => Q y s'' (o ++ o')) s') s -> wp (c ≫= f) Q s.
Proof.
  unfold wp, mbind, M_bind. destruct (c s) as [[[x s'] o]|]; [|done]. by destruct (f x s') as [[[y s''] o']|].
Qed.

Lemma wp_get {A} (f : DhtActor -> A) Q s : Q (f s) s [] -> wp (get f) Q s.
Proof. done. Qed.

Lemma wp_put f Q s : Q () (f s) [] -> wp (put f) Q s.
Proof. done. Qed.

Lemma wp_emit o Q s : Q () s [o] -> wp (emit o) Q s.
Proof. done. Qed.

Lemma wp_mono {A} (c : M A) (Q Q' : A -> DhtActor -> list Output -> Prop) s :
  wp c Q s -> (forall x s' o, Q x s' o -> Q' x s' o) -> wp c Q' s.
Proof. unfold wp. destruct (c s) as [[[x s'] o]|]; [|done]. eauto. Qed.

Lemma wp_when b c Q s : (b = true -> wp c Q s) -> (b = false -> Q () s []) -> wp (when b c) Q s.
Proof. destruct b; cbn; auto. Qed.

(** Keeping a property of the state, whatever is emitted. *)
Definition keeps {A} (I : DhtActor -> Prop) (c : M A) : Prop :=
  forall s, I s -> wp c (fun _ s' _ => I s') s.

Lemma keeps_ret {A} I (x : A) : keeps I (mret x).
Proof. intros s Hs. by apply wp_ret. Qed.

Lemma keeps_bind {A B} I (c : M A) (f : A -> M B) : keeps I c -> (forall x, keeps I (f x)) -> keeps I (c ≫= f).
Proof.
  intros Hc Hf s Hs. apply wp_bind. eapply wp_mono; [by apply Hc|]. cbn. intros x s' o Hs'.
  eapply wp_mono; [by apply Hf|done].
Qed.

(** The same step by step from a given state. *)
Abbreviation kp I c s := (wp c (fun _ s' _ => I s') s) (only parsing).

Lemma kp_bind {A B} I (c : M A) (f : A -> M B) s :
  keeps I c -> I s -> (forall x s', I s' -> kp I (f x) s') -> kp I (c ≫= f) s.
Proof.
  intros Hc Hs Hf. apply wp_bind. eapply wp_mono; [by apply Hc|]. cbn. intros x s' o Hs'.
  eapply wp_mono; [by apply Hf|done].
Qed.

Lemma kp_get {A B} I (f : DhtActor -> A) (k : A -> M B) s : kp I (k (f s)) s -> kp I (get f ≫= k) s.
Proof. intros H. apply wp_bind, wp_get. eapply wp_mono; [exact H|done]. Qed.

Lemma kp_put {B} I g (k : () -> M B) s : kp I (k ()) (g s) -> kp I (put g ≫= k) s.
Proof. intros H. apply wp_bind, wp_put. eapply wp_mono; [exact H|done]. Qed.

(** A read: what follows may use that the value is the state's. *)
Lemma keeps_get {A B} I (f : DhtActor -> A) (k : A -> M B) :
  (forall s, I s -> kp I (k (f s)) s) -> keeps I (get f ≫= k).
Proof. intros H s Hs. apply kp_get. by apply H. Qed.

Lemma keeps_put I f : (forall s, I s -> I (f s)) -> keeps I (put f).
Proof. intros H s Hs. apply wp_put. auto. Qed.

Lemma keeps_emit I o : keeps I (emit o).
Proof. intros s Hs. by apply wp_emit. Qed.

Lemma keeps_when I b c : keeps I c -> keeps I (when b c).
Proof. intros H s Hs. apply wp_when; [intros; by apply H|done]. Qed.

Lemma keeps_for_each {A} I (f : A -> M ()) l : (forall x, x ∈ l -> keeps I (f x)) -> keeps I (for_each f l).
Proof.
  induction l as [|x l IH]; intros H; cbn [for_each]; [apply keeps_ret|].
  apply keeps_bind; [apply H; left|]. intros _. apply IH. intros y Hy. apply H. by right.
Qed.

Create HintDb keeps.
#[export] Hint Resolve keeps_ret keeps_bind keeps_put keeps_emit keeps_when keeps_for_each : keeps.

(** ** The invariant of the node *)

Record actor_inv (s : DhtActor) : Prop := {
  ai_table : table_inv (table s);
  ai_store : store_inv (store s);
  ai_lookups : forall id l, lookups s !! id = Some l -> lookup_inv l;
  ai_pending : forall k p, pending s !! k = Some p -> forall node, p_kind p <> KPing (Some node);
  ai_tids : forall k p, pending s !! k = Some p -> length k.1 = TRANSACTION_ID_LEN;
  ai_next_tid : is_u16 (next_tid s);
  ai_next_lookup : is_u64 (next_lookup s) }.

(** Changes of one field. *)
Lemma inv_set_table s t : actor_inv s -> table_inv t -> actor_inv (set_table t s).
Proof. by intros [] ?. Qed.
Lemma inv_set_store s m : actor_inv s -> store_inv m -> actor_inv (set_store m s).
Proof. by intros [] ?. Qed.
Lemma inv_set_torrents s m : actor_inv s -> actor_inv (set_torrents m s).
Proof. by intros []. Qed.
Lemma inv_insert_lookup s id l : actor_inv s -> lookup_inv l -> actor_inv (set_lookups (<[id := l]> (lookups s)) s).
Proof.
  intros [] Hl. split; try done. cbn [lookups set_lookups].
  intros i l' [[<- <-]|[_ ?]]%lookup_insert_Some; eauto.
Qed.
Lemma inv_delete_lookup s id : actor_inv s -> actor_inv (set_lookups (delete id (lookups s)) s).
Proof.
  intros []. split; try done. cbn [lookups set_lookups]. intros i l [_ ?]%lookup_delete_Some; eauto.
Qed.
Lemma inv_delete_pending s k : actor_inv s -> actor_inv (set_pending (delete k (pending s)) s).
Proof.
  intros []. split; try done; cbn [pending set_pending]; intros i p [_ ?]%lookup_delete_Some; eauto.
Qed.

Lemma inv_on_timeout s id a :
  actor_inv s -> actor_inv (set_lookups (alter (fun l => lookup_on_timeout l a) id (lookups s)) s).
Proof.
  intros Hi. pose proof (ai_lookups _ Hi) as Hl. destruct Hi. split; try done. cbn [lookups set_lookups].
  intros i l. destruct (decide (id = i)) as [->|].
  - rewrite lookup_alter_eq. destruct (lookups s !! i) as [l0|] eqn:E; [|done]. intros [= <-].
    apply on_timeout_inv. eauto.
  - rewrite lookup_alter_ne by done. eauto.
Qed.

Lemma inv_expire_store s now : actor_inv s -> actor_inv (set_store (expire now (store s)) s).
Proof. intros Hi. apply inv_set_store; [done|]. apply expire_inv, Hi. Qed.

Lemma keeps_query now addr q kind :
  (forall node, kind <> KPing (Some node)) -> keeps actor_inv (send_query now addr q kind).
Proof.
  intros Hk. apply keeps_get. intros s Hi. unfold wp. cbn. destruct Hi. split; try done; cbn [pending set_pending].
  - intros k p [[<- <-]|[_ ?]]%lookup_insert_Some; eauto.
  - intros k p [[<- <-]|[_ ?]]%lookup_insert_Some; [|eauto]. cbn [fst]. rewrite length_take, length_be_bytes. done.
  - apply wrap16_range.
Qed.

Lemma keeps_ping now addr : keeps actor_inv (send_ping now addr None).
Proof. apply keeps_get. intros s Hi. by apply keeps_query. Qed.

Lemma keeps_stats now : keeps actor_inv (refresh_stats now).
Proof. apply keeps_put. by intros s []. Qed.

Lemma keeps_persist : keeps actor_inv persist.
Proof.
  apply keeps_get. intros s Hi. destruct (has_state_path s); [|by apply keeps_ret].
  revert s Hi. apply keeps_get. intros s Hi. by apply keeps_emit.
Qed.

Lemma keeps_start_lookup target kind seeds : keeps actor_inv (start_lookup target kind seeds).
Proof.
  apply keeps_get. intros s Hi. unfold wp. cbn.
  apply (inv_insert_lookup (set_next_lookup (wrap64 (next_lookup s + 1)) s)); [|apply lookup_new_inv].
  destruct Hi. split; try done. apply wrap64_range.
Qed.

Lemma keeps_find_self : keeps actor_inv start_find_self.
Proof.
  apply keeps_get. intros s Hi. destruct (bootstrapped s); [by apply keeps_ret|].
  apply kp_put, kp_get, kp_bind; [apply keeps_start_lookup|by destruct Hi|]. intros. by apply keeps_ret.
Qed.

Lemma keeps_remove_lookup id : keeps actor_inv (remove_lookup id).
Proof. apply keeps_put. intros s. apply inv_delete_lookup. Qed.

(** The lookup of a torrent goes. *)
Lemma keeps_drop_lookup (t : option TorrentDht) :
  keeps actor_inv (match t with
                   | Some t => match t_lookup_id t with Some id => remove_lookup id | None => mret () end
                   | None => mret () end).
Proof. destruct t as [t|]; [destruct (t_lookup_id t); [apply keeps_remove_lookup|]|]; apply keeps_ret. Qed.

Lemma keeps_get_peers now h : keeps actor_inv (start_get_peers now h).
Proof.
  apply keeps_get. intros s Hi. apply kp_bind; [apply keeps_drop_lookup|done|]. clear s Hi. intros _ s Hi.
  apply kp_get. cbn [store_get]. apply kp_put. apply (inv_expire_store s now) in Hi.
  apply kp_bind; [eauto with keeps|done|]. clear s Hi. intros _ s Hi.
  apply kp_get, kp_bind; [apply keeps_start_lookup|done|]. clear s Hi. intros id s Hi.
  apply wp_put. by apply inv_set_torrents.
Qed.

Section Handlers.
Context (sha1 : bytes -> bytes) (from_bytes : bytes -> option Value) `{!BencodeLib from_bytes}.
Context (iter_contacts : gmap SocketAddr Contact -> list (SocketAddr * Contact)) `{!HashOrder iter_contacts}.
Context (iter_store : gmap NodeId (list PeerEntry) -> list (NodeId * list PeerEntry)) `{!HashOrder iter_store}.
Context (iter_pending : gmap (bytes * SocketAddr) Pending -> list (bytes * SocketAddr * Pending)).
Context (iter_lookups : gmap Z Lookup -> list (Z * Lookup)).
Context (iter_torrents : gmap NodeId TorrentDht -> list (NodeId * TorrentDht)).

Lemma keeps_finish now id : keeps actor_inv (finish_lookup iter_contacts now id).
Proof.
  apply keeps_get. intros s Hi. destruct (lookups s !! id) as [l|] eqn:E; [|by apply keeps_ret].
  apply kp_bind; [apply keeps_remove_lookup|done|]. clear s Hi E. intros _ s Hi.
  case_match; [by apply keeps_ret|]. apply kp_bind; [eauto with keeps|done|]. clear s Hi. intros _ s Hi.
  apply kp_get. destruct (torrents s !! _) as [t|]; [|by apply keeps_ret].
  case_match; [by apply keeps_ret|]. apply kp_get, kp_bind; [|done|].
  - apply keeps_for_each. intros [n tok] _. by apply keeps_query.
  - intros _ s' Hi'. apply wp_put. by apply inv_set_torrents.
Qed.

(** Sending leaves the lookups alone. *)
Lemma keeps_query_lookup id l now addr q lid :
  keeps (fun s => actor_inv s /\ lookups s !! id = Some l) (send_query now addr q (KLookup lid)).
Proof. intros s [Hi E]. split; [by apply keeps_query|done]. Qed.

Lemma keeps_drive now id : keeps actor_inv (drive_lookup iter_contacts now id).
Proof.
  unfold drive_lookup, drive_fuel. cbn [drive_loop]. apply keeps_get. intros s Hi.
  destruct (lookups s !! id) as [l|] eqn:E; [|by apply keeps_ret].
  destruct (is_done iter_contacts l); [by apply keeps_finish|].
  pose proof (ai_lookups _ Hi _ _ E) as Hl. pose proof (next_queries_inv iter_contacts l Hl) as Hl'.
  pose proof (next_queries_exhaust iter_contacts l Hl) as Hx.
  destruct (next_queries iter_contacts l) as [queries l'] eqn:En. cbn [snd] in *.
  apply kp_put. destruct (is_nil queries).
  { apply keeps_when; [apply keeps_finish|by apply inv_insert_lookup]. }
  apply kp_get, wp_bind.
  eapply wp_mono; [apply (keeps_for_each (fun s => actor_inv s /\ lookups s !! id = Some l'))|].
  - intros n _. apply keeps_query_lookup.
  - split; [by apply inv_insert_lookup|apply lookup_insert_eq].
  - cbn beta. clear s Hi E. intros _ s _ [Hi E]. apply (wp_mono _ (fun _ s' _ => actor_inv s')); [|done].
    apply kp_get. rewrite E. destruct (is_done iter_contacts l'); [by apply keeps_finish|].
    pose proof (next_queries_inv iter_contacts l' Hl') as Hl''.
    unfold chosen_queries in Hx. destruct (next_queries iter_contacts l') as [q2 l'']. cbn [fst snd] in *.
    subst q2. apply kp_put. apply keeps_when; [apply keeps_finish|by apply inv_insert_lookup].
Qed.

Lemma keeps_kick now : keeps actor_inv (kick_lookups iter_contacts iter_lookups now).
Proof. apply keeps_get. intros s Hi. apply keeps_for_each; [|done]. intros id _. apply keeps_drive. Qed.

Lemma keeps_lookup_response now id from r :
  keeps actor_inv (on_lookup_response iter_contacts iter_torrents now id from r).
Proof.
  apply keeps_get. intros s Hi. destruct (lookups s !! id) as [l|] eqn:E; [|by apply keeps_ret].
  pose proof (on_response_inv l from (r_id r) r (ai_lookups _ Hi _ _ E)) as Hl.
  destruct (lookup_on_response l from (r_id r) r) as [l' vals]. cbn [fst] in Hl.
  apply kp_put, kp_get, kp_bind; [|by apply inv_insert_lookup|intros _ s' Hi'; by apply keeps_drive].
  case_match; eauto with keeps.
Qed.

(** The operations of the table do not panic. *)
Lemma kp_attempt_table {B} (k : RoutingTable -> M B) op s :
  actor_inv s -> wf_op op -> op_fits (table s) op -> (forall t s', table_inv t -> actor_inv s' -> kp actor_inv (k t) s') ->
  kp actor_inv (attempt (rt_step (table s) op) ≫= k) s.
Proof.
  intros Hi Hop Hf Hk. destruct (rt_step_inv (table s) op (ai_table _ Hi) Hop Hf) as (t & E & Ht).
  apply wp_bind. unfold attempt, wp at 1. rewrite E. cbn. eapply wp_mono; [by apply Hk|done].
Qed.

Lemma keeps_insert_node now node :
  wf_id (cn_id node) ->
  keeps actor_inv (tb ← get table; r ← attempt (Routing.insert tb node now); put (set_table (fst r))).
Proof.
  intros Hw. apply keeps_get. intros s Hi.
  destruct (rt_step_inv (table s) (OpInsert node now) (ai_table _ Hi) Hw I) as (t & E & Ht). cbn in E.
  destruct (Routing.insert (table s) node now) as [[t' r]|] eqn:E'; [|done]. injection E as ->.
  unfold wp. cbn. by apply inv_set_table.
Qed.

Lemma keeps_response now t r from :
  wf_id (r_id r) -> Forall (fun n => wf_id (cn_id n)) (r_nodes r) ->
  keeps actor_inv (on_response iter_contacts iter_lookups iter_torrents now t r from).
Proof.
  intros Hid Hn. apply keeps_get. intros s Hi. destruct (pending s !! (t, from)) as [p|] eqn:E; [|by apply keeps_ret].
  apply kp_put, kp_get. apply (kp_attempt_table _ (OpSeenResponse (r_id r) from now)); [by apply inv_delete_pending|done|done|].
  clear s Hi E. intros tb s Ht Hi. apply kp_put. apply kp_bind; [|by apply inv_set_table|].
  { apply keeps_for_each. intros n Hin. apply keeps_insert_node. rewrite Forall_forall in Hn. by apply Hn. }
  clear s Hi. intros _ s Hi. apply kp_bind; [apply keeps_stats|done|]. clear s Hi. intros _ s Hi.
  destruct (p_kind p) as [repl|id|]; [|by apply keeps_lookup_response|by apply keeps_ret].
  apply kp_get, kp_get. apply keeps_when; [|done].
  apply keeps_bind; [apply keeps_find_self|]. intros _. apply keeps_kick.
Qed.

Lemma keeps_error t from : keeps actor_inv (on_error t from).
Proof.
  apply keeps_get. intros s Hi. destruct (pending s !! (t, from)) as [p|] eqn:E; [|by apply keeps_ret].
  apply kp_put. apply (inv_delete_pending s (t, from)) in Hi. destruct (p_kind p) as [repl|id|]; try by apply keeps_ret.
  apply wp_put. by apply inv_on_timeout.
Qed.

Lemma announce_inv m h addr now : store_inv m -> store_inv (announce iter_store m h addr now).
Proof.
  intros Hm. destruct (decide (addr_port addr = 0)) as [E|Hne]; [unfold announce; by rewrite E|].
  by apply announce_spec.
Qed.

Lemma keeps_answer now t q from : keeps actor_inv (answer sha1 iter_store now t q from).
Proof.
  apply keeps_get. intros s Hi. destruct q as [id|id target|id h|id h port tok imp]; try by apply keeps_ret.
  - apply kp_get, kp_get. cbn [store_get]. apply kp_put, keeps_ret. by apply inv_expire_store.
  - apply kp_get. case_match; [by apply keeps_ret|]. apply kp_put, keeps_ret.
    apply inv_set_store; [done|]. apply announce_inv, Hi.
Qed.

Lemma keeps_on_query now t q from :
  wf_id (query_id q) -> keeps actor_inv (on_query sha1 iter_store now t q from).
Proof.
  intros Hq. apply keeps_get. intros s Hi.
  apply (kp_attempt_table _ (OpSeenQuery (query_id q) from now)); [done|done|done|].
  clear s Hi. intros tb s Ht Hi. apply kp_put, kp_bind; [apply keeps_stats|by apply inv_set_table|].
  intros _ s1 Hi1. apply kp_bind; [apply keeps_answer|done|]. intros reply s2 Hi2. by apply keeps_emit.
Qed.

Lemma keeps_packet now buf from :
  wf_bytes buf -> Z.of_nat (length buf) <= U64_MAX ->
  keeps actor_inv (on_packet sha1 from_bytes iter_contacts iter_store iter_lookups iter_torrents now buf from).
Proof.
  intros Hb Hl s Hi. destruct (decode_total from_bytes buf Hl) as [d Ed]. unfold on_packet. apply wp_bind.
  unfold attempt, wp at 1. rewrite Ed. cbn. apply (wp_mono _ (fun _ s' _ => actor_inv s')); [|done].
  destruct d as [msg|e].
  - pose proof (decode_ids_wf from_bytes buf msg Hb Ed) as Hids. destruct (payload msg) as [q|r|e].
    + by apply keeps_on_query.
    + destruct Hids. by apply keeps_response.
    + by apply keeps_error.
  - assert (Hs : forall t c m, keeps actor_inv (send_msg from (krpc_error t c m))) by (intros; apply keeps_emit).
    destruct e; repeat case_match; try (by apply Hs); by apply keeps_ret.
Qed.

Lemma keeps_watched : keeps actor_inv (sync_watched iter_torrents).
Proof. apply keeps_put. by intros s []. Qed.

Lemma keeps_switch h active : keeps actor_inv (switch h active).
Proof.
  apply keeps_get. intros s Hi. destruct (torrents s !! h) as [t|]; [|by apply keeps_ret].
  destruct active; [apply wp_put; by apply inv_set_torrents|].
  apply kp_put. apply (keeps_drop_lookup (Some (set_active_flag false t))). by apply inv_set_torrents.
Qed.

Lemma keeps_start_kick now h :
  keeps actor_inv (_ ← start_get_peers now h; kick_lookups iter_contacts iter_lookups now).
Proof. apply keeps_bind; [apply keeps_get_peers|]. intros _. apply keeps_kick. Qed.

Lemma keeps_cmd now cmd : keeps actor_inv (handle_cmd iter_contacts iter_lookups iter_torrents now cmd).
Proof.
  destruct cmd as [h port active|h|h active|active|addr|]; cbn [handle_cmd].
  - apply keeps_get. intros s Hi. apply kp_bind; [apply keeps_drop_lookup|done|]. clear s Hi. intros _ s Hi.
    apply kp_put, kp_bind; [apply keeps_watched|by apply inv_set_torrents|]. intros _ s' Hi'.
    apply keeps_when; [apply keeps_start_kick|done].
  - apply keeps_get. intros s Hi. apply kp_put, kp_bind; [apply keeps_drop_lookup|by apply inv_set_torrents|].
    intros _ s' Hi'. by apply keeps_watched.
  - apply keeps_bind; [apply keeps_switch|]. intros _. apply keeps_when, keeps_start_kick.
  - apply keeps_get. intros s Hi. apply kp_bind; [|done|intros _ s' Hi'; apply keeps_when; [apply keeps_kick|done]].
    apply keeps_for_each. intros h _. apply keeps_bind; [apply keeps_switch|]. intros _.
    apply keeps_when, keeps_get_peers.
  - apply keeps_ping.
  - apply keeps_ret.
Qed.

Lemma keeps_expire_one now key : keeps actor_inv (expire_one now key).
Proof.
  apply keeps_get. intros s Hi. destruct (pending s !! key) as [p|] eqn:E; [|by apply keeps_ret].
  pose proof (ai_pending _ Hi _ _ E) as Hk. apply kp_put, kp_put.
  destruct (rt_step_inv (table s) (OpTimedOut key.2) (ai_table _ Hi) I I) as (t & [= <-] & Ht).
  apply (inv_delete_pending s key) in Hi. eapply inv_set_table in Ht; [|exact Hi].
  destruct (p_kind p) as [[node|]|id|]; [by destruct (Hk node)|by apply keeps_ret| |by apply keeps_ret].
  apply wp_put. by apply inv_on_timeout.
Qed.

Lemma keeps_expire_pending now : keeps actor_inv (expire_pending iter_pending now).
Proof. apply keeps_get. intros s Hi. apply keeps_for_each; [|done]. intros k _. apply keeps_expire_one. Qed.

Lemma keeps_reannounce now : keeps actor_inv (reannounce iter_torrents now).
Proof. apply keeps_get. intros s Hi. apply keeps_for_each; [|done]. intros h _. apply keeps_get_peers. Qed.

Lemma keeps_refresh_buckets now fill :
  (forall b, wf_id (fill b)) -> keeps actor_inv (refresh_buckets now fill).
Proof.
  intros Hf. apply keeps_get. intros s Hi. apply keeps_for_each; [|done].
  intros target (b & -> & Hb)%list_elem_of_fmap. apply list_elem_of_filter in Hb as [_ Hb].
  pose proof (ti_buckets _ (ai_table _ Hi)) as Hw. rewrite Forall_forall in Hw.
  destruct (random_id_covered _ b (fill b) (Hw b Hb) (Hf b)) as (id & E & _ & _). rewrite E.
  clear s Hi Hb Hw. intros s Hi. apply wp_bind. unfold attempt, wp at 1. cbn beta iota.
  apply (wp_mono _ (fun _ s' _ => actor_inv s')); [|done].
  apply kp_get, kp_bind; [apply keeps_start_lookup|done|]. intros _ s' Hi'. by apply keeps_ret.
Qed.

Lemma keeps_tick now secret fill :
  (forall b, wf_id (fill b)) ->
  keeps actor_inv (tick iter_contacts iter_pending iter_lookups iter_torrents now secret fill).
Proof.
  intros Hf. apply keeps_bind; [apply keeps_put; by intros s []|]. intros _.
  apply keeps_bind; [apply keeps_expire_pending|]. intros _. apply keeps_get. intros s Hi.
  apply kp_get, kp_bind; [apply keeps_when, keeps_find_self|done|]. clear s Hi. intros _ s Hi.
  apply kp_bind; [by apply keeps_refresh_buckets|done|]. clear s Hi. intros _ s Hi.
  apply kp_bind; [apply keeps_reannounce|done|]. clear s Hi. intros _ s Hi. apply kp_get, kp_bind; [|done|].
  - apply keeps_when, keeps_bind; [apply keeps_persist|]. intros _. apply keeps_put. by intros s' [].
  - clear s Hi. intros _ s Hi. apply kp_bind; [apply keeps_stats|done|]. clear s Hi. intros _ s Hi. by apply keeps_kick.
Qed.

Lemma keeps_bootstrap now addrs : keeps actor_inv (bootstrap iter_contacts iter_lookups now addrs).
Proof.
  apply keeps_get. intros s Hi. case_match.
  - apply keeps_for_each; [|done]. intros a _. apply keeps_ping.
  - apply kp_bind; [apply keeps_find_self|done|]. intros _ s' Hi'. by apply keeps_kick.
Qed.

(** Packets are byte arrays and random ids are ids. *)
Definition wf_event (ev : dht_event) : Prop :=
  match ev with
  | DevPacket _ buf _ => wf_bytes buf /\ Z.of_nat (length buf) <= U64_MAX
  | DevTick _ _ fill => forall b, wf_id (fill b)
  | _ => True
  end.

Lemma keeps_step ev :
  wf_event ev ->
  keeps actor_inv (dht_step sha1 from_bytes iter_contacts iter_store iter_pending iter_lookups iter_torrents ev).
Proof.
  destruct ev as [now addrs|now cmd|now buf from|now secret fill]; cbn [wf_event dht_step]; intros H.
  - apply keeps_bootstrap.
  - apply keeps_cmd.
  - destruct H. by apply keeps_packet.
  - by apply keeps_tick.
Qed.
End Handlers.

Lemma actor_new_inv t tk path now : table_inv t -> actor_inv (actor_new t tk path now).
Proof.
  intros Ht. split; cbn; try done; try (unfold is_u16, is_u64, U16_MAX, U64_MAX; lia).
  split; [by rewrite map_size_empty; unfold MAX_ANNOUNCE_HASHES; lia|done].
Qed.

(** ** The environment of a node: what its task calls and cannot see into *)

Record DhtEnv := mkDhtEnv {
  env_sha1 : bytes -> bytes;
  env_from_bytes : bytes -> option Value;
  env_contacts : gmap SocketAddr Contact -> list (SocketAddr * Contact);
  env_store : gmap NodeId (list PeerEntry) -> list (NodeId * list PeerEntry);
  env_pending : gmap (bytes * SocketAddr) Pending -> list (bytes * SocketAddr * Pending);
  env_lookups : gmap Z Lookup -> list (Z * Lookup);
  env_torrents : gmap NodeId TorrentDht -> list (NodeId * TorrentDht) }.

Class EnvOk (env : DhtEnv) : Prop := {
  env_ok_bencode :: BencodeLib (env_from_bytes env);
  env_ok_contacts :: HashOrder (env_contacts env);
  env_ok_store :: HashOrder (env_store env);
  env_ok_pending :: HashOrder (env_pending env);
  env_ok_lookups :: HashOrder (env_lookups env);
  env_ok_torrents :: HashOrder (env_torrents env) }.

Definition node_step (env : DhtEnv) : dht_event -> M () :=
  dht_step (env_sha1 env) (env_from_bytes env) (env_contacts env) (env_store env) (env_pending env)
    (env_lookups env) (env_torrents env).

(** The task on a sequence of events. *)
Definition node_run (env : DhtEnv) (evs : list dht_event) : M () := for_each (node_step env) evs.

Definition sample_env : DhtEnv :=
  mkDhtEnv (take 20) parse_bencode map_to_list map_to_list map_to_list map_to_list map_to_list.

#[export] Instance sample_env_ok : EnvOk sample_env.
Proof. split; apply _. Qed.

Lemma node_run_inv env `{!EnvOk env} evs : Forall wf_event evs -> keeps actor_inv (node_run env evs).
Proof.
  intros H. apply keeps_for_each. intros ev Hev. rewrite Forall_forall in H.
  exact (keeps_step (env_sha1 env) (env_from_bytes env) (env_contacts env) (env_store env)
    (env_pending env) (env_lookups env) (env_torrents env) ev (H ev Hev)).
Qed.

(** C31: the DHT node as a whole is safe: whatever commands, ticks and datagrams it
    handles, in any order and from any sender, no handler panics or fails to
    return; the routing table keeps its invariant (hence at most 161 buckets and
    1288 nodes), the announce store at most 1024 hashes of 1 to 50 peers each, and
    every lookup at most three queries under way; and no ping ever carries a node
    to put in place of the one that does not answer. *)
Theorem dht_node_safe env `{!EnvOk env} t tk path now evs :
  table_inv t -> Forall wf_event evs ->
  exists s out, node_run env evs (actor_new t tk path now) = Some ((), s, out) /\
    table_inv (table s) /\ (rt_len (table s) <= 8 * 161)%nat /\
    (size (store s) <= 1024)%nat /\
    (forall h l, store s !! h = Some l -> (1 <= length l <= 50)%nat /\ NoDup (map pe_addr l)) /\
    (forall id l, lookups s !! id = Some l ->
       (length (in_state Lookup.Pending (contact_values (env_contacts env) l)) <= 3)%nat) /\
    (forall k p node, pending s !! k = Some p -> p_kind p <> KPing (Some node)).
Proof.
  intros Ht Hev. pose proof (node_run_inv env evs Hev _ (actor_new_inv t tk path now Ht)) as H. unfold wp in H.
  destruct (node_run env evs _) as [[[[] s] out]|]; [|done]. exists s, out. split; [done|]. destruct H.
  pose proof (buckets_bound _ ai_table0). pose proof (nodes_bound _ ai_table0) as Hn. unfold K in Hn.
  split_and!; [done|lia|apply ai_store0| | |by eauto].
  - intros h l E. destruct (si_lists _ ai_store0 h l E) as (Hne & Hl & Hnd). unfold MAX_PEERS_PER_HASH in Hl.
    split; [|done]. destruct l; [done|]. cbn in *. lia.
  - intros id l E. rewrite count_state by apply _. apply (li_pending _ (ai_lookups0 id l E)).
Qed.

Lemma dht_node_safe_witness :
  exists s out, node_run sample_env
      [DevCmd 0 (AddTorrent (replicate 20 7) 6881 true); DevTick 0 [] (fun _ => replicate 20 9);
       DevPacket 5 (str "d1:ad2:id20:abcdefghij0123456789e1:q4:ping1:t2:aa1:y1:qe") (V4 1 2)]
      (actor_new (routing_new (replicate 20 1) 0) (mkTokenSecrets [] [] 0) false 0) = Some ((), s, out) /\
    table_inv (table s) /\ (rt_len (table s) <= 8 * 161)%nat /\
    (size (store s) <= 1024)%nat /\
    (forall h l, store s !! h = Some l -> (1 <= length l <= 50)%nat /\ NoDup (map pe_addr l)) /\
    (forall id l, lookups s !! id = Some l ->
       (length (in_state Lookup.Pending (contact_values (env_contacts sample_env) l)) <= 3)%nat) /\
    (forall k p node, pending s !! k = Some p -> p_kind p <> KPing (Some node)).
Proof.
  assert (Hid : forall b, is_u8 b -> wf_id (replicate 20 b)).
  { intros b Hb. split; [done|]. by apply Forall_replicate. }
  apply (dht_node_safe sample_env).
  - apply routing_new_inv, Hid. unfold is_u8, U8_MAX. lia.
  - constructor; [done|]. constructor; [intros _; apply Hid; unfold is_u8, U8_MAX; lia|].
    constructor; [|constructor]. split; [|vm_compute; discriminate].
    repeat (constructor; [vm_compute; split; discriminate|]). constructor.
Defined.

(** ** What a handler does not touch *)

Definition leaves {A B} (f : DhtActor -> B) (c : M A) : Prop :=
  forall s x s' o, c s = Some (x, s', o) -> f s' = f s.

Lemma leaves_ret {A B} (f : DhtActor -> B) (x : A) : leaves f (mret x).
Proof. by intros s y s' o [= _ <- _]. Qed.

Lemma bind_Some {A B} (c : M A) (k : A -> M B) s y s' o :
  (c ≫= k) s = Some (y, s', o) ->
  exists x s1 o1 o2, c s = Some (x, s1, o1) /\ k x s1 = Some (y, s', o2) /\ o = o1 ++ o2.
Proof.
  unfold mbind, M_bind. destruct (c s) as [[[x s1] o1]|]; [|done].
  destruct (k x s1) as [[[y' s2] o2]|] eqn:E; [|done]. intros [= <- <- <-]. eauto 8.
Qed.

Lemma leaves_bind {A B C} (f : DhtActor -> C) (c : M A) (k : A -> M B) :
  leaves f c -> (forall x, leaves f (k x)) -> leaves f (c ≫= k).
Proof.
  intros Hc Hk s y s' o (x & s1 & o1 & o2 & E1 & E2 & _)%bind_Some.
  by rewrite (Hk _ _ _ _ _ E2), (Hc _ _ _ _ E1).
Qed.

Lemma leaves_get {A B} (f : DhtActor -> B) (g : DhtActor -> A) : leaves f (get g).
Proof. by intros s x s' o [= _ <- _]. Qed.
Lemma leaves_put {B} (f : DhtActor -> B) g : (forall s, f (g s) = f s) -> leaves f (put g).
Proof. intros H s x s' o [= _ <- _]. apply H. Qed.
Lemma leaves_emit {B} (f : DhtActor -> B) o : leaves f (emit o).
Proof. by intros s x s' o' [= _ <- _]. Qed.
Lemma leaves_attempt {A B} (f : DhtActor -> B) (o : option A) : leaves f (attempt o).
Proof. intros s x s' o'. unfold attempt. destruct o; [|done]. by intros [= _ <- _]. Qed.
Lemma leaves_when {B} (f : DhtActor -> B) b c : leaves f c -> leaves f (when b c).
Proof. destruct b; [done|]. intros _. apply leaves_ret. Qed.
Lemma leaves_for_each {A B} (f : DhtActor -> B) (g : A -> M ()) l :
  (forall x, leaves f (g x)) -> leaves f (for_each g l).
Proof. intros H. induction l; cbn [for_each]; [apply leaves_ret|]. by apply leaves_bind. Qed.

(** Handlers are put together from steps that leave the field alone. *)
Ltac leaves :=
  repeat first
    [ apply leaves_ret | apply leaves_get | apply leaves_emit | apply leaves_attempt
    | apply leaves_put; intros ?; reflexivity
    | lazymatch goal with
      | |- leaves _ (drive_lookup _ _ _) => fail
      | |- leaves _ (kick_lookups _ _ _) => fail
      | |- _ => apply leaves_bind; [|intros ?]
      end | apply leaves_when | apply leaves_for_each; intros ?
    | match goal with |- leaves _ (match ?x with _ => _ end) => destruct x end
    | progress cbv zeta ].

(** Driving lookups touches the transactions, the lookups and the torrents. *)
Lemma drive_leaves {B} (f : DhtActor -> B) iter now id :
  (forall v s, f (set_next_tid v s) = f s) -> (forall v s, f (set_pending v s) = f s) ->
  (forall v s, f (set_lookups v s) = f s) -> (forall v s, f (set_torrents v s) = f s) ->
  leaves f (drive_lookup iter now id).
Proof.
  intros H1 H2 H3 H4. unfold drive_lookup. generalize drive_fuel. intros fuel. revert id.
  induction fuel as [|fuel IH]; intros id; cbn [drive_loop]; leaves; try apply IH;
    apply leaves_put; auto.
Qed.

Lemma drive_store iter now id : leaves store (drive_lookup iter now id).
Proof. by apply drive_leaves. Qed.

Lemma drive_tokens iter now id : leaves tokens (drive_lookup iter now id).
Proof. by apply drive_leaves. Qed.

Lemma kick_store iter iterl now : leaves store (kick_lookups iter iterl now).
Proof. unfold kick_lookups. leaves. apply drive_store. Qed.

Lemma kick_tokens iter iterl now : leaves tokens (kick_lookups iter iterl now).
Proof. unfold kick_lookups. leaves. apply drive_tokens. Qed.

Lemma on_response_store iter iterl itert now t r from : leaves store (on_response iter iterl itert now t r from).
Proof. unfold on_response. leaves; first [apply kick_store|apply drive_store]. Qed.

Lemma on_error_store t from : leaves store (on_error t from).
Proof. unfold on_error. leaves. Qed.

(** The store after a query. *)
Definition store_after (env : DhtEnv) (s : DhtActor) (now : Instant) (q : Query) (from : SocketAddr) : gmap NodeId (list PeerEntry) :=
  match q with
  | QGetPeers _ _ => expire now (store s)
  | QAnnouncePeer _ h port token implied =>
      if validate (env_sha1 env) (tokens s) (addr_ip from) token
      then announce (env_store env) (store s) h (socket_addr (addr_ip from) (if implied then addr_port from else port)) now
      else store s
  | QPing _ | QFindNode _ _ => store s
  end.

Lemma answer_store env now t q from s reply s' o :
  answer (env_sha1 env) (env_store env) now t q from s = Some (reply, s', o) -> store s' = store_after env s now q from.
Proof.
  intros Ha. destruct q as [id|id target|id h0|id h0 port tok imp]; cbn in Ha; [by injection Ha as _ <- _..|].
  unfold answer, mbind, M_bind, get, put, mret, M_ret in Ha. cbn [store_after].
  destruct (validate (env_sha1 env) (tokens s) (addr_ip from) tok); cbn [negb] in Ha; by injection Ha as _ <- _.
Qed.

(** The store after a datagram. *)
Lemma packet_store env s now buf from s' out :
  node_step env (DevPacket now buf from) s = Some ((), s', out) ->
  store s' = match decode (env_from_bytes env) buf with
             | Some (Ok msg) => match payload msg with PQuery q => store_after env s now q from | _ => store s end
             | _ => store s
             end.
Proof.
  intros Hstep. cbn [node_step dht_step] in Hstep. unfold on_packet in Hstep.
  apply bind_Some in Hstep as (d & s1 & o1 & o2 & E1 & E2 & _). unfold attempt in E1.
  destruct (decode (env_from_bytes env) buf) as [d'|] eqn:Ed; [|done]. injection E1 as -> <- _.
  destruct d as [msg|err].
  - destruct (payload msg) as [q|r|err] eqn:Ep.
    + unfold on_query in E2. apply bind_Some in E2 as (tb & s2 & ? & o3 & [= <- <- <-] & E2 & _).
      apply bind_Some in E2 as (tb' & s3 & ? & o4 & E3 & E2 & _). unfold attempt in E3.
      destruct (seen_query _ _ _ _); [|done]. injection E3 as -> <- _.
      apply bind_Some in E2 as ([] & s4 & ? & o5 & [= <- <-] & E2 & _).
      apply bind_Some in E2 as ([] & s5 & ? & o6 & [= <- <-] & E2 & _).
      apply bind_Some in E2 as (reply & s6 & ? & o7 & E4 & [= <- <-] & _).
      apply answer_store in E4. rewrite E4. by destruct q.
    + by apply on_response_store in E2.
    + by apply on_error_store in E2.
  - assert (s' = s) as -> by (repeat case_match; by injection E2). done.
Qed.

(** The datagram announces [addr] under [h]: an [announce_peer] query with a token
    that is valid for the IP address of the sender, which is that of [addr]; the
    port is the announced one or, when implied, the sender's. *)
Definition announces (env : DhtEnv) (s : DhtActor) (buf : bytes) (from : SocketAddr) (h : NodeId) (addr : SocketAddr) : Prop :=
  exists msg id port token implied,
    decode (env_from_bytes env) buf = Some (Ok msg) /\
    payload msg = PQuery (QAnnouncePeer id h port token implied) /\
    validate (env_sha1 env) (tokens s) (addr_ip from) token = true /\
    addr = socket_addr (addr_ip from) (if implied then addr_port from else port).

(** A datagram announces a peer, or it takes out at most what is too old. *)
Lemma packet_store_cases env s now buf from s' out :
  node_step env (DevPacket now buf from) s = Some ((), s', out) ->
  (exists h addr, announces env s buf from h addr /\ store s' = announce (env_store env) (store s) h addr now) \/
  ((forall h addr, ~ announces env s buf from h addr) /\ (store s' = store s \/ store s' = expire now (store s))).
Proof.
  intros E%packet_store. rewrite E. unfold announces.
  destruct (decode (env_from_bytes env) buf) as [[msg|]|]; [|right; split; [by intros ? ? (? & ? & ? & ? & ? & ? & _)|by left]..].
  destruct (payload msg) as [q| |] eqn:Ep; [|right; split; [intros ? ? (? & ? & ? & ? & ? & [= ->] & ? & _); congruence|by left]..].
  destruct q as [id|id target|id h0|id h0 port tok imp]; cbn [store_after];
    [right; (split; [intros ? ? (? & ? & ? & ? & ? & [= ->] & ? & _); congruence|by auto])..|].
  destruct (validate _ _ _ tok) eqn:Ev.
  - left. eexists h0, _. split; [|done]. by exists msg, id, port, tok, imp.
  - right. split; [|by left]. intros h addr (m & ? & ? & ? & ? & [= ->] & Eq & Hv & _). congruence.
Qed.

(** C32: only a peer that proved its address can change what is announced: after
    any datagram, every entry of the announce store was there before, or the
    datagram is an [announce_peer] query for that hash with a token valid for the
    sender's IP address, and the entry is that address with the announced (or, when
    implied, the sender's own) port; every entry younger than half an hour is still
    there, or such an announce took its place - as the same address, the oldest of
    fifty, or with the oldest of 1024 hashes; and a peer so announced, unless its
    port is zero, is in the store. *)
Theorem announce_needs_token env `{!EnvOk env} s now buf from s' out :
  store_inv (store s) -> node_step env (DevPacket now buf from) s = Some ((), s', out) ->
  (forall h l e, store s' !! h = Some l -> e ∈ l ->
     (exists l0, store s !! h = Some l0 /\ e ∈ l0) \/
     (announces env s buf from h (pe_addr e) /\ pe_seen e = now)) /\
  (forall h l e, store s !! h = Some l -> e ∈ l -> fresh now e ->
     (exists l', store s' !! h = Some l' /\ e ∈ l') \/
     exists h0 addr, announces env s buf from h0 addr /\ displaced (store s) now h0 addr h e) /\
  (forall h addr, announces env s buf from h addr -> addr_port addr <> 0 ->
     exists l, store s' !! h = Some l /\ mkPeerEntry addr now ∈ l).
Proof.
  intros Hs Hstep. destruct (packet_store_cases env s now buf from s' out Hstep) as [(h0 & addr0 & Ha & E)|[Hno E]].
  - split_and!; rewrite E.
    + intros h l e Hl He. destruct (decide (addr_port addr0 = 0)) as [E0|Hne].
      { left. unfold announce in Hl. rewrite E0 in Hl. eauto. }
      destruct (announce_spec (env_store env) (store s) h0 addr0 now Hs Hne) as (_ & _ & H).
      destruct (H h l e Hl He) as [[-> ->]|]; [by right|by left].
    + intros h l e Hl He Hf. destruct (announce_keeps (env_store env) (store s) h0 addr0 now h l e Hs Hl He Hf); [by left|right; eauto].
    + intros h addr Ha' Hp. assert (h = h0 /\ addr = addr0) as [-> ->].
      { destruct Ha as (m & ? & ? & ? & ? & E1 & E2 & _ & ->), Ha' as (m' & ? & ? & ? & ? & E1' & E2' & _ & ->).
        rewrite E1 in E1'. injection E1' as <-. rewrite E2 in E2'. by injection E2' as <- <- <- <- <-. }
      by destruct (announce_spec (env_store env) (store s) h0 addr0 now Hs Hp) as (_ & ? & _).
  - split_and!; [| |by intros h addr ?%Hno].
    + intros h l e Hl He. left. destruct E as [E|E]; rewrite E in Hl; [eauto|].
      apply expire_lookup in Hl as (l0 & E0 & -> & _). apply list_elem_of_filter in He as [_ He]. eauto.
    + intros h l e Hl He Hf. left. destruct E as [-> | ->]; [eauto|]. exists (filter (fresh now) l).
      assert (Hin : e ∈ filter (fresh now) l) by by apply list_elem_of_filter. split; [|done].
      apply expire_lookup. exists l. split_and!; [done|done|]. intros En. rewrite En in Hin. by apply not_elem_of_nil in Hin.
Qed.

(** A response or an error that answers no query of ours under way - wrong
    transaction id, wrong sender, or a second copy - changes nothing and is not
    answered. *)
Theorem unsolicited_ignored env s now buf from msg :
  decode (env_from_bytes env) buf = Some (Ok msg) ->
  (forall q, payload msg <> PQuery q) -> pending s !! (transaction_id msg, from) = None ->
  node_step env (DevPacket now buf from) s = Some ((), s, []).
Proof.
  intros Ed Hq Hp. cbn [node_step dht_step]. unfold on_packet, mbind, M_bind, attempt. rewrite Ed.
  destruct (payload msg) as [q|r|err]; [by destruct (Hq q)| |].
  - unfold on_response, mbind, M_bind, get. by rewrite Hp.
  - unfold on_error, mbind, M_bind, get. by rewrite Hp.
Qed.

(** ** Tokens over the life of the node *)

(** The instants and fresh secrets of the ticks among the events. *)
Definition tick_of (ev : dht_event) : list (Instant * bytes) :=
  match ev with DevTick now secret _ => [(now, secret)] | _ => [] end.

Lemma cmd_tokens iter iterl itert now cmd : leaves tokens (handle_cmd iter iterl itert now cmd).
Proof. destruct cmd; cbn [handle_cmd]; leaves; apply kick_tokens. Qed.

Lemma packet_tokens sha1 fb iter iters iterl itert now buf from :
  leaves tokens (on_packet sha1 fb iter iters iterl itert now buf from).
Proof. unfold on_packet. leaves; first [apply kick_tokens|apply drive_tokens]. Qed.

Lemma bootstrap_tokens iter iterl now addrs : leaves tokens (bootstrap iter iterl now addrs).
Proof. unfold bootstrap. leaves; apply kick_tokens. Qed.

Lemma tick_tokens iter iterp iterl itert now secret fill s x s' o :
  tick iter iterp iterl itert now secret fill s = Some (x, s', o) ->
  tokens s' = maybe_rotate now secret (tokens s).
Proof.
  intros (? & s1 & ? & o1 & [= <- <- _] & E & _)%bind_Some.
  match type of E with ?c ?s1 = _ => assert (H : leaves tokens c) by (leaves; apply kick_tokens) end.
  by rewrite (H _ _ _ _ E).
Qed.

Lemma step_tokens env ev s x s' o :
  node_step env ev s = Some (x, s', o) -> tokens s' = ticks (tick_of ev) (tokens s).
Proof.
  unfold node_step. destruct ev as [now addrs|now cmd|now buf from|now secret fill].
  - apply bootstrap_tokens.
  - apply cmd_tokens.
  - apply packet_tokens.
  - apply tick_tokens.
Qed.

Lemma run_tokens env evs s x s' o :
  node_run env evs s = Some (x, s', o) -> tokens s' = ticks (evs ≫= tick_of) (tokens s).
Proof.
  revert s x o. induction evs as [|ev evs IH]; intros s x o; [by intros [= _ <- _]|].
  intros (? & s1 & o1 & o2 & E1 & E2 & _)%bind_Some. apply step_tokens in E1. apply IH in E2.
  cbn [mbind list_bind]. unfold ticks in *. rewrite fold_left_app, <- E1. done.
Qed.

(** What a query does to the state it finds: the table learns the sender, then
    the query is answered. *)
Lemma on_query_run sha1 iter now t q from s reply s' o :
  on_query sha1 iter now t q from s = Some (reply, s', o) ->
  exists tb m o', answer sha1 iter now t q from (set_dht_stats (mkDhtStats (rt_len tb) (good_len tb now)) (set_table tb s))
                = Some (m, s', o') /\ o = o' ++ [OSend from m].
Proof.
  intros (? & ? & ? & ? & [= <- <- <-] & H & ->)%bind_Some. revert H.
  intros (tb & ? & ? & ? & E & H & ->)%bind_Some. unfold attempt in E.
  destruct (seen_query _ _ _ _) as [tb'|]; [|done]. injection E as -> <- <-. revert H.
  intros (? & ? & ? & ? & [= <- <- <-] & H & ->)%bind_Some. revert H.
  intros (? & ? & ? & ? & [= <- <- <-] & H & ->)%bind_Some. revert H.
  intros (m & ? & ? & ? & E & [= <- <- <-] & ->)%bind_Some. exists tb, m. cbn in E. eauto.
Qed.

Lemma on_query_total env `{!EnvOk env} now t q from s :
  actor_inv s -> wf_id (query_id q) ->
  exists tb m s' o', on_query (env_sha1 env) (env_store env) now t q from s =
      Some ((), s', o' ++ [OSend from m]) /\ actor_inv s' /\
    answer (env_sha1 env) (env_store env) now t q from
      (set_dht_stats (mkDhtStats (rt_len tb) (good_len tb now)) (set_table tb s)) = Some (m, s', o').
Proof.
  intros Hi Hw. pose proof (keeps_on_query (env_sha1 env) (env_store env) now t q from Hw s Hi) as H. unfold wp in H.
  destruct (on_query _ _ now t q from s) as [[[[] s'] o]|] eqn:E; [|done].
  apply on_query_run in E as E'. destruct E' as (tb & m & o' & Ea & ->). eauto 9.
Qed.

(** The announce protocol works: a node that asked for peers gets a token, and
    in the five minutes after that, whatever the node handles in between (commands,
    datagrams of others, ticks that rotate the secrets), an [announce_peer] from
    the same IP address with that token is answered positively and stores the
    peer, which the next [get_peers] for that hash reports. *)
Theorem token_honoured env `{!EnvOk env} s now t qid h from evs t2 id2 h2 port (implied : bool)
    from2 now2 t3 from3 :
  actor_inv s -> wf_id qid -> wf_id id2 -> rotated_at (tokens s) <= now ->
  Forall wf_event evs -> Forall (fun e => now <= e.1 < now + TOKEN_ROTATE) (evs ≫= tick_of) ->
  addr_ip from2 = addr_ip from -> (if implied then addr_port from2 else port) <> 0 ->
  let ask := on_query (env_sha1 env) (env_store env) in
  exists (s1 : DhtActor) (r1 : Response), ask now t (QGetPeers qid h) from s = Some ((), s1, [OSend from (krpc_response t r1)]) /\
  exists token, r_token r1 = Some token /\
  exists (s2 : DhtActor) (out : list Output), node_run env evs s1 = Some ((), s2, out) /\
  exists (s3 : DhtActor) (r3 : Response), ask now2 t2 (QAnnouncePeer id2 h2 port token implied) from2 s2 =
    Some ((), s3, [OSend from2 (krpc_response t2 r3)]) /\
  exists (s4 : DhtActor) (r4 : Response), ask now2 t3 (QGetPeers qid h2) from3 s3 = Some ((), s4, [OSend from3 (krpc_response t3 r4)]) /\
    socket_addr (addr_ip from) (if implied then addr_port from2 else port) ∈ r_values r4.
Proof.
  intros Hi Hq Hid Hrot Hwf Hts Hip Hport ask.
  pose proof (on_query_total env) as Hrun. fold ask in Hrun.
  destruct (Hrun now t (QGetPeers qid h) from s Hi Hq) as (tb1 & m1 & s1 & o1 & E1 & Hi1 & A1).
  injection A1 as <- Es1 <-. eexists s1, _. split; [exact E1|]. cbn [r_token]. eexists. split; [reflexivity|].
  pose proof (node_run_inv env evs Hwf s1 Hi1) as H2. unfold wp in H2.
  destruct (node_run env evs s1) as [[[[] s2] out2]|] eqn:E2; [|done]. exists s2, out2. split; [done|].
  apply run_tokens in E2. rewrite <- Es1 in E2. cbn [tokens set_store set_dht_stats set_table] in E2.
  pose proof (token_window (env_sha1 env) (tokens s) (addr_ip from) now _ Hrot Hts) as Hv. rewrite <- E2 in Hv.
  cbn [tokens set_dht_stats set_table].
  set (tok := issue _ _ _) in *.
  destruct (Hrun now2 t2 (QAnnouncePeer id2 h2 port tok implied) from2 s2 H2 Hid)
    as (tb3 & m3 & s3 & o3 & E3 & Hi3 & A3).
  unfold answer, mbind, M_bind, get, put, mret, M_ret in A3. cbn [tokens set_dht_stats set_table] in A3.
  rewrite Hip, Hv in A3. cbn [negb] in A3. injection A3 as <- Es3 <-. exists s3, (empty_response (rt_id tb3)). split; [exact E3|].
  destruct (Hrun now2 t3 (QGetPeers qid h2) from3 s3 Hi3 Hq) as (tb4 & m4 & s4 & o4 & E4 & Hi4 & A4).
  injection A4 as <- Es4 <-. eexists s4, _. split; [exact E4|]. cbn [r_values store set_dht_stats set_table].
  rewrite <- Es3. cbn [store set_store set_dht_stats set_table].
  set (peer := socket_addr _ _).
  assert (Hpp : addr_port peer <> 0) by (unfold peer, socket_addr; by destruct (addr_ip from)).
  apply (announce_get (env_store env) (store s2) h2 peer now2 now2 (ai_store _ H2) Hpp).
  unfold since, ANNOUNCE_TTL, secs. lia.
Qed.

(** ** A small network

    Our node has the id 1 and knows two nodes, at the addresses 2 and 3. *)

Definition node_id (b : Z) : NodeId := replicate 20 b.
Definition node_addr (b : Z) : SocketAddr := V4 b 6881.

Lemma node_id_wf b : is_u8 b -> wf_id (node_id b).
Proof. intros Hb. split; [done|]. by apply Forall_replicate. Qed.

Definition small_table : RoutingTable :=
  default (routing_new (node_id 1) 0)
    (load_table (node_id 1) [mkCompactNode (node_id 2) (node_addr 2); mkCompactNode (node_id 3) (node_addr 3)] 0).

Definition small_node : DhtActor := actor_new small_table (mkTokenSecrets (str "s1") (str "s0") 0) false 0.

(** The sample digest: enough to tell the addresses apart. *)
Definition small_env : DhtEnv :=
  mkDhtEnv (fun b => b) parse_bencode map_to_list map_to_list map_to_list map_to_list map_to_list.

#[export] Instance small_env_ok : EnvOk small_env.
Proof. split; apply _. Qed.

Lemma small_node_inv : actor_inv small_node.
Proof.
  apply actor_new_inv. unfold small_table. rewrite load_table_run.
  destruct (rt_run_inv (routing_new (node_id 1) 0)
    (map (fun node => OpLoad node 0)
       [mkCompactNode (node_id 2) (node_addr 2); mkCompactNode (node_id 3) (node_addr 3)])) as (t & -> & Ht).
  - apply routing_new_inv, node_id_wf. unfold is_u8, U8_MAX. lia.
  - repeat constructor; unfold is_u8, U8_MAX; lia.
  - by apply ops_fit_others; repeat constructor.
  - exact Ht.
Qed.

(** An announce with a token of our own digest, as a datagram. *)
Definition announce_packet (token : bytes) : bytes :=
  encode (krpc_query (str "aa") (QAnnouncePeer (node_id 2) (node_id 9) 51413 token false)).

Definition good_token : bytes := issue (fun b => b) (tokens small_node) (IpV4 2).

Definition after_packet (buf : bytes) (from : SocketAddr) : DhtActor :=
  match node_step small_env (DevPacket 0 buf from) small_node with
  | Some (_, s, _) => s
  | None => small_node
  end.

(** Only with the token of the sender's address is the peer stored. *)
Example announce_stored :
  (store (after_packet (announce_packet good_token) (node_addr 2)) !! node_id 9,
   store (after_packet (announce_packet good_token) (node_addr 3)) !! node_id 9,
   store (after_packet (announce_packet (str "xx")) (node_addr 2)) !! node_id 9) =
  (Some [mkPeerEntry (V4 2 51413) 0], None, None).
Proof. vm_compute. reflexivity. Qed.

Lemma announce_needs_token_witness :
  let s' := after_packet (announce_packet good_token) (node_addr 2) in
  store s' !! node_id 9 = Some [mkPeerEntry (V4 2 51413) 0] /\
  ((exists l0, store small_node !! node_id 9 = Some l0 /\ mkPeerEntry (V4 2 51413) 0 ∈ l0) \/
   announces small_env small_node (announce_packet good_token) (node_addr 2) (node_id 9) (V4 2 51413) /\ 0 = 0).
Proof.
  intros s'. assert (E : store s' !! node_id 9 = Some [mkPeerEntry (V4 2 51413) 0]) by (vm_compute; reflexivity).
  split; [exact E|].
  assert (Hs : exists o, node_step small_env (DevPacket 0 (announce_packet good_token) (node_addr 2)) small_node
                         = Some ((), s', o)) by (eexists; vm_compute; reflexivity).
  destruct Hs as [o Hs].
  destruct (announce_needs_token small_env small_node 0 (announce_packet good_token) (node_addr 2) s' o
    (ai_store _ small_node_inv) Hs) as [H _].
  apply (H (node_id 9) [mkPeerEntry (V4 2 51413) 0] (mkPeerEntry (V4 2 51413) 0) E). left.
Defined.

Definition stray_response : bytes :=
  encode (krpc_response (str "zz") (mkResponse (node_id 5) [mkCompactNode (node_id 6) (node_addr 6)] [] None)).

(** The other nodes answer every [get_peers] query after [delay], with a token and
    no further nodes; what they are asked is what the node sends. *)
Definition reply_to (now delay : Z) (o : Output) : list (Instant * bytes * SocketAddr) :=
  match o with
  | OSend a (mkKrpc t (PQuery (QGetPeers _ _)) _) =>
      [(now + delay, encode (krpc_response t (mkResponse (node_id (match a with V4 b _ => b | _ => 0 end)) [] []
          (Some (str "tok")))), a)]
  | _ => []
  end.

Definition sends_announce (o : Output) : bool :=
  match o with OSend _ (mkKrpc _ (PQuery (QAnnouncePeer _ _ _ _ _)) _) => true | _ => false end.
Definition sends_get_peers (o : Output) : bool :=
  match o with OSend _ (mkKrpc _ (PQuery (QGetPeers _ _)) _) => true | _ => false end.

(** The node, the answers on their way and everything sent so far. *)
Definition net_state : Type := option (DhtActor * list (Instant * bytes * SocketAddr) * list Output).

Definition net_step (delay : Z) (n : net_state) (now : Instant) (ev : dht_event) : net_state :=
  '(s, inflight, sent) ← n;
  '(_, s, o) ← node_step small_env ev s;
  Some (s, inflight ++ (o ≫= reply_to now delay), sent ++ o).

(** One tick period: the answers that arrive in it, then the tick. *)
Definition net_period (delay : Z) (n : net_state) (k : nat) : net_state :=
  let now := Z.of_nat k * millis 500 in
  '(s, inflight, sent) ← n;
  let due := filter (fun m => m.1.1 <= now) inflight in
  let rest := filter (fun m => ~ m.1.1 <= now) inflight in
  net_step delay
    (fold_left (fun n m => net_step delay n m.1.1 (DevPacket m.1.1 m.1.2 m.2)) due (Some (s, rest, sent)))
    now (DevTick now (str "s2") (fun _ => node_id 7)).

(** A torrent is added at time 0 and the node then ticks [n] times. *)
Definition net_run (delay : Z) (n : nat) : list Output :=
  match fold_left (net_period delay) (seq 0 n)
          (net_step delay (Some (small_node, [], [])) 0 (DevCmd 0 (AddTorrent (node_id 9) 6881 true))) with
  | Some (_, _, sent) => sent
  | None => []
  end.

(** A torrent whose lookup takes longer than one tick is never announced:
    [reannounce] starts a new lookup for every torrent that is due at every tick,
    dropping the one under way, and a torrent stays due until a lookup finishes.
    With nodes that answer after 400 ms the torrent is announced to both of them;
    with nodes that answer after 600 ms it is not announced in a minute of 120
    ticks, while 242 queries are sent. *)
Theorem slow_lookup_never_announces :
  length (List.filter sends_announce (net_run (millis 400) 3)) = 2%nat /\
  length (List.filter sends_announce (net_run (millis 600) 120)) = 0%nat /\
  length (List.filter sends_get_peers (net_run (millis 600) 120)) = 242%nat.
Proof. split_and!; vm_compute; reflexivity. Qed.
