(* ===== verification/IpFilter.v ===== *)
(** * The IP blocklist (crates/bit_rev/src/ip_filter.rs)

    Parsing of blocklist files (eMule lines, CIDR blocks, hyphen ranges, single
    addresses), merging of the ranges and the lookup, and the handle with its
    reloads.  The main theorem says that the lookup in the merged ranges is the
    linear search through the lines of the file. *)

From S2P Require Import Prelude Utf8 Text.

Definition EMULE_BLOCK_MAX : u32 := 127.

Inductive LineError :=
| BadPrefix (head : list Z)
| Unrecognized (head : list Z)
| BadAddress (text : list Z)
| TrailingJunk (extra : list Z)
| BadLevel (tok : list Z)
| BadCidrPrefix (prefix : list Z)
| PrefixOutOfRange (bits : u32)
| EndBelowStart
| FamiliesDiffer
| NotUtf8.

Record ParseError := mkParseError { pe_line : nat; pe_message : LineError }.

Record IpFilter := mkIpFilter { v4 : list (u32 * u32); v6 : list (u128 * u128) }.

Inductive ParsedRange :=
| RangeV4 (start stop : u32)
| RangeV6 (start stop : u128).

(** ** [str::parse::<IpAddr>], the parser of [core::net] *)

Definition to_digit (radix c : Z) : option Z :=
  let d := if within 48 57 c then Some (c - 48)
           else if within 97 122 c then Some (c - 87)
           else if within 65 90 c then Some (c - 55)
           else None in
  d ← d; if d <? radix then Some d else None.

(** The digits of [read_number], at most [max_digits] of them and no value above
    [max]; one more digit is an error. *)
Fixpoint read_digits (radix max : Z) (max_digits : nat) (acc : Z) (count : nat) (s : list Z)
    {struct s} : option (Z * nat * list Z) :=
  match s with
  | c :: rest =>
      match to_digit radix c with
      | Some d =>
          let acc := acc * radix + d in
          if max <? acc then None
          else match max_digits with
               | O => None
               | S max_digits => read_digits radix max max_digits acc (S count) rest
               end
      | None => Some (acc, count, s)
      end
  | [] => Some (acc, count, [])
  end.

Definition read_number (radix max : Z) (max_digits : nat) (allow_zero_prefix : bool) (s : list Z)
    : option (Z * list Z) :=
  '(v, count, rest) ← read_digits radix max max_digits 0 0 s;
  if (count =? 0)%nat then None
  else if negb allow_zero_prefix && bool_decide (head s = Some 48) && (1 <? count)%nat then None
  else Some (v, rest).

Definition read_given_char (c : Z) (s : list Z) : option (list Z) :=
  match s with d :: rest => if d =? c then Some rest else None | [] => None end.

Definition read_separator {A} (sep : Z) (index : nat) (f : list Z -> option A) (s : list Z) : option A :=
  s ← (if (0 <? index)%nat then read_given_char sep s else Some s); f s.

Fixpoint read_octets (n index : nat) (s : list Z) : option (Z * list Z) :=
  match n with
  | O => Some (0, s)
  | S n =>
      '(b, s) ← read_separator 46 index (read_number 10 255 3 false) s;
      '(v, s) ← read_octets n (S index) s;
      Some (b * 256 ^ Z.of_nat n + v, s)
  end.
Definition read_ipv4_addr (s : list Z) : option (u32 * list Z) := read_octets 4 0 s.

(** [read_groups]: the groups read and whether they end in an IPv4 address. *)
Fixpoint read_groups (limit index : nat) (s : list Z) : list u16 * bool * list Z :=
  match limit with
  | O => ([], false, s)
  | S limit =>
      match (if (0 <? limit)%nat then read_separator 58 index read_ipv4_addr s else None) with
      | Some (ip, s) => ([ip / 65536; ip mod 65536], true, s)
      | None =>
          match read_separator 58 index (read_number 16 65535 4 true) s with
          | Some (g, s) =>
              let '(gs, v4, s) := read_groups limit (S index) s in (g :: gs, v4, s)
          | None => ([], false, s)
          end
      end
  end.

Definition of_groups (gs : list u16) : u128 := fold_left (fun acc g => acc * 65536 + g) gs 0.

Definition read_ipv6_addr (s : list Z) : option (u128 * list Z) :=
  let '(head, head_v4, s) := read_groups 8 0 s in
  if (length head =? 8)%nat then Some (of_groups head, s)
  else if head_v4 then None
  else
    s ← read_given_char 58 s;
    s ← read_given_char 58 s;
    let limit := (8 - (length head + 1))%nat in
    let '(tail, _, s) := read_groups limit 0 s in
    Some (of_groups (head ++ replicate (8 - length head - length tail) 0 ++ tail), s).

Definition parse_ip_addr (s : list Z) : option IpAddr :=
  '(ip, rest) ← match read_ipv4_addr s with
                | Some (ip, rest) => Some (IpV4 ip, rest)
                | None => '(ip, rest) ← read_ipv6_addr s; Some (IpV6 ip, rest)
                end;
  match rest with [] => Some ip | _ => None end.

(** ** Lines *)

Fixpoint parse_octets (parts : list (list Z)) : option (list u8) :=
  match parts with
  | [] => Some []
  | part :: parts =>
      match part with
      | [] => None
      | _ =>
          if forallb (within 48 57) part then
            b ← parse_uint 255 part;
            bs ← parse_octets parts;
            Some (b :: bs)
          else None
      end
  end.

Definition parse_ip (text : list Z) : result IpAddr LineError :=
  let text := trim text in
  if existsb (Z.eqb 58) text then ok_or (parse_ip_addr text) (BadAddress text)
  else
    let parts := split_on (Z.eqb 46) text in
    if negb (length parts =? 4)%nat then Err (BadAddress text)
    else
      let! octets := ok_or (parse_octets parts) (BadAddress text) in
      Ok (IpV4 (of_be octets)).

Definition single (ip : IpAddr) : ParsedRange :=
  match ip with IpV4 n => RangeV4 n n | IpV6 n => RangeV6 n n end.

Definition range_from_ips (start stop : IpAddr) : result (option ParsedRange) LineError :=
  match start, stop with
  | IpV4 a, IpV4 b => if b <? a then Err EndBelowStart else Ok (Some (RangeV4 a b))
  | IpV6 a, IpV6 b => if b <? a then Err EndBelowStart else Ok (Some (RangeV6 a b))
  | _, _ => Err FamiliesDiffer
  end.

(** [ip & mask] and [start | !mask] for a mask of [bits] ones in a word of
    [width] bits; [MAX << (width - bits)] drops the bits above the word. *)
Definition cidr_mask (width bits : Z) : Z :=
  if bits =? 0 then 0 else Z.shiftl (Z.ones width) (width - bits) mod 2 ^ width.
Definition cidr_range (width ip bits : Z) : Z * Z :=
  let mask := cidr_mask width bits in
  let start := Z.land ip mask in
  (start, Z.lor start (Z.lxor (Z.ones width) mask)).

Definition parse_cidr (addr prefix : list Z) : result (option ParsedRange) LineError :=
  let! ip := parse_ip addr in
  let! bits := ok_or (parse_uint U32_MAX prefix) (BadCidrPrefix prefix) in
  match ip with
  | IpV4 ip =>
      if 32 <? bits then Err (PrefixOutOfRange bits)
      else let '(start, stop) := cidr_range 32 ip bits in Ok (Some (RangeV4 start stop))
  | IpV6 ip =>
      if 128 <? bits then Err (PrefixOutOfRange bits)
      else let '(start, stop) := cidr_range 128 ip bits in Ok (Some (RangeV6 start stop))
  end.

Definition parse_bounds (start_tok rest : list Z) : result (option ParsedRange) LineError :=
  let! start := parse_ip start_tok in
  let! (end_tok, level) :=
    match split_once 44 rest with
    | Some (stop, after) => Ok (trim stop, Some (trim (default [] (head (split_on (Z.eqb 44) after)))))
    | None =>
        let words := split_whitespace rest in
        match words !! 1%nat with
        | Some extra =>
            if starts_with [35] extra then Ok (default [] (head words), None) else Err (TrailingJunk extra)
        | None => Ok (default [] (head words), None)
        end
    end in
  let! permitted :=
    match level with
    | Some ((_ :: _) as level_tok) =>
        let! level := ok_or (parse_uint U32_MAX level_tok) (BadLevel level_tok) in
        Ok (EMULE_BLOCK_MAX <? level)
    | _ => Ok false
    end in
  if (permitted : bool) then Ok None
  else
    let! stop := parse_ip end_tok in
    range_from_ips start stop.

Definition strip_inline_comment (line : list Z) : list Z :=
  match position (Z.eqb 35) line with
  | Some idx =>
      let before := take idx line in
      if (2 <=? length (List.filter (Z.eqb 44) before))%nat then trim line else trim before
  | None => trim line
  end.

Definition split_hyphen (line : list Z) : option (list Z * list Z) :=
  match split_once_str (str " - ") line with
  | Some (l, r) => Some (trim l, trim r)
  | None =>
      '(l, r) ← split_once 45 line;
      match l, r with
      | [], _ | _, [] => None
      | _, _ => Some (trim l, trim r)
      end
  end.

Definition parse_line (line : list Z) : result (option ParsedRange) LineError :=
  match strip_inline_comment line with
  | [] => Ok None
  | head =>
      match split_once 47 head with
      | Some (addr, prefix) =>
          if negb (forallb (within 48 57) prefix) then Err (BadPrefix head)
          else parse_cidr (trim addr) (trim prefix)
      | None =>
          match split_hyphen head with
          | Some (start, stop) => parse_bounds start stop
          | None =>
              match parse_ip head with
              | Ok ip => Ok (Some (single ip))
              | Err _ => Err (Unrecognized head)
              end
          end
      end
  end.

(** ** Ranges *)

Definition range_le (a b : Z * Z) : Prop := a.1 < b.1 \/ (a.1 = b.1 /\ a.2 <= b.2).

#[export] Instance range_le_dec a b : Decision (range_le a b).
Proof. unfold range_le. apply _. Defined.

(** The loop of [merge_ranges]; [max] is the largest address. *)
Fixpoint merge_loop (max : Z) (cur : Z * Z) (ranges : list (Z * Z)) : list (Z * Z) :=
  match ranges with
  | [] => [cur]
  | next :: ranges =>
      if next.1 <=? sat_add max cur.2 1 then
        merge_loop max (cur.1, if cur.2 <? next.2 then next.2 else cur.2) ranges
      else cur :: merge_loop max next ranges
  end.

Definition merge_ranges (max : Z) (ranges : list (Z * Z)) : list (Z * Z) :=
  match merge_sort range_le ranges with
  | [] => []
  | first :: rest => merge_loop max first rest
  end.

(** [slice::partition_point] of a slice that is partitioned. *)
Fixpoint partition_point {A} (p : A -> bool) (l : list A) : nat :=
  match l with
  | x :: l => if p x then S (partition_point p l) else O
  | [] => O
  end.

(** [None] is an index out of range. *)
Definition contains_range (ranges : list (Z * Z)) (ip : Z) : option bool :=
  let idx := partition_point (fun r : Z * Z => r.1 <=? ip) ranges in
  if (0 <? idx)%nat then r ← ranges !! (idx - 1)%nat; Some (ip <=? r.2) else Some false.

Definition contains (f : IpFilter) (ip : IpAddr) : option bool :=
  match ip with
  | IpV4 n => contains_range (v4 f) n
  | IpV6 n => contains_range (v6 f) n
  end.

Definition range_count (f : IpFilter) : nat := (length (v4 f) + length (v6 f))%nat.

(** ** Files *)

(** Whether a line holds nothing but a comment. *)
Definition is_comment (line : list Z) : bool :=
  match line with [] => true | _ => starts_with [35] line || starts_with [47; 47] line end.

Definition clean_line (raw : list Z) : list Z := trim (trim_end (Z.eqb 13) (trim raw)).

(** The loop over the lines; [n] is the number of the first one. *)
Fixpoint parse_lines (n : nat) (ls : list (list Z)) : result (list (u32 * u32) * list (u128 * u128)) ParseError :=
  match ls with
  | [] => Ok ([], [])
  | raw :: ls =>
      let line := clean_line raw in
      if is_comment line then parse_lines (S n) ls
      else
        match parse_line line with
        | Err message => Err (mkParseError n message)
        | Ok r =>
            let! (a, b) := parse_lines (S n) ls in
            Ok (match r with
                | None => (a, b)
                | Some (RangeV4 start stop) => ((start, stop) :: a, b)
                | Some (RangeV6 start stop) => (a, (start, stop) :: b)
                end)
        end
  end.

Definition parse (text : list Z) : result IpFilter ParseError :=
  let text := match text with 65279 :: rest => rest | _ => text end in
  let! (a, b) := parse_lines 1 (lines text) in
  Ok (mkIpFilter (merge_ranges U32_MAX a) (merge_ranges U128_MAX b)).

Definition ipf_parse_bytes (data : bytes) : result IpFilter ParseError :=
  let! text := ok_or (utf8_chars data) (mkParseError 0 NotUtf8) in parse text.

Definition empty_filter : IpFilter := mkIpFilter [] [].

(** ** The handle

    [disk] is what reading the configured file gives: its bytes, if it can be
    read, and its modification time, if that is known. *)

Record Disk := mkDisk { d_bytes : option bytes; d_mtime : option Z }.

Record FilterState := mkFilterState {
  fs_enabled : bool;
  fs_filter : IpFilter;
  fs_hits : u64;
  fs_loaded_at : option Z;
  fs_mtime : option Z }.

Definition load_file (disk : Disk) : option (IpFilter * option Z) :=
  bytes ← d_bytes disk;
  match ipf_parse_bytes bytes with Ok filter => Some (filter, d_mtime disk) | Err _ => None end.

Definition apply_load (disk : Disk) (now : Z) (first : bool) (s : FilterState) : FilterState :=
  match load_file disk with
  | Some (filter, mtime) => mkFilterState (fs_enabled s) filter (fs_hits s) (Some now) mtime
  | None =>
      if first then mkFilterState (fs_enabled s) empty_filter (fs_hits s) None None else s
  end.

(** [path] is [None] for the empty path, which switches the filter off. *)
Definition filter_open (path : option Disk) (now : Z) : FilterState :=
  match path with
  | Some disk => apply_load disk now true (mkFilterState true empty_filter 0 None None)
  | None => mkFilterState false empty_filter 0 None None
  end.

Definition filter_reload (disk : Disk) (now : Z) (s : FilterState) : FilterState :=
  if negb (fs_enabled s) then s else apply_load disk now false s.

Definition poll_mtime (disk : Disk) (now : Z) (s : FilterState) : FilterState :=
  if negb (fs_enabled s) then s
  else match d_mtime disk with
       | None => s
       | Some mtime => if bool_decide (fs_mtime s = Some mtime) then s else apply_load disk now false s
       end.

Definition blocks (addr : SocketAddr) (s : FilterState) : option (bool * FilterState) :=
  if negb (fs_enabled s) then Some (false, s)
  else
    hit ← contains (fs_filter s) (addr_ip addr);
    if (hit : bool) then
      Some (true, mkFilterState (fs_enabled s) (fs_filter s) (sat_add U64_MAX (fs_hits s) 1) (fs_loaded_at s) (fs_mtime s))
    else Some (false, s).

Definition handle_contains (ip : IpAddr) (s : FilterState) : option bool :=
  if negb (fs_enabled s) then Some false else contains (fs_filter s) ip.

(** ** Examples of each kind of line *)

Example parse_kinds :
  map (fun s => match parse_line s with Ok (Some r) => Some r | _ => None end)
    [str "10.0.0.0/8"; str "1.2.4.0 - 1.2.4.255"; str "1.2.4.0-1.2.4.9 , 100 , bad range";
     str "1.2.4.0 - 1.2.4.255 , 200 , fine"; str "2001:db8::/32"; str "::ffff:1.2.3.4"; str "8.8.8.8 # dns"] =
  [Some (RangeV4 167772160 184549375); Some (RangeV4 16909312 16909567); Some (RangeV4 16909312 16909321);
   None; Some (RangeV6 42540766411282592856903984951653826560 42540766490510755371168322545197776895);
   Some (RangeV6 281470698652420 281470698652420); Some (RangeV4 134744072 134744072)].
Proof. vm_compute. reflexivity. Qed.

(** ** Merging keeps the set of addresses *)

Definition in_range (r : Z * Z) (ip : Z) : Prop := r.1 <= ip <= r.2.
Definition listed (rs : list (Z * Z)) (ip : Z) : Prop := exists r, r ∈ rs /\ in_range r ip.

#[export] Instance in_range_dec r ip : Decision (in_range r ip).
Proof. unfold in_range. apply _. Defined.
#[export] Instance listed_dec rs ip : Decision (listed rs ip).
Proof.
  refine (cast_if (decide (Exists (fun r => in_range r ip) rs)));
    [abstract by apply Exists_exists|abstract by rewrite Exists_exists in *].
Defined.

Definition wf_range (max : Z) (r : Z * Z) : Prop := r.1 <= r.2 /\ r.1 <= max.

Lemma listed_cons r rs ip : listed (r :: rs) ip <-> in_range r ip \/ listed rs ip.
Proof.
  unfold listed. split.
  - intros (x & [->|Hx]%elem_of_cons & Hi); eauto.
  - intros [Hi|(x & Hx & Hi)]; [exists r; split; [left|done]|exists x; split; [by right|done]].
Qed.

Lemma listed_perm rs rs' ip : rs ≡ₚ rs' -> listed rs ip <-> listed rs' ip.
Proof. intros H. unfold listed. by setoid_rewrite H. Qed.

#[export] Instance range_le_trans : Transitive range_le.
Proof. unfold range_le. intros a b c. lia. Qed.
#[export] Instance range_le_total : Total range_le.
Proof. unfold range_le. intros a b. lia. Qed.

(** Consecutive merged ranges are apart by more than one address. *)
Definition apart (a b : Z * Z) : Prop := a.2 + 1 < b.1.

Lemma merge_loop_spec max cur rs :
  StronglySorted range_le (cur :: rs) -> Forall (wf_range max) (cur :: rs) ->
  StronglySorted apart (merge_loop max cur rs) /\
  Forall (fun r => cur.1 <= r.1 /\ r.1 <= r.2) (merge_loop max cur rs) /\
  forall ip, listed (merge_loop max cur rs) ip <-> listed (cur :: rs) ip.
Proof.
  revert cur. induction rs as [|next rs IH]; intros cur Hs Hw; cbn [merge_loop].
  { apply Forall_cons in Hw as [[? ?] _]. split_and!; [by repeat constructor|by repeat constructor|done]. }
  apply StronglySorted_inv in Hs as [Hs Hcur]. apply Forall_cons in Hw as [[Hc1 Hc2] Hw].
  pose proof Hcur as [Hcn Hcr]%Forall_cons. pose proof Hw as [[Hn1 Hn2] Hwr]%Forall_cons.
  apply StronglySorted_inv in Hs as [Hs Hnext]. unfold range_le in Hcn. unfold sat_add.
  destruct (Z.leb_spec next.1 (Z.min max (cur.2 + 1))) as [Hle|Hgt].
  - set (cur' := (cur.1, if cur.2 <? next.2 then next.2 else cur.2)).
    assert (E2 : cur'.2 = Z.max cur.2 next.2) by (unfold cur'; cbn; case_cmp; lia).
    destruct (IH cur') as (H1 & H2 & H3).
    + constructor; [done|]. rewrite Forall_forall in Hcr, Hnext |- *. intros r Hr.
      specialize (Hcr r Hr). specialize (Hnext r Hr). unfold range_le in *. cbn [fst cur']. rewrite E2. lia.
    + constructor; [split; cbn [fst cur']; [rewrite E2; lia|done]|done].
    + split_and!; [done|done|]. intros ip. rewrite H3, !listed_cons. unfold in_range. cbn [fst cur'].
      rewrite E2. assert (next.1 <= cur.2 + 1) by lia.
      split; [intros [?|?]; [destruct (decide (ip <= cur.2)); [left|right; left]; lia|by right; right]|].
      intros [?|[?|?]]; [left; lia|left; lia|by right].
  - destruct (IH next) as (H1 & H2 & H3); [by constructor|done|].
    assert (Hap : Forall (apart cur) (merge_loop max next rs)).
    { apply (Forall_impl _ _ _ H2). intros r [? ?]. unfold apart. lia. }
    split_and!; [by constructor| |].
    + constructor; [lia|]. apply (Forall_impl _ _ _ H2). intros r [? ?]. lia.
    + intros ip. by rewrite (listed_cons cur), H3, (listed_cons cur).
Qed.

Lemma merge_ranges_spec max rs :
  Forall (wf_range max) rs ->
  StronglySorted apart (merge_ranges max rs) /\ Forall (fun r => r.1 <= r.2) (merge_ranges max rs) /\
  forall ip, listed (merge_ranges max rs) ip <-> listed rs ip.
Proof.
  intros Hw. unfold merge_ranges.
  pose proof (merge_sort_Permutation range_le rs) as Hp. pose proof (StronglySorted_merge_sort range_le rs) as Hs.
  destruct (merge_sort range_le rs) as [|first rest].
  { split_and!; [constructor|constructor|]. intros ip. by apply listed_perm. }
  destruct (merge_loop_spec max first rest Hs) as (H1 & H2 & H3); [by rewrite Hp|].
  split_and!; [done|apply (Forall_impl _ _ _ H2); by intros r []|].
  intros ip. rewrite H3. by apply listed_perm.
Qed.

(** The binary search is the linear one. *)
Lemma contains_range_spec rs ip :
  StronglySorted apart rs -> Forall (fun r => r.1 <= r.2) rs ->
  contains_range rs ip = Some (bool_decide (listed rs ip)).
Proof.
  intros Hs Hw. unfold contains_range. induction Hs as [|r rs Hs IH Hall].
  { cbn. rewrite bool_decide_false; [done|]. intros (x & ?%not_elem_of_nil & _). done. }
  apply Forall_cons in Hw as [Hr Hw]. specialize (IH Hw). cbn [partition_point].
  rewrite Forall_forall in Hall. rewrite (bool_decide_ext _ _ (listed_cons r rs ip)).
  destruct (Z.leb_spec r.1 ip) as [Hle|Hgt].
  - cbn [Nat.ltb Nat.leb]. rewrite Nat.sub_succ, Nat.sub_0_r.
    destruct (partition_point _ rs) as [|n] eqn:En.
    + cbn [lookup list_lookup]. red_bind. f_equal.
      assert (Hno : ~ listed rs ip) by (by injection IH as IH; symmetry in IH; apply bool_decide_eq_false in IH).
      rewrite (bool_decide_ext _ (in_range r ip)) by tauto. unfold in_range.
      destruct (Z.leb_spec ip r.2); [rewrite bool_decide_true|rewrite bool_decide_false]; done || lia.
    + cbn [Nat.ltb Nat.leb] in IH. rewrite Nat.sub_succ, Nat.sub_0_r in IH.
      change ((r :: rs) !! S n) with (rs !! n). rewrite IH. f_equal.
      apply bool_decide_ext. split; [by right|]. intros [Hin|]; [|done].
      destruct rs as [|r' rs]; [done|]. cbn [partition_point] in En.
      destruct (Z.leb_spec r'.1 ip); [|done]. specialize (Hall r' ltac:(left)). unfold apart, in_range in *. lia.
  - rewrite bool_decide_false; [done|]. intros [Hin|(x & Hx & Hin)]; unfold in_range in *; [lia|].
    specialize (Hall x Hx). unfold apart in Hall. lia.
Qed.

(** ** CIDR blocks *)

Lemma cidr_mask_bit width bits i :
  0 <= bits <= width -> 0 <= i ->
  Z.testbit (cidr_mask width bits) i = (width - bits <=? i) && (i <? width).
Proof.
  intros Hb Hi. unfold cidr_mask. destruct (Z.eqb_spec bits 0) as [->|Hb0].
  - rewrite Z.bits_0. destruct (Z.leb_spec (width - 0) i), (Z.ltb_spec i width); lia.
  - rewrite Z.testbit_mod_pow2 by lia.
    destruct (Z.ltb_spec i width); [|by rewrite andb_false_r]. rewrite andb_true_r. cbn [andb].
    rewrite Z.shiftl_spec by lia. destruct (Z.leb_spec (width - bits) i).
    + rewrite Z.testbit_ones_nonneg by lia. lia.
    + by rewrite Z.testbit_neg_r by lia.
Qed.

(** The block is aligned and has [2 ^ (width - bits)] addresses. *)
Lemma cidr_range_spec width ip bits :
  0 <= bits <= width -> 0 <= ip < 2 ^ width ->
  cidr_range width ip bits =
  (ip - ip mod 2 ^ (width - bits), ip - ip mod 2 ^ (width - bits) + (2 ^ (width - bits) - 1)).
Proof.
  intros Hb Hip. set (k := width - bits). assert (Hk : 0 <= k <= width) by lia.
  assert (Hpos : 0 < 2 ^ k) by (apply Z.pow_pos_nonneg; lia).
  assert (Es : Z.land ip (cidr_mask width bits) = ip - ip mod 2 ^ k).
  { transitivity (Z.ldiff ip (Z.ones k)).
    - apply Z.bits_inj'. intros i Hi. rewrite Z.land_spec, Z.ldiff_spec, cidr_mask_bit by lia.
      rewrite Z.testbit_ones_nonneg by lia. fold k. destruct (Z.leb_spec k i), (Z.ltb_spec i k); try lia.
      destruct (Z.ltb_spec i width); [done|].
      rewrite andb_false_r. cbn. rewrite andb_true_r. symmetry. destruct (decide (ip = 0)) as [->|]; [by rewrite Z.bits_0|].
      apply Z.bits_above_log2; [lia|].
      apply Z.log2_lt_pow2; [lia|]. eapply Z.lt_le_trans; [apply Hip|]. apply Z.pow_le_mono_r; lia.
    - rewrite Z.ldiff_ones_r by lia. rewrite Z.shiftl_mul_pow2, Z.shiftr_div_pow2 by lia.
      pose proof (Z_div_mod_eq_full ip (2 ^ k)). lia. }
  unfold cidr_range. rewrite Es. f_equal.
  assert (En : Z.lxor (Z.ones width) (cidr_mask width bits) = Z.ones k).
  { apply Z.bits_inj'. intros i Hi. rewrite Z.lxor_spec, cidr_mask_bit, !Z.testbit_ones_nonneg by lia. fold k.
    destruct (Z.ltb_spec i width), (Z.leb_spec k i), (Z.ltb_spec i k); try lia; done. }
  rewrite En. assert (Hz : Z.land (ip - ip mod 2 ^ k) (Z.ones k) = 0).
  { apply Z.bits_inj'. intros i Hi. rewrite Z.land_spec, Z.bits_0, Z.testbit_ones_nonneg by lia.
    destruct (Z.ltb_spec i k); [|by rewrite andb_false_r]. rewrite <- Es, Z.land_spec, cidr_mask_bit by lia. fold k.
    destruct (Z.leb_spec k i); [lia|]. by rewrite !andb_false_r. }
  pose proof (Z.add_lor_land (ip - ip mod 2 ^ k) (Z.ones k)) as H. rewrite Hz, Z.ones_equiv in *. lia.
Qed.

(** ** Parsed addresses fit their words *)

Definition wf_ip (ip : IpAddr) : Prop := match ip with IpV4 n => is_u32 n | IpV6 n => is_u128 n end.

Lemma parse_octets_wf parts bs : parse_octets parts = Some bs -> wf_bytes bs /\ length bs = length parts.
Proof.
  revert bs. induction parts as [|part parts IH]; intros bs; cbn [parse_octets]; [intros [= <-]; split; [constructor|done]|].
  destruct part as [|c part]; [done|]. destruct (forallb _ _); [|done].
  destruct (parse_uint 255 (c :: part)) as [b|] eqn:Eb; [|done]. red_bind.
  destruct (parse_octets parts) as [bs'|]; [|done]. red_bind. intros [= <-].
  destruct (IH bs' eq_refl) as [? ?]. apply parse_uint_range in Eb; [|lia].
  split; [constructor; [|done]; unfold is_u8, U8_MAX; lia|cbn; lia].
Qed.

Lemma to_digit_range radix c d : to_digit radix c = Some d -> 0 <= d.
Proof.
  unfold to_digit. destruct (if within 48 57 c then _ else _) as [x|] eqn:E; [|done]. red_bind.
  destruct (x <? radix); [|done]. intros [= <-]. revert E. unfold within.
  repeat (match goal with |- context [if ?b then _ else _] => destruct b eqn:? end; [intros [= <-]; lia|]). done.
Qed.

Lemma read_digits_range radix max md acc count s v n rest :
  0 <= radix -> 0 <= acc <= max -> read_digits radix max md acc count s = Some (v, n, rest) -> 0 <= v <= max.
Proof.
  intros Hr. revert md acc count. induction s as [|c s IH]; intros md acc count Ha; cbn [read_digits];
    [intros H; injection H; intros; subst; lia|].
  destruct (to_digit radix c) as [d|] eqn:Ed; [|intros H; injection H; intros; subst; lia]. apply to_digit_range in Ed.
  destruct (Z.ltb_spec max (acc * radix + d)); [done|]. destruct md; [done|]. apply IH. nia.
Qed.

Lemma read_number_range radix max md z s v rest :
  0 <= radix -> 0 <= max -> read_number radix max md z s = Some (v, rest) -> 0 <= v <= max.
Proof.
  intros Hr Hm. unfold read_number. destruct (read_digits _ _ _ _ _ _) as [[[w n] r]|] eqn:E; [|done]. red_bind.
  apply read_digits_range in E; [|lia..]. repeat case_match; try done; by intros [= <- <-].
Qed.

Lemma read_separator_Some {A} sep i (f : list Z -> option A) s x :
  read_separator sep i f s = Some x -> exists s', f s' = Some x.
Proof. unfold read_separator. destruct (if (_ <? _)%nat then _ else _); [|done]. red_bind. eauto. Qed.

Lemma read_octets_range n i s v rest : read_octets n i s = Some (v, rest) -> 0 <= v < 256 ^ Z.of_nat n.
Proof.
  revert i s v rest. induction n as [|n IH]; intros i s v rest; cbn [read_octets]; [intros [= <- _]; cbn; lia|].
  destruct (read_separator _ _ _ _) as [[b s1]|] eqn:E1; [|done]. red_bind.
  destruct (read_octets n (S i) s1) as [[w s2]|] eqn:E2; [|done]. red_bind. intros [= <- <-].
  apply read_separator_Some in E1 as [s' E1]. apply read_number_range in E1; [|lia..]. apply IH in E2.
  rewrite Nat2Z.inj_succ, Z.pow_succ_r by lia. nia.
Qed.

Lemma read_groups_wf limit i s gs v4 rest :
  read_groups limit i s = (gs, v4, rest) -> Forall is_u16 gs /\ (length gs <= limit)%nat.
Proof.
  revert i s gs v4 rest. induction limit as [|limit IH]; intros i s gs v4 rest; cbn [read_groups].
  { inversion 1; subst. split; [constructor|cbn; lia]. }
  destruct (if (0 <? limit)%nat then _ else None) as [[ip s1]|] eqn:E1.
  { destruct (Nat.ltb_spec 0 limit); [|done]. apply read_separator_Some in E1 as [s' E1].
    apply read_octets_range in E1. change (256 ^ Z.of_nat 4) with 4294967296 in E1. inversion 1; subst.
    split; [|cbn; lia]. pose proof (Z.mod_pos_bound ip 65536 ltac:(lia)). pose proof (Z_div_mod_eq_full ip 65536).
    repeat constructor; unfold is_u16, U16_MAX; lia. }
  clear E1. destruct (read_separator _ _ (read_number _ _ _ _) _) as [[g s1]|] eqn:E2; [|inversion 1; subst; split; [constructor|cbn; lia]].
  apply read_separator_Some in E2 as [s' E2]. apply read_number_range in E2; [|lia..].
  destruct (read_groups limit (S i) s1) as [[gs' v4'] s2] eqn:E3. inversion 1; subst.
  apply IH in E3 as [? ?]. split; [constructor; [unfold is_u16, U16_MAX; lia|done]|cbn; lia].
Qed.

Lemma of_groups_range gs : Forall is_u16 gs -> 0 <= of_groups gs < 65536 ^ Z.of_nat (length gs).
Proof.
  unfold of_groups. induction gs as [|g gs IH] using rev_ind; intros H; [cbn; lia|].
  apply Forall_app in H as [H [Hg _]%Forall_cons]. rewrite fold_left_app, length_app. cbn [fold_left length].
  rewrite Nat2Z.inj_add, Z.pow_add_r by lia. specialize (IH H). unfold is_u16, U16_MAX in Hg. nia.
Qed.

Lemma read_ipv6_range s ip rest : read_ipv6_addr s = Some (ip, rest) -> is_u128 ip.
Proof.
  unfold read_ipv6_addr. destruct (read_groups 8 0 s) as [[head hv4] s1] eqn:E1.
  apply read_groups_wf in E1 as [Hh Hl].
  assert (Hok : forall gs, Forall is_u16 gs -> length gs = 8%nat -> is_u128 (of_groups gs)).
  { intros gs Hg E. pose proof (of_groups_range gs Hg) as H. rewrite E in H.
    change (65536 ^ Z.of_nat 8) with 340282366920938463463374607431768211456 in H.
    unfold is_u128, U128_MAX. lia. }
  destruct (Nat.eqb_spec (length head) 8); [intros [= <- _]; by apply Hok|].
  destruct hv4; [done|]. destruct (read_given_char 58 s1); [|done]. red_bind.
  destruct (read_given_char 58 _) as [s2|]; [|done]. red_bind.
  destruct (read_groups _ 0 s2) as [[tail tv4] s3] eqn:E2. apply read_groups_wf in E2 as [Ht Htl].
  intros [= <- _]. apply Hok.
  - repeat apply Forall_app_2; [done| |done]. apply Forall_replicate. unfold is_u16, U16_MAX. lia.
  - rewrite !length_app, length_replicate. lia.
Qed.

Lemma parse_ip_wf text ip : parse_ip text = Ok ip -> wf_ip ip.
Proof.
  unfold parse_ip. destruct (existsb _ _).
  - unfold parse_ip_addr. destruct (read_ipv4_addr (trim text)) as [[n rest]|] eqn:E.
    + apply read_octets_range in E. change (256 ^ Z.of_nat 4) with 4294967296 in E.
      red_bind. destruct rest; [|done]. intros [= <-]. unfold wf_ip, is_u32, U32_MAX. lia.
    + red_bind. destruct (read_ipv6_addr _) as [[n rest]|] eqn:E6; [|done]. red_bind.
      destruct rest; [|done]. intros [= <-]. by apply read_ipv6_range in E6.
  - destruct (Nat.eqb_spec (length (split_on (Z.eqb 46) (trim text))) 4) as [E4|]; [|done]. cbn [negb].
    destruct (parse_octets _) as [bs|] eqn:E; [|done]. cbn [ok_or]. intros [= <-].
    apply parse_octets_wf in E as [Hb Hl]. pose proof (of_be_range bs Hb) as H. rewrite Hl, E4 in H.
    change (256 ^ Z.of_nat 4) with 4294967296 in H. unfold wf_ip, is_u32, U32_MAX. lia.
Qed.

Definition wf_parsed (r : ParsedRange) : Prop :=
  match r with
  | RangeV4 a b => 0 <= a <= b /\ b <= U32_MAX
  | RangeV6 a b => 0 <= a <= b /\ b <= U128_MAX
  end.

Lemma range_from_ips_wf a b r : wf_ip a -> wf_ip b -> range_from_ips a b = Ok (Some r) -> wf_parsed r.
Proof.
  unfold range_from_ips, wf_ip, is_u32, is_u128.
  destruct a, b; intros Ha Hb; try done; case_cmp; try done; intros [= <-]; cbn; lia.
Qed.

Lemma cidr_wf width ip bits :
  0 <= bits <= width -> 0 <= ip < 2 ^ width ->
  let r := cidr_range width ip bits in 0 <= r.1 <= r.2 /\ r.2 < 2 ^ width.
Proof.
  intros Hb Hi r. subst r. rewrite cidr_range_spec by done. cbn [fst snd].
  set (k := width - bits). assert (Hpos : 0 < 2 ^ k) by (apply Z.pow_pos_nonneg; lia).
  assert (Hw : 2 ^ width = 2 ^ bits * 2 ^ k) by (rewrite <- Z.pow_add_r by lia; f_equal; lia).
  pose proof (Z.mod_pos_bound ip (2 ^ k) Hpos). pose proof (Z_div_mod_eq_full ip (2 ^ k)).
  assert (0 <= ip / 2 ^ k < 2 ^ bits).
  { split; [apply Z.div_pos; lia|]. apply Z.div_lt_upper_bound; [lia|]. rewrite Z.mul_comm. lia. }
  nia.
Qed.

Lemma parse_line_wf line r : parse_line line = Ok (Some r) -> wf_parsed r.
Proof.
  unfold parse_line. destruct (strip_inline_comment line) as [|c head]; [done|].
  destruct (split_once 47 _) as [[addr prefix]|].
  - destruct (negb _); [done|]. unfold parse_cidr. destruct (parse_ip _) as [ip|] eqn:Ei; [|done].
    apply parse_ip_wf in Ei. destruct (parse_uint _ _) as [bits|] eqn:Eb; [|done]. cbn [ok_or].
    apply parse_uint_range in Eb; [|unfold U32_MAX; lia].
    destruct ip as [ip|ip]; cbn in Ei; (case_cmp; [done|]).
    + assert (Hip : 0 <= ip < 2 ^ 32) by (unfold is_u32, U32_MAX in Ei; lia).
      pose proof (cidr_wf 32 ip bits ltac:(lia) Hip) as Hc. destruct (cidr_range 32 ip bits) as [a b].
      intros [= <-]. cbn in *. unfold U32_MAX. lia.
    + assert (Hip : 0 <= ip < 2 ^ 128) by (unfold is_u128, U128_MAX in Ei; lia).
      pose proof (cidr_wf 128 ip bits ltac:(lia) Hip) as Hc. destruct (cidr_range 128 ip bits) as [a b].
      intros [= <-]. cbn in *. unfold U128_MAX. lia.
  - destruct (split_hyphen _) as [[start stop]|].
    + unfold parse_bounds. destruct (parse_ip start) as [a|] eqn:Ea; [|done].
      match goal with |- context [match ?m with Ok _ => _ | Err _ => _ end] =>
        destruct m as [[end_tok level]|]; [|done] end.
      match goal with |- context [match ?m with Ok _ => _ | Err _ => _ end] => destruct m as [[]|]; try done end.
      destruct (parse_ip end_tok) as [b|] eqn:Eb; [|done]. apply range_from_ips_wf; by eapply parse_ip_wf.
    + destruct (parse_ip _) as [ip|] eqn:Ei; [|done]. intros [= <-]. apply parse_ip_wf in Ei.
      destruct ip; cbn in *; unfold is_u32, is_u128 in Ei; lia.
Qed.

(** ** Properties *)

Definition parsed_has (r : ParsedRange) (ip : IpAddr) : Prop :=
  match r, ip with
  | RangeV4 a b, IpV4 n => a <= n <= b
  | RangeV6 a b, IpV6 n => a <= n <= b
  | _, _ => False
  end.

(** A line of a file that names the address. *)
Definition line_lists (raw : list Z) (ip : IpAddr) : Prop :=
  is_comment (clean_line raw) = false /\
  exists r, parse_line (clean_line raw) = Ok (Some r) /\ parsed_has r ip.

Definition strip_bom (text : list Z) : list Z := match text with 65279 :: rest => rest | _ => text end.

Lemma parse_lines_spec n ls a b :
  parse_lines n ls = Ok (a, b) ->
  Forall (wf_range U32_MAX) a /\ Forall (wf_range U128_MAX) b /\
  (forall ip, listed a ip <-> exists raw, raw ∈ ls /\ line_lists raw (IpV4 ip)) /\
  (forall ip, listed b ip <-> exists raw, raw ∈ ls /\ line_lists raw (IpV6 ip)).
Proof.
  revert n a b. induction ls as [|raw ls IH]; intros n a b; cbn [parse_lines].
  { intros [= <- <-]. split_and!; try constructor; (intros (x & ?%not_elem_of_nil & _); done). }
  assert (Hskip : forall ip, ~ line_lists raw ip ->
    (exists r, r ∈ raw :: ls /\ line_lists r ip) <-> (exists r, r ∈ ls /\ line_lists r ip)).
  { intros ip Hn. split; intros (x & Hx & Hl); [|exists x; split; [by right|done]].
    apply elem_of_cons in Hx as [->|Hx]; [done|eauto]. }
  destruct (is_comment (clean_line raw)) eqn:Ec.
  { intros (Ha & Hb & H4 & H6)%IH. split_and!; try done; intros ip; [rewrite H4|rewrite H6];
      symmetry; apply Hskip; intros [? _]; congruence. }
  destruct (parse_line (clean_line raw)) as [r|] eqn:El; [|done].
  destruct (parse_lines (S n) ls) as [[a' b']|] eqn:Er; [|done]. apply IH in Er as (Ha & Hb & H4 & H6).
  assert (Hline : forall ip, line_lists raw ip <-> exists x, r = Some x /\ parsed_has x ip).
  { intros ip. unfold line_lists. rewrite Ec, El. split.
    - intros (_ & x & [= ->] & ?). eauto.
    - intros (x & -> & ?). eauto. }
  assert (Hcons : forall ip, (exists x, x ∈ raw :: ls /\ line_lists x ip) <->
    line_lists raw ip \/ exists x, x ∈ ls /\ line_lists x ip).
  { intros ip. split.
    - intros (x & [->|Hx]%elem_of_cons & Hl); eauto.
    - intros [Hl|(x & Hx & Hl)]; [exists raw; split; [left|done]|exists x; split; [by right|done]]. }
  destruct r as [[s e|s e]|]; intros [= <- <-].
  - apply parse_line_wf in El. cbn in El. split_and!; [constructor; [split; cbn; lia|done]|done| |].
    + intros ip. rewrite listed_cons, H4, Hcons, Hline. unfold in_range. cbn [fst snd].
      split; (intros [H|H]; [left|by right]); [eauto|by destruct H as (x & [= <-] & ?)].
    + intros ip. rewrite H6, Hcons, Hline. split; [by right|]. intros [(x & [= <-] & [])|]; done.
  - apply parse_line_wf in El. cbn in El. split_and!; [done|constructor; [split; cbn; lia|done]| |].
    + intros ip. rewrite H4, Hcons, Hline. split; [by right|]. intros [(x & [= <-] & [])|]; done.
    + intros ip. rewrite listed_cons, H6, Hcons, Hline. unfold in_range. cbn [fst snd].
      split; (intros [H|H]; [left|by right]); [eauto|by destruct H as (x & [= <-] & ?)].
  - split_and!; try done; intros ip; rewrite ?H4, ?H6, Hcons, Hline; (split; [by right|intros [(x & ? & _)|]; done]).
Qed.

(** C35: the IP filter is exact: for a file that parses, the binary search in the
    merged ranges gives the same verdict on every address, without going out of
    bounds, as reading the file line by line and asking whether some line that is
    not a comment names the address; and the merged ranges are sorted, disjoint
    and not adjacent. *)
Theorem ip_filter_exact text f :
  parse text = Ok f ->
  StronglySorted apart (v4 f) /\ StronglySorted apart (v6 f) /\
  forall ip, exists hit, contains f ip = Some hit /\
    (hit = true <-> exists raw, raw ∈ lines (strip_bom text) /\ line_lists raw ip).
Proof.
  unfold parse. fold (strip_bom text).
  destruct (parse_lines 1 (lines (strip_bom text))) as [[a b]|] eqn:E; [|done]. intros [= <-].
  apply parse_lines_spec in E as (Ha & Hb & H4 & H6).
  destruct (merge_ranges_spec U32_MAX a Ha) as (Hs4 & Hw4 & Hl4).
  destruct (merge_ranges_spec U128_MAX b Hb) as (Hs6 & Hw6 & Hl6).
  cbn [v4 v6]. split_and!; [done|done|]. intros [ip|ip]; cbn [contains v4 v6].
  - rewrite contains_range_spec by done. eexists. split; [done|]. by rewrite bool_decide_eq_true, Hl4, H4.
  - rewrite contains_range_spec by done. eexists. split; [done|]. by rewrite bool_decide_eq_true, Hl6, H6.
Qed.

Definition sample_list : list Z :=
  str "# bad hosts" ++ [13; 10] ++ str "10.0.0.0/8" ++ [10] ++ str "11.0.0.0 - 11.0.0.9 , 100 , next" ++ [10].

Definition sample_filter : IpFilter :=
  match parse sample_list with Ok f => f | Err _ => empty_filter end.

Example sample_merged : v4 sample_filter = [(167772160, 184549385)].
Proof. vm_compute. reflexivity. Qed.

Lemma ip_filter_exact_witness :
  StronglySorted apart (v4 sample_filter) /\ StronglySorted apart (v6 sample_filter) /\
  forall ip, exists hit, contains sample_filter ip = Some hit /\
    (hit = true <-> exists raw, raw ∈ lines (strip_bom sample_list) /\ line_lists raw ip).
Proof. apply (ip_filter_exact sample_list). vm_compute. reflexivity. Defined.

(** An IPv4 range of the list does not cover the IPv4-mapped IPv6 form of its
    addresses: with 10.0.0.0/8 blocked, 10.1.2.3 is blocked and ::ffff:10.1.2.3,
    which reaches the same host, is not. *)
Theorem mapped_address_not_blocked :
  let s := filter_open (Some (mkDisk (Some (str "10.0.0.0/8")) None)) 0 in
  (fst <$> blocks (V4 167838211 6881) s) = Some true /\
  (fst <$> blocks (V6 (65535 * 2 ^ 32 + 167838211) 6881 0 0) s) = Some false.
Proof. split; vm_compute; reflexivity. Qed.

(** A file that cannot be read or parsed leaves the list in use as it is. *)
Lemma reload_keeps disk now s : load_file disk = None -> filter_reload disk now s = s.
Proof. intros E. unfold filter_reload, apply_load. rewrite E. by destruct (fs_enabled s). Qed.
