(* ===== verification/UdpTracker.v ===== *)
(** * UDP trackers (crates/bit_rev/src/protocol_udp.rs, BEP 15)

    The packets, the connection cache and the retry loops of [UdpTracker].  The
    network is a [World]: a clock and the datagrams that are going to arrive on
    the socket, each at its instant (or an I/O error in place of one), together
    with the log of what was sent.  Name resolution, binding, sending and the
    random transaction ids are parameters.

    [None] is a panic: a slice out of bounds or one of the [expect]s. *)

From S2P Require Import Prelude Utf8 Text.

Definition PROTOCOL_ID : u64 := 4497486125440.
Definition ACTION_CONNECT : u32 := 0.
Definition ACTION_ANNOUNCE : u32 := 1.
Definition ACTION_ERROR : u32 := 3.
Definition CONNECTION_TTL : Duration := secs 60.
Definition TIMEOUT_BASE_SECS : u64 := 15.
Definition ANNOUNCE_REQUEST_LEN : nat := 98.
Definition CONNECT_REQUEST_LEN : nat := 16.
Definition CONNECT_RESPONSE_LEN : nat := 16.
Definition ANNOUNCE_RESPONSE_HEADER_LEN : nat := 20.
Definition ERROR_HEADER_LEN : nat := 8.
Definition IPV4_PEER_LEN : nat := 6.
Definition IPV6_PEER_LEN : nat := 18.

Inductive UdpTrackerError :=
| TrackerMessage (m : bytes)
| Timeout
| InvalidUrl
| Resolve
| Io.

Record AnnounceLimits := mkLimits {
  max_connect_n : nat;
  max_announce_n : nat;
  max_total_wait : Duration }.

Definition LIMITS_DEFAULT : AnnounceLimits := mkLimits 3 3 (secs 120).
Definition LIMITS_STOPPED : AnnounceLimits := mkLimits 0 0 (secs 5).

Record CachedConnection := mkCached { cc_id : u64; obtained_at : Instant; cc_addr : SocketAddr }.

Record UdpTracker := mkUdpTracker {
  ut_url : bytes;
  ut_socket : bool;
  ut_connection : option CachedConnection;
  ut_resolved : option SocketAddr }.

Record UdpAnnounceResponse := mkUdpResponse {
  interval : u32;
  leechers : u32;
  seeders : u32;
  peers : list SocketAddr }.

Inductive Packet (T : Type) :=
| Valid (x : T)
| PacketError (m : bytes)
| Ignore.
#[global] Arguments Valid {T} x.
#[global] Arguments PacketError {T} m.
#[global] Arguments Ignore {T}.

Inductive UdpPacket :=
| UdpConnect (transaction_id : u32) (connection_id : u64)
| UdpAnnounce (transaction_id : u32) (response : UdpAnnounceResponse)
| UdpError (transaction_id : u32) (m : bytes)
| UdpIgnore.

(** ** [file.rs]: what is announced *)

Inductive AnnounceEvent := Started | Stopped | Completed.

Definition as_udp (e : AnnounceEvent) : u32 :=
  match e with Completed => 1 | Started => 2 | Stopped => 3 end.

Record AnnounceParams := mkAnnounceParams {
  ap_uploaded : u64;
  ap_downloaded : u64;
  ap_left : u64;
  ap_port : u16;
  ap_event : option AnnounceEvent;
  ap_numwant : u32;
  ap_key : u32;
  ap_tracker_id : option bytes }.

Definition udp_event (event : option AnnounceEvent) : u32 :=
  match event with Some e => as_udp e | None => 0 end.

(** [i32::try_from(n).unwrap_or(i32::MAX)] *)
Definition udp_num_want (numwant : u32) : Z := if numwant <=? 2147483647 then numwant else 2147483647.

(** ** Requests *)

Record AnnounceRequest := mkAnnounceRequest {
  q_connection_id : u64;
  q_transaction_id : u32;
  q_info_hash : bytes;
  q_peer_id : bytes;
  q_downloaded : u64;
  q_left : u64;
  q_uploaded : u64;
  q_event : u32;
  q_ip : u32;
  q_key : u32;
  q_num_want : Z;
  q_port : u16 }.

Definition build_connect_request (transaction_id : u32) : bytes :=
  be_bytes 8 PROTOCOL_ID ++ be_bytes 4 ACTION_CONNECT ++ be_bytes 4 transaction_id.

(** The fields are copied to consecutive ranges that cover the buffer. *)
Definition build_announce_request (req : AnnounceRequest) : bytes :=
  be_bytes 8 (q_connection_id req) ++ be_bytes 4 ACTION_ANNOUNCE ++ be_bytes 4 (q_transaction_id req) ++
  q_info_hash req ++ q_peer_id req ++
  be_bytes 8 (q_downloaded req) ++ be_bytes 8 (q_left req) ++ be_bytes 8 (q_uploaded req) ++
  be_bytes 4 (q_event req) ++ be_bytes 4 (q_ip req) ++ be_bytes 4 (q_key req) ++
  be_bytes 4 (q_num_want req) ++ be_bytes 2 (q_port req).

(** ** Responses *)

(** [data.get(offset..offset + n)], big-endian. *)
Definition read_u32 (data : bytes) (offset : nat) : option u32 := of_be <$> slice data offset (offset + 4).
Definition read_u64 (data : bytes) (offset : nat) : option u64 := of_be <$> slice data offset (offset + 8).

Inductive Header := HeaderOk | HeaderError (m : bytes) | HeaderIgnore.

Definition classify_header (data : bytes) (expected_tid expected_action : u32) (min_ok_len : nat)
    : option Header :=
  if (length data <? ERROR_HEADER_LEN)%nat then Some HeaderIgnore
  else match read_u32 data 0, read_u32 data 4 with
  | Some action, Some tid =>
      if negb (tid =? expected_tid) then Some HeaderIgnore
      else if action =? ACTION_ERROR then
        m ← slice data ERROR_HEADER_LEN (length data);
        Some (HeaderError (utf8_lossy m))
      else if negb (action =? expected_action) || (length data <? min_ok_len)%nat then Some HeaderIgnore
      else Some HeaderOk
  | _, _ => Some HeaderIgnore
  end.

Definition parse_connect_response (data : bytes) (expected_tid : u32) : option (Packet u64) :=
  h ← classify_header data expected_tid ACTION_CONNECT CONNECT_RESPONSE_LEN;
  Some (match h with
        | HeaderIgnore => Ignore
        | HeaderError m => PacketError m
        | HeaderOk => match read_u64 data 8 with Some id => Valid id | None => Ignore end
        end).

Definition parse_ipv4_peer (chunk : bytes) : option SocketAddr :=
  if negb (length chunk =? IPV4_PEER_LEN)%nat then None
  else Some (V4 (of_be (take 4 chunk)) (of_be (drop 4 chunk))).

Definition parse_ipv6_peer (chunk : bytes) : option SocketAddr :=
  if negb (length chunk =? IPV6_PEER_LEN)%nat then None
  else Some (V6 (of_be (take 16 chunk)) (of_be (drop 16 chunk)) 0 0).

Fixpoint parse_each (f : bytes -> option SocketAddr) (chunks : list bytes) : option (list SocketAddr) :=
  match chunks with
  | [] => Some []
  | c :: chunks => p ← f c; ps ← parse_each f chunks; Some (p :: ps)
  end.

Definition parse_peers (rest : bytes) (ipv6 : bool) : option (list SocketAddr) :=
  let entry_len := if ipv6 then IPV6_PEER_LEN else IPV4_PEER_LEN in
  if negb (length rest mod entry_len =? 0)%nat then None
  else parse_each (if ipv6 then parse_ipv6_peer else parse_ipv4_peer) (as_chunks entry_len rest).

Definition parse_announce_body (data : bytes) (ipv6 : bool) : option (Packet UdpAnnounceResponse) :=
  match read_u32 data 8, read_u32 data 12, read_u32 data 16 with
  | Some interval, Some leechers, Some seeders =>
      rest ← slice data ANNOUNCE_RESPONSE_HEADER_LEN (length data);
      Some (match parse_peers rest ipv6 with
            | Some peers => Valid (mkUdpResponse interval leechers seeders peers)
            | None => Ignore
            end)
  | _, _, _ => Some Ignore
  end.

Definition parse_announce_response (data : bytes) (expected_tid : u32) (ipv6 : bool)
    : option (Packet UdpAnnounceResponse) :=
  h ← classify_header data expected_tid ACTION_ANNOUNCE ANNOUNCE_RESPONSE_HEADER_LEN;
  match h with
  | HeaderIgnore => Some Ignore
  | HeaderError m => Some (PacketError m)
  | HeaderOk => parse_announce_body data ipv6
  end.

Definition announce_packet (tid : u32) (p : Packet UdpAnnounceResponse) : UdpPacket :=
  match p with
  | Valid response => UdpAnnounce tid response
  | PacketError m => UdpError tid m
  | Ignore => UdpIgnore
  end.

Definition parse_udp_packet (data : bytes) : option UdpPacket :=
  if (length data <? ERROR_HEADER_LEN)%nat then Some UdpIgnore
  else match read_u32 data 0, read_u32 data 4 with
  | Some action, Some tid =>
      if action =? ACTION_CONNECT then
        p ← parse_connect_response data tid;
        Some (match p with
              | Valid id => UdpConnect tid id
              | PacketError m => UdpError tid m
              | Ignore => UdpIgnore
              end)
      else if action =? ACTION_ANNOUNCE then
        p ← parse_announce_response data tid false;
        match p with
        | Ignore => p ← parse_announce_response data tid true; Some (announce_packet tid p)
        | p => Some (announce_packet tid p)
        end
      else if action =? ACTION_ERROR then
        m ← slice data ERROR_HEADER_LEN (length data); Some (UdpError tid (utf8_lossy m))
      else Some UdpIgnore
  | _, _ => Some UdpIgnore
  end.

(** ** URLs *)

Definition ascii_lower (b : u8) : u8 := if (65 <=? b) && (b <=? 90) then b + 32 else b.

(** [url.get(..6)] is refused inside a character as well: a byte above 127 never
    equals one of the scheme. *)
Definition is_udp_url (url : bytes) : bool :=
  bool_decide (map ascii_lower (take 6 url) = str "udp://").

Definition parse_udp_host_port (url : bytes) : result bytes UdpTrackerError :=
  if negb (is_udp_url url) then Err InvalidUrl
  else match split_on (Z.eqb 47) (drop 6 url) with
       | [] | [] :: _ => Err InvalidUrl
       | host_port :: _ => Ok host_port
       end.

Definition is_ipv6 (a : SocketAddr) : bool := match a with V6 _ _ _ _ => true | V4 _ _ => false end.

(** [addrs.into_iter().min_by_key(|a| a.is_ipv6())]: the first IPv4 address, or
    the first address. *)
Definition pick_addr (preferred : option SocketAddr) (addrs : list SocketAddr) : option SocketAddr :=
  match preferred with
  | Some prev => if decide (prev ∈ addrs) then Some prev
                 else min_by_key (fun a => if is_ipv6 a then 1 else 0) addrs
  | None => min_by_key (fun a => if is_ipv6 a then 1 else 0) addrs
  end.

(** ** The exchange *)

Record World := mkWorld {
  w_now : Instant;
  w_arrivals : list (Instant * option bytes);
  w_sent : list bytes }.

Definition timeout_for (n : nat) : Duration := secs (TIMEOUT_BASE_SECS * 2 ^ Z.of_nat (Nat.min n 8)).
Definition remaining_until (deadline now : Instant) : Duration := Z.max 0 (deadline - now).

(** The loop of [recv_packet] until [deadline]; one arrival is consumed per
    turn. *)
Fixpoint recv_loop {T} (parse : bytes -> option (Packet T)) (deadline now : Instant)
    (arrivals : list (Instant * option bytes))
    : option (result T UdpTrackerError * Instant * list (Instant * option bytes)) :=
  if remaining_until deadline now =? 0 then Some (Err Timeout, now, arrivals)
  else match arrivals with
  | [] => Some (Err Timeout, deadline, [])
  | (t, d) :: rest =>
      if deadline <? t then Some (Err Timeout, deadline, arrivals)
      else
        let now := Z.max now t in
        match d with
        | None => Some (Err Io, now, rest)
        | Some data =>
            p ← parse data;
            match p with
            | Valid value => Some (Ok value, now, rest)
            | PacketError m => Some (Err (TrackerMessage m), now, rest)
            | Ignore => recv_loop parse deadline now rest
            end
        end
  end.

Definition recv_packet {T} (parse : bytes -> option (Packet T)) (wait : Duration) (w : World)
    : option (result T UdpTrackerError * World) :=
  '(r, now, arrivals) ← recv_loop parse (w_now w + wait) (w_now w) (w_arrivals w);
  Some (r, mkWorld now arrivals (w_sent w)).

Section Exchange.
(** The [n]-th transaction id drawn and whether the [n]-th send succeeds. *)
Context (tid : nat -> u32) (send_ok : nat -> bool).
(** Whether binding a socket and connecting it to an address succeed. *)
Context (bind_ok connect_ok : SocketAddr -> bool).

(** [socket().send(request)]; [None] without a socket. *)
Definition send (t : UdpTracker) (request : bytes) (w : World) : option (result () UdpTrackerError * World) :=
  if negb (ut_socket t) then None
  else if send_ok (length (w_sent w)) then Some (Ok (), mkWorld (w_now w) (w_arrivals w) (w_sent w ++ [request]))
  else Some (Err Io, w).

Definition ensure_transport (t : UdpTracker) (addr : SocketAddr) : result () UdpTrackerError * UdpTracker :=
  let family_changed := match ut_resolved t with
                        | Some prev => negb (Bool.eqb (is_ipv6 prev) (is_ipv6 addr))
                        | None => false end in
  if negb (ut_socket t) || family_changed then
    if bind_ok addr && connect_ok addr then (Ok (), mkUdpTracker (ut_url t) true None (Some addr))
    else (Err Io, t)
  else if negb (bool_decide (ut_resolved t = Some addr)) then
    if connect_ok addr then (Ok (), mkUdpTracker (ut_url t) (ut_socket t) None (Some addr))
    else (Err Io, t)
  else (Ok (), t).

Definition cached_connection_id (t : UdpTracker) (now : Instant) : option u64 :=
  cached ← ut_connection t;
  addr ← ut_resolved t;
  if bool_decide (cc_addr cached = addr) && (since now (obtained_at cached) <? CONNECTION_TTL)
  then Some (cc_id cached) else None.

(** One turn of the loop of [obtain_connection], the [n]-th; [next] is what follows
    a timeout. *)
Definition connect_round (next : World -> option (result u64 UdpTrackerError * UdpTracker * World))
    (n : nat) (deadline : Instant) (t : UdpTracker) (w : World)
    : option (result u64 UdpTrackerError * UdpTracker * World) :=
  let wait := Z.min (timeout_for n) (remaining_until deadline (w_now w)) in
  if wait =? 0 then Some (Err Timeout, t, w)
  else
    let id := tid (length (w_sent w)) in
    '(s, w) ← send t (build_connect_request id) w;
    match s with
    | Err e => Some (Err e, t, w)
    | Ok _ =>
        '(r, w) ← recv_packet (fun data => parse_connect_response data id) wait w;
        match r with
        | Ok cid =>
            addr ← ut_resolved t;
            Some (Ok cid, mkUdpTracker (ut_url t) (ut_socket t) (Some (mkCached cid (w_now w) addr)) (ut_resolved t), w)
        | Err Timeout => next w
        | Err e => Some (Err e, t, w)
        end
    end.

(** [n] attempts were made, [retries] may follow. *)
Fixpoint connect_loop (retries n : nat) (deadline : Instant) (t : UdpTracker) (w : World)
    : option (result u64 UdpTrackerError * UdpTracker * World) :=
  connect_round (fun w =>
      match retries with
      | O => Some (Err Timeout, t, w)
      | S retries => connect_loop retries (S n) deadline t w
      end) n deadline t w.

Definition obtain_connection (max_n : nat) (deadline : Instant) (t : UdpTracker) (w : World)
    : option (result u64 UdpTrackerError * UdpTracker * World) :=
  match cached_connection_id t (w_now w) with
  | Some id => Some (Ok id, t, w)
  | None => connect_loop max_n 0 deadline t w
  end.

(** One turn of the loop of [announce_with_limits]. *)
Definition announce_round
    (next : UdpTracker -> World -> option (result UdpAnnounceResponse UdpTrackerError * UdpTracker * World))
    (n : nat) (limits : AnnounceLimits) (deadline : Instant) (ipv6 : bool)
    (info_hash peer_id : bytes) (params : AnnounceParams) (t : UdpTracker) (w : World)
    : option (result UdpAnnounceResponse UdpTrackerError * UdpTracker * World) :=
  if remaining_until deadline (w_now w) =? 0 then Some (Err Timeout, t, w)
  else
    '(c, t, w) ← obtain_connection (max_connect_n limits) deadline t w;
    match c with
    | Err e => Some (Err e, t, w)
    | Ok connection_id =>
        let wait := Z.min (timeout_for n) (remaining_until deadline (w_now w)) in
        if wait =? 0 then Some (Err Timeout, t, w)
        else
          let id := tid (length (w_sent w)) in
          let request := build_announce_request (mkAnnounceRequest connection_id id info_hash peer_id
            (ap_downloaded params) (ap_left params) (ap_uploaded params) (udp_event (ap_event params)) 0
            (ap_key params) (udp_num_want (ap_numwant params)) (ap_port params)) in
          '(s, w) ← send t request w;
          match s with
          | Err e => Some (Err e, t, w)
          | Ok _ =>
              '(r, w) ← recv_packet (fun data => parse_announce_response data id ipv6) wait w;
              match r with
              | Ok response => Some (Ok response, t, w)
              | Err Timeout => next t w
              | Err e => Some (Err e, t, w)
              end
          end
    end.

Fixpoint announce_loop (retries n : nat) (limits : AnnounceLimits) (deadline : Instant) (ipv6 : bool)
    (info_hash peer_id : bytes) (params : AnnounceParams) (t : UdpTracker) (w : World)
    : option (result UdpAnnounceResponse UdpTrackerError * UdpTracker * World) :=
  announce_round (fun t w =>
      match retries with
      | O => Some (Err Timeout, t, w)
      | S retries => announce_loop retries (S n) limits deadline ipv6 info_hash peer_id params t w
      end) n limits deadline ipv6 info_hash peer_id params t w.

(** [dns] is what the resolver answers and how long it takes. *)
Definition announce_with_limits (dns : option (list SocketAddr) * Duration) (info_hash peer_id : bytes)
    (params : AnnounceParams) (limits : AnnounceLimits) (t : UdpTracker) (w : World)
    : option (result UdpAnnounceResponse UdpTrackerError * UdpTracker * World) :=
  let deadline := w_now w + max_total_wait limits in
  match parse_udp_host_port (ut_url t) with
  | Err e => Some (Err e, t, w)
  | Ok _ =>
      let w := mkWorld (w_now w + snd dns) (w_arrivals w) (w_sent w) in
      match addrs ← fst dns; pick_addr (ut_resolved t) addrs with
      | None => Some (Err Resolve, t, w)
      | Some addr =>
          let '(r, t) := ensure_transport t addr in
          match r with
          | Err e => Some (Err e, t, w)
          | Ok _ => announce_loop (max_announce_n limits) 0 limits deadline (is_ipv6 addr) info_hash peer_id params t w
          end
      end
  end.
End Exchange.

(** ** The parsers return *)

Lemma rest_total (data : bytes) n : (n <= length data)%nat -> slice data n (length data) = Some (drop n data).
Proof. intros H. rewrite slice_total by lia. by rewrite take_ge by (rewrite length_drop; lia). Qed.

Lemma classify_total data id act n : is_Some (classify_header data id act n).
Proof.
  unfold classify_header. destruct (Nat.ltb_spec (length data) ERROR_HEADER_LEN) as [|Hl]; [by eexists|].
  unfold ERROR_HEADER_LEN in *. destruct (read_u32 data 0), (read_u32 data 4); try by eexists.
  destruct (negb _); [by eexists|]. destruct (_ =? ACTION_ERROR); [|case_match; by eexists].
  rewrite rest_total by lia. by eexists.
Qed.

Lemma classify_ok_len data id act n : classify_header data id act n = Some HeaderOk -> (n <= length data)%nat.
Proof.
  unfold classify_header. destruct (length data <? ERROR_HEADER_LEN)%nat; [done|].
  destruct (read_u32 data 0), (read_u32 data 4); try done. destruct (negb _); [done|].
  destruct (_ =? ACTION_ERROR); [by destruct (slice _ _ _)|].
  destruct (negb _); [done|]. cbn [orb]. by destruct (Nat.ltb_spec (length data) n).
Qed.

Lemma parse_connect_total data id : is_Some (parse_connect_response data id).
Proof.
  unfold parse_connect_response. destruct (classify_total data id ACTION_CONNECT CONNECT_RESPONSE_LEN) as [h ->].
  by eexists.
Qed.

Lemma parse_announce_total data id v6 : is_Some (parse_announce_response data id v6).
Proof.
  unfold parse_announce_response.
  destruct (classify_total data id ACTION_ANNOUNCE ANNOUNCE_RESPONSE_HEADER_LEN) as [h E]. rewrite E. red_bind.
  destruct h; [|by eexists..]. apply classify_ok_len in E. unfold parse_announce_body.
  destruct (read_u32 data 8), (read_u32 data 12), (read_u32 data 16); try by eexists.
  rewrite rest_total by done. by eexists.
Qed.

(** ** Time and traffic *)

(** From [w] to [w'] the clock does not pass [deadline], at most [k] datagrams are
    sent and arrivals are taken in order. *)
Record advances (deadline : Instant) (k : nat) (w w' : World) : Prop := {
  adv_now : w_now w <= w_now w' <= Z.max (w_now w) deadline;
  adv_sent : exists sent, w_sent w' = w_sent w ++ sent /\ (length sent <= k)%nat;
  adv_arrivals : exists taken, w_arrivals w = taken ++ w_arrivals w' }.

Lemma advances_refl deadline w : advances deadline 0 w w.
Proof. split; [lia|exists []; by rewrite app_nil_r|by exists []]. Qed.

Lemma advances_trans deadline k1 k2 w1 w2 w3 :
  advances deadline k1 w1 w2 -> advances deadline k2 w2 w3 -> advances deadline (k1 + k2) w1 w3.
Proof.
  intros [H1 (s1 & E1 & L1) (a1 & A1)] [H2 (s2 & E2 & L2) (a2 & A2)]. split; [lia| |].
  - exists (s1 ++ s2). rewrite E2, E1, app_assoc, length_app. split; [done|lia].
  - exists (a1 ++ a2). by rewrite A1, A2, app_assoc.
Qed.

Lemma advances_le deadline k k' w w' : advances deadline k w w' -> (k <= k')%nat -> advances deadline k' w w'.
Proof. intros [H1 (s & E & L) H3] Hk. split; [done| |done]. exists s. split; [done|lia]. Qed.

Lemma recv_loop_spec {T} (parse : bytes -> option (Packet T)) deadline now arrivals :
  (forall d, is_Some (parse d)) -> now <= deadline ->
  exists r now' arrivals', recv_loop parse deadline now arrivals = Some (r, now', arrivals') /\
    now <= now' <= deadline /\ (exists taken, arrivals = taken ++ arrivals') /\
    forall v, r = Ok v -> exists t d, (t, Some d) ∈ arrivals /\ parse d = Some (Valid v).
Proof.
  intros Hp. revert now. induction arrivals as [|[t d] rest IH]; intros now Hn; cbn [recv_loop];
    unfold remaining_until; (destruct (Z.eqb_spec (Z.max 0 (deadline - now)) 0);
      [eexists _, _, _; split; [done|]; split_and!; [lia|lia|by exists []|done]|]).
  { eexists _, _, _. split; [done|]. split_and!; [lia|lia|by exists []|done]. }
  destruct (Z.ltb_spec deadline t); [eexists _, _, _; split; [done|]; split_and!; [lia|lia|by exists []|done]|].
  destruct d as [data|].
  - destruct (Hp data) as [p Ep]. rewrite Ep. red_bind. destruct p as [v|m|].
    + eexists _, _, _. split; [done|]. split_and!; [lia|lia|by exists [(t, Some data)]|].
      intros v' [= <-]. exists t, data. split; [left|done].
    + eexists _, _, _. split; [done|]. split_and!; [lia|lia|by exists [(t, Some data)]|done].
    + destruct (IH (Z.max now t)) as (r & now' & arr & E & ? & (tk & ->) & Hv); [lia|].
      exists r, now', arr. split; [done|]. split_and!; [lia|lia|by exists ((t, Some data) :: tk)|].
      intros v Hr. destruct (Hv v Hr) as (t' & d & Hin & ?). exists t', d. split; [by right|done].
  - eexists _, _, _. split; [done|]. split_and!; [lia|lia|by exists [(t, None)]|done].
Qed.

Lemma recv_packet_spec {T} (parse : bytes -> option (Packet T)) deadline wait w :
  (forall d, is_Some (parse d)) -> 0 <= wait -> w_now w + wait <= deadline ->
  exists r w', recv_packet parse wait w = Some (r, w') /\ advances deadline 0 w w' /\
    forall v, r = Ok v -> exists t d, (t, Some d) ∈ w_arrivals w /\ parse d = Some (Valid v).
Proof.
  intros Hp Hw Hd. unfold recv_packet.
  destruct (recv_loop_spec parse (w_now w + wait) (w_now w) (w_arrivals w) Hp) as (r & now' & arr & E & ? & ? & Hv); [lia|].
  rewrite E. red_bind. eexists _, _. split; [done|]. split; [|done].
  split; cbn; [lia|exists []; by rewrite app_nil_r|done].
Qed.

(** ** The exchange *)

Section ExchangeProofs.
Context (tid : nat -> u32) (send_ok : nat -> bool).

(** The socket is there and the tracker's address is known. *)
Definition ready (t : UdpTracker) : Prop := ut_socket t = true /\ is_Some (ut_resolved t).

Lemma send_spec deadline t request w :
  ready t ->
  exists r w', send send_ok t request w = Some (r, w') /\ advances deadline 1 w w' /\ w_now w' = w_now w /\
    w_arrivals w' = w_arrivals w /\ (r = Ok () -> w_sent w' = w_sent w ++ [request]).
Proof.
  intros [Hs _]. unfold send. rewrite Hs. cbn [negb]. destruct (send_ok _).
  - eexists _, _. split; [done|]. split_and!; try done. split; cbn; [lia|by exists [request]|by exists []].
  - eexists _, _. split; [done|]. split_and!; try done. eapply advances_le; [apply advances_refl|lia].
Qed.

(** A connection id the tracker gave: it answers a connect request that was sent,
    in a datagram that arrived. *)
Definition granted (w0 w : World) (cid : u64) : Prop :=
  exists id t d, build_connect_request id ∈ w_sent w /\ (t, Some d) ∈ w_arrivals w0 /\
    parse_connect_response d id = Some (Valid cid).

Lemma granted_mono deadline k w0 w1 w1' w cid :
  granted w1 w1' cid -> (exists taken, w_arrivals w0 = taken ++ w_arrivals w1) ->
  advances deadline k w1' w -> granted w0 w cid.
Proof.
  intros (id & t & d & Hs & Ha & Hp) (tk & E) [_ (s & Es & _) _]. exists id, t, d. split_and!; [|rewrite E|done].
  - rewrite Es. apply elem_of_app. by left.
  - apply elem_of_app. by right.
Qed.

(** What [obtain_connection] leaves behind. *)
Definition connected (t t' : UdpTracker) (w w' : World) (cid : u64) : Prop :=
  exists c, ut_connection t' = Some c /\ cc_id c = cid /\
    (ut_connection t = Some c /\ since (w_now w) (obtained_at c) < CONNECTION_TTL \/
     granted w w' cid /\ w_now w <= obtained_at c <= w_now w').

Definition same_socket (t t' : UdpTracker) : Prop := ut_socket t' = ut_socket t /\ ut_resolved t' = ut_resolved t.

(** The outcome of connecting with at most [k] requests. *)
Definition connect_ok (k : nat) (deadline : Instant) (t : UdpTracker) (w : World)
    (o : option (result u64 UdpTrackerError * UdpTracker * World)) : Prop :=
  exists r t' w', o = Some (r, t', w') /\ advances deadline k w w' /\ same_socket t t' /\
    (forall cid, r = Ok cid -> connected t t' w w' cid).

(** Ending in an error without another request. *)
Lemma connect_stop k deadline t w w' e :
  advances deadline k w w' -> connect_ok k deadline t w (Some (Err e, t, w')).
Proof. intros H. eexists _, _, _. split; [done|]. by split_and!. Qed.

Lemma wait_bounds n deadline now :
  let wait := Z.min (timeout_for n) (remaining_until deadline now) in
  wait <> 0 -> 0 <= wait /\ now + wait <= deadline.
Proof.
  unfold remaining_until, timeout_for, secs, TIMEOUT_BASE_SECS. cbn zeta.
  pose proof (Z.pow_pos_nonneg 2 (Z.of_nat (Nat.min n 8)) ltac:(lia) ltac:(lia)). lia.
Qed.

Lemma connected_later deadline k t t' w w1 w' cid :
  advances deadline k w w1 -> connected t t' w1 w' cid -> connected t t' w w' cid.
Proof.
  intros A (c & Ec & Ei & Hor). exists c. split; [done|]. split; [done|]. pose proof (adv_now _ _ _ _ A).
  destruct Hor as [[Hk Ht]|[(id & tt & d & Hs & Ha & Hp) Ht]]; [left|right].
  - split; [done|]. unfold since in *. lia.
  - split; [|lia]. exists id, tt, d. split_and!; [done| |done]. destruct (adv_arrivals _ _ _ _ A) as [tk ->].
    apply elem_of_app. by right.
Qed.

Lemma connect_round_ok k next n deadline t w :
  ready t -> (forall w1, connect_ok k deadline t w1 (next w1)) ->
  connect_ok (S k) deadline t w (connect_round tid send_ok next n deadline t w).
Proof.
  intros Hr Hnext. unfold connect_round. destruct (Z.eqb_spec (Z.min (timeout_for n) (remaining_until deadline (w_now w))) 0)
    as [|Hw]; [apply connect_stop; eapply advances_le; [apply advances_refl|lia]|].
  apply wait_bounds in Hw. set (wait := Z.min _ _) in *. set (id := tid _).
  destruct (send_spec deadline t (build_connect_request id) w Hr) as (s & w1 & E1 & A1 & N1 & R1 & S1).
  rewrite E1. red_bind. destruct s as [[]|e]; [specialize (S1 eq_refl)|apply connect_stop; eapply advances_le; [exact A1|lia]].
  destruct (recv_packet_spec (fun d => parse_connect_response d id) deadline wait w1
    ltac:(intros; apply parse_connect_total) ltac:(lia) ltac:(lia)) as (r & w2 & E2 & A2 & V2).
  rewrite E2. red_bind. pose proof (advances_trans _ _ _ _ _ _ A1 A2) as A12. cbn [Nat.add] in A12.
  assert (A12' : advances deadline (S k) w w2) by (eapply advances_le; [exact A12|lia]).
  destruct r as [cid|e]; [|destruct e; try by apply connect_stop].
  - destruct Hr as [Hs [addr Ha]]. rewrite Ha. red_bind. eexists _, _, _. split; [done|].
    split_and!; [done|by split; cbn; rewrite ?Ha|]. intros cid' [= <-]. eexists. split; [done|]. split; [done|]. right.
    split; [|cbn; pose proof (adv_now _ _ _ _ A12); lia].
    destruct (V2 cid eq_refl) as (tt & d & Hd & Hp). exists id, tt, d. split_and!; [|by rewrite <- R1|done].
    destruct A2 as [_ (sx & -> & _) _]. rewrite S1, !elem_of_app. left. right. left.
  - destruct (Hnext w2) as (r & t' & w3 & E3 & A3 & S3 & C3). exists r, t', w3. split; [done|].
    split_and!; [by eapply (advances_trans _ 1)|done|]. intros cid Hc.
    eapply connected_later; [exact A12|by apply C3].
Qed.

Lemma connect_loop_ok retries n deadline t w :
  ready t -> connect_ok (S retries) deadline t w (connect_loop tid send_ok retries n deadline t w).
Proof.
  intros Hr. revert n w. induction retries as [|retries IH]; intros n w; cbn [connect_loop];
    apply connect_round_ok; [done| |done|].
  - intros w1. apply connect_stop, advances_refl.
  - intros w1. apply IH.
Qed.

Lemma obtain_connection_ok max_n deadline t w :
  ready t -> connect_ok (S max_n) deadline t w (obtain_connection tid send_ok max_n deadline t w).
Proof.
  intros Hr. unfold obtain_connection. destruct (cached_connection_id t (w_now w)) as [id|] eqn:E;
    [|by apply connect_loop_ok]. eexists _, _, _. split; [done|].
  split_and!; [eapply advances_le; [apply advances_refl|lia]|done|]. intros cid [= <-].
  unfold cached_connection_id in E. destruct (ut_connection t) as [c|] eqn:Ec; [|done]. cbn in E.
  destruct (ut_resolved t) as [addr|]; [|done]. cbn in E.
  destruct (bool_decide _); [|done]. destruct (Z.ltb_spec (since (w_now w) (obtained_at c)) CONNECTION_TTL); [|done].
  injection E as <-. exists c. rewrite Ec. split; [done|]. split; [done|]. by left.
Qed.

(** ** Announcing *)

(** Where a response comes from: a datagram that arrived, with the transaction id
    of the last request sent, which carried a connection id the tracker granted
    (just now, or less than a minute before the request was prepared). *)
Definition answered (ipv6 : bool) (info_hash peer_id : bytes) (t t' : UdpTracker) (w w' : World)
    (resp : UdpAnnounceResponse) : Prop :=
  exists req at_ d, last (w_sent w') = Some (build_announce_request req) /\
    q_info_hash req = info_hash /\ q_peer_id req = peer_id /\
    (at_, Some d) ∈ w_arrivals w /\
    parse_announce_response d (q_transaction_id req) ipv6 = Some (Valid resp) /\
    exists c, ut_connection t' = Some c /\ cc_id c = q_connection_id req /\
      (ut_connection t = Some c \/ granted w w' (cc_id c)).

Definition announce_ok (k : nat) (deadline : Instant) (ipv6 : bool) (info_hash peer_id : bytes)
    (t : UdpTracker) (w : World)
    (o : option (result UdpAnnounceResponse UdpTrackerError * UdpTracker * World)) : Prop :=
  exists r t' w', o = Some (r, t', w') /\ advances deadline k w w' /\ same_socket t t' /\
    (forall resp, r = Ok resp -> answered ipv6 info_hash peer_id t t' w w' resp).

Lemma announce_stop k deadline ipv6 ih pid t t' w w' e :
  advances deadline k w w' -> same_socket t t' ->
  announce_ok k deadline ipv6 ih pid t w (Some (Err e, t', w')).
Proof. intros H Hs. eexists _, _, _. split; [done|]. by split_and!. Qed.

Lemma same_ready t t' : same_socket t t' -> ready t -> ready t'.
Proof. intros [H1 H2] [? ?]. split; congruence. Qed.

Lemma answered_later deadline k ipv6 ih pid t t1 t' w w1 w' resp cid :
  advances deadline k w w1 -> connected t t1 w w1 cid ->
  answered ipv6 ih pid t1 t' w1 w' resp -> (exists s, w_sent w' = w_sent w1 ++ s) ->
  answered ipv6 ih pid t t' w w' resp.
Proof.
  intros A (c0 & Ec0 & Ei0 & Hor0) (req & at_ & d & Hl & Hi & Hp & Ha & Hv & c & Ec & Ei & Hor) (sx & Es).
  assert (Hin : forall x, x ∈ w_arrivals w1 -> x ∈ w_arrivals w).
  { intros x Hx. destruct (adv_arrivals _ _ _ _ A) as [tk ->]. apply elem_of_app. by right. }
  exists req, at_, d. split_and!; [done|done|done|by apply Hin|done|]. exists c. split; [done|]. split; [done|].
  destruct Hor as [Hc|(id & tt & dd & Hs & Hd & Hg)].
  - rewrite Ec0 in Hc. injection Hc as <-. destruct Hor0 as [[? _]|[(id & tt & dd & Hs & Hd & Hg) _]]; [by left|right].
    exists id, tt, dd. split_and!; [|done|congruence]. rewrite Es. apply elem_of_app. by left.
  - right. exists id, tt, dd. split_and!; [done|by apply Hin|done].
Qed.

Lemma announce_round_ok k next n limits deadline ipv6 ih pid params t w :
  ready t -> (forall t1 w1, ready t1 -> announce_ok k deadline ipv6 ih pid t1 w1 (next t1 w1)) ->
  announce_ok (max_connect_n limits + 2 + k) deadline ipv6 ih pid t w
    (announce_round tid send_ok next n limits deadline ipv6 ih pid params t w).
Proof.
  intros Hr Hnext. unfold announce_round. destruct (remaining_until deadline (w_now w) =? 0);
    [apply announce_stop; [eapply advances_le; [apply advances_refl|lia]|done]|].
  destruct (obtain_connection_ok (max_connect_n limits) deadline t w Hr) as (c & t1 & w1 & E1 & A1 & S1 & C1).
  rewrite E1. red_bind. pose proof (same_ready _ _ S1 Hr) as Hr1.
  destruct c as [cid|e]; [specialize (C1 cid eq_refl)|apply announce_stop; [eapply advances_le; [exact A1|lia]|done]].
  destruct (Z.eqb_spec (Z.min (timeout_for n) (remaining_until deadline (w_now w1))) 0) as [|Hw];
    [apply announce_stop; [eapply advances_le; [exact A1|lia]|done]|].
  apply wait_bounds in Hw. set (wait := Z.min _ _) in *. set (req := mkAnnounceRequest _ _ _ _ _ _ _ _ _ _ _ _).
  destruct (send_spec deadline t1 (build_announce_request req) w1 Hr1) as (s & w2 & E2 & A2 & N2 & R2 & L2).
  rewrite E2. red_bind. pose proof (advances_trans _ _ _ _ _ _ A1 A2) as A12.
  destruct s as [[]|e]; [specialize (L2 eq_refl)|apply announce_stop; [eapply advances_le; [exact A12|lia]|done]].
  destruct (recv_packet_spec (fun d => parse_announce_response d (tid (length (w_sent w1))) ipv6) deadline wait w2
    ltac:(intros; apply parse_announce_total) ltac:(lia) ltac:(lia)) as (r & w3 & E3 & A3 & V3).
  rewrite E3. red_bind. pose proof (advances_trans _ _ _ _ _ _ A12 A3) as A13. rewrite Nat.add_0_r in A13.
  assert (A13' : advances deadline (max_connect_n limits + 2 + k) w w3) by (eapply advances_le; [exact A13|lia]).
  destruct r as [resp|e]; [|destruct e; try by apply announce_stop].
  - eexists _, _, _. split; [done|]. split_and!; [done|done|]. intros resp' [= <-].
    destruct (V3 resp eq_refl) as (at_ & d & Hd & Hv). destruct A3 as [_ (sx & Es & Hsx) _].
    destruct sx; [|simpl in Hsx; lia]. rewrite app_nil_r in Es. exists req, at_, d.
    split_and!; [by rewrite Es, L2, last_snoc|done|done| |done|].
    + destruct (adv_arrivals _ _ _ _ A1) as [tk ->]. apply elem_of_app. right. by rewrite <- R2.
    + destruct C1 as (c & Ec & Ei & Hor). exists c. split; [done|]. split; [done|].
      destruct Hor as [[? _]|[(id & tt & dd & Hs & Hdd & Hg) _]]; [by left|right].
      exists id, tt, dd. rewrite Ei. split_and!; [|done|done]. rewrite Es, L2. apply elem_of_app. by left.
  - destruct (Hnext t1 w3 Hr1) as (r & t' & w4 & E4 & A4 & S4 & C4). exists r, t', w4. split; [done|].
    split_and!; [eapply advances_le; [eapply advances_trans; [exact A13|exact A4]|lia]
                |destruct S1, S4; split; congruence|].
    intros resp Hresp. eapply answered_later; [exact A13| |by apply C4|].
    + destruct C1 as (c & Ec & Ei & Hor). exists c. split; [done|]. split; [done|].
      destruct Hor as [?|[(id & tt & dd & Hs & Hdd & Hg) Hob]]; [by left|right]. split.
      * exists id, tt, dd. split_and!; [|done|done].
        destruct A3 as [_ (sx & -> & _) _]. rewrite L2, !elem_of_app. by left; left.
      * pose proof (adv_now _ _ _ _ A2). pose proof (adv_now _ _ _ _ A3). lia.
    + destruct (adv_sent _ _ _ _ A4) as (sx & ? & _). by exists sx.
Qed.

Lemma announce_loop_ok retries n limits deadline ipv6 ih pid params t w :
  ready t ->
  announce_ok (S retries * (max_connect_n limits + 2)) deadline ipv6 ih pid t w
    (announce_loop tid send_ok retries n limits deadline ipv6 ih pid params t w).
Proof.
  revert n t w. induction retries as [|retries IH]; intros n t w Hr; cbn [announce_loop].
  - rewrite Nat.mul_1_l, <- (Nat.add_0_r (_ + 2)). apply announce_round_ok; [done|].
    intros t1 w1 _. by apply announce_stop; [apply advances_refl|].
  - rewrite Nat.mul_succ_l, Nat.add_comm. apply announce_round_ok; [done|]. intros t1 w1 Hr1. by apply IH.
Qed.
End ExchangeProofs.

Lemma ensure_transport_ready bind_ok connect_ok t addr t' :
  ensure_transport bind_ok connect_ok t addr = (Ok (), t') ->
  ready t' /\ ut_resolved t' = Some addr /\ (ut_connection t' = ut_connection t \/ ut_connection t' = None).
Proof.
  unfold ensure_transport. destruct (ut_socket t) eqn:Es; cbn [negb orb].
  - destruct (match ut_resolved t with Some _ => _ | None => _ end);
      [destruct (_ && _); [|done]; intros [= <-]; unfold ready; cbn; eauto|].
    destruct (bool_decide _) eqn:Ed; cbn [negb].
    + apply bool_decide_eq_true in Ed. intros [= <-]. unfold ready. rewrite Ed. eauto.
    + destruct (connect_ok addr); [|done]. intros [= <-]. unfold ready; cbn. eauto.
  - destruct (_ && _); [|done]. intros [= <-]. unfold ready; cbn. eauto.
Qed.

(** C36: A UDP announce always comes back: whatever arrives on the socket (nothing,
    garbage, floods, errors), whatever fails to send or bind and whatever the
    resolver answers, it returns without a panic, not later than its time limit
    (or the end of the name lookup, if that takes longer), after at most
    [(max_announce_n + 1) * (max_connect_n + 2)] datagrams: 20 by default, 2 when
    the torrent is stopped. *)
Theorem udp_announce_bounded tid send_ok bind_ok connect_ok dns info_hash peer_id params limits t w :
  0 <= snd dns -> 0 <= max_total_wait limits ->
  exists r t' w',
    announce_with_limits tid send_ok bind_ok connect_ok dns info_hash peer_id params limits t w = Some (r, t', w') /\
    w_now w <= w_now w' <= w_now w + Z.max (max_total_wait limits) (snd dns) /\
    (length (w_sent w') <= length (w_sent w) + S (max_announce_n limits) * (max_connect_n limits + 2))%nat.
Proof.
  intros Hd Hm. unfold announce_with_limits. destruct (parse_udp_host_port (ut_url t)) as [hp|e];
    [|eexists _, _, _; split; [done|]; split; lia].
  destruct (addrs ← fst dns; _) as [addr|]; [|eexists _, _, _; split; [done|]; cbn; split; lia].
  destruct (ensure_transport bind_ok connect_ok t addr) as [[[]|e] t1] eqn:Et;
    [|eexists _, _, _; split; [done|]; cbn; split; lia].
  apply ensure_transport_ready in Et as (Hr & _).
  set (w1 := mkWorld (w_now w + snd dns) (w_arrivals w) (w_sent w)).
  destruct (announce_loop_ok tid send_ok (max_announce_n limits) 0 limits (w_now w + max_total_wait limits)
    (is_ipv6 addr) info_hash peer_id params t1 w1 Hr) as (r & t' & w' & E & A & _). rewrite E.
  exists r, t', w'. split; [done|]. destruct A as [Hn (sx & Es & Hl) _]. subst w1. cbn in *.
  rewrite Es, length_app. split; lia.
Qed.

Lemma udp_announce_bounded_witness :
  let w := mkWorld 0 [(secs 1, Some [1; 2; 3]); (secs 20, None)] [] in
  exists r t' w',
    announce_with_limits (fun n => Z.of_nat n) (fun _ => true) (fun _ => true) (fun _ => true)
      (Some [V4 1 80], 0) (replicate 20 1) (replicate 20 2) (mkAnnounceParams 0 0 1 6881 (Some Started) 50 7 None)
      LIMITS_DEFAULT (mkUdpTracker (str "udp://tracker:80/announce") false None None) w = Some (r, t', w') /\
    0 <= w_now w' <= 0 + Z.max (secs 120) 0 /\ (length (w_sent w') <= 0 + 4 * 5)%nat.
Proof.
  intros w. apply (udp_announce_bounded (fun n => Z.of_nat n) (fun _ => true) (fun _ => true) (fun _ => true)
    (Some [V4 1 80], 0) (replicate 20 1) (replicate 20 2) (mkAnnounceParams 0 0 1 6881 (Some Started) 50 7 None)
    LIMITS_DEFAULT (mkUdpTracker (str "udp://tracker:80/announce") false None None) w).
  - cbn. lia.
  - cbn. unfold secs. lia.
Defined.

(** A UDP announce believes only its tracker: a response that is returned was
    parsed from a datagram that arrived, whose transaction id is that of the last
    request sent; that request names the torrent and carries the connection id of
    the cached connection, which either was cached before or answers a connect
    request sent in this announce. *)
Theorem udp_announce_answered tid send_ok bind_ok connect_ok dns info_hash peer_id params limits t w resp t' w' :
  announce_with_limits tid send_ok bind_ok connect_ok dns info_hash peer_id params limits t w = Some (Ok resp, t', w') ->
  exists addr, ut_resolved t' = Some addr /\
  exists t1, answered (is_ipv6 addr) info_hash peer_id t1 t' w w' resp /\
    (ut_connection t1 = ut_connection t \/ ut_connection t1 = None).
Proof.
  unfold announce_with_limits. destruct (parse_udp_host_port (ut_url t)); [|done].
  destruct (addrs ← fst dns; _) as [addr|]; [|done].
  destruct (ensure_transport bind_ok connect_ok t addr) as [[[]|e] t1] eqn:Et; [|done].
  apply ensure_transport_ready in Et as (Hr & Ha & Hc).
  set (w1 := mkWorld (w_now w + snd dns) (w_arrivals w) (w_sent w)).
  destruct (announce_loop_ok tid send_ok (max_announce_n limits) 0 limits (w_now w + max_total_wait limits)
    (is_ipv6 addr) info_hash peer_id params t1 w1 Hr) as (r & t2 & w2 & E & _ & [_ S] & C). rewrite E.
  intros [= -> <- <-]. exists addr. split; [congruence|]. exists t1. split; [|done]. by apply C.
Qed.

(** ** The stand-alone packet classifier *)

Lemma parse_each_v4 chunks :
  Forall (fun c => length c = IPV4_PEER_LEN) chunks ->
  exists ps, parse_each parse_ipv4_peer chunks = Some ps /\ Forall (fun a => is_ipv6 a = false) ps.
Proof.
  induction 1 as [|c cs Hc _ (ps & E & Hp)]; [by exists []|]. cbn [parse_each].
  assert (parse_ipv4_peer c = Some (V4 (of_be (take 4 c)) (of_be (drop 4 c)))) as ->
    by (unfold parse_ipv4_peer; by rewrite Hc).
  red_bind. rewrite E. red_bind. eexists. split; [done|]. by constructor.
Qed.

Lemma parse_peers_v4 rest ps : parse_peers rest false = Some ps -> Forall (fun a => is_ipv6 a = false) ps.
Proof.
  unfold parse_peers. cbv zeta iota. destruct (negb _); [done|].
  destruct (parse_each_v4 _ (as_chunks_lengths IPV4_PEER_LEN rest)) as (qs & -> & ?). by intros [= <-].
Qed.

(** A list the IPv4 parser refuses is refused by the IPv6 parser as well: 18 is a
    multiple of 6. *)
Lemma parse_peers_v6_dead rest : parse_peers rest false = None -> parse_peers rest true = None.
Proof.
  unfold parse_peers. cbv zeta iota.
  destruct (parse_each_v4 _ (as_chunks_lengths IPV4_PEER_LEN rest)) as (qs & -> & _).
  destruct (Nat.eqb_spec (length rest mod IPV4_PEER_LEN) 0) as [|H6]; [done|]. intros _.
  destruct (Nat.eqb_spec (length rest mod IPV6_PEER_LEN) 0) as [H18|]; [|done]. destruct H6.
  apply Nat.Div0.mod_divides in H18 as [k ->]. unfold IPV4_PEER_LEN, IPV6_PEER_LEN.
  replace (18 * k)%nat with ((3 * k) * 6)%nat by lia. apply Nat.Div0.mod_mul.
Qed.

Lemma announce_v4 data id resp :
  parse_announce_response data id false = Some (Valid resp) -> Forall (fun a => is_ipv6 a = false) (peers resp).
Proof.
  unfold parse_announce_response. destruct (classify_header _ _ _ _) as [[]|]; try done. red_bind.
  unfold parse_announce_body. destruct (read_u32 data 8), (read_u32 data 12), (read_u32 data 16); try done.
  destruct (slice _ _ _); [|done]. red_bind. destruct (parse_peers _ _) eqn:E; [|done].
  intros [= <-]. by eapply parse_peers_v4.
Qed.

Lemma announce_v6_dead data id :
  parse_announce_response data id false = Some Ignore -> parse_announce_response data id true = Some Ignore.
Proof.
  unfold parse_announce_response. destruct (classify_header _ _ _ _) as [[]|]; try done. red_bind.
  unfold parse_announce_body. destruct (read_u32 data 8), (read_u32 data 12), (read_u32 data 16); try done.
  destruct (slice _ _ _); [|done]. red_bind. destruct (parse_peers _ false) eqn:E; [done|].
  by rewrite (parse_peers_v6_dead _ E).
Qed.

(** The classifier never panics, and its second attempt, to read the peers of an
    announce response as IPv6, never succeeds: an IPv6 response is reported with
    three made-up IPv4 peers per entry. *)
Lemma parse_udp_packet_never_ipv6 data :
  exists p, parse_udp_packet data = Some p /\
    forall id resp, p = UdpAnnounce id resp -> Forall (fun a => is_ipv6 a = false) (peers resp).
Proof.
  unfold parse_udp_packet. destruct (Nat.ltb_spec (length data) ERROR_HEADER_LEN) as [|Hl]; [by eexists|].
  destruct (read_u32 data 0), (read_u32 data 4) as [id|]; try by eexists.
  destruct (_ =? ACTION_CONNECT).
  { destruct (parse_connect_total data id) as [p ->]. red_bind. eexists. split; [done|]. by destruct p. }
  destruct (_ =? ACTION_ANNOUNCE).
  { destruct (parse_announce_total data id false) as [p E]. rewrite E. red_bind. destruct p as [v|m|].
    - eexists. split; [done|]. intros ? ? [= <- <-]. by eapply announce_v4.
    - by eexists.
    - rewrite (announce_v6_dead _ _ E). red_bind. by eexists. }
  destruct (_ =? ACTION_ERROR); [|by eexists].
  unfold ERROR_HEADER_LEN in *. rewrite rest_total by lia. red_bind. by eexists.
Qed.
