(* ===== verification/ExtHandshake.v ===== *)
(** * The extension protocol's handshake (crates/bit_rev/src/extension/handshake.rs)

    What a peer tells of its extensions, as the bencoded dictionary on the wire
    and as the record later handshakes are merged into.  A [BTreeMap] is a map
    listed in the order of its keys.  The bencode library's decoder is the
    parameter [from_bytes]. *)

From S2P Require Import Prelude Utf8 Bencode Text Identity Value.

Definition DEFAULT_REQQ : i64 := 250.
Definition UT_METADATA : bytes := str "ut_metadata".
Definition UT_PEX : bytes := str "ut_pex".
Definition MAX_METADATA_SIZE : i64 := 8 * 1024 * 1024.
Definition MAX_EXTENSION_PAYLOAD : Z := 2 * 1024 * 1024.

Record ExtensionHandshake := mkExtHandshake {
  eh_m : gmap bytes i64;
  eh_v : option bytes;
  eh_p : option i64;
  eh_reqq : option i64;
  eh_metadata_size : option i64 }.

Record PeerExtensionInfo := mkPeerInfo {
  pi_m : gmap bytes u8;
  pi_v : option bytes;
  pi_p : option u16;
  pi_reqq : option i64;
  pi_metadata_size : option i64 }.

(** [Self::default()] *)
Definition eh_default : ExtensionHandshake := mkExtHandshake ∅ None None None None.
Definition pi_default : PeerExtensionInfo := mkPeerInfo ∅ None None None None.

(** The entries of a [BTreeMap]. *)
Definition btree_iter {V} (m : gmap bytes V) : list (bytes * V) := merge_sort key_le (map_to_list m).

(** [std::str::from_utf8(b).is_ok()] *)
Definition is_utf8 (b : bytes) : bool := match utf8_chars b with Some _ => true | None => false end.

Definition eh_outgoing (m : gmap bytes i64) (listen_port : option u16) (metadata_size : option i64)
    : ExtensionHandshake :=
  let include_metadata_size := negb (default 0 (m !! UT_METADATA) =? 0) in
  mkExtHandshake m (Some extension_version) listen_port (Some DEFAULT_REQQ)
    (if include_metadata_size then metadata_size else None).

(** ** The wire *)

(** [if let Some(x) = field { pairs.push((key, encode(x))) }] *)
Definition opt_pair {A B} (key : bytes) (enc : A -> B) (field : option A) : list (bytes * B) :=
  match field with Some x => [(key, enc x)] | None => [] end.

Definition eh_encode (h : ExtensionHandshake) : bytes :=
  let m_pairs := map (fun p => (fst p, encode_int (snd p))) (btree_iter (eh_m h)) in
  encode_dict
    ((str "m", encode_dict m_pairs) ::
     opt_pair (str "metadata_size") encode_int (eh_metadata_size h) ++
     opt_pair (str "p") encode_int (eh_p h) ++
     opt_pair (str "reqq") encode_int (eh_reqq h) ++
     opt_pair (str "v") encode_bytes (eh_v h)).

(** The integers of [m] with a name that is text. *)
Definition decode_names (m : gmap bytes Value) : gmap bytes i64 :=
  map_imap (fun name value =>
    if is_utf8 name then match value with VInt id => Some id | _ => None end else None) m.

Definition eh_decode (from_bytes : bytes -> option Value) (buf : bytes) : ExtensionHandshake :=
  if MAX_EXTENSION_PAYLOAD <? Z.of_nat (length buf) then eh_default
  else match guarded_dict from_bytes buf with
  | None => eh_default
  | Some dict =>
      mkExtHandshake
        (match dict !! str "m" with Some (VDict m) => decode_names m | _ => ∅ end)
        (match dict !! str "v" with Some (VBytes v) => if is_utf8 v then Some v else None | _ => None end)
        (match dict !! str "p" with Some (VInt p) => Some p | _ => None end)
        (match dict !! str "reqq" with Some (VInt reqq) => Some reqq | _ => None end)
        (match dict !! str "metadata_size" with
         | Some (VInt size) => if (1 <=? size) && (size <=? MAX_METADATA_SIZE) then Some size else None
         | _ => None end)
  end.

(** ** What is known of a peer *)

(** [u8::try_from], [u16::try_from] *)
Definition try_from (max : Z) (n : i64) : option Z := if (0 <=? n) && (n <=? max) then Some n else None.

Definition merge_name (m : gmap bytes u8) (entry : bytes * i64) : gmap bytes u8 :=
  let '(name, id) := entry in
  if id =? 0 then delete name m
  else match try_from U8_MAX id with Some id => <[name := id]> m | None => m end.

Definition pi_merge (info : PeerExtensionInfo) (handshake : ExtensionHandshake) : PeerExtensionInfo :=
  mkPeerInfo
    (fold_left merge_name (btree_iter (eh_m handshake)) (pi_m info))
    (match eh_v handshake with Some v => Some v | None => pi_v info end)
    (match (p ← eh_p handshake; try_from U16_MAX p) with Some p => Some p | None => pi_p info end)
    (match eh_reqq handshake with Some reqq => Some reqq | None => pi_reqq info end)
    (match eh_metadata_size handshake with Some size => Some size | None => pi_metadata_size info end).

Definition into_peer_info (h : ExtensionHandshake) : PeerExtensionInfo := pi_merge pi_default h.

Definition peer_ext_id (info : PeerExtensionInfo) (name : bytes) : option u8 :=
  id ← pi_m info !! name; if id =? 0 then None else Some id.

(** ** The round trip *)

Definition eh_tree (h : ExtensionHandshake) : list (bytes * Encoded) :=
  (str "m", EDict (map (fun p => (fst p, EInt (snd p))) (btree_iter (eh_m h)))) ::
  opt_pair (str "metadata_size") EInt (eh_metadata_size h) ++
  opt_pair (str "p") EInt (eh_p h) ++
  opt_pair (str "reqq") EInt (eh_reqq h) ++
  opt_pair (str "v") EBytes (eh_v h).

(** Names and the version are text, the numbers have 64 bits and the size of
    the metadata is one the decoder takes. *)
Record wf_handshake (h : ExtensionHandshake) : Prop := {
  wh_names : forall name id, eh_m h !! name = Some id -> is_utf8 name = true /\ is_i64 id;
  wh_v : forall v, eh_v h = Some v -> is_utf8 v = true;
  wh_p : forall p, eh_p h = Some p -> is_i64 p;
  wh_reqq : forall reqq, eh_reqq h = Some reqq -> is_i64 reqq;
  wh_size : forall size, eh_metadata_size h = Some size -> 1 <= size <= MAX_METADATA_SIZE }.

Lemma opt_pair_map {A} key (tree : A -> Encoded) field :
  map (fun p => (fst p, encode_value (snd p))) (opt_pair key tree field) =
  opt_pair key (fun x => encode_value (tree x)) field.
Proof. by destruct field. Qed.

Lemma eh_encode_tree h : eh_encode h = encode_value (EDict (eh_tree h)).
Proof.
  unfold eh_encode, eh_tree. cbn [encode_value map fst snd]. rewrite !map_app, map_map.
  by rewrite !opt_pair_map.
Qed.

(** Text survives the lossy conversion. *)
Lemma utf8_lossy_valid b : is_utf8 b = true -> utf8_lossy b = b.
Proof.
  unfold is_utf8. assert (H : forall n b, (length b <= n)%nat -> is_Some (utf8_chars b) -> utf8_lossy b = b).
  { clear b. induction n as [|n IH]; intros b Hn Hb; [by destruct b; cbn in Hn; [|lia]|].
    destruct b as [|b0 l1]; [done|]. cbn [utf8_chars utf8_lossy length] in *.
    assert (Hstep : forall (c : Z) l, (length l <= n)%nat -> is_Some (cons c <$> utf8_chars l) -> utf8_lossy l = l)
      by (intros c l Hl [x Hx]; apply IH; [done|]; destruct (utf8_chars l); [eauto|done]).
    destruct (b0 <? 128); [f_equal; eapply Hstep; [lia|done]|].
    destruct l1 as [|b1 l2]; [by destruct Hb|]. cbn [length] in *.
    destruct (utf8_lead2 b0 && utf8_cont b1); [do 2 f_equal; eapply Hstep; [lia|done]|].
    destruct l2 as [|b2 l3]; [by destruct Hb|]. cbn [length] in *. destruct (utf8_lead3 b0 b1) eqn:E3; cbn [andb] in Hb.
    - destruct (utf8_cont b2); [do 3 f_equal; eapply Hstep; [lia|done]|]. exfalso.
      assert (E4 : utf8_lead4 b0 b1 = false) by (revert E3; unfold utf8_lead3, utf8_lead4, utf8_cont, within; lia).
      rewrite E4 in Hb. by destruct l3; destruct Hb.
    - destruct l3 as [|b3 l4]; [by destruct Hb|]. cbn [length] in *.
      destruct (utf8_lead4 b0 b1), (utf8_cont b2), (utf8_cont b3); cbn [andb] in Hb; try (by destruct Hb).
      do 4 f_equal. eapply Hstep; [lia|done]. }
  destruct (utf8_chars b) eqn:E; [|done]. intros _. eapply (H (length b)); [done|eauto].
Qed.

Lemma btree_iter_perm {V} (m : gmap bytes V) : btree_iter m ≡ₚ map_to_list m.
Proof. apply merge_sort_Permutation. Qed.

Lemma btree_iter_NoDup {V} (m : gmap bytes V) : NoDup (btree_iter m).*1.
Proof. rewrite btree_iter_perm. apply NoDup_fst_map_to_list. Qed.

Lemma elem_of_btree_iter {V} (m : gmap bytes V) k v : (k, v) ∈ btree_iter m <-> m !! k = Some v.
Proof. by rewrite btree_iter_perm, elem_of_map_to_list. Qed.

(** The names as the decoder reads them back. *)
Lemma names_tree (m : gmap bytes i64) :
  (list_to_map (map (fun p => (fst p, value_of (snd p))) (map (fun p => (fst p, EInt (snd p))) (btree_iter m)))
    : gmap bytes Value) = VInt <$> m.
Proof.
  rewrite map_map. cbn [fst snd value_of]. apply map_eq. intros k. rewrite lookup_fmap.
  assert (Hnd : NoDup ((map (fun p => (fst p, VInt (snd p))) (btree_iter m)).*1)).
  { change (NoDup (fst <$> ((fun p => (fst p, VInt (snd p))) <$> btree_iter m))).
    rewrite <- list_fmap_compose. apply btree_iter_NoDup. }
  destruct (m !! k) as [id|] eqn:E; cbn [fmap option_fmap option_map].
  - apply elem_of_list_to_map; [done|]. apply elem_of_btree_iter in E.
    by apply (list_elem_of_fmap_2 (fun p => (fst p, VInt (snd p)))) in E.
  - apply not_elem_of_list_to_map. intros Hk. apply list_elem_of_fmap in Hk as ([k' w] & -> & Hk).
    apply list_elem_of_fmap in Hk as ([k'' id] & [= -> ->] & Hin).
    apply elem_of_btree_iter in Hin. cbn [fst] in E. congruence.
Qed.

Lemma decode_names_ints (m : gmap bytes i64) :
  (forall name id, m !! name = Some id -> is_utf8 name = true) -> decode_names (VInt <$> m) = m.
Proof.
  intros H. apply map_eq. intros k. unfold decode_names. rewrite map_lookup_imap, lookup_fmap.
  destruct (m !! k) as [id|] eqn:E; [|done]. cbn. by rewrite (H k id E).
Qed.

Lemma height_ints (l : list (bytes * i64)) : (height (EDict (map (fun p => (fst p, EInt (snd p))) l)) <= 2)%nat.
Proof. cbn [height]. apply le_n_S. induction l as [|b l IH]; cbn in *; lia. Qed.

Lemma eh_tree_height h : (height (EDict (eh_tree h)) <= MAX_BENCODE_DEPTH)%nat.
Proof.
  unfold MAX_BENCODE_DEPTH, eh_tree. pose proof (height_ints (btree_iter (eh_m h))) as Hm.
  cbn [height foldr snd] in *.
  destruct (eh_metadata_size h), (eh_p h), (eh_reqq h), (eh_v h); cbn [opt_pair app height foldr snd]; lia.
Qed.

Lemma eh_tree_wf h : wf_handshake h -> wf_encoded (EDict (eh_tree h)).
Proof.
  intros [Hm Hv Hp Hr Hs].
  assert (Hnames : wf_encoded (EDict (map (fun p => (fst p, EInt (snd p))) (btree_iter (eh_m h))))).
  { split.
    - rewrite map_map. apply (btree_iter_NoDup (eh_m h)).
    - apply foldr_and. apply Forall_map, Forall_forall. intros [k id] Hin%elem_of_btree_iter. by apply (Hm k id). }
  unfold eh_tree. destruct (eh_metadata_size h) as [size|], (eh_p h) as [p|], (eh_reqq h) as [reqq|], (eh_v h) as [v|];
    cbn [opt_pair app]; (split; [distinct_keys|]); cbn [foldr snd]; split_and!; try done; cbn [wf_encoded];
    try (by apply Hp); try (by apply Hr); specialize (Hs size eq_refl);
    unfold is_i64, I64_MAX, MAX_METADATA_SIZE in *; lia.
Qed.

(** The extension handshake round trip: a handshake whose encoding fits a
    message is read back exactly. *)
Lemma eh_roundtrip from_bytes `{!BencodeLib from_bytes} h :
  wf_handshake h -> Z.of_nat (length (eh_encode h)) <= MAX_EXTENSION_PAYLOAD ->
  eh_decode from_bytes (eh_encode h) = h.
Proof.
  intros Hwf Hl. unfold eh_decode. rewrite (proj2 (Z.ltb_ge _ _)) by done.
  rewrite eh_encode_tree in *.
  rewrite (guarded_dict_canonical from_bytes);
    [|by apply eh_tree_wf|apply eh_tree_height|unfold MAX_EXTENSION_PAYLOAD, U64_MAX in *; lia].
  unfold tree_dict. rewrite !dict_assoc. destruct Hwf as [Hm Hv _ _ Hs]. destruct h as [m v p reqq size].
  cbn [eh_m eh_v eh_p eh_reqq eh_metadata_size] in *. unfold eh_tree.
  cbn [eh_m eh_v eh_p eh_reqq eh_metadata_size].
  destruct size as [size|], p as [p|], reqq as [reqq|], v as [v|]; cbn [opt_pair app assoc]; literals;
    cbn [fmap option_fmap option_map value_of]; rewrite names_tree, decode_names_ints by (intros; by eapply Hm);
    rewrite ?(Hv _ eq_refl); try specialize (Hs _ eq_refl);
    rewrite ?(proj2 (Z.leb_le 1 size)), ?(proj2 (Z.leb_le size MAX_METADATA_SIZE)) by lia; done.
Qed.

(** Whatever arrives, a size that is kept lies between 1 and 8 MiB. *)
Lemma eh_decode_size from_bytes buf size :
  eh_metadata_size (eh_decode from_bytes buf) = Some size -> 1 <= size <= MAX_METADATA_SIZE.
Proof.
  unfold eh_decode. destruct (_ <? _); [done|]. destruct (guarded_dict _ _) as [dict|]; [|done].
  cbn [eh_metadata_size]. destruct (dict !! _) as [[| n | |]|]; try done.
  destruct (Z.leb_spec 1 n), (Z.leb_spec n MAX_METADATA_SIZE); cbn [andb]; try done. by intros [= <-].
Qed.

(** ** Merging *)

Lemma merge_names_lookup l m name :
  NoDup l.*1 ->
  fold_left merge_name l m !! name =
  match assoc name l with
  | Some id => if id =? 0 then None
               else match try_from U8_MAX id with Some id => Some id | None => m !! name end
  | None => m !! name
  end.
Proof.
  revert m. induction l as [|[k id] l IH]; intros m Hnd; [done|]. cbn [fold_left assoc].
  cbn [fmap list_fmap] in Hnd. apply NoDup_cons in Hnd as [Hk Hnd]. rewrite IH by done.
  destruct (decide (k = name)) as [->|Hne].
  - assert (assoc name l = None) as ->.
    { clear -Hk. induction l as [|[k' id'] l IHl]; [done|]. cbn in Hk. apply not_elem_of_cons in Hk as [? ?].
      cbn [assoc]. rewrite decide_False by congruence. by apply IHl. }
    unfold merge_name. destruct (id =? 0); [apply lookup_delete_eq|].
    destruct (try_from U8_MAX id); [apply lookup_insert_eq|done].
  - assert (merge_name m (k, id) !! name = m !! name) as ->; [|done].
    unfold merge_name. destruct (id =? 0); [by apply lookup_delete_ne|].
    destruct (try_from U8_MAX id); [by apply lookup_insert_ne|done].
Qed.

Lemma assoc_btree {V} (m : gmap bytes V) name : assoc name (btree_iter m) = m !! name.
Proof.
  assert (H : forall l : list (bytes * V), assoc name l = list_to_map (M := gmap bytes V) l !! name).
  { induction l as [|[k v] l IH]; [done|]. cbn [assoc list_to_map foldr fst snd].
    destruct (decide (k = name)) as [->|]; [by rewrite lookup_insert_eq|by rewrite lookup_insert_ne]. }
  rewrite H. rewrite (list_to_map_proper _ (map_to_list m)), list_to_map_to_list; [done| |apply btree_iter_perm].
  apply btree_iter_NoDup.
Qed.

(** The message id of an extension after a handshake: 0 withdraws it, another
    byte sets it, and what is no byte or not mentioned leaves it alone. *)
Lemma peer_ext_id_merge info h name :
  peer_ext_id (pi_merge info h) name =
  match eh_m h !! name with
  | Some id => if id =? 0 then None
               else if (0 <=? id) && (id <=? U8_MAX) then Some id else peer_ext_id info name
  | None => peer_ext_id info name
  end.
Proof.
  unfold peer_ext_id, pi_merge. cbn [pi_m]. rewrite merge_names_lookup, assoc_btree by apply btree_iter_NoDup.
  destruct (eh_m h !! name) as [id|]; [|done]. destruct (Z.eqb_spec id 0); [done|].
  unfold try_from. destruct (_ && _); [|done]. red_bind. by rewrite (proj2 (Z.eqb_neq _ _)).
Qed.

(** The ids a peer may be sent are bytes other than 0, the handshake's own. *)
Lemma peer_ext_id_byte info handshakes name id :
  (forall n i, pi_m info !! n = Some i -> is_u8 i) ->
  peer_ext_id (fold_left pi_merge handshakes info) name = Some id -> is_u8 id /\ id <> 0.
Proof.
  intros Hi. assert (Hf : forall n i, pi_m (fold_left pi_merge handshakes info) !! n = Some i -> is_u8 i).
  { revert info Hi. induction handshakes as [|h hs IH]; intros info Hi; [done|]. cbn [fold_left]. apply IH.
    intros n i. unfold pi_merge. cbn [pi_m]. rewrite merge_names_lookup, assoc_btree by apply btree_iter_NoDup.
    destruct (eh_m h !! n) as [j|]; [|apply Hi]. destruct (j =? 0); [done|].
    unfold try_from. destruct (Z.leb_spec 0 j), (Z.leb_spec j U8_MAX); cbn [andb]; try apply Hi.
    intros [= <-]. by split. }
  unfold peer_ext_id. destruct (_ !! name) as [i|] eqn:E; [|done]. red_bind.
  destruct (Z.eqb_spec i 0); [done|]. intros [= <-]. split; [by eapply Hf|done].
Qed.
