(* ===== verification/Metadata.v ===== *)
(** * Fetching and serving the info dictionary (crates/bit_rev/src/extension/ut_metadata.rs)

    [MetadataStore], shared by the connections of a torrent, and [UtMetadata], the
    extension of one connection, with the messages between them.  Operations that
    can panic return an option.  [sha1] and the bencode library's decoder are
    parameters, the clock is the [now] argument, and [order] is the order in which
    a hash set lists its elements. *)

From S2P Require Import Prelude Bencode Text Value Bitfield Message PeerStates ExtHandshake.

Definition METADATA_PIECE_LEN : nat := Z.to_nat (16 * 1024).
Definition METADATA_REQUEST_TIMEOUT : Duration := secs 10.
Definition METADATA_PIPELINE : nat := 2.
Definition MAX_SERVE_PER_WINDOW : nat := 4.
Definition MSG_REQUEST : i64 := 0.
Definition MSG_DATA : i64 := 1.
Definition MSG_REJECT : i64 := 2.

Inductive UtMetadataMessage :=
| MdRequest (piece : u32)
| MdData (piece : u32) (total_size : option i64) (data : bytes)
| MdReject (piece : u32).

(** ** The store *)

Record Inflight := mkInflight { if_peer : SocketAddr; if_at : Instant }.

Record FetchState := mkFetch {
  fs_size : nat;
  fs_pieces : list (option bytes);
  fs_inflight : gmap u32 Inflight;
  fs_contributors : gset SocketAddr }.

Record MetadataStore := mkMetadata {
  ms_info_hash : bytes;
  ms_info_bytes : option bytes;
  ms_fetch : option FetchState;
  ms_completed : option bytes }.

Definition set_fs_inflight (m : gmap u32 Inflight) (f : FetchState) : FetchState :=
  mkFetch (fs_size f) (fs_pieces f) m (fs_contributors f).
Definition set_fetch (f : option FetchState) (ms : MetadataStore) : MetadataStore :=
  mkMetadata (ms_info_hash ms) (ms_info_bytes ms) f (ms_completed ms).

(** [size.div_ceil(METADATA_PIECE_LEN)] *)
Definition piece_total (size : nat) : nat := (size + (METADATA_PIECE_LEN - 1)) / METADATA_PIECE_LEN.

Definition fetch_new (size : nat) : FetchState := mkFetch size (replicate (piece_total size) None) ∅ ∅.

Definition piece_len (f : FetchState) (piece : u32) : option nat :=
  let idx := Z.to_nat piece in
  if (length (fs_pieces f) <=? idx)%nat then None
  else if (idx + 1 =? length (fs_pieces f))%nat then
    let rem := (fs_size f mod METADATA_PIECE_LEN)%nat in
    Some (if (rem =? 0)%nat then METADATA_PIECE_LEN else rem)
  else Some METADATA_PIECE_LEN.

Definition metadata_new (info_hash : bytes) : MetadataStore := mkMetadata info_hash None None None.

Definition with_bytes (info_hash info : bytes) : MetadataStore := mkMetadata info_hash (Some info) None (Some info).

Definition metadata_size (ms : MetadataStore) : option i64 :=
  (fun b => Z.min (Z.of_nat (length b)) I64_MAX) <$> ms_info_bytes ms.

Definition adopt_size (size : i64) (ms : MetadataStore) : option nat * MetadataStore :=
  if (size <=? 0) || (MAX_METADATA_SIZE <? size) then (None, ms)
  else
    let size := Z.to_nat size in
    match ms_info_bytes ms with
    | Some b => (Some (length b), ms)
    | None =>
        match ms_fetch ms with
        | Some fetch => (if (fs_size fetch =? size)%nat then Some size else None, ms)
        | None => (Some size, set_fetch (Some (fetch_new size)) ms)
        end
    end.

Definition expected_size (ms : MetadataStore) : option nat :=
  match ms_info_bytes ms with
  | Some b => Some (length b)
  | None => fs_size <$> ms_fetch ms
  end.

(** The loop of [claim_requests] over the slots from [idx] on. *)
Fixpoint claim_loop (peer : SocketAddr) (now : Instant) (max idx : nat) (slots : list (option bytes))
    (inflight : gmap u32 Inflight) (out : list u32) : list u32 * gmap u32 Inflight :=
  match slots with
  | [] => (out, inflight)
  | slot :: slots =>
      if (max <=? length out)%nat then (out, inflight)
      else
        let piece := Z.of_nat idx in
        match slot, inflight !! piece with
        | None, None =>
            claim_loop peer now max (S idx) slots (<[piece := mkInflight peer now]> inflight) (out ++ [piece])
        | _, _ => claim_loop peer now max (S idx) slots inflight out
        end
  end.

Definition claim_requests (now : Instant) (peer : SocketAddr) (max : nat) (ms : MetadataStore)
    : list u32 * MetadataStore :=
  if (max =? 0)%nat then ([], ms)
  else match ms_info_bytes ms, ms_fetch ms with
  | None, Some fetch =>
      let '(out, inflight) := claim_loop peer now max 0 (fs_pieces fetch) (fs_inflight fetch) [] in
      (out, set_fetch (Some (set_fs_inflight inflight fetch)) ms)
  | _, _ => ([], ms)
  end.

Inductive DataOutcome :=
| Accepted | Complete | AlreadyComplete | Duplicate | Unrequested | Invalid | HashMismatch.

Definition md_on_reject (peer : SocketAddr) (piece : u32) (ms : MetadataStore) : MetadataStore :=
  match ms_fetch ms with
  | None => ms
  | Some fetch =>
      match fs_inflight fetch !! piece with
      | Some inf =>
          if decide (if_peer inf = peer)
          then set_fetch (Some (set_fs_inflight (delete piece (fs_inflight fetch)) fetch)) ms else ms
      | None => ms
      end
  end.

Definition on_peer_gone (peer : SocketAddr) (ms : MetadataStore) : MetadataStore :=
  match ms_fetch ms with
  | None => ms
  | Some fetch =>
      set_fetch (Some (set_fs_inflight (filter (fun e => if_peer e.2 <> peer) (fs_inflight fetch)) fetch)) ms
  end.

(** The pieces released are returned in the map's order; no caller uses them. *)
Definition release_timeouts (now : Instant) (ms : MetadataStore) : list u32 * MetadataStore :=
  match ms_fetch ms with
  | None => ([], ms)
  | Some fetch =>
      ((filter (fun e => METADATA_REQUEST_TIMEOUT <= since now (if_at e.2)) (map_to_list (fs_inflight fetch))).*1,
       set_fetch (Some (set_fs_inflight
         (filter (fun e => since now (if_at e.2) < METADATA_REQUEST_TIMEOUT) (fs_inflight fetch)) fetch)) ms)
  end.

(** The outer option is [None] for a panic of the slice. *)
Definition serve_piece (piece : u32) (ms : MetadataStore) : option (option (bytes * i64)) :=
  match ms_info_bytes ms with
  | None => Some None
  | Some b =>
      let start := (Z.to_nat piece * METADATA_PIECE_LEN)%nat in
      if (length b <=? start)%nat then Some None
      else
        let stop := Nat.min (start + METADATA_PIECE_LEN) (length b) in
        part ← slice b start stop;
        Some (Some (part, Z.min (Z.of_nat (length b)) I64_MAX))
  end.

Section Store.
Context (sha1 : bytes -> bytes) (order : gset SocketAddr -> list SocketAddr).

(** [record_hash_failure] for each contributor. *)
Definition blame (now : Instant) (sole : bool) (contributors : list SocketAddr) (ps : PeerStates)
    : list (SocketAddr * WriterRequest) * PeerStates :=
  fold_left (fun '(sent, ps) contributor =>
    let '(_, s, ps) := record_hash_failure now contributor sole ps in (sent ++ s, ps)) contributors ([], ps).

Definition total_size_ok (total_size : option i64) (fetch : FetchState) : bool :=
  match total_size with
  | Some size => negb ((size <=? 0) || negb (size =? Z.of_nat (fs_size fetch)))
  | None => true
  end.

(** From the point where all pieces are there. *)
Definition assemble (now : Instant) (fetch : FetchState) (ms : MetadataStore) (ps : PeerStates)
    : option (DataOutcome * list (SocketAddr * WriterRequest) * MetadataStore * PeerStates) :=
  parts ← mapM id (fs_pieces fetch);
  let assembled := take (fs_size fetch) (concat parts) in
  if decide (sha1 assembled = ms_info_hash ms) then
    Some (Complete, [], mkMetadata (ms_info_hash ms) (Some assembled) None (Some assembled), ps)
  else
    let contributors := order (fs_contributors fetch) in
    let sole := (length contributors =? 1)%nat in
    let '(sent, ps) := blame now sole contributors ps in
    Some (HashMismatch, sent, set_fetch None ms, ps).

Definition md_on_data (now : Instant) (peer : SocketAddr) (piece : u32) (data : bytes) (total_size : option i64)
    (ms : MetadataStore) (ps : PeerStates)
    : option (DataOutcome * list (SocketAddr * WriterRequest) * MetadataStore * PeerStates) :=
  match ms_info_bytes ms, ms_fetch ms with
  | Some _, _ => Some (AlreadyComplete, [], ms, ps)
  | None, None => Some (Unrequested, [], ms, ps)
  | None, Some fetch =>
      if negb (total_size_ok total_size fetch) then Some (Invalid, [], ms, ps)
      else match piece_len fetch piece with
      | None => Some (Invalid, [], ms, ps)
      | Some expected_len =>
          if negb (length data =? expected_len)%nat then Some (Invalid, [], ms, ps)
          else match fs_inflight fetch !! piece with
          | None =>
              match fs_pieces fetch !! Z.to_nat piece with
              | Some (Some _) => Some (Duplicate, [], ms, ps)
              | _ => Some (Unrequested, [], ms, ps)
              end
          | Some inflight =>
              if negb (bool_decide (if_peer inflight = peer)) then Some (Unrequested, [], ms, ps)
              else
                let fetch := set_fs_inflight (delete piece (fs_inflight fetch)) fetch in
                slot ← fs_pieces fetch !! Z.to_nat piece;
                match slot with
                | Some _ => Some (Duplicate, [], set_fetch (Some fetch) ms, ps)
                | None =>
                    let fetch := mkFetch (fs_size fetch) (<[Z.to_nat piece := Some data]> (fs_pieces fetch))
                      (fs_inflight fetch) ({[peer]} ∪ fs_contributors fetch) in
                    if existsb (fun p => bool_decide (p = None)) (fs_pieces fetch)
                    then Some (Accepted, [], set_fetch (Some fetch) ms, ps)
                    else assemble now fetch ms ps
                end
          end
      end
  end.
End Store.

(** ** Messages *)

Definition md_encode_dict (pairs : list (bytes * i64)) : bytes :=
  100 :: concat (map (fun p => encode_bytes (fst p) ++ encode_int (snd p)) (merge_sort key_le pairs)) ++ [101].

Definition encode_request (piece : u32) : bytes :=
  md_encode_dict [(str "msg_type", MSG_REQUEST); (str "piece", piece)].

Definition encode_reject (piece : u32) : bytes :=
  md_encode_dict [(str "msg_type", MSG_REJECT); (str "piece", piece)].

Definition encode_data (piece : u32) (total_size : i64) (data : bytes) : bytes :=
  md_encode_dict [(str "msg_type", MSG_DATA); (str "piece", piece); (str "total_size", total_size)] ++ data.

(** What follows the dictionary [dict] is [rest]. *)
Definition message_of (dict : gmap bytes Value) (rest : bytes) : option UtMetadataMessage :=
  match dict !! str "msg_type", dict !! str "piece" with
  | Some (VInt msg_type), Some (VInt n) =>
      piece ← try_from U32_MAX n;
      if msg_type =? MSG_REQUEST then match rest with [] => Some (MdRequest piece) | _ => None end
      else if msg_type =? MSG_REJECT then match rest with [] => Some (MdReject piece) | _ => None end
      else if msg_type =? MSG_DATA then
        total_size ← match dict !! str "total_size" with
                     | Some (VInt n) => Some (Some n)
                     | None => Some None
                     | _ => None end;
        if (METADATA_PIECE_LEN <? length rest)%nat then None else Some (MdData piece total_size rest)
      else None
  | _, _ => None
  end.

(** The outer option is [None] for a panic: an index, a slice, or more than
    [stack] nested calls of [skip_bencode]. *)
Definition md_parse_message (from_bytes : bytes -> option Value) (stack : nat) (payload : bytes)
    : option (option UtMetadataMessage) :=
  if bool_decide (payload = []) || (MAX_EXTENSION_PAYLOAD <? Z.of_nat (length payload)) then Some None
  else
    guard ← check_bencode_depth payload;
    if negb (is_ok guard) then Some None
    else
      r ← skip_bencode stack payload 0;
      match r with
      | Err _ => Some None
      | Ok stop =>
          first ← payload !! 0%nat;
          if (stop =? 0)%nat || negb (first =? 100) then Some None
          else
            dict_part ← slice payload 0 stop;
            rest ← slice payload stop (length payload);
            Some (match from_bytes dict_part with
                  | Some (VDict dict) => message_of dict rest
                  | _ => None
                  end)
      end.

(** ** The extension of one connection *)

Record UtMetadata := mkUtMetadata {
  um_peer : SocketAddr;
  um_supports : bool;
  um_peer_size : option i64;
  um_inflight : gmap u32 Instant;
  um_served : nat;
  um_disconnect : bool }.

Definition um_new (peer : SocketAddr) : UtMetadata := mkUtMetadata peer false None ∅ 0 false.

Definition set_um_inflight (m : gmap u32 Instant) (u : UtMetadata) : UtMetadata :=
  mkUtMetadata (um_peer u) (um_supports u) (um_peer_size u) m (um_served u) (um_disconnect u).
Definition set_um_served (n : nat) (u : UtMetadata) : UtMetadata :=
  mkUtMetadata (um_peer u) (um_supports u) (um_peer_size u) (um_inflight u) n (um_disconnect u).
Definition set_um_disconnect (u : UtMetadata) : UtMetadata :=
  mkUtMetadata (um_peer u) (um_supports u) (um_peer_size u) (um_inflight u) (um_served u) true.
Definition set_um_peer_size (size : option i64) (u : UtMetadata) : UtMetadata :=
  mkUtMetadata (um_peer u) (um_supports u) size (um_inflight u) (um_served u) (um_disconnect u).
Definition set_um_supports (b : bool) (u : UtMetadata) : UtMetadata :=
  mkUtMetadata (um_peer u) b (um_peer_size u) (um_inflight u) (um_served u) (um_disconnect u).

Definition request_more (now : Instant) (u : UtMetadata) (ms : MetadataStore)
    : list bytes * UtMetadata * MetadataStore :=
  if negb (um_supports u) || bool_decide (is_Some (ms_info_bytes ms)) then ([], u, ms)
  else if bool_decide (um_peer_size u = None) then ([], u, ms)
  else
    let want := (METADATA_PIPELINE - size (um_inflight u))%nat in
    let '(pieces, ms) := claim_requests now (um_peer u) want ms in
    (map encode_request pieces,
     set_um_inflight (fold_left (fun m piece => <[piece := now]> m) pieces (um_inflight u)) u, ms).

Definition expire_local (now : Instant) (u : UtMetadata) (ms : MetadataStore) : UtMetadata * MetadataStore :=
  let '(_, ms) := release_timeouts now ms in
  (set_um_inflight (filter (fun e => since now e.2 < METADATA_REQUEST_TIMEOUT) (um_inflight u)) u, ms).

Definition um_on_handshake (info : PeerExtensionInfo) (u : UtMetadata) (ms : MetadataStore)
    : UtMetadata * MetadataStore :=
  let u := set_um_supports (bool_decide (is_Some (peer_ext_id info UT_METADATA))) u in
  if negb (um_supports u) then (set_um_peer_size None u, ms)
  else match pi_metadata_size info with
  | None => (u, ms)
  | Some size =>
      match ms_info_bytes ms with
      | None => let '(adopted, ms) := adopt_size size ms in (set_um_peer_size (Z.of_nat <$> adopted) u, ms)
      | Some _ => (set_um_peer_size (Some size) u, ms)
      end
  end.

Definition um_on_tick (now : Instant) (u : UtMetadata) (ms : MetadataStore)
    : list bytes * UtMetadata * MetadataStore :=
  let u := set_um_served 0 u in
  if um_disconnect u || negb (um_supports u) then ([], u, ms)
  else let '(u, ms) := expire_local now u ms in request_more now u ms.

Section Handler.
Context (sha1 : bytes -> bytes) (order : gset SocketAddr -> list SocketAddr).
Context (from_bytes : bytes -> option Value) (stack : nat).

Definition um_on_message (now : Instant) (payload : bytes) (u : UtMetadata) (ms : MetadataStore) (ps : PeerStates)
    : option (list bytes * list (SocketAddr * WriterRequest) * UtMetadata * MetadataStore * PeerStates) :=
  if um_disconnect u then Some ([], [], u, ms, ps)
  else
    parsed ← md_parse_message from_bytes stack payload;
    match parsed with
    | None => Some ([], [], set_um_disconnect u, ms, ps)
    | Some (MdRequest piece) =>
        if (MAX_SERVE_PER_WINDOW <=? um_served u)%nat then Some ([encode_reject piece], [], u, ms, ps)
        else
          let u := set_um_served (S (um_served u)) u in
          served ← serve_piece piece ms;
          Some (match served with
                | Some (data, total_size) => ([encode_data piece total_size data], [], u, ms, ps)
                | None => ([encode_reject piece], [], u, ms, ps)
                end)
    | Some (MdReject piece) =>
        let u := set_um_inflight (delete piece (um_inflight u)) u in
        let ms := md_on_reject (um_peer u) piece ms in
        let '(out, u, ms) := request_more now u ms in
        Some (out, [], u, ms, ps)
    | Some (MdData piece total_size data) =>
        if bool_decide (um_inflight u !! piece = None) then Some ([], [], set_um_disconnect u, ms, ps)
        else
          let u := set_um_inflight (delete piece (um_inflight u)) u in
          '(outcome, sent, ms, ps) ← md_on_data sha1 order now (um_peer u) piece data total_size ms ps;
          Some (match outcome with
                | Invalid | Unrequested => ([], sent, set_um_disconnect u, ms, ps)
                | HashMismatch | Complete | AlreadyComplete => ([], sent, u, ms, ps)
                | Accepted | Duplicate =>
                    let '(out, u, ms) := request_more now u ms in (out, sent, u, ms, ps)
                end)
    end.
End Handler.

(** ** Messages read back *)

Definition int_pairs (pairs : list (bytes * i64)) : list (bytes * Encoded) :=
  map (fun p => (fst p, EInt (snd p))) pairs.

Definition request_pairs (msg_type : i64) (piece : u32) : list (bytes * i64) :=
  [(str "msg_type", msg_type); (str "piece", piece)].

Definition data_pairs (piece : u32) (total_size : i64) : list (bytes * i64) :=
  [(str "msg_type", MSG_DATA); (str "piece", piece); (str "total_size", total_size)].

Lemma encode_request_tree msg_type piece :
  md_encode_dict (request_pairs msg_type piece) = encode_value (EDict (int_pairs (request_pairs msg_type piece))).
Proof. reflexivity. Qed.

Lemma encode_data_tree piece total_size :
  md_encode_dict (data_pairs piece total_size) = encode_value (EDict (int_pairs (data_pairs piece total_size))).
Proof. reflexivity. Qed.

(** Behind a dictionary of ours the guard goes on at depth 0: the bytes that
    follow decide. *)
Lemma guard_behind e rest :
  (height e <= MAX_BENCODE_DEPTH)%nat -> Z.of_nat (length (encode_value e ++ rest)) <= U64_MAX ->
  guard_ok (encode_value e ++ rest) 0 0 <-> guard_ok rest 0 0.
Proof.
  intros Hh Hl. destruct (skippable_canonical e _ (le_n _)) as (_ & _ & Hs). specialize (Hs [] rest Hl).
  cbn [app length Nat.add] in Hs. rewrite <- (guard_shift (encode_value e) rest) by done. split; intros H.
  - by eapply guard_skip.
  - eapply guard_skip_back; [|done|done]. lia.
Qed.

Lemma request_pairs_wf msg_type piece :
  is_u32 piece -> is_u32 msg_type -> wf_encoded (EDict (int_pairs (request_pairs msg_type piece))).
Proof.
  intros Hp Hm. split; [distinct_keys|]. cbn. unfold is_u32, is_i64, U32_MAX, I64_MAX in *. split_and!; lia.
Qed.

Lemma data_pairs_wf piece total_size :
  is_u32 piece -> is_i64 total_size -> wf_encoded (EDict (int_pairs (data_pairs piece total_size))).
Proof.
  intros Hp Hm. split; [distinct_keys|]. cbn. unfold MSG_DATA, is_u32, is_i64, U32_MAX, I64_MAX in *. split_and!; lia.
Qed.

Lemma length_request msg_type piece :
  is_u32 piece -> is_u32 msg_type ->
  (length (encode_value (EDict (int_pairs (request_pairs msg_type piece)))) <= 300)%nat.
Proof.
  intros Hp Hm. assert (is_i64 piece /\ is_i64 msg_type) as [H1%length_encode_int H2%length_encode_int].
  { unfold is_u32, is_i64, U32_MAX, I64_MAX in *. lia. }
  assert (E : encode_value (EDict (int_pairs (request_pairs msg_type piece))) =
    100 :: concat [encode_bytes (str "msg_type") ++ encode_int msg_type;
                   encode_bytes (str "piece") ++ encode_int piece] ++ [101]) by reflexivity.
  rewrite E. cbn [length concat]. rewrite !length_app. cbn [length].
  assert (length (encode_bytes (str "msg_type")) = 10%nat) as -> by reflexivity.
  assert (length (encode_bytes (str "piece")) = 7%nat) as -> by reflexivity. lia.
Qed.

Lemma length_data_head piece total_size :
  is_u32 piece -> is_i64 total_size ->
  (length (encode_value (EDict (int_pairs (data_pairs piece total_size)))) <= 300)%nat.
Proof.
  intros Hp Hm%length_encode_int.
  assert (is_i64 piece) as H1%length_encode_int by (unfold is_u32, is_i64, U32_MAX, I64_MAX in *; lia).
  assert (E : encode_value (EDict (int_pairs (data_pairs piece total_size))) =
    100 :: concat [encode_bytes (str "msg_type") ++ encode_int MSG_DATA;
                   encode_bytes (str "piece") ++ encode_int piece;
                   encode_bytes (str "total_size") ++ encode_int total_size] ++ [101]) by reflexivity.
  rewrite E. cbn [length concat]. rewrite !length_app. cbn [length].
  assert (length (encode_bytes (str "msg_type")) = 10%nat) as -> by reflexivity.
  assert (length (encode_bytes (str "piece")) = 7%nat) as -> by reflexivity.
  assert (length (encode_bytes (str "total_size")) = 13%nat) as -> by reflexivity.
  assert (length (encode_int MSG_DATA) = 3%nat) as -> by reflexivity. lia.
Qed.

Section Codec.
Context (from_bytes : bytes -> option Value) `{!BencodeLib from_bytes}.
Context (stack : nat) (Hstack : (MAX_BENCODE_DEPTH < stack)%nat).

Lemma md_parse_dict pairs rest :
  wf_encoded (EDict (int_pairs pairs)) ->
  Z.of_nat (length (encode_value (EDict (int_pairs pairs)) ++ rest)) <= MAX_EXTENSION_PAYLOAD ->
  exists r, check_bencode_depth rest = Some r /\
  md_parse_message from_bytes stack (encode_value (EDict (int_pairs pairs)) ++ rest) =
  Some (if is_ok r then message_of (tree_dict (int_pairs pairs)) rest else None).
Proof.
  intros Hw Hl. pose proof (height_ints pairs) as Hh. fold (int_pairs pairs) in Hh.
  assert (Hu : Z.of_nat (length (encode_value (EDict (int_pairs pairs)) ++ rest)) <= U64_MAX)
    by (unfold MAX_EXTENSION_PAYLOAD, U64_MAX in *; lia).
  assert (Hr : Z.of_nat (length rest) <= U64_MAX) by (rewrite length_app in Hu; lia).
  assert (He : Z.of_nat (length (encode_value (EDict (int_pairs pairs)))) <= U64_MAX) by (rewrite length_app in Hu; lia).
  destruct (check_guard rest Hr) as (r & Er & Hg). exists r. split; [done|].
  destruct (check_guard _ Hu) as (r' & Er' & Hg').
  rewrite guard_behind in Hg' by (done || unfold MAX_BENCODE_DEPTH; lia). rewrite <- Hg in Hg'.
  destruct (skippable_canonical (EDict (int_pairs pairs)) stack) as (_ & _ & Hs); [unfold MAX_BENCODE_DEPTH in *; lia|].
  specialize (Hs [] rest Hu). cbn [app length Nat.add] in Hs.
  unfold md_parse_message. rewrite Er'. set (c := encode_value (EDict (int_pairs pairs))) in *.
  assert (Hc : exists s, c = 100 :: s) by by eexists. destruct Hc as [s Ec].
  rewrite bool_decide_eq_false_2 by by rewrite Ec. rewrite (proj2 (Z.ltb_ge _ _)) by done. cbn [orb]. red_bind.
  assert (is_ok r = is_ok r') as ->.
  { destruct (is_ok r), (is_ok r'); try done; [symmetry|]; by apply Hg'. }
  destruct (is_ok r'); [|done]. cbn [negb]. rewrite Hs. red_bind.
  assert ((c ++ rest) !! 0%nat = Some 100) as -> by by rewrite Ec. red_bind.
  assert ((length c =? 0)%nat = false) as -> by by rewrite Ec. cbn [orb Z.eqb Pos.eqb negb].
  rewrite !slice_total by (rewrite length_app; lia). red_bind.
  rewrite drop_0, Nat.sub_0_r, take_app_length, drop_app_length, take_ge by (rewrite length_app; lia).
  subst c. by rewrite from_bytes_canonical.
Qed.

Lemma md_parse_short msg_type piece :
  is_u32 piece -> msg_type = MSG_REQUEST \/ msg_type = MSG_REJECT ->
  md_parse_message from_bytes stack (md_encode_dict (request_pairs msg_type piece)) =
  Some (Some (if msg_type =? MSG_REQUEST then MdRequest piece else MdReject piece)).
Proof.
  intros Hp Hm. assert (Hm' : is_u32 msg_type) by by destruct Hm as [-> | ->].
  rewrite encode_request_tree. pose proof (length_request msg_type piece Hp Hm') as Hl.
  destruct (md_parse_dict (request_pairs msg_type piece) []) as (r & Er & E).
  - by apply request_pairs_wf.
  - rewrite app_nil_r. unfold MAX_EXTENSION_PAYLOAD. lia.
  - injection Er as <-. rewrite app_nil_r in E. rewrite E. cbn [is_ok]. unfold message_of, tree_dict.
    rewrite !dict_assoc. unfold int_pairs, request_pairs. cbn [map fst snd assoc]. literals.
    cbn [fmap option_fmap option_map value_of]. unfold try_from, is_u32 in *.
    rewrite (proj2 (Z.leb_le 0 piece)), (proj2 (Z.leb_le piece U32_MAX)) by lia. by destruct Hm as [-> | ->].
Qed.

Lemma md_parse_request piece :
  is_u32 piece -> md_parse_message from_bytes stack (encode_request piece) = Some (Some (MdRequest piece)).
Proof. intros Hp. apply (md_parse_short MSG_REQUEST piece Hp). by left. Qed.

Lemma md_parse_reject piece :
  is_u32 piece -> md_parse_message from_bytes stack (encode_reject piece) = Some (Some (MdReject piece)).
Proof. intros Hp. apply (md_parse_short MSG_REJECT piece Hp). by right. Qed.

(** A piece of metadata on the wire: it is read back exactly when its raw bytes
    pass the nesting guard by themselves. *)
Lemma md_parse_data piece total_size data :
  is_u32 piece -> is_i64 total_size -> (length data <= METADATA_PIECE_LEN)%nat ->
  exists r, check_bencode_depth data = Some r /\
    md_parse_message from_bytes stack (encode_data piece total_size data) =
    Some (if is_ok r then Some (MdData piece (Some total_size) data) else None).
Proof.
  intros Hp Ht Hd. unfold encode_data. fold (data_pairs piece total_size). rewrite encode_data_tree.
  pose proof (length_data_head piece total_size Hp Ht) as Hl.
  destruct (md_parse_dict (data_pairs piece total_size) data) as (r & Er & E).
  - by apply data_pairs_wf.
  - rewrite length_app. unfold MAX_EXTENSION_PAYLOAD, METADATA_PIECE_LEN in *. lia.
  - exists r. split; [done|]. rewrite E. f_equal. destruct (is_ok r); [|done]. unfold message_of, tree_dict.
    rewrite !dict_assoc. unfold int_pairs, data_pairs. cbn [map fst snd assoc]. literals.
    cbn [fmap option_fmap option_map value_of]. unfold try_from, is_u32 in *.
    rewrite (proj2 (Z.leb_le 0 piece)), (proj2 (Z.leb_le piece U32_MAX)) by lia. cbn [andb]. red_bind.
    cbn [Z.eqb]. by rewrite (proj2 (Nat.ltb_ge _ _)) by done.
Qed.
End Codec.

(** ** The pieces of a metadata *)

Lemma piece_len_pos : (0 < METADATA_PIECE_LEN)%nat.
Proof. unfold METADATA_PIECE_LEN. lia. Qed.

(** The length of slot [i]. *)
Definition slot_len (size i : nat) : nat := Nat.min METADATA_PIECE_LEN (size - i * METADATA_PIECE_LEN).

Lemma piece_total_spec size i : (i < piece_total size)%nat <-> (i * METADATA_PIECE_LEN < size)%nat.
Proof.
  unfold piece_total. pose proof piece_len_pos as Hp. generalize dependent METADATA_PIECE_LEN. intros P Hp.
  pose proof (Nat.div_mod_eq (size + (P - 1)) P) as E. pose proof (Nat.mod_upper_bound (size + (P - 1)) P ltac:(lia)).
  split; intros H'; nia.
Qed.

Record fetch_ok (f : FetchState) : Prop := {
  fo_size : (1 <= fs_size f)%nat /\ Z.of_nat (fs_size f) <= MAX_METADATA_SIZE;
  fo_len : length (fs_pieces f) = piece_total (fs_size f);
  fo_slots : forall i d, fs_pieces f !! i = Some (Some d) -> length d = slot_len (fs_size f) i;
  fo_inflight : forall piece inf, fs_inflight f !! piece = Some inf ->
    0 <= piece /\ fs_pieces f !! Z.to_nat piece = Some None }.

Lemma piece_len_spec f piece :
  fetch_ok f ->
  piece_len f piece =
  if (Z.to_nat piece <? length (fs_pieces f))%nat then Some (slot_len (fs_size f) (Z.to_nat piece)) else None.
Proof.
  intros [[H1 _] Hl _ _]. unfold piece_len, slot_len. set (i := Z.to_nat piece).
  destruct (Nat.leb_spec (length (fs_pieces f)) i); [by rewrite (proj2 (Nat.ltb_ge _ _)) by lia|].
  rewrite (proj2 (Nat.ltb_lt _ _)) by lia. rewrite Hl in *.
  pose proof (proj1 (piece_total_spec (fs_size f) i) ltac:(lia)) as Hi.
  pose proof piece_len_pos as Hp.
  destruct (Nat.eqb_spec (i + 1) (piece_total (fs_size f))) as [Hlast|Hlast].
  - assert (Hend : (fs_size f <= (i + 1) * METADATA_PIECE_LEN)%nat).
    { destruct (Nat.le_gt_cases (fs_size f) ((i + 1) * METADATA_PIECE_LEN)) as [|Hgt]; [done|].
      apply piece_total_spec in Hgt. lia. }
    f_equal. clear Hlast Hl. set (P := METADATA_PIECE_LEN) in *. clearbody P.
    pose proof (Nat.div_mod_eq (fs_size f) P) as E. pose proof (Nat.mod_upper_bound (fs_size f) P ltac:(lia)).
    destruct (Nat.eqb_spec (fs_size f mod P) 0) as [E0|E0].
    + assert (fs_size f / P = i + 1)%nat by nia. nia.
    + assert (fs_size f / P = i)%nat by nia. nia.
  - f_equal. assert (Hn : (i + 1 < piece_total (fs_size f))%nat) by lia. apply piece_total_spec in Hn. nia.
Qed.

Lemma slot_len_le size i : (slot_len size i <= METADATA_PIECE_LEN)%nat.
Proof. unfold slot_len. lia. Qed.

Lemma fetch_new_ok size : (1 <= size)%nat -> Z.of_nat size <= MAX_METADATA_SIZE -> fetch_ok (fetch_new size).
Proof.
  intros H1 H2. split; cbn [fetch_new fs_size fs_pieces fs_inflight].
  - done.
  - apply length_replicate.
  - intros i d [? _]%lookup_replicate. done.
  - intros piece inf. by rewrite lookup_empty.
Qed.

(** ** Claims *)

(** The claims made: missing pieces nobody was asked for, each once, no more than
    allowed; they are in flight to [peer] now and nothing else changes. *)
Lemma claim_loop_spec peer now max idx slots inflight out :
  (length out <= max)%nat ->
  exists new, (claim_loop peer now max idx slots inflight out).1 = out ++ new /\
    (length (out ++ new) <= max)%nat /\ NoDup new /\
    (forall p, p ∈ new -> Z.of_nat idx <= p /\ slots !! (Z.to_nat p - idx)%nat = Some None /\ inflight !! p = None) /\
    (forall p, (claim_loop peer now max idx slots inflight out).2 !! p =
       if decide (p ∈ new) then Some (mkInflight peer now) else inflight !! p).
Proof.
  revert idx inflight out. induction slots as [|slot slots IH]; intros idx inflight out Hm; cbn [claim_loop].
  { exists []. rewrite app_nil_r. split_and!; try done; [constructor|by intros p ?%not_elem_of_nil]. }
  destruct (Nat.leb_spec max (length out)).
  { exists []. rewrite app_nil_r. split_and!; try done; [constructor|by intros p ?%not_elem_of_nil]. }
  assert (Hskip : exists new, (claim_loop peer now max (S idx) slots inflight out).1 = out ++ new /\
    (length (out ++ new) <= max)%nat /\ NoDup new /\
    (forall p, p ∈ new -> Z.of_nat idx <= p /\ (slot :: slots) !! (Z.to_nat p - idx)%nat = Some None /\ inflight !! p = None) /\
    (forall p, (claim_loop peer now max (S idx) slots inflight out).2 !! p =
       if decide (p ∈ new) then Some (mkInflight peer now) else inflight !! p)).
  { destruct (IH (S idx) inflight out Hm) as (new & E1 & Hl & Hnd & Hin & E2). exists new. split_and!; try done.
    intros p Hp. destruct (Hin p Hp) as (? & ? & ?). split_and!; [lia| |done].
    replace (Z.to_nat p - idx)%nat with (S (Z.to_nat p - S idx)) by lia. done. }
  destruct slot as [d|]; [done|]. destruct (inflight !! Z.of_nat idx) eqn:Ei; [done|]. clear Hskip.
  destruct (IH (S idx) (<[Z.of_nat idx := mkInflight peer now]> inflight) (out ++ [Z.of_nat idx]))
    as (new & E1 & Hl & Hnd & Hin & E2); [rewrite length_app; cbn; lia|].
  exists (Z.of_nat idx :: new). rewrite E1, <- app_assoc. cbn [app]. split_and!.
  - done.
  - by rewrite <- app_assoc in Hl.
  - constructor; [|done]. intros Hx. destruct (Hin _ Hx) as (? & _). lia.
  - intros p [->|Hp]%elem_of_cons.
    + split_and!; [lia| |done]. by replace (Z.to_nat (Z.of_nat idx) - idx)%nat with 0%nat by lia.
    + destruct (Hin p Hp) as (? & ? & Hn). split_and!; [lia| |].
      * by replace (Z.to_nat p - idx)%nat with (S (Z.to_nat p - S idx)) by lia.
      * by rewrite lookup_insert_ne in Hn by lia.
  - intros p. rewrite E2. destruct (decide (p = Z.of_nat idx)) as [->|Hne].
    + rewrite (decide_True (P := Z.of_nat idx ∈ Z.of_nat idx :: new)) by left.
      case_decide; [done|]. apply lookup_insert_eq.
    + destruct (decide (p ∈ new)); [by rewrite decide_True by by right|].
      rewrite decide_False; [by rewrite lookup_insert_ne|]. by intros [?|?]%elem_of_cons.
Qed.

(** The claims stop short of the limit only when every missing piece is in
    flight. *)
Lemma claim_loop_complete peer now max idx slots inflight out i :
  (length (claim_loop peer now max idx slots inflight out).1 < max)%nat -> slots !! i = Some None ->
  is_Some ((claim_loop peer now max idx slots inflight out).2 !! Z.of_nat (idx + i)).
Proof.
  revert idx inflight out i. induction slots as [|slot slots IH]; intros idx inflight out i; [done|]. cbn [claim_loop].
  destruct (Nat.leb_spec max (length out)); [cbn [fst]; lia|].
  assert (Hmono : forall inflight out, is_Some (inflight !! Z.of_nat idx) -> (length out <= max)%nat ->
    is_Some ((claim_loop peer now max (S idx) slots inflight out).2 !! Z.of_nat idx)).
  { intros m o Hm Ho. destruct (claim_loop_spec peer now max (S idx) slots m o Ho) as (new & _ & _ & _ & _ & E).
    rewrite E. case_decide; [by eexists|done]. }
  destruct i as [|i]; cbn [lookup list_lookup].
  - intros Hl [= ->]. rewrite Nat.add_0_r in *. destruct (inflight !! Z.of_nat idx) eqn:E.
    + apply Hmono; [by rewrite E|lia].
    + apply Hmono; [rewrite lookup_insert_eq; by eexists|rewrite length_app; cbn; lia].
  - intros Hl Hi. replace (idx + S i)%nat with (S idx + i)%nat by lia.
    destruct slot; [by apply IH|]. destruct (inflight !! Z.of_nat idx); by apply IH.
Qed.

(** ** The store's invariant *)

Section Invariant.
Context (sha1 : bytes -> bytes) (order : gset SocketAddr -> list SocketAddr).

Record store_ok (ms : MetadataStore) : Prop := {
  so_bytes : forall b, ms_info_bytes ms = Some b -> sha1 b = ms_info_hash ms /\ ms_fetch ms = None;
  so_completed : ms_completed ms = ms_info_bytes ms;
  so_fetch : forall f, ms_fetch ms = Some f -> fetch_ok f }.

Lemma store_new_ok info_hash : store_ok (metadata_new info_hash).
Proof. by split. Qed.

(** Replacing the fetch of a store that has no metadata yet. *)
Lemma set_fetch_ok fo ms :
  store_ok ms -> (forall f, fo = Some f -> ms_info_bytes ms = None /\ fetch_ok f) -> store_ok (set_fetch fo ms).
Proof.
  intros [Hb Hc Hf] H. split; cbn [set_fetch ms_info_bytes ms_info_hash ms_fetch ms_completed]; [|done|].
  - intros b E. split; [by apply Hb|]. destruct fo as [f|]; [|done]. destruct (H f eq_refl). congruence.
  - intros f E. by apply H.
Qed.

(** Dropping requests in flight. *)
Lemma drop_inflight_ok f m ms :
  store_ok ms -> ms_fetch ms = Some f ->
  (forall p i, m !! p = Some i -> fs_inflight f !! p = Some i) ->
  store_ok (set_fetch (Some (set_fs_inflight m f)) ms).
Proof.
  intros H E Hm. apply set_fetch_ok; [done|]. intros f' [= <-]. split.
  - destruct (ms_info_bytes ms) as [b|] eqn:Eb; [|done]. destruct (so_bytes _ H b Eb). congruence.
  - destruct (so_fetch _ H f E) as [H1 H2 H3 H4]. split; try done. intros p i Hp. by eapply H4, Hm.
Qed.

Lemma adopt_size_ok size ms : store_ok ms -> store_ok (adopt_size size ms).2.
Proof.
  intros H. unfold adopt_size. destruct (Z.leb_spec size 0); [done|].
  destruct (Z.ltb_spec MAX_METADATA_SIZE size); [done|]. cbn [orb].
  destruct (ms_info_bytes ms) eqn:Eb; [done|]. destruct (ms_fetch ms); [done|]. cbn [snd].
  apply set_fetch_ok; [done|]. intros f [= <-]. split; [done|]. apply fetch_new_ok; lia.
Qed.

Lemma md_on_reject_ok peer piece ms : store_ok ms -> store_ok (md_on_reject peer piece ms).
Proof.
  intros H. unfold md_on_reject. destruct (ms_fetch ms) as [f|] eqn:E; [|done].
  destruct (fs_inflight f !! piece) as [inf|]; [|done]. case_decide; [|done]. apply drop_inflight_ok; [done|done|].
  by intros p i [_ ?]%lookup_delete_Some.
Qed.

Lemma on_peer_gone_ok peer ms : store_ok ms -> store_ok (on_peer_gone peer ms).
Proof.
  intros H. unfold on_peer_gone. destruct (ms_fetch ms) as [f|] eqn:E; [|done]. apply drop_inflight_ok; [done|done|].
  by intros p i [? _]%map_lookup_filter_Some.
Qed.

Lemma release_timeouts_ok now ms : store_ok ms -> store_ok (release_timeouts now ms).2.
Proof.
  intros H. unfold release_timeouts. destruct (ms_fetch ms) as [f|] eqn:E; [|done]. apply drop_inflight_ok; [done|done|].
  by intros p i [? _]%map_lookup_filter_Some.
Qed.

(** Claiming keeps the invariant; what is claimed is in flight to the claimer. *)
Lemma claim_requests_ok now peer max ms :
  store_ok ms ->
  store_ok (claim_requests now peer max ms).2 /\
  (length (claim_requests now peer max ms).1 <= max)%nat /\ NoDup (claim_requests now peer max ms).1 /\
  (forall p, p ∈ (claim_requests now peer max ms).1 -> is_u32 p /\
    exists f, ms_fetch (claim_requests now peer max ms).2 = Some f /\ fs_inflight f !! p = Some (mkInflight peer now)).
Proof.
  intros H. unfold claim_requests. destruct (Nat.eqb_spec max 0).
  { split_and!; [done|cbn; lia|constructor|by intros p ?%not_elem_of_nil]. }
  destruct (ms_info_bytes ms) eqn:Eb.
  { split_and!; [done|cbn; lia|constructor|by intros p ?%not_elem_of_nil]. }
  destruct (ms_fetch ms) as [f|] eqn:Ef.
  2:{ split_and!; [done|cbn; lia|constructor|by intros p ?%not_elem_of_nil]. }
  destruct (so_fetch _ H f Ef) as [H1 H2 H3 H4].
  destruct (claim_loop_spec peer now max 0 (fs_pieces f) (fs_inflight f) []) as (new & E1 & Hl & Hnd & Hin & E2); [cbn; lia|].
  destruct (claim_loop peer now max 0 (fs_pieces f) (fs_inflight f) []) as [out infl]. cbn [fst snd app] in *. subst out.
  split_and!; try done.
  - apply set_fetch_ok; [done|]. intros f' [= <-]. split; [done|]. split; cbn [set_fs_inflight fs_size fs_pieces fs_inflight]; try done.
    intros p inf. rewrite E2. case_decide as Hp; [|apply H4]. intros _. destruct (Hin p Hp) as (? & Hs & _).
    split; [lia|]. by rewrite Nat.sub_0_r in Hs.
  - intros p Hp. destruct (Hin p Hp) as (Hp0 & Hs%lookup_lt_Some & _). split.
    + rewrite H2 in Hs. apply piece_total_spec in Hs. pose proof piece_len_pos.
      unfold is_u32, U32_MAX, MAX_METADATA_SIZE in *. nia.
    + eexists. split; [done|]. cbn [set_fs_inflight fs_inflight]. by rewrite E2, decide_True.
Qed.

(** What is claimed was missing, and nobody had been asked for it. *)
Lemma claim_requests_fresh now peer max ms p :
  p ∈ (claim_requests now peer max ms).1 ->
  exists f, ms_fetch ms = Some f /\ fs_inflight f !! p = None /\ fs_pieces f !! Z.to_nat p = Some None.
Proof.
  unfold claim_requests. destruct (max =? 0)%nat; [by intros ?%not_elem_of_nil|].
  destruct (ms_info_bytes ms), (ms_fetch ms) as [f|]; try by intros ?%not_elem_of_nil.
  destruct (claim_loop_spec peer now max 0 (fs_pieces f) (fs_inflight f) []) as (new & E1 & _ & _ & Hin & _); [cbn; lia|].
  destruct (claim_loop peer now max 0 (fs_pieces f) (fs_inflight f) []) as [out infl]. cbn [fst app] in *. subst out.
  intros Hp. destruct (Hin p Hp) as (_ & Hs & Hi). rewrite Nat.sub_0_r in Hs. by exists f.
Qed.

Lemma mapM_all (l : list (option bytes)) :
  existsb (fun p => bool_decide (p = None)) l = false -> exists parts, mapM id l = Some parts /\ l = map Some parts.
Proof.
  induction l as [|[d|] l IH]; intros H; [by exists []| |done]. cbn [existsb] in H.
  rewrite bool_decide_eq_false_2 in H by done. destruct (IH H) as (parts & E & ->). exists (d :: parts).
  split; [|done]. cbn. by rewrite E.
Qed.

(** Receiving data: no panic, and the invariant with its integrity holds. *)
Lemma md_on_data_ok now peer piece data total_size ms ps :
  store_ok ms -> 0 <= piece ->
  exists outcome sent ms' ps', md_on_data sha1 order now peer piece data total_size ms ps = Some (outcome, sent, ms', ps') /\
    store_ok ms' /\ ms_info_hash ms' = ms_info_hash ms /\
    (outcome = HashMismatch -> ms_fetch ms' = None).
Proof.
  intros H Hp0.
  assert (Hkeep : forall o, o <> HashMismatch -> exists outcome sent ms' ps',
    Some (o, [] : list (SocketAddr * WriterRequest), ms, ps) = Some (outcome, sent, ms', ps') /\
    store_ok ms' /\ ms_info_hash ms' = ms_info_hash ms /\ (outcome = HashMismatch -> ms_fetch ms' = None)).
  { intros o Ho. exists o, [], ms, ps. by split_and!. }
  unfold md_on_data. destruct (ms_info_bytes ms) eqn:Eb; [by apply Hkeep|].
  destruct (ms_fetch ms) as [f|] eqn:Ef; [|by apply Hkeep]. destruct (total_size_ok total_size f); [|by apply Hkeep].
  cbn [negb]. pose proof (so_fetch _ H f Ef) as Hf. rewrite (piece_len_spec f piece Hf).
  destruct (Nat.ltb_spec (Z.to_nat piece) (length (fs_pieces f))) as [Hlt|]; [|by apply Hkeep].
  destruct (Nat.eqb_spec (length data) (slot_len (fs_size f) (Z.to_nat piece))) as [Hlen|]; [|by apply Hkeep]. cbn [negb].
  destruct (fs_inflight f !! piece) as [inf|] eqn:Ei.
  2:{ destruct (fs_pieces f !! Z.to_nat piece) as [[]|]; by apply Hkeep. }
  destruct (bool_decide (if_peer inf = peer)); [|by apply Hkeep]. cbn [negb].
  destruct (fo_inflight _ Hf piece inf Ei) as [_ Hslot]. cbv zeta. cbn [set_fs_inflight fs_pieces fs_size fs_inflight].
  rewrite Hslot. red_bind.
  set (f1 := mkFetch (fs_size f) (<[Z.to_nat piece:=Some data]> (fs_pieces f)) (delete piece (fs_inflight f)) _).
  assert (Hf1 : fetch_ok f1).
  { destruct Hf as [H1 H2 H3 H4]. subst f1. split; cbn [fs_size fs_pieces fs_inflight].
    - exact H1.
    - by rewrite length_insert.
    - intros i d [[<- [[= <-] _]]|[_ ?]]%list_lookup_insert_Some; [done|by eapply H3].
    - intros p i [Hne Hp]%lookup_delete_Some. destruct (H4 p i Hp) as [? ?]. split; [done|].
      rewrite list_lookup_insert_ne by lia. done. }
  destruct (existsb _ _) eqn:Ex.
  { eexists _, _, _, _. split; [done|]. split_and!; try done. apply set_fetch_ok; [done|]. by intros f' [= <-]. }
  unfold assemble. destruct (mapM_all _ Ex) as (parts & Ep & _). change (mapM id (fs_pieces f1) = Some parts) in Ep.
  rewrite Ep. red_bind.
  case_decide as Hsha.
  - eexists _, _, _, _. split; [done|]. split_and!; try done.
    split; cbn [ms_info_bytes ms_info_hash ms_fetch ms_completed]; [|done|done]. by intros b [= <-].
  - destruct (blame _ _ _ _) as [sent ps']. eexists _, _, _, _. split; [done|]. split_and!; try done.
    apply set_fetch_ok; [done|]. done.
Qed.

Lemma serve_total piece ms : is_Some (serve_piece piece ms).
Proof.
  unfold serve_piece. destruct (ms_info_bytes ms) as [b|]; [|by eexists].
  destruct (Nat.leb_spec (length b) (Z.to_nat piece * METADATA_PIECE_LEN)); [by eexists|].
  rewrite slice_total by lia. by eexists.
Qed.
End Invariant.

(** Parsing never panics with 33 frames of stack. *)
Lemma md_parse_total from_bytes stack payload :
  (MAX_BENCODE_DEPTH < stack)%nat ->
  exists m, md_parse_message from_bytes stack payload = Some m /\
    match m with Some (MdRequest p) | Some (MdReject p) | Some (MdData p _ _) => is_u32 p | None => True end.
Proof.
  intros Hs. unfold md_parse_message. destruct (bool_decide (payload = [])) eqn:Ene; [by exists None|].
  apply bool_decide_eq_false in Ene. destruct (Z.ltb_spec MAX_EXTENSION_PAYLOAD (Z.of_nat (length payload))); [by exists None|].
  cbn [orb]. destruct (check_guard payload) as (r & Er & Hg); [unfold MAX_EXTENSION_PAYLOAD, U64_MAX in *; lia|].
  rewrite Er. red_bind. destruct (is_ok r) eqn:Eo; [|by exists None]. cbn [negb].
  destruct (skip_bounded stack payload 0 0) as [r' Er']; [by apply Hg|lia|lia|]. rewrite Er'. red_bind.
  destruct r' as [stop|]; [|by exists None]. apply skip_progress in Er'.
  destruct payload as [|b0 payload]; [done|]. cbn [lookup list_lookup]. red_bind.
  destruct (_ || _); [by exists None|]. rewrite !slice_total by lia. red_bind. eexists. split; [done|].
  destruct (from_bytes _) as [[| | |dict]|]; try done. unfold message_of.
  destruct (dict !! str "msg_type") as [[|ty| |]|], (dict !! str "piece") as [[|n| |]|]; try done.
  unfold try_from. destruct (Z.leb_spec 0 n), (Z.leb_spec n U32_MAX); cbn [andb]; try done. red_bind.
  set (rest := take _ _). assert (is_u32 n) by by split.
  destruct (ty =? MSG_REQUEST); [by destruct rest|]. destruct (ty =? MSG_REJECT); [by destruct rest|].
  destruct (ty =? MSG_DATA); [|done].
  destruct (dict !! str "total_size") as [[| | |]|]; red_bind; try done; by destruct (_ <? _)%nat.
Qed.

(** ** The messages are told apart *)

Lemma encode_request_inj p q : is_u32 p -> is_u32 q -> encode_request p = encode_request q -> p = q.
Proof.
  intros Hp Hq E. pose proof (md_parse_request parse_bencode 33 ltac:(unfold MAX_BENCODE_DEPTH; lia) p Hp) as H1.
  rewrite E, (md_parse_request parse_bencode 33) in H1 by (done || unfold MAX_BENCODE_DEPTH; lia). congruence.
Qed.

Lemma reject_not_request p q : is_u32 p -> is_u32 q -> encode_reject p <> encode_request q.
Proof.
  intros Hp Hq E. pose proof (md_parse_reject parse_bencode 33 ltac:(unfold MAX_BENCODE_DEPTH; lia) p Hp) as H1.
  rewrite E, (md_parse_request parse_bencode 33) in H1 by (done || unfold MAX_BENCODE_DEPTH; lia). congruence.
Qed.

Lemma data_not_request p t d q :
  is_u32 p -> is_i64 t -> (length d <= METADATA_PIECE_LEN)%nat -> is_u32 q -> encode_data p t d <> encode_request q.
Proof.
  intros Hp Ht Hd Hq E. destruct (md_parse_data parse_bencode 33 ltac:(unfold MAX_BENCODE_DEPTH; lia) p t d Hp Ht Hd)
    as (r & _ & H1).
  rewrite E, (md_parse_request parse_bencode 33) in H1 by (done || unfold MAX_BENCODE_DEPTH; lia). by destruct (is_ok r).
Qed.

Lemma serve_piece_size piece ms data total :
  serve_piece piece ms = Some (Some (data, total)) -> (length data <= METADATA_PIECE_LEN)%nat /\ is_i64 total.
Proof.
  unfold serve_piece. destruct (ms_info_bytes ms) as [b|]; [|done]. destruct (_ <=? _)%nat; [done|].
  destruct (slice _ _ _) as [part|] eqn:E; [|done]. red_bind. intros [= <- <-].
  apply slice_length in E. unfold is_i64, I64_MAX. lia.
Qed.

(** ** One connection *)

Section Connection.
Context (sha1 : bytes -> bytes) (order : gset SocketAddr -> list SocketAddr).

Definition um_ok (u : UtMetadata) : Prop :=
  (size (um_inflight u) <= METADATA_PIPELINE)%nat /\ (um_served u <= MAX_SERVE_PER_WINDOW)%nat.

(** What a handler leaves: the invariants, and every request it sends is in
    flight to its peer. *)
Record handled (now : Instant) (u : UtMetadata) (ms : MetadataStore) (out : list bytes)
    (u' : UtMetadata) (ms' : MetadataStore) : Prop := {
  hd_store : store_ok sha1 ms';
  hd_conn : um_ok u';
  hd_peer : um_peer u' = um_peer u;
  hd_hash : ms_info_hash ms' = ms_info_hash ms;
  hd_requests : forall p, is_u32 p -> encode_request p ∈ out ->
    exists f, ms_fetch ms' = Some f /\ fs_inflight f !! p = Some (mkInflight (um_peer u) now) }.

Lemma handled_nothing now u ms u' ms' :
  store_ok sha1 ms' -> um_ok u' -> um_peer u' = um_peer u -> ms_info_hash ms' = ms_info_hash ms ->
  handled now u ms [] u' ms'.
Proof. intros. split; try done. by intros p _ ?%not_elem_of_nil. Qed.

Lemma size_fold_insert now (pieces : list u32) (m : gmap u32 Instant) :
  (size (fold_left (fun m piece => <[piece := now]> m) pieces m) <= size m + length pieces)%nat.
Proof.
  revert m. induction pieces as [|p ps IH]; intros m; cbn [fold_left length]; [lia|].
  etrans; [apply IH|]. rewrite map_size_insert. destruct (m !! p); cbn; lia.
Qed.

Lemma set_fetch_hash fo ms : ms_info_hash (set_fetch fo ms) = ms_info_hash ms.
Proof. done. Qed.

Lemma claim_hash now peer max ms : ms_info_hash (claim_requests now peer max ms).2 = ms_info_hash ms.
Proof.
  unfold claim_requests. destruct (_ =? _)%nat; [done|]. destruct (ms_info_bytes ms), (ms_fetch ms); try done.
  by destruct (claim_loop _ _ _ _ _ _ _).
Qed.

Lemma request_more_ok now u ms out u' ms' :
  store_ok sha1 ms -> um_ok u -> request_more now u ms = (out, u', ms') -> handled now u ms out u' ms'.
Proof.
  intros Hs [Hi Hv] E. unfold request_more in E.
  destruct (negb (um_supports u) || _); [injection E as <- <- <-; by apply handled_nothing|].
  destruct (bool_decide (um_peer_size u = None)); [injection E as <- <- <-; by apply handled_nothing|].
  set (want := (METADATA_PIPELINE - size (um_inflight u))%nat) in E.
  destruct (claim_requests_ok sha1 now (um_peer u) want ms Hs) as (H1 & H2 & _ & H4).
  pose proof (claim_hash now (um_peer u) want ms) as H5.
  destruct (claim_requests now (um_peer u) want ms) as [pieces ms1]. cbn [fst snd] in *. injection E as <- <- <-.
  split; try done.
  - split; cbn [set_um_inflight um_inflight um_served]; [|done]. pose proof (size_fold_insert now pieces (um_inflight u)). lia.
  - intros p Hp Hin. apply list_elem_of_fmap in Hin as (q & Eq & Hq). destruct (H4 q Hq) as [Hqu (f & Ef & Hl)].
    apply encode_request_inj in Eq as ->; [|done|done]. by exists f.
Qed.

Lemma um_on_tick_ok now u ms out u' ms' :
  store_ok sha1 ms -> um_ok u -> um_on_tick now u ms = (out, u', ms') -> handled now u ms out u' ms'.
Proof.
  intros Hs [Hi Hv] E. unfold um_on_tick in E. destruct (_ || _).
  { injection E as <- <- <-. apply handled_nothing; try done. split; [done|cbn; lia]. }
  unfold expire_local in E. pose proof (release_timeouts_ok sha1 now ms Hs) as Hr.
  assert (Eh : ms_info_hash (release_timeouts now ms).2 = ms_info_hash ms)
    by (unfold release_timeouts; by destruct (ms_fetch ms)).
  destruct (release_timeouts now ms) as [rel ms1]. cbn [snd] in *.
  apply request_more_ok in E; [|done|].
  - destruct E as [H1 H2 H3 H4 H5]. split; try done. congruence.
  - split; cbn; [|lia]. etrans; [|exact Hi]. apply map_subseteq_size, map_filter_subseteq.
Qed.

(** A request is for a missing piece that is in flight to nobody. *)
Lemma request_more_fresh now u ms out u' ms' p :
  store_ok sha1 ms -> request_more now u ms = (out, u', ms') -> is_u32 p -> encode_request p ∈ out ->
  exists f, ms_fetch ms = Some f /\ fs_inflight f !! p = None /\ fs_pieces f !! Z.to_nat p = Some None.
Proof.
  intros Hs E Hp Hin. unfold request_more in E.
  destruct (negb (um_supports u) || _); [injection E as <- <- <-; by apply not_elem_of_nil in Hin|].
  destruct (bool_decide (um_peer_size u = None)); [injection E as <- <- <-; by apply not_elem_of_nil in Hin|].
  set (want := (METADATA_PIPELINE - size (um_inflight u))%nat) in E.
  destruct (claim_requests_ok sha1 now (um_peer u) want ms Hs) as (_ & _ & _ & H4).
  pose proof (claim_requests_fresh now (um_peer u) want ms) as H5.
  destruct (claim_requests now (um_peer u) want ms) as [pieces ms1]. cbn [fst snd] in *. injection E as <- <- <-.
  apply list_elem_of_fmap in Hin as (q & Eq & Hq). destruct (H4 q Hq) as [Hqu _].
  apply encode_request_inj in Eq as ->; [|done|done]. by apply H5.
Qed.

(** A tick asks again only for what timed out. *)
Lemma um_on_tick_fresh now u ms out u' ms' f p inf :
  store_ok sha1 ms -> um_on_tick now u ms = (out, u', ms') -> ms_fetch ms = Some f -> fs_inflight f !! p = Some inf ->
  is_u32 p -> encode_request p ∈ out -> METADATA_REQUEST_TIMEOUT <= since now (if_at inf).
Proof.
  intros Hs E Ef Hl Hp Hin. unfold um_on_tick in E. destruct (_ || _); [injection E as <- <- <-; by apply not_elem_of_nil in Hin|].
  unfold expire_local in E. pose proof (release_timeouts_ok sha1 now ms Hs) as Hr. unfold release_timeouts in E, Hr. rewrite Ef in E, Hr.
  destruct (request_more_fresh _ _ _ _ _ _ p Hr E Hp Hin) as (f' & [= <-] & Hn & _).
  cbn [set_fs_inflight fs_inflight] in Hn. apply map_lookup_filter_None in Hn as [Hn|Hn]; [congruence|].
  specialize (Hn _ Hl). cbn in Hn. lia.
Qed.

(** Data takes only what is in flight to its sender. *)
Lemma md_on_data_releases now peer piece data total ms ps o sent ms' ps' f f' p inf :
  md_on_data sha1 order now peer piece data total ms ps = Some (o, sent, ms', ps') ->
  o = Accepted \/ o = Duplicate -> ms_fetch ms = Some f -> fs_inflight f !! p = Some inf ->
  ms_fetch ms' = Some f' -> fs_inflight f' !! p = None -> if_peer inf = peer.
Proof.
  intros E Ho Ef Hl Ef' Hn. unfold md_on_data in E. rewrite Ef in E.
  destruct (ms_info_bytes ms); [injection E as <- <- <- <-; by destruct Ho|].
  destruct (negb (total_size_ok total f)); [injection E as <- <- <- <-; by destruct Ho|].
  destruct (piece_len f piece); [|injection E as <- <- <- <-; by destruct Ho].
  destruct (negb _); [injection E as <- <- <- <-; by destruct Ho|].
  destruct (fs_inflight f !! piece) as [i|] eqn:Ei.
  2:{ destruct (fs_pieces f !! Z.to_nat piece) as [[?|]|]; injection E as <- <- <- <-; try (by destruct Ho). congruence. }
  case_bool_decide as Hpeer; cbn [negb] in E; [|injection E as <- <- <- <-; by destruct Ho].
  assert (Hp : fs_inflight f' = delete piece (fs_inflight f) -> if_peer inf = peer).
  { intros Ed. rewrite Ed in Hn. apply lookup_delete_None in Hn as [<-|Hn]; congruence. }
  destruct (fs_pieces _ !! Z.to_nat piece) as [[?|]|]; cbn [mbind option_bind] in E; [| |done].
  { injection E as <- <- <- <-. injection Ef' as <-. by apply Hp. }
  destruct (existsb _ _); [injection E as <- <- <- <-; injection Ef' as <-; by apply Hp|].
  unfold assemble in E. destruct (mapM _ _); cbn [mbind option_bind] in E; [|done].
  destruct (decide _); [injection E as <- <- <- <-; by destruct Ho|].
  destruct (blame _ _ _ _). injection E as <- <- <- <-. by destruct Ho.
Qed.

Lemma um_on_handshake_ok info u ms u' ms' :
  store_ok sha1 ms -> um_ok u -> um_on_handshake info u ms = (u', ms') ->
  store_ok sha1 ms' /\ um_ok u' /\ um_peer u' = um_peer u /\ ms_info_hash ms' = ms_info_hash ms.
Proof.
  intros Hs Hu E. unfold um_on_handshake in E. destruct (negb _); [by injection E as <- <-|].
  destruct (pi_metadata_size info) as [sz|]; [|by injection E as <- <-].
  destruct (ms_info_bytes ms) eqn:Eb; [by injection E as <- <-|].
  pose proof (adopt_size_ok sha1 sz ms Hs) as Ha.
  assert (Eh : ms_info_hash (adopt_size sz ms).2 = ms_info_hash ms).
  { unfold adopt_size. destruct (_ || _); [done|]. rewrite Eb. by destruct (ms_fetch ms). }
  destruct (adopt_size sz ms) as [ad ms1]. cbn [snd] in *. by injection E as <- <-.
Qed.

Lemma delete_inflight_ok piece u :
  um_ok u -> um_ok (set_um_inflight (delete piece (um_inflight u)) u).
Proof.
  intros [Hi Hv]. split; [|done]. cbn [set_um_inflight um_inflight]. etrans; [|exact Hi].
  apply map_subseteq_size, delete_subseteq.
Qed.

Context (from_bytes : bytes -> option Value) (stack : nat) (Hstack : (MAX_BENCODE_DEPTH < stack)%nat).

Lemma um_on_message_ok now payload u ms ps :
  store_ok sha1 ms -> um_ok u ->
  exists out sent u' ms' ps', um_on_message sha1 order from_bytes stack now payload u ms ps = Some (out, sent, u', ms', ps') /\
    handled now u ms out u' ms'.
Proof.
  intros Hs Hu. unfold um_on_message. destruct (um_disconnect u).
  { eexists _, _, _, _, _. split; [done|]. by apply handled_nothing. }
  destruct (md_parse_total from_bytes stack payload Hstack) as (m & Em & Hm). rewrite Em. red_bind.
  destruct m as [[piece|piece total data|piece]|].
  - destruct (Nat.leb_spec MAX_SERVE_PER_WINDOW (um_served u)).
    { eexists _, _, _, _, _. split; [done|]. split; try done. intros p Hp Ep%list_elem_of_singleton.
      by apply eq_sym, reject_not_request in Ep. }
    destruct (serve_total piece ms) as [sv Esv]. rewrite Esv. red_bind.
    assert (Hu' : um_ok (set_um_served (S (um_served u)) u)) by (destruct Hu; split; cbn; [done|lia]).
    destruct sv as [[d t]|]; eexists _, _, _, _, _; (split; [done|]); (split; try done);
      intros p Hp Ep%list_elem_of_singleton; apply eq_sym in Ep.
    + destruct (serve_piece_size _ _ _ _ Esv). by apply data_not_request in Ep.
    + by apply reject_not_request in Ep.
  - destruct (bool_decide _).
    { eexists _, _, _, _, _. split; [done|]. by apply handled_nothing. }
    pose proof (delete_inflight_ok piece u Hu) as Hu1. set (u1 := set_um_inflight (delete piece (um_inflight u)) u) in *.
    destruct (md_on_data_ok sha1 order now (um_peer u1) piece data total ms ps Hs) as (o & sent & ms1 & ps1 & E & H1 & H2 & _);
      [apply Hm|]. rewrite E. red_bind.
    destruct (request_more now u1 ms1) as [[out2 u2] ms2] eqn:Er.
    pose proof (request_more_ok _ _ _ _ _ _ H1 Hu1 Er) as [G1 G2 G3 G4 G5].
    destruct o; eexists _, _, _, _, _; (split; [done|]); try (by apply handled_nothing); split; try done; congruence.
  - set (u1 := set_um_inflight (delete piece (um_inflight u)) u).
    destruct (request_more now u1 (md_on_reject (um_peer u1) piece ms)) as [[out2 u2] ms2] eqn:Er.
    apply request_more_ok in Er; [|by apply md_on_reject_ok|by apply delete_inflight_ok].
    eexists _, _, _, _, _. split; [done|]. destruct Er as [G1 G2 G3 G4 G5]. split; try done. rewrite G4.
    unfold md_on_reject. repeat case_match; done.
  - eexists _, _, _, _, _. split; [done|]. by apply handled_nothing.
Qed.

(** A message makes a piece be asked for again only when it was in flight to its
    sender, who refused it. *)
Lemma um_on_message_fresh now payload u ms ps out sent u' ms' ps' f p inf :
  store_ok sha1 ms -> um_ok u ->
  um_on_message sha1 order from_bytes stack now payload u ms ps = Some (out, sent, u', ms', ps') ->
  ms_fetch ms = Some f -> fs_inflight f !! p = Some inf -> is_u32 p -> encode_request p ∈ out -> if_peer inf = um_peer u.
Proof.
  intros Hs Hu E Ef Hl Hp Hin. unfold um_on_message in E. destruct (um_disconnect u).
  { injection E as <- <- <- <- <-. by apply not_elem_of_nil in Hin. }
  destruct (md_parse_total from_bytes stack payload Hstack) as (m & Em & Hm). rewrite Em in E. cbn [mbind option_bind] in E.
  destruct m as [[piece|piece total data|piece]|].
  - destruct (Nat.leb_spec MAX_SERVE_PER_WINDOW (um_served u)).
    { injection E as <- <- <- <- <-. apply list_elem_of_singleton in Hin. by apply eq_sym, reject_not_request in Hin. }
    destruct (serve_total piece ms) as [sv Esv]. rewrite Esv in E. cbn [mbind option_bind] in E.
    destruct sv as [[d t]|]; injection E as <- <- <- <- <-; apply list_elem_of_singleton, eq_sym in Hin.
    + destruct (serve_piece_size _ _ _ _ Esv). by apply data_not_request in Hin.
    + by apply reject_not_request in Hin.
  - destruct (bool_decide _); [injection E as <- <- <- <- <-; by apply not_elem_of_nil in Hin|].
    set (u1 := set_um_inflight (delete piece (um_inflight u)) u) in *.
    destruct (md_on_data_ok sha1 order now (um_peer u1) piece data total ms ps Hs) as (o & sent1 & ms1 & ps1 & Ed & H1 & _); [apply Hm|].
    rewrite Ed in E. cbn [mbind option_bind] in E. destruct (request_more now u1 ms1) as [[out2 u2] ms2] eqn:Er.
    destruct o; injection E as <- <- <- <- <-; try (by apply not_elem_of_nil in Hin);
      destruct (request_more_fresh _ _ _ _ _ _ p H1 Er Hp Hin) as (f' & Ef' & Hn & _);
      (eapply (md_on_data_releases _ (um_peer u1)); [exact Ed|by auto|exact Ef|exact Hl|exact Ef'|exact Hn]).
  - set (u1 := set_um_inflight (delete piece (um_inflight u)) u) in *.
    destruct (request_more now u1 (md_on_reject (um_peer u1) piece ms)) as [[out2 u2] ms2] eqn:Er. injection E as <- <- <- <- <-.
    destruct (request_more_fresh _ _ _ _ _ _ p (md_on_reject_ok sha1 _ _ _ Hs) Er Hp Hin) as (f' & Ef' & Hn & _).
    unfold md_on_reject in Ef'. rewrite Ef in Ef'. destruct (fs_inflight f !! piece) as [i|] eqn:Ei; [|congruence].
    case_decide as Hpeer; [|congruence]. injection Ef' as <-. cbn in Hn. apply lookup_delete_None in Hn as [<-|Hn]; [|congruence].
    rewrite Ei in Hl. injection Hl as <-. done.
  - injection E as <- <- <- <- <-. by apply not_elem_of_nil in Hin.
Qed.
End Connection.

(** ** The connections of a torrent *)

Record Swarm := mkSwarm {
  sw_store : MetadataStore;
  sw_states : PeerStates;
  sw_conns : gmap SocketAddr UtMetadata }.

Inductive md_event :=
| MdJoin (peer : SocketAddr)
| MdHandshake (peer : SocketAddr) (info : PeerExtensionInfo)
| MdMessage (peer : SocketAddr) (now : Instant) (payload : bytes)
| MdTick (peer : SocketAddr) (now : Instant)
| MdGone (peer : SocketAddr).

Definition swarm_new (info_hash : bytes) : Swarm := mkSwarm (metadata_new info_hash) peer_states_new ∅.

Section Swarms.
Context (sha1 : bytes -> bytes) (order : gset SocketAddr -> list SocketAddr).
Context (from_bytes : bytes -> option Value) (stack : nat).

(** One event: what is sent to its peer, and the swarm afterwards; [None] for a
    panic.  Events of a connection that does not exist do nothing. *)
Definition md_step (sw : Swarm) (ev : md_event) : option (list bytes * Swarm) :=
  let '(mkSwarm ms ps conns) := sw in
  match ev with
  | MdJoin peer =>
      match conns !! peer with
      | None => Some ([], mkSwarm ms ps (<[peer := um_new peer]> conns))
      | Some _ => Some ([], sw)
      end
  | MdHandshake peer info =>
      match conns !! peer with
      | None => Some ([], sw)
      | Some u => let '(u, ms) := um_on_handshake info u ms in Some ([], mkSwarm ms ps (<[peer := u]> conns))
      end
  | MdMessage peer now payload =>
      match conns !! peer with
      | None => Some ([], sw)
      | Some u =>
          '(out, _, u, ms, ps) ← um_on_message sha1 order from_bytes stack now payload u ms ps;
          Some (out, mkSwarm ms ps (<[peer := u]> conns))
      end
  | MdTick peer now =>
      match conns !! peer with
      | None => Some ([], sw)
      | Some u =>
          let '(out, u, ms) := um_on_tick now u ms in Some (out, mkSwarm ms ps (<[peer := u]> conns))
      end
  | MdGone peer =>
      match conns !! peer with
      | None => Some ([], sw)
      | Some _ => Some ([], mkSwarm (on_peer_gone peer ms) ps (delete peer conns))
      end
  end.

Fixpoint md_run (sw : Swarm) (evs : list md_event) : option Swarm :=
  match evs with
  | [] => Some sw
  | ev :: evs => '(_, sw) ← md_step sw ev; md_run sw evs
  end.

Record swarm_ok (sw : Swarm) : Prop := {
  sk_store : store_ok sha1 (sw_store sw);
  sk_conns : forall peer u, sw_conns sw !! peer = Some u -> um_ok u /\ um_peer u = peer }.

Lemma swarm_new_ok info_hash : swarm_ok (swarm_new info_hash).
Proof. split; [apply store_new_ok|]. intros peer u. cbn. by rewrite lookup_empty. Qed.

Lemma conns_insert_ok (conns : gmap SocketAddr UtMetadata) peer u ms ps :
  store_ok sha1 ms -> um_ok u -> um_peer u = peer ->
  (forall peer u, conns !! peer = Some u -> um_ok u /\ um_peer u = peer) ->
  swarm_ok (mkSwarm ms ps (<[peer := u]> conns)).
Proof.
  intros Hs Hu Hp Hc. split; [done|]. cbn [sw_conns].
  intros q v [[<- <-]|[_ Hv]]%lookup_insert_Some; [done|by apply Hc].
Qed.

(** The requests a step sends are in flight to the peer they are sent to. *)
Definition requests_in_flight (ev : md_event) (out : list bytes) (sw : Swarm) : Prop :=
  forall p, is_u32 p -> encode_request p ∈ out ->
    exists peer f at_, ms_fetch (sw_store sw) = Some f /\ fs_inflight f !! p = Some (mkInflight peer at_) /\
      match ev with MdMessage q now _ | MdTick q now => peer = q /\ at_ = now | _ => False end.

(** A step asks for a piece that is in flight only when its time is over, or
    when its peer itself gave it back. *)
Definition asked_once (sw : Swarm) (ev : md_event) (out : list bytes) : Prop :=
  forall f p inf, ms_fetch (sw_store sw) = Some f -> fs_inflight f !! p = Some inf -> is_u32 p -> encode_request p ∈ out ->
    match ev with
    | MdMessage q _ _ => if_peer inf = q
    | MdTick _ now => METADATA_REQUEST_TIMEOUT <= since now (if_at inf)
    | _ => False
    end.

Context (Hstack : (MAX_BENCODE_DEPTH < stack)%nat).

Lemma md_step_asked_once sw ev out sw' :
  swarm_ok sw -> md_step sw ev = Some (out, sw') -> asked_once sw ev out.
Proof.
  intros [Hs Hc] E f p inf Ef Hl Hp Hin. destruct sw as [ms ps conns]. cbn [sw_store sw_conns] in *.
  destruct ev as [peer|peer info|peer now payload|peer now|peer]; cbn [md_step] in E;
    (destruct (conns !! peer) as [u|] eqn:Eu; [|injection E as <- <-; by apply not_elem_of_nil in Hin]).
  - injection E as <- <-. by apply not_elem_of_nil in Hin.
  - destruct (um_on_handshake _ _ _). injection E as <- <-. by apply not_elem_of_nil in Hin.
  - destruct (Hc _ _ Eu) as [Hu Hpeer].
    destruct (um_on_message _ _ _ _ _ _ _ _ _) as [[[[[out1 sent] u'] ms'] ps']|] eqn:Em; [|done]. injection E as <- _.
    rewrite <-Hpeer. by eapply (um_on_message_fresh sha1 order from_bytes stack Hstack).
  - destruct (um_on_tick now u ms) as [[out1 u'] ms'] eqn:Em. injection E as <- _. by eapply (um_on_tick_fresh sha1).
  - injection E as <- <-. by apply not_elem_of_nil in Hin.
Qed.

Lemma md_step_ok sw ev :
  swarm_ok sw ->
  exists out sw', md_step sw ev = Some (out, sw') /\ swarm_ok sw' /\
    ms_info_hash (sw_store sw') = ms_info_hash (sw_store sw) /\ requests_in_flight ev out sw'.
Proof.
  intros [Hs Hc]. destruct sw as [ms ps conns]. cbn [sw_store sw_conns] in *.
  assert (Hno : forall ev sw', requests_in_flight ev [] sw') by by intros ev' sw' p _ ?%not_elem_of_nil.
  assert (Hsame : exists out sw', Some ([] : list bytes, mkSwarm ms ps conns) = Some (out, sw') /\ swarm_ok sw' /\
    ms_info_hash (sw_store sw') = ms_info_hash ms /\ requests_in_flight ev out sw').
  { eexists _, _. by split_and!. }
  destruct ev as [peer|peer info|peer now payload|peer now|peer]; cbn [md_step];
    destruct (conns !! peer) as [u|] eqn:Eu; try done.
  - eexists _, _. split_and!; [done| |done|done]. apply conns_insert_ok; try done.
    split; cbn [um_new um_inflight um_served]; [rewrite map_size_empty|]; lia.
  - destruct (Hc _ _ Eu) as [Hu Hp]. destruct (um_on_handshake info u ms) as [u' ms'] eqn:E.
    apply (um_on_handshake_ok sha1) in E as (H1 & H2 & H3 & H4); [|done|done].
    eexists _, _. split_and!; [done| |done|done]. apply conns_insert_ok; [done|done|congruence|done].
  - destruct (Hc _ _ Eu) as [Hu Hp].
    destruct (um_on_message_ok sha1 order from_bytes stack Hstack now payload u ms ps Hs Hu) as (out & sent & u' & ms' & ps' & E & H).
    rewrite E. red_bind. destruct H as [H1 H2 H3 H4 H5]. eexists _, _. split_and!; [done| |done|].
    + apply conns_insert_ok; [done|done|congruence|done].
    + intros p Hpu Hin. destruct (H5 p Hpu Hin) as (f & Ef & Hl). exists peer, f, now. by subst.
  - destruct (Hc _ _ Eu) as [Hu Hp]. destruct (um_on_tick now u ms) as [[out u'] ms'] eqn:E.
    apply (um_on_tick_ok sha1) in E as [H1 H2 H3 H4 H5]; [|done|done].
    eexists _, _. split_and!; [done| |done|].
    + apply conns_insert_ok; [done|done|congruence|done].
    + intros p Hpu Hin. destruct (H5 p Hpu Hin) as (f & Ef & Hl). exists peer, f, now. by subst.
  - eexists _, _. split_and!; [done| | |done].
    + split; [by apply on_peer_gone_ok|]. cbn [sw_conns]. intros q v [_ ?]%lookup_delete_Some. by apply Hc.
    + cbn [sw_store]. unfold on_peer_gone. by destruct (ms_fetch ms).
Qed.

Lemma md_run_ok evs sw :
  swarm_ok sw ->
  exists sw', md_run sw evs = Some sw' /\ swarm_ok sw' /\ ms_info_hash (sw_store sw') = ms_info_hash (sw_store sw).
Proof.
  revert sw. induction evs as [|ev evs IH]; intros sw Hsw; cbn [md_run]; [by exists sw|].
  destruct (md_step_ok sw ev Hsw) as (out & sw1 & E & H1 & H2 & _). rewrite E. red_bind.
  destruct (IH sw1 H1) as (sw2 & E2 & H3 & H4). exists sw2. split_and!; [done|done|congruence].
Qed.
End Swarms.

(** C37: fetching metadata from strangers is safe: whatever the peers of a torrent
    send - any handshakes, messages and disconnections in any order - nothing
    panics; metadata that is reported complete has the torrent's info hash; a
    request puts the piece in flight to the peer it is sent to, and a piece that is
    in flight is asked of nobody until its ten seconds are over or its peer gave it
    back; only missing pieces within the metadata are in flight; a connection has at most two requests under way and is
    served at most four pieces between ticks; and the size fetched is at most
    8 MiB. *)
Theorem metadata_swarm_safe sha1 order from_bytes stack info_hash evs ev :
  (32 < stack)%nat ->
  exists sw out sw',
    md_run sha1 order from_bytes stack (swarm_new info_hash) evs = Some sw /\
    md_step sha1 order from_bytes stack sw ev = Some (out, sw') /\
    requests_in_flight ev out sw' /\ asked_once sw ev out /\
    (forall info, ms_completed (sw_store sw) = Some info ->
      ms_info_bytes (sw_store sw) = Some info /\ sha1 info = info_hash) /\
    (forall f piece inf, ms_fetch (sw_store sw) = Some f -> fs_inflight f !! piece = Some inf ->
      fs_pieces f !! Z.to_nat piece = Some None) /\
    (forall f, ms_fetch (sw_store sw) = Some f -> Z.of_nat (fs_size f) <= 8 * 1024 * 1024) /\
    (forall peer u, sw_conns sw !! peer = Some u -> (size (um_inflight u) <= 2)%nat /\ (um_served u <= 4)%nat).
Proof.
  intros Hs. destruct (md_run_ok sha1 order from_bytes stack Hs evs _ (swarm_new_ok sha1 info_hash)) as (sw & E & Hsw & Eh).
  destruct (md_step_ok sha1 order from_bytes stack Hs sw ev Hsw) as (out & sw' & E' & _ & _ & Hr).
  pose proof (md_step_asked_once sha1 order from_bytes stack Hs sw ev out sw' Hsw E') as Ho.
  destruct Hsw as [[H1 H2 H3] Hc]. exists sw, out, sw'. split_and!; try done.
  - intros info Hi. rewrite H2 in Hi. destruct (H1 info Hi) as [H4 _]. split; [done|]. by rewrite H4, Eh.
  - intros f piece inf Ef Hp. by apply (fo_inflight _ (H3 f Ef)) in Hp as [_ ?].
  - intros f Ef. apply (fo_size _ (H3 f Ef)).
  - intros peer u Hu. by apply Hc in Hu as [[? ?] _].
Qed.

Lemma metadata_swarm_safe_witness :
  let peer := V4 1 6881 in
  let info := mkPeerInfo {[UT_METADATA := 3]} None None None (Some 40000) in
  exists sw out sw',
    md_run (fun _ => []) elements parse_bencode 33 (swarm_new (replicate 20 7)) [MdJoin peer; MdHandshake peer info] = Some sw /\
    md_step (fun _ => []) elements parse_bencode 33 sw (MdTick peer 0) = Some (out, sw') /\
    requests_in_flight (MdTick peer 0) out sw'.
Proof.
  intros peer info.
  destruct (metadata_swarm_safe (fun _ => []) elements parse_bencode 33 (replicate 20 7)
    [MdJoin peer; MdHandshake peer info] (MdTick peer 0) ltac:(lia)) as (sw & out & sw' & H1 & H2 & H3 & _).
  by exists sw, out, sw'.
Defined.

(** ** Fetches that cannot get on *)

Section Blocked.
Context (sha1 : bytes -> bytes) (order : gset SocketAddr -> list SocketAddr).
Context (from_bytes : bytes -> option Value) (stack : nat) (Hstack : (MAX_BENCODE_DEPTH < stack)%nat).

(** All the payloads of a run. *)
Fixpoint md_outputs (sw : Swarm) (evs : list md_event) : option (list bytes * Swarm) :=
  match evs with
  | [] => Some ([], sw)
  | ev :: evs =>
      '(out, sw) ← md_step sha1 order from_bytes stack sw ev;
      '(outs, sw) ← md_outputs sw evs;
      Some (out ++ outs, sw)
  end.

Definition no_request (outs : list bytes) : Prop := forall p, is_u32 p -> encode_request p ∉ outs.

(** A state [I] in which nothing is requested, kept by the events [ok]. *)
Lemma blocked_run (I : Swarm -> Prop) (ok : md_event -> Prop) evs sw :
  (forall sw ev out sw', I sw -> ok ev -> md_step sha1 order from_bytes stack sw ev = Some (out, sw') ->
    I sw' /\ no_request out) ->
  swarm_ok sha1 sw -> I sw -> Forall ok evs ->
  exists outs sw', md_outputs sw evs = Some (outs, sw') /\ I sw' /\ no_request outs.
Proof.
  intros Hstep. revert sw. induction evs as [|ev evs IH]; intros sw Hsw Hi Hok; cbn [md_outputs].
  { exists [], sw. split_and!; try done. by intros p _ ?%not_elem_of_nil. }
  apply Forall_cons in Hok as [Hev Hok].
  destruct (md_step_ok sha1 order from_bytes stack Hstack sw ev Hsw) as (out & sw1 & E & H1 & _). rewrite E. red_bind.
  destruct (Hstep _ _ _ _ Hi Hev E) as [Hi1 Ho]. destruct (IH sw1 H1 Hi1 Hok) as (outs & sw2 & E2 & Hi2 & Hn).
  rewrite E2. red_bind. eexists _, _. split_and!; [done|done|]. intros p Hp [?|?]%elem_of_app; [by eapply Ho|by eapply Hn].
Qed.

(** Requests are only sent by [request_more]; without metadata every request of
    the peer is rejected. *)
Lemma no_request_nil : no_request [].
Proof. by intros p _ ?%not_elem_of_nil. Qed.

Lemma no_request_reject piece : is_u32 piece -> no_request [encode_reject piece].
Proof. intros Hp q Hq E%list_elem_of_singleton. by eapply reject_not_request. Qed.

(** A connection nothing can be asked of: the size its peer told was not adopted. *)
Definition idle (u : UtMetadata) : Prop := um_peer_size u = None /\ um_inflight u = ∅.

Lemma idle_request_more now u ms : idle u -> request_more now u ms = ([], u, ms).
Proof.
  intros [Hp _]. unfold request_more. destruct (_ || _); [done|]. by rewrite bool_decide_eq_true_2.
Qed.

Lemma idle_message now payload u ms ps out sent u' ms' ps' :
  idle u -> ms_info_bytes ms = None ->
  um_on_message sha1 order from_bytes stack now payload u ms ps = Some (out, sent, u', ms', ps') ->
  idle u' /\ no_request out /\ (ms' = ms \/ exists peer piece, ms' = md_on_reject peer piece ms).
Proof.
  intros [Hp Hi] Hb. unfold um_on_message. destruct (um_disconnect u).
  { intros [= <- _ <- <- _]. split_and!; [done|apply no_request_nil|by left]. }
  destruct (md_parse_total from_bytes stack payload Hstack) as (m & Em & Hm). rewrite Em. red_bind.
  destruct m as [[piece|piece total data|piece]|].
  - destruct (_ <=? _)%nat; [intros [= <- _ <- <- _]; split_and!; [done|by apply no_request_reject|by left]|].
    assert (serve_piece piece ms = Some None) as -> by (unfold serve_piece; by rewrite Hb). red_bind.
    intros [= <- _ <- <- _]. split_and!; [done|by apply no_request_reject|by left].
  - rewrite bool_decide_eq_true_2 by (by rewrite Hi, lookup_empty). intros [= <- _ <- <- _].
    split_and!; [done|apply no_request_nil|by left].
  - rewrite idle_request_more by (split; cbn [set_um_inflight um_peer_size um_inflight]; [done|by rewrite Hi, delete_empty]).
    intros [= <- _ <- <- _]. split_and!; [|apply no_request_nil|by eauto].
    split; cbn [set_um_inflight um_peer_size um_inflight]; [done|by rewrite Hi, delete_empty].
  - intros [= <- _ <- <- _]. split_and!; [done|apply no_request_nil|by left].
Qed.

Lemma idle_tick now u ms : idle u ->
  exists u' ms', um_on_tick now u ms = ([], u', ms') /\ idle u' /\
    (ms' = ms \/ ms' = (release_timeouts now ms).2).
Proof.
  intros [Hp Hi]. unfold um_on_tick. destruct (_ || _); [eexists _, _; split_and!; [done|done|by left]|].
  unfold expire_local. destruct (release_timeouts now ms) as [rel ms1].
  assert (Hid : idle (set_um_inflight (filter (fun e => since now e.2 < METADATA_REQUEST_TIMEOUT)
    (um_inflight (set_um_served 0 u))) (set_um_served 0 u))).
  { split; cbn [set_um_served set_um_inflight um_peer_size um_inflight]; [done|]. by rewrite Hi, map_filter_empty. }
  rewrite idle_request_more by done. eexists _, _. split_and!; [done|done|by right].
Qed.

(** The fetch adopted a size nobody else tells. *)
Definition stuck (s : i64) (sw : Swarm) : Prop :=
  ms_info_bytes (sw_store sw) = None /\
  (exists f, ms_fetch (sw_store sw) = Some f /\ Z.of_nat (fs_size f) = s) /\
  forall peer u, sw_conns sw !! peer = Some u -> idle u.

Definition tells_other (s : i64) (ev : md_event) : Prop :=
  match ev with MdHandshake _ info => pi_metadata_size info <> Some s | _ => True end.

(** Operations that only drop requests in flight keep the size. *)
Lemma store_keeps ms ms' s now :
  ms_info_bytes ms = None -> (exists f, ms_fetch ms = Some f /\ Z.of_nat (fs_size f) = s) ->
  ms' = ms \/ (exists peer piece, ms' = md_on_reject peer piece ms) \/ ms' = (release_timeouts now ms).2 \/
    (exists peer, ms' = on_peer_gone peer ms) ->
  ms_info_bytes ms' = None /\ exists f, ms_fetch ms' = Some f /\ Z.of_nat (fs_size f) = s.
Proof.
  intros Hb (f & Ef & Es) [->|[(peer & piece & ->)|[->|(peer & ->)]]]; [eauto| | |].
  - unfold md_on_reject. rewrite Ef. repeat case_match; cbn [set_fetch ms_info_bytes ms_fetch]; eauto.
  - unfold release_timeouts. rewrite Ef. cbn [snd set_fetch ms_info_bytes ms_fetch]. eauto.
  - unfold on_peer_gone. rewrite Ef. cbn [set_fetch ms_info_bytes ms_fetch]. eauto.
Qed.

Lemma stuck_step s sw ev out sw' :
  stuck s sw -> tells_other s ev -> md_step sha1 order from_bytes stack sw ev = Some (out, sw') ->
  stuck s sw' /\ no_request out.
Proof.
  destruct sw as [ms ps conns]. intros (Hb & Hf & Hc) Hev. cbn [sw_store sw_conns] in *.
  assert (Hsame : stuck s (mkSwarm ms ps conns) /\ no_request []) by (split; [done|apply no_request_nil]).
  assert (Hins : forall peer u ms' ps', idle u ->
    ms_info_bytes ms' = None /\ (exists f, ms_fetch ms' = Some f /\ Z.of_nat (fs_size f) = s) ->
    stuck s (mkSwarm ms' ps' (<[peer := u]> conns))).
  { intros peer u ms' ps' Hu [? ?]. split_and!; try done. cbn [sw_conns].
    intros q v [[<- <-]|[_ Hv]]%lookup_insert_Some; [done|by eapply Hc]. }
  destruct ev as [peer|peer info|peer now payload|peer now|peer]; cbn [md_step tells_other] in *;
    destruct (conns !! peer) as [u|] eqn:Eu; try by intros [= <- <-].
  - intros [= <- <-]. split; [by apply Hins|apply no_request_nil].
  - destruct (um_on_handshake info u ms) as [u' ms'] eqn:E. intros [= <- <-].
    split; [|apply no_request_nil]. pose proof (Hc _ _ Eu) as [Hp Hi]. unfold um_on_handshake in E. cbv zeta in E.
    destruct (negb _); [injection E as <- <-; by apply Hins|].
    destruct (pi_metadata_size info) as [n|] eqn:En; [|injection E as <- <-; by apply Hins].
    rewrite Hb in E. destruct Hf as (f & Ef & Es). unfold adopt_size in E.
    destruct (Z.leb_spec n 0); [injection E as <- <-; by apply Hins; eauto|].
    destruct (Z.ltb_spec MAX_METADATA_SIZE n); [injection E as <- <-; by apply Hins; eauto|]. cbn [orb] in E.
    rewrite Hb, Ef in E. destruct (Nat.eqb_spec (fs_size f) (Z.to_nat n)); [|injection E as <- <-; by apply Hins; eauto].
    destruct Hev. f_equal. lia.
  - destruct (um_on_message _ _ _ _ _ _ _ _ _) as [[[[[out' sent] u'] ms'] ps']|] eqn:E; [|done]. red_bind.
    intros [= <- <-]. apply idle_message in E as (H1 & H2 & H3); [|by eapply Hc|done]. split; [|done].
    apply Hins; [done|]. eapply (store_keeps ms ms' s 0); [done|done|]. destruct H3; auto.
  - destruct (idle_tick now u ms (Hc _ _ Eu)) as (u' & ms' & E & H1 & H2). rewrite E. intros [= <- <-].
    split; [|apply no_request_nil]. apply Hins; [done|]. eapply (store_keeps ms ms' s now); [done|done|]. destruct H2; auto.
  - intros [= <- <-]. split; [|apply no_request_nil].
    destruct (store_keeps ms (on_peer_gone peer ms) s 0 Hb Hf) as [? ?]; [eauto 6|].
    split_and!; try done. cbn [sw_conns]. intros q v [_ ?]%lookup_delete_Some. by eapply Hc.
Qed.
End Blocked.

(** One peer can stop the fetch of the metadata for good: the first size that
    is told is kept until the metadata is complete, also when the peer that told
    it is gone.  After a peer that told a wrong size has come and gone, no peer
    that tells another size is ever asked for a piece, and the metadata never
    completes. *)
Theorem wrong_size_blocks_metadata sha1 order from_bytes stack info_hash liar id s evs :
  (32 < stack)%nat -> 0 < id <= 255 -> 1 <= s <= 8 * 1024 * 1024 -> Forall (tells_other s) evs ->
  exists outs sw,
    md_outputs sha1 order from_bytes stack (swarm_new info_hash)
      ([MdJoin liar; MdHandshake liar (mkPeerInfo {[UT_METADATA := id]} None None None (Some s)); MdGone liar] ++ evs)
      = Some (outs, sw) /\
    no_request outs /\ ms_info_bytes (sw_store sw) = None.
Proof.
  intros Hst Hid Hs Hevs. set (info := mkPeerInfo _ None None None (Some s)).
  set (step := md_step sha1 order from_bytes stack).
  set (u := mkUtMetadata liar true (Some (Z.of_nat (Z.to_nat s))) ∅ 0 false).
  set (ms := mkMetadata info_hash None (Some (fetch_new (Z.to_nat s))) None).
  assert (E1 : step (swarm_new info_hash) (MdJoin liar) =
    Some ([], mkSwarm (metadata_new info_hash) peer_states_new {[liar := um_new liar]})) by done.
  assert (E2 : step (mkSwarm (metadata_new info_hash) peer_states_new {[liar := um_new liar]}) (MdHandshake liar info) =
    Some ([], mkSwarm ms peer_states_new {[liar := u]})).
  { subst step. cbn [md_step]. rewrite lookup_singleton_eq. unfold um_on_handshake, peer_ext_id. cbn [info pi_m].
    rewrite lookup_singleton_eq. red_bind. rewrite (proj2 (Z.eqb_neq id 0)) by lia.
    rewrite bool_decide_eq_true_2 by by eexists. cbn [set_um_supports um_supports negb info pi_metadata_size metadata_new ms_info_bytes].
    unfold adopt_size. rewrite (proj2 (Z.leb_gt s 0)) by lia.
    rewrite (proj2 (Z.ltb_ge MAX_METADATA_SIZE s)) by (unfold MAX_METADATA_SIZE; lia).
    cbn [orb metadata_new ms_info_bytes ms_fetch]. by rewrite insert_singleton_eq. }
  assert (E3 : step (mkSwarm ms peer_states_new {[liar := u]}) (MdGone liar) = Some ([], mkSwarm ms peer_states_new ∅)).
  { subst step. cbn [md_step]. rewrite lookup_singleton_eq, delete_singleton_eq. by cbn. }
  destruct (blocked_run sha1 order from_bytes stack Hst (stuck s) (tells_other s) evs (mkSwarm ms peer_states_new ∅))
    as (outs & sw & E & Hi & Hn); [by intros; eapply stuck_step| | |done|].
  - split; [|by intros q v; cbn; rewrite lookup_empty].
    apply (set_fetch_ok sha1 (Some (fetch_new (Z.to_nat s))) (metadata_new info_hash)); [apply store_new_ok|].
    intros f [= <-]. split; [done|]. apply fetch_new_ok; [lia|unfold MAX_METADATA_SIZE; lia].
  - split_and!; [done| |by intros q v; cbn; rewrite lookup_empty]. eexists. split; [done|]. cbn. lia.
  - exists outs, sw. split_and!; [|done|apply Hi]. cbn [app md_outputs]. subst step.
    rewrite E1. red_bind. rewrite E2. red_bind. rewrite E3. red_bind. rewrite E. by red_bind.
Qed.

Lemma no_fetch_request_more now u ms :
  ms_fetch ms = None -> ms_info_bytes ms = None -> exists u', request_more now u ms = ([], u', ms).
Proof.
  intros Hf Hb. unfold request_more. destruct (_ || _); [by eexists|]. destruct (bool_decide _); [by eexists|].
  unfold claim_requests. rewrite Hf, Hb. destruct (_ =? _)%nat; by eexists.
Qed.

Lemma no_fetch_message sha1 order from_bytes stack now payload u ms ps out sent u' ms' ps' :
  (MAX_BENCODE_DEPTH < stack)%nat -> ms_fetch ms = None -> ms_info_bytes ms = None ->
  um_on_message sha1 order from_bytes stack now payload u ms ps = Some (out, sent, u', ms', ps') ->
  ms' = ms /\ no_request out.
Proof.
  intros Hs Hf Hb. unfold um_on_message. destruct (um_disconnect u); [intros [= <- _ _ <- _]; split; [done|apply no_request_nil]|].
  destruct (md_parse_total from_bytes stack payload Hs) as (m & Em & Hm). rewrite Em. red_bind.
  destruct m as [[piece|piece total data|piece]|].
  - destruct (_ <=? _)%nat; [intros [= <- _ _ <- _]; split; [done|by apply no_request_reject]|].
    assert (serve_piece piece ms = Some None) as -> by (unfold serve_piece; by rewrite Hb). red_bind.
    intros [= <- _ _ <- _]. split; [done|by apply no_request_reject].
  - destruct (bool_decide _); [intros [= <- _ _ <- _]; split; [done|apply no_request_nil]|].
    unfold md_on_data. rewrite Hb, Hf. red_bind. intros [= <- _ _ <- _]. split; [done|apply no_request_nil].
  - set (u1 := set_um_inflight _ u).
    assert (md_on_reject (um_peer u1) piece ms = ms) as -> by (unfold md_on_reject; by rewrite Hf).
    destruct (no_fetch_request_more now u1 ms Hf Hb) as [u2 ->].
    intros [= <- _ _ <- _]. split; [done|apply no_request_nil].
  - intros [= <- _ _ <- _]. split; [done|apply no_request_nil].
Qed.

(** After a hash mismatch the fetch is gone and only a handshake starts another:
    the peers that are connected, which all sent theirs, are never asked again. *)
Lemma mismatch_stalls sha1 order from_bytes stack sw evs :
  (MAX_BENCODE_DEPTH < stack)%nat -> swarm_ok sha1 sw ->
  ms_fetch (sw_store sw) = None -> ms_info_bytes (sw_store sw) = None ->
  Forall (fun ev => match ev with MdHandshake _ _ => False | _ => True end) evs ->
  exists outs sw', md_outputs sha1 order from_bytes stack sw evs = Some (outs, sw') /\
    no_request outs /\ ms_info_bytes (sw_store sw') = None.
Proof.
  intros Hs Hok Hf Hb Hevs.
  destruct (blocked_run sha1 order from_bytes stack Hs
    (fun sw => ms_fetch (sw_store sw) = None /\ ms_info_bytes (sw_store sw) = None)
    (fun ev => match ev with MdHandshake _ _ => False | _ => True end) evs sw) as (outs & sw' & E & [_ ?] & Hn);
    [|done|done|done|by exists outs, sw'].
  clear -Hs. intros [ms ps conns] ev out sw' [Hf Hb] Hev E. cbn [sw_store] in *.
  destruct ev as [peer|peer info|peer now payload|peer now|peer]; [| done| | |]; cbn [md_step] in E;
    destruct (conns !! peer) as [u|]; try (by injection E as <- <-; split; [done|apply no_request_nil]).
  - destruct (um_on_message _ _ _ _ _ _ _ _ _) as [[[[[out' sent] u'] ms'] ps']|] eqn:Em; [|done]. revert E. red_bind.
    intros [= <- <-]. by apply no_fetch_message in Em as [-> ?].
  - unfold um_on_tick in E. destruct (_ || _); [by injection E as <- <-; split; [done|apply no_request_nil]|].
    unfold expire_local, release_timeouts in E. rewrite Hf in E.
    match type of E with context [request_more now ?u1 ms] => destruct (no_fetch_request_more now u1 ms Hf Hb) as [u2 E2] end.
    rewrite E2 in E. injection E as <- <-. split; [done|apply no_request_nil].
  - injection E as <- <-. split; [|apply no_request_nil]. unfold on_peer_gone. cbn [sw_store]. by rewrite Hf.
Qed.

(** ** Pieces the nesting guard refuses *)

(** An info dictionary of a torrent with 850 pieces. *)
Definition sample_info (hashes : bytes) : bytes :=
  str "d6:lengthi27852800e4:name1:a12:piece lengthi32768e6:pieces17000:" ++ hashes ++ str "e".

(** Honest peers are disconnected: the raw bytes of a metadata piece run
    through the nesting guard for bencode, although they start in the middle of
    the dictionary.  For a well-formed info dictionary of 850 piece hashes that
    the guard accepts as a whole, the reply of a peer that has it, with the second
    piece, is taken for a malformed message and the connection is given up,
    whatever the state of the fetch. *)
Theorem metadata_piece_refused sha1 order from_bytes u ms ps now info_hash :
  let info := sample_info (replicate (Z.to_nat 17000) 108) in
  um_disconnect u = false ->
  check_bencode_depth info = Some (Ok ()) /\
  (exists v, parse_bencode info = Some (VDict v)) /\
  exists data size, serve_piece 1 (with_bytes info_hash info) = Some (Some (data, size)) /\
    length data = 681%nat /\
    um_on_message sha1 order from_bytes 33 now (encode_data 1 size data) u ms ps =
      Some ([], [], set_um_disconnect u, ms, ps).
Proof.
  intros info Hu. split; [vm_compute; reflexivity|]. split; [vm_compute; eexists; reflexivity|].
  eexists _, _. split; [vm_compute; reflexivity|]. split; [vm_compute; reflexivity|].
  unfold um_on_message. rewrite Hu.
  assert (E : forall data, (length data <= METADATA_PIECE_LEN)%nat -> check_bencode_depth data = Some (Err TooDeep) ->
    md_parse_message from_bytes 33 (encode_data 1 17065 data) = Some None).
  { intros data Hd Hg. unfold encode_data. fold (data_pairs 1 17065). rewrite encode_data_tree.
    unfold md_parse_message. pose proof (length_data_head 1 17065 ltac:(done) ltac:(done)) as Hl.
    set (c := encode_value (EDict (int_pairs (data_pairs 1 17065)))) in *.
    assert (Hu1 : Z.of_nat (length (c ++ data)) <= MAX_EXTENSION_PAYLOAD).
    { rewrite length_app. unfold METADATA_PIECE_LEN, MAX_EXTENSION_PAYLOAD in *. lia. }
    rewrite (proj2 (Z.ltb_ge _ _)) by done. destruct (bool_decide (c ++ data = [])); [done|]. cbn [orb].
    destruct (check_guard (c ++ data)) as (r & Er & Hr); [unfold MAX_EXTENSION_PAYLOAD, U64_MAX in *; lia|].
    rewrite Er. red_bind. destruct (is_ok r); [|done]. exfalso.
    assert (Hg' : guard_ok (c ++ data) 0 0) by by apply Hr.
    apply guard_behind in Hg' as [f Hf]; [|unfold MAX_BENCODE_DEPTH; cbn; lia|].
    2:{ fold c. unfold MAX_EXTENSION_PAYLOAD, U64_MAX in *. lia. }
    by pose proof (depth_loop_det _ _ _ _ _ _ _ Hg Hf). }
  match goal with |- context [encode_data 1 ?s ?d] => rewrite (E d) end.
  - by red_bind.
  - vm_compute. lia.
  - vm_compute. reflexivity.
Qed.
