(* ===== verification/MetadataTransfer.v ===== *)
(** * The metadata exchange between two peers (crates/bit_rev/src/extension/ut_metadata.rs)

    Two connections of the metadata extension facing each other, every message
    encoded and parsed: a peer that has the info dictionary and one that fetches
    it, which ends up with it. *)

From S2P Require Import Prelude Bencode Text Value Bitfield Message PeerStates ExtHandshake Metadata.

(** ** From a peer that has the metadata to one that fetches it *)

Section Transfer.
Context (sha1 : bytes -> bytes) (order : gset SocketAddr -> list SocketAddr).
Context (from_bytes : bytes -> option Value) (stack : nat).

(** The replies delivered one after the other; what is sent in return. *)
Fixpoint deliver (now : Instant) (payloads : list bytes) (u : UtMetadata) (ms : MetadataStore) (ps : PeerStates)
    : option (list bytes * UtMetadata * MetadataStore * PeerStates) :=
  match payloads with
  | [] => Some ([], u, ms, ps)
  | payload :: payloads =>
      '(out, _, u, ms, ps) ← um_on_message sha1 order from_bytes stack now payload u ms ps;
      '(outs, u, ms, ps) ← deliver now payloads u ms ps;
      Some (out ++ outs, u, ms, ps)
  end.

(** The requests in the queue are answered in order by the peer [su] with the
    store [sms], which ticks before each of them. *)
Fixpoint exchange (fuel : nat) (now : Instant) (queue : list bytes) (su : UtMetadata) (sms : MetadataStore)
    (u : UtMetadata) (ms : MetadataStore) (ps : PeerStates) : option (list bytes * UtMetadata * MetadataStore) :=
  match fuel, queue with
  | S fuel, request :: queue =>
      let '(_, su, sms) := um_on_tick now su sms in
      '(replies, _, su, sms, ps) ← um_on_message sha1 order from_bytes stack now request su sms ps;
      '(more, u, ms, ps) ← deliver now replies u ms ps;
      exchange fuel now (queue ++ more) su sms u ms ps
  | _, _ => Some (queue, u, ms)
  end.

Context `{!BencodeLib from_bytes} (Hstack : (MAX_BENCODE_DEPTH < stack)%nat).
Context (info : bytes) (info_hash : bytes) (Hsha : sha1 info = info_hash).
Context (Hlen : (1 <= length info)%nat) (Hmax : Z.of_nat (length info) <= MAX_METADATA_SIZE).

Definition chunk (i : nat) : bytes := take METADATA_PIECE_LEN (drop (i * METADATA_PIECE_LEN) info).

Context (Hguard : forall i, (i < piece_total (length info))%nat -> check_bencode_depth (chunk i) = Some (Ok ())).

Lemma length_chunk i : length (chunk i) = slot_len (length info) i.
Proof. unfold chunk, slot_len. by rewrite length_take, length_drop. Qed.

Lemma concat_chunks k n : concat (map chunk (seq k n)) = take (n * METADATA_PIECE_LEN) (drop (k * METADATA_PIECE_LEN) info).
Proof.
  revert k. induction n as [|n IH]; intros k; [done|]. cbn [seq map concat]. rewrite IH. unfold chunk.
  replace (S k * METADATA_PIECE_LEN)%nat with (k * METADATA_PIECE_LEN + METADATA_PIECE_LEN)%nat by lia.
  rewrite <- drop_drop. cbn [Nat.mul]. generalize (drop (k * METADATA_PIECE_LEN) info). intros l.
  rewrite <- (take_drop METADATA_PIECE_LEN l) at 3.
  destruct (Nat.le_gt_cases METADATA_PIECE_LEN (length l)).
  - rewrite take_app_add'; [done|]. rewrite length_take. lia.
  - rewrite !(drop_ge l) by lia. rewrite take_nil, !app_nil_r. rewrite (take_ge (take _ l)); [done|]. rewrite length_take. lia.
Qed.

Lemma assembled parts :
  length parts = piece_total (length info) -> (forall i d, parts !! i = Some d -> d = chunk i) ->
  take (length info) (concat parts) = info.
Proof.
  intros Hl Hp. assert (parts = map chunk (seq 0 (piece_total (length info)))) as ->.
  { apply list_eq. intros i. rewrite <- Hl. change (map chunk) with (fmap (M := list) chunk). rewrite list_lookup_fmap.
    destruct (parts !! i) as [d|] eqn:E.
    - rewrite lookup_seq_lt by by eapply lookup_lt_Some. cbn. f_equal. by apply Hp.
    - rewrite lookup_seq_ge by by apply lookup_ge_None. done. }
  rewrite concat_chunks. cbn [Nat.mul]. rewrite drop_0, take_take, take_ge; [done|].
  destruct (Nat.le_gt_cases (length info) (piece_total (length info) * METADATA_PIECE_LEN)) as [|H]; [lia|].
  apply piece_total_spec in H. lia.
Qed.

Lemma piece_u32 i : (i < piece_total (length info))%nat -> is_u32 (Z.of_nat i).
Proof.
  intros H%piece_total_spec. pose proof piece_len_pos. unfold is_u32, U32_MAX, MAX_METADATA_SIZE in *. nia.
Qed.

(** The reply of a peer that has the metadata. *)
Lemma seeder_reply now i su ps :
  (i < piece_total (length info))%nat -> um_disconnect su = false -> (um_served su < MAX_SERVE_PER_WINDOW)%nat ->
  um_on_message sha1 order from_bytes stack now (encode_request (Z.of_nat i)) su (with_bytes info_hash info) ps =
  Some ([encode_data (Z.of_nat i) (Z.of_nat (length info)) (chunk i)], [], set_um_served (S (um_served su)) su,
        with_bytes info_hash info, ps).
Proof.
  intros Hi Hd Hv. unfold um_on_message. rewrite Hd, md_parse_request by (done || by apply piece_u32). red_bind.
  rewrite (proj2 (Nat.leb_gt _ _)) by done. unfold serve_piece. cbn [with_bytes ms_info_bytes].
  pose proof Hi as Hi'%piece_total_spec. rewrite Nat2Z.id, (proj2 (Nat.leb_gt _ _)) by done.
  rewrite slice_total by lia. red_bind. rewrite Z.min_l by (unfold I64_MAX, MAX_METADATA_SIZE in *; lia).
  do 3 f_equal. assert (take (Nat.min (i * METADATA_PIECE_LEN + METADATA_PIECE_LEN) (length info) - i * METADATA_PIECE_LEN)
    (drop (i * METADATA_PIECE_LEN) info) = chunk i) as ->; [|done].
  unfold chunk. destruct (Nat.le_gt_cases (i * METADATA_PIECE_LEN + METADATA_PIECE_LEN) (length info)).
  - f_equal. lia.
  - rewrite !take_ge; [done|rewrite length_drop; lia|rewrite length_drop; lia].
Qed.

(** The fetching side, with the requests [q] under way to [peer]. *)
Record fetching (peer : SocketAddr) (q : list nat) (u : UtMetadata) (f : FetchState) (ms : MetadataStore) : Prop := {
  fe_peer : um_peer u = peer;
  fe_supports : um_supports u = true;
  fe_size : um_peer_size u <> None;
  fe_live : um_disconnect u = false;
  fe_q : NoDup q;
  fe_local : forall p, is_Some (um_inflight u !! p) <-> p ∈ map Z.of_nat q;
  fe_store : ms = mkMetadata info_hash None (Some f) None;
  fe_ok : fetch_ok f;
  fe_fsize : fs_size f = length info;
  fe_inflight : forall p, p ∈ map Z.of_nat q <-> is_Some (fs_inflight f !! p);
  fe_owner : forall p inf, fs_inflight f !! p = Some inf -> if_peer inf = peer;
  fe_data : forall i d, fs_pieces f !! i = Some (Some d) -> d = chunk i }.

Lemma local_size peer q u f ms : fetching peer q u f ms -> size (um_inflight u) = length q.
Proof.
  intros H. rewrite <- (size_dom (D := gset Z)).
  assert (dom (um_inflight u) = list_to_set (map Z.of_nat q)) as ->.
  { apply set_eq. intros p. rewrite elem_of_dom, elem_of_list_to_set. apply (fe_local _ _ _ _ _ H). }
  rewrite size_list_to_set; [apply length_map|]. apply (NoDup_fmap_2 Z.of_nat), (fe_q _ _ _ _ _ H).
Qed.

Lemma fold_insert_lookup now (l : list u32) (m : gmap u32 Instant) p :
  is_Some (fold_left (fun m piece => <[piece := now]> m) l m !! p) <-> p ∈ l \/ is_Some (m !! p).
Proof.
  revert m. induction l as [|x l IH]; intros m; cbn [fold_left].
  { pose proof (not_elem_of_nil p). tauto. }
  rewrite IH, elem_of_cons. destruct (decide (p = x)) as [->|Hne].
  - rewrite lookup_insert_eq. split; [auto|]. intros _. right. by eexists.
  - rewrite lookup_insert_ne by done. tauto.
Qed.

(** Asking for more: the new requests join the queue, and if none is under way
    afterwards nothing is missing. *)
Lemma request_more_fetching now peer q u f ms :
  fetching peer q u f ms -> (length q <= METADATA_PIPELINE)%nat ->
  exists new u' f', request_more now u ms =
      (map (fun i => encode_request (Z.of_nat i)) new, u', mkMetadata info_hash None (Some f') None) /\
    fetching peer (q ++ new) u' f' (mkMetadata info_hash None (Some f') None) /\
    (length (q ++ new) <= METADATA_PIPELINE)%nat /\ fs_pieces f' = fs_pieces f /\
    ((length q < METADATA_PIPELINE)%nat -> q ++ new = [] -> forall i, fs_pieces f !! i <> Some None).
Proof.
  clear Hstack Hlen Hmax Hsha. intros H Hq. pose proof (local_size _ _ _ _ _ H) as Hsz. destruct H as [H1 H2 H3 H4 H5 H6 -> H8 H9 H10 H11 H12].
  unfold request_more. rewrite H2. cbn [negb orb ms_info_bytes]. rewrite bool_decide_eq_false_2 by by intros [? ?].
  rewrite bool_decide_eq_false_2 by done. rewrite Hsz. set (want := (METADATA_PIPELINE - length q)%nat).
  unfold claim_requests. cbn [ms_info_bytes ms_fetch]. destruct (Nat.eqb_spec want 0) as [E0|E0].
  { exists [], (set_um_inflight (um_inflight u) u), f. rewrite app_nil_r. split; [done|]. split_and!; try done. intros; lia. }
  destruct (claim_loop_spec (um_peer u) now want 0 (fs_pieces f) (fs_inflight f) []) as (new & E1 & Hl & Hnd & Hin & E2); [cbn; lia|].
  pose proof (claim_loop_complete (um_peer u) now want 0 (fs_pieces f) (fs_inflight f) []) as Hc.
  destruct (claim_loop _ _ _ _ _ _ _) as [out infl]. cbn [fst snd app] in *. subst out.
  assert (Hnat : new = map Z.of_nat (map Z.to_nat new)).
  { rewrite map_map. rewrite <- (map_id new) at 1. apply map_ext_in. intros p Hp%list_elem_of_In. destruct (Hin p Hp). lia. }
  set (nn := map Z.to_nat new) in *.
  exists nn. eexists _, (set_fs_inflight infl f).
  split; [rewrite Hnat at 1; by rewrite map_map|].
  assert (Hlen' : length nn = length new) by apply length_map.
  split_and!.
  - split; cbn [set_um_inflight um_peer um_supports um_peer_size um_disconnect um_inflight set_fs_inflight fs_size fs_pieces fs_inflight];
      try done.
    + apply NoDup_app. split_and!; [done| |apply (NoDup_fmap_1 Z.of_nat); by change (NoDup (map Z.of_nat nn)); rewrite <- Hnat].
      intros i Hi Hi'. assert (Hz : Z.of_nat i ∈ new) by (rewrite Hnat; by apply (list_elem_of_fmap_2 Z.of_nat)).
      destruct (Hin _ Hz) as (_ & _ & Hno).
      assert (is_Some (fs_inflight f !! Z.of_nat i)) as [? ?] by (apply H10; by apply (list_elem_of_fmap_2 Z.of_nat)). congruence.
    + intros p. rewrite fold_insert_lookup, map_app, elem_of_app, <- Hnat, H6. tauto.
    + destruct H8 as [G1 G2 G3 G4]. split; cbn [set_fs_inflight fs_size fs_pieces fs_inflight]; try done.
      intros p inf. rewrite E2. case_decide as Hp; [|apply G4]. intros _. destruct (Hin p Hp) as (? & Hs & _).
      split; [lia|]. by rewrite Nat.sub_0_r in Hs.
    + intros p. rewrite map_app, elem_of_app, <- Hnat, E2, H10. case_decide; [|tauto]. split; [by eexists|auto].
    + intros p inf. rewrite E2. case_decide; [|apply H11]. by intros [= <-].
  - rewrite length_app. lia.
  - done.
  - intros _ [-> En]%app_eq_nil i Hi. rewrite En in Hlen'. destruct new; [|done].
    destruct (Hc i) as [inf Hinf]; [cbn; lia|done|]. rewrite E2, decide_False in Hinf by apply not_elem_of_nil.
    assert (Hx : Z.of_nat i ∈ map Z.of_nat []) by (apply H10; by eexists). by apply not_elem_of_nil in Hx.
Qed.

Definition missing (f : FetchState) : nat := length (filter (fun p => p = None) (fs_pieces f)).

Lemma missing_insert (l : list (option bytes)) i d :
  l !! i = Some None ->
  length (filter (fun p => p = None) l) = S (length (filter (fun p => p = None) (<[i := Some d]> l))).
Proof.
  revert i. induction l as [|x l IH]; intros [|i] H; try done; cbn [lookup list_lookup] in H.
  - injection H as ->. done.
  - cbn [insert list_insert]. rewrite !filter_cons. destruct (decide (x = None)); cbn [length]; by rewrite (IH i H).
Qed.

Lemma no_missing (l : list (option bytes)) :
  existsb (fun p => bool_decide (p = None)) l = false <-> forall i, l !! i <> Some None.
Proof.
  split.
  - intros H i Hi. apply list_elem_of_lookup_2, list_elem_of_In in Hi.
    assert (existsb (fun p => bool_decide (p = None)) l = true) as E; [|congruence].
    apply existsb_exists. exists None. by rewrite bool_decide_eq_true_2.
  - intros H. destruct (existsb _ _) eqn:E; [|done]. apply existsb_exists in E as (x & Hx & E).
    apply bool_decide_eq_true in E as ->. apply list_elem_of_In, list_elem_of_lookup in Hx as [i Hi]. by destruct (H i).
Qed.

(** The slot of a request under way, before and after its piece arrives. *)
Lemma fetching_receive peer i q u f ms :
  fetching peer (i :: q) u f ms ->
  let u1 := set_um_inflight (delete (Z.of_nat i) (um_inflight u)) u in
  let f1 := mkFetch (fs_size f) (<[i := Some (chunk i)]> (fs_pieces f)) (delete (Z.of_nat i) (fs_inflight f))
              ({[peer]} ∪ fs_contributors f) in
  fs_pieces f !! i = Some None /\ (i < piece_total (length info))%nat /\
  fetching peer q u1 f1 (mkMetadata info_hash None (Some f1) None) /\ missing f = S (missing f1).
Proof.
  intros [H1 H2 H3 H4 H5 H6 H7 H8 H9 H10 H11 H12] u1 f1. cbn [map] in *.
  apply NoDup_cons in H5 as [Hiq H5].
  assert (Hslot : fs_pieces f !! i = Some None).
  { destruct (proj1 (H10 (Z.of_nat i))) as [inf Hinf]; [left|]. apply (fo_inflight _ H8) in Hinf as [_ Hs]. by rewrite Nat2Z.id in Hs. }
  assert (Hi : (i < piece_total (length info))%nat).
  { apply lookup_lt_Some in Hslot. by rewrite (fo_len _ H8), H9 in Hslot. }
  assert (Hz : Z.of_nat i ∉ map Z.of_nat q).
  { intros (j & E & Hj)%list_elem_of_fmap. apply Nat2Z.inj in E as ->. done. }
  assert (Hother : forall p (P : Prop), p <> Z.of_nat i -> (p ∈ Z.of_nat i :: map Z.of_nat q <-> P) -> (p ∈ map Z.of_nat q <-> P)).
  { intros p P Hne Hp. rewrite <- Hp, elem_of_cons. tauto. }
  split_and!; [done|done| |by apply missing_insert].
  split; try done; cbn [u1 f1 set_um_inflight um_inflight fs_size fs_pieces fs_inflight].
  - intros p. destruct (decide (p = Z.of_nat i)) as [->|Hne].
    + rewrite lookup_delete_eq. split; [by intros [? ?]|done].
    + rewrite lookup_delete_ne by done. symmetry. apply Hother; [done|]. by rewrite H6.
  - destruct H8 as [G1 G2 G3 G4]. split; cbn [f1 fs_size fs_pieces fs_inflight]; [done|by rewrite length_insert| |].
    + intros j d [[<- [[= <-] _]]|[_ ?]]%list_lookup_insert_Some; [by rewrite length_chunk, H9|by eapply G3].
    + intros p inf [Hne Hp]%lookup_delete_Some. destruct (G4 p inf Hp) as [? ?]. split; [done|].
      rewrite list_lookup_insert_ne by lia. done.
  - intros p. destruct (decide (p = Z.of_nat i)) as [->|Hne].
    + rewrite lookup_delete_eq. split; [done|by intros [? ?]].
    + rewrite lookup_delete_ne by done. apply Hother; [done|]. apply H10.
  - intros p inf [_ Hp]%lookup_delete_Some. by eapply H11.
  - intros j d [[<- [[= <-] _]]|[_ ?]]%list_lookup_insert_Some; [done|by eapply H12].
Qed.

(** A piece arrives: the metadata is complete, or the fetch goes on with one piece
    less to get. *)
Lemma leecher_data now peer i q u f ms ps :
  fetching peer (i :: q) u f ms -> (length (i :: q) <= METADATA_PIPELINE)%nat ->
  exists out u' ms', um_on_message sha1 order from_bytes stack now
      (encode_data (Z.of_nat i) (Z.of_nat (length info)) (chunk i)) u ms ps = Some (out, [], u', ms', ps) /\
    um_disconnect u' = false /\
    (q = [] /\ out = [] /\ ms' = with_bytes info_hash info \/
     exists new f', out = map (fun i => encode_request (Z.of_nat i)) new /\ fetching peer (q ++ new) u' f' ms' /\
       (length (q ++ new) <= METADATA_PIPELINE)%nat /\ q ++ new <> [] /\ missing f = S (missing f')).
Proof.
  intros H Hq. destruct (fetching_receive _ _ _ _ _ _ H) as (Hslot & Hi & Hf1 & Hmiss).
  set (u1 := set_um_inflight (delete (Z.of_nat i) (um_inflight u)) u) in *.
  set (f1 := mkFetch _ _ _ _) in *. cbv zeta in Hf1.
  pose proof H as [H1 H2 H3 H4 H5 H6 -> H8 H9 H10 H11 H12].
  unfold um_on_message. rewrite H4.
  destruct (md_parse_data from_bytes stack Hstack (Z.of_nat i) (Z.of_nat (length info)) (chunk i)) as (r & Er & Ep).
  { by apply piece_u32. }
  { unfold is_i64, I64_MAX, MAX_METADATA_SIZE in *. lia. }
  { rewrite length_chunk. apply slot_len_le. }
  rewrite Hguard in Er by done. injection Er as <-. rewrite Ep. cbn [is_ok]. red_bind.
  destruct (proj2 (H6 (Z.of_nat i))) as [at_ Hat]; [left|]. rewrite bool_decide_eq_false_2 by congruence.
  fold u1. unfold md_on_data. cbn [ms_info_bytes ms_fetch].
  assert (total_size_ok (Some (Z.of_nat (length info))) f = true) as ->.
  { unfold total_size_ok. rewrite H9, Z.eqb_refl. destruct (Z.leb_spec (Z.of_nat (length info)) 0); [lia|done]. }
  cbn [negb]. rewrite (piece_len_spec f _ H8), Nat2Z.id, (fo_len _ H8), H9, (proj2 (Nat.ltb_lt _ _)) by done.
  rewrite length_chunk, Nat.eqb_refl. cbn [negb].
  destruct (proj1 (H10 (Z.of_nat i))) as [inf Hinf]; [left|]. rewrite Hinf.
  assert (if_peer inf = um_peer u1) as Hown by (rewrite (H11 _ _ Hinf); done).
  rewrite bool_decide_eq_true_2 by done. cbn [negb set_fs_inflight fs_pieces fs_size fs_inflight fs_contributors].
  rewrite Hslot. red_bind. change (um_peer u1) with (um_peer u). rewrite H1. fold f1.
  change (<[i:=Some (chunk i)]> (fs_pieces f)) with (fs_pieces f1).
  destruct (existsb _ (fs_pieces f1)) eqn:Ex.
  - red_bind. destruct (request_more_fetching now peer q u1 f1 _ Hf1) as (new & u' & f' & E & Hf' & Hl & Ep' & Hdone);
      [cbn [length] in Hq; lia|].
    change (set_fetch (Some f1) _) with (mkMetadata info_hash None (Some f1) None). rewrite E. eexists _, _, _. split; [done|].
    split; [apply (fe_live _ _ _ _ _ Hf')|]. right. exists new, f'. split_and!; try done.
    + intros En. cbn [length] in Hq.
      assert (existsb (fun p => bool_decide (p = None)) (fs_pieces f1) = false); [|congruence].
      apply no_missing. apply Hdone; [lia|done].
    + rewrite Hmiss. unfold missing. by rewrite Ep'.
  - unfold assemble. destruct (mapM_all _ Ex) as (parts & E & Eparts). rewrite E. red_bind.
    assert (take (fs_size f1) (concat parts) = info) as ->.
    { change (fs_size f1) with (fs_size f). rewrite H9. apply assembled.
      - pose proof (fo_len _ (fe_ok _ _ _ _ _ Hf1)) as Hn. rewrite Eparts, length_map in Hn. rewrite Hn.
        change (fs_size f1) with (fs_size f). by rewrite H9.
      - intros j d Hd. apply (fe_data _ _ _ _ _ Hf1). rewrite Eparts.
        change (map Some parts) with (Some <$> parts). by rewrite list_lookup_fmap, Hd. }
    cbn [ms_info_hash]. rewrite decide_True by done. red_bind. eexists _, _, _. split; [done|]. split; [done|]. left.
    split_and!; [|done|done]. destruct q as [|j q]; [done|]. exfalso.
    destruct (proj1 (fe_inflight _ _ _ _ _ Hf1 (Z.of_nat j))) as [inf' Hinf']; [left|].
    apply (fo_inflight _ (fe_ok _ _ _ _ _ Hf1)) in Hinf' as [_ Hs]. by apply (proj1 (no_missing _) Ex) in Hs.
Qed.

Lemma seeder_tick now su :
  um_disconnect su = false -> um_supports su = false ->
  um_on_tick now su (with_bytes info_hash info) = ([], set_um_served 0 su, with_bytes info_hash info).
Proof. intros Hd Hs. unfold um_on_tick. cbn [set_um_served um_disconnect um_supports]. by rewrite Hd, Hs. Qed.

Lemma exchange_completes fuel now peer q su u f ms ps :
  fetching peer q u f ms -> (length q <= METADATA_PIPELINE)%nat -> q <> [] -> (missing f <= fuel)%nat ->
  um_disconnect su = false -> um_supports su = false ->
  exists u', exchange fuel now (map (fun i => encode_request (Z.of_nat i)) q) su (with_bytes info_hash info) u ms ps =
      Some ([], u', with_bytes info_hash info) /\ um_disconnect u' = false.
Proof.
  revert q su u f ms ps. induction fuel as [|fuel IH]; intros q su u f ms ps H Hq Hne Hm Hd Hs.
  - destruct q as [|i q]; [done|]. destruct (fetching_receive _ _ _ _ _ _ H) as (_ & _ & _ & Hmiss). lia.
  - destruct q as [|i q]; [done|]. cbn [map exchange]. rewrite seeder_tick by done.
    destruct (fetching_receive _ _ _ _ _ _ H) as (_ & Hi & _ & _).
    rewrite seeder_reply by (done || unfold MAX_SERVE_PER_WINDOW; cbn; lia). red_bind. cbn [deliver].
    destruct (leecher_data now peer i q u f ms ps H Hq) as (out & u' & ms' & E & Hd' & Hcase). rewrite E. red_bind.
    rewrite app_nil_r. destruct Hcase as [(-> & -> & ->)|(new & f' & -> & Hf' & Hl & Hne' & Hmiss)].
    + exists u'. split; [|done]. cbn [app map]. by destruct fuel.
    + rewrite <- map_app. eapply IH; [exact Hf'|done|done|lia|done|done].
Qed.

(** The handshake that opens the fetch. *)
Lemma handshake_fetching peer id :
  0 < id <= 255 ->
  exists u, um_on_handshake (mkPeerInfo {[UT_METADATA := id]} None None None (metadata_size (with_bytes info_hash info)))
      (um_new peer) (metadata_new info_hash) =
      (u, mkMetadata info_hash None (Some (fetch_new (length info))) None) /\
    fetching peer [] u (fetch_new (length info)) (mkMetadata info_hash None (Some (fetch_new (length info))) None) /\
    um_served u = 0%nat.
Proof.
  clear Hstack. intros Hid. unfold um_on_handshake, peer_ext_id. cbn [pi_m]. rewrite lookup_singleton_eq. red_bind.
  rewrite (proj2 (Z.eqb_neq id 0)) by lia. rewrite bool_decide_eq_true_2 by by eexists.
  unfold metadata_size. cbn [set_um_supports um_supports negb pi_metadata_size with_bytes ms_info_bytes fmap option_fmap option_map metadata_new].
  rewrite Z.min_l by (unfold I64_MAX, MAX_METADATA_SIZE in *; lia). unfold adopt_size.
  rewrite (proj2 (Z.leb_gt _ 0)) by lia. rewrite (proj2 (Z.ltb_ge MAX_METADATA_SIZE _)) by lia.
  cbn [orb ms_info_bytes ms_fetch]. rewrite Nat2Z.id. eexists. split; [done|]. split; [|done].
  split; try done; cbn [um_new set_um_peer_size set_um_supports um_inflight fetch_new fs_inflight fs_pieces map].
  - constructor.
  - intros p. rewrite lookup_empty. split; [by intros [? ?]|by intros ?%not_elem_of_nil].
  - apply fetch_new_ok; lia.
  - intros p. rewrite lookup_empty. split; [by intros ?%not_elem_of_nil|by intros [? ?]].
  - intros i d [? _]%lookup_replicate. done.
Qed.
End Transfer.

(** C38: fetching metadata works: a peer that learns the size from the handshake of
    a peer that has the info dictionary requests its pieces, two at a time; with
    every message encoded, sent and parsed, after as many replies as there are
    pieces it holds exactly the dictionary, is complete, has nothing under way and
    stays connected - provided that the raw bytes of each piece pass the nesting
    guard of the parser, and that the other peer ticks, which renews its allowance,
    before each request. *)
Theorem metadata_transfer_completes sha1 order from_bytes `{!BencodeLib from_bytes} stack info info_hash seeder leecher id now ps :
  (32 < stack)%nat -> 1 <= Z.of_nat (length info) <= 8 * 1024 * 1024 -> sha1 info = info_hash -> 0 < id <= 255 ->
  (forall i, (i < piece_total (length info))%nat -> check_bencode_depth (chunk info i) = Some (Ok ())) ->
  let handshake := mkPeerInfo {[UT_METADATA := id]} None None None (metadata_size (with_bytes info_hash info)) in
  let '(u, ms) := um_on_handshake handshake (um_new seeder) (metadata_new info_hash) in
  let '(requests, u, ms) := um_on_tick now u ms in
  exists u', exchange sha1 order from_bytes stack (piece_total (length info)) now requests
      (um_new leecher) (with_bytes info_hash info) u ms ps = Some ([], u', with_bytes info_hash info) /\
    um_disconnect u' = false.
Proof.
  intros Hst Hl Hsha Hid Hg handshake. subst handshake.
  destruct (handshake_fetching info info_hash ltac:(lia) ltac:(unfold MAX_METADATA_SIZE; lia) seeder id Hid) as (u & -> & Hf & Hv).
  unfold um_on_tick. pose proof Hf as [H1 H2 H3 H4 H5 H6 _ H8 _ _ _ _]. cbn [set_um_served um_disconnect um_supports].
  rewrite H4, H2. cbn [orb negb]. unfold expire_local, release_timeouts. cbn [ms_fetch].
  set (u1 := set_um_inflight _ _). set (ms1 := set_fetch _ _).
  assert (Em : um_inflight u = ∅).
  { apply map_eq. intros p. rewrite lookup_empty. destruct (um_inflight u !! p) as [t|] eqn:E; [|done].
    assert (Hx : p ∈ map Z.of_nat []) by (apply H6; by eexists). by apply not_elem_of_nil in Hx. }
  assert (Hf1 : fetching info info_hash seeder [] u1 (fetch_new (length info)) ms1).
  { destruct Hf as [G1 G2 G3 G4 G5 G6 _ G8 G9 G10 G11 G12]. split; try done.
    subst u1. cbn [set_um_inflight set_um_served um_inflight]. rewrite Em, map_filter_empty. by rewrite <- Em. }
  destruct (request_more_fetching sha1 info info_hash now seeder [] u1 (fetch_new (length info)) ms1 Hf1)
    as (new & u' & f' & E & Hf' & Hq & Ep & Hdone); [cbn; lia|]. rewrite E. cbn [app] in *.
  assert (Hpos : (0 < piece_total (length info))%nat) by (apply piece_total_spec; lia).
  destruct (exchange_completes sha1 order from_bytes stack Hst info info_hash Hsha ltac:(lia) ltac:(unfold MAX_METADATA_SIZE; lia) Hg
    (piece_total (length info)) now seeder new (um_new leecher) u' f' _ ps Hf' Hq) as (u2 & E2 & Hd2); try done.
  - intros ->. eapply (Hdone ltac:(unfold METADATA_PIPELINE; cbn; lia) eq_refl 0%nat).
    cbn [fetch_new fs_pieces]. by rewrite lookup_replicate_2.
  - unfold missing. rewrite Ep. cbn [fetch_new fs_pieces]. etrans; [apply length_filter|]. by rewrite length_replicate.
  - by exists u2.
Qed.

Lemma metadata_transfer_completes_witness :
  let info := str "d6:lengthi5e4:name1:a12:piece lengthi16384e6:pieces20:aaaaaaaaaaaaaaaaaaaae" in
  let h := replicate 20 7 in
  let handshake := mkPeerInfo {[UT_METADATA := 3]} None None None (metadata_size (with_bytes h info)) in
  let '(u, ms) := um_on_handshake handshake (um_new (V4 1 1)) (metadata_new h) in
  let '(requests, u, ms) := um_on_tick 0 u ms in
  exists u', exchange (fun _ => h) elements parse_bencode 33 (piece_total (length info)) 0 requests
      (um_new (V4 2 2)) (with_bytes h info) u ms peer_states_new = Some ([], u', with_bytes h info) /\
    um_disconnect u' = false.
Proof.
  intros info h. apply (metadata_transfer_completes (fun _ => h) elements parse_bencode 33 info h (V4 1 1) (V4 2 2) 3 0 peer_states_new).
  - lia.
  - vm_compute. split; discriminate.
  - reflexivity.
  - lia.
  - intros i Hi. assert (Hn : piece_total (length info) = 1%nat) by (vm_compute; reflexivity).
    rewrite Hn in Hi. assert (i = 0%nat) as -> by lia. vm_compute. reflexivity.
Defined.
