(* ===== verification/Peers.v ===== *)
(** * Peer lists and peer sources (crates/bit_rev/src/peer.rs, discovery.rs)

    The compact and the dictionary form of peer lists, the peers of a tracker's
    response, and which sources of peers a private torrent admits. *)

From S2P Require Import Prelude Utf8 Bencode Text Value IpFilter.

(** ** Compact lists *)

Definition compact_v4 (addr : SocketAddr) : bytes :=
  match addr with V4 ip port => be_bytes 4 ip ++ be_bytes 2 port | V6 _ _ _ _ => [] end.

Definition compact_v6 (addr : SocketAddr) : bytes :=
  match addr with V6 ip port _ _ => be_bytes 16 ip ++ be_bytes 2 port | V4 _ _ => [] end.

Definition encode_compact_v4 (addrs : list SocketAddr) : bytes := concat (map compact_v4 addrs).
Definition encode_compact_v6 (addrs : list SocketAddr) : bytes := concat (map compact_v6 addrs).

Inductive PeerListError :=
| InvalidCompactLength
| InvalidCompact6Length
| InvalidDictPeer
| InvalidPeersField
| InvalidPeerIp
| MissingIp
| MissingPort.

(** The remainder of [as_chunks::<n>()]. *)
Definition remainder (n : nat) (buf : bytes) : bytes := drop (n * length (as_chunks n buf)) buf.

Definition parse_compact_v4 (buf : bytes) (out : list SocketAddr) : result (list SocketAddr) PeerListError :=
  match remainder 6 buf with
  | [] => Ok (out ++ map (fun c => V4 (of_be (take 4 c)) (of_be (drop 4 c))) (as_chunks 6 buf))
  | _ => Err InvalidCompactLength
  end.

Definition parse_compact_v6 (buf : bytes) (out : list SocketAddr) : result (list SocketAddr) PeerListError :=
  match remainder 18 buf with
  | [] => Ok (out ++ map (fun c => V6 (of_be (take 16 c)) (of_be (drop 16 c)) 0 0) (as_chunks 18 buf))
  | _ => Err InvalidCompact6Length
  end.

Definition decode_compact_v4 (buf : bytes) : result (list SocketAddr) PeerListError := parse_compact_v4 buf [].
Definition decode_compact_v6 (buf : bytes) : result (list SocketAddr) PeerListError := parse_compact_v6 buf [].

(** ** Tracker responses *)

Definition sock_addr (ip : IpAddr) (port : u16) : SocketAddr :=
  match ip with IpV4 ip => V4 ip port | IpV6 ip => V6 ip port 0 0 end.

(** [String::from_utf8_lossy(bytes).parse::<IpAddr>()] *)
Definition lossy_ip (b : bytes) : option IpAddr := chars ← utf8_chars (utf8_lossy b); parse_ip_addr chars.

Definition peer_from_dict (dict : gmap bytes Value) : result SocketAddr PeerListError :=
  let! ip := match dict !! str "ip" with
             | Some (VBytes b) => ok_or (lossy_ip b) InvalidPeerIp
             | _ => Err MissingIp end in
  let! port := match dict !! str "port" with
               | Some (VInt port) => if (0 <=? port) && (port <=? U16_MAX) then Ok port else Err MissingPort
               | _ => Err MissingPort end in
  Ok (sock_addr ip port).

Fixpoint dict_peers (items : list Value) (out : list SocketAddr) : result (list SocketAddr) PeerListError :=
  match items with
  | [] => Ok out
  | VDict dict :: items => let! peer := peer_from_dict dict in dict_peers items (out ++ [peer])
  | _ :: _ => Err InvalidDictPeer
  end.

Definition parse_peers_value (value : Value) (out : list SocketAddr) : result (list SocketAddr) PeerListError :=
  match value with
  | VBytes buf => parse_compact_v4 buf out
  | VList items => dict_peers items out
  | _ => Err InvalidPeersField
  end.

(** The decoded response; its decoding is the bencode library's. *)
Record BencodeResponse := mkBencodeResponse {
  br_peers : option Value;
  br_peers6 : option bytes;
  br_interval : option u64;
  br_min_interval : option u64;
  br_failure_reason : option bytes;
  br_warning_message : option bytes;
  br_tracker_id : option bytes;
  br_complete : option i64;
  br_incomplete : option i64 }.

Definition failure_reason_str (r : BencodeResponse) : option bytes := utf8_lossy <$> br_failure_reason r.
Definition warning_message_str (r : BencodeResponse) : option bytes := utf8_lossy <$> br_warning_message r.

Definition get_peers (r : BencodeResponse) : result (list SocketAddr) PeerListError :=
  let! peers := match br_peers r with Some value => parse_peers_value value [] | None => Ok [] end in
  match br_peers6 r with Some peers6 => parse_compact_v6 peers6 peers | None => Ok peers end.

(** ** Sources of peers *)

Inductive DiscoverySource := SrcTracker | SrcDht | SrcPex | SrcLsd.

#[export] Instance DiscoverySource_eq_dec : EqDecision DiscoverySource.
Proof. solve_decision. Defined.
#[export] Program Instance DiscoverySource_countable : Countable DiscoverySource :=
  inj_countable' (fun s => match s with SrcTracker => 0 | SrcDht => 1 | SrcPex => 2 | SrcLsd => 3 end)
    (fun n => if n =? 0 then SrcTracker else if n =? 1 then SrcDht else if n =? 2 then SrcPex else SrcLsd) _.
Next Obligation. by intros []. Qed.

Definition is_tracker (s : DiscoverySource) : bool := match s with SrcTracker => true | _ => false end.
Definition allowed_for (s : DiscoverySource) (is_private : bool) : bool := negb is_private || is_tracker s.

Record SourceRegistry := mkSources { sr_private : bool; sr_registered : gset DiscoverySource }.

Definition sources_new (is_private : bool) : SourceRegistry := mkSources is_private ∅.
Definition allows (r : SourceRegistry) (s : DiscoverySource) : bool := allowed_for s (sr_private r).
Definition allows_dht (r : SourceRegistry) : bool := allows r SrcDht.
Definition allows_pex (r : SourceRegistry) : bool := allows r SrcPex.
Definition allows_lsd (r : SourceRegistry) : bool := allows r SrcLsd.

Definition PRIVATE_DISABLED : list DiscoverySource := [SrcDht; SrcPex; SrcLsd].
Definition disabled_sources (r : SourceRegistry) : list DiscoverySource := if sr_private r then PRIVATE_DISABLED else [].

(** The error is the source refused. *)
Definition register (s : DiscoverySource) (r : SourceRegistry) : result () DiscoverySource * SourceRegistry :=
  if negb (allows r s) then (Err s, r) else (Ok (), mkSources (sr_private r) ({[s]} ∪ sr_registered r)).

Definition is_registered (r : SourceRegistry) (s : DiscoverySource) : bool := bool_decide (s ∈ sr_registered r).

(** ** Round trips *)

Definition wf_v4 (a : SocketAddr) : Prop := match a with V4 ip port => is_u32 ip /\ is_u16 port | V6 _ _ _ _ => False end.
Definition wf_v6 (a : SocketAddr) : Prop :=
  match a with V6 ip port flow scope => is_u128 ip /\ is_u16 port /\ flow = 0 /\ scope = 0 | V4 _ _ => False end.

Lemma remainder_concat n (cs : list bytes) :
  (0 < n)%nat -> Forall (fun c => length c = n) cs -> remainder n (concat cs) = [].
Proof.
  intros Hn Hc. unfold remainder. rewrite <- (app_nil_r (concat cs)), as_chunks_concat by (done || (cbn; lia)).
  rewrite app_nil_r. apply drop_ge. induction Hc as [|c cs E _ IH]; cbn [concat length]; [lia|]. rewrite length_app. lia.
Qed.

Lemma parse_chunks (enc : SocketAddr -> bytes) (dec : bytes -> SocketAddr) n addrs :
  (0 < n)%nat -> Forall (fun a => length (enc a) = n /\ dec (enc a) = a) addrs ->
  remainder n (concat (map enc addrs)) = [] /\ map dec (as_chunks n (concat (map enc addrs))) = addrs.
Proof.
  intros Hn H.
  assert (Hc : Forall (fun c => length c = n) (map enc addrs)) by (apply Forall_map; apply (Forall_impl _ _ _ H); by intros a [? _]).
  split; [by apply remainder_concat|].
  rewrite <- (app_nil_r (concat _)), as_chunks_concat by (done || (cbn; lia)).
  rewrite map_map. rewrite <- (map_id addrs) at 2. apply map_ext_in. intros a Ha%list_elem_of_In.
  rewrite Forall_forall in H. by apply H.
Qed.

Lemma compact_v4_roundtrip addrs : Forall wf_v4 addrs -> decode_compact_v4 (encode_compact_v4 addrs) = Ok addrs.
Proof.
  intros H. unfold decode_compact_v4, parse_compact_v4, encode_compact_v4.
  destruct (parse_chunks compact_v4 (fun c => V4 (of_be (take 4 c)) (of_be (drop 4 c))) 6 addrs) as [-> ->]; [lia| |done].
  apply (Forall_impl _ _ _ H). intros [ip port|] Hw; [|done]. destruct Hw. cbn [compact_v4].
  rewrite length_app, !length_be_bytes. split; [done|].
  rewrite take_app_length', drop_app_length' by (by rewrite length_be_bytes). by rewrite of_be_bytes_u32, of_be_bytes_u16.
Qed.

Lemma compact_v6_roundtrip addrs : Forall wf_v6 addrs -> decode_compact_v6 (encode_compact_v6 addrs) = Ok addrs.
Proof.
  intros H. unfold decode_compact_v6, parse_compact_v6, encode_compact_v6.
  destruct (parse_chunks compact_v6 (fun c => V6 (of_be (take 16 c)) (of_be (drop 16 c)) 0 0) 18 addrs) as [-> ->]; [lia| |done].
  apply (Forall_impl _ _ _ H). intros [|ip port flow scope] Hw; [done|]. destruct Hw as (Hi & Hp & -> & ->). cbn [compact_v6].
  rewrite length_app, !length_be_bytes. split; [done|].
  rewrite take_app_length', drop_app_length' by (by rewrite length_be_bytes). by rewrite of_be_bytes_u128, of_be_bytes_u16.
Qed.

(** ** Private torrents *)

(** Whatever is registered on a private torrent, only the trackers are. *)
Lemma private_only_trackers sources s :
  is_registered (fold_left (fun r s => snd (register s r)) sources (sources_new true)) s = true -> s = SrcTracker.
Proof.
  assert (H : forall r, sr_private r = true -> (forall s, s ∈ sr_registered r -> s = SrcTracker) ->
    let r' := fold_left (fun r s => snd (register s r)) sources r in
    forall s, s ∈ sr_registered r' -> s = SrcTracker).
  { induction sources as [|x sources IH]; intros r Hp Hr; [done|]. cbn [fold_left]. apply IH.
    - unfold register. by destruct (negb _).
    - intros t. unfold register, allows, allowed_for. rewrite Hp. destruct x; cbn [is_tracker negb orb snd sr_registered]; try apply Hr.
      intros [?%elem_of_singleton|?]%elem_of_union; [done|by apply Hr]. }
  unfold is_registered. intros E%bool_decide_eq_true. by eapply (H (sources_new true)).
Qed.

(** The sources a torrent refuses are those it lists as disabled. *)
Lemma refused_disabled r s : is_ok (fst (register s r)) = false <-> s ∈ disabled_sources r.
Proof.
  rewrite <- (bool_decide_eq_true (s ∈ disabled_sources r)). destruct r as [[] reg], s; by vm_compute.
Qed.
