(* ===== verification/Pex.v ===== *)
(** * Peer exchange (crates/bit_rev/src/extension/ut_pex.rs)

    The messages that tell a peer which other peers we are connected to, and the
    extension of one connection that sends the changes and takes the peer's.  The
    calls of [add_peers] are the lists a handler returns. *)

From S2P Require Import Prelude Bencode Text Value Bitfield Message PeerStates ExtHandshake IpFilter Peers.

Definition PEX_INTERVAL : Duration := secs 60.
Definition PEX_MIN_INBOUND_INTERVAL : Duration := secs 30.
Definition PEX_MAX_ADDED : nat := 50.
Definition PEX_MAX_DROPPED : nat := 50.

Record PexMessage := mkPex {
  pm_added : list (SocketAddr * u8);
  pm_dropped : list SocketAddr;
  pm_added6 : list (SocketAddr * u8);
  pm_dropped6 : list SocketAddr }.

Definition pex_is_empty (m : PexMessage) : bool :=
  match m with mkPex [] [] [] [] => true | _ => false end.

(** ** Messages *)

(** A pair unless the list is empty. *)
Definition pex_pair {A} (key : bytes) (enc : list A -> bytes) (l : list A) : list (bytes * bytes) :=
  match l with [] => [] | _ => [(key, encode_bytes (enc l))] end.

Definition encode_message (msg : PexMessage) : bytes :=
  encode_dict
    (pex_pair (str "added") (fun l => encode_compact_v4 (map fst l)) (pm_added msg) ++
     pex_pair (str "added.f") (map snd) (pm_added msg) ++
     pex_pair (str "added6") (fun l => encode_compact_v6 (map fst l)) (pm_added6 msg) ++
     pex_pair (str "added6.f") (map snd) (pm_added6 msg) ++
     pex_pair (str "dropped") encode_compact_v4 (pm_dropped msg) ++
     pex_pair (str "dropped6") encode_compact_v6 (pm_dropped6 msg)).

(** [decode(buf).unwrap_or_default()] of an optional field. *)
Definition decoded (decode : bytes -> result (list SocketAddr) PeerListError) (field : option bytes) : list SocketAddr :=
  match field with
  | Some buf => match decode buf with Ok peers => peers | Err _ => [] end
  | None => []
  end.

Definition compact_list (dict : gmap bytes Value) (key : bytes) (v6 : bool) : option (list (SocketAddr * u8)) :=
  let flag_key := if v6 then str "added6.f" else str "added.f" in
  let peers := decoded (if v6 then decode_compact_v6 else decode_compact_v4) (dict_bytes dict key) in
  match dict_bytes dict flag_key with
  | Some flags => if negb (length flags =? length peers)%nat then None else Some (combine peers flags)
  | None => Some (map (fun addr => (addr, 0)) peers)
  end.

Definition pex_parse_message (from_bytes : bytes -> option Value) (payload : bytes) : option PexMessage :=
  if bool_decide (payload = []) || (MAX_EXTENSION_PAYLOAD <? Z.of_nat (length payload)) then None
  else
    dict ← guarded_dict from_bytes payload;
    added ← compact_list dict (str "added") false;
    added6 ← compact_list dict (str "added6") true;
    Some (mkPex added (decoded decode_compact_v4 (dict_bytes dict (str "dropped")))
                added6 (decoded decode_compact_v6 (dict_bytes dict (str "dropped6")))).

(** ** The extension of one connection *)

Record UtPex := mkUtPex {
  px_peer : SocketAddr;
  px_allows_pex : bool;
  px_supports : bool;
  px_sent : gset SocketAddr;
  px_last_sent : option Instant;
  px_last_recv : option Instant;
  px_disconnect : bool }.

Definition px_new (peer : SocketAddr) (allows_pex : bool) : UtPex :=
  mkUtPex peer allows_pex false ∅ None None false.

Definition set_px_sent (sent : gset SocketAddr) (last : option Instant) (u : UtPex) : UtPex :=
  mkUtPex (px_peer u) (px_allows_pex u) (px_supports u) sent last (px_last_recv u) (px_disconnect u).
Definition set_px_last_recv (t : Instant) (u : UtPex) : UtPex :=
  mkUtPex (px_peer u) (px_allows_pex u) (px_supports u) (px_sent u) (px_last_sent u) (Some t) (px_disconnect u).
Definition set_px_disconnect (u : UtPex) : UtPex :=
  mkUtPex (px_peer u) (px_allows_pex u) (px_supports u) (px_sent u) (px_last_sent u) (px_last_recv u) true.
Definition px_on_handshake (info : PeerExtensionInfo) (u : UtPex) : UtPex :=
  mkUtPex (px_peer u) (px_allows_pex u) (bool_decide (is_Some (peer_ext_id info UT_PEX))) (px_sent u)
    (px_last_sent u) (px_last_recv u) (px_disconnect u).

Definition connected_peers (ps : PeerStates) (u : UtPex) : gset SocketAddr :=
  dom (filter (fun e => e.1 <> px_peer u /\ writer_tx e.2 = true) (states ps)).

Definition flags_for (ps : PeerStates) (piece_count : nat) (addr : SocketAddr) : u8 :=
  match states ps !! addr with Some s => pex_flags s piece_count | None => 0 end.

Definition is_v6 (a : SocketAddr) : Prop := match a with V6 _ _ _ _ => True | V4 _ _ => False end.
#[export] Instance is_v6_dec a : Decision (is_v6 a).
Proof. destruct a; apply _. Defined.

(** The addresses of a message in the order of [(addr.is_ipv6(), addr)], which is
    that of the addresses: IPv4 comes first. *)
Definition build_update (ps : PeerStates) (piece_count : nat) (u : UtPex) : option PexMessage :=
  let current := connected_peers ps u in
  let added := take PEX_MAX_ADDED (merge_sort addr_le (elements (current ∖ px_sent u))) in
  let dropped := take PEX_MAX_DROPPED (merge_sort addr_le (elements (px_sent u ∖ current))) in
  let flagged := map (fun addr => (addr, flags_for ps piece_count addr)) in
  let msg := mkPex (flagged (filter (fun a => ~ is_v6 a) added)) (filter (fun a => ~ is_v6 a) dropped)
                   (flagged (filter is_v6 added)) (filter is_v6 dropped) in
  if pex_is_empty msg then None else Some msg.

Definition mark_sent (msg : PexMessage) (sent : gset SocketAddr) : gset SocketAddr :=
  let sent := fold_left (fun s a => {[a]} ∪ s) (map fst (pm_added msg ++ pm_added6 msg)) sent in
  fold_left (fun s a => s ∖ {[a]}) (pm_dropped msg ++ pm_dropped6 msg) sent.

(** [Vec::dedup]: an element equal to the last one kept is dropped. *)
Fixpoint dedup_after {A} `{EqDecision A} (last : A) (l : list A) : list A :=
  match l with
  | [] => []
  | a :: l => if decide (a = last) then dedup_after last l else a :: dedup_after a l
  end.

Definition dedup {A} `{EqDecision A} (l : list A) : list A :=
  match l with [] => [] | a :: l => a :: dedup_after a l end.

(** The peers handed to [add_peers], if it is called. *)
Definition px_on_message (from_bytes : bytes -> option Value) (now : Instant) (payload : bytes) (u : UtPex)
    : option (list SocketAddr) * UtPex :=
  if px_disconnect u || negb (px_allows_pex u) then (None, u)
  else if match px_last_recv u with Some last => since now last <? PEX_MIN_INBOUND_INTERVAL | None => false end
  then (None, set_px_disconnect u)
  else
    let u := set_px_last_recv now u in
    match pex_parse_message from_bytes payload with
    | None => (None, u)
    | Some msg =>
        let addrs := filter (fun a => a <> px_peer u) (map fst (pm_added msg ++ pm_added6 msg)) in
        match dedup (merge_sort addr_le addrs) with
        | [] => (None, u)
        | addrs => (Some addrs, u)
        end
    end.

Definition px_on_tick (ps : PeerStates) (piece_count : nat) (now : Instant) (u : UtPex) : list bytes * UtPex :=
  if px_disconnect u || negb (px_supports u) || negb (px_allows_pex u) then ([], u)
  else if match px_last_sent u with Some last => since now last <? PEX_INTERVAL | None => false end then ([], u)
  else match build_update ps piece_count u with
  | None => ([], u)
  | Some msg => ([encode_message msg], set_px_sent (mark_sent msg (px_sent u)) (Some now) u)
  end.

(** ** Messages read back *)

Record wf_pex (m : PexMessage) : Prop := {
  wp_added : Forall wf_v4 (map fst (pm_added m));
  wp_added6 : Forall wf_v6 (map fst (pm_added6 m));
  wp_dropped : Forall wf_v4 (pm_dropped m);
  wp_dropped6 : Forall wf_v6 (pm_dropped6 m) }.

Definition pex_leaf {A} (key : bytes) (enc : list A -> bytes) (l : list A) : list (bytes * Encoded) :=
  match l with [] => [] | _ => [(key, EBytes (enc l))] end.

Definition pex_tree (msg : PexMessage) : list (bytes * Encoded) :=
  pex_leaf (str "added") (fun l => encode_compact_v4 (map fst l)) (pm_added msg) ++
  pex_leaf (str "added.f") (map snd) (pm_added msg) ++
  pex_leaf (str "added6") (fun l => encode_compact_v6 (map fst l)) (pm_added6 msg) ++
  pex_leaf (str "added6.f") (map snd) (pm_added6 msg) ++
  pex_leaf (str "dropped") encode_compact_v4 (pm_dropped msg) ++
  pex_leaf (str "dropped6") encode_compact_v6 (pm_dropped6 msg).

Lemma pex_leaf_map {A} key (enc : list A -> bytes) l :
  map (fun p => (fst p, encode_value (snd p))) (pex_leaf key enc l) = pex_pair key enc l.
Proof. by destruct l. Qed.

Lemma encode_message_tree msg : encode_message msg = encode_value (EDict (pex_tree msg)).
Proof.
  unfold encode_message, pex_tree. cbn [encode_value]. rewrite !map_app. by rewrite !pex_leaf_map.
Qed.

Lemma pex_tree_ok msg :
  wf_encoded (EDict (pex_tree msg)) /\ (height (EDict (pex_tree msg)) <= MAX_BENCODE_DEPTH)%nat.
Proof.
  unfold pex_tree, MAX_BENCODE_DEPTH.
  destruct (pm_added msg), (pm_added6 msg), (pm_dropped msg), (pm_dropped6 msg); cbn [pex_leaf app];
    (split; [split; [distinct_keys|cbn; tauto]|cbn; lia]).
Qed.

Lemma combine_fst_snd {A B} (l : list (A * B)) : combine (map fst l) (map snd l) = l.
Proof. induction l as [|[a b] l IH]; [done|]. cbn. by rewrite IH. Qed.

(** The peer exchange round trip: a message that fits is read back exactly, with
    the flags of each peer. *)
Lemma pex_roundtrip from_bytes `{!BencodeLib from_bytes} msg :
  wf_pex msg -> Z.of_nat (length (encode_message msg)) <= MAX_EXTENSION_PAYLOAD ->
  pex_parse_message from_bytes (encode_message msg) = Some msg.
Proof.
  intros Hwf Hl. unfold pex_parse_message. rewrite (proj2 (Z.ltb_ge _ _)) by done.
  rewrite bool_decide_eq_false_2 by done. cbn [orb]. rewrite encode_message_tree in *.
  destruct (pex_tree_ok msg) as [Hw Hh].
  rewrite (guarded_dict_canonical from_bytes); [|done|done|unfold MAX_EXTENSION_PAYLOAD, U64_MAX in *; lia]. red_bind.
  unfold tree_dict, compact_list. rewrite !dict_bytes_tree.
  destruct Hwf as [H1 H2 H3 H4]. destruct msg as [added dropped added6 dropped6]. unfold pex_tree.
  cbn [pm_added pm_added6 pm_dropped pm_dropped6] in *.
  pose proof (compact_v4_roundtrip _ H1) as E1. pose proof (compact_v6_roundtrip _ H2) as E2.
  pose proof (compact_v4_roundtrip _ H3) as E3. pose proof (compact_v6_roundtrip _ H4) as E4.
  pose proof (combine_fst_snd added) as C1. pose proof (combine_fst_snd added6) as C2.
  destruct added as [|a1 l1], added6 as [|a2 l2], dropped as [|a3 l3], dropped6 as [|a4 l4];
    cbn [pex_leaf app assoc]; literals; cbn [decoded]; rewrite ?E1, ?E2, ?E3, ?E4, ?length_map, ?Nat.eqb_refl;
    cbn [negb]; rewrite ?C1, ?C2; done.
Qed.

(** ** What the other side knows *)

(** A peer that applies our messages keeps the set of peers it was told of. *)
Definition apply_pex (msg : PexMessage) (known : gset SocketAddr) : gset SocketAddr :=
  (known ∪ list_to_set (map fst (pm_added msg ++ pm_added6 msg))) ∖ list_to_set (pm_dropped msg ++ pm_dropped6 msg).

(** Ticks at the given times, every message delivered and parsed; [None] when one
    cannot be parsed. *)
Fixpoint pex_run (from_bytes : bytes -> option Value) (ps : PeerStates) (piece_count : nat) (times : list Instant)
    (u : UtPex) (known : gset SocketAddr) : option (UtPex * gset SocketAddr) :=
  match times with
  | [] => Some (u, known)
  | now :: times =>
      let '(out, u) := px_on_tick ps piece_count now u in
      known ← foldr (fun payload k => known ← k; msg ← pex_parse_message from_bytes payload; Some (apply_pex msg known))
                (Some known) out;
      pex_run from_bytes ps piece_count times u known
  end.

Lemma mark_sent_apply msg sent : mark_sent msg sent = apply_pex msg sent.
Proof.
  unfold mark_sent, apply_pex.
  assert (Hadd : forall (l : list SocketAddr) (s : gset SocketAddr), fold_left (fun s a => {[a]} ∪ s) l s = s ∪ list_to_set l).
  { intros l. induction l as [|a l IH]; intros s; cbn [fold_left list_to_set foldr]; [set_solver|]. rewrite IH. set_solver. }
  assert (Hdel : forall (l : list SocketAddr) (s : gset SocketAddr), fold_left (fun s a => s ∖ {[a]}) l s = s ∖ list_to_set l).
  { intros l. induction l as [|a l IH]; intros s; cbn [fold_left list_to_set foldr]; [set_solver|]. rewrite IH. set_solver. }
  by rewrite Hadd, Hdel.
Qed.

(** The first [n] of a set in address order. *)
Definition firsts (n : nat) (s : gset SocketAddr) : list SocketAddr := take n (merge_sort addr_le (elements s)).

Lemma firsts_spec n s :
  NoDup (firsts n s) /\ (forall a, a ∈ firsts n s -> a ∈ s) /\
  length (firsts n s) = Nat.min n (size s) /\ size (s ∖ list_to_set (firsts n s) : gset SocketAddr) = (size s - n)%nat.
Proof.
  unfold firsts. pose proof (merge_sort_Permutation addr_le (elements s)) as Hp.
  set (l := merge_sort addr_le (elements s)) in *.
  assert (Hnd : NoDup (take n l)).
  { eapply sublist_NoDup; [|apply sublist_take]. rewrite Hp. apply NoDup_elements. }
  assert (Hin : forall a, a ∈ take n l -> a ∈ s).
  { intros a (i & Hi & _)%elem_of_take. apply elem_of_elements. rewrite <- Hp. by eapply list_elem_of_lookup_2. }
  assert (Hlen : length (take n l) = Nat.min n (size s)) by (rewrite length_take, Hp; done).
  split_and!; try done.
  rewrite size_difference, size_list_to_set by (done || set_solver). lia.
Qed.

Lemma split_family (l : list SocketAddr) : filter (fun a => ~ is_v6 a) l ++ filter is_v6 l ≡ₚ l.
Proof.
  induction l as [|a l IH]; [done|]. rewrite !filter_cons. destruct (decide (is_v6 a)) as [Hv|Hv].
  - rewrite decide_False by tauto. rewrite <- Permutation_middle. by rewrite IH.
  - rewrite decide_True by done. cbn [app]. by rewrite IH.
Qed.

Definition wf_addr (a : SocketAddr) : Prop := wf_v4 a \/ wf_v6 a.

Lemma wf_family (l : list SocketAddr) :
  Forall wf_addr l -> Forall wf_v4 (filter (fun a => ~ is_v6 a) l) /\ Forall wf_v6 (filter is_v6 l).
Proof.
  intros H. split; apply Forall_forall; intros a [Hv Ha]%list_elem_of_filter;
    rewrite Forall_forall in H; destruct (H a Ha) as [Hw|Hw]; destruct a; try done; by destruct Hv.
Qed.

(** The message of a tick. *)
Lemma build_update_spec ps piece_count u msg :
  build_update ps piece_count u = Some msg ->
  let A := firsts PEX_MAX_ADDED (connected_peers ps u ∖ px_sent u) in
  let D := firsts PEX_MAX_DROPPED (px_sent u ∖ connected_peers ps u) in
  map fst (pm_added msg ++ pm_added6 msg) ≡ₚ A /\ pm_dropped msg ++ pm_dropped6 msg ≡ₚ D /\
  (Forall wf_addr A -> Forall wf_addr D -> wf_pex msg).
Proof.
  intros H A D. unfold build_update in H. fold (firsts PEX_MAX_ADDED (connected_peers ps u ∖ px_sent u)) in H.
  fold (firsts PEX_MAX_DROPPED (px_sent u ∖ connected_peers ps u)) in H. fold A in H. fold D in H.
  destruct (pex_is_empty _); [done|]. injection H as <-. cbn [pm_added pm_added6 pm_dropped pm_dropped6].
  assert (Hfst : forall l, map fst (map (fun addr => (addr, flags_for ps piece_count addr)) l) = l).
  { intros l. rewrite map_map. apply map_id. }
  split_and!.
  - rewrite map_app, !Hfst. apply split_family.
  - apply split_family.
  - intros HA%wf_family HD%wf_family. split; cbn [pm_added pm_added6 pm_dropped pm_dropped6]; rewrite ?Hfst; apply HA || apply HD.
Qed.

Lemma build_update_none ps piece_count u :
  build_update ps piece_count u = None -> connected_peers ps u = px_sent u.
Proof.
  unfold build_update. set (A := take _ _). set (D := take _ _). intros H.
  assert (HA : A = [] /\ D = []).
  { clearbody A D. destruct (pex_is_empty _) eqn:E; [|done]. unfold pex_is_empty in E.
    pose proof (split_family A) as PA. pose proof (split_family D) as PD.
    destruct (filter (fun a => ~ is_v6 a) A); [|done]. destruct (filter (fun a => ~ is_v6 a) D); [|done].
    destruct (filter is_v6 A); [|done]. destruct (filter is_v6 D); [|done]. cbn [app] in *.
    by apply Permutation_nil in PA, PD. }
  destruct HA as [HA HD].
  destruct (firsts_spec PEX_MAX_ADDED (connected_peers ps u ∖ px_sent u)) as (_ & _ & HlA & _).
  destruct (firsts_spec PEX_MAX_DROPPED (px_sent u ∖ connected_peers ps u)) as (_ & _ & HlD & _).
  unfold firsts in HlA, HlD. fold A in HlA. fold D in HlD. rewrite HA in HlA. rewrite HD in HlD.
  unfold PEX_MAX_ADDED, PEX_MAX_DROPPED in *. cbn [length] in *.
  assert (size (connected_peers ps u ∖ px_sent u) = 0%nat) as E1%size_empty_inv by lia.
  assert (size (px_sent u ∖ connected_peers ps u) = 0%nat) as E2%size_empty_inv by lia.
  apply set_eq. intros a. specialize (E1 a). specialize (E2 a). destruct (decide (a ∈ px_sent u)), (decide (a ∈ connected_peers ps u)); set_solver.
Qed.

(** ** Messages are short *)

Lemma length_encode_dict pairs :
  length (encode_dict pairs) = S (S (sum_list_with (fun p => length (encode_bytes (fst p) ++ snd p)) pairs)).
Proof.
  unfold encode_dict. cbn [length]. rewrite length_app. cbn [length].
  rewrite <- (merge_sort_Permutation key_le pairs) at 2.
  generalize (merge_sort key_le pairs). intros l. rewrite Nat.add_1_r. do 2 f_equal.
  induction l as [|p l IH]; [done|]. cbn [map concat sum_list_with]. rewrite length_app. lia.
Qed.

Lemma length_pex_pair {A} key (enc : list A -> bytes) l n :
  (length key <= 8)%nat -> (length (enc l) <= n)%nat -> Z.of_nat n <= I64_MAX ->
  (sum_list_with (fun p => length (encode_bytes (fst p) ++ snd p)) (pex_pair key enc l) <= n + 150)%nat.
Proof.
  intros Hk Hn Hi. destruct l as [|a l]; [cbn; lia|]. cbn [pex_pair sum_list_with fst snd]. rewrite length_app.
  pose proof (length_encode_bytes_le key ltac:(unfold I64_MAX; lia)).
  pose proof (length_encode_bytes_le (enc (a :: l)) ltac:(lia)). lia.
Qed.

Lemma length_compact (f : SocketAddr -> bytes) n addrs :
  (forall a, (length (f a) <= n)%nat) -> (length (concat (map f addrs)) <= n * length addrs)%nat.
Proof.
  intros Hf. induction addrs as [|a l IH]; [cbn; lia|]. cbn [map concat length]. rewrite length_app.
  pose proof (Hf a). lia.
Qed.

Lemma length_message msg n :
  (length (pm_added msg) <= n)%nat -> (length (pm_added6 msg) <= n)%nat ->
  (length (pm_dropped msg) <= n)%nat -> (length (pm_dropped6 msg) <= n)%nat -> (n <= 1000)%nat ->
  (length (encode_message msg) <= 110 * n + 1000)%nat.
Proof.
  intros H1 H2 H3 H4 Hn. unfold encode_message. rewrite length_encode_dict, !sum_list_with_app.
  assert (Hv4 : forall a, (length (compact_v4 a) <= 6)%nat).
  { intros []; cbn [compact_v4]; rewrite ?length_app, ?length_be_bytes; cbn; lia. }
  assert (Hv6 : forall a, (length (compact_v6 a) <= 18)%nat).
  { intros []; cbn [compact_v6]; rewrite ?length_app, ?length_be_bytes; cbn; lia. }
  assert (Hb : forall k, (k <= 18 * n)%nat -> Z.of_nat k <= I64_MAX) by (unfold I64_MAX; lia).
  pose proof (length_compact compact_v4 6 (map fst (pm_added msg)) Hv4) as L1.
  pose proof (length_compact compact_v6 18 (map fst (pm_added6 msg)) Hv6) as L2.
  pose proof (length_compact compact_v4 6 (pm_dropped msg) Hv4) as L3.
  pose proof (length_compact compact_v6 18 (pm_dropped6 msg) Hv6) as L4.
  rewrite length_map in L1, L2.
  pose proof (length_pex_pair (str "added") (fun l => encode_compact_v4 (map fst l)) (pm_added msg) (6 * n)
    ltac:(cbn; lia) ltac:(unfold encode_compact_v4; lia) ltac:(apply Hb; lia)).
  pose proof (length_pex_pair (str "added.f") (map snd) (pm_added msg) n
    ltac:(cbn; lia) ltac:(rewrite length_map; lia) ltac:(apply Hb; lia)).
  pose proof (length_pex_pair (str "added6") (fun l => encode_compact_v6 (map fst l)) (pm_added6 msg) (18 * n)
    ltac:(cbn; lia) ltac:(unfold encode_compact_v6; lia) ltac:(apply Hb; lia)).
  pose proof (length_pex_pair (str "added6.f") (map snd) (pm_added6 msg) n
    ltac:(cbn; lia) ltac:(rewrite length_map; lia) ltac:(apply Hb; lia)).
  pose proof (length_pex_pair (str "dropped") encode_compact_v4 (pm_dropped msg) (6 * n)
    ltac:(cbn; lia) ltac:(unfold encode_compact_v4; lia) ltac:(apply Hb; lia)).
  pose proof (length_pex_pair (str "dropped6") encode_compact_v6 (pm_dropped6 msg) (18 * n)
    ltac:(cbn; lia) ltac:(unfold encode_compact_v6; lia) ltac:(apply Hb; lia)).
  lia.
Qed.

(** ** One tick, and many *)

Definition pex_ready (u : UtPex) : Prop :=
  px_disconnect u = false /\ px_supports u = true /\ px_allows_pex u = true.

(** The addresses we tell of can be written. *)
Definition addrs_ok (ps : PeerStates) (u : UtPex) : Prop :=
  (forall a, a ∈ px_sent u -> wf_addr a) /\ (forall a, a ∈ connected_peers ps u -> wf_addr a).

Lemma connected_same ps u u' : px_peer u' = px_peer u -> connected_peers ps u' = connected_peers ps u.
Proof. intros E. unfold connected_peers. by rewrite E. Qed.

Lemma diff_added (C S A D : gset SocketAddr) : D ## C -> C ∖ ((S ∪ A) ∖ D) = (C ∖ S) ∖ A.
Proof. set_solver. Qed.

Lemma diff_dropped (C S A D : gset SocketAddr) : A ⊆ C -> ((S ∪ A) ∖ D) ∖ C = (S ∖ C) ∖ D.
Proof. set_solver. Qed.

(** A tick that is due brings what the other side knows closer to the peers
    connected, by up to fifty in each direction. *)
Lemma pex_tick_due from_bytes `{!BencodeLib from_bytes} ps piece_count now u :
  pex_ready u -> addrs_ok ps u ->
  match px_last_sent u with Some last => PEX_INTERVAL <= since now last | None => True end ->
  exists out u', px_on_tick ps piece_count now u = (out, u') /\ pex_ready u' /\ px_peer u' = px_peer u /\ addrs_ok ps u' /\
    foldr (fun payload k => known ← k; msg ← pex_parse_message from_bytes payload; Some (apply_pex msg known))
      (Some (px_sent u)) out = Some (px_sent u') /\
    (px_last_sent u' = Some now \/ px_last_sent u' = px_last_sent u) /\
    size (connected_peers ps u ∖ px_sent u') = (size (connected_peers ps u ∖ px_sent u) - PEX_MAX_ADDED)%nat /\
    size (px_sent u' ∖ connected_peers ps u) = (size (px_sent u ∖ connected_peers ps u) - PEX_MAX_DROPPED)%nat.
Proof.
  intros (H1 & H2 & H3) [Hw1 Hw2] Hdue. unfold px_on_tick. rewrite H1, H2, H3. cbn [orb negb].
  assert (match px_last_sent u with Some last => since now last <? PEX_INTERVAL | None => false end = false) as ->.
  { destruct (px_last_sent u); [|done]. by apply Z.ltb_ge. }
  destruct (build_update ps piece_count u) as [msg|] eqn:E.
  2:{ apply build_update_none in E. exists [], u. split_and!; try done; [by right| |]; rewrite E, difference_diag_L; done. }
  destruct (build_update_spec _ _ _ _ E) as (PA & PD & Hwf).
  destruct (firsts_spec PEX_MAX_ADDED (connected_peers ps u ∖ px_sent u)) as (_ & InA & LA & SA).
  destruct (firsts_spec PEX_MAX_DROPPED (px_sent u ∖ connected_peers ps u)) as (_ & InD & LD & SD).
  set (A := firsts PEX_MAX_ADDED _) in *. set (D := firsts PEX_MAX_DROPPED _) in *.
  assert (Eap : apply_pex msg (px_sent u) = (px_sent u ∪ list_to_set A) ∖ list_to_set D).
  { unfold apply_pex. by rewrite (list_to_set_perm_L _ _ PA), (list_to_set_perm_L _ _ PD). }
  assert (HwA : Forall wf_addr A) by (apply Forall_forall; intros a Ha%InA; set_solver).
  assert (HwD : Forall wf_addr D) by (apply Forall_forall; intros a Ha%InD; set_solver).
  assert (Hlen : (length (encode_message msg) <= 110 * 50 + 1000)%nat).
  { apply Permutation_length in PA, PD. rewrite length_map in PA. rewrite length_app in PA, PD.
    unfold PEX_MAX_ADDED, PEX_MAX_DROPPED in *. apply length_message; lia. }
  assert (Eps : pex_parse_message from_bytes (encode_message msg) = Some msg).
  { apply (pex_roundtrip from_bytes); [by apply Hwf|]. unfold MAX_EXTENSION_PAYLOAD. lia. }
  eexists _, _. split; [done|]. cbn [set_px_sent px_sent px_peer px_last_sent]. rewrite mark_sent_apply, Eap.
  split_and!; try done.
  - split; cbn [set_px_sent px_sent].
    + intros a [[?|Ha%elem_of_list_to_set]%elem_of_union _]%elem_of_difference; [by apply Hw1|].
      rewrite Forall_forall in HwA. by apply HwA.
    + rewrite (connected_same ps u) by done. apply Hw2.
  - cbn [foldr]. red_bind. rewrite Eps. red_bind. by rewrite Eap.
  - by left.
  - rewrite <- SA. f_equal. apply diff_added. intros a Ha%elem_of_list_to_set%InD Hc. by apply elem_of_difference in Ha as [_ ?].
  - rewrite <- SD. f_equal. apply diff_dropped. intros a Ha%elem_of_list_to_set%InA. by apply elem_of_difference in Ha as [? _].
Qed.

(** Times a minute apart. *)
Fixpoint spaced (last : option Instant) (times : list Instant) : Prop :=
  match times with
  | [] => True
  | now :: times =>
      match last with Some t => PEX_INTERVAL <= since now t | None => True end /\
      (forall t, last = Some t -> t <= now) /\ spaced (Some now) times
  end.

Lemma spaced_earlier last last' times :
  spaced (Some last') times -> (forall t, last = Some t -> t <= last') -> spaced last times.
Proof.
  destruct times as [|now times]; [done|]. cbn [spaced]. intros (H1 & H2 & H3) Hl. specialize (H2 _ eq_refl). split_and!; [|by intros t Ht%Hl; lia|done].
  destruct last as [t|]; [|done]. specialize (Hl t eq_refl). unfold since in *. lia.
Qed.

Lemma pex_run_converges from_bytes `{!BencodeLib from_bytes} ps piece_count times u :
  pex_ready u -> addrs_ok ps u -> spaced (px_last_sent u) times ->
  (size (connected_peers ps u ∖ px_sent u) <= 50 * length times)%nat ->
  (size (px_sent u ∖ connected_peers ps u) <= 50 * length times)%nat ->
  exists u', pex_run from_bytes ps piece_count times u (px_sent u) = Some (u', connected_peers ps u) /\
    px_sent u' = connected_peers ps u.
Proof.
  revert u. induction times as [|now times IH]; intros u Hr Ha Hs HA HD; cbn [pex_run length] in *.
  - assert (size (connected_peers ps u ∖ px_sent u) = 0%nat) as E1%size_empty_inv by lia.
    assert (size (px_sent u ∖ connected_peers ps u) = 0%nat) as E2%size_empty_inv by lia.
    assert (E : px_sent u = connected_peers ps u).
    { apply set_eq. intros a. specialize (E1 a). specialize (E2 a).
      destruct (decide (a ∈ px_sent u)), (decide (a ∈ connected_peers ps u)); set_solver. }
    exists u. by rewrite E.
  - cbn [spaced] in Hs. destruct Hs as (Hdue & Hle & Hs).
    destruct (pex_tick_due from_bytes ps piece_count now u Hr Ha Hdue) as (out & u' & E & Hr' & Hp & Ha' & Ek & Hl & S1 & S2).
    rewrite E, Ek. red_bind. pose proof (connected_same ps u u' Hp) as Ec.
    destruct (IH u') as (u2 & E2 & E3); try done.
    + destruct Hl as [-> | ->]; [done|]. eapply spaced_earlier; [done|]. done.
    + rewrite Ec, S1. unfold PEX_MAX_ADDED. lia.
    + rewrite Ec, S2. unfold PEX_MAX_DROPPED. lia.
    + exists u2. rewrite E2, E3, Ec. done.
Qed.

(** Ticks at any times, while peers come and go: the messages sent, with their
    times. *)
Fixpoint pex_sent (piece_count : nat) (ticks : list (Instant * PeerStates)) (u : UtPex) : list (Instant * bytes) :=
  match ticks with
  | [] => []
  | (now, ps) :: ticks =>
      let '(out, u) := px_on_tick ps piece_count now u in
      map (fun payload => (now, payload)) out ++ pex_sent piece_count ticks u
  end.

(** Each time is a minute after the one before. *)
Fixpoint paced (last : option Instant) (times : list Instant) : Prop :=
  match times with
  | [] => True
  | t :: times => match last with Some l => secs 60 <= since t l | None => True end /\ paced (Some t) times
  end.

(** A message of at most fifty joined and fifty left peers. *)
Definition small_message (payload : bytes) : Prop :=
  exists msg, payload = encode_message msg /\
    (length (pm_added msg) + length (pm_added6 msg) <= 50)%nat /\ (length (pm_dropped msg) + length (pm_dropped6 msg) <= 50)%nat.

Lemma build_update_small ps piece_count u msg : build_update ps piece_count u = Some msg -> small_message (encode_message msg).
Proof.
  intros E. destruct (build_update_spec _ _ _ _ E) as (HA & HD & _). exists msg. split; [done|].
  apply Permutation_length in HA, HD. rewrite length_map, length_app in HA. rewrite length_app in HD.
  destruct (firsts_spec PEX_MAX_ADDED (connected_peers ps u ∖ px_sent u)) as (_ & _ & EA & _).
  destruct (firsts_spec PEX_MAX_DROPPED (px_sent u ∖ connected_peers ps u)) as (_ & _ & ED & _).
  unfold PEX_MAX_ADDED, PEX_MAX_DROPPED in *. lia.
Qed.

(** A tick sends at most one message, a small one, and only when a minute has
    passed since the last. *)
Lemma px_on_tick_sends ps piece_count now u out u' :
  px_on_tick ps piece_count now u = (out, u') ->
  (out = [] /\ px_last_sent u' = px_last_sent u) \/
  (exists payload, out = [payload] /\ small_message payload /\ px_last_sent u' = Some now /\
     match px_last_sent u with Some l => secs 60 <= since now l | None => True end).
Proof.
  unfold px_on_tick. destruct (_ || _); [intros [= <- <-]; by left|].
  destruct (px_last_sent u) as [l|] eqn:El.
  - destruct (Z.ltb_spec (since now l) PEX_INTERVAL); [intros [= <- <-]; by left|].
    destruct (build_update ps piece_count u) as [msg|] eqn:E; intros [= <- <-]; [right|by left].
    eexists. split; [done|]. split; [by eapply build_update_small|]. by split.
  - destruct (build_update ps piece_count u) as [msg|] eqn:E; intros [= <- <-]; [right|by left].
    eexists. split; [done|]. split; [by eapply build_update_small|]. by split.
Qed.

Lemma pex_sent_paced piece_count ticks u :
  paced (px_last_sent u) (map fst (pex_sent piece_count ticks u)) /\
  Forall (fun m => small_message (snd m)) (pex_sent piece_count ticks u).
Proof.
  revert u. induction ticks as [|[now ps] ticks IH]; intros u; [by split|]. cbn [pex_sent].
  destruct (px_on_tick ps piece_count now u) as [out u'] eqn:E.
  destruct (px_on_tick_sends _ _ _ _ _ _ E) as [[-> El]|(payload & -> & Hs & El & Hp)]; destruct (IH u') as [IH1 IH2];
    rewrite El in IH1; cbn [map app fst paced]; [by split|]. split; [done|by constructor].
Qed.

(** C39: peer exchange keeps the other side informed, without flooding it: whatever
    it was told before, once the connected peers stay the same, ticks a minute apart
    bring what it knows - every message encoded, sent, parsed and applied - to
    exactly the peers we are connected to, other than itself, fifty joined and fifty
    left peers at a time; and whenever the ticks come and however the peers change,
    no message has more than fifty joined or fifty left peers, and a minute passes
    between one message and the next. *)
Theorem pex_tracks_swarm from_bytes `{!BencodeLib from_bytes} ps piece_count times u :
  pex_ready u -> addrs_ok ps u -> spaced (px_last_sent u) times ->
  (size (connected_peers ps u ∖ px_sent u) <= 50 * length times)%nat ->
  (size (px_sent u ∖ connected_peers ps u) <= 50 * length times)%nat ->
  exists u', pex_run from_bytes ps piece_count times u (px_sent u) = Some (u', connected_peers ps u) /\
    px_sent u' = connected_peers ps u /\ px_peer u ∉ connected_peers ps u /\
    (forall ticks, paced (px_last_sent u) (map fst (pex_sent piece_count ticks u)) /\
       Forall (fun m => small_message (snd m)) (pex_sent piece_count ticks u)).
Proof.
  intros Hr Ha Hs HA HD. destruct (pex_run_converges from_bytes ps piece_count times u Hr Ha Hs HA HD) as (u' & E1 & E2).
  exists u'. split_and!; [done|done| |intros ticks; apply pex_sent_paced]. unfold connected_peers.
  intros (s & [_ [Hne _]]%map_lookup_filter_Some)%elem_of_dom. by apply Hne.
Qed.

(** Two peers connected, one known that left. *)
Definition sample_states : PeerStates :=
  mkPeerStates
    (<[V4 1 1 := live 0]> (<[V4 2 2 := live 0]>
      {[V6 3 3 0 0 := live 0]})) ∅ ∅.

Definition sample_pex : UtPex := mkUtPex (V4 1 1) true true {[V4 9 9]} (Some 0) None false.

Lemma pex_tracks_swarm_witness :
  exists u', pex_run parse_bencode sample_states 4 [secs 60; secs 120] sample_pex (px_sent sample_pex)
      = Some (u', connected_peers sample_states sample_pex) /\
    px_sent u' = connected_peers sample_states sample_pex /\ V4 1 1 ∉ connected_peers sample_states sample_pex /\
    (forall ticks, paced (Some 0) (map fst (pex_sent 4 ticks sample_pex)) /\
       Forall (fun m => small_message (snd m)) (pex_sent 4 ticks sample_pex)).
Proof.
  apply (pex_tracks_swarm parse_bencode sample_states 4 [secs 60; secs 120] sample_pex).
  - done.
  - split.
    + cbn [sample_pex px_sent]. intros a Ha. apply elem_of_singleton in Ha as ->. by left.
    + assert (Hf : Forall wf_addr (elements (connected_peers sample_states sample_pex))).
      { assert (E : elements (connected_peers sample_states sample_pex) = [V4 2 2; V6 3 3 0 0] \/
                    elements (connected_peers sample_states sample_pex) = [V6 3 3 0 0; V4 2 2])
          by (vm_compute; first [left; reflexivity|right; reflexivity]).
        destruct E as [-> | ->]; repeat constructor; done. }
      intros a Ha%elem_of_elements. rewrite Forall_forall in Hf. by apply Hf.
  - cbn. unfold PEX_INTERVAL, since, secs. split_and!; try done; intros t [= <-]; lia.
  - vm_compute. lia.
  - vm_compute. lia.
Defined.

(** ** Private torrents and greedy peers *)

(** On a private torrent nothing is sent and nothing is taken. *)
Lemma pex_private from_bytes ps piece_count now payload u :
  px_allows_pex u = false ->
  px_on_tick ps piece_count now u = ([], u) /\ px_on_message from_bytes now payload u = (None, u).
Proof. intros H. unfold px_on_tick, px_on_message. rewrite H, !orb_true_r. done. Qed.

Lemma dedup_after_in {A} `{EqDecision A} (last : A) l a : a ∈ dedup_after last l -> a ∈ l.
Proof.
  revert last. induction l as [|b l IH]; intros last; [done|]. cbn [dedup_after]. case_decide.
  - intros Ha. right. by eapply IH.
  - intros [->|Ha]%elem_of_cons; [left|right]. by eapply IH.
Qed.

Lemma dedup_after_sorted (last : SocketAddr) l :
  Sorted.StronglySorted addr_le (last :: l) -> (last ∉ dedup_after last l) /\ NoDup (dedup_after last l).
Proof.
  revert last. induction l as [|b l IH]; intros last Hs; [by split; [apply not_elem_of_nil|constructor]|].
  apply Sorted.StronglySorted_inv in Hs as [Hs Hl]. cbn [dedup_after]. case_decide as E.
  - subst. by apply IH.
  - pose proof (IH b Hs) as [Hb Hnd]. split.
    + intros [?|Hin%dedup_after_in]%elem_of_cons; [congruence|].
      apply Sorted.StronglySorted_inv in Hs as [_ Hbl]. rewrite Forall_forall in Hbl. apply Forall_cons in Hl as [Hlb _].
      apply E. specialize (Hbl last Hin). apply addr_key_inj. revert Hlb Hbl. unfold addr_le, addr_leb, addr_cmp.
      rewrite (cmp_list_antisym (addr_key b) (addr_key last)).
      destruct (cmp_list (addr_key b) (addr_key last)) eqn:Ec; cbn; try done. intros _ _. by apply cmp_list_Eq.
    + by constructor.
Qed.

(** The peers taken from a message: those it adds, other than the sender, each
    once; and a second message within half a minute ends the connection. *)
Lemma px_on_message_peers from_bytes now payload u addrs u' :
  px_on_message from_bytes now payload u = (Some addrs, u') ->
  px_allows_pex u = true /\ px_disconnect u = false /\ NoDup addrs /\ addrs <> [] /\
  (match px_last_recv u with Some last => PEX_MIN_INBOUND_INTERVAL <= since now last | None => True end) /\
  exists msg, pex_parse_message from_bytes payload = Some msg /\
    forall a, a ∈ addrs -> a <> px_peer u /\ a ∈ map fst (pm_added msg ++ pm_added6 msg).
Proof.
  unfold px_on_message. destruct (px_disconnect u); [done|]. destruct (px_allows_pex u); [|done]. cbn [orb negb].
  destruct (match px_last_recv u with Some last => since now last <? PEX_MIN_INBOUND_INTERVAL | None => false end) eqn:Er; [done|].
  destruct (pex_parse_message from_bytes payload) as [msg|] eqn:Ep; [|done].
  set (l := merge_sort addr_le _).
  assert (Hs : Sorted.StronglySorted addr_le l) by (apply Sorted.Sorted_StronglySorted; [exact addr_le_trans|apply (Sorted_merge_sort addr_le)]).
  assert (Hl : forall a, a ∈ l -> a <> px_peer u /\ a ∈ map fst (pm_added msg ++ pm_added6 msg)).
  { intros a Ha. unfold l in Ha. rewrite merge_sort_Permutation in Ha. by apply list_elem_of_filter in Ha. }
  clearbody l. destruct (dedup l) as [|x k] eqn:Ed; [done|]. intros [= <- <-]. split_and!; try done.
  - destruct l as [|b l]; [done|]. cbn [dedup] in Ed. injection Ed as <- <-.
    destruct (dedup_after_sorted b l Hs). by constructor.
  - destruct (px_last_recv u); [|done]. by apply Z.ltb_ge.
  - exists msg. split; [done|]. intros a Ha. apply Hl. destruct l as [|b l]; [done|]. cbn [dedup] in Ed.
    injection Ed as <- <-. apply elem_of_cons in Ha as [->|Ha]; [left|right]. by eapply dedup_after_in.
Qed.
