(* ===== verification/Registry.v ===== *)
(** * The extensions of a connection (crates/bit_rev/src/extension/registry.rs)

    The trait [Extension] is a class; the registry and the session of a connection
    are written against it, and [UtMetadata] and [UtPex] are its instances.  What
    the extensions of a connection share is passed along.  [iter] is the order in
    which the hash map of the extensions is visited. *)

From S2P Require Import Prelude Bencode Text Value Bitfield Message PeerStates ExtHandshake IpFilter Peers.
From S2P Require Import Metadata Pex.

(** ** The trait *)

(** What an extension reaches through its context. *)
Record Shared := mkShared {
  sh_metadata : MetadataStore;
  sh_states : PeerStates;
  sh_piece_count : nat }.

Record ExtensionContext := mkExtContext { cx_peer : SocketAddr; cx_allows_pex : bool }.

(** What a handler does besides replying. *)
Inductive Effect :=
| EffWriter (peer : SocketAddr) (request : WriterRequest)
| EffAddPeers (addrs : list SocketAddr).

Class Extension (E : Type) := {
  ext_name : E -> bytes;
  ext_on_handshake : PeerExtensionInfo -> E -> Shared -> E * Shared;
  ext_on_message : Instant -> bytes -> E -> Shared -> option (list bytes * list Effect * E * Shared);
  ext_on_tick : Instant -> E -> Shared -> list bytes * E * Shared;
  ext_should_disconnect : E -> bool;
  ext_enabled : E -> bool }.

(** ** The registry *)

Record RegisteredExtension (E : Type) := mkRegistered {
  re_name : bytes;
  re_local_id : u8;
  re_factory : ExtensionContext -> E }.
#[global] Arguments mkRegistered {E} re_name re_local_id re_factory.
#[global] Arguments re_name {E} r.
#[global] Arguments re_local_id {E} r.
#[global] Arguments re_factory {E} r ctx : rename.

Definition probe : ExtensionContext := mkExtContext (V4 0 0) true.

Section Registry.
Context {E : Type} `{!Extension E}.

Definition ext_register (factory : ExtensionContext -> E) (entries : list (RegisteredExtension E))
    : u8 * list (RegisteredExtension E) :=
  let name := ext_name (factory probe) in
  match List.find (fun e => bool_decide (re_name e = name)) entries with
  | Some existing => (re_local_id existing, entries)
  | None =>
      let n := Z.of_nat (length entries + 1) in
      let local_id := if n <=? U8_MAX then n else U8_MAX in
      (local_id, entries ++ [mkRegistered name local_id factory])
  end.

Definition ext_contains (entries : list (RegisteredExtension E)) (name : bytes) : bool :=
  existsb (fun e => bool_decide (re_name e = name)) entries.

Definition local_map (entries : list (RegisteredExtension E)) : gmap bytes i64 :=
  fold_left (fun m e => <[re_name e := re_local_id e]> m) entries ∅.

(** ** The session of a connection *)

Record ExtensionSession := mkSession {
  es_local_ids : gmap bytes u8;
  es_by_local_id : gmap u8 E;
  es_peer : PeerExtensionInfo }.

Definition ext_bind (ctx : ExtensionContext) (entries : list (RegisteredExtension E)) : ExtensionSession :=
  fold_left (fun s e =>
    let ext := re_factory e ctx in
    if negb (ext_enabled ext) then s
    else mkSession (<[re_name e := re_local_id e]> (es_local_ids s)) (<[re_local_id e := ext]> (es_by_local_id s)) (es_peer s))
    entries (mkSession ∅ ∅ pi_default).

Definition set_by_local_id (m : gmap u8 E) (s : ExtensionSession) : ExtensionSession :=
  mkSession (es_local_ids s) m (es_peer s).
Definition set_es_peer (p : PeerExtensionInfo) (s : ExtensionSession) : ExtensionSession :=
  mkSession (es_local_ids s) (es_by_local_id s) p.

Definition outgoing_handshake (listen_port : option u16) (metadata_size : option i64) (s : ExtensionSession) : Message :=
  format_extended 0 (eh_encode (eh_outgoing (es_local_ids s) listen_port metadata_size)).

Definition encode_outgoing (s : ExtensionSession) (name payload : bytes) : option Message :=
  ext_id ← peer_ext_id (es_peer s) name; Some (format_extended ext_id payload).

Context (iter : gmap u8 E -> list (u8 * E)).
Context (from_bytes : bytes -> option Value).

(** [for ext in by_local_id.values_mut()], the shared part passed from one to the
    next; [f] also yields what the loop collects. *)
Definition each_ext {A} (f : E -> Shared -> A * E * Shared) (s : ExtensionSession) (sh : Shared)
    : list A * ExtensionSession * Shared :=
  let '(out, m, sh) :=
    fold_left (fun '(out, m, sh) '(id, ext) =>
      let '(a, ext, sh) := f ext sh in (out ++ [a], <[id := ext]> m, sh))
      (iter (es_by_local_id s)) ([], es_by_local_id s, sh) in
  (out, set_by_local_id m s, sh).

Definition collect_ticks (now : Instant) (s : ExtensionSession) (sh : Shared) : list Message * ExtensionSession * Shared :=
  let '(ticks, s, sh) :=
    each_ext (fun ext sh => let '(out, ext', sh) := ext_on_tick now ext sh in ((ext_name ext, out), ext', sh)) s sh in
  (concat (map (fun '(name, replies) => omap (M := list) (encode_outgoing s name) replies) ticks), s, sh).

Definition handle_extended (now : Instant) (ext_id : u8) (payload : bytes) (s : ExtensionSession) (sh : Shared)
    : option (list Message * list Effect * ExtensionSession * Shared) :=
  if ext_id =? 0 then
    let handshake := eh_decode from_bytes payload in
    let s := set_es_peer (pi_merge (es_peer s) handshake) s in
    let info := es_peer s in
    let '(_, s, sh) := each_ext (fun ext sh => let '(ext, sh) := ext_on_handshake info ext sh in ((), ext, sh)) s sh in
    let '(out, s, sh) := collect_ticks now s sh in
    Some (out, [], s, sh)
  else match es_by_local_id s !! ext_id with
  | None => Some ([], [], s, sh)
  | Some ext =>
      match ext_on_message now payload ext sh with
      | None => None
      | Some (replies, effects, ext', sh) =>
          let s := set_by_local_id (<[ext_id := ext']> (es_by_local_id s)) s in
          Some (omap (M := list) (encode_outgoing s (ext_name ext)) replies, effects, s, sh)
      end
  end.

Definition session_on_tick (now : Instant) (s : ExtensionSession) (sh : Shared) : list Message * ExtensionSession * Shared :=
  collect_ticks now s sh.

Definition should_disconnect (s : ExtensionSession) : bool :=
  existsb (fun e => ext_should_disconnect (snd e)) (iter (es_by_local_id s)).
End Registry.
#[global] Arguments ExtensionSession E : clear implicits.

(** ** The extensions *)

Section Instances.
Context (sha1 : bytes -> bytes) (order : gset SocketAddr -> list SocketAddr).
Context (from_bytes : bytes -> option Value) (stack : nat).

#[local] Instance UtMetadata_ext : Extension UtMetadata := {
  ext_name _ := UT_METADATA;
  ext_on_handshake info u sh :=
    let '(u, ms) := um_on_handshake info u (sh_metadata sh) in (u, mkShared ms (sh_states sh) (sh_piece_count sh));
  ext_on_message now payload u sh :=
    '(out, sent, u, ms, ps) ← um_on_message sha1 order from_bytes stack now payload u (sh_metadata sh) (sh_states sh);
    Some (out, map (fun s => EffWriter (fst s) (snd s)) sent, u, mkShared ms ps (sh_piece_count sh));
  ext_on_tick now u sh :=
    let '(out, u, ms) := um_on_tick now u (sh_metadata sh) in (out, u, mkShared ms (sh_states sh) (sh_piece_count sh));
  ext_should_disconnect := um_disconnect;
  ext_enabled _ := true }.

#[local] Instance UtPex_ext : Extension UtPex := {
  ext_name _ := UT_PEX;
  ext_on_handshake info u sh := (px_on_handshake info u, sh);
  ext_on_message now payload u sh :=
    let '(added, u) := px_on_message from_bytes now payload u in
    Some ([], match added with Some addrs => [EffAddPeers addrs] | None => [] end, u, sh);
  ext_on_tick now u sh :=
    let '(out, u) := px_on_tick (sh_states sh) (sh_piece_count sh) now u in (out, u, sh);
  ext_should_disconnect := px_disconnect;
  ext_enabled := px_allows_pex }.

(** [Box<dyn Extension>] *)
Inductive AnyExt :=
| BoxMetadata (u : UtMetadata)
| BoxPex (u : UtPex).

Definition AnyExt_ext : Extension AnyExt := {|
  ext_name e := match e with BoxMetadata u => ext_name u | BoxPex u => ext_name u end;
  ext_on_handshake info e sh :=
    match e with
    | BoxMetadata u => let '(u, sh) := ext_on_handshake info u sh in (BoxMetadata u, sh)
    | BoxPex u => let '(u, sh) := ext_on_handshake info u sh in (BoxPex u, sh)
    end;
  ext_on_message now payload e sh :=
    match e with
    | BoxMetadata u =>
        match ext_on_message now payload u sh with
        | Some (out, eff, u, sh) => Some (out, eff, BoxMetadata u, sh)
        | None => None end
    | BoxPex u =>
        match ext_on_message now payload u sh with
        | Some (out, eff, u, sh) => Some (out, eff, BoxPex u, sh)
        | None => None end
    end;
  ext_on_tick now e sh :=
    match e with
    | BoxMetadata u => let '(out, u, sh) := ext_on_tick now u sh in (out, BoxMetadata u, sh)
    | BoxPex u => let '(out, u, sh) := ext_on_tick now u sh in (out, BoxPex u, sh)
    end;
  ext_should_disconnect e := match e with BoxMetadata u => ext_should_disconnect u | BoxPex u => ext_should_disconnect u end;
  ext_enabled e := match e with BoxMetadata u => ext_enabled u | BoxPex u => ext_enabled u end |}.
End Instances.

(** [session.rs]: the two extensions the session registers. *)
Definition metadata_factory (ctx : ExtensionContext) : AnyExt := BoxMetadata (um_new (cx_peer ctx)).
Definition pex_factory (ctx : ExtensionContext) : AnyExt := BoxPex (px_new (cx_peer ctx) (cx_allows_pex ctx)).

(** ** Local ids *)

Section Ids.
Context {E : Type} `{!Extension E}.

(** The entries of a registry are numbered from 1. *)
Record entries_ok (entries : list (RegisteredExtension E)) : Prop := {
  en_names : NoDup (map re_name entries);
  en_ids : map re_local_id entries = map (fun n => Z.min (Z.of_nat n) U8_MAX) (seq 1 (length entries)) }.

Lemma ext_register_ok factory entries :
  entries_ok entries ->
  entries_ok (ext_register factory entries).2 /\
  exists e, e ∈ (ext_register factory entries).2 /\ re_name e = ext_name (factory probe) /\
    re_local_id e = (ext_register factory entries).1.
Proof.
  intros [Hn Hi]. unfold ext_register. destruct (List.find _ _) as [e|] eqn:Ef; cbn [fst snd].
  - apply List.find_some in Ef as [Hin He%bool_decide_eq_true]. split; [done|]. exists e.
    split_and!; [by apply list_elem_of_In|done|done].
  - split.
    + split.
      * rewrite map_app. apply NoDup_app. split_and!; [done| |apply NoDup_singleton]. cbn [map re_name].
        intros nm Hnm ->%list_elem_of_singleton. apply list_elem_of_fmap in Hnm as (e & En & He).
        apply list_elem_of_In in He. apply (List.find_none _ _ Ef) in He. apply bool_decide_eq_false in He. congruence.
      * rewrite length_app. cbn [length]. rewrite seq_app, !map_app, Hi. cbn [seq map re_local_id]. do 2 f_equal. unfold U8_MAX.
        replace (length entries + 1)%nat with (S (length entries)) by lia.
        destruct (Z.leb_spec (Z.of_nat (S (length entries))) 255); lia.
    + eexists. split; [apply elem_of_app; right; by apply list_elem_of_singleton|done].
Qed.

(** Whatever is registered, with at most 255 extensions each has a name and a
    message id of its own, none of them the handshake's 0. *)
Lemma registry_ids factories :
  let entries := fold_left (fun es f => (ext_register f es).2) factories [] in
  NoDup (map re_name entries) /\
  ((length entries <= 255)%nat -> NoDup (map re_local_id entries) /\ Forall (fun id => 1 <= id <= 255) (map re_local_id entries)).
Proof.
  intros entries. assert (H : entries_ok entries).
  { unfold entries. assert (H0 : entries_ok (@nil (RegisteredExtension E))) by (split; [constructor|done]).
    revert H0. generalize (@nil (RegisteredExtension E)). induction factories as [|f fs IH]; intros es Hes; [done|].
    cbn [fold_left]. apply IH. by apply ext_register_ok. }
  destruct H as [Hn Hi]. split; [done|]. intros Hl. rewrite Hi.
  assert (Heq : map (fun n => Z.min (Z.of_nat n) U8_MAX) (seq 1 (length entries)) = map Z.of_nat (seq 1 (length entries))).
  { apply map_ext_in. intros n Hin%in_seq. unfold U8_MAX. lia. }
  rewrite Heq. split; [apply (NoDup_fmap_2 Z.of_nat), NoDup_seq|].
  apply Forall_map, Forall_forall. intros n Hn'%list_elem_of_In%in_seq. cbn. lia.
Qed.
End Ids.

(** ** Routing *)

Section Routing.
Context {E : Type} `{!Extension E} (iter : gmap u8 E -> list (u8 * E)) (from_bytes : bytes -> option Value).

(** A message of an extension reaches only that extension, and the replies carry
    the id the peer gave to it - they are dropped when the peer has none for it. *)
Lemma handle_extended_routing now ext_id payload (s : ExtensionSession E) sh out eff s' sh' :
  ext_id <> 0 -> handle_extended iter from_bytes now ext_id payload s sh = Some (out, eff, s', sh') ->
  es_peer s' = es_peer s /\ es_local_ids s' = es_local_ids s /\
  (forall id, id <> ext_id -> es_by_local_id s' !! id = es_by_local_id s !! id) /\
  match es_by_local_id s !! ext_id with
  | None => out = [] /\ eff = [] /\ s' = s /\ sh' = sh
  | Some ext => forall m, m ∈ out -> exists id reply,
      peer_ext_id (es_peer s) (ext_name ext) = Some id /\ id <> 0 /\ m = Extended id reply
  end.
Proof.
  intros Hne. unfold handle_extended. rewrite (proj2 (Z.eqb_neq _ _)) by done.
  destruct (es_by_local_id s !! ext_id) as [ext|] eqn:Ee; [|by intros [= <- <- <- <-]].
  destruct (ext_on_message now payload ext sh) as [[[[replies eff'] ext'] sh1]|]; [|done].
  intros [= <- <- <- <-]. cbn [set_by_local_id es_peer es_local_ids es_by_local_id]. split_and!; try done.
  - intros id Hid. by rewrite lookup_insert_ne.
  - intros m (reply & _ & Em)%list_elem_of_omap. unfold encode_outgoing in Em. cbn [set_by_local_id es_peer] in Em.
    destruct (peer_ext_id (es_peer s) (ext_name ext)) as [id|] eqn:Ep; [|done]. revert Em. red_bind. intros [= <-].
    exists id, reply. split_and!; try done. unfold peer_ext_id in Ep. destruct (pi_m _ !! _) as [i|]; [|done].
    revert Ep. red_bind. destruct (Z.eqb_spec i 0); [done|]. by intros [= <-].
Qed.
End Routing.

(** ** The serving limit *)

Section ServeLimit.
Context (sha1 : bytes -> bytes) (order : gset SocketAddr -> list SocketAddr).
Context (from_bytes : bytes -> option Value) `{!BencodeLib from_bytes} (stack : nat) (Hstack : (MAX_BENCODE_DEPTH < stack)%nat).
Context (iter : gmap u8 AnyExt -> list (u8 * AnyExt)) `{!HashOrder iter}.

#[local] Existing Instance AnyExt_ext.
#[local] Instance any_ext : Extension AnyExt := AnyExt_ext sha1 order from_bytes stack.

(** The peer's handshake, and a request for the first piece. *)
Definition greedy_handshake : bytes := eh_encode (mkExtHandshake {[UT_METADATA := 3]} None None None None).

(** One round: the handshake, sent again, and a request. *)
Definition greedy_round (now : Instant) (s : ExtensionSession AnyExt) (sh : Shared)
    : option (list Message * ExtensionSession AnyExt * Shared) :=
  match handle_extended iter from_bytes now 0 greedy_handshake s sh with
  | None => None
  | Some (out1, _, s, sh) =>
      match handle_extended iter from_bytes now 1 (encode_request 0) s sh with
      | None => None
      | Some (out2, _, s, sh) => Some (out1 ++ out2, s, sh)
      end
  end.

Fixpoint greedy_rounds (n : nat) (now : Instant) (s : ExtensionSession AnyExt) (sh : Shared)
    : option (list Message * ExtensionSession AnyExt * Shared) :=
  match n with
  | O => Some ([], s, sh)
  | S n =>
      match greedy_round now s sh with
      | None => None
      | Some (out, s, sh) =>
          match greedy_rounds n now s sh with
          | None => None
          | Some (outs, s, sh) => Some (out ++ outs, s, sh)
          end
      end
  end.

Lemma iter_single (id : u8) (e : AnyExt) : iter {[id := e]} = [(id, e)].
Proof.
  assert (H : iter {[id := e]} ≡ₚ [(id, e)]) by by rewrite iter_perm, map_to_list_singleton.
  apply Permutation_sym, Permutation_length_1_inv in H. done.
Qed.

Lemma greedy_decode : eh_decode from_bytes greedy_handshake = mkExtHandshake {[UT_METADATA := 3]} None None None None.
Proof.
  apply (eh_roundtrip from_bytes).
  - split; cbn [eh_m eh_v eh_p eh_reqq eh_metadata_size]; try done.
    intros name id [<- <-]%lookup_singleton_Some. by split; [vm_compute|].
  - vm_compute. discriminate.
Qed.

Lemma each_single {A} (f : AnyExt -> Shared -> A * AnyExt * Shared) ids id e peer sh a e' sh' :
  f e sh = (a, e', sh') ->
  each_ext iter f (mkSession ids {[id := e]} peer) sh = ([a], mkSession ids {[id := e']} peer, sh').
Proof.
  intros Hf. unfold each_ext. cbn [es_by_local_id]. rewrite iter_single. cbn [fold_left]. rewrite Hf. cbn [app].
  unfold set_by_local_id. cbn [es_local_ids es_peer]. by rewrite insert_singleton_eq.
Qed.

(** The first piece, whole or what there is of it. *)
Lemma serve_first h info :
  (1 <= length info)%nat -> Z.of_nat (length info) <= I64_MAX ->
  serve_piece 0 (with_bytes h info) = Some (Some (take METADATA_PIECE_LEN info, Z.of_nat (length info))).
Proof.
  intros Hl Hi. unfold serve_piece. cbn [with_bytes ms_info_bytes]. change (Z.to_nat 0 * METADATA_PIECE_LEN)%nat with 0%nat.
  rewrite (proj2 (Nat.leb_gt _ _)) by lia. rewrite Nat.add_0_l, Z.min_l by exact Hi.
  generalize METADATA_PIECE_LEN. intros k. rewrite slice_total by lia. red_bind. rewrite drop_0, Nat.sub_0_r.
  destruct (Nat.le_gt_cases k (length info)); [by rewrite Nat.min_l by done|].
  rewrite Nat.min_r by lia. by rewrite !take_ge by lia.
Qed.

Lemma serve_request now u h info ps :
  (1 <= length info)%nat -> Z.of_nat (length info) <= I64_MAX -> um_disconnect u = false -> um_served u = 0%nat ->
  um_on_message sha1 order from_bytes stack now (encode_request 0) u (with_bytes h info) ps =
    Some ([encode_data 0 (Z.of_nat (length info)) (take METADATA_PIECE_LEN info)], [], set_um_served 1 u, with_bytes h info, ps).
Proof.
  intros Hl Hi Hd Hv. assert (H0 : is_u32 0) by (unfold is_u32, U32_MAX; lia).
  pose proof (md_parse_request from_bytes stack Hstack 0 H0) as Ep. pose proof (serve_first h info Hl Hi) as Es.
  unfold um_on_message. rewrite Hd, Ep. red_bind. rewrite Hv. change (MAX_SERVE_PER_WINDOW <=? 0)%nat with false. cbv iota.
  rewrite Es. red_bind. reflexivity.
Qed.

(** The handshake has its tick at once: the window starts again. *)
Lemma greedy_round_serves now ids peer u h info ps pc :
  (1 <= length info)%nat -> Z.of_nat (length info) <= I64_MAX -> um_disconnect u = false ->
  exists peer' u', greedy_round now (mkSession ids {[1 := BoxMetadata u]} peer) (mkShared (with_bytes h info) ps pc) =
      Some ([Extended 3 (encode_data 0 (Z.of_nat (length info)) (take METADATA_PIECE_LEN info))],
            mkSession ids {[1 := BoxMetadata u']} peer', mkShared (with_bytes h info) ps pc) /\
    um_disconnect u' = false.
Proof.
  intros Hl Hi Hd. unfold greedy_round, handle_extended at 1. cbn [Z.eqb]. rewrite greedy_decode.
  cbn [set_es_peer es_peer es_local_ids es_by_local_id]. set (peer' := pi_merge peer _).
  assert (Hid : peer_ext_id peer' UT_METADATA = Some 3).
  { unfold peer'. rewrite peer_ext_id_merge. cbn [eh_m]. by rewrite lookup_singleton_eq. }
  assert (Hh : exists u1, um_on_handshake peer' u (with_bytes h info) = (u1, with_bytes h info) /\
    um_disconnect u1 = false /\ um_supports u1 = true).
  { unfold um_on_handshake. rewrite Hid, bool_decide_eq_true_2 by by eexists. cbn [set_um_supports um_supports negb with_bytes ms_info_bytes].
    destruct (pi_metadata_size peer'); eexists; (split; [reflexivity|split; [exact Hd|reflexivity]]). }
  destruct Hh as (u1 & Eh & Hd1 & Hs1).
  rewrite (each_single _ ids 1 (BoxMetadata u) peer' _ () (BoxMetadata u1) (mkShared (with_bytes h info) ps pc)).
  2:{ cbn [ext_on_handshake any_ext AnyExt_ext UtMetadata_ext sh_metadata]. rewrite Eh. reflexivity. }
  assert (Ht : exists u2, um_on_tick now u1 (with_bytes h info) = ([], u2, with_bytes h info) /\
    um_disconnect u2 = false /\ um_served u2 = 0%nat).
  { unfold um_on_tick. cbn [set_um_served um_disconnect um_supports]. rewrite Hd1, Hs1. cbn [orb negb].
    unfold expire_local, release_timeouts. cbn [with_bytes ms_fetch]. unfold request_more. cbn [set_um_inflight set_um_served um_supports].
    rewrite Hs1. cbn [negb orb ms_info_bytes]. rewrite bool_decide_eq_true_2 by by eexists.
    eexists. split; [reflexivity|]. split; [exact Hd1|reflexivity]. }
  destruct Ht as (u2 & Et & Hd2 & Hv2). unfold collect_ticks.
  rewrite (each_single _ ids 1 (BoxMetadata u1) peer' _ (UT_METADATA, []) (BoxMetadata u2) (mkShared (with_bytes h info) ps pc)).
  2:{ cbn [ext_on_tick ext_name any_ext AnyExt_ext UtMetadata_ext sh_metadata]. rewrite Et. reflexivity. }
  cbn [map concat app]. unfold handle_extended. cbn [Z.eqb es_by_local_id]. rewrite lookup_singleton_eq.
  pose proof (serve_request now u2 h info ps Hl Hi Hd2 Hv2) as Em.
  cbn [ext_on_message any_ext AnyExt_ext UtMetadata_ext sh_metadata sh_states sh_piece_count]. rewrite Em. red_bind.
  unfold encode_outgoing, set_by_local_id. cbn [es_peer es_local_ids es_by_local_id ext_name any_ext AnyExt_ext UtMetadata_ext].
  rewrite insert_singleton_eq. exists peer', (set_um_served 1 u2). split; [|done].
  cbn [omap list_omap]. rewrite Hid. red_bind. done.
Qed.

(** The limit of four pieces between ticks does not hold against a peer that
    repeats its handshake: any number of requests is served at one instant. *)
Lemma serve_limit_bypassed n now ids peer u h info ps pc :
  (1 <= length info)%nat -> Z.of_nat (length info) <= I64_MAX -> um_disconnect u = false ->
  exists s, greedy_rounds n now (mkSession ids {[1 := BoxMetadata u]} peer) (mkShared (with_bytes h info) ps pc) =
    Some (replicate n (Extended 3 (encode_data 0 (Z.of_nat (length info)) (take METADATA_PIECE_LEN info))), s,
          mkShared (with_bytes h info) ps pc).
Proof.
  intros Hl Hi. revert peer u. induction n as [|n IH]; intros peer u Hd; cbn [greedy_rounds]; [by eexists|].
  destruct (greedy_round_serves now ids peer u h info ps pc Hl Hi Hd) as (peer' & u' & E & Hd'). rewrite E.
  destruct (IH peer' u' Hd') as (s & E'). rewrite E'. by exists s.
Qed.
End ServeLimit.
