(* ===== verification/Pipeline.v ===== *)
(** * The request pipeline of a peer (crates/bit_rev/src/peer_connection.rs, 1283-1350)

    How many block requests may be under way to a peer: the depth, the permits of
    the semaphore the requester takes one of per request, and the debt that is
    paid with the next replies when the depth has shrunk.  The semaphore is the
    number of its permits; wake-ups carry no data. *)

From S2P Require Import Prelude ExtHandshake.

Definition INITIAL_PIPELINE : nat := 5.
Definition MAX_PIPELINE : nat := 250.

(** The fields [pipeline_depth], [peer_reqq], [pipeline_armed], [pipeline_debt]
    and [requests_sem] of [PeerHandler]. *)
Record Pipeline := mkPipeline {
  pl_depth : nat; pl_reqq : nat; pl_armed : bool; pl_debt : nat; pl_permits : nat }.

Definition pipeline_new : Pipeline := mkPipeline INITIAL_PIPELINE (Z.to_nat DEFAULT_REQQ) false 0 0.

Definition clamp (lo hi n : nat) : nat := Nat.max lo (Nat.min n hi).

Definition max_pipeline (p : Pipeline) : nat := clamp 1 MAX_PIPELINE (pl_reqq p).

Definition add_permits (n : nat) (p : Pipeline) : Pipeline :=
  mkPipeline (pl_depth p) (pl_reqq p) (pl_armed p) (pl_debt p) (pl_permits p + n).

Definition arm_pipeline (p : Pipeline) : Pipeline :=
  if pl_armed p then p
  else add_permits (Nat.max (pl_depth p) 1) (mkPipeline (pl_depth p) (pl_reqq p) true (pl_debt p) (pl_permits p)).

Definition disarm_pipeline (p : Pipeline) : Pipeline := mkPipeline (pl_depth p) (pl_reqq p) false 0 0.

Definition refill_pipeline_slot (p : Pipeline) : Pipeline :=
  match pl_debt p with
  | O => add_permits 1 p
  | S debt => mkPipeline (pl_depth p) (pl_reqq p) (pl_armed p) debt (pl_permits p)
  end.

Definition set_pipeline_depth (new : nat) (p : Pipeline) : Pipeline :=
  let new := clamp 1 (max_pipeline p) new in
  let old := pl_depth p in
  let p := mkPipeline new (pl_reqq p) (pl_armed p) (pl_debt p) (pl_permits p) in
  if (new =? old)%nat then p
  else if (old <? new)%nat then if pl_armed p then add_permits (new - old) p else p
  else mkPipeline new (pl_reqq p) (pl_armed p) (pl_debt p + (old - new)) (pl_permits p).

Definition grow_pipeline (p : Pipeline) : Pipeline :=
  if (pl_depth p <? max_pipeline p)%nat then set_pipeline_depth (pl_depth p + 1) p else p.

Definition halve_pipeline (p : Pipeline) : Pipeline := set_pipeline_depth (Nat.max (pl_depth p / 2) 1) p.

(** [requests_sem.try_acquire()] with the permit forgotten. *)
Definition take_permit (p : Pipeline) : option Pipeline :=
  match pl_permits p with
  | O => None
  | S n => Some (mkPipeline (pl_depth p) (pl_reqq p) (pl_armed p) (pl_debt p) n)
  end.

(** The peer's [reqq], from its extended handshake. *)
Definition set_reqq (reqq : i64) (p : Pipeline) : Pipeline :=
  if 0 <? reqq then
    let reqq := clamp 1 MAX_PIPELINE (Z.to_nat reqq) in
    let p := mkPipeline (pl_depth p) reqq (pl_armed p) (pl_debt p) (pl_permits p) in
    if (reqq <? pl_depth p)%nat then set_pipeline_depth reqq p else p
  else p.

(** ** The accounting *)

Lemma clamp_between lo hi n : (lo <= hi)%nat -> (lo <= clamp lo hi n <= hi)%nat.
Proof. unfold clamp. lia. Qed.

Lemma max_pipeline_range p : (1 <= max_pipeline p <= MAX_PIPELINE)%nat.
Proof. apply clamp_between. unfold MAX_PIPELINE. lia. Qed.

(** The depth is between 1 and 250, and depth and debt together are at most
    250: the permits the peer can ever hold. *)
Record pipeline_ok (p : Pipeline) : Prop := {
  po_depth : (1 <= pl_depth p)%nat;
  po_window : (pl_depth p + pl_debt p <= MAX_PIPELINE)%nat }.

(** [n] requests under way are paid for: every one holds a permit of the window. *)
Definition credit (n : nat) (p : Pipeline) : Prop :=
  (pl_permits p + n <= pl_depth p + pl_debt p)%nat /\ (pl_armed p = false -> pl_permits p = 0%nat /\ n = 0%nat).

Lemma pipeline_new_ok : pipeline_ok pipeline_new /\ credit 0 pipeline_new.
Proof. split; split; vm_compute; try lia. Qed.

Lemma set_depth_ok new p : pipeline_ok p -> (new <= pl_depth p)%nat -> pipeline_ok (set_pipeline_depth new p).
Proof.
  intros [Hd Hw] Hn. pose proof (max_pipeline_range p). pose proof (clamp_between 1 (max_pipeline p) new).
  assert (clamp 1 (max_pipeline p) new <= pl_depth p)%nat by (unfold clamp; lia).
  unfold set_pipeline_depth. set (k := clamp _ _ _) in *.
  destruct (Nat.eqb_spec k (pl_depth p)); [split; cbn; lia|].
  destruct (Nat.ltb_spec (pl_depth p) k); [lia|]. split; cbn; lia.
Qed.

Lemma set_depth_credit n new p : credit n p -> (new <= pl_depth p)%nat -> (1 <= pl_depth p)%nat -> credit n (set_pipeline_depth new p).
Proof.
  intros [Hc Ha] Hn Hd. pose proof (max_pipeline_range p).
  assert (clamp 1 (max_pipeline p) new <= pl_depth p)%nat by (unfold clamp; lia).
  unfold set_pipeline_depth. set (k := clamp _ _ _) in *.
  destruct (Nat.eqb_spec k (pl_depth p)); [split; cbn; [lia|done]|].
  destruct (Nat.ltb_spec (pl_depth p) k); [lia|]. split; cbn; [lia|done].
Qed.

Lemma halve_le p : (1 <= pl_depth p)%nat -> (Nat.max (pl_depth p / 2) 1 <= pl_depth p)%nat.
Proof. intros. pose proof (Nat.Div0.div_le_upper_bound (pl_depth p) 2 (pl_depth p)). lia. Qed.

Lemma set_reqq_ok n reqq p : pipeline_ok p -> credit n p -> pipeline_ok (set_reqq reqq p) /\ credit n (set_reqq reqq p).
Proof.
  intros Hp Hc. unfold set_reqq. destruct (0 <? reqq); [|done].
  set (k := clamp 1 MAX_PIPELINE (Z.to_nat reqq)). set (p' := mkPipeline _ _ _ _ _).
  assert (Hp' : pipeline_ok p') by (by destruct Hp). assert (Hc' : credit n p') by (by destruct Hc).
  destruct (Nat.ltb_spec k (pl_depth p')); [|done]. split.
  - apply set_depth_ok; [done|cbn in *; lia].
  - apply set_depth_credit; [done|cbn in *; lia|apply Hp'].
Qed.

(** A reply, with the growth it may cause. *)
Lemma reply_ok n grow p :
  pipeline_ok p -> credit (S n) p ->
  let p' := refill_pipeline_slot (if grow : bool then grow_pipeline p else p) in pipeline_ok p' /\ credit n p'.
Proof.
  intros [Hd Hw] [Hc Ha]. cbn zeta. pose proof (max_pipeline_range p) as Hm.
  assert (Harm : pl_armed p = true) by (destruct (pl_armed p); [done|by destruct Ha]).
  assert (Hg : let q := if grow then grow_pipeline p else p in
    pl_debt q = pl_debt p /\ pl_armed q = true /\ (pl_depth p <= pl_depth q <= S (pl_depth p))%nat /\ (pl_depth q <= MAX_PIPELINE)%nat /\
    (pl_permits q + pl_depth p = pl_permits p + pl_depth q)%nat).
  { cbn zeta. destruct grow; [|rewrite Harm; repeat split; lia]. unfold grow_pipeline.
    destruct (Nat.ltb_spec (pl_depth p) (max_pipeline p)); [|rewrite Harm; repeat split; lia].
    unfold set_pipeline_depth. assert (E : clamp 1 (max_pipeline p) (pl_depth p + 1) = S (pl_depth p)) by (unfold clamp; lia).
    rewrite E. rewrite (proj2 (Nat.eqb_neq _ _)) by lia. rewrite (proj2 (Nat.ltb_lt _ _)) by lia.
    cbn [pl_armed]. rewrite Harm. cbn. repeat split; lia. }
  cbn zeta in Hg. destruct Hg as (E1 & E2 & E3 & E4 & E5). set (q := if grow then _ else p) in *. clearbody q.
  unfold refill_pipeline_slot. rewrite E1. destruct (pl_debt p) as [|d] eqn:Ed;
    unfold credit; (split; [split|split]); cbn; try lia; try congruence.
Qed.

Lemma take_permit_ok n p p' :
  pipeline_ok p -> credit n p -> take_permit p = Some p' -> pipeline_ok p' /\ credit (S n) p'.
Proof.
  intros [Hd Hw] [Hc Ha]. unfold take_permit. destruct (pl_permits p) as [|k] eqn:E; [done|]. intros [= <-].
  split; split; cbn; try lia. intros Harm. by destruct (Ha Harm).
Qed.

Lemma arm_ok n p : pipeline_ok p -> credit n p -> pipeline_ok (arm_pipeline p) /\ credit n (arm_pipeline p).
Proof.
  intros Hp Hc. unfold arm_pipeline. destruct (pl_armed p) eqn:E; [done|]. destruct Hp, Hc as [Hc Ha].
  destruct (Ha E) as [-> ->]. split; split; cbn; lia || done.
Qed.

Lemma disarm_ok p : pipeline_ok p -> pipeline_ok (disarm_pipeline p) /\ credit 0 (disarm_pipeline p).
Proof. intros [Hd Hw]. split; split; cbn; lia. Qed.

Lemma credit_weaken n k p : (n <= k)%nat -> credit k p -> credit n p.
Proof. intros Hn [Hc Ha]. split; [lia|]. intros E. destruct (Ha E). lia. Qed.
