(* ===== verification/AllowedFast.v ===== *)
(** * The allowed-fast set (crates/bit_rev/src/allowed_fast.rs)

    The pieces a peer may request while it is choked, derived from its address
    and the info hash by iterating SHA-1, which is the argument [sha1].  The loop
    ends when enough different pieces have come up; [fuel] bounds its rounds. *)

From S2P Require Import Prelude.

Definition DEFAULT_ALLOWED_FAST_SET_SIZE : nat := 10.

Section FastSet.
Context (sha1 : bytes -> bytes) (piece_count : u32) (target : nat).

(** Word [i] of the digest, as a piece. *)
Definition fast_index (digest : bytes) (i : nat) : option u32 :=
  y ← slice digest (i * 4) (i * 4 + 4);
  Some (of_be y mod piece_count).

(** The loop over the five words of a digest. *)
Fixpoint fast_words (digest : bytes) (ws : list nat) (set : list u32) : option (list u32) :=
  match ws with
  | [] => Some set
  | i :: ws =>
      if (target <=? length set)%nat then Some set
      else
        index ← fast_index digest i;
        fast_words digest ws (if bool_decide (index ∈ set) then set else set ++ [index])
  end.

Fixpoint fast_loop (fuel : nat) (x : bytes) (set : list u32) : option (list u32) :=
  if (target <=? length set)%nat then Some set
  else match fuel with
  | O => None
  | S fuel =>
      let digest := sha1 x in
      set ← fast_words digest (seq 0 5) set;
      fast_loop fuel digest set
  end.
End FastSet.

Definition generate_allowed_fast (fuel : nat) (sha1 : bytes -> bytes) (ip : u32) (info_hash : bytes)
    (piece_count : u32) (k : nat) : option (list u32) :=
  if (piece_count =? 0) || (k =? 0)%nat then Some []
  else
    let octets := be_bytes 4 ip in
    let x := <[3%nat := 0]> octets ++ info_hash in
    fast_loop sha1 piece_count (Nat.min k (Z.to_nat piece_count)) fuel x [].

Definition generate_allowed_fast_for_ip (fuel : nat) (sha1 : bytes -> bytes) (ip : IpAddr) (info_hash : bytes)
    (piece_count : u32) (k : nat) : option (list u32) :=
  match ip with
  | IpV4 ip => generate_allowed_fast fuel sha1 ip info_hash piece_count k
  | IpV6 _ => Some []
  end.

(** ** The reference: the first different pieces of the digest chain *)

(** Append the elements of [l] that are new. *)
Definition nub_onto (set l : list u32) : list u32 :=
  fold_left (fun set i => if bool_decide (i ∈ set) then set else set ++ [i]) l set.

(** The pieces of the words of a digest, and of [n] digests from [x] on. *)
Definition digest_pieces (piece_count : u32) (digest : bytes) : list u32 :=
  map (fun i => of_be (take 4 (drop (i * 4) digest)) mod piece_count) (seq 0 5).

Fixpoint chain_pieces (sha1 : bytes -> bytes) (piece_count : u32) (n : nat) (x : bytes) : list u32 :=
  match n with
  | O => []
  | S n => digest_pieces piece_count (sha1 x) ++ chain_pieces sha1 piece_count n (sha1 x)
  end.

Lemma nub_onto_prefix l set : set `prefix_of` nub_onto set l.
Proof.
  revert set. induction l as [|i l IH]; intros set; [done|]. cbn. case_bool_decide; [apply IH|].
  etrans; [|apply IH]. by apply prefix_app_r.
Qed.

Lemma nub_onto_app set l l' : nub_onto set (l ++ l') = nub_onto (nub_onto set l) l'.
Proof. unfold nub_onto. apply fold_left_app. Qed.

Lemma nub_onto_full target set l : length set = target -> take target (nub_onto set l) = set.
Proof. intros <-. destruct (nub_onto_prefix l set) as [t ->]. by rewrite take_app_length. Qed.

(** What is cut off does not matter to what follows. *)
Lemma nub_onto_take target set l :
  (target <= length set)%nat -> take target (nub_onto set l) = take target set.
Proof. intros H. destruct (nub_onto_prefix l set) as [t ->]. by rewrite take_app_le. Qed.

Lemma nub_onto_ok piece_count l set :
  0 < piece_count -> Forall (fun i => 0 <= i < piece_count) l -> Forall (fun i => 0 <= i < piece_count) set -> NoDup set ->
  NoDup (nub_onto set l) /\ Forall (fun i => 0 <= i < piece_count) (nub_onto set l).
Proof.
  intros Hp. revert set. induction l as [|i l IH]; intros set Hl Hs Hn; [done|]. apply Forall_cons in Hl as [Hi Hl].
  cbn. case_bool_decide as Hin; [by apply IH|]. apply IH; [done|by apply Forall_app_2, Forall_singleton|].
  apply NoDup_app. split_and!; [done| |apply NoDup_singleton]. by intros j Hj ->%list_elem_of_singleton.
Qed.

Section Spec.
Context (sha1 : bytes -> bytes) (Hsha : forall x, length (sha1 x) = 20%nat) (piece_count : u32) (target : nat).

Lemma fast_words_spec x ws set :
  Forall (fun i => (i < 5)%nat) ws -> (length set <= target)%nat ->
  fast_words piece_count target (sha1 x) ws set =
    Some (take target (nub_onto set (map (fun i => of_be (take 4 (drop (i * 4) (sha1 x))) mod piece_count) ws))).
Proof.
  revert set. induction ws as [|i ws IH]; intros set His Hlen; cbn [fast_words map].
  { cbn. by rewrite take_ge. }
  apply Forall_cons in His as [Hi His]. destruct (Nat.leb_spec target (length set)).
  { f_equal. symmetry. apply nub_onto_full. lia. }
  unfold fast_index. rewrite slice_total by (rewrite Hsha; lia). red_bind. replace (i * 4 + 4 - i * 4)%nat with 4%nat by lia.
  set (j := of_be _ mod _). rewrite IH; [| done|case_bool_decide; [lia|rewrite length_app; cbn; lia]].
  done.
Qed.

(** The loop from [set] on yields the first [target] different pieces of the
    chain as soon as [fuel] digests contain so many. *)
Lemma fast_loop_spec fuel x set :
  (length set <= target)%nat ->
  let all := nub_onto set (chain_pieces sha1 piece_count fuel x) in
  fast_loop sha1 piece_count target fuel x set =
    if (target <=? length all)%nat then Some (take target all) else None.
Proof.
  cbn zeta. revert x set. induction fuel as [|fuel IH]; intros x set Hlen.
  - cbn [chain_pieces fast_loop]. change (nub_onto set []) with set. destruct (Nat.leb_spec target (length set)); [|done].
    by rewrite take_ge by lia.
  - cbn [fast_loop chain_pieces]. destruct (Nat.leb_spec target (length set)) as [Hge|Hlt].
    + pose proof (prefix_length _ _ (nub_onto_prefix (digest_pieces piece_count (sha1 x) ++ chain_pieces sha1 piece_count fuel (sha1 x)) set)).
      rewrite (proj2 (Nat.leb_le _ _)) by lia. f_equal. symmetry. apply nub_onto_full. lia.
    + rewrite fast_words_spec; [|by apply Forall_forall; intros i Hi%list_elem_of_In%in_seq; lia|lia]. red_bind.
      fold (digest_pieces piece_count (sha1 x)). set (a := nub_onto set (digest_pieces _ _)).
      rewrite IH by (rewrite length_take; lia). rewrite nub_onto_app. fold a.
      destruct (Nat.le_gt_cases (length a) target) as [Hle|Hgt].
      * by rewrite (take_ge a) by done.
      * pose proof (prefix_length _ _ (nub_onto_prefix (chain_pieces sha1 piece_count fuel (sha1 x)) a)).
        pose proof (prefix_length _ _ (nub_onto_prefix (chain_pieces sha1 piece_count fuel (sha1 x)) (take target a))) as Hp.
        rewrite length_take, Nat.min_l in Hp by lia. rewrite !(proj2 (Nat.leb_le _ _)) by lia.
        f_equal. rewrite nub_onto_full by (rewrite length_take; lia). by rewrite nub_onto_take by lia.
Qed.
End Spec.

Lemma chain_pieces_range sha1 piece_count n x :
  0 < piece_count -> Forall (fun i => 0 <= i < piece_count) (chain_pieces sha1 piece_count n x).
Proof.
  intros Hp. revert x. induction n as [|n IH]; intros x; cbn [chain_pieces]; [constructor|]. apply Forall_app_2; [|done].
  apply Forall_map, Forall_forall. intros i _. cbn. apply Z.mod_pos_bound. done.
Qed.

(** The set has exactly [min k piece_count] different pieces of the torrent; it is
    the start of the digest chain of the /24 network of the address. *)
Lemma allowed_fast_set fuel sha1 ip info_hash piece_count k set :
  (forall x, length (sha1 x) = 20%nat) -> 0 < piece_count -> (0 < k)%nat ->
  generate_allowed_fast fuel sha1 ip info_hash piece_count k = Some set ->
  NoDup set /\ length set = Nat.min k (Z.to_nat piece_count) /\ Forall (fun i => 0 <= i < piece_count) set /\
  set `prefix_of` nub_onto [] (chain_pieces sha1 piece_count fuel (<[3%nat := 0]> (be_bytes 4 ip) ++ info_hash)).
Proof.
  intros Hsha Hp Hk. unfold generate_allowed_fast. rewrite (proj2 (Z.eqb_neq _ _)) by lia.
  rewrite (proj2 (Nat.eqb_neq _ _)) by lia. cbn [orb]. rewrite fast_loop_spec by (done || (cbn; lia)).
  set (x := _ ++ info_hash). set (target := Nat.min _ _). destruct (Nat.leb_spec target (length (nub_onto [] (chain_pieces sha1 piece_count fuel x)))); [|done].
  intros [= <-]. destruct (nub_onto_ok piece_count (chain_pieces sha1 piece_count fuel x) []) as [Hn Hf];
    [done|by apply chain_pieces_range|constructor|constructor|].
  split_and!; [by eapply sublist_NoDup; [|apply sublist_take]|rewrite length_take; lia|by apply Forall_take|].
  eexists. symmetry. apply take_drop.
Qed.
