(* ===== verification/PeerHandler.v ===== *)
(** * The handler of a peer (crates/bit_rev/src/peer_connection.rs, 903-1725 and 1955-2225)

    [PeerHandler]: what a connection does with the messages of its peer, over the
    state it shares with the other connections of the torrent ([World]).  The
    operations are written in a monad that threads the handler and the world,
    collects what is sent, and stops at an error, as [?] does; what has been
    changed and sent before the error stays.  [None] is a panic.

    The receiving ends of the writer channel live as long as the tasks of the
    connection, so sending to the own writer succeeds.  The message handler waits
    at one point, for the hash of a completed piece: [on_received_message] is the
    part before it and [on_verified] the part after it. *)

From S2P Require Import Prelude Bencode Value Bitfield Message PeerStates Picker Download Storage ExtHandshake.
From S2P Require Import Peers Metadata Pex Registry Pipeline.

Definition SNUB_TIMEOUT : Duration := secs 60.
Definition REQUEST_TIMEOUT : Duration := secs 20.

(** ** Data *)

(** [session.rs] *)
Inductive TransferState := TsInit | TsDownloading | TsPaused.

#[export] Instance TransferState_eq_dec : EqDecision TransferState.
Proof. solve_decision. Defined.

(** What all connections of a torrent share. *)
Record World := mkWorld {
  w_dl : DownloadState;
  w_ps : PeerStates;
  w_metadata : MetadataStore;
  w_storage : Storage;
  w_state : TransferState;
  w_piece_hashes : nat;
  w_uploaded : u64;
  w_writer_open : bool }.

Inductive PeerHaveHint :=
| HintUnknown
| HintAll
| HintNone
| HintBitfield (b : bytes)
| HintHaves (indices : list u32).

Record FullPiece := mkFullPiece { fp_index : u32; fp_length : u32; fp_buf : bytes }.

(** The fast extension: negotiated or not, the pieces allowed either way, the
    suggestions. *)
Record Fast := mkFast {
  fx_enabled : bool; fx_peer_allowed : gset u32; fx_our_allowed : gset u32; fx_suggested : list u32 }.

(** What the snubbing and the growth of the pipeline look at. *)
Record Delivery := mkDelivery {
  dv_snubbed : bool;
  dv_last_block_at : option Instant;
  dv_first_request_at : option Instant;
  dv_interested_since : option Instant;
  dv_window_start : Instant;
  dv_window_bytes : u64;
  dv_last_rate : u64 }.

Record PeerHandler := mkHandler {
  h_peer : SocketAddr;
  h_chocked : bool;
  h_downloaded : u32;
  h_have_hint : PeerHaveHint;
  h_upload_queue : list BlockRequest;
  h_storm : RequestStorm;
  h_outstanding : gmap BlockRequest Instant;
  h_fast : Fast;
  h_extension_protocol : bool;
  h_extensions : ExtensionSession AnyExt;
  h_pipeline : Pipeline;
  h_delivery : Delivery;
  h_dht : bool }.

Inductive HandlerError :=
| NotNegotiated | TruncatedRequest | UnknownPiece (index : u32) | InvalidRequest (req : BlockRequest) (e : RequestError)
| StormWhileChoked | RejectNeverSent | BannedAfterHashFailure | ExtensionDisconnect.

(** What leaves the handler: requests to the writers of peers, verified pieces for
    the storage, addresses for the session, a node for the DHT. *)
Inductive Output :=
| OutWriter (peer : SocketAddr) (request : WriterRequest)
| OutPiece (piece : FullPiece)
| OutAddPeers (addrs : list SocketAddr)
| OutPingNode (addr : SocketAddr).

(** ** Field updates *)

Definition set_dl (d : DownloadState) (w : World) : World :=
  mkWorld d (w_ps w) (w_metadata w) (w_storage w) (w_state w) (w_piece_hashes w) (w_uploaded w) (w_writer_open w).
Definition set_ps (p : PeerStates) (w : World) : World :=
  mkWorld (w_dl w) p (w_metadata w) (w_storage w) (w_state w) (w_piece_hashes w) (w_uploaded w) (w_writer_open w).
Definition set_metadata (m : MetadataStore) (w : World) : World :=
  mkWorld (w_dl w) (w_ps w) m (w_storage w) (w_state w) (w_piece_hashes w) (w_uploaded w) (w_writer_open w).
Definition set_storage (s : Storage) (w : World) : World :=
  mkWorld (w_dl w) (w_ps w) (w_metadata w) s (w_state w) (w_piece_hashes w) (w_uploaded w) (w_writer_open w).
Definition set_uploaded (n : u64) (w : World) : World :=
  mkWorld (w_dl w) (w_ps w) (w_metadata w) (w_storage w) (w_state w) (w_piece_hashes w) n (w_writer_open w).

Definition set_h_chocked (v : bool) (h : PeerHandler) : PeerHandler :=
  mkHandler (h_peer h) v (h_downloaded h) (h_have_hint h) (h_upload_queue h) (h_storm h) (h_outstanding h)
    (h_fast h) (h_extension_protocol h) (h_extensions h) (h_pipeline h) (h_delivery h) (h_dht h).
Definition set_h_downloaded (v : u32) (h : PeerHandler) : PeerHandler :=
  mkHandler (h_peer h) (h_chocked h) v (h_have_hint h) (h_upload_queue h) (h_storm h) (h_outstanding h)
    (h_fast h) (h_extension_protocol h) (h_extensions h) (h_pipeline h) (h_delivery h) (h_dht h).
Definition set_h_hint (v : PeerHaveHint) (h : PeerHandler) : PeerHandler :=
  mkHandler (h_peer h) (h_chocked h) (h_downloaded h) v (h_upload_queue h) (h_storm h) (h_outstanding h)
    (h_fast h) (h_extension_protocol h) (h_extensions h) (h_pipeline h) (h_delivery h) (h_dht h).
Definition set_h_queue (v : list BlockRequest) (h : PeerHandler) : PeerHandler :=
  mkHandler (h_peer h) (h_chocked h) (h_downloaded h) (h_have_hint h) v (h_storm h) (h_outstanding h)
    (h_fast h) (h_extension_protocol h) (h_extensions h) (h_pipeline h) (h_delivery h) (h_dht h).
Definition set_h_storm (v : RequestStorm) (h : PeerHandler) : PeerHandler :=
  mkHandler (h_peer h) (h_chocked h) (h_downloaded h) (h_have_hint h) (h_upload_queue h) v (h_outstanding h)
    (h_fast h) (h_extension_protocol h) (h_extensions h) (h_pipeline h) (h_delivery h) (h_dht h).
Definition set_h_outstanding (v : gmap BlockRequest Instant) (h : PeerHandler) : PeerHandler :=
  mkHandler (h_peer h) (h_chocked h) (h_downloaded h) (h_have_hint h) (h_upload_queue h) (h_storm h) v
    (h_fast h) (h_extension_protocol h) (h_extensions h) (h_pipeline h) (h_delivery h) (h_dht h).
Definition set_h_fast (v : Fast) (h : PeerHandler) : PeerHandler :=
  mkHandler (h_peer h) (h_chocked h) (h_downloaded h) (h_have_hint h) (h_upload_queue h) (h_storm h) (h_outstanding h)
    v (h_extension_protocol h) (h_extensions h) (h_pipeline h) (h_delivery h) (h_dht h).
Definition set_h_extended (v : bool) (h : PeerHandler) : PeerHandler :=
  mkHandler (h_peer h) (h_chocked h) (h_downloaded h) (h_have_hint h) (h_upload_queue h) (h_storm h) (h_outstanding h)
    (h_fast h) v (h_extensions h) (h_pipeline h) (h_delivery h) (h_dht h).
Definition set_h_extensions (v : ExtensionSession AnyExt) (h : PeerHandler) : PeerHandler :=
  mkHandler (h_peer h) (h_chocked h) (h_downloaded h) (h_have_hint h) (h_upload_queue h) (h_storm h) (h_outstanding h)
    (h_fast h) (h_extension_protocol h) v (h_pipeline h) (h_delivery h) (h_dht h).
Definition set_h_pipeline (v : Pipeline) (h : PeerHandler) : PeerHandler :=
  mkHandler (h_peer h) (h_chocked h) (h_downloaded h) (h_have_hint h) (h_upload_queue h) (h_storm h) (h_outstanding h)
    (h_fast h) (h_extension_protocol h) (h_extensions h) v (h_delivery h) (h_dht h).
Definition set_h_delivery (v : Delivery) (h : PeerHandler) : PeerHandler :=
  mkHandler (h_peer h) (h_chocked h) (h_downloaded h) (h_have_hint h) (h_upload_queue h) (h_storm h) (h_outstanding h)
    (h_fast h) (h_extension_protocol h) (h_extensions h) (h_pipeline h) v (h_dht h).

(** Fields of the state the other tasks see. *)
Definition set_ps_bitfield (bf : Bitfield) (s : PeerState) : PeerState :=
  mkPeerState (peer_interested s) bf (am_choking s) (am_interested s) (peer_choking s) (connected_at s)
    (last_unchoked s) (is_optimistic s) (fast_extension s) (extension_protocol s) (peer_allowed_fast s)
    (our_allowed_fast s) (suggested_pieces s) (ps_hash_failures s) (snubbed s) (encrypted s) (utp s)
    (outgoing_conn s) (stats s) (writer_tx s).
Definition set_ps_extensions (fast extended : bool) (theirs ours : gset u32) (suggested : list u32) (s : PeerState) : PeerState :=
  mkPeerState (peer_interested s) (ps_bitfield s) (am_choking s) (am_interested s) (peer_choking s) (connected_at s)
    (last_unchoked s) (is_optimistic s) fast extended theirs
    ours suggested (ps_hash_failures s) (snubbed s) (encrypted s) (utp s)
    (outgoing_conn s) (stats s) (writer_tx s).
Definition set_ps_counters (down up : u64) (cancels : list BlockRequest) (s : PeerState) : PeerState :=
  let t := stats s in
  set_stats (mkStats down up (st_am_choking t) (st_peer_interested t) (st_am_interested t) (st_peer_choking t) cancels) s.

(** ** The monad *)

Record St := mkSt { st_h : PeerHandler; st_w : World }.

Definition M (A : Type) : Type := St -> option (result A HandlerError * list Output * St).

Definition ret {A} (a : A) : M A := fun s => Some (Ok a, [], s).
Definition fail {A} (e : HandlerError) : M A := fun s => Some (Err e, [], s).
Definition panic {A} : M A := fun _ => None.
Definition bind {A B} (m : M A) (k : A -> M B) : M B := fun s =>
  match m s with
  | None => None
  | Some (Err e, out, s) => Some (Err e, out, s)
  | Some (Ok a, out, s) =>
      match k a s with
      | None => None
      | Some (r, out', s) => Some (r, out ++ out', s)
      end
  end.

Declare Scope handler_scope.
Delimit Scope handler_scope with handler.
Notation "'let*' x ':=' m 'in' k" := (bind m (fun x => k))
  (at level 10, x pattern, m at level 100, k at level 200) : handler_scope.
Notation "m >>> k" := (bind m (fun _ => k)) (at level 95, right associativity) : handler_scope.
Open Scope handler_scope.

Definition hget {A} (f : PeerHandler -> A) : M A := fun s => Some (Ok (f (st_h s)), [], s).
Definition wget {A} (f : World -> A) : M A := fun s => Some (Ok (f (st_w s)), [], s).
Definition hmod (f : PeerHandler -> PeerHandler) : M () := fun s => Some (Ok (), [], mkSt (f (st_h s)) (st_w s)).
Definition wmod (f : World -> World) : M () := fun s => Some (Ok (), [], mkSt (st_h s) (f (st_w s))).
Definition emit (o : Output) : M () := fun s => Some (Ok (), [o], s).
Definition when (b : bool) (m : M ()) : M () := if b then m else ret ().

Fixpoint for_each {A} (l : list A) (f : A -> M ()) : M () :=
  match l with
  | [] => ret ()
  | a :: l => f a >>> for_each l f
  end.

(** [self.peer_writer_tx.send(WriterRequest::Message(m))] *)
Definition send (m : Message) : M () := let* peer := hget h_peer in emit (OutWriter peer (WriteMessage m)).

(** An operation of the download state, alone or with a result. *)
Definition dmod (f : DownloadState -> DownloadState) : M () := wmod (fun w => set_dl (f (w_dl w)) w).
Definition dget {A} (f : DownloadState -> A) : M A := wget (fun w => f (w_dl w)).
Definition dop {A} (f : DownloadState -> A * DownloadState) : M A :=
  let* a := dget (fun d => fst (f d)) in dmod (fun d => snd (f d)) >>> ret a.

(** [self.peers_state.states.get(&self.peer)], [get_mut] and an assignment. *)
Definition own_state : M (option PeerState) :=
  let* peer := hget h_peer in wget (fun w => states (w_ps w) !! peer).
Definition upd_state (f : PeerState -> PeerState) : M () :=
  let* peer := hget h_peer in wmod (fun w => set_ps (set_states (alter f peer (states (w_ps w))) (w_ps w)) w).

(** ** Code outside the repository *)

Record Lib := mkLib {
  lib_sha1 : bytes -> bytes;
  lib_from_bytes : bytes -> option Value;
  lib_stack : nat;
  lib_choose : list u32 -> option u32;
  lib_peers : gset SocketAddr -> list SocketAddr;
  lib_pieces : gset u32 -> list u32;
  lib_requests : gmap BlockRequest Instant -> list (BlockRequest * Instant);
  lib_extensions : gmap u8 AnyExt -> list (u8 * AnyExt) }.

(** The bencode decoder, a stack deep enough for guarded input, and hash tables
    that are visited in some order. *)
Class LibOk (L : Lib) : Prop := {
  lib_bencode :: BencodeLib (lib_from_bytes L);
  lib_stack_ok : (MAX_BENCODE_DEPTH < lib_stack L)%nat;
  lib_random :: SliceRandom (lib_choose L);
  lib_peers_perm : forall s, lib_peers L s ≡ₚ elements s;
  lib_pieces_perm : forall s, lib_pieces L s ≡ₚ elements s;
  lib_requests_order :: HashOrder (lib_requests L);
  lib_extensions_order :: HashOrder (lib_extensions L) }.

Section Handler.
Context (L : Lib).
#[local] Instance handler_ext : Extension AnyExt := AnyExt_ext (lib_sha1 L) (lib_peers L) (lib_from_bytes L) (lib_stack L).

(** ** What the peer has *)

Definition record_have_hint (hint : PeerHaveHint) : M () := hmod (set_h_hint hint).

Definition record_have_index (index : u32) : M () :=
  let* hint := hget h_have_hint in
  match hint with
  | HintUnknown => hmod (set_h_hint (HintHaves [index]))
  | HintHaves indices => if bool_decide (index ∈ indices) then ret () else hmod (set_h_hint (HintHaves (indices ++ [index])))
  | HintAll | HintNone | HintBitfield _ => ret ()
  end.

(** A bitfield the peer has now instead of the one kept for it. *)
Definition replace_bitfield (next : Bitfield) : M () :=
  let* state := own_state in
  match state with
  | Some ps => dmod (fun d => apply_peer_bitfield d (ps_bitfield ps) next) >>> upd_state (set_ps_bitfield next)
  | None => ret ()
  end.

Definition apply_have (index : u32) : M () :=
  let* state := own_state in
  match state with
  | Some ps =>
      let* (_, bf) := dop (fun d => let '(b, bf, d) := apply_peer_have d (ps_bitfield ps) index in (b, bf, d)) in
      upd_state (set_ps_bitfield bf)
  | None => ret ()
  end.

Definition piece_count (d : DownloadState) : nat := length (dl_pieces d).

Definition apply_have_hint : M () :=
  let* hint := hget h_have_hint in
  hmod (set_h_hint HintUnknown) >>>
  let* count := dget piece_count in
  if (count =? 0)%nat then hmod (set_h_hint hint)
  else match hint with
  | HintUnknown => ret ()
  | HintAll => replace_bitfield (filled count)
  | HintNone => replace_bitfield (with_piece_count count)
  | HintBitfield b => replace_bitfield (bf_new b)
  | HintHaves indices => for_each indices apply_have
  end.

Definition fast_ext : M bool := hget (fun h => fx_enabled (h_fast h)).

Definition send_post_metadata_bitfield : M () :=
  let* d := dget id in
  if (piece_count d =? 0)%nat then ret ()
  else
    let bf := our_bitfield d in
    let* fast := fast_ext in
    if fast then
      send (if is_complete d then HaveAll else if bf_is_empty bf then HaveNone else MBitfield (bf_bytes bf))
    else if negb (bf_is_empty bf) then send (MBitfield (bf_bytes bf)) else ret ().

Definition set_fast_extension (enabled : bool) : M () :=
  hmod (fun h => set_h_fast (mkFast enabled (fx_peer_allowed (h_fast h)) (fx_our_allowed (h_fast h)) (fx_suggested (h_fast h))) h) >>>
  upd_state (fun s => set_ps_extensions enabled (extension_protocol s) (peer_allowed_fast s) (our_allowed_fast s) (suggested_pieces s) s).

Definition set_extension_protocol (enabled : bool) : M () :=
  hmod (set_h_extended enabled) >>>
  upd_state (fun s => set_ps_extensions (fast_extension s) enabled (peer_allowed_fast s) (our_allowed_fast s) (suggested_pieces s) s).

Definition require_fast : M () := let* fast := fast_ext in if fast then ret () else fail NotNegotiated.

(** ** Rejecting and requeueing *)

Definition reject_of (req : BlockRequest) : Message := format_reject_request (br_index req) (br_begin req) (br_length req).
Definition cancel_of (req : BlockRequest) : Message := format_cancel (br_index req) (br_begin req) (br_length req).

Definition send_reject (req : BlockRequest) : M () := let* fast := fast_ext in when fast (send (reject_of req)).

Definition reject_upload_queue (keep_allowed_fast : bool) : M () :=
  let* fast := fast_ext in
  if negb fast then hmod (set_h_queue [])
  else
    let* allowed := hget (fun h => fx_our_allowed (h_fast h)) in
    let* queue := hget h_upload_queue in
    let keep req := keep_allowed_fast && bool_decide (br_index req ∈ allowed) in
    for_each queue (fun req => if keep req then ret () else send (reject_of req)) >>>
    hmod (set_h_queue (filter (fun req => keep req = true) queue)).

Definition pmod (f : Pipeline -> Pipeline) : M () := hmod (fun h => set_h_pipeline (f (h_pipeline h)) h).

Definition requeue_outstanding : M () :=
  let* outstanding := hget (fun h => map fst (lib_requests L (h_outstanding h))) in
  hmod (set_h_outstanding ∅) >>>
  let pieces : gset u32 := list_to_set (map br_index outstanding) in
  pmod disarm_pipeline >>>
  let* peer := hget h_peer in
  dmod (fun d => unassign_peer_blocks d peer) >>>
  for_each (lib_pieces L pieces) (fun index => dmod (fun d => snd (release_reservation d index peer))).

Definition remove_outstanding (req : BlockRequest) : M bool :=
  let* known := hget (fun h => bool_decide (is_Some (h_outstanding h !! req))) in
  hmod (fun h => set_h_outstanding (delete req (h_outstanding h)) h) >>> ret known.

Definition release (index : u32) : M () :=
  let* peer := hget h_peer in dmod (fun d => snd (release_reservation d index peer)).

Definition on_reject_request (req : BlockRequest) : M () :=
  let* known := remove_outstanding req in
  if negb known then fail RejectNeverSent
  else release (br_index req) >>> pmod refill_pipeline_slot.

Definition preferred_piece_indices (h : PeerHandler) : list u32 :=
  fx_suggested (h_fast h) ++ lib_pieces L (fx_peer_allowed (h_fast h)).

(** ** Delivery, snubbing, stale requests *)

Definition dv_set_snubbed (v : bool) (d : Delivery) : Delivery :=
  mkDelivery v (dv_last_block_at d) (dv_first_request_at d) (dv_interested_since d) (dv_window_start d) (dv_window_bytes d) (dv_last_rate d).

Definition set_snubbed (v : bool) : M () :=
  hmod (fun h => set_h_delivery (dv_set_snubbed v (h_delivery h)) h) >>> upd_state (PeerStates.set_snubbed v).

Definition on_delivery_progress (now : Instant) (bytes : u32) : M () :=
  hmod (fun h => let d := h_delivery h in
    set_h_delivery (mkDelivery (dv_snubbed d) (Some now) (dv_first_request_at d) (dv_interested_since d)
      (dv_window_start d) (dv_window_bytes d) (dv_last_rate d)) h) >>>
  let* is_snubbed := hget (fun h => dv_snubbed (h_delivery h)) in
  when is_snubbed (set_snubbed false) >>>
  let* d := hget h_delivery in
  let window_bytes := wrap64 (dv_window_bytes d + bytes) in
  let elapsed := since now (dv_window_start d) in
  if millis 200 <=? elapsed then
    let rate := Z.min U64_MAX (window_bytes * 1000) / Z.max (elapsed / 1000000) 1 in
    let prev := dv_last_rate d in
    when ((prev <? rate) && (0 <? prev)) (pmod grow_pipeline) >>>
    hmod (set_h_delivery (mkDelivery (dv_snubbed d) (dv_last_block_at d) (dv_first_request_at d) (dv_interested_since d) now 0 rate))
  else
    hmod (set_h_delivery (mkDelivery (dv_snubbed d) (dv_last_block_at d) (dv_first_request_at d) (dv_interested_since d)
      (dv_window_start d) window_bytes (dv_last_rate d))).

(** [Option::or] *)
Definition first_some {A} (a b : option A) : option A := match a with Some _ => a | None => b end.

Definition maybe_snub (now : Instant) : M () :=
  let* h := hget id in
  let d := h_delivery h in
  if dv_snubbed d then ret ()
  else
    let outstanding := negb (bool_decide (h_outstanding h = ∅)) in
    let start := first_some (first_some (dv_last_block_at d) (dv_first_request_at d)) (dv_interested_since d) in
    let waiting := outstanding || (h_chocked h && bool_decide (is_Some (dv_interested_since d))) in
    match start with
    | Some t =>
        when (waiting && (SNUB_TIMEOUT <=? since now t))
          (set_snubbed true >>> dmod (fun st => snub_release st (h_peer h)))
    | None => ret ()
    end.

Definition stale_requests (now : Instant) (h : PeerHandler) : list BlockRequest :=
  map fst (filter (fun e => REQUEST_TIMEOUT <= since now (snd e)) (lib_requests L (h_outstanding h))).

Definition expire_stale_requests (now : Instant) : M () :=
  let* stale := hget (stale_requests now) in
  match stale with
  | [] => ret ()
  | _ =>
      pmod halve_pipeline >>>
      for_each stale (fun req =>
        remove_outstanding req >>>
        send (cancel_of req) >>>
        let* peer := hget h_peer in
        dmod (fun d => unassign_peer_blocks d peer) >>>
        release (br_index req))
  end.

(** ** Interest *)

Definition is_downloading (w : World) : bool := bool_decide (w_state w = TsDownloading).

Definition peer_bitfield : M Bitfield :=
  let* state := own_state in
  match state with
  | Some s => ret (ps_bitfield s)
  | None => dget (fun d => with_piece_count (piece_count d))
  end.

Definition peer_has_needed_piece : M bool :=
  let* state := own_state in
  match state with
  | None => ret false
  | Some s => dget (fun d => existsb (fun ip => negb (downloaded (snd ip)) && wanted d (fst ip) && has_piece (ps_bitfield s) (Z.to_nat (fst ip)))
                               (numbered (dl_pieces d)))
  end.

Definition peer_has_piece (index : u32) : M bool :=
  let* state := own_state in
  ret (match state with Some s => has_piece (ps_bitfield s) (Z.to_nat index) | None => false end).

Definition needed_allowed_fast_pieces : M (list u32) :=
  let* state := own_state in
  let has index := match state with Some s => has_piece (ps_bitfield s) (Z.to_nat index) | None => false end in
  let* allowed := hget (fun h => lib_pieces L (fx_peer_allowed (h_fast h))) in
  dget (fun d => filter (fun index => negb (dl_has_piece d index) && wanted d index && has index = true) allowed).

Definition refresh_interest (now : Instant) : M () :=
  let* downloading := wget is_downloading in
  let* complete := dget is_complete in
  let* needed := peer_has_needed_piece in
  let* allowed := needed_allowed_fast_pieces in
  let wanted := downloading && negb complete && (needed || negb (bool_decide (allowed = []))) in
  let* state := own_state in
  let current := match state with Some s => am_interested s | None => false end in
  if eqb wanted current then ret ()
  else
    send (if wanted then Interested else NotInterested) >>>
    upd_state (set_am_interested wanted) >>>
    hmod (fun h => let d := h_delivery h in
      set_h_delivery (mkDelivery (dv_snubbed d) (dv_last_block_at d) (dv_first_request_at d)
        (if wanted then Some now else None) (dv_window_start d) (dv_window_bytes d) (dv_last_rate d)) h).

(** ** Cancels *)

Definition push_download_cancel (req : BlockRequest) (s : PeerState) : PeerState :=
  set_ps_counters (bytes_downloaded (stats s)) (bytes_uploaded (stats s)) (download_cancels (stats s) ++ [req]) s.

Definition cancel_other_requesters (others : list SocketAddr) (req : BlockRequest) : M () :=
  for_each others (fun other =>
    let* state := wget (fun w => states (w_ps w) !! other) in
    match state with
    | None => ret ()
    | Some s =>
        wmod (fun w => set_ps (set_states (alter (push_download_cancel req) other (states (w_ps w))) (w_ps w)) w) >>>
        when (writer_tx s) (emit (OutWriter other (WriteMessage (cancel_of req))))
    end).

Definition cancel_unwanted_outstanding : M () :=
  let* d := dget id in
  let* unwanted := hget (fun h => filter (fun req => wanted d (br_index req) = false) (map fst (lib_requests L (h_outstanding h)))) in
  for_each unwanted (fun req =>
    remove_outstanding req >>> send (cancel_of req) >>> release (br_index req) >>> pmod refill_pipeline_slot).

Definition drain_download_cancels : M () :=
  let* state := own_state in
  let cancels := match state with Some s => download_cancels (stats s) | None => [] end in
  upd_state (fun s => set_ps_counters (bytes_downloaded (stats s)) (bytes_uploaded (stats s)) [] s) >>>
  for_each cancels (fun req =>
    let* known := remove_outstanding req in when known (pmod refill_pipeline_slot)).

(** [Drop for PeerSlotGuard], which does what [on_peer_died] does. *)
Definition on_peer_died : M () :=
  let* peer := hget h_peer in
  let* state := own_state in
  match state with
  | Some s => wmod (fun w => set_ps (remove_peer peer (w_ps w)) w) >>> dmod (fun d => remove_peer_availability d (ps_bitfield s))
  | None => ret ()
  end >>>
  dmod (fun d => remove_reserved d peer).

Definition should_transmit_have (id : u32) : M bool :=
  let* state := own_state in
  ret (match state with Some s => negb (has_piece (ps_bitfield s) (Z.to_nat id)) | None => false end).

(** ** Requests of the peer *)

Definition own_am_choking : M bool :=
  let* state := own_state in
  ret (match state with Some s => st_am_choking (stats s) | None => true end).

Definition is_allowed_fast_for_peer (index : u32) : M bool :=
  hget (fun h => bool_decide (index ∈ fx_our_allowed (h_fast h))).

Definition on_incoming_request (payload : bytes) : M () :=
  match br_from_payload payload with
  | None => fail TruncatedRequest
  | Some req =>
      let* piece := dget (fun d => get_piece d (br_index req)) in
      match piece with
      | None => fail (UnknownPiece (br_index req))
      | Some p =>
          let* have_piece := dget (fun d => dl_has_piece d (br_index req)) in
          let* fast := fast_ext in
          match validate_request req (pw_length (piece_work p)) have_piece with
          | Err MissingPiece => if fast then send_reject req else fail (InvalidRequest req MissingPiece)
          | Err e => fail (InvalidRequest req e)
          | Ok _ =>
              let* downloading := wget is_downloading in
              if negb downloading then send_reject req
              else
                let* choking := own_am_choking in
                let* allowed := is_allowed_fast_for_peer (br_index req) in
                if choking && negb (fast && allowed) then
                  send_reject req >>>
                  let* storm := hget h_storm in
                  let '(storm, r) := on_choked_request storm in
                  hmod (set_h_storm storm) >>>
                  match r with Ok _ => ret () | Err _ => fail StormWhileChoked end
                else
                  hmod (fun h => set_h_storm (reset_choked (h_storm h)) h) >>>
                  let* queue := hget h_upload_queue in
                  if (MAX_UPLOAD_QUEUE <=? length queue)%nat then send_reject req
                  else hmod (set_h_queue (queue ++ [req]))
          end
      end
  end.

(** ** Messages *)

(** How far a message has been handled: done, or a piece is complete and its
    buffer is being hashed. *)
Inductive Received :=
| Handled
| Verify (index : u32) (piece : PieceWork) (buf : bytes).

Definition on_extended (now : Instant) (ext_id : u8) (payload : bytes) : M () :=
  let* session := hget h_extensions in
  let* w := wget id in
  let sh := mkShared (w_metadata w) (w_ps w) (w_piece_hashes w) in
  match handle_extended (lib_extensions L) (lib_from_bytes L) now ext_id payload session sh with
  | None => panic
  | Some (outgoing, effects, session, sh) =>
      hmod (set_h_extensions session) >>>
      wmod (fun w => set_metadata (sh_metadata sh) (set_ps (sh_states sh) w)) >>>
      for_each effects (fun e => emit (match e with EffWriter p r => OutWriter p r | EffAddPeers l => OutAddPeers l end)) >>>
      match (if ext_id =? 0 then pi_reqq (es_peer session) else None) with
      | Some reqq => pmod (set_reqq reqq)
      | None => ret ()
      end >>>
      for_each outgoing send >>>
      if Registry.should_disconnect (lib_extensions L) session then fail ExtensionDisconnect else ret ()
  end.

Definition on_piece (now : Instant) (chunk : PieceChunk) : M Received :=
  let req := mkBlockRequest (pc_index chunk) (pc_start chunk) (pc_length chunk) in
  remove_outstanding req >>>
  let* peer := hget h_peer in
  let* others := dop (fun d => note_block_received d req peer) in
  cancel_other_requesters others req >>>
  hmod (fun h => set_h_downloaded (wrap32 (h_downloaded h + pc_length chunk)) h) >>>
  upd_state (fun s => set_ps_counters (wrap64 (bytes_downloaded (stats s) + pc_length chunk)) (bytes_uploaded (stats s))
    (download_cancels (stats s)) s) >>>
  on_delivery_progress now (pc_length chunk) >>>
  pmod refill_pipeline_slot >>>
  dmod (fun d => snd (set_chuncks d (pc_index chunk) (pc_start chunk) (pc_data chunk) peer)) >>>
  let* full := dop (fun d => set_downloaded_if_all_chunks d (pc_index chunk)) in
  match full with
  | Some p => ret (Verify (pc_index chunk) (piece_work p) (chunk_to_buf p))
  | None => refresh_interest now >>> ret Handled
  end.

Definition blame_contributors (now : Instant) (contributors : list SocketAddr) : M bool :=
  let sole := (length contributors =? 1)%nat in
  fold_right (fun peer rest =>
    let* w := wget id in
    let '(banned, sent, ps) := record_hash_failure now peer sole (w_ps w) in
    wmod (set_ps ps) >>>
    for_each sent (fun s => emit (OutWriter (fst s) (snd s))) >>>
    let* self := hget h_peer in
    let* banned_self := rest in
    ret (banned && bool_decide (peer = self) || banned_self)) (ret false) contributors.

(** After the hash: [index] is the piece of the chunk, [ok] the outcome. *)
Definition on_verified (now : Instant) (index : u32) (piece : PieceWork) (buf : bytes) (ok : bool) : M () :=
  if ok then
    let* claimed := dop (fun d => claim_write d index) in
    if claimed then
      dmod (fun d => clear_piece_chunks d index) >>>
      let* is_open := wget w_writer_open in
      if is_open then emit (OutPiece (mkFullPiece index (pw_length piece) buf)) >>> refresh_interest now else ret ()
    else refresh_interest now
  else
    let* contributors := dget (fun d => piece_contributors d index) in
    let* banned_self := blame_contributors now contributors in
    dmod (fun d => remove_downloaded d index) >>>
    dmod (fun d => release_piece d index) >>>
    if banned_self then fail BannedAfterHashFailure else refresh_interest now.

Definition on_received_message (now : Instant) (message : Message) : M Received :=
  drain_download_cancels >>>
  match message with
  | Choke =>
      hmod (set_h_chocked true) >>>
      upd_state (set_peer_choking true) >>>
      let* fast := fast_ext in when (negb fast) requeue_outstanding >>> ret Handled
  | Unchoke =>
      hmod (set_h_chocked false) >>>
      upd_state (set_peer_choking false) >>>
      pmod arm_pipeline >>> ret Handled
  | Interested =>
      let* complete := dget is_complete in
      let* state := own_state in
      match state with
      | Some s =>
          upd_state (set_peer_interested true) >>>
          when (complete && st_am_choking (stats s))
            (upd_state (set_am_choking false) >>> when (writer_tx s) (send Unchoke))
      | None => ret ()
      end >>> ret Handled
  | NotInterested => upd_state (set_peer_interested false) >>> ret Handled
  | Have h =>
      let* count := dget piece_count in
      (if (count =? 0)%nat then record_have_index h else apply_have h) >>>
      refresh_interest now >>> ret Handled
  | MBitfield vec =>
      let* count := dget piece_count in
      (if (count =? 0)%nat then record_have_hint (HintBitfield vec) else replace_bitfield (bf_new vec)) >>>
      refresh_interest now >>> ret Handled
  | Request payload => on_incoming_request payload >>> ret Handled
  | SuggestPiece index =>
      require_fast >>>
      hmod (fun h => let f := h_fast h in
        set_h_fast (mkFast (fx_enabled f) (fx_peer_allowed f) (fx_our_allowed f)
          (if bool_decide (index ∈ fx_suggested f) then fx_suggested f else fx_suggested f ++ [index])) h) >>>
      upd_state (fun s => set_ps_extensions (fast_extension s) (extension_protocol s) (peer_allowed_fast s) (our_allowed_fast s)
        (if bool_decide (index ∈ suggested_pieces s) then suggested_pieces s else suggested_pieces s ++ [index]) s) >>>
      ret Handled
  | HaveAll =>
      require_fast >>>
      let* count := dget piece_count in
      (if (count =? 0)%nat then record_have_hint HintAll else replace_bitfield (filled count)) >>>
      refresh_interest now >>> ret Handled
  | HaveNone =>
      require_fast >>>
      let* count := dget piece_count in
      (if (count =? 0)%nat then record_have_hint HintNone else replace_bitfield (with_piece_count count)) >>>
      refresh_interest now >>> ret Handled
  | RejectRequest index begin len => require_fast >>> on_reject_request (mkBlockRequest index begin len) >>> ret Handled
  | AllowedFast index =>
      require_fast >>>
      hmod (fun h => let f := h_fast h in
        set_h_fast (mkFast (fx_enabled f) ({[index]} ∪ fx_peer_allowed f) (fx_our_allowed f) (fx_suggested f)) h) >>>
      upd_state (fun s => set_ps_extensions (fast_extension s) (extension_protocol s) ({[index]} ∪ peer_allowed_fast s) (our_allowed_fast s)
        (suggested_pieces s) s) >>>
      ret Handled
  | Piece chunk => on_piece now chunk
  | Cancel payload =>
      match br_from_payload payload with
      | Some req => hmod (fun h => set_h_queue (filter (fun queued => queued <> req) (h_upload_queue h)) h)
      | None => ret ()
      end >>> ret Handled
  | Port port =>
      let* h := hget id in
      when (h_dht h) (emit (OutPingNode (sock_addr (addr_ip (h_peer h)) port))) >>> ret Handled
  | Extended ext_id payload =>
      let* extended := hget h_extension_protocol in
      when extended (on_extended now ext_id payload) >>> ret Handled
  | HashRequest | Hashes _ | HashReject | KeepAlive => ret Handled
  end.
End Handler.
