(* ===== verification/PeerTasks.v ===== *)
(** * The tasks of a connection (crates/bit_rev/src/peer_connection.rs)

    The requester, the uploader and the ticker of a connection, its opening
    messages, and the connections of a torrent together with the task that writes
    finished pieces.  A task is a program counter that names the point where it
    waits, and a step from one such point to the next; between two steps of a task
    any other task can run.  A wait for a permit, for bandwidth, a timer or a
    wake-up can end at any time. *)

From S2P Require Import Prelude Bencode Value Bitfield Message PeerStates Picker Download Storage ExtHandshake.
From S2P Require Import Peers Metadata Pex Registry Pipeline AllowedFast PeerHandler.

#[local] Open Scope handler_scope.

(** ** The requester *)

(** What is left to request: blocks of a reserved piece, or endgame blocks. *)
Inductive ReqCont :=
| KPiece (piece : PieceWork) (rest : list BlockRequest)
| KBlocks (rest : list BlockRequest).

(** Where the requester waits: for the metadata, at the head of its loop, for a
    permit of the pipeline, for bandwidth. *)
Inductive ReqPc :=
| RqStart
| RqMetadata
| RqTop
| RqPermit (k : ReqCont) (req : BlockRequest)
| RqBandwidth (k : ReqCont) (req : BlockRequest).

Inductive Sbr := SbrStop | SbrNext | SbrWait.

Section Tasks.
Context (L : Lib).
#[local] Instance tasks_ext : Extension AnyExt := handler_ext L.

(** [acquire_pipeline_slot], up to the wait for the semaphore. *)
Definition acquire_enter (now : Instant) : M () := expire_stale_requests L now >>> maybe_snub now.

(** [send_block_request], up to that wait. *)
Definition block_request_start (now : Instant) (req : BlockRequest) : M Sbr :=
  let* downloading := wget is_downloading in
  if negb downloading then ret SbrStop
  else
    let* want := dget (fun d => wanted d (br_index req)) in
    if negb want then release (br_index req) >>> ret SbrNext
    else acquire_enter now >>> ret SbrWait.

(** [send_block_request], from the bandwidth on. *)
Definition block_request_issue (now : Instant) (req : BlockRequest) : M bool :=
  let* downloading := wget is_downloading in
  let* want := dget (fun d => wanted d (br_index req)) in
  if negb downloading || negb want then pmod refill_pipeline_slot >>> ret downloading
  else
    let* peer := hget h_peer in
    let* assigned := dop (fun d => assign_block d now req peer) in
    if negb assigned then pmod refill_pipeline_slot >>> ret true
    else
      hmod (fun h => let d := h_delivery h in
        set_h_delivery (mkDelivery (dv_snubbed d) (dv_last_block_at d) (first_some (dv_first_request_at d) (Some now))
          (dv_interested_since d) (dv_window_start d) (dv_window_bytes d) (dv_last_rate d)) h) >>>
      hmod (fun h => set_h_outstanding (<[req := now]> (h_outstanding h)) h) >>>
      send (format_request (br_index req) (br_begin req) (br_length req)) >>>
      ret true.

(** The loops of [request_piece_blocks] and [request_endgame_blocks]. *)
Fixpoint piece_loop (now : Instant) (piece : PieceWork) (rest : list BlockRequest) : M ReqPc :=
  match rest with
  | [] => ret RqTop
  | req :: rest =>
      let* downloading := wget is_downloading in
      let* want := dget (fun d => wanted d (pw_index piece)) in
      if negb downloading || negb want then release (pw_index piece) >>> ret RqTop
      else
        let* s := block_request_start now req in
        match s with
        | SbrStop => ret RqTop
        | SbrNext => piece_loop now piece rest
        | SbrWait => ret (RqPermit (KPiece piece rest) req)
        end
  end.

Fixpoint blocks_loop (now : Instant) (rest : list BlockRequest) : M ReqPc :=
  match rest with
  | [] => ret RqTop
  | req :: rest =>
      let* s := block_request_start now req in
      match s with
      | SbrStop => ret RqTop
      | SbrNext => blocks_loop now rest
      | SbrWait => ret (RqPermit (KBlocks rest) req)
      end
  end.

Definition request_piece_blocks (now : Instant) (piece : PieceWork) : M ReqPc := piece_loop now piece (piece_blocks piece).

Definition request_endgame_blocks (now : Instant) : M ReqPc :=
  let* peer_has := peer_bitfield in
  let* h := hget id in
  let want := (pl_depth (h_pipeline h) - size (h_outstanding h))%nat in
  let* blocks := dget (fun d => endgame_blocks d now (h_peer h) peer_has want) in
  blocks_loop now blocks.

(** [self.downloaded().pick(..)]; one round is enough, nobody reserves in between. *)
Definition pick_piece (peer_has : Bitfield) (prefer : list u32) : M (option u32) :=
  let* peer := hget h_peer in
  let* d := dget id in
  match pick 1 (lib_choose L) d peer peer_has prefer with
  | None => panic
  | Some (r, d) => dmod (fun _ => d) >>> ret r
  end.

(** Request the blocks of the piece that was picked, or do [otherwise]. *)
Definition request_picked (now : Instant) (picked : option u32) (otherwise : M ReqPc) : M ReqPc :=
  match picked with
  | None => otherwise
  | Some index =>
      let* piece := dget (fun d => get_piece d index) in
      match piece with
      | Some p => request_piece_blocks now (piece_work p)
      | None => otherwise
      end
  end.

(** One round of [task_peer_chunk_requester].  The snub check after a minute
    without an unchoke is the one the next round starts with. *)
Definition requester_top (now : Instant) : M ReqPc :=
  let* downloading := wget is_downloading in
  if negb downloading then refresh_interest L now >>> ret RqTop
  else
    maybe_snub now >>>
    expire_stale_requests L now >>>
    drain_download_cancels >>>
    cancel_unwanted_outstanding L >>>
    refresh_interest L now >>>
    let* complete := dget is_complete in
    if complete then refresh_interest L now >>> ret RqTop
    else
      let* choked := hget h_chocked in
      let* allowed := needed_allowed_fast_pieces L in
      let can_request_fast := choked && negb (bool_decide (allowed = [])) in
      let* endgame := dget in_endgame in
      let* snubbed := hget (fun h => dv_snubbed (h_delivery h)) in
      let* needed := peer_has_needed_piece in
      if negb needed && negb can_request_fast && negb endgame then ret RqTop
      else if choked then
        let rest := if endgame && can_request_fast then request_endgame_blocks now else ret RqTop in
        if negb (bool_decide (allowed = [])) && (negb snubbed || endgame) then
          let* count := dget piece_count in
          let allowed_bf := fold_left (fun bf index => set_piece bf (Z.to_nat index)) allowed (with_piece_count count) in
          let* picked := pick_piece allowed_bf allowed in
          request_picked now picked rest
        else rest
      else if endgame then request_endgame_blocks now
      else if snubbed then
        let* endgame := dget in_endgame in
        if endgame then request_endgame_blocks now else ret RqTop
      else
        let* peer_has := peer_bitfield in
        let* preferred := hget (fun h => filter (fun index => has_piece peer_has (Z.to_nat index) = true) (preferred_piece_indices L h)) in
        let* picked := pick_piece peer_has preferred in
        request_picked now picked
          (let* endgame := dget in_endgame in if endgame then request_endgame_blocks now else ret RqTop).

Definition resume_requests (now : Instant) (k : ReqCont) : M ReqPc :=
  match k with
  | KPiece piece rest => piece_loop now piece rest
  | KBlocks rest => blocks_loop now rest
  end.

(** The requester goes on from where it waits. *)
Definition requester_step (now : Instant) (pc : ReqPc) : M ReqPc :=
  match pc with
  | RqStart => let* count := dget piece_count in if (count =? 0)%nat then ret RqMetadata else ret RqTop
  | RqMetadata =>
      let* count := dget piece_count in
      if (count =? 0)%nat then ret RqMetadata
      else apply_have_hint >>> send_post_metadata_bitfield >>> ret RqTop
  | RqTop => requester_top now
  | RqPermit k req =>
      let* p := hget h_pipeline in
      match take_permit p with
      | Some p => hmod (set_h_pipeline p) >>> ret (RqBandwidth k req)
      | None => ret (RqPermit k req)
      end
  | RqBandwidth k req =>
      let* go := block_request_issue now req in
      if go then resume_requests now k else ret RqTop
  end.

(** No permit for 20 seconds. *)
Definition requester_timeout (now : Instant) (pc : ReqPc) : M ReqPc :=
  match pc with
  | RqPermit k req =>
      pmod halve_pipeline >>>
      expire_stale_requests L now >>>
      let* downloading := wget is_downloading in
      if negb downloading then ret RqTop else acquire_enter now >>> ret (RqPermit k req)
  | pc => ret pc
  end.

(** ** The uploader *)

Inductive UpPc :=
| UpTop
| UpLoop
| UpRead (req : BlockRequest)
| UpReading (req : BlockRequest) (r : Reading)   (* a thread reads the files *)
| UpBandwidth (req : BlockRequest) (data : bytes).

Definition uploader_step (pc : UpPc) : M UpPc :=
  let* downloading := wget is_downloading in
  match pc with
  | UpTop =>
      if negb downloading then reject_upload_queue false >>> ret UpTop
      else let* state := own_state in ret (match state with Some _ => UpLoop | None => UpTop end)
  | UpLoop =>
      if negb downloading then reject_upload_queue false >>> ret UpTop
      else
        let* choking := own_am_choking in
        when choking (reject_upload_queue true) >>>
        let* queue := hget h_upload_queue in
        match queue with
        | [] => ret UpTop
        | req :: rest =>
            hmod (set_h_queue rest) >>>
            let* allowed := is_allowed_fast_for_peer (br_index req) in
            if choking && negb allowed then send_reject req >>> ret UpLoop else ret (UpRead req)
        end
  | UpRead req =>
      let* w := wget id in
      match read_begin (w_storage w) (br_index req) (br_begin req) (br_length req) with
      | None => panic
      | Some (r, storage) =>
          wmod (set_storage storage) >>>
          match r with
          | ReadFails _ => send_reject req >>> ret UpLoop
          | ReadHit data => ret (UpBandwidth req data)
          | ReadFiles r => ret (UpReading req r)
          end
      end
  | UpReading req r =>
      match rg_ranges r with
      | _ :: _ => ret pc
      | [] =>
          let* w := wget id in
          match read_end (w_storage w) (br_index req) (br_begin req) (br_length req) (rg_out r) with
          | None => panic
          | Some (data, storage) => wmod (set_storage storage) >>> ret (UpBandwidth req data)
          end
      end
  | UpBandwidth req data =>
      if negb downloading then send_reject req >>> ret UpLoop
      else
        send (format_piece (br_index req) (br_begin req) data) >>>
        let len := Z.of_nat (length data) in
        wmod (fun w => set_uploaded (wrap64 (w_uploaded w + len)) w) >>>
        upd_state (fun s => set_ps_counters (bytes_downloaded (stats s)) (wrap64 (bytes_uploaded (stats s) + len))
          (download_cancels (stats s)) s) >>>
        ret UpLoop
  end.

(** The thread that reads: a call gives at most [n] bytes, or an error ([None]). *)
Definition uploader_read (n : option nat) (pc : UpPc) : M UpPc :=
  match pc with
  | UpReading req r =>
      let* w := wget id in
      match match n with Some n => read_some (w_storage w) n r | None => Some None end with
      | None => panic
      | Some None => send_reject req >>> ret UpLoop
      | Some (Some r) => ret (UpReading req r)
      end
  | _ => ret pc
  end.

(** ** The ticker *)

Definition extension_tick (now : Instant) : M () :=
  let* session := hget h_extensions in
  let* w := wget id in
  let '(outgoing, session, sh) :=
    session_on_tick (lib_extensions L) now session (mkShared (w_metadata w) (w_ps w) (w_piece_hashes w)) in
  hmod (set_h_extensions session) >>>
  wmod (fun w => set_metadata (sh_metadata sh) (set_ps (sh_states sh) w)) >>>
  for_each outgoing send >>>
  if Registry.should_disconnect (lib_extensions L) session
  then let* peer := hget h_peer in emit (OutWriter peer Disconnect) >>> fail ExtensionDisconnect
  else ret ().

(** ** The connection *)

(** The reader waits for a message or for the hash of a piece. *)
Inductive RdPc :=
| RdIdle
| RdVerify (index : u32) (piece : PieceWork) (buf : bytes).

Record Conn := mkConn { c_h : PeerHandler; c_rd : RdPc; c_rq : ReqPc; c_up : UpPc }.

Definition send_dht_port (dht_port : option u16) (peer_dht : bool) : list Message :=
  match dht_port with
  | Some port => if peer_dht && negb (port =? 0) then [Port port] else []
  | None => []
  end.

Definition send_extension_handshake (listen_port : u16) (h : PeerHandler) (w : World) : list Message :=
  if h_extension_protocol h
  then [outgoing_handshake (if listen_port =? 0 then None else Some listen_port) (metadata_size (w_metadata w)) (h_extensions h)]
  else [].

Definition send_initial_bitfield (h : PeerHandler) (d : DownloadState) : list Message :=
  let fast := fx_enabled (h_fast h) in
  if (piece_count d =? 0)%nat then if fast then [HaveNone] else []
  else
    let bf := our_bitfield d in
    if fast then [if is_complete d then HaveAll else if bf_is_empty bf then HaveNone else MBitfield (bf_bytes bf)]
    else if negb (bf_is_empty bf) then [MBitfield (bf_bytes bf)] else [].

(** The allowed-fast set is kept on both sides and announced. *)
Definition send_allowed_fast (fuel : nat) (info_hash : bytes) : M () :=
  let* h := hget id in
  if negb (fx_enabled (h_fast h)) then ret ()
  else
    let* count := dget (fun d => wrap32 (Z.of_nat (piece_count d))) in
    match generate_allowed_fast_for_ip fuel (lib_sha1 L) (addr_ip (h_peer h)) info_hash count DEFAULT_ALLOWED_FAST_SET_SIZE with
    | None => panic
    | Some set =>
        hmod (fun h => let f := h_fast h in
          set_h_fast (mkFast (fx_enabled f) (fx_peer_allowed f) (list_to_set set ∪ fx_our_allowed f) (fx_suggested f)) h) >>>
        upd_state (fun s => set_ps_extensions (fast_extension s) (extension_protocol s) (peer_allowed_fast s)
          (list_to_set set ∪ our_allowed_fast s) (suggested_pieces s) s) >>>
        for_each set (fun index => send (AllowedFast index))
    end.

Definition from_config (now : Instant) (peer : SocketAddr) (extensions : ExtensionSession AnyExt) (dht : bool) : PeerHandler :=
  mkHandler peer true 0 HintUnknown [] storm_default ∅ (mkFast false ∅ ∅ []) false extensions pipeline_new
    (mkDelivery false None None None now 0 0) dht.
End Tasks.
