(* ===== verification/PeerSwarm.v ===== *)
(** * The connections of a torrent (crates/bit_rev/src/peer_connection.rs, session.rs)

    All connections of a torrent over the state they share, the channel of
    verified pieces and the task that writes them.  An event is one step of one
    task, or one system call of a thread that reads or writes the files for it; they
    interleave in any order.  An error in the message handler or
    the ticker ends the connection, and its guard gives back what it held. *)

From S2P Require Import Prelude Bencode Value Bitfield Message PeerStates Picker Priority Download Storage Choke.
From S2P Require Import ExtHandshake Peers Metadata Pex Registry Pipeline AllowedFast PeerHandler PeerTasks.

#[local] Open Scope handler_scope.

(** The writer of finished pieces: the write under way, and the pieces whose write has
    broken off. *)
Record DiskWriter := mkDiskWriter { dw_writing : option Writing; dw_failed : list u32 }.

Record Net := mkNet {
  n_world : World;
  n_conns : gmap SocketAddr Conn;
  n_pieces : list FullPiece;
  n_global : nat;
  n_writer : DiskWriter }.

(** The limits of the session, its address filter and its ports. *)
Record Limits := mkLimits {
  lm_global : nat; lm_torrent : nat; lm_blocked : SocketAddr -> bool; lm_dht_port : option u16; lm_listen_port : u16 }.

(** [try_spawn_peer], up to the task it spawns. *)
Definition try_spawn_peer (lim : Limits) (now : Instant) (peer : SocketAddr) (global : nat) (ps : PeerStates)
    : bool * PeerStates :=
  if (lm_global lim <=? global)%nat then (false, ps)
  else
    let already_seen := bool_decide (is_Some (states ps !! peer)) in
    if negb already_seen && (lm_torrent lim <=? size (states ps))%nat then (false, ps)
    else
      let '(banned, ps) := is_banned now peer ps in
      if banned then (false, ps)
      else if lm_blocked lim peer then (false, ps)
      else insert_live now peer ps.

(** [ut_metadata.rs]: dropping the extensions releases the metadata pieces in
    flight to the peer. *)
Definition drop_extensions (peer : SocketAddr) (h : PeerHandler) (ms : MetadataStore) : MetadataStore :=
  if existsb (fun e => match snd e with BoxMetadata _ => true | BoxPex _ => false end) (map_to_list (es_by_local_id (h_extensions h)))
  then on_peer_gone peer ms else ms.

(** [Drop for PeerSlotGuard], with the handler. *)
Definition drop_connection (peer : SocketAddr) (c : Conn) (n : Net) : Net :=
  let w := n_world n in
  let d := match states (w_ps w) !! peer with
           | Some s => remove_peer_availability (w_dl w) (ps_bitfield s)
           | None => w_dl w
           end in
  let w := set_dl (remove_reserved d peer) (set_ps (remove_peer peer (w_ps w)) w) in
  let w := set_metadata (drop_extensions peer (c_h c) (w_metadata w)) w in
  mkNet w (delete peer (n_conns n)) (n_pieces n) (n_global n - 1) (n_writer n).

(** The verified pieces among what a task sends. *)
Definition pieces_of (out : list Output) : list FullPiece :=
  omap (fun o => match o with OutPiece p => Some p | _ => None end) out.

(** A step of a task of a connection. *)
Definition run_task (peer : SocketAddr) (c : Conn) (task : M (RdPc * ReqPc * UpPc)) (n : Net) : option (list Output * Net) :=
  match task (mkSt (c_h c) (n_world n)) with
  | None => None
  | Some (r, out, s) =>
      let n := mkNet (st_w s) (<[peer := mkConn (st_h s) (c_rd c) (c_rq c) (c_up c)]> (n_conns n)) (n_pieces n ++ pieces_of out) (n_global n) (n_writer n) in
      match r with
      | Ok (rd, rq, up) => Some (out, mkNet (n_world n) (<[peer := mkConn (st_h s) rd rq up]> (n_conns n)) (n_pieces n) (n_global n) (n_writer n))
      | Err _ => Some (out, drop_connection peer (mkConn (st_h s) (c_rd c) (c_rq c) (c_up c)) n)
      end
  end.

(** [session.rs]: a priority change cancels the withdrawn blocks at every peer. *)
Definition request_key (r : BlockRequest) : list Z := [br_index r; br_begin r; br_length r].
Definition request_le (a b : BlockRequest) : Prop := cmp_list (request_key a) (request_key b) <> Gt.
#[export] Instance request_le_dec a b : Decision (request_le a b).
Proof. unfold request_le. apply _. Defined.

Definition send_priority_cancels (iter : gmap SocketAddr PeerState -> list (SocketAddr * PeerState))
    (cancels : list (SocketAddr * BlockRequest)) (ps : PeerStates) : list Output * PeerStates :=
  match cancels with
  | [] => ([], ps)
  | _ =>
      let reqs := dedup (merge_sort request_le (map snd cancels)) in
      let live s := writer_tx s in
      (concat (map (fun e => if live (snd e) then map (fun req => OutWriter (fst e) (WriteMessage (cancel_of req))) reqs else []) (iter (states ps))),
       set_states ((fun s => if live s then fold_left (fun s req => push_download_cancel req s) reqs s else s) <$> states ps) ps)
  end.

Inductive net_event :=
| NSpawn (now : Instant) (peer : SocketAddr) (fast extended allows_pex dht peer_dht : bool) (fuel : nat)
| NMessage (now : Instant) (peer : SocketAddr) (message : Message)
| NVerified (now : Instant) (peer : SocketAddr)
| NRequester (now : Instant) (peer : SocketAddr)
| NTimeout (now : Instant) (peer : SocketAddr)
| NUploader (peer : SocketAddr)
| NRead (peer : SocketAddr) (n : option nat)   (* a call of the thread that reads for the uploader *)
| NTick (now : Instant) (peer : SocketAddr)
| NClosed (peer : SocketAddr)
| NWrite                                       (* the writer takes a piece, or is done with one *)
| NDisk (n : option nat)                       (* a call of the thread that writes for it *)
| NPriorities (priorities : list FilePriority)
| NTransfer (state : TransferState)
| NChoke (now : Instant) (regular : gset SocketAddr) (peer : SocketAddr) (action : ChokeAction).

Section Net.
Context (L : Lib) (lim : Limits) (info_hash : bytes) (registry : list (RegisteredExtension AnyExt)).
Context (peer_iter : gmap SocketAddr PeerState -> list (SocketAddr * PeerState)).
#[local] Instance net_ext : Extension AnyExt := handler_ext L.

(** A new connection, with what the handshake negotiated: its first messages and
    its allowed-fast set. *)
Definition open_connection (fast extended peer_dht : bool) (fuel : nat) : M (RdPc * ReqPc * UpPc) :=
  set_fast_extension fast >>>
  set_extension_protocol extended >>>
  let* h := hget id in
  let* w := wget id in
  for_each (send_dht_port (lm_dht_port lim) peer_dht) send >>>
  for_each (send_extension_handshake (lm_listen_port lim) h w) send >>>
  for_each (send_initial_bitfield h (w_dl w)) send >>>
  when fast (send_allowed_fast L fuel info_hash) >>>
  ret (RdIdle, RqStart, UpTop).

(** The digest chain of the allowed-fast set is long enough; until then the
    connection does not get further. *)
Definition fast_set_ready (fuel : nat) (peer : SocketAddr) (w : World) : bool :=
  match generate_allowed_fast_for_ip fuel (lib_sha1 L) (addr_ip peer) info_hash
          (wrap32 (Z.of_nat (piece_count (w_dl w)))) DEFAULT_ALLOWED_FAST_SET_SIZE with
  | Some _ => true | None => false
  end.

(** The writer takes the next piece when it has written the last; an error makes the
    piece missing again. *)
Definition writer_step (n : Net) : Net :=
  let w := n_world n in
  match dw_writing (n_writer n), n_pieces n with
  | Some writing, _ =>
      match wg_ranges writing with
      | [] => mkNet w (n_conns n) (n_pieces n) (n_global n) (mkDiskWriter None (dw_failed (n_writer n)))
      | _ => n
      end
  | None, [] => n
  | None, piece :: rest =>
      match write_begin (w_storage w) (fp_index piece) (fp_buf piece) with
      | (Ok writing, storage) => mkNet (set_storage storage w) (n_conns n) rest (n_global n) (mkDiskWriter (Some writing) (dw_failed (n_writer n)))
      | (Err _, storage) => mkNet (set_dl (remove_downloaded (w_dl w) (fp_index piece)) (set_storage storage w)) (n_conns n) rest (n_global n) (n_writer n)
      end
  end.

(** A call of the thread that writes takes at most [k] bytes, or is an error ([None]). *)
Definition disk_step (k : option nat) (n : Net) : option Net :=
  let w := n_world n in
  match dw_writing (n_writer n) with
  | None => Some n
  | Some writing =>
      match match k with Some k => write_some (w_storage w) k writing | None => Some None end with
      | None => None
      | Some None =>
          Some (mkNet (set_dl (remove_downloaded (w_dl w) (wg_index writing)) w) (n_conns n) (n_pieces n) (n_global n)
            (mkDiskWriter None (wg_index writing :: dw_failed (n_writer n))))
      | Some (Some (writing, storage)) =>
          Some (mkNet (set_storage storage w) (n_conns n) (n_pieces n) (n_global n) (mkDiskWriter (Some writing) (dw_failed (n_writer n))))
      end
  end.

Definition with_conn (peer : SocketAddr) (n : Net) (f : Conn -> option (list Output * Net)) : option (list Output * Net) :=
  match n_conns n !! peer with Some c => f c | None => Some ([], n) end.

Definition net_step (n : Net) (ev : net_event) : option (list Output * Net) :=
  match ev with
  | NSpawn now peer fast extended allows_pex dht peer_dht fuel =>
      if fast && negb (fast_set_ready fuel peer (n_world n)) then Some ([], n)
      else
        let '(spawned, ps) := try_spawn_peer lim now peer (n_global n) (w_ps (n_world n)) in
        let n := mkNet (set_ps ps (n_world n)) (n_conns n) (n_pieces n) (n_global n) (n_writer n) in
        if negb spawned then Some ([], n)
        else
          let h := from_config now peer (ext_bind (mkExtContext peer allows_pex) registry) dht in
          let c := mkConn h RdIdle RqStart UpTop in
          run_task peer c (open_connection fast extended peer_dht fuel) (mkNet (n_world n) (<[peer := c]> (n_conns n)) (n_pieces n) (S (n_global n)) (n_writer n))
  | NMessage now peer message =>
      with_conn peer n (fun c =>
        match c_rd c with
        | RdVerify _ _ _ => Some ([], n)
        | RdIdle =>
            run_task peer c
              (let* r := on_received_message L now message in
               ret (match r with Handled => RdIdle | Verify index piece buf => RdVerify index piece buf end, c_rq c, c_up c)) n
        end)
  | NVerified now peer =>
      with_conn peer n (fun c =>
        match c_rd c with
        | RdIdle => Some ([], n)
        | RdVerify index piece buf =>
            run_task peer c
              (on_verified L now index piece buf (bool_decide (lib_sha1 L buf = pw_hash piece)) >>> ret (RdIdle, c_rq c, c_up c)) n
        end)
  | NRequester now peer =>
      with_conn peer n (fun c => run_task peer c (let* rq := requester_step L now (c_rq c) in ret (c_rd c, rq, c_up c)) n)
  | NTimeout now peer =>
      with_conn peer n (fun c => run_task peer c (let* rq := requester_timeout L now (c_rq c) in ret (c_rd c, rq, c_up c)) n)
  | NUploader peer =>
      with_conn peer n (fun c => run_task peer c (let* up := uploader_step (c_up c) in ret (c_rd c, c_rq c, up)) n)
  | NRead peer k =>
      with_conn peer n (fun c => run_task peer c (let* up := uploader_read k (c_up c) in ret (c_rd c, c_rq c, up)) n)
  | NTick now peer =>
      with_conn peer n (fun c => run_task peer c (extension_tick L now >>> ret (c_rd c, c_rq c, c_up c)) n)
  | NClosed peer => with_conn peer n (fun c => Some ([], drop_connection peer c n))
  | NWrite => Some ([], writer_step n)
  | NDisk k => match disk_step k n with None => None | Some n => Some ([], n) end
  | NPriorities priorities =>
      let w := n_world n in
      let '(cancels, d) := apply_file_priorities (w_dl w) priorities in
      let '(out, ps) := send_priority_cancels peer_iter cancels (w_ps w) in
      Some (out, mkNet (set_ps ps (set_dl d w)) (n_conns n) (n_pieces n) (n_global n) (n_writer n))
  | NTransfer state =>
      let w := n_world n in
      Some ([], mkNet (mkWorld (w_dl w) (w_ps w) (w_metadata w) (w_storage w) state (w_piece_hashes w) (w_uploaded w) (w_writer_open w))
                  (n_conns n) (n_pieces n) (n_global n) (n_writer n))
  | NChoke now regular peer action =>
      let w := n_world n in
      let '(m, sent) := apply_action now regular (states (w_ps w), []) (peer, action) in
      Some (map (fun s => OutWriter (fst s) (snd s)) sent,
            mkNet (set_ps (set_states m (w_ps w)) w) (n_conns n) (n_pieces n) (n_global n) (n_writer n))
  end.

Fixpoint net_run (n : Net) (evs : list net_event) : option (list Output * Net) :=
  match evs with
  | [] => Some ([], n)
  | ev :: evs =>
      match net_step n ev with
      | None => None
      | Some (out, n) =>
          match net_run n evs with
          | None => None
          | Some (outs, n) => Some (out ++ outs, n)
          end
      end
  end.
End Net.
