(* ===== verification/PeerSafe.v ===== *)
(** * Safety of the connections

    Whatever peers send and however the tasks and the system calls of the storage
    threads interleave, no step of a connection panics, the shared state stays well
    formed, and only verified pieces reach the storage, where a piece is as it was or
    right unless its write is under way or broke off.  The cache may hold an old piece
    ([Storage.write_piece_race]).  A computation of the handler monad is [safe] when it keeps the
    invariant; the rules follow its structure. *)

From S2P Require Import Prelude Bencode Value Bitfield Message PeerStates Picker Layout Priority Metainfo Download.
From S2P Require Import Storage Choke ExtHandshake Peers Metadata Pex Registry Pipeline AllowedFast PeerHandler.
From S2P Require Import PeerTasks PeerSwarm.

#[local] Open Scope handler_scope.

(** ** The pieces of a torrent do not change *)

Definition works_of (d : DownloadState) : list PieceWork := map piece_work (dl_pieces d).

Lemma map_alter_same {A B} (g : A -> B) (f : A -> A) i (l : list A) :
  (forall a, g (f a) = g a) -> map g (alter f i l) = map g l.
Proof.
  intros Hf. apply list_eq. intros j. rewrite !list_lookup_fmap, list_lookup_alter.
  case_decide; [subst|done]. destruct (l !! j); [|done]. cbn. by rewrite Hf.
Qed.

Lemma works_update index f d :
  (forall p, piece_work (f p) = piece_work p) -> works_of (update_piece index f d) = works_of d.
Proof. intros Hf. unfold works_of, update_piece. cbn. by apply map_alter_same. Qed.

Lemma works_mark d i : works_of (mark_downloaded d i) = works_of d.
Proof.
  unfold mark_downloaded. destruct (get_piece d i) as [p|]; [|done].
  destruct (downloaded p); [by apply works_update|]. by apply (works_update i (set_downloaded_flag true)).
Qed.

Lemma works_remove d i : works_of (remove_downloaded d i) = works_of d.
Proof.
  unfold remove_downloaded, works_of. destruct (remove_loop i (dl_pieces d) (dl_verified d)) as [l v] eqn:E.
  cbn. revert l v E. generalize (dl_verified d). induction (dl_pieces d) as [|p ps IH]; intros v0 l v E; cbn in E.
  { by injection E as <- <-. }
  destruct (_ =? _).
  - destruct (remove_loop i ps _) as [l' v'] eqn:El in E. injection E as <- <-. cbn. f_equal. by eapply IH.
  - destruct (remove_loop i ps _) as [l' v'] eqn:El in E. injection E as <- <-. cbn. f_equal. by eapply IH.
Qed.

Lemma works_fold {A} (f : DownloadState -> A -> DownloadState) l d :
  (forall d a, works_of (f d a) = works_of d) -> works_of (fold_left f l d) = works_of d.
Proof. intros Hf. revert d. induction l as [|a l IH]; intros d; [done|]. cbn. by rewrite IH. Qed.

Lemma works_unwant d : works_of (snd (unwant_skipped d)) = works_of d.
Proof.
  unfold unwant_skipped, works_of. destruct (unwant_loop _ _ _ _ _) as [[l m] cs] eqn:E. cbn.
  revert l m cs E. generalize 0%nat, (dl_assignments d), (@nil (PeerAddr * BlockRequest)).
  induction (dl_pieces d) as [|p ps IH]; intros k m0 cs0 l m cs E; cbn [unwant_loop] in E.
  { by injection E as <- <- <-. }
  destruct (_ || _).
  - destruct (unwant_loop _ (S k) ps _ _) as [[l' m'] cs'] eqn:El in E. injection E as <- <- <-. cbn. f_equal. by eapply IH.
  - destruct (unwant_loop _ (S k) ps _ _) as [[l' m'] cs'] eqn:El in E. injection E as <- <- <-. cbn. f_equal. by eapply IH.
Qed.

Lemma works_priorities d prios : works_of (snd (apply_file_priorities d prios)) = works_of d.
Proof. unfold apply_file_priorities. by rewrite works_unwant. Qed.

Lemma works_reservations d peer b : works_of (release_peer_reservations d peer b) = works_of d.
Proof.
  unfold release_peer_reservations, works_of. cbn. rewrite map_map. apply map_ext. intros p. case_decide; [|done].
  unfold unreserve. by destruct (_ && _).
Qed.

Lemma works_reserve d i peer d' : try_reserve_piece d i peer = Some d' -> works_of d' = works_of d.
Proof.
  unfold try_reserve_piece. destruct (get_piece d i) as [p|]; [|done]. destruct (_ || _); [done|].
  destruct (reserved p); [done|]. intros [= <-]. by apply works_update.
Qed.

Lemma works_pick fuel choose d peer has prefer r d' :
  pick fuel choose d peer has prefer = Some (r, d') -> works_of d' = works_of d.
Proof.
  induction fuel as [|fuel IH]; [done|]. cbn [pick]. destruct (candidates d has) as [|c cs]; [by intros [= <- <-]|].
  destruct (pick_choice _ _ _ _) as [i|]; [|by intros [= <- <-]].
  destruct (try_reserve_piece d i peer) as [d1|] eqn:E; [|done]. intros [= <- <-]. by eapply works_reserve.
Qed.

Lemma works_unreserve i b d : works_of (update_piece i (unreserve b) d) = works_of d.
Proof. apply works_update. intros p. unfold unreserve. by destruct (_ && _). Qed.

Lemma works_chunk d i start buf peer : works_of (snd (set_chuncks d i start buf peer)) = works_of d.
Proof.
  unfold set_chuncks. destruct (find_piece d i) as [[k p]|] eqn:E; [|done]. case_bool_decide; [done|].
  unfold works_of. cbn. unfold find_piece in E. apply list_find_Some in E as (Hk & _ & _).
  apply list_eq. intros j. rewrite !list_lookup_fmap. destruct (decide (k = j)) as [->|].
  - rewrite list_lookup_insert_eq, Hk by (by eapply lookup_lt_Some). done.
  - by rewrite list_lookup_insert_ne.
Qed.

Lemma works_step d d' : dl_step d d' -> works_of d' = works_of d.
Proof.
  destruct 1 as [st t seq prios|st prios|st i prio r H|st b|st n|st i|st|st i|st i|st|st i|st i
    |st i peer st' H|st fuel choose peer has prefer r st' H|st i|st i peer|st peer|st peer
    |st now req peer|st req peer|st i start buf peer H|st prev next|st bf i|st bf]; try done.
  - unfold install_content. by rewrite works_priorities.
  - apply works_priorities.
  - unfold set_file_priority in H. destruct (_ <=? _)%nat; [done|]. injection H as <-. apply works_priorities.
  - apply works_mark.
  - apply works_fold. intros. apply works_mark.
  - unfold set_downloaded_if_all_chunks. destruct (get_piece st i); [|done]. destruct (_ || _); [done|]. cbn.
    by apply (works_update i (set_downloaded_flag true)).
  - apply works_remove.
  - apply works_fold. intros. apply works_remove.
  - by apply works_update.
  - unfold claim_write. destruct (get_piece st i); [|done]. by apply works_update.
  - by eapply works_reserve.
  - by eapply works_pick.
  - apply works_unreserve.
  - unfold release_reservation. destruct (get_piece st i); [|done]. case_decide; [|done]. apply works_unreserve.
  - apply works_reservations.
  - unfold remove_reserved. apply (works_reservations st peer true).
  - unfold assign_block. destruct (_ !! req); [|done]. case_bool_decide; [done|]. by destruct (_ <=? _)%nat.
  - unfold note_block_received. by destruct (_ !! req).
  - apply works_chunk.
  - unfold apply_peer_have. by destruct (has_piece _ _).
Qed.

(** ** Extensions *)

Section Extensions.
Context (L : Lib) `{!LibOk L}.
#[local] Instance safe_ext : Extension AnyExt := handler_ext L.
Local Abbreviation meta_ok sh := (store_ok (lib_sha1 L) (sh_metadata sh)).

Definition ext_ok (e : AnyExt) : Prop := match e with BoxMetadata u => um_ok u | BoxPex _ => True end.
Definition exts_ok (m : gmap u8 AnyExt) : Prop := forall id e, m !! id = Some e -> ext_ok e.

Lemma ext_handshake_ok info e sh :
  meta_ok sh -> ext_ok e ->
  let '(e', sh') := ext_on_handshake info e sh in meta_ok sh' /\ ext_ok e'.
Proof.
  intros Hs He. destruct e as [u|u]; cbn; [|done].
  destruct (um_on_handshake info u (sh_metadata sh)) as [u' ms'] eqn:E. cbn.
  by destruct (um_on_handshake_ok (lib_sha1 L) _ _ _ _ _ Hs He E) as (? & ? & _).
Qed.

Lemma ext_tick_ok now e sh :
  meta_ok sh -> ext_ok e ->
  let '(_, e', sh') := ext_on_tick now e sh in meta_ok sh' /\ ext_ok e'.
Proof.
  intros Hs He. destruct e as [u|u]; cbn.
  - destruct (um_on_tick now u (sh_metadata sh)) as [[out u'] ms'] eqn:E. cbn.
    by destruct (um_on_tick_ok (lib_sha1 L) _ _ _ _ _ _ Hs He E).
  - destruct (px_on_tick _ _ now u) as [out u']. done.
Qed.

Lemma ext_message_ok now payload e sh :
  meta_ok sh -> ext_ok e ->
  exists out eff e' sh', ext_on_message now payload e sh = Some (out, eff, e', sh') /\ meta_ok sh' /\ ext_ok e'.
Proof.
  intros Hs He. destruct e as [u|u]; cbn.
  - destruct (um_on_message_ok (lib_sha1 L) (lib_peers L) (lib_from_bytes L) (lib_stack L) lib_stack_ok now payload u
      (sh_metadata sh) (sh_states sh) Hs He) as (out & sent & u' & ms' & ps' & E & Hh).
    rewrite E. red_bind. eexists _, _, _, _. split; [done|]. by destruct Hh.
  - destruct (px_on_message _ now payload u) as [added u']. by eexists _, _, _, _.
Qed.

Lemma each_ext_ok {A} (f : AnyExt -> Shared -> A * AnyExt * Shared) (s : ExtensionSession AnyExt) sh :
  (forall e sh, meta_ok sh -> ext_ok e -> let '(_, e', sh') := f e sh in meta_ok sh' /\ ext_ok e') ->
  meta_ok sh -> exts_ok (es_by_local_id s) ->
  let '(_, s', sh') := each_ext (lib_extensions L) f s sh in meta_ok sh' /\ exts_ok (es_by_local_id s').
Proof.
  intros Hf Hs Hm. unfold each_ext.
  assert (Hl : Forall (fun e => ext_ok e.2) (lib_extensions L (es_by_local_id s))).
  { apply Forall_forall. intros [id e] Hin. rewrite (iter_perm (es_by_local_id s)) in Hin.
    apply elem_of_map_to_list in Hin. by eapply Hm. }
  revert Hs Hm. generalize (es_by_local_id s) at 1 3 as m. intros m. revert m sh. generalize (@nil A) at 2 as out. induction Hl as [|[id e] l He _ IH]; intros out m sh Hs Hm; cbn [fold_left]; [done|].
  pose proof (Hf e sh Hs He) as Hfe. destruct (f e sh) as [[a e'] sh']. destruct Hfe. apply IH; [done|].
  intros id' e'' [[<- <-]|[_ Hid]]%lookup_insert_Some; [done|by eapply Hm].
Qed.

Lemma collect_ticks_ok now s sh :
  meta_ok sh -> exts_ok (es_by_local_id s) ->
  let '(_, s', sh') := collect_ticks (lib_extensions L) now s sh in meta_ok sh' /\ exts_ok (es_by_local_id s').
Proof.
  intros Hs Hm. unfold collect_ticks.
  pose proof (each_ext_ok (fun ext sh => let '(out, ext', sh) := ext_on_tick now ext sh in ((ext_name ext, out), ext', sh)) s sh) as H.
  destruct (each_ext _ _ s sh) as [[ticks s'] sh']. apply H; [|done|done].
  intros e sh0 Hs0 He. pose proof (ext_tick_ok now e sh0 Hs0 He). destruct (ext_on_tick now e sh0) as [[o e'] sh'']. done.
Qed.

Lemma handle_extended_ok now ext_id payload s sh :
  meta_ok sh -> exts_ok (es_by_local_id s) ->
  exists out eff s' sh', handle_extended (lib_extensions L) (lib_from_bytes L) now ext_id payload s sh = Some (out, eff, s', sh') /\
    meta_ok sh' /\ exts_ok (es_by_local_id s').
Proof.
  intros Hs Hm. unfold handle_extended. destruct (ext_id =? 0).
  - set (s1 := set_es_peer _ s).
    pose proof (each_ext_ok (fun ext sh => let '(ext, sh) := ext_on_handshake (es_peer s1) ext sh in ((), ext, sh)) s1 sh) as H.
    destruct (each_ext _ _ s1 sh) as [[us s2] sh2]. destruct H as [Hs2 Hm2]; [|done|done|].
    { intros e sh0 Hs0 He. pose proof (ext_handshake_ok (es_peer s1) e sh0 Hs0 He). by destruct (ext_on_handshake _ e sh0). }
    pose proof (collect_ticks_ok now s2 sh2 Hs2 Hm2) as Ht. destruct (collect_ticks _ now s2 sh2) as [[out s3] sh3].
    by eexists _, _, _, _.
  - destruct (es_by_local_id s !! ext_id) as [e|] eqn:E; [|by eexists _, _, _, _].
    destruct (ext_message_ok now payload e sh Hs (Hm _ _ E)) as (out & eff & e' & sh' & Em & Hs' & He'). rewrite Em.
    eexists _, _, _, _. split; [done|]. split; [done|]. cbn [set_by_local_id es_by_local_id].
    intros id e2 [[<- <-]|[_ Hid]]%lookup_insert_Some; [done|by eapply Hm].
Qed.
End Extensions.

(** ** Safe computations *)

Section Safe.
Context (L : Lib) `{!LibOk L} (works : list PieceWork) (base : Storage) (peer : SocketAddr).
#[local] Existing Instance safe_ext.

(** A request for a block of the torrent that passed validation. *)
Definition valid_request (req : BlockRequest) : Prop :=
  is_u32 (br_index req) /\ is_u32 (br_begin req) /\ is_u32 (br_length req) /\
  exists w, works !! Z.to_nat (br_index req) = Some w /\ validate_request req (pw_length w) true = Ok ().

(** A piece with the right length and hash. *)
Definition verified_piece (p : FullPiece) : Prop :=
  is_u32 (fp_index p) /\
  exists w, works !! Z.to_nat (fp_index p) = Some w /\ fp_length p = pw_length w /\ lib_sha1 L (fp_buf p) = pw_hash w.

Record world_ok (w : World) : Prop := {
  wo_dl : wf_download (w_dl w);
  wo_works : works_of (w_dl w) = works;
  wo_storage : wf_disk (w_storage w);
  wo_disk : same_disk base (w_storage w);
  wo_metadata : store_ok (lib_sha1 L) (w_metadata w) }.

Record handler_ok (h : PeerHandler) : Prop := {
  ho_peer : h_peer h = peer;
  ho_queue : (length (h_upload_queue h) <= MAX_UPLOAD_QUEUE)%nat;
  ho_valid : Forall valid_request (h_upload_queue h);
  ho_extensions : exts_ok (es_by_local_id (h_extensions h)) }.

Definition st_ok (s : St) : Prop := world_ok (st_w s) /\ handler_ok (st_h s).

Definition out_ok (o : Output) : Prop := match o with OutPiece p => verified_piece p | _ => True end.

(** [m] returns, keeps the invariant, sends only verified pieces to the storage,
    and its result satisfies [Q]. *)
Definition safe {A} (Q : A -> Prop) (m : M A) : Prop :=
  forall s, st_ok s -> exists r out s', m s = Some (r, out, s') /\ st_ok s' /\ Forall out_ok out /\
    match r with Ok a => Q a | Err _ => True end.

Definition any {A} (_ : A) : Prop := True.

Lemma safe_ret {A} (Q : A -> Prop) a : Q a -> safe Q (ret a).
Proof. intros HQ s Hs. by eexists _, _, _. Qed.

Lemma safe_fail {A} (Q : A -> Prop) e : safe Q (fail e).
Proof. intros s Hs. by eexists _, _, _. Qed.

Lemma safe_bind {A B} (P : A -> Prop) (Q : B -> Prop) (m : M A) (k : A -> M B) :
  safe P m -> (forall a, P a -> safe Q (k a)) -> safe Q (bind m k).
Proof.
  intros Hm Hk s Hs. destruct (Hm s Hs) as (r & out & s1 & E & Hs1 & Ho & HP). unfold bind. rewrite E.
  destruct r as [a|e]; [|by eexists _, _, _]. destruct (Hk a HP s1 Hs1) as (r2 & out2 & s2 & E2 & Hs2 & Ho2 & HQ).
  rewrite E2. eexists _, _, _. split_and!; [done..|by apply Forall_app_2|done].
Qed.

Lemma safe_weaken {A} (P Q : A -> Prop) m : (forall a, P a -> Q a) -> safe P m -> safe Q m.
Proof.
  intros H Hm s Hs. destruct (Hm s Hs) as (r & out & s1 & E & Hs1 & Ho & HP). eexists _, _, _. split_and!; [done..|].
  destruct r; auto.
Qed.

Lemma safe_hget {A} (Q : A -> Prop) f : (forall h, handler_ok h -> Q (f h)) -> safe Q (hget f).
Proof. intros H s [Hw Hh]. eexists _, _, _. split_and!; [done|done|constructor|by apply H]. Qed.

Lemma safe_wget {A} (Q : A -> Prop) f : (forall w, world_ok w -> Q (f w)) -> safe Q (wget f).
Proof. intros H s [Hw Hh]. eexists _, _, _. split_and!; [done|done|constructor|by apply H]. Qed.

Lemma safe_hmod Q f : Q () -> (forall h, handler_ok h -> handler_ok (f h)) -> safe Q (hmod f).
Proof. intros HQ H s [Hw Hh]. eexists _, _, _. split_and!; [done|split; cbn; auto|constructor|done]. Qed.

Lemma safe_wmod Q f : Q () -> (forall w, world_ok w -> world_ok (f w)) -> safe Q (wmod f).
Proof. intros HQ H s [Hw Hh]. eexists _, _, _. split_and!; [done|split; cbn; auto|constructor|done]. Qed.

Lemma safe_emit (Q : () -> Prop) o : Q () -> out_ok o -> safe Q (emit o).
Proof. intros HQ Ho s Hs. eexists _, _, _. split_and!; [done|done|by apply Forall_singleton|done]. Qed.

Lemma safe_when Q b m : Q () -> safe Q m -> safe Q (when b m).
Proof. intros HQ Hm. destruct b; [done|by apply safe_ret]. Qed.

Lemma safe_for_each {A} (Q : () -> Prop) (P : A -> Prop) l f :
  Q () -> Forall P l -> (forall a, P a -> safe any (f a)) -> safe Q (for_each l f).
Proof.
  intros HQ Hl Hf. induction Hl as [|a l Ha _ IH]; cbn [for_each]; [by apply safe_ret|].
  eapply safe_bind; [by apply Hf|by intros [] _].
Qed.

Lemma safe_dget {A} (Q : A -> Prop) f : (forall d, wf_download d -> works_of d = works -> Q (f d)) -> safe Q (dget f).
Proof. intros H. apply safe_wget. intros w []. by apply H. Qed.

Lemma set_dl_ok d w : wf_download d -> works_of d = works -> world_ok w -> world_ok (set_dl d w).
Proof. by intros ? ? []. Qed.

Lemma safe_dmod (Q : () -> Prop) f : Q () -> (forall d, wf_download d -> wf_download (f d) /\ works_of (f d) = works_of d) -> safe Q (dmod f).
Proof. intros HQ H. apply safe_wmod; [done|]. intros w Hw. destruct (H (w_dl w) (wo_dl w Hw)). apply set_dl_ok; [done| |done]. by rewrite <-(wo_works w Hw). Qed.

Lemma safe_dstep (Q : () -> Prop) f : Q () -> (forall d, dl_step d (f d)) -> safe Q (dmod f).
Proof. intros HQ H. apply safe_dmod; [done|]. intros d Hd. split; [by eapply dl_step_wf|by apply works_step]. Qed.

Lemma safe_dop {A} (Q : A -> Prop) f :
  (forall d, wf_download d -> works_of d = works -> Q (fst (f d))) -> (forall d, dl_step d (snd (f d))) -> safe Q (dop f).
Proof.
  intros HQ H. apply (safe_bind Q); [by apply safe_dget|]. intros a Ha.
  eapply safe_bind; [by apply (safe_dstep any)|]. intros _ _. by apply safe_ret.
Qed.
End Safe.

(** ** The operations of the handler *)

Create HintDb safe.

(** Follow the structure of a computation, with no condition on intermediate
    results. *)
Ltac safe_go :=
  repeat lazymatch goal with
  | |- safe _ _ _ _ _ (bind _ _) => apply (safe_bind _ _ _ _ any); [|intros ? _]
  | |- safe _ _ _ _ _ (ret _) => apply safe_ret; done
  | |- safe _ _ _ _ _ (fail _) => apply safe_fail
  | |- safe _ _ _ _ _ (hget _) => apply safe_hget; done
  | |- safe _ _ _ _ _ (wget _) => apply safe_wget; done
  | |- safe _ _ _ _ _ (dget _) => apply safe_dget; done
  | |- safe _ _ _ _ _ (emit _) => apply safe_emit; done
  | |- safe _ _ _ _ _ (when _ _) => apply safe_when; [done|]
  | |- safe _ _ _ _ _ (for_each _ _) => apply (safe_for_each _ _ _ _ _ any); [done|by apply Forall_true|intros ? _]
  | |- safe _ _ _ _ _ (match ?x with _ => _ end) => destruct x
  | |- safe _ _ _ _ _ (hmod _) => apply safe_hmod; [done|by intros ? []]
  | |- safe _ _ _ _ _ (dmod _) => first [solve [apply safe_dstep; [done|intros; constructor]] | solve [eauto with safe]]
  | |- safe _ _ _ _ _ _ => solve [eauto with safe]
  end.

Section Operations.
Context (L : Lib) `{!LibOk L} (works : list PieceWork) (base : Storage) (peer : SocketAddr).
Local Abbreviation safe := (safe L works base peer).

Lemma safe_send m : safe any (send m).
Proof. unfold send. safe_go. Qed.

Lemma safe_states (f : World -> PeerStates) : safe any (wmod (fun w => set_ps (f w) w)).
Proof. apply safe_wmod; [done|]. by intros w []. Qed.

Lemma safe_upd_state f : safe any (upd_state f).
Proof. unfold upd_state. safe_go. apply safe_states. Qed.

Lemma safe_own_state : safe any own_state.
Proof. unfold own_state. safe_go. Qed.

Lemma safe_pmod f : safe any (pmod f).
Proof. unfold pmod. safe_go. Qed.

Lemma safe_bitfields prev next : safe any (dmod (fun d => apply_peer_bitfield d prev next)).
Proof. apply safe_dstep; [done|]. intros. constructor. Qed.

Lemma safe_release index : safe any (release index).
Proof. unfold release. safe_go. Qed.

Lemma safe_unassign p : safe any (dmod (fun d => unassign_peer_blocks d p)).
Proof. apply safe_dmod; [done|]. intros d Hd. split; [by apply unassign_peer_blocks_wf|done]. Qed.
#[local] Hint Resolve safe_send safe_states safe_upd_state safe_own_state safe_pmod safe_bitfields safe_release safe_unassign : safe.

Lemma safe_fast_ext : safe any fast_ext.
Proof. unfold fast_ext. safe_go. Qed.

Lemma safe_replace_bitfield next : safe any (replace_bitfield next).
Proof. unfold replace_bitfield. safe_go. Qed.

Lemma safe_apply_have index : safe any (apply_have index).
Proof.
  unfold apply_have. safe_go. apply safe_dop; [done|]. intros d.
  pose proof (st_have d (ps_bitfield p) index) as H. by destruct (apply_peer_have d _ index) as [[b bf] d'].
Qed.
#[local] Hint Resolve safe_fast_ext safe_replace_bitfield safe_apply_have : safe.

Lemma safe_apply_have_hint : safe any apply_have_hint.
Proof. unfold apply_have_hint. safe_go. Qed.

Lemma safe_record_have_index index : safe any (record_have_index index).
Proof. unfold record_have_index. safe_go. Qed.

Lemma safe_send_post_metadata_bitfield : safe any send_post_metadata_bitfield.
Proof. unfold send_post_metadata_bitfield. safe_go. Qed.

Lemma safe_set_fast_extension b : safe any (set_fast_extension b).
Proof. unfold set_fast_extension. safe_go. Qed.

Lemma safe_set_extension_protocol b : safe any (set_extension_protocol b).
Proof. unfold set_extension_protocol. safe_go. Qed.

Lemma safe_require_fast : safe any require_fast.
Proof. unfold require_fast. safe_go. Qed.

Lemma safe_send_reject req : safe any (send_reject req).
Proof. unfold send_reject. safe_go. Qed.

Lemma safe_remove_outstanding req : safe any (remove_outstanding req).
Proof. unfold remove_outstanding. safe_go. Qed.

Lemma safe_set_snubbed b : safe any (PeerHandler.set_snubbed b).
Proof. unfold PeerHandler.set_snubbed. safe_go. Qed.
#[local] Hint Resolve safe_apply_have_hint safe_record_have_index safe_send_post_metadata_bitfield safe_set_fast_extension
  safe_set_extension_protocol safe_require_fast safe_send_reject safe_remove_outstanding safe_set_snubbed : safe.

Lemma filter_queue_ok (P : BlockRequest -> Prop) `{!forall r, Decision (P r)} (q : list BlockRequest) :
  (length q <= MAX_UPLOAD_QUEUE)%nat /\ Forall (valid_request works) q ->
  (length (filter P q) <= MAX_UPLOAD_QUEUE)%nat /\ Forall (valid_request works) (filter P q).
Proof. intros [Hl Hf]. split; [pose proof (length_filter P q); lia|].
  rewrite Forall_forall in *. intros r [_ Hr]%list_elem_of_filter. by apply Hf.
Qed.

Lemma set_queue_ok q h :
  (length q <= MAX_UPLOAD_QUEUE)%nat /\ Forall (valid_request works) q -> handler_ok works peer h -> handler_ok works peer (set_h_queue q h).
Proof. by intros [] []. Qed.

Lemma safe_reject_upload_queue b : safe any (reject_upload_queue b).
Proof.
  unfold reject_upload_queue. apply (safe_bind _ _ _ _ any); [safe_go|intros fast _]. destruct fast; cbn [negb].
  - apply (safe_bind _ _ _ _ any); [safe_go|]. intros allowed _.
    apply (safe_bind _ _ _ _ (fun q => (length q <= MAX_UPLOAD_QUEUE)%nat /\ Forall (valid_request works) q)).
    { apply safe_hget. by intros h []. }
    intros q Hq. apply (safe_bind _ _ _ _ any); [safe_go|]. intros _ _.
    apply safe_hmod; [done|]. intros h Hh. apply set_queue_ok; [|done]. by apply filter_queue_ok.
  - apply safe_hmod; [done|]. intros h Hh. apply set_queue_ok; [|done]. split; [cbn; lia|constructor].
Qed.

Lemma safe_requeue_outstanding : safe any (requeue_outstanding L).
Proof. unfold requeue_outstanding. safe_go. Qed.

Lemma safe_on_reject_request req : safe any (on_reject_request req).
Proof. unfold on_reject_request. safe_go. Qed.

Lemma safe_on_delivery_progress now n : safe any (on_delivery_progress now n).
Proof. unfold on_delivery_progress. safe_go. Qed.

Lemma safe_maybe_snub now : safe any (maybe_snub now).
Proof. unfold maybe_snub. safe_go. Qed.

Lemma safe_expire_stale_requests now : safe any (expire_stale_requests L now).
Proof. unfold expire_stale_requests. safe_go. Qed.

Lemma safe_peer_bitfield : safe any peer_bitfield.
Proof. unfold peer_bitfield. safe_go. Qed.

Lemma safe_peer_has_needed_piece : safe any peer_has_needed_piece.
Proof. unfold peer_has_needed_piece. safe_go. Qed.

Lemma safe_needed_allowed_fast_pieces : safe any (needed_allowed_fast_pieces L).
Proof. unfold needed_allowed_fast_pieces. safe_go. Qed.
#[local] Hint Resolve safe_reject_upload_queue safe_requeue_outstanding safe_on_reject_request safe_on_delivery_progress
  safe_maybe_snub safe_expire_stale_requests safe_peer_bitfield safe_peer_has_needed_piece safe_needed_allowed_fast_pieces : safe.

Lemma safe_refresh_interest now : safe any (refresh_interest L now).
Proof. unfold refresh_interest. safe_go. Qed.

Lemma safe_cancel_other_requesters others req : safe any (cancel_other_requesters others req).
Proof. unfold cancel_other_requesters. safe_go. Qed.

Lemma safe_cancel_unwanted_outstanding : safe any (cancel_unwanted_outstanding L).
Proof. unfold cancel_unwanted_outstanding. safe_go. Qed.

Lemma safe_drain_download_cancels : safe any drain_download_cancels.
Proof. unfold drain_download_cancels. safe_go. Qed.

Lemma safe_own_am_choking : safe any own_am_choking.
Proof. unfold own_am_choking. safe_go. Qed.
#[local] Hint Resolve safe_refresh_interest safe_cancel_other_requesters safe_cancel_unwanted_outstanding
  safe_drain_download_cancels safe_own_am_choking : safe.

(** *** Requests *)

Lemma works_lookup d index p :
  works_of d = works -> get_piece d index = Some p -> works !! Z.to_nat index = Some (piece_work p).
Proof. intros <- H. unfold works_of. rewrite list_lookup_fmap. unfold get_piece in H. by rewrite H. Qed.

Lemma validate_have req len have : validate_request req len have = Ok () -> validate_request req len true = Ok ().
Proof. unfold validate_request. by destruct have. Qed.

Lemma payload_u32 payload req :
  wf_bytes payload -> br_from_payload payload = Some req ->
  is_u32 (br_index req) /\ is_u32 (br_begin req) /\ is_u32 (br_length req).
Proof.
  intros Hw. unfold br_from_payload. destruct (_ <? _)%nat; [done|].
  destruct (slice payload 0 4) as [i|] eqn:Ei; [|done]. destruct (slice payload 4 8) as [b|] eqn:Eb; [|done].
  destruct (slice payload 8 12) as [l|] eqn:El; [|done]. red_bind. intros [= <-]. cbn.
  assert (Hr : forall x a, slice payload a (a + 4) = Some x -> is_u32 (of_be x)).
  { intros x a Hx. pose proof (slice_length _ _ _ _ Hx) as Hl. pose proof (slice_wf _ _ _ _ Hw Hx) as Hwx.
    pose proof (of_be_range x Hwx) as Ho. rewrite Hl in Ho. replace (a + 4 - a)%nat with 4%nat in Ho by lia.
    unfold is_u32, U32_MAX. change (256 ^ Z.of_nat 4) with 4294967296 in Ho. lia. }
  split_and!; [by apply (Hr i 0%nat)|by apply (Hr b 4%nat)|by apply (Hr l 8%nat)].
Qed.

Lemma safe_on_incoming_request payload : wf_bytes payload -> safe any (on_incoming_request payload).
Proof.
  intros Hw. unfold on_incoming_request. destruct (br_from_payload payload) as [req|] eqn:Er; [|safe_go].
  pose proof (payload_u32 _ _ Hw Er) as (Hi & Hb & Hl).
  apply (safe_bind _ _ _ _ (fun p => forall q, p = Some q -> works !! Z.to_nat (br_index req) = Some (piece_work q))).
  { apply safe_dget. intros d Hd Hwk q Hq. by eapply works_lookup. }
  intros [p|] Hp; [|safe_go]. specialize (Hp p eq_refl).
  apply (safe_bind _ _ _ _ any); [safe_go|intros have _]. apply (safe_bind _ _ _ _ any); [safe_go|intros fast _].
  destruct (validate_request req _ have) as [[]|[]] eqn:Ev; [|safe_go..].
  assert (Hv : valid_request works req) by (split_and!; [done..|]; eexists; split; [done|by eapply validate_have]).
  apply (safe_bind _ _ _ _ any); [safe_go|intros downloading _]. destruct downloading; cbn [negb]; [|safe_go].
  apply (safe_bind _ _ _ _ any); [safe_go|intros choking _].
  apply (safe_bind _ _ _ _ any); [unfold is_allowed_fast_for_peer; safe_go|intros allowed _].
  destruct (choking && _).
  { apply (safe_bind _ _ _ _ any); [safe_go|intros _ _]. apply (safe_bind _ _ _ _ any); [safe_go|intros storm _].
    destruct (on_choked_request storm) as [storm' r]. safe_go. }
  apply (safe_bind _ _ _ _ any); [safe_go|intros _ _].
  apply (safe_bind _ _ _ _ (fun q => (length q <= MAX_UPLOAD_QUEUE)%nat /\ Forall (valid_request works) q)).
  { apply safe_hget. by intros h []. }
  intros q [Hq Hf]. destruct (Nat.leb_spec MAX_UPLOAD_QUEUE (length q)); [safe_go|].
  apply safe_hmod; [done|]. intros h Hh. apply set_queue_ok; [|done].
  split; [rewrite length_app; cbn; lia|by apply Forall_app_2, Forall_singleton].
Qed.

(** *** Extended messages *)

Lemma set_extensions_ok s h :
  exts_ok (es_by_local_id s) -> handler_ok works peer h -> handler_ok works peer (set_h_extensions s h).
Proof. by intros ? []. Qed.

Lemma set_shared_ok sh w :
  store_ok (lib_sha1 L) (sh_metadata sh) -> world_ok L works base w -> world_ok L works base (set_metadata (sh_metadata sh) (set_ps (sh_states sh) w)).
Proof. by intros ? []. Qed.

Lemma safe_on_extended now ext_id payload : safe any (on_extended L now ext_id payload).
Proof.
  unfold on_extended. apply (safe_bind _ _ _ _ (fun s => exts_ok (es_by_local_id s))); [by apply safe_hget; intros h []|].
  intros session Hs. apply (safe_bind _ _ _ _ (world_ok L works base)); [by apply safe_wget|]. intros w Hw.
  destruct (handle_extended_ok L now ext_id payload session (mkShared (w_metadata w) (w_ps w) (w_piece_hashes w)))
    as (out & eff & s' & sh' & E & Hm & Hs'); [apply Hw|done|]. unfold safe_ext in E. rewrite E.
  apply (safe_bind _ _ _ _ any); [by apply safe_hmod; [done|]; intros h; apply set_extensions_ok|intros _ _].
  apply (safe_bind _ _ _ _ any); [by apply safe_wmod; [done|]; intros w'; apply set_shared_ok|intros _ _].
  safe_go. destruct a as [p r|l]; by apply safe_emit.
Qed.

(** *** Pieces *)

Definition received_ok (r : Received) : Prop :=
  match r with
  | Handled => True
  | Verify index piece _ => is_u32 index /\ works !! Z.to_nat index = Some piece
  end.

Lemma all_chunks_piece d index p :
  fst (set_downloaded_if_all_chunks d index) = Some p -> exists q, get_piece d index = Some q /\ piece_work p = piece_work q.
Proof.
  unfold set_downloaded_if_all_chunks. destruct (get_piece d index) as [q|] eqn:E; [|done].
  destruct (_ || _); [done|]. cbn [fst]. unfold get_piece, update_piece in *. cbn [set_pieces dl_pieces].
  rewrite list_lookup_alter_eq, E. intros [= <-]. by exists q.
Qed.

Lemma safe_on_piece now chunk :
  is_u32 (pc_index chunk) -> is_u32 (pc_start chunk) -> safe received_ok (on_piece L now chunk).
Proof.
  intros Hi Hs. unfold on_piece. apply (safe_bind _ _ _ _ any); [safe_go|intros _ _].
  apply (safe_bind _ _ _ _ any); [safe_go|intros self _].
  apply (safe_bind _ _ _ _ any); [by apply safe_dop; [done|intros; constructor]|intros others _].
  do 5 (apply (safe_bind _ _ _ _ any); [safe_go|intros _ _]).
  apply (safe_bind _ _ _ _ any); [by apply safe_dstep; [done|intros; by constructor]|intros _ _].
  apply (safe_bind _ _ _ _ (fun full => forall p, full = Some p -> works !! Z.to_nat (pc_index chunk) = Some (piece_work p))).
  { apply safe_dop; [|intros; constructor]. intros d Hd Hw p Hp. apply all_chunks_piece in Hp as (q & Hq & ->). by eapply works_lookup. }
  intros [p|] Hp.
  - apply safe_ret. split; [done|]. by apply Hp.
  - apply (safe_bind _ _ _ _ any); [safe_go|intros _ _]. by apply safe_ret.
Qed.

Lemma safe_blame_contributors now l : safe any (blame_contributors now l).
Proof.
  unfold blame_contributors. set (sole := (_ =? _)%nat). clearbody sole.
  induction l as [|p l IH]; cbn [fold_right]; [safe_go|].
  apply (safe_bind _ _ _ _ any); [safe_go|intros w _]. destruct (record_hash_failure now p sole (w_ps w)) as [[b sent] ps].
  apply (safe_bind _ _ _ _ any); [by apply (safe_states (fun _ => ps))|intros _ _].
  apply (safe_bind _ _ _ _ any); [safe_go|intros _ _]. apply (safe_bind _ _ _ _ any); [safe_go|intros self _].
  apply (safe_bind _ _ _ _ any); [done|intros self' _]. safe_go.
Qed.
#[local] Hint Resolve safe_blame_contributors safe_on_extended : safe.

Lemma safe_on_verified now index piece buf :
  is_u32 index -> works !! Z.to_nat index = Some piece ->
  safe any (on_verified L now index piece buf (bool_decide (lib_sha1 L buf = pw_hash piece))).
Proof.
  intros Hi Hw. unfold on_verified. case_bool_decide as Hsha.
  - apply (safe_bind _ _ _ _ any); [by apply safe_dop; [done|intros; constructor]|intros claimed _].
    destruct claimed; [|safe_go]. apply (safe_bind _ _ _ _ any); [safe_go|intros _ _].
    apply (safe_bind _ _ _ _ any); [safe_go|intros is_open _]. destruct is_open; [|safe_go].
    apply (safe_bind _ _ _ _ any); [|intros _ _; safe_go]. apply safe_emit; [done|]. split; [done|]. by exists piece.
  - safe_go.
Qed.

(** *** Messages *)

Lemma safe_handled (m : M ()) : safe any m -> safe received_ok (m >>> ret Handled).
Proof. intros Hm. eapply safe_bind; [done|]. intros _ _. by apply safe_ret. Qed.

(** A message as the frame decoder yields it. *)
Definition received (m : Message) : Prop :=
  wf_message m /\ match m with Request p => wf_bytes p | _ => True end.

Lemma safe_on_received_message now m : received m -> safe received_ok (on_received_message L now m).
Proof.
  intros [Hm Hp]. unfold on_received_message. apply (safe_bind _ _ _ _ any); [safe_go|intros _ _].
  destruct m; try (by apply safe_ret); try (apply safe_on_piece; apply Hm);
    try (apply safe_handled; by apply safe_on_incoming_request); safe_go; unfold record_have_hint; safe_go.
  apply safe_hmod; [done|]. intros h [Hpe Hq Hv He]. apply set_queue_ok; [|done]. by apply filter_queue_ok.
Qed.

(** ** The tasks *)

Lemma safe_block_request_start now req : safe any (block_request_start L now req).
Proof. unfold block_request_start, acquire_enter. safe_go. Qed.

Lemma safe_block_request_issue now req : safe any (block_request_issue now req).
Proof. unfold block_request_issue. safe_go. apply safe_dop; [done|intros; constructor]. Qed.
#[local] Hint Resolve safe_block_request_start safe_block_request_issue : safe.

Lemma safe_piece_loop now piece rest : safe any (piece_loop L now piece rest).
Proof. induction rest as [|req rest IH]; cbn [piece_loop]; safe_go. Qed.

Lemma safe_blocks_loop now rest : safe any (blocks_loop L now rest).
Proof. induction rest as [|req rest IH]; cbn [blocks_loop]; safe_go. Qed.
#[local] Hint Resolve safe_piece_loop safe_blocks_loop : safe.

Lemma safe_request_endgame_blocks now : safe any (request_endgame_blocks L now).
Proof. unfold request_endgame_blocks. safe_go. Qed.

(** Nobody else reserves within a step, so [pick] needs one round. *)
Lemma safe_pick_piece has prefer : safe any (pick_piece L has prefer).
Proof.
  unfold pick_piece. apply (safe_bind _ _ _ _ any); [safe_go|intros self _].
  apply (safe_bind _ _ _ _ (fun d => wf_download d /\ works_of d = works)); [by apply safe_dget|]. intros d [Hd Hw].
  assert (H : exists r d', pick 1 (lib_choose L) d self has prefer = Some (r, d')).
  { destruct (candidates d has) as [|c cs] eqn:Ec; [cbn [pick]; rewrite Ec; by eexists _, _|].
    destruct (pick_reserves (lib_choose L) d self has prefer 0 c cs Hd Ec) as (i & E & _). by eexists _, _. }
  destruct H as (r & d' & E). rewrite E. apply (safe_bind _ _ _ _ any); [|intros _ _; safe_go].
  apply safe_wmod; [done|]. intros w Hwo. apply set_dl_ok; [| |done].
  - eapply (dl_step_wf d); [done|]. by eapply st_pick.
  - rewrite <-Hw. by eapply works_pick.
Qed.

Lemma safe_request_picked now picked otherwise : safe any otherwise -> safe any (request_picked L now picked otherwise).
Proof. intros H. unfold request_picked, request_piece_blocks. safe_go; done. Qed.
#[local] Hint Resolve safe_request_endgame_blocks safe_pick_piece safe_request_picked : safe.

Lemma safe_requester_top now : safe any (requester_top L now).
Proof.
  unfold requester_top. apply (safe_bind _ _ _ _ any); [safe_go|intros downloading _]. destruct downloading; cbn [negb]; [|safe_go].
  do 5 (apply (safe_bind _ _ _ _ any); [safe_go|intros _ _]). apply (safe_bind _ _ _ _ any); [safe_go|intros complete _].
  destruct complete; [safe_go|]. apply (safe_bind _ _ _ _ any); [safe_go|intros choked _].
  apply (safe_bind _ _ _ _ any); [safe_go|intros allowed _]. apply (safe_bind _ _ _ _ any); [safe_go|intros endgame _].
  apply (safe_bind _ _ _ _ any); [safe_go|intros snub _]. apply (safe_bind _ _ _ _ any); [safe_go|intros needed _].
  destruct (_ && _); [safe_go|]. destruct choked; cbn [andb].
  - set (rest := if endgame && _ then _ else _). assert (Hrest : safe any rest) by (unfold rest; safe_go). clearbody rest.
    destruct (_ && _); [|done]. apply (safe_bind _ _ _ _ any); [safe_go|intros count _].
    apply (safe_bind _ _ _ _ any); [safe_go|intros picked _]. by apply safe_request_picked.
  - destruct endgame; [safe_go|]. destruct snub; [safe_go|]. apply (safe_bind _ _ _ _ any); [safe_go|intros has _].
    apply (safe_bind _ _ _ _ any); [safe_go|intros pref _]. apply (safe_bind _ _ _ _ any); [safe_go|intros picked _].
    apply safe_request_picked. safe_go.
Qed.
#[local] Hint Resolve safe_requester_top : safe.

Lemma safe_requester_step now pc : safe any (requester_step L now pc).
Proof.
  destruct pc as [| | |k req|k req]; cbn [requester_step]; try (safe_go; fail).
  all: safe_go; try (unfold resume_requests; safe_go; fail).
  all: eauto using safe_apply_have_hint, safe_send_post_metadata_bitfield.
Qed.

Lemma safe_requester_timeout now pc : safe any (requester_timeout L now pc).
Proof. destruct pc; cbn [requester_timeout]; unfold acquire_enter; safe_go. Qed.

Definition up_ok (t : Torrent) (capacity : nat) (pc : UpPc) : Prop :=
  match pc with
  | UpTop | UpLoop => True
  | UpRead req | UpBandwidth req _ => valid_request works req
  | UpReading req r => valid_request works req /\ reading_ok t capacity (br_index req) (br_begin req) (br_length req) r
  end.
Local Abbreviation up_base := (up_ok (s_torrent base) (s_cache_capacity base)).

Lemma same_disk_trans a b c : same_disk a b -> same_disk b c -> same_disk a c.
Proof. unfold same_disk. intros (-> & -> & ->) (-> & -> & ->). done. Qed.

Lemma set_storage_ok st w : wf_disk st -> same_disk base st -> world_ok L works base w -> world_ok L works base (set_storage st w).
Proof. by intros ? ? []. Qed.

Lemma safe_set_storage st : wf_disk st -> same_disk base st -> safe any (wmod (set_storage st)).
Proof. intros Hd Hs. apply safe_wmod; [done|]. intros w. by apply set_storage_ok. Qed.

Lemma safe_uploader_step pc : up_base pc -> safe up_base (uploader_step pc).
Proof.
  intros Hpc. unfold uploader_step. apply (safe_bind _ _ _ _ any); [safe_go|intros downloading _].
  destruct pc as [| |req|req r|req data].
  - destruct downloading; cbn [negb]; (apply (safe_bind _ _ _ _ any); [safe_go|intros x _]); apply safe_ret; [by destruct x|done].
  - destruct downloading; cbn [negb]; [|apply (safe_bind _ _ _ _ any); [safe_go|intros x _]; by apply safe_ret].
    apply (safe_bind _ _ _ _ any); [safe_go|intros choking _]. apply (safe_bind _ _ _ _ any); [safe_go|intros _ _].
    apply (safe_bind _ _ _ _ (fun q => (length q <= MAX_UPLOAD_QUEUE)%nat /\ Forall (valid_request works) q)).
    { apply safe_hget. by intros h []. }
    intros [|req rest] [Hl Hf]; [by apply safe_ret|]. apply Forall_cons in Hf as [Hr Hf]. cbn [length] in Hl.
    apply (safe_bind _ _ _ _ any).
    { apply safe_hmod; [done|]. intros h Hh. apply set_queue_ok; [|done]. split; [lia|done]. }
    intros _ _. apply (safe_bind _ _ _ _ any); [unfold is_allowed_fast_for_peer; safe_go|intros allowed _].
    destruct (_ && _); [|by apply safe_ret]. apply (safe_bind _ _ _ _ any); [safe_go|intros _ _; by apply safe_ret].
  - apply (safe_bind _ _ _ _ (world_ok L works base)); [by apply safe_wget|]. intros w Hw. pose proof Hpc as (Hi & Hb & Hl & _).
    destruct (read_begin_ok (w_storage w) (br_index req) (br_begin req) (br_length req)) as (r & st' & E & Hst & Hsame & Hr); [apply Hw|done..|].
    rewrite E. pose proof (wo_disk _ _ _ _ Hw) as Hd. apply (safe_bind _ _ _ _ any); [apply safe_set_storage; [done|by eapply same_disk_trans]|].
    intros _ _. destruct r as [e|data|r]; [apply (safe_bind _ _ _ _ any); [safe_go|intros _ _]; by apply safe_ret|by apply safe_ret|].
    apply safe_ret. split; [done|]. destruct Hd as (Ht & _ & Hc). by rewrite <- Ht, <- Hc.
  - destruct (rg_ranges r) eqn:Er; [|by apply safe_ret]. apply (safe_bind _ _ _ _ (world_ok L works base)); [by apply safe_wget|]. intros w Hw.
    pose proof (wo_disk _ _ _ _ Hw) as Hd. pose proof Hd as (Ht & _ & Hc). destruct Hpc as [Hv Hr]. rewrite <- Ht, <- Hc in Hr.
    destruct (read_end_ok (w_storage w) _ _ _ r (wo_storage _ _ _ _ Hw) Hr Er) as (data & st' & E & Hst & Hsame). rewrite E.
    apply (safe_bind _ _ _ _ any); [apply safe_set_storage; [done|by eapply same_disk_trans]|]. intros _ _. by apply safe_ret.
  - destruct downloading; cbn [negb].
    + apply (safe_bind _ _ _ _ any); [safe_go|intros _ _]. apply (safe_bind _ _ _ _ any); [by apply safe_wmod; [done|]; intros w []|intros _ _].
      apply (safe_bind _ _ _ _ any); [safe_go|intros _ _]. by apply safe_ret.
    + apply (safe_bind _ _ _ _ any); [safe_go|intros _ _]. by apply safe_ret.
Qed.

Lemma safe_uploader_read n pc : up_base pc -> safe up_base (uploader_read n pc).
Proof.
  intros Hpc. destruct pc as [| |req|req r|req data]; try by apply safe_ret. cbn [uploader_read].
  apply (safe_bind _ _ _ _ (world_ok L works base)); [by apply safe_wget|]. intros w Hw. destruct Hpc as [Hv Hr].
  pose proof (wo_disk _ _ _ _ Hw) as (Ht & _ & Hc).
  assert (Hrej : safe up_base (send_reject req >>> ret UpLoop)) by (apply (safe_bind _ _ _ _ any); [safe_go|intros _ _; by apply safe_ret]).
  destruct n as [n|]; [|done]. rewrite <- Ht, <- Hc in Hr.
  destruct (read_some_ok (w_storage w) n _ _ _ r (wo_storage _ _ _ _ Hw) Hr) as (o & E & Ho). rewrite E. destruct o as [r'|]; [|done].
  apply safe_ret. split; [done|]. rewrite <- Ht, <- Hc. by apply Ho.
Qed.

Lemma safe_extension_tick now : safe any (extension_tick L now).
Proof.
  unfold extension_tick. apply (safe_bind _ _ _ _ (fun s => exts_ok (es_by_local_id s))); [by apply safe_hget; intros h []|].
  intros session Hs. apply (safe_bind _ _ _ _ (world_ok L works base)); [by apply safe_wget|]. intros w Hw.
  pose proof (collect_ticks_ok L now session (mkShared (w_metadata w) (w_ps w) (w_piece_hashes w))) as Ht.
  unfold session_on_tick, tasks_ext. unfold safe_ext in Ht. destruct (collect_ticks _ now session _) as [[out s'] sh'].
  destruct Ht as [Hm Hs']; [apply Hw|done|].
  apply (safe_bind _ _ _ _ any); [by apply safe_hmod; [done|]; intros h; apply set_extensions_ok|intros _ _].
  apply (safe_bind _ _ _ _ any); [by apply safe_wmod; [done|]; intros w'; apply set_shared_ok|intros _ _].
  safe_go.
Qed.
End Operations.

(** The pieces of a new connection's session start well formed. *)
Lemma bind_exts_ok ctx (registry : list (RegisteredExtension AnyExt)) (E : Extension AnyExt) :
  (forall r, r ∈ registry -> ext_ok (re_factory r ctx)) -> exts_ok (es_by_local_id (ext_bind ctx registry)).
Proof.
  intros Hr. unfold ext_bind. set (s0 := mkSession ∅ ∅ pi_default).
  assert (H0 : exts_ok (es_by_local_id s0)) by (intros id e He; cbn in He; by rewrite lookup_empty in He). clearbody s0.
  revert s0 H0. induction registry as [|r rs IH]; intros s0 H0; [done|]. cbn [fold_left].
  apply IH; [by intros r' ?; apply Hr; right|]. destruct (negb _); [done|]. cbn [es_by_local_id].
  intros id e [[<- <-]|[_ Hid]]%lookup_insert_Some; [apply Hr; left|by eapply H0].
Qed.

(** ** The net *)

Section NetSafe.
Context (L : Lib) `{!LibOk L} (lim : Limits) (info_hash : bytes) (registry : list (RegisteredExtension AnyExt)).
Context (peer_iter : gmap SocketAddr PeerState -> list (SocketAddr * PeerState)) (works : list PieceWork).
Context (start : Storage).
Context (Hreg : forall r ctx, r ∈ registry -> ext_ok (re_factory r ctx)).

Record conn_ok (peer : SocketAddr) (c : Conn) : Prop := {
  co_handler : handler_ok works peer (c_h c);
  co_reader : match c_rd c with RdIdle => True | RdVerify index piece _ => is_u32 index /\ works !! Z.to_nat index = Some piece end;
  co_uploader : up_ok works (s_torrent start) (s_cache_capacity start) (c_up c) }.

(** What the files hold of a piece: what they held at the start, or a piece with the hash
    of the torrent, unless it is being written or its write has broken off. *)
Definition piece_on_disk (n : Net) (i : Z) : Prop :=
  piece_bytes (w_storage (n_world n)) i = piece_bytes start i \/
  (exists w, works !! Z.to_nat i = Some w /\ lib_sha1 L (piece_bytes (w_storage (n_world n)) i) = pw_hash w) \/
  (exists writing, dw_writing (n_writer n) = Some writing /\ wg_index writing = i) \/
  i ∈ dw_failed (n_writer n).

Definition write_ok (st : Storage) (writing : Writing) : Prop :=
  writing_ok st writing /\ exists w, works !! Z.to_nat (wg_index writing) = Some w /\ lib_sha1 L (wg_buf writing) = pw_hash w.

Record net_ok (n : Net) : Prop := {
  no_world : world_ok L works (w_storage (n_world n)) (n_world n);
  no_conns : forall peer c, n_conns n !! peer = Some c -> conn_ok peer c;
  no_pieces : Forall (verified_piece L works) (n_pieces n);
  no_torrent : s_torrent (w_storage (n_world n)) = s_torrent start;
  no_capacity : s_cache_capacity (w_storage (n_world n)) = s_cache_capacity start;
  no_writing : forall writing, dw_writing (n_writer n) = Some writing -> write_ok (w_storage (n_world n)) writing;
  no_disk : forall i, valid_piece (s_torrent start) i -> piece_on_disk n i }.

(** What the frame decoder yields. *)
Definition event_ok (ev : net_event) : Prop := match ev with NMessage _ _ m => received m | _ => True end.

Lemma pieces_of_ok out : Forall (out_ok L works) out -> Forall (verified_piece L works) (pieces_of out).
Proof.
  intros H. apply Forall_forall. intros p (o & Ho & E)%list_elem_of_omap. rewrite Forall_forall in H.
  specialize (H o Ho). destruct o; try done. by injection E as <-.
Qed.

Lemma same_disk_bytes a b i : same_disk a b -> piece_bytes b i = piece_bytes a i.
Proof. unfold piece_bytes, flat. by intros (-> & -> & _). Qed.

Lemma same_disk_writing a b w : same_disk a b -> writing_ok a w -> writing_ok b w.
Proof. unfold writing_ok. by intros (-> & -> & _). Qed.

(** A step that leaves the files and the writer alone. *)
Lemma net_ok_quiet n n' :
  net_ok n -> world_ok L works (w_storage (n_world n)) (n_world n') -> n_writer n' = n_writer n ->
  (forall peer c, n_conns n' !! peer = Some c -> conn_ok peer c) -> Forall (verified_piece L works) (n_pieces n') -> net_ok n'.
Proof.
  intros [Hw Hc Hp Ht Hcap Hwr Hdisk] [Hd Hwk Hs Hsame Hm] Ew Hc' Hp'. pose proof Hsame as (Et & _ & Ec). split; try done.
  - by rewrite Et.
  - by rewrite Ec.
  - intros writing. rewrite Ew. intros E. destruct (Hwr _ E) as [H1 H2]. split; [by eapply same_disk_writing|done].
  - intros i Hi. unfold piece_on_disk. rewrite Ew, (same_disk_bytes _ _ _ Hsame). by apply Hdisk.
Qed.

Lemma drop_connection_ok peer c n : net_ok n -> net_ok (drop_connection peer c n).
Proof.
  intros Hn. apply (net_ok_quiet n); [done| |done|intros q c' Hq; unfold drop_connection in Hq; cbn [n_conns] in Hq; apply lookup_delete_Some in Hq as [_ Hq]; by eapply no_conns|apply Hn].
  destruct (no_world _ Hn) as [Hd Hw Hs Hsame Hm]. unfold drop_connection. cbn [n_world].
  set (d := match states _ !! peer with Some _ => _ | None => _ end).
  assert (Hd' : wf_download d /\ works_of d = works).
  { unfold d. destruct (states _ !! peer) as [s|]; [|done]. split; [eapply dl_step_wf; [done|constructor]|].
    rewrite <-Hw. eapply works_step. constructor. }
  clearbody d. destruct Hd' as [Hd' Hw']. split; cbn [set_metadata set_dl set_ps w_dl w_storage w_metadata]; [| |done|done|].
  - eapply dl_step_wf; [exact Hd'|constructor].
  - rewrite <-Hw'. eapply works_step. constructor.
  - unfold drop_extensions. destruct (existsb _ _); [by apply on_peer_gone_ok|done].
Qed.

Definition pcs_ok (pcs : RdPc * ReqPc * UpPc) : Prop :=
  match pcs.1.1 with RdIdle => True | RdVerify index piece _ => is_u32 index /\ works !! Z.to_nat index = Some piece end /\
  up_ok works (s_torrent start) (s_cache_capacity start) pcs.2.

Lemma run_task_ok peer c task n :
  net_ok n -> conn_ok peer c -> safe L works (w_storage (n_world n)) peer pcs_ok task ->
  exists out n', run_task peer c task n = Some (out, n') /\ net_ok n' /\ Forall (out_ok L works) out.
Proof.
  intros Hn [Hh Hr Hu] Ht. unfold run_task.
  destruct (Ht (mkSt (c_h c) (n_world n))) as (r & out & s & E & [Hw' Hh'] & Ho & HQ); [split; [apply Hn|done]|]. rewrite E.
  assert (Hp' : Forall (verified_piece L works) (n_pieces n ++ pieces_of out)) by (apply Forall_app_2; [apply Hn|by apply pieces_of_ok]).
  assert (Hins : forall c', conn_ok peer c' -> forall q k, <[peer := c']> (n_conns n) !! q = Some k -> conn_ok q k).
  { intros c' Hc' q k [[<- <-]|[_ Hq]]%lookup_insert_Some; [done|by eapply no_conns]. }
  destruct r as [[[rd rq] up]|e].
  - eexists _, _. split; [done|]. split; [|done]. destruct HQ as [Hrd Hup]. cbn [n_conns n_world n_pieces].
    apply (net_ok_quiet n); cbn [n_conns n_world n_pieces n_writer]; [done|done|done| |done]. rewrite insert_insert_eq. by apply Hins.
  - eexists _, _. split; [done|]. split; [|done]. apply drop_connection_ok.
    apply (net_ok_quiet n); cbn [n_conns n_world n_pieces n_writer]; [done|done|done| |done]. by apply Hins.
Qed.

Lemma set_ps_ok base ps w : world_ok L works base w -> world_ok L works base (set_ps ps w).
Proof. by intros []. Qed.

Lemma piece_count_works d : works_of d = works -> piece_count d = length works.
Proof. intros <-. unfold piece_count, works_of. by rewrite length_map. Qed.

Lemma safe_open_connection base peer fast extended peer_dht fuel w :
  world_ok L works base w -> fast && negb (fast_set_ready L info_hash fuel peer w) = false ->
  safe L works base peer pcs_ok (open_connection L lim info_hash fast extended peer_dht fuel).
Proof.
  intros Hw Hf. unfold open_connection, fast_set_ready in *. rewrite (piece_count_works _ (wo_works _ _ _ _ Hw)) in Hf.
  apply (safe_bind _ _ _ _ any); [by apply safe_set_fast_extension|intros _ _].
  apply (safe_bind _ _ _ _ any); [by apply safe_set_extension_protocol|intros _ _].
  apply (safe_bind _ _ _ _ any); [by apply safe_hget|intros h0 _]. apply (safe_bind _ _ _ _ any); [by apply safe_wget|intros w0 _].
  do 3 (apply (safe_bind _ _ _ _ any); [apply (safe_for_each _ _ _ _ _ any); [done|by apply Forall_true|]; intros m _; by apply safe_send|intros _ _]).
  apply (safe_bind _ _ _ _ any); [|intros _ _; by apply safe_ret]. destruct fast; [|by apply safe_ret]. cbn [when].
  unfold send_allowed_fast.
  apply (safe_bind _ _ _ _ (fun h => h_peer h = peer)); [by apply safe_hget; intros h []|]. intros h Hp.
  destruct (fx_enabled (h_fast h)); cbn [negb]; [|by apply safe_ret].
  apply (safe_bind _ _ _ _ (fun c => c = wrap32 (Z.of_nat (length works)))).
  { apply safe_dget. intros d _ Hd. by rewrite (piece_count_works d). }
  intros c ->. rewrite Hp. cbn [andb] in Hf. destruct (generate_allowed_fast_for_ip _ _ _ _ _ _); [|done].
  apply (safe_bind _ _ _ _ any); [by apply safe_hmod; [done|]; intros ? []|intros _ _].
  apply (safe_bind _ _ _ _ any); [by apply safe_upd_state|intros _ _].
  apply (safe_for_each _ _ _ _ _ any); [done|by apply Forall_true|]. intros i _. by apply safe_send.
Qed.

Lemma rebase base w : world_ok L works base w -> world_ok L works (w_storage w) w.
Proof. by intros []. Qed.

Lemma remove_ok base w i : world_ok L works base w -> world_ok L works base (set_dl (remove_downloaded (w_dl w) i) w).
Proof.
  intros Hw. apply set_dl_ok; [eapply dl_step_wf; [apply Hw|constructor]| |done].
  rewrite <- (wo_works _ _ _ _ Hw). eapply works_step. constructor.
Qed.

Lemma writer_step_ok n : net_ok n -> net_ok (writer_step n).
Proof.
  intros Hn. unfold writer_step. destruct (dw_writing (n_writer n)) as [writing|] eqn:Ew.
  - destruct (wg_ranges writing) eqn:Er; [|done]. destruct (no_writing _ Hn _ Ew) as [Hwok Hh].
    pose proof Hn as [Hw Hc Hp Ht Hcap Hwr Hd]. split; try done. intros i Hi. pose proof (writing_done _ _ Hwok Er) as Hb.
    destruct (Hd i Hi) as [H|[H|[(w' & E & <-)|H]]]; [by left|by right; left| |by do 3 right].
    right. left. cbn [n_world]. rewrite Ew in E. injection E as <-. by rewrite Hb.
  - destruct (n_pieces n) as [|piece rest] eqn:Ep; [done|]. pose proof Hn as [Hw Hc Hp Ht Hcap Hwr Hd].
    rewrite Ep in Hp. apply Forall_cons in Hp as [[Hi (pw & Hpw & _ & Hsha)] Hp].
    pose proof (write_begin_ok (w_storage (n_world n)) (fp_index piece) (fp_buf piece) (wo_storage _ _ _ _ Hw) (proj1 Hi)) as Hb.
    destruct (write_begin _ _ _) as [[writing|e] st'].
    + destruct Hb as (Hst & (Et & Ef & Ec) & Hwok & Hix & Hbuf). split; cbn [n_world n_conns n_pieces n_writer set_storage w_storage dw_writing dw_failed]; try done.
      * apply (rebase (w_storage (n_world n)) (set_storage st' (n_world n))). by apply set_storage_ok.
      * by rewrite Et.
      * by rewrite Ec.
      * intros w' [= <-]. split; [done|]. rewrite Hix, Hbuf. by exists pw.
      * intros i Hv. unfold piece_on_disk. cbn [n_world n_writer set_storage w_storage dw_writing dw_failed].
        rewrite (same_disk_bytes (w_storage (n_world n))) by done.
        destruct (Hd i Hv) as [H|[H|[(w' & E & <-)|H]]]; [by left|by right; left|by rewrite Ew in E|by do 3 right].
    + subst st'. apply (net_ok_quiet n); [done| |done|done|done]. cbn [n_world].
      apply (remove_ok _ (set_storage (w_storage (n_world n)) (n_world n))), set_storage_ok; [apply Hw|done|done].
Qed.

Lemma disk_step_ok k n : net_ok n -> exists n', disk_step k n = Some n' /\ net_ok n'.
Proof.
  intros Hn. unfold disk_step. destruct (dw_writing (n_writer n)) as [writing|] eqn:Ew; [|by eexists].
  pose proof Hn as [Hw Hc Hp Ht Hcap Hwr Hd]. destruct (Hwr _ Ew) as [Hwok (pw & Hpw & Hsha)].
  assert (Hfail : net_ok (mkNet (set_dl (remove_downloaded (w_dl (n_world n)) (wg_index writing)) (n_world n)) (n_conns n) (n_pieces n) (n_global n)
    (mkDiskWriter None (wg_index writing :: dw_failed (n_writer n))))).
  { split; cbn [n_world n_conns n_pieces n_writer set_dl w_storage dw_writing dw_failed]; try done; [by apply (remove_ok (w_storage (n_world n)))|].
    intros i Hv. unfold piece_on_disk. cbn [n_world n_writer set_dl w_storage dw_writing dw_failed].
    destruct (Hd i Hv) as [H|[H|[(w' & E & <-)|H]]]; [by left|by right; left| |do 3 right; by right].
    rewrite Ew in E. injection E as <-. do 3 right. by left. }
  destruct k as [k|]; [|by eexists]. destruct (write_some_ok (w_storage (n_world n)) k writing (wo_storage _ _ _ _ Hw) Hwok) as (r & E & Hr).
  rewrite E. destruct r as [[w' st']|]; [|by eexists]. destruct (Hr w' st' eq_refl) as (Hst & Hok' & Hix & Hbuf & Et & Ec & Hoth).
  eexists. split; [done|]. split; cbn [n_world n_conns n_pieces n_writer set_storage w_storage dw_writing dw_failed]; try done.
  - destruct Hw. by split.
  - by rewrite Et.
  - by rewrite Ec.
  - intros w2 [= <-]. split; [done|]. rewrite Hix, Hbuf. by exists pw.
  - intros i Hv. unfold piece_on_disk. cbn [n_world n_writer set_storage w_storage dw_writing dw_failed].
    destruct (decide (i = wg_index writing)) as [->|Hne]; [right; right; left; by exists w'|].
    rewrite (Hoth i) by (by rewrite ?Ht).
    destruct (Hd i Hv) as [H|[H|[(w2 & E2 & <-)|H]]]; [by left|by right; left| |by do 3 right]. rewrite Ew in E2. by injection E2 as <-.
Qed.

Lemma priority_out_ok cancels ps out ps' :
  send_priority_cancels peer_iter cancels ps = (out, ps') -> Forall (out_ok L works) out.
Proof.
  unfold send_priority_cancels. destruct cancels as [|c cs]; [by intros [= <- _]|]. intros [= <- _].
  apply Forall_concat, Forall_map, Forall_true. intros e. cbn. destruct (writer_tx _); [|constructor].
  by apply Forall_map, Forall_true.
Qed.

Lemma new_conn_ok now peer allows_pex dht :
  conn_ok peer (mkConn (from_config now peer (ext_bind (Extension0 := net_ext L) (mkExtContext peer allows_pex) registry) dht) RdIdle RqStart UpTop).
Proof.
  split; cbn; [|done|done]. split; cbn; [done|lia|constructor|]. apply bind_exts_ok. auto.
Qed.

Lemma net_step_ok n ev :
  net_ok n -> event_ok ev ->
  exists out n', net_step L lim info_hash registry peer_iter n ev = Some (out, n') /\ net_ok n' /\ Forall (out_ok L works) out.
Proof.
  intros Hn Hev. pose proof Hn as [Hw Hc Hp _ _ _ _].
  assert (Hconn : forall peer f, (forall c, conn_ok peer c -> exists out n', f c = Some (out, n') /\ net_ok n' /\ Forall (out_ok L works) out) ->
    exists out n', with_conn peer n f = Some (out, n') /\ net_ok n' /\ Forall (out_ok L works) out).
  { intros peer f Hf. unfold with_conn. destruct (n_conns n !! peer) as [c|] eqn:E; [by apply Hf, Hc|by eexists _, _]. }
  destruct ev as [now peer fast extended allows_pex dht peer_dht fuel|now peer m|now peer|now peer|now peer|peer|peer k|now peer|peer| |k|prios|state|now regular peer action];
    cbn [net_step event_ok] in *.
  - destruct (fast && _) eqn:Ef; [by eexists _, _|].
    destruct (try_spawn_peer lim now peer (n_global n) (w_ps (n_world n))) as [spawned ps].
    assert (Hw' : world_ok L works (w_storage (n_world n)) (set_ps ps (n_world n))) by by apply set_ps_ok.
    destruct spawned; cbn [negb]; [|eexists _, _; split; [done|]; split; [by apply (net_ok_quiet n)|constructor]].
    apply run_task_ok; [|apply new_conn_ok|by eapply (safe_open_connection _ _ _ _ _ _ (n_world n))].
    apply (net_ok_quiet n); [done|done|done| |done]. intros q c. cbn [n_conns].
    intros [[<- <-]|[_ Hq]]%lookup_insert_Some; [apply new_conn_ok|by apply Hc].
  - apply Hconn. intros c Hco. destruct (c_rd c) as [|index piece buf] eqn:Er; [|by eexists _, _].
    apply run_task_ok; [done|done|]. eapply safe_bind; [by apply safe_on_received_message|].
    intros r Hr. apply safe_ret. destruct Hco. by destruct r.
  - apply Hconn. intros c [Hh Hr Hu]. destruct (c_rd c) as [|index piece buf] eqn:Er; [by eexists _, _|]. destruct Hr as [Hi Hwk].
    apply run_task_ok; [done|by split; [|rewrite Er|]|]. eapply safe_bind; [by apply safe_on_verified|]. intros _ _. by apply safe_ret.
  - apply Hconn. intros c Hco. apply run_task_ok; [done|done|]. eapply safe_bind; [by apply safe_requester_step|].
    intros rq _. apply safe_ret. by destruct Hco.
  - apply Hconn. intros c Hco. apply run_task_ok; [done|done|]. eapply safe_bind; [by apply safe_requester_timeout|].
    intros rq _. apply safe_ret. by destruct Hco.
  - apply Hconn. intros c Hco. apply run_task_ok; [done|done|]. destruct Hco. eapply safe_bind.
    { apply safe_uploader_step. by rewrite (no_torrent _ Hn), (no_capacity _ Hn). }
    rewrite (no_torrent _ Hn), (no_capacity _ Hn). intros up Hup. by apply safe_ret.
  - apply Hconn. intros c Hco. apply run_task_ok; [done|done|]. destruct Hco. eapply safe_bind.
    { apply safe_uploader_read. by rewrite (no_torrent _ Hn), (no_capacity _ Hn). }
    rewrite (no_torrent _ Hn), (no_capacity _ Hn). intros up Hup. by apply safe_ret.
  - apply Hconn. intros c Hco. apply run_task_ok; [done|done|]. eapply safe_bind; [by apply safe_extension_tick|].
    intros _ _. apply safe_ret. by destruct Hco.
  - apply Hconn. intros c _. eexists _, _. split; [done|]. split; [by apply drop_connection_ok|constructor].
  - eexists _, _. split; [done|]. split; [by apply writer_step_ok|constructor].
  - destruct (disk_step_ok k n Hn) as (n' & E & Hn'). rewrite E. by eexists _, _.
  - destruct (apply_file_priorities (w_dl (n_world n)) prios) as [cancels d] eqn:Ed.
    destruct (send_priority_cancels peer_iter cancels (w_ps (n_world n))) as [out ps] eqn:Es.
    eexists _, _. split; [done|]. split; [|by eapply priority_out_ok].
    apply (net_ok_quiet n); [done| |done..]. cbn [n_world]. apply set_ps_ok, set_dl_ok; [| |done]; destruct Hw as [Hd Hwk _ _ _].
    + pose proof (st_priorities (w_dl (n_world n)) prios) as Hstep. rewrite Ed in Hstep. by eapply dl_step_wf.
    + pose proof (works_priorities (w_dl (n_world n)) prios) as H. rewrite Ed in H. cbn [snd] in H. by rewrite H.
  - eexists _, _. split; [done|]. split; [|constructor]. apply (net_ok_quiet n); [done|by destruct Hw|done..].
  - destruct (apply_action now regular _ _) as [m sent]. eexists _, _. split; [done|]. split.
    + apply (net_ok_quiet n); [done|by apply set_ps_ok|done..].
    + apply Forall_map, Forall_true. by intros [].
Qed.

Lemma net_run_ok evs n :
  net_ok n -> Forall event_ok evs ->
  exists out n', net_run L lim info_hash registry peer_iter n evs = Some (out, n') /\ net_ok n' /\ Forall (out_ok L works) out.
Proof.
  intros Hn Hevs. revert n Hn. induction Hevs as [|ev evs Hev _ IH]; intros n Hn; cbn [net_run]; [by eexists _, _|].
  destruct (net_step_ok n ev Hn Hev) as (out & n1 & E & Hn1 & Ho). rewrite E.
  destruct (IH n1 Hn1) as (outs & n2 & E2 & Hn2 & Ho2). rewrite E2.
  eexists _, _. split_and!; [done|done|by apply Forall_app_2].
Qed.
End NetSafe.

(** A torrent before its first peer. *)
Definition start_world (works : list PieceWork) (storage : Storage) (info_hash : bytes) (state : TransferState) : World :=
  mkWorld (with_seed (map piece_new works)) peer_states_new (metadata_new info_hash) storage state (length works) 0 true.
Definition start_net (w : World) : Net := mkNet w ∅ [] 0 (mkDiskWriter None []).

Definition works_ok (works : list PieceWork) : Prop :=
  Z.of_nat (length works) <= U32_MAX /\
  forall i w, works !! i = Some w -> pw_index w = Z.of_nat i /\ is_u32 (pw_length w).

Lemma start_world_ok L works storage info_hash state :
  works_ok works -> wf_storage storage -> world_ok L works storage (start_world works storage info_hash state).
Proof.
  intros [Hl Hw] Hs. split; cbn [start_world w_dl w_storage w_metadata]; [| |by apply wf_storage_disk|done|apply store_new_ok].
  - split; try done.
    + intros i p. cbn. rewrite list_lookup_fmap. destruct (works !! i) as [w|] eqn:E; [|done]. intros [= <-].
      destruct (Hw i w E). split; cbn; [done|done|constructor|constructor].
    + cbn. by rewrite length_map.
    + apply Forall_replicate. ranges.
  - unfold works_of. cbn. rewrite map_map. apply map_id.
Qed.

Lemma factory_ok (r : RegisteredExtension AnyExt) ctx :
  re_factory r = metadata_factory \/ re_factory r = pex_factory -> ext_ok (re_factory r ctx).
Proof. intros [-> | ->]; cbn; [|done]. split; cbn; [rewrite map_size_empty|]; lia. Qed.

(** C1: the connections of a torrent are safe: whatever messages any number of
    peers send, and in whatever order their tasks, the ticker, the choke loop,
    the writer of finished pieces, the system calls of the threads that read and
    write the files (which may transfer any part of what is asked, or fail) and
    changes of priorities and of the transfer state interleave, nothing panics;
    the download state keeps its invariant, the files their lengths and the cache
    its bounds; a piece handed to the storage has the hash the torrent gives for
    it, and so has every piece waiting to be written; every piece in the files is
    what it was at the start or has its hash, unless it is being written or its
    write has broken off; and every connection keeps at most eight requests to
    serve, each for a block inside a piece of the torrent. *)
Theorem peer_swarm_safe L lim info_hash registry peer_iter works storage state evs :
  LibOk L ->
  Forall (fun r => re_factory r = metadata_factory \/ re_factory r = pex_factory) registry ->
  works_ok works -> wf_storage storage -> Forall event_ok evs ->
  exists out n,
    net_run L lim info_hash registry peer_iter (start_net (start_world works storage info_hash state)) evs = Some (out, n) /\
    wf_download (w_dl (n_world n)) /\ wf_disk (w_storage (n_world n)) /\
    (forall p, OutPiece p ∈ out \/ p ∈ n_pieces n ->
       exists w, works !! Z.to_nat (fp_index p) = Some w /\ fp_length p = pw_length w /\ lib_sha1 L (fp_buf p) = pw_hash w) /\
    (forall i, valid_piece (s_torrent storage) i -> piece_on_disk L works storage n i) /\
    (forall peer c, n_conns n !! peer = Some c ->
       (length (h_upload_queue (c_h c)) <= 8)%nat /\
       forall req, req ∈ h_upload_queue (c_h c) ->
         exists w, works !! Z.to_nat (br_index req) = Some w /\ 0 < br_length req /\ br_begin req + br_length req <= pw_length w).
Proof.
  intros HL Hreg Hworks Hst Hevs.
  destruct (net_run_ok L lim info_hash registry peer_iter works storage) with (evs := evs)
    (n := start_net (start_world works storage info_hash state)) as (out & n & E & [[Hd Hw Hs Hsame Hm] Hc Hp Ht Hcap Hwr Hdisk] & Ho).
  - intros r ctx Hr. apply factory_ok. rewrite Forall_forall in Hreg. by apply Hreg.
  - split; [by apply start_world_ok|by intros peer c; cbn; rewrite lookup_empty|constructor|done|done|done|]. intros i _. by left.
  - done.
  - exists out, n. split_and!; [done..| |done|].
    + rewrite !Forall_forall in *. intros p [Hin|Hin]; [apply (Ho _ Hin)|apply (Hp _ Hin)].
    + intros peer c Hcc. destruct (Hc _ _ Hcc) as [[_ Hq Hv _] _ _]. split; [done|]. intros req Hin.
      rewrite Forall_forall in Hv. destruct (Hv req Hin) as (Hi & Hb & Hl & w & Ew & Ev). exists w. split; [done|].
      unfold validate_request in Ev. cbn in Ev. destruct (_ || _) eqn:Eb; [done|]. unfold checked_add_u32 in Ev.
      apply orb_false_iff in Eb as [Ez _]. apply Z.eqb_neq in Ez. destruct (_ <=? U32_MAX); [|done].
      destruct (Z.leb_spec (br_begin req + br_length req) (pw_length w)); [|done]. unfold is_u32 in *. lia.
Qed.

(** A library, a torrent of three pieces and a download of the first one. *)
Definition example_lib : Lib :=
  mkLib (fun _ => concat (map (be_bytes 4) [0; 1; 2; 3; 4])) parse_bencode 33 head elements elements map_to_list map_to_list.

#[export] Instance example_lib_ok : LibOk example_lib.
Proof.
  split; cbn [example_lib lib_from_bytes lib_stack lib_choose lib_peers lib_pieces lib_requests lib_extensions]; try apply _; [|done|done].
  unfold MAX_BENCODE_DEPTH. lia.
Qed.

Definition example_works : list PieceWork :=
  imap (fun i len => mkPieceWork (Z.of_nat i) len (lib_sha1 example_lib [])) [20; 20; 15].
Definition example_limits : Limits := mkLimits 200 55 (fun _ => false) (Some 6881) 6881.
Definition example_start : Net := start_net (start_world example_works example_storage [] TsDownloading).

Definition example_events (peer : SocketAddr) : list net_event :=
  [NSpawn 0 peer true false true false true 2; NMessage 1 peer (MBitfield [224]); NMessage 2 peer Unchoke;
   NRequester 3 peer; NRequester 3 peer; NRequester 3 peer; NRequester 4 peer;
   NMessage 5 peer (Piece (mkPieceChunk 0 0 20 (replicate 20 9))); NVerified 6 peer; NWrite; NDisk (Some 7%nat); NDisk (Some 20%nat); NWrite;
   NMessage 7 peer Interested].

Lemma example_works_ok : works_ok example_works.
Proof.
  split; [vm_compute; congruence|]. intros [|[|[|i]]] w; [intros [= <-]; cbn; ranges..|done].
Qed.

Lemma peer_swarm_safe_witness :
  exists out n,
    net_run example_lib example_limits [] [] map_to_list example_start (example_events (V4 1 1)) = Some (out, n) /\
    wf_download (w_dl (n_world n)) /\ wf_disk (w_storage (n_world n)) /\
    (forall p, OutPiece p ∈ out \/ p ∈ n_pieces n ->
       exists w, example_works !! Z.to_nat (fp_index p) = Some w /\ fp_length p = pw_length w /\
         lib_sha1 example_lib (fp_buf p) = pw_hash w) /\
    (forall i, valid_piece (s_torrent example_storage) i -> piece_on_disk example_lib example_works example_storage n i) /\
    (forall peer c, n_conns n !! peer = Some c ->
       (length (h_upload_queue (c_h c)) <= 8)%nat /\
       forall req, req ∈ h_upload_queue (c_h c) ->
         exists w, example_works !! Z.to_nat (br_index req) = Some w /\ 0 < br_length req /\ br_begin req + br_length req <= pw_length w).
Proof.
  apply (peer_swarm_safe example_lib example_limits [] [] map_to_list example_works example_storage TsDownloading).
  - apply example_lib_ok.
  - constructor.
  - apply example_works_ok.
  - apply example_storage_wf.
  - repeat constructor; cbn; ranges.
Defined.
