(* ===== verification/PeerFlaws.v ===== *)
(** * Where the connections fall short

    Runs of the connections of a torrent in which the code does not do what it
    means to: a piece is served before it is verified, announcements of a peer
    that sent no bitfield are lost, one byte that was not asked for blocks a
    piece, and a pipeline whose requests timed out stays empty. *)

From S2P Require Import Prelude Bencode Value Bitfield Message PeerStates Picker Layout Priority Metainfo Download.
From S2P Require Import Storage Choke ExtHandshake Peers Metadata Pex Registry Pipeline AllowedFast PeerHandler.
From S2P Require Import PeerTasks PeerSwarm PeerSafe.

#[local] Open Scope handler_scope.

(** ** Serving a piece before it is verified *)

(** A digest that tells the contents of the pieces apart. *)
Definition sum_digest (b : bytes) : bytes := be_bytes 20 (fold_left Z.add b 0).
Definition sum_lib : Lib := mkLib sum_digest parse_bencode 33 head elements elements map_to_list map_to_list.
Definition sum_works : list PieceWork :=
  imap (fun i len => mkPieceWork (Z.of_nat i) len (sum_digest (replicate (Z.to_nat len) 9))) [20; 20; 15].

Definition seeder : SocketAddr := V4 1 1.
Definition leecher : SocketAddr := V4 2 2.

(** The seeder sends a piece that is corrupt; while it is hashed, the leecher asks
    for a block of it. *)
Definition race_events : list net_event :=
  [NSpawn 0 seeder false false true false false 0; NMessage 1 seeder (MBitfield [224]); NMessage 2 seeder Unchoke;
   NRequester 3 seeder; NRequester 3 seeder; NRequester 3 seeder; NRequester 4 seeder;
   NSpawn 5 leecher false false true false false 0; NMessage 6 leecher Interested; NChoke 7 ∅ leecher ActUnchoke;
   NMessage 8 seeder (Piece (mkPieceChunk 0 0 20 (replicate 20 8)));
   NMessage 9 leecher (format_request 0 0 20);
   NUploader leecher; NUploader leecher; NUploader leecher; NRead leecher (Some 20%nat); NUploader leecher; NUploader leecher;
   NVerified 10 seeder].

Lemma race_events_ok : Forall event_ok race_events.
Proof. repeat (apply Forall_cons; split); try done; vm_compute; repeat first [done | discriminate | constructor]. Qed.

(** A block is uploaded from a piece that is not there yet: a piece counts as
    downloaded from the moment its last chunk arrives, before it is hashed and
    written.  While the hash of a corrupt piece is computed, another peer that
    asks for it is sent what happens to be in the file, and no piece is ever
    verified in this run. *)
Theorem unverified_piece_served :
  Forall event_ok race_events /\
  exists out n data,
    net_run sum_lib example_limits [] [] map_to_list
      (start_net (start_world sum_works example_storage [] TsDownloading)) race_events = Some (out, n) /\
    OutWriter leecher (WriteMessage (format_piece 0 0 data)) ∈ out /\
    length data = 20%nat /\ lib_sha1 sum_lib data <> pw_hash (default (mkPieceWork 0 0 []) (sum_works !! 0%nat)) /\
    (forall p, OutPiece p ∉ out) /\ dl_has_piece (w_dl (n_world n)) 0 = false.
Proof.
  split; [apply race_events_ok|].
  eexists _, _, (replicate 20 1). split; [vm_compute; reflexivity|]. split_and!.
  - repeat (first [by left | right]).
  - reflexivity.
  - vm_compute. discriminate.
  - intros p Hp. repeat (apply elem_of_cons in Hp as [[=]|Hp]). by apply elem_of_nil in Hp.
  - reflexivity.
Qed.

(** ** Haves of a peer that sent no bitfield *)

Lemma bind_ok {A B} (m : M A) (k : A -> M B) s a out s' r out' s'' :
  m s = Some (Ok a, out, s') -> k a s' = Some (r, out', s'') -> bind m k s = Some (r, out ++ out', s'').
Proof. intros E E'. unfold bind. by rewrite E, E'. Qed.

Lemma upd_state_id f s :
  (forall ps, states (w_ps (st_w s)) !! h_peer (st_h s) = Some ps -> f ps = ps) -> upd_state f s = Some (Ok (), [], s).
Proof.
  intros H. unfold upd_state, bind, hget, wmod. cbn. do 2 f_equal. destruct s as [h [d [st b hf] md sg ws ph up op]]. cbn in *.
  unfold set_ps, set_states. cbn. do 3 f_equal. apply map_eq. intros k. destruct (decide (k = h_peer h)) as [->|Hk].
  - rewrite lookup_alter_eq. destruct (st !! h_peer h) as [p|] eqn:E; [|done]. cbn. by rewrite H.
  - by rewrite lookup_alter_ne.
Qed.

(** A connection that has only been opened: no bitfield, nothing requested. *)
Record blank (s : St) : Prop := {
  bk_state : exists p, states (w_ps (st_w s)) !! h_peer (st_h s) = Some p /\
    ps_bitfield p = bf_new [] /\ am_interested p = false /\ download_cancels (stats p) = [];
  bk_fast : fx_peer_allowed (h_fast (st_h s)) = ∅ }.

Section Have.
Context (L : Lib) `{Hlib : LibOk L}.

Lemma drain_blank s : blank s -> drain_download_cancels s = Some (Ok (), [], s).
Proof.
  intros [(p & Hp & _ & _ & Hc) _]. unfold drain_download_cancels. apply (bind_ok _ _ s (Some p) [] s _ []); [unfold own_state, bind, hget, wget; cbn; by rewrite Hp|].
  apply (bind_ok _ _ s () [] s _ []); [|by rewrite Hc]. apply upd_state_id. intros q Hq. assert (q = p) as -> by congruence.
  destruct p as [? ? ? ? ? ? ? ? ? ? ? ? ? ? ? ? ? ? [] ?]. cbn in Hc. by subst.
Qed.

Lemma existsb_false {A} (f : A -> bool) l : (forall a, f a = false) -> existsb f l = false.
Proof. intros H. induction l as [|a l IH]; cbn; [done|]. by rewrite H, IH. Qed.

Lemma lib_pieces_empty : lib_pieces L ∅ = [].
Proof. apply Permutation_nil. rewrite lib_pieces_perm. by rewrite elements_empty. Qed.

Lemma refresh_blank now s : blank s -> refresh_interest L now s = Some (Ok (), [], s).
Proof.
  intros [(p & Hp & Hb & Hi & _) Hf].
  unfold refresh_interest, peer_has_needed_piece, needed_allowed_fast_pieces, own_state, dget, wget, hget, bind. cbn.
  rewrite Hp, Hf, lib_pieces_empty. cbn.
  rewrite existsb_false by (intros [k q]; rewrite Hb; apply andb_false_r). cbn.
  rewrite andb_false_r. rewrite Hp, Hi. reflexivity.
Qed.

Definition with_dl (f : DownloadState -> DownloadState) (s : St) : St := mkSt (st_h s) (set_dl (f (w_dl (st_w s))) (st_w s)).

Lemma apply_have_blank i s :
  blank s -> apply_have i s = Some (Ok (), [], with_dl (fun d => set_availability (add_have (dl_availability d) i) d) s).
Proof.
  intros [(p & Hp & Hb & _ & _) _]. unfold apply_have. apply (bind_ok _ _ s (Some p) [] s _ []); [unfold own_state, bind, hget, wget; cbn; by rewrite Hp|].
  eapply (bind_ok _ _ s (_, _) [] _ _ []); [unfold dop, bind, dget, dmod, wget, wmod; cbn; unfold apply_peer_have; rewrite Hb; cbn; reflexivity|].
  rewrite upd_state_id; [done|]. cbn. intros q Hq. assert (q = p) as -> by congruence.
  destruct p. cbn in Hb. by subst.
Qed.

(** An announcement changes the availability of the piece and nothing else. *)
Lemma have_blank now i s :
  blank s -> (0 < piece_count (w_dl (st_w s)))%nat ->
  on_received_message L now (Have i) s = Some (Ok Handled, [], with_dl (fun d => set_availability (add_have (dl_availability d) i) d) s).
Proof.
  intros Hs Hn. unfold on_received_message. apply (bind_ok _ _ s () [] s _ []); [by apply drain_blank|].
  apply (bind_ok _ _ s (piece_count (w_dl (st_w s))) [] s _ []); [done|]. destruct (Nat.eqb_spec (piece_count (w_dl (st_w s))) 0); [lia|].
  eapply (bind_ok _ _ s () [] _ _ []); [by apply apply_have_blank|].
  eapply (bind_ok _ _ _ () [] _ _ []); [|done]. apply refresh_blank. by destruct Hs.
Qed.

Context (lim : Limits) (info_hash : bytes) (registry : list (RegisteredExtension AnyExt)).
Context (peer_iter : gmap SocketAddr PeerState -> list (SocketAddr * PeerState)).

Lemma net_have_blank now peer i c n :
  n_conns n = {[peer := c]} -> c_rd c = RdIdle -> blank (mkSt (c_h c) (n_world n)) -> (0 < piece_count (w_dl (n_world n)))%nat ->
  let d := w_dl (n_world n) in
  net_step L lim info_hash registry peer_iter n (NMessage now peer (Have i)) =
  Some ([], mkNet (set_dl (set_availability (add_have (dl_availability d) i) d) (n_world n)) (n_conns n) (n_pieces n) (n_global n) (n_writer n)).
Proof.
  intros Hc Hr Hb Hn d. cbn [net_step]. unfold with_conn. rewrite Hc, lookup_singleton_eq, Hr. unfold run_task.
  erewrite (bind_ok _ _ _ Handled [] _ _ []); [|by apply have_blank|reflexivity]. cbn.
  rewrite app_nil_r, Hc, !insert_singleton_eq. destruct c. cbn in *. by subst.
Qed.

Definition add_haves (i : u32) (k : nat) (d : DownloadState) : DownloadState :=
  set_availability (mkAvailability (alter (Nat.iter k saturating_inc) (Z.to_nat i) (counts (dl_availability d)))) d.

Lemma add_haves_S i k d : add_haves i k (set_availability (add_have (dl_availability d) i) d) = add_haves i (S k) d.
Proof.
  destruct d as [? [cs] ? ? ? ? ? ? ? ? ? ? ?]. unfold add_haves, set_availability, add_have. cbn. f_equal. f_equal.
  apply list_eq. intros j. destruct (decide (j = Z.to_nat i)) as [->|Hj]; [|by rewrite !list_lookup_alter_ne].
  rewrite !list_lookup_alter_eq. destruct (cs !! _); [|done]. cbn [fmap option_fmap option_map]. f_equal. symmetry. apply Nat.iter_succ_r.
Qed.

Lemma net_haves_blank peer i c times n evs :
  n_conns n = {[peer := c]} -> c_rd c = RdIdle -> blank (mkSt (c_h c) (n_world n)) -> (0 < piece_count (w_dl (n_world n)))%nat ->
  net_run L lim info_hash registry peer_iter n (map (fun now => NMessage now peer (Have i)) times ++ evs) =
  net_run L lim info_hash registry peer_iter
    (mkNet (set_dl (add_haves i (length times) (w_dl (n_world n))) (n_world n)) (n_conns n) (n_pieces n) (n_global n) (n_writer n)) evs.
Proof.
  revert n. induction times as [|t times IH]; intros n Hc Hr Hb Hn.
  - cbn [map app length]. f_equal. destruct n as [[[] ? ? ? ? ? ? ?] ? ? ?]. unfold add_haves, set_dl, set_availability. cbn.
    do 3 f_equal. destruct dl_availability as [cs]. cbn. f_equal. symmetry. apply list_alter_id. done.
  - cbn [map app net_run length]. erewrite net_have_blank by done. rewrite IH; [|done|done|by destruct Hb|done].
    cbn [n_world n_conns n_pieces n_global w_dl set_dl]. rewrite add_haves_S. by destruct (net_run _ _ _ _ _ _ _) as [[]|].
Qed.
End Have.

Lemma iter_saturating_inc k : Nat.iter k saturating_inc 0 = Z.min (Z.of_nat k) U16_MAX.
Proof.
  induction k as [|k IH]; [done|]. change (Nat.iter (S k) saturating_inc 0) with (saturating_inc (Nat.iter k saturating_inc 0)).
  rewrite IH. unfold saturating_inc, sat_add. ranges.
Qed.

Lemma not_banned_at_start now peer : is_banned now peer peer_states_new = (false, peer_states_new).
Proof. unfold is_banned, purge_expired_bans, peer_states_new. cbn. by rewrite map_filter_empty. Qed.

Lemma our_bitfield_at_start works : bf_is_empty (our_bitfield (with_seed (map piece_new works))) = true.
Proof.
  unfold our_bitfield. cbn [with_seed dl_pieces]. set (l := numbered _).
  assert (Hl : Forall (fun ip => downloaded (snd ip) = false) l).
  { apply Forall_forall. intros [i p] [_ Hp]%elem_numbered. rewrite list_lookup_fmap in Hp.
    destruct (works !! _); [|done]. by injection Hp as <-. }
  assert (H0 : bf_is_empty (with_piece_count (length (map piece_new works))) = true)
    by (unfold bf_is_empty, with_piece_count; cbn [bf_bytes]; apply forallb_forall; intros x Hx%list_elem_of_In%elem_of_replicate; by destruct Hx as [-> _]).
  revert H0. generalize (with_piece_count (length (map piece_new works))). clearbody l.
  induction Hl as [|ip l Hip _ IH]; intros bf Hbf; [done|]. cbn [fold_left]. rewrite Hip. by apply IH.
Qed.

Lemma open_idle L lim info_hash s :
  (exists now, states (w_ps (st_w s)) !! h_peer (st_h s) = Some (live now)) ->
  h_fast (st_h s) = mkFast false ∅ ∅ [] -> h_extension_protocol (st_h s) = false ->
  bf_is_empty (our_bitfield (w_dl (st_w s))) = true ->
  open_connection L lim info_hash false false false 0 s = Some (Ok (RdIdle, RqStart, UpTop), [], s).
Proof.
  intros [now Hs] Hf He Hbf. unfold open_connection.
  assert (Hu : forall f, f (live now) = live now -> upd_state f s = Some (Ok (), [], s))
    by (intros f Hl; apply upd_state_id; intros q Hq; by assert (q = live now) as -> by congruence).
  apply (bind_ok _ _ s () [] s _ []).
  { apply (bind_ok _ _ s () [] s _ []); [|by apply Hu]. unfold hmod. rewrite Hf. destruct s as [[] w]. cbn in *. by subst. }
  apply (bind_ok _ _ s () [] s _ []); [|].
  2: { unfold send_dht_port, send_extension_handshake, send_initial_bitfield, bind, hget, wget. cbn. rewrite Hf, He. cbn.
       destruct (lm_dht_port lim), (piece_count _ =? 0)%nat; cbn; try done; by rewrite Hbf. }
  apply (bind_ok _ _ s () [] s _ []); [|by apply Hu]. unfold hmod. destruct s as [[] w]. cbn in *. by subst.
Qed.

Lemma spawn_blank L lim info_hash registry peer_iter works storage now peer allows_pex dht :
  (0 < lm_global lim)%nat -> (0 < lm_torrent lim)%nat -> lm_blocked lim peer = false ->
  exists c w,
    net_step L lim info_hash registry peer_iter (start_net (start_world works storage info_hash TsDownloading))
      (NSpawn now peer false false allows_pex dht false 0) = Some ([], mkNet w {[peer := c]} [] 1 (mkDiskWriter None [])) /\
    c_rd c = RdIdle /\ h_peer (c_h c) = peer /\ w_dl w = with_seed (map piece_new works) /\ blank (mkSt (c_h c) w).
Proof.
  intros Hg Ht Hb. eexists _, _. split; [|split; [|split; [|split]]].
  - cbn [net_step andb]. unfold try_spawn_peer. cbn [start_net n_global n_world n_conns n_pieces start_world w_ps peer_states_new states].
    destruct (Nat.leb_spec (lm_global lim) 0); [lia|]. rewrite lookup_empty, map_size_empty.
    destruct (Nat.leb_spec (lm_torrent lim) 0); [lia|]. rewrite andb_false_r. change (mkPeerStates _ _ _) with peer_states_new.
    unfold insert_live. rewrite not_banned_at_start, Hb, not_banned_at_start. cbn [states peer_states_new]. rewrite lookup_empty.
    cbn [negb]. unfold run_task. rewrite open_idle by first [reflexivity | apply our_bitfield_at_start | eexists; apply lookup_insert_eq]. cbn [app pieces_of omap list_omap st_w st_h c_h n_world n_conns n_pieces n_global].
    rewrite !insert_insert_eq. reflexivity.
  - reflexivity.
  - reflexivity.
  - reflexivity.
  - split; [|reflexivity]. cbn. rewrite lookup_insert_eq. by eexists.
Qed.

(** A peer connects, announces piece [i] at the given times, and leaves. *)
Definition have_events (now : Instant) (peer : SocketAddr) (allows_pex dht : bool) (times : list Instant) (i : u32) : list net_event :=
  NSpawn now peer false false allows_pex dht false 0 :: map (fun t => NMessage t peer (Have i)) times ++ [NClosed peer].

(** The announcements of a peer that sends no bitfield, as a peer does that
    starts with nothing, are lost: the client does not become interested, sends
    nothing and asks for nothing, however often the peer says that it has a piece
    the client wants.  Each repetition counts as one more holder of the piece,
    and the count stays after the peer has gone. *)
Theorem have_without_bitfield_lost L lim info_hash registry peer_iter works storage now peer allows_pex dht times i :
  LibOk L -> (0 < lm_global lim)%nat -> (0 < lm_torrent lim)%nat -> lm_blocked lim peer = false ->
  0 <= i < Z.of_nat (length works) ->
  exists n,
    net_run L lim info_hash registry peer_iter (start_net (start_world works storage info_hash TsDownloading))
      (have_events now peer allows_pex dht times i) = Some ([], n) /\
    n_conns n = ∅ /\ av_count (dl_availability (w_dl (n_world n))) i = Z.min (Z.of_nat (length times)) U16_MAX.
Proof.
  intros HL Hg Ht Hb Hi. unfold have_events. cbn [net_run].
  destruct (spawn_blank L lim info_hash registry peer_iter works storage now peer allows_pex dht) as (c & w & -> & Hr & Hp & Hd & Hbl); [done..|].
  rewrite (net_haves_blank L _ _ _ _ _ _ c); [|done|done|done|unfold piece_count; cbn; rewrite Hd; cbn; rewrite length_map; lia].
  cbn [net_run net_step n_world n_conns n_pieces n_global]. unfold with_conn. cbn [n_conns]. rewrite lookup_singleton_eq.
  eexists. split; [reflexivity|]. destruct Hbl as [(q & Hq & Hqb & _ & _) _]. cbn in Hq. rewrite Hp in Hq. split; [apply delete_singleton_eq|].
  unfold drop_connection. cbn [n_world set_dl set_ps set_metadata w_dl w_ps]. rewrite Hq, Hqb, Hd.
  unfold av_count, remove_reserved, release_peer_reservations, remove_peer_availability, add_haves, remove_bitfield. cbn.
  rewrite list_lookup_imap, list_lookup_alter_eq, lookup_replicate_2 by (rewrite length_map; lia). cbn. apply iter_saturating_inc.
Qed.

(** ** A chunk that was not asked for *)

(** What the arrival of a chunk of piece [index] does to its chunks: it is stored,
    and the piece is checked for completeness. *)
Definition receive_chunk (index : u32) (d : DownloadState) (c : u32 * bytes * PeerAddr) : option PieceWorkState * DownloadState :=
  let '(start, data, peer) := c in
  set_downloaded_if_all_chunks (snd (set_chuncks d index start data peer)) index.

Fixpoint receive_chunks (index : u32) (d : DownloadState) (cs : list (u32 * bytes * PeerAddr)) : list (option PieceWorkState) * DownloadState :=
  match cs with
  | [] => ([], d)
  | c :: cs =>
      let '(r, d) := receive_chunk index d c in
      let '(rs, d) := receive_chunks index d cs in (r :: rs, d)
  end.

(** The piece holds one byte at its start, and nothing continues it. *)
Record blocked (index : u32) (d : DownloadState) : Prop := {
  bl_piece : exists p, find_piece d index = Some (Z.to_nat index, p) /\ get_piece d index = Some p /\
    downloaded p = false /\ 1 < pw_length (piece_work p) < U32_MAX /\
    (exists c, c ∈ chuncks p /\ chunk_span c = (0, 1)) /\
    Forall (fun c => 0 <= ch_length c /\ ch_start c <> 1 /\ (ch_start c = 0 -> ch_length c = 1)) (chuncks p) }.

Lemma blocked_incomplete p :
  1 < pw_length (piece_work p) < U32_MAX -> (exists c, c ∈ chuncks p /\ chunk_span c = (0, 1)) ->
  Forall (fun c => 0 <= ch_length c /\ ch_start c <> 1 /\ (ch_start c = 0 -> ch_length c = 1)) (chuncks p) ->
  piece_chunks_cover p = false.
Proof.
  intros Hl (c0 & Hc0 & E0) Hcs. unfold piece_chunks_cover. change (map _ (chuncks p)) with (map chunk_span (chuncks p)).
  set (spans := merge_sort span_le _). assert (Hin : forall sn, sn ∈ spans -> exists c, c ∈ chuncks p /\ sn = chunk_span c).
  { intros sn. unfold spans. rewrite merge_sort_Permutation, list_elem_of_fmap. naive_solver. }
  rewrite Forall_forall in Hcs. destruct (cover_loop spans 0) as [cov|] eqn:E; [|done]. apply Z.eqb_neq. intros ->.
  apply cover_loop_tiles in E; [|apply Forall_forall; intros sn (c & Hc & ->)%Hin; by destruct (Hcs c Hc)|ranges|lia].
  destruct (tiles_cover _ _ _ 1 E) as (s & n & Hs & Hr); [lia|]. apply Hin in Hs as (c & Hc & [= -> ->]).
  destruct (tiles_bounds _ _ _ E) as [_ Hb].
  assert (Hc' : chunk_span c ∈ spans) by (unfold spans; rewrite merge_sort_Permutation; apply list_elem_of_fmap; eauto).
  specialize (Hb _ _ Hc'). destruct (Hcs c Hc) as (_ & Hne & Hz). lia.
Qed.

Lemma find_piece_insert d i p q :
  find_piece d i = Some (Z.to_nat i, p) -> piece_work q = piece_work p ->
  find_piece (set_pieces (<[Z.to_nat i := q]> (dl_pieces d)) d) i = Some (Z.to_nat i, q).
Proof.
  unfold find_piece. cbn. intros (Hl & Hp & Hlt)%list_find_Some Hq. apply list_find_Some. split_and!.
  - apply list_lookup_insert_eq. by eapply lookup_lt_Some.
  - by rewrite Hq.
  - intros j y Hj Hlj. rewrite list_lookup_insert_ne in Hj by lia. by eapply Hlt.
Qed.

Lemma get_find_piece d i p : wf_download d -> 0 <= i -> get_piece d i = Some p -> find_piece d i = Some (Z.to_nat i, p).
Proof.
  intros Hd Hi Hp. unfold find_piece. apply list_find_Some. split; [done|]. destruct (wd_pieces _ Hd _ _ Hp) as [E _ _ _]. split; [lia|].
  intros j y Hj Hlt. destruct (wd_pieces _ Hd _ _ Hj) as [E' _ _ _]. lia.
Qed.

Lemma blocked_check index d :
  blocked index d -> fst (set_downloaded_if_all_chunks d index) = None /\ snd (set_downloaded_if_all_chunks d index) = d.
Proof.
  intros [(q & Hf & Hg & Hd & Hl & Hc & Hcs)]. unfold set_downloaded_if_all_chunks. by rewrite Hg, Hd, blocked_incomplete by done.
Qed.

Lemma receive_blocked index d start data peer :
  blocked index d -> 0 <= start -> start mod BLOCK_SIZE = 0 -> 
  fst (receive_chunk index d (start, data, peer)) = None /\ blocked index (snd (receive_chunk index d (start, data, peer))).
Proof.
  intros [(p & Hf & Hg & Hd & Hl & Hc0 & Hcs)] Hs Hm.
  assert (Hb : blocked index (snd (set_chuncks d index start data peer))).
  { unfold set_chuncks. rewrite Hf. case_bool_decide as Hdup; [split; by exists p|]. split. eexists. split_and!.
    - by eapply find_piece_insert.
    - unfold get_piece. cbn. apply list_lookup_insert_eq. by eapply lookup_lt_Some.
    - done.
    - apply Hl.
    - apply Hl.
    - destruct Hc0 as (c0 & Hc0 & E0). exists c0. split; [|done]. cbn. apply elem_of_app. by left.
    - cbn. apply Forall_app. split; [done|]. apply Forall_singleton. cbn. split_and!.
      + unfold wrap32. apply Z.mod_pos_bound. done.
      + intros ->. done.
      + intros ->. destruct Hdup. destruct Hc0 as (c0 & Hc0 & [= E0 _]). apply list_elem_of_fmap. eauto. }
  unfold receive_chunk. destruct (blocked_check _ _ Hb) as [-> ->]. done.
Qed.

Lemma receive_chunks_blocked index blocks d :
  Forall (fun c => 0 <= fst (fst c) /\ fst (fst c) mod BLOCK_SIZE = 0) blocks -> blocked index d ->
  Forall (fun r => r = None) (fst (receive_chunks index d blocks)) /\ blocked index (snd (receive_chunks index d blocks)).
Proof.
  intros Hbl. revert d. induction Hbl as [|[[start data] peer] blocks [Hs Hm] _ IH]; intros d Hb; [by split; [constructor|]|].
  cbn [receive_chunks]. destruct (receive_blocked index d start data peer Hb Hs Hm) as [Hr Hb'].
  destruct (receive_chunk _ _ _) as [r d1]. cbn in Hr, Hb'. destruct (IH d1 Hb') as [Hrs Hb2].
  destruct (receive_chunks index d1 blocks) as [rs d2]. split; [by constructor|done].
Qed.

(** One byte that was not asked for blocks a piece: a chunk is stored without
    looking whether it was requested, and the chunks that follow at the same
    offset are dropped as duplicates.  After a chunk of one byte at the start of
    an empty piece, any number of blocks of that piece, each whole and at its
    place, leave it incomplete. *)
Theorem stray_byte_blocks_piece index d p byte rogue blocks :
  wf_download d -> 0 <= index -> get_piece d index = Some p -> downloaded p = false -> chuncks p = [] ->
  1 < pw_length (piece_work p) < U32_MAX ->
  Forall (fun c => 0 <= fst (fst c) /\ fst (fst c) mod BLOCK_SIZE = 0) blocks ->
  let '(results, d') := receive_chunks index d ((0, [byte], rogue) :: blocks) in
  Forall (fun r => r = None) results /\ dl_has_piece d' index = false.
Proof.
  intros Hd Hi Hp Hdl Hc Hl Hbl.
  assert (Hf : find_piece d index = Some (Z.to_nat index, p)) by by apply get_find_piece.
  assert (Hb : blocked index (snd (set_chuncks d index 0 [byte] rogue))).
  { unfold set_chuncks. rewrite Hf, Hc. cbn. split. eexists. split_and!.
    - by eapply find_piece_insert.
    - unfold get_piece. cbn. apply list_lookup_insert_eq. by eapply lookup_lt_Some.
    - done.
    - apply Hl.
    - apply Hl.
    - cbn. eexists. split; [by left|done].
    - cbn. by apply Forall_singleton. }
  cbn [receive_chunks]. destruct (blocked_check _ _ Hb) as [Er Ed]. unfold receive_chunk at 1. rewrite (surjective_pairing (set_downloaded_if_all_chunks _ _)), Er, Ed.
  destruct (receive_chunks_blocked index blocks _ Hbl Hb) as [Hrs [(q & _ & Hq & Hqd & _)]].
  destruct (receive_chunks _ _ _) as [rs d']. split; [by constructor|]. unfold dl_has_piece. cbn in Hq. by rewrite Hq.
Qed.

(** ** A pipeline whose requests timed out *)

Definition is_cancel (o : Output) : Prop := exists peer req, o = OutWriter peer (WriteMessage (cancel_of req)).

(** A download whose connection has no permit left. *)
Definition no_permits (p : Pipeline) : Prop := pl_permits p = 0%nat /\ (1 <= pl_depth p)%nat.
Definition starved (s : St) : Prop := w_state (st_w s) = TsDownloading /\ no_permits (h_pipeline (st_h s)).

(** Running [m] in a starved connection, with requests under way among [reqs],
    leaves it starved, adds no request and sends cancels only. *)
Definition stalls {A} (m : M A) : Prop :=
  forall s, starved s -> exists a out s', m s = Some (Ok a, out, s') /\ starved s' /\ Forall is_cancel out /\
    h_outstanding (st_h s') ⊆ h_outstanding (st_h s).

Lemma subset_empty {K V} `{Countable K} (m : gmap K V) : m ⊆ ∅ -> m = ∅.
Proof. intros Hm. apply map_empty. intros k. eapply lookup_weaken_None; [|exact Hm]. apply lookup_empty. Qed.

Section Stall.
Context (L : Lib) `{Hlib : LibOk L}.

Lemma stalls_ret {A} (a : A) : stalls (ret a).
Proof. intros s Hs. by eexists _, _, _. Qed.

Lemma stalls_bind {A B} (m : M A) (k : A -> M B) : stalls m -> (forall a, stalls (k a)) -> stalls (bind m k).
Proof.
  intros Hm Hk s Hs. destruct (Hm s Hs) as (a & out & s1 & E & Hs1 & Ho & Hi). destruct (Hk a s1 Hs1) as (b & out2 & s2 & E2 & Hs2 & Ho2 & Hi2).
  eexists _, _, _. split; [by eapply bind_ok|]. split; [done|]. split; [by apply Forall_app|by etrans].
Qed.

Lemma stalls_hget {A} (f : PeerHandler -> A) : stalls (hget f).
Proof. intros s Hs. by eexists _, _, _. Qed.

Lemma stalls_wget {A} (f : World -> A) : stalls (wget f).
Proof. intros s Hs. by eexists _, _, _. Qed.

Lemma stalls_wmod f : (forall w, w_state (f w) = w_state w) -> stalls (wmod f).
Proof. intros Hf s [Hw Hp]. eexists _, _, _. split; [done|]. split; [split; [by cbn; rewrite Hf|done]|done]. Qed.

Lemma stalls_hmod f :
  (forall h, no_permits (h_pipeline h) -> no_permits (h_pipeline (f h)) /\ h_outstanding (f h) ⊆ h_outstanding h) -> stalls (hmod f).
Proof. intros Hf s [Hw Hp]. destruct (Hf _ Hp) as [Hp' Ho]. eexists _, _, _. split; [done|]. split; [by split|done]. Qed.

Lemma stalls_when b m : stalls m -> stalls (when b m).
Proof. intros Hm. destruct b; [done|apply stalls_ret]. Qed.

Lemma stalls_for_each {A} (l : list A) f : (forall a, stalls (f a)) -> stalls (for_each l f).
Proof. intros Hf. induction l as [|a l IH]; [apply stalls_ret|by apply stalls_bind]. Qed.

Lemma halve_no_permits p : no_permits p -> no_permits (halve_pipeline p).
Proof.
  intros [Hp Hd]. pose proof (halve_le p Hd). pose proof (max_pipeline_range p). unfold halve_pipeline, set_pipeline_depth.
  set (k := Nat.max _ 1) in *. assert (1 <= clamp 1 (max_pipeline p) k <= pl_depth p)%nat by (unfold clamp; lia). set (n := clamp _ _ _) in *.
  destruct (Nat.eqb_spec n (pl_depth p)); [by split; cbn; [|lia]|]. destruct (Nat.ltb_spec (pl_depth p) n); [lia|]. split; cbn; [done|lia].
Qed.

Lemma stalls_halve : stalls (pmod halve_pipeline).
Proof. apply stalls_hmod. intros h Hh. split; [by apply halve_no_permits|done]. Qed.

Lemma stalls_dmod f : stalls (dmod f).
Proof. by apply stalls_wmod. Qed.

Lemma stalls_cancel req : stalls (send (cancel_of req)).
Proof. intros s Hs. eexists _, _, _. split; [done|]. split; [done|]. split; [|done]. apply Forall_singleton. by eexists _, _. Qed.

(** The body of the loop of [expire_stale_requests], after the removal. *)
Lemma stalls_release req :
  stalls (send (cancel_of req) >>> let* peer := hget h_peer in dmod (fun d => unassign_peer_blocks d peer) >>> release (br_index req)).
Proof.
  apply stalls_bind; [apply stalls_cancel|intros _]. apply stalls_bind; [apply stalls_hget|intros peer].
  apply stalls_bind; [apply stalls_dmod|intros _]. apply stalls_bind; [apply stalls_hget|intros ?]. apply stalls_dmod.
Qed.

Lemma expire_loop l s :
  starved s -> exists out s',
    for_each l (fun req => remove_outstanding req >>> send (cancel_of req) >>>
      let* peer := hget h_peer in dmod (fun d => unassign_peer_blocks d peer) >>> release (br_index req)) s = Some (Ok (), out, s') /\
    starved s' /\ Forall is_cancel out /\ h_outstanding (st_h s') ⊆ h_outstanding (st_h s) /\
    forall req, req ∈ l -> h_outstanding (st_h s') !! req = None.
Proof.
  revert s. induction l as [|req l IH]; intros s Hs.
  { eexists _, _. split_and!; [done..|]. by intros req ?%not_elem_of_nil. }
  set (s0 := mkSt (set_h_outstanding (delete req (h_outstanding (st_h s))) (st_h s)) (st_w s)).
  destruct (stalls_release req s0) as ([] & out1 & s1 & E1 & Hs1 & Ho1 & Hi1); [done|].
  destruct (IH s1 Hs1) as (out2 & s2 & E2 & Hs2 & Ho2 & Hi2 & Hn).
  assert (Hi : h_outstanding (st_h s2) ⊆ delete req (h_outstanding (st_h s))) by (etrans; [exact Hi2|exact Hi1]).
  exists ((([] ++ []) ++ out1) ++ out2), s2. split_and!; [|done| |etrans; [exact Hi|apply delete_subseteq]|].
  - cbn [for_each]. eapply bind_ok; [|exact E2]. eapply bind_ok; [by eapply bind_ok|exact E1].
  - rewrite app_nil_r. by apply Forall_app.
  - intros r [->|Hr]%elem_of_cons; [|by apply Hn]. eapply lookup_weaken_None; [|exact Hi]. apply lookup_delete_eq.
Qed.

Lemma stale_all now h :
  map_Forall (fun _ t => REQUEST_TIMEOUT <= since now t) (h_outstanding h) ->
  forall req, is_Some (h_outstanding h !! req) -> req ∈ stale_requests L now h.
Proof.
  intros Hall req [t Ht]. unfold stale_requests. apply list_elem_of_fmap. exists (req, t). split; [done|].
  apply list_elem_of_filter. split; [by eapply Hall|]. rewrite iter_perm. by apply elem_of_map_to_list.
Qed.

Lemma expire_clears now s :
  starved s -> exists out s', expire_stale_requests L now s = Some (Ok (), out, s') /\ starved s' /\ Forall is_cancel out /\
    h_outstanding (st_h s') ⊆ h_outstanding (st_h s) /\
    (map_Forall (fun _ t => REQUEST_TIMEOUT <= since now t) (h_outstanding (st_h s)) -> h_outstanding (st_h s') = ∅).
Proof.
  intros Hs. unfold expire_stale_requests.
  assert (Hnone : forall o : gmap BlockRequest Instant, o ⊆ h_outstanding (st_h s) ->
    (forall req, req ∈ stale_requests L now (st_h s) -> o !! req = None) ->
    map_Forall (fun _ t => REQUEST_TIMEOUT <= since now t) (h_outstanding (st_h s)) -> o = ∅).
  { intros o Ho Hn Hall. apply map_empty. intros req. destruct (h_outstanding (st_h s) !! req) eqn:E; [|by eapply lookup_weaken_None].
    apply Hn, stale_all; [done|by rewrite E]. }
  destruct (stale_requests L now (st_h s)) as [|r l] eqn:El.
  - eexists [], s. split; [unfold bind, hget; by rewrite El|]. split_and!; [done..|]. apply Hnone; [done|]. by intros ? ?%not_elem_of_nil.
  - destruct (stalls_halve s Hs) as ([] & out1 & s1 & E1 & Hs1 & Ho1 & Hi1). destruct (expire_loop (r :: l) s1 Hs1) as (out2 & s2 & E2 & Hs2 & Ho2 & Hi2 & Hn).
    exists ([] ++ out1 ++ out2), s2. split; [eapply bind_ok; [done|]; rewrite El; by eapply bind_ok|].
    split; [done|]. split; [cbn [app]; by apply Forall_app|]. split; [by etrans|]. by apply Hnone; [etrans|].
Qed.

Lemma stalls_expire now : stalls (expire_stale_requests L now).
Proof. intros s Hs. destruct (expire_clears now s Hs) as (out & s' & E & H1 & H2 & H3 & _). by eexists _, _, _. Qed.

Lemma stalls_snub now : stalls (maybe_snub now).
Proof.
  unfold maybe_snub. apply stalls_bind; [apply stalls_hget|]. intros h. destruct (dv_snubbed _); [apply stalls_ret|].
  destruct (first_some _ _); [|apply stalls_ret]. apply stalls_when. apply stalls_bind; [|intros _; apply stalls_dmod].
  unfold set_snubbed. apply stalls_bind; [by apply stalls_hmod|intros _]. apply stalls_bind; [apply stalls_hget|intros ?]. by apply stalls_wmod.
Qed.

(** The requester waiting for a permit: each time it is woken or its wait ends
    after 20 seconds. *)
Fixpoint requester_waits (steps : list (bool * Instant)) (pc : ReqPc) : M ReqPc :=
  match steps with
  | [] => ret pc
  | (timeout, now) :: steps =>
      let* pc := if timeout : bool then requester_timeout L now pc else requester_step L now pc in
      requester_waits steps pc
  end.

Lemma waits_one timeout now k req s :
  starved s -> exists out s',
    (if timeout : bool then requester_timeout L now (RqPermit k req) else requester_step L now (RqPermit k req)) s =
      Some (Ok (RqPermit k req), out, s') /\ starved s' /\ Forall is_cancel out /\ h_outstanding (st_h s') ⊆ h_outstanding (st_h s) /\
    (timeout = true -> map_Forall (fun _ t => REQUEST_TIMEOUT <= since now t) (h_outstanding (st_h s)) -> h_outstanding (st_h s') = ∅).
Proof.
  intros Hs. destruct timeout; [|eexists [], s; split; [unfold requester_step, bind, hget, take_permit; by destruct Hs as [_ [-> _]]|done]].
  destruct (stalls_halve s Hs) as ([] & o1 & s1 & E1 & Hs1 & Ho1 & Hi1).
  destruct (expire_clears now s1 Hs1) as (o2 & s2 & E2 & Hs2 & Ho2 & Hi2 & Hn).
  destruct (stalls_bind _ _ (stalls_expire now) (fun _ => stalls_snub now) s2 Hs2) as ([] & o3 & s3 & E3 & Hs3 & Ho3 & Hi3).
  exists (o1 ++ o2 ++ [] ++ o3 ++ []), s3. split; [|split; [done|split; [rewrite app_nil_r; by repeat (apply Forall_app; split)|split; [by etrans; [|etrans]|]]]].
  - cbn [requester_timeout]. eapply bind_ok; [exact E1|]. eapply bind_ok; [exact E2|]. eapply bind_ok; [done|].
    unfold is_downloading. destruct Hs2 as [-> _]. cbn. eapply bind_ok; [exact E3|done].
  - intros _ Hall. apply subset_empty. etrans; [exact Hi3|]. rewrite Hn; [done|]. intros r t Hr. eapply Hall. by eapply lookup_weaken.
Qed.

Lemma waits_stall steps k req s :
  starved s -> exists out s', requester_waits steps (RqPermit k req) s = Some (Ok (RqPermit k req), out, s') /\
    starved s' /\ Forall is_cancel out /\ h_outstanding (st_h s') ⊆ h_outstanding (st_h s).
Proof.
  revert s. induction steps as [|[timeout now] steps IH]; intros s Hs; [by eexists _, _|].
  destruct (waits_one timeout now k req s Hs) as (o1 & s1 & E1 & Hs1 & Ho1 & Hi1 & _).
  destruct (IH s1 Hs1) as (o2 & s2 & E2 & Hs2 & Ho2 & Hi2).
  exists (o1 ++ o2), s2. split; [by eapply bind_ok|]. split; [done|]. split; [by apply Forall_app|by etrans].
Qed.
End Stall.

(** A pipeline whose requests have all timed out stays empty: giving up a
    request does not give its permit back.  A requester that waits for a permit
    while none is left gives up its requests after 20 seconds and goes on waiting
    for good: whatever the times and however often it is woken, it sends cancels
    and never a request again, though nothing is under way any more. *)
Theorem timed_out_pipeline_stalls L now steps k req s :
  LibOk L -> w_state (st_w s) = TsDownloading -> (1 <= pl_depth (h_pipeline (st_h s)))%nat -> pl_permits (h_pipeline (st_h s)) = 0%nat ->
  map_Forall (fun _ t => REQUEST_TIMEOUT <= since now t) (h_outstanding (st_h s)) ->
  exists out s', requester_waits L ((true, now) :: steps) (RqPermit k req) s = Some (Ok (RqPermit k req), out, s') /\
    Forall is_cancel out /\ h_outstanding (st_h s') = ∅ /\ pl_permits (h_pipeline (st_h s')) = 0%nat.
Proof.
  intros HL Hd Hde Hp Hst. assert (Hs : starved s) by done.
  destruct (waits_one L true now k req s Hs) as (o1 & s1 & E1 & Hs1 & Ho1 & _ & He).
  destruct (waits_stall L steps k req s1 Hs1) as (o2 & s2 & E2 & [_ [Hp2 _]] & Ho2 & Hi2).
  exists (o1 ++ o2), s2. split_and!; [by eapply bind_ok|by apply Forall_app| |done].
  apply subset_empty. by rewrite <-(He eq_refl Hst).
Qed.

(** A connection with one request under way since the start, and no permit. *)
Definition example_stalled : St :=
  mkSt (set_h_pipeline (mkPipeline 1 250 true 0 0) (set_h_outstanding {[mkBlockRequest 0 0 20 := 0]} (from_config 0 (V4 1 1) (@ext_bind AnyExt (handler_ext example_lib) (mkExtContext (V4 1 1) true) []) false)))
    (start_world example_works example_storage [] TsDownloading).
