(* ===== verification/Rc4.v ===== *)
(** * RC4 and the encrypted stream (crates/bit_rev/src/mse/rc4.rs, mse/stream.rs)

    The cipher as a state that yields key bytes, and the stream that a finished
    encryption handshake returns: reading takes what the handshake left
    first, writing keeps encrypted bytes that the socket has not taken yet.  The
    socket is an argument: what its [poll_read] and [poll_write] answer. *)

From S2P Require Import Prelude.

(** ** The cipher *)

Record Rc4 := mkRc4 { rc_s : list u8; rc_i : u8; rc_j : u8 }.

(** [s.swap(a, b)]; both are in range, since [s] has 256 entries and an index is a
    byte. *)
Definition swap (s : list u8) (a b : nat) : list u8 := <[b := s !!! a]> (<[a := s !!! b]> s).

Fixpoint schedule (key : bytes) (idxs : list nat) (s : list u8) (j : u8) : list u8 :=
  match idxs with
  | [] => s
  | i :: idxs =>
      let j := wrap8 (wrap8 (j + s !!! i) + key !!! (i mod length key)%nat) in
      schedule key idxs (swap s i (Z.to_nat j)) j
  end.

(** [Rc4::new]; [None] is the failed assertion on an empty key. *)
Definition rc4_new (key : bytes) : option Rc4 :=
  match key with
  | [] => None
  | _ => Some (mkRc4 (schedule key (seq 0 256) (map Z.of_nat (seq 0 256)) 0) 0 0)
  end.

(** One round of [apply]: the next byte of the key stream. *)
Definition rc4_next (rc : Rc4) : u8 * Rc4 :=
  let i := wrap8 (rc_i rc + 1) in
  let j := wrap8 (rc_j rc + rc_s rc !!! Z.to_nat i) in
  let s := swap (rc_s rc) (Z.to_nat i) (Z.to_nat j) in
  (s !!! Z.to_nat (wrap8 (s !!! Z.to_nat i + s !!! Z.to_nat j)), mkRc4 s i j).

Fixpoint rc4_apply (rc : Rc4) (buf : bytes) : bytes * Rc4 :=
  match buf with
  | [] => ([], rc)
  | b :: buf =>
      let '(k, rc) := rc4_next rc in
      let '(out, rc) := rc4_apply rc buf in
      (Z.lxor b k :: out, rc)
  end.

(** [discard]: the loop over chunks of at most 64 bytes, whose contents do not
    matter. *)
Fixpoint discard_loop (fuel : nat) (sink : bytes) (kept : nat) (rc : Rc4) : Rc4 :=
  match fuel with
  | O => rc
  | S fuel =>
      if (kept =? 0)%nat then rc
      else
        let chunk := Nat.min kept (length sink) in
        let '(out, rc) := rc4_apply rc (take chunk sink) in
        discard_loop fuel (out ++ drop chunk sink) (kept - chunk) rc
  end.
Definition discard (n : nat) (rc : Rc4) : Rc4 := discard_loop n (replicate 64 0) n rc.

Definition for_mse (key : bytes) : option Rc4 :=
  match rc4_new key with Some rc => Some (discard 1024 rc) | None => None end.

(** ** Laws of the cipher *)

Fixpoint advance_n (n : nat) (rc : Rc4) : Rc4 :=
  match n with O => rc | S n => advance_n n (snd (rc4_next rc)) end.

Lemma apply_state rc buf : snd (rc4_apply rc buf) = advance_n (length buf) rc.
Proof.
  revert rc. induction buf as [|b buf IH]; intros rc; [done|]. cbn [rc4_apply length advance_n].
  destruct (rc4_next rc) as [k rc1]. specialize (IH rc1). cbn [snd]. by destruct (rc4_apply rc1 buf).
Qed.

Lemma length_apply rc buf : length (fst (rc4_apply rc buf)) = length buf.
Proof.
  revert rc. induction buf as [|b buf IH]; intros rc; [done|]. cbn [rc4_apply length].
  destruct (rc4_next rc) as [k rc1]. specialize (IH rc1). destruct (rc4_apply rc1 buf). cbn in *. by rewrite IH.
Qed.

Lemma apply_app rc a b :
  rc4_apply rc (a ++ b) =
  (fst (rc4_apply rc a) ++ fst (rc4_apply (advance_n (length a) rc) b), advance_n (length a + length b) rc).
Proof.
  revert rc. induction a as [|x a IH]; intros rc.
  - cbn [app rc4_apply fst length advance_n Nat.add]. rewrite <-apply_state. by destruct (rc4_apply rc b).
  - cbn [app rc4_apply length Nat.add advance_n]. destruct (rc4_next rc) as [k rc1] eqn:E. cbn [snd].
    rewrite IH. by destruct (rc4_apply rc1 a).
Qed.

Lemma apply_twice rc buf : fst (rc4_apply rc (fst (rc4_apply rc buf))) = buf.
Proof.
  revert rc. induction buf as [|b buf IH]; intros rc; [done|]. cbn [rc4_apply].
  destruct (rc4_next rc) as [k rc1] eqn:E. specialize (IH rc1). destruct (rc4_apply rc1 buf) as [out rc2] eqn:E2. cbn [fst rc4_apply].
  rewrite E. cbn [fst] in IH. destruct (rc4_apply rc1 out) as [out' rc3] eqn:E3. cbn [fst] in *. subst.
  by rewrite Z.lxor_assoc, Z.lxor_nilpotent, Z.lxor_0_r.
Qed.

Lemma advance_add n m rc : advance_n (n + m) rc = advance_n m (advance_n n rc).
Proof. revert rc. induction n as [|n IH]; intros rc; [done|]. apply IH. Qed.

Lemma discard_spec n rc : discard n rc = advance_n n rc.
Proof.
  unfold discard. assert (H : forall fuel sink kept rc, (kept <= fuel)%nat -> length sink = 64%nat -> discard_loop fuel sink kept rc = advance_n kept rc).
  { induction fuel as [|fuel IH]; intros sink kept rc' Hl Hs; cbn [discard_loop]; [by assert (kept = 0)%nat as -> by lia|].
    destruct (Nat.eqb_spec kept 0) as [->|Hne]; [done|].
    pose proof (apply_state rc' (take (Nat.min kept (length sink)) sink)) as E. pose proof (length_apply rc' (take (Nat.min kept (length sink)) sink)) as El.
    destruct (rc4_apply rc' _) as [out rc1]. cbn in E, El. rewrite length_take in E, El.
    rewrite IH by (rewrite ?length_app, ?length_drop; lia). rewrite E, <-advance_add. f_equal. lia. }
  apply H; [done|by rewrite length_replicate].
Qed.

(** The bytes of the cipher are bytes. *)
Definition wf_rc4 (rc : Rc4) : Prop := length (rc_s rc) = 256%nat /\ wf_bytes (rc_s rc).

Lemma wf_lookup_total (s : bytes) n : wf_bytes s -> is_u8 (s !!! n).
Proof.
  intros Hs. rewrite list_lookup_total_alt. destruct (s !! n) eqn:E; cbn; [|ranges].
  by apply (Forall_lookup_1 _ _ _ _ Hs E).
Qed.

Lemma wf_swap s a b : wf_bytes s -> wf_bytes (swap s a b).
Proof. intros Hs. unfold swap. apply Forall_insert; [apply Forall_insert; [done|]|]; by apply wf_lookup_total. Qed.

Lemma length_swap s a b : length (swap s a b) = length s.
Proof. unfold swap. by rewrite !length_insert. Qed.

Lemma wf_schedule key idxs s j : wf_bytes s -> wf_bytes (schedule key idxs s j) /\ length (schedule key idxs s j) = length s.
Proof.
  revert s j. induction idxs as [|i idxs IH]; intros s j Hs; [done|]. cbn [schedule].
  destruct (IH (swap s i (Z.to_nat (wrap8 (wrap8 (j + s !!! i) + key !!! (i mod length key)%nat)))) (wrap8 (wrap8 (j + s !!! i) + key !!! (i mod length key)%nat))) as [H1 H2].
  { by apply wf_swap. }
  split; [done|]. by rewrite H2, length_swap.
Qed.

Lemma wf_initial key idxs n : n = 256%nat -> wf_rc4 (mkRc4 (schedule key idxs (map Z.of_nat (seq 0 n)) 0) 0 0).
Proof.
  intros Hn. destruct (wf_schedule key idxs (map Z.of_nat (seq 0 n)) 0) as [H1 H2].
  { apply Forall_forall. intros x (k & -> & Hk)%list_elem_of_fmap. apply elem_of_seq in Hk. ranges. }
  split; cbn [rc_s]; [by rewrite H2, length_map, length_seq|done].
Qed.

Lemma rc4_new_wf key rc : rc4_new key = Some rc -> wf_rc4 rc.
Proof.
  destruct key as [|k key]; unfold rc4_new; [done|]. intros H. apply (inj Some) in H. rewrite <-H. by apply wf_initial.
Qed.

Lemma rc4_next_wf rc : wf_rc4 rc -> is_u8 (fst (rc4_next rc)) /\ wf_rc4 (snd (rc4_next rc)).
Proof.
  intros [Hl Hs]. unfold rc4_next. cbn [fst snd]. split; [by apply wf_lookup_total, wf_swap|]. split; cbn [rc_s]; [by rewrite length_swap|by apply wf_swap].
Qed.

Lemma advance_wf n rc : wf_rc4 rc -> wf_rc4 (advance_n n rc).
Proof. revert rc. induction n as [|n IH]; intros rc H; [done|]. cbn. apply IH. by apply rc4_next_wf. Qed.

Lemma apply_wf rc buf : wf_rc4 rc -> wf_bytes buf -> wf_bytes (fst (rc4_apply rc buf)).
Proof.
  revert rc. induction buf as [|b buf IH]; intros rc Hrc Hb; [constructor|]. cbn [rc4_apply].
  apply Forall_cons in Hb as [Hb Hbuf]. destruct (rc4_next_wf rc Hrc) as [Hk Hn]. destruct (rc4_next rc) as [k rc1]. cbn in Hk, Hn.
  specialize (IH rc1 Hn Hbuf). destruct (rc4_apply rc1 buf) as [out rc2]. cbn in *. constructor; [by apply is_u8_lxor|done].
Qed.

Lemma for_mse_total key : key <> [] -> exists rc, for_mse key = Some rc /\ wf_rc4 rc.
Proof.
  intros Hk. unfold for_mse. destruct (rc4_new key) as [rc|] eqn:E; [|by destruct key].
  eexists. split; [done|]. rewrite discard_spec. apply advance_wf. by eapply rc4_new_wf.
Qed.

(** ** The stream *)

Inductive Poll (A : Type) := Pending | Ready (a : A).
Arguments Pending {A}.
Arguments Ready {A} a.

Inductive IoError := UnexpectedEof | WriteZero | OtherIo.

Record EncryptedStream := mkStream {
  es_enc : option Rc4;
  es_dec : option Rc4;
  es_prefix : bytes;
  es_pending : bytes;
  es_src_len : nat }.

Definition es_new (enc dec : option Rc4) (prefix : bytes) : EncryptedStream := mkStream enc dec prefix [] 0.
Definition es_rc4 (enc dec : Rc4) (prefix : bytes) : EncryptedStream := es_new (Some enc) (Some dec) prefix.
Definition es_plaintext (prefix : bytes) : EncryptedStream := es_new None None prefix.
Definition is_encrypted (st : EncryptedStream) : bool := match es_enc st with Some _ => true | None => false end.

Definition set_write (enc : option Rc4) (pending : bytes) (src_len : nat) (st : EncryptedStream) : EncryptedStream :=
  mkStream enc (es_dec st) (es_prefix st) pending src_len.

(** [poll_read] into a buffer with room for [cap] bytes; [inner] is what the
    socket gives for that room. *)
Definition es_poll_read (cap : nat) (inner : nat -> Poll (result bytes IoError)) (st : EncryptedStream)
    : Poll (result bytes IoError) * EncryptedStream :=
  match es_prefix st with
  | _ :: _ =>
      let n := Nat.min (length (es_prefix st)) cap in
      (Ready (Ok (take n (es_prefix st))), mkStream (es_enc st) (es_dec st) (drop n (es_prefix st)) (es_pending st) (es_src_len st))
  | [] =>
      match inner cap with
      | Ready (Ok data) =>
          match es_dec st with
          | Some dec =>
              let '(out, dec) := rc4_apply dec data in
              (Ready (Ok out), mkStream (es_enc st) (Some dec) (es_prefix st) (es_pending st) (es_src_len st))
          | None => (Ready (Ok data), st)
          end
      | other => (other, st)
      end
  end.

(** [poll_flush_pending]: the socket answers each write in turn; when it has no
    answer it is pending.  The bytes it took come with the result. *)
Fixpoint flush_loop (answers : list (Poll (result nat IoError))) (pending : bytes)
    : Poll (result () IoError) * bytes * bytes * list (Poll (result nat IoError)) :=
  match pending with
  | [] => (Ready (Ok ()), [], [], answers)
  | _ =>
      match answers with
      | [] => (Pending, [], pending, [])
      | Ready (Ok n) :: answers =>
          if (n =? 0)%nat then (Ready (Err WriteZero), [], pending, answers)
          else
            let '(r, sent, kept, answers) := flush_loop answers (drop n pending) in
            (r, take n pending ++ sent, kept, answers)
      | Ready (Err e) :: answers => (Ready (Err e), [], pending, answers)
      | Pending :: answers => (Pending, [], pending, answers)
      end
  end.

(** [poll_write]: the result, the bytes the socket took, the new state. *)
Definition es_poll_write (answers : list (Poll (result nat IoError))) (buf : bytes) (st : EncryptedStream)
    : Poll (result nat IoError) * bytes * EncryptedStream :=
  let '(r, sent, kept, answers) := flush_loop answers (es_pending st) in
  match r with
  | Ready (Err e) => (Ready (Err e), sent, set_write (es_enc st) kept (es_src_len st) st)
  | Pending => (Pending, sent, set_write (es_enc st) kept (es_src_len st) st)
  | Ready (Ok _) =>
      if (0 <? es_src_len st)%nat then (Ready (Ok (es_src_len st)), sent, set_write (es_enc st) kept 0 st)
      else match buf with
      | [] => (Ready (Ok 0%nat), sent, set_write (es_enc st) kept (es_src_len st) st)
      | _ =>
          match es_enc st with
          | Some enc =>
              let '(pending, enc) := rc4_apply enc (kept ++ buf) in
              let '(r, sent', kept, _) := flush_loop answers pending in
              match r with
              | Ready (Ok _) => (Ready (Ok (length buf)), sent ++ sent', set_write (Some enc) kept 0 st)
              | Ready (Err e) => (Ready (Err e), sent ++ sent', set_write (Some enc) [] 0 st)
              | Pending => (Pending, sent ++ sent', set_write (Some enc) kept (length buf) st)
              end
          | None =>
              match answers with
              | Ready (Ok n) :: _ => (Ready (Ok n), sent ++ take n buf, set_write None kept (es_src_len st) st)
              | Ready (Err e) :: _ => (Ready (Err e), sent, set_write None kept (es_src_len st) st)
              | _ => (Pending, sent, set_write None kept (es_src_len st) st)
              end
          end
      end
  end.

Definition es_poll_flush (answers : list (Poll (result nat IoError))) (st : EncryptedStream)
    : Poll (result () IoError) * bytes * EncryptedStream :=
  let '(r, sent, kept, _) := flush_loop answers (es_pending st) in
  match r with
  | Ready (Ok _) => (Ready (Ok ()), sent, set_write (es_enc st) kept 0 st)
  | other => (other, sent, set_write (es_enc st) kept (es_src_len st) st)
  end.

Lemma flush_loop_spec answers pending :
  let '(r, sent, kept, _) := flush_loop answers pending in
  sent ++ kept = pending /\ (r = Ready (Ok ()) -> kept = []).
Proof.
  revert pending. induction answers as [|a answers IH]; intros pending; destruct pending as [|b pending]; try done.
  destruct a as [|[n|e]]; [done| |done]. cbn [flush_loop]. destruct (Nat.eqb_spec n 0); [done|].
  specialize (IH (drop n (b :: pending))). destruct (flush_loop answers _) as [[[r sent] kept] rest].
  destruct IH as [IH1 IH2]. split; [|done]. rewrite <-app_assoc, IH1. apply take_drop.
Qed.

(** ** Writing is exact *)

(** A writer keeps to the contract of [poll_write]: while a call is under way it
    repeats the same buffer, [wr_buf], and it flushes only in between.  A call that
    fails is its last. *)
Record Writer := mkWriter {
  wr_stream : EncryptedStream; wr_sent : bytes; wr_taken : bytes; wr_buf : option bytes; wr_failed : bool }.

Inductive write_step : Writer -> Writer -> Prop :=
| write_call w buf answers r sent st :
    wr_failed w = false -> match wr_buf w with Some b => buf = b | None => True end -> buf <> [] ->
    es_poll_write answers buf (wr_stream w) = (r, sent, st) ->
    write_step w (mkWriter st (wr_sent w ++ sent)
      (match r with Ready (Ok n) => wr_taken w ++ take n buf | _ => wr_taken w end)
      (match r with Ready (Ok _) => None | _ => Some buf end)
      (match r with Ready (Err _) => true | _ => false end))
| write_flush w answers r sent st :
    wr_failed w = false -> wr_buf w = None -> es_poll_flush answers (wr_stream w) = (r, sent, st) ->
    write_step w (mkWriter st (wr_sent w ++ sent) (wr_taken w) None false).

Inductive write_steps : Writer -> Writer -> Prop :=
| write_refl w : write_steps w w
| write_trans w w' w'' : write_steps w w' -> write_step w' w'' -> write_steps w w''.

(** What has gone to the socket and what is kept is the encryption of what the
    writer gave; what was reported as written has gone. *)
Record writer_ok (rc : Rc4) (w : Writer) : Prop := {
  wk_state : es_enc (wr_stream w) = Some (advance_n (length (wr_taken w) + length (default [] (wr_buf w))) rc);
  wk_bytes : wr_sent w ++ es_pending (wr_stream w) = fst (rc4_apply rc (wr_taken w ++ default [] (wr_buf w)));
  wk_len : es_src_len (wr_stream w) = length (default [] (wr_buf w));
  wk_taken : fst (rc4_apply rc (wr_taken w)) `prefix_of` wr_sent w;
  wk_idle : wr_buf w = None -> es_pending (wr_stream w) = [];
  wk_busy : wr_buf w <> Some [] }.

(** The same of what has gone, which is all that is left after a failure. *)
Definition sent_ok (rc : Rc4) (w : Writer) : Prop :=
  fst (rc4_apply rc (wr_taken w)) `prefix_of` wr_sent w /\
  wr_sent w `prefix_of` fst (rc4_apply rc (wr_taken w ++ default [] (wr_buf w))).

Definition writer_inv (rc : Rc4) (w : Writer) : Prop := sent_ok rc w /\ (wr_failed w = false -> writer_ok rc w).

Lemma writer_ok_inv rc w : writer_ok rc w -> writer_inv rc w.
Proof. intros H. split; [|done]. split; [apply H|]. rewrite <-(wk_bytes _ _ H). by eexists. Qed.

Lemma flush_nil answers : flush_loop answers [] = (Ready (Ok ()), [], [], answers).
Proof. by destruct answers. Qed.

(** A call of [poll_write] in whatever state the writer is. *)
Definition after_write (w : Writer) (buf : bytes) (r : Poll (result nat IoError)) (sent : bytes) (st : EncryptedStream) : Writer :=
  mkWriter st (wr_sent w ++ sent) (match r with Ready (Ok n) => wr_taken w ++ take n buf | _ => wr_taken w end)
    (match r with Ready (Ok _) => None | _ => Some buf end) (match r with Ready (Err _) => true | _ => false end).

(** A writer with nothing under way starts a buffer. *)
Lemma write_fresh_ok rc w buf answers r sent st :
  writer_ok rc w -> wr_buf w = None -> buf <> [] -> es_poll_write answers buf (wr_stream w) = (r, sent, st) ->
  writer_inv rc (after_write w buf r sent st).
Proof.
  intros [He Hb Hl Ht Hi _] Eb Hne Hp. rewrite Eb in *. cbn in *. specialize (Hi eq_refl). unfold es_poll_write in Hp.
  rewrite Hi, flush_nil, Hl in Hp. rewrite Hi, !app_nil_r in Hb. rewrite Nat.add_0_r in He. cbn [Nat.ltb Nat.leb] in Hp.
  destruct buf as [|b0 buf0]; [done|]. set (buf := b0 :: buf0) in *. rewrite He in Hp. cbn [app] in Hp.
  pose proof (apply_app rc (wr_taken w) buf) as Ha. pose proof (apply_state (advance_n (length (wr_taken w)) rc) buf) as Hs.
  rewrite <-advance_add in Hs.
  destruct (rc4_apply (advance_n (length (wr_taken w)) rc) buf) as [pending enc]. cbn [fst snd] in *. subst enc.
  pose proof (flush_loop_spec answers pending) as Hf. destruct (flush_loop answers pending) as [[[r1 sent1] kept1] answers1].
  destruct Hf as [Hf1 Hf2]. assert (Hsent : fst (rc4_apply rc (wr_taken w)) `prefix_of` wr_sent w ++ sent1) by by apply prefix_app_r.
  destruct r1 as [|[[]|e]]; injection Hp as <- <- <-.
  - apply writer_ok_inv. split; cbn [after_write wr_stream wr_sent wr_taken wr_buf from_option id set_write es_enc es_pending es_src_len]; try done.
    by rewrite Ha, <-app_assoc, Hf1, Hb.
  - specialize (Hf2 eq_refl); subst kept1; rewrite app_nil_r in Hf1. apply writer_ok_inv.
    split; cbn [after_write wr_stream wr_sent wr_taken wr_buf from_option id set_write es_enc es_pending es_src_len]; try done.
    + rewrite take_ge, length_app by done. by rewrite Nat.add_0_r.
    + rewrite take_ge, !app_nil_r by done. by rewrite Ha, Hb, Hf1.
    + rewrite take_ge by done. by rewrite Ha, Hb, Hf1.
  - split; [|done]. split; [done|]. cbn. rewrite Ha, Hb, <-Hf1. cbn [fst]. apply prefix_app, prefix_app_r. done.
Qed.

(** A writer repeats the buffer under way: nothing is encrypted again. *)
Lemma write_again_ok rc w buf answers r sent st :
  writer_ok rc w -> wr_buf w = Some buf -> es_poll_write answers buf (wr_stream w) = (r, sent, st) ->
  writer_inv rc (after_write w buf r sent st).
Proof.
  intros [He Hb Hl Ht Hi Hbusy] Eb Hp. rewrite Eb in *. cbn in *. assert (buf <> []) by congruence. unfold es_poll_write in Hp.
  pose proof (flush_loop_spec answers (es_pending (wr_stream w))) as Hf.
  destruct (flush_loop answers (es_pending (wr_stream w))) as [[[r1 sent1] kept1] answers1]. destruct Hf as [Hf1 Hf2].
  assert (Hsent : fst (rc4_apply rc (wr_taken w)) `prefix_of` wr_sent w ++ sent1) by by apply prefix_app_r.
  destruct r1 as [|[[]|e]]; [injection Hp as <- <- <-| |injection Hp as <- <- <-].
  - apply writer_ok_inv. split; cbn [after_write wr_stream wr_sent wr_taken wr_buf from_option id set_write es_enc es_pending es_src_len]; try done.
    by rewrite <-app_assoc, Hf1.
  - specialize (Hf2 eq_refl). subst kept1. rewrite app_nil_r in Hf1. rewrite Hl in Hp. destruct (Nat.ltb_spec 0 (length buf)); [|destruct buf; cbn in *; [done|lia]].
    injection Hp as <- <- <-. apply writer_ok_inv.
    split; cbn [after_write wr_stream wr_sent wr_taken wr_buf from_option id set_write es_enc es_pending es_src_len]; try done.
    + by rewrite firstn_all, length_app, Nat.add_0_r.
    + by rewrite firstn_all, !app_nil_r, <-Hb, Hf1.
    + by rewrite firstn_all, <-Hb, Hf1.
  - split; [|done]. split; [done|]. cbn. rewrite <-Hb, <-Hf1. apply prefix_app, prefix_app_r. done.
Qed.

Lemma write_step_ok rc w w' : writer_inv rc w -> write_step w w' -> writer_inv rc w'.
Proof.
  intros [_ Hw] Hstep. inversion Hstep as [w0 buf answers r sent st Hf Hbuf Hne Hp|w0 answers r sent st Hf Hbuf Hp]; subst w0 w'; specialize (Hw Hf).
  - destruct (wr_buf w) as [b|] eqn:Eb; [subst buf; by eapply write_again_ok|by eapply write_fresh_ok].
  - apply writer_ok_inv. unfold es_poll_flush in Hp. destruct Hw as [He Hb Hl Ht Hi Hbusy]. rewrite (Hi Hbuf), flush_nil in *.
    injection Hp as <- <- <-. rewrite Hbuf in *. split; cbn in *; rewrite ?app_nil_r in *; done.
Qed.

Lemma write_steps_ok rc w w' : writer_inv rc w -> write_steps w w' -> writer_inv rc w'.
Proof. intros Hw. induction 1 as [|w w' w'' _ IH Hs]; [done|]. eapply write_step_ok; [by apply IH|done]. Qed.

(** The other side reads what has arrived, in whatever portions. *)
Fixpoint read_all (chunks : list bytes) (st : EncryptedStream) : bytes :=
  match chunks with
  | [] => []
  | c :: chunks =>
      match es_poll_read (length c) (fun _ => Ready (Ok c)) st with
      | (Ready (Ok out), st) => out ++ read_all chunks st
      | (_, st) => read_all chunks st
      end
  end.

Lemma read_all_spec chunks st dec :
  es_prefix st = [] -> es_dec st = Some dec -> read_all chunks st = fst (rc4_apply dec (concat chunks)).
Proof.
  revert st dec. induction chunks as [|c chunks IH]; intros st dec Hp Hd; [done|].
  cbn [read_all concat]. unfold es_poll_read. rewrite Hp, Hd, apply_app. cbn [fst].
  pose proof (apply_state dec c) as Hs. destruct (rc4_apply dec c) as [out dec']. cbn [fst snd] in *. subst dec'.
  f_equal. by apply IH.
Qed.

Lemma apply_prefix rc a b : fst (rc4_apply rc a) `prefix_of` fst (rc4_apply rc (a ++ b)).
Proof. rewrite apply_app. cbn [fst]. by eexists. Qed.

Lemma apply_mono rc a b : a `prefix_of` b -> fst (rc4_apply rc a) `prefix_of` fst (rc4_apply rc b).
Proof. intros [k ->]. apply apply_prefix. Qed.


(** A key, a buffer the socket takes in three calls, and two portions read. *)
Definition example_rc4 : Rc4 := default (mkRc4 [] 0 0) (for_mse [1; 2; 3]).
Definition example_writer : Writer :=
  match es_poll_write [Ready (Ok 2%nat); Pending] [7; 8; 9; 10] (es_new (Some example_rc4) None []) with
  | (_, sent, st) => mkWriter st sent [] (Some [7; 8; 9; 10]) false
  end.

