(* ===== verification/Mse.v ===== *)
(** * Stream encryption (crates/bit_rev/src/mse/)

    The policy ([mod.rs]), the key exchange ([dh.rs]), the derived keys
    ([hash.rs]) and the handshake of both sides ([handshake.rs]).  A side is a
    process that writes to and reads from its connection; [advance] runs it on
    the bytes that have arrived until it waits or ends, with the sizes of the
    partial reads as an argument.  SHA-1, the private keys and the padding are
    arguments too; the time limit of the handshake is left out. *)

From Stdlib Require Import Zpow_facts.
From S2P Require Import Prelude Rc4.

(** ** Policy *)

Definition CRYPTO_PLAINTEXT : u32 := 1.
Definition CRYPTO_RC4 : u32 := 2.

Inductive CryptoMethod := Plaintext | MethodRc4.

#[export] Instance CryptoMethod_eq_dec : EqDecision CryptoMethod.
Proof. solve_decision. Defined.

Definition method_as_u32 (m : CryptoMethod) : u32 :=
  match m with Plaintext => CRYPTO_PLAINTEXT | MethodRc4 => CRYPTO_RC4 end.
Definition is_rc4 (m : CryptoMethod) : bool := match m with MethodRc4 => true | Plaintext => false end.

Inductive EncryptionPolicy := Disabled | PreferPlaintext | PreferEncrypted | RequireEncrypted.

Definition crypto_provide (p : EncryptionPolicy) : u32 :=
  match p with
  | Disabled => 0
  | RequireEncrypted => CRYPTO_RC4
  | PreferPlaintext | PreferEncrypted => Z.lor CRYPTO_PLAINTEXT CRYPTO_RC4
  end.

Definition policy_select (p : EncryptionPolicy) (provided : u32) : option CryptoMethod :=
  let plain := negb (Z.land provided CRYPTO_PLAINTEXT =? 0) in
  let rc4 := negb (Z.land provided CRYPTO_RC4 =? 0) in
  match p with
  | Disabled => None
  | RequireEncrypted => if rc4 then Some MethodRc4 else None
  | PreferEncrypted => if rc4 then Some MethodRc4 else if plain then Some Plaintext else None
  | PreferPlaintext => if plain then Some Plaintext else if rc4 then Some MethodRc4 else None
  end.

Definition allows_plaintext (p : EncryptionPolicy) : bool := match p with RequireEncrypted => false | _ => true end.
Definition allows_mse (p : EncryptionPolicy) : bool := match p with Disabled => false | _ => true end.
Definition allows_fallback (p : EncryptionPolicy) : bool := match p with PreferEncrypted | PreferPlaintext => true | _ => false end.
Definition prefer_mse_first (p : EncryptionPolicy) : bool := match p with PreferEncrypted | RequireEncrypted => true | _ => false end.

(** ** Key exchange *)

Definition MSE_PRIME : bytes :=
  [255; 255; 255; 255; 255; 255; 255; 255; 201; 15; 218; 162; 33; 104; 194; 52;
   196; 198; 98; 139; 128; 220; 28; 209; 41; 2; 78; 8; 138; 103; 204; 116;
   2; 11; 190; 166; 59; 19; 155; 34; 81; 74; 8; 121; 142; 52; 4; 221;
   239; 149; 25; 179; 205; 58; 67; 27; 48; 43; 10; 109; 242; 95; 20; 55;
   79; 225; 53; 109; 109; 81; 194; 69; 228; 133; 181; 118; 98; 94; 126; 198;
   244; 76; 66; 233; 166; 58; 54; 33; 0; 0; 0; 0; 0; 9; 5; 99].
Definition PUBLIC_KEY_LEN : nat := 96.

(** [BigUint::from_bytes_be], [modpow] and [to_bytes_be], which has no leading
    zeros. *)
Definition prime : Z := of_be MSE_PRIME.
Definition modpow (base exponent m : Z) : Z := Zpow_mod base exponent m.
Definition to_bytes_be (n : Z) : bytes := be_bytes (S (Z.to_nat (Z.log2 n / 8))) n.

Definition pad_96 (n : Z) : bytes :=
  let bs := to_bytes_be n in
  if (PUBLIC_KEY_LEN <=? length bs)%nat then drop (length bs - PUBLIC_KEY_LEN) bs
  else replicate (PUBLIC_KEY_LEN - length bs) 0 ++ bs.

Definition modpow_g2 (private : Z) : bytes := pad_96 (modpow 2 private prime).
Definition shared_secret (private : Z) (peer_public : bytes) : bytes := pad_96 (modpow (of_be peer_public) private prime).

(** ** Derived values *)

Section Hash.
Context (sha1 : bytes -> bytes).

Definition hash_req1 (s : bytes) : bytes := sha1 ([114; 101; 113; 49] ++ s).
Definition hash_req2 (skey : bytes) : bytes := sha1 ([114; 101; 113; 50] ++ skey).
Definition hash_req3 (s : bytes) : bytes := sha1 ([114; 101; 113; 51] ++ s).
Definition key_a (s skey : bytes) : bytes := sha1 ([107; 101; 121; 65] ++ s ++ skey).
Definition key_b (s skey : bytes) : bytes := sha1 ([107; 101; 121; 66] ++ s ++ skey).
End Hash.

Definition xor20 (a b : bytes) : bytes := zip_with Z.lxor a b.

(** [haystack.windows(needle.len()).position(..)] *)
Definition windows (n : nat) (l : bytes) : list bytes := map (fun i => take n (drop i l)) (seq 0 (S (length l - n))).
Definition find_slice (haystack needle : bytes) : option nat :=
  if (length needle =? 0)%nat || (length haystack <? length needle)%nat then None
  else position (fun w => bool_decide (w = needle)) (windows (length needle) haystack).

(** ** Processes *)

Inductive MseError :=
| MIo (e : IoError) | SyncNotFound | UnknownTorrent | CryptoNegotiation | InvalidVc
| PaddingTooLarge (n : u16) | InitialPayloadTooLarge (n : u16) | PlaintextNotAllowed | PlaintextPeer.

Inductive Proc (A : Type) :=
| PRet (r : result A MseError)
| PPanic
| PWrite (b : bytes) (k : Proc A)
| PReadExact (n : nat) (k : bytes -> Proc A)
| PRead (want : nat) (k : bytes -> Proc A).
Arguments PRet {A} r.
Arguments PPanic {A}.
Arguments PWrite {A} b k.
Arguments PReadExact {A} n k.
Arguments PRead {A} want k.

Fixpoint pbind {A B} (p : Proc A) (k : A -> Proc B) : Proc B :=
  match p with
  | PRet (Ok a) => k a
  | PRet (Err e) => PRet (Err e)
  | PPanic => PPanic
  | PWrite b p => PWrite b (pbind p k)
  | PReadExact n f => PReadExact n (fun b => pbind (f b) k)
  | PRead want f => PRead want (fun b => pbind (f b) k)
  end.

Declare Scope mse_scope.
Delimit Scope mse_scope with mse.
Notation "'let@' x ':=' m 'in' k" := (pbind m (fun x => k))
  (at level 10, x pattern, m at level 100, k at level 200) : mse_scope.
Open Scope mse_scope.

Definition perr {A} (e : MseError) : Proc A := PRet (Err e).
Definition pok {A} (a : A) : Proc A := PRet (Ok a).

(** ** The handshake *)

Definition MAX_PAD : nat := 512.
Definition VC_LEN : nat := 8.
Definition MAX_IA : Z := 65535.
Definition INITIATOR_SYNC_MAX : nat := MAX_PAD + VC_LEN.
Definition RESPONDER_SYNC_MAX : nat := MAX_PAD + 20.
Definition VC : bytes := replicate VC_LEN 0.
(** [BT_HANDSHAKE_HEAD] of [transport/mod.rs]. *)
Definition BT_HANDSHAKE_HEAD : bytes :=
  [19; 66; 105; 116; 84; 111; 114; 114; 101; 110; 116; 32; 112; 114; 111; 116; 111; 99; 111; 108].

(** [random_pad], with the random generator as an argument. *)
Definition random_pad (fill : nat -> bytes) : bytes :=
  let len := (Z.to_nat (of_be (fill 2)) mod (MAX_PAD + 1))%nat in
  if (len =? 0)%nat then [] else fill len.

(** The loop of [read_until]: every round reads at least one byte. *)
Fixpoint read_until_loop (fuel : nat) (pattern : bytes) (max read_total : nat) (buf : bytes) : Proc bytes :=
  match fuel with
  | O => perr SyncNotFound
  | S fuel =>
      if (max <=? read_total)%nat then perr SyncNotFound
      else PRead (Nat.min (max - read_total) 64) (fun data =>
        match data with
        | [] => perr (MIo UnexpectedEof)
        | _ =>
            let read_total := (read_total + length data)%nat in
            let buf := buf ++ data in
            match find_slice buf pattern with
            | Some pos => pok (drop (pos + length pattern) buf)
            | None =>
                let buf := if (length pattern <? length buf)%nat then drop (length buf - (length pattern - 1)) buf else buf in
                read_until_loop fuel pattern max read_total buf
            end
        end)
  end.
Definition read_until (pattern : bytes) (max : nat) : Proc bytes := read_until_loop (S max) pattern max 0 [].

(** [PrefixedStream]: [read_exact] takes what was read too far first. *)
Definition pread (n : nat) (prefix : bytes) : Proc (bytes * bytes) :=
  if (n <=? length prefix)%nat then pok (take n prefix, drop n prefix)
  else PReadExact (n - length prefix) (fun b => pok (prefix ++ b, [])).

Definition read_dec (n : nat) (prefix : bytes) (dec : Rc4) : Proc (bytes * bytes * Rc4) :=
  let@ (buf, prefix) := pread n prefix in
  let '(buf, dec) := rc4_apply dec buf in
  pok (buf, prefix, dec).

Definition read_u32_dec (prefix : bytes) (dec : Rc4) : Proc (u32 * bytes * Rc4) :=
  let@ (buf, prefix, dec) := read_dec 4 prefix dec in pok (of_be buf, prefix, dec).
Definition read_u16_dec (prefix : bytes) (dec : Rc4) : Proc (u16 * bytes * Rc4) :=
  let@ (buf, prefix, dec) := read_dec 2 prefix dec in pok (of_be buf, prefix, dec).

Fixpoint skip_loop (fuel : nat) (remaining : nat) (prefix : bytes) (dec : Rc4) : Proc (bytes * Rc4) :=
  match fuel with
  | O => pok (prefix, dec)
  | S fuel =>
      if (remaining =? 0)%nat then pok (prefix, dec)
      else
        let n := Nat.min remaining 64 in
        let@ (_, prefix, dec) := read_dec n prefix dec in
        skip_loop fuel (remaining - n) prefix dec
  end.
Definition skip_dec (len : nat) (prefix : bytes) (dec : Rc4) : Proc (bytes * Rc4) := skip_loop len len prefix dec.

Record HandshakeOutcome := mkOutcome { ho_stream : EncryptedStream; ho_selected : CryptoMethod; ho_skey : bytes }.

Definition finish_stream (selected : CryptoMethod) (enc dec : Rc4) (prefix : bytes) : EncryptedStream :=
  match selected with
  | MethodRc4 => es_rc4 enc dec prefix
  | Plaintext => es_plaintext prefix
  end.

Definition method_from_select (crypto_select provide : u32) (allow_plaintext : bool) : result CryptoMethod MseError :=
  let chosen := Z.land crypto_select provide in
  if chosen =? CRYPTO_RC4 then Ok MethodRc4
  else if chosen =? CRYPTO_PLAINTEXT then if allow_plaintext then Ok Plaintext else Err PlaintextNotAllowed
  else Err CryptoNegotiation.

Definition lookup_skey (sha1 : bytes -> bytes) (keys : list bytes) (req2_hash : bytes) : option bytes :=
  snd <$> list_find (fun skey => hash_req2 sha1 skey = req2_hash) keys.

Section Handshake.
Context (sha1 : bytes -> bytes).

Definition step3_payload (provide : u32) (pad_c ia : bytes) : bytes :=
  VC ++ be_bytes 4 provide ++ be_bytes 2 (Z.of_nat (length pad_c)) ++ pad_c ++ be_bytes 2 (Z.of_nat (length ia)) ++ ia.

(** [initiate_inner], from the end of the synchronisation on. *)
Definition initiate_finish (skey : bytes) (provide : u32) (allow_plaintext : bool) (enc dec : Rc4) (leftover : bytes)
    : Proc HandshakeOutcome :=
  let dec := snd (rc4_apply dec (replicate VC_LEN 0)) in
  let@ (crypto_select, prefix, dec) := read_u32_dec leftover dec in
  let@ (pad_d_len, prefix, dec) := read_u16_dec prefix dec in
  if (MAX_PAD <? Z.to_nat pad_d_len)%nat then perr (PaddingTooLarge pad_d_len)
  else
    let@ (rest, dec) := skip_dec (Z.to_nat pad_d_len) prefix dec in
    match method_from_select crypto_select provide allow_plaintext with
    | Err e => perr e
    | Ok selected => pok (mkOutcome (finish_stream selected enc dec rest) selected skey)
    end.

Definition initiate_inner (private : Z) (pad_a pad_c skey : bytes) (provide : u32) (ia : bytes) (allow_plaintext : bool)
    : Proc HandshakeOutcome :=
  if MAX_IA <? Z.of_nat (length ia) then perr (InitialPayloadTooLarge (wrap16 (Z.of_nat (length ia))))
  else if Z.land provide (Z.lor CRYPTO_PLAINTEXT CRYPTO_RC4) =? 0 then perr CryptoNegotiation
  else
    PWrite (modpow_g2 private) (PWrite pad_a (
    PReadExact (length BT_HANDSHAKE_HEAD) (fun head =>
    if bool_decide (head = BT_HANDSHAKE_HEAD) then perr PlaintextPeer
    else PReadExact (PUBLIC_KEY_LEN - length BT_HANDSHAKE_HEAD) (fun rest =>
      let s := shared_secret private (head ++ rest) in
      match for_mse (key_a sha1 s skey), for_mse (key_b sha1 s skey) with
      | Some enc, Some dec =>
          let '(encrypted, enc) := rc4_apply enc (step3_payload provide pad_c ia) in
          PWrite (hash_req1 sha1 s ++ xor20 (hash_req2 sha1 skey) (hash_req3 sha1 s) ++ encrypted) (
          let expected_vc := fst (rc4_apply dec VC) in
          let@ leftover := read_until expected_vc INITIATOR_SYNC_MAX in
          initiate_finish skey provide allow_plaintext enc dec leftover)
      | _, _ => PPanic
      end)))).

Definition reply_payload (selected : CryptoMethod) (pad_d : bytes) : bytes :=
  VC ++ be_bytes 4 (method_as_u32 selected) ++ be_bytes 2 (Z.of_nat (length pad_d)) ++ pad_d.

(** [respond_inner], from the end of the synchronisation on. *)
Definition respond_finish (s pad_d : bytes) (lookup : bytes -> option bytes) (select : u32 -> option CryptoMethod) (leftover : bytes)
    : Proc HandshakeOutcome :=
  let@ (req2_xor, prefix) := pread 20 leftover in
  match lookup (xor20 req2_xor (hash_req3 sha1 s)) with
  | None => perr UnknownTorrent
  | Some skey =>
      match for_mse (key_a sha1 s skey), for_mse (key_b sha1 s skey) with
      | Some dec, Some enc =>
          let@ (vc, prefix, dec) := read_dec VC_LEN prefix dec in
          if negb (bool_decide (vc = VC)) then perr InvalidVc
          else
            let@ (provide, prefix, dec) := read_u32_dec prefix dec in
            let@ (pad_c_len, prefix, dec) := read_u16_dec prefix dec in
            if (MAX_PAD <? Z.to_nat pad_c_len)%nat then perr (PaddingTooLarge pad_c_len)
            else
              let@ (prefix, dec) := skip_dec (Z.to_nat pad_c_len) prefix dec in
              let@ (ia_len, prefix, dec) := read_u16_dec prefix dec in
              if MAX_IA <? ia_len then perr (InitialPayloadTooLarge ia_len)
              else
                let@ (ia, prefix, dec) := (if ia_len =? 0 then pok ([], prefix, dec) else read_dec (Z.to_nat ia_len) prefix dec) in
                match select provide with
                | None => perr CryptoNegotiation
                | Some selected =>
                    if Z.land provide (method_as_u32 selected) =? 0 then perr CryptoNegotiation
                    else
                      let '(reply, enc) := rc4_apply enc (reply_payload selected pad_d) in
                      PWrite reply (pok (mkOutcome (finish_stream selected enc dec (ia ++ prefix)) selected skey))
                end
      | _, _ => PPanic
      end
  end.

Definition respond_inner (private : Z) (pad_b pad_d : bytes) (lookup : bytes -> option bytes) (select : u32 -> option CryptoMethod)
    : Proc HandshakeOutcome :=
  PReadExact PUBLIC_KEY_LEN (fun ya =>
    let s := shared_secret private ya in
    PWrite (modpow_g2 private) (PWrite pad_b (
    let@ leftover := read_until (hash_req1 sha1 s) RESPONDER_SYNC_MAX in
    respond_finish s pad_d lookup select leftover))).
End Handshake.

(** ** Running processes *)

(** Run on the bytes that have arrived, until the process ends or waits for more:
    what it wrote, the process, the bytes it left, the sizes not used.  A partial
    read takes between one byte and all it may. *)
Fixpoint advance {A} (p : Proc A) (input : bytes) (sizes : list nat) : bytes * Proc A * bytes * list nat :=
  match p with
  | PRet _ | PPanic => ([], p, input, sizes)
  | PWrite b p =>
      let '(w, p, input, sizes) := advance p input sizes in (b ++ w, p, input, sizes)
  | PReadExact n k =>
      if (n <=? length input)%nat then advance (k (take n input)) (drop n input) sizes else ([], p, input, sizes)
  | PRead want k =>
      match input with
      | [] => ([], p, [], sizes)
      | _ =>
          let room := Nat.min want (length input) in
          let n := Nat.max 1 (Nat.min room (default room (head sizes))) in
          advance (k (take n input)) (drop n input) (tail sizes)
      end
  end.

(** Two connected sides, each run until it waits, in turn. *)
Fixpoint link {A B} (rounds : nat) (p : Proc A) (q : Proc B) (to_p to_q : bytes) (sizes : list nat)
    : Proc A * Proc B * bytes * bytes :=
  match rounds with
  | O => (p, q, to_p, to_q)
  | S rounds =>
      let '(w, p, to_p, sizes) := advance p to_p sizes in
      let '(w', q, to_q, sizes) := advance q (to_q ++ w) sizes in
      link rounds p q (to_p ++ w') to_q sizes
  end.

(** ** The key exchange agrees *)

Lemma of_be_zeros m bs : of_be (replicate m 0 ++ bs) = of_be bs.
Proof. induction m as [|m IH]; [done|]. cbn [replicate app]. rewrite of_be_cons, IH. lia. Qed.

Lemma pad_96_spec n : 0 <= n < 256 ^ 96 -> pad_96 n = be_bytes 96 n.
Proof.
  intros Hn. unfold pad_96, to_bytes_be, PUBLIC_KEY_LEN. rewrite length_be_bytes. set (l := S (Z.to_nat (Z.log2 n / 8))).
  assert (Hlog : 0 <= Z.log2 n < 768).
  { split; [apply Z.log2_nonneg|]. destruct (decide (n = 0)) as [->|]; [done|]. apply Z.log2_lt_pow2; [lia|]. assert (E : 256 ^ 96 = 2 ^ 768) by reflexivity. rewrite E in Hn. apply Hn. }
  assert (Hl : (l <= 96)%nat).
  { unfold l. assert (Z.log2 n / 8 < 96) by (apply Z.div_lt_upper_bound; lia). assert (0 <= Z.log2 n / 8) by (apply Z.div_pos; lia). lia. }
  assert (Hnl : n < 256 ^ Z.of_nat l).
  { destruct (decide (n = 0)) as [->|]; [apply Z.pow_pos_nonneg; lia|]. replace (256 ^ Z.of_nat l) with (2 ^ (8 * Z.of_nat l)) by (rewrite Z.pow_mul_r; lia || reflexivity).
    apply Z.log2_lt_pow2; [lia|]. unfold l. pose proof (Z.mul_succ_div_gt (Z.log2 n) 8 ltac:(lia)). assert (0 <= Z.log2 n / 8) by (apply Z.div_pos; lia). lia. }
  assert (Hof : forall m, of_be (replicate m 0 ++ be_bytes l n) = n) by (intros m; rewrite of_be_zeros, of_be_bytes; apply Z.mod_small; lia).
  destruct (Nat.leb_spec 96 l) as [H|H].
  - assert (l = 96%nat) as -> by lia. rewrite Nat.sub_diag. done.
  - rewrite <-(be_bytes_of_be (replicate (96 - l) 0 ++ be_bytes l n)), Hof.
    + f_equal. rewrite length_app, length_replicate, length_be_bytes. lia.
    + apply Forall_app. split; [apply Forall_replicate; ranges|apply be_bytes_wf].
Qed.

Lemma prime_pos : 0 < prime < 256 ^ 96.
Proof. split; vm_compute; reflexivity. Qed.

Lemma modpow_range a b : 0 <= modpow a b prime < 256 ^ 96.
Proof.
  pose proof prime_pos. unfold modpow. rewrite Zpow_mod_correct by lia. pose proof (Z.mod_pos_bound (a ^ b) prime). lia.
Qed.

Lemma length_public b : length (modpow_g2 b) = 96%nat.
Proof. unfold modpow_g2. rewrite pad_96_spec by apply modpow_range. apply length_be_bytes. Qed.

Lemma shared_agrees a b : 0 <= a -> 0 <= b -> shared_secret a (modpow_g2 b) = shared_secret b (modpow_g2 a).
Proof.
  intros Ha Hb. pose proof prime_pos as Hp. unfold shared_secret, modpow_g2. f_equal.
  rewrite !pad_96_spec by apply modpow_range. rewrite !of_be_bytes, !(Z.mod_small (modpow _ _ _)) by apply modpow_range.
  unfold modpow. rewrite !Zpow_mod_correct by lia. rewrite <-!Zpower_mod by lia. rewrite <-!Z.pow_mul_r by lia. do 2 f_equal. lia.
Qed.

(** ** The search *)

Definition occurs_at (l p : bytes) (i : nat) : Prop := take (length p) (drop i l) = p.

Lemma occurs_bound l p i : p <> [] -> occurs_at l p i -> (i + length p <= length l)%nat.
Proof.
  intros Hp H. assert (Hl : length (take (length p) (drop i l)) = length p) by by rewrite H. rewrite length_take, length_drop in Hl.
  destruct p; [done|]. cbn [length] in *. lia.
Qed.

Lemma lookup_windows n l i w : windows n l !! i = Some w <-> (i <= length l - n)%nat /\ w = take n (drop i l).
Proof.
  unfold windows. rewrite list_lookup_fmap. destruct (decide (i < S (length l - n))%nat) as [Hi|Hi].
  - rewrite lookup_seq_lt by done. cbn. split; [intros [= <-]; split; [lia|done]|by intros [_ ->]].
  - rewrite lookup_seq_ge by lia. cbn. split; [done|lia].
Qed.

Lemma find_slice_Some l p i :
  p <> [] -> occurs_at l p i -> (forall j, (j < i)%nat -> ~ occurs_at l p j) -> find_slice l p = Some i.
Proof.
  intros Hp Ho Hj. pose proof (occurs_bound l p i Hp Ho). unfold find_slice. destruct (Nat.eqb_spec (length p) 0); [by destruct p|].
  destruct (Nat.ltb_spec (length l) (length p)); [lia|]. cbn [orb]. apply position_Some. split.
  - exists p. split; [apply lookup_windows; split; [lia|done]|by apply bool_decide_eq_true_2].
  - intros q b Hq [_ ->]%lookup_windows. apply bool_decide_eq_false_2. by apply Hj.
Qed.

Lemma find_slice_None l p : p <> [] -> (forall j, ~ occurs_at l p j) -> find_slice l p = None.
Proof.
  intros Hp Hj. unfold find_slice. destruct (_ || _); [done|]. destruct (position _ _) as [i|] eqn:E; [|done].
  apply position_Some in E as [(b & [_ ->]%lookup_windows & Hb%bool_decide_eq_true) _]. by destruct (Hj i).
Qed.

Lemma find_slice_inv l p i :
  find_slice l p = Some i -> p <> [] /\ occurs_at l p i /\ forall j, (j < i)%nat -> ~ occurs_at l p j.
Proof.
  unfold find_slice. destruct (Nat.eqb_spec (length p) 0); [done|]. destruct (Nat.ltb_spec (length l) (length p)); [done|]. cbn [orb].
  intros [(b & [Hi ->]%lookup_windows & Hb%bool_decide_eq_true) Hq]%position_Some. split; [by destruct p|]. split; [done|].
  intros j Hj Ho. assert (Hf := Hq j (take (length p) (drop j l)) Hj). rewrite lookup_windows in Hf.
  rewrite bool_decide_eq_true_2 in Hf by done. discriminate Hf. split; [lia|done].
Qed.

(** An occurrence in a suffix, and one in a longer list. *)
Lemma occurs_drop l p k i : occurs_at (drop k l) p i <-> occurs_at l p (k + i).
Proof. unfold occurs_at. by rewrite drop_drop. Qed.

Lemma occurs_app l k p i : (i + length p <= length l)%nat -> occurs_at (l ++ k) p i <-> occurs_at l p i.
Proof.
  intros H. unfold occurs_at. rewrite drop_app_le by lia. rewrite take_app_le; [done|]. rewrite length_drop. lia.
Qed.

Lemma occurs_mid l p k : occurs_at (l ++ p ++ k) p (length l).
Proof. unfold occurs_at. rewrite drop_app_length. apply take_app_length. Qed.

(** ** Processes and sequencing *)

Lemma advance_bind {A B} (p : Proc A) (k : A -> Proc B) input sizes :
  advance (pbind p k) input sizes =
  let '(w, p', rest, sizes') := advance p input sizes in
  match p' with
  | PRet (Ok a) => let '(w2, q, rest, sizes'') := advance (k a) rest sizes' in (w ++ w2, q, rest, sizes'')
  | p' => (w, pbind p' k, rest, sizes')
  end.
Proof.
  revert input sizes. induction p as [r| |b p IH|n f IH|want f IH]; intros input sizes; cbn [pbind advance].
  - destruct r as [a|e]; [|done]. by destruct (advance (k a) input sizes) as [[[? ?] ?] ?].
  - done.
  - rewrite IH. destruct (advance p input sizes) as [[[w p'] rest] sizes']. destruct p' as [[a|e]| | | |]; try done.
    destruct (advance (k a) rest sizes') as [[[? ?] ?] ?]. by rewrite app_assoc.
  - destruct (n <=? length input)%nat; [apply IH|done].
  - destruct input as [|x input]; [done|]. apply IH.
Qed.

(** A process that has all it needs: it ends without writing. *)
Definition ends {A} (p : Proc A) (input : bytes) (sizes : list nat) (a : A) (rest : bytes) : Prop :=
  exists sizes', advance p input sizes = ([], PRet (Ok a), rest, sizes').

(** A suffix of what has been read is kept, long enough for the part of the
    pattern that may have been read. *)
Record syncing (pattern : bytes) (max : nat) (consumed : bytes) (p : Proc bytes) : Prop := {
  sy_state : exists fuel skipped, p = read_until_loop fuel pattern max (length consumed) (drop skipped consumed) /\
    (max < fuel + length consumed)%nat /\ (skipped <= length consumed)%nat /\
    (Nat.min (length consumed) (length pattern - 1) <= length consumed - skipped)%nat }.

Lemma advance_read {A} want (k : bytes -> Proc A) input sizes :
  (1 <= want)%nat -> input <> [] ->
  exists n sizes', advance (PRead want k) input sizes = advance (k (take n input)) (drop n input) sizes' /\
    (1 <= n <= length input)%nat /\ (n <= want)%nat.
Proof.
  intros Hw Hi. destruct input as [|x input]; [done|]. cbn [advance].
  set (room := Nat.min want (length (x :: input))). exists (Nat.max 1 (Nat.min room (default room (head sizes)))), (tail sizes).
  split; [done|]. unfold room. cbn [length]. lia.
Qed.

(** The search in what is kept finds the pattern as soon as it has been read. *)
Lemma sync_search pad pattern tl t skipped :
  pattern <> [] -> (forall j, (j < length pad)%nat -> ~ occurs_at (pad ++ pattern) pattern j) ->
  t `prefix_of` pad ++ pattern ++ tl -> (skipped <= length pad)%nat -> (skipped <= length t)%nat ->
  find_slice (drop skipped t) pattern =
  if decide (length t < length pad + length pattern)%nat then None else Some (length pad - skipped)%nat.
Proof.
  intros Hne Hno [u Hu] Hs Ht.
  assert (Hocc : forall j, occurs_at t pattern j -> (length pad <= j)%nat /\ (j + length pattern <= length t)%nat).
  { intros j Hj. pose proof (occurs_bound _ _ _ Hne Hj) as Hb. split; [|done]. destruct (decide (length pad <= j)%nat) as [|Hlt]; [done|].
    exfalso. apply (Hno j); [lia|]. apply (occurs_app _ tl); [rewrite length_app; lia|]. rewrite <-app_assoc, Hu. by apply occurs_app. }
  case_decide as Hd.
  - apply find_slice_None; [done|]. intros j [H1 H2]%occurs_drop%Hocc. lia.
  - apply find_slice_Some; [done| |].
    + apply occurs_drop. replace (skipped + (length pad - skipped))%nat with (length pad) by lia.
      apply (occurs_app _ u); [lia|]. rewrite <-Hu. apply occurs_mid.
    + intros j Hj [H1 H2]%occurs_drop%Hocc. lia.
Qed.

Lemma kept_suffix (t : bytes) skipped plen :
  (skipped <= length t)%nat -> (Nat.min (length t) (plen - 1) <= length t - skipped)%nat ->
  exists skipped',
    (if (plen <? length t - skipped)%nat then drop (skipped + (length t - skipped - (plen - 1))) t else drop skipped t) = drop skipped' t /\
    (skipped' <= length t)%nat /\ (Nat.min (length t) (plen - 1) <= length t - skipped')%nat.
Proof.
  intros Hs Hk. destruct (Nat.ltb_spec plen (length t - skipped)); eexists; (split; [done|]); lia.
Qed.

Lemma sync_advance pad pattern tl max consumed input sizes p :
  find_slice (pad ++ pattern) pattern = Some (length pad) -> (length pad + length pattern <= max)%nat ->
  syncing pattern max consumed p -> (length consumed < length pad + length pattern)%nat ->
  consumed ++ input `prefix_of` pad ++ pattern ++ tl ->
  exists p' rest sizes', advance p input sizes = ([], p', rest, sizes') /\
    if decide (length consumed + length input < length pad + length pattern)%nat
    then rest = [] /\ syncing pattern max (consumed ++ input) p'
    else exists leftover, p' = PRet (Ok leftover) /\ consumed ++ input = pad ++ pattern ++ leftover ++ rest.
Proof.
  intros Hfind Hmax [(fuel & skipped & -> & Hf & Hs & Hk)] Hc Hpre.
  apply find_slice_inv in Hfind as (Hne & _ & Hno).
  revert consumed skipped input sizes Hf Hs Hk Hc Hpre. induction fuel as [|fuel IH]; intros consumed skipped input sizes Hf Hs Hk Hc Hpre; [lia|].
  destruct (decide (input = [])) as [->|Hin].
  { eexists _, _, _. split; [cbn [read_until_loop]; destruct (Nat.leb_spec max (length consumed)); [lia|done]|].
    rewrite decide_True by (cbn; lia). split; [done|]. rewrite app_nil_r. split.
    exists (S fuel), skipped. cbn [read_until_loop]. destruct (Nat.leb_spec max (length consumed)); [lia|]. split_and!; [done|lia..]. }
  cbn [read_until_loop]. destruct (Nat.leb_spec max (length consumed)); [lia|].
  lazymatch goal with |- context [advance (PRead ?w ?k) ?i ?sz] => destruct (advance_read w k i sz) as (n & sizes1 & -> & Hn & Hnw) end; [lia|done|].
  assert (Hdata : take n input <> []) by (intros E; apply (f_equal length) in E; rewrite length_take in E; cbn in E; lia).
  destruct (take n input) as [|y data0] eqn:Et; [done|]. rewrite <-Et. clear Hdata.
  assert (Hlen : length (take n input) = n) by (rewrite length_take; lia).
  assert (Hsplit : consumed ++ input = (consumed ++ take n input) ++ drop n input) by (by rewrite <-app_assoc, take_drop).
  assert (Hpt : consumed ++ take n input `prefix_of` pad ++ pattern ++ tl) by (etrans; [|exact Hpre]; rewrite Hsplit; by eexists).
  replace (drop skipped consumed ++ take n input) with (drop skipped (consumed ++ take n input)) by (by rewrite drop_app_le).
  rewrite (sync_search pad pattern tl) by (rewrite ?length_app; done || lia).
  rewrite length_app, Hlen.
  destruct (decide (length consumed + n < length pad + length pattern)%nat) as [Hd|Hd].
  - set (t := consumed ++ take n input) in *. assert (Hlt : length t = (length consumed + n)%nat) by (unfold t; rewrite length_app; lia).
    rewrite length_drop, drop_drop, <-Hlt.
    destruct (kept_suffix t skipped (length pattern)) as (skipped' & -> & Hs1 & Hs2); [lia|lia|].
    destruct (IH t skipped' (drop n input) sizes1) as (p' & rest & sizes' & E & H'); [lia|lia|lia|lia|by rewrite Hsplit in Hpre|].
    exists p', rest, sizes'. split; [done|]. rewrite Hlt, length_drop in H'. replace (length consumed + n + (length input - n))%nat with (length consumed + length input)%nat in H' by lia.
    by rewrite Hsplit.
  - eexists _, _, _. split; [done|]. rewrite decide_False by lia. eexists. split; [done|].
    rewrite drop_drop. replace (skipped + (length pad - skipped + length pattern))%nat with (length pad + length pattern)%nat by lia.
    rewrite Hsplit. destruct Hpt as [u Hu]. rewrite !app_assoc. f_equal.
    assert (E : pad ++ pattern = take (length pad + length pattern) (consumed ++ take n input)).
    { rewrite <-(take_app_le _ u) by (rewrite length_app; lia). rewrite <-Hu, app_assoc. symmetry. apply take_app_length'. by rewrite length_app. }
    rewrite E. symmetry. apply take_drop.
Qed.

Lemma syncing_waits pattern max consumed p :
  syncing pattern max consumed p -> (length consumed < max)%nat -> exists want k, p = PRead want k.
Proof.
  intros [(fuel & skipped & -> & Hf & _)] Hc. destruct fuel as [|fuel]; [lia|]. cbn [read_until_loop].
  destruct (Nat.leb_spec max (length consumed)); [lia|]. by eexists _, _.
Qed.

Lemma syncing_start pattern max : syncing pattern max [] (read_until pattern max).
Proof. split. exists (S max), 0%nat. split; [done|]. cbn. lia. Qed.

(** ** Reading what the other side encrypted *)

(** What was read too far, followed by what is still to be read, is the encryption
    of [plain], and more. *)
Definition carries (dec : Rc4) (prefix input plain tl : bytes) : Prop := prefix ++ input = fst (rc4_apply dec plain) ++ tl.

Lemma pread_ends n prefix input x y sizes :
  prefix ++ input = x ++ y -> length x = n ->
  exists prefix' input', advance (pread n prefix) input sizes = ([], PRet (Ok (x, prefix')), input', sizes) /\ prefix' ++ input' = y.
Proof.
  intros E Hx. unfold pread. assert (Ex : x = take n (prefix ++ input)) by (rewrite E; symmetry; by apply take_app_length').
  assert (Ey : y = drop n (prefix ++ input)) by (rewrite E; symmetry; by apply drop_app_length').
  destruct (Nat.leb_spec n (length prefix)) as [Hn|Hn].
  - exists (drop n prefix), input. split; [cbn [advance pok]; by rewrite Ex, take_app_le by lia|]. by rewrite Ey, drop_app_le by lia.
  - exists [], (drop (n - length prefix) input). cbn [advance]. assert (n <= length prefix + length input)%nat by (apply (f_equal length) in E; rewrite !length_app in E; lia).
    destruct (Nat.leb_spec (n - length prefix) (length input)); [|lia].
    split; [by rewrite Ex, take_app_ge by lia|by rewrite Ey, drop_app_ge by lia].
Qed.

Lemma carries_read dec prefix input x y tl sizes :
  carries dec prefix input (x ++ y) tl ->
  exists prefix' input',
    advance (read_dec (length x) prefix dec) input sizes = ([], PRet (Ok (x, prefix', advance_n (length x) dec)), input', sizes) /\
    carries (advance_n (length x) dec) prefix' input' y tl.
Proof.
  unfold carries. rewrite apply_app. cbn [fst]. rewrite <-app_assoc. intros E.
  destruct (pread_ends (length x) prefix input (fst (rc4_apply dec x)) (fst (rc4_apply (advance_n (length x) dec) y) ++ tl) sizes E) as (prefix' & input' & Ea & E').
  { apply length_apply. }
  exists prefix', input'. split; [|done]. unfold read_dec. rewrite advance_bind, Ea.
  pose proof (apply_twice dec x) as H1. pose proof (apply_state dec (fst (rc4_apply dec x))) as H2. rewrite length_apply in H2.
  destruct (rc4_apply dec (fst (rc4_apply dec x))) as [b d]. cbn [fst snd] in *. by subst.
Qed.

Lemma carries_u32 dec prefix input v y tl sizes :
  is_u32 v -> carries dec prefix input (be_bytes 4 v ++ y) tl ->
  exists prefix' input',
    advance (read_u32_dec prefix dec) input sizes = ([], PRet (Ok (v, prefix', advance_n 4 dec)), input', sizes) /\
    carries (advance_n 4 dec) prefix' input' y tl.
Proof.
  intros Hv H. destruct (carries_read dec prefix input (be_bytes 4 v) y tl sizes H) as (p & i & E & H'). rewrite length_be_bytes in *.
  exists p, i. split; [|done]. unfold read_u32_dec. rewrite advance_bind, E. cbn [advance pok]. by rewrite of_be_bytes_u32.
Qed.

Lemma carries_u16 dec prefix input v y tl sizes :
  is_u16 v -> carries dec prefix input (be_bytes 2 v ++ y) tl ->
  exists prefix' input',
    advance (read_u16_dec prefix dec) input sizes = ([], PRet (Ok (v, prefix', advance_n 2 dec)), input', sizes) /\
    carries (advance_n 2 dec) prefix' input' y tl.
Proof.
  intros Hv H. destruct (carries_read dec prefix input (be_bytes 2 v) y tl sizes H) as (p & i & E & H'). rewrite length_be_bytes in *.
  exists p, i. split; [|done]. unfold read_u16_dec. rewrite advance_bind, E. cbn [advance pok]. by rewrite of_be_bytes_u16.
Qed.

Lemma carries_skip dec prefix input x y tl sizes :
  carries dec prefix input (x ++ y) tl ->
  exists prefix' input',
    advance (skip_dec (length x) prefix dec) input sizes = ([], PRet (Ok (prefix', advance_n (length x) dec)), input', sizes) /\
    carries (advance_n (length x) dec) prefix' input' y tl.
Proof.
  unfold skip_dec. assert (H : forall fuel x dec prefix input, (length x <= fuel)%nat -> carries dec prefix input (x ++ y) tl ->
    exists prefix' input', advance (skip_loop fuel (length x) prefix dec) input sizes = ([], PRet (Ok (prefix', advance_n (length x) dec)), input', sizes) /\
      carries (advance_n (length x) dec) prefix' input' y tl).
  { induction fuel as [|fuel IH]; intros x' dec' prefix' input' Hf Hc; cbn [skip_loop].
    { destruct x'; [by eexists _, _|cbn in Hf; lia]. }
    destruct (Nat.eqb_spec (length x') 0) as [E0|Hne]; [destruct x'; [by eexists _, _|done]|].
    rewrite <-(take_drop (Nat.min (length x') 64) x'), <-app_assoc in Hc.
    destruct (carries_read _ _ _ _ _ _ sizes Hc) as (p1 & i1 & E1 & H1). rewrite length_take in E1, H1.
    replace (Nat.min (Nat.min (length x') 64) (length x')) with (Nat.min (length x') 64) in E1, H1 by lia.
    apply IH in H1 as (p2 & i2 & E2 & H2); [|rewrite length_drop; lia]. rewrite length_drop in E2, H2. rewrite <-advance_add in E2, H2.
    replace (Nat.min (length x') 64 + (length x' - Nat.min (length x') 64))%nat with (length x') in E2, H2 by lia.
    exists p2, i2. split; [|done]. rewrite advance_bind, E1. cbn beta iota. by rewrite E2. }
  by apply H.
Qed.

(** ** Both sides finish *)

(** Continue after a process that has ended, in a run. *)
Ltac ended E := rewrite advance_bind, E; cbn beta iota.

Lemma method_u32 m : is_u32 (method_as_u32 m).
Proof. destruct m; vm_compute; split; discriminate. Qed.

Lemma land_bit x k : 0 <= k -> Z.land x (2 ^ k) <> 0 -> Z.land x (2 ^ k) = 2 ^ k.
Proof.
  intros Hk Hn. destruct (Z.testbit x k) eqn:E; [|destruct Hn]; apply Z.bits_inj'; intros j Hj;
    rewrite Z.land_spec, Z.pow2_bits_eqb, ?Z.bits_0 by lia; destruct (Z.eqb_spec k j); subst; rewrite ?E; done || apply andb_false_r.
Qed.

Lemma method_agrees m provide allow_plaintext :
  Z.land provide (method_as_u32 m) <> 0 -> (m = Plaintext -> allow_plaintext = true) ->
  method_from_select (method_as_u32 m) provide allow_plaintext = Ok m.
Proof.
  intros Hp Ha. unfold method_from_select. rewrite Z.land_comm.
  assert (E : Z.land provide (method_as_u32 m) = method_as_u32 m).
  { destruct m; [apply (land_bit provide 0)|apply (land_bit provide 1)]; done. }
  rewrite E. destruct m; cbn; [by rewrite Ha|done].
Qed.

Section Agreement.
Context (sha1 : bytes -> bytes) (Hsha : forall b, length (sha1 b) = 20%nat).

Lemma initiate_ends skey provide allow enc dec leftover input selected pad_d tl sizes :
  carries (advance_n VC_LEN dec) leftover input (be_bytes 4 (method_as_u32 selected) ++ be_bytes 2 (Z.of_nat (length pad_d)) ++ pad_d ++ []) tl ->
  (length pad_d <= MAX_PAD)%nat -> Z.land provide (method_as_u32 selected) <> 0 -> (selected = Plaintext -> allow = true) ->
  exists rest input',
    advance (initiate_finish skey provide allow enc dec leftover) input sizes =
      ([], PRet (Ok (mkOutcome (finish_stream selected enc (advance_n (VC_LEN + 6 + length pad_d) dec) rest) selected skey)), input', sizes) /\
    rest ++ input' = tl.
Proof.
  intros Hc Hp Hs Ha. unfold initiate_finish. rewrite apply_state, length_replicate.
  destruct (carries_u32 _ _ _ _ _ _ sizes (method_u32 selected) Hc) as (p1 & i1 & E1 & H1). ended E1.
  assert (Hl : is_u16 (Z.of_nat (length pad_d))) by (unfold MAX_PAD in Hp; ranges).
  destruct (carries_u16 _ _ _ _ _ _ sizes Hl H1) as (p2 & i2 & E2 & H2). ended E2. rewrite Nat2Z.id.
  destruct (Nat.ltb_spec MAX_PAD (length pad_d)); [lia|].
  destruct (carries_skip _ _ _ _ _ _ sizes H2) as (p3 & i3 & E3 & H3). ended E3. rewrite method_agrees by done.
  exists p3, i3. rewrite <-!advance_add in *. split; [|by unfold carries in H3].
  reflexivity.
Qed.

Definition ask (skey s : bytes) : bytes := xor20 (hash_req2 sha1 skey) (hash_req3 sha1 s).

Lemma xor20_back a b : length a = length b -> xor20 (xor20 a b) b = a.
Proof.
  revert b. induction a as [|x a IH]; intros [|y b] H; try done. cbn in *. rewrite IH by lia.
  by rewrite Z.lxor_assoc, Z.lxor_nilpotent, Z.lxor_0_r.
Qed.

Lemma carries_payload dec prefix input ia tl sizes :
  carries dec prefix input ia tl ->
  exists prefix' input',
    advance (if Z.of_nat (length ia) =? 0 then pok ([], prefix, dec) else read_dec (Z.to_nat (Z.of_nat (length ia))) prefix dec) input sizes =
      ([], PRet (Ok (ia, prefix', advance_n (length ia) dec)), input', sizes) /\
    prefix' ++ input' = tl.
Proof.
  intros H. destruct ia as [|x ia]; [by eexists _, _|]. rewrite Nat2Z.id. destruct (Z.eqb_spec (Z.of_nat (length (x :: ia))) 0); [done|].
  rewrite <-(app_nil_r (x :: ia)) in H. destruct (carries_read _ _ _ _ _ _ sizes H) as (p & i & E & H'). by exists p, i.
Qed.

Lemma respond_ends s pad_d lookup select leftover input skey provide pad_c ia selected dec enc tl sizes :
  lookup (hash_req2 sha1 skey) = Some skey -> for_mse (key_a sha1 s skey) = Some dec -> for_mse (key_b sha1 s skey) = Some enc ->
  leftover ++ input = ask skey s ++ fst (rc4_apply dec (step3_payload provide pad_c ia)) ++ tl ->
  is_u32 provide -> (length pad_c <= MAX_PAD)%nat -> Z.of_nat (length ia) <= MAX_IA ->
  select provide = Some selected -> Z.land provide (method_as_u32 selected) <> 0 ->
  exists rest input',
    advance (respond_finish sha1 s pad_d lookup select leftover) input sizes =
      (fst (rc4_apply enc (reply_payload selected pad_d)),
       PRet (Ok (mkOutcome (finish_stream selected (advance_n (length (reply_payload selected pad_d)) enc)
         (advance_n (length (step3_payload provide pad_c ia)) dec) (ia ++ rest)) selected skey)), input', sizes) /\
    rest ++ input' = tl.
Proof.
  intros Hlk Ha Hb Hin Hpr Hpc Hia Hsel Hbit. unfold respond_finish.
  assert (Hask : length (ask skey s) = 20%nat) by (unfold ask, xor20, hash_req2, hash_req3; rewrite length_zip_with, !Hsha; done).
  destruct (pread_ends 20 leftover input (ask skey s) _ sizes Hin Hask) as (p0 & i0 & E0 & H0). ended E0.
  assert (Hback : xor20 (ask skey s) (hash_req3 sha1 s) = hash_req2 sha1 skey)
    by (apply xor20_back; unfold hash_req2, hash_req3; by rewrite !Hsha).
  rewrite Hback, Hlk, Ha, Hb. change (carries dec p0 i0 (step3_payload provide pad_c ia) tl) in H0. unfold step3_payload in H0.
  destruct (carries_read _ _ _ _ _ _ sizes H0) as (p1 & i1 & E1 & H1). change (length VC) with VC_LEN in *. ended E1.
  rewrite bool_decide_eq_true_2 by done. cbn [negb].
  destruct (carries_u32 _ _ _ _ _ _ sizes Hpr H1) as (p2 & i2 & E2 & H2). ended E2.
  assert (Hl : is_u16 (Z.of_nat (length pad_c))) by (unfold MAX_PAD in Hpc; ranges).
  destruct (carries_u16 _ _ _ _ _ _ sizes Hl H2) as (p3 & i3 & E3 & H3). ended E3. rewrite Nat2Z.id.
  destruct (Nat.ltb_spec MAX_PAD (length pad_c)); [lia|].
  destruct (carries_skip _ _ _ _ _ _ sizes H3) as (p4 & i4 & E4 & H4). ended E4.
  assert (Hli : is_u16 (Z.of_nat (length ia))) by (unfold MAX_IA in Hia; ranges).
  destruct (carries_u16 _ _ _ _ _ _ sizes Hli H4) as (p5 & i5 & E5 & H5). ended E5.
  destruct (Z.ltb_spec MAX_IA (Z.of_nat (length ia))); [lia|].
  destruct (carries_payload _ _ _ _ _ sizes H5) as (p6 & i6 & E6 & Hrest). ended E6.
  rewrite Hsel, (proj2 (Z.eqb_neq _ _) Hbit).
  exists p6, i6. split; [|done]. rewrite <-!advance_add.
  pose proof (apply_state enc (reply_payload selected pad_d)) as Hst. destruct (rc4_apply enc (reply_payload selected pad_d)) as [reply enc'].
  cbn [fst snd] in *. subst enc'. cbn [advance pok app]. rewrite app_nil_r. do 8 f_equal.
  unfold step3_payload. rewrite !length_app, !length_be_bytes. change (length VC) with VC_LEN. lia.
Qed.

(** *** The whole exchange *)

Context (a b : Z) (pad_a pad_b pad_c pad_d skey ia : bytes) (provide : u32) (allow_plaintext : bool) (selected : CryptoMethod).
Context (lookup : bytes -> option bytes) (select : u32 -> option CryptoMethod) (enc dec : Rc4).

Definition secret : bytes := shared_secret a (modpow_g2 b).

(** What holds of the values of a handshake: keys that are not negative, padding
    and payload within their bounds, a method both sides agree to, a torrent the
    responder has, and padding that does not look like the markers. *)
Record agreeable : Prop := {
  ag_keys : 0 <= a /\ 0 <= b;
  ag_pads : (length pad_a <= MAX_PAD)%nat /\ (length pad_b <= MAX_PAD)%nat /\ (length pad_c <= MAX_PAD)%nat /\ (length pad_d <= MAX_PAD)%nat;
  ag_ia : Z.of_nat (length ia) <= MAX_IA;
  ag_provide : is_u32 provide;
  ag_select : select provide = Some selected;
  ag_common : Z.land provide (method_as_u32 selected) <> 0;
  ag_plain : selected = Plaintext -> allow_plaintext = true;
  ag_lookup : lookup (hash_req2 sha1 skey) = Some skey;
  ag_enc : for_mse (key_a sha1 secret skey) = Some enc;
  ag_dec : for_mse (key_b sha1 secret skey) = Some dec;
  ag_head : take 20 (modpow_g2 b) <> BT_HANDSHAKE_HEAD;
  ag_sync_a : find_slice (pad_a ++ hash_req1 sha1 secret) (hash_req1 sha1 secret) = Some (length pad_a);
  ag_sync_b : find_slice (pad_b ++ fst (rc4_apply dec VC)) (fst (rc4_apply dec VC)) = Some (length pad_b) }.

Context (Hag : agreeable).

Definition initiator : Proc HandshakeOutcome := initiate_inner sha1 a pad_a pad_c skey provide ia allow_plaintext.
Definition responder : Proc HandshakeOutcome := respond_inner sha1 b pad_b pad_d lookup select.

(** The four messages. *)
Definition hello_a : bytes := modpow_g2 a ++ pad_a.
Definition hello_b : bytes := modpow_g2 b ++ pad_b.
Definition request : bytes := hash_req1 sha1 secret ++ ask skey secret ++ fst (rc4_apply enc (step3_payload provide pad_c ia)).
Definition reply : bytes := fst (rc4_apply dec (reply_payload selected pad_d)).

Lemma vc_length : length (fst (rc4_apply dec VC)) = VC_LEN.
Proof. rewrite length_apply. reflexivity. Qed.

(** The padding alone leaves a side waiting for the marker. *)
Lemma wait_for_marker {A} pattern max pad (k : bytes -> Proc A) sizes :
  find_slice (pad ++ pattern) pattern = Some (length pad) -> (length pad + length pattern <= max)%nat ->
  exists p' sizes', advance (pbind (read_until pattern max) k) pad sizes = ([], pbind p' k, [], sizes') /\ syncing pattern max pad p'.
Proof.
  intros Hf Hm. assert (Hne : pattern <> []) by by apply find_slice_inv in Hf as [? _]. assert (0 < length pattern)%nat by (destruct pattern; [done|cbn; lia]).
  destruct (sync_advance pad pattern [] max [] pad sizes (read_until pattern max)) as (p' & rest & sizes' & E & H'); [done|done|apply syncing_start|cbn; lia|by eexists|].
  rewrite decide_True in H' by (cbn; lia). destruct H' as [-> Hs]. exists p', sizes'. split; [|done]. rewrite advance_bind, E.
  destruct (syncing_waits _ _ _ _ Hs) as (want & f & ->); [cbn; lia|]. done.
Qed.

(** The marker lets it go on. *)
Lemma resume_at_marker {A} pattern max pad (k : bytes -> Proc A) p' tl sizes :
  find_slice (pad ++ pattern) pattern = Some (length pad) -> (length pad + length pattern <= max)%nat ->
  syncing pattern max pad p' ->
  exists leftover rest sizes', leftover ++ rest = tl /\ advance (pbind p' k) (pattern ++ tl) sizes = advance (k leftover) rest sizes'.
Proof.
  intros Hf Hm Hs. assert (Hne : pattern <> []) by by apply find_slice_inv in Hf as [? _]. assert (0 < length pattern)%nat by (destruct pattern; [done|cbn; lia]).
  destruct (sync_advance pad pattern tl max pad (pattern ++ tl) sizes p') as (q & rest & sizes' & E & H'); [done|done|done|lia|done|].
  rewrite decide_False in H' by (rewrite length_app; lia). destruct H' as (leftover & -> & Ht).
  apply app_inv_head, app_inv_head in Ht. exists leftover, rest, sizes'. split; [done|]. rewrite advance_bind, E. cbn beta iota.
  by destruct (advance (k leftover) rest sizes') as [[[? ?] ?] ?].
Qed.

Lemma initiator_rounds sizes :
  exists p, advance initiator [] sizes = (hello_a, p, [], sizes) /\
    forall sizes, exists p' sizes',
      advance p hello_b sizes =
        (request, pbind p' (initiate_finish skey provide allow_plaintext (advance_n (length (step3_payload provide pad_c ia)) enc) dec), [], sizes') /\
      syncing (fst (rc4_apply dec VC)) INITIATOR_SYNC_MAX pad_b p'.
Proof.
  destruct Hag as [Hk (Hpa & Hpb & _) Hia Hpr Hsel Hcom Hpl Hlk He Hd Hhead _ Hsb].
  unfold initiator, initiate_inner. destruct (Z.ltb_spec MAX_IA (Z.of_nat (length ia))); [lia|].
  destruct (Z.eqb_spec (Z.land provide (Z.lor CRYPTO_PLAINTEXT CRYPTO_RC4)) 0) as [E0|_].
  { destruct Hcom. apply Z.bits_inj'. intros j Hj. rewrite Z.bits_0. assert (Hb := f_equal (fun z => Z.testbit z j) E0). cbn beta in Hb.
    rewrite Z.land_spec, Z.lor_spec, Z.bits_0 in Hb. rewrite Z.land_spec. destruct (Z.testbit provide j); [|done]. cbn [andb] in *.
    apply orb_false_iff in Hb as [H1 H2]. by destruct selected. }
  eexists. split; [cbn [advance]; change (length BT_HANDSHAKE_HEAD <=? length [])%nat with false; cbn beta iota; rewrite app_nil_r; reflexivity|]. intros sizes2. cbn [advance]. unfold hello_b.
  pose proof (length_public b) as Hlb. change (length BT_HANDSHAKE_HEAD) with 20%nat. rewrite length_app, Hlb.
  destruct (Nat.leb_spec 20 (96 + length pad_b)); [|lia]. rewrite take_app_le by lia. rewrite bool_decide_eq_false_2 by done.
  cbn [advance]. change (PUBLIC_KEY_LEN - 20)%nat with 76%nat. rewrite length_drop, length_app, Hlb. destruct (Nat.leb_spec 76 (96 + length pad_b - 20)); [|lia].
  rewrite drop_app_le by lia. rewrite take_app_le by (rewrite length_drop; lia).
  replace (take 20 (modpow_g2 b) ++ take 76 (drop 20 (modpow_g2 b))) with (modpow_g2 b).
  2: { rewrite (take_ge (drop 20 (modpow_g2 b))) by (rewrite length_drop; lia). by rewrite take_drop. }
  fold secret. rewrite He, Hd. pose proof (apply_state enc (step3_payload provide pad_c ia)) as Hst. fold (ask skey secret).
  destruct (rc4_apply enc (step3_payload provide pad_c ia)) as [encrypted enc'] eqn:Ee. cbn [fst snd] in Hst. subst enc'. cbn [advance].
  replace (drop 76 (drop 20 (modpow_g2 b) ++ pad_b)) with pad_b.
  2: { rewrite drop_app_ge by (rewrite length_drop; lia). rewrite length_drop, Hlb. by replace (76 - (96 - 20))%nat with 0%nat by lia. }
  destruct (wait_for_marker (fst (rc4_apply dec VC)) INITIATOR_SYNC_MAX pad_b
    (fun leftover => initiate_finish skey provide allow_plaintext (advance_n (length (step3_payload provide pad_c ia)) enc) dec leftover) sizes2 Hsb) as (p' & sizes' & E & Hs).
  { rewrite vc_length. unfold INITIATOR_SYNC_MAX. lia. }
  exists p', sizes'. split; [|done]. rewrite E. cbn beta iota. rewrite app_nil_r. unfold request. by rewrite Ee.
Qed.

Lemma responder_round sizes :
  exists p' sizes', advance responder hello_a sizes = (hello_b, pbind p' (respond_finish sha1 secret pad_d lookup select), [], sizes') /\
    syncing (hash_req1 sha1 secret) RESPONDER_SYNC_MAX pad_a p'.
Proof.
  destruct Hag as [[Ha Hb] (Hpa & Hpb & _) Hia Hpr Hsel Hcom Hpl Hlk He Hd Hhead Hsa _].
  unfold responder, respond_inner, hello_a. cbn [advance]. pose proof (length_public a) as Hla. rewrite length_app, Hla. change PUBLIC_KEY_LEN with 96%nat.
  destruct (Nat.leb_spec 96 (96 + length pad_a)); [|lia]. rewrite take_app_length', drop_app_length' by done.
  rewrite (shared_agrees b a) by done. fold secret. cbn [advance].
  destruct (wait_for_marker (hash_req1 sha1 secret) RESPONDER_SYNC_MAX pad_a (fun leftover => respond_finish sha1 secret pad_d lookup select leftover) sizes Hsa) as (p' & sizes' & E & Hs).
  { unfold hash_req1, RESPONDER_SYNC_MAX. rewrite Hsha. lia. }
  exists p', sizes'. split; [|done]. rewrite E. cbn beta iota. by rewrite app_nil_r.
Qed.

(** What each side ends with. *)
Definition initiator_outcome (rest : bytes) : HandshakeOutcome :=
  mkOutcome (finish_stream selected (advance_n (length (step3_payload provide pad_c ia)) enc)
    (advance_n (length (reply_payload selected pad_d)) dec) rest) selected skey.
Definition responder_outcome (rest : bytes) : HandshakeOutcome :=
  mkOutcome (finish_stream selected (advance_n (length (reply_payload selected pad_d)) dec)
    (advance_n (length (step3_payload provide pad_c ia)) enc) (ia ++ rest)) selected skey.

Lemma responder_ends pr tl sizes :
  syncing (hash_req1 sha1 secret) RESPONDER_SYNC_MAX pad_a pr ->
  exists rest input' sizes', rest ++ input' = tl /\
    advance (pbind pr (respond_finish sha1 secret pad_d lookup select)) (request ++ tl) sizes =
      (reply, PRet (Ok (responder_outcome rest)), input', sizes').
Proof.
  intros Hs. destruct Hag as [_ (Hpa & Hpb & Hpc & Hpd) Hia Hpr Hsel Hcom Hpl Hlk He Hd _ Hsa _].
  destruct (resume_at_marker (hash_req1 sha1 secret) RESPONDER_SYNC_MAX pad_a (respond_finish sha1 secret pad_d lookup select) pr
    (ask skey secret ++ fst (rc4_apply enc (step3_payload provide pad_c ia)) ++ tl) sizes Hsa) as (leftover & rest0 & sizes' & Eq & E).
  { unfold hash_req1, RESPONDER_SYNC_MAX. rewrite Hsha. lia. }
  { done. }
  unfold request. rewrite <-!app_assoc, E.
  destruct (respond_ends secret pad_d lookup select leftover rest0 skey provide pad_c ia selected enc dec tl sizes') as (rest & input' & E' & Hr); try done.
  by exists rest, input', sizes'.
Qed.

Lemma initiator_ends pi tl sizes :
  syncing (fst (rc4_apply dec VC)) INITIATOR_SYNC_MAX pad_b pi ->
  exists rest input' sizes', rest ++ input' = tl /\
    advance (pbind pi (initiate_finish skey provide allow_plaintext (advance_n (length (step3_payload provide pad_c ia)) enc) dec)) (reply ++ tl) sizes =
      ([], PRet (Ok (initiator_outcome rest)), input', sizes').
Proof.
  intros Hs. destruct Hag as [_ (Hpa & Hpb & Hpc & Hpd) Hia Hpr Hsel Hcom Hpl Hlk He Hd _ _ Hsb].
  unfold reply, reply_payload. rewrite apply_app. cbn [fst]. rewrite <-app_assoc.
  destruct (resume_at_marker (fst (rc4_apply dec VC)) INITIATOR_SYNC_MAX pad_b
    (initiate_finish skey provide allow_plaintext (advance_n (length (step3_payload provide pad_c ia)) enc) dec) pi
    (fst (rc4_apply (advance_n (length VC) dec) (be_bytes 4 (method_as_u32 selected) ++ be_bytes 2 (Z.of_nat (length pad_d)) ++ pad_d)) ++ tl)
    sizes Hsb) as (leftover & rest0 & sizes' & Eq & E).
  { rewrite vc_length. unfold INITIATOR_SYNC_MAX. lia. }
  { done. }
  rewrite E.
  destruct (initiate_ends skey provide allow_plaintext (advance_n (length (step3_payload provide pad_c ia)) enc) dec leftover rest0 selected pad_d tl sizes')
    as (rest & input' & E' & Hr); [by rewrite app_nil_r|done|done|done|].
  exists rest, input', sizes'. split; [done|]. rewrite E'. unfold initiator_outcome, reply_payload. rewrite !length_app, !length_be_bytes.
  reflexivity.
Qed.

Lemma handshake_link sizes :
  link 3 initiator responder [] [] sizes = (PRet (Ok (initiator_outcome [])), PRet (Ok (responder_outcome [])), [], []).
Proof.
  destruct (initiator_rounds sizes) as (pi & E1 & Hpi). cbn [link]. rewrite E1. cbn beta iota. cbn [app].
  destruct (responder_round sizes) as (pr & s1 & E2 & Hpr). rewrite E2. cbn beta iota.
  destruct (Hpi s1) as (pi2 & s2 & E3 & Hpi2). rewrite E3. cbn beta iota. cbn [app].
  destruct (responder_ends pr [] s2 Hpr) as (rest & input & s3 & Er & E4). apply app_nil in Er as [-> ->]. rewrite app_nil_r in E4. rewrite E4. cbn beta iota.
  destruct (initiator_ends pi2 [] s3 Hpi2) as (rest & input & s4 & Er & E5). apply app_nil in Er as [-> ->]. rewrite app_nil_r in E5. rewrite E5. done.
Qed.
End Agreement.

(** The encryption handshake agrees: when both sides know the torrent, have a
    method in common and use padding in its bounds that does not look like the
    markers, three exchanges end it on both sides, whatever the private keys, the
    padding, the initial payload and the portions in which data arrives.  Both
    sides select the same method for the same torrent, each decrypts with the
    state the other encrypts with, the responder starts with the initial payload
    and nothing is lost. *)
Theorem mse_handshake_agrees sha1 a b pad_a pad_b pad_c pad_d skey ia provide allow_plaintext selected lookup select enc dec sizes :
  (forall m, length (sha1 m) = 20%nat) ->
  agreeable sha1 a b pad_a pad_b pad_c pad_d skey ia provide allow_plaintext selected lookup select enc dec ->
  exists oi or,
    link 3 (initiate_inner sha1 a pad_a pad_c skey provide ia allow_plaintext) (respond_inner sha1 b pad_b pad_d lookup select) [] [] sizes =
      (PRet (Ok oi), PRet (Ok or), [], []) /\
    ho_selected oi = selected /\ ho_selected or = selected /\ ho_skey oi = skey /\ ho_skey or = skey /\
    es_enc (ho_stream oi) = es_dec (ho_stream or) /\ es_dec (ho_stream oi) = es_enc (ho_stream or) /\
    es_prefix (ho_stream oi) = [] /\ es_prefix (ho_stream or) = ia.
Proof.
  intros Hsha Hag.
  pose proof (handshake_link sha1 Hsha a b pad_a pad_b pad_c pad_d skey ia provide allow_plaintext selected lookup select enc dec Hag sizes) as E.
  eexists _, _. split; [exact E|]. unfold initiator_outcome, responder_outcome, finish_stream. rewrite app_nil_r. by destruct selected.
Qed.

(** A handshake with small keys and a digest that spreads its input. *)
Definition example_sha1 (m : bytes) : bytes := be_bytes 20 (fold_left (fun h x => h * 1000003 + x + 12345) m 7).
Definition example_skey : bytes := replicate 20 5.
Definition example_initiator : Proc HandshakeOutcome :=
  initiate_inner example_sha1 5 [1; 2; 3] [4; 5] example_skey (crypto_provide PreferEncrypted) [10; 20; 30] true.
Definition example_responder : Proc HandshakeOutcome :=
  respond_inner example_sha1 7 [9; 8; 7; 6] [] (lookup_skey example_sha1 [replicate 20 6; example_skey]) (policy_select PreferEncrypted).
Definition example_key (f : (bytes -> bytes) -> bytes -> bytes -> bytes) : Rc4 :=
  default (mkRc4 [] 0 0) (for_mse (f example_sha1 (secret 5 7) example_skey)).

(** The responder sends data as soon as its side is done, in the same portion as
    its reply. *)
Definition example_payload : bytes := BT_HANDSHAKE_HEAD.
Definition eager_responder : Proc HandshakeOutcome :=
  let@ o := example_responder in
  match es_poll_write [Ready (Ok (length example_payload))] example_payload (ho_stream o) with
  | (_, sent, st) => PWrite sent (pok (mkOutcome st (ho_selected o) (ho_skey o)))
  end.

(** Data that arrives together with the end of the handshake is not decrypted:
    what the search for the marker has read too far is handed to the stream as it
    came.  A responder that sends its first bytes right behind its reply completes
    the handshake, and the initiator reads the encrypted bytes instead of them. *)
Theorem early_payload_garbled :
  exists oi or garbled,
    link 3 example_initiator eager_responder [] [] [] = (PRet (Ok oi), PRet (Ok or), [], []) /\
    ho_selected oi = MethodRc4 /\ length garbled = length example_payload /\ garbled <> example_payload /\
    fst (es_poll_read 68 (fun _ => Pending) (ho_stream oi)) = Ready (Ok garbled).
Proof.
  eexists _, _, _. split; [vm_compute; reflexivity|]. split_and!.
  4: { vm_compute. reflexivity. }
  - reflexivity.
  - reflexivity.
  - intros E. apply (f_equal head) in E. discriminate E.
Qed.

(** ** The connector (mse/connector.rs) *)

Record PeerConnected := mkConnected { pc_encrypted : bool; pc_sent_initial_payload : bool; pc_utp : bool }.

Section Connector.
(** What dialling without encryption gives, with or without an initial payload,
    and the answer of the handshake as initiator. *)
Context (dial_peer : bytes -> result PeerConnected IoError).
Context (initiate : PeerConnected -> u32 -> bytes -> bool -> result CryptoMethod MseError).

Definition error_of (e : MseError) : IoError := match e with MIo e => e | _ => OtherIo end.

Definition try_mse (policy : EncryptionPolicy) (initial_payload : bytes) (provide : u32) (allow_plaintext : bool)
    : result PeerConnected IoError :=
  let! connected := dial_peer [] in
  match initiate connected provide initial_payload allow_plaintext with
  | Err e => Err (error_of e)
  | Ok selected =>
      if negb (is_rc4 selected) && negb (allows_plaintext policy) then Err OtherIo
      else Ok (mkConnected (is_rc4 selected) true (pc_utp connected))
  end.

Definition connector_dial_peer (policy : EncryptionPolicy) (initial_payload : bytes) : result PeerConnected IoError :=
  match policy with
  | Disabled | PreferPlaintext => dial_peer initial_payload
  | RequireEncrypted => try_mse policy initial_payload CRYPTO_RC4 false
  | PreferEncrypted =>
      match try_mse policy initial_payload (Z.lor CRYPTO_PLAINTEXT CRYPTO_RC4) true with
      | Ok connected => Ok connected
      | Err _ => dial_peer initial_payload
      end
  end.

(** Required encryption is never given up, and preferred encryption falls back
    only when the handshake has failed. *)
Lemma required_is_encrypted payload c : connector_dial_peer RequireEncrypted payload = Ok c -> pc_encrypted c = true.
Proof.
  cbn. unfold try_mse. destruct (dial_peer []) as [c0|e]; [|done]. destruct (initiate _ _ _ _) as [[]|]; cbn; [done| |done]. by intros [= <-].
Qed.
End Connector.
