(* ===== verification/Float.v ===== *)
(** * Double precision numbers

    The [f64] of the source: IEEE 754 binary64 with rounding to nearest even, on
    the specification floats of the Standard Library, and the conversions the
    source writes with [as].  [f64::max] prefers a number to a NaN. *)

From Stdlib Require Import SpecFloat.
From S2P Require Import Prelude.

Abbreviation f64 := spec_float.

Definition f64_of (z : Z) : f64 := binary_normalize 53 1024 z 0 false.
Definition f64_zero : f64 := S754_zero false.
Definition f64_add : f64 -> f64 -> f64 := SFadd 53 1024.
Definition f64_sub : f64 -> f64 -> f64 := SFsub 53 1024.
Definition f64_mul : f64 -> f64 -> f64 := SFmul 53 1024.
Definition f64_div : f64 -> f64 -> f64 := SFdiv 53 1024.
Definition f64_ltb : f64 -> f64 -> bool := SFltb.
Definition f64_leb : f64 -> f64 -> bool := SFleb.

Definition is_nan (x : f64) : bool := match x with S754_nan => true | _ => false end.
Definition f64_max (x y : f64) : f64 := if is_nan x then y else if f64_ltb x y then y else x.
Definition f64_min (x y : f64) : f64 := if is_nan x then y else if f64_ltb y x then y else x.

(** The integer nearest to [m * 2 ^ e], halves away from zero ([f64::round]) or
    to even. *)
Definition nearest (even : bool) (num den : Z) : Z :=
  let q := num / den in
  let r := num mod den in
  if 2 * r <? den then q
  else if den <? 2 * r then q + 1
  else if even && Z.even q then q else q + 1.

Definition scaled (m : positive) (e scale : Z) : Z * Z :=
  if 0 <=? e then (Z.pos m * 2 ^ e * scale, 1) else (Z.pos m * scale, 2 ^ (- e)).

(** [x.round() as u64] and [as i64]: casts saturate, and a NaN becomes 0. *)
Definition round_abs (m : positive) (e : Z) : Z := let '(n, d) := scaled m e 1 in nearest false n d.
Definition round_as (lo hi : Z) (x : f64) : Z :=
  match x with
  | S754_zero _ | S754_nan => 0
  | S754_infinity s => if s then lo else hi
  | S754_finite s m e => Z.max lo (Z.min hi (if s then - round_abs m e else round_abs m e))
  end.
Definition round_as_u64 : f64 -> u64 := round_as 0 U64_MAX.
Definition round_as_i64 : f64 -> i64 := round_as (- I64_MAX - 1) I64_MAX.

(** [Duration::as_secs_f64] and [Duration::from_secs_f64]; the latter panics on a
    negative or too large number of seconds. *)
Definition as_secs_f64 (d : Duration) : f64 :=
  f64_add (f64_of (d / 1000000000)) (f64_div (f64_of (d mod 1000000000)) (f64_of 1000000000)).
Definition from_secs_f64 (x : f64) : option Duration :=
  match x with
  | S754_zero _ => Some 0
  | S754_finite false m e =>
      let '(n, d) := scaled m e 1000000000 in
      let ns := nearest true n d in
      if ns <? secs (U64_MAX + 1) then Some ns else None
  | _ => None
  end.

Lemma round_as_u64_range x : is_u64 (round_as_u64 x).
Proof. unfold is_u64, round_as_u64, round_as, U64_MAX. destruct x as [?|[]| |? ? ?]; lia. Qed.
Lemma round_as_i64_range x : is_i64 (round_as_i64 x).
Proof. unfold is_i64, round_as_i64, round_as, I64_MAX. destruct x as [?|[]| |? ? ?]; lia. Qed.
