(* ===== verification/Rate.v ===== *)
(** * Rate limits and their schedule (crates/bit_rev/src/rate.rs)

    The token bucket behind every upload and download, the pair of global limits
    with the alternative pair, the two limiters a transfer passes through, and
    the daily window in which the alternative limits apply.  Time is an argument;
    a caller that waits polls the bucket again at the instants of a list. *)

From S2P Require Import Prelude Text Float.

Definition DEFAULT_BURST : u64 := 16 * 1024.

Record Bucket := mkBucket { bk_tokens : f64; bk_last : Instant }.

Definition refill (now : Instant) (rate burst : u64) (b : Bucket) : Bucket :=
  if rate =? 0 then mkBucket (f64_of burst) now
  else
    let elapsed := as_secs_f64 (since now (bk_last b)) in
    mkBucket (f64_min (f64_add (bk_tokens b) (f64_mul elapsed (f64_of rate))) (f64_of burst)) now.

Record RateLimiter := mkLimiter { rl_rate : u64; rl_burst : u64; rl_bucket : Bucket }.

Definition limiter_new (now : Instant) (rate burst : u64) : RateLimiter :=
  let burst := if rate =? 0 then 0 else Z.max burst 1 in
  mkLimiter rate burst (mkBucket (f64_of burst) now).
Definition limiter_unlimited (now : Instant) : RateLimiter := limiter_new now 0 0.

Definition set_rate (rate : u64) (l : RateLimiter) : RateLimiter :=
  mkLimiter rate (if (0 <? rate) && (rl_burst l =? 0) then DEFAULT_BURST else rl_burst l) (rl_bucket l).
Definition set_burst (burst : u64) (l : RateLimiter) : RateLimiter := mkLimiter (rl_rate l) burst (rl_bucket l).

Inductive Take := Taken | Wait (d : Duration) | TakePanics.

Definition try_take (now : Instant) (bytes : u64) (l : RateLimiter) : Take * RateLimiter :=
  if rl_rate l =? 0 then (Taken, l)
  else
    let burst := Z.max (Z.max (rl_burst l) bytes) 1 in
    let b := refill now (rl_rate l) burst (rl_bucket l) in
    let need := f64_of bytes in
    if f64_leb need (bk_tokens b) then
      (Taken, mkLimiter (rl_rate l) (rl_burst l) (mkBucket (f64_sub (bk_tokens b) need) (bk_last b)))
    else
      let wait_secs := f64_div (f64_sub need (bk_tokens b)) (f64_of (rl_rate l)) in
      (match from_secs_f64 (f64_max wait_secs f64_zero) with Some d => Wait d | None => TakePanics end,
       mkLimiter (rl_rate l) (rl_burst l) b).

(** [acquire_slow], which polls when it starts and each time its wait has ended or
    a limit was changed: the instants of those polls.  [None]: it still waits. *)
Fixpoint acquire_slow (polls : list Instant) (bytes : u64) (l : RateLimiter) : option (bool * list Instant) * RateLimiter :=
  match polls with
  | [] => (None, l)
  | now :: polls =>
      let '(t, l) := try_take now bytes l in
      match t with
      | Taken => (Some (true, polls), l)
      | TakePanics => (Some (false, polls), l)
      | Wait _ => acquire_slow polls bytes l
      end
  end.

Definition acquire (polls : list Instant) (bytes : u64) (l : RateLimiter) : option (bool * list Instant) * RateLimiter :=
  if (bytes =? 0) || (rl_rate l =? 0) then (Some (true, polls), l) else acquire_slow polls bytes l.

Record SessionLimits := mkSessionLimits {
  sl_download : RateLimiter; sl_upload : RateLimiter;
  sl_alt_download : RateLimiter; sl_alt_upload : RateLimiter; sl_alt_mode : bool }.

Definition limits_new (now : Instant) (download upload alt_download alt_upload : u64) : SessionLimits :=
  mkSessionLimits (limiter_new now download DEFAULT_BURST) (limiter_new now upload DEFAULT_BURST)
    (limiter_new now alt_download DEFAULT_BURST) (limiter_new now alt_upload DEFAULT_BURST) false.

Definition set_alt_mode (on : bool) (l : SessionLimits) : SessionLimits :=
  mkSessionLimits (sl_download l) (sl_upload l) (sl_alt_download l) (sl_alt_upload l) on.
Definition current_download (l : SessionLimits) : RateLimiter :=
  if sl_alt_mode l then sl_alt_download l else sl_download l.
Definition current_upload (l : SessionLimits) : RateLimiter :=
  if sl_alt_mode l then sl_alt_upload l else sl_upload l.

(** ** The schedule *)

Record AltSchedule := mkSchedule { start_min : u16; end_min : u16 }.

Definition parse_hhmm (text : list Z) : option u16 :=
  '(h, m) ← split_once 58 text;
  hour ← parse_uint U16_MAX h;
  min ← parse_uint U16_MAX m;
  if (23 <? hour) || (59 <? min) then None else Some (hour * 60 + min).

Definition parse_schedule (spec : list Z) : option AltSchedule :=
  let spec := trim spec in
  match spec with
  | [] => None
  | _ =>
      '(start, stop) ← split_once 45 spec;
      a ← parse_hhmm (trim start);
      b ← parse_hhmm (trim stop);
      Some (mkSchedule a b)
  end.

Definition active_at (s : AltSchedule) (now_min : u16) : bool :=
  let now := now_min mod (24 * 60) in
  if start_min s =? end_min s then false
  else if start_min s <? end_min s then (start_min s <=? now) && (now <? end_min s)
  else (start_min s <=? now) || (now <? end_min s).

Definition active_now (local_minutes : option u16) (s : AltSchedule) : bool :=
  match local_minutes with Some now => active_at s now | None => false end.

(** ** Laws *)

(** A bucket never holds more than its burst. *)
Lemma f64_min_capped x y : f64_ltb y (f64_min x y) = false.
Proof.
  assert (Hirr : forall z, f64_ltb z z = false).
  { intros z. unfold f64_ltb, SpecFloat.SFltb, SpecFloat.SFcompare. destruct z as [?|[]| |[] m e]; try done.
    all: rewrite Z.compare_refl; by rewrite Pos.compare_cont_refl. }
  unfold f64_min. destruct (is_nan x); [done|]. destruct (f64_ltb y x) eqn:E; [done|exact E].
Qed.

Lemma refill_capped now rate burst b : f64_ltb (f64_of burst) (bk_tokens (refill now rate burst b)) = false.
Proof.
  unfold refill. destruct (rate =? 0); [|apply f64_min_capped].
  pose proof (f64_min_capped (f64_of burst) (f64_of burst)) as H. unfold f64_min in H. cbn [bk_tokens].
  destruct (is_nan _); [exact H|]. destruct (f64_ltb (f64_of burst) (f64_of burst)) eqn:E; [by rewrite E in H|done].
Qed.

Lemma parse_hhmm_range text m : parse_hhmm text = Some m -> 0 <= m < 24 * 60.
Proof.
  unfold parse_hhmm. destruct (split_once 58 text) as [[h t]|]; [|done]; cbn.
  destruct (parse_uint U16_MAX h) as [hour|] eqn:Eh; [|done]; cbn. destruct (parse_uint U16_MAX t) as [min|] eqn:Em; [|done]; cbn.
  apply parse_uint_range in Eh, Em; [|done..]. destruct (_ || _) eqn:E; [done|]. intros [= <-]. lia.
Qed.

(** The window is the circular interval from the start to the end, and a
    schedule read from its text is one. *)
Lemma alt_schedule_window spec s now :
  parse_schedule spec = Some s ->
  active_at s now = true <-> (now - start_min s) mod 1440 < (end_min s - start_min s) mod 1440.
Proof.
  unfold parse_schedule. destruct (trim spec) as [|c l]; [done|].
  destruct (split_once 45 _) as [[a b]|]; [|done]; cbn.
  destruct (parse_hhmm (trim a)) as [x|] eqn:Ex; [|done]; cbn. destruct (parse_hhmm (trim b)) as [y|] eqn:Ey; [|done]; cbn.
  intros [= <-]. apply parse_hhmm_range in Ex, Ey. unfold active_at. cbn [start_min end_min]. change (24 * 60) with 1440 in *.
  rewrite <- (Zminus_mod_idemp_l now). pose proof (Z.mod_pos_bound now 1440 ltac:(lia)) as Hn. set (n := now mod 1440) in *. clearbody n.
  assert (Hm : forall d, 0 <= d < 1440 -> d mod 1440 = d) by (intros; by apply Z.mod_small).
  assert (Hneg : forall d, -1440 < d < 0 -> d mod 1440 = d + 1440).
  { intros d Hd. replace d with (d + 1440 + (-1) * 1440) at 1 by lia. rewrite Z_mod_plus_full. apply Z.mod_small. lia. }
  destruct (Z.eqb_spec x y), (Z.ltb_spec x y), (decide (x <= n)); try lia;
    first [rewrite (Hm (n - x)) by lia|rewrite (Hneg (n - x)) by lia]; first [rewrite (Hm (y - x)) by lia|rewrite (Hneg (y - x)) by lia]; lia.
Qed.
