(* ===== verification/Session.v ===== *)
(** * The session's torrents (crates/bit_rev/src/session.rs, library.rs)

    The torrents of a session, the ones that still wait for their metadata, and
    the operations that control them: pausing and resuming, the queue of active
    torrents, share limits, moves and rechecks, categories and tags, the periodic
    tick.  An operation changes the session and returns the effects that leave it:
    events for subscribers, requests to peer writers, commands for the DHT node,
    and the torrents whose resume file is to be written.  An asynchronous operation
    is cut at each [await] where it waits for something: the task it leaves behind is
    part of the state ([Task]).  [add_magnet] and [add_torrent_meta] put the parts
    together for a session in which nothing else happens before they return. *)

From S2P Require Import Prelude Text Float Rate Metainfo Layout Bitfield Message PeerStates Picker Priority Download Choke.
From S2P Require Import ExtHandshake Peers Metadata Pex Registry Pipeline AllowedFast PeerHandler PeerTasks PeerSwarm.

Declare Scope session_scope.
Delimit Scope session_scope with session.

(** ** Data *)

Inductive TorrentState :=
| StChecking | StMetadata | StDownloading | StSeeding | StPaused | StQueued | StMoving | StError (message : bytes).

#[export] Instance TorrentState_eq_dec : EqDecision TorrentState.
Proof. solve_decision. Defined.

Definition transfer_enabled (s : TorrentState) : bool :=
  match s with StDownloading | StSeeding | StMetadata => true | _ => false end.
Definition error_message (s : TorrentState) : option bytes := match s with StError m => Some m | _ => None end.

(** [DownloadState] of [peer_connection.rs]: what the tasks of a torrent look at. *)
Inductive TransferState := TsInit | TsDownloading | TsPaused.
#[export] Instance TransferState_eq_dec : EqDecision TransferState.
Proof. solve_decision. Defined.

Definition RATE_EMA_ALPHA : f64 := f64_div (f64_of 2) (f64_of 10).
Definition SLOW_RATE_BPS : u64 := 1024.
Definition RATE_TICK : Duration := secs 1.

Record RateSample := mkSample {
  last_downloaded : u64; last_uploaded : u64; download_rate : f64; upload_rate : f64; initialized : bool }.
Definition sample_default : RateSample := mkSample 0 0 f64_zero f64_zero false.

Definition ema (inst old : f64) : f64 :=
  f64_add (f64_mul RATE_EMA_ALPHA inst) (f64_mul (f64_sub (f64_of 1) RATE_EMA_ALPHA) old).

Definition sample_tick (downloaded uploaded : u64) (dt : f64) (r : RateSample) : RateSample :=
  if negb (initialized r) then mkSample downloaded uploaded (download_rate r) (upload_rate r) true
  else
    let dt := if f64_ltb f64_zero dt then dt else f64_of 1 in
    let inst_dl := f64_div (f64_of (sat_sub downloaded (last_downloaded r))) dt in
    let inst_ul := f64_div (f64_of (sat_sub uploaded (last_uploaded r))) dt in
    mkSample downloaded uploaded (ema inst_dl (download_rate r)) (ema inst_ul (upload_rate r)) true.

(** The fields that [TorrentSession] and [PendingTorrent] share; a promoted
    torrent takes them over from the pending one. *)
Record Controls := mkControls {
  c_state : TorrentState;
  c_transfer : TransferState;
  c_peers : PeerStates;
  c_uploaded : u64;
  c_output_dir : bytes;
  c_added_at : i64;
  c_category : bytes;
  c_tags : gset bytes;
  c_auto_tmm : bool;
  c_rates : RateSample;
  c_queue_position : u64;
  c_force_start : bool;
  c_download_limiter : RateLimiter;
  c_upload_limiter : RateLimiter;
  c_ratio_limit : option f64;
  c_seeding_time_limit : option u64;
  c_slow_since : option Instant }.

Record TorrentSession := mkSession {
  t_controls : Controls;
  t_downloaded : DownloadState;
  t_torrent : Torrent;
  t_completed_at : option i64;
  t_cache_path : bytes }.

Record PendingTorrent := mkPendingTorrent {
  p_controls : Controls;
  p_name : bytes;
  p_start_paused : bool;
  p_verify : bool;
  p_skip_checking : bool;
  p_sequential : bool;
  p_file_priorities : list FilePriority;
  p_trackers : list bytes;
  p_webseeds : list bytes }.

Record Category := mkCategory { cat_name : bytes; cat_save_path : option bytes }.
Definition category_new (name : bytes) (save_path : option bytes) : Category :=
  mkCategory name (match save_path with Some [] => None | p => p end).

Record SessionOptions := mkOptions {
  so_state_dir : option bytes;
  so_download_dir : bytes;
  so_completed_dir : bytes;
  so_seed_ratio_limit : f64;
  so_seed_time_limit : u64;
  so_max_active_downloads : nat;
  so_max_active_uploads : nat;
  so_max_active : nat;
  so_dont_count_slow : bool;
  so_queue_slow_window : Duration }.

Record AddTorrentOptions := mkAdd {
  ao_output_dir : option bytes;
  ao_seed : bool;
  ao_verify : bool;
  ao_paused : option bool;
  ao_category : bytes;
  ao_tags : list bytes;
  ao_sequential : bool;
  ao_skip_checking : bool;
  ao_file_priorities : list FilePriority;
  ao_auto_tmm : option bool;
  ao_force_start : bool;
  ao_ratio_limit : option f64;
  ao_seeding_time_limit : option u64;
  ao_download_limit : u64;
  ao_upload_limit : u64 }.

(** What a resume file gives a torrent that is added. *)
Record Resumed := mkResumed {
  rs_uploaded : u64; rs_added_at : i64; rs_completed_at : option i64; rs_paused : bool;
  rs_sequential : bool; rs_file_priorities : list FilePriority }.

(** A torrent that is being added: what is chosen before its files are opened, and then
    what is known when they are; [ad_promoted] when it comes from a magnet link. *)
Record Addition := mkAddition {
  ad_torrent : Torrent; ad_cache_path : bytes; ad_resumed : option Resumed; ad_opts : AddTorrentOptions;
  ad_category : bytes; ad_tags : gset bytes; ad_output_dir : bytes; ad_auto_tmm : bool; ad_promoted : bool }.

Record Prepared := mkPrepared {
  pr_addition : Addition; pr_controls : Controls; pr_completed_at : option i64; pr_start_paused : bool }.

(** A task that waits in the middle of an operation: a move of the files, with the
    state before it; a recheck; a magnet link ([fetch]) or an info hash whose empty
    storage is opened; a magnet link whose metadata is awaited; and a torrent that is
    added, while its files are opened and checked, and while the port is awaited.  The
    last three hold the pending torrent they promote, also after its removal from the
    session. *)
Inductive Task :=
| Relocating (id : bytes) (previous : TorrentState) (new_output : bytes)
| Rechecking (id : bytes) (stay_paused : bool)
| Registering (id name : bytes) (trackers webseeds : list bytes) (output_dir : bytes) (opts : AddTorrentOptions) (fetch : bool)
| Fetching (id : bytes) (removed : option PendingTorrent)
| Opening (a : Addition) (removed : option PendingTorrent)
| Listening (p : Prepared) (removed : option PendingTorrent).

Record Session := mkSes {
  ses_torrents : gmap bytes TorrentSession;
  ses_pending : gmap bytes PendingTorrent;
  ses_transfer : TransferState;
  ses_options : SessionOptions;
  ses_dht : bool;
  ses_categories : gmap bytes Category;
  ses_limits : SessionLimits;
  ses_next_queue_pos : u64;
  ses_restoring : bool;
  ses_tasks : list Task }.

Inductive SessionEvent :=
| EvAdded (id : bytes) | EvRemoved (id : bytes) | EvStateChanged (id : bytes) (state : TorrentState)
| EvProgress (id : bytes) | EvCompleted (id : bytes) | EvError (id message : bytes).

Inductive Effect :=
| Emit (e : SessionEvent)
| ToWriter (id : bytes) (peer : SocketAddr) (r : WriterRequest)
| DhtSetActive (id : bytes) (active : bool) | DhtSetAllActive (active : bool)
| DhtAdd (id : bytes) (active : bool) | DhtRemove (id : bytes)
| Flush (id : bytes) | FlushAll
| PersistCategories (cats : gmap bytes Category)
| DeleteFiles (id output_dir : bytes) | DeleteResume (id : bytes)
| SpawnMoveOnComplete (id : bytes).

Inductive ControlError :=
| NotFound (id : bytes) | NoMetadata (id : bytes) | NoSuchFile (id : bytes) (index : nat)
| CategoryNotFound (name : bytes) | CategoryExists (name : bytes) | CategoryPersist
| MoveFailed (id message : bytes).

(** ** Field updates *)

Definition set_c_state (v : TorrentState) (c : Controls) : Controls :=
  mkControls v (c_transfer c) (c_peers c) (c_uploaded c) (c_output_dir c) (c_added_at c) (c_category c) (c_tags c) (c_auto_tmm c)
    (c_rates c) (c_queue_position c) (c_force_start c) (c_download_limiter c) (c_upload_limiter c) (c_ratio_limit c)
    (c_seeding_time_limit c) (c_slow_since c).
Definition set_c_transfer (v : TransferState) (c : Controls) : Controls :=
  mkControls (c_state c) v (c_peers c) (c_uploaded c) (c_output_dir c) (c_added_at c) (c_category c) (c_tags c) (c_auto_tmm c)
    (c_rates c) (c_queue_position c) (c_force_start c) (c_download_limiter c) (c_upload_limiter c) (c_ratio_limit c)
    (c_seeding_time_limit c) (c_slow_since c).
Definition set_c_peers (v : PeerStates) (c : Controls) : Controls :=
  mkControls (c_state c) (c_transfer c) v (c_uploaded c) (c_output_dir c) (c_added_at c) (c_category c) (c_tags c) (c_auto_tmm c)
    (c_rates c) (c_queue_position c) (c_force_start c) (c_download_limiter c) (c_upload_limiter c) (c_ratio_limit c)
    (c_seeding_time_limit c) (c_slow_since c).
Definition set_c_uploaded (v : u64) (c : Controls) : Controls :=
  mkControls (c_state c) (c_transfer c) (c_peers c) v (c_output_dir c) (c_added_at c) (c_category c) (c_tags c) (c_auto_tmm c)
    (c_rates c) (c_queue_position c) (c_force_start c) (c_download_limiter c) (c_upload_limiter c) (c_ratio_limit c)
    (c_seeding_time_limit c) (c_slow_since c).
Definition set_c_labels (dir category : bytes) (tags : gset bytes) (auto_tmm : bool) (c : Controls) : Controls :=
  mkControls (c_state c) (c_transfer c) (c_peers c) (c_uploaded c) dir (c_added_at c) category tags auto_tmm
    (c_rates c) (c_queue_position c) (c_force_start c) (c_download_limiter c) (c_upload_limiter c) (c_ratio_limit c)
    (c_seeding_time_limit c) (c_slow_since c).
Definition set_c_rates (r : RateSample) (since : option Instant) (c : Controls) : Controls :=
  mkControls (c_state c) (c_transfer c) (c_peers c) (c_uploaded c) (c_output_dir c) (c_added_at c) (c_category c) (c_tags c) (c_auto_tmm c)
    r (c_queue_position c) (c_force_start c) (c_download_limiter c) (c_upload_limiter c) (c_ratio_limit c)
    (c_seeding_time_limit c) since.
Definition set_c_queue_position (v : u64) (c : Controls) : Controls :=
  mkControls (c_state c) (c_transfer c) (c_peers c) (c_uploaded c) (c_output_dir c) (c_added_at c) (c_category c) (c_tags c) (c_auto_tmm c)
    (c_rates c) v (c_force_start c) (c_download_limiter c) (c_upload_limiter c) (c_ratio_limit c)
    (c_seeding_time_limit c) (c_slow_since c).
Definition set_c_force_start (v : bool) (c : Controls) : Controls :=
  mkControls (c_state c) (c_transfer c) (c_peers c) (c_uploaded c) (c_output_dir c) (c_added_at c) (c_category c) (c_tags c) (c_auto_tmm c)
    (c_rates c) (c_queue_position c) v (c_download_limiter c) (c_upload_limiter c) (c_ratio_limit c)
    (c_seeding_time_limit c) (c_slow_since c).
Definition set_c_limits (down up : RateLimiter) (ratio : option f64) (time : option u64) (c : Controls) : Controls :=
  mkControls (c_state c) (c_transfer c) (c_peers c) (c_uploaded c) (c_output_dir c) (c_added_at c) (c_category c) (c_tags c) (c_auto_tmm c)
    (c_rates c) (c_queue_position c) (c_force_start c) down up ratio time (c_slow_since c).

Definition set_category_of (v : bytes) (c : Controls) : Controls :=
  set_c_labels (c_output_dir c) v (c_tags c) (c_auto_tmm c) c.
Definition set_tags_of (v : gset bytes) (c : Controls) : Controls :=
  set_c_labels (c_output_dir c) (c_category c) v (c_auto_tmm c) c.
Definition set_output_dir (v : bytes) (c : Controls) : Controls :=
  set_c_labels v (c_category c) (c_tags c) (c_auto_tmm c) c.
Definition set_auto_tmm (v : bool) (c : Controls) : Controls :=
  set_c_labels (c_output_dir c) (c_category c) (c_tags c) v c.

Definition t_control (f : Controls -> Controls) (t : TorrentSession) : TorrentSession :=
  mkSession (f (t_controls t)) (t_downloaded t) (t_torrent t) (t_completed_at t) (t_cache_path t).
Definition set_t_downloaded (d : DownloadState) (t : TorrentSession) : TorrentSession :=
  mkSession (t_controls t) d (t_torrent t) (t_completed_at t) (t_cache_path t).
Definition set_t_completed (at_ : option i64) (t : TorrentSession) : TorrentSession :=
  mkSession (t_controls t) (t_downloaded t) (t_torrent t) at_ (t_cache_path t).
Definition p_control (f : Controls -> Controls) (p : PendingTorrent) : PendingTorrent :=
  mkPendingTorrent (f (p_controls p)) (p_name p) (p_start_paused p) (p_verify p) (p_skip_checking p) (p_sequential p)
    (p_file_priorities p) (p_trackers p) (p_webseeds p).
Definition set_p_selection (seq : bool) (prios : list FilePriority) (p : PendingTorrent) : PendingTorrent :=
  mkPendingTorrent (p_controls p) (p_name p) (p_start_paused p) (p_verify p) (p_skip_checking p) seq prios (p_trackers p) (p_webseeds p).

Definition set_torrents (m : gmap bytes TorrentSession) (s : Session) : Session :=
  mkSes m (ses_pending s) (ses_transfer s) (ses_options s) (ses_dht s) (ses_categories s) (ses_limits s) (ses_next_queue_pos s)
    (ses_restoring s) (ses_tasks s).
Definition set_pending (m : gmap bytes PendingTorrent) (s : Session) : Session :=
  mkSes (ses_torrents s) m (ses_transfer s) (ses_options s) (ses_dht s) (ses_categories s) (ses_limits s) (ses_next_queue_pos s)
    (ses_restoring s) (ses_tasks s).
Definition set_transfer (v : TransferState) (s : Session) : Session :=
  mkSes (ses_torrents s) (ses_pending s) v (ses_options s) (ses_dht s) (ses_categories s) (ses_limits s) (ses_next_queue_pos s)
    (ses_restoring s) (ses_tasks s).
Definition set_categories (v : gmap bytes Category) (s : Session) : Session :=
  mkSes (ses_torrents s) (ses_pending s) (ses_transfer s) (ses_options s) (ses_dht s) v (ses_limits s) (ses_next_queue_pos s)
    (ses_restoring s) (ses_tasks s).
Definition set_limits (v : SessionLimits) (s : Session) : Session :=
  mkSes (ses_torrents s) (ses_pending s) (ses_transfer s) (ses_options s) (ses_dht s) (ses_categories s) v (ses_next_queue_pos s)
    (ses_restoring s) (ses_tasks s).
Definition set_next_queue_pos (v : u64) (s : Session) : Session :=
  mkSes (ses_torrents s) (ses_pending s) (ses_transfer s) (ses_options s) (ses_dht s) (ses_categories s) (ses_limits s) v
    (ses_restoring s) (ses_tasks s).
Definition set_tasks (v : list Task) (s : Session) : Session :=
  mkSes (ses_torrents s) (ses_pending s) (ses_transfer s) (ses_options s) (ses_dht s) (ses_categories s) (ses_limits s) (ses_next_queue_pos s)
    (ses_restoring s) v.

(** ** Operations as state changes with effects *)

Definition SM (A : Type) : Type := Session -> A * list Effect * Session.
Definition sret {A} (a : A) : SM A := fun s => (a, [], s).
Definition sbind {A B} (m : SM A) (k : A -> SM B) : SM B := fun s =>
  let '(a, e, s) := m s in
  let '(b, e', s) := k a s in
  (b, e ++ e', s).
Notation "'do' x <- m ; k" := (sbind m (fun x => k)) (at level 10, x pattern, m at level 99, k at level 200) : session_scope.
Notation "m ;; k" := (sbind m (fun _ => k)) (at level 100, k at level 200, right associativity) : session_scope.
#[local] Open Scope session_scope.

Definition sget : SM Session := fun s => (s, [], s).
Definition smod (f : Session -> Session) : SM () := fun s => ((), [], f s).
Definition seff (e : list Effect) : SM () := fun s => ((), e, s).
Definition emit (e : SessionEvent) : SM () := seff [Emit e].
Definition serr {A} (e : ControlError) : SM (result A ControlError) := sret (Err e).
Definition sok : SM (result () ControlError) := sret (Ok ()).

Fixpoint sfor {A} (l : list A) (f : A -> SM ()) : SM () :=
  match l with [] => sret () | x :: l => f x ;; sfor l f end.

Definition mod_torrent (id : bytes) (f : TorrentSession -> TorrentSession) : SM () :=
  smod (fun s => set_torrents (alter f id (ses_torrents s)) s).
Definition mod_pending (id : bytes) (f : PendingTorrent -> PendingTorrent) : SM () :=
  smod (fun s => set_pending (alter f id (ses_pending s)) s).

(** [if let Some(dht) = self.dht()]. *)
Definition to_dht (e : Effect) : SM () := fun s => ((), if ses_dht s then [e] else [], s).
(** [spawn_flush_one] and [spawn_flush_resume]: nothing without a state directory. *)
Definition to_disk (e : Effect) : SM () := fun s => ((), match so_state_dir (ses_options s) with Some _ => [e] | None => [] end, s).

Definition active_state (d : DownloadState) : TorrentState := if is_complete d then StSeeding else StDownloading.

Definition transfer_of (state : TorrentState) : TransferState := if transfer_enabled state then TsDownloading else TsPaused.
Definition sync_download_state (state : TorrentState) (c : Controls) : Controls := set_c_transfer (transfer_of state) c.

Section Session.
(** The traversals of the hash maps, and the clocks at the time of the call. *)
Context (iter_t : gmap bytes TorrentSession -> list (bytes * TorrentSession)).
Context (iter_p : gmap bytes PendingTorrent -> list (bytes * PendingTorrent)).
Context (iter_peers : gmap SocketAddr PeerState -> list (SocketAddr * PeerState)).
Context (now : Instant) (now_unix : i64).

(** *** Peers of a torrent *)

Definition choke_peers (id : bytes) (ps : PeerStates) : list Effect :=
  map (fun e => ToWriter id (fst e) (snd e)) (snd (choke_all_peers iter_peers (states ps))).
Definition disconnect_all_peers (id : bytes) (ps : PeerStates) : list Effect :=
  omap (fun e => if writer_tx (snd e) then Some (ToWriter id (fst e) Disconnect) else None) (iter_peers (states ps)).

Definition choke_controls (c : Controls) : Controls := set_c_peers (set_states (choked (states (c_peers c))) (c_peers c)) c.

(** *** State changes *)

(** A state with no transfers that is not waiting in the queue. *)
Definition is_idle (s : TorrentState) : bool :=
  match s with StPaused | StChecking | StMoving | StError _ => true | _ => false end.

Definition set_state_controls (state : TorrentState) (c : Controls) : Controls :=
  let c := sync_download_state state (set_c_state state c) in
  if bool_decide (state = StQueued) || is_idle state then choke_controls c else c.

Definition state_effects (id : bytes) (state : TorrentState) (c : Controls) : list Effect :=
  let changed := negb (bool_decide (c_state c = state)) in
  (if bool_decide (state = StQueued) || is_idle state then choke_peers id (c_peers c) else []) ++
  (if bool_decide (state = StQueued) then disconnect_all_peers id (c_peers c) else []) ++
  (if changed then [Emit (EvStateChanged id state)] else []).

Definition set_torrent_state (id : bytes) (state : TorrentState) : SM () :=
  do s <- sget;
  match ses_torrents s !! id with
  | Some t => mod_torrent id (t_control (set_state_controls state)) ;; seff (state_effects id state (t_controls t))
  | None => sret ()
  end.

Definition apply_pause (id : bytes) : SM () := set_torrent_state id StPaused.
Definition apply_resume (id : bytes) : SM () :=
  do s <- sget;
  match ses_torrents s !! id with Some t => set_torrent_state id (active_state (t_downloaded t)) | None => sret () end.

(** The same changes for a torrent without metadata: pausing, resuming and the
    queue's decision. *)
Definition set_pending_state (id : bytes) (state : TorrentState) : SM () :=
  do s <- sget;
  match ses_pending s !! id with
  | Some p => mod_pending id (p_control (set_state_controls state)) ;; seff (state_effects id state (p_controls p))
  | None => sret ()
  end.
Definition apply_pending_pause (id : bytes) : SM () := set_pending_state id StPaused.
Definition apply_pending_resume (id : bytes) : SM () := set_pending_state id StMetadata.

(** *** The queue *)

Definition queue_key (item : u64 * bytes) : list Z := fst item :: snd item.
Definition queue_le (a b : u64 * bytes) : Prop := cmp_list (queue_key a) (queue_key b) <> Gt.
#[export] Instance queue_le_dec a b : Decision (queue_le a b).
Proof. unfold queue_le. apply _. Defined.

Definition queue_items (s : Session) : list (u64 * bytes) :=
  map (fun e => (c_queue_position (t_controls (snd e)), fst e)) (iter_t (ses_torrents s)) ++
  map (fun e => (c_queue_position (p_controls (snd e)), fst e))
    (filter (fun e => ses_torrents s !! fst e = None) (iter_p (ses_pending s))).
Definition queue_order (s : Session) : list bytes := map snd (merge_sort queue_le (queue_items s)).

Definition apply_queue_order (ids : list bytes) : SM () :=
  sfor (imap pair ids) (fun e =>
    mod_torrent (snd e) (t_control (set_c_queue_position (Z.of_nat (fst e)))) ;;
    mod_pending (snd e) (p_control (set_c_queue_position (Z.of_nat (fst e))))) ;;
  smod (set_next_queue_pos (Z.of_nat (length ids))).

Definition alloc_queue_position : SM u64 := fun s =>
  (ses_next_queue_pos s, [], set_next_queue_pos (wrap64 (ses_next_queue_pos s + 1)) s).

Definition total_rate (r : RateSample) : f64 := f64_add (f64_max (download_rate r) f64_zero) (f64_max (upload_rate r) f64_zero).

Definition torrent_is_slow (o : SessionOptions) (r : RateSample) (slow_since : option Instant) : bool :=
  if negb (so_dont_count_slow o) then false
  else match slow_since with
       | None => false
       | Some at_ => f64_ltb (total_rate r) (f64_of SLOW_RATE_BPS) && (so_queue_slow_window o <=? since now at_)
       end.
Definition is_slow (o : SessionOptions) (c : Controls) : bool := torrent_is_slow o (c_rates c) (c_slow_since c).

Definition slot_available (seeding downloading : bool) (dl ul max_dl max_ul max_all : nat) : bool :=
  if (0 <? max_all)%nat && (max_all <=? dl + ul)%nat then false
  else if downloading && (0 <? max_dl)%nat && (max_dl <=? dl)%nat then false
  else if seeding && (0 <? max_ul)%nat && (max_ul <=? ul)%nat then false
  else true.

Definition seed_limit_reached (o : SessionOptions) (t : TorrentSession) : bool :=
  if negb (is_complete (t_downloaded t)) then false
  else
    let c := t_controls t in
    let downloaded := downloaded_bytes (t_downloaded t) in
    let size := wrap64 (Z.max (t_length (t_torrent t)) 0) in
    let dl := if downloaded =? 0 then size else downloaded in
    let ratio_limit := default (so_seed_ratio_limit o) (c_ratio_limit c) in
    if f64_ltb f64_zero ratio_limit && (0 <? dl) && f64_leb ratio_limit (f64_div (f64_of (c_uploaded c)) (f64_of dl)) then true
    else
      let minutes := default (so_seed_time_limit o) (c_seeding_time_limit c) in
      match t_completed_at t with
      | Some done =>
          (0 <? minutes) &&
          (Z.min I64_MAX (Z.max (- I64_MAX - 1) (wrap_i64 minutes * 60)) <=? Z.min I64_MAX (Z.max (- I64_MAX - 1) (now_unix - done)))
      | None => false
      end.

(** One round of the loop of [evaluate_queue]: what a torrent may do with [dl]
    downloads and [ul] uploads running before it, [None] to leave it alone. *)
Definition has_slot (o : SessionOptions) (complete force : bool) (dl ul : nat) : bool :=
  force || slot_available complete (negb complete) dl ul (so_max_active_downloads o) (so_max_active_uploads o) (so_max_active o).

Definition decide_torrent (o : SessionOptions) (t : TorrentSession) (dl ul : nat) : option TorrentState * (nat * nat) :=
  let c := t_controls t in
  if is_idle (c_state c) then (None, (dl, ul))
  else if seed_limit_reached o t then (Some StPaused, (dl, ul))
  else
    let complete := is_complete (t_downloaded t) in
    let counts := negb (is_slow o c) in
    if has_slot o complete (c_force_start c) dl ul then
      (Some (active_state (t_downloaded t)),
       if counts then if complete then (dl, S ul) else (S dl, ul) else (dl, ul))
    else (Some StQueued, (dl, ul)).

Definition decide_pending (o : SessionOptions) (p : PendingTorrent) (dl ul : nat) : option TorrentState * (nat * nat) :=
  let c := p_controls p in
  if is_idle (c_state c) then (None, (dl, ul))
  else
    let counts := negb (is_slow o c) in
    if has_slot o false (c_force_start c) dl ul then (Some StMetadata, if counts then (S dl, ul) else (dl, ul))
    else (Some StQueued, (dl, ul)).

Definition decide_one (s : Session) (id : bytes) (dl ul : nat) : option TorrentState * (nat * nat) :=
  match ses_torrents s !! id with
  | Some t => decide_torrent (ses_options s) t dl ul
  | None =>
      match ses_pending s !! id with
      | Some p => decide_pending (ses_options s) p dl ul
      | None => (None, (dl, ul))
      end
  end.

Fixpoint assignments (s : Session) (order : list bytes) (dl ul : nat) : list (bytes * TorrentState) :=
  match order with
  | [] => []
  | id :: order =>
      let '(r, (dl, ul)) := decide_one s id dl ul in
      match r with
      | Some state => (id, state) :: assignments s order dl ul
      | None => assignments s order dl ul
      end
  end.

(** [dht.set_active] with the state a torrent has then. *)
Definition dht_sync (id : bytes) : SM () :=
  do s <- sget;
  match ses_torrents s !! id with
  | Some t => to_dht (DhtSetActive id (transfer_enabled (c_state (t_controls t))))
  | None =>
      match ses_pending s !! id with
      | Some p => to_dht (DhtSetActive id (transfer_enabled (c_state (p_controls p))))
      | None => sret ()
      end
  end.

Definition apply_assignment (a : bytes * TorrentState) : SM () :=
  let '(id, state) := a in
  do s <- sget;
  match ses_torrents s !! id with
  | Some _ => set_torrent_state id state ;; dht_sync id
  | None => set_pending_state id state ;; dht_sync id
  end.

Definition evaluate_queue : SM () :=
  do s <- sget;
  if ses_restoring s then sret () else sfor (assignments s (queue_order s) 0 0) apply_assignment.

(** *** Pausing and resuming *)

Definition pause_all : SM () :=
  smod (set_transfer TsPaused) ;;
  do s <- sget;
  sfor (map fst (iter_t (ses_torrents s))) apply_pause ;;
  sfor (map fst (iter_p (ses_pending s))) apply_pending_pause ;;
  to_dht (DhtSetAllActive false) ;; to_disk FlushAll.

Definition resume_all : SM () :=
  smod (set_transfer TsDownloading) ;;
  do s <- sget;
  sfor (map fst (iter_t (ses_torrents s))) apply_resume ;;
  sfor (map fst (iter_p (ses_pending s))) apply_pending_resume ;;
  evaluate_queue ;;
  to_dht (DhtSetAllActive true) ;; to_disk FlushAll.

Definition pause (id : bytes) : SM (result () ControlError) :=
  do s <- sget;
  match ses_torrents s !! id, ses_pending s !! id with
  | Some _, _ => apply_pause id ;; to_dht (DhtSetActive id false) ;; to_disk (Flush id) ;; evaluate_queue ;; sok
  | None, Some _ => apply_pending_pause id ;; to_dht (DhtSetActive id false) ;; evaluate_queue ;; sok
  | None, None => serr (NotFound id)
  end.

Definition resume (id : bytes) : SM (result () ControlError) :=
  do s <- sget;
  match ses_torrents s !! id, ses_pending s !! id with
  | Some _, _ =>
      smod (set_transfer TsDownloading) ;; apply_resume id ;; evaluate_queue ;; dht_sync id ;; to_disk (Flush id) ;; sok
  | None, Some _ =>
      apply_pending_resume id ;; smod (set_transfer TsDownloading) ;; evaluate_queue ;; dht_sync id ;; sok
  | None, None => serr (NotFound id)
  end.

Definition set_force_start (id : bytes) (enabled : bool) : SM (result () ControlError) :=
  do s <- sget;
  match ses_torrents s !! id, ses_pending s !! id with
  | Some _, _ =>
      mod_torrent id (t_control (set_c_force_start enabled)) ;;
      (if enabled then apply_resume id else sret ()) ;;
      evaluate_queue ;; to_disk (Flush id) ;; sok
  | None, Some _ =>
      mod_pending id (p_control (set_c_force_start enabled)) ;;
      (if enabled then apply_pending_resume id else sret ()) ;;
      evaluate_queue ;; sok
  | None, None => serr (NotFound id)
  end.

(** *** Moves in the queue *)

Definition move_to (id : bytes) (pos : nat) (ids : list bytes) : list bytes :=
  let ids := filter (fun existing => existing <> id) ids in
  let pos := Nat.min pos (length ids) in
  take pos ids ++ id :: drop pos ids.

Definition set_queue_position (id : bytes) (pos : nat) : SM (result () ControlError) :=
  do s <- sget;
  let ids := queue_order s in
  if decide (id ∈ ids) then
    apply_queue_order (move_to id pos ids) ;; evaluate_queue ;; to_disk FlushAll ;; sok
  else serr (NotFound id).

Definition queue_top (id : bytes) : SM (result () ControlError) := set_queue_position id 0.
Definition queue_bottom (id : bytes) : SM (result () ControlError) :=
  do s <- sget; set_queue_position id (length (queue_order s) - 1).
Definition queue_up (id : bytes) : SM (result () ControlError) :=
  do s <- sget;
  match position (fun existing => bool_decide (existing = id)) (queue_order s) with
  | Some idx => set_queue_position id (idx - 1)
  | None => serr (NotFound id)
  end.
Definition queue_down (id : bytes) : SM (result () ControlError) :=
  do s <- sget;
  match position (fun existing => bool_decide (existing = id)) (queue_order s) with
  | Some idx => set_queue_position id (idx + 1)
  | None => serr (NotFound id)
  end.

(** *** Limits *)

Definition set_share_limits (id : bytes) (ratio : option f64) (time : option u64) : SM (result () ControlError) :=
  let f c := set_c_limits (c_download_limiter c) (c_upload_limiter c) ratio time c in
  do s <- sget;
  match ses_torrents s !! id, ses_pending s !! id with
  | Some _, _ => mod_torrent id (t_control f) ;; to_disk (Flush id) ;; sok
  | None, Some _ => mod_pending id (p_control f) ;; sok
  | None, None => serr (NotFound id)
  end.

(** [set_rate], and the burst back to its default for a limit. *)
Definition limit_to (rate : u64) (l : RateLimiter) : RateLimiter :=
  let l := set_rate rate l in if 0 <? rate then set_burst DEFAULT_BURST l else l.

Definition set_rate_limits (download upload : u64) : SM () :=
  smod (fun s => let l := ses_limits s in
    set_limits (mkSessionLimits (limit_to download (sl_download l)) (limit_to upload (sl_upload l)) (sl_alt_download l) (sl_alt_upload l) (sl_alt_mode l)) s).
Definition set_alt_limits (download upload : u64) : SM () :=
  smod (fun s => let l := ses_limits s in
    set_limits (mkSessionLimits (sl_download l) (sl_upload l) (limit_to download (sl_alt_download l)) (limit_to upload (sl_alt_upload l)) (sl_alt_mode l)) s).

Definition session_set_alt_mode (on : bool) : SM () := smod (fun s => set_limits (set_alt_mode on (ses_limits s)) s).
Definition normal_rate_limits (s : Session) : u64 * u64 := (rl_rate (sl_download (ses_limits s)), rl_rate (sl_upload (ses_limits s))).

Definition set_torrent_rate_limits (id : bytes) (download upload : u64) : SM (result () ControlError) :=
  do s <- sget;
  match ses_torrents s !! id, ses_pending s !! id with
  | Some _, _ =>
      mod_torrent id (t_control (fun c => set_c_limits (limit_to download (c_download_limiter c)) (limit_to upload (c_upload_limiter c))
        (c_ratio_limit c) (c_seeding_time_limit c) c)) ;; sok
  | None, Some _ =>
      mod_pending id (p_control (fun c => set_c_limits (set_rate download (c_download_limiter c)) (set_rate upload (c_upload_limiter c))
        (c_ratio_limit c) (c_seeding_time_limit c) c)) ;; sok
  | None, None => serr (NotFound id)
  end.

(** *** Selection of files *)

Definition note_completed (t : TorrentSession) : bool * TorrentSession :=
  match t_completed_at t with
  | None => (true, set_t_completed (Some now_unix) t)
  | Some _ => (false, t)
  end.

Definition after_content_change (id : bytes) : SM () :=
  do s <- sget;
  match ses_torrents s !! id with
  | None => sret ()
  | Some t =>
      let state := c_state (t_controls t) in
      (if negb (bool_decide (state = StPaused)) && negb (bool_decide (state = StChecking))
       then set_torrent_state id (active_state (t_downloaded t)) else sret ()) ;;
      (if is_complete (t_downloaded t) then
         mod_torrent id (fun t => snd (note_completed t)) ;;
         (if fst (note_completed t) then emit (EvCompleted id) ;; seff [SpawnMoveOnComplete id] else sret ())
       else sret ()) ;;
      evaluate_queue ;; to_disk (Flush id)
  end.

Definition cancel_effects (id : bytes) (out : list Output) : list Effect :=
  omap (fun o => match o with OutWriter peer m => Some (ToWriter id peer m) | _ => None end) out.

(** The download state of a torrent and the requests it withdraws. *)
Definition install_selection (id : bytes) (t : TorrentSession) (r : list (PeerAddr * BlockRequest) * DownloadState) : SM () :=
  let '(cancels, d) := r in
  let '(out, ps) := send_priority_cancels iter_peers cancels (c_peers (t_controls t)) in
  mod_torrent id (fun t => set_t_downloaded d (t_control (set_c_peers ps) t)) ;;
  seff (cancel_effects id out) ;; after_content_change id.

Definition resize_to {A} (n : nat) (x : A) (l : list A) : list A := l ++ replicate (n - length l) x.

Definition session_set_file_priority (id : bytes) (file_index : nat) (prio : FilePriority) : SM (result () ControlError) :=
  do s <- sget;
  match ses_torrents s !! id, ses_pending s !! id with
  | None, Some p =>
      let prios := resize_to (S file_index) Normal (p_file_priorities p) in
      mod_pending id (fun p => set_p_selection (p_sequential p) (<[file_index := prio]> prios) p) ;; sok
  | None, None => serr (NotFound id)
  | Some t, _ =>
      match set_file_priority (t_downloaded t) file_index prio with
      | None => serr (NoSuchFile id file_index)
      | Some r => install_selection id t r ;; sok
      end
  end.

Definition session_set_file_priorities (id : bytes) (prios : list FilePriority) : SM (result () ControlError) :=
  do s <- sget;
  match ses_torrents s !! id, ses_pending s !! id with
  | None, Some p => mod_pending id (fun p => set_p_selection (p_sequential p) prios p) ;; sok
  | None, None => serr (NotFound id)
  | Some t, _ => install_selection id t (apply_file_priorities (t_downloaded t) prios) ;; sok
  end.

Definition session_file_priorities (s : Session) (id : bytes) : result (list FilePriority) ControlError :=
  match ses_torrents s !! id, ses_pending s !! id with
  | Some t, _ => Ok (dl_file_priorities (t_downloaded t))
  | None, Some p => Ok (p_file_priorities p)
  | None, None => Err (NotFound id)
  end.

Definition session_set_sequential (id : bytes) (seq : bool) : SM (result () ControlError) :=
  do s <- sget;
  match ses_torrents s !! id, ses_pending s !! id with
  | None, Some p => mod_pending id (fun p => set_p_selection seq (p_file_priorities p) p) ;; sok
  | None, None => serr (NotFound id)
  | Some t, _ => mod_torrent id (fun t => set_t_downloaded (set_sequential seq (t_downloaded t)) t) ;; to_disk (Flush id) ;; sok
  end.

Definition piece_states (s : Session) (id : bytes) : result (list u8) ControlError :=
  match ses_torrents s !! id, ses_pending s !! id with
  | Some t, _ => Ok (map (fun i => if dl_has_piece (t_downloaded t) (Z.of_nat i) then 2 else 0) (seq 0 (length (dl_pieces (t_downloaded t)))))
  | None, Some _ => Ok []
  | None, None => Err (NotFound id)
  end.

(** *** Categories and tags *)

(** [persist_categories]: [saves] tells whether writing the file succeeds. *)
Definition persist_categories (saves : bool) : SM (result () ControlError) :=
  do s <- sget;
  match so_state_dir (ses_options s) with
  | None => sok
  | Some _ => if saves then seff [PersistCategories (ses_categories s)] ;; sok else serr CategoryPersist
  end.

Definition ensure_category (saves : bool) (name : bytes) : SM (result () ControlError) :=
  do s <- sget;
  match name, ses_categories s !! name with
  | [], _ | _, Some _ => sok
  | _, None => smod (fun s => set_categories (<[name := category_new name None]> (ses_categories s)) s) ;; persist_categories saves
  end.

(** The category of a torrent that is added; a failure to save it is ignored. *)
Definition ensure_some (saves : bool) (category : bytes) : SM () :=
  match category with [] => sret () | _ => do _ <- ensure_category saves category; sret () end.

Definition create_category (saves : bool) (name : bytes) (save_path : option bytes) : SM (result () ControlError) :=
  do s <- sget;
  match name, ses_categories s !! name with
  | [], _ => sok
  | _, Some _ => serr (CategoryExists name)
  | _, None => smod (fun s => set_categories (<[name := category_new name save_path]> (ses_categories s)) s) ;; persist_categories saves
  end.

Definition edit_category (saves : bool) (name : bytes) (save_path : option bytes) : SM (result () ControlError) :=
  do s <- sget;
  match ses_categories s !! name with
  | None => serr (CategoryNotFound name)
  | Some cat =>
      smod (fun s => set_categories (<[name := category_new (cat_name cat) save_path]> (ses_categories s)) s) ;; persist_categories saves
  end.

Definition clear_category (name : bytes) (c : Controls) : Controls :=
  if decide (c_category c = name) then set_category_of [] c else c.

Definition remove_category (saves : bool) (name : bytes) : SM (result () ControlError) :=
  do s <- sget;
  match ses_categories s !! name with
  | None => serr (CategoryNotFound name)
  | Some _ =>
      smod (fun s => set_categories (delete name (ses_categories s)) s) ;;
      sfor (iter_t (ses_torrents s)) (fun e =>
        mod_torrent (fst e) (t_control (clear_category name)) ;;
        (if decide (c_category (t_controls (snd e)) = name) then to_disk (Flush (fst e)) else sret ())) ;;
      sfor (iter_p (ses_pending s)) (fun e => mod_pending (fst e) (p_control (clear_category name))) ;;
      persist_categories saves
  end.

Definition set_category (saves : bool) (id category : bytes) : SM (result () ControlError) :=
  do r <- (match category with [] => sok | _ => ensure_category saves category end);
  match r with
  | Err e => serr e
  | Ok _ =>
      do s <- sget;
      match ses_torrents s !! id, ses_pending s !! id with
      | None, Some _ => mod_pending id (p_control (set_category_of category)) ;; sok
      | None, None => serr (NotFound id)
      | Some _, _ => mod_torrent id (t_control (set_category_of category)) ;; to_disk (Flush id) ;; sok
      end
  end.

Definition normalize_tags (tags : list bytes) : gset bytes :=
  list_to_set (filter (fun tag => tag <> []) (map trim_str tags)).

Definition with_tags (id : bytes) (f : gset bytes -> gset bytes) : SM (result () ControlError) :=
  let g c := set_tags_of (f (c_tags c)) c in
  do s <- sget;
  match ses_torrents s !! id, ses_pending s !! id with
  | None, Some _ => mod_pending id (p_control g) ;; sok
  | None, None => serr (NotFound id)
  | Some _, _ => mod_torrent id (t_control g) ;; to_disk (Flush id) ;; sok
  end.
Definition set_tags (id : bytes) (tags : list bytes) : SM (result () ControlError) := with_tags id (fun _ => normalize_tags tags).
Definition add_tags (id : bytes) (tags : list bytes) : SM (result () ControlError) := with_tags id (fun s => s ∪ normalize_tags tags).
Definition remove_tags (id : bytes) (tags : list bytes) : SM (result () ControlError) := with_tags id (fun s => s ∖ normalize_tags tags).

(** *** Moving the files *)

(** [PathBuf::join]: an absolute path replaces the one it is joined to. *)
Definition path_join (a b : bytes) : bytes :=
  match b with
  | 47 :: _ => b
  | _ => match a with [] => b | _ => if bool_decide (last a = Some 47) then a ++ b else a ++ 47 :: b end
  end.

Definition resolve_output_dir (s : Session) (name category : bytes) : bytes :=
  let default_dir := match so_download_dir (ses_options s) with [] => name | download => path_join download name end in
  match category with
  | [] => default_dir
  | _ =>
      match ses_categories s !! category with
      | Some (mkCategory _ (Some (b :: path))) => path_join (b :: path) name
      | _ => default_dir
      end
  end.

(** [relocate_torrent] up to the move of the files. *)
Definition relocate_start (id new_output : bytes) : SM () :=
  do s <- sget;
  match ses_torrents s !! id with
  | None => sret ()
  | Some t =>
      set_torrent_state id StMoving ;;
      smod (fun s => set_tasks (ses_tasks s ++ [Relocating id (c_state (t_controls t)) new_output]) s)
  end.

(** Its rest, once the files are moved or the move has failed.  A torrent that was
    removed meanwhile is no longer part of the session. *)
Definition relocate_finish (id : bytes) (previous : TorrentState) (new_output : bytes) (moved : result () bytes) : SM (result () ControlError) :=
  match moved with
  | Ok _ =>
      do s <- sget;
      match ses_torrents s !! id with
      | None => sok
      | Some t =>
          mod_torrent id (t_control (set_output_dir new_output)) ;;
          set_torrent_state id
            (match previous with StPaused | StError _ => previous | _ => active_state (t_downloaded t) end) ;;
          to_disk (Flush id) ;; sok
      end
  | Err message =>
      set_torrent_state id (StError message) ;; emit (EvError id message) ;; serr (MoveFailed id message)
  end.

Definition set_save_path (id path : bytes) (move_files : bool) : SM (result () ControlError) :=
  do s <- sget;
  match ses_torrents s !! id, ses_pending s !! id with
  | None, Some _ => mod_pending id (p_control (fun c => set_auto_tmm false (set_output_dir path c))) ;; sok
  | None, None => serr (NotFound id)
  | Some _, _ =>
      mod_torrent id (t_control (set_auto_tmm false)) ;;
      (if negb move_files then mod_torrent id (t_control (set_output_dir path)) ;; to_disk (Flush id) ;; sok
       else relocate_start id path ;; sok)
  end.

Definition completed_output (s : Session) (t : TorrentSession) : bytes :=
  let dest := match c_category (t_controls t) with
              | [] => so_completed_dir (ses_options s)
              | category => path_join (so_completed_dir (ses_options s)) category
              end in
  path_join dest (t_name (t_torrent t)).

Definition maybe_move_on_complete (id : bytes) : SM () :=
  do s <- sget;
  match ses_torrents s !! id with
  | None => sret ()
  | Some t =>
      if negb (c_auto_tmm (t_controls t)) then sret ()
      else match so_completed_dir (ses_options s) with
      | [] => sret ()
      | _ =>
          if decide (c_output_dir (t_controls t) = completed_output s t) then sret ()
          else relocate_start id (completed_output s t)
      end
  end.

(** *** Rechecking *)

Definition recheck_start (id : bytes) : SM (result () ControlError) :=
  do s <- sget;
  match ses_torrents s !! id, ses_pending s !! id with
  | None, Some _ => serr (NoMetadata id)
  | None, None => serr (NotFound id)
  | Some t, _ =>
      set_torrent_state id StChecking ;;
      mod_torrent id (fun t => set_t_downloaded (clear_all_downloaded (t_downloaded t)) t) ;;
      smod (fun s => set_tasks (ses_tasks s ++ [Rechecking id (bool_decide (c_state (t_controls t) = StPaused))]) s) ;; sok
  end.

(** The end of [recheck], with the pieces whose data matches their hash; a move it
    starts goes on as a task of its own. *)
Definition recheck_finish (id : bytes) (stay_paused : bool) (verified : list u32) : SM () :=
  mod_torrent id (fun t => set_t_downloaded (fold_left mark_downloaded verified (t_downloaded t)) t) ;;
  do s <- sget;
  match ses_torrents s !! id with
  | None => sret ()
  | Some t =>
      let complete := is_complete (t_downloaded t) in
      (if complete then mod_torrent id (fun t => snd (note_completed t)) else sret ()) ;;
      set_torrent_state id (if stay_paused then StPaused else active_state (t_downloaded t)) ;;
      (if complete then maybe_move_on_complete id else sret ()) ;;
      to_disk (Flush id)
  end.

Definition drop_task (k : nat) : SM () := smod (fun s => set_tasks (take k (ses_tasks s) ++ drop (S k) (ses_tasks s)) s).

(** A waiting task goes on: the outcome of the move, or the verified pieces. *)
Definition finish_task (k : nat) (moved : result () bytes) (verified : list u32) : SM () :=
  do s <- sget;
  match ses_tasks s !! k with
  | Some (Relocating id previous new_output) =>
      drop_task k ;; do _ <- relocate_finish id previous new_output moved; sret ()
  | Some (Rechecking id stay_paused) => drop_task k ;; recheck_finish id stay_paused verified
  | _ => sret ()
  end.

(** *** The tick *)

Definition shows_progress (state : TorrentState) : bool :=
  match state with StDownloading | StSeeding | StMetadata | StChecking => true | _ => false end.

Definition sample_torrent (t : TorrentSession) : TorrentSession :=
  t_control (fun c => set_c_rates (sample_tick (downloaded_bytes (t_downloaded t)) (c_uploaded c) (as_secs_f64 RATE_TICK) (c_rates c)) (c_slow_since c) c) t.
(** A pending torrent has no pieces, so nothing is downloaded. *)
Definition sample_pending (p : PendingTorrent) : PendingTorrent :=
  p_control (fun c => set_c_rates (sample_tick 0 (c_uploaded c) (as_secs_f64 RATE_TICK) (c_rates c)) (c_slow_since c) c) p.

(** The completion that the tick notices: the state changes without the calls of
    [set_torrent_state]. *)
Definition complete_quietly (t : TorrentSession) : TorrentSession :=
  let t := snd (note_completed t) in
  if decide (c_state (t_controls t) = StDownloading) then t_control (set_c_state StSeeding) t else t.

Definition tick_torrent (id : bytes) : SM () :=
  mod_torrent id sample_torrent ;;
  do s <- sget;
  match ses_torrents s !! id with
  | None => sret ()
  | Some t =>
      (if is_complete (t_downloaded t) && fst (note_completed t) then
         mod_torrent id complete_quietly ;; emit (EvCompleted id) ;;
         (if decide (c_state (t_controls t) = StDownloading) then emit (EvStateChanged id StSeeding) else sret ())
       else sret ()) ;;
      do s <- sget;
      match ses_torrents s !! id with
      | Some t => if shows_progress (c_state (t_controls t)) then emit (EvProgress id) else sret ()
      | None => sret ()
      end
  end.

Definition tick_pending (id : bytes) : SM () :=
  mod_pending id sample_pending ;;
  do s <- sget;
  match ses_pending s !! id with
  | Some p => match c_state (p_controls p) with StMetadata | StChecking => emit (EvProgress id) | _ => sret () end
  | None => sret ()
  end.

(** The pending torrents that are not among the torrents. *)
Definition pending_only (s : Session) : list bytes :=
  map fst (filter (fun e => ses_torrents s !! fst e = None) (iter_p (ses_pending s))).

Definition tick_session : SM () :=
  do s <- sget;
  sfor (map fst (iter_t (ses_torrents s))) tick_torrent ;; sfor (pending_only s) tick_pending.

Definition update_slow_since (c : Controls) : Controls :=
  let slow := f64_ltb (total_rate (c_rates c)) (f64_of SLOW_RATE_BPS) in
  set_c_rates (c_rates c) (if slow then Some (default now (c_slow_since c)) else None) c.

Definition over_limit (s : Session) (id : bytes) : bool :=
  match ses_torrents s !! id with
  | Some t =>
      match c_state (t_controls t) with StSeeding | StDownloading => seed_limit_reached (ses_options s) t | _ => false end
  | None => false
  end.

Definition tick : SM () :=
  tick_session ;;
  do s <- sget;
  sfor (map fst (iter_t (ses_torrents s))) (fun id => mod_torrent id (t_control update_slow_since)) ;;
  sfor (pending_only s) (fun id => mod_pending id (p_control update_slow_since)) ;;
  do s <- sget;
  sfor (filter (fun id => over_limit s id = true) (map fst (iter_t (ses_torrents s)))) (fun id => do _ <- pause id; sret ()) ;;
  evaluate_queue.

(** *** Removal *)

Definition orphan_task (id : bytes) (p : PendingTorrent) (task : Task) : Task :=
  match task with
  | Fetching id' None => if decide (id' = id) then Fetching id' (Some p) else task
  | Opening a None => if ad_promoted a && bool_decide (t_info_hash (ad_torrent a) = id) then Opening a (Some p) else task
  | Listening pr None =>
      if ad_promoted (pr_addition pr) && bool_decide (t_info_hash (ad_torrent (pr_addition pr)) = id) then Listening pr (Some p) else task
  | _ => task
  end.

(** [self.pending.remove(id)]: a task may still hold the torrent. *)
Definition forget_pending (id : bytes) : SM () :=
  smod (fun s =>
    match ses_pending s !! id with
    | Some p => set_pending (delete id (ses_pending s)) (set_tasks (map (orphan_task id p) (ses_tasks s)) s)
    | None => s
    end).

Definition remove_torrent (id : bytes) (delete_files : bool) : SM (result () ControlError) :=
  do s <- sget;
  smod (fun s => set_torrents (delete id (ses_torrents s)) s) ;; forget_pending id ;;
  match ses_torrents s !! id, ses_pending s !! id with
  | None, None => serr (NotFound id)
  | Some t, _ =>
      to_dht (DhtRemove id) ;;
      seff (disconnect_all_peers id (c_peers (t_controls t))) ;; to_disk (DeleteResume id) ;;
      (if delete_files then seff [DeleteFiles id (c_output_dir (t_controls t))] else sret ()) ;;
      emit (EvRemoved id) ;; evaluate_queue ;; sok
  | None, Some p =>
      to_dht (DhtRemove id) ;;
      seff (disconnect_all_peers id (c_peers (p_controls p))) ;;
      (if delete_files then seff [DeleteFiles id (c_output_dir (p_controls p))] else sret ()) ;;
      emit (EvRemoved id) ;; evaluate_queue ;; sok
  end.

(** *** Adding torrents *)

Definition fresh_controls (state : TorrentState) (output_dir category : bytes) (tags : gset bytes) (auto_tmm : bool) (position : u64)
    (opts : AddTorrentOptions) : Controls :=
  mkControls state (transfer_of state) peer_states_new 0 output_dir now_unix category tags auto_tmm sample_default position
    (ao_force_start opts) (limiter_new now (ao_download_limit opts) DEFAULT_BURST) (limiter_new now (ao_upload_limit opts) DEFAULT_BURST)
    (ao_ratio_limit opts) (ao_seeding_time_limit opts) None.

Definition add_task (task : Task) : SM () := smod (fun s => set_tasks (ses_tasks s ++ [task]) s).

(** The end of [register_pending], once the storage is open: a torrent that was
    registered in the meantime is replaced. *)
Definition register_pending (id name : bytes) (trackers webseeds : list bytes) (output_dir : bytes) (opts : AddTorrentOptions) : SM PendingTorrent :=
  let start_paused := default false (ao_paused opts) in
  do position <- alloc_queue_position;
  let p := mkPendingTorrent
    (fresh_controls (if start_paused then StPaused else StMetadata) output_dir (ao_category opts) (normalize_tags (ao_tags opts))
       (default (match ao_output_dir opts with None => true | Some _ => false end) (ao_auto_tmm opts)) position opts)
    name start_paused (ao_verify opts) (ao_skip_checking opts) (ao_sequential opts) (ao_file_priorities opts) trackers webseeds in
  forget_pending id ;;
  smod (fun s => set_pending (<[id := p]> (ses_pending s)) s) ;; sret p.

(** [if *global != Paused { *global = Downloading }]. *)
Definition wake_global : SM () :=
  smod (fun s => if decide (ses_transfer s = TsPaused) then s else set_transfer TsDownloading s).

Definition already_known (s : Session) (id : bytes) : bool :=
  bool_decide (is_Some (ses_torrents s !! id)) || bool_decide (is_Some (ses_pending s !! id)).

(** [add_torrent_by_info_hash] and [add_magnet] up to the opening of the storage. *)
Definition add_info_hash_start (id name temp_dir : bytes) (output_dir : option bytes) : SM () :=
  do s <- sget;
  if already_known s id then sret ()
  else add_task (Registering id name [] [] (default temp_dir output_dir)
         (mkAdd output_dir false false None [] [] false false [] None false None None 0 0) false).

(** The category and the directory of a magnet link. *)
Definition magnet_begin (saves : bool) (name : bytes) (opts : AddTorrentOptions) : SM bytes :=
  ensure_some saves (ao_category opts) ;;
  do s <- sget;
  sret (default (resolve_output_dir s name (ao_category opts)) (ao_output_dir opts)).

Definition add_magnet_start (saves : bool) (id name : bytes) (trackers webseeds : list bytes) (opts : AddTorrentOptions) : SM () :=
  do s <- sget;
  if already_known s id then sret ()
  else
    do output_dir <- magnet_begin saves name opts;
    add_task (Registering id name trackers webseeds output_dir opts true).

(** The rest: a magnet link starts the task that waits for its metadata; the peers that
    it names are dialled apart. *)
Definition register_finish (id name : bytes) (trackers webseeds : list bytes) (output_dir : bytes) (opts : AddTorrentOptions) (fetch : bool) : SM () :=
  do p <- register_pending id name trackers webseeds output_dir opts;
  if negb fetch then sret ()
  else
    wake_global ;;
    to_dht (DhtAdd id (transfer_enabled (c_state (p_controls p)))) ;;
    emit (EvAdded id) ;; emit (EvStateChanged id (c_state (p_controls p))) ;;
    add_task (Fetching id None).

Definition registered (k : nat) : SM () :=
  do s <- sget;
  match ses_tasks s !! k with
  | Some (Registering id name trackers webseeds output_dir opts fetch) =>
      drop_task k ;; register_finish id name trackers webseeds output_dir opts fetch
  | _ => sret ()
  end.

(** [add_magnet] when nothing else happens before it has returned. *)
Definition add_magnet (saves : bool) (id name : bytes) (trackers webseeds : list bytes) (opts : AddTorrentOptions) : SM () :=
  do s <- sget;
  if already_known s id then sret ()
  else
    do output_dir <- magnet_begin saves name opts;
    register_finish id name trackers webseeds output_dir opts true.

(** The end of [add_torrent_meta]: the torrent joins the session. *)
Definition install_torrent (dht_allowed : bool) (t : TorrentSession) (initial : TorrentState) (promoted start_paused : bool) : SM () :=
  let id := t_info_hash (t_torrent t) in
  let complete := is_complete (t_downloaded t) in
  (if dht_allowed then to_dht (DhtAdd id (transfer_enabled initial)) else sret ()) ;;
  smod (fun s => set_torrents (<[id := t]> (ses_torrents s)) s) ;;
  (if promoted then (if t_private (t_torrent t) then to_dht (DhtRemove id) else sret ()) ;; forget_pending id else sret ()) ;;
  to_disk (Flush id) ;;
  (if transfer_enabled initial then wake_global else sret ()) ;;
  emit (EvAdded id) ;; emit (EvStateChanged id initial) ;;
  (if start_paused then sret () else evaluate_queue) ;;
  (if complete then seff [SpawnMoveOnComplete id] else sret ()).

(** [add_torrent_meta] up to the opening of the files; [old] are the controls of the
    pending torrent that is promoted. *)
Definition add_meta_begin (saves : bool) (torrent : Torrent) (cache_path : bytes) (resumed : option Resumed) (opts : AddTorrentOptions)
    (old : option Controls) : SM Addition :=
  let category := match ao_category opts with [] => default [] (option_map c_category old) | category => category end in
  ensure_some saves category ;;
  do s <- sget;
  let tags := match ao_tags opts with [] => default ∅ (option_map c_tags old) | tags => normalize_tags tags end in
  let output_dir :=
    match ao_output_dir opts, old with
    | Some dir, _ => dir
    | None, Some c => c_output_dir c
    | None, None => resolve_output_dir s (t_name torrent) category
    end in
  let auto_tmm := default (match old with Some c => c_auto_tmm c | None => match ao_output_dir opts with None => true | Some _ => false end end) (ao_auto_tmm opts) in
  sret (mkAddition torrent cache_path resumed opts category tags output_dir auto_tmm (match old with Some _ => true | None => false end)).

(** Once the files are open and the pieces on disk are known, in the state [d], up to
    the wait for the listening port. *)
Definition add_meta_opened (a : Addition) (d : DownloadState) (old : option PendingTorrent) : SM Prepared :=
  let opts := ad_opts a in
  let resumed := ad_resumed a in
  let completed_at := match resumed with Some r => rs_completed_at r | None => None end in
  let completed_at := match completed_at with None => if is_complete d then Some now_unix else None | at_ => at_ end in
  let start_paused :=
    match ao_paused opts with
    | Some paused => paused
    | None => match old with Some p => p_start_paused p | None => false end || match resumed with Some r => rs_paused r | None => false end
    end in
  let old := option_map p_controls old in
  do s <- sget;
  let initial := if start_paused then StPaused else if ses_restoring s then StQueued else active_state d in
  do position <- (match old with Some c => sret (c_queue_position c) | None => alloc_queue_position end);
  let fresh := fresh_controls initial (ad_output_dir a) (ad_category a) (ad_tags a) (ad_auto_tmm a) position opts in
  let controls :=
    mkControls initial (transfer_of initial) (c_peers fresh)
      (match resumed with Some r => rs_uploaded r | None => 0 end)
      (ad_output_dir a)
      (match resumed with Some r => rs_added_at r | None => now_unix end)
      (ad_category a) (ad_tags a) (ad_auto_tmm a) sample_default position
      (ao_force_start opts || match old with Some c => c_force_start c | None => false end)
      (set_rate (ao_download_limit opts) (c_download_limiter fresh))
      (set_rate (ao_upload_limit opts) (c_upload_limiter fresh))
      (match ao_ratio_limit opts, old with Some r, _ => Some r | None, Some c => c_ratio_limit c | None, None => None end)
      (match ao_seeding_time_limit opts, old with Some m, _ => Some m | None, Some c => c_seeding_time_limit c | None, None => None end)
      None in
  sret (mkPrepared a controls completed_at start_paused).

(** The state that the torrent starts in, which the pending torrent takes too: they
    share it, and with it what the connections use. *)
Definition pr_initial (p : Prepared) : TorrentState := c_state (pr_controls p).
Definition start_controls (initial : TorrentState) (c : Controls) : Controls := sync_download_state initial (set_c_state initial c).

Definition share_controls (old c : Controls) : Controls :=
  mkControls (c_state old) (c_transfer old) (c_peers old) (c_uploaded old) (c_output_dir c) (c_added_at c) (c_category c) (c_tags c) (c_auto_tmm c)
    (c_rates old) (c_queue_position c) (c_force_start c) (c_download_limiter old) (c_upload_limiter old) (c_ratio_limit c)
    (c_seeding_time_limit c) (c_slow_since c).

(** The rest, with the state [d] of the pieces by then. *)
Definition add_meta_install (dht_allowed : bool) (p : Prepared) (d : DownloadState) (old : option Controls) : SM () :=
  let a := pr_addition p in
  let controls := match old with Some c => share_controls c (pr_controls p) | None => pr_controls p end in
  install_torrent dht_allowed (mkSession controls d (ad_torrent a) (pr_completed_at p) (ad_cache_path a)) (pr_initial p) (ad_promoted a) (pr_start_paused p).

(** [add_torrent_meta] when nothing else happens before it has returned. *)
Definition add_torrent_meta (saves dht_allowed : bool) (torrent : Torrent) (d : DownloadState) (cache_path : bytes) (resumed : option Resumed)
    (opts : AddTorrentOptions) : SM () :=
  do s <- sget;
  if already_known s (t_info_hash torrent) then sret ()
  else
    do a <- add_meta_begin saves torrent cache_path resumed opts None;
    do p <- add_meta_opened a d None;
    add_meta_install dht_allowed p d None.

(** Its steps, each when the session gets to it. *)
Definition add_meta_start (saves : bool) (torrent : Torrent) (cache_path : bytes) (resumed : option Resumed) (opts : AddTorrentOptions) : SM () :=
  do s <- sget;
  if already_known s (t_info_hash torrent) then sret ()
  else do a <- add_meta_begin saves torrent cache_path resumed opts None; add_task (Opening a None).

(** The pending torrent that a task holds. *)
Definition held_pending (s : Session) (id : bytes) (removed : option PendingTorrent) : option PendingTorrent :=
  match removed with Some p => Some p | None => ses_pending s !! id end.

Definition meta_opened (k : nat) (d : DownloadState) : SM () :=
  do s <- sget;
  match ses_tasks s !! k with
  | Some (Opening a removed) =>
      let id := t_info_hash (ad_torrent a) in
      drop_task k ;;
      if ad_promoted a then
        match held_pending s id removed with
        | None => sret ()
        | Some old =>
            do p <- add_meta_opened a d (Some old);
            match removed with
            | Some q => add_task (Listening p (Some (p_control (start_controls (pr_initial p)) q)))
            | None => mod_pending id (p_control (start_controls (pr_initial p))) ;; add_task (Listening p None)
            end
        end
      else do p <- add_meta_opened a d None; add_task (Listening p None)
  | _ => sret ()
  end.

Definition meta_installed (k : nat) (dht_allowed : bool) (d : DownloadState) : SM () :=
  do s <- sget;
  match ses_tasks s !! k with
  | Some (Listening p removed) =>
      let a := pr_addition p in
      drop_task k ;;
      if ad_promoted a then
        match held_pending s (t_info_hash (ad_torrent a)) removed with
        | None => sret ()
        | Some old => add_meta_install dht_allowed p d (Some (p_controls old))
        end
      else add_meta_install dht_allowed p d None
  | _ => sret ()
  end.

(** The task of [add_magnet], once the metadata has arrived: what it passes on, the
    promotion, and its failure. *)
Definition promote_options (p : PendingTorrent) : AddTorrentOptions :=
  let c := p_controls p in
  mkAdd (Some (c_output_dir c)) false (p_verify p) (Some (p_start_paused p)) (c_category c) (elements (c_tags c)) (p_sequential p)
    (p_skip_checking p) (p_file_priorities p) (Some (c_auto_tmm c)) (c_force_start c) (c_ratio_limit c) (c_seeding_time_limit c) 0 0.

Definition promote (k : nat) (saves : bool) (torrent : Torrent) (cache_path : bytes) (resumed : option Resumed) : SM () :=
  do s <- sget;
  match ses_tasks s !! k with
  | Some (Fetching id removed) =>
      if decide (id = t_info_hash torrent) then
        drop_task k ;;
        match held_pending s id removed with
        | Some p =>
            do a <- add_meta_begin saves torrent cache_path resumed (promote_options p) (Some (p_controls p));
            add_task (Opening a removed)
        | None => sret ()
        end
      else sret ()
  | _ => sret ()
  end.

(** The metadata cannot be used, or the files cannot be opened. *)
Definition promote_failed (id message : bytes) (removed : option PendingTorrent) : SM () :=
  (match removed with None => mod_pending id (p_control (set_c_state (StError message))) | Some _ => sret () end) ;;
  emit (EvError id message).

Definition adding_failed (k : nat) (message : bytes) : SM () :=
  do s <- sget;
  match ses_tasks s !! k with
  | Some (Fetching id removed) => drop_task k ;; promote_failed id message removed
  | Some (Opening a removed) =>
      drop_task k ;; if ad_promoted a then promote_failed (t_info_hash (ad_torrent a)) message removed else sret ()
  | Some (Registering _ _ _ _ _ _ _) => drop_task k
  | _ => sret ()
  end.

(** *** The writer task: a piece has been written *)

Definition on_piece_written (id : bytes) : SM () :=
  do s <- sget;
  match ses_torrents s !! id with
  | None => sret ()
  | Some t =>
      (if is_complete (t_downloaded t) && fst (note_completed t) then
         mod_torrent id (fun t => snd (note_completed t)) ;; emit (EvCompleted id) ;;
         (if decide (c_state (t_controls t) = StDownloading) then set_torrent_state id StSeeding else sret ()) ;;
         evaluate_queue ;; maybe_move_on_complete id
       else sret ()) ;;
      to_disk (Flush id)
  end.

(** [connect_peer]: a queued torrent dials nobody. *)
Definition may_connect (s : Session) (id : bytes) : bool :=
  match ses_torrents s !! id, ses_pending s !! id with
  | Some t, _ => negb (bool_decide (c_state (t_controls t) = StQueued))
  | None, Some p => negb (bool_decide (c_state (p_controls p) = StQueued))
  | None, None => false
  end.
End Session.
