(* ===== verification/SessionQueue.v ===== *)
(** * The queue of active torrents (crates/bit_rev/src/session.rs)

    What [evaluate_queue] decides: which torrents may run within the limits on
    active downloads and uploads.  It is the greedy choice in queue order, it
    respects the limits, it leaves paused torrents alone and evaluating again
    changes nothing.  Moving a torrent in the queue gives exactly the order asked
    for. *)

From S2P Require Import Prelude Text Float Rate Metainfo Layout Bitfield Message PeerStates Picker Priority Download Choke.
From S2P Require Import ExtHandshake Peers Metadata Pex Registry Pipeline AllowedFast PeerHandler PeerTasks PeerSwarm Session.

#[local] Open Scope session_scope.

(** ** Running operations *)

(** The session an operation leaves, and what it emits. *)
Definition after {A} (m : SM A) (s : Session) : Session := snd (m s).
Definition effects {A} (m : SM A) (s : Session) : list Effect := snd (fst (m s)).

Lemma after_bind {A B} (m : SM A) (k : A -> SM B) s : after (sbind m k) s = after (k (fst (fst (m s)))) (after m s).
Proof. unfold after, sbind. destruct (m s) as [[a e] s1]. cbn. by destruct (k a s1) as [[b e'] s2]. Qed.
Lemma effects_bind {A B} (m : SM A) (k : A -> SM B) s :
  effects (sbind m k) s = effects m s ++ effects (k (fst (fst (m s)))) (after m s).
Proof. unfold effects, after, sbind. destruct (m s) as [[a e] s1]. cbn. by destruct (k a s1) as [[b e'] s2]. Qed.

Lemma value_bind {A B} (m : SM A) (k : A -> SM B) s : fst (fst (sbind m k s)) = fst (fst (k (fst (fst (m s))) (after m s))).
Proof. unfold after, sbind. destruct (m s) as [[a e] s1]. cbn. by destruct (k a s1) as [[b e'] s2]. Qed.

Lemma after_for {A} (g : Session -> A -> Session) (l : list A) (f : A -> SM ()) s :
  (forall x s, after (f x) s = g s x) -> after (sfor l f) s = fold_left g l s.
Proof. intros H. revert s. induction l as [|x l IH]; intros s; [done|]. cbn [sfor fold_left]. by rewrite after_bind, H. Qed.

(** ** The order *)

#[export] Instance queue_le_trans : Transitive queue_le.
Proof. intros a b c. apply cmp_list_le_trans. Qed.
#[export] Instance queue_le_total : Total queue_le.
Proof. intros a b. unfold queue_le. rewrite (cmp_list_antisym (queue_key a)). destruct (cmp_list _ _); cbn; auto. Qed.
#[export] Instance queue_le_antisymm : AntiSymm (=) queue_le.
Proof.
  intros [p a] [q b]. unfold queue_le. rewrite (cmp_list_antisym (queue_key (p, a))).
  destruct (cmp_list (queue_key (p, a)) (queue_key (q, b))) eqn:E; cbn; try done.
  intros _ _. apply cmp_list_Eq in E. unfold queue_key in E. cbn in E. congruence.
Qed.

Definition controls_of (s : Session) (id : bytes) : option Controls :=
  match ses_torrents s !! id with Some t => Some (t_controls t) | None => p_controls <$> ses_pending s !! id end.

Section Queue.
Context (iter_t : gmap bytes TorrentSession -> list (bytes * TorrentSession)) `{!HashOrder iter_t}.
Context (iter_p : gmap bytes PendingTorrent -> list (bytes * PendingTorrent)) `{!HashOrder iter_p}.
Context (iter_peers : gmap SocketAddr PeerState -> list (SocketAddr * PeerState)).
Context (now : Instant) (now_unix : i64).

Abbreviation queue_items := (queue_items iter_t iter_p).
Abbreviation queue_order := (queue_order iter_t iter_p).
Abbreviation evaluate_queue := (evaluate_queue iter_t iter_p iter_peers now now_unix).
Abbreviation decide_one := (decide_one now now_unix).
Abbreviation assignments := (assignments now now_unix).

Lemma elem_of_items s pos id : (pos, id) ∈ queue_items s <-> exists c, controls_of s id = Some c /\ c_queue_position c = pos.
Proof.
  unfold Session.queue_items, controls_of. rewrite elem_of_app, !list_elem_of_fmap. setoid_rewrite list_elem_of_filter.
  setoid_rewrite (iter_perm (ses_torrents s)). setoid_rewrite (iter_perm (ses_pending s)).
  split.
  - intros [([i t] & [= -> ->] & Ht)|([i p] & [= -> ->] & Hn & Hp)]; cbn in *; rewrite elem_of_map_to_list in *.
    + rewrite Ht. eauto.
    + rewrite Hn, Hp. cbn. eauto.
  - intros (c & Hc & <-). destruct (ses_torrents s !! id) as [t|] eqn:Et.
    + left. exists (id, t). injection Hc as <-. cbn. split; [done|]. by apply elem_of_map_to_list.
    + right. destruct (ses_pending s !! id) as [p|] eqn:Ep; [|done]. injection Hc as <-. exists (id, p). cbn.
      split; [done|]. split; [done|]. by apply elem_of_map_to_list.
Qed.

Lemma items_ids s : NoDup (map snd (queue_items s)).
Proof.
  unfold Session.queue_items. rewrite map_app, !map_map. cbn [snd].
  rewrite (iter_perm (ses_torrents s)), (iter_perm (ses_pending s)).
  apply NoDup_app. split; [apply NoDup_fst_map_to_list|]. split.
  - intros id (e & -> & Ha)%list_elem_of_fmap (e' & Heq & Hb)%list_elem_of_fmap.
    rewrite (surjective_pairing e), elem_of_map_to_list in Ha. apply list_elem_of_filter in Hb as [Hb _]. congruence.
  - eapply sublist_NoDup; [apply (NoDup_fst_map_to_list (ses_pending s))|]. apply (fmap_sublist fst), sublist_filter.
Qed.

Lemma order_perm s : queue_order s ≡ₚ map snd (queue_items s).
Proof. unfold Session.queue_order. by rewrite merge_sort_Permutation. Qed.
Lemma order_NoDup s : NoDup (queue_order s).
Proof. rewrite order_perm. apply items_ids. Qed.
Lemma elem_of_order s id : id ∈ queue_order s <-> is_Some (controls_of s id).
Proof.
  rewrite order_perm, list_elem_of_fmap. split.
  - intros ([pos i] & -> & (c & Hc & _)%elem_of_items). cbn. eauto.
  - intros [c Hc]. exists (c_queue_position c, id). split; [done|]. apply elem_of_items. eauto.
Qed.

(** The order depends on the positions only. *)
Lemma order_ext s s' :
  (forall id, c_queue_position <$> controls_of s id = c_queue_position <$> controls_of s' id) -> queue_order s = queue_order s'.
Proof.
  intros H. unfold Session.queue_order. f_equal.
  apply (StronglySorted_unique queue_le); [apply StronglySorted_merge_sort; apply _..|].
  rewrite !merge_sort_Permutation. apply NoDup_Permutation; [by eapply NoDup_fmap_1, items_ids..|].
  intros [pos id]. rewrite !elem_of_items. specialize (H id).
  destruct (controls_of s id), (controls_of s' id); cbn in H; naive_solver congruence.
Qed.

(** ** The decisions applied *)

Definition assign (s : Session) (a : bytes * TorrentState) : Session :=
  match ses_torrents s !! fst a with
  | Some _ => set_torrents (alter (t_control (set_state_controls (snd a))) (fst a) (ses_torrents s)) s
  | None => set_pending (alter (p_control (set_state_controls (snd a))) (fst a) (ses_pending s)) s
  end.

Lemma after_dht_sync id s : after (dht_sync id) s = s.
Proof. unfold after, dht_sync, sbind, sget, to_dht, sret. cbn. by destruct (ses_torrents s !! id), (ses_pending s !! id). Qed.

Lemma after_set_state id state s :
  after (set_torrent_state iter_peers id state) s =
  set_torrents (alter (t_control (set_state_controls state)) id (ses_torrents s)) s.
Proof.
  unfold set_torrent_state. rewrite after_bind. cbn. destruct (ses_torrents s !! id) as [t|] eqn:Et; [done|].
  unfold after, sret. cbn. rewrite alter_id; [by destruct s|]. intros x Hx. congruence.
Qed.
Lemma after_set_pending_state id state s :
  after (set_pending_state iter_peers id state) s =
  set_pending (alter (p_control (set_state_controls state)) id (ses_pending s)) s.
Proof.
  unfold set_pending_state. rewrite after_bind. cbn. destruct (ses_pending s !! id) as [t|] eqn:Et; [done|].
  unfold after, sret. cbn. rewrite alter_id; [by destruct s|]. intros x Hx. congruence.
Qed.

Lemma after_assignment a s : after (apply_assignment iter_peers a) s = assign s a.
Proof.
  destruct a as [id state]. unfold apply_assignment, assign. rewrite after_bind. cbn [fst snd].
  change (after sget s) with s. change (fst (fst (sget s))) with s.
  destruct (ses_torrents s !! id); rewrite after_bind, after_dht_sync; [apply after_set_state|apply after_set_pending_state].
Qed.

(** What a list of decisions does to the controls of a torrent. *)
Definition change (l : list (bytes * TorrentState)) (id : bytes) : Controls -> Controls :=
  match (list_to_map l : gmap bytes TorrentState) !! id with Some state => set_state_controls state | None => fun c => c end.

Lemma t_control_id t : t_control (fun c => c) t = t.
Proof. by destruct t. Qed.
Lemma p_control_id p : p_control (fun c => c) p = p.
Proof. by destruct p. Qed.

Lemma change_nil id : change [] id = fun c => c.
Proof. done. Qed.
Lemma change_eq id state l : change ((id, state) :: l) id = set_state_controls state.
Proof. unfold change. cbn. by rewrite lookup_insert_eq. Qed.
Lemma change_ne i state l id : i <> id -> change ((i, state) :: l) id = change l id.
Proof. intros. unfold change. cbn. by rewrite lookup_insert_ne. Qed.
Lemma change_not_elem l id : id ∉ map fst l -> change l id = fun c => c.
Proof. intros H. unfold change. by rewrite not_elem_of_list_to_map_1. Qed.

Record assigned (l : list (bytes * TorrentState)) (s s' : Session) : Prop := {
  as_torrents : forall id, ses_torrents s' !! id = t_control (change l id) <$> ses_torrents s !! id;
  as_pending : forall id, ses_pending s' !! id =
    match ses_torrents s !! id with Some _ => ses_pending s !! id | None => p_control (change l id) <$> ses_pending s !! id end;
  as_rest : s' = set_torrents (ses_torrents s') (set_pending (ses_pending s') s) }.

Lemma assign_all l s : NoDup (map fst l) -> assigned l s (fold_left assign l s).
Proof.
  revert s. induction l as [|[i state] l IH]; intros s Hl.
  { split; [intros id; rewrite change_nil; destruct (_ !! id) as [t|]; cbn; by rewrite ?t_control_id| |by destruct s].
    intros id. rewrite change_nil. cbn. destruct (ses_torrents s !! id); [done|]. destruct (_ !! id); cbn; by rewrite ?p_control_id. }
  cbn [map fst] in Hl. apply NoDup_cons in Hl as [Hi Hl]. cbn [fold_left].
  destruct (IH (assign s (i, state)) Hl) as [Ht Hp Hr].
  assert (Hdom : forall id, is_Some (ses_torrents (assign s (i, state)) !! id) <-> is_Some (ses_torrents s !! id)).
  { intros id. unfold assign. cbn. destruct (ses_torrents s !! i) eqn:Ei; cbn; [|done].
    destruct (decide (i = id)) as [<-|Hne]; [by rewrite lookup_alter_eq, Ei|by rewrite lookup_alter_ne]. }
  split.
  - intros id. rewrite Ht. unfold assign. cbn. destruct (decide (i = id)) as [<-|Hne].
    + rewrite change_eq, change_not_elem by done. destruct (ses_torrents s !! i) eqn:Ei; cbn; [rewrite lookup_alter_eq|]; rewrite Ei; cbn; by rewrite ?t_control_id.
    + rewrite change_ne by done. destruct (ses_torrents s !! i) eqn:Ei; cbn; [by rewrite lookup_alter_ne|done].
  - intros id. rewrite Hp. specialize (Hdom id). revert Hdom. unfold assign. cbn.
    destruct (ses_torrents s !! i) as [t|] eqn:Ei; cbn.
    + destruct (decide (i = id)) as [<-|Hne]; [by rewrite lookup_alter_eq, Ei|]. rewrite lookup_alter_ne, change_ne by done. done.
    + intros _. destruct (decide (i = id)) as [<-|Hne].
      * rewrite Ei, lookup_alter_eq, change_eq, change_not_elem by done. destruct (ses_pending s !! i); done.
      * by rewrite lookup_alter_ne, change_ne.
  - clear Ht Hp Hdom IH. revert Hr. generalize (fold_left assign l (assign s (i, state))). intros s'' Hr. rewrite Hr at 1.
    unfold assign. cbn [fst snd]. by destruct (ses_torrents s !! i).
Qed.

Lemma assigned_controls l s s' id : assigned l s s' -> controls_of s' id = change l id <$> controls_of s id.
Proof.
  intros [Ht Hp _]. unfold controls_of. rewrite Ht, Hp. destruct (ses_torrents s !! id); [done|]. cbn. by destruct (_ !! id).
Qed.

(** ** The decisions of the loop *)

Fixpoint load (s : Session) (order : list bytes) (dl ul : nat) : nat * nat :=
  match order with
  | [] => (dl, ul)
  | id :: order => let '(dl, ul) := snd (decide_one s id dl ul) in load s order dl ul
  end.

Lemma load_app s a b dl ul : load s (a ++ b) dl ul = load s b (fst (load s a dl ul)) (snd (load s a dl ul)).
Proof. revert dl ul. induction a as [|i a IH]; intros dl ul; [done|]. cbn. destruct (snd (decide_one s i dl ul)) as [dl' ul']. apply IH. Qed.

Lemma assignments_ids s order dl ul : map fst (assignments s order dl ul) `sublist_of` order.
Proof.
  revert dl ul. induction order as [|i order IH]; intros dl ul; [done|]. cbn.
  destruct (decide_one s i dl ul) as [[state|] [dl' ul']]; cbn; [by apply sublist_skip|by apply sublist_cons].
Qed.

Lemma assignments_lookup s pre id post dl ul :
  NoDup (pre ++ id :: post) ->
  (list_to_map (assignments s (pre ++ id :: post) dl ul) : gmap bytes TorrentState) !! id =
  fst (decide_one s id (fst (load s pre dl ul)) (snd (load s pre dl ul))).
Proof.
  revert dl ul. induction pre as [|i pre IH]; intros dl ul Hn; cbn.
  - cbn in Hn. apply NoDup_cons in Hn as [Hi _]. destruct (decide_one s id dl ul) as [[state|] [dl' ul']]; cbn; [by rewrite lookup_insert_eq|].
    apply not_elem_of_list_to_map_1. intros Hin. apply Hi. eapply elem_of_sublist; [exact Hin|apply assignments_ids].
  - cbn in Hn. apply NoDup_cons in Hn as [Hi Hn]. assert (i <> id) by (intros ->; apply Hi, elem_of_app; right; left).
    destruct (decide_one s i dl ul) as [[state|] [dl' ul']]; cbn; [rewrite lookup_insert_ne by done|]; by apply IH.
Qed.

(** ** Counting what runs *)

Definition downloads (state : TorrentState) : bool := match state with StDownloading | StMetadata => true | _ => false end.
Definition uploads (state : TorrentState) : bool := match state with StSeeding => true | _ => false end.

(** The torrents of a kind among [ids] that use up a place: slow ones may not. *)
Definition uses_slot (kind : TorrentState -> bool) (s : Session) (id : bytes) : bool :=
  match controls_of s id with Some c => kind (c_state c) && negb (is_slow now (ses_options s) c) | None => false end.
Definition counted (kind : TorrentState -> bool) (s : Session) (ids : list bytes) : nat :=
  length (filter (fun id => uses_slot kind s id = true) ids).

Lemma counted_snoc kind s ids id : counted kind s (ids ++ [id]) = (counted kind s ids + Nat.b2n (uses_slot kind s id))%nat.
Proof. unfold counted. rewrite filter_app, length_app, filter_cons, filter_nil. by destruct (uses_slot kind s id). Qed.

Lemma state_set state c : c_state (set_state_controls state c) = state.
Proof. unfold set_state_controls. by destruct (_ || _). Qed.
Lemma transfer_set state c : c_transfer (set_state_controls state c) = transfer_of state.
Proof. unfold set_state_controls. by destruct (_ || _). Qed.
Lemma position_set state c : c_queue_position (set_state_controls state c) = c_queue_position c.
Proof. unfold set_state_controls. by destruct (_ || _). Qed.
Lemma slow_set o state c : is_slow now o (set_state_controls state c) = is_slow now o c.
Proof. unfold set_state_controls. by destruct (_ || _). Qed.
Lemma force_set state c : c_force_start (set_state_controls state c) = c_force_start c.
Proof. unfold set_state_controls. by destruct (_ || _). Qed.
Lemma limit_set o state t : seed_limit_reached now_unix o (t_control (set_state_controls state) t) = seed_limit_reached now_unix o t.
Proof. unfold set_state_controls, t_control, seed_limit_reached. cbn. by destruct (_ || _). Qed.

Definition decided (r : option TorrentState) : Controls -> Controls :=
  match r with Some state => set_state_controls state | None => fun c => c end.

(** A decision takes a place exactly when it lets the torrent run. *)
Lemma decide_counts s id c dl ul :
  controls_of s id = Some c ->
  let r := decide_one s id dl ul in
  let uses kind := Nat.b2n (kind (c_state (decided (fst r) c)) && negb (is_slow now (ses_options s) c)) in
  snd r = ((dl + uses downloads)%nat, (ul + uses uploads)%nat).
Proof.
  unfold controls_of, Session.decide_one. intros Hc. destruct (ses_torrents s !! id) as [t|].
  - injection Hc as <-. unfold decide_torrent, active_state. destruct (is_idle (c_state (t_controls t))) eqn:Ei.
    { cbn. by destruct (c_state (t_controls t)); cbn; rewrite ?Nat.add_0_r. }
    destruct (seed_limit_reached _ _ t); [cbn [fst snd decided]; rewrite state_set; cbn; by rewrite !Nat.add_0_r|].
    destruct (has_slot _ _ _ _ _); cbn [fst snd decided]; rewrite state_set; [|cbn; by rewrite !Nat.add_0_r].
    destruct (is_slow _ _ _), (is_complete _); cbn; f_equal; lia.
  - destruct (ses_pending s !! id) as [p|]; [|done]. injection Hc as <-. unfold decide_pending.
    destruct (is_idle (c_state (p_controls p))) eqn:Ei.
    { cbn. by destruct (c_state (p_controls p)); cbn; rewrite ?Nat.add_0_r. }
    destruct (has_slot _ _ _ _ _); cbn [fst snd decided]; rewrite state_set; [|cbn; by rewrite !Nat.add_0_r].
    destruct (is_slow _ _ _); cbn; f_equal; lia.
Qed.

(** Setting a state again changes nothing and tells nobody. *)

Lemma choked_idem m : choked (choked m) = choked m.
Proof.
  unfold choked. rewrite <- map_fmap_compose. apply map_fmap_ext. intros a p _. unfold compose, choke_one.
  destruct (st_am_choking (stats p)) eqn:E; cbn [negb]; [by rewrite E|done].
Qed.

Lemma set_state_idem state c : set_state_controls state (set_state_controls state c) = set_state_controls state c.
Proof.
  unfold set_state_controls. destruct (_ || _); [|done]. unfold choke_controls, set_c_peers, sync_download_state. cbn.
  by rewrite choked_idem.
Qed.

Definition quiet (e : list Effect) : Prop := forall ev, Emit ev ∉ e.

Lemma quiet_nil : quiet [].
Proof. intros ev. apply not_elem_of_nil. Qed.
Lemma quiet_app a b : quiet a -> quiet b -> quiet (a ++ b).
Proof. intros Ha Hb ev [H|H]%elem_of_app; [by apply (Ha ev)|by apply (Hb ev)]. Qed.

Lemma state_effects_quiet id state c : c_state c = state -> quiet (state_effects iter_peers id state c).
Proof.
  intros <-. unfold state_effects. rewrite (bool_decide_true (c_state c = c_state c)) by done. cbn [negb]. rewrite app_nil_r.
  apply quiet_app; (destruct (_ : bool); [|apply quiet_nil]); intros ev; unfold choke_peers, disconnect_all_peers;
    [by intros (e & ? & _)%list_elem_of_fmap|rewrite list_elem_of_omap; intros (e & _ & He); by destruct (writer_tx _)].
Qed.

Lemma dht_sync_quiet id s : quiet (effects (dht_sync id) s).
Proof.
  unfold effects, dht_sync, sbind, sget, to_dht, sret. cbn.
  destruct (ses_torrents s !! id), (ses_pending s !! id); cbn; try apply quiet_nil; destruct (ses_dht s); try apply quiet_nil;
    intros ev Hev%list_elem_of_singleton; done.
Qed.

Lemma assignment_settled s id state c :
  controls_of s id = Some (set_state_controls state c) ->
  after (apply_assignment iter_peers (id, state)) s = s /\ quiet (effects (apply_assignment iter_peers (id, state)) s).
Proof.
  intros Hc. rewrite after_assignment. unfold controls_of, assign, apply_assignment in *. rewrite effects_bind. cbn [fst snd sget app].
  change (effects sget s) with (@nil Effect). change (after sget s) with s. cbn [app].
  destruct (ses_torrents s !! id) as [t|] eqn:Et.
  - injection Hc as Hc. split.
    + rewrite alter_id; [by destruct s|]. intros t' Ht'. assert (t' = t) as -> by congruence. destruct t as [ct d tt at_ cp]. cbn in *.
      unfold t_control. cbn. by rewrite Hc, set_state_idem.
    + rewrite effects_bind. apply quiet_app; [|apply dht_sync_quiet]. unfold set_torrent_state. rewrite effects_bind. cbn. rewrite Et.
      apply state_effects_quiet. by rewrite Hc, state_set.
  - destruct (ses_pending s !! id) as [p|] eqn:Ep; [|done]. injection Hc as Hc. split.
    + rewrite alter_id; [by destruct s|]. intros p' Hp'. assert (p' = p) as -> by congruence. destruct p. cbn in *.
      unfold p_control. cbn. by rewrite Hc, set_state_idem.
    + rewrite effects_bind. apply quiet_app; [|apply dht_sync_quiet]. unfold set_pending_state. rewrite effects_bind. cbn. rewrite Ep.
      apply state_effects_quiet. by rewrite Hc, state_set.
Qed.

Lemma for_settled s l :
  Forall (fun a => exists c, controls_of s (fst a) = Some (set_state_controls (snd a) c)) l ->
  after (sfor l (apply_assignment iter_peers)) s = s /\ quiet (effects (sfor l (apply_assignment iter_peers)) s).
Proof.
  induction 1 as [|[id state] l [c Hc] _ [IHs IHe]]; [split; [done|apply quiet_nil]|]. cbn [sfor].
  destruct (assignment_settled s id state c Hc) as [Hs He]. rewrite after_bind, effects_bind, Hs. split; [done|]. by apply quiet_app.
Qed.

Section Evaluated.
Context (s : Session) (Hactive : ses_restoring s = false).
Let order := queue_order s.
Let s' := after evaluate_queue s.

Lemma evaluated : assigned (assignments s order 0 0) s s'.
Proof.
  assert (Heq : s' = fold_left assign (assignments s order 0 0) s).
  { unfold s', Session.evaluate_queue. rewrite after_bind. cbn [sget fst]. rewrite Hactive.
    change (after sget s) with s. apply after_for. intros. apply after_assignment. }
  rewrite Heq. apply assign_all. eapply sublist_NoDup; [apply (order_NoDup s)|apply assignments_ids].
Qed.

Lemma evaluated_options : ses_options s' = ses_options s.
Proof. by rewrite (as_rest _ _ _ evaluated). Qed.

Lemma evaluated_controls pre id post :
  order = pre ++ id :: post ->
  change (assignments s order 0 0) id = decided (fst (decide_one s id (fst (load s pre 0 0)) (snd (load s pre 0 0)))).
Proof.
  intros Heq. unfold change, decided. rewrite Heq, assignments_lookup; [done|]. rewrite <- Heq. apply order_NoDup.
Qed.

Lemma load_counted pre : pre `prefix_of` order -> load s pre 0 0 = (counted downloads s' pre, counted uploads s' pre).
Proof.
  induction pre as [|id pre IH] using rev_ind; [done|]. intros [post Hpost]. rewrite <- app_assoc in Hpost. cbn in Hpost.
  rewrite load_app, IH by (by exists (id :: post)). cbn [fst snd].
  assert (Hc : is_Some (controls_of s id)).
  { apply (elem_of_order s id). change (Session.queue_order iter_t iter_p s) with order. rewrite Hpost. apply elem_of_app. right. left. }
  destruct Hc as [c Hc]. cbn [load]. pose proof (evaluated_controls pre id post Hpost) as Hch.
  rewrite IH in Hch by (by exists (id :: post)). cbn [fst snd] in Hch.
  rewrite (decide_counts s id c _ _ Hc), !counted_snoc. unfold uses_slot.
  rewrite (assigned_controls _ _ _ id evaluated), Hc, Hch, evaluated_options. cbn [fmap option_fmap option_map].
  assert (Hslow : forall r, is_slow now (ses_options s) (decided r c) = is_slow now (ses_options s) c)
    by (intros [?|]; cbn; [apply slow_set|done]).
  by rewrite !Hslow.
Qed.

Lemma order_kept : queue_order s' = order.
Proof.
  symmetry. apply order_ext; [done..|]. intros id. rewrite (assigned_controls _ _ _ id evaluated).
  destruct (controls_of s id) as [c|]; [|done]. cbn. f_equal. unfold change. destruct (_ !! id); [by rewrite position_set|done].
Qed.

(** What the queue leaves a torrent to do, by what runs before it afterwards. *)
Definition room (complete : bool) (before : list bytes) : bool :=
  slot_available complete (negb complete) (counted downloads s' before) (counted uploads s' before)
    (so_max_active_downloads (ses_options s)) (so_max_active_uploads (ses_options s)) (so_max_active (ses_options s)).

Lemma split_at k id : order !! k = Some id -> order = take k order ++ id :: drop (S k) order.
Proof. intros H. by rewrite take_drop_middle. Qed.

Lemma decision k id : order !! k = Some id ->
  change (assignments s order 0 0) id =
  decided (fst (decide_one s id (counted downloads s' (take k order)) (counted uploads s' (take k order)))).
Proof. intros H. by rewrite (evaluated_controls _ _ _ (split_at k id H)), load_counted by (apply prefix_take). Qed.

Lemma torrent_outcome k id t :
  order !! k = Some id -> ses_torrents s !! id = Some t ->
  let c := t_controls t in
  ses_torrents s' !! id = Some (
    if is_idle (c_state c) then t
    else t_control (set_state_controls (
      if seed_limit_reached now_unix (ses_options s) t then StPaused
      else if c_force_start c || room (is_complete (t_downloaded t)) (take k order) then active_state (t_downloaded t)
      else StQueued)) t).
Proof.
  intros Hk Ht c. rewrite (as_torrents _ _ _ evaluated), Ht, (decision k id Hk). unfold Session.decide_one. rewrite Ht.
  unfold decide_torrent, has_slot, room, c. cbn. f_equal. destruct (is_idle _); cbn; [apply t_control_id|].
  destruct (seed_limit_reached _ _ t); [done|]. by destruct (c_force_start (t_controls t) || _).
Qed.

Lemma pending_outcome k id p :
  order !! k = Some id -> ses_torrents s !! id = None -> ses_pending s !! id = Some p ->
  let c := p_controls p in
  ses_pending s' !! id = Some (
    if is_idle (c_state c) then p
    else p_control (set_state_controls (if c_force_start c || room false (take k order) then StMetadata else StQueued)) p).
Proof.
  intros Hk Ht Hp c. rewrite (as_pending _ _ _ evaluated), Ht, Hp, (decision k id Hk). unfold Session.decide_one. rewrite Ht, Hp.
  unfold decide_pending, has_slot, room, c. cbn. f_equal. destruct (is_idle _); cbn; [apply p_control_id|].
  by destruct (c_force_start (p_controls p) || _).
Qed.

(** *** The limits *)

Definition forced (id : bytes) : bool := match controls_of s id with Some c => c_force_start c | None => false end.
Definition unforced (ids : list bytes) : list bytes := filter (fun id => forced id = false) ids.

Lemma counted_unforced kind ids : (counted kind s' (unforced ids) <= counted kind s' ids)%nat.
Proof.
  induction ids as [|id ids IH] using rev_ind; [done|]. unfold unforced in *. rewrite filter_app, filter_cons, filter_nil, counted_snoc.
  destruct (decide _); [rewrite counted_snoc|rewrite app_nil_r]; lia.
Qed.

(** A torrent runs without being forced only if there was room for it. *)
Lemma running_room pre id post (seeding : bool) :
  order = pre ++ id :: post -> forced id = false -> uses_slot (if seeding then uploads else downloads) s' id = true -> room seeding pre = true.
Proof.
  intros Hord Hf. pose proof (evaluated_controls pre id post Hord) as Hch.
  rewrite load_counted in Hch by (by exists (id :: post)). cbn [fst snd] in Hch.
  unfold uses_slot, forced in *. rewrite (assigned_controls _ _ _ id evaluated), Hch. clear Hch.
  unfold controls_of, Session.decide_one in *. destruct (ses_torrents s !! id) as [t|].
  - cbn. unfold decide_torrent, has_slot. rewrite Hf. destruct (is_idle (c_state (t_controls t))) eqn:Ei.
    { cbn. by destruct seeding, (c_state (t_controls t)). }
    destruct (seed_limit_reached _ _ t); [cbn [decided fst]; rewrite state_set; by destruct seeding|].
    cbn [orb]. fold (room (is_complete (t_downloaded t)) pre). destruct (room _ pre) eqn:Er; cbn [decided fst]; rewrite state_set;
      [|by destruct seeding].
    unfold active_state. by destruct seeding, (is_complete (t_downloaded t)).
  - destruct (ses_pending s !! id) as [p|]; [|done]. cbn. unfold decide_pending, has_slot. cbn in Hf. rewrite Hf.
    destruct (is_idle (c_state (p_controls p))) eqn:Ei.
    { cbn. by destruct seeding, (c_state (p_controls p)). }
    cbn [orb]. fold (room false pre). destruct (room _ pre) eqn:Er; cbn [decided fst]; rewrite state_set; [|by destruct seeding].
    by destruct seeding.
Qed.

Definition at_most (limit n : nat) : Prop := (0 < limit -> n <= limit)%nat.

Lemma queue_bounded pre : pre `prefix_of` order ->
  let n kind := counted kind s' (unforced pre) in
  at_most (so_max_active_downloads (ses_options s)) (n downloads) /\
  at_most (so_max_active_uploads (ses_options s)) (n uploads) /\
  at_most (so_max_active (ses_options s)) (n downloads + n uploads).
Proof.
  induction pre as [|id pre IH] using rev_ind; [unfold at_most, counted, unforced; cbn; lia|].
  intros [post Hpost]. rewrite <- app_assoc in Hpost. cbn in Hpost. specialize (IH ltac:(by exists (id :: post))). cbn in *.
  unfold unforced in *. rewrite filter_app, filter_cons, filter_nil. destruct (decide (forced id = false)) as [Hf|]; [|by rewrite app_nil_r].
  rewrite !counted_snoc. pose proof (counted_unforced downloads pre) as Hd. pose proof (counted_unforced uploads pre) as Hu.
  unfold unforced in Hd, Hu. pose proof (running_room pre id post) as Hr. unfold at_most in *.
  assert (Hboth : uses_slot downloads s' id && uses_slot uploads s' id = false).
  { unfold uses_slot. destruct (controls_of s' id) as [c|]; [|done]. by destruct (c_state c), (is_slow _ _ _). }
  destruct (uses_slot downloads s' id) eqn:Ed.
  - rewrite andb_true_l in Hboth. rewrite Hboth. pose proof (Hr false Hpost Hf Ed) as Hroom. unfold room, slot_available in Hroom. cbn [Nat.b2n negb andb] in *.
    repeat match type of Hroom with context [if ?b then _ else _] => destruct b eqn:Hb; [done|]; rewrite andb_false_iff, Nat.ltb_ge, Nat.leb_gt in Hb; revert Hb end.
    clear - IH Hd Hu. lia.
  - destruct (uses_slot uploads s' id) eqn:Eu; [|cbn; by rewrite !Nat.add_0_r].
    pose proof (Hr true Hpost Hf Eu) as Hroom. unfold room, slot_available in Hroom. cbn [Nat.b2n negb andb] in *.
    repeat match type of Hroom with context [if ?b then _ else _] => destruct b eqn:Hb; [done|]; rewrite andb_false_iff, Nat.ltb_ge, Nat.leb_gt in Hb; revert Hb end.
    clear - IH Hd Hu. lia.
Qed.

(** *** Evaluating again *)

Lemma decide_again k id dl ul :
  order !! k = Some id -> (dl, ul) = (counted downloads s' (take k order), counted uploads s' (take k order)) ->
  decide_one s' id dl ul =
  (match fst (decide_one s id dl ul) with Some StPaused => None | r => r end, snd (decide_one s id dl ul)).
Proof.
  intros Hk [= -> ->]. pose proof (decision k id Hk) as Hdec. revert Hdec.
  set (dl := counted downloads s' (take k order)). set (ul := counted uploads s' (take k order)). clearbody dl ul.
  unfold Session.decide_one. rewrite (as_torrents _ _ _ evaluated), (as_pending _ _ _ evaluated), evaluated_options.
  destruct (ses_torrents s !! id) as [t|]; [|destruct (ses_pending s !! id) as [p|]; [|done]]; cbn [fmap option_fmap option_map].
  - intros ->. unfold decide_torrent. destruct (is_idle (c_state (t_controls t))) eqn:Ei; cbn [fst snd decided].
    { rewrite t_control_id. by rewrite Ei. }
    destruct (seed_limit_reached _ _ t) eqn:El; cbn [fst snd decided]; [cbn [t_control t_controls]; by rewrite state_set|].
    destruct (has_slot _ _ _ _ _) eqn:Es; cbn [fst snd decided]; rewrite limit_set, El; cbn [t_control t_controls t_downloaded];
      rewrite state_set, force_set, slow_set, Es; [|done]. unfold active_state. by destruct (is_complete _).
  - intros ->. unfold decide_pending. destruct (is_idle (c_state (p_controls p))) eqn:Ei; cbn [fst snd decided].
    { rewrite p_control_id. by rewrite Ei. }
    destruct (has_slot _ _ _ _ _) eqn:Es; cbn [fst snd decided]; cbn [p_control p_controls];
      rewrite state_set, force_set, slow_set, Es; done.
Qed.

Lemma assignments_again pre post :
  order = pre ++ post ->
  assignments s' post (counted downloads s' pre) (counted uploads s' pre) =
  filter (fun a => snd a <> StPaused) (assignments s post (counted downloads s' pre) (counted uploads s' pre)).
Proof.
  revert pre. induction post as [|id post IH]; intros pre Hord; [done|].
  assert (Hk : order !! length pre = Some id) by (rewrite Hord; by apply list_lookup_middle).
  assert (Htake : take (length pre) order = pre) by (rewrite Hord; apply take_app_length).
  cbn [Session.assignments]. rewrite (decide_again (length pre) id _ _ Hk) by (by rewrite Htake).
  assert (Hload : snd (decide_one s id (counted downloads s' pre) (counted uploads s' pre)) =
                  (counted downloads s' (pre ++ [id]), counted uploads s' (pre ++ [id]))).
  { rewrite <- load_counted by (exists post; by rewrite <- app_assoc).
    rewrite load_app, load_counted by (by exists (id :: post)). cbn. by destruct (snd (decide_one _ _ _ _)). }
  destruct (decide_one s id _ _) as [r [dl ul]]. cbn [fst snd] in *. injection Hload as -> ->.
  specialize (IH (pre ++ [id]) ltac:(by rewrite <- app_assoc)).
  destruct r as [[]|]; cbn [fst snd]; rewrite ?filter_cons; cbn [snd]; try case_decide; try exact IH; try congruence; by f_equal.
Qed.

Lemma evaluate_again : after evaluate_queue s' = s' /\ quiet (effects evaluate_queue s').
Proof.
  assert (Hr : ses_restoring s' = false) by (by rewrite (as_rest _ _ _ evaluated)).
  unfold Session.evaluate_queue. rewrite after_bind, effects_bind. cbn [sget fst]. rewrite Hr.
  change (after sget s') with s'. change (effects sget s') with (@nil Effect). cbn [app].
  rewrite order_kept. pose proof (assignments_again [] order eq_refl) as Ha.
  change (counted downloads s' []) with 0%nat in Ha. change (counted uploads s' []) with 0%nat in Ha. rewrite Ha.
  apply for_settled, Forall_forall. intros [id state] Hin%list_elem_of_filter. destruct Hin as [_ Hin]. cbn [fst snd].
  rewrite (assigned_controls _ _ _ id evaluated). unfold change. rewrite (elem_of_list_to_map_1 _ id state); [|..|exact Hin].
  - assert (Hid : id ∈ order).
    { eapply elem_of_sublist; [|apply (assignments_ids s order 0 0)]. apply list_elem_of_fmap. by exists (id, state). }
    apply (elem_of_order s) in Hid as [c Hc]. rewrite Hc. by exists c.
  - eapply sublist_NoDup; [apply (order_NoDup s)|apply assignments_ids].
Qed.
End Evaluated.
End Queue.

(** ** Moving a torrent in the queue *)

Section Move.
Context (iter_t : gmap bytes TorrentSession -> list (bytes * TorrentSession)) `{!HashOrder iter_t}.
Context (iter_p : gmap bytes PendingTorrent -> list (bytes * PendingTorrent)) `{!HashOrder iter_p}.
Context (iter_peers : gmap SocketAddr PeerState -> list (SocketAddr * PeerState)).
Context (now : Instant) (now_unix : i64).

Abbreviation queue_order := (queue_order iter_t iter_p).
Abbreviation evaluate_queue := (evaluate_queue iter_t iter_p iter_peers now now_unix).

Definition place (s : Session) (e : nat * bytes) : Session :=
  let f := set_c_queue_position (Z.of_nat (fst e)) in
  set_pending (alter (p_control f) (snd e) (ses_pending s)) (set_torrents (alter (t_control f) (snd e) (ses_torrents s)) s).

Lemma place_controls s e id :
  controls_of (place s e) id = (if decide (id = snd e) then set_c_queue_position (Z.of_nat (fst e)) else fun c => c) <$> controls_of s id.
Proof.
  unfold controls_of, place. cbn. destruct e as [i j]. cbn. destruct (decide (id = j)) as [->|Hne].
  - rewrite !lookup_alter_eq. destruct (_ !! j); [done|]. cbn. by destruct (_ !! j).
  - rewrite !lookup_alter_ne by done. destruct (_ !! id); [done|]. cbn. by destruct (_ !! id).
Qed.

Lemma place_other l s id : id ∉ map snd l -> controls_of (fold_left place l s) id = controls_of s id.
Proof.
  revert s. induction l as [|e l IH]; intros s Hn; [done|]. cbn in *. apply not_elem_of_cons in Hn as [Hne Hn].
  rewrite IH by done. rewrite place_controls, decide_False by done. by destruct (controls_of s id).
Qed.

Lemma place_all l s i id :
  NoDup (map snd l) -> (i, id) ∈ l ->
  controls_of (fold_left place l s) id = set_c_queue_position (Z.of_nat i) <$> controls_of s id.
Proof.
  revert s. induction l as [|e l IH]; intros s Hn Hin; [by apply not_elem_of_nil in Hin|]. cbn in *. apply NoDup_cons in Hn as [He Hn].
  apply elem_of_cons in Hin as [<-|Hin].
  - rewrite place_other by done. rewrite place_controls. cbn. by rewrite decide_True.
  - rewrite (IH _ Hn Hin), place_controls. rewrite decide_False; [by destruct (controls_of s id)|].
    intros ->. apply He. apply list_elem_of_fmap. by exists (i, snd e).
Qed.

Lemma positions_sorted ids n : StronglySorted queue_le (map (fun e => (Z.of_nat (fst e), snd e)) (imap (fun i id => (n + i, id)%nat) ids)).
Proof.
  revert n. induction ids as [|id ids IH]; intros n; [constructor|]. cbn. constructor.
  - specialize (IH (S n)). eapply eq_ind; [exact IH|]. f_equal. apply imap_ext. intros i x _. cbn. f_equal. lia.
  - apply Forall_forall. intros [q j] Hq. apply list_elem_of_fmap in Hq as ([i x] & [= -> ->] & Hi).
    apply elem_of_lookup_imap in Hi as (i' & y & [= -> ->] & _). unfold queue_le, queue_key. cbn [fst snd cmp_list].
    replace (Z.of_nat (n + 0)%nat ?= Z.of_nat (n + S i')%nat) with Lt; [done|]. symmetry. apply Z.compare_lt_iff. lia.
Qed.

Lemma reordered ids s : ids ≡ₚ queue_order s -> queue_order (after (apply_queue_order ids) s) = ids.
Proof.
  intros Hp. set (s1 := fold_left place (imap pair ids) s).
  assert (Heq : forall id, controls_of (after (apply_queue_order ids) s) id = controls_of s1 id).
  { intros id. unfold apply_queue_order. rewrite after_bind. rewrite (after_for place); [done|]. intros e s0. by rewrite after_bind. }
  assert (Hids : map snd (imap pair ids) = ids).
  { change (map snd (imap pair ids)) with (snd <$> imap pair ids). rewrite fmap_imap. clear. induction ids as [|x ids IH]; [done|].
    cbn. f_equal. etransitivity; [|exact IH]. by apply imap_ext. }
  assert (Hnd : NoDup (map snd (imap pair ids))) by (rewrite Hids, Hp; by apply order_NoDup).
  rewrite (order_ext _ _ _ s1) by (intros id; by rewrite Heq).
  unfold Session.queue_order. transitivity (map snd (map (fun e => (Z.of_nat (fst e), snd e)) (imap pair ids))).
  2: { rewrite map_map. exact Hids. }
  f_equal. apply (StronglySorted_unique queue_le).
  - apply StronglySorted_merge_sort; apply _.
  - apply (positions_sorted ids 0).
  - rewrite merge_sort_Permutation. apply NoDup_Permutation.
    + eapply NoDup_fmap_1, items_ids; done.
    + apply (NoDup_fmap_1 snd). rewrite <- list_fmap_compose. change (NoDup (map snd (imap pair ids))). exact Hnd.
    + intros [pos id]. rewrite (elem_of_items iter_t iter_p), list_elem_of_fmap. split.
      * intros (c & Hc & <-). assert (Hin : id ∈ map snd (imap pair ids)).
        { rewrite Hids, Hp. apply elem_of_order; [done..|]. apply not_eq_None_Some. intros Hno.
          destruct (decide (id ∈ map snd (imap pair ids))) as [Hi|Hi].
          - apply list_elem_of_fmap in Hi as ([i x] & -> & Hi). unfold s1 in Hc. rewrite (place_all _ _ i x Hnd Hi) in Hc. cbn in Hno. by rewrite Hno in Hc.
          - unfold s1 in Hc. rewrite place_other in Hc by done. congruence. }
        apply list_elem_of_fmap in Hin as ([i x] & -> & Hi). exists (i, x). split; [|done]. unfold s1 in Hc. cbn [snd] in *.
        rewrite (place_all _ _ i x Hnd Hi) in Hc. destruct (controls_of s x) as [c0|]; [|done]. by injection Hc as <-.
      * intros ([i x] & [= -> ->] & Hi). unfold s1. rewrite (place_all _ _ i x Hnd Hi).
        assert (Hin : x ∈ queue_order s). { rewrite <- Hp, <- Hids. apply list_elem_of_fmap. by exists (i, x). }
        apply elem_of_order in Hin as [c Hc]; [|done..]. rewrite Hc. by eexists.
Qed.

Lemma move_perm id pos ids : id ∈ ids -> NoDup ids -> move_to id pos ids ≡ₚ ids.
Proof.
  intros Hin Hnd. unfold move_to. set (rest := filter _ ids). rewrite <- Permutation_middle, take_drop. unfold rest.
  apply NoDup_Permutation; [|done|].
  - apply NoDup_cons. split; [|by apply NoDup_filter]. rewrite list_elem_of_filter. naive_solver.
  - intros x. rewrite elem_of_cons, list_elem_of_filter. destruct (decide (x = id)) as [->|]; naive_solver.
Qed.

Lemma order_after_evaluation s : queue_order (after evaluate_queue s) = queue_order s.
Proof.
  destruct (ses_restoring s) eqn:Hr; [|by apply order_kept].
  unfold Session.evaluate_queue. rewrite after_bind. cbn [sget fst]. by rewrite Hr.
Qed.

Lemma bind_sget {B} (k : Session -> SM B) s : sbind sget k s = k s s.
Proof. unfold sbind, sget. by destruct (k s s) as [[b e] s2]. Qed.

Lemma set_position_unknown s id pos : ~ is_Some (controls_of s id) ->
  set_queue_position iter_t iter_p iter_peers now now_unix id pos s = (Err (NotFound id), [], s).
Proof. intros Hn. unfold set_queue_position. rewrite bind_sget, decide_False; [done|]. by rewrite elem_of_order. Qed.

Lemma set_position_known s id pos : is_Some (controls_of s id) ->
  let m := set_queue_position iter_t iter_p iter_peers now now_unix id pos in
  fst (fst (m s)) = Ok () /\ queue_order (after m s) = move_to id pos (queue_order s).
Proof.
  intros Hk. assert (Hin : id ∈ queue_order s) by (by apply elem_of_order).
  unfold after, set_queue_position. rewrite !bind_sget, !decide_True by done. split.
  - by rewrite !value_bind.
  - change (queue_order (after (apply_queue_order (move_to id pos (queue_order s));; evaluate_queue;; to_disk FlushAll;; sok) s) = move_to id pos (queue_order s)).
    rewrite !after_bind. change (queue_order (after evaluate_queue (after (apply_queue_order (move_to id pos (queue_order s))) s)) = move_to id pos (queue_order s)).
    rewrite order_after_evaluation. apply reordered. apply move_perm; [done|]. by apply order_NoDup.
Qed.
End Move.

Lemma move_spec id pos ids : id ∈ ids -> NoDup ids ->
  move_to id pos ids ≡ₚ ids /\ move_to id pos ids !! Nat.min pos (length ids - 1) = Some id /\
  filter (fun x => x <> id) (move_to id pos ids) = filter (fun x => x <> id) ids.
Proof.
  intros Hin Hnd. pose proof (move_perm id pos ids Hin Hnd) as Hp. split; [done|].
  assert (Hlen : length ids = S (length (filter (fun x => x <> id) ids))).
  { rewrite <- (Permutation_length Hp) at 1. unfold move_to. rewrite length_app. cbn. rewrite length_take, length_drop. lia. }
  unfold move_to. set (rest := filter (fun x => x <> id) ids) in *. replace (length ids - 1)%nat with (length rest) by lia. split.
  - rewrite lookup_app_r by (rewrite length_take; lia). rewrite length_take. by replace (_ - _)%nat with 0%nat by lia.
  - rewrite filter_app, filter_cons, decide_False by naive_solver. rewrite <- filter_app, take_drop. unfold rest. rewrite list_filter_filter_l; naive_solver.
Qed.

Lemma position_unique ids (k : nat) (id : bytes) : NoDup ids -> ids !! k = Some id -> position (fun x => bool_decide (x = id)) ids = Some k.
Proof.
  intros Hnd Hk. destruct (position _ ids) as [n|] eqn:E.
  - apply position_Some in E as [(x & Hx & Hp) _]. apply bool_decide_eq_true_1 in Hp as ->. f_equal. by eapply NoDup_lookup.
  - apply position_None in E. rewrite Forall_lookup in E. specialize (E k id Hk). by rewrite bool_decide_true in E.
Qed.

(** ** What the queue promises *)

(** C7: evaluating the queue is the greedy choice in queue order.  A paused,
    checking, moving or failed torrent is left alone; one that has reached its
    share limit is paused; any other runs if it is forced or if the torrents
    before it in the queue, counted after the evaluation, leave room within the
    limits, and waits otherwise.  The torrents that run without being forced
    respect every limit, the queue keeps its order, and evaluating again changes
    nothing and announces nothing. *)
Theorem queue_evaluation_correct iter_t iter_p iter_peers now now_unix s
    `{!HashOrder iter_t} `{!HashOrder iter_p} :
  ses_restoring s = false ->
  let evaluate := evaluate_queue iter_t iter_p iter_peers now now_unix in
  let s' := after evaluate s in
  let o := ses_options s in
  let order := queue_order iter_t iter_p s in
  let room complete before :=
    slot_available complete (negb complete) (counted now downloads s' before) (counted now uploads s' before)
      (so_max_active_downloads o) (so_max_active_uploads o) (so_max_active o) in
  let running kind := counted now kind s' (filter (fun id => forced s id = false) order) in
  (forall k id t, order !! k = Some id -> ses_torrents s !! id = Some t ->
     let c := t_controls t in
     ses_torrents s' !! id = Some (
       if is_idle (c_state c) then t
       else t_control (set_state_controls (
         if seed_limit_reached now_unix o t then StPaused
         else if c_force_start c || room (is_complete (t_downloaded t)) (take k order) then active_state (t_downloaded t)
         else StQueued)) t)) /\
  (forall k id p, order !! k = Some id -> ses_torrents s !! id = None -> ses_pending s !! id = Some p ->
     let c := p_controls p in
     ses_pending s' !! id = Some (
       if is_idle (c_state c) then p
       else p_control (set_state_controls (if c_force_start c || room false (take k order) then StMetadata else StQueued)) p)) /\
  (forall id, id ∈ order <-> is_Some (controls_of s id)) /\
  queue_order iter_t iter_p s' = order /\
  at_most (so_max_active_downloads o) (running downloads) /\
  at_most (so_max_active_uploads o) (running uploads) /\
  at_most (so_max_active o) (running downloads + running uploads) /\
  after evaluate s' = s' /\ quiet (effects evaluate s').
Proof.
  intros Hr evaluate s' o order room running.
  split; [intros k id t Hk Ht; exact (torrent_outcome iter_t iter_p iter_peers now now_unix s Hr k id t Hk Ht)|].
  split; [intros k id p Hk Ht Hp; exact (pending_outcome iter_t iter_p iter_peers now now_unix s Hr k id p Hk Ht Hp)|].
  split; [intros id; by apply elem_of_order|].
  split; [by apply order_kept|].
  destruct (queue_bounded iter_t iter_p iter_peers now now_unix s Hr order) as (Hd & Hu & Ha); [done|].
  split; [exact Hd|]. split; [exact Hu|]. split; [exact Ha|]. by apply evaluate_again.
Qed.

Definition example_options : SessionOptions := mkOptions None [] [] f64_zero 0 1 8 0 true (secs 30).
Definition example_controls (state : TorrentState) (position : u64) (force : bool) : Controls :=
  mkControls state (transfer_of state) peer_states_new 0 [] 0 [] ∅ true sample_default position force
    (limiter_unlimited 0) (limiter_unlimited 0) None None None.
Definition example_torrent (id : bytes) : Torrent := mkTorrent id [[1]] 16384 5 [mkTFI [[97]] 5 0] [97] false.
Definition example_pieces : list PieceWorkState := [piece_new (mkPieceWork 0 5 [])].
Definition example_entry (id : bytes) (state : TorrentState) (position : u64) (force : bool) : TorrentSession :=
  mkSession (example_controls state position force) (with_seed example_pieces) (example_torrent id) None [].
Definition example_session : Session :=
  mkSes {[[1] := example_entry [1] StDownloading 2 false; [2] := example_entry [2] StQueued 1 false;
          [3] := example_entry [3] StPaused 0 false; [4] := example_entry [4] StQueued 3 true]} ∅ TsDownloading example_options true ∅
    (limits_new 0 0 0 0 0) 4 false [].

Lemma queue_evaluation_correct_witness :
  let evaluate := evaluate_queue map_to_list map_to_list map_to_list 0 0 in
  (fun t => c_state (t_controls t)) <$> ses_torrents (after evaluate example_session) !! [2] = Some StDownloading /\
  (fun t => c_state (t_controls t)) <$> ses_torrents (after evaluate example_session) !! [1] = Some StQueued /\
  (fun t => c_state (t_controls t)) <$> ses_torrents (after evaluate example_session) !! [4] = Some StDownloading /\
  after evaluate (after evaluate example_session) = after evaluate example_session.
Proof.
  split; [by vm_compute|]. split; [by vm_compute|]. split; [by vm_compute|].
  apply (queue_evaluation_correct map_to_list map_to_list map_to_list 0 0 example_session). reflexivity.
Defined.

(** A move in the queue puts the torrent at the position asked for, or last
    when there are fewer, and keeps the others in their order; every torrent stays
    in the queue exactly once.  A torrent that the session does not know is an
    error that changes nothing.  Moves to the top, to the bottom, one up and one
    down are the corresponding positions. *)
Theorem queue_move_exact iter_t iter_p iter_peers now now_unix s id
    `{!HashOrder iter_t} `{!HashOrder iter_p} :
  let order := queue_order iter_t iter_p in
  let set_position := set_queue_position iter_t iter_p iter_peers now now_unix id in
  (controls_of s id = None -> forall pos, set_position pos s = (Err (NotFound id), [], s)) /\
  (is_Some (controls_of s id) -> forall pos,
     fst (fst (set_position pos s)) = Ok () /\
     order (after (set_position pos) s) = move_to id pos (order s) /\
     move_to id pos (order s) ≡ₚ order s /\
     move_to id pos (order s) !! Nat.min pos (length (order s) - 1) = Some id /\
     filter (fun x => x <> id) (move_to id pos (order s)) = filter (fun x => x <> id) (order s)) /\
  (forall k, order s !! k = Some id ->
     queue_top iter_t iter_p iter_peers now now_unix id s = set_position 0%nat s /\
     queue_bottom iter_t iter_p iter_peers now now_unix id s = set_position (length (order s) - 1)%nat s /\
     queue_up iter_t iter_p iter_peers now now_unix id s = set_position (k - 1)%nat s /\
     queue_down iter_t iter_p iter_peers now now_unix id s = set_position (k + 1)%nat s).
Proof.
  intros order set_position. split; [|split].
  - intros Hn pos. apply (set_position_unknown iter_t iter_p iter_peers now now_unix). rewrite Hn. by intros [].
  - intros Hk pos. destruct (set_position_known iter_t iter_p iter_peers now now_unix s id pos Hk) as [Hok Hord].
    assert (Hin : id ∈ order s) by (by apply elem_of_order). assert (Hnd : NoDup (order s)) by (by apply order_NoDup).
    destruct (move_spec id pos (order s) Hin Hnd) as (? & ? & ?). done.
  - intros k Hk. assert (Hnd : NoDup (order s)) by (by apply order_NoDup).
    assert (Hpos : position (fun x => bool_decide (x = id)) (order s) = Some k) by (by apply position_unique).
    unfold queue_top, queue_bottom, queue_up, queue_down. unfold order in *. rewrite !bind_sget, Hpos. done.
Qed.
