(* ===== verification/SessionSafe.v ===== *)
(** * Invariants of the session (crates/bit_rev/src/session.rs)

    Every operation of the session as a step, in any order and with the waiting
    tasks going on at any time; adding a torrent is cut at each of its waits.  Two
    invariants follow: what a torrent shows agrees with what its tasks do and, if no
    category is removed while a torrent is being added to it, its category exists; and
    a paused torrent stays paused until it is told otherwise.  Both are instances of a
    class of predicates that the parts of the operations keep ([Kept]). *)

From S2P Require Import Prelude Text Float Rate Metainfo Layout Bitfield Message PeerStates Picker Priority Download Choke.
From S2P Require Import ExtHandshake Peers Metadata Pex Registry Pipeline AllowedFast PeerHandler PeerTasks PeerSwarm Session SessionQueue.

#[local] Open Scope session_scope.

(** ** Steps *)

(** What may happen to a session.  [SAddMagnet] and [SAddMeta] add a torrent with nothing
    in between, the steps after them one by one; an info hash is registered in two.
    [SEnv] is what the peers and the disk do to a torrent: any download state, peers
    and amount of upload. *)
Inductive ses_op :=
| SPause (id : bytes) | SResume (id : bytes) | SPauseAll | SResumeAll | SForceStart (id : bytes) (enabled : bool)
| SQueuePosition (id : bytes) (pos : nat) | SQueueTop (id : bytes) | SQueueBottom (id : bytes) | SQueueUp (id : bytes) | SQueueDown (id : bytes)
| SShareLimits (id : bytes) (ratio : option f64) (time : option u64)
| SRateLimits (download upload : u64) | SAltLimits (download upload : u64) | SAltMode (on : bool) | STorrentRateLimits (id : bytes) (download upload : u64)
| SFilePriority (id : bytes) (index : nat) (prio : FilePriority) | SFilePriorities (id : bytes) (prios : list FilePriority)
| SSequential (id : bytes) (seq : bool)
| SCreateCategory (saves : bool) (name : bytes) (path : option bytes) | SEditCategory (saves : bool) (name : bytes) (path : option bytes)
| SRemoveCategory (saves : bool) (name : bytes) | SSetCategory (saves : bool) (id category : bytes)
| SSetTags (id : bytes) (tags : list bytes) | SAddTags (id : bytes) (tags : list bytes) | SRemoveTags (id : bytes) (tags : list bytes)
| SSavePath (id path : bytes) (move_files : bool) | SMoveOnComplete (id : bytes) | SRecheck (id : bytes)
| SFinishTask (k : nat) (moved : result () bytes) (verified : list u32)
| STick | SRemove (id : bytes) (delete_files : bool)
| SAddInfoHash (id name temp_dir : bytes) (dir : option bytes)
| SAddMagnet (saves : bool) (id name : bytes) (trackers webseeds : list bytes) (opts : AddTorrentOptions)
| SAddMeta (saves dht : bool) (torrent : Torrent) (d : DownloadState) (cache : bytes) (resumed : option Resumed) (opts : AddTorrentOptions)
| SMagnetStart (saves : bool) (id name : bytes) (trackers webseeds : list bytes) (opts : AddTorrentOptions)
| SRegistered (k : nat)
| SMetaStart (saves : bool) (torrent : Torrent) (cache : bytes) (resumed : option Resumed) (opts : AddTorrentOptions)
| SPromote (k : nat) (saves : bool) (torrent : Torrent) (cache : bytes) (resumed : option Resumed)
| SMetaOpened (k : nat) (d : DownloadState)
| SMetaInstalled (k : nat) (dht : bool) (d : DownloadState)
| SAddingFailed (k : nat) (message : bytes)
| SPieceWritten (id : bytes)
| SEnv (id : bytes) (d : DownloadState) (peers : PeerStates) (uploaded : u64).

(** A step with the traversals of its hash maps and the time it happens at. *)
Record World := mkWorld {
  wl_torrents : gmap bytes TorrentSession -> list (bytes * TorrentSession);
  wl_pending : gmap bytes PendingTorrent -> list (bytes * PendingTorrent);
  wl_peers : gmap SocketAddr PeerState -> list (SocketAddr * PeerState);
  wl_now : Instant;
  wl_unix : i64 }.

Definition run {A} (m : SM A) : Session -> Session := after m.

Definition ses_exec (w : World) (op : ses_op) : Session -> Session :=
  let '(mkWorld it ip ipp now unix) := w in
  match op with
  | SPause id => run (pause it ip ipp now unix id)
  | SResume id => run (resume it ip ipp now unix id)
  | SPauseAll => run (pause_all it ip ipp)
  | SResumeAll => run (resume_all it ip ipp now unix)
  | SForceStart id enabled => run (set_force_start it ip ipp now unix id enabled)
  | SQueuePosition id pos => run (set_queue_position it ip ipp now unix id pos)
  | SQueueTop id => run (queue_top it ip ipp now unix id)
  | SQueueBottom id => run (queue_bottom it ip ipp now unix id)
  | SQueueUp id => run (queue_up it ip ipp now unix id)
  | SQueueDown id => run (queue_down it ip ipp now unix id)
  | SShareLimits id ratio time => run (set_share_limits id ratio time)
  | SRateLimits d u => run (set_rate_limits d u)
  | SAltLimits d u => run (set_alt_limits d u)
  | SAltMode on => run (session_set_alt_mode on)
  | STorrentRateLimits id d u => run (set_torrent_rate_limits id d u)
  | SFilePriority id index prio => run (session_set_file_priority it ip ipp now unix id index prio)
  | SFilePriorities id prios => run (session_set_file_priorities it ip ipp now unix id prios)
  | SSequential id seq => run (session_set_sequential id seq)
  | SCreateCategory saves name path => run (create_category saves name path)
  | SEditCategory saves name path => run (edit_category saves name path)
  | SRemoveCategory saves name => run (remove_category it ip saves name)
  | SSetCategory saves id category => run (set_category saves id category)
  | SSetTags id tags => run (set_tags id tags)
  | SAddTags id tags => run (add_tags id tags)
  | SRemoveTags id tags => run (remove_tags id tags)
  | SSavePath id path move => run (set_save_path ipp id path move)
  | SMoveOnComplete id => run (maybe_move_on_complete ipp id)
  | SRecheck id => run (recheck_start ipp id)
  | SFinishTask k moved verified => run (finish_task ipp unix k moved verified)
  | STick => run (tick it ip ipp now unix)
  | SRemove id delete_files => run (remove_torrent it ip ipp now unix id delete_files)
  | SAddInfoHash id name temp dir => run (add_info_hash_start id name temp dir)
  | SAddMagnet saves id name trackers webseeds opts => run (add_magnet now unix saves id name trackers webseeds opts)
  | SAddMeta saves dht torrent d cache resumed opts =>
      run (add_torrent_meta it ip ipp now unix saves dht torrent d cache resumed opts)
  | SMagnetStart saves id name trackers webseeds opts => run (add_magnet_start saves id name trackers webseeds opts)
  | SRegistered k => run (registered now unix k)
  | SMetaStart saves torrent cache resumed opts => run (add_meta_start saves torrent cache resumed opts)
  | SPromote k saves torrent cache resumed => run (promote k saves torrent cache resumed)
  | SMetaOpened k d => run (meta_opened now unix k d)
  | SMetaInstalled k dht d => run (meta_installed it ip ipp now unix k dht d)
  | SAddingFailed k message => run (adding_failed k message)
  | SPieceWritten id => run (on_piece_written it ip ipp now unix id)
  | SEnv id d peers uploaded =>
      run (mod_torrent id (fun t => set_t_downloaded d (t_control (fun c => set_c_uploaded uploaded (set_c_peers peers c)) t)))
  end.

Inductive ses_run : Session -> list (World * ses_op) -> Session -> Prop :=
| SRunNil s : ses_run s [] s
| SRunCons s w op ops s' :
    HashOrder (wl_torrents w) -> HashOrder (wl_pending w) ->
    ses_run (ses_exec w op s) ops s' -> ses_run s ((w, op) :: ops) s'.

(** ** Predicates on every torrent that operations keep *)

Definition more (a b : gmap bytes Category) : Prop := forall name, is_Some (a !! name) -> is_Some (b !! name).
Definition known (a : gmap bytes Category) (category : bytes) : Prop := category = [] \/ is_Some (a !! category).

(** Only the state, what the tasks are told and the category matter. *)
Definition same_core (c c' : Controls) : Prop :=
  c_state c' = c_state c /\ c_transfer c' = c_transfer c /\ c_category c' = c_category c.

Definition holds (Qt Qp : gmap bytes Category -> bytes -> Controls -> Prop) (Qk : gmap bytes Category -> Task -> Prop) (s : Session) : Prop :=
  (forall i t, ses_torrents s !! i = Some t -> Qt (ses_categories s) i (t_controls t)) /\
  (forall i p, ses_pending s !! i = Some p -> Qp (ses_categories s) i (p_controls p)) /\
  (forall task, task ∈ ses_tasks s -> Qk (ses_categories s) task).

Definition task_id (task : Task) : bytes :=
  match task with
  | Relocating id _ _ | Rechecking id _ | Registering id _ _ _ _ _ _ | Fetching id _ => id
  | Opening a _ => t_info_hash (ad_torrent a)
  | Listening p _ => t_info_hash (ad_torrent (pr_addition p))
  end.

(** The category that a task gives the torrent it adds. *)
Definition task_category (task : Task) : option bytes :=
  match task with
  | Registering _ _ _ _ _ opts _ => Some (ao_category opts)
  | Opening a _ => Some (ad_category a)
  | Listening p _ => Some (c_category (pr_controls p))
  | _ => None
  end.

Definition in_sync (c : Controls) : Prop := c_transfer c = transfer_of (c_state c).

(** What stays as it is: the options, and which torrents are known and have tasks,
    apart from the allowed ones. *)
Record frame (allowed : bytes -> Prop) (s s' : Session) : Prop := {
  fr_torrents : forall i, allowed i \/ (is_Some (ses_torrents s !! i) <-> is_Some (ses_torrents s' !! i));
  fr_tasks : forall task, task ∈ ses_tasks s' -> (exists task', task' ∈ ses_tasks s /\ task_id task' = task_id task) \/ allowed (task_id task);
  fr_options : ses_options s' = ses_options s }.

(** A property of the controls of a torrent, one of those of a pending torrent, one of
    waiting tasks, one of categories, the states an operation may set, the torrents it
    may add, remove or start a task for, and a condition on the rest of the session,
    such that the parts of the operations keep them. *)
Class Kept (Qt Qp : gmap bytes Category -> bytes -> Controls -> Prop) (Qk : gmap bytes Category -> Task -> Prop)
    (Qc : gmap bytes Category -> bytes -> Prop) (may_set : bytes -> TorrentState -> Prop)
    (allowed : bytes -> Prop) (R : Session -> Prop) : Prop := {
  Qt_more : forall a b i c, more a b -> Qt a i c -> Qt b i c;
  Qp_more : forall a b i c, more a b -> Qp a i c -> Qp b i c;
  Qk_more : forall a b task, more a b -> Qk a task -> Qk b task;
  Qt_set : forall a i state c, may_set i state -> Qt a i c -> Qt a i (set_state_controls state c);
  Qp_set : forall a i state c, Qp a i c -> Qp a i (set_state_controls state c);
  Qp_start : forall a i state c, Qp a i c -> Qp a i (start_controls state c);
  R_frame : forall s s', frame allowed s s' -> R s -> R s';
  queue_may : forall now unix s order a, holds Qt Qp Qk s -> R s -> a ∈ assignments now unix s order 0 0 -> may_set (fst a) (snd a);
  Qt_core : forall a i c c', same_core c c' -> Qt a i c -> Qt a i c';
  Qp_core : forall a i c c', same_core c c' -> Qp a i c -> Qp a i c';
  pause_may : forall i, may_set i StPaused;
  Qt_seeding : forall a i c, c_state c = StDownloading -> Qt a i c -> Qt a i (set_c_state StSeeding c);
  content_may : forall s i t, holds Qt Qp Qk s -> R s -> ses_torrents s !! i = Some t ->
  c_state (t_controls t) <> StPaused -> c_state (t_controls t) <> StChecking -> forall state, may_set i state;
  Qc_known : forall a v, known a v -> Qc a v;
  Qc_more : forall a b v, more a b -> Qc a v -> Qc b v;
  Qt_category : forall a i c v, known a v -> Qt a i c -> Qt a i (set_category_of v c);
  Qp_category : forall a i c v, known a v -> Qp a i c -> Qp a i (set_category_of v c);
  Qt_forget : forall a i c name, Qt a i c -> Qt (delete name a) i (clear_category name c);
  Qp_forget : forall a i c name, Qp a i c -> Qp (delete name a) i (clear_category name c);
  allowed_may : forall i state, allowed i -> may_set i state;
  task_allowed : forall s task, R s -> task ∈ ses_tasks s -> allowed (task_id task);
  move_ok : forall s i, R s -> so_completed_dir (ses_options s) = [] \/ allowed i;
  new_allowed : forall s i, R s -> ses_torrents s !! i = None -> allowed i;
  Qk_moving : forall a i previous out, Qk a (Relocating i previous out);
  Qk_checking : forall a i stay, Qk a (Rechecking i stay);
  Qk_fetching : forall a i removed, Qk a (Fetching i removed);
  Qk_registering : forall a id name trackers webseeds dir opts fetch,
    Qc a (ao_category opts) <-> Qk a (Registering id name trackers webseeds dir opts fetch);
  Qk_opening : forall a ad removed, Qc a (ad_category ad) <-> Qk a (Opening ad removed);
  Qk_listening : forall a pr, in_sync (pr_controls pr) -> Qc a (c_category (pr_controls pr)) -> Qk a (Listening pr None);
  Qk_listening_old : forall a pr p, in_sync (pr_controls pr) -> Qc a (c_category (pr_controls pr)) ->
    Qk a (Listening pr (Some (p_control (start_controls (pr_initial pr)) p)));
  Qk_orphan : forall a i p task, Qp a i (p_controls p) -> Qk a task -> Qk a (orphan_task i p task);
  Qt_fresh : forall a i pr removed, allowed i -> Qk a (Listening pr removed) -> Qt a i (pr_controls pr);
  Qt_shared_old : forall a i pr p, allowed i -> Qk a (Listening pr (Some p)) -> Qt a i (share_controls (p_controls p) (pr_controls pr));
  Qt_shared : forall a i pr p, allowed i -> Qk a (Listening pr None) -> Qp a i (p_controls p) -> Qt a i (share_controls (p_controls p) (pr_controls pr));
  Qp_new : forall a i c, in_sync c -> Qc a (c_category c) -> Qp a i c;
  Qp_error : forall a i c m, Qp a i c -> Qp a i (set_c_state (StError m) c) }.

Section Keeps.
Context {Qt Qp : gmap bytes Category -> bytes -> Controls -> Prop} {Qk : gmap bytes Category -> Task -> Prop}.
Context {Qc : gmap bytes Category -> bytes -> Prop} {may_set : bytes -> TorrentState -> Prop}.
Context {allowed : bytes -> Prop} {R : Session -> Prop} `{K : !Kept Qt Qp Qk Qc may_set allowed R}.

Abbreviation holds := (holds Qt Qp Qk).
Abbreviation frame := (frame allowed).

Lemma frame_same s s' :
  (forall i, is_Some (ses_torrents s !! i) <-> is_Some (ses_torrents s' !! i)) -> ses_tasks s' = ses_tasks s ->
  ses_options s' = ses_options s -> frame s s'.
Proof. intros H1 H2 H3. split; [by right|rewrite H2; left; eauto|done]. Qed.
Lemma frame_refl s : frame s s.
Proof. by apply frame_same. Qed.
Lemma frame_trans a b c : frame a b -> frame b c -> frame a c.
Proof.
  intros [H1 H2 H3] [H4 H5 H6]. split; [|intros task|congruence].
  - intros i. destruct (H1 i), (H4 i); [by left..|right]. etransitivity; done.
  - intros [(task' & Hin & <-)|]%H5; [by apply H2|by right].
Qed.

Definition keeps_at {A} (m : SM A) (s : Session) : Prop := holds s -> R s -> holds (after m s) /\ frame s (after m s).
Definition keeps {A} (m : SM A) : Prop := forall s, keeps_at m s.

Lemma keeps_bind_at {A B} (m : SM A) (k : A -> SM B) s : keeps_at m s -> (forall a, keeps (k a)) -> keeps_at (sbind m k) s.
Proof.
  intros Hm Hk Hs Hr. rewrite after_bind. destruct (Hm Hs Hr) as [H1 F1].
  destruct (Hk (fst (fst (m s))) (after m s) H1 (R_frame _ _ F1 Hr)) as [H2 F2]. split; [done|]. by eapply frame_trans.
Qed.
Lemma kept_bind {A B} (m : SM A) (k : A -> SM B) : keeps m -> (forall a, keeps (k a)) -> keeps (sbind m k).
Proof. intros Hm Hk s. by apply keeps_bind_at. Qed.
Lemma kept_get {B} (k : Session -> SM B) : (forall s, holds s -> R s -> keeps_at (k s) s) -> keeps (sbind sget k).
Proof. intros Hk s Hs Hr. rewrite after_bind. by apply Hk. Qed.
Lemma keeps_same {A} (m : SM A) : (forall s, after m s = s) -> keeps m.
Proof. intros H s Hs _. rewrite H. by split; [|apply frame_refl]. Qed.
Lemma kept_ret {A} (a : A) : keeps (sret a).
Proof. by apply keeps_same. Qed.
Lemma keeps_eff e : keeps (seff e).
Proof. by apply keeps_same. Qed.
Lemma keeps_dht e : keeps (to_dht e).
Proof. by apply keeps_same. Qed.
Lemma keeps_disk e : keeps (to_disk e).
Proof. by apply keeps_same. Qed.
Lemma keeps_dht_sync i : keeps (dht_sync i).
Proof. apply keeps_same. intros s. apply after_dht_sync. Qed.
Lemma keeps_for {A} (l : list A) (f : A -> SM ()) : (forall x, x ∈ l -> keeps (f x)) -> keeps (sfor l f).
Proof.
  induction l as [|x l IH]; intros H; [apply kept_ret|]. cbn. apply kept_bind; [apply H; left|]. intros _. apply IH. intros y Hy. apply H. by right.
Qed.

Lemma keeps_mod_torrent_at i f s :
  (forall t, Qt (ses_categories s) i (t_controls t) -> Qt (ses_categories s) i (t_controls (f t))) -> keeps_at (mod_torrent i f) s.
Proof.
  intros Hf (Ht & Hp & Hk) _. split; [split; [|done]|apply frame_same; [|done..]]; cbn.
  - intros j t. rewrite lookup_alter_Some. intros [(<- & u & Hu & ->)|[Hne Hj]]; [apply Hf|]; by apply Ht.
  - intros j. rewrite lookup_alter_is_Some. done.
Qed.
Lemma keeps_mod_pending_at i f s :
  (forall p, Qp (ses_categories s) i (p_controls p) -> Qp (ses_categories s) i (p_controls (f p))) -> keeps_at (mod_pending i f) s.
Proof.
  intros Hf (Ht & Hp & Hk) _. split; [split; [done|split; [|done]]|by apply frame_same]; cbn.
  intros j t. rewrite lookup_alter_Some. intros [(<- & u & Hu & ->)|[Hne Hj]]; [apply Hf|]; by apply Hp.
Qed.
Lemma keeps_mod_torrent i f :
  (forall a t, Qt a i (t_controls t) -> Qt a i (t_controls (f t))) -> keeps (mod_torrent i f).
Proof. intros Hf s. apply keeps_mod_torrent_at. intros t. apply Hf. Qed.
Lemma keeps_mod_pending i f :
  (forall a p, Qp a i (p_controls p) -> Qp a i (p_controls (f p))) -> keeps (mod_pending i f).
Proof. intros Hf s. apply keeps_mod_pending_at. intros p. apply Hf. Qed.
Lemma keeps_torrent_control i f :
  (forall a c, Qt a i c -> Qt a i (f c)) -> keeps (mod_torrent i (t_control f)).
Proof. intros H. apply keeps_mod_torrent. intros a t. apply H. Qed.
Lemma keeps_pending_control i f :
  (forall a c, Qp a i c -> Qp a i (f c)) -> keeps (mod_pending i (p_control f)).
Proof. intros H. apply keeps_mod_pending. intros a t. apply H. Qed.
Lemma keeps_smod f :
  (forall s, ses_torrents (f s) = ses_torrents s /\ ses_pending (f s) = ses_pending s /\ more (ses_categories s) (ses_categories (f s)) /\
             ses_tasks (f s) = ses_tasks s /\ ses_options (f s) = ses_options s) -> keeps (smod f).
Proof.
  intros Hf s (Ht & Hp & Hk) _. destruct (Hf s) as (H1 & H2 & H3 & H4 & H5). unfold after, smod. cbn. split; [split; [|split]|apply frame_same; [|done..]].
  - intros i t. rewrite H1. intros Hi. by eapply Qt_more, Ht.
  - intros i p. rewrite H2. intros Hi. by eapply Qp_more, Hp.
  - intros task. rewrite H4. intros Hi. by eapply Qk_more, Hk.
  - intros i. by rewrite H1.
Qed.

Lemma keeps_set_torrent_state ipp i state : may_set i state -> keeps (set_torrent_state ipp i state).
Proof.
  intros Hm s Hs. rewrite after_set_state. apply (keeps_torrent_control i (set_state_controls state)); [|exact Hs]. intros a c. by apply Qt_set.
Qed.
Lemma keeps_set_pending_state ipp i state : keeps (set_pending_state ipp i state).
Proof.
  intros s Hs. rewrite after_set_pending_state. apply (keeps_pending_control i (set_state_controls state)); [|exact Hs]. intros a c. by apply Qp_set.
Qed.

(** The queue sets no state it may not. *)

Lemma keeps_evaluate it ip ipp now unix : keeps (evaluate_queue it ip ipp now unix).
Proof.
  unfold evaluate_queue. apply kept_get. intros s Hs Hr. destruct (ses_restoring s); [apply kept_ret|].
  apply keeps_for. intros [i state] Hin. apply queue_may in Hin; [|done..]. unfold apply_assignment. apply kept_get. intros s1 _ _.
  destruct (ses_torrents s1 !! i); (apply kept_bind; [|intros _; apply keeps_dht_sync]);
    [by apply keeps_set_torrent_state|apply keeps_set_pending_state].
Qed.

Lemma keeps_t_core i f : (forall t, same_core (t_controls t) (t_controls (f t))) -> keeps (mod_torrent i f).
Proof. intros H. apply keeps_mod_torrent. intros a t. by apply Qt_core. Qed.
Lemma keeps_p_core i f : (forall p, same_core (p_controls p) (p_controls (f p))) -> keeps (mod_pending i f).
Proof. intros H. apply keeps_mod_pending. intros a p. by apply Qp_core. Qed.

Ltac keeps_step :=
  match goal with
  | |- keeps_at ?m ?s => refine ((_ : keeps m) s)
  | |- keeps (sbind sget _) => apply kept_get; intros ? ? ?
  | |- keeps (sbind _ _) => apply kept_bind; [|intros ?]
  | |- keeps (sret _) => apply kept_ret
  | |- keeps sok => apply kept_ret
  | |- keeps (serr _) => apply kept_ret
  | |- keeps (seff _) => apply keeps_eff
  | |- keeps (emit _) => apply keeps_eff
  | |- keeps (to_dht _) => apply keeps_dht
  | |- keeps (to_disk _) => apply keeps_disk
  | |- keeps (dht_sync _) => apply keeps_dht_sync
  | |- keeps (set_pending_state _ _ _) => apply keeps_set_pending_state
  | |- keeps (apply_pending_pause _ _) => apply keeps_set_pending_state
  | |- keeps (apply_pending_resume _ _) => apply keeps_set_pending_state
  | |- keeps (apply_pause _ _) => apply keeps_set_torrent_state, pause_may
  | |- keeps (set_torrent_state _ _ _) => apply keeps_set_torrent_state
  | |- keeps (evaluate_queue _ _ _ _ _) => apply keeps_evaluate
  | |- keeps (mod_torrent _ _) => apply keeps_t_core; intros ?; try done
  | |- keeps (mod_pending _ _) => apply keeps_p_core; intros ?; try done
  | |- keeps (smod _) => apply keeps_smod; intros ?; split_and!; try done; try (by intros ? ?)
  | |- keeps (sfor _ _) => apply keeps_for; intros ? ?
  | |- keeps (match ?x with _ => _ end) => destruct x eqn:?
  end.
Ltac keeps_auto := repeat keeps_step.

Lemma keeps_pause it ip ipp now unix i : keeps (pause it ip ipp now unix i).
Proof. unfold pause. keeps_auto. Qed.
Lemma keeps_pause_all it ip ipp : keeps (pause_all it ip ipp).
Proof. unfold pause_all. keeps_auto. Qed.

Lemma keeps_apply_resume ipp i : (forall d, may_set i (active_state d)) -> keeps (apply_resume ipp i).
Proof. intros Hm. unfold apply_resume. keeps_auto. apply Hm. Qed.
Lemma keeps_resume it ip ipp now unix i : (forall d, may_set i (active_state d)) -> keeps (resume it ip ipp now unix i).
Proof. intros Hm. unfold resume. keeps_auto; by apply keeps_apply_resume. Qed.
Lemma keeps_resume_all it ip ipp now unix : (forall i d, may_set i (active_state d)) -> keeps (resume_all it ip ipp now unix).
Proof. intros Hm. unfold resume_all. keeps_auto; by apply keeps_apply_resume. Qed.
Lemma keeps_force_start it ip ipp now unix i enabled :
  (enabled = true -> forall d, may_set i (active_state d)) -> keeps (set_force_start it ip ipp now unix i enabled).
Proof. intros Hm. unfold set_force_start. destruct enabled; keeps_auto. apply keeps_apply_resume. by apply Hm. Qed.

Lemma keeps_queue_order ids : keeps (apply_queue_order ids).
Proof. unfold apply_queue_order. keeps_auto. Qed.
Lemma keeps_queue_position it ip ipp now unix i pos : keeps (set_queue_position it ip ipp now unix i pos).
Proof. unfold set_queue_position. keeps_auto. apply keeps_queue_order. Qed.

Lemma keeps_share_limits i ratio time : keeps (set_share_limits i ratio time).
Proof. unfold set_share_limits. keeps_auto. Qed.
Lemma keeps_rate_limits d u : keeps (set_rate_limits d u).
Proof. unfold set_rate_limits. keeps_auto. Qed.
Lemma keeps_alt_limits d u : keeps (set_alt_limits d u).
Proof. unfold set_alt_limits. keeps_auto. Qed.
Lemma keeps_alt_mode on : keeps (session_set_alt_mode on).
Proof. unfold session_set_alt_mode. keeps_auto. Qed.
Lemma keeps_torrent_rate_limits i d u : keeps (set_torrent_rate_limits i d u).
Proof. unfold set_torrent_rate_limits. keeps_auto. Qed.
Lemma keeps_sequential i seq : keeps (session_set_sequential i seq).
Proof. unfold session_set_sequential. keeps_auto. Qed.
Lemma keeps_tags i f : keeps (with_tags i f).
Proof. unfold with_tags. keeps_auto. Qed.

(** *** Completion, priorities and the tick *)

Lemma completed_core unix t : same_core (t_controls t) (t_controls (snd (note_completed unix t))).
Proof. unfold note_completed. by destruct (t_completed_at t). Qed.

Lemma keeps_content_change it ip ipp now unix i : keeps (after_content_change it ip ipp now unix i).
Proof.
  unfold after_content_change. apply kept_get. intros s Hs Hr. destruct (ses_torrents s !! i) as [t|] eqn:Et; [|apply kept_ret].
  assert (Hset : keeps (if negb (bool_decide (c_state (t_controls t) = StPaused)) && negb (bool_decide (c_state (t_controls t) = StChecking))
       then set_torrent_state ipp i (active_state (t_downloaded t)) else sret ())).
  { repeat case_bool_decide; cbn; try apply kept_ret. apply keeps_set_torrent_state. by eapply content_may. }
  apply kept_bind; [exact Hset|intros _]. keeps_auto. apply completed_core.
Qed.

Lemma keeps_selection it ip ipp now unix i t r : keeps (install_selection it ip ipp now unix i t r).
Proof.
  unfold install_selection. destruct r as [cancels d]. destruct (send_priority_cancels _ _ _) as [out ps]. keeps_auto. apply keeps_content_change.
Qed.
Lemma keeps_file_priority it ip ipp now unix i index prio : keeps (session_set_file_priority it ip ipp now unix i index prio).
Proof. unfold session_set_file_priority. keeps_auto. apply keeps_selection. Qed.
Lemma keeps_file_priorities it ip ipp now unix i prios : keeps (session_set_file_priorities it ip ipp now unix i prios).
Proof. unfold session_set_file_priorities. keeps_auto. apply keeps_selection. Qed.

Lemma keeps_tick_torrent unix i : keeps (tick_torrent unix i).
Proof.
  unfold tick_torrent. apply kept_bind; [keeps_auto|intros _]. apply kept_get. intros s _ _. destruct (ses_torrents s !! i) as [t|]; [|apply kept_ret].
  refine ((_ : keeps _) s). apply kept_bind; [|intros _; keeps_auto].
  destruct (_ && _); [|apply kept_ret]. apply kept_bind; [|intros _; keeps_auto].
  apply keeps_mod_torrent. intros a u Hu. unfold complete_quietly. pose proof (completed_core unix u) as Hc.
  destruct (decide _) as [Hd|]; [apply Qt_seeding; [done|]|]; by eapply Qt_core.
Qed.

Lemma kept_tick it ip ipp now unix : keeps (tick it ip ipp now unix).
Proof.
  unfold tick, tick_session. keeps_auto; try apply keeps_tick_torrent; try apply keeps_pause.
  unfold tick_pending. keeps_auto.
Qed.

(** *** Categories *)

Lemma more_insert (a : gmap bytes Category) name v : more a (<[name := v]> a).
Proof. intros x Hx. destruct (decide (name = x)) as [->|]; [rewrite lookup_insert_eq; by eexists|by rewrite lookup_insert_ne]. Qed.

Lemma kept_persist saves : keeps (persist_categories saves).
Proof. unfold persist_categories. keeps_auto. Qed.
Lemma keeps_ensure saves name : keeps (ensure_category saves name).
Proof. unfold ensure_category. keeps_auto; first [apply kept_persist|apply more_insert]. Qed.
Lemma keeps_create saves name path : keeps (create_category saves name path).
Proof. unfold create_category. keeps_auto; first [apply kept_persist|apply more_insert]. Qed.
Lemma keeps_edit saves name path : keeps (edit_category saves name path).
Proof. unfold edit_category. keeps_auto; first [apply kept_persist|apply more_insert]. Qed.

Lemma persist_after saves s : after (persist_categories saves) s = s.
Proof. unfold persist_categories. rewrite after_bind. cbn. by destruct (so_state_dir _), saves. Qed.
Lemma ensure_known saves name s : known (ses_categories (after (ensure_category saves name) s)) name.
Proof.
  unfold ensure_category. rewrite after_bind. cbn. destruct name as [|b name]; [by left|].
  destruct (ses_categories s !! (b :: name)) as [cat|] eqn:Ec; [right; cbn; by rewrite Ec|].
  rewrite after_bind, persist_after. right. cbn. rewrite lookup_insert_eq. by eexists.
Qed.

Lemma keeps_set_category saves i category : keeps (set_category saves i category).
Proof.
  intros s Hs Hr. unfold set_category. rewrite after_bind.
  set (m := match category with [] => sok | _ => ensure_category saves category end).
  assert (Hm : keeps m) by (unfold m; destruct category; [apply kept_ret|apply keeps_ensure]).
  assert (Hk : known (ses_categories (after m s)) category) by (unfold m; destruct category; [by left|apply ensure_known]).
  destruct (Hm s Hs Hr) as [H1 F1]. pose proof (R_frame _ _ F1 Hr) as R1. destruct (fst (fst (m s))) as [_u|e]; [|by cbn].
  set (s1 := after m s) in *. clearbody s1. rewrite after_bind.
  assert (Hgo : keeps_at (match ses_torrents s1 !! i, ses_pending s1 !! i with
      | None, Some _ => mod_pending i (p_control (set_category_of category)) ;; sok
      | None, None => serr (NotFound i)
      | Some _, _ => mod_torrent i (t_control (set_category_of category)) ;; to_disk (Flush i) ;; sok end) s1).
  { destruct (ses_torrents s1 !! i); [|destruct (ses_pending s1 !! i); [|apply kept_ret]]; (apply keeps_bind_at; [|intros _; keeps_auto]).
    - apply keeps_mod_torrent_at. intros ?. by apply Qt_category.
    - apply keeps_mod_pending_at. intros ?. by apply Qp_category. }
  destruct (Hgo H1 R1) as [Hh Hf]. split; [exact Hh|]. by eapply frame_trans.
Qed.

(** Removing a category clears it everywhere first; what is left does not name it. *)

Definition sweep_t (name : bytes) (s : Session) (e : bytes * TorrentSession) : Session :=
  set_torrents (alter (t_control (clear_category name)) (fst e) (ses_torrents s)) s.
Definition sweep_p (name : bytes) (s : Session) (e : bytes * PendingTorrent) : Session :=
  set_pending (alter (p_control (clear_category name)) (fst e) (ses_pending s)) s.

Lemma clear_idem name c : clear_category name (clear_category name c) = clear_category name c.
Proof.
  unfold clear_category. destruct (decide (c_category c = name)) as [E|E]; [|by rewrite decide_False].
  destruct (decide _); [|done]. by destruct c.
Qed.

Lemma sweep_torrents name l s i :
  ses_torrents (fold_left (sweep_t name) l s) !! i =
  (if decide (i ∈ map fst l) then t_control (clear_category name) else fun t => t) <$> ses_torrents s !! i.
Proof.
  revert s. induction l as [|e l IH]; intros s; cbn [fold_left map].
  { rewrite decide_False by apply not_elem_of_nil. by destruct (_ !! i). }
  rewrite IH. unfold sweep_t. cbn. destruct (decide (i = fst e)) as [->|Hne].
  - rewrite lookup_alter_eq, (decide_True (P := fst e ∈ fst e :: _)) by left. destruct (_ !! _) as [t|]; [|done]. cbn. f_equal.
    destruct (decide _); [|done]. destruct t as [c d tt at_ cp]. unfold t_control. cbn. by rewrite clear_idem.
  - rewrite lookup_alter_ne by done. destruct (decide (i ∈ map fst l)) as [Hi|Hi]; [by rewrite decide_True by (by right)|].
    rewrite decide_False; [done|]. by intros [|]%elem_of_cons.
Qed.
Lemma sweep_pending name l s i :
  ses_pending (fold_left (sweep_p name) l s) !! i =
  (if decide (i ∈ map fst l) then p_control (clear_category name) else fun t => t) <$> ses_pending s !! i.
Proof.
  revert s. induction l as [|e l IH]; intros s; cbn [fold_left map].
  { rewrite decide_False by apply not_elem_of_nil. by destruct (_ !! i). }
  rewrite IH. unfold sweep_p. cbn. destruct (decide (i = fst e)) as [->|Hne].
  - rewrite lookup_alter_eq, (decide_True (P := fst e ∈ fst e :: _)) by left. destruct (_ !! _) as [t|]; [|done]. cbn. f_equal.
    destruct (decide _); [|done]. destruct t. unfold p_control. cbn. by rewrite clear_idem.
  - rewrite lookup_alter_ne by done. destruct (decide (i ∈ map fst l)) as [Hi|Hi]; [by rewrite decide_True by (by right)|].
    rewrite decide_False; [done|]. by intros [|]%elem_of_cons.
Qed.

Lemma iter_keys {V} (iter : gmap bytes V -> list (bytes * V)) `{!HashOrder iter} (m : gmap bytes V) i x :
  m !! i = Some x -> i ∈ map fst (iter m).
Proof. intros Hi. rewrite (iter_perm m). apply list_elem_of_fmap. exists (i, x). split; [done|]. by apply elem_of_map_to_list. Qed.

Lemma fold_field {A B} (f : Session -> A -> Session) (g : Session -> B) l s :
  (forall s x, g (f s x) = g s) -> g (fold_left f l s) = g s.
Proof. intros H. revert s. induction l as [|x l IH]; intros s; [done|]. cbn. by rewrite IH. Qed.

Lemma remove_category_after it ip `{!HashOrder it} `{!HashOrder ip} saves name s :
  is_Some (ses_categories s !! name) ->
  let s' := after (remove_category it ip saves name) s in
  (forall i, ses_torrents s' !! i = t_control (clear_category name) <$> ses_torrents s !! i) /\
  (forall i, ses_pending s' !! i = p_control (clear_category name) <$> ses_pending s !! i) /\
  ses_categories s' = delete name (ses_categories s) /\ ses_tasks s' = ses_tasks s /\ ses_options s' = ses_options s.
Proof.
  intros [cat Hcat] s'. set (s0 := set_categories (delete name (ses_categories s)) s).
  assert (Heq : s' = fold_left (sweep_p name) (ip (ses_pending s)) (fold_left (sweep_t name) (it (ses_torrents s)) s0)).
  { unfold s', remove_category. rewrite after_bind. cbn [sget fst]. change (after sget s) with s. rewrite Hcat, !after_bind, persist_after.
    rewrite (after_for (sweep_p name)) by done. f_equal. apply after_for. intros e s1. rewrite after_bind. by destruct (decide _). }
  rewrite Heq. split; [|split].
  - intros i. rewrite (fold_field (sweep_p name) ses_torrents) by done. rewrite sweep_torrents. cbn.
    destruct (ses_torrents s !! i) as [t|] eqn:Et; [|done]. by rewrite decide_True by (by eapply iter_keys).
  - intros i. rewrite sweep_pending, (fold_field (sweep_t name) ses_pending) by done. cbn.
    destruct (ses_pending s !! i) as [p|] eqn:Ep; [|done]. by rewrite decide_True by (by eapply iter_keys).
  - split_and!.
    + rewrite (fold_field (sweep_p name) ses_categories), (fold_field (sweep_t name) ses_categories) by done. done.
    + rewrite (fold_field (sweep_p name) ses_tasks), (fold_field (sweep_t name) ses_tasks) by done. done.
    + rewrite (fold_field (sweep_p name) ses_options), (fold_field (sweep_t name) ses_options) by done. done.
Qed.

Lemma keeps_remove_category it ip `{!HashOrder it} `{!HashOrder ip} saves name s :
  (forall task, task ∈ ses_tasks s -> Qk (ses_categories s) task -> Qk (delete name (ses_categories s)) task) ->
  keeps_at (remove_category it ip saves name) s.
Proof.
  intros Hfree Hs Hr. destruct (ses_categories s !! name) as [cat|] eqn:Ec.
  - destruct (remove_category_after it ip saves name s ltac:(by eexists)) as (Ht & Hp & Hc & Hk & Ho). destruct Hs as (Qs & Qps & Qks).
    split; [split; [|split]|apply frame_same; [|done..]].
    + intros i t. rewrite Ht, Hc. destruct (ses_torrents s !! i) as [u|] eqn:Eu; [|done]. intros [= <-]. cbn. by apply Qt_forget, Qs.
    + intros i t. rewrite Hp, Hc. destruct (ses_pending s !! i) as [u|] eqn:Eu; [|done]. intros [= <-]. cbn. by apply Qp_forget, Qps.
    + intros task. rewrite Hk, Hc. intros Hin. apply Hfree; [done|by apply Qks].
    + intros i. rewrite Ht. by rewrite fmap_is_Some.
  - unfold remove_category. rewrite after_bind. cbn [sget fst]. change (after sget s) with s. rewrite Ec. by split; [|apply frame_refl].
Qed.

(** *** Tasks *)

Lemma keeps_tasks f s :
  (forall task, holds s -> R s -> task ∈ f (ses_tasks s) ->
     ((exists task', task' ∈ ses_tasks s /\ task_id task' = task_id task) \/ allowed (task_id task)) /\ Qk (ses_categories s) task) ->
  keeps_at (smod (fun s => set_tasks (f (ses_tasks s)) s)) s.
Proof.
  intros Hf Hs Hr. pose proof Hs as (Ht & Hp & Hk). split; [split; [done|split; [done|]]|]; cbn.
  - intros task Hin. by apply Hf.
  - split; cbn; [by right|intros task Hin; by apply Hf|done].
Qed.

Lemma keeps_add_task_at task s : allowed (task_id task) -> Qk (ses_categories s) task -> keeps_at (add_task task) s.
Proof.
  intros Ha Hq. apply (keeps_tasks (fun l => l ++ [task])). intros x (_ & _ & Hk) _ [Hx| ->%list_elem_of_singleton]%elem_of_app.
  - split; [left; by exists x|by apply Hk].
  - split; [by right|done].
Qed.
Lemma keeps_add_task task : allowed (task_id task) -> (forall a, Qk a task) -> keeps (add_task task).
Proof. intros Ha Hq s. by apply keeps_add_task_at. Qed.

Lemma keeps_relocate_start ipp i out : allowed i -> keeps (relocate_start ipp i out).
Proof.
  intros Ha. unfold relocate_start. apply kept_get. intros s _ _. destruct (ses_torrents s !! i); [|apply kept_ret].
  apply kept_bind; [by apply keeps_set_torrent_state, allowed_may|]. intros _. apply keeps_add_task; [done|]. intros ?. apply Qk_moving.
Qed.
Lemma keeps_move_on_complete ipp i : keeps (maybe_move_on_complete ipp i).
Proof.
  unfold maybe_move_on_complete. apply kept_get. intros s Hs Hr. destruct (ses_torrents s !! i) as [t|]; [|apply kept_ret].
  destruct (negb _); [apply kept_ret|]. destruct (so_completed_dir (ses_options s)) as [|b dir] eqn:Ed; [apply kept_ret|].
  destruct (decide _); [apply kept_ret|]. destruct (move_ok s i Hr) as [He|Ha]; [congruence|]. by apply keeps_relocate_start.
Qed.
Lemma keeps_save_path ipp i path move : (move = true -> allowed i) -> keeps (set_save_path ipp i path move).
Proof. intros Ha. unfold set_save_path. destruct move; cbn [negb]; keeps_auto. by apply keeps_relocate_start, Ha. Qed.
Lemma keeps_recheck_start ipp i : allowed i -> keeps (recheck_start ipp i).
Proof.
  intros Ha. unfold recheck_start. apply kept_get. intros s _ _. destruct (ses_torrents s !! i); [|destruct (ses_pending s !! i); apply kept_ret].
  apply kept_bind; [by apply keeps_set_torrent_state, allowed_may|intros _]. apply kept_bind; [keeps_auto|intros _].
  apply kept_bind; [apply keeps_add_task; [done|]; intros ?; apply Qk_checking|intros _; apply kept_ret].
Qed.

Lemma keeps_drop_task k : keeps (drop_task k).
Proof.
  intros s. apply (keeps_tasks (fun l => take k l ++ drop (S k) l)). intros task (_ & _ & Hk) _ Hin.
  assert (H : task ∈ ses_tasks s) by (apply elem_of_app in Hin as [Hin|Hin]; (eapply elem_of_sublist; [exact Hin|]); [apply sublist_take|apply sublist_drop]).
  split; [left; by exists task|by apply Hk].
Qed.

Lemma keeps_relocate_finish ipp i previous out moved : allowed i -> keeps (relocate_finish ipp i previous out moved).
Proof. intros Ha. unfold relocate_finish. keeps_auto; by apply allowed_may. Qed.
Lemma keeps_recheck_finish ipp unix i stay verified : allowed i -> keeps (recheck_finish ipp unix i stay verified).
Proof.
  intros Ha. unfold recheck_finish. keeps_auto; first [apply completed_core|by apply allowed_may|apply keeps_move_on_complete].
Qed.
Lemma keeps_finish_task ipp unix k moved verified : keeps (finish_task ipp unix k moved verified).
Proof.
  unfold finish_task. apply kept_get. intros s Hs Hr. destruct (ses_tasks s !! k) as [task|] eqn:Ek; [|apply kept_ret].
  apply list_elem_of_lookup_2 in Ek. pose proof (task_allowed s _ Hr Ek) as Ha. destruct task; cbn in Ha; try apply kept_ret.
  - apply kept_bind; [apply keeps_drop_task|intros _]. apply kept_bind; [by apply keeps_relocate_finish|intros ?; apply kept_ret].
  - apply kept_bind; [apply keeps_drop_task|intros _]. by apply keeps_recheck_finish.
Qed.

Lemma keeps_piece_written it ip ipp now unix i : keeps (on_piece_written it ip ipp now unix i).
Proof.
  unfold on_piece_written. apply kept_get. intros s Hs Hr. destruct (ses_torrents s !! i) as [t|] eqn:Et; [|apply kept_ret].
  assert (Hset : keeps (if decide (c_state (t_controls t) = StDownloading) then set_torrent_state ipp i StSeeding else sret ())).
  { destruct (decide _) as [Hd|]; [|apply kept_ret]. apply keeps_set_torrent_state. apply (content_may s i t Hs Hr Et); by rewrite Hd. }
  refine ((_ : keeps _) s). apply kept_bind; [|intros _; keeps_auto]. destruct (_ && _); [|apply kept_ret].
  apply kept_bind; [keeps_auto; apply completed_core|intros _]. apply kept_bind; [keeps_auto|intros _].
  apply kept_bind; [exact Hset|intros _]. keeps_auto. apply keeps_move_on_complete.
Qed.

(** *** Torrents that come and go *)

Lemma orphan_id i p task : task_id (orphan_task i p task) = task_id task.
Proof. destruct task as [| | |j [|]|ad [|]|pr [|]]; cbn; try done; [by destruct (decide (j = i))|by destruct (_ && _)..]. Qed.

Lemma keeps_forget i : keeps (forget_pending i).
Proof.
  intros s (Ht & Hp & Hk) _. unfold forget_pending, after, smod. cbn. destruct (ses_pending s !! i) as [p|] eqn:Ep; [|by split; [|apply frame_refl]].
  split; [split; [|split]|split]; cbn; [done| | |by right| |done].
  - intros j q [_ Hq]%lookup_delete_Some. by apply Hp.
  - intros task (task' & -> & Hin)%list_elem_of_fmap. apply Qk_orphan; [by apply Hp|by apply Hk].
  - intros task (task' & -> & Hin)%list_elem_of_fmap. left. exists task'. split; [done|]. by rewrite orphan_id.
Qed.
Lemma keeps_delete i : allowed i -> keeps (smod (fun s => set_torrents (delete i (ses_torrents s)) s)).
Proof.
  intros Ha s (Ht & Hp & Hk) _. split; [split; [|split]|split]; cbn; [|done|done| |left; eauto|done].
  - intros j t [_ Hj]%lookup_delete_Some. by apply Ht.
  - intros j. destruct (decide (i = j)) as [->|Hne]; [by left|right]. by rewrite lookup_delete_ne.
Qed.
Lemma keeps_remove it ip ipp now unix i del : allowed i -> keeps (remove_torrent it ip ipp now unix i del).
Proof.
  intros Ha. unfold remove_torrent. apply kept_get. intros s _ _. refine ((_ : keeps _) s). apply kept_bind; [by apply keeps_delete|intros _].
  apply kept_bind; [apply keeps_forget|intros _]. keeps_auto.
Qed.

Lemma keeps_ensure_some saves category : keeps (ensure_some saves category).
Proof. unfold ensure_some. destruct category; [apply kept_ret|]. apply kept_bind; [apply keeps_ensure|intros ?; apply kept_ret]. Qed.
Lemma ensure_some_known saves category s : known (ses_categories (after (ensure_some saves category) s)) category.
Proof. unfold ensure_some. destruct category; [by left|]. rewrite after_bind. apply ensure_known. Qed.

(** A step with what is known after its first part. *)
Lemma keeps_bind_known {A B} (P : A -> Session -> Prop) (m : SM A) (k : A -> SM B) s :
  keeps_at m s -> (holds s -> R s -> P (fst (fst (m s))) (after m s)) -> (forall a s1, P a s1 -> keeps_at (k a) s1) -> keeps_at (sbind m k) s.
Proof.
  intros Hm HP Hk Hs Hr. rewrite after_bind. destruct (Hm Hs Hr) as [H1 F1].
  destruct (Hk (fst (fst (m s))) (after m s) (HP Hs Hr) H1 (R_frame _ _ F1 Hr)) as [H2 F2]. split; [done|]. by eapply frame_trans.
Qed.
Lemma keeps_at_get {B} (k : Session -> SM B) s : keeps_at (k s) s -> keeps_at (sbind sget k) s.
Proof. intros Hk Hs Hr. rewrite after_bind. by apply Hk. Qed.

Lemma keeps_wake : keeps wake_global.
Proof. unfold wake_global. apply keeps_smod. intros s. destruct (decide _); split_and!; try done; by intros ? ?. Qed.

Lemma alloc_after s : after alloc_queue_position s = set_next_queue_pos (wrap64 (ses_next_queue_pos s + 1)) s.
Proof. done. Qed.
Lemma keeps_alloc : keeps alloc_queue_position.
Proof. intros s Hs Hr. rewrite alloc_after. split; [done|by apply frame_same]. Qed.

Lemma known_new s i : already_known s i = false -> R s -> allowed i.
Proof.
  unfold already_known. intros H Hr. apply orb_false_iff in H as [H _]. apply bool_decide_eq_false in H.
  apply (new_allowed s); [done|]. destruct (ses_torrents s !! i); [by destruct H; eexists|done].
Qed.

Lemma keeps_magnet_begin saves name opts s :
  keeps_at (magnet_begin saves name opts) s /\ Qc (ses_categories (after (magnet_begin saves name opts) s)) (ao_category opts).
Proof.
  split.
  - refine ((_ : keeps _) s). unfold magnet_begin. apply kept_bind; [apply keeps_ensure_some|intros _]. apply kept_get. intros. apply kept_ret.
  - apply Qc_known. unfold magnet_begin. rewrite !after_bind. apply ensure_some_known.
Qed.

Lemma keeps_insert_pending i p s : Qp (ses_categories s) i (p_controls p) -> keeps_at (smod (fun s => set_pending (<[i := p]> (ses_pending s)) s)) s.
Proof.
  intros Hq (Ht & Hp & Hk) _. split; [|by apply frame_same]. split; [done|]. split; [|done]. cbn.
  intros j q. rewrite lookup_insert_Some. intros [[<- <-]|[_ Hj]]; [done|by apply Hp].
Qed.

Lemma forget_categories i s : ses_categories (after (forget_pending i) s) = ses_categories s.
Proof. unfold forget_pending, after, smod. cbn. by destruct (ses_pending s !! i). Qed.

Lemma keeps_register now unix i name trackers webseeds dir opts s :
  Qc (ses_categories s) (ao_category opts) -> keeps_at (register_pending now unix i name trackers webseeds dir opts) s.
Proof.
  intros Hc. unfold register_pending. apply (keeps_bind_known (fun _ s1 => ses_categories s1 = ses_categories s)); [apply keeps_alloc|done|].
  intros position s1 E1. set (p := mkPendingTorrent _ _ _ _ _ _ _ _ _).
  apply (keeps_bind_known (fun _ s2 => ses_categories s2 = ses_categories s)); [apply keeps_forget|by rewrite forget_categories|].
  intros _ s2 E2. apply keeps_bind_at; [|intros _; apply kept_ret]. apply keeps_insert_pending. rewrite E2. by apply Qp_new.
Qed.

Lemma keeps_register_finish now unix i name trackers webseeds dir opts fetch s :
  allowed i -> Qc (ses_categories s) (ao_category opts) -> keeps_at (register_finish now unix i name trackers webseeds dir opts fetch) s.
Proof.
  intros Ha Hc. unfold register_finish. apply keeps_bind_at; [by apply keeps_register|intros p]. destruct fetch; [|apply kept_ret]. cbn [negb].
  apply kept_bind; [apply keeps_wake|intros _]. do 3 (apply kept_bind; [keeps_auto|intros _]). apply keeps_add_task; [done|]. intros ?. apply Qk_fetching.
Qed.

Lemma keeps_info_hash_start i name temp dir : keeps (add_info_hash_start i name temp dir).
Proof.
  unfold add_info_hash_start. apply kept_get. intros s Hs Hr. destruct (already_known s i) eqn:E; [apply kept_ret|].
  apply keeps_add_task; [by eapply known_new|]. intros a. apply Qk_registering, Qc_known. by left.
Qed.

Lemma keeps_magnet_start saves i name trackers webseeds opts : keeps (add_magnet_start saves i name trackers webseeds opts).
Proof.
  unfold add_magnet_start. apply kept_get. intros s Hs Hr. destruct (already_known s i) eqn:E; [apply kept_ret|].
  destruct (keeps_magnet_begin saves name opts s) as [H1 H2]. apply (keeps_bind_known (fun _ s1 => Qc (ses_categories s1) (ao_category opts))); [done|done|].
  intros dir s1 Hc. apply keeps_add_task_at; [by eapply known_new|]. by apply Qk_registering.
Qed.

Lemma keeps_add_magnet now unix saves i name trackers webseeds opts : keeps (add_magnet now unix saves i name trackers webseeds opts).
Proof.
  unfold add_magnet. apply kept_get. intros s Hs Hr. destruct (already_known s i) eqn:E; [apply kept_ret|].
  destruct (keeps_magnet_begin saves name opts s) as [H1 H2]. apply (keeps_bind_known (fun _ s1 => Qc (ses_categories s1) (ao_category opts))); [done|done|].
  intros dir s1 Hc. apply keeps_register_finish; [by eapply known_new|done].
Qed.

(** The next step of the [k]-th task. *)
Lemma keeps_go_on {A} k (task : Task) (m : SM A) s :
  ses_tasks s !! k = Some task -> (allowed (task_id task) -> Qk (ses_categories s) task -> holds s -> forall s1, ses_categories s1 = ses_categories s ->
    ses_pending s1 = ses_pending s -> keeps_at m s1) ->
  keeps_at (sbind (drop_task k) (fun _ => m)) s.
Proof.
  intros Ek Hm Hs Hr. apply list_elem_of_lookup_2 in Ek. pose proof (task_allowed s _ Hr Ek) as Ha. pose proof Hs as (_ & _ & Hk).
  revert Hs Hr. intros Hs Hr. rewrite after_bind. destruct (keeps_drop_task k s Hs Hr) as [H1 F1].
  destruct (Hm Ha (Hk _ Ek) Hs (after (drop_task k) s) eq_refl eq_refl H1 (R_frame _ _ F1 Hr)) as [H2 F2]. split; [done|]. by eapply frame_trans.
Qed.

Lemma keeps_registered now unix k : keeps (registered now unix k).
Proof.
  unfold registered. apply kept_get. intros s _ _. destruct (ses_tasks s !! k) as [[]|] eqn:Ek; try apply kept_ret.
  eapply keeps_go_on; [exact Ek|]. intros Ha Hq _ s1 E _. apply keeps_register_finish; [done|]. rewrite E. by eapply Qk_registering.
Qed.

Lemma keeps_insert_torrent i t s : allowed i -> Qt (ses_categories s) i (t_controls t) -> keeps_at (smod (fun s => set_torrents (<[i := t]> (ses_torrents s)) s)) s.
Proof.
  intros Ha Hq (Ht & Hp & Hk) _. split; [split; [|split]|split]; cbn; [|done|done| |left; eauto|done].
  - intros j u. rewrite lookup_insert_Some. intros [[<- <-]|[_ Hj]]; [done|by apply Ht].
  - intros j. destruct (decide (i = j)) as [<-|Hne]; [by left|right]. by rewrite lookup_insert_ne.
Qed.

Lemma keeps_install it ip ipp now unix dht t initial promoted paused s :
  allowed (t_info_hash (t_torrent t)) -> Qt (ses_categories s) (t_info_hash (t_torrent t)) (t_controls t) ->
  keeps_at (install_torrent it ip ipp now unix dht t initial promoted paused) s.
Proof.
  intros Ha Hq. unfold install_torrent. set (id := t_info_hash (t_torrent t)) in *.
  apply (keeps_bind_known (fun _ s1 => s1 = s)); [destruct dht; [apply keeps_dht|apply kept_ret]|by destruct dht|]. intros _ s1 ->.
  apply keeps_bind_at; [by apply keeps_insert_torrent|intros _]. keeps_auto; first [apply keeps_forget|apply keeps_wake].
Qed.

Lemma keeps_meta_begin saves torrent cache resumed opts old s :
  keeps_at (add_meta_begin saves torrent cache resumed opts old) s /\
  let a := fst (fst (add_meta_begin saves torrent cache resumed opts old s)) in
  Qc (ses_categories (after (add_meta_begin saves torrent cache resumed opts old) s)) (ad_category a) /\ ad_torrent a = torrent.
Proof.
  unfold add_meta_begin. set (category := match ao_category opts with [] => _ | _ => _ end). split.
  - refine ((_ : keeps _) s). apply kept_bind; [apply keeps_ensure_some|intros _]. apply kept_get. intros. apply kept_ret.
  - pose proof (ensure_some_known saves category s) as H. unfold sbind, after in *. destruct (ensure_some saves category s) as [[u e] s1]. cbn in *.
    split; [by apply Qc_known|done].
Qed.

Lemma keeps_meta_opened now unix a d old s :
  keeps_at (add_meta_opened now unix a d old) s /\
  let p := fst (fst (add_meta_opened now unix a d old s)) in
  pr_addition p = a /\ in_sync (pr_controls p) /\ c_category (pr_controls p) = ad_category a /\
  ses_categories (after (add_meta_opened now unix a d old) s) = ses_categories s /\
  ses_pending (after (add_meta_opened now unix a d old) s) = ses_pending s.
Proof.
  unfold add_meta_opened. split.
  - refine ((_ : keeps _) s). apply kept_get. intros s1 _ _. refine ((_ : keeps _) s1).
    apply kept_bind; [destruct (option_map p_controls old); [apply kept_ret|apply keeps_alloc]|intros ?; apply kept_ret].
  - unfold sbind, after. destruct old as [p|]; cbn; by split_and!.
Qed.

Lemma keeps_meta_install it ip ipp now unix dht p d old s :
  allowed (t_info_hash (ad_torrent (pr_addition p))) ->
  Qt (ses_categories s) (t_info_hash (ad_torrent (pr_addition p))) (match old with Some c => share_controls c (pr_controls p) | None => pr_controls p end) ->
  keeps_at (add_meta_install it ip ipp now unix dht p d old) s.
Proof. intros Ha Hq. unfold add_meta_install. by apply keeps_install. Qed.

Lemma keeps_add_meta it ip ipp now unix saves dht torrent d cache resumed opts :
  keeps (add_torrent_meta it ip ipp now unix saves dht torrent d cache resumed opts).
Proof.
  unfold add_torrent_meta. apply kept_get. intros s Hs Hr. destruct (already_known s _) eqn:E; [apply kept_ret|].
  assert (Ha : allowed (t_info_hash torrent)) by (by eapply known_new). destruct (keeps_meta_begin saves torrent cache resumed opts None s) as [H1 H2].
  apply (keeps_bind_known (fun a s1 => Qc (ses_categories s1) (ad_category a) /\ ad_torrent a = torrent)); [done|done|]. intros a s1 [Hc Ht].
  destruct (keeps_meta_opened now unix a d None s1) as [H3 H4].
  apply (keeps_bind_known (fun p s2 => pr_addition p = a /\ in_sync (pr_controls p) /\ Qc (ses_categories s2) (c_category (pr_controls p)))); [done| |].
  { intros _ _. destruct H4 as (? & ? & -> & -> & _). done. }
  intros p s2 (E1 & E2 & E3). apply keeps_meta_install; rewrite E1, Ht; [done|]. eapply Qt_fresh; [done|by apply Qk_listening].
Qed.

Lemma keeps_meta_start saves torrent cache resumed opts : keeps (add_meta_start saves torrent cache resumed opts).
Proof.
  unfold add_meta_start. apply kept_get. intros s Hs Hr. destruct (already_known s _) eqn:E; [apply kept_ret|].
  assert (Ha : allowed (t_info_hash torrent)) by (by eapply known_new). destruct (keeps_meta_begin saves torrent cache resumed opts None s) as [H1 H2].
  apply (keeps_bind_known (fun a s1 => Qc (ses_categories s1) (ad_category a) /\ ad_torrent a = torrent)); [done|done|]. intros a s1 [Hc Ht].
  apply keeps_add_task_at; [cbn; by rewrite Ht|by apply Qk_opening].
Qed.

Lemma keeps_promote k saves torrent cache resumed : keeps (promote k saves torrent cache resumed).
Proof.
  unfold promote. apply kept_get. intros s _ _. destruct (ses_tasks s !! k) as [[]|] eqn:Ek; try apply kept_ret.
  destruct (decide (id = t_info_hash torrent)) as [->|]; [|apply kept_ret].
  eapply keeps_go_on; [exact Ek|]. intros Ha _ _ s1 _ _. cbn in Ha. destruct (held_pending s _ removed) as [p|]; [|apply kept_ret].
  destruct (keeps_meta_begin saves torrent cache resumed (promote_options p) (Some (p_controls p)) s1) as [H1 H2].
  apply (keeps_bind_known (fun a s1 => Qc (ses_categories s1) (ad_category a) /\ ad_torrent a = torrent)); [done|done|]. intros a s2 [Hc Ht].
  apply keeps_add_task_at; [cbn; by rewrite Ht|by apply Qk_opening].
Qed.

Lemma keeps_meta_opened_task now unix k d : keeps (meta_opened now unix k d).
Proof.
  unfold meta_opened. apply kept_get. intros s _ _. destruct (ses_tasks s !! k) as [[]|] eqn:Ek; try apply kept_ret.
  eapply keeps_go_on; [exact Ek|]. intros Ha Hq _ s1 E1 _. cbn in Ha. apply Qk_opening in Hq. rewrite <- E1 in Hq.
  assert (Hopen : forall old (m : Prepared -> SM ()),
    (forall p s2, pr_addition p = a -> in_sync (pr_controls p) -> Qc (ses_categories s2) (c_category (pr_controls p)) -> keeps_at (m p) s2) ->
    keeps_at (sbind (add_meta_opened now unix a d old) m) s1).
  { intros old m Hm. destruct (keeps_meta_opened now unix a d old s1) as [H3 H4].
    apply (keeps_bind_known (fun p s2 => pr_addition p = a /\ in_sync (pr_controls p) /\ Qc (ses_categories s2) (c_category (pr_controls p)))); [done| |].
    { intros _ _. destruct H4 as (? & ? & -> & -> & _). done. }
    intros p s2 (? & ? & ?). by apply Hm. }
  destruct (ad_promoted a).
  - destruct (held_pending s _ removed) as [old|]; [|apply kept_ret]. apply Hopen. intros p s2 Ep Hsync Hc. destruct removed as [q|].
    + apply keeps_add_task_at; [cbn; by rewrite Ep|by apply Qk_listening_old].
    + apply (keeps_bind_known (fun _ s3 => ses_categories s3 = ses_categories s2)); [|done|].
      * apply keeps_pending_control. intros b c. apply Qp_start.
      * intros _ s3 E3. apply keeps_add_task_at; [cbn; by rewrite Ep|apply Qk_listening; [done|by rewrite E3]].
  - apply Hopen. intros p s2 Ep Hsync Hc. apply keeps_add_task_at; [cbn; by rewrite Ep|by apply Qk_listening].
Qed.

Lemma keeps_meta_installed it ip ipp now unix k dht d : keeps (meta_installed it ip ipp now unix k dht d).
Proof.
  unfold meta_installed. apply kept_get. intros s _ _. destruct (ses_tasks s !! k) as [[]|] eqn:Ek; try apply kept_ret.
  eapply keeps_go_on; [exact Ek|]. intros Ha Hq (_ & Hp & _) s1 E1 _. cbn in Ha. rewrite <- E1 in Hq. destruct (ad_promoted _).
  - unfold held_pending. destruct removed as [q|].
    + apply keeps_meta_install; [done|]. by apply Qt_shared_old.
    + destruct (ses_pending s !! _) as [old|] eqn:Eo; [|apply kept_ret]. apply keeps_meta_install; [done|]. apply Qt_shared; [done|done|].
      rewrite E1. by apply Hp.
  - apply keeps_meta_install; [done|]. by eapply Qt_fresh.
Qed.

Lemma keeps_adding_failed k message : keeps (adding_failed k message).
Proof.
  assert (Hfail : forall i removed, keeps (promote_failed i message removed)).
  { intros i removed. unfold promote_failed. apply kept_bind; [|intros _; apply keeps_eff]. destruct removed; [apply kept_ret|].
    apply keeps_pending_control. intros a c. apply Qp_error. }
  unfold adding_failed. apply kept_get. intros s _ _. refine ((_ : keeps _) s). destruct (ses_tasks s !! k) as [[]|]; try apply kept_ret.
  - apply keeps_drop_task.
  - apply kept_bind; [apply keeps_drop_task|intros _; apply Hfail].
  - apply kept_bind; [apply keeps_drop_task|intros _]. destruct (ad_promoted a); [apply Hfail|apply kept_ret].
Qed.

(** *** Every step *)

Definition op_allowed (op : ses_op) : Prop :=
  match op with
  | SResume id | SForceStart id true | SRemove id _ | SRecheck id | SSavePath id _ true => allowed id
  | SResumeAll => forall id, allowed id
  | _ => True
  end.

(** The category it removes is of no importance to a waiting task. *)
Definition op_frees (s : Session) (op : ses_op) : Prop :=
  match op with
  | SRemoveCategory _ name => forall task, task ∈ ses_tasks s -> Qk (ses_categories s) task -> Qk (delete name (ses_categories s)) task
  | _ => True
  end.

Lemma keeps_exec w op :
  HashOrder (wl_torrents w) -> HashOrder (wl_pending w) -> op_allowed op ->
  forall s, op_frees s op -> holds s -> R s -> holds (ses_exec w op s) /\ frame s (ses_exec w op s).
Proof.
  destruct w as [it ip ipp now unix]. intros Hit Hip Ho s Hf Hs Hr. cbn [wl_torrents wl_pending] in *.
  assert (Hmay : forall i, allowed i -> forall d, may_set i (active_state d)) by (intros; by apply allowed_may).
  destruct op; cbn [ses_exec op_allowed] in *; unfold run.
  - by apply keeps_pause.
  - apply keeps_resume; auto.
  - by apply keeps_pause_all.
  - apply keeps_resume_all; auto.
  - apply keeps_force_start; auto. intros ->. auto.
  - by apply keeps_queue_position.
  - by apply keeps_queue_position.
  - unfold queue_bottom. rewrite after_bind. by apply keeps_queue_position.
  - unfold queue_up. rewrite after_bind. cbn. destruct (position _ _); [by apply keeps_queue_position|by split; [|apply frame_refl]].
  - unfold queue_down. rewrite after_bind. cbn. destruct (position _ _); [by apply keeps_queue_position|by split; [|apply frame_refl]].
  - by apply keeps_share_limits.
  - by apply keeps_rate_limits.
  - by apply keeps_alt_limits.
  - by apply keeps_alt_mode.
  - by apply keeps_torrent_rate_limits.
  - by apply keeps_file_priority.
  - by apply keeps_file_priorities.
  - by apply keeps_sequential.
  - by apply keeps_create.
  - by apply keeps_edit.
  - by apply keeps_remove_category.
  - by apply keeps_set_category.
  - by apply keeps_tags.
  - by apply keeps_tags.
  - by apply keeps_tags.
  - apply keeps_save_path; auto. by intros ->.
  - by apply keeps_move_on_complete.
  - by apply keeps_recheck_start.
  - by apply keeps_finish_task.
  - by apply kept_tick.
  - by apply keeps_remove.
  - by apply keeps_info_hash_start.
  - by apply keeps_add_magnet.
  - by apply keeps_add_meta.
  - by apply keeps_magnet_start.
  - by apply keeps_registered.
  - by apply keeps_meta_start.
  - by apply keeps_promote.
  - by apply keeps_meta_opened_task.
  - by apply keeps_meta_installed.
  - by apply keeps_adding_failed.
  - by apply keeps_piece_written.
  - by apply keeps_t_core.
Qed.
End Keeps.

(** ** What a torrent shows is what happens *)

Lemma known_more a b v : more a b -> known a v -> known b v.
Proof. intros Hm [->|H]; [by left|right; by apply Hm]. Qed.
Lemma category_set state c : c_category (set_state_controls state c) = c_category c.
Proof. unfold set_state_controls. by destruct (_ || _). Qed.
Lemma known_clear a c name : known a (c_category c) -> known (delete name a) (c_category (clear_category name c)).
Proof.
  unfold clear_category. destruct (decide (c_category c = name)); [by left|]. intros [H|H]; [by left|right]. by rewrite lookup_delete_ne.
Qed.
Lemma core_clear name c : c_state (clear_category name c) = c_state c /\ c_transfer (clear_category name c) = c_transfer c.
Proof. unfold clear_category. by destruct (decide _). Qed.

(** A torrent whose metadata cannot be used is marked as failed without telling its
    tasks; a torrent that is promoted shares that with the pending one. *)
Definition synced (c : Controls) : Prop := in_sync c \/ is_Some (error_message (c_state c)).

Section Consistent.
(** Whether the categories count as well. *)
Context (strict : Prop).

Definition labelled (a : gmap bytes Category) (category : bytes) : Prop := strict -> known a category.
Definition consistent_controls (a : gmap bytes Category) (_ : bytes) (c : Controls) : Prop := synced c /\ labelled a (c_category c).
Definition consistent_task (a : gmap bytes Category) (task : Task) : Prop :=
  match task_category task with Some category => labelled a category | None => True end /\
  match task with
  | Listening p removed => in_sync (pr_controls p) /\ match removed with Some q => synced (p_controls q) | None => True end
  | _ => True
  end.
Definition consistent : Session -> Prop := holds consistent_controls consistent_controls consistent_task.

Lemma labelled_more a b v : more a b -> labelled a v -> labelled b v.
Proof. intros Hm H Hs. eapply known_more; [done|by apply H]. Qed.
Lemma synced_set state c : synced (set_state_controls state c).
Proof. left. unfold in_sync. by rewrite transfer_set, state_set. Qed.
Lemma synced_start state c : synced (start_controls state c).
Proof. left. by destruct state. Qed.
Lemma start_category state c : c_category (start_controls state c) = c_category c.
Proof. by destruct state. Qed.
Lemma synced_core c c' : c_state c' = c_state c -> c_transfer c' = c_transfer c -> synced c -> synced c'.
Proof. unfold synced, in_sync. by intros -> ->. Qed.
Lemma orphan_category i p task : task_category (orphan_task i p task) = task_category task.
Proof. destruct task as [| | |j [|]|ad [|]|pr [|]]; cbn; try done; [by destruct (decide (j = i))|by destruct (_ && _)..]. Qed.

#[export] Instance consistent_kept :
  Kept consistent_controls consistent_controls consistent_task labelled (fun _ _ => True) (fun _ => True) (fun _ => True).
Proof.
  split; unfold consistent_controls; try done; try (intros; naive_solver).
  - intros a b i c Hm [? ?]. split; [done|]. by eapply labelled_more.
  - intros a b i c Hm [? ?]. split; [done|]. by eapply labelled_more.
  - intros a b task Hm [H ?]. split; [|done]. destruct (task_category task); [by eapply labelled_more|done].
  - intros a i state c _ [_ ?]. split; [apply synced_set|by rewrite category_set].
  - intros a i state c [_ ?]. split; [apply synced_set|by rewrite category_set].
  - intros a i state c [_ ?]. split; [apply synced_start|by rewrite start_category].
  - intros a i c c' (? & ? & ->) [? ?]. split; [by eapply synced_core|done].
  - intros a i c c' (? & ? & ->) [? ?]. split; [by eapply synced_core|done].
  - intros a i c Hs [[Ht|[m Hm]] ?]; [|by rewrite Hs in Hm]. split; [|done]. left. unfold in_sync in *. cbn. by rewrite Ht, Hs.
  - intros a v ? ?. done.
  - intros a b v. apply labelled_more.
  - intros a i c v Hk [? _]. split; [done|]. by intros ?.
  - intros a i c v Hk [? _]. split; [done|]. by intros ?.
  - intros a i c name [? Hl]. destruct (core_clear name c). split; [by eapply synced_core|]. intros Hs. by apply known_clear, Hl.
  - intros a i c name [? Hl]. destruct (core_clear name c). split; [by eapply synced_core|]. intros Hs. by apply known_clear, Hl.
  - intros a id name trackers webseeds dir opts fetch. unfold consistent_task. cbn. naive_solver.
  - intros a ad removed. unfold consistent_task. cbn. naive_solver.
  - intros a pr p Hs Hc. split; [done|]. split; [done|apply synced_start].
  - intros a i p task [Hsy _] [H1 H2]. split; [by rewrite orphan_category|].
    destruct task as [| | |j [|]|ad [|]|pr [|]]; cbn in *; try done; [by destruct (decide (j = i))|by destruct (_ && _)|].
    destruct (_ && _); [|done]. cbn. by destruct H2.
  - intros a i pr removed _ [H1 [H2 _]]. split; [by left|done].
  - intros a i pr p _ [H1 [_ H2]]. by split.
  - intros a i pr p _ [H1 _] [H2 _]. by split.
  - intros a i c H1 H2. split; [by left|done].
  - intros a i c m [_ H]. split; [right; by eexists|done].
Qed.

Lemma consistent_frees s op :
  (strict -> forall saves name, op = SRemoveCategory saves name -> forall task, task ∈ ses_tasks s -> task_category task <> Some name) ->
  op_frees (Qk := consistent_task) s op.
Proof.
  intros Hc. destruct op; try done. intros task Hin [H1 H2]. split; [|done]. destruct (task_category task) as [v|] eqn:Ev; [|done].
  intros Hs. destruct (H1 Hs) as [Hv|Hv]; [by left|right]. rewrite lookup_delete_ne; [done|]. intros <-. by eapply Hc.
Qed.
End Consistent.

(** No category is removed that a torrent which is being added will be in. *)
Definition op_calm (s : Session) (op : ses_op) : Prop :=
  match op with
  | SRemoveCategory _ name => Forall (fun task => task_category task <> Some name) (ses_tasks s)
  | _ => True
  end.
Fixpoint calm (s : Session) (ops : list (World * ses_op)) : Prop :=
  match ops with
  | [] => True
  | (w, op) :: ops => op_calm s op /\ calm (ses_exec w op s) ops
  end.

Lemma consistent_run (strict : Prop) s ops s' : ses_run s ops s' -> (strict -> calm s ops) -> consistent strict s -> consistent strict s'.
Proof.
  induction 1 as [|s w op ops s' Hit Hip _ IH]; [done|]. intros Hc Hs. apply IH; [by intros H; apply Hc|].
  apply (keeps_exec (K := consistent_kept strict) w op Hit Hip); [|apply consistent_frees|done..].
  - by destruct op; cbn; try case_match.
  - intros H saves name -> task Hin. destruct (Hc H) as [Hcalm _]. cbn in Hcalm. rewrite Forall_forall in Hcalm. by apply Hcalm.
Qed.

Definition empty_session (o : SessionOptions) (dht : bool) (cats : gmap bytes Category) (limits : SessionLimits) : Session :=
  mkSes ∅ ∅ TsInit o dht cats limits 0 false [].
Lemma empty_consistent strict o dht cats limits : consistent strict (empty_session o dht cats limits).
Proof. split_and!; [intros i t|intros i p|intros task]; cbn; rewrite ?lookup_empty, ?elem_of_nil; done. Qed.

(** What the tasks of a torrent are told, against what it shows. *)
Definition told_as_shown (c : Controls) : Prop :=
  error_message (c_state c) = None -> (c_transfer c = TsDownloading <-> transfer_enabled (c_state c) = true).
Lemma synced_told c : synced c -> told_as_shown c.
Proof. intros [H|[m Hm]] Hno; [|congruence]. unfold in_sync in H. rewrite H. unfold transfer_of. by destruct (transfer_enabled _). Qed.

(** C8: in every session reached from an empty one by any sequence of operations,
    ticks, waiting tasks going on and changes by peers, where adding a torrent is cut
    at each wait (for its storage, its metadata, its files and the port), the tasks of
    a torrent that has not failed are told to transfer exactly when its state says so;
    and if no category is removed while a torrent is being added to it, every
    torrent's category, if it has one, is one of the session's categories. *)
Theorem session_consistent o dht cats limits ops s :
  ses_run (empty_session o dht cats limits) ops s ->
  (forall id t, ses_torrents s !! id = Some t -> told_as_shown (t_controls t)) /\
  (forall id p, ses_pending s !! id = Some p -> told_as_shown (p_controls p)) /\
  (calm (empty_session o dht cats limits) ops ->
   (forall id t, ses_torrents s !! id = Some t -> known (ses_categories s) (c_category (t_controls t))) /\
   (forall id p, ses_pending s !! id = Some p -> known (ses_categories s) (c_category (p_controls p))) /\
   (forall task category, task ∈ ses_tasks s -> task_category task = Some category -> known (ses_categories s) category)).
Proof.
  intros Hrun. destruct (consistent_run False _ _ _ Hrun ltac:(done) (empty_consistent _ _ _ _ _)) as (Ht & Hp & _). split_and!.
  - intros id t Hid. by apply synced_told, (Ht id t).
  - intros id p Hid. by apply synced_told, (Hp id p).
  - intros Hc. destruct (consistent_run True _ _ _ Hrun ltac:(done) (empty_consistent _ _ _ _ _)) as (Ht' & Hp' & Hk'). split_and!.
    + intros id t Hid. by apply (Ht' id t).
    + intros id p Hid. by apply (Hp' id p).
    + intros task category Hin E. destruct (Hk' task Hin) as [H _]. rewrite E in H. by apply H.
Qed.

(** ** A paused torrent stays paused *)

Section Paused.
Context (id : bytes).

Definition paused_controls (_ : gmap bytes Category) (i : bytes) (c : Controls) : Prop :=
  i = id -> c_state c = StPaused /\ c_transfer c = TsPaused.
Definition undisturbed (s : Session) : Prop :=
  is_Some (ses_torrents s !! id) /\ (forall task, task ∈ ses_tasks s -> task_id task <> id) /\ so_completed_dir (ses_options s) = [].

Lemma decided_in now unix s order dl ul a :
  a ∈ assignments now unix s order dl ul -> exists dl ul, fst (decide_one now unix s (fst a) dl ul) = Some (snd a).
Proof.
  revert dl ul. induction order as [|i order IH]; intros dl ul; cbn; [intros []%not_elem_of_nil|].
  destruct (decide_one now unix s i dl ul) as [[state|] [dl' ul']] eqn:E; [|apply IH].
  intros [->|Hin]%elem_of_cons; [|by eapply IH]. exists dl, ul. cbn. by rewrite E.
Qed.

#[export] Instance paused_kept :
  Kept paused_controls (fun _ _ _ => True) (fun _ _ => True) (fun _ _ => True) (fun i state => i <> id \/ state = StPaused) (fun i => i <> id) undisturbed.
Proof.
  split; unfold paused_controls, undisturbed; try done; try (intros; naive_solver).
  - intros s s' [Ht Hk Ho] (Hid & Htask & Hdir). split_and!.
    + destruct (Ht id) as [|H]; [done|]. by apply H.
    + intros task Hin. destruct (Hk task Hin) as [(task' & Hin' & <-)|]; [by apply Htask|done].
    + by rewrite Ho.
  - intros now unix s order [i state] [Hq _] ([t Ht] & _) (dl & ul & Hd)%decided_in. cbn in *. left. intros ->.
    unfold decide_one in Hd. rewrite Ht in Hd. destruct (Hq id t Ht eq_refl) as [Hs _]. unfold decide_torrent in Hd. by rewrite Hs in Hd.
  - intros a i c c' (-> & -> & _). done.
  - intros a i c Hs Hc He. destruct (Hc He). congruence.
  - intros s i t [Hq _] _ Ht Hne _ state. left. intros ->. by destruct (Hq id t Ht eq_refl).
  - intros a i c name Hc He. destruct (core_clear name c) as [-> ->]. by apply Hc.
  - intros s i ([t Ht] & _) Hn ->. congruence.
Qed.

Lemma undisturbed_run s ops s' :
  ses_run s ops s' -> Forall (fun e => op_allowed (allowed := fun i => i <> id) (snd e)) ops ->
  holds paused_controls (fun _ _ _ => True) (fun _ _ => True) s -> undisturbed s ->
  holds paused_controls (fun _ _ _ => True) (fun _ _ => True) s' /\ undisturbed s'.
Proof.
  induction 1 as [|s w op ops s' Hit Hip _ IH]; [done|]. intros [Hop Hops]%Forall_cons Hs Hu.
  destruct (keeps_exec w op Hit Hip Hop s ltac:(by destruct op) Hs Hu) as [H1 F1]. apply IH; [done..|]. exact (R_frame _ _ F1 Hu).
Qed.
End Paused.

(** C9: a torrent that is paused, has no move, recheck or metadata fetch under way
    and is not moved on completion, stays paused with its tasks told not to
    transfer, through any sequence of operations on it and on other torrents,
    ticks and changes by peers, until it is resumed, force-started, rechecked,
    moved or removed itself, or all torrents are resumed. *)
Theorem pause_kept id s ops s' t :
  ses_torrents s !! id = Some t -> c_state (t_controls t) = StPaused -> c_transfer (t_controls t) = TsPaused ->
  (forall task, task ∈ ses_tasks s -> task_id task <> id) -> so_completed_dir (ses_options s) = [] ->
  ses_run s ops s' ->
  Forall (fun e => match snd e with
                   | SResume i | SForceStart i true | SRemove i _ | SRecheck i | SSavePath i _ true => i <> id
                   | SResumeAll => False
                   | _ => True
                   end) ops ->
  exists t', ses_torrents s' !! id = Some t' /\ c_state (t_controls t') = StPaused /\ c_transfer (t_controls t') = TsPaused.
Proof.
  intros Ht Hs Htr Htask Hdir Hrun Hops.
  destruct (undisturbed_run id s ops s' Hrun) as [[Hq _] ([t' Ht'] & _)].
  - eapply Forall_impl; [exact Hops|]. intros [w op]. cbn. destruct op; try done; by destruct enabled || destruct move_files.
  - split; [|by split]. intros i u Hu ->. assert (u = t) as -> by congruence. done.
  - split_and!; [by eexists|done..].
  - exists t'. split; [done|]. by apply (Hq id t').
Qed.

(** *** Concrete sessions *)

Definition example_world : World := mkWorld map_to_list map_to_list map_to_list 0 0.
Definition example_add : AddTorrentOptions := mkAdd None false false None [] [] false false [] None false None None 0 0.
Definition example_add_paused (paused : bool) : AddTorrentOptions :=
  mkAdd None false false (Some paused) [] [] false false [] None false None None 0 0.
Definition example_start : Session := empty_session example_options true ∅ (limits_new 0 0 0 0 0).
Definition play (ops : list ses_op) : Session := fold_left (fun s op => ses_exec example_world op s) ops example_start.
Definition example_meta (id : bytes) (opts : AddTorrentOptions) : ses_op :=
  SAddMeta true true (example_torrent id) (with_seed example_pieces) [] None opts.

Definition state_in (s : Session) (id : bytes) : option (TorrentState * TransferState) :=
  (fun t => (c_state (t_controls t), c_transfer (t_controls t))) <$> ses_torrents s !! id.

Lemma play_run s ops : ses_run s (map (pair example_world) ops) (fold_left (fun s op => ses_exec example_world op s) ops s).
Proof.
  revert s. induction ops as [|op ops IH]; intros s; [constructor|]. cbn [map fold_left].
  apply SRunCons; [exact map_to_list_order|exact map_to_list_order|apply IH].
Qed.

Definition example_adding (opts : AddTorrentOptions) : list ses_op :=
  [SMetaStart true (example_torrent [1]) [] None opts; SMetaOpened 0 (with_seed example_pieces); SMetaInstalled 0 true (with_seed example_pieces)].
Definition example_in (category : bytes) : AddTorrentOptions :=
  mkAdd None false false None category [] false false [] None false None None 0 0.

(** A category is removed while a torrent is being added to another one. *)
Definition example_calm : list ses_op :=
  [SCreateCategory true [98] None; SMetaStart true (example_torrent [1]) [] None (example_in [99]); SRemoveCategory true [98];
   SMetaOpened 0 (with_seed example_pieces); SMetaInstalled 0 true (with_seed example_pieces); SPause [1]; STick].

Lemma session_consistent_witness :
  (fun t => (c_transfer (t_controls t), c_category (t_controls t))) <$> ses_torrents (play example_calm) !! [1] = Some (TsPaused, [99]) /\
  calm example_start (map (pair example_world) example_calm) /\
  (forall t, ses_torrents (play example_calm) !! [1] = Some t -> known (ses_categories (play example_calm)) (c_category (t_controls t))).
Proof.
  assert (Hc : calm example_start (map (pair example_world) example_calm)).
  { vm_compute. split_and!; try done. by repeat constructor. }
  split; [by vm_compute|]. split; [exact Hc|]. intros t Ht.
  exact (proj1 (proj2 (proj2 (session_consistent example_options true ∅ (limits_new 0 0 0 0 0) _ _ (play_run example_start _))) Hc) [1] t Ht).
Defined.

Lemma pause_kept_witness :
  let s := play [example_meta [1] example_add; example_meta [2] example_add; SPause [1]] in
  let ops := map (pair example_world) [SResume [2]; SQueueTop [1]; SFilePriority [1] 0 Low; SForceStart [2] true; STick] in
  exists t', ses_torrents (fold_left (fun s op => ses_exec example_world op s) [SResume [2]; SQueueTop [1]; SFilePriority [1] 0 Low; SForceStart [2] true; STick] s) !! [1] = Some t' /\
    c_state (t_controls t') = StPaused /\ c_transfer (t_controls t') = TsPaused.
Proof.
  intros s ops.
  assert (Hst : state_in s [1] = Some (StPaused, TsPaused)) by (vm_compute; reflexivity).
  assert (Htasks : ses_tasks s = []) by (vm_compute; reflexivity).
  assert (Hdir : so_completed_dir (ses_options s) = []) by (vm_compute; reflexivity).
  clearbody s. unfold state_in in Hst. destruct (ses_torrents s !! [1]) as [t|] eqn:Et; [|done]. cbn in Hst. injection Hst as H1 H2.
  eapply (pause_kept [1] s ops); [exact Et|exact H1|exact H2| |exact Hdir|apply play_run|by repeat constructor].
  rewrite Htasks. intros task Hin. by apply not_elem_of_nil in Hin.
Defined.

(** ** What the user asked for and does not get *)

(** Pausing is lost when it comes at the wrong time.  A torrent paused while its
    files are being moved, or while it is rechecked, runs again when that ends; a
    magnet link paused before its metadata arrives runs once it has arrived; and one
    that was added paused and then resumed is paused again by the arrival. *)
Theorem user_pause_lost :
  state_in (play [example_meta [1] example_add; SSavePath [1] [98] true; SPause [1]]) [1] = Some (StPaused, TsPaused) /\
  state_in (play [example_meta [1] example_add; SSavePath [1] [98] true; SPause [1]; SFinishTask 0 (Ok ()) []]) [1] = Some (StDownloading, TsDownloading) /\
  state_in (play [example_meta [1] example_add; SRecheck [1]; SPause [1]; SFinishTask 0 (Ok ()) []]) [1] = Some (StDownloading, TsDownloading) /\
  state_in (play [SAddMagnet true [1] [97] [] [] example_add; SPause [1];
                  SPromote 0 true (example_torrent [1]) [] None; SMetaOpened 0 (with_seed example_pieces);
                  SMetaInstalled 0 true (with_seed example_pieces)]) [1] = Some (StDownloading, TsDownloading) /\
  state_in (play [SAddMagnet true [1] [97] [] [] (example_add_paused true); SResume [1];
                  SPromote 0 true (example_torrent [1]) [] None; SMetaOpened 0 (with_seed example_pieces);
                  SMetaInstalled 0 true (with_seed example_pieces)]) [1] = Some (StPaused, TsPaused).
Proof. split_and!; by vm_compute. Qed.

(** A magnet link that is removed while its metadata is being installed comes
    back: the task that waits for the metadata still adds the torrent, which then
    transfers. *)
Theorem removed_magnet_returns :
  let removed := play [SAddMagnet true [1] [97] [] [] example_add; SRemove [1] true] in
  ses_torrents removed !! [1] = None /\ ses_pending removed !! [1] = None /\
  let go_on := [SPromote 0 true (example_torrent [1]) [] None; SMetaOpened 0 (with_seed example_pieces); SMetaInstalled 0 true (with_seed example_pieces)] in
  state_in (fold_left (fun s op => ses_exec example_world op s) go_on removed) [1] = Some (StDownloading, TsDownloading).
Proof. split_and!; by vm_compute. Qed.

(** A category that is removed while a torrent is being added to it: the torrent names
    a category that the session does not have. *)
Theorem removed_category_named :
  let s := play (SMetaStart true (example_torrent [1]) [] None (example_in [99]) :: SRemoveCategory true [99] ::
                 tail (example_adding (example_in [99]))) in
  (fun t => c_category (t_controls t)) <$> ses_torrents s !! [1] = Some [99] /\ ses_categories s !! [99] = None.
Proof. split; by vm_compute. Qed.

(** Two tasks that add the same torrent both find it unknown; the second one replaces
    what the first one added, which had been paused. *)
Theorem added_twice_replaces :
  let start := SMetaStart true (example_torrent [1]) [] None example_add in
  let s := play [start; start; SMetaOpened 0 (with_seed example_pieces); SMetaInstalled 1 true (with_seed example_pieces); SPause [1]] in
  state_in s [1] = Some (StPaused, TsPaused) /\
  state_in (fold_left (fun s op => ses_exec example_world op s)
      [SMetaOpened 0 (with_seed example_pieces); SMetaInstalled 0 true (with_seed example_pieces)] s) [1] = Some (StDownloading, TsDownloading).
Proof. split; by vm_compute. Qed.
