(* ===== verification/SessionView.v ===== *)
(** * What a session shows (crates/bit_rev/src/session.rs)

    The snapshots of torrents, with and without metadata, the list of all of them,
    the files of a torrent and the totals of the session. *)

From S2P Require Import Prelude Text Float Rate Metainfo Layout Bitfield Message PeerStates Picker Priority Download Choke.
From S2P Require Import ExtHandshake Peers Metadata Pex Registry Pipeline AllowedFast PeerHandler PeerTasks PeerSwarm Session SessionQueue.

Record TorrentSnapshot := mkSnapshot {
  sn_id : bytes; sn_name : bytes; sn_state : TorrentState; sn_error : option bytes; sn_progress : f64;
  sn_downloaded : u64; sn_uploaded : u64; sn_left : u64; sn_size : u64; sn_download_rate : u64; sn_upload_rate : u64;
  sn_peers : u32; sn_seeds : u32; sn_save_path : bytes; sn_torrent_path : bytes; sn_category : bytes; sn_tags : gset bytes;
  sn_sequential : bool; sn_added_at : i64; sn_completed_at : option i64; sn_piece_count : u32; sn_pieces_have : u32;
  sn_ratio : f64; sn_queue_position : i64; sn_force_start : bool; sn_ratio_limit : option f64;
  sn_seeding_time_limit : option u64; sn_piece_length : u64 }.

Definition is_seed (piece_count : nat) (s : PeerState) : bool :=
  (0 <? piece_count)%nat && forallb (fun i => has_piece (ps_bitfield s) i) (seq 0 piece_count).
Definition connected_peer_counts (ps : PeerStates) (piece_count : nat) : u32 * u32 :=
  let wired := filter (fun e => writer_tx (snd e) = true) (map_to_list (states ps)) in
  (wrap32 (Z.of_nat (length wired)), wrap32 (Z.of_nat (length (filter (fun e => is_seed piece_count (snd e) = true) wired)))).

Definition snapshot_rates (r : RateSample) : u64 * u64 :=
  (round_as_u64 (f64_max (download_rate r) f64_zero), round_as_u64 (f64_max (upload_rate r) f64_zero)).

(** [a as f64 / b as f64], or the default when there is nothing to divide by. *)
Definition share (none : f64) (a b : u64) : f64 := if b =? 0 then none else f64_div (f64_of a) (f64_of b).

Definition snapshot_of (id name : bytes) (c : Controls) (d : DownloadState) (progress : f64) (size : u64) (torrent_path : bytes)
    (sequential : bool) (completed_at : option i64) (ratio : f64) (piece_length : u64) : TorrentSnapshot :=
  let piece_count := wrap32 (Z.of_nat (length (dl_pieces d))) in
  let '(peers, seeds) := connected_peer_counts (c_peers c) (Z.to_nat piece_count) in
  let '(drate, urate) := snapshot_rates (c_rates c) in
  mkSnapshot id name (c_state c) (error_message (c_state c)) progress (downloaded_bytes d) (c_uploaded c) (left_bytes d) size drate urate
    peers seeds (c_output_dir c) torrent_path (c_category c) (c_tags c) sequential (c_added_at c) completed_at piece_count (have_count d)
    ratio (wrap_i64 (c_queue_position c)) (c_force_start c) (c_ratio_limit c) (c_seeding_time_limit c) piece_length.

Definition torrent_snapshot (t : TorrentSession) : TorrentSnapshot :=
  let d := t_downloaded t in
  let tor := t_torrent t in
  snapshot_of (t_info_hash tor) (t_name tor) (t_controls t) d (share (f64_of 1) (wanted_have_bytes d) (wanted_total_bytes d))
    (wrap64 (Z.max (t_length tor) 0)) (t_cache_path t) (dl_sequential d) (t_completed_at t)
    (share f64_zero (c_uploaded (t_controls t)) (downloaded_bytes d)) (wrap64 (Z.max (t_piece_length tor) 0)).

(** The placeholder of [register_pending] has no pieces and no length. *)
Definition pending_snapshot (id : bytes) (p : PendingTorrent) : TorrentSnapshot :=
  snapshot_of id (p_name p) (p_controls p) (with_seed []) f64_zero 0 [] (p_sequential p) None f64_zero (16 * 1024).

Definition session_snapshot (s : Session) (id : bytes) : option TorrentSnapshot :=
  match ses_torrents s !! id with Some t => Some (torrent_snapshot t) | None => pending_snapshot id <$> ses_pending s !! id end.

Section View.
Context (iter_t : gmap bytes TorrentSession -> list (bytes * TorrentSession)) `{!HashOrder iter_t}.
Context (iter_p : gmap bytes PendingTorrent -> list (bytes * PendingTorrent)) `{!HashOrder iter_p}.

Definition session_list (s : Session) : list TorrentSnapshot :=
  let torrents := iter_t (ses_torrents s) in
  let seen : gset bytes := list_to_set (map fst torrents) in
  map (fun e => torrent_snapshot (snd e)) torrents ++
  map (fun e => pending_snapshot (fst e) (snd e)) (filter (fun e => fst e ∉ seen) (iter_p (ses_pending s))).

Record TransferStats := mkTransfer {
  ts_downloaded : u64; ts_uploaded : u64; ts_download_rate : u64; ts_upload_rate : u64; ts_torrents : nat;
  ts_download_limit : u64; ts_upload_limit : u64; ts_alt_download_limit : u64; ts_alt_upload_limit : u64; ts_alt_mode : bool }.

Definition add_stats (acc : u64 * u64 * u64 * u64 * nat) (e : u64 * Controls) : u64 * u64 * u64 * u64 * nat :=
  let '(d, u, dr, ur, n) := acc in
  let '(drate, urate) := snapshot_rates (c_rates (snd e)) in
  (wrap64 (d + fst e), wrap64 (u + c_uploaded (snd e)), wrap64 (dr + drate), wrap64 (ur + urate), S n).

Definition transfer_stats (s : Session) : TransferStats :=
  let rows :=
    map (fun e => (downloaded_bytes (t_downloaded (snd e)), t_controls (snd e))) (iter_t (ses_torrents s)) ++
    map (fun e => (downloaded_bytes (with_seed []), p_controls (snd e)))
      (filter (fun e => ses_torrents s !! fst e = None) (iter_p (ses_pending s))) in
  let '(d, u, dr, ur, n) := fold_left add_stats rows (0, 0, 0, 0, 0%nat) in
  let l := ses_limits s in
  mkTransfer d u dr ur n (rl_rate (current_download l)) (rl_rate (current_upload l)) (rl_rate (sl_alt_download l)) (rl_rate (sl_alt_upload l)) (sl_alt_mode l).

(** The list shows every torrent of the session once, as its snapshot does, provided
    every torrent is kept under its own hash. *)
Lemma session_list_exact s :
  (forall id t, ses_torrents s !! id = Some t -> t_info_hash (t_torrent t) = id) ->
  NoDup (map sn_id (session_list s)) /\
  (forall id x, session_snapshot s id = Some x <-> x ∈ session_list s /\ sn_id x = id).
Proof.
  intros Hid.
  assert (Ht : forall t, sn_id (torrent_snapshot t) = t_info_hash (t_torrent t)).
  { intros t. unfold torrent_snapshot, snapshot_of. by destruct (connected_peer_counts _ _), (snapshot_rates _). }
  assert (Hp : forall id p, sn_id (pending_snapshot id p) = id).
  { intros id p. unfold pending_snapshot, snapshot_of. by destruct (connected_peer_counts _ _), (snapshot_rates _). }
  assert (Hseen : forall id, id ∉ (list_to_set (map fst (iter_t (ses_torrents s))) : gset bytes) <-> ses_torrents s !! id = None).
  { intros id. rewrite elem_of_list_to_set, (iter_perm (ses_torrents s)), list_elem_of_fmap, eq_None_not_Some. split.
    - intros Hn [t Hs]. apply Hn. exists (id, t). split; [done|]. by apply elem_of_map_to_list.
    - intros Hn ([i t] & -> & Hin). apply elem_of_map_to_list in Hin. apply Hn. by eexists. }
  split.
  - unfold session_list. rewrite map_app, !map_map. rewrite (map_ext (fun e => sn_id (pending_snapshot (fst e) (snd e))) fst) by (intros; apply Hp).
    assert (Heq : map (fun e => sn_id (torrent_snapshot (snd e))) (iter_t (ses_torrents s)) = map fst (iter_t (ses_torrents s))).
    { apply map_ext_in. intros [i t] Hin. cbn [fst snd]. rewrite Ht. apply Hid, elem_of_map_to_list. rewrite <- (iter_perm (ses_torrents s)). by apply list_elem_of_In. }
    rewrite Heq. apply NoDup_app. split; [rewrite (iter_perm (ses_torrents s)); apply NoDup_fst_map_to_list|]. split.
    + intros id Hin (e & -> & [He _]%list_elem_of_filter)%list_elem_of_fmap. apply He. by apply elem_of_list_to_set.
    + eapply sublist_NoDup; [|apply (fmap_sublist fst), sublist_filter]. change (NoDup (map fst (iter_p (ses_pending s)))). rewrite (iter_perm (ses_pending s)). apply NoDup_fst_map_to_list.
  - intros id x. unfold session_list, session_snapshot. rewrite elem_of_app, !list_elem_of_fmap. split.
    + destruct (ses_torrents s !! id) as [t|] eqn:Et.
      * intros [= <-]. rewrite Ht, (Hid id t Et). split; [|done]. left. exists (id, t). split; [done|]. rewrite (iter_perm (ses_torrents s)). by apply elem_of_map_to_list.
      * destruct (ses_pending s !! id) as [p|] eqn:Ep; [|done]. intros [= <-]. rewrite Hp. split; [|done]. right. exists (id, p). split; [done|].
        apply list_elem_of_filter. split; [by apply Hseen|]. rewrite (iter_perm (ses_pending s)). by apply elem_of_map_to_list.
    + intros [[([i t] & -> & Hin)|([i p] & -> & [Hn Hin]%list_elem_of_filter)] Hx]; cbn [fst snd] in *.
      * rewrite (iter_perm (ses_torrents s)) in Hin. apply elem_of_map_to_list in Hin. rewrite Ht, (Hid i t Hin) in Hx. subst. by rewrite Hin.
      * rewrite (iter_perm (ses_pending s)) in Hin. apply elem_of_map_to_list in Hin. rewrite Hp in Hx. subst. apply Hseen in Hn. by rewrite Hn, Hin.
Qed.
End View.

(** *** The files of a torrent *)

Record FileInfo := mkFileInfo { fi_index : nat; fi_path : list bytes; fi_length : u64; fi_progress : f64; fi_priority : FilePriority }.

Definition session_files (s : Session) (id : bytes) : result (list FileInfo) ControlError :=
  match ses_torrents s !! id, ses_pending s !! id with
  | None, Some _ => Err (NoMetadata id)
  | None, None => Err (NotFound id)
  | Some t, _ =>
      let d := t_downloaded t in
      Ok (imap (fun i file =>
        let length := wrap64 (Z.max (tfi_length file) 0) in
        let have := file_have_bytes (t_torrent t) i (fun piece => dl_has_piece d piece) in
        mkFileInfo i (tfi_path file) length (share (f64_of 1) have length) (default Normal (dl_file_priorities d !! i))) (t_files (t_torrent t)))
  end.
