(* ===== verification/Resume.v ===== *)
(** * Resume data (crates/bit_rev/src/resume.rs; session.rs)

    What is kept of a torrent between two runs: the record, its file format, the
    atomic write, the comparison with the files on disk, the check of the pieces on
    disk, what [persist_torrent] writes and what [restore_resume] makes of it. *)

From S2P Require Import Prelude Bencode Value Utf8 Text Float Rate Metainfo Layout Bitfield Message PeerStates Picker Priority Download Choke.
From S2P Require Import ExtHandshake Peers Metadata Pex Registry Pipeline AllowedFast PeerHandler PeerTasks PeerSwarm Session SessionQueue SessionSafe.

#[local] Open Scope session_scope.

Definition RESUME_VERSION : i64 := 4.
Definition RESUME_VERSION_V1 : i64 := 1.
Definition RESUME_VERSION_V4 : i64 := 4.

Inductive ResumeError := ResumeDecode | UnsupportedVersion (version : i64).

Record ResumeFile := mkResumeFile { rf_path : list bytes; rf_length : i64; rf_mtime : i64 }.

Record ResumeData := mkResume {
  rd_version : i64; rd_info_hash : bytes; rd_bitfield : bytes; rd_output_dir : bytes; rd_files : list ResumeFile;
  rd_uploaded : i64; rd_downloaded : i64; rd_torrent_path : bytes; rd_paused : i64; rd_added_at : i64; rd_completed_at : i64;
  rd_category : bytes; rd_tags : list bytes; rd_sequential : i64; rd_file_priorities : list i64; rd_save_path : bytes;
  rd_auto_tmm : i64; rd_queue_position : i64; rd_force_start : i64; rd_ratio_limit : i64; rd_seeding_time_limit : i64 }.

(** ** Reading the fields *)

Definition resume_info_hash (d : ResumeData) : option bytes := if decide (length (rd_info_hash d) = 20%nat) then Some (rd_info_hash d) else None.
Definition is_paused (d : ResumeData) : bool := negb (rd_paused d =? 0).
Definition resume_completed_at (d : ResumeData) : option i64 := if 0 <? rd_completed_at d then Some (rd_completed_at d) else None.
Definition is_sequential (d : ResumeData) : bool := negb (rd_sequential d =? 0).
Definition is_auto_tmm (d : ResumeData) : bool := negb (rd_auto_tmm d =? 0).
Definition is_force_start (d : ResumeData) : bool := negb (rd_force_start d =? 0).
Definition ratio_limit_override (d : ResumeData) : option f64 :=
  if rd_ratio_limit d =? 0 then None
  else if rd_ratio_limit d <? 0 then Some f64_zero
  else Some (f64_div (f64_of (rd_ratio_limit d)) (f64_of 1000)).
Definition seeding_time_limit_override (d : ResumeData) : option u64 :=
  if rd_seeding_time_limit d =? 0 then None
  else if rd_seeding_time_limit d <? 0 then Some 0
  else Some (wrap64 (rd_seeding_time_limit d)).
Definition resolved_save_path (d : ResumeData) : bytes := match rd_save_path d with [] => rd_output_dir d | path => path end.

(** ** The file format *)

Definition file_tree (f : ResumeFile) : Encoded :=
  EDict [(str "path", EList (map EBytes (rf_path f))); (str "length", EInt (rf_length f)); (str "mtime", EInt (rf_mtime f))].

Definition resume_tree (d : ResumeData) : list (bytes * Encoded) :=
  [(str "version", EInt (rd_version d)); (str "info_hash", EBytes (rd_info_hash d)); (str "bitfield", EBytes (rd_bitfield d));
   (str "output_dir", EBytes (rd_output_dir d)); (str "files", EList (map file_tree (rd_files d)));
   (str "uploaded", EInt (rd_uploaded d)); (str "downloaded", EInt (rd_downloaded d)); (str "torrent_path", EBytes (rd_torrent_path d));
   (str "paused", EInt (rd_paused d)); (str "added_at", EInt (rd_added_at d)); (str "completed_at", EInt (rd_completed_at d));
   (str "category", EBytes (rd_category d)); (str "tags", EList (map EBytes (rd_tags d))); (str "sequential", EInt (rd_sequential d));
   (str "file_priorities", EList (map EInt (rd_file_priorities d))); (str "save_path", EBytes (rd_save_path d));
   (str "auto_tmm", EInt (rd_auto_tmm d)); (str "queue_position", EInt (rd_queue_position d)); (str "force_start", EInt (rd_force_start d));
   (str "ratio_limit", EInt (rd_ratio_limit d)); (str "seeding_time_limit", EInt (rd_seeding_time_limit d))].

(** [encode]: the derived serialiser, whose dictionaries have sorted keys. *)
Definition resume_encode (d : ResumeData) : bytes := encode_value (EDict (resume_tree d)).

(** The derived reader, read off the tree of the file: a field of the wrong type is an
    error, a missing one too unless it has a default.  (A key written twice, which the
    derived reader refuses, is one key of the tree.) *)
Definition read_int (v : Value) : option i64 := match v with VInt n => Some n | _ => None end.
Definition read_buf (v : Value) : option bytes := match v with VBytes b => Some b | _ => None end.
Definition read_str (v : Value) : option bytes := match v with VBytes b => if is_utf8 b then Some b else None | _ => None end.
Definition read_list {A} (read : Value -> option A) (v : Value) : option (list A) :=
  match v with VList l => mapM read l | _ => None end.

Section Fields.
Context (dict : gmap bytes Value).
Definition required {A} (key : bytes) (read : Value -> option A) : option A := v ← dict !! key; read v.
Definition optional {A} (key : bytes) (dflt : A) (read : Value -> option A) : option A :=
  match dict !! key with Some v => read v | None => Some dflt end.
End Fields.

Definition read_file (v : Value) : option ResumeFile :=
  match v with
  | VDict dict =>
      path ← required dict (str "path") (read_list read_str);
      length ← required dict (str "length") read_int;
      mtime ← required dict (str "mtime") read_int;
      Some (mkResumeFile path length mtime)
  | _ => None
  end.

Definition read_resume (dict : gmap bytes Value) : option ResumeData :=
  version ← required dict (str "version") read_int;
  info_hash ← required dict (str "info_hash") read_buf;
  bitfield ← required dict (str "bitfield") read_buf;
  output_dir ← required dict (str "output_dir") read_str;
  files ← required dict (str "files") (read_list read_file);
  uploaded ← required dict (str "uploaded") read_int;
  downloaded ← required dict (str "downloaded") read_int;
  torrent_path ← required dict (str "torrent_path") read_str;
  paused ← required dict (str "paused") read_int;
  added_at ← required dict (str "added_at") read_int;
  completed_at ← optional dict (str "completed_at") 0 read_int;
  category ← optional dict (str "category") [] read_str;
  tags ← optional dict (str "tags") [] (read_list read_str);
  sequential ← optional dict (str "sequential") 0 read_int;
  file_priorities ← optional dict (str "file_priorities") [] (read_list read_int);
  save_path ← optional dict (str "save_path") [] read_str;
  auto_tmm ← optional dict (str "auto_tmm") 0 read_int;
  queue_position ← optional dict (str "queue_position") 0 read_int;
  force_start ← optional dict (str "force_start") 0 read_int;
  ratio_limit ← optional dict (str "ratio_limit") 0 read_int;
  seeding_time_limit ← optional dict (str "seeding_time_limit") 0 read_int;
  Some (mkResume version info_hash bitfield output_dir files uploaded downloaded torrent_path paused added_at completed_at category tags
    sequential file_priorities save_path auto_tmm queue_position force_start ratio_limit seeding_time_limit).

Definition resume_decode (from_bytes : bytes -> option Value) (buf : bytes) : result ResumeData ResumeError :=
  match guarded_dict from_bytes buf with
  | None => Err ResumeDecode
  | Some dict =>
      let! data := ok_or (read_resume dict) ResumeDecode in
      if (rd_version data <? RESUME_VERSION_V1) || (RESUME_VERSION <? rd_version data) then Err (UnsupportedVersion (rd_version data))
      else if negb (length (rd_info_hash data) =? 20)%nat then Err ResumeDecode
      else Ok data
  end.

(** ** The atomic write

    The file system is what each path holds.  A write may stop after any number of
    bytes, and the process after any step: the states on the way are all listed. *)

Definition tmp_path (path : bytes) : bytes := path ++ str ".tmp".

Definition partial_writes (path buf : bytes) (written : nat) (fs : gmap bytes bytes) : list (gmap bytes bytes) :=
  map (fun n => <[path := take n buf]> fs) (seq 0 (S written)).

(** What the file system does on the way: whether the directory is there, how far a
    write that fails gets, whether the rename and the clean-up succeed. *)
Record WriteFaults := mkFaults { wf_dir : bool; wf_failed : option nat; wf_renames : bool; wf_removes : bool }.

Definition remove_tmp (fl : WriteFaults) (tmp : bytes) (fs : gmap bytes bytes) : gmap bytes bytes :=
  if wf_removes fl then delete tmp fs else fs.

(** The result, the states on the way, and the one it leaves. *)
Definition write_atomic (path buf : bytes) (fl : WriteFaults) (fs : gmap bytes bytes)
    : bool * list (gmap bytes bytes) * gmap bytes bytes :=
  if negb (wf_dir fl) then (false, [], fs) else
  let tmp := tmp_path path in
  match wf_failed fl with
  | Some n => (false, partial_writes tmp buf n fs, remove_tmp fl tmp (<[tmp := take n buf]> fs))
  | None =>
      let full := <[tmp := buf]> fs in
      let steps := partial_writes tmp buf (length buf) fs in
      if wf_renames fl then (true, steps, <[path := buf]> (delete tmp full)) else (false, steps, remove_tmp fl tmp full)
  end.

Definition load_optional (from_bytes : bytes -> option Value) (path : bytes) (fs : gmap bytes bytes) : option ResumeData :=
  match fs !! path with
  | None => None
  | Some buf => match resume_decode from_bytes buf with Ok data => Some data | Err _ => None end
  end.

(** ** The files and pieces on disk *)

(** [storage::file_path], with [push] for every component. *)
Definition storage_file_path (t : Torrent) (output_dir : bytes) (index : nat) : bytes :=
  if (length (t_files t) =? 1)%nat then output_dir
  else match t_files t !! index with Some f => fold_left path_join (tfi_path f) output_dir | None => output_dir end.

Section Disk.
(** Size and modification time of a file, if it is there. *)
Context (stat : bytes -> option (u64 * i64)).

Definition collect_file_layout (t : Torrent) (output_dir : bytes) : list ResumeFile :=
  imap (fun i f =>
    match stat (storage_file_path t output_dir i) with
    | Some (len, mtime) => mkResumeFile (tfi_path f) (wrap_i64 len) mtime
    | None => mkResumeFile (tfi_path f) 0 0
    end) (t_files t).

Definition file_matches (t : Torrent) (output_dir : bytes) (i : nat) (rec : ResumeFile) : bool :=
  match t_files t !! i with
  | None => false
  | Some f =>
      bool_decide (rf_path rec = tfi_path f) &&
      match stat (storage_file_path t output_dir i) with
      | Some (len, mtime) => (wrap_i64 len =? rf_length rec) && (mtime =? rf_mtime rec)
      | None => false
      end
  end.
Definition files_match (recorded : list ResumeFile) (t : Torrent) (output_dir : bytes) : bool :=
  (length recorded =? length (t_files t))%nat && forallb (fun e => file_matches t output_dir (fst e) (snd e)) (imap pair recorded).
End Disk.

Definition apply_bitfield (d : DownloadState) (bf : Bitfield) : DownloadState :=
  fold_left (fun d i => if has_piece bf i then mark_downloaded d (Z.of_nat i) else d) (seq 0 (length (dl_pieces d))) d.

(** [verify_existing_pieces]: the pieces whose data on disk has their hash; the
    checks run side by side and end in any order. *)
Section Verify.
Context (sha1 : bytes -> bytes) (read_piece : nat -> u32 -> option bytes).

Definition piece_verifies (t : Torrent) (index : nat) : bool :=
  let length := wrap32 (calculate_piece_size t (Z.of_nat index)) in
  negb (length =? 0) &&
  match read_piece index length, t_piece_hashes t !! index with
  | Some buf, Some expected => bool_decide (sha1 buf = expected)
  | _, _ => false
  end.
Definition verified_pieces (t : Torrent) : list nat := filter (fun i => piece_verifies t i = true) (seq 0 (length (t_piece_hashes t))).
Definition verify_existing_pieces (finished : list nat) (d : DownloadState) : DownloadState :=
  fold_left (fun d i => mark_downloaded d (Z.of_nat i)) finished d.
End Verify.

(** ** Persisting and restoring a torrent *)

Definition encode_ratio_milli (limit : option f64) : i64 :=
  match limit with
  | None => 0
  | Some v => if f64_leb v f64_zero then -1 else round_as_i64 (f64_mul v (f64_of 1000))
  end.
Definition encode_time_limit (limit : option u64) : i64 :=
  match limit with None => 0 | Some 0 => -1 | Some v => wrap_i64 v end.

Definition flag (b : bool) : i64 := if b then 1 else 0.

(** The tags of a [BTreeSet]. *)
Definition sorted_tags (tags : gset bytes) : list bytes := map fst (merge_sort key_le (map (fun t => (t, ())) (elements tags))).

(** [persist_torrent] and [snapshot]. *)
Definition resume_snapshot (stat : bytes -> option (u64 * i64)) (t : TorrentSession) : ResumeData :=
  let c := t_controls t in
  let d := t_downloaded t in
  let dir := c_output_dir c in
  mkResume RESUME_VERSION (t_info_hash (t_torrent t)) (bf_bytes (our_bitfield d)) (utf8_lossy dir)
    (collect_file_layout stat (t_torrent t) dir) (wrap_i64 (c_uploaded c)) (wrap_i64 (downloaded_bytes d)) (utf8_lossy (t_cache_path t))
    (flag (bool_decide (c_state c = StPaused))) (c_added_at c) (default 0 (t_completed_at t)) (c_category c) (sorted_tags (c_tags c))
    (flag (dl_sequential d)) (encode_list (dl_file_priorities d)) (utf8_lossy dir) (flag (c_auto_tmm c)) (wrap_i64 (c_queue_position c))
    (flag (c_force_start c)) (encode_ratio_milli (c_ratio_limit c)) (encode_time_limit (c_seeding_time_limit c)).

(** [restore_resume]: the options a torrent is added with, and its place in the
    queue. *)
Definition restore_options (data : ResumeData) : AddTorrentOptions :=
  mkAdd (Some (resolved_save_path data)) false false (Some (is_paused data)) (rd_category data) (rd_tags data) (is_sequential data) false
    (decode_list (rd_file_priorities data)) (Some (is_auto_tmm data)) (is_force_start data) (ratio_limit_override data)
    (seeding_time_limit_override data) 0 0.

(** What [add_torrent_meta] takes from the resume file itself. *)
Definition resumed_of (data : ResumeData) : Resumed :=
  mkResumed (wrap64 (Z.max (rd_uploaded data) 0)) (rd_added_at data) (resume_completed_at data) (is_paused data) (is_sequential data)
    (decode_list (rd_file_priorities data)).

(** The resume file of another torrent is ignored. *)
Definition loaded_resume (torrent : Torrent) (data : option ResumeData) : option ResumeData :=
  match data with Some data => if decide (resume_info_hash data = Some (t_info_hash torrent)) then Some data else None | None => None end.

(** [fast_path]: the bitfield is believed when the files are as they were. *)
Definition fast_path (stat : bytes -> option (u64 * i64)) (torrent : Torrent) (output_dir : bytes) (opts : AddTorrentOptions)
    (data : option ResumeData) : bool :=
  match data with
  | None => false
  | Some data => ao_skip_checking opts || (negb (ao_verify opts) && files_match stat (rd_files data) torrent output_dir)
  end.

Definition pieces_of_work (torrent : Torrent) : list PieceWorkState :=
  imap (fun i hash => piece_new (mkPieceWork (wrap32 (Z.of_nat i)) (wrap32 (calculate_piece_size torrent (Z.of_nat i))) hash)) (t_piece_hashes torrent).

(** The pieces a torrent that is added starts with; [verified] is the order in which
    the checks of the pieces on disk end. *)
Definition open_pieces (stat : bytes -> option (u64 * i64)) (torrent : Torrent) (output_dir : bytes) (opts : AddTorrentOptions)
    (verified : list nat) (data : option ResumeData) : DownloadState :=
  let sequential := ao_sequential opts || match data with Some data => is_sequential data | None => false end in
  let priorities :=
    match ao_file_priorities opts, data with
    | [], Some data => decode_list (rd_file_priorities data)
    | priorities, _ => priorities
    end in
  let d := snd (install_content (with_seed (pieces_of_work torrent)) torrent sequential priorities) in
  if ao_seed opts then mark_all_downloaded d
  else match data with
       | Some file => if fast_path stat torrent output_dir opts data then apply_bitfield d (mkBitfield (rd_bitfield file)) else verify_existing_pieces verified d
       | None => d
       end.

Definition restore_position (id : bytes) (data : ResumeData) : SM () :=
  if RESUME_VERSION_V4 <=? rd_version data then
    let pos := wrap64 (Z.max (rd_queue_position data) 0) in
    mod_torrent id (t_control (set_c_queue_position pos)) ;;
    mod_pending id (p_control (set_c_queue_position pos)) ;;
    smod (fun s => set_next_queue_pos (Z.max (ses_next_queue_pos s) (sat_add U64_MAX pos 1)) s)
  else sret ().

(** [restore_resume], once the cached metainfo is read: [add_torrent_meta] finds the
    resume file again. *)
Definition restore_resume (stat : bytes -> option (u64 * i64)) (w : World) (saves : bool) (torrent : Torrent) (cache_path : bytes)
    (verified : list nat) (data : ResumeData) : SM () :=
  let opts := restore_options data in
  let loaded := loaded_resume torrent (Some data) in
  let d := open_pieces stat torrent (resolved_save_path data) opts verified loaded in
  let id := t_info_hash torrent in
  let '(mkWorld it ip ipp now unix) := w in
  add_torrent_meta it ip ipp now unix saves (negb (t_private torrent)) torrent d cache_path (option_map resumed_of loaded) opts ;;
  restore_position id data.

(** ** The round trip *)

Record wf_resume (d : ResumeData) : Prop := {
  wr_version : RESUME_VERSION_V1 <= rd_version d <= RESUME_VERSION;
  wr_info_hash : length (rd_info_hash d) = 20%nat;
  wr_strings : Forall (fun s => is_utf8 s = true)
    ([rd_output_dir d; rd_torrent_path d; rd_category d; rd_save_path d] ++ rd_tags d ++ concat (map rf_path (rd_files d)));
  wr_ints : Forall is_i64
    ([rd_uploaded d; rd_downloaded d; rd_paused d; rd_added_at d; rd_completed_at d; rd_sequential d; rd_auto_tmm d;
      rd_queue_position d; rd_force_start d; rd_ratio_limit d; rd_seeding_time_limit d]
     ++ rd_file_priorities d ++ map rf_length (rd_files d) ++ map rf_mtime (rd_files d));
  wr_size : Z.of_nat (length (resume_encode d)) <= U64_MAX }.

Lemma read_list_map {A} (read : Value -> option A) (tree : A -> Encoded) l :
  Forall (fun x => read (value_of (tree x)) = Some x) l -> read_list read (value_of (EList (map tree l))) = Some l.
Proof.
  intros H. cbn [value_of read_list]. rewrite map_map. apply mapM_Some. apply Forall2_fmap_l.
  apply Forall_Forall2_diag. done.
Qed.

Lemma read_ints l : read_list read_int (value_of (EList (map EInt l))) = Some l.
Proof. apply read_list_map. by apply Forall_forall. Qed.

Lemma read_strs l : Forall (fun s => is_utf8 s = true) l -> read_list read_str (value_of (EList (map EBytes l))) = Some l.
Proof. intros H. apply read_list_map. eapply Forall_impl; [done|]. intros s Hs. cbn. by rewrite Hs. Qed.

Lemma wf_encoded_map {A} (tree : A -> Encoded) l : Forall (fun x => wf_encoded (tree x)) l -> wf_encoded (EList (map tree l)).
Proof. intros H. cbn [wf_encoded]. by apply foldr_and, Forall_map. Qed.

Lemma height_map {A} (tree : A -> Encoded) l n :
  (forall x, height (tree x) <= n)%nat -> (height (EList (map tree l)) <= S n)%nat.
Proof. intros H. cbn [height]. induction l as [|x l IH]; cbn in *; [lia|]. specialize (H x). lia. Qed.

Lemma file_tree_wf f : is_i64 (rf_length f) -> is_i64 (rf_mtime f) -> wf_encoded (file_tree f).
Proof.
  intros Hl Hm. split; [distinct_keys|]. cbn [foldr snd]. split_and!; try done.
  apply wf_encoded_map. by apply Forall_forall.
Qed.

Lemma read_file_tree f : Forall (fun s => is_utf8 s = true) (rf_path f) -> read_file (value_of (file_tree f)) = Some f.
Proof.
  intros Hp. unfold read_file, file_tree, required. cbn [value_of]. rewrite !dict_assoc. cbn [assoc]. literals.
  cbn [fmap option_fmap option_map]. red_bind. rewrite read_strs by done. red_bind. cbn. by destruct f.
Qed.

Lemma resume_tree_wf d : wf_resume d -> wf_encoded (EDict (resume_tree d)).
Proof.
  intros [[Hv1 Hv2] _ _ Hi _]. unfold RESUME_VERSION, RESUME_VERSION_V1 in *.
  apply Forall_app in Hi as [Hi [Hp [Hl Hm]%Forall_app]%Forall_app]. rewrite !Forall_cons in Hi.
  destruct_and! Hi. split; [unfold resume_tree; distinct_keys|]. cbn [resume_tree foldr snd].
  split_and!; try done.
  - cbn [wf_encoded]; ranges.
  - apply wf_encoded_map. rewrite Forall_map in Hl, Hm. rewrite Forall_forall in *. intros f Hf. apply file_tree_wf; auto.
  - apply wf_encoded_map. by apply Forall_forall.
  - by apply wf_encoded_map.
Qed.

Lemma resume_tree_height d : (height (EDict (resume_tree d)) <= MAX_BENCODE_DEPTH)%nat.
Proof.
  unfold MAX_BENCODE_DEPTH.
  assert (Hb : forall l, (height (EList (map EBytes l)) <= 2)%nat) by (intros; by apply height_map).
  assert (Hi : forall l, (height (EList (map EInt l)) <= 2)%nat) by (intros; by apply height_map).
  assert (Hf : forall l, (height (EList (map file_tree l)) <= 4)%nat).
  { intros l. apply height_map. intros f. unfold file_tree. specialize (Hb (rf_path f)).
    set (e := EList _) in *. cbn [height foldr snd]. lia. }
  specialize (Hf (rd_files d)). specialize (Hi (rd_file_priorities d)). specialize (Hb (rd_tags d)).
  unfold resume_tree. set (a := EList (map file_tree _)) in *. set (b := EList (map EInt _)) in *.
  set (c := EList (map EBytes _)) in *. clearbody a b c. cbn [height foldr snd]. lia.
Qed.

(** The entry of a key written out in the goal. *)
Lemma assoc_at {A} key (pairs : list (bytes * A)) i e :
  fst <$> list_find (fun k => k = key) (map fst pairs) = Some i -> pairs !! i = Some e -> assoc key pairs = Some (snd e).
Proof.
  revert i. induction pairs as [|[k v] pairs IH]; intros i; [done|]. cbn [map fst list_find assoc].
  destruct (decide (k = key)) as [->|Hne].
  - cbn. intros [= <-] [= <-]. done.
  - destruct (list_find _ (map fst pairs)) as [[j k']|]; [|done]. cbn. intros [= <-]. cbn. by apply IH.
Qed.

Ltac find_keys :=
  repeat match goal with
  | |- context [assoc ?key ?pairs] =>
      let i := eval vm_compute in (fst <$> list_find (fun k => k = key) (map fst pairs)) in
      match i with Some ?i => rewrite (assoc_at key pairs i _ ltac:(cbn [map fst]; vm_compute; reflexivity) eq_refl); cbn [snd] end
  end.

Lemma read_resume_tree d : wf_resume d -> read_resume (tree_dict (resume_tree d)) = Some d.
Proof.
  intros [_ _ Hs _ _]. apply Forall_app in Hs as [Hs [Ht Hf]%Forall_app]. rewrite !Forall_cons in Hs.
  destruct Hs as (H1 & H2 & H3 & H4 & _).
  assert (Hfiles : read_list read_file (value_of (EList (map file_tree (rd_files d)))) = Some (rd_files d)).
  { apply read_list_map. rewrite Forall_concat, Forall_map in Hf. eapply Forall_impl; [exact Hf|]. intros f. apply read_file_tree. }
  pose proof (read_strs (rd_tags d) Ht) as Htags. pose proof (read_ints (rd_file_priorities d)) as Hprios.
  unfold read_resume, required, optional, tree_dict, resume_tree.
  set (a := EList (map file_tree _)) in *. set (b := EList (map EInt _)) in *. set (c := EList (map EBytes _)) in *.
  clearbody a b c. rewrite !dict_assoc. find_keys. cbn [fmap option_fmap option_map value_of]. red_bind.
  unfold read_str, read_buf, read_int in *. rewrite Hfiles, Htags, Hprios, H1, H2, H3, H4. red_bind. by destruct d.
Qed.

(** A resume record reads back as it was written. *)
Lemma resume_roundtrip from_bytes `{!BencodeLib from_bytes} d :
  wf_resume d -> resume_decode from_bytes (resume_encode d) = Ok d.
Proof.
  intros Hd. unfold resume_decode, resume_encode.
  rewrite (guarded_dict_canonical from_bytes); [|by apply resume_tree_wf|apply resume_tree_height|by destruct Hd].
  rewrite read_resume_tree by done. cbn. destruct Hd as [[Hv1 Hv2] Hh _ _ _].
  rewrite (proj2 (Z.ltb_ge _ _) Hv1), (proj2 (Z.ltb_ge _ _) Hv2), Hh. done.
Qed.

(** ** The atomic write *)

Lemma tmp_path_ne path : tmp_path path <> path.
Proof. unfold tmp_path. intros H. apply (f_equal length) in H. rewrite length_app in H. cbn in H. lia. Qed.

Lemma partial_writes_other path buf n fs fs' other :
  fs' ∈ partial_writes path buf n fs -> other <> path -> fs' !! other = fs !! other.
Proof. intros (k & -> & _)%list_elem_of_fmap Hne. by apply lookup_insert_ne. Qed.

(** C11: Writing a resume file is atomic.  Whatever fails (the directory, the write after
    any number of bytes, the rename, the clean-up) and whenever the process stops, the
    file holds what it held before or all of the new contents; it holds the new ones
    exactly when the call reports success, with no temporary file left then; and no
    other file but the temporary one is touched at any time. *)
Theorem write_atomic_safe path buf fl fs ok steps final :
  write_atomic path buf fl fs = (ok, steps, final) ->
  (forall s, s ∈ steps -> s !! path = fs !! path) /\
  (forall s other, s ∈ steps ++ [final] -> other <> path -> other <> tmp_path path -> s !! other = fs !! other) /\
  (if ok then final !! path = Some buf /\ final !! tmp_path path = None else final !! path = fs !! path).
Proof.
  pose proof (tmp_path_ne path) as Hne. unfold write_atomic. destruct fl as [dir failed renames removes].
  cbn [wf_dir wf_failed wf_renames]. destruct dir; cbn [negb]; last first.
  { intros [= <- <- <-]. split_and!; [|by intros s other ->%list_elem_of_singleton|done]. by intros s ?%elem_of_nil. }
  assert (Hsteps : forall n s, s ∈ partial_writes (tmp_path path) buf n fs -> s !! path = fs !! path).
  { intros n s Hs. eapply partial_writes_other; [done|]. done. }
  assert (Hrem : forall v other, other <> tmp_path path ->
    remove_tmp (mkFaults true failed renames removes) (tmp_path path) (<[tmp_path path := v]> fs) !! other = fs !! other).
  { intros v other Ho. unfold remove_tmp. cbn. destruct removes; rewrite ?lookup_delete_ne by done; by apply lookup_insert_ne. }
  destruct failed as [n|].
  - intros [= <- <- <-]. split_and!; [by eauto| |by apply Hrem].
    intros s other [Hs| ->%list_elem_of_singleton]%elem_of_app H1 H2; [by eapply partial_writes_other|by apply Hrem].
  - destruct renames; intros [= <- <- <-]; split_and!; eauto.
    + intros s other [Hs| ->%list_elem_of_singleton]%elem_of_app H1 H2; [by eapply partial_writes_other|].
      rewrite lookup_insert_ne, lookup_delete_ne, lookup_insert_ne; done.
    + apply lookup_insert_eq.
    + rewrite lookup_insert_ne by done. apply lookup_delete_eq.
    + intros s other [Hs| ->%list_elem_of_singleton]%elem_of_app H1 H2; [by eapply partial_writes_other|by apply Hrem].
Qed.

Lemma write_atomic_safe_witness :
  let old := {[ [1] := [7; 7; 7] ]} in
  let '(ok, steps, final) := write_atomic [1] [5; 6] (mkFaults true (Some 1%nat) true false) old in
  ok = false /\ length steps = 2%nat /\ (forall s, s ∈ steps -> s !! [1] = Some [7; 7; 7]) /\ final !! [1] = Some [7; 7; 7].
Proof.
  intros old. destruct (write_atomic_safe [1] [5; 6] (mkFaults true (Some 1%nat) true false) old _ _ _ eq_refl) as (H1 & _ & H3).
  split_and!; [reflexivity|reflexivity|exact H1|exact H3].
Defined.

(** ** The pieces a restart finds *)

Lemma mark_downloaded_has st i j :
  0 <= i -> 0 <= j ->
  dl_has_piece (mark_downloaded st i) j = ((i =? j) && bool_decide (is_Some (get_piece st j))) || dl_has_piece st j.
Proof.
  intros Hi Hj. unfold mark_downloaded, dl_has_piece.
  assert (Hup : forall p, get_piece st i = Some p ->
    get_piece (update_piece i (set_downloaded_flag true) st) j = if i =? j then Some (set_downloaded_flag true p) else get_piece st j).
  { intros p Hp. unfold get_piece, update_piece. cbn [set_pieces dl_pieces]. destruct (Z.eqb_spec i j) as [<-|Hne].
    - rewrite list_lookup_alter_eq. unfold get_piece in Hp. by rewrite Hp.
    - apply list_lookup_alter_ne. lia. }
  destruct (get_piece st i) as [p|] eqn:Ep.
  - assert (E : forall st', dl_pieces st' = dl_pieces (update_piece i (set_downloaded_flag true) st) ->
      get_piece st' j = get_piece (update_piece i (set_downloaded_flag true) st) j) by (intros st' H; unfold get_piece; by rewrite H).
    rewrite (E (if downloaded p then _ else _)) by (by destruct (downloaded p)). rewrite (Hup p eq_refl).
    destruct (Z.eqb_spec i j) as [<-|Hne]; [|done]. by rewrite Ep, bool_decide_true by eauto.
  - destruct (Z.eqb_spec i j) as [<-|Hne]; [|done]. rewrite Ep, bool_decide_false; [done|]. by intros [? ?].
Qed.

Lemma mark_downloaded_length st i : length (dl_pieces (mark_downloaded st i)) = length (dl_pieces st).
Proof. unfold mark_downloaded. destruct (get_piece st i) as [p|]; [|done]. destruct (downloaded p); apply length_alter. Qed.

(** Marking pieces one by one, when [take] says so. *)
Lemma fold_mark_has (choose : nat -> bool) l d :
  length (dl_pieces (fold_left (fun d i => if choose i then mark_downloaded d (Z.of_nat i) else d) l d)) = length (dl_pieces d) /\
  forall j, dl_has_piece (fold_left (fun d i => if choose i then mark_downloaded d (Z.of_nat i) else d) l d) (Z.of_nat j) =
    (bool_decide (j ∈ l) && choose j && bool_decide (j < length (dl_pieces d))%nat) || dl_has_piece d (Z.of_nat j).
Proof.
  revert d. induction l as [|i l IH]; intros d; cbn [fold_left].
  { split; [done|]. intros j. rewrite bool_decide_false; [done|]. apply not_elem_of_nil. }
  destruct (IH (if choose i then mark_downloaded d (Z.of_nat i) else d)) as [Hl Hh].
  assert (El : length (dl_pieces (if choose i then mark_downloaded d (Z.of_nat i) else d)) = length (dl_pieces d))
    by (destruct (choose i); [apply mark_downloaded_length|done]).
  split; [congruence|]. intros j. rewrite Hh, El. clear Hh Hl El IH.
  assert (Hsome : bool_decide (is_Some (get_piece d (Z.of_nat j))) = bool_decide (j < length (dl_pieces d))%nat).
  { apply bool_decide_ext. unfold get_piece. rewrite Nat2Z.id. apply lookup_lt_is_Some. }
  destruct (decide (j = i)) as [->|Hne].
  - rewrite (bool_decide_true (i ∈ i :: l)) by set_solver. destruct (choose i); [|by rewrite !andb_false_r].
    rewrite mark_downloaded_has, Z.eqb_refl, Hsome by lia.
    destruct (bool_decide (i ∈ l)), (bool_decide (i < _)%nat), (dl_has_piece d _); done.
  - rewrite (bool_decide_ext (j ∈ i :: l) (j ∈ l)) by set_solver. f_equal.
    destruct (choose i); [|done]. rewrite mark_downloaded_has by lia. rewrite (proj2 (Z.eqb_neq _ _)) by lia. done.
Qed.

Lemma apply_bitfield_has d bf j :
  dl_has_piece (apply_bitfield d bf) (Z.of_nat j) =
  (has_piece bf j && bool_decide (j < length (dl_pieces d))%nat) || dl_has_piece d (Z.of_nat j).
Proof.
  unfold apply_bitfield. rewrite (proj2 (fold_mark_has (has_piece bf) _ d)). f_equal.
  rewrite (bool_decide_ext (j ∈ seq 0 (length (dl_pieces d))) (j < length (dl_pieces d))%nat) by (rewrite elem_of_seq; lia).
  by destruct (bool_decide _), (has_piece bf j).
Qed.

(** The check of the pieces on disk, whatever the order in which they end: the pieces
    whose data has their hash are marked, and no others. *)
Lemma verify_existing_has sha1 read_piece t finished d j :
  finished ≡ₚ verified_pieces sha1 read_piece t -> length (dl_pieces d) = length (t_piece_hashes t) ->
  dl_has_piece (verify_existing_pieces finished d) (Z.of_nat j) =
  (bool_decide (j < length (t_piece_hashes t))%nat && piece_verifies sha1 read_piece t j) || dl_has_piece d (Z.of_nat j).
Proof.
  intros Hf Hl. unfold verify_existing_pieces.
  pose proof (proj2 (fold_mark_has (fun _ => true) finished d) j) as H. cbn in H. rewrite H. f_equal. rewrite Hl.
  apply eq_true_iff_eq. rewrite !andb_true_iff, !bool_decide_eq_true, Hf. unfold verified_pieces.
  rewrite list_elem_of_filter, elem_of_seq. intuition lia.
Qed.

Lemma files_match_collected stat t dir :
  (forall i, (i < length (t_files t))%nat -> is_Some (stat (storage_file_path t dir i))) ->
  files_match stat (collect_file_layout stat t dir) t dir = true.
Proof.
  intros Hs. unfold files_match, collect_file_layout. rewrite length_imap, Nat.eqb_refl. cbn [andb].
  apply forallb_forall. intros [i rec] Hin%list_elem_of_In. apply list_elem_of_lookup in Hin as [k Hk].
  rewrite list_lookup_imap in Hk. destruct (imap _ _ !! k) as [r|] eqn:Er; [|done]. injection Hk as -> ->.
  rewrite list_lookup_imap in Er. unfold file_matches. cbn [fst snd]. destruct (t_files t !! i) as [f|] eqn:Ef; [|done].
  destruct (Hs i ltac:(by eapply lookup_lt_Some)) as [[len mtime] Est]. cbn in Er. rewrite Est in *. injection Er as <-.
  cbn. by rewrite bool_decide_true, !Z.eqb_refl.
Qed.

Lemma insert_all_app {A} (l base : list A) :
  (length l <= length base)%nat -> fold_left (fun out ip => <[fst ip := snd ip]> out) (imap pair l) base = l ++ drop (length l) base.
Proof.
  induction l as [|x l IH] using rev_ind; intros Hl; [done|]. rewrite length_app in Hl. cbn in Hl.
  rewrite imap_app, fold_left_app, IH by lia. cbn. rewrite Nat.add_0_r, insert_app_r_alt, Nat.sub_diag by lia.
  rewrite <- app_assoc. f_equal. rewrite length_app. cbn [length].
  destruct (drop (length l) base) as [|y rest] eqn:E; [apply (f_equal length) in E; rewrite length_drop in E; cbn in E; lia|].
  cbn. f_equal. change rest with (drop 1 (y :: rest)). by rewrite <- E, drop_drop.
Qed.

Lemma normalize_same n l : length l = n -> normalize_file_priorities n l = l.
Proof.
  intros <-. unfold normalize_file_priorities. rewrite take_ge, insert_all_app by (rewrite ?length_replicate; lia).
  rewrite drop_ge by (rewrite length_replicate; lia). apply app_nil_r.
Qed.

Lemma fold_mark_settings (choose : nat -> bool) l d :
  dl_sequential (fold_left (fun d i => if choose i then mark_downloaded d (Z.of_nat i) else d) l d) = dl_sequential d /\
  dl_file_priorities (fold_left (fun d i => if choose i then mark_downloaded d (Z.of_nat i) else d) l d) = dl_file_priorities d.
Proof.
  revert d. induction l as [|i l IH]; intros d; [done|]. cbn [fold_left]. destruct (IH (if choose i then mark_downloaded d (Z.of_nat i) else d)) as [-> ->].
  destruct (choose i); [|done]. unfold mark_downloaded. destruct (get_piece d _) as [p|]; [|done]. by destruct (downloaded p).
Qed.

Lemma unwant_loop_flags want i l m c : map downloaded (unwant_loop want i l m c).1.1 = map downloaded l.
Proof.
  revert i m c. induction l as [|p l IH]; intros i m c; [done|]. cbn [unwant_loop map].
  destruct (want _ || downloaded p).
  - specialize (IH (S i) m c). destruct (unwant_loop _ _ _ _ _) as [[ps m'] c']. cbn in *. by rewrite IH.
  - match goal with |- context [unwant_loop want (S i) l ?m' ?c'] => specialize (IH (S i) m' c'); destruct (unwant_loop want (S i) l m' c') as [[ps m1] c1] end.
    cbn in *. by rewrite IH.
Qed.

Lemma install_content_fresh torrent seq prios :
  let d := snd (install_content (with_seed (pieces_of_work torrent)) torrent seq prios) in
  length (dl_pieces d) = length (t_piece_hashes torrent) /\ (forall j, dl_has_piece d j = false) /\
  dl_sequential d = seq /\ (length prios = length (t_files torrent) -> dl_file_priorities d = prios).
Proof.
  cbn zeta. unfold install_content, apply_file_priorities, unwant_skipped.
  match goal with |- context [unwant_loop ?w ?i ?l ?m ?c] =>
    pose proof (unwant_loop_flags w i l m c) as Hflags; destruct (unwant_loop w i l m c) as [[ps m'] c'] end.
  cbn [fst snd dl_pieces set_selection set_sequential set_content with_seed] in Hflags.
  cbn [fst snd dl_pieces set_selection set_sequential set_content with_seed set_assignments set_pieces dl_sequential dl_file_priorities dl_file_spans].
  assert (Hall : forall p, p ∈ ps -> downloaded p = false).
  { intros p Hp. apply (list_elem_of_fmap_2 downloaded) in Hp. change (downloaded p ∈ map downloaded ps) in Hp. rewrite Hflags in Hp.
    apply list_elem_of_fmap in Hp as (q & -> & Hq). unfold pieces_of_work in Hq. apply list_elem_of_lookup in Hq as [k Hk].
    rewrite list_lookup_imap in Hk. destruct (t_piece_hashes torrent !! k); [|done]. by injection Hk as <-. }
  apply (f_equal length) in Hflags. rewrite !length_map in Hflags. unfold pieces_of_work in Hflags. rewrite length_imap in Hflags.
  split_and!; [done| |done|].
  - intros j. unfold dl_has_piece, get_piece. cbn [dl_pieces set_assignments set_pieces]. destruct (ps !! Z.to_nat j) as [p|] eqn:E; [|done].
    apply Hall. by eapply list_elem_of_lookup_2.
  - intros Hl. destruct (t_files torrent) as [|f files]; cbn [map]; apply normalize_same; cbn in *; [done|]. rewrite length_map. done.
Qed.

(** ** Restarting *)

Lemma wrap_i64_range z : is_i64 (wrap_i64 z).
Proof. unfold is_i64, wrap_i64, I64_MAX. pose proof (Z.mod_pos_bound (z + 9223372036854775808) 18446744073709551616 ltac:(lia)). lia. Qed.

(** What a session keeps of its torrents: sizes and times of the machine's width,
    paths and names that are text, tags as the session normalises them. *)
Record resumable (stat : bytes -> option (u64 * i64)) (t : TorrentSession) : Prop := {
  rt_hash : length (t_info_hash (t_torrent t)) = 20%nat;
  rt_strings : Forall (fun s => is_utf8 s = true)
    ([c_output_dir (t_controls t); t_cache_path t; c_category (t_controls t)] ++ concat (map tfi_path (t_files (t_torrent t))));
  rt_tags : normalize_tags (elements (c_tags (t_controls t))) = c_tags (t_controls t);
  rt_tags_utf8 : forall tag, tag ∈ c_tags (t_controls t) -> is_utf8 tag = true;
  rt_uploaded : 0 <= c_uploaded (t_controls t) <= I64_MAX;
  rt_added : is_i64 (c_added_at (t_controls t));
  rt_completed : forall n, t_completed_at t = Some n -> 0 < n <= I64_MAX;
  rt_position : 0 <= c_queue_position (t_controls t) <= I64_MAX;
  rt_time : forall n, c_seeding_time_limit (t_controls t) = Some n -> 0 <= n <= I64_MAX;
  rt_mtimes : forall path len mtime, stat path = Some (len, mtime) -> is_i64 mtime;
  rt_pieces : length (dl_pieces (t_downloaded t)) = length (t_piece_hashes (t_torrent t));
  rt_priorities : length (dl_file_priorities (t_downloaded t)) = length (t_files (t_torrent t));
  rt_wf : wf_download (t_downloaded t);
  rt_size : Z.of_nat (length (resume_encode (resume_snapshot stat t))) <= U64_MAX }.

Lemma sorted_tags_perm tags : sorted_tags tags ≡ₚ elements tags.
Proof.
  unfold sorted_tags. rewrite (merge_sort_Permutation key_le). rewrite map_map. cbn [fst]. by rewrite map_id.
Qed.

Lemma flag_range b : is_i64 (flag b).
Proof. destruct b; unfold flag; ranges. Qed.
Lemma encode_ratio_range limit : is_i64 (encode_ratio_milli limit).
Proof. unfold encode_ratio_milli. destruct limit as [v|]; [|ranges]. destruct (f64_leb _ _); [ranges|apply round_as_i64_range]. Qed.
Lemma encode_time_range limit : is_i64 (encode_time_limit limit).
Proof. unfold encode_time_limit. destruct limit as [[|n|n]|]; first [apply wrap_i64_range|ranges]. Qed.

Lemma encode_list_range ps : Forall is_i64 (encode_list ps).
Proof. unfold encode_list. apply Forall_map, Forall_forall. intros p _. destruct p; vm_compute; split; discriminate. Qed.

Lemma collected_paths stat t dir : map rf_path (collect_file_layout stat t dir) = map tfi_path (t_files t).
Proof.
  unfold collect_file_layout. apply list_eq. intros i.
  rewrite !(list_lookup_fmap _ _ i : map _ _ !! i = _), list_lookup_imap.
  destruct (t_files t !! i) as [f|]; [|done]. cbn. by destruct (stat _) as [[len mtime]|].
Qed.

Lemma snapshot_wf stat t : resumable stat t -> wf_resume (resume_snapshot stat t).
Proof.
  intros [Hh Hs Htg Htu Hu Ha Hc Hp Htl Hm Hpc Hpr Hw Hsz]. apply Forall_app in Hs as [Hs Hpaths].
  rewrite !Forall_cons in Hs. destruct Hs as (Hdir & Hcache & Hcat & _).
  assert (Hd0 : is_utf8 (utf8_lossy (c_output_dir (t_controls t))) = true) by by rewrite utf8_lossy_valid.
  assert (Hfiles : Forall (fun f => is_i64 (rf_length f) /\ is_i64 (rf_mtime f))
    (collect_file_layout stat (t_torrent t) (c_output_dir (t_controls t)))).
  { apply Forall_lookup. intros i rec. unfold collect_file_layout. rewrite list_lookup_imap.
    destruct (t_files _ !! i) as [f|]; [|done]. cbn. destruct (stat _) as [[len mtime]|] eqn:E; intros [= <-]; cbn.
    - split; [apply wrap_i64_range|by eapply Hm].
    - ranges. }
  unfold resume_snapshot. split; [unfold RESUME_VERSION, RESUME_VERSION_V1; cbn; lia|done| | |exact Hsz];
    cbn [rd_output_dir rd_torrent_path rd_category rd_save_path rd_tags rd_files rd_uploaded rd_downloaded rd_paused rd_added_at rd_completed_at
      rd_sequential rd_auto_tmm rd_queue_position rd_force_start rd_ratio_limit rd_seeding_time_limit rd_file_priorities].
  - rewrite !Forall_app, !Forall_cons, collected_paths. split_and!; try done; [by rewrite utf8_lossy_valid|].
    rewrite sorted_tags_perm. apply Forall_forall. intros tag. rewrite elem_of_elements. apply Htu.
  - rewrite !Forall_app, !Forall_cons. split_and!; auto using flag_range, encode_ratio_range, encode_time_range, wrap_i64_range, encode_list_range.
    + destruct (t_completed_at t) as [n|] eqn:E; cbn; [specialize (Hc n eq_refl)|]; ranges.
    + apply Forall_map. eapply Forall_impl; [done|]. by intros f [? ?].
    + apply Forall_map. eapply Forall_impl; [done|]. by intros f [? ?].
Qed.

(** A session that restores its torrents: adding one neither runs the queue nor
    touches the others. *)
Lemma ensure_some_frame saves category s :
  exists e cats, ensure_some saves category s = ((), e, set_categories cats s).
Proof.
  assert (Hs : s = set_categories (ses_categories s) s) by by destruct s.
  unfold ensure_some, ensure_category, persist_categories. destruct category as [|c category]; [exists [], (ses_categories s); by rewrite <- Hs|].
  unfold sbind, sget, sok, serr, sret, smod, seff. cbn [app].
  destruct (ses_categories s !! (c :: category)); [exists [], (ses_categories s); cbn; by rewrite <- Hs|].
  cbn. destruct (so_state_dir _), saves; cbn; eauto.
Qed.

Lemma evaluate_queue_restoring it ip ipp now unix s : ses_restoring s = true -> evaluate_queue it ip ipp now unix s = ((), [], s).
Proof. intros H. unfold evaluate_queue, sbind, sget, sret. by rewrite H. Qed.

Lemma wake_frame s : exists v, wake_global s = ((), [], set_transfer v s).
Proof. unfold wake_global, smod. case_decide; [exists (ses_transfer s); by destruct s|by exists TsDownloading]. Qed.

Lemma after_emit e s : after (emit e) s = s.
Proof. done. Qed.

Lemma install_restoring it ip ipp now unix dht t initial paused s :
  ses_restoring s = true ->
  let s' := run (install_torrent it ip ipp now unix dht t initial false paused) s in
  ses_torrents s' = <[t_info_hash (t_torrent t) := t]> (ses_torrents s) /\ ses_pending s' = ses_pending s /\ ses_next_queue_pos s' = ses_next_queue_pos s.
Proof.
  intros Hr. unfold run, install_torrent. rewrite !after_bind.
  set (s1 := after (smod _) _).
  assert (E1 : s1 = set_torrents (<[t_info_hash (t_torrent t) := t]> (ses_torrents s)) s) by by destruct dht.
  clearbody s1. subst s1. set (s2 := set_torrents _ s).
  assert (E2 : exists v, after (if transfer_enabled initial then wake_global else sret ()) s2 = set_transfer v s2).
  { destruct (transfer_enabled _); [unfold after; destruct (wake_frame s2) as [v ->]; by exists v|exists (ses_transfer s2); done]. }
  destruct E2 as [v E2]. change (after (to_disk _) (after (sret ()) s2)) with s2. rewrite E2.
  rewrite !after_emit. set (s3 := set_transfer v s2).
  assert (E3 : after (if paused then sret () else evaluate_queue it ip ipp now unix) s3 = s3).
  { destruct paused; [done|]. unfold after. by rewrite evaluate_queue_restoring. }
  rewrite E3. by destruct (is_complete _).
Qed.

(** What is chosen for it before its files are opened. *)
Lemma begin_restoring saves torrent cache resumed opts dir tmm s :
  ao_output_dir opts = Some dir -> ao_auto_tmm opts = Some tmm ->
  exists e cats, add_meta_begin saves torrent cache resumed opts None s =
    (mkAddition torrent cache resumed opts (ao_category opts) (normalize_tags (ao_tags opts)) dir tmm false, e, set_categories cats s).
Proof.
  intros Hd Hm. unfold add_meta_begin. rewrite Hd, Hm. cbn [option_map].
  replace (match ao_category opts with [] => default [] None | z :: l => z :: l end) with (ao_category opts) by by destruct (ao_category opts).
  replace (match ao_tags opts with [] => default ∅ None | l :: l0 => normalize_tags (l :: l0) end) with (normalize_tags (ao_tags opts)) by by destruct (ao_tags opts).
  destruct (ensure_some_frame saves (ao_category opts) s) as (e & cats & Ec). exists (e ++ []), cats. unfold sbind. rewrite Ec. cbn. by rewrite app_nil_r.
Qed.

(** The torrent a resume file is made into. *)
Lemma add_meta_restoring it ip ipp now unix saves dht torrent d cache resumed opts s :
  ses_restoring s = true -> ses_torrents s !! t_info_hash torrent = None -> ses_pending s !! t_info_hash torrent = None ->
  ao_output_dir opts <> None -> ao_paused opts <> None -> ao_auto_tmm opts <> None ->
  let s' := run (add_torrent_meta it ip ipp now unix saves dht torrent d cache (Some resumed) opts) s in
  let initial := if default false (ao_paused opts) then StPaused else StQueued in
  let t' := mkSession (mkControls initial (transfer_of initial) peer_states_new (rs_uploaded resumed) (default [] (ao_output_dir opts)) (rs_added_at resumed)
      (ao_category opts) (normalize_tags (ao_tags opts)) (default false (ao_auto_tmm opts)) sample_default (ses_next_queue_pos s) (ao_force_start opts)
      (set_rate (ao_download_limit opts) (limiter_new now (ao_download_limit opts) DEFAULT_BURST))
      (set_rate (ao_upload_limit opts) (limiter_new now (ao_upload_limit opts) DEFAULT_BURST)) (ao_ratio_limit opts) (ao_seeding_time_limit opts) None)
    d torrent (match rs_completed_at resumed with Some n => Some n | None => if is_complete d then Some unix else None end) cache in
  ses_torrents s' = <[t_info_hash torrent := t']> (ses_torrents s) /\ ses_pending s' = ses_pending s /\
  ses_next_queue_pos s' = wrap64 (ses_next_queue_pos s + 1).
Proof.
  intros Hr Ht Hp Hdir Hpa Htmm. destruct opts as [[dir|] seed verify [paused|] category tags seq skip prios [tmm|] force ratio time dl ul]; try done.
  cbn [default ao_paused ao_output_dir ao_auto_tmm ao_category ao_tags ao_force_start ao_download_limit ao_upload_limit ao_ratio_limit ao_seeding_time_limit].
  unfold run, add_torrent_meta. rewrite after_bind. cbn [sget fst snd]. change (after sget s) with s.
  replace (already_known s (t_info_hash torrent)) with false by (unfold already_known; rewrite Ht, Hp; reflexivity).
  rewrite after_bind. destruct (begin_restoring saves torrent cache (Some resumed) (mkAdd (Some dir) seed verify (Some paused) category tags seq skip prios (Some tmm) force ratio time dl ul) dir tmm s eq_refl eq_refl) as (e & cats & Eb).
  match type of Eb with ?m s = _ => assert (Ea : after m s = set_categories cats s) by (unfold after; by rewrite Eb) end.
  rewrite !Ea, Eb. cbn [fst snd]. set (s1 := set_categories cats s). rewrite after_bind. unfold add_meta_opened.
  rewrite after_bind. change (after sget s1) with s1. change (fst (fst (sget s1))) with s1. change (ses_restoring s1) with (ses_restoring s). rewrite Hr.
  cbn [option_map ad_opts ad_resumed ad_output_dir ad_category ad_tags ad_auto_tmm ao_paused ao_force_start ao_download_limit ao_upload_limit ao_ratio_limit ao_seeding_time_limit default].
  replace (match ratio with Some r => Some r | None => None end) with ratio by by destruct ratio.
  replace (match time with Some r => Some r | None => None end) with time by by destruct time.
  rewrite orb_false_r. set (s2 := after alloc_queue_position s1).
  unfold sbind, sget. cbn [fst snd alloc_queue_position sret].
  unfold add_meta_install. cbn [pr_addition pr_controls pr_completed_at pr_start_paused ad_torrent ad_cache_path ad_promoted].
  match goal with |- context [install_torrent it ip ipp now unix dht ?t ?i false paused] =>
    destruct (install_restoring it ip ipp now unix dht t i paused s2 Hr) as (H1 & H2 & H3) end.
  unfold run in H1, H2, H3.
  split_and!; [etransitivity; [exact H1|]|etransitivity; [exact H2|done]|etransitivity; [exact H3|done]].
  change (ses_torrents s2) with (ses_torrents s). change (ses_restoring s1) with (ses_restoring s). rewrite Hr. cbn.
  by destruct (is_complete d), (rs_completed_at resumed).
Qed.

Lemma restore_position_spec id data s :
  RESUME_VERSION_V4 <= rd_version data ->
  let s' := run (restore_position id data) s in
  let pos := wrap64 (Z.max (rd_queue_position data) 0) in
  ses_torrents s' = alter (t_control (set_c_queue_position pos)) id (ses_torrents s) /\
  ses_next_queue_pos s' = Z.max (ses_next_queue_pos s) (sat_add U64_MAX pos 1).
Proof. intros Hv. unfold restore_position. rewrite (proj2 (Z.leb_le _ _) Hv). done. Qed.

(** The pieces a torrent whose files are as they were starts with. *)
Lemma open_pieces_fast stat t data verified :
  resumable stat t -> data = resume_snapshot stat t ->
  (forall i, (i < length (t_files (t_torrent t)))%nat -> is_Some (stat (storage_file_path (t_torrent t) (c_output_dir (t_controls t)) i))) ->
  let d := open_pieces stat (t_torrent t) (c_output_dir (t_controls t)) (restore_options data) verified (Some data) in
  (forall i, dl_has_piece d (Z.of_nat i) = dl_has_piece (t_downloaded t) (Z.of_nat i)) /\
  dl_sequential d = dl_sequential (t_downloaded t) /\ dl_file_priorities d = dl_file_priorities (t_downloaded t).
Proof.
  intros Ht -> Hfiles. cbn zeta. unfold open_pieces, fast_path.
  cbn [restore_options ao_sequential ao_file_priorities ao_seed ao_skip_checking ao_verify negb andb orb].
  cbn [rd_files resume_snapshot]. rewrite files_match_collected by done. unfold is_sequential. cbn [rd_sequential resume_snapshot rd_file_priorities rd_bitfield].
  rewrite decode_encode_list.
  replace (match dl_file_priorities (t_downloaded t) with [] => dl_file_priorities (t_downloaded t) | f :: l => f :: l end)
    with (dl_file_priorities (t_downloaded t)) by by destruct (dl_file_priorities (t_downloaded t)).
  assert (Hseq : forall b, negb (flag b =? 0) || negb (flag b =? 0) = b) by by intros [].
  rewrite Hseq. destruct (install_content_fresh (t_torrent t) (dl_sequential (t_downloaded t)) (dl_file_priorities (t_downloaded t))) as (H1 & H2 & H3 & H4).
  set (d := snd (install_content _ _ _ _)) in *. clearbody d. split.
  - intros i. rewrite apply_bitfield_has, H2, orb_false_r, H1.
    assert (Hbf : mkBitfield (bf_bytes (our_bitfield (t_downloaded t))) = our_bitfield (t_downloaded t)) by by destruct (our_bitfield _).
    rewrite Hbf, (proj1 (reported_state_exact _ (rt_wf _ _ Ht))). rewrite <- (rt_pieces _ _ Ht).
    case_bool_decide as Hi; [apply andb_true_r|]. rewrite andb_false_r. unfold dl_has_piece, get_piece. rewrite Nat2Z.id.
    by rewrite lookup_ge_None_2 by lia.
  - unfold apply_bitfield. destruct (fold_mark_settings (has_piece (mkBitfield (bf_bytes (our_bitfield (t_downloaded t))))) (seq 0 (length (dl_pieces d))) d) as [-> ->].
    split; [done|]. apply H4. apply (rt_priorities _ _ Ht).
Qed.

Lemma restored_fields stat t :
  resumable stat t ->
  let data := resume_snapshot stat t in
  resolved_save_path data = c_output_dir (t_controls t) /\ is_paused data = bool_decide (c_state (t_controls t) = StPaused) /\
  normalize_tags (rd_tags data) = c_tags (t_controls t) /\ is_auto_tmm data = c_auto_tmm (t_controls t) /\
  is_force_start data = c_force_start (t_controls t) /\ seeding_time_limit_override data = c_seeding_time_limit (t_controls t) /\
  wrap64 (Z.max (rd_uploaded data) 0) = c_uploaded (t_controls t) /\ resume_completed_at data = t_completed_at t /\
  wrap64 (Z.max (rd_queue_position data) 0) = c_queue_position (t_controls t).
Proof.
  intros [Hh Hs Htg Htu Hu Ha Hc Hp Htl Hm Hpc Hpr Hw Hsz]. apply Forall_app in Hs as [Hs _]. rewrite !Forall_cons in Hs. destruct Hs as (Hdir & _).
  assert (Hflag : forall b, negb (flag b =? 0) = b) by by intros [].
  assert (Hwrap : forall z, 0 <= z <= I64_MAX -> wrap64 (Z.max (wrap_i64 z) 0) = z).
  { intros z Hz. rewrite wrap_i64_small, Z.max_l, wrap64_small by ranges. done. }
  unfold is_paused, is_auto_tmm, is_force_start, resolved_save_path, seeding_time_limit_override, resume_completed_at.
  cbn [resume_snapshot rd_save_path rd_output_dir rd_paused rd_tags rd_auto_tmm rd_force_start rd_seeding_time_limit rd_uploaded rd_completed_at rd_queue_position].
  rewrite !Hflag, !Hwrap by done. split_and!; try done.
  - rewrite utf8_lossy_valid by done. by destruct (c_output_dir _).
  - rewrite <- Htg at 2. unfold normalize_tags. apply list_to_set_perm_L.
    change (filter (fun tag => tag <> []) (trim_str <$> sorted_tags (c_tags (t_controls t))) ≡ₚ filter (fun tag => tag <> []) (trim_str <$> elements (c_tags (t_controls t)))).
    by rewrite sorted_tags_perm.
  - destruct (c_seeding_time_limit (t_controls t)) as [n|]; [|done]. specialize (Htl n eq_refl). unfold encode_time_limit.
    destruct n as [|n|n]; [done| |lia]. rewrite wrap_i64_small by ranges.
    rewrite (proj2 (Z.eqb_neq _ _)), (proj2 (Z.ltb_ge _ _)), wrap64_small by ranges. done.
  - destruct (t_completed_at t) as [n|]; [|done]. specialize (Hc n eq_refl). cbn. by rewrite (proj2 (Z.ltb_lt _ _)) by lia.
Qed.

(** What is left of a ratio limit: whole thousandths, a limit that rounds to none is
    none, and one that is not positive is zero. *)
Definition saved_ratio (limit : option f64) : option f64 :=
  v ← limit;
  if f64_leb v f64_zero then Some f64_zero
  else
    let milli := round_as_i64 (f64_mul v (f64_of 1000)) in
    if milli =? 0 then None
    else if milli <? 0 then Some f64_zero
    else Some (f64_div (f64_of milli) (f64_of 1000)).

Lemma saved_ratio_spec stat t : ratio_limit_override (resume_snapshot stat t) = saved_ratio (c_ratio_limit (t_controls t)).
Proof.
  unfold ratio_limit_override, encode_ratio_milli. cbn [resume_snapshot rd_ratio_limit]. unfold encode_ratio_milli, saved_ratio.
  destruct (c_ratio_limit (t_controls t)) as [v|]; [|done]. red_bind. by destruct (f64_leb v f64_zero).
Qed.

(** C10: A torrent survives a restart.  When its texts are UTF-8 and its numbers in the
    range of the file format, its resume file was written with success and its files on
    disk are as they were, the next session, which does nothing else meanwhile, reads the
    file back and makes it into a torrent with the same pieces, the same selection (sequential order
    and priorities), save path, category, tags, automatic management, forced start,
    seeding time limit, counters and times, at the same place in the queue, and no
    later torrent can be given that place; it is paused exactly when it was paused,
    and otherwise waits in the queue.  Two settings do not come back as they were: the
    ratio limit is rounded to thousandths, and the rate limits of the torrent, which
    the file does not hold, are off. *)
Theorem restart_restores from_bytes `{!BencodeLib from_bytes} stat w saves verified path fl fs steps fs' t s :
  resumable stat t ->
  (forall i, (i < length (t_files (t_torrent t)))%nat -> is_Some (stat (storage_file_path (t_torrent t) (c_output_dir (t_controls t)) i))) ->
  write_atomic path (resume_encode (resume_snapshot stat t)) fl fs = (true, steps, fs') ->
  ses_restoring s = true -> ses_torrents s !! t_info_hash (t_torrent t) = None -> ses_pending s !! t_info_hash (t_torrent t) = None ->
  exists data t', load_optional from_bytes path fs' = Some data /\
    let s' := run (restore_resume stat w saves (t_torrent t) (t_cache_path t) verified data) s in
    ses_torrents s' !! t_info_hash (t_torrent t) = Some t' /\ c_queue_position (t_controls t) < ses_next_queue_pos s' /\
    let c := t_controls t in let c' := t_controls t' in
    c_state c' = (if decide (c_state c = StPaused) then StPaused else StQueued) /\
    (forall i, dl_has_piece (t_downloaded t') (Z.of_nat i) = dl_has_piece (t_downloaded t) (Z.of_nat i)) /\
    dl_sequential (t_downloaded t') = dl_sequential (t_downloaded t) /\
    dl_file_priorities (t_downloaded t') = dl_file_priorities (t_downloaded t) /\
    c_output_dir c' = c_output_dir c /\ c_category c' = c_category c /\ c_tags c' = c_tags c /\ c_auto_tmm c' = c_auto_tmm c /\
    c_force_start c' = c_force_start c /\ c_queue_position c' = c_queue_position c /\ c_seeding_time_limit c' = c_seeding_time_limit c /\
    c_ratio_limit c' = saved_ratio (c_ratio_limit c) /\
    rl_rate (c_download_limiter c') = 0 /\ rl_rate (c_upload_limiter c') = 0 /\
    c_uploaded c' = c_uploaded c /\ c_added_at c' = c_added_at c /\
    (t_completed_at t <> None -> t_completed_at t' = t_completed_at t).
Proof.
  intros Ht Hfiles Hw Hr Hnt Hnp. set (data := resume_snapshot stat t). exists data.
  pose proof (open_pieces_fast stat t data verified Ht eq_refl Hfiles) as (P1 & P2 & P3).
  destruct (restored_fields stat t Ht) as (F1 & F2 & F3 & F4 & F5 & F6 & F7 & F8 & F9). fold data in F1, F2, F3, F4, F5, F6, F7, F8, F9.
  assert (Hload : load_optional from_bytes path fs' = Some data).
  { pose proof (resume_roundtrip from_bytes data (snapshot_wf stat t Ht)) as Hdec. unfold load_optional.
    unfold write_atomic in Hw. destruct (wf_dir fl); [|done]. destruct (wf_failed fl); [done|]. destruct (wf_renames fl); [|done].
    cbn [negb] in Hw. injection Hw as _ <-. rewrite lookup_insert_eq. cbv beta iota. fold data. by rewrite Hdec. }
  assert (Hown : loaded_resume (t_torrent t) (Some data) = Some data).
  { assert (E : resume_info_hash data = Some (t_info_hash (t_torrent t))) by (unfold resume_info_hash; by rewrite decide_True by exact (rt_hash _ _ Ht)).
    unfold loaded_resume. by rewrite decide_True. }
  unfold restore_resume. rewrite Hown. destruct w as [it ip ipp now unix]. cbn [option_map]. unfold run. rewrite F1.
  set (d := open_pieces _ _ _ _ _ _) in *. clearbody d.
  destruct (add_meta_restoring it ip ipp now unix saves (negb (t_private (t_torrent t))) (t_torrent t) d (t_cache_path t) (resumed_of data)
    (restore_options data) s Hr Hnt Hnp ltac:(done) ltac:(done) ltac:(done)) as (A1 & A2 & A3).
  rewrite !after_bind. set (s1 := after (add_torrent_meta _ _ _ _ _ _ _ _ _ _ _ _) s) in *. unfold run in A1, A3. fold s1 in A1, A3.
  destruct (restore_position_spec (t_info_hash (t_torrent t)) data s1 ltac:(done)) as [B1 B2]. unfold run in B1, B2.
  rewrite B1, B2, A1, F9, lookup_alter_eq, lookup_insert_eq. eexists. split; [exact Hload|]. split; [done|]. split.
  { pose proof (rt_position _ _ Ht). ranges. }
  cbn [fmap option_fmap option_map t_control t_controls t_downloaded t_completed_at set_c_queue_position c_state c_output_dir c_category c_tags c_auto_tmm c_force_start
    c_queue_position c_seeding_time_limit c_ratio_limit c_uploaded c_added_at restore_options ao_paused ao_output_dir ao_category ao_tags ao_auto_tmm ao_force_start
    ao_ratio_limit ao_seeding_time_limit default resumed_of rs_uploaded rs_added_at rs_completed_at].
  rewrite F2, F3, F4, F5, F6, F7, F8, F1. split_and!; try done.
  - by case_bool_decide; case_decide.
  - apply saved_ratio_spec.
  - intros Hn. by destruct (t_completed_at t).
Qed.

(** A torrent of two pieces in two files, one piece there, and its restart. *)
Definition kept_torrent : Torrent :=
  mkTorrent (replicate 20 7) [[1]; [2]] 16384 20000 [mkTFI [[97]] 5 0; mkTFI [[98]] 19995 5] [97] false.
Definition kept_pieces : DownloadState :=
  mark_downloaded (snd (install_content (with_seed (pieces_of_work kept_torrent)) kept_torrent true [High; Normal])) 1.
Definition kept_session : TorrentSession :=
  mkSession (mkControls StPaused TsPaused peer_states_new 12 (str "/down") 5 (str "films") {[ str "new" ]} true sample_default 3 true
    (limiter_unlimited 0) (limiter_unlimited 0) None (Some 0) None) kept_pieces kept_torrent (Some 9) (str "/state/t").
Definition kept_stat (path : bytes) : option (u64 * i64) := Some (5, 100).

Lemma kept_pieces_wf : wf_download kept_pieces.
Proof.
  apply mark_downloaded_wf. eapply dl_step_wf; [|apply st_install]. split; try done.
  - intros [|[|i]] p; [intros [= <-]|intros [= <-]|done]; split; cbn; (done || constructor || ranges).
  - apply Forall_replicate. ranges.
Qed.

Lemma kept_resumable : resumable kept_stat kept_session.
Proof.
  split.
  - reflexivity.
  - repeat constructor.
  - vm_compute. reflexivity.
  - cbn [c_tags t_controls kept_session]. intros tag ->%elem_of_singleton. reflexivity.
  - vm_compute. split; congruence.
  - vm_compute. split; congruence.
  - intros n [= <-]. vm_compute. split; congruence.
  - vm_compute. split; congruence.
  - intros n [= <-]. vm_compute. split; congruence.
  - intros path len mtime [= <- <-]. vm_compute. split; congruence.
  - vm_compute. reflexivity.
  - vm_compute. reflexivity.
  - apply kept_pieces_wf.
  - vm_compute. congruence.
Qed.

Lemma restart_restores_witness :
  let s := mkSes ∅ ∅ TsDownloading example_options true ∅ (limits_new 0 0 0 0 0) 0 true [] in
  let '(_, _, fs) := write_atomic [1] (resume_encode (resume_snapshot kept_stat kept_session)) (mkFaults true None true true) ∅ in
  exists data t', load_optional parse_bencode [1] fs = Some data /\
    ses_torrents (run (restore_resume kept_stat example_world true kept_torrent (str "/state/t") [] data) s) !! replicate 20 7 = Some t' /\
    c_state (t_controls t') = StPaused /\ dl_has_piece (t_downloaded t') 1 = true /\ dl_has_piece (t_downloaded t') 0 = false /\
    c_queue_position (t_controls t') = 3 /\ c_tags (t_controls t') = {[ str "new" ]}.
Proof.
  intros s. destruct (restart_restores parse_bencode kept_stat example_world true [] [1] (mkFaults true None true true) ∅ _ _ kept_session s
    kept_resumable ltac:(intros; by eexists) eq_refl eq_refl eq_refl eq_refl)
    as (data & t' & H1 & H2 & H3 & H4 & H5 & H6 & H7 & H8 & H9 & H10 & H11 & H12 & H13 & _).
  exists data, t'. split; [exact H1|]. split; [exact H2|]. split; [exact H4|].
  split; [rewrite (H5 1%nat : dl_has_piece (t_downloaded t') 1 = _); reflexivity|].
  split; [rewrite (H5 0%nat : dl_has_piece (t_downloaded t') 0 = _); reflexivity|]. split; [exact H13|exact H10].
Defined.
