(* ===== verification/Magnet.v ===== *)
(** * Magnet links (crates/bit_rev/src/magnet.rs)

    The parser and the printer of magnet URIs, with the percent, hexadecimal and
    base-32 decoders, and socket addresses as [core::net] reads and writes them.  A
    string is the list of its bytes. *)

From S2P Require Import Prelude Utf8 Bencode Text Identity Value ExtHandshake IpFilter.

Record Magnet := mkMagnet {
  mg_info_hash : bytes;
  mg_display_name : option bytes;
  mg_trackers : list bytes;
  mg_peers : list SocketAddr;
  mg_webseeds : list bytes }.

Inductive MagnetError :=
| MissingXt
| V2NotSupported
| BadHashLength (got : nat)
| BadHex
| BadBase32
| InvalidUri.

(** ** Decoders *)

Definition from_hex_digit (b : u8) : option u8 :=
  if within 48 57 b then Some (b - 48)
  else if within 97 102 b then Some (b - 97 + 10)
  else if within 65 70 b then Some (b - 65 + 10)
  else None.

(** The loop of [percent_decode]: an escape that is cut short or not hexadecimal
    stays as it is. *)
Fixpoint percent_bytes (s : bytes) : bytes :=
  match s with
  | [] => []
  | c :: rest =>
      if c =? 37 then
        match rest with
        | h :: l :: rest' =>
            match from_hex_digit h, from_hex_digit l with
            | Some hi, Some lo => Z.lor (wrap8 (Z.shiftl hi 4)) lo :: percent_bytes rest'
            | _, _ => c :: percent_bytes rest
            end
        | _ => c :: percent_bytes rest
        end
      else c :: percent_bytes rest
  end.
Definition percent_decode (input : bytes) : bytes := utf8_lossy (percent_bytes input).

Fixpoint hex_pairs (s : bytes) : result bytes MagnetError :=
  match s with
  | h :: l :: rest =>
      let! hi := ok_or (from_hex_digit h) BadHex in
      let! lo := ok_or (from_hex_digit l) BadHex in
      let! out := hex_pairs rest in
      Ok (Z.lor (wrap8 (Z.shiftl hi 4)) lo :: out)
  | _ => Ok []
  end.
Definition decode_hex (input : bytes) : result bytes MagnetError :=
  if negb (length input =? 40)%nat then Err (BadHashLength (length input)) else hex_pairs input.

Definition to_ascii_uppercase (b : u8) : u8 := if within 97 122 b then b - 32 else b.

Definition base32_value (raw : u8) : option u8 :=
  let c := to_ascii_uppercase raw in
  if within 65 90 c then Some (c - 65) else if within 50 55 c then Some (c - 50 + 26) else None.

(** The loop of [decode_base32]: the bits not written yet, how many there are, and
    the bytes written. *)
Fixpoint base32_loop (s : bytes) (acc bits : u32) (out : bytes) : result bytes MagnetError :=
  match s with
  | [] => if negb (length out =? 20)%nat then Err BadBase32 else Ok out
  | raw :: s =>
      let! val := ok_or (base32_value raw) BadBase32 in
      let acc := Z.lor (wrap32 (Z.shiftl acc 5)) val in
      let bits := bits + 5 in
      if 8 <=? bits then
        let bits := bits - 8 in
        if (20 <=? length out)%nat then Err BadBase32
        else base32_loop s (Z.land acc (Z.shiftl 1 bits - 1)) bits (out ++ [wrap8 (Z.shiftr acc bits)])
      else base32_loop s acc bits out
  end.
Definition decode_base32 (input : bytes) : result bytes MagnetError :=
  if negb (length input =? 32)%nat then Err (BadHashLength (length input)) else base32_loop input 0 0 [].

(** ** Socket addresses as text *)

Definition read_port (s : list Z) : option (u16 * list Z) := read_number 10 65535 (length s) true s.

Definition read_scope_id (s : list Z) : option (u32 * list Z) :=
  s ← read_given_char 37 s; read_number 10 U32_MAX (length s) true s.

Definition read_socket_addr_v4 (s : list Z) : option (SocketAddr * list Z) :=
  '(ip, s) ← read_ipv4_addr s;
  s ← read_given_char 58 s;
  '(port, s) ← read_port s;
  Some (V4 ip port, s).

Definition read_socket_addr_v6 (s : list Z) : option (SocketAddr * list Z) :=
  s ← read_given_char 91 s;
  '(ip, s) ← read_ipv6_addr s;
  let '(scope, s) := match read_scope_id s with Some (scope, s) => (scope, s) | None => (0, s) end in
  s ← read_given_char 93 s;
  s ← read_given_char 58 s;
  '(port, s) ← read_port s;
  Some (V6 ip port 0 scope, s).

(** [str::parse::<SocketAddr>] *)
Definition parse_peer (value : bytes) : option SocketAddr :=
  '(addr, rest) ← match read_socket_addr_v4 value with Some r => Some r | None => read_socket_addr_v6 value end;
  match rest with [] => Some addr | _ => None end.

(** [Display] of addresses. *)
Definition octet (ip : Z) (i : Z) : Z := Z.shiftr ip (8 * i) mod 256.
Definition show_v4 (ip : u32) : bytes :=
  dec (octet ip 3) ++ 46 :: dec (octet ip 2) ++ 46 :: dec (octet ip 1) ++ 46 :: dec (octet ip 0).

Definition hex_digit (d : Z) : u8 := if d <? 10 then 48 + d else 87 + d.
Definition show_group (g : u16) : bytes :=
  let digits := map hex_digit [g / 4096; (g / 256) mod 16; (g / 16) mod 16; g mod 16] in
  match trim_start (Z.eqb 48) digits with [] => [48] | digits => digits end.
Definition show_groups (gs : list u16) : bytes := concat (match gs with [] => [] | g :: gs => show_group g :: map (fun g => 58 :: show_group g) gs end).
Definition groups (ip : u128) : list u16 := map (fun i => Z.shiftr ip (16 * (7 - Z.of_nat i)) mod 65536) (seq 0 8).

(** The longest run of zero groups, the first of several. *)
Fixpoint zero_runs (i : nat) (run best : nat * nat) (gs : list u16) : nat * nat :=
  match gs with
  | [] => best
  | g :: gs =>
      if g =? 0 then
        let run := if (snd run =? 0)%nat then (i, 1%nat) else (fst run, S (snd run)) in
        zero_runs (S i) run (if (snd best <? snd run)%nat then run else best) gs
      else zero_runs (S i) (0%nat, 0%nat) best gs
  end.
Definition show_v6 (ip : u128) : bytes :=
  let gs := groups ip in
  if bool_decide (take 6 gs = [0; 0; 0; 0; 0; 65535]) then str "::ffff:" ++ show_v4 (ip mod 4294967296)
  else
    let '(start, len) := zero_runs 0 (0%nat, 0%nat) (0%nat, 0%nat) gs in
    if (1 <? len)%nat then show_groups (take start gs) ++ [58; 58] ++ show_groups (drop (start + len) gs)
    else show_groups gs.

Definition show_addr (a : SocketAddr) : bytes :=
  match a with
  | V4 ip port => show_v4 ip ++ 58 :: dec port
  | V6 ip port _ scope => 91 :: show_v6 ip ++ (if scope =? 0 then [] else 37 :: dec scope) ++ 93 :: 58 :: dec port
  end.

(** ** Parsing *)

Definition to_ascii_lowercase (s : bytes) : bytes := map (fun b => if within 65 90 b then b + 32 else b) s.

Definition strip_prefix (pat s : bytes) : option bytes := if starts_with pat s then Some (drop (length pat) s) else None.

Definition strip_magnet_prefix (input : bytes) : option bytes :=
  rest ← strip_prefix (str "magnet:") input;
  Some (default rest (strip_prefix (str "//") rest)).

Definition parse_xt (value : bytes) : result bytes MagnetError :=
  let lower := to_ascii_lowercase value in
  match strip_prefix (str "urn:btmh:") lower with
  | Some _ => Err V2NotSupported
  | None =>
      let! hash := ok_or (strip_prefix (str "urn:btih:") lower) MissingXt in
      if (length hash =? 40)%nat then decode_hex hash
      else if (length hash =? 32)%nat then decode_base32 hash
      else Err (BadHashLength (length hash))
  end.

(** What the loop over the parameters has found. *)
Record Found := mkFound { fd_hash : option bytes; fd_v2 : bool; fd_magnet : Magnet }.

Definition apply_param (f : Found) (key value : bytes) : result Found MagnetError :=
  let '(mkFound hash v2 (mkMagnet h name trackers peers webseeds)) := f in
  if decide (key = str "xt") then
    match parse_xt value with
    | Ok new => Ok (mkFound (Some (default new hash)) v2 (fd_magnet f))
    | Err V2NotSupported => Ok (mkFound hash true (fd_magnet f))
    | Err e => Err e
    end
  else if decide (key = str "dn") then
    match name, value with
    | None, _ :: _ => Ok (mkFound hash v2 (mkMagnet h (Some value) trackers peers webseeds))
    | _, _ => Ok f
    end
  else if decide (key = str "tr") then
    match value with [] => Ok f | _ => Ok (mkFound hash v2 (mkMagnet h name (trackers ++ [value]) peers webseeds)) end
  else if decide (key = str "x.pe") then
    match parse_peer value with Some addr => Ok (mkFound hash v2 (mkMagnet h name trackers (peers ++ [addr]) webseeds)) | None => Ok f end
  else if decide (key = str "ws") then
    match value with [] => Ok f | _ => Ok (mkFound hash v2 (mkMagnet h name trackers peers (webseeds ++ [value]))) end
  else Ok f.

Definition add_param (f : Found) (param : bytes) : result Found MagnetError :=
  match param with
  | [] => Ok f
  | _ =>
      let '(raw_key, raw_value) := default (param, []) (split_once 61 param) in
      apply_param f (to_ascii_lowercase (percent_decode raw_key)) (percent_decode raw_value)
  end.

Fixpoint add_params (f : Found) (params : list bytes) : result Found MagnetError :=
  match params with
  | [] => Ok f
  | param :: params => let! f := add_param f param in add_params f params
  end.

Definition nothing_found : Found := mkFound None false (mkMagnet [] None [] [] []).

Definition magnet_parse (input : bytes) : result Magnet MagnetError :=
  let! rest := ok_or (strip_magnet_prefix input) InvalidUri in
  let query := match split_once 63 rest with Some (_, query) => query | None => rest end in
  match query with
  | [] => Err MissingXt
  | _ =>
      let! f := add_params nothing_found (split_on (Z.eqb 38) query) in
      match fd_hash f with
      | Some hash =>
          let m := fd_magnet f in Ok (mkMagnet hash (mg_display_name m) (mg_trackers m) (mg_peers m) (mg_webseeds m))
      | None => if fd_v2 f then Err V2NotSupported else Err MissingXt
      end
  end.

(** ** Printing *)

Definition hex_info_hash (info_hash : bytes) : bytes :=
  concat (map (fun b => [hex_digit (b / 16); hex_digit (b mod 16)]) info_hash).

Definition name_or_hash (m : Magnet) : bytes := default (hex_info_hash (mg_info_hash m)) (mg_display_name m).

Definition magnet_params (m : Magnet) : list bytes :=
  (str "xt=urn:btih:" ++ hex_info_hash (mg_info_hash m)) ::
  match mg_display_name m with Some name => [str "dn=" ++ url_encode_bytes name] | None => [] end ++
  map (fun tr => str "tr=" ++ url_encode_bytes tr) (mg_trackers m) ++
  map (fun p => str "x.pe=" ++ show_addr p) (mg_peers m) ++
  map (fun ws => str "ws=" ++ url_encode_bytes ws) (mg_webseeds m).

(** [Display]: the first parameter follows the question mark, the others an
    ampersand. *)
Definition magnet_display (m : Magnet) : bytes :=
  str "magnet:?" ++ concat (match magnet_params m with [] => [] | p :: ps => p :: map (cons 38) ps end).

Definition example_magnet : Magnet :=
  mkMagnet (map Z.of_nat (seq 1 20)) (Some (str "a b&c=d%")) [str "http://t.example/announce?x=1"]
    [V4 2130706433 6881; V6 1 443 0 0; V6 (42540766411282592856903984951653826561) 80 0 0; V6 (281473902969345) 81 0 0] [str "http://w/"].

(** ** Decoding what was encoded *)

Lemma from_hex_value c : from_hex_digit c = hex_value c.
Proof.
  unfold from_hex_digit, hex_value, is_ascii_digit, within.
  repeat match goal with |- context [(?a <=? ?b)] => destruct (Z.leb_spec a b) end; cbn [andb]; try done; try (f_equal; lia); lia.
Qed.

(** Bits put below a shifted value are added to it. *)
Lemma lor_low a b k : 0 <= k -> 0 <= b < 2 ^ k -> Z.lor (Z.shiftl a k) b = a * 2 ^ k + b.
Proof.
  intros Hk Hb. assert (Hland : Z.land (Z.shiftl a k) b = 0).
  { apply Z.bits_inj'. intros n Hn. rewrite Z.land_spec, Z.bits_0. destruct (Z.ltb_spec n k).
    - by rewrite Z.shiftl_spec_low.
    - rewrite andb_comm. rewrite <- (Z.mod_small b (2 ^ k)) by done. by rewrite Z.mod_pow2_bits_high. }
  rewrite <- (Z.lxor_lor _ _ Hland), <- (Z.add_nocarry_lxor _ _ Hland). by rewrite Z.shiftl_mul_pow2.
Qed.

Lemma nibbles hi lo : 0 <= hi < 16 -> 0 <= lo < 16 -> Z.lor (wrap8 (Z.shiftl hi 4)) lo = 16 * hi + lo.
Proof.
  intros Hh Hl. rewrite wrap8_small; [|rewrite Z.shiftl_mul_pow2 by lia; ranges].
  rewrite lor_low by lia. change (2 ^ 4) with 16. lia.
Qed.

Lemma hex_value_range c d : hex_value c = Some d -> 0 <= d < 16.
Proof.
  unfold hex_value, is_ascii_digit.
  repeat match goal with |- context [(?a <=? ?b)] => destruct (Z.leb_spec a b) end; cbn [andb]; intros; simplify_eq; lia.
Qed.

(** The percent decoder undoes the encoder. *)
Lemma percent_bytes_encode content : wf_bytes content -> percent_bytes (url_encode_bytes content) = content.
Proof.
  induction 1 as [|b content Hb _ IH]; [done|]. cbn [url_encode_bytes].
  destruct (url_encode_byte_cases b Hb) as [[Hu ->]|(h & l & -> & Hh & Hl & _)]; cbn [app percent_bytes].
  - destruct (Z.eqb_spec b 37) as [->|]; [done|]. by rewrite IH.
  - rewrite !from_hex_value, Hh, Hl, IH. f_equal.
    rewrite nibbles by (eapply hex_value_range; eassumption). pose proof (Z_div_mod_eq_full b 16). lia.
Qed.

Lemma percent_decode_encode content : wf_bytes content -> is_utf8 content = true -> percent_decode (url_encode_bytes content) = content.
Proof. intros Hw Hu. unfold percent_decode. rewrite percent_bytes_encode by done. by apply utf8_lossy_valid. Qed.

(** Text without escapes is left alone. *)
Lemma percent_decode_plain s : Forall (fun c => is_ascii c /\ c <> 37) s -> percent_decode s = s.
Proof.
  intros H. assert (E : percent_bytes s = s).
  { induction H as [|c s [_ Hc] _ IH]; [done|]. cbn [percent_bytes]. rewrite (proj2 (Z.eqb_neq _ _)) by done. by rewrite IH. }
  unfold percent_decode. rewrite E. apply utf8_lossy_ascii. eapply Forall_impl; [done|]. by intros c [? _].
Qed.

Lemma hex_digit_value d : 0 <= d < 16 -> hex_value (hex_digit d) = Some d /\ is_unreserved (hex_digit d) = true /\ within 65 90 (hex_digit d) = false.
Proof.
  intros Hd. unfold hex_digit, hex_value, is_unreserved, is_ascii_digit, within.
  destruct (Z.ltb_spec d 10); repeat match goal with |- context [(?a <=? ?b)] => destruct (Z.leb_spec a b); try lia end; cbn;
    split_and!; try done; f_equal; lia.
Qed.

Lemma hex_pairs_hex h : wf_bytes h -> hex_pairs (hex_info_hash h) = Ok h.
Proof.
  unfold hex_info_hash. induction 1 as [|b h Hb _ IH]; [done|]. cbn [map concat app hex_pairs].
  assert (0 <= b / 16 < 16 /\ 0 <= b mod 16 < 16) as [H1 H2].
  { unfold is_u8, U8_MAX in Hb. split; [split; [apply Z.div_pos|apply Z.div_lt_upper_bound]; lia|apply Z.mod_pos_bound; lia]. }
  rewrite !from_hex_value, (proj1 (hex_digit_value _ H1)), (proj1 (hex_digit_value _ H2)), IH. cbn [ok_or].
  do 2 f_equal. rewrite nibbles by done. pose proof (Z_div_mod_eq_full b 16). lia.
Qed.

(** ** Base 32 *)

(** The number the letters stand for. *)
Definition base32_number (s : bytes) : option Z :=
  fold_left (fun acc raw => n ← acc; v ← base32_value raw; Some (n * 32 + v)) s (Some 0).

Lemma base32_value_range raw v : base32_value raw = Some v -> 0 <= v < 32.
Proof.
  unfold base32_value, within.
  repeat match goal with |- context [(?a <=? ?b)] => destruct (Z.leb_spec a b) end; cbn [andb]; intros; simplify_eq; lia.
Qed.

Lemma base32_number_snoc s raw : base32_number (s ++ [raw]) = (n ← base32_number s; v ← base32_value raw; Some (n * 32 + v)).
Proof. unfold base32_number. by rewrite fold_left_app. Qed.

Lemma base32_number_bad d raw s : base32_value raw = None -> base32_number (d ++ raw :: s) = None.
Proof.
  intros Hr. unfold base32_number. rewrite fold_left_app. cbn [fold_left]. rewrite Hr.
  assert (E : (n ← fold_left (fun acc raw => n ← acc; v ← base32_value raw; Some (n * 32 + v)) d (Some 0); v ← None; Some (n * 32 + v)) = (None : option Z)).
  { by destruct (fold_left _ d (Some 0)). }
  rewrite E. clear E. induction s as [|c s IH]; [done|]. cbn. exact IH.
Qed.

(** One letter: the bits it adds, and the byte that is complete. *)
Lemma base32_step acc bits val :
  0 <= bits < 8 -> 0 <= acc < 2 ^ bits -> 0 <= val < 32 ->
  let acc' := Z.lor (wrap32 (Z.shiftl acc 5)) val in
  acc' = acc * 32 + val /\ 0 <= acc' < 2 ^ (bits + 5) /\
  (8 <= bits + 5 ->
   let b := bits + 5 - 8 in
   Z.land acc' (Z.shiftl 1 b - 1) = acc' mod 2 ^ b /\ wrap8 (Z.shiftr acc' b) = acc' / 2 ^ b /\ is_u8 (acc' / 2 ^ b)).
Proof.
  intros Hb Ha Hv acc'. assert (Hp : 2 ^ (bits + 5) = 2 ^ bits * 32) by (rewrite Z.pow_add_r by lia; reflexivity).
  assert (Hle : 2 ^ bits <= 128) by (change 128 with (2 ^ 7); apply Z.pow_le_mono_r; lia).
  assert (E : acc' = acc * 32 + val).
  { unfold acc'. rewrite wrap32_small by (rewrite Z.shiftl_mul_pow2 by lia; change (2 ^ 5) with 32; ranges). rewrite lor_low by lia. reflexivity. }
  split_and!; [done|lia|lia|]. intros H8 b.
  assert (Hpos : 0 < 2 ^ b) by (apply Z.pow_pos_nonneg; lia).
  assert (Hq : is_u8 (acc' / 2 ^ b)).
  { unfold is_u8, U8_MAX. assert (2 ^ (bits + 5) = 2 ^ b * 256) by (change 256 with (2 ^ 8); rewrite <- Z.pow_add_r by lia; f_equal; lia).
    split; [apply Z.div_pos; lia|]. assert (acc' / 2 ^ b < 256) by (apply Z.div_lt_upper_bound; lia). lia. }
  split_and!; [|by rewrite Z.shiftr_div_pow2, wrap8_small by (done || lia)|apply Hq..].
  rewrite Z.shiftl_mul_pow2, Z.mul_1_l by lia. replace (2 ^ b - 1) with (Z.ones b) by (rewrite Z.ones_equiv; lia). apply Z.land_ones. lia.
Qed.

(** What the loop keeps: the bytes written and the bits left make up the number of
    the letters read. *)
Lemma base32_loop_spec s d acc bits out n :
  base32_number d = Some n -> Z.of_nat (5 * length d) = 8 * Z.of_nat (length out) + bits -> 0 <= bits < 8 -> 0 <= acc < 2 ^ bits ->
  wf_bytes out -> n = of_be out * 2 ^ bits + acc -> (length d + length s = 32)%nat ->
  match base32_number (d ++ s) with
  | Some m => exists h, base32_loop s acc bits out = Ok h /\ wf_bytes h /\ length h = 20%nat /\ of_be h = m
  | None => base32_loop s acc bits out = Err BadBase32
  end.
Proof.
  revert d acc bits out n. induction s as [|raw s IH]; intros d acc bits out n Hn Hc Hb Ha Hw E Hl.
  - rewrite app_nil_r, Hn. cbn [length] in Hl. assert (bits = 0 /\ length out = 20%nat) as [-> Hout] by lia.
    cbn [base32_loop]. rewrite Hout. exists out. split_and!; try done. change (2 ^ 0) with 1 in *. lia.
  - cbn [base32_loop length] in *. destruct (base32_value raw) as [val|] eqn:Ev; last first.
    { rewrite base32_number_bad by done. reflexivity. }
    pose proof (base32_value_range _ _ Ev) as Hval. destruct (base32_step acc bits val Hb Ha Hval) as (Eacc & Hacc & Hstep).
    cbn [ok_or]. set (acc' := Z.lor _ val) in *. clearbody acc'.
    assert (Hn' : base32_number (d ++ [raw]) = Some (n * 32 + val)) by (rewrite base32_number_snoc, Hn, Ev; reflexivity).
    replace (d ++ raw :: s) with ((d ++ [raw]) ++ s) by by rewrite <- app_assoc.
    assert (Hl' : (length (d ++ [raw]) + length s = 32)%nat) by (rewrite length_app; cbn; lia).
    assert (Hc' : Z.of_nat (5 * length (d ++ [raw])) = 8 * Z.of_nat (length out) + bits + 5) by (rewrite length_app; cbn; lia).
    assert (Hp : 2 ^ (bits + 5) = 2 ^ bits * 32) by (rewrite Z.pow_add_r by lia; reflexivity).
    destruct (Z.leb_spec 8 (bits + 5)) as [H8|H8].
    + destruct (Hstep H8) as (Eland & Ebyte & Hbyte). set (b := bits + 5 - 8) in *.
      rewrite (proj2 (Nat.leb_gt _ _)) by lia. rewrite Eland, Ebyte. assert (Hpos : 0 < 2 ^ b) by (apply Z.pow_pos_nonneg; lia).
      eapply IH; [exact Hn'| |lia|apply Z.mod_pos_bound; lia|apply Forall_app; split; [done|by constructor]| |exact Hl'].
      * rewrite Hc', length_app. cbn [length]. lia.
      * rewrite of_be_snoc. assert (E8 : 2 ^ (bits + 5) = 2 ^ b * 256) by (change 256 with (2 ^ 8); rewrite <- Z.pow_add_r by lia; f_equal; lia).
        pose proof (Z_div_mod_eq_full acc' (2 ^ b)). rewrite E. nia.
    + eapply IH; [exact Hn'|lia|lia|lia|done| |exact Hl']. rewrite Hp. lia.
Qed.

(** A base-32 hash is the twenty bytes of the number its letters stand for, and
    letters outside the alphabet are refused. *)
Lemma decode_base32_exact s :
  length s = 32%nat ->
  match base32_number s with
  | Some m => exists h, decode_base32 s = Ok h /\ wf_bytes h /\ length h = 20%nat /\ of_be h = m
  | None => decode_base32 s = Err BadBase32
  end.
Proof.
  intros Hs. unfold decode_base32. rewrite Hs. cbn [Nat.eqb negb].
  apply (base32_loop_spec s [] 0 0 [] 0); try done. by constructor.
Qed.

(** ** Addresses *)

(** The digits of a printed number, read back in front of anything. *)
Lemma read_dec_loop fuel z tl :
  0 <= z -> (Z.to_nat (Z.log2 z) < fuel)%nat ->
  exists k, (k + length tl = length (dec_loop fuel z tl))%nat /\ (0 < k)%nat /\
    forall max md c, z <= max -> read_digits 10 max (k + md) 0 c (dec_loop fuel z tl) = read_digits 10 max md z (c + k) tl.
Proof.
  revert z tl. induction fuel as [|fuel IH]; intros z tl Hz Hf; [lia|]. cbn [dec_loop].
  pose proof (Z.mod_pos_bound z 10 ltac:(lia)). pose proof (Z_div_mod_eq_full z 10).
  assert (Hd : forall x, 0 <= x < 10 -> to_digit 10 (48 + x) = Some x).
  { intros x Hx. unfold to_digit, within. rewrite (proj2 (Z.leb_le 48 _)), (proj2 (Z.leb_le _ 57)) by lia. cbn.
    rewrite (proj2 (Z.ltb_lt _ _)) by lia. f_equal. lia. }
  destruct (Z.ltb_spec z 10).
  - exists 1%nat. split_and!; [done|lia|]. intros max md c Hm. cbn [read_digits Nat.add]. rewrite Hd by done.
    rewrite Z.mod_small by lia. rewrite (proj2 (Z.ltb_ge _ _)) by lia. f_equal; lia.
  - destruct (IH (z / 10) (48 + z mod 10 :: tl)) as (k & Hk & Hpos & Hread).
    { apply Z.div_pos; lia. }
    { pose proof (log2_div10 z ltac:(lia)). pose proof (Z.log2_nonneg (z / 10)). lia. }
    cbn [length] in Hk. exists (S k). split_and!; [lia|lia|]. intros max md c Hm.
    replace (S k + md)%nat with (k + S md)%nat by lia. rewrite Hread by (apply Z.div_le_upper_bound; lia).
    cbn [read_digits]. rewrite Hd by done. rewrite (proj2 (Z.ltb_ge _ _)) by lia. f_equal; lia.
Qed.

Lemma read_port_dec port : is_u16 port -> read_port (dec port) = Some (port, []).
Proof.
  intros Hp. unfold read_port, read_number. destruct (read_dec_loop (S (Z.to_nat (Z.log2 port))) port []) as (k & Hk & Hpos & Hread); [ranges|lia|].
  fold (dec port) in *. cbn [length] in Hk. rewrite <- Hk. rewrite Nat.add_0_r in *. specialize (Hread 65535 0%nat 0%nat ltac:(ranges)).
  rewrite Nat.add_0_r in Hread. rewrite Hread. cbn [read_digits Nat.add]. red_bind. destruct k; [lia|]. done.
Qed.

Lemma dec_loop_app fuel z tl : dec_loop fuel z tl = dec_loop fuel z [] ++ tl.
Proof.
  revert z tl. induction fuel as [|fuel IH]; intros z tl; [done|]. cbn [dec_loop]. destruct (z <? 10); [done|].
  rewrite IH, (IH _ [_]), <- app_assoc. done.
Qed.

(** Every octet, with a point or a colon behind it. *)
Lemma read_octet_text n c r : 0 <= n < 256 -> c = 46 \/ c = 58 \/ c = 93 -> read_number 10 255 3 false (dec n ++ c :: r) = Some (n, c :: r).
Proof.
  intros Hn Hc. assert (Hform : (length (dec n) <= 3)%nat /\ (head (dec n) = Some 48 -> length (dec n) = 1%nat) /\ dec n <> []).
  { assert (Hin : n ∈ map Z.of_nat (seq 0 256)).
    { apply list_elem_of_fmap. exists (Z.to_nat n). split; [lia|]. apply elem_of_seq. lia. }
    clear Hn. revert n Hin. apply Forall_forall. apply (bool_decide_unpack _). vm_compute. exact I. }
  destruct Hform as (Hlen & Hzero & Hne). unfold read_number, dec in *. rewrite <- dec_loop_app.
  destruct (read_dec_loop (S (Z.to_nat (Z.log2 n))) n (c :: r)) as (k & Hk & Hpos & Hread); [lia|lia|].
  rewrite dec_loop_app, length_app in Hk. replace 3%nat with (k + (3 - k))%nat by lia. rewrite Hread by lia.
  assert (Hend : read_digits 10 255 (3 - k) n (0 + k) (c :: r) = Some (n, k, c :: r)) by by destruct Hc as [-> | [-> | ->]].
  rewrite Hend. red_bind. rewrite dec_loop_app.
  destruct (dec_loop (S (Z.to_nat (Z.log2 n))) n []) as [|x l] eqn:E; [done|]. cbn [app head negb andb] in *.
  destruct k; [lia|]. cbn [Nat.eqb]. case_bool_decide as Hx; [|done]. specialize (Hzero Hx). cbn [length] in *.
  by rewrite (proj2 (Nat.ltb_ge _ _)) by lia.
Qed.

Lemma octet_range ip i : 0 <= octet ip i < 256.
Proof. apply Z.mod_pos_bound. lia. Qed.

Lemma octets_value ip : is_u32 ip -> ip = octet ip 3 * 256 ^ 3 + (octet ip 2 * 256 ^ 2 + (octet ip 1 * 256 ^ 1 + (octet ip 0 * 256 ^ 0 + 0))).
Proof.
  intros Hip. unfold octet. rewrite !Z.shiftr_div_pow2 by lia. unfold is_u32, U32_MAX in Hip.
  change (2 ^ (8 * 3)) with 16777216. change (2 ^ (8 * 2)) with 65536. change (2 ^ (8 * 1)) with 256. change (2 ^ (8 * 0)) with 1.
  change (256 ^ 3) with 16777216. change (256 ^ 2) with 65536. change (256 ^ 1) with 256. change (256 ^ 0) with 1.
  Z.to_euclidean_division_equations. lia.
Qed.

Lemma read_show_v4 ip r : is_u32 ip -> read_ipv4_addr (show_v4 ip ++ 58 :: r) = Some (ip, 58 :: r).
Proof.
  intros Hip. unfold read_ipv4_addr, show_v4. repeat (rewrite <- app_assoc; cbn [app]). cbn [read_octets]. unfold read_separator. cbn [Nat.ltb Nat.leb].
  pose proof (octet_range ip). repeat first [rewrite read_octet_text by auto|progress red_bind|progress cbn [read_given_char Z.eqb Pos.eqb]].
  do 2 f_equal. symmetry. by apply octets_value.
Qed.

Lemma parse_show_v4 ip port : is_u32 ip -> is_u16 port -> parse_peer (show_addr (V4 ip port)) = Some (V4 ip port).
Proof.
  intros Hip Hport. unfold parse_peer, read_socket_addr_v4, show_addr. rewrite read_show_v4 by done. red_bind.
  cbn [read_given_char Z.eqb Pos.eqb]. red_bind. by rewrite read_port_dec.
Qed.

(** *** IPv6 addresses *)

Lemma hex_digit_read d : 0 <= d < 16 -> to_digit 16 (hex_digit d) = Some d.
Proof.
  intros Hd. unfold hex_digit, to_digit, within. destruct (Z.ltb_spec d 10).
  - rewrite (proj2 (Z.leb_le 48 _)), (proj2 (Z.leb_le _ 57)) by lia. cbn [andb]. red_bind. rewrite (proj2 (Z.ltb_lt _ _)) by lia. f_equal. lia.
  - rewrite (proj2 (Z.leb_gt _ 57)), andb_false_r by lia. rewrite (proj2 (Z.leb_le 97 _)), (proj2 (Z.leb_le _ 122)) by lia. cbn [andb]. red_bind.
    rewrite (proj2 (Z.ltb_lt _ _)) by lia. f_equal. lia.
Qed.

(** The value of hexadecimal digits after [acc]. *)
Definition hex_after (acc : Z) (ds : list Z) : Z := fold_left (fun acc d => acc * 16 + d) ds acc.

Lemma hex_after_le acc ds : 0 <= acc -> Forall (fun d => 0 <= d < 16) ds -> acc <= hex_after acc ds.
Proof.
  intros Ha Hds. revert acc Ha. induction Hds as [|d ds Hd _ IH]; intros acc Ha; [done|]. cbn. specialize (IH (acc * 16 + d)). unfold hex_after in *. lia.
Qed.

Lemma read_hex_digits ds md acc count c r :
  Forall (fun d => 0 <= d < 16) ds -> (length ds <= md)%nat -> 0 <= acc -> to_digit 16 c = None -> hex_after acc ds <= 65535 ->
  read_digits 16 65535 md acc count (map hex_digit ds ++ c :: r) = Some (hex_after acc ds, (count + length ds)%nat, c :: r).
Proof.
  intros Hds. revert md acc count. induction Hds as [|d ds Hd Hds IH]; intros md acc count Hl Ha Hc Hm; cbn [map app read_digits length] in *.
  { by rewrite Hc, Nat.add_0_r. }
  rewrite hex_digit_read by done. change (hex_after acc (d :: ds)) with (hex_after (acc * 16 + d) ds) in *.
  pose proof (hex_after_le (acc * 16 + d) ds ltac:(lia) Hds).
  rewrite (proj2 (Z.ltb_ge _ _)) by lia. destruct md as [|md]; [lia|]. rewrite IH by (done || lia). do 3 f_equal. lia.
Qed.

(** The digits a group is printed with. *)
Definition group_digits (g : u16) : list Z :=
  if g <? 16 then [g mod 16] else if g <? 256 then [(g / 16) mod 16; g mod 16]
  else if g <? 4096 then [(g / 256) mod 16; (g / 16) mod 16; g mod 16] else [g / 4096; (g / 256) mod 16; (g / 16) mod 16; g mod 16].

Lemma hex_digit_48 d : 0 <= d < 16 -> (48 =? hex_digit d) = (d =? 0).
Proof. intros Hd. unfold hex_digit. destruct (Z.ltb_spec d 10), (Z.eqb_spec d 0); apply Z.eqb_eq || apply Z.eqb_neq; lia. Qed.

Lemma show_group_digits g : is_u16 g ->
  show_group g = map hex_digit (group_digits g) /\ Forall (fun d => 0 <= d < 16) (group_digits g) /\
  (0 < length (group_digits g) <= 4)%nat /\ hex_after 0 (group_digits g) = g.
Proof.
  intros Hg. unfold is_u16, U16_MAX in Hg. unfold show_group, group_digits, hex_after.
  assert (B3 : 0 <= g / 4096 < 16) by (split; [apply Z.div_pos; lia|apply Z.div_lt_upper_bound; lia]).
  pose proof (Z.mod_pos_bound (g / 256) 16 ltac:(lia)) as B2. pose proof (Z.mod_pos_bound (g / 16) 16 ltac:(lia)) as B1.
  pose proof (Z.mod_pos_bound g 16 ltac:(lia)) as B0. cbn [map trim_start]. rewrite !hex_digit_48 by done.
  destruct (Z.ltb_spec g 16); [|destruct (Z.ltb_spec g 256); [|destruct (Z.ltb_spec g 4096)]].
  - assert (g / 4096 = 0 /\ (g / 256) mod 16 = 0 /\ (g / 16) mod 16 = 0) as (-> & -> & ->) by (Z.to_euclidean_division_equations; lia).
    cbn [Z.eqb]. destruct (Z.eqb_spec (g mod 16) 0) as [E|E].
    + rewrite E. cbn. split_and!; try lia; [done|repeat (apply Forall_cons_2; [lia|]); apply Forall_nil_2|Z.to_euclidean_division_equations; lia].
    + cbn. split_and!; try lia; [done|repeat (apply Forall_cons_2; [lia|]); apply Forall_nil_2|Z.to_euclidean_division_equations; lia].
  - assert (g / 4096 = 0 /\ (g / 256) mod 16 = 0) as (-> & ->) by (Z.to_euclidean_division_equations; lia).
    rewrite (proj2 (Z.eqb_neq ((g / 16) mod 16) 0)) by (Z.to_euclidean_division_equations; lia).
    cbn. split_and!; try lia; [done|repeat (apply Forall_cons_2; [lia|]); apply Forall_nil_2|Z.to_euclidean_division_equations; lia].
  - assert (g / 4096 = 0) as -> by (Z.to_euclidean_division_equations; lia).
    rewrite (proj2 (Z.eqb_neq ((g / 256) mod 16) 0)) by (Z.to_euclidean_division_equations; lia).
    cbn. split_and!; try lia; [done|repeat (apply Forall_cons_2; [lia|]); apply Forall_nil_2|Z.to_euclidean_division_equations; lia].
  - rewrite (proj2 (Z.eqb_neq (g / 4096) 0)) by (Z.to_euclidean_division_equations; lia).
    cbn. split_and!; try lia; [done|repeat (apply Forall_cons_2; [lia|]); apply Forall_nil_2|Z.to_euclidean_division_equations; lia].
Qed.

Lemma read_group g c r : is_u16 g -> to_digit 16 c = None -> read_number 16 65535 4 true (show_group g ++ c :: r) = Some (g, c :: r).
Proof.
  intros Hg Hc. destruct (show_group_digits g Hg) as (-> & Hd & Hl & Hv). unfold read_number.
  rewrite read_hex_digits by (done || lia || (rewrite Hv; unfold is_u16, U16_MAX in Hg; lia)). red_bind. rewrite Hv.
  cbn [Nat.add]. rewrite (proj2 (Nat.eqb_neq _ _)) by lia. done.
Qed.

(** An IPv4 address has points in it. *)
Lemma read_digits_suffix radix max md acc count s v n r : read_digits radix max md acc count s = Some (v, n, r) -> exists p, s = p ++ r.
Proof.
  revert md acc count. induction s as [|c s IH]; intros md acc count; cbn [read_digits]; [intros [= _ _ <-]; by exists []|].
  destruct (to_digit radix c) as [d|]; [|intros [= _ _ <-]; by exists []]. destruct (max <? _); [done|]. destruct md; [done|].
  intros (p & ->)%IH. by exists (c :: p).
Qed.

Lemma read_ipv4_point s x : read_ipv4_addr s = Some x -> 46 ∈ s.
Proof.
  unfold read_ipv4_addr. cbn [read_octets]. unfold read_separator. cbn [Nat.ltb Nat.leb]. intros H.
  destruct (read_number 10 255 3 false s) as [[b s1]|] eqn:E; cbn [mbind option_bind] in H; rewrite E in H; cbn [mbind option_bind] in H; [|done].
  unfold read_number in E. destruct (read_digits 10 255 3 0 0 s) as [[[v n] r]|] eqn:Ed; [|done]. cbn [mbind option_bind] in E.
  destruct (n =? 0)%nat; [done|]. destruct (_ && _); [done|]. injection E as <- <-.
  apply read_digits_suffix in Ed as (p & ->).
  destruct r as [|c r]; cbn [read_given_char mbind option_bind] in H; [done|]. destruct (Z.eqb_spec c 46) as [->|]; [set_solver|done].
Qed.

(** What can follow the groups: the gap, or the closing bracket. *)
Definition group_end (rest : bytes) : Prop := (exists r, rest = 58 :: 58 :: r) \/ (exists r, rest = 93 :: r).

Lemma group_end_read limit i rest : group_end rest -> 46 ∉ rest -> read_groups limit i rest = ([], false, rest).
Proof.
  intros He Hp. destruct limit as [|limit]; [done|]. cbn [read_groups].
  assert (H4 : (if (0 <? limit)%nat then read_separator 58 i read_ipv4_addr rest else None) = None).
  { destruct (0 <? limit)%nat; [|done]. unfold read_separator. destruct (0 <? i)%nat; red_bind.
    - destruct (read_given_char 58 rest) as [s|] eqn:E; [|done]. red_bind. destruct (read_ipv4_addr s) eqn:E4; [|done]. exfalso.
      apply read_ipv4_point in E4. unfold read_given_char in E. destruct rest as [|c rest]; [done|]. destruct (c =? 58); [|done]. injection E as <-. apply Hp. by right.
    - destruct (read_ipv4_addr rest) eqn:E4; [|done]. by apply read_ipv4_point in E4. }
  rewrite H4. unfold read_separator. by destruct He as [[r ->]|[r ->]], (0 <? i)%nat.
Qed.

(** The groups behind the first. *)
Definition show_more (gs : list u16) : bytes := concat (map (fun g => 58 :: show_group g) gs).

Lemma group_end_digit rest : group_end rest -> exists c r, rest = c :: r /\ to_digit 16 c = None.
Proof. intros [[r ->]|[r ->]]; by eexists _, _. Qed.

Lemma more_digit gs rest : group_end rest -> exists c r, show_more gs ++ rest = c :: r /\ to_digit 16 c = None.
Proof. intros He. destruct gs as [|g gs]; [by apply group_end_digit|by eexists _, _]. Qed.

Lemma no_point_more gs rest : Forall is_u16 gs -> 46 ∉ rest -> 46 ∉ show_more gs ++ rest.
Proof.
  intros Hgs Hr. induction Hgs as [|g gs Hg _ IH]; [done|]. cbn [show_more map concat]. fold (show_more gs). cbn [app]. rewrite <-app_assoc.
  intros [?|[Hin|Hin]%elem_of_app]%elem_of_cons; [done| |done]. destruct (show_group_digits g Hg) as (E & Hd & _). rewrite E in Hin.
  apply list_elem_of_fmap in Hin as (d & Ed & Hd'). rewrite Forall_forall in Hd. specialize (Hd d Hd'). unfold hex_digit in Ed. destruct (d <? 10); lia.
Qed.

Lemma read_more limit i gs rest :
  (0 < i)%nat -> Forall is_u16 gs -> (length gs <= limit)%nat -> group_end rest -> 46 ∉ rest ->
  read_groups limit i (show_more gs ++ rest) = (gs, false, rest).
Proof.
  intros Hi Hgs. revert limit i Hi. induction Hgs as [|g gs Hg Hgs IH]; intros limit i Hi Hl He Hp; [by apply group_end_read|].
  destruct limit as [|limit]; [cbn in Hl; lia|]. pose proof (no_point_more (g :: gs) rest ltac:(by constructor) Hp) as Hpt.
  cbn [show_more map concat] in *. fold (show_more gs) in *. cbn [app] in *. rewrite <-app_assoc in *. cbn [read_groups]. unfold read_separator.
  rewrite (proj2 (Nat.ltb_lt 0 i)) by done. cbn [read_given_char Z.eqb Pos.eqb]. red_bind.
  assert (E4 : read_ipv4_addr (show_group g ++ show_more gs ++ rest) = None).
  { destruct (read_ipv4_addr _) eqn:E4; [|done]. apply read_ipv4_point in E4. exfalso. apply Hpt. by right. }
  rewrite E4. assert (Eif : (if (0 <? limit)%nat then @None (u32 * list Z) else None) = None) by by destruct (0 <? limit)%nat. rewrite Eif.
  destruct (more_digit gs rest He) as (c & r & E & Hc). rewrite E at 1. rewrite read_group by done. rewrite <-E.
  rewrite IH by (done || cbn in Hl; lia). done.
Qed.

Lemma read_show_groups limit gs rest :
  Forall is_u16 gs -> (length gs <= limit)%nat -> group_end rest -> 46 ∉ rest ->
  read_groups limit 0 (show_groups gs ++ rest) = (gs, false, rest).
Proof.
  intros Hgs Hl He Hp. destruct gs as [|g gs]; [by apply group_end_read|].
  destruct limit as [|limit]; [cbn in Hl; lia|]. apply Forall_cons in Hgs as [Hg Hgs].
  assert (Hpt : 46 ∉ show_group g ++ show_more gs ++ rest).
  { pose proof (no_point_more (g :: gs) rest ltac:(by constructor) Hp) as H. cbn [show_more map concat] in H. fold (show_more gs) in H. cbn [app] in H.
    rewrite <-app_assoc in H. intros Hin. apply H. by right. }
  unfold show_groups. cbn [concat]. fold (show_more gs). rewrite <-app_assoc. cbn [read_groups]. unfold read_separator. change (0 <? 0)%nat with false. cbv iota. red_bind.
  assert (E4 : read_ipv4_addr (show_group g ++ show_more gs ++ rest) = None).
  { destruct (read_ipv4_addr _) eqn:E4; [|done]. by apply read_ipv4_point in E4. }
  rewrite E4. assert (Eif : (if (0 <? limit)%nat then @None (u32 * list Z) else None) = None) by by destruct (0 <? limit)%nat.
  rewrite Eif.
  destruct (more_digit gs rest He) as (c & r & E & Hc). rewrite E at 1. rewrite read_group by done. rewrite <-E.
  rewrite read_more by (done || lia || cbn in Hl; lia). done.
Qed.

(** The gap is made of zero groups. *)
Lemma zero_runs_spec pre gs run best :
  let full := pre ++ gs in
  let zeros r := (snd r = 0 \/ forall j, fst r <= j < fst r + snd r -> full !! j = Some 0%Z)%nat in
  zeros run -> zeros best -> (snd run = 0 \/ fst run + snd run = length pre)%nat -> (fst best + snd best <= length pre)%nat ->
  let r := zero_runs (length pre) run best gs in zeros r /\ (fst r + snd r <= length full)%nat.
Proof.
  intros full zeros. subst full zeros. revert pre run best. induction gs as [|g gs IH]; intros pre run best Hr Hb Hre Hbe; cbn [zero_runs].
  { rewrite app_nil_r in *. by split. }
  assert (Hlen : S (length pre) = length (pre ++ [g])) by (rewrite length_app; cbn; lia).
  assert (Hfull : pre ++ g :: gs = (pre ++ [g]) ++ gs) by by rewrite <-app_assoc.
  destruct (Z.eqb_spec g 0) as [->|Hg]; cbv zeta.
  - set (run' := if (snd run =? 0)%nat then _ else _).
    assert (Hrun : (snd run' = 0 \/ forall j, fst run' <= j < fst run' + snd run' -> (pre ++ 0%Z :: gs) !! j = Some 0%Z)%nat /\ (fst run' + snd run' = S (length pre))%nat).
    { unfold run'. destruct (Nat.eqb_spec (snd run) 0); cbn [fst snd].
      - split; [right; intros j Hj; assert (j = length pre) as -> by lia; by apply list_lookup_middle|lia].
      - split; [right|lia]. intros j Hj. destruct (decide (j = length pre)) as [->|]; [by apply list_lookup_middle|].
        destruct Hr as [?|Hr]; [lia|]. apply Hr. lia. }
    destruct Hrun as [H1 H2]. clearbody run'. rewrite Hlen, Hfull in *. apply IH; try done.
    + by destruct (_ <? _)%nat.
    + right. lia.
    + destruct (_ <? _)%nat; lia.
  - rewrite Hlen, Hfull in *. apply IH; try done; [by left|by left|lia].
Qed.

Lemma length_groups ip : length (groups ip) = 8%nat.
Proof. unfold groups. by rewrite length_map, length_seq. Qed.

Lemma groups_range ip : Forall is_u16 (groups ip).
Proof. unfold groups. apply Forall_map, Forall_true. intros i. pose proof (Z.mod_pos_bound (Z.shiftr ip (16 * (7 - Z.of_nat i))) 65536). ranges. Qed.

Lemma of_groups_groups ip : is_u128 ip -> of_groups (groups ip) = ip.
Proof.
  intros Hip. unfold is_u128, U128_MAX in Hip. unfold groups, of_groups. cbn [seq map fold_left]. rewrite !Z.shiftr_div_pow2 by lia.
  change (16 * (7 - Z.of_nat 0)) with 112. change (16 * (7 - Z.of_nat 1)) with 96. change (16 * (7 - Z.of_nat 2)) with 80.
  change (16 * (7 - Z.of_nat 3)) with 64. change (16 * (7 - Z.of_nat 4)) with 48. change (16 * (7 - Z.of_nat 5)) with 32.
  change (16 * (7 - Z.of_nat 6)) with 16. change (16 * (7 - Z.of_nat 7)) with 0.
  assert (E : forall k, 0 <= k -> ip / 2 ^ k = ip / 2 ^ (k + 16) * 65536 + (ip / 2 ^ k) mod 65536).
  { intros k Hk. rewrite Z.pow_add_r, <-Z.div_div by lia. change (2 ^ 16) with 65536. pose proof (Z_div_mod_eq_full (ip / 2 ^ k) 65536). lia. }
  pose proof (E 0 ltac:(lia)) as E0. pose proof (E 16 ltac:(lia)) as E1. pose proof (E 32 ltac:(lia)) as E2. pose proof (E 48 ltac:(lia)) as E3.
  pose proof (E 64 ltac:(lia)) as E4. pose proof (E 80 ltac:(lia)) as E5. pose proof (E 96 ltac:(lia)) as E6. pose proof (E 112 ltac:(lia)) as E7.
  change (0 + 16) with 16 in E0. change (16 + 16) with 32 in E1. change (32 + 16) with 48 in E2. change (48 + 16) with 64 in E3.
  change (64 + 16) with 80 in E4. change (80 + 16) with 96 in E5. change (96 + 16) with 112 in E6. change (112 + 16) with 128 in E7.
  assert (E8 : ip / 2 ^ 128 = 0) by (apply Z.div_small; split; [lia|]; change (2 ^ 128) with 340282366920938463463374607431768211456; lia).
  rewrite E8 in E7. change (2 ^ 0) with 1 in *. rewrite Z.div_1_r in *. lia.
Qed.

(** The groups with a gap of zeros cut out and put back. *)
Lemma gap_filled (gs : list u16) start len :
  length gs = 8%nat -> (start + len <= 8)%nat -> (forall j, (start <= j < start + len)%nat -> gs !! j = Some 0) ->
  take start gs ++ replicate (8 - length (take start gs) - length (drop (start + len) gs)) 0 ++ drop (start + len) gs = gs.
Proof.
  intros Hl Hs Hz. rewrite length_take, length_drop, Hl. replace (8 - start `min` 8 - (8 - (start + len)))%nat with len by lia.
  transitivity (take start gs ++ drop start gs); [|apply take_drop]. f_equal.
  transitivity (take len (drop start gs) ++ drop len (drop start gs)); [|apply take_drop]. rewrite drop_drop. f_equal.
  apply list_eq. intros j. destruct (decide (j < len)%nat).
  - rewrite lookup_replicate_2, lookup_take_lt, lookup_drop by done. symmetry. apply Hz. lia.
  - rewrite !lookup_ge_None_2; [done|rewrite length_take; lia|rewrite length_replicate; lia].
Qed.

(** An embedded IPv4 address, with the bracket behind it. *)
Lemma read_show_v4_bracket ip r : is_u32 ip -> read_ipv4_addr (show_v4 ip ++ 93 :: r) = Some (ip, 93 :: r).
Proof.
  intros Hip. unfold read_ipv4_addr, show_v4. repeat (rewrite <- app_assoc; cbn [app]). cbn [read_octets]. unfold read_separator. cbn [Nat.ltb Nat.leb].
  pose proof (octet_range ip). repeat first [rewrite read_octet_text by auto|progress red_bind|progress cbn [read_given_char Z.eqb Pos.eqb]].
  do 2 f_equal. symmetry. by apply octets_value.
Qed.

Lemma mapped_value ip : is_u128 ip -> take 6 (groups ip) = [0; 0; 0; 0; 0; 65535] -> ip = 65535 * 4294967296 + ip mod 4294967296.
Proof.
  intros Hip E. rewrite <-(of_groups_groups ip Hip) at 1. pose proof (length_groups ip) as Hl.
  assert (Hlow : ip mod 4294967296 = default 0 (groups ip !! 6%nat) * 65536 + default 0 (groups ip !! 7%nat)).
  { unfold groups. cbn [seq map lookup list_lookup default]. rewrite !Z.shiftr_div_pow2 by lia.
    change (2 ^ (16 * (7 - Z.of_nat 6))) with 65536. change (2 ^ (16 * (7 - Z.of_nat 7))) with 1. rewrite Z.div_1_r.
    change 4294967296 with (65536 * 65536). rewrite Z.rem_mul_r by lia. unfold id. lia. }
  destruct (groups ip) as [|a [|b [|c [|d [|e [|f [|g [|h [|]]]]]]]]]; try done. cbn [take] in E. injection E as -> -> -> -> -> ->.
  cbn [lookup list_lookup default] in Hlow. rewrite Hlow. unfold of_groups. cbn [fold_left]. unfold id. lia.
Qed.

Lemma read_show_v6 ip r : is_u128 ip -> 46 ∉ r -> read_ipv6_addr (show_v6 ip ++ 93 :: r) = Some (ip, 93 :: r).
Proof.
  intros Hip Hr. assert (Hp : 46 ∉ 93 :: r) by (intros [?|?]%elem_of_cons; done). assert (He : group_end (93 :: r)) by (right; by eexists).
  unfold show_v6. pose proof (groups_range ip) as Hgr. pose proof (length_groups ip) as Hgl. case_bool_decide as Em.
  - pose proof (Z.mod_pos_bound ip 4294967296 ltac:(lia)) as Hlow. pose proof (mapped_value ip Hip Em) as Hv. set (low := ip mod 4294967296) in *. clearbody low.
    rewrite <-app_assoc. unfold read_ipv6_addr.
    change (read_groups 8 0 (str "::ffff:" ++ show_v4 low ++ 93 :: r)) with (@nil u16, false, str "::ffff:" ++ show_v4 low ++ 93 :: r).
    cbn [length Nat.eqb]. change (str "::ffff:" ++ show_v4 low ++ 93 :: r) with (58 :: 58 :: 102 :: 102 :: 102 :: 102 :: 58 :: (show_v4 low ++ 93 :: r)).
    cbn [read_given_char Z.eqb Pos.eqb]. red_bind. cbn [Nat.add Nat.sub]. set (rest := show_v4 low ++ 93 :: r).
    assert (E : read_groups 7 0 (102 :: 102 :: 102 :: 102 :: 58 :: rest) = ([65535; low / 65536; low mod 65536], true, 93 :: r)).
    { change (read_groups 7 0 (102 :: 102 :: 102 :: 102 :: 58 :: rest)) with
        (let '(gs, v4, s) := read_groups 6 1 (58 :: rest) in (65535 :: gs, v4, s)).
      cbn [read_groups]. unfold read_separator at 1. cbn [Nat.ltb Nat.leb read_given_char Z.eqb Pos.eqb]. red_bind.
      unfold rest. rewrite read_show_v4_bracket by (unfold is_u32, U32_MAX; lia). done. }
    cbn [read_given_char Z.eqb Pos.eqb]. red_bind. rewrite E. do 2 f_equal. cbn. rewrite Hv. pose proof (Z_div_mod_eq_full low 65536). lia.
  - pose proof (zero_runs_spec [] (groups ip) (0%nat, 0%nat) (0%nat, 0%nat) ltac:(by left) ltac:(by left) ltac:(by left) ltac:(by cbn)) as [Hz Hbound].
    cbn [app length] in *. destruct (zero_runs 0 (0%nat, 0%nat) (0%nat, 0%nat) (groups ip)) as [start len]. cbn [fst snd] in *. rewrite Hgl in Hbound.
    destruct (Nat.ltb_spec 1 len) as [Hlen|].
    + destruct Hz as [?|Hz]; [lia|]. rewrite <-!app_assoc. cbn [app].
      assert (Hp2 : 46 ∉ show_groups (drop (start + len) (groups ip)) ++ 93 :: r).
      { destruct (drop (start + len) (groups ip)) as [|g gs] eqn:Ed; [done|]. intros Hin.
        assert (Hd : Forall is_u16 (g :: gs)) by (rewrite <-Ed; by apply Forall_drop).
        apply (no_point_more (g :: gs) (93 :: r) Hd Hp). cbn [show_more map concat]. fold (show_more gs). cbn [app]. right. exact Hin. }
      unfold read_ipv6_addr. rewrite read_show_groups; [|by apply Forall_take|rewrite length_take; lia|left; by eexists|intros [?|[?|?]%elem_of_cons]%elem_of_cons; done].
      rewrite (proj2 (Nat.eqb_neq _ _)) by (rewrite length_take; lia). cbn [read_given_char Z.eqb Pos.eqb]. red_bind. cbn [read_given_char Z.eqb Pos.eqb]. red_bind.
      rewrite read_show_groups; [|by apply Forall_drop|rewrite length_drop, length_take; lia|done|done].
      do 2 f_equal. rewrite gap_filled by (done || lia). by apply of_groups_groups.
    + unfold read_ipv6_addr. rewrite read_show_groups by (done || lia). rewrite Hgl. cbn [Nat.eqb]. by rewrite of_groups_groups.
Qed.

Lemma no_point_dec z : 0 <= z -> 46 ∉ dec z.
Proof. intros Hz Hin. pose proof (dec_digits z Hz) as H. rewrite Forall_forall in H. apply H in Hin. done. Qed.

Lemma parse_show_v6 ip port : is_u128 ip -> is_u16 port -> parse_peer (show_addr (V6 ip port 0 0)) = Some (V6 ip port 0 0).
Proof.
  intros Hip Hport. unfold parse_peer, show_addr. cbn [Z.eqb app].
  change (read_socket_addr_v4 (91 :: show_v6 ip ++ 93 :: 58 :: dec port)) with (@None (SocketAddr * list Z)). cbv iota.
  unfold read_socket_addr_v6. cbn [read_given_char Z.eqb Pos.eqb]. red_bind.
  rewrite read_show_v6; [|done|intros [?|?%no_point_dec]%elem_of_cons; [done|done|ranges]]. red_bind.
  change (read_scope_id (93 :: 58 :: dec port)) with (@None (u32 * list Z)). cbv iota. do 2 (cbn [read_given_char Z.eqb Pos.eqb]; red_bind).
  by rewrite read_port_dec.
Qed.

(** The text of an address. *)
Definition addr_char (c : Z) : Prop := is_ascii c /\ c <> 37 /\ c <> 38.

Lemma show_groups_chars gs : Forall is_u16 gs -> Forall addr_char (show_groups gs).
Proof.
  intros Hgs. assert (Hg : forall g, is_u16 g -> Forall addr_char (show_group g)).
  { intros g Hg. destruct (show_group_digits g Hg) as (-> & Hd & _). apply Forall_map. eapply Forall_impl; [exact Hd|].
    intros d Hd'. cbv beta in Hd'. unfold addr_char, is_ascii, hex_digit. destruct (Z.ltb_spec d 10); split_and!; lia. }
  unfold show_groups. destruct Hgs as [|g gs Hgg Hgs]; [constructor|]. apply Forall_concat. constructor; [by apply Hg|].
  apply Forall_map. eapply Forall_impl; [exact Hgs|]. intros g' ?. constructor; [unfold addr_char, is_ascii; lia|by apply Hg].
Qed.

Lemma dec_chars z : 0 <= z -> Forall addr_char (dec z).
Proof. intros Hz. eapply Forall_impl; [by apply dec_digits|]. intros c. unfold addr_char, is_ascii_digit, is_ascii. lia. Qed.

Lemma show_v4_chars ip : Forall addr_char (show_v4 ip).
Proof.
  pose proof (octet_range ip) as Ho. unfold show_v4.
  repeat first [apply Forall_app; split | apply Forall_cons; split; [unfold addr_char, is_ascii; lia|] | apply dec_chars; apply Ho].
Qed.

Lemma show_v6_chars ip : Forall addr_char (show_v6 ip).
Proof.
  pose proof (groups_range ip) as Hg. unfold show_v6. case_bool_decide.
  - apply Forall_app. split; [|apply show_v4_chars]. unfold addr_char, is_ascii. apply (bool_decide_unpack _). vm_compute. exact I.
  - destruct (zero_runs _ _ _ _) as [start len]. destruct (1 <? len)%nat; [|by apply show_groups_chars].
    rewrite !Forall_app. split_and!; [by apply show_groups_chars, Forall_take| |by apply show_groups_chars, Forall_drop].
    repeat (constructor; [unfold addr_char, is_ascii; lia|]). constructor.
Qed.

(** Addresses as a link can hold them: the text has no flow label, and a scope would
    be taken for an escape. *)
Definition wf_peer (p : SocketAddr) : Prop :=
  match p with
  | V4 ip port => is_u32 ip /\ is_u16 port
  | V6 ip port flow scope => is_u128 ip /\ is_u16 port /\ flow = 0 /\ scope = 0
  end.

Lemma peer_readable p : wf_peer p -> Forall addr_char (show_addr p) /\ parse_peer (show_addr p) = Some p.
Proof.
  destruct p as [ip port|ip port flow scope]; cbn [wf_peer].
  - intros [Hip Hport]. split; [|by apply parse_show_v4]. unfold show_addr. apply Forall_app. split; [apply show_v4_chars|].
    constructor; [unfold addr_char, is_ascii; lia|apply dec_chars; ranges].
  - intros (Hip & Hport & -> & ->). split; [|by apply parse_show_v6]. unfold show_addr. cbn [Z.eqb app].
    constructor; [unfold addr_char, is_ascii; lia|]. apply Forall_app. split; [apply show_v6_chars|].
    repeat (constructor; [unfold addr_char, is_ascii; lia|]). apply dec_chars. ranges.
Qed.

(** ** The round trip *)

Abbreviation lacks x s := (Forall (fun b => Z.eqb x b = false) s) (only parsing).

Lemma split_on_lacks x s : lacks x s -> split_on (Z.eqb x) s = [s].
Proof. induction 1 as [|b s Hb _ IH]; [done|]. cbn [split_on]. by rewrite Hb, IH. Qed.

Lemma split_on_first x s rest : lacks x s -> split_on (Z.eqb x) (s ++ x :: rest) = s :: split_on (Z.eqb x) rest.
Proof.
  induction 1 as [|b s Hb _ IH]; cbn [app split_on]; [by rewrite Z.eqb_refl|]. by rewrite Hb, IH.
Qed.

(** Splitting at a separator undoes joining with it. *)
Lemma split_on_join x p ps : Forall (fun s => lacks x s) (p :: ps) -> split_on (Z.eqb x) (concat (p :: map (cons x) ps)) = p :: ps.
Proof.
  revert p. induction ps as [|q ps IH]; intros p [Hp Hps]%Forall_cons; cbn [map concat].
  - rewrite app_nil_r. by apply split_on_lacks.
  - cbn [app]. rewrite split_on_first by done. f_equal. by apply IH.
Qed.

Lemma split_once_first x k v : lacks x k -> split_once x (k ++ x :: v) = Some (k, v).
Proof.
  intros Hk. unfold split_once. rewrite position_first by (done || apply Z.eqb_refl). red_bind.
  rewrite take_app_length. do 2 f_equal. by rewrite drop_app_ge, Nat.sub_succ_l, Nat.sub_diag by lia.
Qed.

Definition wf_magnet (m : Magnet) : Prop :=
  length (mg_info_hash m) = 20%nat /\ wf_bytes (mg_info_hash m) /\
  Forall (fun s => s <> [] /\ wf_bytes s /\ is_utf8 s = true) (option_list (mg_display_name m) ++ mg_trackers m ++ mg_webseeds m) /\
  Forall wf_peer (mg_peers m).

Lemma unreserved_ascii c : is_unreserved c = true -> is_ascii c /\ c <> 37 /\ c <> 38.
Proof. unfold is_unreserved, is_ascii_digit, is_ascii. lia. Qed.

Lemma url_encoded_lacks s x : wf_bytes s -> x = 38 -> lacks x (url_encode_bytes s).
Proof.
  intros Hs ->. destruct (url_encode_decodes s Hs) as [_ H]. eapply Forall_impl; [exact H|].
  intros c [Hc%unreserved_ascii| ->]; [|done]. apply Z.eqb_neq. lia.
Qed.

Lemma hex_hash_chars h : wf_bytes h -> Forall (fun c => is_unreserved c = true /\ within 65 90 c = false) (hex_info_hash h).
Proof.
  unfold hex_info_hash. induction 1 as [|b h Hb _ IH]; [by constructor|]. cbn [map concat app].
  assert (0 <= b / 16 < 16 /\ 0 <= b mod 16 < 16) as [H1 H2].
  { unfold is_u8, U8_MAX in Hb. split; [split; [apply Z.div_pos|apply Z.div_lt_upper_bound]; lia|apply Z.mod_pos_bound; lia]. }
  constructor; [apply hex_digit_value; lia|]. constructor; [apply hex_digit_value; lia|]. done.
Qed.

Lemma length_hex_hash h : length (hex_info_hash h) = (2 * length h)%nat.
Proof. unfold hex_info_hash. induction h as [|b h IH]; [done|]. cbn [map concat app length]. lia. Qed.

(** The parameters, one by one. *)
Lemma add_param_kv f k v : k <> [] -> lacks 61 k ->
  add_param f (k ++ 61 :: v) = apply_param f (to_ascii_lowercase (percent_decode k)) (percent_decode v).
Proof.
  intros Hk Hl. unfold add_param. rewrite split_once_first by done. destruct k; [done|]. done.
Qed.

Lemma parse_xt_hex hash : length hash = 20%nat -> wf_bytes hash -> parse_xt (percent_decode (str "urn:btih:" ++ hex_info_hash hash)) = Ok hash.
Proof.
  intros Hl Hw. pose proof (hex_hash_chars hash Hw) as Hc. rewrite percent_decode_plain; last first.
  { apply Forall_app. split; [unfold is_ascii; apply (bool_decide_unpack _); vm_compute; exact I|].
    eapply Forall_impl; [exact Hc|]. intros c [Hu%unreserved_ascii _]. tauto. }
  assert (Hlow : to_ascii_lowercase (str "urn:btih:" ++ hex_info_hash hash) = str "urn:btih:" ++ hex_info_hash hash).
  { unfold to_ascii_lowercase. rewrite map_app. f_equal. clear -Hc. induction Hc as [|c s [_ Hc] _ IH]; [done|]. cbn [map]. by rewrite Hc, IH. }
  unfold parse_xt. rewrite Hlow. change (strip_prefix (str "urn:btmh:") (str "urn:btih:" ++ hex_info_hash hash)) with (None : option bytes).
  change (strip_prefix (str "urn:btih:") (str "urn:btih:" ++ hex_info_hash hash)) with (Some (hex_info_hash hash)). cbn [ok_or].
  unfold decode_hex. rewrite length_hex_hash, Hl. cbn. by apply hex_pairs_hex.
Qed.

Lemma add_xt hash : length hash = 20%nat -> wf_bytes hash ->
  add_param nothing_found (str "xt=urn:btih:" ++ hex_info_hash hash) = Ok (mkFound (Some hash) false (mkMagnet [] None [] [] [])).
Proof.
  intros Hl Hw. change (str "xt=urn:btih:" ++ hex_info_hash hash) with (str "xt" ++ 61 :: (str "urn:btih:" ++ hex_info_hash hash)).
  rewrite add_param_kv by (done || by repeat constructor). change (to_ascii_lowercase (percent_decode (str "xt"))) with (str "xt").
  unfold apply_param, nothing_found. literals. by rewrite parse_xt_hex.
Qed.

Section Params.
Context (hash : bytes).
Let found (name : option bytes) (trackers : list bytes) (peers : list SocketAddr) (webseeds : list bytes) : Found :=
  mkFound (Some hash) false (mkMagnet [] name trackers peers webseeds).

Lemma add_dn trackers peers webseeds s : s <> [] -> wf_bytes s -> is_utf8 s = true ->
  add_param (found None trackers peers webseeds) (str "dn=" ++ url_encode_bytes s) = Ok (found (Some s) trackers peers webseeds).
Proof.
  intros Hs Hw Hu. change (str "dn=" ++ url_encode_bytes s) with (str "dn" ++ 61 :: url_encode_bytes s).
  rewrite add_param_kv by (done || by repeat constructor). rewrite percent_decode_encode by done.
  change (to_ascii_lowercase (percent_decode (str "dn"))) with (str "dn"). unfold apply_param, found. literals. by destruct s.
Qed.

Lemma add_trs name trackers peers webseeds l rest :
  Forall (fun s => s <> [] /\ wf_bytes s /\ is_utf8 s = true) l ->
  add_params (found name trackers peers webseeds) (map (fun s => str "tr=" ++ url_encode_bytes s) l ++ rest) =
  add_params (found name (trackers ++ l) peers webseeds) rest.
Proof.
  intros H. revert trackers. induction H as [|s l (Hs & Hw & Hu) _ IH]; intros trackers; [by rewrite app_nil_r|]. cbn [map app add_params].
  change (str "tr=" ++ url_encode_bytes s) with (str "tr" ++ 61 :: url_encode_bytes s).
  rewrite add_param_kv by (done || by repeat constructor). rewrite percent_decode_encode by done.
  change (to_ascii_lowercase (percent_decode (str "tr"))) with (str "tr"). unfold apply_param, found at 1. literals.
  destruct s as [|c s]; [done|]. fold (found name (trackers ++ [c :: s]) peers webseeds). by rewrite IH, <- app_assoc.
Qed.

Lemma add_wss name trackers peers webseeds l :
  Forall (fun s => s <> [] /\ wf_bytes s /\ is_utf8 s = true) l ->
  add_params (found name trackers peers webseeds) (map (fun s => str "ws=" ++ url_encode_bytes s) l) = Ok (found name trackers peers (webseeds ++ l)).
Proof.
  intros H. revert webseeds. induction H as [|s l (Hs & Hw & Hu) _ IH]; intros webseeds; [by rewrite app_nil_r|]. cbn [map app add_params].
  change (str "ws=" ++ url_encode_bytes s) with (str "ws" ++ 61 :: url_encode_bytes s).
  rewrite add_param_kv by (done || by repeat constructor). rewrite percent_decode_encode by done.
  change (to_ascii_lowercase (percent_decode (str "ws"))) with (str "ws"). unfold apply_param, found at 1. literals.
  destruct s as [|c s]; [done|]. fold (found name trackers peers (webseeds ++ [c :: s])). by rewrite IH, <- app_assoc.
Qed.

Lemma add_peers_params name trackers peers webseeds l rest :
  Forall wf_peer l ->
  add_params (found name trackers peers webseeds) (map (fun p => str "x.pe=" ++ show_addr p) l ++ rest) =
  add_params (found name trackers (peers ++ l) webseeds) rest.
Proof.
  intros H. revert peers. induction H as [|p l [Hp Hparse]%peer_readable _ IH]; intros peers; [by rewrite app_nil_r|]. cbn [map app add_params].
  change (str "x.pe=" ++ show_addr p) with (str "x.pe" ++ 61 :: show_addr p).
  rewrite add_param_kv by (done || by repeat constructor).
  rewrite (percent_decode_plain (show_addr p)) by (eapply Forall_impl; [exact Hp|]; unfold addr_char; tauto).
  change (to_ascii_lowercase (percent_decode (str "x.pe"))) with (str "x.pe"). unfold apply_param, found at 1. literals.
  rewrite Hparse. fold (found name trackers (peers ++ [p]) webseeds). by rewrite IH, <- app_assoc.
Qed.
End Params.

Lemma params_lack m : wf_magnet m -> Forall (fun s => lacks 38 s) (magnet_params m).
Proof.
  intros (Hl & Hw & Hs & Hp). apply Forall_app in Hs as [Hn [Ht Hws]%Forall_app].
  assert (Henc : forall k l, lacks 38 (str k) -> Forall (fun s => s <> [] /\ wf_bytes s /\ is_utf8 s = true) l ->
    Forall (fun s => lacks 38 s) (map (fun s => str k ++ url_encode_bytes s) l)).
  { intros k l Hk H. apply Forall_map. eapply Forall_impl; [exact H|]. intros s (_ & Hb & _). apply Forall_app. split; [done|by apply url_encoded_lacks]. }
  unfold magnet_params. constructor.
  { apply Forall_app. split; [by repeat constructor|]. eapply Forall_impl; [exact (hex_hash_chars _ Hw)|].
    intros c [Hc%unreserved_ascii _]. apply Z.eqb_neq. lia. }
  rewrite !Forall_app. split_and!.
  - destruct (mg_display_name m) as [name|]; [|by constructor]. apply (Henc "dn="%string [name]); [by repeat constructor|done].
  - by apply (Henc "tr="%string); [repeat constructor|].
  - apply Forall_map. eapply Forall_impl; [exact Hp|]. intros p [Hc _]%peer_readable. apply Forall_app. split; [by repeat constructor|].
    eapply Forall_impl; [exact Hc|]. intros c (_ & _ & Hne). apply Z.eqb_neq. lia.
  - by apply (Henc "ws="%string); [repeat constructor|].
Qed.

(** C15: Magnet links round trip: the link printed for a torrent is read back as the same
    info hash, name, trackers, peers and web seeds, in the same order, whatever
    characters the names and URLs hold, as long as none is empty, and whatever the
    IPv4 and IPv6 addresses of the peers, as long as they have no scope or flow
    label. *)
Theorem magnet_roundtrip m : wf_magnet m -> magnet_parse (magnet_display m) = Ok m.
Proof.
  intros Hm. pose proof (params_lack m Hm) as Hlack. destruct Hm as (Hl & Hw & Hs & Hp). apply Forall_app in Hs as [Hn [Ht Hws]%Forall_app].
  unfold magnet_parse, magnet_display. set (params := magnet_params m) in *.
  assert (Hpar : exists p ps, params = p :: ps /\ p <> []) by (eexists _, _; split; [reflexivity|done]).
  destruct Hpar as (p & ps & Epar & Hne). rewrite Epar in *.
  change (strip_magnet_prefix (str "magnet:?" ++ concat (p :: map (cons 38) ps))) with (Some (63 :: concat (p :: map (cons 38) ps))).
  cbn [ok_or]. change (split_once 63 (63 :: concat (p :: map (cons 38) ps))) with (Some ([] : bytes, concat (p :: map (cons 38) ps))).
  cbv beta iota. rewrite split_on_join by done. rewrite <- Epar.
  destruct (concat (p :: map (cons 38) ps)) as [|c l] eqn:Ec; [by destruct p|]. clear Ec.
  unfold params, magnet_params. cbn [add_params]. rewrite add_xt by done.
  destruct m as [hash name trackers peers webseeds]. cbn [mg_info_hash mg_display_name mg_trackers mg_peers mg_webseeds] in *.
  assert (E : forall rest, add_params (mkFound (Some hash) false (mkMagnet [] None [] [] []))
      (match name with Some name => [str "dn=" ++ url_encode_bytes name] | None => [] end ++ rest) =
    add_params (mkFound (Some hash) false (mkMagnet [] name [] [] [])) rest).
  { intros rest. destruct name as [name|]; [|done]. cbn [app add_params]. apply Forall_cons in Hn as [(? & ? & ?) _]. by rewrite add_dn. }
  rewrite E, add_trs, add_peers_params, add_wss by done. done.
Qed.

Lemma magnet_roundtrip_witness : magnet_parse (magnet_display example_magnet) = Ok example_magnet.
Proof.
  apply magnet_roundtrip. split; [reflexivity|]. split; [apply (bool_decide_unpack _); vm_compute; exact I|].
  split; [|repeat (constructor; [cbn [wf_peer]; ranges|]); constructor].
  repeat (constructor; [split_and!; [done|apply (bool_decide_unpack _); vm_compute; exact I|reflexivity]|]). constructor.
Defined.
