(* ===== verification/Announce.v ===== *)
(** * Announcing to trackers (crates/bit_rev/src/tracker.rs, tracker_peers.rs, file.rs)

    The announce URL, the answer of an HTTP or UDP tracker, and the announce loop of
    one tracker as a state machine: every [await] is a program counter, and a step
    says what woke the task, what it reads of the state it shares with the session,
    and what it sends. *)

From S2P Require Import Prelude Utf8 Bencode Text Value Metainfo UdpTracker IpFilter Peers Magnet Session.

(** ** The announce URL *)

Definition event_as_str (e : AnnounceEvent) : bytes :=
  match e with Started => str "started" | Stopped => str "stopped" | Completed => str "completed" end.

Definition DEFAULT_NUMWANT : u32 := 50.

Definition push_encoded_pair (url key value : bytes) : bytes :=
  let url :=
    match last url with
    | Some c => if (c =? 63) || (c =? 38) then url else url ++ [if existsb (Z.eqb 63) url then 38 else 63]
    | None => url ++ [63]
    end in
  url ++ key ++ 61 :: url_encode_bytes value.

(** The parameters in the order in which they are pushed. *)
Definition announce_pairs (info_hash peer_id : bytes) (p : AnnounceParams) : list (bytes * bytes) :=
  [(str "info_hash", info_hash); (str "peer_id", peer_id); (str "port", to_string (ap_port p));
   (str "uploaded", to_string (ap_uploaded p)); (str "downloaded", to_string (ap_downloaded p)); (str "left", to_string (ap_left p));
   (str "compact", str "1")] ++
  match ap_event p with Some e => [(str "event", event_as_str e)] | None => [] end ++
  [(str "numwant", to_string (ap_numwant p)); (str "key", to_string (ap_key p))] ++
  match ap_tracker_id p with Some id => [(str "trackerid", id)] | None => [] end.

Definition build_tracker_url (info_hash peer_id tracker_url : bytes) (p : AnnounceParams) : bytes :=
  fold_left (fun url kv => push_encoded_pair url (fst kv) (snd kv)) (announce_pairs info_hash peer_id p) tracker_url.

(** [all_trackers]: every tracker of every tier, and the single one if it is not
    among them. *)
Definition all_trackers (announce : option bytes) (announce_list : option (list (list bytes))) : list bytes :=
  match announce, announce_list with
  | Some a, None => [a]
  | Some a, Some tiers => let h := concat tiers in if bool_decide (a ∈ h) then h else h ++ [a]
  | None, Some tiers => concat tiers
  | None, None => []
  end.

(** ** Answers *)

Inductive TrackerError :=
| HttpStatus (status : u16)
| FailureReason (reason : bytes)
| RequestError
| DecodeError
| StoppedTimeout
| UdpFailed.

Record DispatchedAnnounce := mkDispatched {
  da_peers : result (list SocketAddr) PeerListError;
  da_interval : u64;
  da_min_interval : option u64;
  da_tracker_id : option bytes }.

Definition DEFAULT_INTERVAL_SECS : u64 := 1800.

(** [announce]: [decode] is the bencode library behind the depth guard. *)
Definition http_announce (decode : bytes -> option BencodeResponse) (reply : option (u16 * bytes)) : result BencodeResponse TrackerError :=
  match reply with
  | None => Err RequestError
  | Some (status, body) =>
      if negb (within 200 299 status) then Err (HttpStatus status)
      else
        let! decoded := ok_or (decode body) DecodeError in
        match failure_reason_str decoded with Some reason => Err (FailureReason reason) | None => Ok decoded end
  end.

(** [dispatch_announce] on the answer of either kind of tracker. *)
Definition http_dispatched (decode : bytes -> option BencodeResponse) (reply : option (u16 * bytes)) : result DispatchedAnnounce TrackerError :=
  let! resp := http_announce decode reply in
  Ok (mkDispatched (get_peers resp) (default DEFAULT_INTERVAL_SECS (br_interval resp)) (br_min_interval resp) (br_tracker_id resp)).

Definition udp_dispatched {E} (reply : result UdpAnnounceResponse E) : result DispatchedAnnounce TrackerError :=
  match reply with Ok resp => Ok (mkDispatched (Ok (peers resp)) (interval resp) None None) | Err _ => Err UdpFailed end.

(** ** Timing *)

Definition INITIAL_BACKOFF : Duration := secs 15.
Definition MAX_BACKOFF : Duration := secs (30 * 60).

Definition next_backoff (current : option Duration) : Duration :=
  match current with None => INITIAL_BACKOFF | Some delay => Z.min (Z.min (delay * 2) (secs U64_MAX + 999999999)) MAX_BACKOFF end.

Definition reannounce_delay (interval_secs : u64) (min_interval_secs : option u64) : Duration :=
  let interval := if interval_secs =? 0 then DEFAULT_INTERVAL_SECS else interval_secs in
  secs (match min_interval_secs with Some min => Z.max interval min | None => interval end).

(** ** The loop *)

#[export] Instance AnnounceEvent_eq_dec : EqDecision AnnounceEvent.
Proof. solve_decision. Defined.

(** What a step reads of the shared state, and the time. *)
Record View := mkView {
  v_shutdown : bool; v_transfer : TransferState; v_complete : bool; v_uploaded : u64; v_downloaded : u64; v_left : u64; v_now : Instant }.

(** Where the task waits. *)
Inductive Pc :=
| WaitDownloading                              (* the head of the loop *)
| Announcing (event : option AnnounceEvent)    (* for the answer *)
| Waiting (failed : bool) (until : Instant)    (* for the next announce *)
| PauseAnnouncing                              (* for the answer of the announce of a pause *)
| PausedWaiting                                (* for the end of a pause *)
| Stopping                                     (* for the answer of the last announce *)
| Finished.

Record LoopState := mkLoop {
  ls_started : bool; ls_completed : bool; ls_tracker_id : option bytes; ls_backoff : option Duration; ls_joined : bool; ls_pc : Pc }.

Definition loop_new : LoopState := mkLoop false false None None false WaitDownloading.

Definition set_pc (pc : Pc) (s : LoopState) : LoopState :=
  mkLoop (ls_started s) (ls_completed s) (ls_tracker_id s) (ls_backoff s) (ls_joined s) pc.
Definition set_joined (s : LoopState) : LoopState :=
  mkLoop (ls_started s) (ls_completed s) (ls_tracker_id s) (ls_backoff s) true (ls_pc s).
Definition set_tracker_id (id : option bytes) (s : LoopState) : LoopState :=
  mkLoop (ls_started s) (ls_completed s) (match id with Some _ => id | None => ls_tracker_id s end) (ls_backoff s) (ls_joined s) (ls_pc s).
Definition set_backoff (b : option Duration) (s : LoopState) : LoopState :=
  mkLoop (ls_started s) (ls_completed s) (ls_tracker_id s) b (ls_joined s) (ls_pc s).
Definition note_event (event : option AnnounceEvent) (s : LoopState) : LoopState :=
  mkLoop (ls_started s || bool_decide (event = Some Started)) (ls_completed s || bool_decide (event = Some Completed))
    (ls_tracker_id s) (ls_backoff s) (ls_joined s) (ls_pc s).

Inductive Wakeup :=
| Poll                                                  (* the 100 ms of [wait_until_downloading] are over *)
| Reply (r : result DispatchedAnnounce TrackerError)
| SleepElapsed
| Tick                                                  (* the 100 ms of [wait_reannounce] *)
| Cancelled.

Inductive Output := Request (p : AnnounceParams) | Found (peers : list SocketAddr).

Definition next_announce_event (is_complete sent_started sent_completed : bool) : option AnnounceEvent :=
  if is_complete && sent_started && negb sent_completed then Some Completed
  else if negb sent_started then Some Started
  else None.

Section Loop.
Context (port : u16) (announce_key : u32).

Definition current_announce_params (v : View) (event : option AnnounceEvent) (s : LoopState) : AnnounceParams :=
  mkAnnounceParams (v_uploaded v) (v_downloaded v) (v_left v) port event DEFAULT_NUMWANT announce_key (ls_tracker_id s).
Definition stopped_params (v : View) (s : LoopState) : AnnounceParams :=
  mkAnnounceParams (v_uploaded v) (v_downloaded v) (v_left v) port (Some Stopped) 0 announce_key (ls_tracker_id s).

(** After the loop. *)
Definition finish (v : View) (s : LoopState) : LoopState * list Output :=
  if ls_joined s then (set_pc Stopping s, [Request (stopped_params v s)]) else (set_pc Finished s, []).

(** The head of the loop, from [wait_until_downloading] to the announce. *)
Definition loop_head (v : View) (s : LoopState) : LoopState * list Output :=
  if v_shutdown v then finish v s
  else if bool_decide (v_transfer v = TsDownloading) then
    let event := next_announce_event (v_complete v) (ls_started s) (ls_completed s) in
    (set_pc (Announcing event) (set_joined s), [Request (current_announce_params v event s)])
  else (set_pc WaitDownloading s, []).

(** [wait_until_downloading] after a pause, then the loop again. *)
Definition pause_end (v : View) (s : LoopState) : LoopState * list Output :=
  if v_shutdown v then finish v s
  else if bool_decide (v_transfer v = TsDownloading) then loop_head v s
  else (set_pc PausedWaiting s, []).

(** The beginning of [wait_reannounce]. *)
Definition start_wait (v : View) (failed : bool) (delay : Duration) (s : LoopState) : LoopState * list Output :=
  if v_shutdown v then finish v s
  else if delay =? 0 then loop_head v s
  else (set_pc (Waiting failed (v_now v + delay)) s, []).

Definition on_reply (v : View) (event : option AnnounceEvent) (r : result DispatchedAnnounce TrackerError) (s : LoopState)
    : LoopState * list Output :=
  if v_shutdown v then finish v (match r with Ok resp => set_tracker_id (da_tracker_id resp) s | Err _ => s end)
  else match r with
  | Ok resp =>
      let s := set_tracker_id (da_tracker_id resp) (note_event event (set_backoff None s)) in
      let '(s, out) := start_wait v false (reannounce_delay (da_interval resp) (da_min_interval resp)) s in
      (s, match da_peers resp with Ok peers => [Found peers] | Err _ => [] end ++ out)
  | Err _ => let delay := next_backoff (ls_backoff s) in start_wait v true delay (set_backoff (Some delay) s)
  end.

(** One tick of [wait_reannounce]. *)
Definition on_tick (v : View) (failed : bool) (s : LoopState) : LoopState * list Output :=
  if bool_decide (v_transfer v = TsPaused) then
    if failed then pause_end v s else (set_pc PauseAnnouncing s, [Request (current_announce_params v None s)])
  else if negb (ls_completed s) && v_complete v then loop_head v s
  else (s, []).

Definition loop_step (v : View) (w : Wakeup) (s : LoopState) : option (LoopState * list Output) :=
  match ls_pc s, w with
  | WaitDownloading, Poll => Some (loop_head v s)
  | PausedWaiting, Poll => Some (pause_end v s)
  | WaitDownloading, Cancelled | PausedWaiting, Cancelled | Waiting _ _, Cancelled => if v_shutdown v then Some (finish v s) else None
  | Announcing event, Reply r => Some (on_reply v event r s)
  | Waiting failed until, SleepElapsed => if until <=? v_now v then Some (loop_head v s) else None
  | Waiting failed _, Tick => Some (on_tick v failed s)
  | PauseAnnouncing, Reply _ => Some (pause_end v s)
  | Stopping, Reply _ => Some (set_pc Finished s, [])
  | _, _ => None
  end.
End Loop.

(** ** What a tracker sees *)

(** The requests sent and the answers the loop took notice of. *)
Inductive Event := Sent (e : option AnnounceEvent) | Succeeded (e : option AnnounceEvent).

Definition sends (out : list Output) : list Event :=
  omap (fun o => match o with Request p => Some (Sent (ap_event p)) | Found _ => None end) out.

Definition step_events (s : LoopState) (w : Wakeup) (out : list Output) : list Event :=
  match ls_pc s, w with Announcing e, Reply (Ok _) => [Succeeded e] | _, _ => [] end ++ sends out.

Inductive runs (port : u16) (key : u32) : LoopState -> list Event -> Prop :=
| runs_new : runs port key loop_new []
| runs_step s tr v w s' out :
    runs port key s tr -> loop_step port key v w s = Some (s', out) -> runs port key s' (tr ++ step_events s w out).

(** The rules of a trace, for a request after what came before it. *)
Definition may_send (before : list Event) (e : option AnnounceEvent) : Prop :=
  (Sent (Some Stopped) ∉ before) /\
  match e with
  | Some Started => Succeeded (Some Started) ∉ before
  | Some Completed => Succeeded (Some Started) ∈ before /\ Succeeded (Some Completed) ∉ before
  | Some Stopped => before <> []
  | None => Succeeded (Some Started) ∈ before
  end.
Definition ok_trace (tr : list Event) : Prop := forall i e, tr !! i = Some (Sent e) -> may_send (take i tr) e.

Lemma ok_trace_nil : ok_trace [].
Proof. intros i e. by rewrite lookup_nil. Qed.

Lemma ok_trace_snoc tr x : ok_trace tr -> match x with Sent e => may_send tr e | Succeeded _ => True end -> ok_trace (tr ++ [x]).
Proof.
  intros Htr Hx i e. rewrite lookup_app. destruct (tr !! i) as [y|] eqn:E.
  - intros [= ->]. rewrite take_app_le by (apply lookup_lt_Some in E; lia). by apply Htr.
  - intros H. apply lookup_ge_None in E. destruct (i - length tr)%nat as [|k] eqn:Ek; [|done]. cbn in H. injection H as ->.
    rewrite take_app_ge by lia. rewrite Ek. cbn. by rewrite app_nil_r.
Qed.

(** The flags of the loop and the trace agree while the loop runs. *)
Record live (s : LoopState) (tr : list Event) : Prop := {
  lv_ok : ok_trace tr;
  lv_joined : ls_joined s = false <-> tr = [];
  lv_stopped : Sent (Some Stopped) ∉ tr;
  lv_started : ls_started s = true <-> Succeeded (Some Started) ∈ tr;
  lv_completed : ls_completed s = true <-> Succeeded (Some Completed) ∈ tr }.

Definition ended (pc : Pc) : bool := match pc with Stopping | Finished => true | _ => false end.
Definition pc_ok (s : LoopState) : Prop :=
  match ls_pc s with
  | Announcing e => ls_joined s = true /\ (ls_started s = true \/ e = Some Started)
  | Waiting false _ => ls_started s = true
  | _ => True
  end.
Definition agrees (s : LoopState) (tr : list Event) : Prop :=
  if ended (ls_pc s) then ok_trace tr /\ (tr = [] \/ last tr = Some (Sent (Some Stopped)))
  else live s tr /\ pc_ok s.

Lemma live_pc s tr pc : live s tr -> live (set_pc pc s) tr.
Proof. by intros []. Qed.

Section Protocol.
Context (port : u16) (key : u32).

Lemma finish_agrees v s tr :
  ok_trace tr -> (ls_joined s = false <-> tr = []) -> Sent (Some Stopped) ∉ tr ->
  agrees (finish port key v s).1 (tr ++ sends (finish port key v s).2).
Proof.
  intros Hok Hj Hs. unfold finish. destruct (ls_joined s) eqn:Ej; cbn.
  - split; [|right; apply last_snoc]. apply ok_trace_snoc; [done|]. split; [done|]. cbn. intros ->. by destruct Hj as [_ Hj]; specialize (Hj eq_refl).
  - rewrite app_nil_r. split; [done|left]. by apply Hj.
Qed.

Lemma finish_live v s tr : live s tr -> agrees (finish port key v s).1 (tr ++ sends (finish port key v s).2).
Proof. intros []. by apply finish_agrees. Qed.

Lemma send_agrees s tr e s' :
  live s tr -> may_send tr e -> e <> Some Stopped -> ls_joined s' = true -> ls_started s' = ls_started s -> ls_completed s' = ls_completed s ->
  live s' (tr ++ [Sent e]).
Proof.
  intros [Hok Hj Hs Hst Hc] Hm Hne Ej Est Ec. split.
  - by apply ok_trace_snoc.
  - rewrite Ej. split; [done|]. by destruct tr.
  - rewrite elem_of_app, list_elem_of_singleton. intros [?|[= E]]; [done|]. by apply Hne.
  - rewrite Est, Hst, elem_of_app, list_elem_of_singleton. split; [auto|]. by intros [?|?].
  - rewrite Ec, Hc, elem_of_app, list_elem_of_singleton. split; [auto|]. by intros [?|?].
Qed.

Lemma loop_head_agrees v s tr : live s tr -> agrees (loop_head port key v s).1 (tr ++ sends (loop_head port key v s).2).
Proof.
  intros Hl. unfold loop_head. destruct (v_shutdown v); [by apply finish_live|]. case_bool_decide.
  - cbn [fst snd sends omap list_omap current_announce_params ap_event]. unfold agrees. cbn [set_pc ls_pc ended].
    split; [|split; [done|]; cbn; unfold next_announce_event; destruct (v_complete v), (ls_started s), (ls_completed s); auto].
    apply (send_agrees s); try done; last first.
    { unfold next_announce_event. by destruct (_ && _), (ls_started s). }
    destruct Hl as [Hok Hj Hs Hst Hc]. split; [done|]. unfold next_announce_event.
    destruct (v_complete v), (ls_started s) eqn:E1, (ls_completed s) eqn:E2; cbn; try (by apply Hst);
      try (split; [by apply Hst|intros H'; apply Hc in H'; congruence]); intros H'; apply Hst in H'; congruence.
  - cbn. rewrite app_nil_r. split; [by apply live_pc|done].
Qed.

Lemma pause_end_agrees v s tr : live s tr -> agrees (pause_end port key v s).1 (tr ++ sends (pause_end port key v s).2).
Proof.
  intros Hl. unfold pause_end. destruct (v_shutdown v); [by apply finish_live|]. case_bool_decide; [by apply loop_head_agrees|].
  cbn. rewrite app_nil_r. split; [by apply live_pc|done].
Qed.

Lemma start_wait_agrees v failed delay s tr :
  live s tr -> failed = true \/ ls_started s = true -> agrees (start_wait port key v failed delay s).1 (tr ++ sends (start_wait port key v failed delay s).2).
Proof.
  intros Hl Hf. unfold start_wait. destruct (v_shutdown v); [by apply finish_live|]. destruct (delay =? 0); [by apply loop_head_agrees|].
  cbn. rewrite app_nil_r. split; [by apply live_pc|]. cbn. destruct failed, Hf; done.
Qed.

Lemma sends_app a b : sends (a ++ b) = sends a ++ sends b.
Proof. apply omap_app. Qed.

(** An answer the loop takes notice of. *)
Lemma success_live s tr e s' :
  live s tr -> ls_joined s' = ls_joined s -> ls_joined s = true ->
  ls_started s' = ls_started s || bool_decide (e = Some Started) -> ls_completed s' = ls_completed s || bool_decide (e = Some Completed) ->
  live s' (tr ++ [Succeeded e]).
Proof.
  intros [Hok Hj Hs Hst Hc] Ej Ej' Est Ec. split.
  - by apply ok_trace_snoc.
  - rewrite Ej, Ej'. split; [done|]. by destruct tr.
  - rewrite elem_of_app, list_elem_of_singleton. by intros [?|?].
  - rewrite Est, orb_true_iff, bool_decide_eq_true, Hst, elem_of_app, list_elem_of_singleton. split; intros [?|H]; auto; [subst; auto|].
    injection H as ->. auto.
  - rewrite Ec, orb_true_iff, bool_decide_eq_true, Hc, elem_of_app, list_elem_of_singleton. split; intros [?|H]; auto; [subst; auto|].
    injection H as ->. auto.
Qed.

Lemma on_reply_agrees v e r s tr :
  live s tr -> ls_joined s = true -> ls_started s = true \/ e = Some Started ->
  agrees (on_reply port key v e r s).1 (tr ++ match r with Ok _ => [Succeeded e] | Err _ => [] end ++ sends (on_reply port key v e r s).2).
Proof.
  intros Hl Hj He. unfold on_reply. destruct (v_shutdown v).
  { destruct Hl as [Hok Hjj Hs _ _]. rewrite app_assoc. apply finish_agrees.
    - destruct r; [by apply ok_trace_snoc|by rewrite app_nil_r].
    - destruct r; cbn; rewrite Hj; (split; [done|]); destruct tr; try done. intros _. by rewrite (proj2 Hjj eq_refl) in Hj.
    - destruct r; [|by rewrite app_nil_r]. rewrite elem_of_app, list_elem_of_singleton. by intros [?|?]. }
  destruct r as [resp|err].
  - set (s1 := set_tracker_id _ _). assert (Hl1 : live s1 (tr ++ [Succeeded e])) by (by apply (success_live s)).
    assert (Hst1 : ls_started s1 = true) by (cbn; destruct He as [-> | ->]; [done|apply orb_true_r]).
    pose proof (start_wait_agrees v false (reannounce_delay (da_interval resp) (da_min_interval resp)) s1 _ Hl1 (or_intror Hst1)) as H.
    destruct (start_wait port key v false _ s1) as [s2 out]. cbn [fst snd] in *. rewrite sends_app, <- app_assoc in *. by destruct (da_peers resp).
  - cbn [app]. apply start_wait_agrees; [by destruct Hl|by left].
Qed.

Lemma on_tick_agrees v failed s tr :
  live s tr -> pc_ok s -> (exists until, ls_pc s = Waiting failed until) ->
  agrees (on_tick port key v failed s).1 (tr ++ sends (on_tick port key v failed s).2).
Proof.
  intros Hl Hpc [until Epc]. unfold on_tick. unfold pc_ok in Hpc. rewrite Epc in Hpc. case_bool_decide.
  - destruct failed; [by apply pause_end_agrees|]. cbn. split; [|done]. apply (send_agrees s); try done.
    + destruct Hl as [_ _ Hs Hst _]. split; [done|]. by apply Hst.
    + destruct Hl as [_ Hj _ Hst _]. cbn. destruct (ls_joined s) eqn:Ej; [done|]. apply Hst in Hpc. rewrite (proj1 Hj eq_refl) in Hpc. by apply not_elem_of_nil in Hpc.
  - destruct (_ && _); [by apply loop_head_agrees|]. cbn. rewrite app_nil_r. unfold agrees. rewrite Epc. cbn. split; [done|].
    unfold pc_ok. by rewrite Epc.
Qed.

Ltac by_step L :=
  match goal with H : Some _ = Some _ |- _ =>
    let E := fresh in let P := fresh in injection H as E; pose proof L as P; rewrite E in P; exact P end.

Lemma step_agrees v w s s' out tr :
  agrees s tr -> loop_step port key v w s = Some (s', out) -> agrees s' (tr ++ step_events s w out).
Proof.
  unfold agrees at 1, loop_step, step_events. intros Hs Hstep. destruct (ls_pc s) as [|e|failed until| | | |] eqn:Epc; cbn [ended] in Hs.
  - destruct Hs as [Hl _]. destruct w; try done; cbn [app].
    + by_step (loop_head_agrees v s tr Hl).
    + destruct (v_shutdown v); [|done]. by_step (finish_live v s tr Hl).
  - destruct Hs as [Hl Hpc]. unfold pc_ok in Hpc. rewrite Epc in Hpc. destruct Hpc as [Hj He]. destruct w as [|r| | |]; try done.
    pose proof (on_reply_agrees v e r s tr Hl Hj He) as H. injection Hstep as Heq. rewrite Heq in H. by destruct r.
  - destruct Hs as [Hl Hpc]. destruct w; try done; cbn [app].
    + destruct (until <=? v_now v); [|done]. by_step (loop_head_agrees v s tr Hl).
    + by_step (on_tick_agrees v failed s tr Hl Hpc (ex_intro _ until Epc)).
    + destruct (v_shutdown v); [|done]. by_step (finish_live v s tr Hl).
  - destruct Hs as [Hl _]. destruct w; try done. by_step (pause_end_agrees v s tr Hl).
  - destruct Hs as [Hl _]. destruct w; try done; cbn [app].
    + by_step (pause_end_agrees v s tr Hl).
    + destruct (v_shutdown v); [|done]. by_step (finish_live v s tr Hl).
  - destruct w; try done. injection Hstep as <- <-. cbn [app sends omap list_omap]. by rewrite app_nil_r.
  - by destruct w.
Qed.
End Protocol.

(** C16: What a tracker is told.  However the torrent is paused, resumed, completed and
    stopped, and whatever the tracker answers: the first announce is [started], and it
    is repeated until it succeeds; every later regular announce comes after that;
    [completed] is announced only after a successful [started] and never again once it
    succeeded; [stopped] is the last announce and is sent once, if anything was
    announced at all. *)
Theorem announce_protocol port key s tr :
  runs port key s tr ->
  (forall i e, tr !! i = Some (Sent e) -> may_send (take i tr) e) /\
  (forall i j e, tr !! i = Some (Sent (Some Stopped)) -> tr !! j = Some (Sent e) -> (j <= i)%nat) /\
  (ls_pc s = Finished -> tr = [] \/ last tr = Some (Sent (Some Stopped))).
Proof.
  intros Hr. assert (Ha : agrees s tr).
  { induction Hr as [|s tr v w s' out _ IH Hstep]; [|by eapply step_agrees]. split; [|done]. split; try done; cbn.
    all: first [apply ok_trace_nil | apply not_elem_of_nil | split; [done|]; intros H; by apply not_elem_of_nil in H]. }
  assert (Hok : ok_trace tr) by (unfold agrees in Ha; destruct (ended _); [by destruct Ha|by destruct Ha as [[] _]]).
  split_and!.
  - exact Hok.
  - intros i j e Hi Hj. destruct (decide (j <= i)%nat) as [|Hlt]; [done|]. destruct (Hok j e Hj) as [Hs _]. destruct Hs.
    apply list_elem_of_lookup. exists i. rewrite lookup_take_lt by lia. done.
  - intros Hf. unfold agrees in Ha. rewrite Hf in Ha. by destruct Ha.
Qed.

Definition example_view (now : Instant) (complete shutdown : bool) : View := mkView shutdown TsDownloading complete 0 5 0 now.
Definition example_reply : result DispatchedAnnounce TrackerError := Ok (mkDispatched (Ok []) 60 None None).

Lemma announce_protocol_witness :
  let tr := [Sent (Some Started); Succeeded (Some Started); Sent (Some Completed); Succeeded (Some Completed); Sent (Some Stopped)] in
  exists s, runs 6881 7 s tr /\ ls_pc s = Finished /\ last tr = Some (Sent (Some Stopped)) /\ may_send (take 2 tr) (Some Completed).
Proof.
  intros tr. set (done := mkLoop true true None None true Finished). assert (Hr : runs 6881 7 done tr).
  { pose proof (runs_step 6881 7 _ _ (example_view 0 false false) Poll _ _ (runs_new 6881 7) eq_refl) as R1.
    pose proof (runs_step 6881 7 _ _ (example_view 0 false false) (Reply example_reply) _ _ R1 eq_refl) as R2.
    pose proof (runs_step 6881 7 _ _ (example_view (secs 60) true false) SleepElapsed _ _ R2 eq_refl) as R3.
    pose proof (runs_step 6881 7 _ _ (example_view (secs 61) true false) (Reply example_reply) _ _ R3 eq_refl) as R4.
    pose proof (runs_step 6881 7 _ _ (example_view (secs 62) true true) Cancelled _ _ R4 eq_refl) as R5.
    exact (runs_step 6881 7 _ _ (example_view (secs 63) true true) (Reply example_reply) _ _ R5 eq_refl). }
  destruct (announce_protocol 6881 7 done tr Hr) as (H1 & _ & H3). exists done. split; [exact Hr|]. split; [reflexivity|].
  split; [destruct (H3 eq_refl) as [H|H]; [discriminate H|exact H]|exact (H1 2%nat _ eq_refl)].
Defined.

(** ** When it is told *)

(** The delays of consecutive failures: 15 seconds, doubled up to half an hour. *)
Lemma backoff_doubles k : Nat.iter (S k) (fun b => Some (next_backoff b)) None = Some (Z.min MAX_BACKOFF (INITIAL_BACKOFF * 2 ^ Z.of_nat k)).
Proof.
  induction k as [|k IH]; [reflexivity|]. rewrite Nat.iter_succ, IH. unfold next_backoff, MAX_BACKOFF, INITIAL_BACKOFF, secs, U64_MAX.
  rewrite Nat2Z.inj_succ, Z.pow_succ_r by lia. f_equal. pose proof (Z.pow_pos_nonneg 2 (Z.of_nat k)). lia.
Qed.

Lemma finish_stops port key v s p : Request p ∈ (finish port key v s).2 -> ap_event p = Some Stopped.
Proof.
  unfold finish. destruct (ls_joined s); cbn; [|by intros ?%not_elem_of_nil]. intros H%list_elem_of_singleton. by injection H as ->.
Qed.

(** Trackers are not hammered.  After an answer the next announce comes no earlier
    than the interval and the minimum interval the tracker asked for (half an hour
    when it gave none), and after a failure no earlier than the backoff, unless the
    torrent is paused, has just been completed, or is being shut down. *)
Lemma announce_paced port key v e r s s1 out1 v2 w s2 out2 p :
  ls_pc s = Announcing e -> v_shutdown v = false ->
  (forall resp, r = Ok resp -> is_u64 (da_interval resp)) -> (forall b, ls_backoff s = Some b -> 0 < b) ->
  loop_step port key v (Reply r) s = Some (s1, out1) -> loop_step port key v2 w s1 = Some (s2, out2) -> Request p ∈ out2 ->
  ap_event p = Some Stopped \/ v_transfer v2 = TsPaused \/ (v_complete v2 = true /\ ls_completed s1 = false) \/
  v_now v + match r with
            | Ok resp => Z.max (secs (if da_interval resp =? 0 then DEFAULT_INTERVAL_SECS else da_interval resp)) (secs (default 0 (da_min_interval resp)))
            | Err _ => next_backoff (ls_backoff s)
            end <= v_now v2.
Proof.
  intros Hpc Hsd Hint Hb H1 H2 Hp. unfold loop_step in H1. rewrite Hpc in H1. injection H1 as H1. unfold on_reply, start_wait in H1. rewrite Hsd in H1.
  set (delay := match r with Ok resp => _ | Err _ => _ end).
  assert (Hd : 0 < delay /\ exists failed, ls_pc s1 = Waiting failed (v_now v + delay)).
  { destruct r as [resp|err]; unfold delay.
    - specialize (Hint resp eq_refl).
      assert (Hr : reannounce_delay (da_interval resp) (da_min_interval resp) =
        Z.max (secs (if da_interval resp =? 0 then DEFAULT_INTERVAL_SECS else da_interval resp)) (secs (default 0 (da_min_interval resp)))).
      { unfold reannounce_delay, secs, DEFAULT_INTERVAL_SECS. destruct (da_min_interval resp) as [m|]; cbn; destruct (Z.eqb_spec (da_interval resp) 0); ranges. }
      assert (Hpos : 0 < reannounce_delay (da_interval resp) (da_min_interval resp)).
      { rewrite Hr. unfold secs, DEFAULT_INTERVAL_SECS. destruct (Z.eqb_spec (da_interval resp) 0); ranges. }
      rewrite <- Hr. rewrite (proj2 (Z.eqb_neq _ 0)) in H1 by lia. injection H1 as <- _. split; [done|]. by eexists.
    - assert (Hpos : 0 < next_backoff (ls_backoff s)).
      { unfold next_backoff, INITIAL_BACKOFF, MAX_BACKOFF, secs, U64_MAX. destruct (ls_backoff s) as [b|]; [specialize (Hb b eq_refl)|]; lia. }
      rewrite (proj2 (Z.eqb_neq _ 0)) in H1 by lia. injection H1 as <- _. split; [done|]. by eexists. }
  destruct Hd as [_ [failed Hpc1]]. clearbody delay. unfold loop_step in H2. rewrite Hpc1 in H2. destruct w; try done.
  - destruct (Z.leb_spec (v_now v + delay) (v_now v2)); [|done]. auto.
  - injection H2 as H2. unfold on_tick in H2. case_bool_decide; [auto|].
    destruct (ls_completed s1), (v_complete v2); cbn [negb andb] in H2; auto; injection H2 as _ <-; by apply not_elem_of_nil in Hp.
  - destruct (v_shutdown v2); [|done]. injection H2 as H2. left. eapply (finish_stops port key v2 s1). by rewrite H2.
Qed.

(** ** The URL *)

Lemma url_encoded_chars s x : wf_bytes s -> x = 38 \/ x = 61 \/ x = 63 -> Forall (fun b => Z.eqb x b = false) (url_encode_bytes s).
Proof.
  intros Hs Hx. destruct (url_encode_decodes s Hs) as [_ H]. eapply Forall_impl; [exact H|].
  intros c [Hc| ->]; apply Z.eqb_neq; [unfold is_unreserved, is_ascii_digit in Hc; lia|lia].
Qed.

Definition param (kv : bytes * bytes) : bytes := fst kv ++ 61 :: url_encode_bytes (snd kv).
Definition joins (url : bytes) : bool := match last url with Some c => negb ((c =? 63) || (c =? 38)) | None => true end.

Lemma push_param url kv :
  push_encoded_pair url (fst kv) (snd kv) = url ++ (if joins url then [if existsb (Z.eqb 63) url then 38 else 63] else []) ++ param kv.
Proof.
  unfold push_encoded_pair, joins, param. destruct (last url) as [c|] eqn:E.
  - destruct ((c =? 63) || (c =? 38)); cbn [negb]; [done|]. by rewrite <- app_assoc.
  - assert (url = []) as -> by (destruct url as [|x l] using rev_ind; [done|by rewrite last_snoc in E]). done.
Qed.

(** A parameter ends the URL in a character that is no separator. *)
Lemma joins_param u kv : wf_bytes (snd kv) -> joins (u ++ param kv) = true.
Proof.
  intros Hw. unfold joins, param. rewrite app_assoc, last_app. cbn [last].
  destruct (url_encode_bytes (snd kv)) as [|c l] eqn:E using rev_ind; [done|]. rewrite last_cons, last_snoc.
  pose proof (url_encoded_chars (snd kv) 38 Hw ltac:(auto)) as H1. pose proof (url_encoded_chars (snd kv) 63 Hw ltac:(auto)) as H2.
  rewrite E in H1, H2. apply Forall_app in H1 as [_ [H1 _]%Forall_cons]. apply Forall_app in H2 as [_ [H2 _]%Forall_cons].
  apply Z.eqb_neq in H1, H2. rewrite (proj2 (Z.eqb_neq _ _)), (proj2 (Z.eqb_neq _ _)) by lia. done.
Qed.

Lemma push_rest u kv pairs :
  Forall (fun kv => wf_bytes (snd kv)) (kv :: pairs) -> existsb (Z.eqb 63) u = true ->
  fold_left (fun url kv => push_encoded_pair url (fst kv) (snd kv)) pairs (u ++ param kv) = u ++ concat (param kv :: map (cons 38) (map param pairs)).
Proof.
  revert u kv. induction pairs as [|kv' pairs IH]; intros u kv [Hkv Hps]%Forall_cons Hu; cbn [fold_left map concat].
  - by rewrite app_nil_r.
  - rewrite push_param, joins_param by done. rewrite existsb_app, Hu. cbn [orb app].
    replace ((u ++ param kv) ++ 38 :: param kv') with ((u ++ param kv ++ [38]) ++ param kv') by by rewrite <- !app_assoc.
    rewrite IH; [|done|by rewrite existsb_app, Hu]. cbn [concat]. by rewrite <- !app_assoc.
Qed.

Definition query (pairs : list (bytes * bytes)) : bytes :=
  concat (match map param pairs with [] => [] | p :: ps => p :: map (cons 38) ps end).

(** How a tracker reads a query. *)
Definition read_query (q : bytes) : list (option (bytes * bytes)) :=
  map (fun part => '(k, v) ← split_once 61 part; v ← url_decode v; Some (k, v)) (split_on (Z.eqb 38) q).

Lemma read_query_exact pairs :
  pairs <> [] -> Forall (fun kv => Forall (fun b => b <> 38 /\ b <> 61) (fst kv) /\ wf_bytes (snd kv)) pairs -> read_query (query pairs) = map Some pairs.
Proof.
  intros Hne H. unfold read_query, query. destruct pairs as [|kv pairs]; [done|]. cbn [map]. rewrite split_on_join.
  - change (param kv :: map param pairs) with (map param (kv :: pairs)). rewrite map_map. change (Some kv :: map Some pairs) with (map Some (kv :: pairs)).
    clear Hne. induction H as [|[k v] l [Hk Hv] _ IH]; [done|]. cbn [map]. f_equal; [|exact IH]. unfold param. cbn [fst snd] in *.
    rewrite split_once_first by (eapply Forall_impl; [exact Hk|]; intros b [? ?]; apply Z.eqb_neq; congruence). red_bind.
    rewrite (proj1 (url_encode_decodes v Hv)). done.
  - change (Forall (fun s => lacks 38 s) (map param (kv :: pairs))). apply Forall_map. eapply Forall_impl; [exact H|]. intros [k v] [Hk Hv]. cbn [fst snd] in *.
    unfold param. apply Forall_app. split; [eapply Forall_impl; [exact Hk|]; intros b [? ?]; apply Z.eqb_neq; congruence|].
    constructor; [done|]. by apply url_encoded_chars; [|auto].
Qed.

Lemma to_string_wf n : 0 <= n -> wf_bytes (to_string n).
Proof.
  intros Hn. rewrite to_string_nonneg by done. eapply Forall_impl; [by apply dec_digits|]. intros b Hb. unfold is_ascii_digit in Hb. ranges.
Qed.

Definition wf_params (p : AnnounceParams) : Prop :=
  is_u64 (ap_uploaded p) /\ is_u64 (ap_downloaded p) /\ is_u64 (ap_left p) /\ is_u16 (ap_port p) /\ is_u32 (ap_numwant p) /\ is_u32 (ap_key p) /\
  match ap_tracker_id p with Some id => wf_bytes id | None => True end.

Lemma announce_pairs_ok info_hash peer_id p :
  wf_bytes info_hash -> wf_bytes peer_id -> wf_params p ->
  Forall (fun kv => Forall (fun b => b <> 38 /\ b <> 61) (fst kv) /\ wf_bytes (snd kv)) (announce_pairs info_hash peer_id p).
Proof.
  intros Hh Hp (H1 & H2 & H3 & H4 & H5 & H6 & H7).
  assert (Hk : forall s v, bool_decide (Forall (fun b => b <> 38 /\ b <> 61) (str s)) = true -> wf_bytes v ->
    Forall (fun b => b <> 38 /\ b <> 61) (fst (str s, v)) /\ wf_bytes (snd (str s, v))) by (intros s v ?%bool_decide_eq_true ?; done).
  assert (Hn : forall n, 0 <= n -> wf_bytes (to_string n)) by exact to_string_wf.
  unfold announce_pairs. rewrite !Forall_app. split_and!; repeat (apply Forall_cons; split); try apply Forall_nil; try done;
    try (apply Hk; [by vm_compute|]; first [done|apply Hn; ranges|idtac]).
  - apply (bool_decide_unpack _). by vm_compute.
  - destruct (ap_event p) as [e|]; [|by constructor]. constructor; [|by constructor]. apply Hk; [by vm_compute|]. destruct e; apply (bool_decide_unpack _); by vm_compute.
  - destruct (ap_tracker_id p); [|by constructor]. constructor; [|by constructor]. by apply Hk; [vm_compute|].
Qed.

(** The announce URL is exact: it is the tracker's URL, a separator where one is
    needed, and a query that the tracker reads back as exactly the parameters of the
    announce with their values, whatever bytes the info hash, the peer id and the
    tracker id hold. *)
Theorem tracker_url_exact info_hash peer_id base p :
  wf_bytes info_hash -> wf_bytes peer_id -> wf_params p ->
  last base <> Some 38 \/ existsb (Z.eqb 63) base = true ->
  build_tracker_url info_hash peer_id base p =
    base ++ (if joins base then [if existsb (Z.eqb 63) base then 38 else 63] else []) ++ query (announce_pairs info_hash peer_id p) /\
  read_query (query (announce_pairs info_hash peer_id p)) = map Some (announce_pairs info_hash peer_id p).
Proof.
  intros Hh Hid Hp Hbase. pose proof (announce_pairs_ok info_hash peer_id p Hh Hid Hp) as Hok. split.
  - unfold build_tracker_url, query. assert (Hne : exists kv pairs, announce_pairs info_hash peer_id p = kv :: pairs) by (by eexists _, _).
    destruct Hne as (kv & pairs & E). rewrite E in *. cbn [fold_left map]. rewrite push_param, app_assoc, push_rest, <- app_assoc; [done| |].
    + eapply Forall_impl; [exact Hok|]. by intros ? [_ ?].
    + rewrite existsb_app. destruct (existsb (Z.eqb 63) base) eqn:Eq; [done|]. destruct (joins base) eqn:Ej; [done|]. exfalso.
      unfold joins in Ej. destruct (last base) as [c|] eqn:El; [|done]. destruct Hbase as [Hb|]; [|done].
      destruct (Z.eqb_spec c 63) as [->|]; [|destruct (Z.eqb_spec c 38) as [->|]; [done|done]].
      apply last_Some in El as [u ->]. rewrite existsb_app in Eq. cbn in Eq. by rewrite orb_true_r in Eq.
  - apply read_query_exact; [done|exact Hok].
Qed.

(** ** Announces that are not meant *)

(** A torrent that leaves the queue's slots, or is paused, announces once more while it
    transfers nothing, and asks for fifty peers it does not use. *)
Lemma queued_torrent_announces port key v s until :
  ls_pc s = Waiting false until -> v_transfer v = transfer_of StQueued ->
  loop_step port key v Tick s = Some (set_pc PauseAnnouncing s, [Request (current_announce_params port key v None s)]).
Proof. intros Hpc Hv. unfold loop_step, on_tick. rewrite Hpc, Hv. done. Qed.

(** A torrent that is complete from the start announces its completion all the same,
    one tick after its first announce succeeded. *)
Lemma seed_announces_completed port key :
  exists s, runs port key s [Sent (Some Started); Succeeded (Some Started); Sent (Some Completed)].
Proof.
  pose proof (runs_step port key _ _ (example_view 0 true false) Poll _ _ (runs_new port key) eq_refl) as R1.
  pose proof (runs_step port key _ _ (example_view 1 true false) (Reply example_reply) _ _ R1 eq_refl) as R2.
  eexists. exact (runs_step port key _ _ (example_view 2 true false) Tick _ _ R2 eq_refl).
Qed.

(** Several steps at one instant. *)
Fixpoint loop_steps (port : u16) (key : u32) (v : View) (ws : list Wakeup) (s : LoopState) : option (LoopState * list Output) :=
  match ws with
  | [] => Some (s, [])
  | w :: ws => '(s, out) ← loop_step port key v w s; '(s, out') ← loop_steps port key v ws s; Some (s, out ++ out')
  end.

Definition requests (out : list Output) : nat := length (sends out).

Lemma next_backoff_pos b : (forall d, b = Some d -> 0 < d) -> 0 < next_backoff b.
Proof. intros H. unfold next_backoff, INITIAL_BACKOFF, MAX_BACKOFF, secs, U64_MAX. destruct b as [d|]; [specialize (H d eq_refl)|]; lia. Qed.

Lemma failed_then_tick port key v err e s :
  ls_pc s = Announcing e -> ls_completed s = false -> (forall d, ls_backoff s = Some d -> 0 < d) ->
  v_shutdown v = false -> v_transfer v = TsDownloading -> v_complete v = true ->
  exists s' e' p, loop_steps port key v [Reply (Err err); Tick] s = Some (s', [Request p]) /\
    ls_pc s' = Announcing e' /\ ls_completed s' = false /\ (forall d, ls_backoff s' = Some d -> 0 < d).
Proof.
  intros Hpc Hc Hb Hsd Ht Hcomp. pose proof (next_backoff_pos _ Hb) as Hpos.
  assert (E1 : loop_step port key v (Reply (Err err)) s =
    Some (set_pc (Waiting true (v_now v + next_backoff (ls_backoff s))) (set_backoff (Some (next_backoff (ls_backoff s))) s), [])).
  { unfold loop_step. rewrite Hpc. unfold on_reply, start_wait. rewrite Hsd, (proj2 (Z.eqb_neq _ 0)) by lia. done. }
  cbn [loop_steps]. rewrite E1. red_bind. unfold loop_step, on_tick, loop_head. cbn [ls_pc set_pc set_backoff ls_completed]. rewrite Ht, Hc, Hcomp, Hsd.
  cbn [bool_decide_eq_true negb andb]. red_bind. eexists _, _, _. split; [reflexivity|]. split; [reflexivity|]. split; [exact Hc|].
  intros d [= <-]. exact Hpos.
Qed.

Lemma loop_steps_app port key v ws ws' s :
  loop_steps port key v (ws ++ ws') s = ('(s, out) ← loop_steps port key v ws s; '(s, out') ← loop_steps port key v ws' s; Some (s, out ++ out')).
Proof.
  revert s. induction ws as [|w ws IH]; intros s; cbn [app loop_steps].
  - red_bind. destruct (loop_steps port key v ws' s) as [[? ?]|]; done.
  - destruct (loop_step port key v w s) as [[s1 o1]|]; red_bind; [|done]. rewrite IH.
    destruct (loop_steps port key v ws s1) as [[s2 o2]|]; red_bind; [|done]. destruct (loop_steps port key v ws' s2) as [[s3 o3]|]; red_bind; [|done].
    by rewrite app_assoc.
Qed.

(** A tracker that fails is hammered by a complete torrent.  While the torrent is
    complete and the tracker has not acknowledged it, the first tick of the wait ends
    it, whatever the backoff is, and the first tick of an interval is immediate: any
    number of announces is sent without a moment between them. *)
Theorem failing_tracker_hammered port key v err e s n :
  ls_pc s = Announcing e -> ls_completed s = false -> (forall d, ls_backoff s = Some d -> 0 < d) ->
  v_shutdown v = false -> v_transfer v = TsDownloading -> v_complete v = true ->
  exists s' out, loop_steps port key v (concat (replicate n [Reply (Err err); Tick])) s = Some (s', out) /\ requests out = n.
Proof.
  intros Hpc Hc Hb Hsd Ht Hcomp. revert s e Hpc Hc Hb. induction n as [|n IH]; intros s e Hpc Hc Hb; [by exists s, []|].
  destruct (failed_then_tick port key v err e s Hpc Hc Hb Hsd Ht Hcomp) as (s1 & e1 & p & E1 & Hpc1 & Hc1 & Hb1).
  destruct (IH s1 e1 Hpc1 Hc1 Hb1) as (s2 & out & E2 & Hn). exists s2, ([Request p] ++ out).
  cbn [replicate concat]. rewrite loop_steps_app, E1. red_bind. rewrite E2. red_bind. split; [done|].
  unfold requests in *. rewrite sends_app, length_app, Hn. done.
Qed.
