(* ===== verification/Webseed.v ===== *)
(** * Web seeds (crates/bit_rev/src/webseed.rs)

    A web seed is an HTTP server that has the files of the torrent.  One task per URL
    reserves pieces in the download state as a peer does, fetches up to four of them
    at a time, and hands the verified ones to the writer.

    The network is a function from the URL and the range header of a request to the
    answer, another one at every step.  The task ([Fetcher]) and the jobs it has
    spawned take turns with each other and with the peers of the torrent; a step ends
    where the source awaits.  [None] of an instant is a panic. *)

From S2P Require Import Prelude Utf8 Bencode Text Value Metainfo Layout Bitfield Picker PeerStates Download ExtHandshake Magnet PeerHandler PeerSafe.

Definition PIPELINE : nat := 4.
Definition HASH_FAIL_LIMIT : u32 := 3.
Definition CLIENT_ERR_LIMIT : u32 := 3.
Definition FAST_SWARM_BYTES : u64 := 8 * 1024.
Definition INITIAL_BACKOFF : Duration := secs 1.
Definition MAX_BACKOFF : Duration := secs 60.

Inductive WebSeedKind := GetRight | Hoffman.

Inductive JobResult :=
| JobOk
| HashFail
| RetryAfter (delay : Duration)
| Server
| Client
| SkipUrl.

(** ** The URLs of a torrent *)

Definition is_http (url : bytes) : bool :=
  let lower := to_ascii_lowercase url in
  starts_with (str "http://") lower || starts_with (str "https://") lower.

Definition collect_urls (tf : TorrentFile) : list (WebSeedKind * bytes) :=
  map (pair GetRight) (filter (fun url => is_http url = true) (default [] (tf_url_list tf))) ++
  map (pair Hoffman) (filter (fun url => is_http url = true) (default [] (tf_httpseeds tf))).

(** 192.0.2.1 with the number of the URL as port. *)
Definition webseed_peer (index : u16) : PeerAddr := V4 3221225985 (sat_add U16_MAX index 1).

(** [spawn] *)
Definition spawn (tf : TorrentFile) : list (WebSeedKind * bytes * PeerAddr) :=
  imap (fun index ku => (fst ku, snd ku, webseed_peer (wrap16 (Z.of_nat index)))) (collect_urls tf).

(** ** URLs of requests *)

Definition split_query (url : bytes) : bytes * option bytes :=
  match split_once 63 url with Some (path, query) => (path, Some query) | None => (url, None) end.

Definition ends_with (c : u8) (s : bytes) : bool := bool_decide (last s = Some c).

Fixpoint push_segments (first : bool) (segments : list bytes) (url : bytes) : bytes :=
  match segments with
  | [] => url
  | segment :: segments => push_segments false segments (url ++ (if first then [] else [47]) ++ url_encode_bytes segment)
  end.

Definition join_segments (path : bytes) (query : option bytes) (segments : list bytes) : bytes :=
  let url :=
    match segments with
    | [] => path
    | _ => push_segments true segments (if ends_with 47 path then path else path ++ [47])
    end in
  match query with Some query => url ++ 63 :: query | None => url end.

Definition getright_file_url (base : bytes) (t : Torrent) (file_index : nat) : bytes :=
  let single := (length (t_files t) =? 1)%nat in
  let '(path, query) := split_query base in
  if single && negb (ends_with 47 path) then base
  else
    let segments := if ends_with 47 path || negb single then [t_name t] else [] in
    let segments :=
      if single then segments
      else segments ++ match t_files t !! file_index with Some file => tfi_path file | None => [] end in
    join_segments path query segments.

Definition push_query (url key value : bytes) : bytes :=
  url ++ (if existsb (Z.eqb 63) url then 38 else 63) :: key ++ 61 :: value.

Definition hoffman_url (base info_hash : bytes) (piece length : u32) : bytes :=
  let url := push_query base (str "info_hash") (url_encode_bytes info_hash) in
  let url := push_query url (str "piece") (to_string piece) in
  push_query url (str "ranges") (str "0-" ++ to_string (sat_sub length 1)).

(** ** Requests *)

(** The body is what could be read of it. *)
Record Response := mkResponse { rs_status : u16; rs_retry_after : option bytes; rs_body : bytes }.

Definition parse_retry_secs (text : list Z) : option Duration :=
  n ← parse_uint U64_MAX text; Some (secs n).

(** [HeaderValue::to_str]: visible characters and tabs. *)
Definition header_str (value : bytes) : option bytes :=
  if forallb (fun b => within 32 126 b || (b =? 9)) value then Some value else None.

Definition retry_after (header : option bytes) (body : bytes) : option Duration :=
  match value ← header; text ← header_str value; parse_retry_secs text with
  | Some delay => Some delay
  | None => text ← utf8_chars body; parse_retry_secs (trim text)
  end.

Definition exact_len (body : bytes) (want : usize) : result bytes JobResult :=
  if Z.of_nat (length body) =? want then Ok body else Err Server.

Definition range_header (start stop : usize) : bytes := str "bytes=" ++ to_string start ++ 45 :: to_string stop.

(** A network: what a request for a URL with a range header yields. *)
Abbreviation Http := (bytes -> option bytes -> option Response) (only parsing).

Definition http_range (http : Http) (url : bytes) (start stop want : usize) (ranged : bool) : result bytes JobResult :=
  match http url (if ranged then Some (range_header start stop) else None) with
  | None => Err Server
  | Some (mkResponse code header body) =>
      if code =? 206 then exact_len body want
      else if code =? 200 then
        if Z.of_nat (length body) =? want then Ok body else if ranged then Err SkipUrl else Err Server
      else if (code =? 429) || within 500 599 code then Err (RetryAfter (default INITIAL_BACKOFF (retry_after header body)))
      else if within 400 499 code then Err Client
      else Err Server
  end.

Fixpoint fetch_mappings (http : Http) (t : Torrent) (base : bytes) (mappings : list PieceFileMapping) (buf : bytes) : result bytes JobResult :=
  match mappings with
  | [] => Ok buf
  | mapping :: mappings =>
      if pm_length mapping =? 0 then fetch_mappings http t base mappings buf
      else
        let file_url := getright_file_url base t (pm_file_index mapping) in
        let start := pm_file_offset mapping in
        let stop := wrap64 (start + pm_length mapping - 1) in
        let! chunk := http_range http file_url start stop (pm_length mapping) true in
        fetch_mappings http t base mappings (buf ++ chunk)
  end.
Definition fetch_getright (http : Http) (t : Torrent) (base : bytes) (index : u32) : result bytes JobResult :=
  fetch_mappings http t base (map_piece_to_files t index) [].

Definition fetch_hoffman (http : Http) (t : Torrent) (base : bytes) (index length : u32) : result bytes JobResult :=
  http_range http (hoffman_url base (t_info_hash t) index length) 0 0 length false.

Definition fetch (http : Http) (kind : WebSeedKind) (t : Torrent) (url : bytes) (index length : u32) : result bytes JobResult :=
  match kind with GetRight => fetch_getright http t url index | Hoffman => fetch_hoffman http t url index length end.

(** ** Choosing pieces *)

(** A peer that has sent 8 KiB and goes on sending. *)
Definition fast_peer (s : PeerState) : bool :=
  writer_tx s && negb (peer_choking s) && negb (snubbed s) && negb (bytes_downloaded (stats s) <? FAST_SWARM_BYTES).

Definition block_pieces (blocked : list bool) (s : PeerState) : list bool :=
  if fast_peer s then imap (fun index slot => has_piece (ps_bitfield s) index || slot) blocked else blocked.

Definition pieces_for_webseed (dl : DownloadState) (ps : PeerStates) : Bitfield :=
  let count := length (dl_pieces dl) in
  let blocked := fold_left block_pieces (map snd (map_to_list (states ps))) (replicate count false) in
  fold_left (fun has ib => if snd ib : bool then has else set_piece has (fst ib)) (imap pair blocked) (with_piece_count count).

Definition pick_piece (choose : list u32 -> option u32) (dl : DownloadState) (ps : PeerStates) (peer : PeerAddr)
    : option (option u32 * DownloadState) :=
  pick 1 choose dl peer (pieces_for_webseed dl ps) [].

(** ** One piece *)

Definition piece_length (dl : DownloadState) (index : u32) : option u32 :=
  p ← get_piece dl index; Some (pw_length (piece_work p)).

Section Job.
Context (sha1 : bytes -> bytes).

(** [fetch_piece] from the answer on: the piece goes through the chunks of the
    download state.  The last component is what is sent to the writer. *)
Definition commit (open : bool) (peer : PeerAddr) (index length : u32) (buf : bytes) (dl : DownloadState)
    : JobResult * DownloadState * option FullPiece :=
  if negb (Z.of_nat (List.length buf) =? length) then (Server, dl, None)
  else
    let dl := snd (set_chuncks dl index 0 buf peer) in
    match set_downloaded_if_all_chunks dl index with
    | (None, dl) => (JobOk, dl, None)
    | (Some full, dl) =>
        let raw := chunk_to_buf full in
        if negb (bool_decide (sha1 raw = pw_hash (piece_work full))) then (HashFail, dl, None)
        else
          let '(claimed, dl) := claim_write dl index in
          if claimed then
            let dl := clear_piece_chunks dl index in
            if open then (JobOk, dl, Some (mkFullPiece index length raw)) else (SkipUrl, dl, None)
          else (JobOk, dl, None)
    end.

(** [fetch_reserved] after [fetch_piece]. *)
Definition give_back (peer : PeerAddr) (index : u32) (result : JobResult) (dl : DownloadState) : DownloadState :=
  match result with
  | JobOk => snd (release_reservation dl index peer)
  | HashFail => release_piece (remove_downloaded dl index) index
  | _ => release_piece dl index
  end.

Definition answered (open : bool) (peer : PeerAddr) (index length : u32) (fetched : result bytes JobResult) (dl : DownloadState)
    : JobResult * DownloadState * option FullPiece :=
  let '(r, dl, sent) :=
    match fetched with Ok buf => commit open peer index length buf dl | Err err => (err, dl, None) end in
  (r, give_back peer index r dl, sent).
End Job.

(** ** The task of a URL *)

Record Counters := mkCounters {
  hash_fails : u32; client_fails : u32; backoff : Duration; pause_until : Instant }.

Definition counters_new (now : Instant) : Counters := mkCounters 0 0 INITIAL_BACKOFF now.

(** [Instant + Duration] *)
Definition instant_add (now : Instant) (d : Duration) : option Instant :=
  if now + d <=? secs I64_MAX + 999999999 then Some (now + d) else None.

(** Whether the loop ends, with the counters. *)
Definition apply_result (now : Instant) (joined : result JobResult ()) (c : Counters) : option (bool * Counters) :=
  match match joined with Ok r => r | Err _ => Server end with
  | JobOk => Some (false, mkCounters (hash_fails c) 0 INITIAL_BACKOFF (pause_until c))
  | HashFail =>
      let fails := sat_add U32_MAX (hash_fails c) 1 in
      Some (HASH_FAIL_LIMIT <=? fails, mkCounters fails (client_fails c) (backoff c) (pause_until c))
  | RetryAfter delay =>
      until ← instant_add now delay;
      Some (false, mkCounters (hash_fails c) 0 (backoff c) until)
  | Server =>
      until ← instant_add now (backoff c);
      Some (false, mkCounters (hash_fails c) (client_fails c) (Z.min (Z.min (secs U64_MAX + 999999999) (backoff c * 2)) MAX_BACKOFF) until)
  | Client =>
      let fails := sat_add U32_MAX (client_fails c) 1 in
      Some (CLIENT_ERR_LIMIT <=? fails, mkCounters (hash_fails c) fails (backoff c) (pause_until c))
  | SkipUrl => Some (true, c)
  end.

(** Where a job waits. *)
Inductive JobPc :=
| Spawned
| Acquiring (length : u32)   (* for the bandwidth *)
| Fetching (length : u32)    (* for the server *)
| Done (r : JobResult).
Record Job := mkJob { job_index : u32; job_pc : JobPc }.

(** Where the task is: at the head of its loop, in the inner loop, at [join_next],
    or past its end. *)
Inductive Pc := Head | Filling | Joining | Stopped | Panicked.

Record Fetcher := mkFetcher { f_pc : Pc; f_counters : Counters; f_jobs : list Job; f_dl : DownloadState }.

Definition fetcher_new (now : Instant) (dl : DownloadState) : Fetcher := mkFetcher Head (counters_new now) [] dl.

(** What a step reads of its surroundings. *)
Record View := mkView {
  v_now : Instant; v_cancelled : bool; v_transfer : TransferState; v_states : PeerStates; v_open : bool; v_http : Http }.

Inductive Wakeup :=
| Loop                                            (* the head of the loop *)
| Fill (choose : list u32 -> option u32)          (* one round of the inner loop *)
| Run (k : nat)                                   (* job [k] goes on *)
| Join (k : nat)                                  (* job [k] is joined *)
| Other (dl : DownloadState).                     (* another task *)

Section Fetcher.
Context (sha1 : bytes -> bytes) (t : Torrent) (kind : WebSeedKind) (url : bytes) (peer : PeerAddr).

(** The end of [run_url]. *)
Definition stop (f : Fetcher) : Fetcher := mkFetcher Stopped (f_counters f) [] (remove_reserved (f_dl f) peer).

Definition at_head (v : View) (f : Fetcher) : Fetcher :=
  if v_cancelled v || is_complete (f_dl f) then stop f
  else if negb (bool_decide (v_transfer v = TsDownloading)) || (v_now v <? pause_until (f_counters f)) then f
  else mkFetcher Filling (f_counters f) (f_jobs f) (f_dl f).

Definition end_of_fill (f : Fetcher) (dl : DownloadState) : Fetcher :=
  mkFetcher (match f_jobs f with [] => Head | _ => Joining end) (f_counters f) (f_jobs f) dl.

Definition fill (choose : list u32 -> option u32) (v : View) (f : Fetcher) : option Fetcher :=
  if (length (f_jobs f) <? PIPELINE)%nat then
    '(picked, dl) ← pick_piece choose (f_dl f) (v_states v) peer;
    Some match picked with
         | Some index => mkFetcher Filling (f_counters f) (f_jobs f ++ [mkJob index Spawned]) dl
         | None => end_of_fill f dl
         end
  else Some (end_of_fill f (f_dl f)).

(** [fetch_piece] up to its next [await]; the last two components are the download
    state and what is sent to the writer. *)
Definition run_job (v : View) (j : Job) (dl : DownloadState) : option (JobPc * DownloadState * option FullPiece) :=
  let finish r := Some (Done r, give_back peer (job_index j) r dl, None) in
  match job_pc j with
  | Spawned =>
      match piece_length dl (job_index j) with
      | None => finish Client
      | Some length => if length =? 0 then finish JobOk else Some (Acquiring length, dl, None)
      end
  | Acquiring length =>
      if v_cancelled v || negb (wanted dl (job_index j)) then finish JobOk else Some (Fetching length, dl, None)
  | Fetching length =>
      let '(r, dl, sent) := answered sha1 (v_open v) peer (job_index j) length (fetch (v_http v) kind t url (job_index j) length) dl in
      Some (Done r, dl, sent)
  | Done _ => None
  end.

Definition run_one (v : View) (k : nat) (f : Fetcher) : option (Fetcher * list FullPiece) :=
  j ← f_jobs f !! k;
  '(pc, dl, sent) ← run_job v j (f_dl f);
  Some (mkFetcher (f_pc f) (f_counters f) (<[k := mkJob (job_index j) pc]> (f_jobs f)) dl, option_list sent).

(** A panic drops the set of jobs, which aborts them. *)
Definition join_one (v : View) (k : nat) (f : Fetcher) : option Fetcher :=
  j ← f_jobs f !! k;
  match job_pc j with
  | Done r =>
      Some match apply_result (v_now v) (Ok r) (f_counters f) with
           | None => mkFetcher Panicked (f_counters f) [] (f_dl f)
           | Some (ends, c) => let f := mkFetcher Head c (delete k (f_jobs f)) (f_dl f) in if ends then stop f else f
           end
  | _ => None
  end.

(** In a pause the task waits for a job too. *)
Definition may_join (v : View) (f : Fetcher) : bool :=
  match f_pc f with Joining => true | Head => v_now v <? pause_until (f_counters f) | _ => false end.

Definition fetcher_step (v : View) (w : Wakeup) (f : Fetcher) : option (Fetcher * list FullPiece) :=
  match w with
  | Loop => match f_pc f with Head => Some (at_head v f, []) | _ => None end
  | Fill choose => match f_pc f with Filling => f ← fill choose v f; Some (f, []) | _ => None end
  | Run k => run_one v k f
  | Join k => if may_join v f then f ← join_one v k f; Some (f, []) else None
  | Other dl => Some (mkFetcher (f_pc f) (f_counters f) (f_jobs f) dl, [])
  end.
End Fetcher.

(** ** The bytes of a piece *)

(** A server that has the files. *)
Definition serves (http : Http) (t : Torrent) (base : bytes) (cs : list bytes) : Prop :=
  forall i c start stop, cs !! i = Some c -> 0 <= start <= stop -> stop < Z.of_nat (length c) ->
    exists header, http (getright_file_url base t i) (Some (range_header start stop)) =
      Some (mkResponse 206 header (seg (Z.to_nat start) (Z.to_nat (stop + 1)) c)).

Lemma fetch_mappings_exact http t base cs mps buf :
  serves http t base cs -> Forall (fun c => Z.of_nat (length c) <= I64_MAX) cs -> Forall (mapping_ok cs) mps ->
  fetch_mappings http t base mps buf = Ok (buf ++ mapped_bytes cs mps).
Proof.
  intros Hs Hc Hm. revert buf. induction Hm as [|[i off len] mps (H0 & H1 & c & Hi & Hlen) _ IH]; intros buf.
  { by rewrite app_nil_r. }
  cbn [pm_file_index pm_file_offset pm_length] in *. cbn [fetch_mappings pm_file_index pm_file_offset pm_length].
  assert (Hb : mapping_bytes cs (mkMapping i off len) = seg (Z.to_nat off) (Z.to_nat off + Z.to_nat len) c)
    by (unfold mapping_bytes; cbn; by rewrite Hi).
  change (mapped_bytes cs (mkMapping i off len :: mps)) with (mapping_bytes cs (mkMapping i off len) ++ mapped_bytes cs mps). rewrite Hb.
  assert (Hl : Z.of_nat (length c) <= I64_MAX) by (rewrite Forall_lookup in Hc; by eapply Hc).
  destruct (Z.eqb_spec len 0) as [->|Hne].
  - rewrite IH. by rewrite (seg_empty _ _ c) by lia.
  - rewrite wrap64_nonneg_small by lia. destruct (Hs i c off (off + len - 1) Hi) as [header E]; [lia|lia|].
    unfold http_range. rewrite E. change (206 =? 206) with true. cbv iota.
    replace (Z.to_nat (off + len - 1 + 1)) with (Z.to_nat off + Z.to_nat len)%nat by lia. unfold exact_len. rewrite length_seg.
    rewrite (proj2 (Z.eqb_eq _ _)) by lia. cbn [bind]. rewrite IH. by rewrite app_assoc.
Qed.

Lemma sized_bound files cs m : sized files cs -> total_len files <= m -> contiguous 0 files -> Forall (fun c => Z.of_nat (length c) <= m) cs.
Proof.
  intros Hs Hm _. rewrite (concat_sized _ _ Hs) in Hm. clear Hs. induction cs as [|c cs IH]; constructor; cbn in Hm; rewrite length_app in Hm; [lia|].
  apply IH. lia.
Qed.

(** The ranges of a piece put together are the piece. *)
Lemma fetch_getright_exact http t base cs index :
  wf_torrent t -> sized (t_files t) cs -> piece_in_range t index -> serves http t base cs ->
  let '(s, e) := calculate_bounds_for_piece t index in
  fetch_getright http t base index = Ok (seg (Z.to_nat s) (Z.to_nat e) (concat cs)).
Proof.
  intros Hw Hs Hi Hsrv. pose proof (map_piece_bytes t cs index Hw Hs Hi) as H.
  destruct (calculate_bounds_for_piece t index) as [s e]. destruct H as (H1 & H2 & _). unfold fetch_getright.
  rewrite (fetch_mappings_exact _ _ _ cs) by (done || (eapply sized_bound; [done| |]; destruct Hw; [congruence|done])). by rewrite H1.
Qed.

(** ** The way into the download state *)

Section Commit.
Context (peer : PeerAddr).

Lemma get_update dl index f p : get_piece dl index = Some p -> get_piece (update_piece index f dl) index = Some (f p).
Proof. intros H. unfold get_piece, update_piece in *. cbn. by rewrite list_lookup_alter_eq, H. Qed.

Lemma find_piece_wf dl index p : wf_download dl -> 0 <= index -> get_piece dl index = Some p -> find_piece dl index = Some (Z.to_nat index, p).
Proof.
  intros Hwf Hi Hp. unfold find_piece. apply list_find_Some. split; [done|]. split.
  - rewrite (po_index _ _ (wd_pieces _ Hwf _ _ Hp)). lia.
  - intros j q Hj Hlt E. rewrite (po_index _ _ (wd_pieces _ Hwf _ _ Hj)) in E. lia.
Qed.

(** What the operations leave alone: who reserves the pieces. *)
Definition holders (dl : DownloadState) : list (option PeerAddr) := map reserved (dl_pieces dl).

Lemma holders_update index f dl : (forall p, reserved (f p) = reserved p) -> holders (update_piece index f dl) = holders dl.
Proof. intros Hf. unfold holders, update_piece. cbn. by apply map_alter_same. Qed.

Lemma holders_chunk dl index start buf : holders (snd (set_chuncks dl index start buf peer)) = holders dl.
Proof.
  unfold set_chuncks. destruct (find_piece dl index) as [[k p]|] eqn:E; [|done]. case_bool_decide; [done|].
  unfold find_piece in E. apply list_find_Some in E as (Hk & _ & _). unfold holders. cbn [snd set_pieces dl_pieces].
  apply list_eq. intros j. rewrite !list_lookup_fmap. destruct (decide (k = j)) as [->|]; [|by rewrite list_lookup_insert_ne].
  by rewrite list_lookup_insert_eq, Hk by (by eapply lookup_lt_Some).
Qed.

Lemma holders_all_chunks dl index : holders (snd (set_downloaded_if_all_chunks dl index)) = holders dl.
Proof.
  unfold set_downloaded_if_all_chunks. destruct (get_piece dl index); [|done]. destruct (_ || _); [done|]. cbn [snd].
  by apply (holders_update index (set_downloaded_flag true)).
Qed.

Lemma holders_claim dl index : holders (snd (claim_write dl index)) = holders dl.
Proof. unfold claim_write. destruct (get_piece dl index); [|done]. cbn [snd]. by apply holders_update. Qed.

Lemma holders_remove dl index : holders (remove_downloaded dl index) = holders dl.
Proof.
  unfold remove_downloaded, holders. destruct (remove_loop index (dl_pieces dl) (dl_verified dl)) as [l v] eqn:E. cbn.
  revert l v E. generalize (dl_verified dl). induction (dl_pieces dl) as [|p ps IH]; intros v0 l v E; cbn in E; [by injection E as <- <-|].
  destruct (_ =? _); destruct (remove_loop index ps _) as [l' v'] eqn:El in E; injection E as <- <-; cbn; f_equal; by eapply IH.
Qed.

(** Every change is one that peers make too. *)
Lemma commit_spec sha1 open index length buf dl r dl' sent :
  commit sha1 open peer index length buf dl = (r, dl', sent) ->
  rtc dl_step dl dl' /\ holders dl' = holders dl /\
  forall piece, sent = Some piece -> fp_index piece = index /\ fp_length piece = length /\
    exists w, works_of dl !! Z.to_nat index = Some w /\ sha1 (fp_buf piece) = pw_hash w /\ Z.of_nat (List.length (fp_buf piece)) = Z.max 0 (pw_length w).
Proof.
  unfold commit. destruct (negb _); [by intros [= <- <- <-]; split_and!; [apply rtc_refl|done|]|].
  set (d1 := snd (set_chuncks dl index 0 buf peer)). pose proof (holders_chunk dl index 0 buf) as H1. fold d1 in H1.
  assert (S1 : dl_step dl d1) by (apply st_chunk; ranges).
  pose proof (works_step _ _ S1) as W1.
  destruct (set_downloaded_if_all_chunks d1 index) as [full d2] eqn:E2.
  pose proof (holders_all_chunks d1 index) as H2. rewrite E2 in H2. cbn [snd] in H2.
  assert (S2 : dl_step d1 d2) by (pose proof (st_all_chunks d1 index) as S; by rewrite E2 in S).
  assert (S12 : rtc dl_step dl d2) by (eapply rtc_l; [done|]; by apply rtc_once).
  destruct full as [full|]; [|by intros [= <- <- <-]; split_and!; [done|congruence|]].
  destruct (negb (bool_decide _)) eqn:Eh; [by intros [= <- <- <-]; split_and!; [done|congruence|]|].
  apply negb_false_iff, bool_decide_eq_true in Eh.
  destruct (claim_write d2 index) as [claimed d3] eqn:E3. pose proof (holders_claim d2 index) as H3. rewrite E3 in H3. cbn [snd] in H3.
  assert (S3 : rtc dl_step dl d3) by (eapply rtc_r; [exact S12|]; pose proof (st_claim d2 index) as S; by rewrite E3 in S).
  destruct claimed; [|by intros [= <- <- <-]; split_and!; [done|congruence|]].
  assert (H4 : holders (clear_piece_chunks d3 index) = holders dl) by (unfold clear_piece_chunks; rewrite holders_update by done; congruence).
  assert (S4 : rtc dl_step dl (clear_piece_chunks d3 index)) by (eapply rtc_r; [exact S3|]; constructor).
  destruct open; intros [= <- <- <-]; (split; [done|]; split; [done|]; intros piece Hp); [|done]. injection Hp as <-. cbn [fp_index fp_length fp_buf].
  split; [done|]. split; [done|]. exists (piece_work full). rewrite <- W1. unfold set_downloaded_if_all_chunks in E2.
  destruct (get_piece d1 index) as [p|] eqn:Ep; [|done]. destruct (_ || _); [done|]. injection E2 as E2 _.
  rewrite (get_update _ _ _ _ Ep) in E2. injection E2 as <-. split; [|split; [exact Eh|]].
  - unfold works_of. unfold get_piece in Ep. change (map piece_work (dl_pieces d1)) with (piece_work <$> dl_pieces d1). by rewrite list_lookup_fmap, Ep.
  - unfold chunk_to_buf. rewrite length_place_chunks, length_replicate. cbn. lia.
Qed.

(** A piece of which nothing is there is taken whole. *)
Lemma commit_whole sha1 index p buf dl :
  wf_download dl -> 0 <= index -> get_piece dl index = Some p -> chuncks p = [] -> downloaded p = false -> write_claimed p = false ->
  Z.of_nat (length buf) = pw_length (piece_work p) -> sha1 buf = pw_hash (piece_work p) ->
  exists dl', commit sha1 true peer index (pw_length (piece_work p)) buf dl = (JobOk, dl', Some (mkFullPiece index (pw_length (piece_work p)) buf)) /\
    get_piece dl' index = Some (mkPiece (piece_work p) [] true (reserved p) true).
Proof.
  intros Hwf Hi Hp Hc Hd Hw Hl Hh. unfold commit. rewrite Hl, Z.eqb_refl. cbn [negb].
  pose proof (po_length _ _ (wd_pieces _ Hwf _ _ Hp)) as Hlen.
  set (c := mkChunk index 0 (wrap32 (Z.of_nat (length buf))) buf peer).
  assert (E1 : set_chuncks dl index 0 buf peer = (true, set_pieces (<[Z.to_nat index := set_chunks [c] p]> (dl_pieces dl)) dl)).
  { unfold set_chuncks. rewrite (find_piece_wf dl index p Hwf Hi Hp), Hc. by rewrite bool_decide_false by (by apply not_elem_of_nil). }
  rewrite E1. cbn [snd]. set (d1 := set_pieces _ dl). clear E1.
  assert (G1 : get_piece d1 index = Some (set_chunks [c] p)).
  { unfold get_piece, d1. cbn. apply list_lookup_insert_eq. by eapply lookup_lt_Some. }
  unfold set_downloaded_if_all_chunks. rewrite G1. cbn [downloaded set_chunks]. rewrite Hd.
  assert (Hcov : piece_chunks_cover (set_chunks [c] p) = true).
  { unfold piece_chunks_cover. cbn [chuncks set_chunks map piece_work]. change (merge_sort span_le [(ch_start c, ch_length c)]) with [(ch_start c, ch_length c)].
    cbn [cover_loop ch_start ch_length c]. cbn. rewrite wrap32_small by ranges. apply Z.eqb_eq. unfold sat_add. ranges. }
  rewrite Hcov. cbn [negb orb]. rewrite (get_update _ _ _ _ G1).
  assert (Hbuf : chunk_to_buf (set_downloaded_flag true (set_chunks [c] p)) = buf).
  { unfold chunk_to_buf. cbn [chuncks set_downloaded_flag set_chunks fold_left piece_work]. unfold place_chunk. cbn [ch_start ch_buf c]. rewrite length_replicate.
    rewrite (proj2 (Nat.leb_le _ _)) by lia. unfold splice. rewrite take_0, drop_ge by (rewrite length_replicate; lia). by rewrite app_nil_r. }
  rewrite Hbuf. cbn [piece_work set_downloaded_flag set_chunks]. rewrite bool_decide_true by done. cbn [negb].
  set (d2 := update_piece index _ d1). set (d2' := set_verified _ d2).
  assert (G2 : get_piece d2' index = Some (set_downloaded_flag true (set_chunks [c] p))) by (apply (get_update d1); done).
  unfold claim_write. rewrite G2. cbn [write_claimed set_downloaded_flag set_chunks]. rewrite Hw. cbn [negb].
  eexists. split; [reflexivity|]. unfold clear_piece_chunks. rewrite (get_update _ _ _ _ (get_update d2' index (set_write_claimed true) _ G2)). done.
Qed.

(** Chunks that a snubbed peer has left make the piece of the web seed useless: it is
    fetched, and thrown away with them. *)
Lemma leftover_wastes_fetch sha1 index p c buf dl :
  wf_download dl -> 0 <= index -> get_piece dl index = Some p -> downloaded p = false -> reserved p = Some peer ->
  chuncks p = [c] -> ch_start c = 0 -> ch_length c < pw_length (piece_work p) -> Z.of_nat (length buf) = pw_length (piece_work p) ->
  exists dl', answered sha1 true peer index (pw_length (piece_work p)) (Ok buf) dl = (JobOk, dl', None) /\
    get_piece dl' index = Some (mkPiece (piece_work p) [] false None (write_claimed p)).
Proof.
  intros Hwf Hi Hp Hd Hr Hc Hs Hlt Hl. pose proof (po_length _ _ (wd_pieces _ Hwf _ _ Hp)) as Hlen.
  unfold answered, commit. rewrite Hl, Z.eqb_refl. cbn [negb]. unfold set_chuncks. rewrite (find_piece_wf dl index p Hwf Hi Hp), Hc.
  cbn [map]. rewrite Hs, bool_decide_true by by apply list_elem_of_singleton. cbn [snd]. set (d1 := set_duplicate_bytes _ dl).
  assert (G1 : get_piece d1 index = Some p) by done. unfold set_downloaded_if_all_chunks. rewrite G1, Hd.
  assert (Hcov : piece_chunks_cover p = false).
  { unfold piece_chunks_cover. rewrite Hc. cbn [map]. change (merge_sort span_le [(ch_start c, ch_length c)]) with [(ch_start c, ch_length c)].
    cbn [cover_loop]. rewrite Hs. cbn. apply Z.eqb_neq. unfold sat_add. lia. }
  rewrite Hcov. cbn [orb negb]. cbv beta iota. cbn [give_back]. unfold release_reservation. rewrite G1, (decide_True _ _ Hr). cbn [snd].
  eexists. split; [reflexivity|]. rewrite (get_update _ _ _ _ G1). unfold unreserve, set_chunks, set_reserved. cbn. by rewrite Hd.
Qed.
End Commit.

Lemma unreserve_done w p : unreserve true (mkPiece w [] true p true) = mkPiece w [] true None true.
Proof. done. Qed.

(** C18: A web seed that has the files gives the right pieces.  Whatever the layout of
    the files, the ranges requested of them put together are the bytes of the piece;
    and when nothing of the piece is there yet, it is verified, claimed, sent to the
    writer, and no longer reserved. *)
Theorem webseed_serves sha1 (http : Http) t url cs peer index p dl :
  wf_torrent t -> sized (t_files t) cs -> piece_in_range t index -> serves http t url cs ->
  wf_download dl -> get_piece dl index = Some p -> chuncks p = [] -> downloaded p = false -> write_claimed p = false -> reserved p = Some peer ->
  let '(s, e) := calculate_bounds_for_piece t index in
  let bs := seg (Z.to_nat s) (Z.to_nat e) (concat cs) in
  Z.of_nat (length bs) = pw_length (piece_work p) -> sha1 bs = pw_hash (piece_work p) ->
  exists dl',
    answered sha1 true peer index (pw_length (piece_work p)) (fetch http GetRight t url index (pw_length (piece_work p))) dl =
      (JobOk, dl', Some (mkFullPiece index (pw_length (piece_work p)) bs)) /\
    get_piece dl' index = Some (mkPiece (piece_work p) [] true None true).
Proof.
  intros Hw Hs Hi Hsrv Hwf Hp Hc Hd Hcl Hr. pose proof (fetch_getright_exact http t url cs index Hw Hs Hi Hsrv) as H.
  destruct (calculate_bounds_for_piece t index) as [s e]. intros bs Hl Hh. destruct Hi as [Hi _].
  unfold answered, fetch. rewrite H. fold bs.
  destruct (commit_whole peer sha1 index p bs dl Hwf Hi Hp Hc Hd Hcl Hl Hh) as (d1 & E & G). rewrite E.
  eexists. split; [reflexivity|]. cbn [give_back]. unfold release_reservation. rewrite G. cbn [reserved]. rewrite Hr, decide_True by done. cbn [snd].
  by rewrite (get_update _ _ _ _ G).
Qed.

Definition example_layout : Torrent :=
  mkTorrent [] [] 4 7 [mkTFI [str "a"] 3 0; mkTFI [str "b c"] 4 3] (str "t") false.
Definition example_files : list bytes := [[1; 2; 3]; [4; 5; 6; 7]].
Definition example_server : Http := fun url range =>
  let body := if decide (url = str "http://w/t/a") then [1; 2; 3] else [4; 5; 6; 7] in
  if decide (range = Some (range_header 0 0)) then Some (mkResponse 206 None (seg 0 1 body))
  else if decide (range = Some (range_header 0 1)) then Some (mkResponse 206 None (seg 0 2 body))
  else if decide (range = Some (range_header 0 2)) then Some (mkResponse 206 None (seg 0 3 body))
  else if decide (range = Some (range_header 0 3)) then Some (mkResponse 206 None (seg 0 4 body))
  else if decide (range = Some (range_header 1 1)) then Some (mkResponse 206 None (seg 1 2 body))
  else if decide (range = Some (range_header 1 2)) then Some (mkResponse 206 None (seg 1 3 body))
  else if decide (range = Some (range_header 1 3)) then Some (mkResponse 206 None (seg 1 4 body))
  else if decide (range = Some (range_header 2 2)) then Some (mkResponse 206 None (seg 2 3 body))
  else if decide (range = Some (range_header 2 3)) then Some (mkResponse 206 None (seg 2 4 body))
  else Some (mkResponse 206 None (seg 3 4 body)).
Definition example_reserved : DownloadState :=
  update_piece 1 (set_reserved (Some (webseed_peer 0))) (with_seed [piece_new (mkPieceWork 0 4 [1; 2; 3; 4]); piece_new (mkPieceWork 1 3 [5; 6; 7])]).

Lemma example_reserved_wf : wf_download example_reserved.
Proof.
  split; [|vm_compute; congruence|done| |done].
  - intros [|[|i]] p H; [| |by destruct i]; injection H as <-; split; try done; ranges || constructor.
  - apply Forall_replicate. ranges.
Qed.

Lemma webseed_serves_witness :
  exists dl',
    answered (fun b => b) true (webseed_peer 0) 1 3 (fetch example_server GetRight example_layout (str "http://w") 1 3) example_reserved =
      (JobOk, dl', Some (mkFullPiece 1 3 [5; 6; 7])) /\
    get_piece dl' 1 = Some (mkPiece (mkPieceWork 1 3 [5; 6; 7]) [] true None true).
Proof.
  assert (Hi : forall (i : nat) c, example_files !! i = Some c -> (i = 0%nat /\ c = [1; 2; 3]) \/ (i = 1%nat /\ c = [4; 5; 6; 7])).
  { intros [|[|i]] c Hc; [left|right|]; [by injection Hc as <-|by injection Hc as <-|by destruct i]. }
  assert (Hsrv : serves example_server example_layout (str "http://w") example_files).
  { intros i c start stop Hc Hr Hstop. exists None. destruct (Hi i c Hc) as [[-> ->]|[-> ->]]; cbn [length] in Hstop;
      (assert (Hs : start = 0 \/ start = 1 \/ start = 2 \/ start = 3) by lia);
      (assert (Ht : stop = 0 \/ stop = 1 \/ stop = 2 \/ stop = 3) by lia);
      destruct Hs as [-> | [-> | [-> | ->]]], Ht as [-> | [-> | [-> | ->]]]; first [lia | vm_compute; reflexivity]. }
  assert (Hw : wf_torrent example_layout) by (split; [vm_compute; split; congruence|repeat split; vm_compute; congruence|reflexivity|vm_compute; congruence]).
  assert (Hsz : sized (t_files example_layout) example_files) by (repeat constructor).
  assert (Hr : piece_in_range example_layout 1) by (split; vm_compute; congruence).
  pose proof (webseed_serves (fun b => b) example_server example_layout (str "http://w") example_files (webseed_peer 0) 1
    (set_reserved (Some (webseed_peer 0)) (piece_new (mkPieceWork 1 3 [5; 6; 7]))) example_reserved
    Hw Hsz Hr Hsrv example_reserved_wf eq_refl eq_refl eq_refl eq_refl eq_refl) as H.
  assert (E : calculate_bounds_for_piece example_layout 1 = (4, 7)) by (vm_compute; reflexivity). rewrite E in H.
  exact (H eq_refl eq_refl).
Defined.

(** ** The task and its jobs *)

Definition held (peer : PeerAddr) (dl : DownloadState) (k : nat) : Prop := holders dl !! k = Some (Some peer).

(** What the other tasks do: nobody else reserves for the address of the web seed. *)
Definition others (peer : PeerAddr) (dl dl' : DownloadState) : Prop :=
  dl_step dl dl' /\ forall k, held peer dl' k -> held peer dl k.

Lemma holders_set_reserved dl index r : holders (update_piece index (set_reserved r) dl) = alter (fun _ => r) (Z.to_nat index) (holders dl).
Proof.
  unfold holders, update_piece. cbn. apply list_eq. intros j. rewrite list_lookup_alter, !list_lookup_fmap, list_lookup_alter.
  case_decide; [|done]. subst. by destruct (_ !! _).
Qed.

Lemma holders_unreserve dl index b : holders (update_piece index (unreserve b) dl) = alter (fun _ => None) (Z.to_nat index) (holders dl).
Proof.
  rewrite <- holders_set_reserved. unfold holders, update_piece. cbn. apply list_eq. intros j. rewrite !list_lookup_fmap, !list_lookup_alter.
  case_decide; [|done]. subst. destruct (_ !! _); [|done]. cbn. unfold unreserve. by destruct (_ && _).
Qed.

Lemma held_alter peer (l : list (option PeerAddr)) i k :
  alter (fun _ => None) i l !! k = Some (Some peer) -> l !! k = Some (Some peer) /\ k <> i.
Proof. rewrite list_lookup_alter. case_decide; [subst; by destruct (_ !! _)|done]. Qed.

Lemma rtc_wf dl dl' : rtc dl_step dl dl' -> wf_download dl -> wf_download dl'.
Proof. induction 1; [done|]. intros ?. apply IHrtc. by eapply dl_step_wf. Qed.

Lemma rtc_works dl dl' : rtc dl_step dl dl' -> works_of dl' = works_of dl.
Proof. induction 1 as [|a b c S _ IH]; [done|]. rewrite IH. by apply works_step. Qed.

Lemma give_back_spec peer index r dl :
  rtc dl_step dl (give_back peer index r dl) /\
  forall k, held peer (give_back peer index r dl) k -> held peer dl k /\ k <> Z.to_nat index.
Proof.
  assert (Hrel : forall d, rtc dl_step d (release_piece d index) /\ forall k, held peer (release_piece d index) k -> held peer d k /\ k <> Z.to_nat index).
  { intros d. split; [apply rtc_once; constructor|]. intros k. unfold held, release_piece. rewrite holders_unreserve. apply held_alter. }
  destruct r; cbn [give_back]; try apply Hrel.
  - split; [apply rtc_once; constructor|]. intros k. unfold release_reservation, held.
    destruct (get_piece dl index) as [p|] eqn:Ep; [case_decide as Hd|]; cbn [snd].
    + rewrite holders_unreserve. apply held_alter.
    + intros Hk. split; [done|]. intros ->. apply Hd. unfold holders, get_piece in *.
      change (map reserved (dl_pieces dl)) with (reserved <$> dl_pieces dl) in Hk. rewrite list_lookup_fmap, Ep in Hk. by injection Hk.
    + intros Hk. split; [done|]. intros ->. unfold holders, get_piece in *.
      change (map reserved (dl_pieces dl)) with (reserved <$> dl_pieces dl) in Hk. by rewrite list_lookup_fmap, Ep in Hk.
  - destruct (Hrel (remove_downloaded dl index)) as [H1 H2]. split; [eapply rtc_l; [apply st_remove|done]|].
    intros k Hk. apply H2 in Hk as [Hk ?]. unfold held in Hk. rewrite holders_remove in Hk. done.
Qed.

Lemma remove_reserved_held peer dl k : ~ held peer (remove_reserved dl peer) k.
Proof.
  unfold held, holders, remove_reserved, release_peer_reservations, unassign_peer_blocks. cbn. rewrite map_map.
  change (map ?f (dl_pieces dl)) with (f <$> dl_pieces dl). rewrite list_lookup_fmap. destruct (dl_pieces dl !! k) as [p|]; [|done]. cbn.
  case_decide as Hd; [unfold unreserve; by destruct (_ && _)|]. intros [= E]. by apply Hd.
Qed.

(** A piece that is sent has the length and the hash of the torrent. *)
Definition verified (sha1 : bytes -> bytes) (works : list PieceWork) (piece : FullPiece) : Prop :=
  exists w, works !! Z.to_nat (fp_index piece) = Some w /\ fp_length piece = pw_length w /\
    sha1 (fp_buf piece) = pw_hash w /\ Z.of_nat (length (fp_buf piece)) = pw_length w.

Definition is_done (pc : JobPc) : bool := match pc with Done _ => true | _ => false end.
Definition job_ok (works : list PieceWork) (j : Job) : Prop :=
  match job_pc j with
  | Acquiring length | Fetching length => exists w, works !! Z.to_nat (job_index j) = Some w /\ pw_length w = length
  | _ => True
  end.

Definition counters_ok (c : Counters) : Prop :=
  0 <= hash_fails c < HASH_FAIL_LIMIT /\ 0 <= client_fails c < CLIENT_ERR_LIMIT /\ INITIAL_BACKOFF <= backoff c <= MAX_BACKOFF.

Definition ended (pc : Pc) : bool := match pc with Stopped | Panicked => true | _ => false end.

Record fetcher_ok (peer : PeerAddr) (works : list PieceWork) (f : Fetcher) : Prop := {
  fo_dl : wf_download (f_dl f);
  fo_works : works_of (f_dl f) = works;
  fo_count : (length (f_jobs f) <= PIPELINE)%nat;
  fo_jobs : Forall (job_ok works) (f_jobs f);
  fo_ended : ended (f_pc f) = true -> f_jobs f = [];
  fo_joining : f_pc f = Joining -> f_jobs f <> [];
  fo_counters : ended (f_pc f) = false -> counters_ok (f_counters f);
  fo_held : f_pc f <> Panicked ->
    forall k, held peer (f_dl f) k -> exists j, j ∈ f_jobs f /\ Z.to_nat (job_index j) = k /\ is_done (job_pc j) = false }.

Section Safe.
Context (sha1 : bytes -> bytes) (t : Torrent) (kind : WebSeedKind) (url : bytes) (peer : PeerAddr) (works : list PieceWork).
#[local] Abbreviation ok := (fetcher_ok peer works).

Lemma stop_ok f : wf_download (f_dl f) -> works_of (f_dl f) = works -> ok (stop peer f).
Proof.
  intros Hwf Hw. split; cbn; try done; try lia.
  - eapply dl_step_wf; [done|constructor].
  - rewrite <- Hw. apply (works_step (f_dl f) (remove_reserved (f_dl f) peer)). constructor.
  - intros _ k Hk. by apply remove_reserved_held in Hk.
Qed.

Lemma at_head_ok v f : ok f -> f_pc f = Head -> ok (at_head peer v f).
Proof.
  intros Hok Hpc. unfold at_head. destruct (_ || is_complete _); [apply stop_ok; apply Hok|]. destruct (_ || _); [done|].
  destruct Hok as [? ? ? ? ? ? Hc Hh]. rewrite Hpc in Hc, Hh. by split; cbn; auto.
Qed.

Lemma end_of_fill_ok f dl : ok f -> f_pc f = Filling -> f_dl f = dl -> ok (end_of_fill f dl).
Proof.
  intros [? ? ? ? ? ? Hc Hh] Hpc <-. rewrite Hpc in Hc, Hh. unfold end_of_fill.
  split; cbn; auto; destruct (f_jobs f); try done; auto.
Qed.

Lemma pick_piece_spec choose `{!SliceRandom choose} dl ps :
  wf_download dl ->
  exists r dl', pick_piece choose dl ps peer = Some (r, dl') /\
    match r with None => dl' = dl | Some i => dl_step dl dl' /\ dl' = update_piece i (set_reserved (Some peer)) dl end.
Proof.
  intros Hwf. unfold pick_piece. set (has := pieces_for_webseed dl ps). destruct (candidates dl has) as [|c cs] eqn:Ec.
  - exists None, dl. cbn [pick]. by rewrite Ec.
  - destruct (pick_reserves choose dl peer has [] 0 c cs Hwf Ec) as (i & E & _). exists (Some i), (update_piece i (set_reserved (Some peer)) dl).
    split; [done|]. split; [by eapply st_pick|done].
Qed.

Lemma fill_ok choose `{!SliceRandom choose} v f : ok f -> f_pc f = Filling -> exists f', fill peer choose v f = Some f' /\ ok f'.
Proof.
  intros Hok Hpc. unfold fill. destruct (Nat.ltb_spec (length (f_jobs f)) PIPELINE) as [Hlt|]; [|eexists; split; [done|by apply end_of_fill_ok]].
  destruct (pick_piece_spec choose (f_dl f) (v_states v)) as (r & dl & E & Hr); [apply Hok|]. rewrite E. red_bind. eexists. split; [reflexivity|].
  destruct r as [i|]; [|by apply end_of_fill_ok]. destruct Hr as [Hs ->]. destruct Hok as [Hwf Hw Hl Hj He Hjo Hc Hh]. rewrite Hpc in *.
  split; cbn; try done; try (by destruct (f_jobs f)).
  - by eapply dl_step_wf.
  - rewrite <- Hw. exact (works_step _ _ Hs).
  - rewrite length_app. cbn. unfold PIPELINE in *. lia.
  - apply Forall_app. split; [done|]. by constructor.
  - intros _ k. unfold held. rewrite holders_set_reserved, list_lookup_alter. case_decide as Hk; intros H.
    + exists (mkJob i Spawned). split; [|done]. apply elem_of_app. right. by apply list_elem_of_singleton.
    + destruct (Hh ltac:(done) k H) as (j & Hin & ?). exists j. split; [|done]. apply elem_of_app. by left.
Qed.

Lemma run_job_spec v j dl pc dl' sent :
  works_of dl = works -> job_ok works j -> run_job sha1 t kind url peer v j dl = Some (pc, dl', sent) ->
  wf_download dl ->
  rtc dl_step dl dl' /\ job_ok works (mkJob (job_index j) pc) /\
  (forall k, held peer dl' k -> held peer dl k /\ (is_done pc = true -> k <> Z.to_nat (job_index j))) /\
  is_done (job_pc j) = false /\ (forall piece, sent = Some piece -> verified sha1 works piece).
Proof.
  intros Hw Hj E Hwf. unfold run_job in E.
  assert (Hfin : forall r, rtc dl_step dl (give_back peer (job_index j) r dl) /\
    forall k, held peer (give_back peer (job_index j) r dl) k -> held peer dl k /\ k <> Z.to_nat (job_index j)) by (intros r; apply give_back_spec).
  unfold job_ok in *. destruct (job_pc j) as [|len|len|r] eqn:Epc; [| | |done].
  - destruct (piece_length dl (job_index j)) as [len|] eqn:El.
    + destruct (len =? 0); injection E as <- <- <-.
      * destruct (Hfin JobOk) as [H1 H2]. split_and!; try done. intros k Hk. by destruct (H2 k Hk).
      * split_and!; try done. unfold piece_length, get_piece in El. destruct (_ !! _) as [p|] eqn:Ep; [|done]. injection El as <-.
        exists (piece_work p). split; [|done]. rewrite <- Hw. unfold works_of. change (map piece_work (dl_pieces dl)) with (piece_work <$> dl_pieces dl).
        cbn [job_index]. by rewrite list_lookup_fmap, Ep.
    + injection E as <- <- <-. destruct (Hfin Client) as [H1 H2]. split_and!; try done. intros k Hk. by destruct (H2 k Hk).
  - destruct (_ || _); injection E as <- <- <-.
    + destruct (Hfin JobOk) as [H1 H2]. split_and!; try done. intros k Hk. by destruct (H2 k Hk).
    + by split_and!.
  - destruct Hj as (w & Hlk & Hlen). unfold answered in E.
    destruct (fetch _ _ _ _ _ _) as [buf|err]; [|injection E as <- <- <-; destruct (Hfin err) as [H1 H2]; split_and!; try done; intros k Hk; by destruct (H2 k Hk)].
    destruct (commit sha1 (v_open v) peer (job_index j) len buf dl) as [[r d] s] eqn:Ec. injection E as <- <- <-.
    destruct (commit_spec _ _ _ _ _ _ _ _ _ _ Ec) as (H1 & H2 & H3). destruct (give_back_spec peer (job_index j) r d) as [H4 H5].
    split_and!; try done.
    + by etransitivity.
    + intros k Hk. destruct (H5 k Hk) as [Hd Hne]. unfold held in Hd. rewrite H2 in Hd. done.
    + intros piece Hp. destruct (H3 piece Hp) as (Hi & Hl & w' & Hw' & Hh & Hb). exists w. rewrite Hw, Hlk in Hw'. injection Hw' as <-.
      rewrite Hi, Hl. split; [done|]. split; [done|]. split; [done|]. rewrite Hb. apply Z.max_r.
      pose proof Hlk as Hp'. rewrite <- Hw in Hp'. unfold works_of in Hp'. change (map piece_work (dl_pieces dl)) with (piece_work <$> dl_pieces dl) in Hp'.
      rewrite list_lookup_fmap in Hp'. destruct (dl_pieces dl !! _) as [p|] eqn:Ep; [|done]. injection Hp' as <-.
      pose proof (po_length _ _ (wd_pieces _ Hwf _ _ Ep)). ranges.
Qed.

Lemma run_one_ok v k f f' out :
  ok f -> run_one sha1 t kind url peer v k f = Some (f', out) -> ok f' /\ Forall (verified sha1 works) out /\ f_pc f' = f_pc f.
Proof.
  intros [Hwf Hw Hl Hj He Hjo Hc Hh] E. unfold run_one in E. destruct (f_jobs f !! k) as [j|] eqn:Ej; [|done].
  cbn [mbind option_bind] in E. destruct (run_job sha1 t kind url peer v j (f_dl f)) as [[[pc dl] sent]|] eqn:Er; [|done]. injection E as <- <-.
  assert (Hjk : job_ok works j) by (rewrite Forall_lookup in Hj; by eapply Hj).
  destruct (run_job_spec _ _ _ _ _ _ Hw Hjk Er Hwf) as (H1 & H2 & H3 & H4 & H5).
  split; [|split; [|done]].
  - split; cbn; try done.
    + by eapply rtc_wf.
    + rewrite <- Hw. by apply rtc_works.
    + by rewrite length_insert.
    + apply Forall_insert; done.
    + intros Hen. by rewrite (He Hen) in Ej.
    + intros Hpc E. apply (f_equal length) in E. rewrite length_insert in E. apply nil_length_inv in E. by apply Hjo.
    + intros Hpc k' Hk'. destruct (H3 k' Hk') as [Hk Hne]. destruct (Hh Hpc k' Hk) as (j' & Hin & Hidx & Hnd).
      apply list_elem_of_lookup in Hin as [n Hn]. destruct (decide (n = k)) as [->|].
      * assert (j' = j) as -> by congruence. destruct (is_done pc) eqn:Ed; [by specialize (Hne eq_refl)|].
        exists (mkJob (job_index j) pc). split; [|done]. apply list_elem_of_lookup. exists k. apply list_lookup_insert_eq. by eapply lookup_lt_Some.
      * exists j'. split; [|done]. apply list_elem_of_lookup. exists n. by rewrite list_lookup_insert_ne.
  - destruct sent as [piece|]; cbn; [|constructor]. constructor; [by apply H5|constructor].
Qed.

Lemma apply_result_ok now r c ends c' :
  counters_ok c -> apply_result now (Ok r) c = Some (ends, c') -> ends = false -> counters_ok c'.
Proof.
  intros (H1 & H2 & H3) E Hends. unfold counters_ok, HASH_FAIL_LIMIT, CLIENT_ERR_LIMIT, INITIAL_BACKOFF, MAX_BACKOFF, secs in *.
  assert (Hsat : forall n, 0 <= n -> 0 <= sat_add U32_MAX n 1) by (intros; unfold sat_add; ranges).
  destruct r; cbn in E; try (injection E as <- <-; try discriminate Hends); cbn [hash_fails client_fails backoff].
  - unfold INITIAL_BACKOFF, secs. lia.
  - split; [|lia]. apply Z.leb_gt in Hends. pose proof (Hsat _ (proj1 H1)). unfold HASH_FAIL_LIMIT in Hends. lia.
  - destruct (instant_add now delay); [|done]. cbn in E. injection E as <- <-. cbn. lia.
  - destruct (instant_add now (backoff c)); [|done]. cbn in E. injection E as <- <-. cbn. unfold MAX_BACKOFF, secs, U64_MAX. lia.
  - split; [lia|]. split; [|lia]. apply Z.leb_gt in Hends. pose proof (Hsat _ (proj1 H2)). unfold CLIENT_ERR_LIMIT in Hends. lia.
Qed.

(** The one panic: a server that says when to come back, with a time out of range. *)
Lemma apply_result_panic now r c :
  now + MAX_BACKOFF <= secs I64_MAX -> counters_ok c -> apply_result now (Ok r) c = None ->
  exists delay, r = RetryAfter delay /\ secs I64_MAX < now + delay.
Proof.
  intros Hnow (_ & _ & Hb) E. destruct r; cbn in E; try done; unfold instant_add in E.
  - destruct (Z.leb_spec (now + delay) (secs I64_MAX + 999999999)); [done|]. exists delay. split; [done|]. lia.
  - rewrite (proj2 (Z.leb_le _ _)) in E by (unfold MAX_BACKOFF in *; lia). done.
Qed.

Lemma join_one_ok v k f f' : ok f -> may_join v f = true -> join_one peer v k f = Some f' -> ok f'.
Proof.
  intros Hok Hm E. pose proof Hok as [Hwf Hw Hl Hj He Hjo Hc Hh].
  assert (Hpc : ended (f_pc f) = false /\ f_pc f <> Panicked) by (unfold may_join in Hm; by destruct (f_pc f)).
  unfold join_one in E. destruct (f_jobs f !! k) as [j|] eqn:Ej; [|done]. cbn [mbind option_bind] in E. destruct (job_pc j) as [| | |r] eqn:Epc; try done. injection E as <-.
  destruct (apply_result (v_now v) (Ok r) (f_counters f)) as [[ends c]|] eqn:Er; [|by split; cbn; try done; lia].
  destruct ends; [by apply stop_ok|]. split; cbn; try done.
  - rewrite length_delete by done. unfold PIPELINE in *. lia.
  - by apply Forall_delete.
  - intros _. by eapply apply_result_ok; [apply Hc; apply Hpc| |].
  - intros _ n Hn. destruct (Hh (proj2 Hpc) n Hn) as (j' & Hin & Hidx & Hnd). exists j'. split; [|done].
    apply list_elem_of_lookup in Hin as [m Hm']. assert (m <> k) by (intros ->; rewrite Ej in Hm'; injection Hm' as <-; by rewrite Epc in Hnd).
    apply list_elem_of_lookup. destruct (decide (m < k)%nat).
    + exists m. by rewrite list_lookup_delete_lt.
    + exists (m - 1)%nat. rewrite list_lookup_delete_ge by lia. by replace (S (m - 1)) with m by lia.
Qed.

Lemma others_ok f dl : ok f -> others peer (f_dl f) dl -> ok (mkFetcher (f_pc f) (f_counters f) (f_jobs f) dl).
Proof.
  intros [Hwf Hw Hl Hj He Hjo Hc Hh] [Hs Hk]. split; cbn; try done.
  - by eapply dl_step_wf.
  - rewrite <- Hw. exact (works_step _ _ Hs).
  - intros Hpc k Hd. apply Hh; [done|]. by apply Hk.
Qed.

Lemma new_ok now dl : wf_download dl -> works_of dl = works -> (forall k, ~ held peer dl k) -> ok (fetcher_new now dl).
Proof.
  intros Hwf Hw Hk. split; cbn; try done; try (unfold PIPELINE; lia).
  - intros _ k Hd. by apply Hk in Hd.
Qed.
End Safe.

Section Runs.
Context (sha1 : bytes -> bytes) (t : Torrent) (kind : WebSeedKind) (url : bytes) (peer : PeerAddr).

(** A step that the surroundings can make. *)
Definition possible (f : Fetcher) (w : Wakeup) : Prop :=
  match w with Fill choose => SliceRandom choose | Other dl => others peer (f_dl f) dl | _ => True end.

(** What a step learns of the server: the answer of the job it joins, and when. *)
Definition joined (v : View) (w : Wakeup) (f : Fetcher) : list (Instant * JobResult) :=
  match w with
  | Join k => match job_pc <$> f_jobs f !! k with Some (Done r) => [(v_now v, r)] | _ => [] end
  | _ => []
  end.

(** The runs of the task from [start] on: the answers it has had, the latest first, the
    time, and what it has sent. *)
Inductive runs (dl0 : DownloadState) (start : Instant) : list (Instant * JobResult) -> Instant -> Fetcher -> list FullPiece -> Prop :=
| runs_new : runs dl0 start [] start (fetcher_new start dl0) []
| runs_step answers clock f sent v w f' out :
    runs dl0 start answers clock f sent -> clock <= v_now v -> possible f w -> fetcher_step sha1 t kind url peer v w f = Some (f', out) ->
    runs dl0 start (joined v w f ++ answers) (v_now v) f' (sent ++ out).

(** What the answers amount to: the failed hashes of all of them, the refusals and the
    failures of the server in a row, and the time before which no piece may be fetched. *)
Fixpoint hashes (answers : list (Instant * JobResult)) : nat :=
  match answers with [] => 0 | (_, HashFail) :: rest => S (hashes rest) | _ :: rest => hashes rest end.

Fixpoint refusals (answers : list (Instant * JobResult)) : nat :=
  match answers with
  | [] => 0
  | (_, Client) :: rest => S (refusals rest)
  | (_, (JobOk | RetryAfter _)) :: _ => 0
  | _ :: rest => refusals rest
  end.

Fixpoint strikes (answers : list (Instant * JobResult)) : nat :=
  match answers with
  | [] => 0
  | (_, Server) :: rest => S (strikes rest)
  | (_, JobOk) :: _ => 0
  | _ :: rest => strikes rest
  end.

Definition backoff_of (failures : nat) : Duration := Z.min (secs 60) (secs (2 ^ Z.of_nat failures)).

Fixpoint wait_until (start : Instant) (answers : list (Instant * JobResult)) : Instant :=
  match answers with
  | [] => start
  | (now, Server) :: rest => now + backoff_of (strikes rest)
  | (now, RetryAfter delay) :: _ => now + delay
  | _ :: rest => wait_until start rest
  end.

(** When a URL is given up. *)
Definition given_up (answers : list (Instant * JobResult)) : Prop :=
  (3 <= hashes answers)%nat \/ (3 <= refusals answers)%nat \/ exists now, (now, SkipUrl) ∈ answers.

(** The counters of the task tell the answers. *)
Definition counters_of (start : Instant) (answers : list (Instant * JobResult)) : Counters :=
  mkCounters (Z.of_nat (hashes answers)) (Z.of_nat (refusals answers)) (backoff_of (strikes answers)) (wait_until start answers).

Lemma backoff_of_S n : backoff_of (S n) = Z.min (Z.min (secs U64_MAX + 999999999) (backoff_of n * 2)) MAX_BACKOFF.
Proof.
  unfold backoff_of, MAX_BACKOFF, secs, U64_MAX. rewrite Nat2Z.inj_succ, Z.pow_succ_r by lia.
  pose proof (Z.pow_pos_nonneg 2 (Z.of_nat n) ltac:(lia) ltac:(lia)). lia.
Qed.

Lemma instant_add_Some now d i : instant_add now d = Some i -> i = now + d.
Proof. unfold instant_add. destruct (_ <=? _); [by intros [= <-]|done]. Qed.

Lemma apply_result_exact start answers now r ends c :
  ~ given_up answers -> apply_result now (Ok r) (counters_of start answers) = Some (ends, c) ->
  (ends = true <-> given_up ((now, r) :: answers)) /\ (ends = false -> c = counters_of start ((now, r) :: answers)).
Proof.
  intros Hn E. unfold given_up in *.
  assert (Hh : (hashes answers < 3)%nat) by (destruct (Nat.lt_ge_cases (hashes answers) 3); [done|exfalso; apply Hn; by left]).
  assert (Hr : (refusals answers < 3)%nat) by (destruct (Nat.lt_ge_cases (refusals answers) 3); [done|exfalso; apply Hn; by right; left]).
  assert (Hs : ~ exists now, (now, SkipUrl) ∈ answers) by (intros H; apply Hn; by right; right).
  assert (Hs' : r <> SkipUrl -> ~ exists now', (now', SkipUrl) ∈ (now, r) :: answers).
  { intros Hne [now' H]. apply elem_of_cons in H as [[= _ <-]|H]; [done|]. apply Hs. by exists now'. }
  assert (Hno : forall P Q : Prop, ~ P -> ~ Q -> r <> SkipUrl -> (false = true <-> P \/ Q \/ exists now', (now', SkipUrl) ∈ (now, r) :: answers)).
  { intros P Q HP HQ Hne. split; [done|]. intros [?|[?|?]]; [done|done|by apply Hs' in Hne]. }
  destruct r; cbn in E.
  - injection E as <- <-. split; [apply Hno; cbn; lia || done|done].
  - injection E as <- <-. unfold counters_of. cbn [hashes refusals strikes wait_until]. split.
    + unfold HASH_FAIL_LIMIT. rewrite Z.leb_le. unfold sat_add. split; [intros; left; ranges|].
      intros [H|[H|H]]; [ranges|lia|by apply Hs' in H].
    + intros Hf. apply Z.leb_gt in Hf. f_equal. unfold sat_add. ranges.
  - destruct (instant_add now delay) eqn:Ei; [|done]. cbn in E. injection E as <- <-. split; [apply Hno; cbn; lia || done|].
    intros _. unfold counters_of. cbn. by rewrite (instant_add_Some _ _ _ Ei).
  - destruct (instant_add now _) eqn:Ei; [|done]. cbn in E. injection E as <- <-. split; [apply Hno; cbn; lia || done|].
    intros _. unfold counters_of. cbn [hashes refusals strikes wait_until]. by rewrite backoff_of_S, (instant_add_Some _ _ _ Ei).
  - injection E as <- <-. unfold counters_of. cbn [hashes refusals strikes wait_until]. split.
    + unfold CLIENT_ERR_LIMIT. rewrite Z.leb_le. unfold sat_add. split; [intros; right; left; ranges|].
      intros [H|[H|H]]; [lia|ranges|by apply Hs' in H].
    + intros Hf. apply Z.leb_gt in Hf. f_equal. unfold sat_add. ranges.
  - injection E as <- <-. split; [|done]. split; [|done]. intros _. right. right. exists now. by left.
Qed.

(** The task keeps count, and waits before it fetches. *)
Definition paced (start : Instant) (answers : list (Instant * JobResult)) (clock : Instant) (f : Fetcher) : Prop :=
  (ended (f_pc f) = false -> f_counters f = counters_of start answers /\ ~ given_up answers) /\
  (f_pc f = Filling -> pause_until (f_counters f) <= clock).

(** A step other than the end of a job leaves the counters; one that starts a job is
    made after the pause. *)
Lemma step_counters v w f f' out :
  (forall k, w <> Join k) -> fetcher_step sha1 t kind url peer v w f = Some (f', out) ->
  f_counters f' = f_counters f /\ joined v w f = [] /\ (ended (f_pc f) = true -> ended (f_pc f') = true) /\
  (f_pc f' = Filling -> f_pc f = Filling \/ pause_until (f_counters f) <= v_now v) /\
  ((length (f_jobs f) < length (f_jobs f'))%nat -> f_pc f = Filling).
Proof.
  intros Hw E. destruct w as [|choose|k|k|dl]; cbn [fetcher_step] in E; [| | |by destruct (Hw k)|].
  - destruct (f_pc f) eqn:Epc; try done. injection E as <- <-. unfold at_head. destruct (_ || is_complete _); [by split_and!; cbn; lia || done|].
    destruct (_ || _) eqn:Ew; [split_and!; try done; [rewrite Epc|]; lia || done|]. apply orb_false_iff in Ew as [_ Ew]. apply Z.ltb_ge in Ew.
    split_and!; cbn; try done; [by right|lia].
  - destruct (f_pc f) eqn:Epc; try done. unfold fill in E. destruct (_ <? _)%nat.
    + destruct (pick_piece _ _ _ _) as [[[i|] dl]|]; cbn [mbind option_bind] in E; try done; injection E as <- <-; split_and!; try done; by left.
    + injection E as <- <-. split_and!; try done. by left.
  - unfold run_one in E. destruct (f_jobs f !! k) as [j|]; [|done]. cbn [mbind option_bind] in E.
    destruct (run_job _ _ _ _ _ _ _ _) as [[[pc dl] s]|]; [|done]. cbn [mbind option_bind] in E. injection E as <- <-.
    split_and!; cbn; try done; [by left|rewrite length_insert; lia].
  - injection E as <- <-. split_and!; cbn; try done; [by left|lia].
Qed.

Lemma step_paced start answers clock v w f f' out :
  paced start answers clock f -> clock <= v_now v -> fetcher_step sha1 t kind url peer v w f = Some (f', out) ->
  paced start (joined v w f ++ answers) (v_now v) f'.
Proof.
  intros [Hc Hp] Hclk E.
  assert (Hw : (exists k, w = Join k) \/ forall k, w <> Join k) by (destruct w; eauto).
  destruct Hw as [[k ->]|Hw].
  - cbn [fetcher_step joined] in *. destruct (may_join v f) eqn:Em; [|done].
    assert (He : ended (f_pc f) = false) by (unfold may_join in Em; by destruct (f_pc f)).
    destruct (Hc He) as [Ec Hg]. unfold join_one in E. destruct (f_jobs f !! k) as [j|]; [|done]. cbn [mbind option_bind] in E.
    cbn [fmap option_fmap option_map]. destruct (job_pc j) as [| | |r]; try done. cbn [mbind option_bind] in E. rewrite Ec in E.
    destruct (apply_result (v_now v) (Ok r) (counters_of start answers)) as [[ends c]|] eqn:Ea; injection E as <- <-; [|by split].
    destruct (apply_result_exact _ _ _ _ _ _ Hg Ea) as [H1 H2]. destruct ends; [by split|]. split; [|done].
    intros _. cbn [f_counters]. split; [by apply H2|]. intros H. by apply H1 in H.
  - destruct (step_counters _ _ _ _ _ Hw E) as (H1 & -> & H3 & H4 & _). split.
    + intros He. rewrite H1. apply Hc. destruct (ended (f_pc f)); [|done]. by rewrite H3 in He.
    + intros Hf. rewrite H1. destruct (H4 Hf) as [Hf'|]; [specialize (Hp Hf'); lia|done].
Qed.

Lemma step_ok works v w f f' out :
  fetcher_ok peer works f -> possible f w -> fetcher_step sha1 t kind url peer v w f = Some (f', out) ->
  fetcher_ok peer works f' /\ Forall (verified sha1 works) out.
Proof.
  intros Hok Hp E. destruct w as [|choose|k|k|dl]; cbn [fetcher_step possible] in *.
  - destruct (f_pc f) eqn:Epc; try done. injection E as <- <-. split; [by apply at_head_ok|constructor].
  - destruct (f_pc f) eqn:Epc; try done. destruct (fill_ok peer works choose v f Hok Epc) as (f1 & E1 & Hok1). rewrite E1 in E.
    cbn [mbind option_bind] in E. injection E as <- <-. by split.
  - destruct (run_one_ok _ _ _ _ _ works _ _ _ _ _ Hok E) as (? & ? & _). done.
  - destruct (may_join v f) eqn:Em; [|done]. destruct (join_one peer v k f) as [f1|] eqn:E1; [|done].
    cbn [mbind option_bind] in E. injection E as <- <-. split; [by eapply join_one_ok|constructor].
  - injection E as <- <-. split; [by apply others_ok|constructor].
Qed.

Lemma runs_ok dl0 start answers clock f sent :
  wf_download dl0 -> (forall k, ~ held peer dl0 k) -> runs dl0 start answers clock f sent ->
  fetcher_ok peer (works_of dl0) f /\ Forall (verified sha1 (works_of dl0)) sent /\ paced start answers clock f.
Proof.
  intros Hwf Hk. induction 1 as [|answers clock f sent v w f' out Hr (Hok & Hs & Hp) Hclk Hpo E].
  - split; [by apply new_ok|]. split; [constructor|]. split; [|done]. intros _. split; [done|]. intros [?|[?|[? H]]]; [cbn in *; lia..|by apply not_elem_of_nil in H].
  - destruct (step_ok _ _ _ _ _ _ Hok Hpo E). split; [done|]. split; [by apply Forall_app|by eapply step_paced].
Qed.

(** The task can always go on, once the jobs have their answers. *)
Lemma step_enabled works v f :
  fetcher_ok peer works f -> ended (f_pc f) = false ->
  exists w f' out, possible f w /\ (forall dl, w <> Other dl) /\ fetcher_step sha1 t kind url peer v w f = Some (f', out).
Proof.
  intros Hok He. destruct (f_pc f) eqn:Epc; try done.
  - exists Loop. eexists _, _. split; [done|]. split; [done|]. cbn. by rewrite Epc.
  - destruct (fill_ok peer works head v f Hok Epc) as (f1 & E1 & _). exists (Fill head), f1, []. split; [cbn; apply _|]. split; [done|].
    cbn [fetcher_step]. by rewrite Epc, E1.
  - pose proof (fo_joining _ _ _ Hok Epc) as Hne. destruct (f_jobs f) as [|j js] eqn:Ej; [done|].
    destruct (is_done (job_pc j)) eqn:Ed.
    + exists (Join 0). assert (E : exists f', join_one peer v 0 f = Some f').
      { unfold join_one. rewrite Ej. cbn [lookup list_lookup mbind option_bind]. by destruct (job_pc j); eauto. }
      destruct E as [f' E]. exists f', []. split; [done|]. split; [done|]. cbn [fetcher_step]. unfold may_join. rewrite Epc, E. done.
    + exists (Run 0). assert (E : exists f' out, run_one sha1 t kind url peer v 0 f = Some (f', out)).
      { unfold run_one. rewrite Ej. cbn [lookup list_lookup mbind option_bind].
        assert (E : exists r, run_job sha1 t kind url peer v j (f_dl f) = Some r).
        { unfold run_job. destruct (job_pc j); [| | |done].
          - destruct (piece_length _ _); [destruct (_ =? _)|]; eauto.
          - destruct (_ || _); eauto.
          - destruct (answered _ _ _ _ _ _ _) as [[? ?] ?]. eauto. }
        destruct E as [[[pc dl] sent] E]. rewrite E. cbn [mbind option_bind]. eauto. }
      destruct E as (f' & out & E). exists f', out. by split_and!.
Qed.

(** What can end the task: the torrent is done or cancelled, or the answers; and what can
    make it panic. *)
Lemma step_ends v w f f' out start answers clock :
  fetcher_ok peer (works_of (f_dl f)) f -> paced start answers clock f -> ended (f_pc f) = false ->
  fetcher_step sha1 t kind url peer v w f = Some (f', out) ->
  (f_pc f' = Stopped -> (w = Loop /\ (v_cancelled v = true \/ is_complete (f_dl f) = true)) \/ given_up (joined v w f ++ answers)) /\
  (v_now v + MAX_BACKOFF <= secs I64_MAX -> f_pc f' = Panicked ->
   exists k j delay, w = Join k /\ f_jobs f !! k = Some j /\ job_pc j = Done (RetryAfter delay) /\ secs I64_MAX < v_now v + delay).
Proof.
  intros Hok Hpaced He E. destruct w as [|choose|k|k|dl]; cbn [fetcher_step] in E.
  - destruct (f_pc f) eqn:Epc; try done. injection E as <- <-. unfold at_head. destruct (_ || is_complete _) eqn:Ee.
    + apply orb_true_iff in Ee. split; [intros _; by left|done].
    + destruct (negb _ || _); split; cbn; intros; congruence.
  - destruct (f_pc f) eqn:Epc; try done. unfold fill, end_of_fill in E. destruct (_ <? _)%nat.
    + destruct (pick_piece _ _ _ _) as [[[i|] dl]|]; cbn [mbind option_bind] in E; try done; injection E as <- <-; cbn; [done|].
      split; destruct (f_jobs f); done.
    + injection E as <- <-. cbn. split; destruct (f_jobs f); done.
  - destruct (run_one_ok _ _ _ _ _ _ _ _ _ _ _ Hok E) as (_ & _ & Hpc). rewrite Hpc. split; intros; by destruct (f_pc f).
  - destruct (may_join v f); [|done]. unfold join_one in E. destruct (f_jobs f !! k) as [j|] eqn:Ej; [|done]. cbn [mbind option_bind] in E.
    destruct (job_pc j) as [| | |r] eqn:Epc; try done. cbn [mbind option_bind] in E.
    destruct (apply_result (v_now v) (Ok r) (f_counters f)) as [[ends c]|] eqn:Er; injection E as <- <-.
    + destruct (proj1 Hpaced He) as [Ec Hg]. rewrite Ec in Er. destruct (apply_result_exact _ _ _ _ _ _ Hg Er) as [H1 _].
      destruct ends; [|by split]. split; [|done]. intros _. right. cbn [joined]. rewrite Ej. cbn [fmap option_fmap option_map]. rewrite Epc. by apply H1.
    + split; [done|]. intros Hnow _. destruct (apply_result_panic _ _ _ Hnow (fo_counters _ _ _ Hok He) Er) as (delay & -> & Hd).
      by exists k, j, delay.
  - injection E as <- <-. cbn. split; intros; by destruct (f_pc f).
Qed.

Lemma given_up_not answers : ~ given_up answers -> (hashes answers < 3)%nat /\ (refusals answers < 3)%nat /\ forall now, (now, SkipUrl) ∉ answers.
Proof.
  intros H. unfold given_up in H. split; [destruct (Nat.lt_ge_cases (hashes answers) 3); [done|]; exfalso; apply H; by left|].
  split; [destruct (Nat.lt_ge_cases (refusals answers) 3); [done|]; exfalso; apply H; by right; left|].
  intros now Hin. apply H. right. right. by exists now.
Qed.

End Runs.

Definition example_free : DownloadState :=
  with_seed [piece_new (mkPieceWork 0 4 [1; 2; 3; 4]); piece_new (mkPieceWork 1 3 [5; 6; 7])].

Lemma example_free_wf : wf_download example_free.
Proof.
  split; [|vm_compute; congruence|done| |done].
  - intros [|[|i]] p H; [| |by destruct i]; injection H as <-; split; try done; ranges || constructor.
  - apply Forall_replicate. ranges.
Qed.

Lemma example_free_held k : ~ held (webseed_peer 0) example_free k.
Proof. by destruct k as [|[|k]]. Qed.

Definition example_view (http : Http) : View := mkView 0 false TsDownloading peer_states_new true http.

(** Several steps against one server. *)
Fixpoint example_steps (http : Http) (ws : list Wakeup) (f : Fetcher) (sent : list FullPiece) : option (Fetcher * list FullPiece) :=
  match ws with
  | [] => Some (f, sent)
  | w :: ws =>
      '(f, out) ← fetcher_step (fun b => b) example_layout GetRight (str "http://w") (webseed_peer 0) (example_view http) w f;
      example_steps http ws f (sent ++ out)
  end.

Lemma example_steps_runs http ws f sent r dl0 answers :
  Forall (fun w => match w with Fill choose => SliceRandom choose | Other _ => False | _ => True end) ws ->
  runs (fun b => b) example_layout GetRight (str "http://w") (webseed_peer 0) dl0 0 answers 0 f sent -> example_steps http ws f sent = Some r ->
  exists answers, runs (fun b => b) example_layout GetRight (str "http://w") (webseed_peer 0) dl0 0 answers 0 r.1 r.2.
Proof.
  intros H. revert f sent answers. induction H as [|w ws Hw _ IH]; intros f sent answers Hr E; cbn [example_steps] in E; [injection E as <-; by exists answers|].
  destruct (fetcher_step _ _ _ _ _ _ w f) as [[f' out]|] eqn:Es; [|done]. cbn [mbind option_bind] in E.
  eapply IH; [|exact E]. eapply (runs_step _ _ _ _ _ _ _ _ _ _ _ (example_view http)); [exact Hr|done| |exact Es]. by destruct w.
Qed.

(** The four kinds of failure of one server, and what is made of them. *)
Example failures_counted :
  let answers := [(secs 9, Server); (secs 7, Server); (secs 6, Client); (secs 5, RetryAfter (secs 2)); (secs 3, Client); (secs 2, HashFail)] in
  (hashes answers, refusals answers, strikes answers, wait_until 0 answers) = (1%nat, 1%nat, 2%nat, secs 11).
Proof. vm_compute. reflexivity. Qed.


(** A server that says to come back after 2^64 - 1 seconds ends the task with a panic,
    and the pieces its other jobs were about to fetch stay reserved. *)
Lemma retry_after_kills_seed :
  exists f answers, runs (fun b => b) example_layout GetRight (str "http://w") (webseed_peer 0) example_free 0 answers 0 f [] /\
    f_pc f = Panicked /\ f_jobs f = [] /\ held (webseed_peer 0) (f_dl f) 1.
Proof.
  set (ws := [Loop; Fill head; Fill head; Fill head; Run 0; Run 0; Run 0; Join 0]).
  set (server := (fun _ _ => Some (mkResponse 429 (Some (str "18446744073709551615")) [])) : Http).
  destruct (example_steps server ws (fetcher_new 0 example_free) []) as [[f sent]|] eqn:E; [|vm_compute in E; discriminate E].
  assert (Es : sent = []) by (apply (f_equal (fmap snd)) in E; vm_compute in E; by injection E as <-). subst sent.
  destruct (fun H1 H2 => example_steps_runs server ws (fetcher_new 0 example_free) [] (f, []) example_free [] H1 H2 E) as [answers Hr];
    [repeat (constructor; try apply _)|constructor|].
  exists f, answers. split; [exact Hr|].
  assert (H : (fun r => (f_pc r.1, f_jobs r.1, holders (f_dl r.1))) <$> example_steps server ws (fetcher_new 0 example_free) [] =
    Some (Panicked, [], [None; Some (webseed_peer 0)])) by (vm_compute; reflexivity).
  rewrite E in H. cbn [fmap option_fmap option_map fst] in H. injection H as H1 H2 H3. unfold held. by rewrite H1, H2, H3.
Qed.

(** A job that fails gives its piece back whoever has it: when the piece was withdrawn
    and reserved by a peer in the meantime, the peer loses its reservation and chunks. *)
Lemma failure_releases_other peer dl index p r :
  match r with JobOk | HashFail => False | _ => True end -> get_piece dl index = Some p -> downloaded p = false ->
  get_piece (give_back peer index r dl) index = Some (mkPiece (piece_work p) [] false None (write_claimed p)).
Proof.
  intros Hr Hp Hd. assert (E : give_back peer index r dl = release_piece dl index) by by destruct r. rewrite E. unfold release_piece.
  rewrite (get_update _ _ _ _ Hp). unfold unreserve, set_chunks, set_reserved. cbn. by rewrite Hd.
Qed.

(** ** Which pieces are asked for *)

Lemma block_pieces_length blocked s : length (block_pieces blocked s) = length blocked.
Proof. unfold block_pieces. destruct (fast_peer s); [|done]. by rewrite length_imap. Qed.

Lemma block_pieces_lookup l blocked i :
  fold_left block_pieces l blocked !! i = (fun b => existsb (fun s => fast_peer s && has_piece (ps_bitfield s) i) l || b) <$> blocked !! i.
Proof.
  revert blocked. induction l as [|s l IH]; intros blocked; cbn [fold_left existsb]; [by destruct (blocked !! i)|].
  rewrite IH. unfold block_pieces. destruct (fast_peer s); cbn [andb]; [|done].
  rewrite list_lookup_imap. destruct (blocked !! i) as [b|]; [|done]. cbn. by destruct (has_piece _ i), b, (existsb _ l).
Qed.

Lemma fold_unblocked (l : list (nat * bool)) bf i :
  has_piece (fold_left (fun has ib => if snd ib : bool then has else set_piece has (fst ib)) l bf) i =
  bool_decide ((i, false) ∈ l /\ (i < capacity bf)%nat) || has_piece bf i.
Proof.
  revert bf. induction l as [|[j b] l IH]; intros bf; cbn [fold_left].
  { rewrite bool_decide_false; [done|]. intros [H _]. by apply not_elem_of_nil in H. }
  rewrite IH. destruct b; cbn [fst snd].
  - f_equal. apply bool_decide_ext. rewrite elem_of_cons. naive_solver.
  - rewrite has_set_piece, set_piece_capacity, orb_assoc. f_equal.
    apply eq_true_iff_eq. rewrite orb_true_iff, !bool_decide_eq_true, elem_of_cons. naive_solver.
Qed.

(** A web seed asks for the pieces that no fast peer offers. *)
Lemma webseed_pieces_exact dl ps i :
  has_piece (pieces_for_webseed dl ps) i = true <->
  (i < length (dl_pieces dl))%nat /\
  forall addr s, states ps !! addr = Some s -> fast_peer s = true -> has_piece (ps_bitfield s) i = false.
Proof.
  unfold pieces_for_webseed. set (n := length (dl_pieces dl)). set (l := map snd (map_to_list (states ps))). cbv zeta.
  rewrite fold_unblocked, has_with_piece_count, orb_false_r, bool_decide_eq_true.
  assert (Hl : forall s, s ∈ l <-> exists addr, states ps !! addr = Some s).
  { intros s. unfold l. change (map snd ?x) with (snd <$> x). rewrite list_elem_of_fmap. split.
    - intros ([a s'] & -> & H). exists a. by apply elem_of_map_to_list.
    - intros [a H]. exists (a, s). split; [done|]. by apply elem_of_map_to_list. }
  rewrite list_elem_of_lookup. split.
  - intros [[k Hk] _]. rewrite list_lookup_imap, block_pieces_lookup in Hk. destruct (replicate n false !! k) as [b|] eqn:Er; [|done].
    apply lookup_replicate in Er as [-> Hn]. injection Hk as <- Hk. rewrite orb_false_r in Hk. split; [done|]. intros addr s Hs Hf.
    destruct (has_piece (ps_bitfield s) k) eqn:E; [|done].
    assert (existsb (fun s => fast_peer s && has_piece (ps_bitfield s) k) l = true); [|congruence].
    apply existsb_exists. exists s. split; [apply list_elem_of_In, Hl; by exists addr|]. by rewrite Hf, E.
  - intros [Hn Hs]. split; [|pose proof (capacity_with_piece_count n); lia]. exists i.
    rewrite list_lookup_imap, block_pieces_lookup, lookup_replicate_2 by done. cbn. do 2 f_equal. rewrite orb_false_r.
    destruct (existsb _ l) eqn:E; [|done]. apply existsb_exists in E as (s & Hin & [Hf Hp]%andb_prop). apply list_elem_of_In, Hl in Hin as [a Ha].
    by rewrite (Hs a s Ha Hf) in Hp.
Qed.

(** A torrent that has one file in a directory is taken for one that is a file: the URL
    of a server's directory leads to the name of the directory. *)
Lemma single_entry_directory :
  getright_file_url (str "http://w/pub/") (mkTorrent [] [] 4 7 [mkTFI [str "a"] 7 0] (str "dir") false) 0 = str "http://w/pub/dir" /\
  getright_file_url (str "http://w/pub/") (mkTorrent [] [] 4 7 [mkTFI [str "a"] 3 0; mkTFI [str "b"] 4 3] (str "dir") false) 0 = str "http://w/pub/dir/a".
Proof. split; vm_compute; reflexivity. Qed.
