(* ===== verification/Lsd.v ===== *)
(** * Local peer discovery (crates/bit_rev/src/lsd.rs)

    The datagrams that announce torrents to the local network, the limit on the
    datagrams of one address, and the loop that sends the announces.  Text that is
    parsed is a list of characters. *)

From S2P Require Import Prelude Utf8 Bencode Text Value ExtHandshake IpFilter Magnet.

Definition PORT : u16 := 6771.
Definition HOST_V4 : bytes := str "239.192.152.143:6771".
Definition HOST_V6 : bytes := str "[ff15::efc0:988f]:6771".
Definition MAX_DATAGRAM : usize := 1400.
Definition ANNOUNCE_INTERVAL : Duration := secs (5 * 60).
Definition ANNOUNCE_AFTER_ADD : Duration := secs 1.
Definition MIN_SEND_GAP : Duration := secs 60.
Definition INBOUND_WINDOW : Duration := secs 10.
Definition INBOUND_MAX : u32 := 8.
Definition INBOUND_MAX_SOURCES : nat := 1024.
Definition REQUEST_LINE : bytes := str "BT-SEARCH * HTTP/1.1".

Record SearchAnnounce := mkSearch {
  sa_host : list Z; sa_port : u16; sa_info_hashes : list bytes; sa_cookie : option (list Z) }.

Inductive DecodeError := Oversize | Malformed | MissingHeader | BadHost.

Record AnnounceClock := mkClock { first_seen : Instant; last_sent : option Instant }.

(** ** Floods *)

#[export] Program Instance IpAddr_countable : Countable IpAddr :=
  inj_countable' (fun a => match a with IpV4 ip => inl ip | IpV6 ip => inr ip end)
    (fun s => match s with inl ip => IpV4 ip | inr ip => IpV6 ip end) _.
Next Obligation. by intros []. Qed.

Abbreviation InboundLimiter := (gmap IpAddr (Instant * u32)) (only parsing).

Definition in_window (now start : Instant) : bool := sat_sub now start <? INBOUND_WINDOW.

(** Room for a new address: what is outside its window goes, and if that is not
    enough, some address. *)
Definition make_room (iter : InboundLimiter -> list (IpAddr * (Instant * u32))) (ip : IpAddr) (now : Instant) (hits : InboundLimiter)
    : InboundLimiter :=
  if (INBOUND_MAX_SOURCES <=? size hits)%nat && negb (bool_decide (is_Some (hits !! ip))) then
    let hits := filter (fun e => in_window now (fst (snd e)) = true) hits in
    if (INBOUND_MAX_SOURCES <=? size hits)%nat then
      match iter hits with (drop_key, _) :: _ => delete drop_key hits | [] => hits end
    else hits
  else hits.

Definition allow (iter : InboundLimiter -> list (IpAddr * (Instant * u32))) (ip : IpAddr) (now : Instant) (hits : InboundLimiter)
    : bool * InboundLimiter :=
  let hits := make_room iter ip now hits in
  match hits !! ip with
  | Some (start, count) =>
      if in_window now start then
        if INBOUND_MAX <=? count then (false, hits) else (true, <[ip := (start, sat_add U32_MAX count 1)]> hits)
      else (true, <[ip := (now, 1)]> hits)
  | None => (true, <[ip := (now, 1)]> hits)
  end.

(** ** Datagrams *)

Definition announceable (members : list (bytes * bool * bool)) : list bytes :=
  map (fun m => fst (fst m)) (filter (fun m => snd (fst m) && snd m = true) members).

Definition is_due (clock : AnnounceClock) (now : Instant) : bool :=
  match last_sent clock with
  | None => ANNOUNCE_AFTER_ADD <=? sat_sub now (first_seen clock)
  | Some sent => ANNOUNCE_INTERVAL <=? sat_sub now sent
  end.

(** [random_cookie] of the random bytes. *)
Definition random_cookie (random : bytes) : bytes := hex_info_hash random.

Definition push_line (out line : bytes) : bytes := out ++ line ++ [13; 10].
Definition cookie_line (cookie : bytes) : bytes := str "Cookie: " ++ cookie.
Definition hash_line (hash : bytes) : bytes := str "Infohash: " ++ hex_info_hash hash.

Fixpoint push_hashes (cookie : bytes) (hashes : list bytes) (out : bytes) : bytes * nat :=
  match hashes with
  | [] => (out, 0%nat)
  | hash :: hashes =>
      let line := hash_line hash in
      let trailer := Z.of_nat (length (cookie_line cookie)) + 4 in
      let next := Z.of_nat (length out) + Z.of_nat (length line) + 2 + trailer in
      if MAX_DATAGRAM <? next then (out, 0%nat)
      else let '(out, included) := push_hashes cookie hashes (push_line out line) in (out, S included)
  end.

Definition pack_announce (port : u16) (hashes : list bytes) (cookie : bytes) : bytes * nat :=
  let out := push_line [] REQUEST_LINE in
  let out := push_line out (str "Host: " ++ HOST_V4) in
  let out := push_line out (str "Port: " ++ to_string port) in
  let '(out, included) := push_hashes cookie hashes out in
  if (included =? 0)%nat then ([], 0%nat) else (push_line (push_line out (cookie_line cookie)) [], included).

Definition encode_announce (port : u16) (hashes : list bytes) (cookie : bytes) : option bytes :=
  let '(bs, included) := pack_announce port hashes cookie in
  if (included =? length hashes)%nat && (0 <? included)%nat then Some bs else None.

(** [split] at line ends. *)
Fixpoint split_crlf (s : list Z) : list (list Z) :=
  match s with
  | [] => [[]]
  | c :: rest =>
      match (if c =? 13 then match rest with d :: rest => if d =? 10 then Some (split_crlf rest) else None | [] => None end else None) with
      | Some lines => [] :: lines
      | None => match split_crlf rest with [] => [[c]] | line :: lines => (c :: line) :: lines end
      end
  end.

Definition eq_ignore_ascii_case (a b : list Z) : bool := bool_decide (to_ascii_lowercase a = to_ascii_lowercase b).

Definition is_ascii_hexdigit (b : u8) : bool := within 48 57 b || within 97 102 b || within 65 70 b.

Definition parse_info_hash (hex : list Z) : option bytes :=
  let hex := utf8_encode hex in
  if negb (length hex =? 40)%nat || negb (forallb is_ascii_hexdigit hex) then None
  else match hex_pairs hex with Ok out => Some out | Err _ => None end.

Record Headers := mkHeaders {
  hd_host : option (list Z); hd_port : option u16; hd_info_hashes : list bytes; hd_cookie : option (list Z) }.

Definition add_header (h : Headers) (line : list Z) : result Headers DecodeError :=
  let '(mkHeaders host port info_hashes cookie) := h in
  let! (name, value) := ok_or (split_once 58 line) Malformed in
  let name := trim name in
  let value := trim value in
  if eq_ignore_ascii_case name (str "Host") then
    Ok (mkHeaders (match host with None => Some value | Some _ => host end) port info_hashes cookie)
  else if eq_ignore_ascii_case name (str "Port") then
    match port with
    | Some _ => Ok h
    | None =>
        let! parsed := ok_or (parse_uint U16_MAX value) Malformed in
        if parsed =? 0 then Err Malformed else Ok (mkHeaders host (Some parsed) info_hashes cookie)
    end
  else if eq_ignore_ascii_case name (str "Infohash") then
    let! hash := ok_or (parse_info_hash value) Malformed in
    Ok (mkHeaders host port (if bool_decide (hash ∈ info_hashes) then info_hashes else info_hashes ++ [hash]) cookie)
  else if eq_ignore_ascii_case name (str "Cookie") && bool_decide (cookie = None) && negb (bool_decide (value = [])) then
    Ok (mkHeaders host port info_hashes (Some value))
  else Ok h.

Fixpoint add_headers (h : Headers) (lines : list (list Z)) : result Headers DecodeError :=
  match lines with
  | [] | [] :: _ => Ok h
  | line :: lines => let! h := add_header h line in add_headers h lines
  end.

Definition decode (buf : bytes) : result SearchAnnounce DecodeError :=
  if MAX_DATAGRAM <? Z.of_nat (length buf) then Err Oversize
  else
    let! text := ok_or (utf8_chars buf) Malformed in
    match split_crlf text with
    | [] => Err Malformed
    | request :: lines =>
        if negb (bool_decide (trim request = REQUEST_LINE)) then Err Malformed
        else
          let! h := add_headers (mkHeaders None None [] None) lines in
          let! host := ok_or (hd_host h) MissingHeader in
          if negb (bool_decide (host = HOST_V4)) && negb (bool_decide (host = HOST_V6)) then Err BadHost
          else
            let! port := ok_or (hd_port h) MissingHeader in
            match hd_info_hashes h with [] => Err MissingHeader | _ => Ok (mkSearch host port (hd_info_hashes h) (hd_cookie h)) end
    end.

(** [SocketAddr::new] *)
Definition socket_addr (ip : IpAddr) (port : u16) : SocketAddr :=
  match ip with IpV4 ip => V4 ip port | IpV6 ip => V6 ip port 0 0 end.

(** [ingest]: the calls of [add], with the limiter. *)
Definition ingest (iter : InboundLimiter -> list (IpAddr * (Instant * u32))) (datagram : bytes) (src : SocketAddr) (our_cookie : bytes)
    (limiter : InboundLimiter) (now : Instant) : list (bytes * SocketAddr) * InboundLimiter :=
  if MAX_DATAGRAM <? Z.of_nat (length datagram) then ([], limiter)
  else
    let '(allowed, limiter) := allow iter (addr_ip src) now limiter in
    if negb allowed then ([], limiter)
    else
      match decode datagram with
      | Err _ => ([], limiter)
      | Ok announce =>
          if bool_decide (sa_cookie announce = Some our_cookie) then ([], limiter)
          else (map (fun hash => (hash, socket_addr (addr_ip src) (sa_port announce))) (sa_info_hashes announce), limiter)
      end.

(** ** The loop *)

Definition hash_le (a b : bytes) : Prop := cmp_list a b <> Gt.
#[export] Instance hash_le_dec a b : Decision (hash_le a b).
Proof. unfold hash_le. apply _. Defined.

Record LsdState := mkLsd { seen : gmap bytes AnnounceClock; last_packet : option Instant }.
Definition lsd_new : LsdState := mkLsd ∅ None.

Definition reconcile (current : list bytes) (now : Instant) (m : gmap bytes AnnounceClock) : gmap bytes AnnounceClock :=
  fold_left (fun m hash => match m !! hash with Some _ => m | None => <[hash := mkClock now None]> m end) current
    (filter (fun e => fst e ∈ current) m).

(** The order in which the map is visited does not matter, since the hashes are sorted. *)
Definition due_hashes (m : gmap bytes AnnounceClock) (now : Instant) : list bytes :=
  merge_sort hash_le (map fst (filter (fun e => is_due (snd e) now = true) (map_to_list m))).

Definition gap_open (last_packet : option Instant) (now : Instant) : bool :=
  match last_packet with Some sent => MIN_SEND_GAP <=? sat_sub now sent | None => true end.

Definition mark_sent (sent_at : Instant) (hashes : list bytes) (m : gmap bytes AnnounceClock) : gmap bytes AnnounceClock :=
  fold_left (fun m hash => alter (fun c => mkClock (first_seen c) (Some sent_at)) hash m) hashes m.

(** One round of [run], with the packet it sends: the torrents, the port, the time at
    its beginning and after the packet, and whether it could be sent. *)
Definition lsd_round (cookie : bytes) (current : list bytes) (port : u16) (now sent_at : Instant) (ok : bool) (s : LsdState)
    : LsdState * option bytes :=
  let seen := reconcile current now (seen s) in
  let due := due_hashes seen now in
  if negb (port =? 0) && gap_open (last_packet s) now && negb (bool_decide (due = [])) then
    let '(packet, included) := pack_announce port due cookie in
    if (0 <? included)%nat && ok then (mkLsd (mark_sent sent_at (take included due) seen) (Some sent_at), Some packet)
    else (mkLsd seen (last_packet s), None)
  else (mkLsd seen (last_packet s), None).

(** ** What is sent is read back *)

Definition crlf (line : list Z) : list Z := line ++ [13; 10].
Definition plain (c : Z) : Prop := is_ascii c /\ is_whitespace c = false /\ c <> 58.

Lemma utf8_chars_ascii s : Forall is_ascii s -> utf8_chars s = Some s.
Proof.
  induction 1 as [|c s Hc _ IH]; [done|]. cbn [utf8_chars]. rewrite (proj2 (Z.ltb_lt _ _)) by apply Hc. by rewrite IH.
Qed.

Lemma utf8_encode_ascii s : Forall is_ascii s -> utf8_encode s = s.
Proof.
  induction 1 as [|c s Hc _ IH]; [done|]. unfold utf8_encode in *. cbn [map concat]. rewrite IH. unfold utf8_char.
  by rewrite (proj2 (Z.ltb_lt _ _)) by apply Hc.
Qed.

Lemma split_crlf_line line rest : Forall (fun c => c <> 13) line -> split_crlf (crlf line ++ rest) = line :: split_crlf rest.
Proof.
  unfold crlf. induction 1 as [|c line Hc _ IH]; [done|]. cbn [app split_crlf]. rewrite (proj2 (Z.eqb_neq _ _)) by done. by rewrite IH.
Qed.

Lemma split_crlf_lines lines : Forall (Forall (fun c => c <> 13)) lines -> split_crlf (concat (map crlf lines)) = lines ++ [[]].
Proof. induction 1 as [|line lines Hl _ IH]; [done|]. cbn [map concat app]. by rewrite split_crlf_line, IH. Qed.

Lemma trim_start_plain s : Forall (fun c => is_whitespace c = false) s -> trim_start is_whitespace s = s.
Proof. intros H. destruct H as [|c s Hc]; [done|]. cbn. by rewrite Hc. Qed.

Lemma trim_plain s : Forall (fun c => is_whitespace c = false) s -> trim (32 :: s) = s.
Proof.
  intros H. unfold trim, trim_end. change (trim_start is_whitespace (32 :: s)) with (trim_start is_whitespace s).
  rewrite (trim_start_plain s H), (trim_start_plain (rev s)) by (apply Forall_rev; exact H). apply rev_involutive.
Qed.

Lemma hex_digit_plain d : 0 <= d < 16 -> plain (hex_digit d) /\ is_ascii_hexdigit (hex_digit d) = true.
Proof.
  intros Hd. assert (H : In d (map Z.of_nat (seq 0 16))) by (apply in_map_iff; exists (Z.to_nat d); split; [lia|apply in_seq; lia]).
  cbn in H. unfold plain, is_ascii.
  repeat (destruct H as [<-|H]; [split_and!; vm_compute; congruence|]). done.
Qed.

Lemma hex_plain b : wf_bytes b -> Forall plain (hex_info_hash b) /\ forallb is_ascii_hexdigit (hex_info_hash b) = true /\
  length (hex_info_hash b) = (2 * length b)%nat.
Proof.
  unfold hex_info_hash. induction 1 as [|x b Hx _ (IH1 & IH2 & IH3)]; [done|]. cbn [map concat app forallb length].
  assert (0 <= x / 16 < 16 /\ 0 <= x mod 16 < 16) as [H1 H2].
  { unfold is_u8, U8_MAX in Hx. split; [split; [apply Z.div_pos|apply Z.div_lt_upper_bound]; lia|apply Z.mod_pos_bound; lia]. }
  destruct (hex_digit_plain _ H1) as [P1 D1], (hex_digit_plain _ H2) as [P2 D2]. split; [constructor; [done|by constructor]|]. split; [by rewrite D1, D2|]. lia.
Qed.

Lemma to_string_plain n : 0 <= n -> Forall plain (to_string n).
Proof.
  intros Hn. rewrite to_string_nonneg by done. eapply Forall_impl; [by apply dec_digits|]. intros c Hc. unfold is_ascii_digit in Hc.
  assert (H : In c (map Z.of_nat (seq 48 10))) by (apply in_map_iff; exists (Z.to_nat c); split; [lia|apply in_seq; lia]).
  cbn in H. unfold plain, is_ascii. repeat (destruct H as [<-|H]; [split_and!; vm_compute; congruence|]). done.
Qed.

Lemma dec_loop_short k fuel z acc : 0 <= z < 10 ^ Z.of_nat (S k) -> (length (dec_loop fuel z acc) <= S k + length acc)%nat.
Proof.
  revert fuel z acc. induction k as [|k IH]; intros [|fuel] z acc Hz; try (cbn [dec_loop]; lia); cbn [dec_loop].
  - rewrite (proj2 (Z.ltb_lt _ _)) by (change (10 ^ Z.of_nat 1) with 10 in Hz; lia). cbn [length]. lia.
  - destruct (z <? 10); cbn [length]; [lia|]. etrans; [apply IH|cbn [length]; lia].
    rewrite (Nat2Z.inj_succ (S k)), Z.pow_succ_r in Hz by lia. split; [apply Z.div_pos; lia|apply Z.div_lt_upper_bound; lia].
Qed.

Lemma to_string_port_length port : is_u16 port -> (1 <= length (to_string port) <= 5)%nat.
Proof.
  intros Hp. rewrite to_string_nonneg by ranges. split.
  - destruct (dec_cons port) as (c & s & -> & _); [ranges|]. cbn. lia.
  - unfold dec. etrans; [apply (dec_loop_short 4); change (10 ^ Z.of_nat 5) with 100000; ranges|cbn; lia].
Qed.

(** ** The packet *)

(** The lines of a packet. *)
Definition packet_lines (port : u16) (hashes : list bytes) (cookie : bytes) : list bytes :=
  [REQUEST_LINE; str "Host: " ++ HOST_V4; str "Port: " ++ to_string port] ++ map hash_line hashes ++ [cookie_line cookie; []].

Definition wf_hash (h : bytes) : Prop := length h = 20%nat /\ wf_bytes h.

(** How many hashes fit behind [n] bytes. *)
Definition room (n : nat) : nat := Z.to_nat ((MAX_DATAGRAM - 28 - Z.of_nat n) / 52).

Lemma push_hashes_spec cookie hashes (out : bytes) :
  length cookie = 16%nat -> Forall wf_hash hashes -> (length out <= 100)%nat ->
  forall k out', length out' = (length out + 52 * k)%nat ->
  push_hashes cookie hashes out' =
    (out' ++ concat (map (fun h => crlf (hash_line h)) (take (room (length out) - k) hashes)), Nat.min (length hashes) (room (length out) - k)).
Proof.
  intros Hc Hh Hout. induction Hh as [|h hashes [Hl Hw] _ IH]; intros k out' Hl'; cbn [push_hashes].
  { by rewrite take_nil, app_nil_r. }
  assert (Hline : length (hash_line h) = 50%nat).
  { unfold hash_line. rewrite length_app. rewrite (proj2 (proj2 (hex_plain h Hw))), Hl. reflexivity. }
  assert (Hck : length (cookie_line cookie) = 24%nat) by (unfold cookie_line; rewrite length_app, Hc; reflexivity).
  rewrite Hline, Hck, Hl'. unfold MAX_DATAGRAM, room, MAX_DATAGRAM in *.
  pose proof (Z_div_mod_eq_full (1400 - 28 - Z.of_nat (length out)) 52) as Hd.
  pose proof (Z.mod_pos_bound (1400 - 28 - Z.of_nat (length out)) 52 ltac:(lia)) as Hm.
  destruct (Z.ltb_spec 1400 (Z.of_nat (length out + 52 * k) + Z.of_nat 50 + 2 + (Z.of_nat 24 + 4))) as [Hlt|Hge].
  - replace (Z.to_nat ((1400 - 28 - Z.of_nat (length out)) / 52) - k)%nat with 0%nat by lia.
    cbn [take map concat]. rewrite app_nil_r, Nat.min_0_r. done.
  - assert (Hr : (Z.to_nat ((1400 - 28 - Z.of_nat (length out)) / 52) - k = S (Z.to_nat ((1400 - 28 - Z.of_nat (length out)) / 52) - S k))%nat) by lia.
    rewrite (IH (S k)); [|unfold push_line; rewrite !length_app, Hline, Hl'; cbn [length]; lia].
    rewrite Hr. cbn [take map concat length Nat.min]. f_equal. unfold push_line, crlf. by rewrite <- !app_assoc.
Qed.

Lemma pack_announce_spec port hashes random :
  0 < port <= 65535 -> Forall wf_hash hashes -> length random = 8%nat -> wf_bytes random ->
  let n := Nat.min (length hashes) 25 in
  pack_announce port hashes (random_cookie random) =
    if (n =? 0)%nat then ([], 0%nat) else (concat (map crlf (packet_lines port (take n hashes) (random_cookie random))), n).
Proof.
  intros Hp Hh Hr Hw n. pose proof (to_string_port_length port ltac:(ranges)) as Hpl.
  assert (Hc : length (random_cookie random) = 16%nat) by (unfold random_cookie; rewrite (proj2 (proj2 (hex_plain _ Hw))), Hr; done).
  unfold pack_announce. set (out := push_line (push_line (push_line [] REQUEST_LINE) (str "Host: " ++ HOST_V4)) (str "Port: " ++ to_string port)).
  assert (Hlen : length out = (58 + length (to_string port))%nat).
  { unfold out, push_line. rewrite !length_app. change (length REQUEST_LINE) with 20%nat. change (length HOST_V4) with 20%nat.
    change (length (str "Host: ")) with 6%nat. change (length (str "Port: ")) with 6%nat. cbn [length]. lia. }
  assert (Hroom : room (length out) = 25%nat).
  { unfold room, MAX_DATAGRAM. rewrite Hlen. replace ((1400 - 28 - Z.of_nat (58 + length (to_string port))) / 52) with 25; [done|].
    apply Z.div_unique with (r := 1400 - 28 - Z.of_nat (58 + length (to_string port)) - 1300); lia. }
  rewrite (push_hashes_spec _ _ out Hc Hh ltac:(lia) 0 out ltac:(lia)), Hroom. cbn [Nat.sub]. change (25 - 0)%nat with 25%nat. fold n.
  destruct (n =? 0)%nat; [done|]. f_equal.
  assert (Ht : take 25 hashes = take n hashes) by (unfold n; rewrite <- take_take; by rewrite (take_ge (take 25 hashes)) by (rewrite length_take; lia)).
  rewrite Ht. unfold packet_lines. cbn [app map concat]. rewrite !map_app, !concat_app, map_map. cbn [map concat]. unfold out, push_line, crlf.
  cbn [app]. by rewrite <- !app_assoc.
Qed.

Lemma plain_ascii s : Forall plain s -> Forall is_ascii s.
Proof. intros H. eapply Forall_impl; [exact H|]. by intros c [? _]. Qed.
Lemma plain_no_space s : Forall plain s -> Forall (fun c => is_whitespace c = false) s.
Proof. intros H. eapply Forall_impl; [exact H|]. by intros c (_ & ? & _). Qed.
Lemma plain_no_cr s : Forall plain s -> Forall (fun c => c <> 13) s.
Proof. intros H. eapply Forall_impl; [exact H|]. intros c (_ & Hw & _) ->. by vm_compute in Hw. Qed.

(** A header line as it is read. *)
Lemma header_line h name value :
  bool_decide (Forall (fun c => c <> 58 /\ is_whitespace c = false) (str name)) = true -> Forall plain value ->
  add_header h (str name ++ 58 :: 32 :: value) =
  (let '(mkHeaders host port info_hashes cookie) := h in
   if eq_ignore_ascii_case (str name) (str "Host") then
     Ok (mkHeaders (match host with None => Some value | Some _ => host end) port info_hashes cookie)
   else if eq_ignore_ascii_case (str name) (str "Port") then
     match port with
     | Some _ => Ok h
     | None =>
         let! parsed := ok_or (parse_uint U16_MAX value) Malformed in
         if parsed =? 0 then Err Malformed else Ok (mkHeaders host (Some parsed) info_hashes cookie)
     end
   else if eq_ignore_ascii_case (str name) (str "Infohash") then
     let! hash := ok_or (parse_info_hash value) Malformed in
     Ok (mkHeaders host port (if bool_decide (hash ∈ info_hashes) then info_hashes else info_hashes ++ [hash]) cookie)
   else if eq_ignore_ascii_case (str name) (str "Cookie") && bool_decide (cookie = None) && negb (bool_decide (value = [])) then
     Ok (mkHeaders host port info_hashes (Some value))
   else Ok h).
Proof.
  intros Hn Hv. apply bool_decide_eq_true in Hn. unfold add_header. destruct h as [host port info_hashes cookie].
  rewrite split_once_first by (eapply Forall_impl; [exact Hn|]; intros c [Hc _]; apply Z.eqb_neq; congruence). cbn [ok_or].
  assert (Ht : trim (str name) = str name).
  { unfold trim, trim_end. assert (Hs : Forall (fun c => is_whitespace c = false) (str name)) by (eapply Forall_impl; [exact Hn|]; by intros c [_ ?]).
    rewrite (trim_start_plain _ Hs), (trim_start_plain (rev (str name))) by (apply Forall_rev; exact Hs). apply rev_involutive. }
  rewrite Ht, trim_plain by by apply plain_no_space. done.
Qed.

Lemma parse_info_hash_hex h : wf_hash h -> parse_info_hash (hex_info_hash h) = Some h.
Proof.
  intros [Hl Hw]. destruct (hex_plain h Hw) as (Hp & Hx & Hlen). unfold parse_info_hash.
  rewrite utf8_encode_ascii by by apply plain_ascii. rewrite Hlen, Hl, Hx, hex_pairs_hex by done. done.
Qed.

Lemma add_hash_lines hashes host port found cookie rest :
  Forall wf_hash hashes -> NoDup (found ++ hashes) ->
  add_headers (mkHeaders host port found cookie) (map hash_line hashes ++ rest) = add_headers (mkHeaders host port (found ++ hashes) cookie) rest.
Proof.
  intros H. revert found. induction H as [|h hashes Hh _ IH]; intros found Hnd; cbn [map app]; [by rewrite app_nil_r|].
  assert (Hl : hash_line h = str "Infohash" ++ 58 :: 32 :: hex_info_hash h) by reflexivity.
  assert (E : add_header (mkHeaders host port found cookie) (hash_line h) = Ok (mkHeaders host port (found ++ [h]) cookie)).
  { rewrite Hl, header_line by (reflexivity || apply hex_plain, Hh). change (eq_ignore_ascii_case (str "Infohash") (str "Host")) with false.
    change (eq_ignore_ascii_case (str "Infohash") (str "Port")) with false. change (eq_ignore_ascii_case (str "Infohash") (str "Infohash")) with true.
    cbv iota. rewrite parse_info_hash_hex by done. cbn [ok_or]. rewrite bool_decide_false; [done|]. intros Hin.
    apply NoDup_app in Hnd as (_ & Hd & _). apply (Hd h Hin). left. }
  assert (Hne : exists c l, hash_line h = c :: l) by (by eexists _, _). destruct Hne as (c & l & Hcl). cbn [add_headers]. rewrite Hcl, <- Hcl, E.
  rewrite IH by (by rewrite <- app_assoc). by rewrite <- app_assoc.
Qed.

Lemma parse_uint_dec max n : 0 <= n <= max -> parse_uint max (to_string n) = Some n.
Proof.
  intros Hn. rewrite to_string_nonneg by lia.
  assert (Hloop : forall fuel z acc, 0 <= z <= max -> (Z.to_nat (Z.log2 z) < fuel)%nat ->
    parse_dec max 0 (dec_loop fuel z acc) = parse_dec max z acc).
  { induction fuel as [|fuel IH]; intros z acc Hz Hf; [lia|]. cbn [dec_loop].
    assert (Hm : 0 <= z mod 10 < 10) by (apply Z.mod_pos_bound; lia). pose proof (Z_div_mod_eq_full z 10) as Hd.
    destruct (Z.ltb_spec z 10).
    - cbn [parse_dec]. rewrite (Z.mod_small z) by lia. unfold within. rewrite !(proj2 (Z.leb_le _ _)) by lia. cbn [andb]. f_equal. lia.
    - assert (0 <= z / 10) by (apply Z.div_pos; lia). rewrite IH; [|lia|].
      + cbn [parse_dec]. unfold within. rewrite !(proj2 (Z.leb_le _ _)) by lia. cbn [andb]. f_equal. lia.
      + pose proof (Z.log2_nonneg (z / 10)). assert (Z.log2 (z / 10) < Z.log2 z); [|lia]. apply Z.log2_lt_pow2; [apply Z.div_str_pos; lia|].
        assert (Hlt : z < 2 ^ Z.succ (Z.log2 z)) by (apply Z.log2_spec; lia). rewrite Z.pow_succ_r in Hlt by apply Z.log2_nonneg.
        apply Z.div_lt_upper_bound; lia. }
  destruct (dec_cons n) as (c & s & E & Hc); [lia|]. unfold parse_uint. unfold dec in *. rewrite E.
  rewrite (proj2 (Z.eqb_neq c 43)) by (unfold is_ascii_digit in Hc; lia). rewrite <- E. rewrite Hloop by lia. done.
Qed.

Lemma packet_lines_ascii port hashes random :
  0 < port <= 65535 -> Forall wf_hash hashes -> wf_bytes random ->
  Forall (fun line => Forall is_ascii line /\ Forall (fun c => c <> 13) line) (packet_lines port hashes (random_cookie random)).
Proof.
  intros Hp Hh Hw.
  assert (Hc : forall s, bool_decide (Forall (fun c => is_ascii c /\ c <> 13) (str s)) = true -> forall v, Forall plain v ->
    Forall is_ascii (str s ++ v) /\ Forall (fun c => c <> 13) (str s ++ v)).
  { intros s Hs%bool_decide_eq_true v Hv. split; apply Forall_app; split.
    - eapply Forall_impl; [exact Hs|]. by intros c [? _].
    - by apply plain_ascii.
    - eapply Forall_impl; [exact Hs|]. by intros c [_ ?].
    - by apply plain_no_cr. }
  assert (Hk : forall s, bool_decide (Forall (fun c => is_ascii c /\ c <> 13) s) = true -> Forall is_ascii s /\ Forall (fun c => c <> 13) s).
  { intros s Hs%bool_decide_eq_true. split; (eapply Forall_impl; [exact Hs|]); by intros c [? ?]. }
  unfold packet_lines. rewrite !Forall_app. split; [|split].
  - apply Forall_cons; split; [apply Hk; by vm_compute|]. apply Forall_cons; split; [apply Hk; by vm_compute|].
    apply Forall_cons; split; [|by apply Forall_nil]. apply Hc; [by vm_compute|apply to_string_plain; lia].
  - apply Forall_map. eapply Forall_impl; [exact Hh|]. intros h [_ Hwh]. apply Hc; [by vm_compute|by apply hex_plain].
  - apply Forall_cons; split; [apply Hc; [by vm_compute|by apply hex_plain]|]. apply Forall_cons; split; [by split|by apply Forall_nil].
Qed.

Lemma length_packet port hashes random :
  0 < port <= 65535 -> Forall wf_hash hashes -> length random = 8%nat -> wf_bytes random ->
  length (concat (map crlf (packet_lines port hashes (random_cookie random)))) = (86 + length (to_string port) + 52 * length hashes)%nat.
Proof.
  intros Hp Hh Hr Hw. unfold packet_lines. rewrite !map_app, !concat_app, !length_app.
  assert (Hc : forall l : bytes, length (crlf l) = (length l + 2)%nat) by (intros l; unfold crlf; by rewrite length_app).
  assert (Hm : length (concat (map crlf (map hash_line hashes))) = (52 * length hashes)%nat).
  { induction Hh as [|h hashes [Hl Hwh] _ IH]; [done|]. cbn [map concat length]. rewrite length_app, IH, Hc. unfold hash_line.
    rewrite length_app, (proj2 (proj2 (hex_plain _ Hwh))), Hl. change (length (str "Infohash: ")) with 10%nat. lia. }
  rewrite Hm. cbn [map concat]. rewrite !length_app, !Hc, !length_app. unfold cookie_line, random_cookie.
  rewrite length_app, (proj2 (proj2 (hex_plain _ Hw))), Hr. change (length REQUEST_LINE) with 20%nat. change (length HOST_V4) with 20%nat.
  change (length (str "Host: ")) with 6%nat. change (length (str "Port: ")) with 6%nat. change (length (str "Cookie: ")) with 8%nat. cbn [length]. lia.
Qed.

(** The headers of a packet. *)
Lemma packet_headers port hashes random :
  0 < port <= 65535 -> Forall wf_hash hashes -> NoDup hashes -> length random = 8%nat -> wf_bytes random ->
  add_headers (mkHeaders None None [] None) ([str "Host: " ++ HOST_V4; str "Port: " ++ to_string port] ++ map hash_line hashes ++ [cookie_line (random_cookie random); []; []])
  = Ok (mkHeaders (Some HOST_V4) (Some port) hashes (Some (random_cookie random))).
Proof.
  intros Hp Hh Hnd Hr Hw.
  assert (Hstep : forall h line lines, line <> [] -> add_headers h (line :: lines) = (let! h := add_header h line in add_headers h lines)) by (intros ? [|? ?] ? ?; done).
  cbn [app]. rewrite Hstep by done.
  assert (E1 : add_header (mkHeaders None None [] None) (str "Host: " ++ HOST_V4) = Ok (mkHeaders (Some HOST_V4) None [] None)) by (vm_compute; reflexivity).
  rewrite E1, Hstep by done.
  change (str "Port: " ++ to_string port) with (str "Port" ++ 58 :: 32 :: to_string port). rewrite header_line by (reflexivity || apply to_string_plain; lia).
  change (eq_ignore_ascii_case (str "Port") (str "Host")) with false. change (eq_ignore_ascii_case (str "Port") (str "Port")) with true. cbv iota.
  rewrite parse_uint_dec by (unfold U16_MAX; lia). cbn [ok_or]. rewrite (proj2 (Z.eqb_neq _ 0)) by lia.
  rewrite (add_hash_lines hashes _ _ []) by done. cbn [app].
  assert (Hne : cookie_line (random_cookie random) <> []) by done. rewrite Hstep by discriminate.
  destruct (hex_plain random Hw) as (Hpl & _ & Hlen). unfold cookie_line.
  change (str "Cookie: " ++ random_cookie random) with (str "Cookie" ++ 58 :: 32 :: random_cookie random). rewrite header_line by (reflexivity || exact Hpl).
  change (eq_ignore_ascii_case (str "Cookie") (str "Host")) with false. change (eq_ignore_ascii_case (str "Cookie") (str "Port")) with false.
  change (eq_ignore_ascii_case (str "Cookie") (str "Infohash")) with false. change (eq_ignore_ascii_case (str "Cookie") (str "Cookie")) with true. cbv iota.
  assert (Hc : random_cookie random <> []) by (intros E; unfold random_cookie in E; rewrite E, Hr in Hlen; done).
  rewrite (bool_decide_false (random_cookie random = [])) by done. done.
Qed.

(** An announce is one datagram of at most 1400 bytes that names the first 25 of the
    torrents it is made for, and whoever receives it reads exactly the port, those
    torrents and the cookie. *)
Lemma pack_decodes port hashes random :
  0 < port <= 65535 -> Forall wf_hash hashes -> NoDup hashes -> length random = 8%nat -> wf_bytes random ->
  let '(packet, n) := pack_announce port hashes (random_cookie random) in
  n = Nat.min (length hashes) 25 /\ Z.of_nat (length packet) <= MAX_DATAGRAM /\
  (hashes <> [] -> decode packet = Ok (mkSearch HOST_V4 port (take n hashes) (Some (random_cookie random)))).
Proof.
  intros Hp Hh Hnd Hr Hw. rewrite pack_announce_spec by done. set (n := Nat.min (length hashes) 25).
  destruct (Nat.eqb_spec n 0) as [Hn|Hn].
  { split; [done|]. split; [done|]. intros Hne. destruct hashes; [done|]. cbn in n. lia. }
  split; [done|]. assert (Hh' : Forall wf_hash (take n hashes)) by by apply Forall_take.
  pose proof (to_string_port_length port ltac:(ranges)) as Hpl.
  assert (Hlen : Z.of_nat (length (concat (map crlf (packet_lines port (take n hashes) (random_cookie random))))) <= MAX_DATAGRAM).
  { rewrite length_packet by done. rewrite length_take. unfold MAX_DATAGRAM. lia. }
  split; [done|]. intros Hne. unfold decode. rewrite (proj2 (Z.ltb_ge _ _)) by done.
  pose proof (packet_lines_ascii port (take n hashes) random Hp Hh' Hw) as Ha.
  rewrite utf8_chars_ascii.
  2:{ apply Forall_concat, Forall_map. eapply Forall_impl; [exact Ha|]. intros l [Hl _]. unfold crlf. apply Forall_app. split; [done|].
      apply (bool_decide_unpack _). by vm_compute. }
  cbn [ok_or]. rewrite split_crlf_lines by (eapply Forall_impl; [exact Ha|]; by intros l [_ ?]).
  unfold packet_lines. cbn [app]. change (trim REQUEST_LINE) with REQUEST_LINE. rewrite bool_decide_true by done. cbn [negb].
  rewrite <- app_assoc. cbn [app].
  pose proof (packet_headers port (take n hashes) random Hp Hh' (sublist_NoDup _ _ Hnd (sublist_take hashes n)) Hr Hw) as E. cbn [app] in E. rewrite E.
  cbn [hd_host hd_port hd_info_hashes hd_cookie ok_or]. rewrite (bool_decide_true (HOST_V4 = HOST_V4)) by done. cbn [negb andb].
  destruct (take n hashes) eqn:Et; [|done]. apply (f_equal length) in Et. rewrite length_take in Et. cbn in Et. lia.
Qed.


(** ** The loop *)

#[export] Instance hash_le_trans : Transitive hash_le.
Proof. intros a b c. apply cmp_list_le_trans. Qed.
#[export] Instance hash_le_total : Total hash_le.
Proof. intros a b. unfold hash_le. rewrite (cmp_list_antisym a). destruct (cmp_list a b); cbn; auto. Qed.

Lemma reconcile_lookup current now m x :
  reconcile current now m !! x = if decide (x ∈ current) then Some (default (mkClock now None) (m !! x)) else None.
Proof.
  unfold reconcile.
  assert (H : forall l (m' : gmap bytes AnnounceClock), fold_left (fun m hash => match m !! hash with Some _ => m | None => <[hash := mkClock now None]> m end) l m' !! x =
    if decide (x ∈ l) then Some (default (mkClock now None) (m' !! x)) else m' !! x).
  { induction l as [|y l IH]; intros m'; cbn [fold_left].
    - rewrite decide_False by apply not_elem_of_nil. done.
    - rewrite IH. destruct (decide (x = y)) as [->|Hne].
      + rewrite (decide_True (P := y ∈ y :: l)) by left. destruct (m' !! y) eqn:E; [rewrite E|rewrite lookup_insert_eq]; by case_decide.
      + assert (E : (match m' !! y with Some _ => m' | None => <[y := mkClock now None]> m' end) !! x = m' !! x)
          by (destruct (m' !! y); [done|by rewrite lookup_insert_ne]).
        rewrite E. repeat case_decide; try done; set_solver. }
  rewrite H, map_lookup_filter. case_decide as Hx.
  - destruct (m !! x) as [c|]; [|done]. cbn. by rewrite option_guard_True.
  - destruct (m !! x) as [c|]; [|done]. cbn. by rewrite option_guard_False.
Qed.

Lemma mark_sent_lookup sent_at hashes m x :
  mark_sent sent_at hashes m !! x = if decide (x ∈ hashes) then (fun c => mkClock (first_seen c) (Some sent_at)) <$> m !! x else m !! x.
Proof.
  unfold mark_sent. revert m. induction hashes as [|y l IH]; intros m; cbn [fold_left].
  - by rewrite decide_False by apply not_elem_of_nil.
  - rewrite IH. destruct (decide (x = y)) as [->|Hne].
    + rewrite lookup_alter_eq, (decide_True (P := y ∈ y :: l)) by left. case_decide; by destruct (m !! y).
    + rewrite lookup_alter_ne by done. repeat case_decide; try done; set_solver.
Qed.

Lemma elem_due m now x : x ∈ due_hashes m now <-> exists c, m !! x = Some c /\ is_due c now = true.
Proof.
  unfold due_hashes. rewrite merge_sort_Permutation. change (map fst ?l) with (fst <$> l). rewrite list_elem_of_fmap. split.
  - intros ([y c] & -> & H). apply list_elem_of_filter in H as [Hd H]. apply elem_of_map_to_list in H. by exists c.
  - intros (c & H & Hd). exists (x, c). split; [done|]. apply list_elem_of_filter. split; [done|]. by apply elem_of_map_to_list.
Qed.

Lemma NoDup_due m now : NoDup (due_hashes m now).
Proof.
  unfold due_hashes. rewrite merge_sort_Permutation. pose proof (NoDup_fst_map_to_list m) as H.
  induction (map_to_list m) as [|e l IH]; [constructor|]. rewrite fmap_cons in H. apply NoDup_cons in H as [Hn H]. rewrite filter_cons.
  case_decide; [|by apply IH]. cbn [map]. apply NoDup_cons. split; [|by apply IH].
  change (map fst ?x) with (fst <$> x). intros (e' & Ee & Hin)%list_elem_of_fmap. apply list_elem_of_filter in Hin as [_ Hin].
  apply Hn, list_elem_of_fmap. by exists e'.
Qed.

(** What is less comes before. *)
Lemma sorted_before l (x h : bytes) i :
  StronglySorted hash_le l -> l !! i = Some h -> x ∈ l -> cmp_list x h = Lt -> x ∈ take i l.
Proof.
  intros Hs Hi Hx Hlt. rewrite <- (take_drop_middle l i h Hi) in Hx, Hs.
  apply elem_of_app in Hx as [Hx|Hx]; [done|]. exfalso. apply elem_of_cons in Hx as [->|Hx].
  - assert (E : cmp_list h h = Eq) by (clear; induction h as [|z h IH]; [done|]; cbn; by rewrite Z.compare_refl). congruence.
  - assert (Hle : hash_le h x).
    { clear Hi. induction (take i l) as [|y t IH]; cbn [app] in Hs; [|inversion_clear Hs; by apply IH].
      inversion_clear Hs as [|? ? _ Hf]. rewrite Forall_forall in Hf. by apply Hf. }
    unfold hash_le in Hle. rewrite (cmp_list_antisym x), Hlt in Hle. done.
Qed.

(** A packet is sent at most once a minute, and names the first 25 of the torrents that
    have been there for a second and were not announced in the last five minutes. *)
Lemma lsd_round_spec random current port now sent_at ok s s' p :
  is_u16 port -> Forall wf_hash current -> length random = 8%nat -> wf_bytes random ->
  lsd_round (random_cookie random) current port now sent_at ok s = (s', p) ->
  let m := reconcile current now (seen s) in
  match p with
  | None => seen s' = m /\ last_packet s' = last_packet s
  | Some packet =>
      gap_open (last_packet s) now = true /\ last_packet s' = Some sent_at /\ due_hashes m now <> [] /\
      seen s' = mark_sent sent_at (take 25 (due_hashes m now)) m /\ Z.of_nat (length packet) <= MAX_DATAGRAM /\
      decode packet = Ok (mkSearch HOST_V4 port (take 25 (due_hashes m now)) (Some (random_cookie random)))
  end.
Proof.
  intros Hp Hcur Hr Hw E m. unfold lsd_round in E. fold m in E.
  destruct (negb (port =? 0) && gap_open (last_packet s) now && negb (bool_decide (due_hashes m now = []))) eqn:Eg; [|by injection E as <- <-].
  apply andb_prop in Eg as [Eg Hne]. apply andb_prop in Eg as [Hport Hgap].
  apply negb_true_iff, Z.eqb_neq in Hport. apply negb_true_iff, bool_decide_eq_false in Hne.
  assert (Hh : Forall wf_hash (due_hashes m now)).
  { apply Forall_forall. intros x (c & Hx & _)%elem_due. unfold m in Hx. rewrite reconcile_lookup in Hx. case_decide; [|done].
    rewrite Forall_forall in Hcur. by apply Hcur. }
  pose proof (pack_decodes port (due_hashes m now) random ltac:(ranges) Hh (NoDup_due m now) Hr Hw) as Hl.
  destruct (pack_announce port (due_hashes m now) (random_cookie random)) as [packet n]. destruct Hl as (Hn & Hlen & Hd).
  destruct ((0 <? n)%nat && ok); injection E as <- <-; [|done].
  assert (Ht : take n (due_hashes m now) = take 25 (due_hashes m now)).
  { rewrite Hn, <- take_take. apply take_ge. rewrite length_take. lia. }
  rewrite Ht in *. split_and!; auto.
Qed.

Lemma random_cookie_inj a b : wf_bytes a -> wf_bytes b -> random_cookie a = random_cookie b -> a = b.
Proof. intros Ha Hb E. apply hex_pairs_hex in Ha, Hb. unfold random_cookie in E. rewrite E in Ha. congruence. Qed.

(** Two clients on one network find each other: a round of the loop that sends a
    datagram announces some of the torrents of the session, and whoever receives it
    adds the sender as a peer of exactly those torrents, with the port it listens on,
    except the sender itself, who drops it by its cookie. *)
Theorem lsd_peers_meet iter random random' current port now sent_at ok s s' packet src limiter limiter' now' :
  is_u16 port -> Forall wf_hash current -> length random = 8%nat -> wf_bytes random -> wf_bytes random' ->
  lsd_round (random_cookie random) current port now sent_at ok s = (s', Some packet) ->
  allow iter (addr_ip src) now' limiter = (true, limiter') ->
  exists announced, announced <> [] /\ (forall h, h ∈ announced -> h ∈ current) /\ (length announced <= 25)%nat /\ Z.of_nat (length packet) <= MAX_DATAGRAM /\
    ingest iter packet src (random_cookie random') limiter now' =
      (if decide (random = random') then [] else map (fun h => (h, socket_addr (addr_ip src) port)) announced, limiter').
Proof.
  intros Hp Hcur Hr Hw Hw' E Ha. apply (lsd_round_spec _ _ _ _ _ _ _ _ _ Hp Hcur Hr Hw) in E. cbv zeta in E.
  set (m := reconcile current now (seen s)) in *. destruct E as (_ & _ & Hne & _ & Hlen & Hd). exists (take 25 (due_hashes m now)). split_and!.
  - destruct (due_hashes m now); [done|discriminate].
  - intros h Hh. assert (Hdue : h ∈ due_hashes m now) by (rewrite <- (take_drop 25); apply elem_of_app; by left).
    apply elem_due in Hdue as (c & Hc & _). unfold m in Hc. rewrite reconcile_lookup in Hc. by case_decide.
  - rewrite length_take. lia.
  - done.
  - unfold ingest. rewrite (proj2 (Z.ltb_ge _ _)) by done. rewrite Ha. cbn [negb]. rewrite Hd. cbn [sa_cookie sa_port sa_info_hashes].
    destruct (decide (random = random')) as [->|Hne']; [by rewrite bool_decide_true|].
    rewrite bool_decide_false; [done|]. intros [= Ec]. apply Hne'. by apply random_cookie_inj.
Qed.

Definition example_hash (n : nat) : bytes := replicate 19 0 ++ [Z.of_nat n].
Definition example_hashes : list bytes := map example_hash (seq 0 126).

(** ** Floods *)

Definition limiter_ok (hits : InboundLimiter) : Prop :=
  (size hits <= INBOUND_MAX_SOURCES)%nat /\ forall ip e, hits !! ip = Some e -> 1 <= snd e <= INBOUND_MAX.

Lemma make_room_ok iter `{!HashOrder iter} ip now hits :
  limiter_ok hits -> limiter_ok (make_room iter ip now hits) /\
  (make_room iter ip now hits !! ip = None -> (size (make_room iter ip now hits) < INBOUND_MAX_SOURCES)%nat).
Proof.
  intros [Hs He]. unfold make_room. destruct (Nat.leb_spec INBOUND_MAX_SOURCES (size hits)) as [Hfull|]; cbn [andb].
  - case_bool_decide as Hin; cbn [negb]; [split; [done|]; intros Hn; rewrite Hn in Hin; by destruct Hin|].
    set (kept := filter _ hits).
    assert (Hk : limiter_ok kept).
    { split; [etrans; [apply map_size_filter|done]|]. intros ip' e H. apply map_lookup_filter_Some in H as [H _]. by eapply He. }
    destruct (Nat.leb_spec INBOUND_MAX_SOURCES (size kept)) as [Hfull'|]; [|by split].
    destruct (iter kept) as [|[key e] l] eqn:Ei.
    + pose proof (iter_perm kept) as Hp. rewrite Ei in Hp. apply Permutation_nil_l in Hp. apply (f_equal length) in Hp.
      rewrite length_map_to_list in Hp. cbn in Hp. unfold INBOUND_MAX_SOURCES in *. lia.
    + assert (Hkey : kept !! key = Some e).
      { apply elem_of_map_to_list. rewrite <- (iter_perm kept), Ei. left. }
      destruct Hk as [Hks Hke]. assert (Hsz : size (delete key kept) = pred (size kept)) by (by eapply map_size_delete_Some).
      split; [|intros _; rewrite Hsz; unfold INBOUND_MAX_SOURCES in *; lia]. split; [rewrite Hsz; lia|].
      intros ip' e' H. apply lookup_delete_Some in H as [_ H]. by eapply Hke.
  - split; [done|]. intros _. lia.
Qed.

(** However many datagrams arrive, the table has at most 1024 addresses, and an address
    is heard at most eight times in the ten seconds its entry is for. *)
Lemma limiter_bounded iter `{!HashOrder iter} ip now hits :
  limiter_ok hits ->
  let '(heard, hits') := allow iter ip now hits in
  limiter_ok hits' /\
  (heard = false <-> exists start, make_room iter ip now hits !! ip = Some (start, INBOUND_MAX) /\ in_window now start = true).
Proof.
  intros Hok. unfold allow. destruct (make_room_ok iter ip now hits Hok) as [[Hs He] Hroom]. set (h := make_room iter ip now hits) in *.
  assert (Hins : forall e, 1 <= snd e <= INBOUND_MAX -> limiter_ok (<[ip := e]> h)).
  { intros e Hb. split.
    - destruct (h !! ip) as [e0|] eqn:E; [rewrite map_size_insert_Some by eauto; done|]. rewrite map_size_insert_None by done. specialize (Hroom eq_refl). lia.
    - intros ip' e' H. destruct (decide (ip = ip')) as [->|]; [rewrite lookup_insert_eq in H; by injection H as <-|rewrite lookup_insert_ne in H by done; by eapply He]. }
  destruct (h !! ip) as [[start count]|] eqn:E.
  - pose proof (He _ _ E) as Hc. cbn [snd] in Hc. destruct (in_window now start) eqn:Ew.
    + destruct (Z.leb_spec INBOUND_MAX count).
      * split; [done|]. split; [|done]. intros _. exists start. split; [|done]. do 2 f_equal. lia.
      * split; [apply Hins; cbn [snd]; unfold sat_add, INBOUND_MAX in *; ranges|]. split; [done|]. intros (start' & [= -> ->] & _). lia.
    + split; [apply Hins; cbn [snd]; unfold INBOUND_MAX; lia|]. split; [done|]. intros (start' & [= -> ->] & Hw). congruence.
  - split; [apply Hins; cbn [snd]; unfold INBOUND_MAX; lia|]. split; [done|]. by intros (start' & [=] & _).
Qed.

(** ** Starvation *)

Section Starvation.
Context (random : bytes) (cur low : list bytes) (h : bytes).
Context (Hrandom : length random = 8%nat) (Hwf : wf_bytes random) (Hcur : Forall wf_hash cur) (Hh : h ∈ cur).
Context (Hlow : NoDup low) (Hlen : (125 <= length low)%nat) (Hsub : forall x, x ∈ low -> x ∈ cur /\ cmp_list x h = Lt).

(** The rounds of a session whose torrents stay the same, with the datagrams sent. *)
Inductive lsd_runs : LsdState -> Instant -> list bytes -> Prop :=
| lsd_runs_new t : lsd_runs lsd_new t []
| lsd_runs_round s t sent port now sent_at ok s' p :
    lsd_runs s t sent -> t <= now -> now <= sent_at -> is_u16 port ->
    lsd_round (random_cookie random) cur port now sent_at ok s = (s', p) -> lsd_runs s' sent_at (sent ++ option_list p).

(** The datagrams sent so far, the latest first: when, and which torrents. *)
Fixpoint spaced (bound : Instant) (hist : list (Instant * list bytes)) : Prop :=
  match hist with
  | [] => True
  | (at_, l) :: hist => at_ <= bound /\ (length l <= 25)%nat /\ spaced (at_ - MIN_SEND_GAP) hist
  end.

(** What was sent less than five minutes before is in the last four datagrams. *)
Lemma spaced_recent k bound hist at_ l :
  spaced bound hist -> (at_, l) ∈ hist -> bound - Z.of_nat k * MIN_SEND_GAP < at_ -> (at_, l) ∈ take k hist.
Proof.
  revert k bound. induction hist as [|[a l'] hist IH]; intros k bound Hs Hin Hlt; [by apply not_elem_of_nil in Hin|].
  destruct Hs as (Ha & _ & Hs).
  assert (Hmax : forall hist bound, spaced bound hist -> forall a l, (a, l) ∈ hist -> a <= bound).
  { clear. induction hist as [|[a' l'] hist IH]; intros bound Hs a l Hin; [by apply not_elem_of_nil in Hin|].
    destruct Hs as (Ha & _ & Hs). apply elem_of_cons in Hin as [[= -> ->]|Hin]; [done|]. specialize (IH _ Hs _ _ Hin).
    unfold MIN_SEND_GAP, secs in IH. lia. }
  destruct k as [|k].
  - exfalso. apply elem_of_cons in Hin as [[= -> ->]|Hin]; [lia|]. specialize (Hmax _ _ Hs _ _ Hin). unfold MIN_SEND_GAP, secs in *. lia.
  - cbn [take]. apply elem_of_cons in Hin as [[= -> ->]|Hin]; [left|]. right. apply (IH k (a - MIN_SEND_GAP)); [done|done|].
    unfold MIN_SEND_GAP, secs in *. lia.
Qed.

Lemma spaced_length k bound hist : spaced bound hist -> (length (concat (map snd (take k hist))) <= 25 * k)%nat.
Proof.
  revert k bound. induction hist as [|[a l] hist IH]; intros k bound Hs; [rewrite take_nil; cbn; lia|].
  destruct k as [|k]; [cbn; lia|]. destruct Hs as (_ & Hl & Hs). cbn [take map concat]. rewrite length_app. cbn [snd].
  specialize (IH k _ Hs). lia.
Qed.

Lemma spaced_mono b b' hist : b <= b' -> spaced b hist -> spaced b' hist.
Proof. destruct hist as [|[a l] hist]; [done|]. intros Hb (? & ? & ?). split; [lia|done]. Qed.

Record starved (s : LsdState) (t : Instant) (hist : list (Instant * list bytes)) : Prop := {
  sv_spaced : spaced t hist;
  sv_last : last_packet s = fst <$> head hist;
  sv_seen : (seen s = ∅ /\ hist = []) \/
    (exists t0, t0 <= t /\ (seen s !! h = Some (mkClock t0 None)) /\
      forall x, x ∈ low -> exists c, seen s !! x = Some c /\ first_seen c = t0 /\ forall at_, last_sent c = Some at_ -> exists l, (at_, l) ∈ hist /\ x ∈ l) }.

(** Enough of the torrents before [h] are due whenever a datagram may be sent. *)
Lemma h_not_first s t hist now :
  starved s t hist -> t <= now -> gap_open (last_packet s) now = true ->
  h ∉ take 25 (due_hashes (reconcile cur now (seen s)) now).
Proof.
  intros [Hsp Hlast Hseen] Hnow Hgap Hin. set (m := reconcile cur now (seen s)) in *.
  assert (Hmh : m !! h = Some (default (mkClock now None) (seen s !! h))) by (unfold m; rewrite reconcile_lookup; by rewrite decide_True).
  assert (Hdue : h ∈ due_hashes m now) by (rewrite <- (take_drop 25); apply elem_of_app; by left).
  apply elem_due in Hdue as (c & Hc & Hd). rewrite Hmh in Hc. injection Hc as <-.
  destruct Hseen as [[Hs _]|(t0 & Ht0 & Hsh & Hl)].
  { rewrite Hs, lookup_empty in Hd. cbn in Hd. unfold is_due in Hd. cbn in Hd. unfold ANNOUNCE_AFTER_ADD, sat_sub, secs in Hd. lia. }
  rewrite Hsh in Hd. cbn in Hd. unfold is_due in Hd. cbn [last_sent first_seen] in Hd. apply Z.leb_le in Hd.
  set (due := due_hashes m now) in *.
  (* the torrents before [h] that are not due were announced lately *)
  assert (Hrecent : forall x, x ∈ low -> x ∉ due -> x ∈ concat (map snd (take 4 hist))).
  { intros x Hx Hnd. destruct (Hl x Hx) as (c & Hc & Hf & Hls). destruct (Hsub x Hx) as [Hxc _].
    assert (Hmx : m !! x = Some c) by (unfold m; rewrite reconcile_lookup, decide_True, Hc by done; done).
    destruct (last_sent c) as [at_|] eqn:Els.
    - destruct (Hls at_ eq_refl) as (l & Hin' & Hxl).
      assert (Hold : sat_sub now at_ < ANNOUNCE_INTERVAL).
      { destruct (Z.ltb_spec (sat_sub now at_) ANNOUNCE_INTERVAL); [done|]. exfalso. apply Hnd, elem_due. exists c. split; [done|].
        unfold is_due. rewrite Els. by apply Z.leb_le. }
      assert (Hsp' : spaced (now - MIN_SEND_GAP) hist).
      { destruct hist as [|[a la] hist']; [done|]. rewrite Hlast in Hgap. cbn in Hgap. destruct Hsp as (_ & ? & ?). split; [|done].
        apply Z.leb_le in Hgap. unfold sat_sub, MIN_SEND_GAP, secs in Hgap. unfold MIN_SEND_GAP, secs. lia. }
      pose proof (spaced_recent 4 _ _ _ _ Hsp' Hin') as Hr4. apply list_elem_of_In, in_concat. exists l. split; [|by apply list_elem_of_In].
      apply in_map_iff. exists (at_, l). split; [done|]. apply list_elem_of_In, Hr4. unfold sat_sub, ANNOUNCE_INTERVAL, MIN_SEND_GAP, secs in *. lia.
    - exfalso. apply Hnd, elem_due. exists c. split; [done|]. unfold is_due. rewrite Els, Hf. apply Z.leb_le. done. }
  (* so 25 of them are due *)
  apply list_elem_of_lookup in Hin as [i Hi]. pose proof (lookup_lt_Some _ _ _ Hi) as Hi25. rewrite length_take in Hi25.
  rewrite lookup_take_lt in Hi by lia.
  assert (Hsorted : StronglySorted hash_le due) by (apply StronglySorted_merge_sort; apply _).
  set (rest := filter (fun x => x ∉ due) low). set (first := filter (fun x => x ∈ due) low).
  assert (Hfirst : (length first <= i)%nat).
  { assert (Hsubi : first ⊆+ take i due).
    { apply NoDup_submseteq; [by apply NoDup_filter|]. intros x Hx. apply list_elem_of_filter in Hx as [Hxd Hxl].
      by apply (sorted_before due x h i Hsorted Hi Hxd), Hsub. }
    apply submseteq_length in Hsubi. rewrite length_take in Hsubi. lia. }
  assert (Hrest : (length rest <= 100)%nat).
  { assert (Hs4 : rest ⊆+ concat (map snd (take 4 hist))).
    { apply NoDup_submseteq; [by apply NoDup_filter|]. intros x Hx. apply list_elem_of_filter in Hx as [Hxd Hxl]. by apply Hrecent. }
    apply submseteq_length in Hs4. pose proof (spaced_length 4 _ _ Hsp). lia. }
  assert (Hsum : (length first + length rest = length low)%nat).
  { unfold first, rest. clear. induction low as [|x l IH]; [done|]. rewrite !filter_cons. repeat case_decide; cbn [length]; try lia; tauto. }
  lia.
Qed.

Lemma starved_round s t hist port now sent_at ok s' p :
  starved s t hist -> t <= now -> now <= sent_at -> is_u16 port -> lsd_round (random_cookie random) cur port now sent_at ok s = (s', p) ->
  (exists hist', starved s' sent_at hist') /\ forall packet a, p = Some packet -> decode packet = Ok a -> h ∉ sa_info_hashes a.
Proof.
  intros Hst Hnow Hsent Hport E. apply (lsd_round_spec _ _ _ _ _ _ _ _ _ Hport Hcur Hrandom Hwf) in E. cbv zeta in E.
  set (m := reconcile cur now (seen s)) in *.
  assert (Hm : forall x, x ∈ cur -> m !! x = Some (default (mkClock now None) (seen s !! x))) by (intros x Hx; unfold m; rewrite reconcile_lookup; by rewrite decide_True).
  (* the clocks after the round, before a datagram is noted *)
  assert (Hclocks : exists t0, t0 <= sent_at /\ m !! h = Some (mkClock t0 None) /\
    forall x, x ∈ low -> exists c, m !! x = Some c /\ first_seen c = t0 /\ forall at_, last_sent c = Some at_ -> exists l, (at_, l) ∈ hist /\ x ∈ l).
  { destruct (sv_seen _ _ _ Hst) as [[Hs _]|(t0 & Ht0 & Hsh & Hl)].
    - exists now. split; [lia|]. split; [rewrite Hm, Hs, lookup_empty by done; done|]. intros x Hx. exists (mkClock now None).
      rewrite Hm, Hs, lookup_empty by (by apply Hsub). by split_and!.
    - exists t0. split; [lia|]. split; [by rewrite Hm, Hsh by done|]. intros x Hx. destruct (Hl x Hx) as (c & Hc & ? & ?). exists c.
      rewrite Hm, Hc by (by apply Hsub). by split_and!. }
  destruct Hclocks as (t0 & Ht0 & Hmh & Hml). destruct p as [packet|].
  - destruct E as (Hgap & Hlp & _ & Hs' & _ & Hdec). pose proof (h_not_first s t hist now Hst Hnow Hgap) as Hno. fold m in Hno. split.
    + exists ((sent_at, take 25 (due_hashes m now)) :: hist). split.
      * cbn [spaced]. split; [done|]. split; [rewrite length_take; lia|]. pose proof (sv_spaced _ _ _ Hst) as Hsp.
        destruct hist as [|[a l] hist']; [done|]. destruct Hsp as (? & ? & ?). split; [|done].
        rewrite (sv_last _ _ _ Hst) in Hgap. cbn in Hgap. apply Z.leb_le in Hgap. unfold sat_sub, MIN_SEND_GAP, secs in Hgap. unfold MIN_SEND_GAP, secs. lia.
      * by rewrite Hlp.
      * right. exists t0. split; [done|]. rewrite Hs'. split; [rewrite mark_sent_lookup, decide_False by done; done|].
        intros x Hx. destruct (Hml x Hx) as (c & Hc & Hf & Hls). rewrite mark_sent_lookup, Hc. case_decide as Hin.
        -- eexists. split; [reflexivity|]. split; [done|]. cbn. intros at_ [= <-]. eexists. split; [left|done].
        -- exists c. split; [done|]. split; [done|]. intros at_ Ea. destruct (Hls at_ Ea) as (l & ? & ?). exists l. split; [by right|done].
    + intros packet' a [= <-] Ha. rewrite Hdec in Ha. injection Ha as <-. done.
  - destruct E as [Hs' Hlp]. split; [|done]. exists hist. split.
    + eapply spaced_mono; [|apply Hst]. lia.
    + rewrite Hlp. apply Hst.
    + right. exists t0. by rewrite Hs'.
Qed.

Lemma runs_starved s t sent :
  lsd_runs s t sent -> (exists hist, starved s t hist) /\ forall packet a, packet ∈ sent -> decode packet = Ok a -> h ∉ sa_info_hashes a.
Proof.
  induction 1 as [t|s t sent port now sent_at ok s' p _ [[hist Hst] IH] Hnow Hsent Hport E].
  - split; [|intros ? ? Hin; by apply not_elem_of_nil in Hin]. exists []. split; [done|done|by left].
  - destruct (starved_round _ _ _ _ _ _ _ _ _ Hst Hnow Hsent Hport E) as [Hst' Hp]. split; [done|]. intros packet a Hin Ha.
    apply elem_of_app in Hin as [Hin|Hin]; [by eapply IH|]. destruct p as [p|]; [|by apply not_elem_of_nil in Hin].
    apply list_elem_of_singleton in Hin as ->. by eapply Hp.
Qed.
End Starvation.

(** With more than 125 torrents, some are never announced.  A torrent whose hash has
    at least 125 smaller ones in the session never appears in a datagram, however long
    the session runs and whenever its rounds are: a datagram has room for 25 and one is
    sent a minute, so the smaller hashes are due again, and first in order, before its
    turn comes. *)
Theorem lsd_starves_torrents random cur low h s t sent :
  length random = 8%nat -> wf_bytes random -> Forall wf_hash cur -> h ∈ cur ->
  NoDup low -> (125 <= length low)%nat -> (forall x, x ∈ low -> x ∈ cur /\ cmp_list x h = Lt) ->
  lsd_runs random cur s t sent ->
  forall packet a, packet ∈ sent -> decode packet = Ok a -> h ∉ sa_info_hashes a.
Proof.
  intros Hr Hw Hc Hh Hn Hl Hs H. exact (proj2 (runs_starved random cur low h Hr Hw Hc Hh Hn Hl Hs s t sent H)).
Qed.
