(* ===== verification/FormText.v ===== *)
(** * The texts of forms (crates/server/src/qbittorrent.rs, api.rs)

    Numbers, flags, hashes and lists in the fields of requests, with the parsers of
    the standard library they use ([i64], [f64]). *)

From Stdlib Require Import SpecFloat String.
From S2P Require Import Prelude Utf8 Bencode Text Value Float ExtHandshake IpFilter Magnet Lsd Priority.

(** ** Numbers *)

(** [parse::<i64>()]: an optional sign and digits. *)
Definition parse_int (s : bytes) : option i64 :=
  match s with
  | [] => None
  | c :: digits =>
      if c =? 45 then match digits with [] => None | _ => Z.opp <$> parse_dec (I64_MAX + 1) 0 digits end
      else parse_uint I64_MAX s
  end.

Fixpoint span (p : u8 -> bool) (s : bytes) : bytes * bytes :=
  match s with
  | c :: rest => if p c then let '(a, b) := span p rest in (c :: a, b) else ([], s)
  | [] => ([], [])
  end.
Definition digits_value (ds : bytes) : Z := fold_left (fun acc c => acc * 10 + (c - 48)) ds 0.

(** The double nearest to [m * 10 ^ e], halves to even.  For a negative exponent the
    quotient has enough bits that one more, set when there is a rest, decides. *)
Definition f64_decimal (neg : bool) (m e : Z) : f64 :=
  let signed n := if neg then - n else n in
  if m =? 0 then S754_zero neg
  else if 0 <=? e then binary_normalize 53 1024 (signed (m * 10 ^ e)) 0 neg
  else
    let s := 4 * (- e) + 64 in
    let n := m * 2 ^ s in
    let d := 10 ^ (- e) in
    let q := 2 * (n / d) + (if n mod d =? 0 then 0 else 1) in
    binary_normalize 53 1024 (signed q) (- (s + 1)) neg.

(** The sign of an exponent or number. *)
Definition sign_of (s : bytes) : bool * bytes :=
  match s with c :: rest => if c =? 45 then (true, rest) else if c =? 43 then (false, rest) else (false, s) | [] => (false, []) end.

(** [parse::<f64>()] *)
Definition parse_f64 (s : bytes) : option f64 :=
  let '(neg, s) := sign_of s in
  let '(int, rest) := span is_ascii_digit s in
  let '(frac, rest) := match rest with c :: r => if c =? 46 then span is_ascii_digit r else ([], rest) | [] => ([], []) end in
  match int ++ frac with
  | [] =>
      let word := to_ascii_lowercase s in
      if bool_decide (word = str "inf") || bool_decide (word = str "infinity") then Some (S754_infinity neg)
      else if bool_decide (word = str "nan") then Some S754_nan
      else None
  | ds =>
      let m := digits_value ds in
      let shift := - Z.of_nat (length frac) in
      match rest with
      | [] => Some (f64_decimal neg m shift)
      | c :: rest =>
          if (c =? 101) || (c =? 69) then
            let '(eneg, rest) := sign_of rest in
            match span is_ascii_digit rest with
            | ([], _) | (_, _ :: _) => None
            | (es, []) => let e := digits_value es in Some (f64_decimal neg m (shift + if eneg then - e else e))
            end
          else None
      end
  end.

Definition is_finite (x : f64) : bool := match x with S754_zero _ | S754_finite _ _ _ => true | _ => false end.

(** [x as u64]: toward zero, within range. *)
Definition trunc_as_u64 (x : f64) : u64 :=
  match x with
  | S754_finite s m e => Z.max 0 (Z.min U64_MAX (let '(n, d) := scaled m e 1 in if s then - (n / d) else n / d))
  | S754_infinity false => U64_MAX
  | _ => 0
  end.

(** ** Fields *)

Definition parse_bool (value : bytes) : option bool :=
  let text := to_ascii_lowercase (trim_str value) in
  if bool_decide (text ∈ [str "true"; str "1"; str "yes"; str "on"]) then Some true
  else if bool_decide (text ∈ [str "false"; str "0"; str "no"; str "off"]) then Some false
  else None.

Definition parse_byte_limit (value : bytes) : option u64 :=
  value ← parse_int (trim_str value); Some (if value <? 0 then 0 else value).

(** [1e-9] *)
Definition EPSILON : f64 := f64_decimal false 1 (-9).

(** [None] inherits the limit of the session, zero is no limit. *)
Definition parse_ratio_limit (value : bytes) : option (option f64) :=
  value ← parse_f64 (trim_str value);
  if negb (is_finite value) then None
  else if f64_ltb (SFabs (f64_add value (f64_of 2))) EPSILON then Some None
  else if f64_ltb (SFabs (f64_add value (f64_of 1))) EPSILON then Some (Some f64_zero)
  else if f64_ltb value f64_zero then None
  else Some (Some value).

Definition parse_seed_minutes (value : bytes) : option (option u64) :=
  value ← parse_int (trim_str value);
  if value =? -2 then Some None
  else if value =? -1 then Some (Some 0)
  else if 0 <=? value then Some (Some value)
  else None.

(** A value of a JSON object as far as it matters: numbers are read with
    [as_f64]. *)
Inductive JValue := JNumber (x : f64) | JString (s : bytes) | JOther.

Definition json_limit (value : JValue) : option u64 :=
  number ← match value with JNumber x => Some x | JString text => parse_f64 (trim_str text) | JOther => None end;
  if negb (is_finite number) then None
  else Some (if f64_ltb number f64_zero then 0 else trunc_as_u64 number).

Definition nonempty_text (text : bytes) : option bytes := match trim_str text with [] => None | trimmed => Some trimmed end.
Definition nonempty (value : option bytes) : option bytes := value ≫= nonempty_text.

(** The parts between separators, trimmed, the empty ones left out. *)
Definition split_parts (p : u8 -> bool) (text : bytes) : list bytes := omap nonempty_text (split_on p text).
Definition is_newline (c : u8) : bool := (c =? 10) || (c =? 13).
Definition split_urls (urls : bytes) : list bytes := split_parts is_newline urls.
Definition split_tags (text : bytes) : list bytes := split_parts (Z.eqb 44) text.
Definition split_list (text : bytes) : list bytes := split_parts (fun c => (c =? 124) || is_newline c) text.

(** [parse_id] of [api.rs]; that of [qbittorrent.rs] trims the text before. *)
Definition parse_hash (hash : bytes) : option bytes :=
  if (length hash =? 40)%nat && forallb is_ascii_hexdigit hash then match hex_pairs hash with Ok id => Some id | Err _ => None end
  else None.
Definition parse_id (hash : bytes) : option bytes := parse_hash (trim_str hash).

Definition from_qb_prio (priority : i64) : FilePriority :=
  if priority <=? 0 then Skip else if 6 <=? priority then High else Normal.
Definition to_qb_prio (priority : FilePriority) : i64 :=
  match priority with Skip => 0 | Low | Normal => 1 | High => 6 end.

Definition priority_name (priority : FilePriority) : bytes :=
  match priority with Skip => str "skip" | Low => str "low" | Normal => str "normal" | High => str "high" end.
Definition parse_priority (text : bytes) : option FilePriority :=
  let text := to_ascii_lowercase (trim_str text) in
  if decide (text = str "skip") then Some Skip
  else if decide (text = str "low") then Some Low
  else if decide (text = str "normal") then Some Normal
  else if decide (text = str "high") then Some High
  else None.

Example parse_f64_examples :
  map (fun s => parse_f64 (str s)) ["0.1"; "-2"; "1e-9"; "2.5E+1"; ".5"; "5."; "1e400"; "-InF"; "4e-324"; "9007199254740993"]%string =
  [Some (S754_finite false 7205759403792794 (-56)); Some (f64_of (-2)); Some (S754_finite false 4835703278458517 (-82));
   Some (f64_of 25); Some (f64_div (f64_of 1) (f64_of 2)); Some (f64_of 5); Some (S754_infinity false); Some (S754_infinity true);
   Some (S754_finite false 1 (-1074)); Some (f64_of 9007199254740992)] /\
  map (fun s => parse_f64 (str s)) [EmptyString; "."; "1e"; "e1"; "1.2.3"; "--1"; "+"; " 1"]%string = replicate 8 None.
Proof. split; by vm_compute. Qed.

Example form_examples :
  map (fun s => parse_int (str s)) ["-5"; "+7"; "-9223372036854775808"; "9223372036854775807"]%string =
    [Some (-5); Some 7; Some (- I64_MAX - 1); Some I64_MAX] /\
  map (fun s => parse_int (str s)) [EmptyString; "-"; "+"; "-+5"; "1x"; "9223372036854775808"]%string = replicate 6 None /\
  map (fun s => parse_ratio_limit (str s)) ["-2"; "-1.0"; " 1.5 "; "-0.5"; "nan"]%string =
    [Some None; Some (Some f64_zero); Some (Some (f64_div (f64_of 3) (f64_of 2))); None; None] /\
  map json_limit [JNumber (f64_of 1024); JString (str "10.9"); JNumber (f64_of (-1)); JOther] = [Some 1024; Some 10; Some 0; None] /\
  split_list (str " a| b ||c ") = [str "a"; str "b"; str "c"].
Proof. split_and!; by vm_compute. Qed.

(** ** Reading back what is printed *)

Lemma trim_str_plain s : Forall (fun c => is_ascii c /\ is_whitespace c = false) s -> trim_str s = s.
Proof.
  intros H. unfold trim_str. rewrite utf8_chars_ascii by (eapply Forall_impl; [exact H|by intros c []]).
  unfold trim, trim_end.
  rewrite (trim_start_plain s), (trim_start_plain (rev s)), rev_involutive; [|apply Forall_rev|]; try (eapply Forall_impl; [exact H|by intros c []]).
  apply utf8_encode_ascii. eapply Forall_impl; [exact H|by intros c []].
Qed.

(** A hash in hexadecimal digits, with spaces around it or not. *)
Lemma parse_id_hex id : wf_hash id -> parse_id (hex_info_hash id) = Some id.
Proof.
  intros [Hl Hw]. destruct (hex_plain id Hw) as (Hp & Hd & _). unfold parse_id. rewrite trim_str_plain by (eapply Forall_impl; [exact Hp|by intros c (? & ? & ?)]).
  unfold parse_hash. rewrite length_hex_hash, Hl, Hd. cbn [Nat.mul Nat.add Nat.eqb andb]. by rewrite hex_pairs_hex.
Qed.

Lemma hex_hash_trim id : wf_hash id -> trim_str (hex_info_hash id) = hex_info_hash id.
Proof. intros [_ Hw]. destruct (hex_plain id Hw) as (Hp & _). apply trim_str_plain. eapply Forall_impl; [exact Hp|by intros c (? & ? & ?)]. Qed.

(** Hashes joined with bars. *)
Definition join_bars (ids : list bytes) : bytes :=
  match map hex_info_hash ids with [] => [] | h :: hs => concat (h :: map (cons 124) hs) end.

Lemma hex_lacks_bar id : wf_hash id -> lacks 124 (hex_info_hash id).
Proof.
  intros [_ Hw]. eapply Forall_impl; [exact (hex_hash_chars id Hw)|]. intros c [Hc _]. apply Z.eqb_neq.
  unfold is_unreserved, is_ascii_digit in Hc. lia.
Qed.

Lemma split_join_bars ids : ids <> [] -> Forall wf_hash ids -> split_on (Z.eqb 124) (join_bars ids) = map hex_info_hash ids.
Proof.
  intros Hn H. unfold join_bars. destruct H as [|id ids Hid H]; [done|]. cbn [map]. apply split_on_join.
  constructor; [by apply hex_lacks_bar|]. apply Forall_fmap. eapply Forall_impl; [exact H|apply hex_lacks_bar].
Qed.

(** Reading a priority back loses only [Low]: it is shown as 1 and read as normal. *)
Lemma qb_prio_roundtrip prio : from_qb_prio (to_qb_prio prio) = match prio with Low => Normal | _ => prio end.
Proof. by destruct prio. Qed.

Lemma priority_name_roundtrip prio : parse_priority (priority_name prio) = Some prio.
Proof. destruct prio; by vm_compute. Qed.

(** What [parse_int] reads is an [i64]. *)
Lemma parse_int_range s n : parse_int s = Some n -> is_i64 n.
Proof.
  unfold parse_int, is_i64. destruct s as [|c digits]; [done|]. destruct (c =? 45).
  - destruct digits as [|d ds]; [done|]. destruct (parse_dec _ _ _) as [v|] eqn:E; [|done]. intros [= <-].
    apply parse_dec_range in E; unfold I64_MAX in *; lia.
  - intros H%parse_uint_range; unfold I64_MAX in *; lia.
Qed.

Lemma parse_byte_limit_range value limit : parse_byte_limit value = Some limit -> 0 <= limit <= I64_MAX.
Proof.
  unfold parse_byte_limit. destruct (parse_int _) as [v|] eqn:E; red_bind; [|done]. apply parse_int_range in E. unfold is_i64, I64_MAX in *.
  destruct (Z.ltb_spec v 0); intros [= <-]; lia.
Qed.

Lemma trunc_as_u64_range x : is_u64 (trunc_as_u64 x).
Proof. unfold trunc_as_u64, is_u64, U64_MAX. destruct x as [|[]| |s m e]; try (split; [done|vm_compute; done]); lia. Qed.

Lemma json_limit_range value limit : json_limit value = Some limit -> is_u64 limit.
Proof.
  unfold json_limit. destruct (match value with JNumber x => _ | _ => _ end) as [x|]; red_bind; [|done]. destruct (negb _); [done|].
  intros [= <-]. destruct (f64_ltb _ _); [by unfold is_u64, U64_MAX|apply trunc_as_u64_range].
Qed.
