(* ===== verification/Auth.v ===== *)
(** * Who may use the HTTP interface (crates/server/src/auth.rs, password.rs, lib.rs)

    The login of both interfaces (the native one and that of [qbittorrent.rs]), the
    store of session ids, the middleware in front of every request, the comparison
    of secrets and the password file. *)

From S2P Require Import Prelude Utf8 Bencode Text Value Magnet Lsd FormText.

Definition COOKIE_NAME : bytes := str "SID".
Definition SESSION_TTL : Duration := secs (24 * 60 * 60).
Definition MAX_AGE_SECS : u64 := 24 * 60 * 60.

(** ** The store of session ids *)

Abbreviation SessionStore := (gmap bytes Instant).

Definition store_insert (sid : bytes) (now : Instant) (entries : SessionStore) : SessionStore :=
  <[sid := now + SESSION_TTL]> entries.

(** The clock is read for the comparison and again for the new expiry. *)
Definition touch (sid : bytes) (now later : Instant) (entries : SessionStore) : bool * SessionStore :=
  match entries !! sid with
  | None => (false, entries)
  | Some expiry =>
      if expiry <=? now then (false, delete sid entries)
      else (true, <[sid := later + SESSION_TTL]> entries)
  end.

Definition store_remove (sid : bytes) (entries : SessionStore) : SessionStore := delete sid entries.

(** ** Requests and responses

    A request as the handlers see it: [rq_header] is [headers.get(name)] with
    [to_str]. *)
Record Request := mkRequest {
  rq_method : bytes; rq_path : bytes; rq_query : option bytes; rq_header : bytes -> option bytes; rq_body : bytes }.

(** What is sent back: the status, the redirection, the cookie set, and the body. *)
Inductive Body := Text (text : bytes) | JsonOk | JsonError (message : bytes) | Payload.
Record Response := mkResponse {
  rs_status : Z; rs_location : option bytes; rs_set_cookie : option bytes; rs_body : Body }.

Definition respond (status : Z) (body : Body) : Response := mkResponse status None None body.
Definition redirect (location : bytes) : Response := mkResponse 303 (Some location) None (Text []).
Definition plain_text (text : string) : Response := respond 200 (Text (str text)).
Definition forbidden : Response := respond 403 (JsonError (str "forbidden")).

(** The names of headers in [axum::http::header]. *)
Definition COOKIE : bytes := str "cookie".
Definition CONTENT_TYPE : bytes := str "content-type".

Fixpoint find_cookie (name : bytes) (parts : list bytes) : option bytes :=
  match parts with
  | [] => None
  | part :: parts =>
      let item := trim_str part in
      let '(key, value) := default (item, []) (split_once 61 item) in
      if decide (key = name) then Some value else find_cookie name parts
  end.

Definition cookie_value (rq : Request) (name : bytes) : option bytes :=
  header ← rq_header rq COOKIE; find_cookie name (split_on (Z.eqb 59) header).

Definition session_cookie (sid : bytes) : bytes :=
  COOKIE_NAME ++ str "=" ++ sid ++ str "; HttpOnly; SameSite=Lax; Path=/; Max-Age=" ++ to_string MAX_AGE_SECS.
Definition clear_cookie : bytes := COOKIE_NAME ++ str "=; HttpOnly; SameSite=Lax; Path=/; Max-Age=0".

(** 32 random bytes in hexadecimal digits. *)
Definition new_sid (random : bytes) : bytes := hex_info_hash random.

Definition is_form (rq : Request) : bool :=
  starts_with (str "application/x-www-form-urlencoded") (default [] (rq_header rq CONTENT_TYPE)).

Definition is_public_api (path : bytes) : bool :=
  bool_decide (path ∈ [str "/api/v1/login"; str "/api/v1/logout"; str "/api/v2/auth/login"; str "/api/v2/auth/logout";
                       str "/api/v2/app/webapiVersion"]).

(** ** Passwords *)

(** No branch depends on the bytes; a missing byte counts as zero. *)
Definition constant_time_eq (left right : bytes) : bool :=
  let diff := Z.lxor (Z.of_nat (length left)) (Z.of_nat (length right)) in
  let len := Nat.max (length left) (length right) in
  fold_left (fun diff index => Z.lor diff (Z.lxor (nth index left 0) (nth index right 0))) (seq 0 len) diff =? 0.

Definition ALPHABET : bytes := str "abcdefghijklmnopqrstuvwxyzABCDEFGHIJKLMNOPQRSTUVWXYZ0123456789".
Definition GENERATED_LEN : nat := 24.

(** [indices] are the random choices, [gen_range(0..ALPHABET.len())]. *)
Definition generate_password (len : nat) (indices : nat -> nat) : bytes :=
  map (fun i => nth (indices i) ALPHABET 0) (seq 0 len).

(** [ensure_password]: [toml_read] and [toml_write] are the codec of the one-field
    file, [file] its contents when it exists, [reads] and [writes] whether the calls
    of the file system succeed ([writes]: all of [create_dir_all] and
    [write_secret], of which the rename is the last).  The result is the password
    and the file afterwards. *)
Definition ensure_password (toml_read : bytes -> option bytes) (toml_write : bytes -> option bytes) (configured : bytes)
    (file : option bytes) (reads writes : bool) (indices : nat -> nat) : option bytes * option bytes :=
  match configured with
  | _ :: _ => (Some configured, file)
  | [] =>
      match file with
      | Some text =>
          (match (if reads then toml_read text else None) with
           | Some [] | None => None
           | Some password => Some password
           end, file)
      | None =>
          let password := generate_password GENERATED_LEN indices in
          match toml_write password with
          | Some text => if writes then (Some password, Some text) else (None, None)
          | None => (None, None)
          end
      end
  end.

Record Credentials := mkCredentials { username : bytes; password : bytes }.
#[export] Instance Credentials_eq_dec : EqDecision Credentials.
Proof. solve_decision. Defined.

(** ** The handlers and the middleware *)

Section Server.
(** The decoders of forms and JSON bodies ([serde_urlencoded], [serde_json]), the
    texts that are header values, and the configuration. *)
Context (urlencoded json : bytes -> option Credentials) (header_value : bytes -> bool).
Context (config : Credentials) (qbittorrent_compat : bool).

Definition set_cookie (cookie : bytes) (r : Response) : Response :=
  if header_value cookie then mkResponse (rs_status r) (rs_location r) (Some cookie) (rs_body r) else r.

Definition parse_credentials (rq : Request) : option Credentials :=
  if is_form rq then urlencoded (rq_body rq) else json (rq_body rq).

Definition credentials_ok (creds : Credentials) : bool :=
  let user_ok := constant_time_eq (username creds) (username config) in
  let pass_ok := constant_time_eq (password creds) (password config) in
  user_ok && pass_ok.

Definition login (random : bytes) (now : Instant) (rq : Request) (entries : SessionStore) : Response * SessionStore :=
  match parse_credentials rq with
  | None => (respond 400 (JsonError (str "username and password are required")), entries)
  | Some creds =>
      if negb (credentials_ok creds) then
        (if is_form rq then redirect (str "/login?error=1") else respond 401 (JsonError (str "invalid credentials")), entries)
      else
        let sid := new_sid random in
        let response := if is_form rq then redirect (str "/") else respond 200 JsonOk in
        (set_cookie (session_cookie sid) response, store_insert sid now entries)
  end.

Definition logout_entries (rq : Request) (entries : SessionStore) : SessionStore :=
  match cookie_value rq COOKIE_NAME with Some sid => store_remove sid entries | None => entries end.

Definition logout (rq : Request) (entries : SessionStore) : Response * SessionStore :=
  (set_cookie clear_cookie (respond 200 JsonOk), logout_entries rq entries).

(** The same of [qbittorrent.rs]: the body is always a form, and every failure is
    the text [Fails.]. *)
Definition qb_login (random : bytes) (now : Instant) (rq : Request) (entries : SessionStore) : Response * SessionStore :=
  match urlencoded (rq_body rq) with
  | None => (plain_text "Fails.", entries)
  | Some creds =>
      if negb (credentials_ok creds) then (plain_text "Fails.", entries)
      else
        let sid := new_sid random in
        (set_cookie (session_cookie sid) (plain_text "Ok."), store_insert sid now entries)
  end.

Definition qb_logout (rq : Request) (entries : SessionStore) : Response * SessionStore :=
  (set_cookie clear_cookie (plain_text "Ok."), logout_entries rq entries).

(** The routes that touch the store, [mount] of [api.rs] and of [qbittorrent.rs]. *)
Inductive Route := RLogin | RLogout | RQbLogin | RQbLogout | ROther.
Definition route (rq : Request) : Route :=
  if negb (bool_decide (rq_method rq = str "POST")) then ROther
  else if decide (rq_path rq = str "/api/v1/login") then RLogin
  else if decide (rq_path rq = str "/api/v1/logout") then RLogout
  else if negb qbittorrent_compat then ROther
  else if decide (rq_path rq = str "/api/v2/auth/login") then RQbLogin
  else if decide (rq_path rq = str "/api/v2/auth/logout") then RQbLogout
  else ROther.

(** [next.run(request)]: [inner] is what the other handlers answer. *)
Definition next_run (random : bytes) (now : Instant) (inner : Response) (rq : Request) (entries : SessionStore) : Response * SessionStore :=
  match route rq with
  | RLogin => login random now rq entries
  | RLogout => logout rq entries
  | RQbLogin => qb_login random now rq entries
  | RQbLogout => qb_logout rq entries
  | ROther => (inner, entries)
  end.

(** The first component tells whether the request got past the middleware. *)
Definition require_api_auth (random : bytes) (now later : Instant) (inner : Response) (rq : Request) (entries : SessionStore)
    : bool * Response * SessionStore :=
  let path := rq_path rq in
  if negb (starts_with (str "/api/") path) || is_public_api path then
    let '(response, entries) := next_run random now inner rq entries in (true, response, entries)
  else match cookie_value rq COOKIE_NAME with
  | None => (false, forbidden, entries)
  | Some sid =>
      let '(fresh, entries) := touch sid now later entries in
      if negb fresh then (false, forbidden, entries)
      else
        let '(response, entries) := next_run random now inner rq entries in
        (true, set_cookie (session_cookie sid) response, entries)
  end.

(** *** The server over time *)

(** A request that was served: the times, the random bytes and what the other
    handlers would answer. *)
Record Entry := mkEntry {
  en_now : Instant; en_later : Instant; en_random : bytes; en_inner : Response; en_request : Request }.

Definition serve (e : Entry) (entries : SessionStore) : bool * Response * SessionStore :=
  require_api_auth (en_random e) (en_now e) (en_later e) (en_inner e) (en_request e) entries.

(** The store after the requests of a log, the latest first; at the start it is
    empty. *)
Fixpoint store_after (log : list Entry) : SessionStore :=
  match log with [] => ∅ | e :: log => snd (serve e (store_after log)) end.

(** ** What the log alone says

    The session id a request is given: it shows the configured name and password. *)
Definition logs_in (e : Entry) : option bytes :=
  let shown := match route (en_request e) with
               | RLogin => parse_credentials (en_request e)
               | RQbLogin => urlencoded (rq_body (en_request e))
               | _ => None
               end in
  if decide (shown = Some config) then Some (new_sid (en_random e)) else None.

Definition logs_out (e : Entry) : option bytes :=
  match route (en_request e) with RLogout | RQbLogout => cookie_value (en_request e) COOKIE_NAME | _ => None end.

Definition needs_session (rq : Request) : bool := starts_with (str "/api/") (rq_path rq) && negb (is_public_api (rq_path rq)).

(** When a session id was last used: from the login on, and as long as no use comes
    24 hours or more after the one before. *)
Fixpoint last_used (sid : bytes) (log : list Entry) : option Instant :=
  match log with
  | [] => None
  | e :: log =>
      let before := last_used sid log in
      if decide (logs_in e = Some sid) then Some (en_now e)
      else if decide (logs_out e = Some sid) then None
      else if needs_session (en_request e) && bool_decide (cookie_value (en_request e) COOKIE_NAME = Some sid) then
        used ← before; if en_now e <? used + SESSION_TTL then Some (en_later e) else None
      else before
  end.
End Server.

(** ** Secrets *)

Lemma fold_lor_zero {A} (f : A -> Z) (l : list A) (acc : Z) :
  fold_left (fun d x => Z.lor d (f x)) l acc = 0 <-> acc = 0 /\ Forall (fun x => f x = 0) l.
Proof.
  revert acc. induction l as [|x l IH]; intros acc; cbn [fold_left]; [by split; [|intros []]|].
  rewrite IH, Z.lor_eq_0_iff, Forall_cons. tauto.
Qed.

(** The comparison without early exit is equality. *)
Lemma constant_time_eq_exact left right : constant_time_eq left right = bool_decide (left = right).
Proof.
  apply Bool.eq_iff_eq_true. rewrite bool_decide_eq_true. unfold constant_time_eq.
  rewrite Z.eqb_eq, fold_lor_zero, Z.lxor_eq_0_iff. split.
  - intros [Hlen H]. assert (length left = length right) as Hl by lia.
    apply (nth_ext left right 0 0 Hl). intros i Hi. rewrite Forall_forall in H.
    apply Z.lxor_eq_0_iff. apply H, elem_of_seq. lia.
  - intros ->. split; [done|]. apply Forall_forall. intros i _. apply Z.lxor_nilpotent.
Qed.

Lemma nth_alphabet i : (i < 62)%nat -> nth i ALPHABET 0 ∈ ALPHABET.
Proof. intros Hi. apply list_elem_of_In, nth_In. exact Hi. Qed.

(** The password is never empty, the configured one comes first, a generated one has
    24 letters and digits, and with a file system that works the next start finds
    the same. *)
Lemma ensure_password_spec read write configured file reads writes indices pw file' :
  (forall pw text, write pw = Some text -> read text = Some pw) -> (forall i, (indices i < 62)%nat) ->
  ensure_password read write configured file reads writes indices = (Some pw, file') ->
  pw <> [] /\ (configured <> [] -> pw = configured) /\
  (forall indices' writes', ensure_password read write configured file' true writes' indices' = (Some pw, file')) /\
  (configured = [] -> file = None -> length pw = 24%nat /\ Forall (fun b => b ∈ ALPHABET) pw).
Proof.
  intros Hrw Hi. unfold ensure_password. destruct configured as [|c cs].
  2: { intros [= <- <-]. done. }
  assert (Hgen : length (generate_password GENERATED_LEN indices) = 24%nat) by (unfold generate_password; by rewrite length_map, length_seq).
  destruct file as [text|].
  - destruct reads; [|done]. destruct (read text) as [[|b pw']|] eqn:Er; try done. intros [= <- <-]. rewrite Er. done.
  - destruct (write _) as [text|] eqn:Ew; [|done]. destruct writes; [|done]. intros [= <- <-].
    rewrite (Hrw _ _ Ew). destruct (generate_password GENERATED_LEN indices) as [|b pw'] eqn:Eg; [done|].
    split; [done|]. split; [done|]. split; [done|]. intros _ _. split; [done|]. rewrite <- Eg.
    apply Forall_fmap, Forall_forall. intros i _. by apply nth_alphabet.
Qed.

(** ** Cookies *)

Lemma sid_plain random : wf_bytes random -> Forall plain (new_sid random).
Proof. intros H. apply (hex_plain _ H). Qed.

(** The cookie a browser sends back, alone or before others, gives the session id
    that was set. *)
Lemma session_cookie_returned random rest rq :
  wf_bytes random -> rest = [] \/ (exists tl, rest = 59 :: tl) ->
  rq_header rq COOKIE = Some (COOKIE_NAME ++ str "=" ++ new_sid random ++ rest) ->
  cookie_value rq COOKIE_NAME = Some (new_sid random).
Proof.
  intros Hr Hrest Hh. pose proof (sid_plain _ Hr) as Hp.
  pose proof (hex_hash_chars _ Hr) as Hu. change (hex_info_hash random) with (new_sid random) in Hu.
  set (item := COOKIE_NAME ++ str "=" ++ new_sid random).
  assert (Hplain : Forall (fun c => is_ascii c /\ is_whitespace c = false) item).
  { apply Forall_app_2; [by repeat constructor|]. apply Forall_app_2; [by repeat constructor|].
    eapply Forall_impl; [exact Hp|by intros c (? & ? & ?)]. }
  assert (Hlacks : lacks 59 item).
  { apply Forall_app_2; [by repeat constructor|]. apply Forall_app_2; [by repeat constructor|].
    eapply Forall_impl; [exact Hu|]. intros c [Hc _]. unfold is_unreserved, is_ascii_digit in Hc. lia. }
  assert (Hsplit : exists parts, split_on (Z.eqb 59) (item ++ rest) = item :: parts).
  { destruct Hrest as [->|[tl ->]]; [rewrite app_nil_r, split_on_lacks by done; by eexists|rewrite split_on_first by done; by eexists]. }
  destruct Hsplit as [parts Hsplit]. unfold cookie_value. rewrite Hh. red_bind.
  replace (COOKIE_NAME ++ str "=" ++ new_sid random ++ rest) with (item ++ rest) by (unfold item; by rewrite <- !app_assoc).
  rewrite Hsplit. cbn [find_cookie]. rewrite trim_str_plain by done.
  unfold item. change (COOKIE_NAME ++ str "=" ++ new_sid random) with (COOKIE_NAME ++ 61 :: new_sid random).
  by rewrite split_once_first by (by repeat constructor).
Qed.

(** ** Sessions *)

Section Proofs.
Context (urlencoded json : bytes -> option Credentials) (header_value : bytes -> bool).
Context (config : Credentials) (qbittorrent_compat : bool).

Abbreviation serve := (serve urlencoded json header_value config qbittorrent_compat).
Abbreviation store_after := (store_after urlencoded json header_value config qbittorrent_compat).
Abbreviation logs_in := (logs_in urlencoded json config qbittorrent_compat).
Abbreviation logs_out := (logs_out qbittorrent_compat).
Abbreviation last_used := (last_used urlencoded json config qbittorrent_compat).
Abbreviation route := (route qbittorrent_compat).

Lemma credentials_ok_exact creds : credentials_ok config creds = bool_decide (Some creds = Some config).
Proof.
  unfold credentials_ok. rewrite !constant_time_eq_exact. destruct creds, config; cbn [username password].
  repeat case_bool_decide; naive_solver.
Qed.

(** The four routes that change the store are reached without a session. *)
Lemma needs_session_other rq : needs_session rq = true -> route rq = ROther.
Proof.
  unfold needs_session, route. intros [_ H]%andb_true_iff.
  apply negb_true_iff in H. destruct (bool_decide (rq_method rq = str "POST")); cbn [negb]; [|done].
  assert (Hp : forall p, is_public_api p = true -> rq_path rq <> p) by (intros p Hp Heq; by rewrite Heq, Hp in H).
  destruct (negb qbittorrent_compat); repeat (rewrite decide_False by (apply Hp; by vm_compute)); done.
Qed.

Lemma middleware_cases e entries :
  serve e entries =
  if needs_session (en_request e) then
    match cookie_value (en_request e) COOKIE_NAME with
    | None => (false, forbidden, entries)
    | Some sid =>
        let '(fresh, entries) := touch sid (en_now e) (en_later e) entries in
        if fresh then (true, set_cookie header_value (session_cookie sid) (en_inner e), entries) else (false, forbidden, entries)
    end
  else
    let '(response, entries) := next_run urlencoded json header_value config qbittorrent_compat (en_random e) (en_now e) (en_inner e) (en_request e) entries in
    (true, response, entries).
Proof.
  unfold serve, require_api_auth.
  replace (negb (starts_with (str "/api/") (rq_path (en_request e))) || is_public_api (rq_path (en_request e)))
    with (negb (needs_session (en_request e))) by (unfold needs_session; rewrite negb_andb; f_equal; apply negb_involutive).
  destruct (needs_session (en_request e)) eqn:En; cbn [negb]; [|done].
  destruct (cookie_value _ _) as [sid|]; [|done]. destruct (touch _ _ _ _) as [[] entries']; cbn [negb]; [|done].
  unfold next_run. by rewrite needs_session_other.
Qed.

Lemma expiry_insert (m : SessionStore) (used : bytes -> option Instant) sid sid' (t : Instant) :
  (forall sid, m !! sid = (fun u => u + SESSION_TTL) <$> used sid) ->
  (<[sid := t + SESSION_TTL]> m : SessionStore) !! sid' =
  (fun u => u + SESSION_TTL) <$> (if decide (Some sid = Some sid') then Some t else used sid').
Proof.
  intros H. destruct (decide (sid = sid')) as [->|Hne]; [by rewrite lookup_insert_eq, decide_True|].
  by rewrite lookup_insert_ne, decide_False by congruence.
Qed.

Lemma expiry_delete (m : SessionStore) (used : bytes -> option Instant) sid sid' :
  (forall sid, m !! sid = (fun u => u + SESSION_TTL) <$> used sid) ->
  (delete sid m : SessionStore) !! sid' = (fun u => u + SESSION_TTL) <$> (if decide (Some sid = Some sid') then None else used sid').
Proof.
  intros H. destruct (decide (sid = sid')) as [->|Hne]; [by rewrite lookup_delete_eq, decide_True|].
  by rewrite lookup_delete_ne, decide_False by congruence.
Qed.

(** One request more: the store holds, for every id in use, when it ends. *)
Lemma store_step e log sid :
  (forall sid, store_after log !! sid = (fun u => u + SESSION_TTL) <$> last_used sid log) ->
  store_after (e :: log) !! sid = (fun u => u + SESSION_TTL) <$> last_used sid (e :: log).
Proof.
  intros IH. cbn [store_after last_used]. rewrite middleware_cases.
  set (m := store_after log) in *. destruct (needs_session (en_request e)) eqn:En; cbn [andb].
  - assert (logs_in e = None /\ logs_out e = None) as [-> ->].
    { unfold logs_in, logs_out. by rewrite (needs_session_other _ En). }
    rewrite !(decide_False (P := None = Some sid)) by done.
    destruct (cookie_value _ _) as [sid'|]; cbn [snd]; [|by rewrite bool_decide_false].
    unfold touch. rewrite IH. destruct (decide (sid' = sid)) as [->|Hne].
    + rewrite bool_decide_true by done. destruct (last_used sid log) as [u|] eqn:Eu; red_bind.
      2: { cbn [fmap option_fmap option_map snd]. by rewrite IH, Eu. }
      cbn [fmap option_fmap option_map]. destruct (Z.leb_spec (u + SESSION_TTL) (en_now e)); cbn [snd].
      * rewrite lookup_delete_eq, (proj2 (Z.ltb_ge _ _)) by done. done.
      * rewrite lookup_insert_eq, (proj2 (Z.ltb_lt _ _)) by done. done.
    + rewrite bool_decide_false by congruence. destruct (last_used sid' log) as [u|]; cbn [fmap option_fmap option_map]; [|apply IH].
      destruct (Z.leb_spec (u + SESSION_TTL) (en_now e)); cbn [snd]; [rewrite lookup_delete_ne|rewrite lookup_insert_ne]; done || apply IH.
  - unfold next_run, logs_in, logs_out. destruct (route (en_request e)); cbn [andb].
    + rewrite (decide_False (P := None = Some sid)) by done.
      unfold login. destruct (parse_credentials _ _ _) as [creds|]; [|rewrite (decide_False (P := None = Some config)) by done; by rewrite decide_False by done].
      rewrite credentials_ok_exact. case_bool_decide as Hc; cbn [negb snd].
      * rewrite (decide_True (P := Some creds = _)) by done. unfold store_insert. exact (expiry_insert m (fun s => last_used s log) _ _ _ IH).
      * rewrite (decide_False (P := Some creds = _)) by done. rewrite decide_False by done. apply IH.
    + rewrite (decide_False (P := None = Some config)) by done. rewrite (decide_False (P := None = Some sid)) by done.
      unfold logout, logout_entries. cbn [snd]. destruct (cookie_value _ _) as [sid'|]; [|by rewrite decide_False]. unfold store_remove. exact (expiry_delete m (fun s => last_used s log) _ _ IH).
    + rewrite (decide_False (P := None = Some sid)) by done.
      unfold qb_login. destruct (urlencoded _) as [creds|]; [|rewrite (decide_False (P := None = Some config)) by done; by rewrite decide_False by done].
      rewrite credentials_ok_exact. case_bool_decide as Hc; cbn [negb snd].
      * rewrite (decide_True (P := Some creds = _)) by done. unfold store_insert. exact (expiry_insert m (fun s => last_used s log) _ _ _ IH).
      * rewrite (decide_False (P := Some creds = _)) by done. rewrite decide_False by done. apply IH.
    + rewrite (decide_False (P := None = Some config)) by done. rewrite (decide_False (P := None = Some sid)) by done.
      unfold qb_logout, logout_entries. cbn [snd]. destruct (cookie_value _ _) as [sid'|]; [|by rewrite decide_False]. unfold store_remove. exact (expiry_delete m (fun s => last_used s log) _ _ IH).
    + rewrite (decide_False (P := None = Some config)) by done. rewrite !(decide_False (P := None = Some sid)) by done. apply IH.
Qed.

Lemma store_exact log sid : store_after log !! sid = (fun u => u + SESSION_TTL) <$> last_used sid log.
Proof.
  revert sid. induction log as [|e log IH]; intros sid; [apply lookup_empty|]. by apply store_step.
Qed.

(** An id in use was given for the configured name and password, and was not logged
    out since. *)
Lemma last_used_login sid log u :
  last_used sid log = Some u ->
  exists newer e older, log = newer ++ e :: older /\ logs_in e = Some sid /\ Forall (fun e => logs_out e <> Some sid) newer.
Proof.
  revert u. induction log as [|e log IH]; intros u; cbn [last_used]; [done|].
  case_decide as Hin; [by exists [], e, log|]. case_decide as Hout; [done|].
  assert (Hold : forall v, last_used sid log = Some v -> exists newer e' older,
    e :: log = newer ++ e' :: older /\ logs_in e' = Some sid /\ Forall (fun e => logs_out e <> Some sid) newer).
  { intros v Hv. destruct (IH v Hv) as (newer & e' & older & -> & H1 & H2). exists (e :: newer), e', older. by repeat constructor. }
  destruct (_ && _); [|apply Hold]. destruct (last_used sid log) as [v|]; [|done]. intros _. by apply (Hold v).
Qed.
End Proofs.

(** C19: a request to the interface gets past the middleware exactly when its path is
    public or it carries a session id whose last use is less than 24 hours ago,
    whatever requests came before; such an id was given in answer to the
    configured name and password and was not logged out since, and a request
    turned away gets status 403, sets no cookie and changes nothing that is in
    use. *)
Theorem auth_exact urlencoded json header_value config qbittorrent_compat log e :
  let store_after := store_after urlencoded json header_value config qbittorrent_compat in
  let last_used := last_used urlencoded json config qbittorrent_compat in
  let '(passed, response, entries) := serve urlencoded json header_value config qbittorrent_compat e (store_after log) in
  (passed = true <->
   needs_session (en_request e) = false \/
   exists sid used, cookie_value (en_request e) COOKIE_NAME = Some sid /\ last_used sid log = Some used /\ en_now e < used + SESSION_TTL) /\
  (forall sid used, last_used sid log = Some used ->
   exists newer l older, log = newer ++ l :: older /\ logs_in urlencoded json config qbittorrent_compat l = Some sid /\
     Forall (fun e => logs_out qbittorrent_compat e <> Some sid) newer) /\
  (passed = false -> rs_status response = 403 /\ rs_set_cookie response = None /\
   forall sid used, last_used sid log = Some used -> en_now e < used + SESSION_TTL -> entries !! sid = Some (used + SESSION_TTL)).
Proof.
  cbv zeta. rewrite middleware_cases. set (m := store_after _ _ _ _ _ log).
  assert (Hm : forall sid, m !! sid = (fun u => u + SESSION_TTL) <$> last_used urlencoded json config qbittorrent_compat sid log) by apply store_exact.
  assert (Hlog := last_used_login urlencoded json config qbittorrent_compat).
  destruct (needs_session (en_request e)).
  2: { destruct (next_run _ _ _ _ _ _ _ _ _ _) as [response entries]. split_and!; [by split; [left|]| |done]. intros sid used. apply Hlog. }
  destruct (cookie_value _ _) as [sid|].
  2: { split_and!; [by split; [|intros [|(? & ? & ? & _)]]|intros sid used; apply Hlog|]. intros _. split_and!; [done..|]. intros sid used Hu _. by rewrite Hm, Hu. }
  unfold touch. rewrite Hm. destruct (last_used _ _ _ _ sid log) as [u|] eqn:Eu; cbn [fmap option_fmap option_map].
  2: { split_and!; [split; [done|intros [|(? & ? & [= <-] & ? & _)]; congruence]|intros s used; apply Hlog|].
       intros _. split_and!; [done..|]. intros s used Hu _. by rewrite Hm, Hu. }
  destruct (Z.leb_spec (u + SESSION_TTL) (en_now e)) as [Hle|Hlt].
  - split_and!; [split; [done|intros [|(s & used & [= <-] & Hu & Hlt)]; [done|]]|intros s used; apply Hlog|].
    + rewrite Eu in Hu. injection Hu as <-. lia.
    + intros _. split_and!; [done..|]. intros s used Hu Hlt. rewrite lookup_delete_ne, Hm, Hu; [done|]. intros <-. rewrite Eu in Hu. injection Hu as <-. lia.
  - split_and!; [split; [intros _; right; by exists sid, u|done]|intros s used; apply Hlog|done].
Qed.

(** Concrete requests: the form decoder splits at the comma, the password is [pw]. *)
Definition example_form (body : bytes) : option Credentials :=
  match split_on (Z.eqb 44) body with [u; p] => Some (mkCredentials u p) | _ => None end.
Definition example_rq (method path : bytes) (cookie : option bytes) (body : bytes) : Request :=
  mkRequest method path None (fun name => if decide (name = COOKIE) then cookie else None) body.
Definition example_entry (now : Instant) (rq : Request) : Entry := mkEntry now now (replicate 32 171) (respond 200 Payload) rq.
Definition example_sid : bytes := new_sid (replicate 32 171).
Definition example_config : Credentials := mkCredentials (str "admin") (str "pw").
Definition example_serve := serve example_form example_form (fun _ => true) example_config true.
Definition example_store := store_after example_form example_form (fun _ => true) example_config true.
Definition example_cookie : option bytes := Some (str "theme=dark; SID=" ++ example_sid).
Definition example_login (body : bytes) : Entry := example_entry 0 (example_rq (str "POST") (str "/api/v2/auth/login") None body).
Definition example_list (now : Instant) : Entry := example_entry now (example_rq (str "GET") (str "/api/v1/torrents") example_cookie []).
Definition example_logout : Entry := example_entry 2 (example_rq (str "POST") (str "/api/v1/logout") example_cookie []).
Definition passes (log : list Entry) (e : Entry) : bool := fst (fst (example_serve e (example_store log))).

Example auth_runs :
  passes [] (example_list 1) = false /\
  passes [example_login (str "admin,pw")] (example_list 1) = true /\
  passes [example_login (str "admin,pw2")] (example_list 1) = false /\
  passes [example_logout; example_login (str "admin,pw")] (example_list 3) = false /\
  passes [example_login (str "admin,pw")] (example_list SESSION_TTL) = false /\
  passes [example_list (SESSION_TTL - 1); example_login (str "admin,pw")] (example_list SESSION_TTL) = true /\
  passes [] (example_entry 0 (example_rq (str "GET") (str "/app.js") None [])) = true.
Proof. split_and!; by vm_compute. Qed.
