(* ===== verification/SyncCache.v ===== *)
(** * The state that clients poll (crates/server/src/qbittorrent.rs, [SyncCache])

    [GET /api/v2/sync/maindata]: a client sends the number of the last answer it
    got, and gets what changed since, or everything.  The server keeps what it sent
    last, once for all clients.  What the clients do with the answers is the
    contract of the interface, and here the specification. *)

From S2P Require Import Prelude Lsd.

Section Sync.
(** What is shown of a torrent and of a category, values with an equality. *)
Context {V : Type} `{!EqDecision V}.

(** A [BTreeMap] of values, with its keys in order. *)
Abbreviation Rows := (gmap bytes V).
Definition keys (m : Rows) : list bytes := merge_sort hash_le (map fst (map_to_list m)).

Record SyncInner := mkSync { si_rid : u64; si_torrents : Rows; si_categories : Rows }.
Definition sync_default : SyncInner := mkSync 0 ∅ ∅.

(** The answer; a full one has no removals, only a full one has the tags. *)
Record Update := mkUpdate {
  up_rid : u64; up_full : bool;
  up_torrents : Rows; up_torrents_removed : list bytes;
  up_categories : Rows; up_categories_removed : list bytes;
  up_tags : option (list bytes); up_server_state : V }.

Definition removed_keys (old new : Rows) : list bytes := filter (fun hash => new !! hash = None) (keys old).
Definition changed_rows (old new : Rows) : Rows := filter (fun e => old !! fst e <> Some (snd e)) new.

Definition maindata (client_rid : u64) (torrents categories : Rows) (tags : list bytes) (server_state : V) (inner : SyncInner)
    : Update * SyncInner :=
  let full := (client_rid =? 0) || negb (client_rid =? si_rid inner) in
  let rid := sat_add U64_MAX (si_rid inner) 1 in
  let inner' := mkSync rid torrents categories in
  if full then (mkUpdate rid true torrents [] categories [] (Some tags) server_state, inner')
  else
    (mkUpdate rid false
       (changed_rows (si_torrents inner) torrents) (removed_keys (si_torrents inner) torrents)
       (changed_rows (si_categories inner) categories) (removed_keys (si_categories inner) categories)
       None server_state, inner').

(** ** The clients

    A client keeps the number of its last answer, 0 at first, and what the answers
    told it. *)
Record Client := mkClient { cl_rid : u64; cl_torrents : Rows; cl_categories : Rows; cl_tags : list bytes }.
Definition client_new : Client := mkClient 0 ∅ ∅ [].

Definition patch (changed : Rows) (removed : list bytes) (rows : Rows) : Rows := foldr delete (changed ∪ rows) removed.

Definition receive (u : Update) (c : Client) : Client :=
  if up_full u then mkClient (up_rid u) (up_torrents u) (up_categories u) (default [] (up_tags u))
  else mkClient (up_rid u) (patch (up_torrents u) (up_torrents_removed u) (cl_torrents c))
         (patch (up_categories u) (up_categories_removed u) (cl_categories c)) (default (cl_tags c) (up_tags u)).

(** What the session holds when it is asked. *)
Record Data := mkData { d_torrents : Rows; d_categories : Rows; d_tags : list bytes; d_state : V }.

Definition answer (client_rid : u64) (d : Data) (inner : SyncInner) : Update * SyncInner :=
  maindata client_rid (d_torrents d) (d_categories d) (d_tags d) (d_state d) inner.

(** The server, any number of clients, and for each the answer under way with the
    data it was made from. *)
Record System := mkSystem { sy_inner : SyncInner; sy_clients : nat -> Client; sy_flying : nat -> option (Data * Update) }.

Definition upd {A} (i : nat) (x : A) (f : nat -> A) : nat -> A := fun j => if decide (j = i) then x else f j.

(** A client asks, giving up an earlier question; it gets the answer; or the server
    answers a question that nobody waits for any more, with any number. *)
Inductive sync_step : System -> System -> Prop :=
| Poll i d s :
    sync_step s (let '(u, inner) := answer (cl_rid (sy_clients s i)) d (sy_inner s) in
                 mkSystem inner (sy_clients s) (upd i (Some (d, u)) (sy_flying s)))
| Deliver i d u s :
    sy_flying s i = Some (d, u) ->
    sync_step s (mkSystem (sy_inner s) (upd i (receive u (sy_clients s i)) (sy_clients s)) (upd i None (sy_flying s)))
| Stray rid d s :
    sync_step s (mkSystem (snd (answer rid d (sy_inner s))) (sy_clients s) (sy_flying s)).

Definition system_new : System := mkSystem sync_default (fun _ => client_new) (fun _ => None).

Inductive sync_run : System -> Prop :=
| SyncStart : sync_run system_new
| SyncStep s s' : sync_run s -> sync_step s s' -> sync_run s'.

(** ** An update undoes the difference *)

Lemma elem_keys (k : bytes) (m : Rows) : k ∈ keys m <-> is_Some (m !! k).
Proof.
  unfold keys. rewrite merge_sort_Permutation, list_elem_of_fmap. split.
  - intros ([k' v] & -> & H%elem_of_map_to_list). by exists v.
  - intros [v Hv]. exists (k, v). split; [done|]. by apply elem_of_map_to_list.
Qed.

Lemma lookup_foldr_delete (ks : list bytes) (m : Rows) (k : bytes) : foldr delete m ks !! k = if decide (k ∈ ks) then None else m !! k.
Proof.
  induction ks as [|x ks IH]; cbn [foldr]; [by rewrite decide_False by apply not_elem_of_nil|].
  destruct (decide (x = k)) as [->|Hne]; [by rewrite lookup_delete_eq, decide_True by (apply elem_of_cons; by left)|].
  rewrite lookup_delete_ne, IH by done. repeat case_decide; set_solver.
Qed.

Lemma patch_exact (old new : Rows) : patch (changed_rows old new) (removed_keys old new) old = new.
Proof.
  apply map_eq. intros k. unfold patch. rewrite lookup_foldr_delete.
  assert (Hr : k ∈ removed_keys old new <-> new !! k = None /\ is_Some (old !! k)).
  { unfold removed_keys. by rewrite list_elem_of_filter, elem_keys. }
  case_decide as Hk; [symmetry; by apply Hr|]. unfold changed_rows. rewrite lookup_union, map_lookup_filter.
  destruct (new !! k) as [v|] eqn:En; red_bind; cbn [fst snd].
  - destruct (decide (old !! k = Some v)) as [Ho|Ho].
    + rewrite option_guard_False by tauto. rewrite Ho. done.
    + rewrite option_guard_True by done. destruct (old !! k); done.
  - destruct (old !! k) as [w|] eqn:Eo; [|done]. exfalso. apply Hk, Hr. by split; [|exists w].
Qed.

(** ** Every client is right *)

Definition shows (torrents categories : Rows) (c : Client) : Prop := cl_torrents c = torrents /\ cl_categories c = categories.

Record synced (s : System) : Prop := {
  sd_rid : forall i, 0 <= cl_rid (sy_clients s i) <= si_rid (sy_inner s);
  sd_client : forall i, cl_rid (sy_clients s i) <> 0 -> cl_rid (sy_clients s i) = si_rid (sy_inner s) ->
    shows (si_torrents (sy_inner s)) (si_categories (sy_inner s)) (sy_clients s i);
  sd_flying : forall i d u, sy_flying s i = Some (d, u) ->
    shows (d_torrents d) (d_categories d) (receive u (sy_clients s i)) /\ 0 < up_rid u <= si_rid (sy_inner s) /\
    (up_rid u = si_rid (sy_inner s) -> si_torrents (sy_inner s) = d_torrents d /\ si_categories (sy_inner s) = d_categories d) /\
    (up_full u = true -> cl_tags (receive u (sy_clients s i)) = d_tags d) /\
    (up_full u = false -> up_torrents u = changed_rows (cl_torrents (sy_clients s i)) (d_torrents d) /\
       up_torrents_removed u = removed_keys (cl_torrents (sy_clients s i)) (d_torrents d)) }.

Lemma synced_new : synced system_new.
Proof. split; cbn; [done|done|done]. Qed.

(** The number of the next answer is new, short of 2^64 - 1 answers. *)
Lemma answer_spec rid d (inner : SyncInner) u inner' :
  0 <= si_rid inner < U64_MAX -> answer rid d inner = (u, inner') ->
  si_rid inner' = si_rid inner + 1 /\ up_rid u = si_rid inner' /\ si_torrents inner' = d_torrents d /\ si_categories inner' = d_categories d /\
  (forall c, cl_rid c = rid -> (cl_rid c <> 0 -> cl_rid c = si_rid inner -> shows (si_torrents inner) (si_categories inner) c) ->
   shows (d_torrents d) (d_categories d) (receive u c) /\ (up_full u = true -> cl_tags (receive u c) = d_tags d) /\
   (up_full u = false -> up_torrents u = changed_rows (cl_torrents c) (d_torrents d) /\
      up_torrents_removed u = removed_keys (cl_torrents c) (d_torrents d))).
Proof.
  intros Hr. unfold answer, maindata. replace (sat_add U64_MAX (si_rid inner) 1) with (si_rid inner + 1) by (unfold sat_add; lia).
  destruct ((rid =? 0) || negb (rid =? si_rid inner)) eqn:Ef; intros [= <- <-]; cbn [si_rid si_torrents si_categories up_rid].
  - split_and!; done.
  - split_and!; [done..|]. intros c Hc Hs. apply orb_false_iff in Ef as [E0%Z.eqb_neq E1%negb_false_iff%Z.eqb_eq].
    destruct Hs as [<- <-]; [congruence|congruence|]. unfold receive. cbn [up_full up_torrents up_torrents_removed up_categories up_categories_removed].
    split_and!; [|done|done]. split; cbn [cl_torrents cl_categories]; apply patch_exact.
Qed.

Lemma step_rid s s' : sync_step s s' -> 0 <= si_rid (sy_inner s) -> si_rid (sy_inner s) <= si_rid (sy_inner s') \/ U64_MAX <= si_rid (sy_inner s').
Proof.
  intros Hs H0. destruct Hs as [i d s|i d u s Hf|rid d s]; [|by left|].
  all: unfold answer, maindata; destruct (_ || _); cbn [sy_inner snd si_rid]; unfold sat_add; lia.
Qed.

Lemma synced_step s s' : sync_step s s' -> si_rid (sy_inner s') < U64_MAX -> 0 <= si_rid (sy_inner s) -> synced s -> synced s'.
Proof.
  intros Hs Hlt H0 [Hrid Hcl Hfl]. pose proof (step_rid _ _ Hs H0) as Hmono.
  destruct Hs as [i d s|i d u s Hf|rid d s].
  - destruct (answer _ d _) as [u inner] eqn:Ea. cbn [sy_inner] in *. assert (Hb : 0 <= si_rid (sy_inner s) < U64_MAX) by lia.
    destruct (answer_spec _ d _ u inner Hb Ea) as (E1 & E2 & E3 & E4 & Hu).
    split; cbn [sy_inner sy_clients sy_flying].
    + intros j. specialize (Hrid j). lia.
    + intros j Hn He. specialize (Hrid j). lia.
    + intros j d' u'. unfold upd. case_decide as Hj; [|intros Hf; destruct (Hfl j d' u' Hf) as (A & B & C & D); split_and!; [exact A|lia|lia|lia|exact (proj1 D)|exact (proj2 D)]].
      intros [= <- <-]. subst j. destruct (Hu _ eq_refl (Hcl i)) as (A & B & C). specialize (Hrid i). split_and!; [exact A|lia|lia|done|exact B|exact C].
  - destruct (Hfl i d u Hf) as (A & B & C & _ & _). split; cbn [sy_inner sy_clients sy_flying].
    + intros j. unfold upd. case_decide as Hj; [|apply Hrid]. unfold receive. destruct (up_full u); cbn [cl_rid]; lia.
    + intros j. unfold upd. case_decide as Hj; [|apply Hcl]. intros _ He.
      assert (Hr : cl_rid (receive u (sy_clients s i)) = up_rid u) by (unfold receive; by destruct (up_full u)).
      destruct (C ltac:(congruence)) as [-> ->]. exact A.
    + intros j d' u'. unfold upd. case_decide as Hj; [done|apply Hfl].
  - destruct (answer rid d _) as [u inner] eqn:Ea. cbn [sy_inner snd] in *. assert (Hb : 0 <= si_rid (sy_inner s) < U64_MAX) by lia.
    destruct (answer_spec _ d _ u inner Hb Ea) as (E1 & E2 & E3 & E4 & _).
    split; cbn [sy_inner sy_clients sy_flying].
    + intros j. specialize (Hrid j). lia.
    + intros j Hn He. specialize (Hrid j). lia.
    + intros j d' u' Hf; destruct (Hfl j d' u' Hf) as (A & B & C & D). split_and!; [exact A|lia|lia|lia|exact (proj1 D)|exact (proj2 D)].
Qed.

Lemma run_synced s : sync_run s -> 0 <= si_rid (sy_inner s) /\ (si_rid (sy_inner s) < U64_MAX -> synced s).
Proof.
  induction 1 as [|s s' _ [H0 IH] Hs]; [split; [done|intros _; apply synced_new]|].
  pose proof (step_rid _ _ Hs H0) as Hm. split; [unfold U64_MAX in Hm; lia|]. intros Hlt.
  apply (synced_step s); [done|done|done|]. apply IH. lia.
Qed.

(** An incremental answer has no tags: a client that asks again and again keeps the
    tags of its first answer, whatever becomes of them. *)
Fixpoint poll_all (ds : list Data) (inner : SyncInner) (c : Client) : SyncInner * Client :=
  match ds with
  | [] => (inner, c)
  | d :: ds => let '(u, inner) := answer (cl_rid c) d inner in poll_all ds inner (receive u c)
  end.

Lemma sync_tags_stale (ds : list Data) (inner : SyncInner) (c : Client) :
  0 < si_rid inner -> cl_rid c = si_rid inner -> cl_tags (snd (poll_all ds inner c)) = cl_tags c.
Proof.
  revert inner c. induction ds as [|d ds IH]; intros inner c Hr Hc; [done|]. cbn [poll_all].
  unfold answer, maindata. rewrite Hc, Z.eqb_refl, (proj2 (Z.eqb_neq _ _)) by lia. cbn [orb negb].
  rewrite IH; [done|cbn [si_rid]; unfold sat_add, U64_MAX; lia|done].
Qed.
End Sync.

(** C22: any number of clients ask a server for its state, in any order, some answers
    being lost, given up or made for nobody.  Short of 2^64 - 1 answers, a client
    that gets its answer has exactly the torrents and categories the session had
    when it was made; after a full answer it has the tags too, and an incremental
    one names only what the client does not have or has too much. *)
Theorem sync_exact {V} `{!EqDecision V} (s : System) i d (u : Update) :
  sync_run s -> si_rid (sy_inner s) < U64_MAX -> sy_flying s i = Some (d, u) ->
  let before := sy_clients s i in
  let after := receive u before in
  cl_torrents after = d_torrents d /\ cl_categories after = d_categories d /\ cl_rid after = up_rid u /\
  (up_full u = true -> cl_tags after = d_tags d) /\
  (up_full u = false ->
   (forall k (v : V), up_torrents u !! k = Some v -> cl_torrents before !! k <> Some v) /\
   (forall k, k ∈ up_torrents_removed u -> is_Some (cl_torrents before !! k) /\ d_torrents d !! k = None)).
Proof.
  intros Hrun Hlt Hf before after. destruct (run_synced s Hrun) as [_ Hs]. destruct (sd_flying s (Hs Hlt) i d u Hf) as ([A A'] & _ & _ & B & C).
  split_and!; [exact A|exact A'| |exact B|].
  - unfold after, receive. by destruct (up_full u).
  - intros Hu. destruct (C Hu) as [-> ->]. split; intros k.
    + intros v [_ Hv]%map_lookup_filter_Some. exact Hv.
    + intros [Hn Hk]%list_elem_of_filter. split; [by apply elem_keys|done].
Qed.

(** Two clients: the first one asks, the second one too, then both again, while a
    torrent comes and another one changes. *)
Definition example_data (k : Z) : Data := mkData {[ [1] := 10; [2] := k ]} ∅ [] 0.
Definition example_next (s : System) (i : nat) (k : Z) : System :=
  let '(u, inner) := answer (cl_rid (sy_clients s i)) (example_data k) (sy_inner s) in
  mkSystem inner (sy_clients s) (upd i (Some (example_data k, u)) (sy_flying s)).
Definition example_deliver (s : System (V := Z)) (i : nat) : System :=
  match sy_flying s i with
  | Some (_, u) => mkSystem (sy_inner s) (upd i (receive u (sy_clients s i)) (sy_clients s)) (upd i None (sy_flying s))
  | None => s
  end.
Definition example_system : System := example_next (example_deliver (example_next (example_next system_new 1 5) 0 6) 0) 0 7.
Definition example_update : Update := mkUpdate 3 false {[ [2] := 7 ]} [] ∅ [] None 0.

Lemma sync_exact_witness :
  sy_flying example_system 0%nat = Some (example_data 7, example_update) /\
  cl_torrents (receive example_update (sy_clients example_system 0%nat)) = d_torrents (example_data 7).
Proof.
  assert (H : sy_flying example_system 0%nat = Some (example_data 7, example_update)) by (vm_compute; reflexivity).
  split; [exact H|]. refine (proj1 (sync_exact example_system 0%nat (example_data 7) example_update _ _ H)); [|by vm_compute].
  eapply SyncStep; [|apply (Poll 0)]. eapply SyncStep; [|eapply (Deliver 0); reflexivity].
  eapply SyncStep; [|apply (Poll 0)]. eapply SyncStep; [|apply (Poll 1)]. apply SyncStart.
Defined.

(** After a restart the numbers begin again: a client that has number 1 from before
    is taken for the one that got number 1 since, and keeps a torrent that is
    gone. *)
Example rid_reused_after_restart :
  let old := mkClient 1 {[ [9] := 3 ]} ∅ [] in
  let inner := snd (answer 0 (example_data 5) sync_default) in
  let '(u, _) := answer (cl_rid old) (example_data 5) inner in
  up_full u = false /\ cl_torrents (receive u old) !! [9] = Some 3 /\ cl_torrents (receive u old) !! [1] = None.
Proof. by vm_compute. Qed.
