(* ===== verification/Requests.v ===== *)
(** * Requests as programs over the session (crates/server/src)

    A handler of the HTTP interface runs while other tasks use the same session: it
    reads the session, calls its operations, and waits for answers from the disk
    or the network.  It is a program whose calls are the operations of SessionSafe;
    between two calls anything may happen to the session. *)

From S2P Require Import Prelude Text Float Rate Metainfo Layout Bitfield Message PeerStates Picker Priority Download Choke.
From S2P Require Import ExtHandshake Peers Metadata Pex Registry Pipeline AllowedFast PeerHandler PeerTasks PeerSwarm Session SessionQueue.
From S2P Require Import SessionSafe SessionView.

(** What the outside answers at one point of a program: whether the list of
    categories could be written, what was found on disk for a torrent that is added
    (nothing when its files cannot be opened), and what a download brought. *)
Record Outer := mkOuter {
  ou_saves : bool;
  ou_disk : option (bool * DownloadState * bytes * option Resumed);
  ou_fetched : option bytes }.

Inductive Prog (A : Type) : Type :=
| Ret (a : A)
| Read (k : World -> Session -> Prog A)
| Do (op : ses_op) (k : result () ControlError -> Prog A)
| Outside (k : Outer -> Prog A).
Arguments Ret {A}. Arguments Read {A}. Arguments Do {A}. Arguments Outside {A}.

Fixpoint pbind {A B} (p : Prog A) (k : A -> Prog B) : Prog B :=
  match p with
  | Ret a => k a
  | Read c => Read (fun w s => pbind (c w s) k)
  | Do op c => Do op (fun r => pbind (c r) k)
  | Outside c => Outside (fun b => pbind (c b) k)
  end.

Declare Scope prog_scope.
Delimit Scope prog_scope with prog.
Notation "'await' x <- p ; k" := (pbind p (fun x => k)) (at level 10, x pattern, p at level 99, k at level 200) : prog_scope.
#[local] Open Scope prog_scope.

Definition read {B} (f : World -> Session -> B) : Prog B := Read (fun w s => Ret (f w s)).
Definition call (op : ses_op) : Prog (result () ControlError) := Do op Ret.
Definition outside {B} (f : Outer -> B) : Prog B := Outside (fun o => Ret (f o)).

(** [let _ = ...] *)
Definition ignore {A} (p : Prog A) : Prog () := pbind p (fun _ => Ret ()).

Fixpoint for_each {A} (l : list A) (f : A -> Prog ()) : Prog () :=
  match l with [] => Ret () | x :: l => pbind (f x) (fun _ => for_each l f) end.

(** [for x in xs { f(x)?; }]: the first error ends the loop. *)
Fixpoint try_each {A E} (l : list A) (f : A -> Prog (result () E)) : Prog (result () E) :=
  match l with
  | [] => Ret (Ok ())
  | x :: l => pbind (f x) (fun r => match r with Ok _ => try_each l f | Err e => Ret (Err e) end)
  end.

(** ** What an operation answers

    The operations that answer [()] and the steps of the session's own tasks have
    nothing to say. *)
Definition value {A} (m : SM A) (s : Session) : A := fst (fst (m s)).

Definition ses_reply (w : World) (op : ses_op) (s : Session) : result () ControlError :=
  let '(mkWorld it ip ipp now unix) := w in
  match op with
  | SPause id => value (pause it ip ipp now unix id) s
  | SResume id => value (resume it ip ipp now unix id) s
  | SForceStart id enabled => value (set_force_start it ip ipp now unix id enabled) s
  | SQueuePosition id pos => value (set_queue_position it ip ipp now unix id pos) s
  | SQueueTop id => value (queue_top it ip ipp now unix id) s
  | SQueueBottom id => value (queue_bottom it ip ipp now unix id) s
  | SQueueUp id => value (queue_up it ip ipp now unix id) s
  | SQueueDown id => value (queue_down it ip ipp now unix id) s
  | SShareLimits id ratio time => value (set_share_limits id ratio time) s
  | STorrentRateLimits id d u => value (set_torrent_rate_limits id d u) s
  | SFilePriority id index prio => value (session_set_file_priority it ip ipp now unix id index prio) s
  | SFilePriorities id prios => value (session_set_file_priorities it ip ipp now unix id prios) s
  | SSequential id seq => value (session_set_sequential id seq) s
  | SCreateCategory saves name path => value (create_category saves name path) s
  | SEditCategory saves name path => value (edit_category saves name path) s
  | SRemoveCategory saves name => value (remove_category it ip saves name) s
  | SSetCategory saves id category => value (set_category saves id category) s
  | SSetTags id tags => value (set_tags id tags) s
  | SAddTags id tags => value (add_tags id tags) s
  | SRemoveTags id tags => value (remove_tags id tags) s
  | SSavePath id path move => value (set_save_path ipp id path move) s
  | SRecheck id => value (recheck_start ipp id) s
  | SRemove id delete_files => value (remove_torrent it ip ipp now unix id delete_files) s
  | _ => Ok ()
  end.

(** ** Running with others

    [performs s p tr s' a]: the program takes the session from [s] to [s'] and
    answers [a]; [tr] is all that happened, its own operations marked. *)
Definition Event : Type := bool * (World * ses_op).

Definition regular (w : World) : Prop := HashOrder (wl_torrents w) /\ HashOrder (wl_pending w).

Inductive performs {A} : Session -> Prog A -> list Event -> Session -> A -> Prop :=
| PRet s a : performs s (Ret a) [] s a
| PRead s w k tr s' a : regular w -> performs s (k w s) tr s' a -> performs s (Read k) tr s' a
| PDo s w op k tr s' a :
    regular w -> performs (ses_exec w op s) (k (ses_reply w op s)) tr s' a -> performs s (Do op k) ((true, (w, op)) :: tr) s' a
| POutside s o k tr s' a : performs s (k o) tr s' a -> performs s (Outside k) tr s' a
| POther s w op p tr s' a :
    regular w -> performs (ses_exec w op s) p tr s' a -> performs s p ((false, (w, op)) :: tr) s' a.

(** The operations of the program itself. *)
Definition own (tr : list Event) : list ses_op := map (fun e => snd (snd e)) (List.filter fst tr).

(** Alone, with the same answer of the outside each time: an executable run. *)
Fixpoint perform {A} (w : World) (o : Outer) (s : Session) (p : Prog A) : A * list ses_op * Session :=
  match p with
  | Ret a => (a, [], s)
  | Read k => perform w o s (k w s)
  | Do op k => let '(a, ops, s') := perform w o (ses_exec w op s) (k (ses_reply w op s)) in (a, op :: ops, s')
  | Outside k => perform w o s (k o)
  end.

Lemma own_app tr tr' : own (tr ++ tr') = own tr ++ own tr'.
Proof. unfold own. by rewrite List.filter_app, map_app. Qed.

Lemma run_app s ops s1 ops' s' : ses_run s ops s1 -> ses_run s1 ops' s' -> ses_run s (ops ++ ops') s'.
Proof. induction 1 as [|s w op ops s1 Hit Hip _ IH]; [done|]. intros H. cbn [app]. constructor; [done|done|]. by apply IH. Qed.

(** A request is a run of operations, its own and those of others. *)
Lemma performs_run {A} s (p : Prog A) tr s' a : performs s p tr s' a -> ses_run s (map snd tr) s'.
Proof.
  induction 1 as [s a|s w k tr s' a _ _ IH|s w op k tr s' a [] _ IH|s o k tr s' a _ IH|s w op p tr s' a [] _ IH]; try done; [exact (SRunNil s)|by constructor|by constructor].
Qed.

Lemma perform_performs {A} w o s (p : Prog A) a ops s' :
  regular w -> perform w o s p = (a, ops, s') -> performs s p (map (fun op => (true, (w, op))) ops) s' a.
Proof.
  intros Hw. revert s ops. induction p as [a0|k IH|op k IH|k IH]; intros s ops; cbn [perform].
  - intros [= -> <- <-]. constructor.
  - intros H. eapply PRead; [done|]. by apply IH.
  - destruct (perform w o _ _) as [[a' ops'] s''] eqn:E. intros [= -> <- ->]. cbn [map]. apply PDo; [done|]. by apply IH.
  - intros H. eapply POutside. by apply IH.
Qed.

(** ** Rules

    Before each step of a program there may be steps of others. *)

Lemma performs_inv {A} s (p : Prog A) tr s' a :
  performs s p tr s' a ->
  exists tr0 tr1 s1, tr = tr0 ++ tr1 /\ own tr0 = [] /\ ses_run s (map snd tr0) s1 /\
  match p with
  | Ret a0 => a = a0 /\ tr1 = [] /\ s1 = s'
  | Read k => exists w, regular w /\ performs s1 (k w s1) tr1 s' a
  | Do op k => exists w tr2, regular w /\ tr1 = (true, (w, op)) :: tr2 /\ performs (ses_exec w op s1) (k (ses_reply w op s1)) tr2 s' a
  | Outside k => exists o, performs s1 (k o) tr1 s' a
  end.
Proof.
  induction 1 as [s a|s w k tr s' a Hw H _|s w op k tr s' a Hw H _|s o k tr s' a H _|s w op p tr s' a [Hit Hip] H IH].
  1-4: eexists [], _, s; refine (conj eq_refl (conj eq_refl (conj (SRunNil s) _))); eauto 10.
  destruct IH as (tr0 & tr1 & s1 & -> & Ho & Hr & Hp). exists ((false, (w, op)) :: tr0), tr1, s1.
  refine (conj eq_refl (conj Ho (conj _ Hp))). by constructor.
Qed.

Lemma performs_bind {A B} (p : Prog A) (k : A -> Prog B) s tr s' b :
  performs s (pbind p k) tr s' b ->
  exists tr0 tr1 s1 a, tr = tr0 ++ tr1 /\ performs s p tr0 s1 a /\ performs s1 (k a) tr1 s' b.
Proof.
  intros H. remember (pbind p k) as q eqn:Eq. revert p Eq.
  induction H as [s b|s w c tr s' b Hw H IH|s w op c tr s' b Hw H IH|s o c tr s' b H IH|s w op q tr s' b Hw H IH]; intros p Eq.
  5: { destruct (IH p Eq) as (tr0 & tr1 & s1 & a & -> & H0 & H1). exists ((false, (w, op)) :: tr0), tr1, s1, a. split_and!; [done| |done]. by apply POther. }
  all: destruct p as [a|c0|op0 c0|c0]; cbn [pbind] in Eq; try discriminate Eq.
  1,2,4,6: eexists [], _, _, a; split_and!; [done|constructor|rewrite <- Eq; by econstructor].
  - injection Eq as ->. destruct (IH (c0 w s) eq_refl) as (tr0 & tr1 & s1 & a & -> & H0 & H1).
    exists tr0, tr1, s1, a. split_and!; [done|by eapply PRead|done].
  - injection Eq as <- ->. destruct (IH (c0 _) eq_refl) as (tr0 & tr1 & s1 & a & -> & H0 & H1).
    eexists (_ :: tr0), tr1, s1, a. split_and!; [done|by apply PDo|done].
  - injection Eq as ->. destruct (IH (c0 o) eq_refl) as (tr0 & tr1 & s1 & a & -> & H0 & H1).
    exists tr0, tr1, s1, a. split_and!; [done|by eapply POutside|done].
Qed.

Lemma performs_ret {A} s (a0 : A) tr s' a : performs s (Ret a0) tr s' a -> a = a0 /\ own tr = [] /\ ses_run s (map snd tr) s'.
Proof. intros (tr0 & tr1 & s1 & -> & Ho & Hr & -> & -> & ->)%performs_inv. by rewrite app_nil_r. Qed.

Lemma performs_read {A B} (f : World -> Session -> B) (k : B -> Prog A) s tr s' a :
  performs s (pbind (read f) k) tr s' a ->
  exists tr0 tr1 w s1, tr = tr0 ++ tr1 /\ own tr0 = [] /\ ses_run s (map snd tr0) s1 /\ regular w /\ performs s1 (k (f w s1)) tr1 s' a.
Proof. intros (tr0 & tr1 & s1 & -> & Ho & Hr & w & Hw & H)%performs_inv. by exists tr0, tr1, w, s1. Qed.

Lemma performs_call s op tr s' a : performs s (call op) tr s' a -> own tr = [op].
Proof.
  intros (tr0 & tr1 & s1 & -> & Ho & _ & w & tr2 & _ & -> & H)%performs_inv. apply performs_ret in H as (_ & H & _).
  rewrite own_app, Ho. change (own ((true, (w, op)) :: tr2)) with (op :: own tr2). by rewrite H.
Qed.

Lemma performs_ignore {A} (p : Prog A) s tr s' a : performs s (ignore p) tr s' a -> exists b tr0 tr1 s1, tr = tr0 ++ tr1 /\ performs s p tr0 s1 b /\ own tr1 = [].
Proof. intros (tr0 & tr1 & s1 & b & -> & H0 & (_ & H1 & _)%performs_ret)%performs_bind. by exists b, tr0, tr1, s1. Qed.

(** A loop with one operation for every element does them in order. *)
Lemma performs_for {A} (P : A -> ses_op -> Prop) (l : list A) (f : A -> Prog ()) s tr s' a :
  (forall x s tr s' a, performs s (f x) tr s' a -> exists op, own tr = [op] /\ P x op) ->
  performs s (for_each l f) tr s' a -> Forall2 P l (own tr).
Proof.
  intros Hf. revert s tr. induction l as [|x l IH]; intros s tr; cbn [for_each].
  - intros (_ & -> & _)%performs_ret. constructor.
  - intros (tr0 & tr1 & s1 & [] & -> & H0 & H1)%performs_bind. destruct (Hf x _ _ _ _ H0) as (op & Ho & HP).
    rewrite own_app, Ho. constructor; [done|]. by apply (IH s1).
Qed.

(** ** Requests that change nothing

    [ends Q p]: every answer of [p] satisfies [Q]; [validates Q p]: every answer
    after the first operation does. *)
Fixpoint ends {A} (Q : A -> Prop) (p : Prog A) : Prop :=
  match p with
  | Ret a => Q a
  | Read k => forall w s, ends Q (k w s)
  | Do _ k => forall r, ends Q (k r)
  | Outside k => forall o, ends Q (k o)
  end.

Fixpoint validates {A} (Q : A -> Prop) (p : Prog A) : Prop :=
  match p with
  | Ret a => True
  | Read k => forall w s, validates Q (k w s)
  | Do _ k => forall r, ends Q (k r)
  | Outside k => forall o, validates Q (k o)
  end.

Lemma ends_validates {A} (Q : A -> Prop) p : ends Q p -> validates Q p.
Proof. induction p as [a|k IH|op k IH|k IH]; cbn; auto. Qed.

Lemma ends_bind {A B} (Q : B -> Prop) (p : Prog A) (k : A -> Prog B) : (forall a, ends Q (k a)) -> ends Q (pbind p k).
Proof. intros Hk. induction p as [a|c IH|op c IH|c IH]; cbn; auto. Qed.

Lemma validates_read {A B} (Q : A -> Prop) (f : World -> Session -> B) k : (forall b, validates Q (k b)) -> validates Q (pbind (read f) k).
Proof. intros Hk w s. apply Hk. Qed.

Lemma ends_performs {A} (Q : A -> Prop) p s tr s' a : ends Q p -> performs s p tr s' a -> Q a.
Proof. intros He H. induction H; cbn in He; auto. Qed.

(** An answer that operations never end with comes without any. *)
Lemma validates_performs {A} (Q : A -> Prop) p s tr s' a : validates Q p -> performs s p tr s' a -> own tr = [] \/ Q a.
Proof.
  intros Hv H. induction H as [s a|s w k tr s' a _ _ IH|s w op k tr s' a _ H IH|s o k tr s' a _ IH|s w op p tr s' a _ _ IH]; cbn in Hv; auto.
  right. by eapply ends_performs.
Qed.
