(* ===== verification/Qbit.v ===== *)
(** * The qBittorrent interface (crates/server/src/qbittorrent.rs)

    The handlers of [/api/v2] as programs over the session (Requests), with the
    texts of their forms (FormText).  The login is in Auth, the polled state in
    SyncCache. *)

From S2P Require Import Prelude Utf8 Bencode Text Value Float Rate Metainfo Layout Bitfield Message PeerStates Picker Priority Download Choke.
From S2P Require Import ExtHandshake Peers Metadata Pex Registry Pipeline AllowedFast PeerHandler PeerTasks PeerSwarm Session SessionQueue.
From S2P Require Import IpFilter Magnet Lsd SessionSafe SessionView FormText Requests Auth SyncCache.

#[local] Open Scope prog_scope.

Definition QB_VERSION : bytes := str "v4.6.7".
Definition WEBAPI_VERSION : bytes := str "2.9.3".
Definition ETA_INFINITY : i64 := 8640000.

(** ** What is shown of a torrent *)

Definition qb_state (snap : TorrentSnapshot) : bytes :=
  let complete := bool_decide (is_Some (sn_completed_at snap)) || ((0 <? sn_size snap) && (sn_left snap =? 0)) in
  match sn_state snap with
  | StChecking => if complete then str "checkingUP" else str "checkingDL"
  | StMetadata => str "metaDL"
  | StDownloading => str "downloading"
  | StSeeding => str "uploading"
  | StPaused => if complete then str "pausedUP" else str "pausedDL"
  | StQueued => if complete then str "queuedUP" else str "queuedDL"
  | StMoving => str "moving"
  | StError _ => str "error"
  end.

Definition passes_filter (snap : TorrentSnapshot) (filter : bytes) : bool :=
  let state := qb_state snap in
  let named f := bool_decide (filter = str f) in
  let state_in l := existsb (fun f => bool_decide (state = str f)) l in
  let idle := (sn_download_rate snap =? 0) && (sn_upload_rate snap =? 0) in
  if bool_decide (filter = []) || named "all"%string then true
  else if named "downloading"%string then state_in ["downloading"; "metaDL"; "queuedDL"; "checkingDL"; "forcedDL"]%string
  else if named "seeding"%string then state_in ["uploading"; "queuedUP"; "checkingUP"]%string
  else if named "completed"%string then state_in ["uploading"; "pausedUP"; "queuedUP"; "checkingUP"]%string
  else if named "paused"%string || named "stopped"%string then starts_with (str "paused") state
  else if named "resumed"%string then negb (starts_with (str "paused") state)
  else if named "active"%string then (0 <? sn_download_rate snap) || (0 <? sn_upload_rate snap)
  else if named "inactive"%string then idle
  else if named "errored"%string then state_in ["error"]%string
  else if named "stalled"%string || named "stalled_downloading"%string || named "stalled_uploading"%string then
    idle && state_in ["downloading"; "uploading"; "metaDL"]%string
  else true.

Definition eta (snap : TorrentSnapshot) : i64 :=
  if (sn_left snap =? 0) || (sn_download_rate snap =? 0) then ETA_INFINITY else wrap_i64 (sn_left snap / sn_download_rate snap).
Definition qb_ratio (limit : option f64) : f64 :=
  match limit with None => f64_of (-2) | Some value => if f64_leb value f64_zero then f64_of (-1) else value end.
Definition qb_seed_minutes (limit : option u64) : i64 :=
  match limit with None => -2 | Some minutes => if minutes =? 0 then -1 else wrap_i64 minutes end.

(** A set of tags in order, as the session keeps them. *)
Definition tag_row (tags : gset bytes) : list bytes := merge_sort hash_le (elements tags).
Definition join_comma (tags : list bytes) : bytes :=
  match tags with [] => [] | tag :: tags => tag ++ concat (map (fun t => str ", " ++ t) tags) end.

(** The fields of [info_json]. *)
Record InfoJson := mkInfo {
  ij_hash : bytes; ij_name : bytes; ij_state : bytes; ij_progress : f64; ij_dlspeed : u64; ij_upspeed : u64; ij_size : u64;
  ij_amount_left : u64; ij_completed : u64; ij_downloaded : u64; ij_uploaded : u64; ij_ratio : f64; ij_save_path : bytes;
  ij_content_path : bytes; ij_category : bytes; ij_tags : bytes; ij_seq_dl : bool; ij_force_start : bool; ij_completion_on : i64;
  ij_added_on : i64; ij_num_leechs : u32; ij_num_seeds : u32; ij_eta : i64; ij_ratio_limit : f64; ij_seeding_time_limit : i64 }.

Definition info_json (snap : TorrentSnapshot) : InfoJson :=
  mkInfo (hex_info_hash (sn_id snap)) (sn_name snap) (qb_state snap) (sn_progress snap) (sn_download_rate snap) (sn_upload_rate snap)
    (sn_size snap) (sn_left snap) (sat_sub (sn_size snap) (sn_left snap)) (sn_downloaded snap) (sn_uploaded snap) (sn_ratio snap)
    (sn_save_path snap) (sn_save_path snap) (sn_category snap) (join_comma (tag_row (sn_tags snap))) (sn_sequential snap)
    (sn_force_start snap) (default (-1) (sn_completed_at snap)) (sn_added_at snap) (sat_sub (sn_peers snap) (sn_seeds snap))
    (sn_seeds snap) (eta snap) (qb_ratio (sn_ratio_limit snap)) (qb_seed_minutes (sn_seeding_time_limit snap)).

(** The fields of [file_json] that depend on the file. *)
Record FileJson := mkFileJson { fj_index : nat; fj_name : list bytes; fj_size : u64; fj_progress : f64; fj_priority : i64; fj_is_seed : bool }.
Definition file_json (info : FileInfo) : FileJson :=
  mkFileJson (fi_index info) (fi_path info) (fi_length info) (fi_progress info) (to_qb_prio (fi_priority info))
    (f64_leb (f64_of 1) (fi_progress info)).

(** The order of [torrents/info]: by age, then by hash. *)
Definition info_key (snap : TorrentSnapshot) : list Z := sn_added_at snap :: hex_info_hash (sn_id snap).
Definition info_le (a b : TorrentSnapshot) : Prop := cmp_list (info_key a) (info_key b) <> Gt.
#[export] Instance info_le_dec a b : Decision (info_le a b).
Proof. unfold info_le. apply _. Defined.

Definition list_of (w : World) (s : Session) : list TorrentSnapshot := session_list (wl_torrents w) (wl_pending w) s.

(** ** Answers *)

(** A text with a status, a status alone, or a value sent as JSON. *)
Inductive Answer :=
| AText (status : Z) (text : bytes) | AStatus (status : Z)
| AInfos (rows : list InfoJson) | AFiles (rows : list FileJson) | APieces (states : list u8) | AEmptyList | AEmptyObject
| ACategories (rows : list (bytes * bytes)) | ATransfer (stats : TransferStats) | ASnapshot (snap : TorrentSnapshot).

Definition status_of (a : Answer) : Z := match a with AText status _ | AStatus status => status | _ => 200 end.
Definition plain (body : bytes) : Answer := AText 200 body.
Definition fail (status : Z) : Answer := AText status (str "Fails.").
Definition ok_body : Answer := plain (str "Ok.").
Definition NOT_FOUND : Answer := AStatus 404.
Definition BAD_REQUEST : Z := 400.

(** ** Requests *)

(** A part of a multipart body. *)
Record Field := mkField { fd_name : option bytes; fd_filename : option bytes; fd_bytes : bytes }.

(** The request, whether its body could be read, and its parts when it is a
    multipart body that could be read to the end. *)
Record Post := mkPost { po_request : Request; po_read : bool; po_parts : option (list Field) }.

Abbreviation Form := (gmap bytes bytes).

Section Handlers.
(** [serde_urlencoded], the JSON object of [setPreferences], and what reading a
    torrent file needs (Metainfo). *)
Context (urlencoded : bytes -> option Form) (json_object : bytes -> option (gmap bytes JValue)).
Context (sha1_digest : bytes -> bytes) (de_info : bytes -> option Info) (de_torrent : bytes -> option TorrentFile).

(** The fields of the query and of the body, which wins; what does not parse is left
    out. *)
Definition read_form (po : Post) : option Form :=
  let fields text := default ∅ (urlencoded text) in
  let map := match rq_query (po_request po) with Some query => fields query | None => ∅ end in
  if po_read po then Some (match rq_body (po_request po) with [] => map | body => fields body ∪ map end) else None.

Definition with_form (po : Post) (k : Form -> Prog Answer) : Prog Answer :=
  match read_form po with Some map => k map | None => Ret (fail BAD_REQUEST) end.

(** The torrents a request names; [all] is read from the session. *)
Definition ids_from (raw : option bytes) : Prog (option (list bytes)) :=
  match trim_str <$> raw with
  | None | Some [] => Ret None
  | Some raw =>
      if decide (raw = str "all") then
        await ids <- read (fun w s => map sn_id (list_of w s)); Ret (Some ids)
      else Ret (match omap parse_id (split_on (Z.eqb 124) raw) with [] => None | ids => Some ids end)
  end.

Definition with_ids (map : Form) (k : list bytes -> Prog Answer) : Prog Answer :=
  await ids <- ids_from (map !! str "hashes");
  match ids with Some ids => k ids | None => Ret (fail BAD_REQUEST) end.

(** One operation for each torrent, whatever it answers. *)
Definition each (ids : list bytes) (op : bytes -> ses_op) : Prog Answer :=
  await _ <- for_each ids (fun id => ignore (call (op id))); Ret ok_body.

(** [mutate_hashes] *)
Definition mutate_hashes (po : Post) (op : bytes -> ses_op) : Prog Answer :=
  with_form po (fun map => with_ids map (fun ids => each ids op)).

Definition pause_torrents (po : Post) : Prog Answer := mutate_hashes po SPause.
Definition resume_torrents (po : Post) : Prog Answer := mutate_hashes po SResume.

Definition recheck_torrents (po : Post) : Prog Answer := with_form po (fun map => with_ids map (fun ids => each ids SRecheck)).

Definition delete_torrents (po : Post) : Prog Answer :=
  with_form po (fun map => with_ids map (fun ids =>
    let delete_files := default false (map !! str "deleteFiles" ≫= parse_bool) in
    each ids (fun id => SRemove id delete_files))).

(** An operation that writes the list of categories; whether that works is an answer
    from outside. *)
Definition persisting (op : bool -> ses_op) : Prog (result () ControlError) :=
  await saves <- outside ou_saves; call (op saves).

Definition set_category (po : Post) : Prog Answer :=
  with_form po (fun map =>
    match map !! str "category" with
    | None => Ret (fail BAD_REQUEST)
    | Some category =>
        with_ids map (fun ids =>
          await _ <- for_each ids (fun id => ignore (persisting (fun saves => SSetCategory saves id (trim_str category)))); Ret ok_body)
    end).

Definition create_category (po : Post) : Prog Answer :=
  with_form po (fun map =>
    let name := default [] (trim_str <$> map !! str "category") in
    match name with
    | [] => Ret (fail BAD_REQUEST)
    | _ =>
        let save_path := map !! str "savePath" ≫= nonempty_text in
        await r <- persisting (fun saves => SCreateCategory saves name save_path);
        Ret (match r with Ok _ => ok_body | Err (CategoryExists _) => AStatus 409 | Err _ => fail 500 end)
    end).

Definition category_map (s : Session) : list (bytes * bytes) :=
  merge_sort (fun a b => hash_le (fst a) (fst b))
    (map (fun e => (cat_name (snd e), default [] (cat_save_path (snd e)))) (map_to_list (ses_categories s))).

Definition categories : Prog Answer := await rows <- read (fun _ s => category_map s); Ret (ACategories rows).

Definition remove_categories (po : Post) : Prog Answer :=
  with_form po (fun map =>
    match map !! str "categories" with
    | None => Ret (fail BAD_REQUEST)
    | Some raw =>
        await _ <- for_each (split_list raw) (fun name => ignore (persisting (fun saves => SRemoveCategory saves name))); Ret ok_body
    end).

Inductive TagOp := TagAdd | TagRemove | TagSet.
Definition tags_op (po : Post) (op : TagOp) : Prog Answer :=
  with_form po (fun map => with_ids map (fun ids =>
    let tags := default [] (split_tags <$> map !! str "tags") in
    each ids (fun id => match op with TagAdd => SAddTags id tags | TagRemove => SRemoveTags id tags | TagSet => SSetTags id tags end))).
Definition add_tags (po : Post) : Prog Answer := tags_op po TagAdd.
Definition remove_tags (po : Post) : Prog Answer := tags_op po TagRemove.
Definition set_tags (po : Post) : Prog Answer := tags_op po TagSet.

(** An optional field that must parse when it is there. *)
Definition optional_field {A : Type} (map : Form) (name : string) (parse : bytes -> option A) : option (option A) :=
  match map !! str name with None => Some None | Some value => Some <$> parse value end.

(** The limits of a torrent are read and written in two steps. *)
Definition set_share_limits (po : Post) : Prog Answer :=
  with_form po (fun map => with_ids map (fun ids =>
    match optional_field map "ratioLimit" parse_ratio_limit, optional_field map "seedingTimeLimit" parse_seed_minutes with
    | Some ratio, Some seeding =>
        await _ <- for_each ids (fun id =>
          await snap <- read (fun _ s => session_snapshot s id);
          match snap with
          | None => Ret ()
          | Some snap =>
              ignore (call (SShareLimits id (default (sn_ratio_limit snap) ratio) (default (sn_seeding_time_limit snap) seeding)))
          end);
        Ret ok_body
    | _, _ => Ret (fail BAD_REQUEST)
    end)).

Definition set_force_start (po : Post) : Prog Answer :=
  with_form po (fun map =>
    match map !! str "value" ≫= parse_bool with
    | None => Ret (fail BAD_REQUEST)
    | Some enabled => with_ids map (fun ids => each ids (fun id => SForceStart id enabled))
    end).

Definition set_location (po : Post) : Prog Answer :=
  with_form po (fun map =>
    match map !! str "location" ≫= nonempty_text with
    | None => Ret (fail BAD_REQUEST)
    | Some location => with_ids map (fun ids => each ids (fun id => SSavePath id location true))
    end).

Definition parse_index (text : bytes) : option nat := Z.to_nat <$> parse_uint U64_MAX text.

Definition file_prio (po : Post) : Prog Answer :=
  with_form po (fun map =>
    match map !! str "hash" ≫= parse_id, map !! str "priority" ≫= parse_int, map !! str "id" with
    | Some id, Some priority, Some ids =>
        let priority := from_qb_prio priority in
        await _ <- for_each (omap parse_index (split_list ids)) (fun index => ignore (call (SFilePriority id index priority)));
        Ret ok_body
    | _, _, _ => Ret (fail BAD_REQUEST)
    end).

Inductive QueueOp := QTop | QBottom | QUp | QDown.
Definition queue_op (po : Post) (op : QueueOp) : Prog Answer :=
  mutate_hashes po (fun id => match op with QTop => SQueueTop id | QBottom => SQueueBottom id | QUp => SQueueUp id | QDown => SQueueDown id end).
Definition queue_top (po : Post) : Prog Answer := queue_op po QTop.
Definition queue_bottom (po : Post) : Prog Answer := queue_op po QBottom.
Definition queue_up (po : Post) : Prog Answer := queue_op po QUp.
Definition queue_down (po : Post) : Prog Answer := queue_op po QDown.

(** *** Limits *)

Definition stats_of (w : World) (s : Session) : TransferStats := transfer_stats (wl_torrents w) (wl_pending w) s.

Definition transfer_info : Prog Answer := await stats <- read stats_of; Ret (ATransfer stats).
Definition download_limit : Prog Answer := await stats <- read stats_of; Ret (plain (to_string (ts_download_limit stats))).
Definition upload_limit : Prog Answer := await stats <- read stats_of; Ret (plain (to_string (ts_upload_limit stats))).

Definition set_one_limit (po : Post) (download : bool) : Prog Answer :=
  with_form po (fun map =>
    match map !! str "limit" ≫= parse_byte_limit with
    | None => Ret (fail BAD_REQUEST)
    | Some limit =>
        await old <- read (fun _ s => normal_rate_limits s);
        let '(dl, ul) := if download then (limit, snd old) else (fst old, limit) in
        await _ <- call (SRateLimits dl ul); Ret ok_body
    end).
Definition set_download_limit (po : Post) : Prog Answer := set_one_limit po true.
Definition set_upload_limit (po : Post) : Prog Answer := set_one_limit po false.

Definition alt_mode (s : Session) : bool := sl_alt_mode (ses_limits s).
Definition speed_limits_mode : Prog Answer := await on <- read (fun _ s => alt_mode s); Ret (plain (if on then str "1" else str "0")).
Definition toggle_speed_limits_mode : Prog Answer :=
  await on <- read (fun _ s => alt_mode s); await _ <- call (SAltMode (negb on)); Ret ok_body.

Definition set_speed_limits_mode (po : Post) : Prog Answer :=
  with_form po (fun map =>
    match (match map !! str "mode" with Some mode => Some mode | None => map !! str "value" end) with
    | Some mode =>
        match parse_bool mode with
        | Some on => await _ <- call (SAltMode on); Ret ok_body
        | None => Ret (fail BAD_REQUEST)
        end
    | None => toggle_speed_limits_mode
    end).

(** A limit among the preferences: none, a bad one, or a value. *)
Definition preference (prefs : gmap bytes JValue) (name : string) : option (option u64) :=
  match prefs !! str name with None => Some None | Some value => Some <$> json_limit value end.

(** Two limits, of which the given ones are changed. *)
Definition set_pair (prefs : gmap bytes JValue) (dl ul : string) (old : Session -> u64 * u64) (set : u64 -> u64 -> ses_op)
    (k : Prog Answer) : Prog Answer :=
  await before <- read (fun _ s => old s);
  match preference prefs dl, preference prefs ul with
  | Some download, Some upload =>
      match download, upload with
      | None, None => k
      | _, _ => await _ <- call (set (default (fst before) download) (default (snd before) upload)); k
      end
  | _, _ => Ret (fail BAD_REQUEST)
  end.

Definition alt_limits (s : Session) : u64 * u64 := (rl_rate (sl_alt_download (ses_limits s)), rl_rate (sl_alt_upload (ses_limits s))).

(** The normal limits are set before the others are looked at. *)
Definition set_preferences (po : Post) : Prog Answer :=
  with_form po (fun map =>
    match map !! str "json" ≫= json_object with
    | None => Ret (fail BAD_REQUEST)
    | Some prefs =>
        set_pair prefs "dl_limit" "up_limit" normal_rate_limits SRateLimits
          (set_pair prefs "alt_dl_limit" "alt_up_limit" alt_limits SAltLimits (Ret ok_body))
    end).

(** *** Adding torrents *)

Record AddFields := mkAddFields {
  af_urls : bytes; af_torrents : list bytes; af_savepath : option bytes; af_category : option bytes; af_tags : list bytes;
  af_paused : option bool; af_skip_checking : bool; af_sequential : bool; af_ratio_limit : option (option f64);
  af_seeding_time_limit : option (option u64); af_auto_tmm : option bool; af_download_limit : option u64; af_upload_limit : option u64 }.

Definition add_fields (map : Form) (torrents : list bytes) : option AddFields :=
  let flag name := map !! str name ≫= parse_bool in
  let paused :=
    match flag "paused"%string, flag "stopped"%string with
    | Some true, _ | _, Some true => Some true
    | None, None => None
    | _, _ => Some false
    end in
  ratio_limit ← optional_field map "ratioLimit" parse_ratio_limit;
  seeding_time_limit ← optional_field map "seedingTimeLimit" parse_seed_minutes;
  download_limit ← optional_field map "dlLimit" parse_byte_limit;
  upload_limit ← optional_field map "upLimit" parse_byte_limit;
  Some (mkAddFields (default [] (map !! str "urls")) torrents (nonempty (map !! str "savepath")) (nonempty (map !! str "category"))
    (default [] (split_tags <$> map !! str "tags")) paused (default false (flag "skip_checking"%string))
    (default false (flag "sequentialDownload"%string)) ratio_limit seeding_time_limit (flag "autoTMM"%string) download_limit upload_limit).

(** The files and the texts of a multipart body; a later text replaces an earlier
    one of the same name, one that is not UTF-8 is left out. *)
Fixpoint split_fields (parts : list Field) (textual : Form) (torrents : list bytes) : Form * list bytes :=
  match parts with
  | [] => (textual, torrents)
  | field :: parts =>
      let name := default [] (fd_name field) in
      if bool_decide (is_Some (fd_filename field)) || bool_decide (name ∈ [str "torrents"; str "torrent"]) then
        split_fields parts textual (match fd_bytes field with [] => torrents | content => torrents ++ [content] end)
      else if is_utf8 (fd_bytes field) then split_fields parts (<[name := fd_bytes field]> textual) torrents
      else split_fields parts textual torrents
  end.

Definition read_add_multipart (po : Post) : option AddFields :=
  parts ← po_parts po; let '(textual, torrents) := split_fields parts ∅ [] in add_fields textual torrents.

Definition add_defaults : AddTorrentOptions := mkAdd None false false None [] [] false false [] None false None None 0 0.

Definition apply_add_fields (o : AddTorrentOptions) (f : AddFields) : AddTorrentOptions :=
  mkAdd (match af_savepath f with Some path => Some path | None => ao_output_dir o end) (ao_seed o) (ao_verify o)
    (match af_paused f with Some paused => Some paused | None => ao_paused o end)
    (default (ao_category o) (af_category f))
    (match af_tags f with [] => ao_tags o | tags => tags end)
    (af_sequential f || ao_sequential o) (af_skip_checking f || ao_skip_checking o) (ao_file_priorities o)
    (match af_auto_tmm f with Some enabled => Some enabled | None => ao_auto_tmm o end) (ao_force_start o)
    (match af_ratio_limit f with Some (Some limit) => Some limit | _ => ao_ratio_limit o end)
    (match af_seeding_time_limit f with Some (Some minutes) => Some minutes | _ => ao_seeding_time_limit o end)
    (default (ao_download_limit o) (af_download_limit f)) (default (ao_upload_limit o) (af_upload_limit f)).

(** [AddSource] of [session.rs]. *)
Inductive AddSource := SourceMagnet (magnet : Magnet) | SourceMeta (meta : TorrentMeta).
Definition source_hash (source : AddSource) : bytes :=
  match source with SourceMagnet magnet => mg_info_hash magnet | SourceMeta meta => tm_info_hash meta end.

Definition is_known (s : Session) (id : bytes) : bool :=
  bool_decide (is_Some (ses_torrents s !! id)) || bool_decide (is_Some (ses_pending s !! id)).

(** When the files cannot be opened only the category has been made. *)
Definition add_failed (category : bytes) : Prog bool :=
  match category with
  | [] => Ret false
  | _ => await _ <- persisting (fun saves => SCreateCategory saves category None); Ret false
  end.

(** [Session::add_torrent], and whether it succeeds. *)
Definition add_to_session (source : AddSource) (opts : AddTorrentOptions) : Prog bool :=
  await known <- read (fun _ s => is_known s (source_hash source));
  if (known : bool) then Ret true
  else match source with
  | SourceMagnet magnet =>
      await o <- outside id;
      match ou_disk o with
      | None => add_failed (ao_category opts)
      | Some _ =>
          await _ <- call (SAddMagnet (ou_saves o) (mg_info_hash magnet) (name_or_hash magnet) (mg_trackers magnet) (mg_webseeds magnet) opts);
          Ret true
      end
  | SourceMeta meta =>
      match torrent_new meta with
      | Err _ => Ret false
      | Ok torrent =>
          await o <- outside id;
          match ou_disk o with
          | None => add_failed (ao_category opts)
          | Some (dht_allowed, d, cache_path, resumed) =>
              await _ <- call (SAddMeta (ou_saves o) dht_allowed torrent d cache_path resumed opts); Ret true
          end
      end
  end.

Definition meta_of (content : bytes) : option AddSource :=
  match meta_from_bytes sha1_digest de_torrent content with Ok meta => Some (SourceMeta meta) | Err _ => None end.

(** What a line of [urls] names: a magnet link, or a torrent file to fetch. *)
Definition source_of_url (url : bytes) : Prog (option AddSource) :=
  if starts_with (str "magnet:") url then
    Ret (match magnet_parse url with Ok magnet => Some (SourceMagnet magnet) | Err _ => None end)
  else if starts_with (str "http://") url || starts_with (str "https://") url then
    await content <- outside ou_fetched; Ret (content ≫= meta_of)
  else Ret None.

(** The number of torrents added. *)
Fixpoint add_all (fields : AddFields) (sources : list (Prog (option AddSource))) (added : nat) : Prog nat :=
  match sources with
  | [] => Ret added
  | source :: sources =>
      await source <- source;
      match source with
      | None => add_all fields sources added
      | Some source =>
          await ok <- add_to_session source (apply_add_fields add_defaults fields);
          add_all fields sources (if (ok : bool) then S added else added)
      end
  end.

Definition read_add_fields (po : Post) : option AddFields :=
  if starts_with (str "multipart/") (default [] (rq_header (po_request po) CONTENT_TYPE)) then read_add_multipart po
  else map ← read_form po; add_fields map [].

Definition add_torrent (po : Post) : Prog Answer :=
  match read_add_fields po with
  | None => Ret (fail BAD_REQUEST)
  | Some fields =>
      match trim_str (af_urls fields), af_torrents fields with
      | [], [] => Ret (fail BAD_REQUEST)
      | _, _ =>
          await added <- add_all fields (map (fun content => Ret (meta_of content)) (af_torrents fields) ++
                                         map source_of_url (split_urls (af_urls fields))) 0;
          Ret (match added with O => plain (str "Fails.") | S _ => ok_body end)
      end
  end.

(** *** Reading *)

Definition sort_infos (snaps : list TorrentSnapshot) : list TorrentSnapshot := merge_sort info_le snaps.

Definition selected (query : Form) (hashes : option (list bytes)) (snap : TorrentSnapshot) : bool :=
  passes_filter snap (default (str "all") (query !! str "filter")) &&
  match query !! str "category" with Some category => bool_decide (sn_category snap = category) | None => true end &&
  match query !! str "tag" with Some tag => bool_decide (tag ∈ sn_tags snap) | None => true end &&
  match hashes with Some ids => bool_decide (sn_id snap ∈ ids) | None => true end.

(** The list for [hashes=all] is read before the one that is filtered. *)
Definition select_torrents (query : Form) : Prog (list TorrentSnapshot) :=
  let pick hashes := await snaps <- read list_of; Ret (sort_infos (List.filter (selected query hashes) snaps)) in
  match query !! str "hashes" with
  | None => pick None
  | Some raw =>
      await ids <- ids_from (Some raw);
      match ids with Some ids => pick (Some ids) | None => Ret [] end
  end.

Definition torrents_info (query : Form) : Prog Answer :=
  await snaps <- select_torrents query; Ret (AInfos (map info_json snaps)).

Definition query_id (query : Form) : option bytes := query !! str "hash" ≫= parse_id.

(** [torrents/properties] shows the fields of a snapshot. *)
Definition torrent_properties (query : Form) : Prog Answer :=
  match query_id query with
  | None => Ret NOT_FOUND
  | Some id =>
      await snap <- read (fun _ s => session_snapshot s id);
      Ret (match snap with Some snap => ASnapshot snap | None => NOT_FOUND end)
  end.

Definition torrent_files (query : Form) : Prog Answer :=
  match query_id query with
  | None => Ret NOT_FOUND
  | Some id =>
      await files <- read (fun _ s => session_files s id);
      Ret (match files with Ok files => AFiles (map file_json files) | Err (NotFound _) => NOT_FOUND | Err _ => AEmptyList end)
  end.

Definition qb_piece_states (query : Form) : Prog Answer :=
  match query_id query with
  | None => Ret NOT_FOUND
  | Some id =>
      await states <- read (fun _ s => piece_states s id);
      Ret (match states with Ok states => APieces states | Err (NotFound _) => NOT_FOUND | Err _ => AEmptyList end)
  end.

Definition torrent_trackers (query : Form) : Prog Answer :=
  match query_id query with
  | None => Ret NOT_FOUND
  | Some id =>
      await snap <- read (fun _ s => session_snapshot s id);
      Ret (match snap with Some _ => AEmptyList | None => NOT_FOUND end)
  end.

Definition default_save_path : Prog Answer := await dir <- read (fun _ s => so_download_dir (ses_options s)); Ret (plain dir).

(** *** The polled state *)

(** The values of [maindata]. *)
Inductive SyncRow := RowInfo (info : InfoJson) | RowCategory (name save_path : bytes) | RowState (stats : TransferStats).
#[local] Instance f64_eq_dec : EqDecision f64.
Proof. solve_decision. Defined.
#[local] Instance InfoJson_eq_dec : EqDecision InfoJson.
Proof. solve_decision. Defined.
#[local] Instance TransferStats_eq_dec : EqDecision TransferStats.
Proof. solve_decision. Defined.
#[export] Instance SyncRow_eq_dec : EqDecision SyncRow.
Proof. solve_decision. Defined.

Definition tag_list (w : World) (s : Session) : list bytes := tag_row (⋃ map sn_tags (list_of w s)).
Definition torrent_rows (snaps : list TorrentSnapshot) : gmap bytes SyncRow :=
  list_to_map (map (fun snap => (hex_info_hash (sn_id snap), RowInfo (info_json snap))) snaps).
Definition category_rows (rows : list (bytes * bytes)) : gmap bytes SyncRow :=
  list_to_map (map (fun row => (fst row, RowCategory (fst row) (snd row))) rows).

(** The session is read piece by piece, then the answer is made under the lock of
    the cache: a function of the cache. *)
Definition sync_maindata (query : Form) : Prog (SyncInner (V := SyncRow) -> Update (V := SyncRow) * SyncInner (V := SyncRow)) :=
  let client_rid := default 0 (query !! str "rid" ≫= parse_uint U64_MAX) in
  await snaps <- read list_of;
  await rows <- read (fun _ s => category_map s);
  await tags <- read tag_list;
  await stats <- read stats_of;
  Ret (maindata client_rid (torrent_rows snaps) (category_rows rows) tags (RowState stats)).

(** ** The routes *)

Definition post_routes : list (string * (Post -> Prog Answer)) :=
  [ ("app/setPreferences", set_preferences);
    ("torrents/add", add_torrent); ("torrents/delete", delete_torrents);
    ("torrents/pause", pause_torrents); ("torrents/stop", pause_torrents);
    ("torrents/resume", resume_torrents); ("torrents/start", resume_torrents);
    ("torrents/recheck", recheck_torrents); ("torrents/setCategory", set_category);
    ("torrents/createCategory", create_category); ("torrents/removeCategories", remove_categories);
    ("torrents/addTags", add_tags); ("torrents/removeTags", remove_tags); ("torrents/setTags", set_tags);
    ("torrents/setShareLimits", set_share_limits); ("torrents/setForceStart", set_force_start);
    ("torrents/setLocation", set_location); ("torrents/filePrio", file_prio);
    ("torrents/topPrio", queue_top); ("torrents/bottomPrio", queue_bottom);
    ("torrents/increasePrio", queue_up); ("torrents/decreasePrio", queue_down);
    ("transfer/downloadLimit", set_download_limit); ("transfer/setDownloadLimit", set_download_limit);
    ("transfer/uploadLimit", set_upload_limit); ("transfer/setUploadLimit", set_upload_limit);
    ("transfer/speedLimitsMode", set_speed_limits_mode);
    ("transfer/toggleSpeedLimitsMode", fun _ => toggle_speed_limits_mode) ]%string.

Definition get_routes : list (string * (Form -> Prog Answer)) :=
  [ ("app/version", fun _ => Ret (plain QB_VERSION)); ("app/webapiVersion", fun _ => Ret (plain WEBAPI_VERSION));
    ("app/defaultSavePath", fun _ => default_save_path);
    ("torrents/info", torrents_info); ("torrents/properties", torrent_properties); ("torrents/files", torrent_files);
    ("torrents/pieceStates", qb_piece_states); ("torrents/trackers", torrent_trackers);
    ("torrents/categories", fun _ => categories); ("torrents/tags", fun _ => Ret AEmptyList);
    ("transfer/info", fun _ => transfer_info); ("transfer/downloadLimit", fun _ => download_limit);
    ("transfer/uploadLimit", fun _ => upload_limit); ("transfer/speedLimitsMode", fun _ => speed_limits_mode);
    ("rss/rules", fun _ => Ret AEmptyObject); ("rss/items", fun _ => Ret AEmptyList);
    ("search/plugins", fun _ => Ret AEmptyList); ("search/categories", fun _ => Ret AEmptyList) ]%string.

Fixpoint find_route {H : Type} (path : bytes) (routes : list (string * H)) : option H :=
  match routes with
  | [] => None
  | (name, handler) :: routes => if decide (path = str "/api/v2/" ++ str name) then Some handler else find_route path routes
  end.

Definition handle_post (po : Post) : option (Prog Answer) :=
  (fun handler => handler po) <$> find_route (rq_path (po_request po)) post_routes.
Definition handle_get (path : bytes) (query : Form) : option (Prog Answer) :=
  (fun handler => handler query) <$> find_route path get_routes.
End Handlers.

(** ** Requests do what they say *)

Lemma str_inj a b : str a = str b -> a = b.
Proof.
  revert b. induction a as [|c a IH]; intros [|d b]; cbn; try done. intros [= Hc Hr].
  apply N2Z.inj, (f_equal Ascii.ascii_of_N) in Hc. rewrite !Ascii.ascii_N_embedding in Hc. subst. f_equal. by apply IH.
Qed.

Lemma find_route_in {H : Type} name (h : H) routes :
  NoDup (map fst routes) -> (name, h) ∈ routes -> find_route (str "/api/v2/" ++ str name) routes = Some h.
Proof.
  induction routes as [|[name' h'] routes IH]; cbn [map fst find_route]; [by intros _ ?%not_elem_of_nil|].
  intros [Hn Hnd]%NoDup_cons [[= -> ->]|Hin]%elem_of_cons; [by rewrite decide_True|].
  rewrite decide_False; [by apply IH|]. intros ->%app_inv_head%str_inj. apply Hn, list_elem_of_fmap. by exists (name', h).
Qed.

Lemma find_route_elem {H : Type} path (h : H) routes :
  find_route path routes = Some h -> exists name, (name, h) ∈ routes /\ path = str "/api/v2/" ++ str name.
Proof.
  induction routes as [|[name h'] routes IH]; cbn [find_route]; [done|]. case_decide as Hp.
  - intros [= ->]. exists name. split; [by left|done].
  - intros (n & Hin & ->)%IH. exists n. split; [by right|done].
Qed.

Section Proofs.
Context (urlencoded : bytes -> option Form) (json_object : bytes -> option (gmap bytes JValue)).
Context (sha1_digest : bytes -> bytes) (de_torrent : bytes -> option TorrentFile).

Abbreviation handle_post := (handle_post urlencoded json_object sha1_digest de_torrent).
Abbreviation post_routes := (post_routes urlencoded json_object sha1_digest de_torrent).
Abbreviation read_form := (read_form urlencoded).

(** *** Bad requests *)

Definition accepted (a : Answer) : Prop := status_of a <> BAD_REQUEST.

Lemma validates_form po k : (forall map, validates accepted (k map)) -> validates accepted (with_form urlencoded po k).
Proof. intros Hk. unfold with_form. destruct (read_form po); [apply Hk|done]. Qed.

Lemma validates_ids map k : (forall ids, validates accepted (k ids)) -> validates accepted (with_ids map k).
Proof.
  intros Hk. unfold with_ids, ids_from. destruct (trim_str <$> _) as [[|c raw]|]; cbn; try done.
  case_decide; cbn; [intros; apply Hk|]. destruct (omap _ _); [done|apply Hk].
Qed.

Lemma validates_each ids op : validates accepted (each ids op).
Proof. apply ends_validates, ends_bind. done. Qed.

Lemma validates_loop {A} (l : list A) (f : A -> Prog ()) : validates accepted (pbind (for_each l f) (fun _ => Ret ok_body)).
Proof. apply ends_validates, ends_bind. done. Qed.

Create HintDb requests.
#[local] Hint Resolve validates_each validates_loop : requests.

(** Every handler but that of the preferences looks at all its fields before its
    first operation. *)
Lemma post_validates : Forall (fun e => fst e = "app/setPreferences"%string \/ forall po, validates accepted (snd e po)) post_routes.
Proof.
  assert (Hq : forall po op, validates accepted (mutate_hashes urlencoded po op)).
  { intros po op. apply validates_form. intros map. apply validates_ids. auto with requests. }
  assert (Htags : forall po op, validates accepted (tags_op urlencoded po op)).
  { intros po op. apply validates_form. intros map. apply validates_ids. auto with requests. }
  assert (Hlimit : forall po dl, validates accepted (set_one_limit urlencoded po dl)).
  { intros po dl. apply validates_form. intros map. destruct (_ ≫= parse_byte_limit); [|done]. cbn. intros w s. destruct dl; cbn; done. }
  unfold post_routes. repeat apply Forall_cons_2; try apply Forall_nil_2; cbn [fst snd].
  all: try (right; intros po;
    unfold pause_torrents, resume_torrents, queue_top, queue_bottom, queue_up, queue_down, queue_op, add_tags, remove_tags, set_tags,
      set_download_limit, set_upload_limit;
    lazymatch goal with
    | |- validates _ (mutate_hashes _ _ _) => apply Hq
    | |- validates _ (tags_op _ _ _) => apply Htags
    | |- validates _ (set_one_limit _ _ _) => apply Hlimit
    end).
  - by left.
  - right. intros po. unfold add_torrent. destruct (read_add_fields _ _) as [f|]; [|done].
    destruct (trim_str _) as [|c cs], (af_torrents f) as [|x xs]; [done|..]; apply ends_validates, ends_bind; by intros [].
  - right. intros po. apply validates_form. intros map. apply validates_ids. auto with requests.
  - right. intros po. apply validates_form. intros map. apply validates_ids. auto with requests.
  - right. intros po. apply validates_form. intros map. destruct (map !! _); [|done]. apply validates_ids. auto with requests.
  - right. intros po. apply validates_form. intros map. destruct (default _ _) as [|c cs]; [done|]. cbn. intros o r. by destruct r as [|[]].
  - right. intros po. apply validates_form. intros map. destruct (map !! _); [|done]. auto with requests.
  - right. intros po. apply validates_form. intros map. apply validates_ids. intros ids.
    destruct (optional_field map "ratioLimit" parse_ratio_limit); [|done].
    destruct (optional_field map "seedingTimeLimit" parse_seed_minutes); [|done]. auto with requests.
  - right. intros po. apply validates_form. intros map. destruct (_ ≫= _); [|done]. apply validates_ids. auto with requests.
  - right. intros po. apply validates_form. intros map. destruct (_ ≫= _); [|done]. apply validates_ids. auto with requests.
  - right. intros po. apply validates_form. intros map.
    destruct (map !! str "hash" ≫= parse_id); [|done]. destruct (map !! str "priority" ≫= parse_int); [|done].
    destruct (map !! str "id"); [|done]. auto with requests.
  - right. intros po. apply validates_form. intros map.
    destruct (match map !! str "mode" with Some _ => _ | None => _ end) as [mode|]; [destruct (parse_bool mode); done|done].
  - right. done.
Qed.

(** *** Commands

    What each route is for: the operation for a torrent, given the fields and, for the
    last argument, whether the list of categories can be written. *)
Definition commands (form : Form) : list (string * option (bytes -> bool -> ses_op)) :=
  let delete_files := default false (form !! str "deleteFiles" ≫= parse_bool) in
  let tags := default [] (split_tags <$> form !! str "tags") in
  [ ("torrents/pause", Some (fun id _ => SPause id)); ("torrents/stop", Some (fun id _ => SPause id));
    ("torrents/resume", Some (fun id _ => SResume id)); ("torrents/start", Some (fun id _ => SResume id));
    ("torrents/recheck", Some (fun id _ => SRecheck id)); ("torrents/delete", Some (fun id _ => SRemove id delete_files));
    ("torrents/setCategory", (fun category id saves => SSetCategory saves id (trim_str category)) <$> form !! str "category");
    ("torrents/addTags", Some (fun id _ => SAddTags id tags)); ("torrents/removeTags", Some (fun id _ => SRemoveTags id tags));
    ("torrents/setTags", Some (fun id _ => SSetTags id tags));
    ("torrents/setForceStart", (fun enabled id _ => SForceStart id enabled) <$> (form !! str "value" ≫= parse_bool));
    ("torrents/setLocation", (fun location id _ => SSavePath id location true) <$> (form !! str "location" ≫= nonempty_text));
    ("torrents/topPrio", Some (fun id _ => SQueueTop id)); ("torrents/bottomPrio", Some (fun id _ => SQueueBottom id));
    ("torrents/increasePrio", Some (fun id _ => SQueueUp id)); ("torrents/decreasePrio", Some (fun id _ => SQueueDown id)) ]%string.

Definition done_for (f : bytes -> bool -> ses_op) (id : bytes) (op : ses_op) : Prop := exists saves, op = f id saves.

Lemma performs_persisting (op : bool -> ses_op) s tr s' r : performs s (persisting op) tr s' r -> exists saves, own tr = [op saves].
Proof.
  intros (tr0 & tr1 & s1 & -> & Ho & _ & o & H)%performs_inv. exists (ou_saves o). rewrite own_app, Ho.
  change (pbind (Ret (ou_saves o)) (fun saves => call (op saves))) with (call (op (ou_saves o))) in H. by apply performs_call in H.
Qed.

Lemma performs_each_of (f : bytes -> bool -> ses_op) (g : bytes -> Prog ()) ids s tr s' a :
  (forall id, g id = ignore (call (f id true)) \/ g id = ignore (persisting (f id))) ->
  performs s (pbind (for_each ids g) (fun _ => Ret ok_body)) tr s' a -> a = ok_body /\ Forall2 (done_for f) ids (own tr).
Proof.
  intros Hg (tr0 & tr1 & s1 & [] & -> & H0 & (-> & H1 & _)%performs_ret)%performs_bind. split; [done|].
  rewrite own_app, H1, app_nil_r. eapply performs_for; [|exact H0]. intros id s2 tr2 s3 [] H.
  destruct (Hg id) as [E|E]; rewrite E in H; apply performs_ignore in H as (b & t0 & t1 & s4 & -> & H & Ht).
  - apply performs_call in H. exists (f id true). rewrite own_app, H, Ht. by split; [|exists true].
  - apply performs_persisting in H as [saves H]. exists (f id saves). rewrite own_app, H, Ht. by split; [|exists saves].
Qed.

(** The torrents a text names when the program gets to them. *)
Definition names (raw : bytes) (s : Session) (tr : list Event) (ids : list bytes) : Prop :=
  (ids <> [] /\ Forall wf_hash ids /\ raw = join_bars ids) \/
  (raw = str "all" /\ exists tr0 tr1 w s1, tr = tr0 ++ tr1 /\ own tr0 = [] /\ ses_run s (map snd tr0) s1 /\ regular w /\ ids = map sn_id (list_of w s1)).

Lemma trim_join_bars ids : Forall wf_hash ids -> trim_str (join_bars ids) = join_bars ids.
Proof.
  intros H. apply trim_str_plain. unfold join_bars.
  assert (Hh : forall id, wf_hash id -> Forall (fun c => is_ascii c /\ is_whitespace c = false) (hex_info_hash id)).
  { intros id [_ Hw]. eapply Forall_impl; [exact (proj1 (hex_plain id Hw))|by intros c (? & ? & ?)]. }
  destruct H as [|id ids Hid H]; [constructor|]. cbn [map concat]. apply Forall_app_2; [by apply Hh|].
  apply Forall_concat, Forall_fmap, Forall_fmap. eapply Forall_impl; [exact H|]. intros x Hx. cbn. constructor; [done|by apply Hh].
Qed.

Lemma ids_from_bars ids : ids <> [] -> Forall wf_hash ids -> ids_from (Some (join_bars ids)) = Ret (Some ids).
Proof.
  intros Hn H. unfold ids_from. cbn [fmap option_fmap option_map]. rewrite trim_join_bars by done.
  destruct (join_bars ids) as [|c raw] eqn:E.
  { destruct H as [|id ids [Hl _] _]; [done|]. unfold join_bars in E. cbn [map concat] in E. apply app_eq_nil in E as [E _].
    pose proof (length_hex_hash id) as HL. rewrite E, Hl in HL. done. }
  rewrite <- E. rewrite decide_False.
  - rewrite split_join_bars by done. assert (Homap : omap parse_id (map hex_info_hash ids) = ids).
    { clear -H. induction H as [|id ids Hid _ IH]; [done|]. cbn [map]. cbn. rewrite parse_id_hex by done. f_equal. exact IH. }
    rewrite Homap. destruct ids; [done|done].
  - intros Hall. destruct H as [|id ids [Hl _] _]; [done|]. apply (f_equal length) in Hall. unfold join_bars in Hall. cbn [map concat] in Hall.
    rewrite length_app, length_hex_hash, Hl in Hall. change (length (str "all")) with 3%nat in Hall. lia.
Qed.

Lemma performs_with_ids f g form raw s tr s' a :
  form !! str "hashes" = Some raw -> (forall id, g id = ignore (call (f id true)) \/ g id = ignore (persisting (f id))) ->
  (raw = str "all" \/ exists ids, ids <> [] /\ Forall wf_hash ids /\ raw = join_bars ids) ->
  performs s (with_ids form (fun ids => pbind (for_each ids g) (fun _ => Ret ok_body))) tr s' a ->
  exists ids, names raw s tr ids /\ a = ok_body /\ Forall2 (done_for f) ids (own tr).
Proof.
  intros Hraw Hg Hids. unfold with_ids. rewrite Hraw. destruct Hids as [->|(ids & Hn & Hw & ->)].
  - intros (tr0 & tr1 & w & s1 & -> & Ho & Hr & Hw & H)%performs_read. apply (performs_each_of f g) in H as [-> H]; [|done].
    exists (map sn_id (list_of w s1)). rewrite own_app, Ho. split_and!; [|done|done]. right. split; [done|]. by exists tr0, tr1, w, s1.
  - rewrite ids_from_bars by done. intros H. apply (performs_each_of f g) in H as [-> H]; [|done].
    exists ids. split_and!; [by left|done|done].
Qed.

Lemma post_names_NoDup : NoDup (map fst post_routes).
Proof. apply (bool_decide_unpack _). by vm_compute. Qed.

Lemma route_of name h po : (name, h) ∈ post_routes -> rq_path (po_request po) = str "/api/v2/" ++ str name -> handle_post po = Some (h po).
Proof. intros Hin Hp. unfold Qbit.handle_post. rewrite Hp, (find_route_in name h); [done|apply post_names_NoDup|done]. Qed.
End Proofs.

(** C20: a request that names torrents, by a list of their hashes or by [all], does
    exactly one operation for each of them in order, the one its path stands for with
    the parameters of its form, and answers [Ok.], whatever the operations answer
    and whatever other tasks do to the session in between; [all] are the torrents
    listed when the request is read.  All that happens is a run of operations of
    the session. *)
Theorem qb_commands_exact urlencoded json_object sha1_digest de_torrent po form name f raw p s tr s' a :
  (name, Some f) ∈ commands form -> rq_path (po_request po) = str "/api/v2/" ++ str name ->
  read_form urlencoded po = Some form -> form !! str "hashes" = Some raw ->
  (raw = str "all" \/ exists ids, ids <> [] /\ Forall wf_hash ids /\ raw = join_bars ids) ->
  handle_post urlencoded json_object sha1_digest de_torrent po = Some p -> performs s p tr s' a ->
  exists ids, names raw s tr ids /\ a = ok_body /\ Forall2 (done_for f) ids (own tr) /\ ses_run s (map snd tr) s'.
Proof.
  intros Hname Hpath Hform Hraw Hids Hp Hrun. pose proof (performs_run _ _ _ _ _ Hrun) as Hses.
  assert (Hgo : forall h g, (name, h) ∈ post_routes urlencoded json_object sha1_digest de_torrent ->
    h po = with_ids form (fun ids => pbind (for_each ids g) (fun _ => Ret ok_body)) ->
    (forall id, g id = ignore (call (f id true)) \/ g id = ignore (persisting (f id))) ->
    exists ids, names raw s tr ids /\ a = ok_body /\ Forall2 (done_for f) ids (own tr) /\ ses_run s (map snd tr) s').
  { intros h g Hin Hh Hg. rewrite (route_of _ _ _ _ name h po Hin Hpath) in Hp. injection Hp as <-. rewrite Hh in Hrun.
    destruct (performs_with_ids f g form raw s tr s' a Hraw Hg Hids Hrun) as (ids & H1 & H2 & H3). by exists ids. }
  assert (Hwf : forall k, with_form urlencoded po k = k form) by (intros k; unfold with_form; by rewrite Hform).
  unfold commands in Hname.
  repeat (apply elem_of_cons in Hname as [Hname|Hname]; [|]); [..|by apply not_elem_of_nil in Hname].
  all: injection Hname as -> Hf.
  all: try (apply eq_sym, fmap_Some in Hf as (x & Hx & ->)).
  all: try subst f.
  all: eapply Hgo; [unfold post_routes; apply list_elem_of_In; cbn [In]; auto 40| |].
  all: unfold pause_torrents, resume_torrents, recheck_torrents, delete_torrents, set_category, add_tags, remove_tags, set_tags,
    set_force_start, set_location, queue_top, queue_bottom, queue_up, queue_down, queue_op, tags_op, mutate_hashes, each;
    rewrite ?Hwf, ?Hx; try reflexivity.
  all: intros id; (by left) || (by right).
Qed.

(** A pause of two torrents by hash while another task pauses all, as it is seen by
    the session of SessionSafe. *)
Definition example_hash_text (b : Z) : bytes := replicate 20 b.
Definition example_form (hashes : bytes) (body : bytes) : option Form := Some {[ str "hashes" := hashes ]}.
Definition example_post (path : string) : Post :=
  mkPost (mkRequest (str "POST") (str "/api/v2/" ++ str path) None (fun _ => None) [1]) true None.
Definition example_ids : list bytes := [replicate 20 1; replicate 20 255].
Definition example_outer : Outer := mkOuter true None None.
Definition example_pause : Prog Answer := pause_torrents (example_form (join_bars example_ids)) (example_post "torrents/pause").
Definition example_trace : list Event := (false, (example_world, SPauseAll)) :: map (fun id => (true, (example_world, SPause id))) example_ids.
Definition example_end : Session := fold_left (fun s e => ses_exec example_world (snd (snd e)) s) example_trace example_start.

Lemma example_performs : performs example_start example_pause example_trace example_end ok_body.
Proof.
  assert (Hw : regular example_world) by (split; apply _).
  apply POther; [exact Hw|].
  apply (perform_performs example_world example_outer _ example_pause ok_body (map SPause example_ids) example_end Hw).
  vm_compute. reflexivity.
Qed.

Lemma qb_commands_exact_witness :
  exists ids, names (join_bars example_ids) example_start example_trace ids /\ ok_body = ok_body /\
    Forall2 (done_for (fun id _ => SPause id)) ids (own example_trace) /\ ses_run example_start (map snd example_trace) example_end.
Proof.
  apply (qb_commands_exact (example_form (join_bars example_ids)) (fun _ => None) (fun b => b) (fun _ => None)
    (example_post "torrents/pause") {[ str "hashes" := join_bars example_ids ]} "torrents/pause" (fun id _ => SPause id)
    (join_bars example_ids) example_pause).
  - left.
  - reflexivity.
  - vm_compute. reflexivity.
  - vm_compute. reflexivity.
  - right. exists example_ids. split_and!; [done| |done]. repeat (apply Forall_cons; split); [..|by apply Forall_nil]; split; try reflexivity; apply Forall_replicate; by vm_compute.
  - reflexivity.
  - exact example_performs.
Defined.

(** C21: a request of this interface that is answered with the status of a bad request
    has called no operation of the session, whatever part of it was bad and whatever
    happened around it, except when it sets the preferences. *)
Theorem qb_bad_request_harmless urlencoded json_object sha1_digest de_torrent po p s tr s' a :
  handle_post urlencoded json_object sha1_digest de_torrent po = Some p ->
  rq_path (po_request po) <> str "/api/v2/app/setPreferences" ->
  performs s p tr s' a -> status_of a = BAD_REQUEST -> own tr = [].
Proof.
  unfold handle_post. intros Hp Hpath Hrun Hbad. destruct (find_route _ _) as [h|] eqn:Hr; [|done]. injection Hp as <-.
  apply find_route_elem in Hr as (name & Hin & Hn).
  destruct (proj1 (Forall_forall _ _) (post_validates urlencoded json_object sha1_digest de_torrent) _ Hin) as [He|Hv].
  - exfalso. apply Hpath. rewrite Hn. cbn [fst] in He. by rewrite He.
  - by destruct (validates_performs _ _ _ _ _ _ (Hv po) Hrun).
Qed.

Lemma qb_bad_request_harmless_witness :
  own [(false, (example_world, SPauseAll))] = [] /\
  performs example_start (set_one_limit (example_form []) (example_post "transfer/setDownloadLimit") true)
    [(false, (example_world, SPauseAll))] (ses_exec example_world SPauseAll example_start) (fail BAD_REQUEST).
Proof.
  assert (H : performs example_start (set_one_limit (example_form []) (example_post "transfer/setDownloadLimit") true)
    [(false, (example_world, SPauseAll))] (ses_exec example_world SPauseAll example_start) (fail BAD_REQUEST)).
  { apply POther; [split; apply _|]. apply PRet. }
  split; [|exact H].
  refine (qb_bad_request_harmless (example_form []) (fun _ => None) (fun b => b) (fun _ => None)
    (example_post "transfer/setDownloadLimit") _ _ _ _ _ _ _ H _); [reflexivity|by vm_compute|reflexivity].
Defined.

(** The exception: with a bad alternative limit the answer is a bad request, but the
    normal limits are already set. *)
Example preferences_applied_in_part :
  let prefs : gmap bytes JValue := {[ str "dl_limit" := JNumber (f64_of 1000); str "alt_dl_limit" := JOther ]} in
  let form := fun _ => Some ({[ str "json" := [] ]} : Form) in
  let '(a, ops, s) := perform example_world example_outer example_start (set_preferences form (fun _ => Some prefs) (example_post "app/setPreferences")) in
  a = fail BAD_REQUEST /\ ops = [SRateLimits 1000 0] /\ normal_rate_limits s = (1000, 0).
Proof. vm_compute. done. Qed.

(** A limit is read and written back in two steps: when another request sets the
    other limit in between, that one is undone. *)
Lemma limit_update_lost :
  exists tr s', performs example_start (set_one_limit (fun _ => Some {[ str "limit" := str "500" ]}) (example_post "transfer/setDownloadLimit") true) tr s' ok_body /\
    (false, (example_world, SRateLimits 0 300)) ∈ tr /\ normal_rate_limits s' = (500, 0).
Proof.
  assert (Hw : regular example_world) by (split; apply _).
  eexists [_; _], _. split_and!; [|left|].
  - unfold set_one_limit. apply (PRead _ example_world _ _ _ _ Hw). vm_compute normal_rate_limits.
    apply (POther _ example_world (SRateLimits 0 300) _ _ _ _ Hw). apply (PDo _ example_world _ _ _ _ _ Hw). apply PRet.
  - vm_compute. reflexivity.
Qed.

#[export] Instance info_le_trans : Transitive info_le.
Proof. intros a b c. apply cmp_list_le_trans. Qed.
#[export] Instance info_le_total : Total info_le.
Proof. intros a b. unfold info_le. rewrite (cmp_list_antisym (info_key a)). destruct (cmp_list _ _); cbn; auto. Qed.

(** The list shows the torrents that pass, once each, the oldest first. *)
Lemma select_exact w s query hashes :
  regular w -> (forall id t, ses_torrents s !! id = Some t -> t_info_hash (t_torrent t) = id) ->
  let l := sort_infos (List.filter (selected query hashes) (list_of w s)) in
  StronglySorted info_le l /\ NoDup (map sn_id l) /\
  (forall id x, x ∈ l /\ sn_id x = id <-> session_snapshot s id = Some x /\ selected query hashes x = true).
Proof.
  intros [Hit Hip] Hid l. destruct (session_list_exact (wl_torrents w) (wl_pending w) s Hid) as [Hnd Hex].
  assert (Hperm : l ≡ₚ List.filter (selected query hashes) (list_of w s)) by apply merge_sort_Permutation.
  split_and!.
  - apply Sorted_StronglySorted; [apply _|]. apply Sorted_merge_sort, _.
  - rewrite Hperm. eapply sublist_NoDup; [exact Hnd|]. apply (fmap_sublist sn_id).
    change (session_list (wl_torrents w) (wl_pending w) s) with (list_of w s). clear.
    induction (list_of w s) as [|x xs IH]; cbn [List.filter]; [constructor|]. destruct (selected _ _ _); by constructor.
  - intros id x. rewrite Hex, Hperm, !list_elem_of_In, filter_In. unfold list_of. tauto.
Qed.
