(* ===== verification/Api.v ===== *)
(** * The native interface (crates/server/src/api.rs)

    The handlers of [/api/v1] as programs over the session (Requests): one torrent a
    request, errors with their status, bodies decoded by serde into the records
    below. *)

From S2P Require Import Prelude Utf8 Bencode Text Value Float Rate Metainfo Layout Bitfield Message PeerStates Picker Priority Download Choke.
From S2P Require Import ExtHandshake Peers Metadata Pex Registry Pipeline AllowedFast PeerHandler PeerTasks PeerSwarm Session SessionQueue.
From S2P Require Import IpFilter Magnet Lsd SessionSafe SessionView FormText Requests Auth SyncCache Qbit.

#[local] Open Scope prog_scope.

(** ** Answers *)

(** What a handler answers: a status with a value, or an error with its status. *)
Inductive ApiBody :=
| BSnapshot (snap : TorrentSnapshot) | BSnapshots (snaps : list TorrentSnapshot)
| BFiles (files : list (FileInfo * bytes)) | BCategories (rows : list (bytes * option bytes)) | BCategory (row : bytes * option bytes)
| BStats (stats : TransferStats) | BLimits (normal alt : u64 * u64) (alt_mode : bool) | BOk.

Definition Api : Type := result (Z * ApiBody) Z.
Definition BAD : Z := 400.

(** [control] *)
Definition control (err : ControlError) : Z :=
  match err with
  | NotFound _ | CategoryNotFound _ => 404
  | NoSuchFile _ _ => 400
  | NoMetadata _ | CategoryExists _ => 409
  | CategoryPersist | MoveFailed _ _ => 500
  end.

(** [call(..).map_err(control)?] *)
Definition or_error {A} (r : result A ControlError) (k : Prog Api) : Prog Api :=
  match r with Ok _ => k | Err e => Ret (Err (control e)) end.

Definition with_hash (hash : bytes) (k : bytes -> Prog Api) : Prog Api :=
  match parse_hash hash with Some id => k id | None => Ret (Err BAD) end.

(** ** One torrent *)

Definition snapshot_reply (status : Z) (id : bytes) : Prog Api :=
  await snap <- read (fun _ s => session_snapshot s id);
  Ret (match snap with Some snap => Ok (status, BSnapshot snap) | None => Err 404 end).

(** [FileBody]: the priority by its name. *)
Definition file_body (info : FileInfo) : FileInfo * bytes := (info, priority_name (fi_priority info)).

Definition files_reply (id : bytes) : Prog Api :=
  await files <- read (fun _ s => session_files s id);
  Ret (match files with
       | Ok files => Ok (200, BFiles (map file_body files))
       | Err (NoMetadata _) => Ok (200, BFiles [])
       | Err e => Err (control e)
       end).

Definition list_torrents : Prog Api := await snaps <- read list_of; Ret (Ok (200, BSnapshots snaps)).
Definition get_torrent (hash : bytes) : Prog Api := with_hash hash (snapshot_reply 200).

Definition act_on (hash : bytes) (op : bytes -> ses_op) : Prog Api :=
  with_hash hash (fun id => await r <- call (op id); or_error r (snapshot_reply 200 id)).
Definition pause_torrent (hash : bytes) : Prog Api := act_on hash SPause.
Definition resume_torrent (hash : bytes) : Prog Api := act_on hash SResume.
Definition recheck_torrent (hash : bytes) : Prog Api := act_on hash SRecheck.

(** [DeleteQuery::delete_files] *)
Definition delete_files (value : option bytes) : bool :=
  match value with
  | Some value => bool_decide (to_ascii_lowercase (trim_str value) ∈ [str "1"; str "true"; str "yes"; str "on"])
  | None => false
  end.

Definition delete_torrent (hash : bytes) (value : option bytes) : Prog Api :=
  with_hash hash (fun id => await r <- call (SRemove id (delete_files value)); or_error r (Ret (Ok (200, BOk)))).

Definition list_files (hash : bytes) : Prog Api := with_hash hash files_reply.

(** [PatchFiles] *)
Record PatchFiles := mkPatchFiles { pf_priorities : option (list bytes); pf_files : option (list (nat * bytes)) }.

Definition set_all (id : bytes) (priorities : option (list bytes)) : Prog (result () Z) :=
  match priorities with
  | None => Ret (Ok ())
  | Some priorities =>
      match mapM parse_priority priorities with
      | None => Ret (Err BAD)
      | Some parsed => await r <- call (SFilePriorities id parsed); Ret (match r with Ok _ => Ok () | Err e => Err (control e) end)
      end
  end.

(** Each file is set before the next one is looked at. *)
Definition set_one (id : bytes) (file : nat * bytes) : Prog (result () Z) :=
  match parse_priority (snd file) with
  | None => Ret (Err BAD)
  | Some priority => await r <- call (SFilePriority id (fst file) priority); Ret (match r with Ok _ => Ok () | Err e => Err (control e) end)
  end.

Definition patch_files (hash : bytes) (body : PatchFiles) : Prog Api :=
  with_hash hash (fun id =>
    match pf_priorities body, pf_files body with
    | None, None => Ret (Err BAD)
    | _, _ =>
        await r <- set_all id (pf_priorities body);
        match r with
        | Err status => Ret (Err status)
        | Ok _ =>
            await r <- try_each (default [] (pf_files body)) (set_one id);
            match r with Err status => Ret (Err status) | Ok _ => files_reply id end
        end
    end).

(** ** Categories *)

Definition category_rows (s : Session) : list (bytes * option bytes) :=
  merge_sort (fun a b => hash_le (fst a) (fst b)) (map (fun e => (cat_name (snd e), cat_save_path (snd e))) (map_to_list (ses_categories s))).
Definition list_categories : Prog Api := await rows <- read (fun _ s => category_rows s); Ret (Ok (200, BCategories rows)).

Definition api_create_category (name : bytes) (path : option bytes) : Prog Api :=
  match trim_str name with
  | [] => Ret (Err BAD)
  | name =>
      let save_path := nonempty path in
      await r <- persisting (fun saves => SCreateCategory saves name save_path);
      or_error r (Ret (Ok (201, BCategory (name, save_path))))
  end.

(** ** Settings *)

(** [SettingsPatch] *)
Record SettingsPatch := mkPatch {
  sp_download_limit : option u64; sp_upload_limit : option u64; sp_alt_download_limit : option u64; sp_alt_upload_limit : option u64;
  sp_alt_mode : option bool }.

Definition is_none {A} (o : option A) : bool := match o with None => true | Some _ => false end.
Definition patch_is_empty (p : SettingsPatch) : bool :=
  is_none (sp_download_limit p) && is_none (sp_upload_limit p) && is_none (sp_alt_download_limit p) && is_none (sp_alt_upload_limit p) &&
  is_none (sp_alt_mode p).

(** The limits of [settings_body]; the rest are options that do not change. *)
Definition settings_body : Prog Api :=
  await normal <- read (fun _ s => normal_rate_limits s);
  await alt <- read (fun _ s => (alt_limits s, alt_mode s));
  Ret (Ok (200, BLimits normal (fst alt) (snd alt))).

Definition patch_pair (download upload : option u64) (old : Session -> u64 * u64) (set : u64 -> u64 -> ses_op) : Prog () :=
  if is_none download && is_none upload then Ret ()
  else
    await before <- read (fun _ s => old s);
    ignore (call (set (default (fst before) download) (default (snd before) upload))).

Definition patch_settings (body : SettingsPatch) : Prog Api :=
  if patch_is_empty body then Ret (Err BAD)
  else
    await _ <- patch_pair (sp_download_limit body) (sp_upload_limit body) normal_rate_limits SRateLimits;
    await _ <- patch_pair (sp_alt_download_limit body) (sp_alt_upload_limit body) alt_limits SAltLimits;
    await _ <- (match sp_alt_mode body with Some on => ignore (call (SAltMode on)) | None => Ret () end);
    settings_body.

Definition session_info : Prog Api := await stats <- read stats_of; Ret (Ok (200, BStats stats)).

(** ** Adding torrents *)

Record AddInput := mkAddInput {
  ai_magnet : option bytes; ai_torrent : option bytes; ai_save_path : option bytes; ai_category : option bytes;
  ai_tags : option (list bytes); ai_paused : option bool; ai_sequential : option bool }.
Definition empty_input : AddInput := mkAddInput None None None None None None None.

(** [flag]: [parse_bool] of the other interface. *)
Definition or_flag (text : bytes) (old : option bool) : option bool := match parse_bool text with Some b => Some b | None => old end.

Definition add_text (name text : bytes) (i : AddInput) : AddInput :=
  let '(mkAddInput magnet torrent path category tags paused sequential) := i in
  if decide (name = str "magnet") then mkAddInput (Some text) torrent path category tags paused sequential
  else if decide (name = str "save_path") then mkAddInput magnet torrent (Some text) category tags paused sequential
  else if decide (name = str "category") then mkAddInput magnet torrent path (Some text) tags paused sequential
  else if decide (name = str "tags") then mkAddInput magnet torrent path category (Some (default [] tags ++ split_tags text)) paused sequential
  else if decide (name = str "paused") then mkAddInput magnet torrent path category tags (or_flag text paused) sequential
  else if decide (name = str "sequential") then mkAddInput magnet torrent path category tags paused (or_flag text sequential)
  else i.

(** [read_multipart]: the first file is taken; a text that is not UTF-8 is an
    error. *)
Fixpoint read_multipart (parts : list Field) (i : AddInput) : option AddInput :=
  match parts with
  | [] => Some i
  | field :: parts =>
      let name := default [] (fd_name field) in
      if bool_decide (is_Some (fd_filename field)) || bool_decide (name ∈ [str "torrent"; str "torrents"; str "file"]) then
        let torrent := match ai_torrent i with Some t => Some t | None => Some (fd_bytes field) end in
        read_multipart parts (mkAddInput (ai_magnet i) torrent (ai_save_path i) (ai_category i) (ai_tags i) (ai_paused i) (ai_sequential i))
      else if is_utf8 (fd_bytes field) then read_multipart parts (add_text name (fd_bytes field) i)
      else None
  end.

Section Add.
Context (sha1_digest : bytes -> bytes) (de_torrent : bytes -> option TorrentFile) (json_body : bytes -> option AddInput).

(** [read_add], with the status of the error. *)
Definition read_add (po : Post) : result AddInput Z :=
  let content_type := default [] (rq_header (po_request po) CONTENT_TYPE) in
  if starts_with (str "multipart/") content_type then ok_or (parts ← po_parts po; read_multipart parts empty_input) BAD
  else if starts_with (str "application/json") content_type || bool_decide (content_type = []) then
    ok_or (if po_read po then json_body (rq_body (po_request po)) else None) BAD
  else Err 415.

Definition input_options (i : AddInput) : AddTorrentOptions :=
  let o := add_defaults in
  mkAdd (match nonempty (ai_save_path i) with Some path => Some path | None => ao_output_dir o end) (ao_seed o) (ao_verify o)
    (match ai_paused i with Some paused => Some paused | None => ao_paused o end)
    (default (ao_category o) (nonempty (ai_category i))) (default (ao_tags o) (ai_tags i)) (default (ao_sequential o) (ai_sequential i))
    (ao_skip_checking o) (ao_file_priorities o) (ao_auto_tmm o) (ao_force_start o) (ao_ratio_limit o) (ao_seeding_time_limit o)
    (ao_download_limit o) (ao_upload_limit o).

(** [into_options] *)
Definition into_options (i : AddInput) : option (AddSource * AddTorrentOptions) :=
  source ← match ai_torrent i with
           | Some content => meta_of sha1_digest de_torrent content
           | None =>
               magnet ← nonempty (ai_magnet i);
               match magnet_parse magnet with Ok magnet => Some (SourceMagnet magnet) | Err _ => None end
           end;
  Some (source, input_options i).

Definition api_add_torrent (po : Post) : Prog Api :=
  match read_add po with
  | Err status => Ret (Err status)
  | Ok input =>
      match into_options input with
      | None => Ret (Err BAD)
      | Some (source, opts) =>
          await ok <- add_to_session source opts;
          if (ok : bool) then snapshot_reply 201 (source_hash source) else Ret (Err 500)
      end
  end.
End Add.

(** ** Errors *)

(** A bad request has called nothing, except when it sets the priorities of files:
    they are set one by one. *)
Definition not_bad (r : Api) : Prop := r <> Err BAD.

Lemma control_bad e : control e = BAD -> exists id index, e = NoSuchFile id index.
Proof. destruct e; try done. eauto. Qed.

Lemma ends_snapshot status id : ends not_bad (snapshot_reply status id).
Proof. intros w s. cbn. by destruct (session_snapshot s id). Qed.

(** Pausing, resuming, checking and removing fail only for a torrent that is not
    there, or has no metadata to check, and then change nothing. *)
Lemma failed_call w op id s e :
  op = SPause id \/ op = SResume id \/ op = SRecheck id \/ (exists del, op = SRemove id del) ->
  ses_reply w op s = Err e ->
  (e = NotFound id \/ e = NoMetadata id) /\ ses_torrents s !! id = None /\ ses_exec w op s = s.
Proof.
  destruct w as [it ip ipp now unix].
  intros [->|[->|[->|[del ->]]]]; cbn [ses_reply ses_exec]; unfold value, run;
    [unfold pause|unfold resume|unfold recheck_start|unfold remove_torrent]; rewrite after_bind, !value_bind; cbn [sget fst snd];
    change (after sget s) with s.
  1-3: destruct (ses_torrents s !! id) as [t|] eqn:Et; [rewrite !value_bind; done|destruct (ses_pending s !! id) as [p|] eqn:Ep];
    [rewrite ?value_bind; cbn|cbn]; try done; intros [= <-]; split_and!; auto.
  rewrite !after_bind. destruct (ses_torrents s !! id) as [t|] eqn:Et; [rewrite !value_bind; done|].
  destruct (ses_pending s !! id) as [p|] eqn:Ep; [rewrite !value_bind; done|]. cbn. rewrite Ep. intros [= <-]. split_and!; auto.
  rewrite delete_id by done. by destruct s.
Qed.

(** What the settings show after a change, with nothing else happening: the new
    values where given, the old ones elsewhere. *)
Lemma patch_settings_shows w o s body :
  patch_is_empty body = false ->
  let '(normal, alt) := (normal_rate_limits s, alt_limits s) in
  fst (fst (perform w o s (patch_settings body))) =
  Ok (200, BLimits (default (fst normal) (sp_download_limit body), default (snd normal) (sp_upload_limit body))
       (default (fst alt) (sp_alt_download_limit body), default (snd alt) (sp_alt_upload_limit body))
       (default (alt_mode s) (sp_alt_mode body))).
Proof.
  assert (Hrate : forall r l, rl_rate (limit_to r l) = r) by (intros r l; unfold limit_to; by destruct (0 <? r)).
  destruct w as [it ip ipp now unix], body as [dl ul adl aul am]. unfold patch_settings. intros ->.
  unfold patch_pair, normal_rate_limits, alt_limits, alt_mode.
  destruct dl as [dl|], ul as [ul|], adl as [adl|], aul as [aul|], am as [am|]; cbn; unfold normal_rate_limits, alt_limits; cbn; by rewrite ?Hrate.
Qed.

(** A priority that does not parse makes the request bad, with those before it set. *)
Example files_set_in_part :
  let body := mkPatchFiles None (Some [(0%nat, str "skip"); (1%nat, str "none")]) in
  let pending := mkPendingTorrent (fresh_controls 0 0 StMetadata [] [] ∅ true 0 example_add) [] false false false false [] [] [] in
  let s := set_pending {[ replicate 20 1 := pending ]} example_start in
  let '(r, ops, s') := perform example_world example_outer s (patch_files (hex_info_hash (replicate 20 1)) body) in
  r = Err BAD /\ ops = [SFilePriority (replicate 20 1) 0 Skip] /\ session_file_priorities s' (replicate 20 1) = Ok [Skip].
Proof. vm_compute. done. Qed.

(** The index of a file of a magnet link whose metadata has not arrived is not
    checked: the list of priorities grows to any length a request names. *)
Lemma pending_priority_grows w id n prio s p :
  ses_torrents s !! id = None -> ses_pending s !! id = Some p ->
  exists p', ses_pending (ses_exec w (SFilePriority id n prio) s) !! id = Some p' /\ (n < length (p_file_priorities p'))%nat.
Proof.
  intros Ht Hp. destruct w as [it ip ipp now unix]. cbn [ses_exec]. unfold run, session_set_file_priority. rewrite after_bind. cbn [sget fst snd].
  change (after sget s) with s. rewrite Ht, Hp, after_bind. cbn. rewrite lookup_alter_eq, Hp. eexists. split; [done|].
  cbn [p_file_priorities set_p_selection]. rewrite length_insert. unfold resize_to. rewrite length_app, length_replicate. lia.
Qed.
