(* ===== verification/PortMap.v ===== *)
(** * Port mapping (crates/bit_rev/src/nat.rs)

    The ports that the session listens on, mapped at the gateway of the local
    network: the mappers for NAT-PMP and PCP, for UPnP, and the one that tries both,
    and the task that maps the ports, renews the mappings and gives them back when
    the session ends.  A mapper is an instance of the class [PortMapper], with its
    state; the libraries that talk to the gateway are the class [Gateways].  The
    main theorem holds of every mapper that keeps the contract [MapperLaws], and the
    three mappers are shown to keep it. *)

From S2P Require Import Prelude Text.

(** ** Data *)

Definition NAT_LEASE : Duration := secs (30 * 60).

Inductive NatProtocol := NatAuto | NatNatPmp | NatUpnp | NatOff.
Definition nat_parse (value : bytes) : option NatProtocol :=
  if decide (value = str "auto") then Some NatAuto
  else if decide (value = str "natpmp") then Some NatNatPmp
  else if decide (value = str "upnp") then Some NatUpnp
  else if decide (value = str "off") then Some NatOff
  else None.

Record NatOptions := mkNatOptions { no_enabled : bool; no_protocol : NatProtocol }.
Definition nat_options_default : NatOptions := mkNatOptions false NatAuto.

Inductive MapProto := MapTcp | MapUdp.
Inductive MapBackend := BackNatPmp | BackUpnp.

#[export] Instance MapProto_eq_dec : EqDecision MapProto.
Proof. solve_decision. Defined.
#[export] Program Instance MapProto_countable : Countable MapProto :=
  inj_countable' (fun p => match p with MapTcp => true | MapUdp => false end) (fun b => if b : bool then MapTcp else MapUdp) _.
Next Obligation. by intros []. Qed.
#[export] Instance MapBackend_eq_dec : EqDecision MapBackend.
Proof. solve_decision. Defined.

Record Mapping := mkMapping {
  m_protocol : MapProto;
  m_internal_port : u16;
  m_external_port : u16;
  m_external_ip : option IpAddr;
  m_lifetime : Duration;
  m_backend : MapBackend }.

(** [NatError::Message]. *)
Definition NatError : Type := bytes.

Definition lease_secs (lease : Duration) : u32 := Z.max 1 (Z.min U32_MAX (lease / secs 1)).

(** A mapper: its calls change its state and that of the gateway. *)
Class PortMapper (S : Type) := {
  pm_add : MapProto -> u16 -> Duration -> S -> result Mapping NatError * S;
  pm_renew : Mapping -> Duration -> S -> result Mapping NatError * S;
  pm_delete : Mapping -> S -> result () NatError * S }.

(** ** The mappers *)

(** What [crab_nat], [igd_next] and [default_net] do to the gateway and the local
    network, whose state is [R]. *)
Inductive PortMappingType := TypePcp (external_ip : IpAddr) | TypeNatPmp.

Class Gateways (R : Type) := {
  Gateway : Type;
  PortMapping : Type;
  Igd : Type;
  lan_endpoint : R -> result (Gateway * IpAddr) NatError * R;
  crab_pcp : Gateway -> IpAddr -> MapProto -> u16 -> u32 -> R -> result PortMapping NatError * R;
  crab_natpmp : Gateway -> MapProto -> u16 -> u32 -> R -> result PortMapping NatError * R;
  crab_external : Gateway -> R -> option u32 * R;
  crab_port : PortMapping -> u16;
  crab_type : PortMapping -> PortMappingType;
  crab_renew : PortMapping -> R -> result () NatError * PortMapping * R;
  crab_drop : PortMapping -> R -> result () NatError * R;
  igd_search : R -> result Igd NatError * R;
  igd_local_ip : R -> option IpAddr * R;
  igd_add : Igd -> MapProto -> u16 -> IpAddr -> u32 -> R -> result () NatError * R;
  igd_remove : Igd -> MapProto -> u16 -> R -> result () NatError * R;
  igd_external : Igd -> R -> option IpAddr * R }.

Section Mappers.
Context {R : Type} {G : Gateways R}.

Record NatPmpState := mkNatPmp {
  np_endpoint : option (Gateway * IpAddr);
  np_external : option IpAddr;
  np_maps : gmap (MapProto * u16) PortMapping }.
Definition natpmp_new : NatPmpState := mkNatPmp None None ∅.

Definition set_np_maps (m : gmap (MapProto * u16) PortMapping) (s : NatPmpState) : NatPmpState := mkNatPmp (np_endpoint s) (np_external s) m.

Definition natpmp_endpoint (s : NatPmpState) (r : R) : result (Gateway * IpAddr) NatError * NatPmpState * R :=
  match np_endpoint s with
  | Some e => (Ok e, s, r)
  | None =>
      match lan_endpoint r with
      | (Ok e, r) => (Ok e, mkNatPmp (Some e) (np_external s) (np_maps s), r)
      | (Err e, r) => (Err e, s, r)
      end
  end.

Definition external_ip_for (m : PortMapping) (s : NatPmpState) (r : R) : option IpAddr * NatPmpState * R :=
  match crab_type m with
  | TypePcp ip => (Some ip, s, r)
  | TypeNatPmp =>
      match np_external s, np_endpoint s with
      | Some ip, _ => (Some ip, s, r)
      | None, None => (None, s, r)
      | None, Some (gateway, _) =>
          match crab_external gateway r with
          | (Some ip, r) => (Some (IpV4 ip), mkNatPmp (np_endpoint s) (Some (IpV4 ip)) (np_maps s), r)
          | (None, r) => (None, s, r)
          end
      end
  end.

Definition PORT_ZERO : NatError := str "port 0 cannot be mapped".
Definition SEMICOLON : bytes := str "; ".

Definition natpmp_add (proto : MapProto) (port : u16) (lease : Duration) (sr : NatPmpState * R) : result Mapping NatError * (NatPmpState * R) :=
  let '(s, r) := sr in
  if port =? 0 then (Err PORT_ZERO, (s, r))
  else match natpmp_endpoint s r with
  | (Err e, s, r) => (Err e, (s, r))
  | (Ok (gateway, client), s, r) =>
      let '(created, r) :=
        match crab_pcp gateway client proto port (lease_secs lease) r with
        | (Ok m, r) => (Ok m, r)
        | (Err pcp_err, r) =>
            match crab_natpmp gateway proto port (lease_secs lease) r with
            | (Ok m, r) => (Ok m, r)
            | (Err err, r) => (Err (pcp_err ++ SEMICOLON ++ err), r)
            end
        end in
      match created with
      | Err e => (Err e, (s, r))
      | Ok created =>
          let '(external_ip, s, r) := external_ip_for created s r in
          (Ok (mkMapping proto port (crab_port created) external_ip lease BackNatPmp), (set_np_maps (<[(proto, port) := created]> (np_maps s)) s, r))
      end
  end.

Definition natpmp_renew (m : Mapping) (lease : Duration) (sr : NatPmpState * R) : result Mapping NatError * (NatPmpState * R) :=
  let '(s, r) := sr in
  match np_maps s !! (m_protocol m, m_internal_port m) with
  | None => (Err (str "mapping is not installed"), (s, r))
  | Some slot =>
      let '(res, slot, r) := crab_renew slot r in
      let s := set_np_maps (<[(m_protocol m, m_internal_port m) := slot]> (np_maps s)) s in
      match res with
      | Err e => (Err e, (s, r))
      | Ok _ =>
          let external_ip := match crab_type slot with TypePcp ip => Some ip | TypeNatPmp => np_external s end in
          (Ok (mkMapping (m_protocol m) (m_internal_port m) (crab_port slot) external_ip lease (m_backend m)), (s, r))
      end
  end.

Definition natpmp_delete (m : Mapping) (sr : NatPmpState * R) : result () NatError * (NatPmpState * R) :=
  let '(s, r) := sr in
  match np_maps s !! (m_protocol m, m_internal_port m) with
  | None => (Ok (), (s, r))
  | Some installed =>
      let s := set_np_maps (delete (m_protocol m, m_internal_port m) (np_maps s)) s in
      let '(res, r) := crab_drop installed r in (res, (s, r))
  end.

#[export] Instance NatPmpMapper : PortMapper (NatPmpState * R) := {
  pm_add := natpmp_add; pm_renew := natpmp_renew; pm_delete := natpmp_delete }.

Record UpnpState := mkUpnp { up_gateway : option Igd; up_external : option IpAddr }.
Definition upnp_new : UpnpState := mkUpnp None None.

Definition upnp_gateway (s : UpnpState) (r : R) : result Igd NatError * UpnpState * R :=
  match up_gateway s with
  | Some g => (Ok g, s, r)
  | None =>
      match igd_search r with
      | (Ok g, r) => (Ok g, mkUpnp (Some g) (up_external s), r)
      | (Err e, r) => (Err e, s, r)
      end
  end.

Definition upnp_external_ip (g : Igd) (s : UpnpState) (r : R) : option IpAddr * UpnpState * R :=
  match up_external s with
  | Some ip => (Some ip, s, r)
  | None =>
      match igd_external g r with
      | (Some ip, r) => (Some ip, mkUpnp (up_gateway s) (Some ip), r)
      | (None, r) => (None, s, r)
      end
  end.

Definition upnp_add (proto : MapProto) (port : u16) (lease : Duration) (sr : UpnpState * R) : result Mapping NatError * (UpnpState * R) :=
  let '(s, r) := sr in
  if port =? 0 then (Err PORT_ZERO, (s, r))
  else match upnp_gateway s r with
  | (Err e, s, r) => (Err e, (s, r))
  | (Ok gateway, s, r) =>
      match igd_local_ip r with
      | (None, r) => (Err (str "local address not found"), (s, r))
      | (Some local, r) =>
          match igd_add gateway proto port local (lease_secs lease) r with
          | (Err e, r) => (Err e, (s, r))
          | (Ok _, r) =>
              match upnp_gateway s r with
              | (Err e, s, r) => (Err e, (s, r))
              | (Ok gateway, s, r) =>
                  let '(external_ip, s, r) := upnp_external_ip gateway s r in
                  (Ok (mkMapping proto port port external_ip lease BackUpnp), (s, r))
              end
          end
      end
  end.

Definition upnp_renew (m : Mapping) (lease : Duration) (sr : UpnpState * R) : result Mapping NatError * (UpnpState * R) :=
  upnp_add (m_protocol m) (m_internal_port m) lease sr.

Definition upnp_delete (m : Mapping) (sr : UpnpState * R) : result () NatError * (UpnpState * R) :=
  let '(s, r) := sr in
  match upnp_gateway s r with
  | (Err e, s, r) => (Err e, (s, r))
  | (Ok gateway, s, r) => let '(res, r) := igd_remove gateway (m_protocol m) (m_external_port m) r in (res, (s, r))
  end.

#[export] Instance UpnpMapper : PortMapper (UpnpState * R) := {
  pm_add := upnp_add; pm_renew := upnp_renew; pm_delete := upnp_delete }.

(** [AutoMapper]: NAT-PMP, then UPnP; the later calls go to the one that made the
    mapping. *)
Record AutoState := mkAuto { au_natpmp : NatPmpState; au_upnp : UpnpState }.
Definition auto_new : AutoState := mkAuto natpmp_new upnp_new.

Definition by_natpmp {A} (f : NatPmpState * R -> A * (NatPmpState * R)) (sr : AutoState * R) : A * (AutoState * R) :=
  let '(a, (s, r)) := f (au_natpmp (fst sr), snd sr) in (a, (mkAuto s (au_upnp (fst sr)), r)).
Definition by_upnp {A} (f : UpnpState * R -> A * (UpnpState * R)) (sr : AutoState * R) : A * (AutoState * R) :=
  let '(a, (s, r)) := f (au_upnp (fst sr), snd sr) in (a, (mkAuto (au_natpmp (fst sr)) s, r)).
Definition dispatch {A} (b : MapBackend) (f : NatPmpState * R -> A * (NatPmpState * R)) (g : UpnpState * R -> A * (UpnpState * R))
    (sr : AutoState * R) : A * (AutoState * R) :=
  match b with BackNatPmp => by_natpmp f sr | BackUpnp => by_upnp g sr end.

Definition auto_add (proto : MapProto) (port : u16) (lease : Duration) (sr : AutoState * R) : result Mapping NatError * (AutoState * R) :=
  match by_natpmp (natpmp_add proto port lease) sr with
  | (Ok m, sr) => (Ok m, sr)
  | (Err natpmp_err, sr) =>
      match by_upnp (upnp_add proto port lease) sr with
      | (Ok m, sr) => (Ok m, sr)
      | (Err upnp_err, sr) => (Err (natpmp_err ++ SEMICOLON ++ upnp_err), sr)
      end
  end.

#[export] Instance AutoMapper : PortMapper (AutoState * R) := {
  pm_add := auto_add;
  pm_renew m lease := dispatch (m_backend m) (natpmp_renew m lease) (upnp_renew m lease);
  pm_delete m := dispatch (m_backend m) (natpmp_delete m) (upnp_delete m) }.
End Mappers.

(** ** The task *)

(** [nat_targets] (session.rs): the TCP port, and the UDP ports of uTP and the DHT
    in increasing order. *)
Definition nat_targets (tcp utp dht : option u16) : list (MapProto * u16) :=
  let udp := match utp, dht with
    | Some a, Some b =>
        if a =? 0 then [b] else if b =? 0 then [a] else if a =? b then [a] else if a <? b then [a; b] else [b; a]
    | Some a, None => [a]
    | None, Some b => [b]
    | None, None => []
    end in
  match tcp with Some p => if p =? 0 then [] else [(MapTcp, p)] | None => [] end ++
  map (pair MapUdp) (filter (fun p => p <> 0) udp).

(** [spawn_nat]: the targets of the task, when there is one. *)
Definition spawn_nat (o : NatOptions) (targets : list (MapProto * u16)) : option (list (MapProto * u16)) :=
  if negb (no_enabled o) || match no_protocol o with NatOff => true | _ => false end then None
  else match targets with [] => None | _ => Some targets end.

(** [external_addr]: the address of the first TCP mapping, or of the first one. *)
Definition external_addr (mapped : list Mapping) : option SocketAddr :=
  let tcp := List.find (fun m => bool_decide (m_protocol m = MapTcp)) mapped in
  match (match tcp with Some m => Some m | None => head mapped end) with
  | Some m => match m_external_ip m with
              | Some (IpV4 ip) => Some (V4 ip (m_external_port m))
              | Some (IpV6 ip) => Some (V6 ip (m_external_port m) 0 0)
              | None => None
              end
  | None => None
  end.

(** Where the task waits: for the probe of the external address, for the next
    renewal, or it has ended. *)
Inductive NatPhase := NatProbing | NatRenewing | NatEnded.

Record NatTask (S : Type) := mkNatTask {
  nt_mapper : S;
  nt_phase : NatPhase;
  nt_mapped : list Mapping;
  nt_external : option SocketAddr;
  nt_port_open : option bool }.
Arguments mkNatTask {S} _ _ _ _ _.
Arguments nt_mapper {S} _.
Arguments nt_phase {S} _.
Arguments nt_mapped {S} _.
Arguments nt_external {S} _.
Arguments nt_port_open {S} _.

Inductive NatEvent := NatCancelled | NatProbed (open : bool) | NatTimer.

Section Run.
Context {S : Type} {PM : PortMapper S}.

Fixpoint add_all (targets : list (MapProto * u16)) (s : S) : list Mapping * S :=
  match targets with
  | [] => ([], s)
  | (proto, port) :: rest =>
      let '(r, s) := pm_add proto port NAT_LEASE s in
      let '(mapped, s) := add_all rest s in
      (match r with Ok m => m :: mapped | Err _ => mapped end, s)
  end.

(** A mapping that cannot be renewed is kept as it is. *)
Fixpoint renew_all (mapped : list Mapping) (s : S) : list Mapping * S :=
  match mapped with
  | [] => ([], s)
  | m :: rest =>
      let '(r, s) := pm_renew m NAT_LEASE s in
      let '(renewed, s) := renew_all rest s in
      ((match r with Ok next => next | Err _ => m end) :: renewed, s)
  end.

Fixpoint delete_all (mapped : list Mapping) (s : S) : S :=
  match mapped with [] => s | m :: rest => delete_all rest (snd (pm_delete m s)) end.

(** [run], up to its first wait. *)
Definition nat_start (targets : list (MapProto * u16)) (s : S) : NatTask S :=
  let '(mapped, s) := add_all targets s in
  match mapped with
  | [] => mkNatTask s NatEnded [] None None
  | _ =>
      match external_addr mapped with
      | Some addr => mkNatTask s NatProbing mapped (Some addr) None
      | None => mkNatTask s NatRenewing mapped None None
      end
  end.

Definition nat_step (t : NatTask S) (ev : NatEvent) : NatTask S :=
  match nt_phase t, ev with
  | (NatProbing | NatRenewing), NatCancelled =>
      mkNatTask (delete_all (nt_mapped t) (nt_mapper t)) NatEnded (nt_mapped t) (nt_external t) (nt_port_open t)
  | NatProbing, NatProbed open => mkNatTask (nt_mapper t) NatRenewing (nt_mapped t) (nt_external t) (Some open)
  | NatRenewing, NatTimer =>
      let '(mapped, s) := renew_all (nt_mapped t) (nt_mapper t) in
      mkNatTask s NatRenewing mapped (match external_addr mapped with Some addr => Some addr | None => nt_external t end) (nt_port_open t)
  | _, _ => t
  end.

Definition nat_run (targets : list (MapProto * u16)) (events : list NatEvent) (s : S) : NatTask S :=
  foldl nat_step (nat_start targets s) events.
End Run.

(** ** The contract of a mapper *)

(** What a mapping is for, and who made it. *)
Definition map_key (m : Mapping) : MapProto * u16 * MapBackend := (m_protocol m, m_internal_port m, m_backend m).

(** A mapping is for the port asked for, and a renewal of a mapping that the mapper
    has made does not change what it is for or who has made it. *)
Class MapperLaws (S : Type) {PM : PortMapper S} := {
  ml_made : Mapping -> Prop;
  ml_add : forall proto port lease s m, fst (pm_add proto port lease s) = Ok m -> ml_made m /\ (m_protocol m, m_internal_port m) = (proto, port);
  ml_renew : forall m lease s m', ml_made m -> fst (pm_renew m lease s) = Ok m' -> ml_made m' /\ map_key m' = map_key m }.

Section Laws.
Context {R : Type} {G : Gateways R}.

Lemma natpmp_add_made proto port lease sr m :
  fst (natpmp_add proto port lease sr) = Ok m -> map_key m = (proto, port, BackNatPmp) /\ is_Some (np_maps (fst (snd (natpmp_add proto port lease sr))) !! (proto, port)).
Proof.
  unfold natpmp_add. destruct sr as [s r]. destruct (port =? 0); [done|]. destruct (natpmp_endpoint s r) as [[[[gw client]|] s1] r1]; [|done].
  destruct (match crab_pcp gw client proto port (lease_secs lease) r1 with (Ok m, r) => (Ok m, r) | (Err e, r) => _ end) as [[created|] r2]; [|done].
  destruct (external_ip_for created s1 r2) as [[ip s2] r3]. cbn. intros [= <-]. split; [done|]. by rewrite lookup_insert_eq.
Qed.

Lemma upnp_add_made proto port lease sr m : fst (upnp_add proto port lease sr) = Ok m -> map_key m = (proto, port, BackUpnp).
Proof.
  unfold upnp_add. destruct sr as [s r]. destruct (port =? 0); [done|]. destruct (upnp_gateway s r) as [[[g|] s1] r1]; [|done].
  destruct (igd_local_ip r1) as [[ip|] r2]; [|done]. destruct (igd_add _ _ _ _ _ _) as [[u|] r3]; [|done].
  destruct (upnp_gateway s1 r3) as [[[g'|] s2] r4]; [|done]. destruct (upnp_external_ip _ _ _) as [[e s3] r5]. cbn. by intros [= <-].
Qed.

Lemma natpmp_renew_key m lease sr m' : fst (natpmp_renew m lease sr) = Ok m' -> map_key m' = map_key m.
Proof.
  unfold natpmp_renew. destruct sr as [s r]. destruct (np_maps s !! _) as [slot|]; [|done].
  destruct (crab_renew slot r) as [[[u|] slot'] r']; cbn; [|done]. by intros [= <-].
Qed.

#[export] Program Instance natpmp_laws : MapperLaws (NatPmpState * R) := {| ml_made m := m_backend m = BackNatPmp |}.
Next Obligation. intros proto port lease s m [E _]%natpmp_add_made. by injection E as -> -> ->. Qed.
Next Obligation. intros m lease s m' Hb E%natpmp_renew_key. split; [|done]. injection E as _ _ ->. done. Qed.

(** A renewal by UPnP makes a mapping of UPnP: this mapper renews its own. *)
Lemma upnp_renew_key m lease sr m' : m_backend m = BackUpnp -> fst (upnp_renew m lease sr) = Ok m' -> map_key m' = map_key m.
Proof. intros Hb E%upnp_add_made. rewrite E. unfold map_key. by rewrite Hb. Qed.

#[export] Program Instance upnp_laws : MapperLaws (UpnpState * R) := {| ml_made m := m_backend m = BackUpnp |}.
Next Obligation. intros proto port lease s m E%upnp_add_made. by injection E as -> -> ->. Qed.
Next Obligation. intros m lease s m' Hb E%upnp_renew_key; [|done]. split; [|done]. injection E as _ _ ->. done. Qed.

Lemma auto_add_made proto port lease sr m : fst (auto_add proto port lease sr) = Ok m -> exists b, map_key m = (proto, port, b).
Proof.
  unfold auto_add, by_natpmp, by_upnp. destruct sr as [s r]. cbn [fst snd].
  pose proof (natpmp_add_made proto port lease (au_natpmp s, r)) as Hn. destruct (natpmp_add proto port lease (au_natpmp s, r)) as [[m1|e] [s1 r1]]; cbn [fst snd] in *.
  - intros [= <-]. destruct (Hn m1 eq_refl) as [E _]. eauto.
  - pose proof (upnp_add_made proto port lease (au_upnp s, r1)) as Hu. cbn [au_upnp]. destruct (upnp_add proto port lease (au_upnp s, r1)) as [[m2|e2] [s2 r2]]; cbn [fst snd] in *; [|done].
    intros [= <-]. rewrite (Hu m2 eq_refl). eauto.
Qed.

#[export] Program Instance auto_laws : MapperLaws (AutoState * R) := {| ml_made _ := True |}.
Next Obligation. intros proto port lease s m (b & E)%auto_add_made. by injection E as -> -> _. Qed.
Next Obligation.
  intros m lease [s r] m' _. cbn. unfold dispatch, by_natpmp, by_upnp. cbn [fst snd]. destruct (m_backend m) eqn:Hb.
  - pose proof (natpmp_renew_key m lease (au_natpmp s, r) m') as H. destruct (natpmp_renew m lease (au_natpmp s, r)) as [a [s1 r1]]. split; [done|by apply H].
  - pose proof (upnp_renew_key m lease (au_upnp s, r) m' Hb) as H. destruct (upnp_renew m lease (au_upnp s, r)) as [a [s1 r1]]. split; [done|by apply H].
Qed.

(** ** The table of the NAT-PMP mapper *)

Lemma natpmp_add_table proto port lease sr k :
  is_Some (np_maps (fst (snd (natpmp_add proto port lease sr))) !! k) ->
  is_Some (np_maps (fst sr) !! k) \/ (k = (proto, port) /\ exists m, fst (natpmp_add proto port lease sr) = Ok m).
Proof.
  unfold natpmp_add. destruct sr as [s r]. cbn [fst]. destruct (port =? 0); [by left|].
  assert (He : np_maps (snd (fst (natpmp_endpoint s r))) = np_maps s).
  { unfold natpmp_endpoint. destruct (np_endpoint s); [done|]. by destruct (lan_endpoint r) as [[?|?] ?]. }
  destruct (natpmp_endpoint s r) as [[[[gw client]|] s1] r1]; cbn [fst snd] in *; [|rewrite He; by left].
  destruct (match crab_pcp gw client proto port (lease_secs lease) r1 with (Ok m, r) => (Ok m, r) | (Err e, r) => _ end) as [[created|] r2]; cbn [fst snd]; [|rewrite He; by left].
  assert (Hx : np_maps (snd (fst (external_ip_for created s1 r2))) = np_maps s1).
  { unfold external_ip_for. destruct (crab_type created); [done|]. destruct (np_external s1); [done|]. destruct (np_endpoint s1) as [[? ?]|]; [|done].
    by destruct (crab_external _ _) as [[?|] ?]. }
  destruct (external_ip_for created s1 r2) as [[ip s2] r3]. cbn [fst snd set_np_maps np_maps] in *. rewrite Hx, He.
  destruct (decide (k = (proto, port))) as [->|Hne]; [right; eauto|]. rewrite lookup_insert_ne by done. by left.
Qed.
End Laws.

(** ** The task gives back what it has mapped *)

(** The calls of a mapper, with the results of the ones that give a mapping. *)
Inductive Call :=
| CallAdd (proto : MapProto) (port : u16) (r : result Mapping NatError)
| CallRenew (m : Mapping) (r : result Mapping NatError)
| CallDelete (m : Mapping).

Section Calls.
Context {S : Type} {PM : PortMapper S}.

(** A mapper that notes its calls. *)
Instance Noted : PortMapper (S * list Call) := {
  pm_add proto port lease s := let '(r, s') := pm_add proto port lease (fst s) in (r, (s', snd s ++ [CallAdd proto port r]));
  pm_renew m lease s := let '(r, s') := pm_renew m lease (fst s) in (r, (s', snd s ++ [CallRenew m r]));
  pm_delete m s := let '(r, s') := pm_delete m (fst s) in (r, (s', snd s ++ [CallDelete m])) }.

Definition asked (calls : list Call) : list (MapProto * u16) := omap (fun c => match c with CallAdd proto port _ => Some (proto, port) | _ => None end) calls.
Definition made (calls : list Call) : list (MapProto * u16 * MapBackend) := omap (fun c => match c with CallAdd _ _ (Ok m) => Some (map_key m) | _ => None end) calls.
Definition deleted (calls : list Call) : list Mapping := omap (fun c => match c with CallDelete m => Some m | _ => None end) calls.

Context {ML : MapperLaws S}.

Lemma add_all_calls targets s calls :
  let '(mapped, (s', calls')) := add_all targets (s, calls) in
  asked calls' = asked calls ++ targets /\ made calls' = made calls ++ map map_key mapped /\ deleted calls' = deleted calls /\ Forall ml_made mapped.
Proof.
  revert s calls. induction targets as [|[proto port] rest IH]; intros s calls; cbn [add_all]; [by rewrite !app_nil_r|].
  cbn [pm_add Noted fst snd]. pose proof (ml_add proto port NAT_LEASE s) as Hm. destruct (pm_add proto port NAT_LEASE s) as [r s1]. cbn [fst] in Hm.
  specialize (IH s1 (calls ++ [CallAdd proto port r])). destruct (add_all rest _) as [mapped [s2 calls2]].
  destruct IH as (H1 & H2 & H3 & H4). unfold asked, made, deleted in *. rewrite !omap_app in *. cbn in *. split_and!.
  - by rewrite H1, <-app_assoc.
  - rewrite H2, <-app_assoc. by destruct r.
  - by rewrite H3, app_nil_r.
  - destruct r as [m|e]; [|done]. constructor; [|done]. by apply (Hm m).
Qed.

Lemma renew_all_calls mapped s calls :
  Forall ml_made mapped ->
  let '(renewed, (s', calls')) := renew_all mapped (s, calls) in
  asked calls' = asked calls /\ made calls' = made calls /\ deleted calls' = deleted calls /\ map map_key renewed = map map_key mapped /\ Forall ml_made renewed.
Proof.
  revert s calls. induction mapped as [|m rest IH]; intros s calls Hall; cbn [renew_all]; [done|]. apply Forall_cons in Hall as [Hm Hall].
  cbn [pm_renew Noted fst snd]. pose proof (ml_renew m NAT_LEASE s) as Hr. destruct (pm_renew m NAT_LEASE s) as [r s1]. cbn [fst] in Hr.
  specialize (IH s1 (calls ++ [CallRenew m r]) Hall). destruct (renew_all rest _) as [renewed [s2 calls2]].
  destruct IH as (H1 & H2 & H3 & H4 & H5). unfold asked, made, deleted in *. rewrite !omap_app in *. cbn in *. rewrite !app_nil_r in *. cbn [map].
  destruct r as [next|e]; [destruct (Hr next Hm eq_refl) as [Hn He]; rewrite He|]; split_and!; try done; try (by f_equal); by constructor.
Qed.

Lemma delete_all_calls mapped s calls :
  let calls' := snd (delete_all mapped (s, calls)) in
  asked calls' = asked calls /\ made calls' = made calls /\ deleted calls' = deleted calls ++ mapped.
Proof.
  revert s calls. induction mapped as [|m rest IH]; intros s calls; cbn [delete_all]; [by rewrite app_nil_r|].
  cbn [pm_delete Noted fst snd]. destruct (pm_delete m s) as [r s1]. cbn [snd]. specialize (IH s1 (calls ++ [CallDelete m])). cbv zeta in *.
  destruct IH as (H1 & H2 & H3). rewrite H1, H2, H3. unfold asked, made, deleted. rewrite !omap_app. cbn. by rewrite !app_nil_r, <-app_assoc.
Qed.

(** What holds of the task at every moment. *)
Record nat_inv (targets : list (MapProto * u16)) (t : NatTask (S * list Call)) : Prop := {
  ni_asked : asked (snd (nt_mapper t)) = targets;
  ni_made : made (snd (nt_mapper t)) = map map_key (nt_mapped t);
  ni_own : Forall ml_made (nt_mapped t);
  ni_deleted : deleted (snd (nt_mapper t)) = match nt_phase t with NatEnded => nt_mapped t | _ => [] end }.

Lemma nat_start_inv targets s : nat_inv targets (nat_start targets (s, [])).
Proof.
  unfold nat_start. pose proof (add_all_calls targets s []) as H. destruct (add_all targets (s, [])) as [mapped [s' calls']].
  destruct H as (H1 & H2 & H3 & H4). destruct mapped as [|m rest]; [by split|]. destruct (external_addr _); by split.
Qed.

Lemma nat_step_inv targets t ev : nat_inv targets t -> nat_inv targets (nat_step t ev).
Proof.
  intros [H1 H2 H3 H4]. unfold nat_step. destruct t as [[s calls] phase mapped external open]. cbn [nt_mapper nt_phase nt_mapped nt_external nt_port_open snd] in *.
  destruct phase, ev; try (by split).
  - pose proof (delete_all_calls mapped s calls) as (D1 & D2 & D3). split; cbn [nt_mapper nt_phase nt_mapped]; [by rewrite D1|by rewrite D2|done|by rewrite D3, H4].
  - pose proof (delete_all_calls mapped s calls) as (D1 & D2 & D3). split; cbn [nt_mapper nt_phase nt_mapped]; [by rewrite D1|by rewrite D2|done|by rewrite D3, H4].
  - pose proof (renew_all_calls mapped s calls H3) as Hr. destruct (renew_all mapped (s, calls)) as [renewed [s' calls']].
    destruct Hr as (R1 & R2 & R3 & R4 & R5). split; cbn [nt_mapper nt_phase nt_mapped snd]; [by rewrite R1|by rewrite R2, R4|done|by rewrite R3].
Qed.

Lemma nat_run_inv targets events s : nat_inv targets (nat_run targets events (s, [])).
Proof.
  unfold nat_run. pose proof (nat_start_inv targets s) as H. revert H. generalize (nat_start targets (s, [])). induction events as [|ev events IH]; intros t H; [done|].
  apply IH. by apply nat_step_inv.
Qed.

Lemma ended_stays (t : NatTask (S * list Call)) events : nt_phase t = NatEnded -> foldl nat_step t events = t.
Proof. intros H. induction events as [|ev events IH]; [done|]. cbn [foldl]. unfold nat_step at 2. by rewrite H. Qed.

Lemma cancelled_ends events (t : NatTask (S * list Call)) : NatCancelled ∈ events -> nt_phase (foldl nat_step t events) = NatEnded.
Proof.
  revert t. induction events as [|ev events IH]; intros t Hin; [by apply elem_of_nil in Hin|]. cbn [foldl].
  apply elem_of_cons in Hin as [<-|Hin]; [|by apply IH]. assert (H : nt_phase (nat_step t NatCancelled) = NatEnded).
  { unfold nat_step. destruct (nt_phase t) eqn:E; [done|done|done]. }
  by rewrite ended_stays.
Qed.

(** C26: whatever the gateway answers and however often the mappings are renewed, the
    task has asked for every port once and in order; while it runs it gives nothing
    back, and when the session is cancelled, at whatever moment, it gives back every
    mapping it has got exactly once, as it was last renewed, and makes no call
    afterwards. *)
Theorem port_mappings_released targets events s :
  let t := nat_run targets events (s, []) in
  asked (snd (nt_mapper t)) = targets /\ made (snd (nt_mapper t)) = map map_key (nt_mapped t) /\
  (nt_phase t <> NatEnded -> deleted (snd (nt_mapper t)) = []) /\
  (NatCancelled ∈ events -> deleted (snd (nt_mapper t)) = nt_mapped t /\ map map_key (deleted (snd (nt_mapper t))) = made (snd (nt_mapper t))) /\
  (nt_phase t = NatEnded -> forall more, foldl nat_step t more = t).
Proof.
  cbv zeta. destruct (nat_run_inv targets events s) as [H1 H2 _ H4]. split; [done|]. split; [done|]. split; [|split].
  - intros Hp. rewrite H4. by destruct (nt_phase _).
  - intros Hc. assert (Hp : nt_phase (nat_run targets events (s, [])) = NatEnded) by by apply cancelled_ends. rewrite Hp in H4. by rewrite H4, H2.
  - intros Hp more. by apply ended_stays.
Qed.
End Calls.

(** A gateway that knows NAT-PMP for TCP only, and counts what UPnP has mapped. *)
Definition example_gateways : Gateways nat := {|
  Gateway := (); PortMapping := u16; Igd := ();
  lan_endpoint r := (Ok ((), IpV4 1), r);
  crab_pcp _ _ proto port _ r := if decide (proto = MapTcp) then (Ok port, r) else (Err (str "pcp"), r);
  crab_natpmp _ _ _ _ r := (Err (str "natpmp"), r);
  crab_external _ r := (Some 16909060, r); crab_port p := p; crab_type _ := TypeNatPmp;
  crab_renew p r := (Ok (), p, r); crab_drop _ r := (Ok (), r);
  igd_search r := (Ok (), r); igd_local_ip r := (Some (IpV4 2), r);
  igd_add _ _ _ _ _ r := (Ok (), S r); igd_remove _ _ _ r := (Ok (), pred r); igd_external _ r := (Some (IpV4 3), r) |}.

Definition example_run (events : list NatEvent) : NatTask ((@AutoState nat example_gateways * nat) * list Call) :=
  @nat_run _ (@Noted _ (@AutoMapper nat example_gateways)) [(MapTcp, 6881); (MapUdp, 6881)] events (auto_new, 0%nat, []).

Lemma port_mappings_released_witness :
  let calls := snd (nt_mapper (example_run [NatProbed true; NatTimer; NatCancelled])) in
  made calls = [(MapTcp, 6881, BackNatPmp); (MapUdp, 6881, BackUpnp)] /\ map map_key (deleted calls) = made calls /\
  nt_external (example_run [NatProbed true]) = Some (V4 16909060 6881).
Proof.
  cbv zeta. split; [vm_compute; reflexivity|]. split; [|vm_compute; reflexivity].
  destruct (@port_mappings_released _ (@AutoMapper nat example_gateways) _ [(MapTcp, 6881); (MapUdp, 6881)] [NatProbed true; NatTimer; NatCancelled] (auto_new, 0%nat))
    as (_ & _ & _ & H & _). apply H. right. right. left.
Defined.

(** With the mapper that tries both ways, nothing stays in the table of NAT-PMP
    when the task has ended. *)
Section Table.
Context {R : Type} {G : Gateways R}.

Definition wf_table (mapped : list Mapping) (s : NatPmpState) : Prop :=
  forall k, is_Some (np_maps s !! k) -> exists m, m ∈ mapped /\ m_backend m = BackNatPmp /\ (m_protocol m, m_internal_port m) = k.

Lemma auto_add_table proto port lease s r k :
  is_Some (np_maps (au_natpmp (fst (snd (auto_add proto port lease (s, r))))) !! k) ->
  is_Some (np_maps (au_natpmp s) !! k) \/
  exists m, fst (auto_add proto port lease (s, r)) = Ok m /\ m_backend m = BackNatPmp /\ (m_protocol m, m_internal_port m) = k.
Proof.
  unfold auto_add, by_natpmp, by_upnp. cbn [fst snd]. pose proof (natpmp_add_table proto port lease (au_natpmp s, r) k) as Ht.
  pose proof (natpmp_add_made proto port lease (au_natpmp s, r)) as Hm.
  destruct (natpmp_add proto port lease (au_natpmp s, r)) as [[m1|e] [s1 r1]]; cbn [fst snd] in *.
  - cbn [au_natpmp]. intros H. destruct (Ht H) as [H'|[-> _]]; [by left|]. right. exists m1. destruct (Hm m1 eq_refl) as [E _]. by injection E as -> -> ->.
  - cbn [au_upnp]. destruct (upnp_add proto port lease (au_upnp s, r1)) as [[m2|e2] [s2 r2]]; cbn [fst snd au_natpmp];
      intros H; destruct (Ht H) as [H'|[_ (m & [=])]]; by left.
Qed.

Lemma auto_add_all_table targets s r :
  forall mapped, wf_table mapped (au_natpmp s) -> 
  let '(new, (s', r')) := add_all targets (s, r) in wf_table (mapped ++ new) (au_natpmp s').
Proof.
  revert s r. induction targets as [|[proto port] rest IH]; intros s r mapped Hw; cbn [add_all]; [by rewrite app_nil_r|]. cbn [pm_add AutoMapper].
  pose proof (auto_add_table proto port NAT_LEASE s r) as Ht. destruct (auto_add proto port NAT_LEASE (s, r)) as [res [s1 r1]]. cbn [fst snd] in Ht.
  assert (H1 : wf_table (mapped ++ match res with Ok m => [m] | Err _ => [] end) (au_natpmp s1)).
  { intros k Hk. setoid_rewrite elem_of_app. destruct (Ht k Hk) as [H|(m & -> & Hb & Hkey)].
    - destruct (Hw k H) as (m & Hm & ?). exists m. auto.
    - exists m. split; [right; by apply list_elem_of_singleton|done]. }
  specialize (IH s1 r1 _ H1). destruct (add_all rest (s1, r1)) as [new [s2 r2]]. rewrite <-app_assoc in IH. by destruct res.
Qed.

Lemma auto_delete_table mapped s r : wf_table mapped (au_natpmp s) -> np_maps (au_natpmp (fst (delete_all mapped (s, r)))) = ∅.
Proof.
  revert s r. induction mapped as [|m rest IH]; intros s r Hw; cbn [delete_all fst].
  - apply map_eq. intros k. rewrite lookup_empty. apply eq_None_not_Some. intros Hk. destruct (Hw k Hk) as (m & Hm & _). by apply elem_of_nil in Hm.
  - destruct (snd (pm_delete m (s, r))) as [s1 r1] eqn:E. apply IH. intros k Hk.
    cbn [pm_delete AutoMapper] in E. unfold dispatch, by_natpmp, by_upnp in E. cbn [fst snd] in E. destruct (m_backend m) eqn:Hb.
    + unfold natpmp_delete in E. destruct (np_maps (au_natpmp s) !! (m_protocol m, m_internal_port m)) as [inst|] eqn:Ek.
      * destruct (crab_drop inst r) as [res r']. cbn in E. injection E as <- <-. cbn in Hk.
        destruct (decide (k = (m_protocol m, m_internal_port m))) as [->|Hne]; [rewrite lookup_delete_eq in Hk; by destruct Hk|].
        rewrite lookup_delete_ne in Hk by done. destruct (Hw k Hk) as (m' & [->|Hm]%elem_of_cons & Hb' & Hk'); [by destruct Hne|eauto].
      * cbn in E. injection E as <- <-. cbn in Hk. destruct (Hw k Hk) as (m' & [->|Hm]%elem_of_cons & Hb' & Hk'); [|eauto].
        rewrite <-Hk', Ek in Hk. by destruct Hk.
    + destruct (upnp_delete m (au_upnp s, r)) as [res [s2 r2]]. cbn in E. injection E as <- <-. cbn in Hk.
      destruct (Hw k Hk) as (m' & [->|Hm]%elem_of_cons & Hb' & Hk'); [congruence|eauto].
Qed.

Lemma renew_key m lease s r :
  let '(res, (s', r')) := pm_renew m lease (s, r) in
  map_key (match res with Ok next => next | Err _ => m end) = map_key m /\
  forall k, is_Some (np_maps (au_natpmp s') !! k) -> is_Some (np_maps (au_natpmp s) !! k).
Proof.
  pose proof (ml_renew m lease (s, r)) as Hk. cbn [pm_renew AutoMapper] in *. unfold dispatch, by_natpmp, by_upnp in *. cbn [fst snd] in *.
  destruct (m_backend m).
  - unfold natpmp_renew in *. destruct (np_maps (au_natpmp s) !! (m_protocol m, m_internal_port m)) as [slot|] eqn:E; [|by split].
    destruct (crab_renew slot r) as [[res slot'] r']. assert (Hs : forall k, is_Some (<[(m_protocol m, m_internal_port m):=slot']> (np_maps (au_natpmp s)) !! k) -> is_Some (np_maps (au_natpmp s) !! k)).
    { intros k. destruct (decide (k = (m_protocol m, m_internal_port m))) as [->|Hne]; [by rewrite E|by rewrite lookup_insert_ne by done]. }
    destruct res as [u|e]; cbn in *; [|by split]. split; [by apply (Hk _ I)|done].
  - destruct (upnp_renew m lease (au_upnp s, r)) as [[m'|e] [s1 r1]]; cbn in *; [|by split]. split; [by apply (Hk _ I)|done].
Qed.

Lemma auto_renew_table mapped s r :
  let '(renewed, (s', r')) := renew_all mapped (s, r) in
  map map_key renewed = map map_key mapped /\ forall k, is_Some (np_maps (au_natpmp s') !! k) -> is_Some (np_maps (au_natpmp s) !! k).
Proof.
  revert s r. induction mapped as [|m rest IH]; intros s r; cbn [renew_all]; [done|]. pose proof (renew_key m NAT_LEASE s r) as Hm.
  destruct (pm_renew m NAT_LEASE (s, r)) as [res [s1 r1]]. destruct Hm as [Hm1 Hm2]. specialize (IH s1 r1). destruct (renew_all rest (s1, r1)) as [renewed [s2 r2]].
  destruct IH as [H1 H2]. split; [cbn [map]; by f_equal|]. intros k Hk. by apply Hm2, H2.
Qed.

Lemma wf_table_keys mapped mapped' s s' :
  map map_key mapped' = map map_key mapped -> (forall k, is_Some (np_maps s' !! k) -> is_Some (np_maps s !! k)) -> wf_table mapped s -> wf_table mapped' s'.
Proof.
  intros Hk Hs Hw k H. destruct (Hw k (Hs k H)) as (m & Hm & Hb & Hmk). assert (Hin : map_key m ∈ map map_key mapped') by (rewrite Hk; by apply list_elem_of_fmap_2).
  apply list_elem_of_fmap in Hin as (m' & E & Hm'). exists m'. split; [done|]. unfold map_key in E. injection E as E1 E2 E3. by rewrite <-E1, <-E2, <-E3.
Qed.

Theorem natpmp_table_emptied targets events r :
  NatCancelled ∈ events -> np_maps (au_natpmp (fst (nt_mapper (nat_run targets events (auto_new, r))))) = ∅.
Proof.
  intros Hc.
  assert (Hinv : forall evs (t : NatTask (AutoState * R)), wf_table (nt_mapped t) (au_natpmp (fst (nt_mapper t))) -> (nt_phase t = NatEnded -> np_maps (au_natpmp (fst (nt_mapper t))) = ∅) ->
    (nt_phase t = NatEnded \/ NatCancelled ∈ evs) -> np_maps (au_natpmp (fst (nt_mapper (foldl nat_step t evs)))) = ∅).
  { induction evs as [|ev evs IH]; intros t Hw He Hor; cbn [foldl]; [destruct Hor as [H|H%elem_of_nil]; [by apply He|done]|].
    destruct t as [[s r'] phase mapped external open]. unfold nat_step. cbn [nt_mapper nt_phase nt_mapped nt_external nt_port_open fst] in *.
    destruct phase, ev; try (apply IH; cbn; [done|done|destruct Hor as [H|[H|H]%elem_of_cons]; auto; discriminate]).
    1, 2: pose proof (auto_delete_table mapped s r' Hw) as Hd; destruct (delete_all mapped (s, r')) as [s1 r1]; apply IH; cbn in *; [|done|by left];
      intros k Hk; rewrite Hd in Hk; by destruct Hk.
    pose proof (auto_renew_table mapped s r') as Hr. destruct (renew_all mapped (s, r')) as [renewed [s1 r1]]. destruct Hr as [R1 R2].
    apply IH; cbn; [by eapply wf_table_keys|done|]. destruct Hor as [H|[H|H]%elem_of_cons]; auto; discriminate. }
  unfold nat_run. apply Hinv; [| |by right]; unfold nat_start;
    pose proof (auto_add_all_table targets auto_new r [] ltac:(intros k [? H]; done)) as Ha; destruct (add_all targets (auto_new, r)) as [mapped [s1 r1]]; cbn [app] in Ha;
    (destruct mapped as [|m rest]; [cbn|destruct (external_addr _); cbn; done]); [done|].
  intros _. apply map_eq. intros k. rewrite lookup_empty. apply eq_None_not_Some. intros Hk. destruct (Ha k Hk) as (m & Hm & _). by apply elem_of_nil in Hm.
Qed.
End Table.
