(* ===== verification/Inlet.v ===== *)
(** * Admission of peers (crates/bit_rev/src/session.rs, transport/, tracker_peers.rs)

    Where connections come from.  Outgoing ones are opened for the addresses that
    a source has found ([PeerInlet], [Session::connect_peer], [process_peers]); an
    incoming stream is classified by its first bytes, goes through the encryption
    handshake if it is not a plain one, names its torrent in the peer handshake and
    is checked against it.  The stream is read by a process in the sense of Mse;
    the session that it is checked against is the one at the time of the check. *)

From S2P Require Import Lsd.
From S2P Require Import Prelude Text Rate Metainfo Layout Message Handshake Wire Rc4 Mse PeerStates Peers.
From S2P Require Import Picker Priority Download Choke PeerSwarm Session SessionQueue.

(** ** Streams (transport/mod.rs) *)

Inductive IncomingKind := KindPlaintext | MaybeEncrypted.
#[export] Instance IncomingKind_eq_dec : EqDecision IncomingKind.
Proof. solve_decision. Defined.

Definition BT_HANDSHAKE_PSTRLEN : u8 := 19.
Definition classify_incoming (first_byte : u8) : IncomingKind :=
  if first_byte =? BT_HANDSHAKE_PSTRLEN then KindPlaintext else MaybeEncrypted.

Definition starts_with (l p : bytes) : bool := bool_decide (p `prefix_of` l).
Definition classify_incoming_prefix (p : bytes) : IncomingKind :=
  match p with
  | [] => KindPlaintext
  | _ => if starts_with BT_HANDSHAKE_HEAD p || starts_with p BT_HANDSHAKE_HEAD then KindPlaintext else MaybeEncrypted
  end.

(** [PrefixedStream]: the cursor over the bytes read before, and the stream. *)
Record PrefixedStream := mkPrefixed { pf_data : bytes; pf_pos : nat }.
Definition prefixed_new (prefix : bytes) : PrefixedStream := mkPrefixed prefix 0.
Definition into_parts (s : PrefixedStream) : bytes :=
  if (0 <? pf_pos s)%nat then drop (Nat.min (pf_pos s) (length (pf_data s))) (pf_data s) else pf_data s.
Definition prefixed_poll_read (cap : nat) (inner : nat -> Poll (result bytes IoError)) (s : PrefixedStream)
    : Poll (result bytes IoError) * PrefixedStream :=
  if (pf_pos s <? length (pf_data s))%nat then
    let remaining := drop (pf_pos s) (pf_data s) in
    let n := Nat.min (length remaining) cap in
    (Ready (Ok (take n remaining)), mkPrefixed (pf_data s) (pf_pos s + n))
  else (inner cap, s).

(** A process on a [PrefixedStream] with the rest [prefix]: reads take it first.  A
    partial read asks for at least one byte. *)
Fixpoint behind {A} (prefix : bytes) (p : Proc A) : Proc A :=
  match p with
  | PRet r => PRet r
  | PPanic => PPanic
  | PWrite b p => PWrite b (behind prefix p)
  | PReadExact n k =>
      if (n <=? length prefix)%nat then behind (drop n prefix) (k (take n prefix))
      else PReadExact (n - length prefix) (fun b => k (prefix ++ b))
  | PRead want k =>
      match prefix with
      | [] => PRead want k
      | _ => let n := Nat.max 1 (Nat.min want (length prefix)) in behind (drop n prefix) (k (take n prefix))
      end
  end.

(** [with_peek]: the class of a stream whose first bytes have been read; it goes
    on behind them. *)
Definition with_peek {A} (prefix : bytes) (p : IncomingKind -> Proc A) : Proc A :=
  match prefix with
  | [] => p KindPlaintext
  | _ => behind prefix (p (classify_incoming_prefix prefix))
  end.

(** [race_two] (transport/race.rs): the results of the two attempts in the order
    in which they come.  An attempt that has failed is polled no more. *)
Section Race.
Context {T : Type}.

Inductive Attempt := First (r : result T IoError) | Second (r : result T IoError).

Fixpoint race_two (results : list Attempt) (a_err b_err : option IoError) : option (result T IoError) :=
  match a_err, b_err with
  | Some e, Some _ => Some (Err e)
  | _, _ =>
      match results with
      | [] => None
      | First (Ok v) :: rest => match a_err with None => Some (Ok v) | Some _ => race_two rest a_err b_err end
      | First (Err e) :: rest => match a_err with None => race_two rest (Some e) b_err | Some _ => race_two rest a_err b_err end
      | Second (Ok v) :: rest => match b_err with None => Some (Ok v) | Some _ => race_two rest a_err b_err end
      | Second (Err e) :: rest => match b_err with None => race_two rest a_err (Some e) | Some _ => race_two rest a_err b_err end
      end
  end.
End Race.

(** ** An incoming stream, up to the peer handshake *)

(** Reading and writing on a plain stream or through the encryption. *)
Definition Secured : Type := option EncryptedStream.

Definition set_read (dec : option Rc4) (prefix : bytes) (st : EncryptedStream) : EncryptedStream :=
  mkStream (es_enc st) dec prefix (es_pending st) (es_src_len st).
Definition apply_opt (rc : option Rc4) (b : bytes) : bytes * option Rc4 :=
  match rc with Some rc => let '(out, rc) := rc4_apply rc b in (out, Some rc) | None => (b, None) end.

Definition secured_read_exact (n : nat) (st : Secured) : Proc (bytes * Secured) :=
  match st with
  | None => PReadExact n (fun b => pok (b, None))
  | Some st =>
      if (n <=? length (es_prefix st))%nat
      then pok (take n (es_prefix st), Some (set_read (es_dec st) (drop n (es_prefix st)) st))
      else PReadExact (n - length (es_prefix st)) (fun b =>
             let '(out, dec) := apply_opt (es_dec st) b in
             pok (es_prefix st ++ out, Some (set_read dec [] st)))
  end.

(** [write_all]: all bytes go out. *)
Definition secured_write (b : bytes) (st : Secured) : Proc Secured :=
  match st with
  | None => PWrite b (pok None)
  | Some st =>
      let '(out, enc) := apply_opt (es_enc st) b in
      PWrite out (pok (Some (set_write enc (es_pending st) (es_src_len st) st)))
  end.

(** [Protocol::read_handshake]. *)
Definition read_handshake (st : Secured) : Proc (result Handshake ProtocolError * Secured) :=
  let@ (len_buf, st) := secured_read_exact 1 st in
  let protocol_str_len := Z.to_nat (nth 0 len_buf 0) in
  if (protocol_str_len =? 0)%nat then pok (Err (PEHandshake ProtocolLengthCantBeZero), st)
  else if (MAX_PSTR_LEN <? protocol_str_len)%nat then pok (Err (PEHandshake InvalidProtocolLength), st)
  else
    let@ (body, st) := secured_read_exact (protocol_str_len + 48) st in
    match handshake_read protocol_str_len body with
    | None => PPanic
    | Some (Ok h) => pok (Ok h, st)
    | Some (Err e) => pok (Err (PEHandshake e), st)
    end.

(** [Protocol::write_handshake]. *)
Definition write_handshake (h : Handshake) (st : Secured) : Proc Secured := secured_write (handshake_serialize h) st.

(** A stream whose peer has introduced itself. *)
Record Arrived := mkArrived { ar_encrypted : bool; ar_handshake : Handshake; ar_stream : Secured }.

Section Incoming.
Context (policy : EncryptionPolicy) (respond : Proc HandshakeOutcome).

(** [accept_incoming_stream], up to the handshake; [None] is a refusal.
    [respond] is the encryption handshake of Mse with the torrents' keys. *)
Definition secure (kind : IncomingKind) : Proc (option (bool * Secured)) :=
  match kind with
  | KindPlaintext => if negb (allows_plaintext policy) then pok None else pok (Some (false, None))
  | MaybeEncrypted =>
      if negb (allows_mse policy) then pok None
      else let@ o := respond in pok (Some (is_rc4 (ho_selected o), Some (ho_stream o)))
  end.

Definition accept_incoming_stream (blocked : bool) (kind : IncomingKind) : Proc (option Arrived) :=
  if blocked then pok None
  else
    let@ o := secure kind in
    match o with
    | None => pok None
    | Some (encrypted, st) =>
        let@ (r, st) := read_handshake st in
        match r with
        | Err _ => pok None
        | Ok hs => pok (Some (mkArrived encrypted hs st))
        end
    end.

(** [accept_incoming_kind] and [peek_incoming]: the class is decided on the first
    twenty bytes. *)
Definition accept_incoming_kind (blocked : bool) : Proc (option Arrived) :=
  if blocked then pok None
  else PReadExact (length BT_HANDSHAKE_HEAD) (fun prefix => with_peek prefix (accept_incoming_stream blocked)).
End Incoming.

(** [ctx.torrents] and [ctx.pending], the keys that the encryption handshake looks
    for. *)
Definition known_keys (iter_t : gmap bytes TorrentSession -> list (bytes * TorrentSession))
    (iter_p : gmap bytes PendingTorrent -> list (bytes * PendingTorrent)) (s : Session) : list bytes :=
  map fst (iter_t (ses_torrents s)) ++ map fst (iter_p (ses_pending s)).

(** ** The torrents of a session and their peers *)

(** The sources, the state and the peers of a torrent: [torrents] first, then
    [pending], whose placeholder is not private. *)
Record Target := mkTarget { tg_private : bool; tg_controls : Controls }.

Definition target (s : Session) (id : bytes) : option Target :=
  match ses_torrents s !! id, ses_pending s !! id with
  | Some t, _ => Some (mkTarget (t_private (t_torrent t)) (t_controls t))
  | None, Some p => Some (mkTarget false (p_controls p))
  | None, None => None
  end.

Definition set_target_peers (id : bytes) (ps : PeerStates) (s : Session) : Session :=
  match ses_torrents s !! id with
  | Some t => set_torrents (<[id := t_control (set_c_peers ps) t]> (ses_torrents s)) s
  | None => set_pending (alter (p_control (set_c_peers ps)) id (ses_pending s)) s
  end.

Definition peers_of (tg : Target) : PeerStates := c_peers (tg_controls tg).

(** The session and the number of its connections. *)
Record Inlet := mkInlet { in_session : Session; in_global : nat }.

Section Admission.
Context (lim : Limits) (now : Instant).

(** [try_spawn_peer] counts the connection. *)
Definition spawn (id : bytes) (addr : SocketAddr) (tg : Target) (n : Inlet) : bool * Inlet :=
  let '(spawned, ps) := try_spawn_peer lim now addr (in_global n) (peers_of tg) in
  (spawned, mkInlet (set_target_peers id ps (in_session n)) (if spawned then S (in_global n) else in_global n)).

(** *** Outgoing *)

(** [PeerInlet::connect_peer], and [Session::connect_peer], which leaves queued
    torrents alone. *)
Definition inlet_connect_peer (id : bytes) (addr : SocketAddr) (n : Inlet) : bool * Inlet :=
  match target (in_session n) id with
  | Some tg => spawn id addr tg n
  | None => (false, n)
  end.

Definition session_connect_peer (id : bytes) (addr : SocketAddr) (n : Inlet) : bool * Inlet :=
  match target (in_session n) id with
  | Some tg => if decide (c_state (tg_controls tg) = StQueued) then (false, n) else spawn id addr tg n
  | None => (false, n)
  end.

(** The loop of [PeerInlet::add_peers], with what it has added so far. *)
Fixpoint add_loop (id : bytes) (addrs : list SocketAddr) (added : nat) (n : Inlet) : nat * Inlet :=
  match addrs with
  | [] => (added, n)
  | addr :: rest =>
      if lm_blocked lim addr then add_loop id rest added n
      else if (lm_global lim <=? in_global n)%nat then (added, n)
      else match target (in_session n) id with
      | None => (added, n)
      | Some tg =>
          if (lm_torrent lim <=? size (states (peers_of tg)))%nat then (added, n)
          else
            let '(seen, ps) := add_if_not_seen now addr (peers_of tg) in
            let n := mkInlet (set_target_peers id ps (in_session n)) (in_global n) in
            if negb seen then add_loop id rest added n
            else
              let '(connected, n) := inlet_connect_peer id addr n in
              add_loop id rest (if connected then S added else added) n
      end
  end.

Definition add_peers (id : bytes) (source : DiscoverySource) (addrs : list SocketAddr) (n : Inlet) : nat * Inlet :=
  match target (in_session n) id with
  | None => (0%nat, n)
  | Some tg =>
      if negb (allowed_for source (tg_private tg)) then (0%nat, n)
      else if negb (bool_decide (c_transfer (tg_controls tg) = TsDownloading)) then (0%nat, n)
      else add_loop id addrs 0 n
  end.

(** [Session::handle_lpd_datagram]: the sender of an announce on the local network,
    for each torrent it names. *)
Fixpoint add_announced (calls : list (bytes * SocketAddr)) (added : nat) (n : Inlet) : nat * Inlet :=
  match calls with
  | [] => (added, n)
  | (hash, addr) :: rest => let '(k, n) := add_peers hash SrcLsd [addr] n in add_announced rest (added + k) n
  end.

Definition handle_lpd_datagram (lpd : bool) (iter : InboundLimiter -> list (IpAddr * (Instant * u32))) (src : SocketAddr) (datagram cookie : bytes)
    (limiter : InboundLimiter) (n : Inlet) : nat * InboundLimiter * Inlet :=
  if negb lpd then (0%nat, limiter, n)
  else
    let '(calls, limiter) := ingest iter datagram src cookie limiter now in
    let '(added, n) := add_announced calls 0 n in (added, limiter, n).

(** [process_peers] (tracker_peers.rs): the answer of a tracker. *)
Fixpoint process_peers (id : bytes) (new_peers : list SocketAddr) (n : Inlet) : Inlet :=
  match new_peers with
  | [] => n
  | peer :: rest =>
      match target (in_session n) id with
      | None => n
      | Some tg =>
          if negb (bool_decide (c_transfer (tg_controls tg) = TsDownloading)) then process_peers id rest n
          else if decide (is_Some (states (peers_of tg) !! peer)) then process_peers id rest n
          else process_peers id rest (snd (spawn id peer tg n))
      end
  end.

(** *** Incoming *)

(** [accept_incoming_stream], from the handshake to the reply: the torrent that the
    peer named and the handshake that answers it. *)
Definition greet (peer_id : bytes) (dht : option u16) (addr : SocketAddr) (hs : Handshake) (n : Inlet) : option Handshake * Inlet :=
  match target (in_session n) (info_hash hs) with
  | None => (None, n)
  | Some tg =>
      if decide (c_state (tg_controls tg) = StQueued) then (None, n)
      else
        let '(banned, ps) := is_banned now addr (peers_of tg) in
        let n := mkInlet (set_target_peers (info_hash hs) ps (in_session n)) (in_global n) in
        if banned then (None, n)
        else
          let advertise_dht := bool_decide (is_Some dht) && allowed_for SrcDht (tg_private tg) in
          let reply := outgoing (info_hash hs) peer_id in
          (Some (if advertise_dht then enable_dht reply else reply), n)
  end.

(** After the reply is written, [try_spawn_peer] on the [IncomingTarget] found before:
    the session's torrent, or, when that has left the session since, the [held] one as
    it is by then, which takes the peer all the same. *)
Definition enter (id : bytes) (addr : SocketAddr) (held : option Target) (n : Inlet) : bool * option Target * Inlet :=
  match held with
  | Some tg =>
      let '(spawned, ps) := try_spawn_peer lim now addr (in_global n) (peers_of tg) in
      (spawned, Some (mkTarget (tg_private tg) (set_c_peers ps (tg_controls tg))),
       mkInlet (in_session n) (if spawned then S (in_global n) else in_global n))
  | None =>
      match target (in_session n) id with
      | Some tg => let '(spawned, n) := spawn id addr tg n in (spawned, None, n)
      | None => (false, None, n)
      end
  end.

(** Both, when the torrent does not leave the session while the reply is written. *)
Definition admit_peer (peer_id : bytes) (dht : option u16) (addr : SocketAddr) (hs : Handshake) (n : Inlet) : option Handshake * bool * Inlet :=
  let '(reply, n) := greet peer_id dht addr hs n in
  match reply with
  | None => (None, false, n)
  | Some reply => let '(spawned, _, n) := enter (info_hash hs) addr None n in (Some reply, spawned, n)
  end.
End Admission.

(** ** Attempts and streams *)

(** The first success decides, whatever fails before it; without one, both have to
    fail, and the error is the first attempt's. *)
Lemma race_two_exact {T} (r1 r2 : result T IoError) (first_ends : bool) :
  race_two (if first_ends then [First r1; Second r2] else [Second r2; First r1]) None None =
  Some (match r1, r2 with
        | Ok v, Ok v' => if first_ends then Ok v else Ok v'
        | Ok v, Err _ | Err _, Ok v => Ok v
        | Err e, Err _ => Err e
        end).
Proof. by destruct first_ends, r1, r2. Qed.


(** What a stream still gives is not changed by reading it through the prefix. *)
Lemma prefixed_poll_read_exact cap inner s :
  (0 < cap)%nat -> (pf_pos s < length (pf_data s))%nat ->
  exists b, fst (prefixed_poll_read cap inner s) = Ready (Ok b) /\ b <> [] /\
    b ++ into_parts (snd (prefixed_poll_read cap inner s)) = into_parts s.
Proof.
  intros Hc Hp. unfold prefixed_poll_read. destruct (Nat.ltb_spec (pf_pos s) (length (pf_data s))); [|lia].
  assert (E : into_parts s = drop (pf_pos s) (pf_data s)).
  { unfold into_parts. destruct (Nat.ltb_spec 0 (pf_pos s)); [by rewrite Nat.min_l by lia|]. by replace (pf_pos s) with 0%nat by lia. }
  eexists. split; [done|]. rewrite E. set (r := drop (pf_pos s) (pf_data s)).
  assert (Hr : (0 < length r)%nat) by (unfold r; rewrite length_drop; lia). split.
  - intros Ht. apply (f_equal length) in Ht. rewrite length_take in Ht. cbn in Ht. lia.
  - cbn [snd]. unfold into_parts. cbn [pf_pos pf_data]. destruct (Nat.ltb_spec 0 (pf_pos s + Nat.min (length r) cap)); [|lia].
    rewrite (Nat.min_l (pf_pos s + _)) by (unfold r; rewrite length_drop; lia). rewrite <-drop_drop. fold r. apply take_drop.
Qed.

(** A run uses a part of the sizes, whatever sizes come behind it. *)
Lemma advance_script {A} (p : Proc A) input sizes w q rest left :
  advance p input sizes = (w, q, rest, left) -> exists used, forall more, advance p input (used ++ more) = (w, q, rest, more).
Proof.
  revert input sizes w. induction p as [r| |b p IH|n k IH|want k IH]; intros input sizes w; cbn [advance].
  - intros [= <- <- <- <-]. by exists [].
  - intros [= <- <- <- <-]. by exists [].
  - destruct (advance p input sizes) as [[[w' q'] rest'] left'] eqn:E. intros [= <- <- <- <-].
    destruct (IH _ _ _ E) as (used & Hu). exists used. intros more. by rewrite Hu.
  - destruct (n <=? length input)%nat; [apply IH|]. intros [= <- <- <- <-]. by exists [].
  - destruct input as [|x input]; [intros [= <- <- <- <-]; by exists []|]. set (inp := x :: input).
    intros E. set (m := default (Nat.min want (length inp)) (head sizes)) in E.
    destruct (IH _ _ _ _ E) as (used & Hu). exists (m :: used). intros more. cbn [app head default from_option tail]. apply Hu.
Qed.

(** A process that waits is not changed by an empty prefix. *)
Lemma behind_nil {A} (p : Proc A) input sizes w q rest left : advance p input sizes = (w, q, rest, left) -> behind [] q = q.
Proof.
  revert input sizes w. induction p as [r| |b p IH|n k IH|want k IH]; intros input sizes w; cbn [advance].
  - by intros [= <- <- <- <-].
  - by intros [= <- <- <- <-].
  - destruct (advance p input sizes) as [[[w' q'] rest'] left'] eqn:E. intros [= <- <- <- <-]. by eapply IH.
  - destruct (Nat.leb_spec n (length input)); [apply IH|]. intros [= <- <- <- <-]. cbn [behind length].
    destruct (Nat.leb_spec n 0); [lia|]. by rewrite Nat.sub_0_r.
  - destruct input as [|x input]; [by intros [= <- <- <- <-]|]. apply IH.
Qed.

(** A process behind a prefix does what it does on the whole stream. *)
Lemma behind_advance {A} (p : Proc A) prefix input sizes w q rest left :
  advance (behind prefix p) input sizes = (w, q, rest, left) ->
  exists used q' pre, q = behind pre q' /\ forall more, advance p (prefix ++ input) (used ++ more) = (w, q', pre ++ rest, more).
Proof.
  revert prefix input sizes w. induction p as [r| |b p IH|n k IH|want k IH]; intros prefix input sizes w; cbn [behind].
  - intros [= <- <- <- <-]. by exists [], (PRet r), prefix.
  - intros [= <- <- <- <-]. by exists [], PPanic, prefix.
  - cbn [advance]. destruct (advance (behind prefix p) input sizes) as [[[w' q1] rest1] left1] eqn:E. intros [= <- <- <- <-].
    destruct (IH _ _ _ _ E) as (used & q' & pre & -> & Hu). exists used, q', pre. split; [done|]. intros more. by rewrite Hu.
  - destruct (Nat.leb_spec n (length prefix)) as [Hn|Hn].
    + intros E. destruct (IH _ _ _ _ _ E) as (used & q' & pre & -> & Hu). exists used, q', pre. split; [done|]. intros more. cbn [advance].
      rewrite length_app. destruct (Nat.leb_spec n (length prefix + length input)); [|lia]. rewrite take_app_le, drop_app_le by lia. apply Hu.
    + cbn [advance]. destruct (Nat.leb_spec (n - length prefix) (length input)) as [Hm|Hm].
      * intros E. pose proof (behind_nil _ _ _ _ _ _ _ E) as Hq. destruct (advance_script _ _ _ _ _ _ _ E) as (used & Hu).
        exists used, q, []. split; [done|]. intros more. rewrite length_app. destruct (Nat.leb_spec n (length prefix + length input)); [|lia].
        rewrite take_app_ge, drop_app_ge by lia. apply Hu.
      * intros [= <- <- <- <-]. exists [], (PReadExact n k), prefix. split.
        { cbn [behind]. destruct (Nat.leb_spec n (length prefix)); [lia|done]. }
        intros more. cbn [advance app]. rewrite length_app. destruct (Nat.leb_spec n (length prefix + length input)); [lia|done].
  - destruct prefix as [|x prefix].
    + intros E. pose proof (behind_nil _ _ _ _ _ _ _ E) as Hq. destruct (advance_script _ _ _ _ _ _ _ E) as (used & Hu). by exists used, q, [].
    + set (pr := x :: prefix). set (m := Nat.max 1 (Nat.min want (length pr))). intros E.
      destruct (IH _ _ _ _ _ E) as (used & q' & pre & -> & Hu). exists (m :: used), q', pre. split; [done|]. intros more.
      change ((m :: used) ++ more) with (m :: used ++ more). unfold pr. cbn [app advance head tail default from_option]. fold (app prefix input).
      change (x :: prefix ++ input) with (pr ++ input). cbn [from_option id default].
      assert (Hm : Nat.max 1 (Nat.min (Nat.min want (length (pr ++ input))) m) = m).
      { unfold m. rewrite length_app. lia. }
      rewrite Hm. assert (m <= length pr)%nat by (unfold m, pr; cbn [length]; lia). rewrite take_app_le, drop_app_le by done. apply Hu.
Qed.

Lemma link_behind {A B} rounds (p : Proc A) (q : Proc B) pre to_p to_q P Q tp tq :
  (forall sizes, link rounds p q to_p (pre ++ to_q) sizes = (P, Q, tp, tq)) ->
  forall sizes, exists pre' tq', link rounds p (behind pre q) to_p to_q sizes = (P, behind pre' Q, tp, tq') /\ tq = pre' ++ tq'.
Proof.
  revert p q pre to_p to_q. induction rounds as [|rounds IH]; intros p q pre to_p to_q H sizes.
  - injection (H sizes) as <- <- <- <-. by exists pre, to_q.
  - cbn [link]. destruct (advance p to_p sizes) as [[[w p1] tp1] s1] eqn:Ep. destruct (advance (behind pre q) (to_q ++ w) s1) as [[[w' q1] rest] s2] eqn:Eq.
    destruct (advance_script _ _ _ _ _ _ _ Ep) as (used1 & Hp). destruct (behind_advance _ _ _ _ _ _ _ _ Eq) as (used2 & q' & pre' & -> & Hq).
    apply IH. intros sizes'. rewrite <-(H (used1 ++ used2 ++ sizes')). cbn [link]. rewrite Hp. cbn beta iota. by rewrite <-app_assoc, Hq.
Qed.

(** A side that reads the first bytes ahead and goes on behind them behaves as one
    that does not. *)
Lemma link_peek {A B} rounds (p : Proc A) (q : Proc B) n pf P Q tp tq w0 :
  (forall sizes, exists p0 left, advance p [] sizes = (w0, p0, [], left)) -> (n <= length w0)%nat -> pf (take n w0) = behind (take n w0) q ->
  (forall sizes, link (S rounds) p q [] [] sizes = (P, Q, tp, tq)) ->
  forall sizes, exists pre' tq', link (S rounds) p (PReadExact n pf) [] [] sizes = (P, behind pre' Q, tp, tq') /\ tq = pre' ++ tq'.
Proof.
  intros Hp Hn Hpf H sizes. cbn [link]. destruct (Hp sizes) as (p0 & left & Ep). rewrite Ep. cbn beta iota. cbn [app advance].
  destruct (Nat.leb_spec n (length w0)); [|lia].
  rewrite Hpf. destruct (advance (behind (take n w0) q) (drop n w0) left) as [[[w' q1] rest] s2] eqn:Eq.
  destruct (advance_script _ _ _ _ _ _ _ Ep) as (used1 & Hu). destruct (behind_advance _ _ _ _ _ _ _ _ Eq) as (used & q' & pre' & -> & Hq). rewrite take_drop in Hq.
  apply link_behind. intros sizes'. specialize (H (used1 ++ used ++ sizes')). cbn [link] in H. rewrite Hu in H. cbn beta iota in H. cbn [app] in H. by rewrite Hq in H.
Qed.

(** A side that has ended stays as it is. *)
Lemma link_ended {A B C} rounds (p : Proc A) (r : result B MseError) (r' : result C MseError) to_p to_q sizes P Q tp tq :
  link rounds p (PRet r) to_p to_q sizes = (P, Q, tp, tq) -> Q = PRet r /\ link rounds p (PRet r') to_p to_q sizes = (P, PRet r', tp, tq).
Proof.
  revert p to_p to_q sizes. induction rounds as [|rounds IH]; intros p to_p to_q sizes; cbn [link].
  - by intros [= <- <- <- <-].
  - destruct (advance p to_p sizes) as [[[w p1] tp1] s1]. cbn [advance]. apply IH.
Qed.

(** What follows the end of a side, when it needs nothing more. *)
Lemma link_bind {A B C} rounds (p : Proc A) (q : Proc B) (k : B -> Proc C) o r to_p to_q sizes P tp tq :
  link (S rounds) p q to_p to_q sizes = (P, PRet (Ok o), tp, tq) ->
  (forall rest sizes, advance (k o) rest sizes = ([], PRet r, rest, sizes)) ->
  link (S rounds) p (pbind q k) to_p to_q sizes = (P, PRet r, tp, tq).
Proof.
  intros H Hk. revert p q to_p to_q sizes H. induction rounds as [|rounds IH]; intros p q to_p to_q sizes; cbn [link];
    (destruct (advance p to_p sizes) as [[[w p1] tp1] s1]; rewrite advance_bind; destruct (advance q (to_q ++ w) s1) as [[[w' q1] rest] s2]; cbn beta iota).
  - intros [= <- -> <- <-]. by rewrite Hk, app_nil_r.
  - intros H. assert (Hcase : (exists r0, q1 = PRet r0) \/ match q1 with PRet _ => False | _ => True end) by (destruct q1; eauto).
    destruct Hcase as [[r0 ->]|Hn].
    + assert (r0 = Ok o) as ->. { destruct (link_ended (S rounds) _ _ (Ok tt : result unit MseError) _ _ _ _ _ _ _ H) as [[= <-] _]. done. }
      rewrite Hk. cbn beta iota. rewrite app_nil_r. destruct (link_ended (S rounds) _ _ r _ _ _ _ _ _ _ H) as [_ H']. exact H'.
    + specialize (IH _ _ _ _ _ H). destruct q1; done.
Qed.

(** ** The peer handshake on a stream *)

(** The handshake that follows: read from what the encryption handshake left. *)
Lemma read_handshake_left hs st rest sizes :
  wf_handshake hs -> ascii_pstr hs -> es_prefix st = handshake_serialize hs ->
  advance (read_handshake (Some st)) rest sizes = ([], PRet (Ok (Ok hs, Some (set_read (es_dec st) [] st))), rest, sizes).
Proof.
  intros Hwf [Hlen Hasc] Hp. pose proof Hwf as [Hr Hi Hpi _]. unfold MAX_PSTR_LEN in Hlen. unfold read_handshake, secured_read_exact. rewrite Hp.
  unfold handshake_serialize. cbn [length app]. cbn [Nat.leb pbind pok take drop nth]. cbn zeta. rewrite wrap8_small, Nat2Z.id by ranges.
  destruct (Nat.eqb_spec (length (pstr hs)) 0); [lia|]. unfold MAX_PSTR_LEN. destruct (Nat.ltb_spec 19 (length (pstr hs))); [lia|].
  cbn [set_read es_prefix]. set (body := pstr hs ++ Handshake.reserved hs ++ info_hash hs ++ peer_id hs).
  assert (Hb : length body = (length (pstr hs) + 48)%nat) by (unfold body; rewrite !length_app; lia). rewrite ?drop_0.
  destruct (Nat.leb_spec (length (pstr hs) + 48) (length body)); [|lia]. rewrite take_ge, drop_ge by lia. cbn [pbind pok].
  unfold body. rewrite <-(app_nil_r (peer_id hs)), handshake_read_body by (done || lia). rewrite Utf8.utf8_lossy_ascii by done. by destruct hs.
Qed.

(** And on a plain stream. *)
Lemma read_handshake_plain hs rest sizes :
  wf_handshake hs -> ascii_pstr hs -> advance (read_handshake None) (handshake_serialize hs ++ rest) sizes = ([], PRet (Ok (Ok hs, None)), rest, sizes).
Proof.
  intros Hwf [Hlen Hasc]. pose proof Hwf as [Hr Hi Hpi _]. unfold MAX_PSTR_LEN in Hlen. unfold read_handshake, secured_read_exact, handshake_serialize.
  cbn [pbind pok advance app length Nat.leb take drop nth]. cbn zeta. rewrite wrap8_small, Nat2Z.id by ranges.
  destruct (Nat.eqb_spec (length (pstr hs)) 0); [lia|]. unfold MAX_PSTR_LEN. destruct (Nat.ltb_spec 19 (length (pstr hs))); [lia|].
  cbn [pbind pok advance]. set (body := pstr hs ++ Handshake.reserved hs ++ info_hash hs ++ peer_id hs).
  assert (Hb : length body = (length (pstr hs) + 48)%nat) by (unfold body; rewrite !length_app; lia). rewrite ?drop_0.
  rewrite length_app. destruct (Nat.leb_spec (length (pstr hs) + 48) (length body + length rest)); [|lia].
  rewrite take_app_length', drop_app_length' by done.
  unfold body. rewrite <-(app_nil_r (peer_id hs)), handshake_read_body by (done || lia). rewrite Utf8.utf8_lossy_ascii by done. by destruct hs.
Qed.

Lemma classify_head prefix : length prefix = 20%nat -> prefix <> BT_HANDSHAKE_HEAD -> classify_incoming_prefix prefix = MaybeEncrypted.
Proof.
  intros Hl Hne. unfold classify_incoming_prefix, starts_with. destruct prefix as [|x prefix]; [done|].
  rewrite !bool_decide_eq_false_2; [done| |].
  - intros Hp. destruct Hne. symmetry. by apply prefix_length_eq; [|rewrite Hl].
  - intros Hp. destruct Hne. apply prefix_length_eq; [done|]. by rewrite Hl.
Qed.

Lemma encrypted_arrives sha1 a b pad_a pad_b pad_c pad_d skey hs provide allow_plaintext selected policy lookup enc dec sizes :
  (forall m, length (sha1 m) = 20%nat) ->
  agreeable sha1 a b pad_a pad_b pad_c pad_d skey (handshake_serialize hs) provide allow_plaintext selected lookup (policy_select policy) enc dec ->
  wf_handshake hs -> ascii_pstr hs -> take 20 (modpow_g2 a) <> BT_HANDSHAKE_HEAD ->
  exists oi st,
    link 3 (initiate_inner sha1 a pad_a pad_c skey provide (handshake_serialize hs) allow_plaintext)
      (accept_incoming_kind policy (respond_inner sha1 b pad_b pad_d lookup (policy_select policy)) false) [] [] sizes =
      (PRet (Ok oi), PRet (Ok (Some (mkArrived (is_rc4 selected) hs (Some st)))), [], []) /\
    es_enc (ho_stream oi) = es_dec st /\ es_dec (ho_stream oi) = es_enc st /\ es_prefix st = [].
Proof.
  intros Hsha Hag Hwf Hasc Hhead. pose proof (ag_select _ _ _ _ _ _ _ _ _ _ _ _ _ _ _ _ Hag) as Hsel.
  pose proof (handshake_link sha1 Hsha a b pad_a pad_b pad_c pad_d skey _ provide allow_plaintext selected lookup (policy_select policy) enc dec Hag) as E.
  set (init := initiator _ _ _ _ _ _ _ _) in E. set (oi := initiator_outcome _ _ _ _ _ _ _ _ _) in E. set (or := responder_outcome _ _ _ _ _ _ _ _ _) in E.
  assert (Hmse : allows_mse policy = true) by by destruct policy.
  assert (Ep : es_prefix (ho_stream or) = handshake_serialize hs).
  { unfold or, responder_outcome, finish_stream. rewrite app_nil_r. by destruct selected. }
  set (st := set_read (es_dec (ho_stream or)) [] (ho_stream or)).
  pose (kind := MaybeEncrypted). pose (respond := respond_inner sha1 b pad_b pad_d lookup (policy_select policy)).
  assert (E2 : forall sizes, link 3 init (accept_incoming_stream policy respond false kind) [] [] sizes =
    (PRet (Ok oi), PRet (Ok (Some (mkArrived (is_rc4 selected) hs (Some st)))), [], [])).
  { intros sizes'. unfold accept_incoming_stream, kind, secure. rewrite Hmse. cbn [negb].
    eapply link_bind; [eapply link_bind; [apply E|]|].
    - intros rest s. reflexivity.
    - intros rest s. cbn beta iota. rewrite advance_bind, read_handshake_left with (hs := hs) by done. reflexivity. }
  assert (E3 : exists pre' tq', link 3 init (accept_incoming_kind policy respond false) [] [] sizes =
    (PRet (Ok oi), behind pre' (PRet (Ok (Some (mkArrived (is_rc4 selected) hs (Some st))))), [], tq') /\ [] = pre' ++ tq').
  { unfold accept_incoming_kind. apply link_peek with (q := accept_incoming_stream policy respond false kind) (w0 := hello_a a pad_a); [| | |done].
    - intros s. destruct (initiator_rounds _ _ _ _ _ _ _ _ _ _ _ _ _ _ _ _ Hag s) as (p0 & Eq & _). by exists p0, s.
    - unfold hello_a. rewrite length_app, length_public. cbn. lia.
    - unfold hello_a. rewrite take_app_le by (rewrite length_public; cbn; lia). unfold with_peek.
      pose proof (length_public a) as Hl. destruct (take (length BT_HANDSHAKE_HEAD) (modpow_g2 a)) as [|x pr] eqn:Et.
      { apply (f_equal length) in Et. rewrite length_take, Hl in Et. discriminate Et. }
      rewrite <-Et. change (length BT_HANDSHAKE_HEAD) with 20%nat. rewrite classify_head; [done| |done]. by rewrite length_take, Hl. }
  destruct E3 as (pre' & tq' & E3 & Hnil). symmetry in Hnil. apply app_nil in Hnil as [-> ->].
  exists oi, st. split; [exact E3|]. unfold oi, st, or, initiator_outcome, responder_outcome, finish_stream. by destruct selected.
Qed.

(** ** What an incoming stream can come to *)

(** Every end of a process, whatever it reads. *)
Fixpoint always {A} (P : A -> Prop) (p : Proc A) : Prop :=
  match p with
  | PRet (Ok a) => P a
  | PRet (Err _) | PPanic => True
  | PWrite _ p => always P p
  | PReadExact _ k | PRead _ k => forall b, always P (k b)
  end.

Lemma always_true {A} (p : Proc A) : always (fun _ => True) p.
Proof. induction p as [[]| |b p IH|n k IH|want k IH]; cbn; auto. Qed.

Lemma always_bind {A B} (P : A -> Prop) (Q : B -> Prop) (p : Proc A) (k : A -> Proc B) :
  always P p -> (forall a, P a -> always Q (k a)) -> always Q (pbind p k).
Proof. intros Hp Hk. induction p as [[]| |b p IH|n f IH|want f IH]; cbn in *; auto. Qed.

Lemma always_bind_any {A B} (Q : B -> Prop) (p : Proc A) (k : A -> Proc B) : (forall a, always Q (k a)) -> always Q (pbind p k).
Proof. intros H. eapply always_bind; [apply always_true|auto]. Qed.

Lemma always_behind {A} (P : A -> Prop) (p : Proc A) prefix : always P p -> always P (behind prefix p).
Proof.
  revert prefix. induction p as [[]| |b p IH|n k IH|want k IH]; intros prefix H; cbn [behind always] in *; auto.
  - destruct (n <=? length prefix)%nat; cbn; auto.
  - destruct prefix; cbn; auto.
Qed.

Lemma always_advance {A} (P : A -> Prop) (p : Proc A) input sizes w a rest left :
  always P p -> advance p input sizes = (w, PRet (Ok a), rest, left) -> P a.
Proof.
  revert input sizes w. induction p as [r| |b p IH|n k IH|want k IH]; intros input sizes w H; cbn [always advance] in *.
  - intros [= <- -> <- <-]. exact H.
  - done.
  - destruct (advance p input sizes) as [[[w1 q] rest1] left1] eqn:E. intros [= <- -> <- <-]. by eapply IH.
  - destruct (n <=? length input)%nat; [by apply IH|done].
  - destruct input; [done|]. by apply IH.
Qed.

(** The encryption handshake ends with a method that the policy has chosen. *)
Lemma respond_selects sha1 b pad_b pad_d lookup select :
  always (fun o => exists provided, select provided = Some (ho_selected o)) (respond_inner sha1 b pad_b pad_d lookup select).
Proof.
  unfold respond_inner. cbn [always]. intros ya. cbv zeta. cbn [always]. apply always_bind_any. intros leftover. unfold respond_finish. apply always_bind_any. intros [req2 prefix].
  destruct (lookup _) as [skey|]; [|exact I]. generalize (for_mse (key_a sha1 (shared_secret b ya) skey)) as od, (for_mse (key_b sha1 (shared_secret b ya) skey)) as oe.
  intros [dec0|] [enc|]; cbn [always]; try exact I.
  apply always_bind_any. intros [[vc prefix1] dec]. destruct (negb _); [exact I|]. apply always_bind_any. intros [[provided prefix2] dec2].
  apply always_bind_any. intros [[len prefix3] dec3]. destruct (_ <? _)%nat; [exact I|]. apply always_bind_any. intros [prefix4 dec4].
  apply always_bind_any. intros [[ia_len prefix5] dec5]. destruct (_ <? _); [exact I|]. apply always_bind_any. intros [[ia prefix6] dec6].
  destruct (select provided) eqn:E; [|exact I]. destruct (_ =? 0); [exact I|]. destruct (rc4_apply _ _) as [out enc']. cbn. eauto.
Qed.

(** What the policy lets through. *)
Definition policy_keeps (policy : EncryptionPolicy) (encrypted : bool) : Prop :=
  match policy with RequireEncrypted => encrypted = true | Disabled => encrypted = false | _ => True end.

Lemma secure_keeps sha1 b pad_b pad_d lookup policy kind :
  always (fun o => forall e st, o = Some (e, st) -> policy_keeps policy e) (secure policy (respond_inner sha1 b pad_b pad_d lookup (policy_select policy)) kind).
Proof.
  unfold secure. destruct kind.
  - destruct (allows_plaintext policy) eqn:E; cbn; [|done]. intros e st [= <- <-]. by destruct policy.
  - destruct (allows_mse policy) eqn:E; cbn [negb]; [|done]. eapply always_bind; [apply respond_selects|].
    intros o (provided & Hs). cbn. intros e st [= <- <-]. destruct policy; try done. cbn in Hs. destruct (negb _); [|done]. by injection Hs as <-.
Qed.

Lemma accept_keeps sha1 b pad_b pad_d lookup policy blocked kind :
  always (fun o => forall a, o = Some a -> blocked = false /\ policy_keeps policy (ar_encrypted a))
    (accept_incoming_stream policy (respond_inner sha1 b pad_b pad_d lookup (policy_select policy)) blocked kind).
Proof.
  unfold accept_incoming_stream. destruct blocked; [done|]. eapply always_bind; [apply secure_keeps|]. intros [[e st]|] H; [|done].
  apply always_bind_any. intros [[hs|] st']; cbn; [|done]. intros a [= <-]. split; [done|]. cbn. by eapply H.
Qed.

Lemma incoming_keeps sha1 b pad_b pad_d lookup policy blocked :
  always (fun o => forall a, o = Some a -> blocked = false /\ policy_keeps policy (ar_encrypted a))
    (accept_incoming_kind policy (respond_inner sha1 b pad_b pad_d lookup (policy_select policy)) blocked).
Proof.
  unfold accept_incoming_kind. destruct blocked; [done|]. cbn [always]. intros prefix. unfold with_peek.
  destruct prefix; [|apply always_behind]; apply accept_keeps.
Qed.

(** ** Admission *)

(** The connections of a torrent, and what their peers are with their connection. *)
Definition connections (n : Inlet) (id : bytes) : option (gmap SocketAddr PeerState) :=
  (fun tg => states (peers_of tg)) <$> target (in_session n) id.

Lemma target_set_peers s id ps id' :
  target (set_target_peers id ps s) id' =
  (if decide (id' = id) then fun tg => mkTarget (tg_private tg) (set_c_peers ps (tg_controls tg)) else fun tg => tg) <$> target s id'.
Proof.
  unfold set_target_peers, target. destruct (decide (id' = id)) as [->|Hne].
  - destruct (ses_torrents s !! id) as [t|] eqn:E; cbn [set_torrents set_pending ses_torrents ses_pending].
    + by rewrite lookup_insert_eq.
    + rewrite E, lookup_alter_eq. by destruct (ses_pending s !! id).
  - destruct (ses_torrents s !! id) as [t|] eqn:E; cbn [set_torrents set_pending ses_torrents ses_pending].
    + rewrite lookup_insert_ne by done. by destruct (ses_torrents s !! id'), (ses_pending s !! id').
    + rewrite lookup_alter_ne by done. by destruct (ses_torrents s !! id'), (ses_pending s !! id').
Qed.

Lemma connections_set n id ps g id' :
  connections (mkInlet (set_target_peers id ps (in_session n)) g) id' =
  (if decide (id' = id) then (fun _ => states ps) <$> connections n id' else connections n id').
Proof.
  unfold connections. cbn [in_session]. rewrite target_set_peers. by destruct (decide _), (target (in_session n) id').
Qed.

Section Admitting.
Context (lim : Limits) (now : Instant).

Definition banned_at (ps : PeerStates) (addr : SocketAddr) : bool := fst (is_banned now addr ps).

Lemma purge_twice ps : purge_expired_bans now (purge_expired_bans now ps) = purge_expired_bans now ps.
Proof.
  unfold purge_expired_bans. cbn [states hash_failures banned]. f_equal. apply map_eq. intros a.
  apply option_eq. intros t. rewrite !map_lookup_filter_Some. naive_solver.
Qed.

Lemma banned_purged ps m addr : banned_at (set_states m (purge_expired_bans now ps)) addr = banned_at ps addr.
Proof.
  unfold banned_at, is_banned. cbn [fst]. pose proof (purge_twice ps) as E. unfold purge_expired_bans in *. cbn [states hash_failures banned set_states] in *.
  injection E as E. by rewrite E.
Qed.

(** Whether the peers of a torrent take one more. *)
Definition admissible (global : nat) (ps : PeerStates) (addr : SocketAddr) : bool :=
  (global <? lm_global lim)%nat &&
  (bool_decide (is_Some (states ps !! addr)) || (size (states ps) <? lm_torrent lim)%nat) &&
  negb (banned_at ps addr) && negb (lm_blocked lim addr) &&
  match states ps !! addr with Some s => negb (writer_tx s) | None => true end.

Lemma try_spawn_exact global ps addr :
  exists ps', try_spawn_peer lim now addr global ps = (admissible global ps addr, ps') /\
    states ps' = (if admissible global ps addr then <[addr := live now]> (states ps) else states ps) /\
    (ps' = ps \/ ps' = set_states (states ps') (purge_expired_bans now ps)).
Proof.
  unfold try_spawn_peer, admissible. rewrite Nat.ltb_antisym. destruct (lm_global lim <=? global)%nat; cbn [negb andb]; [by exists ps; auto|].
  rewrite Nat.ltb_antisym. set (seen := bool_decide _). replace (negb seen && (lm_torrent lim <=? size (states ps))%nat)
    with (negb (seen || negb (lm_torrent lim <=? size (states ps))%nat)) by by destruct seen, (lm_torrent lim <=? size (states ps))%nat.
  destruct (seen || _); cbn [negb andb]; [|by exists ps; auto]. unfold banned_at, is_banned. cbn [fst].
  set (ps1 := purge_expired_bans now ps). assert (E1 : set_states (states ps1) ps1 = ps1) by by destruct ps1.
  destruct (bool_decide (is_Some (banned ps1 !! addr))) eqn:Eb; cbn [negb andb]; [by exists ps1; auto|].
  destruct (lm_blocked lim addr); cbn [negb andb]; [by exists ps1; auto|]. unfold insert_live, is_banned.
  assert (Ep : purge_expired_bans now ps1 = ps1) by apply purge_twice. rewrite Ep, Eb.
  change (states ps1) with (states ps). destruct (states ps !! addr) as [s|]; [destruct (writer_tx s)|]; cbn [negb]; eexists; (split; [done|split; [done|auto]]).
Qed.

(** Opening a connection. *)
Lemma spawn_exact id addr n tg :
  target (in_session n) id = Some tg ->
  let b := admissible (in_global n) (peers_of tg) addr in
  fst (spawn lim now id addr tg n) = b /\
  in_global (snd (spawn lim now id addr tg n)) = (if b then S (in_global n) else in_global n) /\
  forall id', connections (snd (spawn lim now id addr tg n)) id' =
    if b && bool_decide (id' = id) then <[addr := live now]> <$> connections n id' else connections n id'.
Proof.
  intros Ht b. unfold spawn. destruct (try_spawn_exact (in_global n) (peers_of tg) addr) as (ps' & -> & Hs & _). fold b in Hs |- *. cbn [fst snd in_global].
  split; [done|]. split; [done|]. intros id'. rewrite connections_set. destruct (decide (id' = id)) as [->|Hne].
  - rewrite bool_decide_eq_true_2, andb_true_r by done. unfold connections. rewrite Ht. cbn [fmap option_fmap option_map]. rewrite Hs. by destruct b.
  - by rewrite bool_decide_eq_false_2, andb_false_r by done.
Qed.

(** What becomes of a session when connections are opened for a torrent. *)
Definition opened (id : bytes) (addrs : list SocketAddr) (n n' : Inlet) : Prop :=
  in_global n' = (in_global n + length addrs)%nat /\
  forall id', connections n' id' =
    if decide (id' = id) then (fun m => foldl (fun m a => <[a := live now]> m) m addrs) <$> connections n id' else connections n id'.

(** The addresses of a list that are worth a connection, each once. *)
Fixpoint candidates (bad : SocketAddr -> bool) (seen : gset SocketAddr) (addrs : list SocketAddr) : list SocketAddr :=
  match addrs with
  | [] => []
  | a :: rest =>
      if bad a || bool_decide (a ∈ seen) then candidates bad seen rest else a :: candidates bad ({[a]} ∪ seen) rest
  end.

(** The connections to open: as many of the candidates as there is room for. *)
Definition unwanted (ps : PeerStates) (a : SocketAddr) : bool := lm_blocked lim a || banned_at ps a.
Definition room (global : nat) (ps : PeerStates) : nat := Nat.min (lm_global lim - global) (lm_torrent lim - size (states ps)).
Definition to_dial (global : nat) (ps : PeerStates) (addrs : list SocketAddr) : list SocketAddr :=
  take (room global ps) (candidates (unwanted ps) (dom (states ps)) addrs).

Lemma candidates_ext bad bad' seen addrs : (forall a, bad a = bad' a) -> candidates bad seen addrs = candidates bad' seen addrs.
Proof. intros H. revert seen. induction addrs as [|a rest IH]; intros seen; cbn; [done|]. by rewrite H, !IH. Qed.

Lemma candidates_spec bad seen addrs :
  NoDup (candidates bad seen addrs) /\ forall a, a ∈ candidates bad seen addrs <-> a ∈ addrs /\ bad a = false /\ a ∉ seen.
Proof.
  revert seen. induction addrs as [|x rest IH]; intros seen; cbn [candidates]; [split; [constructor|set_solver]|].
  setoid_rewrite elem_of_cons. destruct (bad x) eqn:Eb; cbn [orb].
  - destruct (IH seen) as [H1 H2]. split; [done|]. intros a. rewrite H2. split; [tauto|]. intros ([->|] & ? & ?); [congruence|done].
  - destruct (bool_decide (x ∈ seen)) eqn:Es; [apply bool_decide_eq_true in Es|apply bool_decide_eq_false in Es].
    + destruct (IH seen) as [H1 H2]. split; [done|]. intros a. rewrite H2. split; [tauto|]. by intros ([->|] & ? & ?).
    + destruct (IH ({[x]} ∪ seen)) as [H1 H2]. split; [constructor; [rewrite H2, elem_of_union, elem_of_singleton; tauto|done]|].
      intros a. rewrite elem_of_cons, H2, elem_of_union, elem_of_singleton. destruct (decide (a = x)) as [->|]; tauto.
Qed.

Lemma opened_nil id n n' : in_global n' = in_global n -> (forall id', connections n' id' = connections n id') -> opened id [] n n'.
Proof. intros Hg H. split; [cbn; lia|]. intros id'. rewrite H. cbn. destruct (decide _); [|done]. by destruct (connections n id'). Qed.

Lemma opened_app id d1 d2 n n1 n2 : opened id d1 n n1 -> opened id d2 n1 n2 -> opened id (d1 ++ d2) n n2.
Proof.
  intros [G1 C1] [G2 C2]. split; [rewrite length_app; lia|]. intros id'. rewrite C2, C1. destruct (decide (id' = id)); [|done].
  rewrite <-option_fmap_compose. destruct (connections n id'); cbn; [|done]. by rewrite foldl_app.
Qed.

(** A step of either loop: the torrent as it is afterwards. *)
Lemma target_after id ps n g tg :
  target (in_session n) id = Some tg ->
  target (in_session (mkInlet (set_target_peers id ps (in_session n)) g)) id = Some (mkTarget (tg_private tg) (set_c_peers ps (tg_controls tg))).
Proof. intros H. cbn [in_session]. rewrite target_set_peers, H, decide_True by done. done. Qed.

(** The torrent after a connection attempt: one peer more, or as before. *)
Record stepped (a : SocketAddr) (b : bool) (ps ps' : PeerStates) : Prop := {
  sp_states : states ps' = if b then <[a := live now]> (states ps) else states ps;
  sp_banned : forall x, banned_at ps' x = banned_at ps x }.

Lemma to_dial_stepped g ps ps' rest a :
  stepped a false ps ps' -> to_dial g ps' rest = to_dial g ps rest.
Proof.
  intros [Hs Hb]. unfold to_dial, room. rewrite Hs. f_equal. apply candidates_ext. intros x. unfold unwanted. by rewrite Hb.
Qed.

Lemma to_dial_skip g ps a rest :
  unwanted ps a || bool_decide (a ∈ dom (states ps)) = true -> to_dial g ps (a :: rest) = to_dial g ps rest.
Proof. intros H. unfold to_dial. cbn [candidates]. by rewrite H. Qed.

Lemma to_dial_full g ps addrs : room g ps = 0%nat -> to_dial g ps addrs = [].
Proof. intros H. unfold to_dial. by rewrite H. Qed.

Lemma to_dial_cons g ps ps' a rest :
  unwanted ps a = false -> states ps !! a = None -> (0 < room g ps)%nat -> stepped a true ps ps' ->
  to_dial g ps (a :: rest) = a :: to_dial (S g) ps' rest.
Proof.
  intros Hw Hn Hr [Hs Hb]. unfold to_dial. cbn [candidates]. rewrite Hw, bool_decide_eq_false_2 by by apply not_elem_of_dom. cbn [orb].
  unfold room in *. rewrite Hs, map_size_insert_None, dom_insert_L by done.
  replace (Nat.min (lm_global lim - g) (lm_torrent lim - size (states ps)))
    with (S (Nat.min (lm_global lim - S g) (lm_torrent lim - S (size (states ps))))) by lia.
  cbn [take]. do 2 f_equal. apply candidates_ext. intros x. unfold unwanted. by rewrite Hb.
Qed.

Lemma spawn_stepped g ps a : exists ps', try_spawn_peer lim now a g ps = (admissible g ps a, ps') /\ stepped a (admissible g ps a) ps ps'.
Proof.
  destruct (try_spawn_exact g ps a) as (ps' & E & Hs & H). exists ps'. split; [done|]. split; [done|]. intros x.
  destruct H as [->| ->]; [done|]. apply banned_purged.
Qed.

Lemma seen_stepped ps a :
  exists ps', add_if_not_seen now a ps = (negb (banned_at ps a) && bool_decide (states ps !! a = None), ps') /\
    states ps' = (if negb (banned_at ps a) && bool_decide (states ps !! a = None) then <[a := live_unwired now]> (states ps) else states ps) /\
    forall x, banned_at ps' x = banned_at ps x.
Proof.
  unfold add_if_not_seen, banned_at, is_banned. cbn [fst]. set (ps1 := purge_expired_bans now ps). assert (Ep : purge_expired_bans now ps1 = ps1) by apply purge_twice.
  destruct (bool_decide (is_Some (banned ps1 !! a))); cbn [negb andb].
  - exists ps1. split; [done|]. split; [done|]. intros x. by rewrite Ep.
  - change (states ps1) with (states ps). destruct (states ps !! a) eqn:E.
    + exists ps1. split; [done|]. split; [done|]. intros x. by rewrite Ep.
    + eexists. split; [by rewrite bool_decide_eq_true_2 by done|]. split; [done|]. intros x. eapply banned_purged.
Qed.
End Admitting.

(** ** The loops *)

Section Loops.
Context (lim : Limits) (now : Instant).

Lemma not_room g ps : (lm_global lim <=? g)%nat || (lm_torrent lim <=? size (states ps))%nat = true -> room lim g ps = 0%nat.
Proof. unfold room. intros [H%Nat.leb_le|H%Nat.leb_le]%orb_true_iff; lia. Qed.

Lemma spawn_opens id addr n tg b n1 :
  target (in_session n) id = Some tg -> spawn lim now id addr tg n = (b, n1) ->
  b = admissible lim now (in_global n) (peers_of tg) addr /\ opened now id (if b then [addr] else []) n n1 /\
  exists tg1, target (in_session n1) id = Some tg1 /\ c_transfer (tg_controls tg1) = c_transfer (tg_controls tg) /\
    stepped now addr b (peers_of tg) (peers_of tg1).
Proof.
  intros Ht E. pose proof (spawn_exact lim now id addr n tg Ht) as H. cbv zeta in H. rewrite E in H. cbn [fst snd] in H. destruct H as (Hb & Hg & Hc). split; [done|]. split.
  - rewrite <-Hb in *. split; [rewrite Hg; destruct b; cbn; lia|]. intros id'. rewrite Hc. destruct (decide (id' = id)) as [->|Hne].
    + rewrite bool_decide_eq_true_2, andb_true_r by done. destruct b; [done|]. by destruct (connections n id).
    + by rewrite bool_decide_eq_false_2, andb_false_r by done.
  - unfold spawn in E. destruct (spawn_stepped lim now (in_global n) (peers_of tg) addr) as (ps' & E' & Hs). rewrite E' in E. injection E as <- <-.
    eexists. split; [by apply target_after|]. split; [done|]. exact Hs.
Qed.

(** An address that is not blocked, not banned and not known, where there is room. *)
Lemma fresh_admissible g ps addr :
  unwanted lim now ps addr = false -> states ps !! addr = None -> (0 < room lim g ps)%nat -> admissible lim now g ps addr = true.
Proof.
  unfold unwanted, room, admissible. intros [-> ->]%orb_false_iff -> Hr. cbn [negb].
  destruct (Nat.ltb_spec g (lm_global lim)); [|lia]. destruct (Nat.ltb_spec (size (states ps)) (lm_torrent lim)); [|lia]. by rewrite orb_true_r.
Qed.

(** The loop opens the connections that there are to open, in their order. *)
Lemma add_loop_exact id addrs k n tg :
  target (in_session n) id = Some tg ->
  let d := to_dial lim now (in_global n) (peers_of tg) addrs in
  fst (add_loop lim now id addrs k n) = (k + length d)%nat /\ opened now id d n (snd (add_loop lim now id addrs k n)).
Proof.
  revert k n tg. induction addrs as [|a rest IH]; intros k n tg Ht d; cbn [add_loop].
  - unfold d, to_dial. cbn [candidates]. rewrite take_nil. split; [cbn; lia|by apply opened_nil].
  - unfold d. clear d. destruct (lm_blocked lim a) eqn:Eb.
    { rewrite to_dial_skip by by unfold unwanted; rewrite Eb. by apply IH. }
    destruct (lm_global lim <=? in_global n)%nat eqn:Eg; [rewrite to_dial_full by (apply not_room; by rewrite Eg); split; [cbn; lia|by apply opened_nil]|].
    rewrite Ht. destruct (lm_torrent lim <=? size (states (peers_of tg)))%nat eqn:Es;
      [rewrite to_dial_full by (apply not_room; by rewrite Eg, Es); split; [cbn; lia|by apply opened_nil]|].
    assert (Hr : (0 < room lim (in_global n) (peers_of tg))%nat) by (apply Nat.leb_gt in Eg, Es; unfold room; lia).
    destruct (seen_stepped now (peers_of tg) a) as (ps1 & -> & Hs & Hb). pose proof (target_after id ps1 n (in_global n) tg Ht) as Ht1.
    set (n1 := mkInlet _ _) in *. set (tg1 := mkTarget _ _) in Ht1. change ps1 with (peers_of tg1) in Hs, Hb.
    destruct (negb (banned_at now (peers_of tg) a) && bool_decide (states (peers_of tg) !! a = None)) eqn:En.
    + apply andb_true_iff in En as [En1%negb_true_iff En2%bool_decide_eq_true]. assert (Hw : unwanted lim now (peers_of tg) a = false) by (unfold unwanted; by rewrite Eb, En1).
      cbn [negb]. unfold inlet_connect_peer. rewrite Ht1. destruct (spawn lim now id a tg1 n1) as [b n2] eqn:Esp.
      destruct (spawn_opens id a n1 tg1 b n2 Ht1 Esp) as (Hadm & Hop & tg2 & Ht2 & _ & Hst).
      assert (b = true) as ->.
      { rewrite Hadm. unfold admissible. change (in_global n1) with (in_global n). rewrite Hb, En1, Eb, Hs, lookup_insert_eq.
        rewrite Nat.ltb_antisym, Eg. cbn [negb andb]. by rewrite bool_decide_eq_true_2 by eauto. }
      assert (Hstep : stepped now a true (peers_of tg) (peers_of tg2)).
      { destruct Hst as [Hs2 Hb2]. split; [by rewrite Hs2, Hs, insert_insert_eq|]. intros x. by rewrite Hb2. }
      rewrite (to_dial_cons lim now _ (peers_of tg) (peers_of tg2)) by done.
      specialize (IH (S k) n2 tg2 Ht2). cbv zeta in IH. destruct Hop as [Hg2 Hc2]. change (in_global n1) with (in_global n) in Hg2.
      assert (in_global n2 = S (in_global n)) as Hg2' by (rewrite Hg2; cbn; lia). rewrite Hg2' in IH. destruct IH as [IH1 IH2]. split; [rewrite IH1; cbn; lia|].
      apply (opened_app now id [a] _ n n2); [|done]. split; [done|]. intros id'. rewrite Hc2. unfold n1. rewrite connections_set.
      destruct (decide (id' = id)) as [->|]; [|done]. unfold connections. rewrite Ht. cbn [fmap option_fmap option_map foldl]. f_equal.
      change (states ps1) with (states (peers_of tg1)). by rewrite Hs, insert_insert_eq.
    + cbn [negb]. rewrite to_dial_skip.
      2: { unfold unwanted. rewrite Eb. cbn [orb]. destruct (banned_at now (peers_of tg) a); [done|]. cbn [negb andb] in En. apply bool_decide_eq_false in En.
           cbn [orb]. apply bool_decide_eq_true_2, elem_of_dom. by destruct (states (peers_of tg) !! a); [eauto|]. }
      rewrite <-(to_dial_stepped lim now _ (peers_of tg) (peers_of tg1) rest a) by by split.
      specialize (IH k n1 tg1 Ht1). cbv zeta in IH. destruct IH as [IH1 IH2]. split; [done|]. change (in_global n) with (in_global n1).
      eapply (opened_app now id [] _ n n1); [|done]. apply opened_nil; [done|]. intros id'. unfold n1. rewrite connections_set.
      destruct (decide (id' = id)) as [->|]; [|done]. unfold connections. rewrite Ht. cbn [fmap option_fmap option_map]. f_equal. exact Hs.
Qed.

Lemma process_peers_exact id addrs n tg :
  target (in_session n) id = Some tg -> c_transfer (tg_controls tg) = TsDownloading ->
  opened now id (to_dial lim now (in_global n) (peers_of tg) addrs) n (process_peers lim now id addrs n).
Proof.
  revert n tg. induction addrs as [|a rest IH]; intros n tg Ht Hc; cbn [process_peers].
  - unfold to_dial. cbn [candidates]. rewrite take_nil. by apply opened_nil.
  - rewrite Ht, bool_decide_eq_true_2 by done. cbn [negb]. destruct (decide (is_Some (states (peers_of tg) !! a))) as [Hk|Hk].
    { rewrite to_dial_skip; [by apply IH|]. rewrite (bool_decide_eq_true_2 (_ ∈ _)) by by apply elem_of_dom. apply orb_true_r. }
    apply eq_None_not_Some in Hk. destruct (spawn lim now id a tg n) as [b n1] eqn:Esp. cbn [snd].
    destruct (spawn_opens id a n tg b n1 Ht Esp) as (Hadm & Hop & tg1 & Ht1 & Hc1 & Hst).
    specialize (IH n1 tg1 Ht1). rewrite Hc1 in IH. specialize (IH Hc). destruct b; symmetry in Hadm.
    + assert (Hr : unwanted lim now (peers_of tg) a = false /\ (0 < room lim (in_global n) (peers_of tg))%nat).
      { unfold admissible in Hadm. rewrite Hk in Hadm. rewrite !andb_true_iff, bool_decide_eq_false_2 in Hadm by by intros [? ?].
        destruct Hadm as ((((H1%Nat.ltb_lt & H2%Nat.ltb_lt) & H3%negb_true_iff) & H4%negb_true_iff) & _). unfold unwanted, room. rewrite H3, H4. split; [done|lia]. }
      destruct Hr as [Hw Hr]. rewrite (to_dial_cons lim now _ (peers_of tg) (peers_of tg1)) by done. destruct (Hop) as [Hg _].
      replace (in_global n1) with (S (in_global n)) in IH by (rewrite Hg; cbn; lia). by apply (opened_app now id [a] _ n n1).
    + assert (E : to_dial lim now (in_global n) (peers_of tg) (a :: rest) = to_dial lim now (in_global n) (peers_of tg) rest).
      { destruct (unwanted lim now (peers_of tg) a) eqn:Ew; [apply to_dial_skip; by rewrite Ew|].
        destruct (room lim (in_global n) (peers_of tg)) eqn:Er; [by rewrite !to_dial_full by done|].
        rewrite fresh_admissible in Hadm by (done || lia). done. }
      rewrite E, <-(to_dial_stepped lim now _ (peers_of tg) (peers_of tg1) rest a) by done. destruct (Hop) as [Hg _].
      replace (in_global n1) with (in_global n) in IH by (rewrite Hg; cbn; lia). by apply (opened_app now id [] _ n n1).
Qed.
End Loops.

(** ** Admission of an incoming peer *)

Section Incoming.
Context (lim : Limits) (now : Instant).

(** Whether a torrent takes a peer that has named it. *)
Definition takes (n : Inlet) (id : bytes) (addr : SocketAddr) : bool :=
  match target (in_session n) id with
  | None => false
  | Some tg => negb (bool_decide (c_state (tg_controls tg) = StQueued)) && admissible lim now (in_global n) (peers_of tg) addr
  end.

Lemma admissible_stepped g ps ps' addr : stepped now addr false ps ps' -> admissible lim now g ps' addr = admissible lim now g ps addr.
Proof. intros [Hs Hb]. unfold admissible. by rewrite Hs, Hb. Qed.

Lemma admit_exact peer_id dht addr hs n reply b n' :
  admit_peer lim now peer_id dht addr hs n = (reply, b, n') ->
  b = takes n (info_hash hs) addr /\ opened now (info_hash hs) (if b then [addr] else []) n n' /\
  (b = true -> exists r, reply = Some r) /\ (forall r, reply = Some r -> info_hash r = info_hash hs /\ Handshake.peer_id r = peer_id).
Proof.
  unfold admit_peer, greet, takes. destruct (target (in_session n) (info_hash hs)) as [tg|] eqn:Ht; [|intros [= <- <- <-]; split_and!; [done|by apply opened_nil|done|done]].
  destruct (decide _) as [Hq|Hq]; [rewrite bool_decide_eq_true_2 by done; intros [= <- <- <-]; split_and!; [done|by apply opened_nil|done|done]|].
  rewrite (bool_decide_eq_false_2 (_ = StQueued)) by done. cbn [negb andb]. unfold is_banned. fold (banned_at now (peers_of tg) addr).
  set (ps1 := purge_expired_bans now (peers_of tg)). change (bool_decide (is_Some (banned ps1 !! addr))) with (banned_at now (peers_of tg) addr).
  assert (Hst : stepped now addr false (peers_of tg) ps1).
  { split; [done|]. intros x. rewrite <-(banned_purged now (peers_of tg) (states ps1) x). reflexivity. }
  pose proof (target_after (info_hash hs) ps1 n (in_global n) tg Ht) as Ht1. set (n1 := mkInlet _ _) in *.
  assert (Ho1 : opened now (info_hash hs) [] n n1).
  { apply opened_nil; [done|]. intros id'. unfold n1. rewrite connections_set. destruct (decide _) as [->|]; [|done].
    unfold connections. rewrite Ht. cbn [fmap option_fmap option_map]. done. }
  destruct (banned_at now (peers_of tg) addr) eqn:Eb.
  { intros [= <- <- <-]. split_and!; [|done|done|done]. unfold admissible. rewrite Eb. cbn [negb]. by rewrite andb_false_r. }
  unfold enter. rewrite Ht1. destruct (spawn lim now _ _ _ n1) as [b1 n2] eqn:Esp. intros [= <- <- <-].
  destruct (spawn_opens lim now _ _ _ _ _ _ Ht1 Esp) as (Hadm & Hop & _). split_and!.
  - rewrite Hadm. by apply admissible_stepped.
  - by apply (opened_app now _ [] _ n n1).
  - eauto.
  - intros r [= <-]. by destruct (_ && _).
Qed.

(** A torrent that leaves the session while its reply is written takes the peer on the
    same terms; the session's own torrents stay as they are. *)
Lemma enter_held_exact id addr tg n :
  let '(b, held, n') := enter lim now id addr (Some tg) n in
  b = admissible lim now (in_global n) (peers_of tg) addr /\ in_session n' = in_session n /\
  in_global n' = ((if b then 1 else 0) + in_global n)%nat /\
  exists tg', held = Some tg' /\ (b = true -> is_Some (states (peers_of tg') !! addr)).
Proof.
  unfold enter. destruct (try_spawn_exact lim now (in_global n) (peers_of tg) addr) as (ps' & -> & Hs & _).
  split_and!; [done..|by destruct (admissible _ _ _ _ _)|]. eexists. split; [done|]. intros Hb.
  change (is_Some (states ps' !! addr)). rewrite Hs, Hb, lookup_insert_eq. by eexists.
Qed.

(** What [takes] asks for. *)
Lemma takes_iff n id addr :
  takes n id addr = true <->
  exists tg, target (in_session n) id = Some tg /\ c_state (tg_controls tg) <> StQueued /\ (in_global n < lm_global lim)%nat /\
    (is_Some (states (peers_of tg) !! addr) \/ (size (states (peers_of tg)) < lm_torrent lim)%nat) /\
    banned_at now (peers_of tg) addr = false /\ lm_blocked lim addr = false /\
    (forall s, states (peers_of tg) !! addr = Some s -> writer_tx s = false).
Proof.
  unfold takes, admissible. destruct (target (in_session n) id) as [tg|]; [|split; [done|by intros (? & ? & _)]]. split.
  - rewrite !andb_true_iff, !negb_true_iff, orb_true_iff, bool_decide_eq_false, !Nat.ltb_lt, bool_decide_eq_true.
    intros (Hq & (((Hg & Ht) & Hb) & Hf) & Hw). exists tg. split_and!; try done. intros s Es. rewrite Es in Hw. by apply negb_true_iff in Hw.
  - intros (tg' & [= <-] & Hq & Hg & Ht & Hb & Hf & Hw).
    rewrite !andb_true_iff, !negb_true_iff, orb_true_iff, bool_decide_eq_false, !Nat.ltb_lt, bool_decide_eq_true. split_and!; try done.
    destruct (states (peers_of tg) !! addr) as [s|] eqn:Es; [|done]. by rewrite (Hw s).
Qed.
End Incoming.

(** A session with one torrent, and room for two peers. *)
Definition example_limits : Limits := mkLimits 3 2 (fun a => bool_decide (a = V4 1 1)) None 6881.
Definition example_inlet : Inlet :=
  mkInlet (mkSes {[example_skey := example_entry example_skey StDownloading 0 false]} ∅ TsDownloading example_options false ∅
    (limits_new 0 0 0 0 0) 1 false []) 0.
Definition example_hs : Handshake := outgoing example_skey (replicate 20 7).

Example example_dialled :
  let n := snd (add_peers example_limits 0 example_skey SrcDht [V4 1 1; V4 2 2; V4 2 2; V4 3 3; V4 4 4] example_inlet) in
  fst (add_peers example_limits 0 example_skey SrcDht [V4 1 1; V4 2 2; V4 2 2; V4 3 3; V4 4 4] example_inlet) = 2%nat /\
  in_global n = 2%nat /\ (dom <$> connections n example_skey) = Some {[V4 2 2; V4 3 3]}.
Proof. vm_compute. done. Qed.

(** ** Properties *)

(** What is dialled of the addresses a source has found. *)
Definition dialled (lim : Limits) (now : Instant) (source : DiscoverySource) (tg : Target) (global : nat) (addrs : list SocketAddr) : list SocketAddr :=
  if allowed_for source (tg_private tg) && bool_decide (c_transfer (tg_controls tg) = TsDownloading)
  then to_dial lim now global (peers_of tg) addrs else [].

(** C25: of the addresses that a source finds for a torrent, exactly these are
    dialled, each once and in their order: the first ones that the address filter
    does not block, that are not banned and that the torrent does not know yet, as
    many as the limits of the session and of the torrent leave room for; none at all
    when the torrent transfers nothing, or is private and the source is not a
    tracker.  The addresses of a tracker's answer, which go another way, are
    treated alike.  The result is the number of connections opened, each of them is
    entered as connected, and nothing else about the connections changes. *)
Theorem addresses_dialled_exact lim now id source addrs n :
  match target (in_session n) id with
  | None => add_peers lim now id source addrs n = (0%nat, n) /\ process_peers lim now id addrs n = n
  | Some tg =>
      let d := dialled lim now source tg (in_global n) addrs in
      fst (add_peers lim now id source addrs n) = length d /\ opened now id d n (snd (add_peers lim now id source addrs n)) /\
      opened now id (dialled lim now SrcTracker tg (in_global n) addrs) n (process_peers lim now id addrs n) /\
      NoDup d /\ (length d <= room lim (in_global n) (peers_of tg))%nat /\
      (forall a, a ∈ d -> a ∈ addrs /\ lm_blocked lim a = false /\ banned_at now (peers_of tg) a = false /\ states (peers_of tg) !! a = None)
  end.
Proof.
  destruct (target (in_session n) id) as [tg|] eqn:Ht.
  2: { unfold add_peers. rewrite Ht. split; [done|]. destruct addrs; cbn [process_peers]; [done|]. by rewrite Ht. }
  cbv zeta. destruct (candidates_spec (unwanted lim now (peers_of tg)) (dom (states (peers_of tg))) addrs) as [Hn He].
  assert (Hd : forall s, NoDup (dialled lim now s tg (in_global n) addrs) /\ (length (dialled lim now s tg (in_global n) addrs) <= room lim (in_global n) (peers_of tg))%nat /\
    forall a, a ∈ dialled lim now s tg (in_global n) addrs -> a ∈ addrs /\ lm_blocked lim a = false /\ banned_at now (peers_of tg) a = false /\ states (peers_of tg) !! a = None).
  { intros s. unfold dialled. destruct (_ && _); [|split_and!; [constructor|cbn; lia|by intros a ?%elem_of_nil]]. unfold to_dial. split_and!.
    - eapply sublist_NoDup; [exact Hn|]. apply sublist_take.
    - rewrite length_take. lia.
    - intros a Ha%(subseteq_take _ _). apply He in Ha as (H1 & [H2 H3]%orb_false_iff & H4%not_elem_of_dom). done. }
  assert (Hp : opened now id (dialled lim now SrcTracker tg (in_global n) addrs) n (process_peers lim now id addrs n)).
  { unfold dialled, allowed_for. rewrite orb_true_r. cbn [andb]. destruct (bool_decide _) eqn:Eb; [apply process_peers_exact; [done|by apply bool_decide_eq_true in Eb]|].
    assert (process_peers lim now id addrs n = n) as ->; [|by apply opened_nil]. clear Hn He Hd. induction addrs as [|a rest IH]; cbn [process_peers]; [done|]. by rewrite Ht, Eb. }
  split; [|split; [|split; [done|apply Hd]]]; unfold add_peers, dialled; rewrite Ht; destruct (allowed_for _ _); cbn [negb andb]; try by (done || apply opened_nil).
  all: destruct (bool_decide _); cbn [negb]; try by (done || apply opened_nil).
  all: by destruct (add_loop_exact lim now id addrs 0 n tg Ht) as [H1 H2].
Qed.

(** C23: whatever bytes an incoming peer sends, in whatever portions, it comes to a
    handshake only if the address filter does not block it and the encryption is
    what the policy asks for; and then it is connected exactly when the torrent it
    names, which may still wait for its metadata, is there and not queued, its
    address is neither banned nor blocked and not connected, and the session and the
    torrent have room.  A peer that is connected has got a handshake for the same
    torrent, and one that is not changes no connection. *)
Theorem incoming_exact lim now sha1 b pad_b pad_d lookup policy peer_id dht addr input sizes w a rest left n reply connected n' :
  advance (accept_incoming_kind policy (respond_inner sha1 b pad_b pad_d lookup (policy_select policy)) (lm_blocked lim addr)) input sizes =
    (w, PRet (Ok (Some a)), rest, left) ->
  admit_peer lim now peer_id dht addr (ar_handshake a) n = (reply, connected, n') ->
  lm_blocked lim addr = false /\ policy_keeps policy (ar_encrypted a) /\
  (connected = true <->
    exists tg, target (in_session n) (info_hash (ar_handshake a)) = Some tg /\ c_state (tg_controls tg) <> StQueued /\ (in_global n < lm_global lim)%nat /\
      (is_Some (states (peers_of tg) !! addr) \/ (size (states (peers_of tg)) < lm_torrent lim)%nat) /\
      banned_at now (peers_of tg) addr = false /\ lm_blocked lim addr = false /\
      (forall s, states (peers_of tg) !! addr = Some s -> writer_tx s = false)) /\
  opened now (info_hash (ar_handshake a)) (if connected then [addr] else []) n n' /\
  (connected = true -> exists r, reply = Some r) /\ (forall r, reply = Some r -> info_hash r = info_hash (ar_handshake a) /\ Handshake.peer_id r = peer_id).
Proof.
  intros Ha Hadm. pose proof (incoming_keeps sha1 b pad_b pad_d lookup policy (lm_blocked lim addr)) as Hk.
  destruct (always_advance _ _ _ _ _ _ _ _ Hk Ha a eq_refl) as [Hb Hp]. destruct (admit_exact lim now _ _ _ _ _ _ _ _ Hadm) as (Hc & Ho & Hr & Hh).
  split; [done|]. split; [done|]. split; [|by split]. rewrite Hc. apply takes_iff.
Qed.

Lemma incoming_exact_witness :
  let input := handshake_serialize example_hs in
  exists reply n', admit_peer example_limits 0 (replicate 20 1) (Some 6881) (V4 9 9) example_hs example_inlet = (Some reply, true, n') /\
    policy_keeps PreferPlaintext false /\ opened 0 example_skey [V4 9 9] example_inlet n'.
Proof.
  cbv zeta. destruct (admit_peer example_limits 0 (replicate 20 1) (Some 6881) (V4 9 9) example_hs example_inlet) as [[reply c] n'] eqn:E.
  assert (Ec : c = true) by (assert (Hs := f_equal (fun x => snd (fst x)) E); cbn [fst snd] in Hs; rewrite <-Hs; vm_compute; reflexivity).
  destruct (incoming_exact example_limits 0 example_sha1 7 [] [] (fun _ => None) PreferPlaintext (replicate 20 1) (Some 6881) (V4 9 9)
    (handshake_serialize example_hs) [] [] (mkArrived false example_hs None) [] [] example_inlet reply c n') as (_ & Hp & _ & Ho & Hr & _).
  - vm_compute. reflexivity.
  - exact E.
  - rewrite Ec in *. destruct (Hr eq_refl) as (r & ->). exists r, n'. split; [done|]. split; [exact Hp|exact Ho].
Defined.

(** C24: our own connector reaches a torrent we have: when a side dials with the
    encryption handshake and its peer handshake as the initial payload, and both
    agree on a method that the policy of the other side allows, the accepting side
    comes to the very handshake that was sent, whatever portions the bytes arrive
    in, although it has read the first twenty bytes ahead to see what arrives.  The
    ciphers of both sides stay in step, and the peer is connected and answered if
    the torrent takes it. *)
Theorem encrypted_peer_admitted lim now sha1 a b pad_a pad_b pad_c pad_d skey hs provide allow_plaintext selected policy lookup enc dec sizes
    peer_id dht addr n :
  (forall m, length (sha1 m) = 20%nat) ->
  agreeable sha1 a b pad_a pad_b pad_c pad_d skey (handshake_serialize hs) provide allow_plaintext selected lookup (policy_select policy) enc dec ->
  wf_handshake hs -> ascii_pstr hs -> take 20 (modpow_g2 a) <> BT_HANDSHAKE_HEAD -> lm_blocked lim addr = false -> takes lim now n (info_hash hs) addr = true ->
  exists oi st reply n',
    link 3 (initiate_inner sha1 a pad_a pad_c skey provide (handshake_serialize hs) allow_plaintext)
      (accept_incoming_kind policy (respond_inner sha1 b pad_b pad_d lookup (policy_select policy)) (lm_blocked lim addr)) [] [] sizes =
      (PRet (Ok oi), PRet (Ok (Some (mkArrived (is_rc4 selected) hs (Some st)))), [], []) /\
    es_enc (ho_stream oi) = es_dec st /\ es_dec (ho_stream oi) = es_enc st /\ es_prefix st = [] /\
    admit_peer lim now peer_id dht addr hs n = (Some reply, true, n') /\ info_hash reply = info_hash hs /\ opened now (info_hash hs) [addr] n n'.
Proof.
  intros Hsha Hag Hwf Hasc Hhead Hblk Ht. rewrite Hblk.
  destruct (encrypted_arrives sha1 a b pad_a pad_b pad_c pad_d skey hs provide allow_plaintext selected policy lookup enc dec sizes Hsha Hag Hwf Hasc Hhead)
    as (oi & st & E & H1 & H2 & H3).
  destruct (admit_peer lim now peer_id dht addr hs n) as [[reply c] n'] eqn:Ea. destruct (admit_exact lim now _ _ _ _ _ _ _ _ Ea) as (Hc & Ho & Hr & Hh).
  rewrite Ht in Hc. subst c. destruct (Hr eq_refl) as (r & ->). exists oi, st, r, n'. split_and!; try done. by apply Hh.
Qed.

Lemma encrypted_peer_admitted_witness :
  exists oi st reply n',
    link 3 (initiate_inner example_sha1 5 [1; 2; 3] [4; 5] example_skey (crypto_provide PreferEncrypted) (handshake_serialize example_hs) true)
      (accept_incoming_kind RequireEncrypted (respond_inner example_sha1 7 [9; 8; 7; 6] []
         (lookup_skey example_sha1 (known_keys map_to_list map_to_list (in_session example_inlet))) (policy_select RequireEncrypted))
         (lm_blocked example_limits (V4 9 9))) [] [] [1; 1; 2; 40]%nat =
      (PRet (Ok oi), PRet (Ok (Some (mkArrived true example_hs (Some st)))), [], []) /\
    es_enc (ho_stream oi) = es_dec st /\ es_dec (ho_stream oi) = es_enc st /\ es_prefix st = [] /\
    admit_peer example_limits 0 (replicate 20 1) None (V4 9 9) example_hs example_inlet = (Some reply, true, n') /\ info_hash reply = example_skey /\
    opened 0 example_skey [V4 9 9] example_inlet n'.
Proof.
  apply (encrypted_peer_admitted example_limits 0 example_sha1 5 7 [1; 2; 3] [9; 8; 7; 6] [4; 5] [] example_skey example_hs
    (crypto_provide PreferEncrypted) true MethodRc4 RequireEncrypted
    (lookup_skey example_sha1 (known_keys map_to_list map_to_list (in_session example_inlet))) (example_key key_a) (example_key key_b)).
  - intros m. apply length_be_bytes.
  - split.
    + lia.
    + unfold MAX_PAD. cbn. lia.
    + vm_compute. discriminate.
    + vm_compute. split; discriminate.
    + reflexivity.
    + discriminate.
    + discriminate.
    + vm_compute. reflexivity.
    + vm_compute. reflexivity.
    + vm_compute. reflexivity.
    + intros E. apply (f_equal head) in E. vm_compute in E. discriminate E.
    + vm_compute. reflexivity.
    + vm_compute. reflexivity.
  - split; [reflexivity..|]. repeat constructor; discriminate.
  - split; [vm_compute; lia|]. change (pstr example_hs) with PSTR. unfold PSTR. repeat constructor; discriminate.
  - intros E. apply (f_equal head) in E. vm_compute in E. discriminate E.
  - vm_compute. reflexivity.
  - vm_compute. reflexivity.
Defined.

(** A plain peer, when the policy allows it. *)
Lemma plain_arrives policy respond hs rest sizes :
  allows_plaintext policy = true -> wf_handshake hs -> ascii_pstr hs -> take 20 (handshake_serialize hs) = BT_HANDSHAKE_HEAD ->
  exists pre r left, pre ++ r = rest /\
    advance (accept_incoming_kind policy respond false) (handshake_serialize hs ++ rest) sizes = ([], PRet (Ok (Some (mkArrived false hs None))), r, left).
Proof.
  intros Hp Hwf Hasc Hh. unfold accept_incoming_kind. cbn [advance].
  assert (Hl : (68 <= length (handshake_serialize hs))%nat).
  { destruct Hwf as [H1 H2 H3 _]. assert (Hl : length (handshake_serialize hs) = S (length (pstr hs) + 48)) by (unfold handshake_serialize; cbn [length app]; rewrite !length_app; lia).
    assert (Hp19 : wrap8 (Z.of_nat (length (pstr hs))) = 19). { apply (f_equal head) in Hh. unfold handshake_serialize in Hh. cbn [app take head] in Hh. by injection Hh. }
    rewrite wrap8_small in Hp19 by (destruct Hasc; unfold MAX_PSTR_LEN in *; ranges). lia. }
  rewrite length_app. change (length BT_HANDSHAKE_HEAD) with 20%nat. destruct (Nat.leb_spec 20 (length (handshake_serialize hs) + length rest)); [|lia].
  rewrite take_app_le, drop_app_le by lia. rewrite Hh. unfold with_peek. change (classify_incoming_prefix BT_HANDSHAKE_HEAD) with KindPlaintext.
  assert (E : forall s, advance (accept_incoming_stream policy respond false KindPlaintext) (handshake_serialize hs ++ rest) s = ([], PRet (Ok (Some (mkArrived false hs None))), rest, s)).
  { intros s. unfold accept_incoming_stream, secure. rewrite Hp. cbn [negb pbind pok]. rewrite advance_bind, read_handshake_plain by done. done. }
  destruct (advance (behind BT_HANDSHAKE_HEAD (accept_incoming_stream policy respond false KindPlaintext)) (drop 20 (handshake_serialize hs) ++ rest) sizes) as [[[w q] r] l] eqn:Eb.
  destruct (behind_advance _ _ _ _ _ _ _ _ Eb) as (used & q' & pre & -> & Hu). specialize (Hu []).
  rewrite app_assoc, <-Hh, take_drop, E in Hu. injection Hu as <- <- Hr _. by exists pre, r, l.
Qed.
