(* ===== verification/Watch.v ===== *)
(** * The watch directory and the category file (crates/bit_rev/src/library.rs, session.rs)

    Torrents and magnet links that are put into a directory are added to the
    session; the directory is polled.  A path is the list of its components, the
    file system a map from paths to files and directories.  What is handed to
    [Session::add_torrent] is the result; whether that succeeds makes no difference
    here.  A poll is one step: the files do not change while it runs. *)

From S2P Require Import Prelude Utf8 Text Bencode Metainfo Value ExtHandshake Magnet Session Requests Qbit.

(** ** Paths and files *)

Abbreviation Path := (list bytes).
Inductive Node := NodeFile (content : bytes) | NodeDir.
Abbreviation Fs := (gmap Path Node).

Definition is_file (fs : Fs) (p : Path) : bool := match fs !! p with Some (NodeFile _) => true | _ => false end.
Definition is_dir (fs : Fs) (p : Path) : bool := match fs !! p with Some NodeDir => true | _ => false end.
Definition exists_path (fs : Fs) (p : Path) : bool := bool_decide (is_Some (fs !! p)).

Definition parent (p : Path) : option Path := match p with [] => None | _ => Some (removelast p) end.

(** The order of paths: component by component. *)
Fixpoint cmp_path (a b : Path) : comparison :=
  match a, b with
  | [], [] => Eq
  | [], _ => Lt
  | _, [] => Gt
  | x :: a, y :: b => match cmp_list x y with Eq => cmp_path a b | c => c end
  end.
Definition path_le (a b : Path) : Prop := cmp_path a b <> Gt.
#[export] Instance path_le_dec a b : Decision (path_le a b).
Proof. unfold path_le. apply _. Defined.

(** [read_dir], collected and sorted. *)
Definition entries (fs : Fs) (dir : Path) : list Path :=
  if is_dir fs dir then merge_sort path_le (filter (fun p => parent p = Some dir) (map fst (map_to_list fs))) else [].

(** [Path::file_stem] and [Path::extension] of a name. *)
Definition split_name (name : bytes) : bytes * option bytes :=
  if decide (name = [46; 46]) then (name, None)
  else match position (Z.eqb 46) (rev name) with
  | None => (name, None)
  | Some i =>
      match rev (drop (S i) (rev name)) with
      | [] => (name, None)
      | stem => (stem, Some (rev (take i (rev name))))
      end
  end.
Definition extension (p : Path) : option bytes := last p ≫= fun name => snd (split_name name).

Definition to_str (b : bytes) : option bytes := if is_utf8 b then Some b else None.
Definition eq_ignore_ascii_case (a b : bytes) : bool := bool_decide (to_ascii_lowercase a = to_ascii_lowercase b).

(** ** library.rs *)

Definition has_extension (ext : string) (p : Path) : bool :=
  match extension p ≫= to_str with Some e => eq_ignore_ascii_case e (str ext) | None => false end.
Definition is_watch_torrent (p : Path) : bool := has_extension "torrent" p.
Definition is_watch_magnet_name (p : Path) : bool := has_extension "magnet" p.

Definition file_starts_with_magnet (fs : Fs) (p : Path) : bool :=
  match fs !! p with Some (NodeFile content) => starts_with (str "magnet:") content | _ => false end.

(** The directory under the watch directory that has the file. *)
Definition watch_subdir_category (watch file : Path) : option bytes :=
  match parent file with
  | None => None
  | Some dir =>
      if decide (dir = watch) then None
      else if decide (take (length watch) dir = watch) then
        match drop (length watch) dir with
        | [] => None
        | component :: _ => match to_str component with Some [] | None => None | name => name end
        end
      else None
  end.

Definition collect_watch_files (fs : Fs) (watch : Path) : list Path :=
  flat_map (fun p =>
    if is_dir fs p then filter (fun child => is_file fs child = true) (entries fs p)
    else if is_file fs p then [p] else []) (entries fs watch).

(** [format!("{stem}-{i}.{ext}")] *)
Definition numbered_name (stem ext : bytes) (i : Z) : bytes :=
  stem ++ 45 :: dec i ++ match ext with [] => [] | _ => 46 :: ext end.

Fixpoint unique_loop (fuel : nat) (fs : Fs) (processed : Path) (stem ext : bytes) (i : Z) (dest : Path) : Path :=
  match fuel with
  | O => dest
  | S fuel =>
      if U32_MAX <=? i then dest
      else
        let dest := processed ++ [numbered_name stem ext i] in
        if negb (exists_path fs dest) then dest else unique_loop fuel fs processed stem ext (i + 1) dest
  end.

Definition unique_processed_path (fs : Fs) (processed src : Path) : Path :=
  let name := default (str "watched") (last src) in
  let dest := processed ++ [name] in
  if negb (exists_path fs dest) then dest
  else
    let stem := default (str "watched") (last src ≫= fun name => to_str (fst (split_name name))) in
    let ext := default [] (extension src ≫= to_str) in
    unique_loop (S (size fs)) fs processed stem ext 1 dest.

(** ** The category file *)

Record CategoryToml := mkRow { row_name : bytes; row_save_path : bytes }.
Definition row_of (c : Category) : CategoryToml := mkRow (cat_name c) (default [] (utf8_lossy <$> cat_save_path c)).
Definition category_of (row : CategoryToml) : Category := category_new (row_name row) (Some (row_save_path row)).

(** [to_string_pretty] and [from_str] of the TOML library. *)
Class TomlRows := {
  rows_to_toml : list CategoryToml -> option bytes;
  rows_of_toml : bytes -> option (list CategoryToml) }.

Section Categories.
Context {TR : TomlRows} (iter : gmap bytes Category -> list (bytes * Category)).

(** The contents of the file; [None] when they cannot be encoded. *)
Definition save_categories (cats : gmap bytes Category) : option bytes := rows_to_toml (map row_of (map snd (iter cats))).

(** [load_categories], with what the file holds, if it can be read. *)
Definition load_categories (text : option bytes) : gmap bytes Category :=
  match text ≫= rows_of_toml with
  | Some rows => fold_left (fun m row => <[cat_name (category_of row) := category_of row]> m) rows ∅
  | None => ∅
  end.
End Categories.

(** ** The watch directory (session.rs) *)

Record WatchOptions := mkWatchOptions { wo_dir : Path; wo_delete : bool; wo_state_dir : option Path }.
Record Watch := mkWatch { wt_fs : Fs; wt_seen : gset Path }.

(** What is added: the source and the category. *)
Abbreviation Added := (AddSource * option bytes)%type.

Section Watching.
Context (sha1_digest : bytes -> bytes) (de_torrent : bytes -> option TorrentFile).
(** Whether a file can be renamed: not to another file system, for example. *)
Context (rename_ok : Path -> Path -> bool).

Definition read_file (fs : Fs) (p : Path) : option bytes := match fs !! p with Some (NodeFile content) => Some content | _ => None end.

(** What a file of the watch directory stands for: nothing, or a source, if it can be
    read. *)
Definition watch_source (fs : Fs) (p : Path) : option (option AddSource) :=
  let is_torrent := is_watch_torrent p in
  let is_magnet := is_watch_magnet_name p || file_starts_with_magnet fs p in
  if negb is_torrent && negb is_magnet then None
  else Some (
    if is_torrent then
      if forallb is_utf8 p then content ← read_file fs p; meta_of sha1_digest de_torrent content else None
    else
      text ← read_file fs p;
      if is_utf8 text then match magnet_parse (trim_str text) with Ok magnet => Some (SourceMagnet magnet) | Err _ => None end else None).

Definition ancestors (p : Path) : list Path := map (fun n => take n p) (seq 1 (length p)).

(** [create_dir_all]; [None] when a file is in the way. *)
Definition create_dir_all (fs : Fs) (p : Path) : option Fs :=
  if existsb (is_file fs) (ancestors p) then None
  else Some (fold_left (fun fs d => <[d := NodeDir]> fs) (ancestors p) fs).

(** [rename] of a file. *)
Definition rename (fs : Fs) (src dest : Path) : Fs :=
  match fs !! src with
  | Some (NodeFile content) => if rename_ok src dest && negb (is_dir fs dest) then <[dest := NodeFile content]> (delete src fs) else fs
  | _ => fs
  end.

Definition watch_processed_path (state_dir : Path) : Path := state_dir ++ [str "watch-processed"].

Definition finish_watch_file (o : WatchOptions) (fs : Fs) (p : Path) : Fs :=
  if wo_delete o then match fs !! p with Some (NodeFile _) => delete p fs | _ => fs end
  else match wo_state_dir o with
  | None => fs
  | Some state_dir =>
      let processed := watch_processed_path state_dir in
      match create_dir_all fs processed with
      | None => fs
      | Some fs => rename fs p (unique_processed_path fs processed p)
      end
  end.

(** [ingest_watch_path]: what is added, and the files afterwards.  A file that cannot
    be read is left. *)
Definition ingest_watch_path (o : WatchOptions) (fs : Fs) (p : Path) : option Added * Fs :=
  match watch_source fs p with
  | None | Some None => (None, fs)
  | Some (Some source) => (Some (source, watch_subdir_category (wo_dir o) p), finish_watch_file o fs p)
  end.

Fixpoint poll_files (o : WatchOptions) (files : list Path) (w : Watch) : list (Path * Added) * Watch :=
  match files with
  | [] => ([], w)
  | p :: rest =>
      if decide (p ∈ wt_seen w) then poll_files o rest w
      else
        let '(added, fs) := ingest_watch_path o (wt_fs w) p in
        let '(more, w) := poll_files o rest (mkWatch fs ({[p]} ∪ wt_seen w)) in
        (match added with Some a => (p, a) :: more | None => more end, w)
  end.

Definition poll_watch_dir (o : WatchOptions) (w : Watch) : list (Path * Added) * Watch :=
  match wo_dir o with [] => ([], w) | dir => poll_files o (collect_watch_files (wt_fs w) dir) w end.

(** Polls, and what others do to the files in between. *)
Inductive WatchEvent := Polled | Changed (f : Fs -> Fs).

Definition watch_step (o : WatchOptions) (w : Watch) (ev : WatchEvent) : list (Path * Added) * Watch :=
  match ev with
  | Polled => poll_watch_dir o w
  | Changed f => ([], mkWatch (f (wt_fs w)) (wt_seen w))
  end.

Fixpoint watch_run (o : WatchOptions) (evs : list WatchEvent) (w : Watch) : list (Path * Added) * Watch :=
  match evs with
  | [] => ([], w)
  | ev :: evs =>
      let '(a, w) := watch_step o w ev in
      let '(more, w) := watch_run o evs w in (a ++ more, w)
  end.
End Watching.

(** ** A new name is free *)

Lemma dec_inj a b : 0 <= a <= U64_MAX -> 0 <= b <= U64_MAX -> dec a = dec b -> a = b.
Proof. intros Ha Hb E. apply (f_equal parse_usize) in E. rewrite !parse_usize_dec in E by done. by injection E. Qed.

Lemma numbered_inj stem ext a b : 0 <= a <= U64_MAX -> 0 <= b <= U64_MAX -> numbered_name stem ext a = numbered_name stem ext b -> a = b.
Proof.
  intros Ha Hb E. unfold numbered_name in E. apply app_inv_head in E. injection E as E. apply app_inv_tail in E. by apply dec_inj.
Qed.

(** While every number tried is taken, there are as many paths as numbers. *)
Lemma unique_loop_fresh (fuel : nat) (fs : Fs) processed stem ext i dest :
  0 <= i -> i + Z.of_nat fuel <= U32_MAX -> (0 < fuel)%nat ->
  exists_path fs (unique_loop fuel fs processed stem ext i dest) = false \/
  (forall j, i <= j < i + Z.of_nat fuel -> is_Some (fs !! (processed ++ [numbered_name stem ext j]))).
Proof.
  revert i dest. induction fuel as [|fuel IH]; intros i dest Hi Hf Hp; [lia|]. cbn [unique_loop]. destruct (Z.leb_spec U32_MAX i); [lia|].
  destruct (exists_path fs (processed ++ [numbered_name stem ext i])) eqn:E; cbn [negb]; [|by left].
  unfold exists_path in E. apply bool_decide_eq_true in E. destruct (decide (fuel = 0%nat)) as [->|Hn].
  - right. intros j Hj. by replace j with i by lia.
  - destruct (IH (i + 1) (processed ++ [numbered_name stem ext i])) as [H1|H1]; [lia..|by left|].
    right. intros j Hj. destruct (decide (j = i)) as [->|]; [done|]. apply H1. lia.
Qed.

Lemma all_taken (fs : Fs) processed stem ext n :
  Z.of_nat n <= U32_MAX -> (forall j, 1 <= j < 1 + Z.of_nat n -> is_Some (fs !! (processed ++ [numbered_name stem ext j]))) -> (n <= size fs)%nat.
Proof.
  intros Hn H. pose (paths := map (fun k => processed ++ [numbered_name stem ext (1 + Z.of_nat k)]) (seq 0 n)).
  assert (Hnd : NoDup paths).
  { apply NoDup_fmap_2_strong; [|apply NoDup_seq]. intros a b Ha%elem_of_seq Hb%elem_of_seq E. apply app_inv_head in E. injection E as E.
    apply numbered_inj in E; unfold U32_MAX, U64_MAX in *; lia. }
  assert (Hsub : (list_to_set paths : gset Path) ⊆ dom fs).
  { intros p Hp. apply elem_of_list_to_set, list_elem_of_fmap in Hp as (k & -> & Hk%elem_of_seq). apply elem_of_dom, H. lia. }
  apply subseteq_size in Hsub. rewrite size_dom, size_list_to_set in Hsub by done. unfold paths in Hsub. by rewrite length_map, length_seq in Hsub.
Qed.

(** The path that a processed file moves to does not exist yet. *)
Lemma unique_processed_fresh (fs : Fs) processed src : Z.of_nat (size fs) < U32_MAX - 1 -> exists_path fs (unique_processed_path fs processed src) = false.
Proof.
  intros Hs. unfold unique_processed_path. destruct (exists_path fs (processed ++ [default (str "watched") (last src)])) eqn:E; cbn [negb]; [|done].
  match goal with |- exists_path _ (unique_loop ?f _ ?p ?st ?e ?i ?d) = _ => destruct (unique_loop_fresh f fs p st e i d) as [H|H] end; [lia|lia|lia|done|].
  apply all_taken in H; [lia|lia].
Qed.

Lemma unique_processed_under fs processed src : exists name, unique_processed_path fs processed src = processed ++ [name].
Proof.
  unfold unique_processed_path. destruct (negb _); [eauto|]. assert (H : forall fuel st e i d, (exists name, d = processed ++ [name]) -> exists name, unique_loop fuel fs processed st e i d = processed ++ [name]).
  { induction fuel as [|fuel IH]; intros st e i d Hd; cbn [unique_loop]; [done|]. destruct (U32_MAX <=? i); [done|]. destruct (negb _); [eauto|]. apply IH. eauto. }
  apply H. eauto.
Qed.

(** ** Files are kept *)

Definition file_contents (fs : Fs) : list bytes := omap (fun e => match snd e with NodeFile c => Some c | NodeDir => None end) (map_to_list fs).

Lemma contents_insert_fresh (fs : Fs) p c : fs !! p = None -> file_contents (<[p := NodeFile c]> fs) ≡ₚ c :: file_contents fs.
Proof. intros H. unfold file_contents. rewrite (map_to_list_insert fs p (NodeFile c) H). done. Qed.

Lemma contents_dir (fs : Fs) p : (forall c, fs !! p <> Some (NodeFile c)) -> file_contents (<[p := NodeDir]> fs) ≡ₚ file_contents fs.
Proof.
  intros H. destruct (fs !! p) as [[c|]|] eqn:E; [by destruct (H c)| |].
  - by rewrite insert_id.
  - unfold file_contents. rewrite (map_to_list_insert fs p NodeDir E). done.
Qed.

Lemma contents_delete (fs : Fs) p c : fs !! p = Some (NodeFile c) -> file_contents fs ≡ₚ c :: file_contents (delete p fs).
Proof. intros H. rewrite <-(insert_delete_id fs p (NodeFile c) H) at 1. apply contents_insert_fresh. apply lookup_delete_eq. Qed.

Section Kept.
Context (rename_ok : Path -> Path -> bool).

Lemma rename_contents fs src dest : exists_path fs dest = false -> file_contents (rename rename_ok fs src dest) ≡ₚ file_contents fs.
Proof.
  intros Hd. unfold rename. destruct (fs !! src) as [[c|]|] eqn:E; [|done..]. destruct (_ && _); [|done].
  assert (Hn : fs !! dest = None) by by apply bool_decide_eq_false, eq_None_not_Some in Hd.
  rewrite contents_insert_fresh by (apply lookup_delete_None; by right). by rewrite (contents_delete fs src c E).
Qed.

Lemma create_dirs_spec fs p fs' :
  create_dir_all fs p = Some fs' ->
  file_contents fs' ≡ₚ file_contents fs /\ (forall q c, fs' !! q = Some (NodeFile c) <-> fs !! q = Some (NodeFile c)) /\ (size fs' <= size fs + length p)%nat.
Proof.
  unfold create_dir_all. destruct (existsb _ _) eqn:E; [done|]. intros [= <-].
  assert (Hall : Forall (fun d => forall c, fs !! d <> Some (NodeFile c)) (ancestors p)).
  { apply Forall_forall. intros d Hd c Hc. apply not_true_iff_false in E. apply E. apply existsb_exists. exists d. split; [by apply list_elem_of_In|]. unfold is_file. by rewrite Hc. }
  assert (Hl : length (ancestors p) = length p) by (unfold ancestors; by rewrite length_map, length_seq). rewrite <-Hl. clear E Hl.
  revert fs Hall. induction (ancestors p) as [|d ds IH]; intros fs Hall; cbn [fold_left length]; [split_and!; [done|done|lia]|].
  apply Forall_cons in Hall as [Hd Hall]. destruct (IH (<[d := NodeDir]> fs)) as (H1 & H2 & H3).
  { eapply Forall_impl; [exact Hall|]. intros q Hq c. destruct (decide (q = d)) as [->|Hne]; [by rewrite lookup_insert_eq|by rewrite lookup_insert_ne]. }
  split_and!.
  - rewrite H1. by apply contents_dir.
  - intros q c. rewrite H2. destruct (decide (q = d)) as [->|Hne]; [rewrite lookup_insert_eq; split; [done|intros Hc; by destruct (Hd c)]|by rewrite lookup_insert_ne].
  - rewrite map_size_insert in H3. destruct (fs !! d); cbn in H3; lia.
Qed.

(** Room for new names: the numbers do not run out. *)
Definition roomy (o : WatchOptions) (fs : Fs) (n : nat) : Prop :=
  Z.of_nat (size fs + n * (2 + length (default [] (wo_state_dir o)))) < U32_MAX - 1.

Lemma finish_kept o fs p :
  wo_delete o = false -> roomy o fs 1 ->
  let fs' := finish_watch_file rename_ok o fs p in
  file_contents fs' ≡ₚ file_contents fs /\ (size fs' <= size fs + (2 + length (default [] (wo_state_dir o))))%nat /\
  (forall q c, q <> p -> fs !! q = Some (NodeFile c) -> fs' !! q = Some (NodeFile c)).
Proof.
  intros Ho Hr. cbv zeta. unfold finish_watch_file. rewrite Ho. unfold roomy in Hr. destruct (wo_state_dir o) as [dir|]; [|split_and!; [done|lia|done]]. cbn [default from_option id] in *.
  destruct (create_dir_all fs (watch_processed_path dir)) as [fs1|] eqn:E; [|split_and!; [done|lia|done]].
  destruct (create_dirs_spec _ _ _ E) as (H1 & H2 & H3). assert (Hl : length (watch_processed_path dir) = S (length dir)) by (unfold watch_processed_path; rewrite length_app; cbn; lia).
  assert (Hfresh : exists_path fs1 (unique_processed_path fs1 (watch_processed_path dir) p) = false) by (apply unique_processed_fresh; lia).
  set (dest := unique_processed_path fs1 (watch_processed_path dir) p) in *.
  assert (Hn : fs1 !! dest = None) by by apply bool_decide_eq_false, eq_None_not_Some in Hfresh. split_and!.
  - rewrite rename_contents by done. exact H1.
  - unfold rename. destruct (fs1 !! p) as [[c|]|] eqn:Ep; [|lia..]. destruct (_ && _); [|lia]. rewrite map_size_insert_None by (apply lookup_delete_None; by right).
    rewrite map_size_delete_Some by eauto. lia.
  - intros q c Hq Hc. apply H2 in Hc. unfold rename. destruct (fs1 !! p) as [[c'|]|] eqn:Ep; [|done..]. destruct (_ && _); [|done].
    rewrite lookup_insert_ne by (intros ->; congruence). by rewrite lookup_delete_ne.
Qed.

(** A deleting watch leaves the other files. *)
Lemma finish_deleted o fs p q c : wo_delete o = true -> q <> p -> fs !! q = Some (NodeFile c) -> finish_watch_file rename_ok o fs p !! q = Some (NodeFile c).
Proof. intros Ho Hq Hc. unfold finish_watch_file. rewrite Ho. destruct (fs !! p) as [[]|]; [|done..]. by rewrite lookup_delete_ne. Qed.
End Kept.

(** ** What a run adds *)

Section Runs.
Context (sha1_digest : bytes -> bytes) (de_torrent : bytes -> option TorrentFile) (rename_ok : Path -> Path -> bool).

Abbreviation poll_files := (poll_files sha1_digest de_torrent rename_ok).
Abbreviation poll_watch_dir := (poll_watch_dir sha1_digest de_torrent rename_ok).
Abbreviation watch_run := (watch_run sha1_digest de_torrent rename_ok).

(** A poll notes what it looks at, and adds nothing that it has looked at before. *)
Lemma poll_files_once o files w :
  let '(added, w') := poll_files o files w in
  NoDup (map fst added) /\ (forall p, p ∈ map fst added -> (p ∉ wt_seen w) /\ p ∈ wt_seen w') /\ wt_seen w ⊆ wt_seen w'.
Proof.
  revert w. induction files as [|p rest IH]; intros w; cbn [Watch.poll_files]; [split_and!; [constructor|by intros p ?%elem_of_nil|done]|].
  destruct (decide (p ∈ wt_seen w)) as [Hs|Hs]; [apply IH|].
  destruct (ingest_watch_path _ _ _ o (wt_fs w) p) as [added fs]. specialize (IH (mkWatch fs ({[p]} ∪ wt_seen w))).
  destruct (poll_files o rest _) as [more w']. cbn [wt_seen] in IH. destruct IH as (H1 & H2 & H3).
  assert (Hp : p ∈ wt_seen w') by set_solver. assert (Hsub : wt_seen w ⊆ wt_seen w') by set_solver.
  assert (Hm : forall q, q ∈ map fst more -> (q ∉ wt_seen w) /\ q ∈ wt_seen w') by (intros q Hq; destruct (H2 q Hq); set_solver).
  destruct added as [a|]; [|by split_and!]. cbn [map fst]. split_and!; [|intros q [->|Hq]%elem_of_cons; [done|by apply Hm]|done].
  constructor; [|done]. intros Hin. destruct (H2 p Hin) as [Hn _]. set_solver.
Qed.

(** Whatever happens to the files between the polls, no path is added twice. *)
Theorem watch_adds_once o evs w :
  NoDup (map fst (fst (watch_run o evs w))) /\ forall p, p ∈ map fst (fst (watch_run o evs w)) -> p ∉ wt_seen w.
Proof.
  revert w. induction evs as [|ev evs IH]; intros w; cbn [Watch.watch_run fst map]; [split; [constructor|by intros p ?%elem_of_nil]|].
  assert (Hs : let '(a, w1) := watch_step sha1_digest de_torrent rename_ok o w ev in
    NoDup (map fst a) /\ (forall p, p ∈ map fst a -> (p ∉ wt_seen w) /\ p ∈ wt_seen w1) /\ wt_seen w ⊆ wt_seen w1).
  { destruct ev as [|f]; cbn [watch_step]; [|split_and!; [constructor|by intros p ?%elem_of_nil|done]]. unfold Watch.poll_watch_dir.
    destruct (wo_dir o); [split_and!; [constructor|by intros p ?%elem_of_nil|done]|]. apply poll_files_once. }
  destruct (watch_step _ _ _ o w ev) as [a w1]. destruct Hs as (H1 & H2 & H3). specialize (IH w1). destruct (watch_run o evs w1) as [more w2]. cbn [fst] in *.
  destruct IH as [H4 H5]. rewrite map_app. split.
  - apply NoDup_app. split_and!; [done| |done]. intros p Hp Hm. destruct (H2 p Hp) as [_ Hin]. by destruct (H5 p Hm).
  - intros p [Hp|Hp]%elem_of_app; [by apply H2|]. intros Hin. apply (H5 p Hp). by apply H3.
Qed.

(** A file that is not the one looked at is as before. *)
Lemma ingest_other o fs p q c :
  roomy o fs 1 -> q <> p -> fs !! q = Some (NodeFile c) -> snd (ingest_watch_path sha1_digest de_torrent rename_ok o fs p) !! q = Some (NodeFile c).
Proof.
  intros Hr Hq Hc. unfold ingest_watch_path. destruct (watch_source _ _ fs p) as [[s|]|]; [|done..]. cbn [snd].
  destruct (wo_delete o) eqn:Ho; [by apply finish_deleted|]. by apply finish_kept.
Qed.

Lemma ingest_size o fs p :
  roomy o fs 1 -> (size (snd (ingest_watch_path sha1_digest de_torrent rename_ok o fs p)) <= size fs + (2 + length (default [] (wo_state_dir o))))%nat.
Proof.
  intros Hr. unfold ingest_watch_path. destruct (watch_source _ _ fs p) as [[s|]|]; cbn [snd]; [|lia..].
  destruct (wo_delete o) eqn:Ho; [|by apply finish_kept]. unfold finish_watch_file. rewrite Ho. destruct (fs !! p) as [[c|]|] eqn:E; [|lia..].
  rewrite map_size_delete_Some by eauto. lia.
Qed.

Lemma roomy_next o fs fs' n : roomy o fs (S n) -> (size fs' <= size fs + (2 + length (default [] (wo_state_dir o))))%nat -> roomy o fs' n.
Proof. unfold roomy. lia. Qed.

(** A file that a poll sees for the first time, complete, is added, with the category
    of its directory, whatever else the poll does. *)
Theorem complete_file_added o files w p source c :
  roomy o (wt_fs w) (length files) -> p ∈ files -> p ∉ wt_seen w -> wt_fs w !! p = Some (NodeFile c) ->
  watch_source sha1_digest de_torrent (wt_fs w) p = Some (Some source) ->
  (p, (source, watch_subdir_category (wo_dir o) p)) ∈ fst (poll_files o files w).
Proof.
  revert w. induction files as [|q rest IH]; intros w Hr Hin Hs Hc Hsrc; [by apply elem_of_nil in Hin|]. cbn [Watch.poll_files].
  assert (Hr1 : roomy o (wt_fs w) 1) by (unfold roomy in *; cbn [length] in Hr; lia).
  destruct (decide (q = p)) as [->|Hne].
  - rewrite decide_False by done. unfold ingest_watch_path at 1. rewrite Hsrc. destruct (poll_files o rest _) as [more w']. cbn [fst]. by left.
  - apply elem_of_cons in Hin as [->|Hin]; [done|]. destruct (decide (q ∈ wt_seen w)).
    { apply IH; try done. unfold roomy in *. cbn [length] in Hr. lia. }
    pose proof (ingest_other o (wt_fs w) q p c Hr1 (not_eq_sym Hne) Hc) as Hc'. pose proof (ingest_size o (wt_fs w) q Hr1) as Hsz.
    destruct (ingest_watch_path _ _ _ o (wt_fs w) q) as [added fs]. cbn [snd] in *.
    specialize (IH (mkWatch fs ({[q]} ∪ wt_seen w))). destruct (poll_files o rest _) as [more w'] eqn:E. cbn [fst wt_fs wt_seen] in *.
    assert (Hgoal : (p, (source, watch_subdir_category (wo_dir o) p)) ∈ more).
    { apply IH; [by eapply roomy_next|done|set_solver|done|]. revert Hsrc. unfold watch_source, file_starts_with_magnet, read_file. by rewrite Hc, Hc'. }
    destruct added; [by right|done].
Qed.

(** A watch that does not delete loses no file: what it moves keeps its contents and
    replaces nothing. *)
Theorem watch_keeps_files o files w :
  wo_delete o = false -> roomy o (wt_fs w) (length files) ->
  file_contents (wt_fs (snd (poll_files o files w))) ≡ₚ file_contents (wt_fs w).
Proof.
  intros Ho. revert w. induction files as [|q rest IH]; intros w Hr; cbn [Watch.poll_files]; [done|].
  assert (Hr1 : roomy o (wt_fs w) 1) by (unfold roomy in *; cbn [length] in Hr; lia).
  destruct (decide (q ∈ wt_seen w)); [apply IH; unfold roomy in *; cbn [length] in Hr; lia|].
  assert (Hk : file_contents (snd (ingest_watch_path sha1_digest de_torrent rename_ok o (wt_fs w) q)) ≡ₚ file_contents (wt_fs w)).
  { unfold ingest_watch_path. destruct (watch_source _ _ (wt_fs w) q) as [[s|]|]; [|done..]. by apply finish_kept. }
  pose proof (ingest_size o (wt_fs w) q Hr1) as Hsz. destruct (ingest_watch_path _ _ _ o (wt_fs w) q) as [added fs]. cbn [snd] in *.
  specialize (IH (mkWatch fs ({[q]} ∪ wt_seen w))). cbn [wt_fs] in IH. destruct (poll_files o rest _) as [more w']. cbn [snd] in *.
  rewrite IH by (by eapply roomy_next). done.
Qed.
End Runs.

(** ** The category file reads back *)

Section RoundTrip.
Context {TR : TomlRows} (iter : gmap bytes Category -> list (bytes * Category)).

(** Categories as the session keeps them: under their names, with no empty path. *)
Definition wf_categories (cats : gmap bytes Category) : Prop :=
  forall name c, cats !! name = Some c -> cat_name c = name /\ cat_save_path c <> Some [] /\ forall path, cat_save_path c = Some path -> is_utf8 path = true.

Theorem categories_roundtrip cats text :
  (forall rows text, rows_to_toml rows = Some text -> rows_of_toml text = Some rows) -> (forall m, iter m ≡ₚ map_to_list m) ->
  wf_categories cats -> save_categories iter cats = Some text -> load_categories (Some text) = cats.
Proof.
  intros Htoml Hiter Hwf Hs. unfold load_categories. cbn. rewrite (Htoml _ _ Hs).
  assert (Hrow : forall name c, cats !! name = Some c -> category_of (row_of c) = c).
  { intros name [n path] Hc. destruct (Hwf _ _ Hc) as (_ & Hne & Hu). cbn [cat_save_path] in *. unfold category_of, row_of. cbn [row_name row_save_path cat_name cat_save_path].
    unfold category_new. destruct path as [path|]; cbn; [|done]. rewrite utf8_lossy_valid by by apply Hu. by destruct path. }
  assert (H : forall l (m : gmap bytes Category), (forall e, e ∈ l -> cats !! fst e = Some (snd e)) ->
    fold_left (fun m row => <[cat_name (category_of row) := category_of row]> m) (map row_of (map snd l)) m = fold_left (fun m e => <[fst e := snd e]> m) l m).
  { induction l as [|[name c] l IH]; intros m Hl; [done|]. cbn [map fold_left fst snd]. assert (Hc : cats !! name = Some c) by (apply (Hl (name, c)); by left).
    rewrite (Hrow _ _ Hc). destruct (Hwf _ _ Hc) as [-> _]. apply IH. intros e He. apply Hl. by right. }
  rewrite H.
  - assert (Hf : forall l (m : gmap bytes Category), fold_left (fun (m : gmap bytes Category) e => <[fst e := snd e]> m) l m = list_to_map (rev l) ∪ m).
    { induction l as [|[name c] l IH]; intros m; [by rewrite left_id_L by apply _|]. cbn [fold_left rev fst snd]. rewrite IH, list_to_map_app. cbn [list_to_map].
      rewrite <-map_union_assoc. f_equal. cbn. rewrite <-insert_union_l. by rewrite left_id_L by apply _. }
    rewrite Hf, right_id_L by apply _. etrans; [|apply (list_to_map_to_list cats)]. assert (Hp : rev (iter cats) ≡ₚ map_to_list cats) by (etrans; [symmetry; apply Permutation_rev|apply Hiter]).
    apply list_to_map_proper; [|exact Hp]. rewrite Hp. apply NoDup_fst_map_to_list.
  - intros [name c] He. rewrite Hiter in He. by apply elem_of_map_to_list in He.
Qed.
End RoundTrip.

(** ** Where the watch directory falls short *)

Definition example_watch : WatchOptions := mkWatchOptions [str "w"] false (Some [str "s"]).
Definition example_file : Path := [str "w"; str "a.magnet"].
Definition example_fs (content : bytes) : Fs := {[ [str "w"] := NodeDir; example_file := NodeFile content ]}.
Definition example_polls (o : WatchOptions) (rename_ok : Path -> Path -> bool) (evs : list WatchEvent) (fs : Fs) : list (Path * Added) * Watch :=
  watch_run (fun _ => []) (fun _ => None) rename_ok o evs (mkWatch fs ∅).
Definition writes (content : bytes) : WatchEvent := Changed (fun fs => <[example_file := NodeFile content]> fs).

Example complete_is_added :
  map fst (fst (example_polls example_watch (fun _ _ => true) [Polled] (example_fs (magnet_display example_magnet)))) = [example_file].
Proof. vm_compute. reflexivity. Qed.

(** A file that is polled while it is still being written is looked at once, cannot be
    read, and is never looked at again: it stays in the directory and its torrent is
    not added. *)
Theorem partial_file_never_added n :
  fst (example_polls example_watch (fun _ _ => true) ([Polled; writes (magnet_display example_magnet)] ++ repeat Polled n)
    (example_fs (take 9 (magnet_display example_magnet)))) = [].
Proof.
  pose (step := watch_step (fun _ => []) (fun _ => None) (fun _ _ => true) example_watch).
  pose (w0 := mkWatch (example_fs (take 9 (magnet_display example_magnet))) ∅). pose (w1 := snd (step w0 Polled)). pose (w2 := snd (step w1 (writes (magnet_display example_magnet)))).
  assert (E0 : step w0 Polled = ([], w1)) by (vm_compute; reflexivity). assert (E1 : step w1 (writes (magnet_display example_magnet)) = ([], w2)) by (vm_compute; reflexivity).
  assert (E2 : step w2 Polled = ([], w2)) by (vm_compute; reflexivity).
  assert (H : watch_run (fun _ => []) (fun _ => None) (fun _ _ => true) example_watch (repeat Polled n) w2 = ([], w2)).
  { induction n as [|n IH]; [done|]. cbn [repeat watch_run]. fold step. by rewrite E2, IH. }
  unfold example_polls. fold w0. cbn [app watch_run]. fold step. by rewrite E0, E1, H.
Qed.

(** A second torrent under the name of one that was added and moved away is not
    looked at. *)
Theorem replaced_file_ignored :
  let other := mkMagnet (replicate 20 9) None [] [] [] in
  map fst (fst (example_polls example_watch (fun _ _ => true) [Polled; writes (magnet_display other); Polled; Polled]
    (example_fs (magnet_display example_magnet)))) = [example_file] /\
  read_file (wt_fs (snd (example_polls example_watch (fun _ _ => true) [Polled; writes (magnet_display other); Polled; Polled]
    (example_fs (magnet_display example_magnet))))) example_file = Some (magnet_display other).
Proof. vm_compute. done. Qed.
